(* ===== verification/_CoqProject ===== *)
-Q . S2P
Prelude.v
ContainerHeap.v
KeyedHeap.v
BitPlace.v
MinHeap.v
GenStore.v
StoreI.v
GoStrings.v
PodModel.v
PodState.v
DispatchFifo.v
DispatchStore.v
UnitInfos.v
Dispatcher.v
Splay.v
SplayRefine.v
SplayProps.v
SplaySpec.v
HashSlice.v
Resource.v
MicroTopo.v
PodInfos.v
PodInfosProps.v
Numa.v
NumaProps.v
NumaParse.v
NumaSpec.v
NodeInfo.v
NodeInfoProps.v
NodeInfoSpec.v
Framework.v
NodeClone.v
NodeStore.v
NodeStoreProps.v
FilterPlugins.v
PdbStore.v
PdbStoreProps.v
PdbStoreSpec.v
VictimSearch.v
VictimSearchProps.v
VictimSearchSpec.v
Preempt.v
PreemptProps.v
Candidates.v
CandidatesSpec.v
IsolatedCache.v
BetterPreempt.v
BetterPreemptSpec.v
PodSchedule.v
PodScheduleSpec.v
SchedCache.v
SchedCacheProps.v
SchedCacheSpec.v
Snapshot.v
SnapshotProps.v
SnapshotSpec.v
Units.v
SchedQueue.v
SchedQueueRefine.v
SchedQueueProps.v
PodGroup.v
PodGroupSpec.v
BinderUnit.v
Binder.v
BinderProps.v
BinderFlow.v
BinderBind.v
BinderSpec.v
