(* ===== verification/Prelude.v ===== *)
(** * Godel scheduler: a verification library

    Godel is a distributed scheduler for Kubernetes.  A _dispatcher_ sorts the
    pending pods and gives each to one of several _schedulers_; a scheduler picks a
    node for it, possibly with pods to be preempted; a _binder_ checks the decision
    against the other schedulers' and binds the pod.  The three programs share no
    memory: they talk through the annotations of the pod.  Inside each program,
    informer events and the program's own decisions change caches and queues.

    This library models the parts of these programs that hold state and proves
    what the rest of the code relies on.  Go values are kept as they are: [int64]
    as [Z] with its wrap-around written out ([wrap64]), maps as [gmap], slices as
    lists with Go's index panics, pointers that the code compares with nil as
    [option].  A Go panic, and a call that ends the process, is [None]; a returned
    error is a value.  The order in which Go ranges over a map is a parameter
    ([MapRange], or an [order] argument), assumed to visit each entry once.

    ** The files, bottom up

    - Prelude: strict weak orders, the class of map iteration orders, int64, and
      lemmas on lists and maps.
    - ContainerHeap, KeyedHeap (src/pkg/util/heap), BitPlace
      (src/pkg/util/bitplace), MinHeap (src/pkg/scheduler/util/min_heap.go and the
      host selection of pod_scheduler.go): containers.  Go's [container/heap] is
      proved once against the class of its interface and used by the keyed heap
      and the dispatcher's priority queue.
    - GenStore, StoreI (src/pkg/util/generationstore): the store of the caches, a
      linked list ordered by generation, modelled cell by cell; StoreI is the
      interface the node store is written against, with both implementations.
    - GoStrings, PodModel, PodState (src/pkg/util/pod): strings, the pod object and
      the states a pod goes through, with every writer of the state annotations
      (dispatcher, scheduler, binder, reconciler) as one step relation.
    - DispatchFifo, DispatchStore, UnitInfos, Dispatcher (src/pkg/dispatcher): the
      queues, the load index, gang dispatching, and the event handlers and
      dispatching of one pod that connect them.
    - Splay, SplayRefine, SplayProps, SplaySpec (src/pkg/util/splay): the
      array-based splay tree with its maintained sums.
    - HashSlice, Resource, MicroTopo, PodInfos, PodInfosProps, Numa, NumaProps,
      NumaParse, NumaSpec, NodeInfo, NodeInfoProps, NodeInfoSpec, NodeClone
      (src/pkg/framework/api): resources, host ports, the pods of a node spread over
      splay trees and hash slices, the NUMA status, and the node's accounts.
    - NodeStore, NodeStoreProps, SchedCache, SchedCacheProps, SchedCacheSpec
      (src/pkg/scheduler/cache): the node store and the pod store, and the cache
      that passes each event to both.
    - Snapshot, SnapshotProps, SnapshotSpec (src/pkg/scheduler/cache/snapshot.go):
      the copy of the nodes a scheduling cycle works on, and its refresh.
    - Units, SchedQueue, SchedQueueRefine, SchedQueueProps (src/pkg/scheduler/queue,
      src/pkg/plugins/unitqueuesort): schedule units, their order, and the
      scheduling queue made of four keyed heaps.
    - Framework (src/pkg/framework/api/interface.go, src/pkg/scheduler/framework/
      runtime): statuses, the runner of the filters; FilterPlugins: the filters on
      resources, ports, taints, labels and NUMA, and the PreFilter that feeds them.
    - PdbStore, PdbStoreProps, PdbStoreSpec (cache/commonstores/pdb_store): the index
      between disruption budgets and the owners of pods.
    - VictimSearch, VictimSearchProps, VictimSearchSpec (src/pkg/scheduler/framework/
      preemption-plugins/searching): which pods may be victims, and the budgets a
      preemption takes from.
    - Preempt, PreemptProps, Candidates, CandidatesSpec, IsolatedCache,
      BetterPreempt, BetterPreemptSpec (pod_scheduler/preemption.go, candidate.go):
      the victims on a node, the policies that look for nodes, the candidates kept
      for the other pods of a unit, and the choice among candidates.
    - PodSchedule, PodScheduleSpec (pod_scheduler/pod_scheduler.go): the schedule of
      one pod: preferred nodes, node circles, nodes cached for the owner, scores.
    - PodGroup, PodGroupSpec (src/pkg/binder/controller/podgroup.go): the phases of a
      pod group, and the lock that keeps the binder and the timeout apart.
    - BinderUnit, Binder (src/pkg/binder/binder_unit.go, godel_binder.go): the unit
      being bound and the workflow of the binder; BinderProps relates a unit to the
      map from its tasks to their places, BinderFlow and BinderBind show that each
      stage returns and how it changes that map, BinderSpec puts them together.

    A component has its definitions in the file named after it; [XRefine] and
    [XProps] hold its invariant and lemmas, [XSpec] its theorems with examples.
    Definitions keep the names of the source where that is possible; a prefix
    tells methods of the same name apart ([ps_AddPod] is the pod store's).

    ** What is shown

    - Refinement: each container is the map, set, list or queue its users take it
      for (keyed heap, place allocator, list store, splay tree, hash slices, pods of
      a node, scheduling queue); writes to a pod from its current version follow the
      state machine pending, dispatched, assumed, bound, and no write, from whatever
      version, moves a bound pod; the phases of a pod group follow their table; a
      refresh makes the snapshot equal to the cache while every node of the cache has
      its node object.
    - Invariants: the accounts of a node and of its NUMA nodes are the sums over
      its pods; a scheduler's list in the dispatcher covers its pods, and is exact as
      long as no pod changes its scheduler unseen; the node store and the pod store
      of the cache agree.
    - Which pods can be lost: none in dispatching (but for those that arrive with an
      empty unit key), and in the scheduling queue only those that the operation
      names, as long as no unit is given back while pods wait under its key; a failed
      unit becomes ready again by the timers; a pod can always still be bound.
    - The binder accounts for every pod of a unit and its cache assumes what goes on;
      it tries to bind a pod group with its minimum or not at all (what the API server
      bound before a failure stays bound there), and tasks accepted on a node do not
      conflict; a pod group that a binder locked does not time out.
    - The schedule of a pod finds a node when one fits, and the node chosen fits;
      victims are minimal and, on candidates whose labels are recorded right, respect
      the disruption budgets; both searches of the policy Better find the same least
      priority, in whatever order their parallel probes end; candidates kept for a
      unit stay sound.
    - Round trips of the annotations, of adding and removing pods, of assuming and
      forgetting them; exactness of expiry and of the preemption queries.
    - Cases where the code does not do what its comments say, as theorems about
      concrete runs.

    Where a theorem excludes such a case, its comment names the condition and the
    run that breaks it ([PodState.stale_patch_repaired],
    [SchedQueueProps.activated_unit_overwritten], [snapshot_keeps_deleted_node] of
    SnapshotSpec, [insert_keeps_old_info] of SplaySpec, [bound_pod_rejected] of
    BinderSpec, [match_cache_ignores_namespace] and [unlabelled_pod_ignores_budget],
    [DispatchFifo.readd_keeps_place]).

    ** Fuel

    Loops over pointers take fuel: the number of cells for the list store, the
    number of items for the splay tree, the length of the slice for the heaps.  The
    theorems show that the result is never [None] for lack of it (each operation is
    shown to return).  The loop that scans from [Front] of the list store gets one
    unit for each location ever used.

    ** Assumptions

    What is not code of this repository is a parameter: quantity parsing and
    printing, JSON, listers, clocks and random numbers.  The theorems about the
    cache and its snapshot are for [NonNativeResourceSchedulingSupport] disabled (no
    NUMA status); the NUMA status has its own theorems.  Generations of the list
    store are assumed to stay below the largest int64.  Sub-clusters are off.
    Locks are not modelled: each method holds its lock for its whole body, so an
    execution is a sequence of calls.  Writes to pods and pod groups go through an API
    server that merges patches (pods) or refuses outdated versions (pod groups), and
    the writers may read outdated versions.  The binder's cache is a class with the laws
    the binder relies on; what its goroutines do in parallel is done in turn.  The
    parallel probes of the policy Better end in any order, and any number of them may
    end after the search was told to stop.

    ** Not modelled

    The commands and options (cmd), API clients, informers, metrics, tracing, and
    generated code; the scoring plugins and the filters on node affinity, volumes and
    load (parameters of the pod scheduler); the unit plugins that build node groups;
    the reservation, preemption, unit-status, pod-group, movement and load-aware
    stores; the binder's queue, caches and event handlers; the other controllers;
    code copied from Kubernetes (volume binding, deployment and controller
    utilities).  They keep little state of their own or mirror the code modelled here
    (the binder's node and pod stores).  The manifest gives a reason for
    each. *)
From Corelib Require Export ssreflect.
From stdpp Require Export base gmap list strings sorting.
From Stdlib Require Export ZArith Lia.

Global Open Scope general_if_scope.
#[export] Set SsrOldRewriteGoalsOrder.

Declare Scope godel_scope.
Delimit Scope godel_scope with godel.

(** Go's [==] on comparable values. *)
Notation "a ≟ b" := (bool_decide (a = b)) (at level 70, no associativity) : godel_scope.

(** ** Automation shared by the components *)

Create HintDb godel discriminated.

(** Case analysis on every [match]/[if] whose scrutinee appears in the goal. *)
Ltac go_cases :=
  repeat (case_match || case_decide || case_bool_decide); simplify_eq/=.

(** Splits an option-monad computation that is known to succeed. *)
Ltac inv_ok :=
  repeat match goal with
  | H : _ ≫= _ = Some _ |- _ =>
      apply bind_Some in H as (? & ? & H)
  | H : guard _;; _ = Some _ |- _ => apply bind_Some in H as (? & ? & H)
  | H : context [match ?x with _ => _ end] |- _ =>
      destruct x eqn:?; try discriminate H
  end; simplify_eq/=.

(** ** Strict weak orders given by a boolean [less] function

    Every heap and every sort of the program is driven by a Go [func(a, b)
    bool]; the data structure works when that function is a strict weak order. *)
Class StrictWeak {A} (lt : A → A → bool) : Prop := {
  sw_asym : ∀ x y, lt x y = true → lt y x = false;
  sw_ntrans : ∀ x y z, lt y x = false → lt z y = false → lt z x = false
}.

Section strict_weak.
Context {A : Type} (lt : A → A → bool) `{!StrictWeak lt}.

Lemma sw_irrefl x : lt x x = false.
Proof. destruct (lt x x) eqn:E; [|done]. by apply sw_asym in E as E'; congruence. Qed.

Lemma sw_lt_trans x y z : lt x y = true → lt y z = true → lt x z = true.
Proof.
  intros H1 H2. destruct (lt x z) eqn:E; [done|].
  pose proof (sw_asym _ _ H2) as H2'.
  by rw (sw_ntrans y z x H2' E) in H1.
Qed.
End strict_weak.

(** The order used where the source passes [alwaysFalse]. *)
#[export] Instance strict_weak_false {A} : StrictWeak (λ _ _ : A, false).
Proof. by split. Qed.

(** A strict weak order pulled back along a key function. *)
Lemma strict_weak_key {A B} (f : A → B) (lt : B → B → bool) :
  StrictWeak lt → StrictWeak (λ x y, lt (f x) (f y)).
Proof. intros [Ha Hn]. split; intros *; [apply Ha|apply Hn]. Qed.

(** Lexicographic composition: compare by [lt1] when it decides, by [lt2]
    otherwise. *)
Lemma strict_weak_lex {A} (lt1 lt2 : A → A → bool) :
  StrictWeak lt1 → StrictWeak lt2 →
  StrictWeak (λ x y, if lt1 x y then true else if lt1 y x then false else lt2 x y).
Proof.
  intros [Ha1 Hn1] [Ha2 Hn2]; split.
  - intros x y. destruct (lt1 x y) eqn:E1.
    + by rw (Ha1 _ _ E1).
    + destruct (lt1 y x) eqn:E2; [done|]. apply Ha2.
  - intros x y z.
    destruct (lt1 y x) eqn:E1; [done|]. destruct (lt1 z y) eqn:E2; [done|].
    rw (Hn1 _ _ _ E1 E2).
    destruct (lt1 x z) eqn:E5; [done|].
    destruct (lt1 x y) eqn:E3; [pose proof (Hn1 _ _ _ E2 E5); congruence|].
    destruct (lt1 y z) eqn:E4; [pose proof (Hn1 _ _ _ E5 E1); congruence|].
    apply Hn2.
Qed.

#[export] Instance strict_weak_Zltb : StrictWeak Z.ltb.
Proof. split; intros *; rw ?Z.ltb_lt ?Z.ltb_ge; lia. Qed.

#[export] Instance strict_weak_Zgtb : StrictWeak Z.gtb.
Proof.
  split; intros *; rw ?Z.gtb_ltb; rw ?Z.ltb_lt ?Z.ltb_ge; lia.
Qed.

(** ** Slices as lists

    [l !! i] is a read of a Go slice, [None] standing for the run-time panic
    of an index out of range. *)
Section slices.
Context {A : Type}.
Implicit Types l : list A.

(** [s[i], s[j] = s[j], s[i]] *)
Definition swap (i j : nat) l : option (list A) :=
  x ← l !! i; y ← l !! j; Some (<[j:=x]> (<[i:=y]> l)).

(** [s[i] = x] *)
Definition store (i : nat) (x : A) l : option (list A) :=
  if decide (i < length l) then Some (<[i:=x]> l) else None.

Lemma swap_Some i j l x y :
  l !! i = Some x → l !! j = Some y → swap i j l = Some (<[j:=x]> (<[i:=y]> l)).
Proof. intros Hi Hj. unfold swap. by rw Hi /= Hj. Qed.

Lemma swap_perm i j l l' : swap i j l = Some l' → l' ≡ₚ l.
Proof.
  unfold swap. intros. inv_ok. by apply Permutation_insert_swap.
Qed.

Lemma swap_length i j l l' : swap i j l = Some l' → length l' = length l.
Proof. intros ?%swap_perm. by apply Permutation_length. Qed.

Lemma store_Some i x l : i < length l → store i x l = Some (<[i:=x]> l).
Proof. intros. unfold store. by rw decide_True. Qed.

Lemma lookup_swapped i j k l x y :
  l !! i = Some x → l !! j = Some y →
  <[j:=x]> (<[i:=y]> l) !! k =
    if decide (k = j) then Some x else if decide (k = i) then Some y else l !! k.
Proof.
  intros Hi Hj. apply lookup_lt_Some in Hi as ?. apply lookup_lt_Some in Hj as ?.
  case_decide; subst.
  - rw list_lookup_insert_eq; [done|]. by rw length_insert.
  - rw list_lookup_insert_ne; [|done]. case_decide; subst.
    + by rw list_lookup_insert_eq.
    + by rw list_lookup_insert_ne.
Qed.

Lemma lookup_is_Some_lt l i : i < length l → ∃ x, l !! i = Some x.
Proof. intros [x ?]%lookup_lt_is_Some. eauto. Qed.

Lemma snoc_inv l n : length l = S n → ∃ l' x, l = l' ++ [x] ∧ length l' = n.
Proof.
  destruct l as [|x l _] using rev_ind; simpl; [done|].
  rw length_app /=. intros. exists l, x. split; [done|lia].
Qed.
End slices.

(** An element splits a list without duplicates in one way only. *)
Lemma NoDup_split_unique {A} (l1 l2 k1 k2 : list A) (x : A) :
  NoDup (l1 ++ x :: l2) → l1 ++ x :: l2 = k1 ++ x :: k2 → l1 = k1 ∧ l2 = k2.
Proof.
  revert k1. induction l1 as [|y l1 IH]; intros [|z k1]; simpl.
  - by intros _ [= ->].
  - intros [Hx _]%NoDup_cons [= <- ->]. set_solver.
  - intros [Hx _]%NoDup_cons [= -> <-]. set_solver.
  - intros [_ HND]%NoDup_cons [= <- Heq]. by destruct (IH k1 HND Heq) as [-> ->].
Qed.

Lemma StronglySorted_lookup_lt {A} (R : relation A) (l : list A) (i j : nat) (x y : A) :
  StronglySorted R l → i < j → l !! i = Some x → l !! j = Some y → R x y.
Proof.
  intros Hl. revert i j. induction Hl as [|z l _ IH HF]; [done|].
  intros [|i] [|j] Hij Hx Hy; simplify_eq/=; [lia| |lia|].
  - by eapply Forall_lookup in HF.
  - eapply (IH i j); [lia|done..].
Qed.

(** ** Filters *)
Section filters.
Context {A : Type} (P : A → Prop) `{!∀ x, Decision (P x)}.

Lemma filter_all (l : list A) : (∀ x, x ∈ l → P x) → filter P l = l.
Proof.
  induction l as [|x l IH]; intros Hl; [done|].
  rw filter_cons_True; [|apply Hl; set_solver]. f_equal. apply IH. set_solver.
Qed.

Lemma filter_none (l : list A) : (∀ x, x ∈ l → ¬ P x) → filter P l = [].
Proof.
  induction l as [|x l IH]; intros Hl; [done|].
  rw filter_cons_False; [|apply Hl; set_solver]. apply IH. set_solver.
Qed.

Lemma filter_iff_in (Q : A → Prop) `{!∀ x, Decision (Q x)} (l : list A) :
  (∀ x, x ∈ l → P x ↔ Q x) → filter P l = filter Q l.
Proof.
  induction l as [|x l IH]; intros Hl; [done|]. rw !filter_cons.
  rw IH; [|set_solver]. destruct (Hl x) as [H1 H2]; [set_solver|].
  repeat case_decide; tauto.
Qed.

Lemma NoDup_fmap_filter {B} (g : A → B) (l : list A) : NoDup (g <$> l) → NoDup (g <$> filter P l).
Proof.
  induction l as [|x l IH]; [done|]. rw fmap_cons NoDup_cons filter_cons. intros [Hx Hl].
  case_decide; [|by apply IH]. rw fmap_cons NoDup_cons. split; [|by apply IH].
  intros (y & Hxy & [_ Hy]%list_elem_of_filter)%list_elem_of_fmap. apply Hx.
  rw Hxy. by apply list_elem_of_fmap_2.
Qed.

Lemma StronglySorted_filter (R : relation A) (l : list A) :
  StronglySorted R l → StronglySorted R (filter P l).
Proof.
  induction 1 as [|x l Hs IH Hx]; [constructor|]. rw filter_cons. case_decide; [|done].
  constructor; [done|]. apply Forall_forall. intros y [_ Hy]%list_elem_of_filter.
  by eapply Forall_forall in Hx.
Qed.
End filters.

#[export] Hint Resolve swap_perm swap_length : godel.

(** ** 64-bit integers

    Go's [int]/[int64] are two's-complement 64-bit words; arithmetic on them
    wraps. *)
Definition i64_min : Z := (- 2 ^ 63)%Z.
Definition i64_max : Z := (2 ^ 63 - 1)%Z.
Definition wrap64 (z : Z) : Z := ((z + 2 ^ 63) mod 2 ^ 64 - 2 ^ 63)%Z.
Definition in_i64 (z : Z) : Prop := (i64_min ≤ z ≤ i64_max)%Z.

Lemma wrap64_range z : in_i64 (wrap64 z).
Proof.
  unfold in_i64, wrap64, i64_min, i64_max.
  pose proof (Z.mod_pos_bound (z + 2 ^ 63) (2 ^ 64) ltac:(lia)). lia.
Qed.

Lemma wrap64_id z : in_i64 z → wrap64 z = z.
Proof.
  unfold in_i64, wrap64, i64_min, i64_max. intros.
  rw Z.mod_small; lia.
Qed.

(** int32 arithmetic. *)
Definition wrap32 (z : Z) : Z := ((z + 2 ^ 31) mod 2 ^ 32 - 2 ^ 31)%Z.
Lemma wrap32_id z : (- 2 ^ 31 <= z < 2 ^ 31)%Z → wrap32 z = z.
Proof. intros H. unfold wrap32. rw Z.mod_small; lia. Qed.

(** Wrapping after every step or once at the end gives the same word. *)
(** ** Sums *)

Definition zsum {A} (f : A → Z) (l : list A) : Z := foldr (λ x a, (f x + a)%Z) 0%Z l.

Lemma zsum_cons {A} (f : A → Z) x l : zsum f (x :: l) = (f x + zsum f l)%Z.
Proof. done. Qed.

Lemma zsum_app {A} (f : A → Z) l l' : zsum f (l ++ l') = (zsum f l + zsum f l')%Z.
Proof. induction l as [|p l IH]; simpl; lia. Qed.

#[export] Instance zsum_perm {A} (f : A → Z) : Proper ((≡ₚ) ==> (=)) (zsum f).
Proof. intros l l' HP. induction HP; simpl; lia. Qed.

Lemma zsum_ext {A} (f g : A → Z) l : (∀ x, x ∈ l → f x = g x) → zsum f l = zsum g l.
Proof.
  induction l as [|x l IH]; simpl; [done|]. intros H. rw (H x); [|set_solver].
  rw IH; [|intros y Hy; apply H; set_solver]. done.
Qed.

(** The sum over a set, and over the values of a map. *)
Definition ssum (f : string → Z) (X : gset string) : Z := zsum f (elements X).
Definition msum `{Countable K} {A} (f : A → Z) (m : gmap K A) : Z := zsum (λ kv, f kv.2) (map_to_list m).

Lemma ssum_add f X k : k ∉ X → ssum f ({[k]} ∪ X) = (f k + ssum f X)%Z.
Proof. intros Hk. unfold ssum. by rw elements_union_singleton. Qed.

Lemma ssum_remove f X k : k ∈ X → ssum f (X ∖ {[k]}) = (ssum f X - f k)%Z.
Proof.
  intros Hk. assert (X = {[k]} ∪ (X ∖ {[k]})) as E by (apply union_difference_L; set_solver).
  rw {2}E ssum_add; [|set_solver]. lia.
Qed.

Lemma ssum_empty f : ssum f ∅ = 0%Z.
Proof. unfold ssum. by rw elements_empty. Qed.

Lemma ssum_ext f g X : (∀ k, k ∈ X → f k = g k) → ssum f X = ssum g X.
Proof. intros H. apply zsum_ext. intros k Hk. apply H. by apply elem_of_elements. Qed.

Lemma msum_insert `{Countable K} {A} (f : A → Z) (m : gmap K A) i x :
  m !! i = None → msum f (<[i := x]> m) = (f x + msum f m)%Z.
Proof. intros Hi. unfold msum. by rw map_to_list_insert. Qed.

Lemma msum_delete `{Countable K} {A} (f : A → Z) (m : gmap K A) i x :
  m !! i = Some x → msum f (delete i m) = (msum f m - f x)%Z.
Proof. intros Hi. unfold msum. rw -(map_to_list_delete m i x) //=. lia. Qed.

Lemma msum_set `{Countable K} {A} (f : A → Z) (m : gmap K A) i x y :
  m !! i = Some x → msum f (<[i := y]> m) = (msum f m - f x + f y)%Z.
Proof.
  intros Hi. rw -(insert_delete_eq m) msum_insert; [|apply lookup_delete_eq]. rw (msum_delete f m i x) //. lia.
Qed.

(** A map copied entry by entry, in any order of iteration, is the same map. *)
Lemma map_copy `{Countable K} {A} (order : gmap K A → list (K * A)) (m : gmap K A) :
  (∀ m, order m ≡ₚ map_to_list m) → foldl (λ acc kv, <[kv.1 := kv.2]> acc) ∅ (order m) = m.
Proof.
  intros Ho.
  assert (∀ (l : list (K * A)) (h0 : gmap K A) k, NoDup l.*1 → foldl (λ (h : gmap K A) kv, <[kv.1:=kv.2]> h) h0 l !! k
    = match (list_to_map l : gmap K A) !! k with Some i => Some i | None => h0 !! k end) as Hf.
  { clear. induction l as [|[k' i] l IH]; intros h0 k; simpl; [by rw lookup_empty|].
    intros [Hn HND]%NoDup_cons. rw IH //. destruct (decide (k = k')) as [->|Hne].
    - rw lookup_insert_eq. by rw not_elem_of_list_to_map_1 // lookup_insert_eq.
    - rw !lookup_insert_ne //. }
  apply map_eq. intros k. rw Hf; [|rw Ho; apply NoDup_fst_map_to_list].
  assert (list_to_map (order m) = m) as ->.
  { rw -{2}(list_to_map_to_list m). apply list_to_map_proper; [rw Ho; apply NoDup_fst_map_to_list|apply Ho]. }
  rw lookup_empty. by destruct (m !! k).
Qed.

Lemma wrap64_eqm a b : (a mod 2 ^ 64 = b mod 2 ^ 64)%Z → wrap64 a = wrap64 b.
Proof. intros H. unfold wrap64. by rw Zplus_mod H -Zplus_mod. Qed.

Lemma wrap64_mod a : (wrap64 a mod 2 ^ 64 = a mod 2 ^ 64)%Z.
Proof. unfold wrap64. rw Zminus_mod Zmod_mod -Zminus_mod. f_equal. lia. Qed.

Lemma wrap64_add_l a b : wrap64 (wrap64 a + b) = wrap64 (a + b).
Proof. apply wrap64_eqm. by rw Zplus_mod wrap64_mod -Zplus_mod. Qed.
Lemma wrap64_add_r a b : wrap64 (a + wrap64 b) = wrap64 (a + b).
Proof. by rw Z.add_comm wrap64_add_l Z.add_comm. Qed.
Lemma wrap64_sub_l a b : wrap64 (wrap64 a - b) = wrap64 (a - b).
Proof. apply wrap64_eqm. by rw Zminus_mod wrap64_mod -Zminus_mod. Qed.
Lemma wrap64_sub_r a b : wrap64 (a - wrap64 b) = wrap64 (a - b).
Proof. apply wrap64_eqm. by rw Zminus_mod wrap64_mod -Zminus_mod. Qed.
Lemma wrap64_opp a : wrap64 (- wrap64 a) = wrap64 (- a).
Proof. by rw -!Z.sub_0_l wrap64_sub_r. Qed.
Lemma wrap64_idem a : wrap64 (wrap64 a) = wrap64 a.
Proof. apply wrap64_id, wrap64_range. Qed.
#[export] Hint Resolve wrap64_range : godel.

(** ** Iteration over Go maps

    [range] over a map visits every entry once, in an order the runtime
    chooses.  [map_range] is that choice; what is proved holds for every
    choice. *)
Class MapRange := map_range : ∀ (K : Type) (EqK : EqDecision K) (CK : Countable K) (A : Type), gmap K A → list (K * A).
Class MapRangeLaws (MR : MapRange) :=
  map_range_perm : ∀ K EqK CK A (m : gmap K A), MR K EqK CK A m ≡ₚ map_to_list m.
Abbreviation range_map m := (map_range _ _ _ _ m).

(** The orders of stdpp's own enumeration. *)
#[export] Instance std_range : MapRange := λ K EqK CK A m, map_to_list m.
#[export] Instance std_range_laws : MapRangeLaws std_range.
Proof. intros K EqK CK A m. reflexivity. Qed.

Section map_range.
Context {MR : MapRange} {ML : MapRangeLaws MR}.
Context `{Countable K} {A : Type}.
Implicit Types m : gmap K A.

Lemma range_elem m k x : (k, x) ∈ range_map m ↔ m !! k = Some x.
Proof. rw map_range_perm. apply elem_of_map_to_list. Qed.
Lemma range_nodup m : NoDup (range_map m).*1.
Proof. rw map_range_perm. apply NoDup_fst_map_to_list. Qed.

(** A loop that writes the image of each entry under its key. *)
Lemma range_copy_fmap {B} (f : A → B) m :
  foldl (λ acc kv, <[kv.1 := f kv.2]> acc) ∅ (range_map m) = f <$> m.
Proof.
  assert (∀ (l : list (K * A)) (h0 : gmap K B) k, NoDup l.*1 →
    foldl (λ (acc : gmap K B) kv, <[kv.1 := f kv.2]> acc) h0 l !! k
    = match (list_to_map l : gmap K A) !! k with Some x => Some (f x) | None => h0 !! k end) as Hf.
  { clear. induction l as [|[k' x] l IH]; intros h0 k; simpl; [by rw lookup_empty|].
    intros [Hn HND]%NoDup_cons. rw IH //. destruct (decide (k = k')) as [->|Hne].
    - rw lookup_insert_eq. by rw not_elem_of_list_to_map_1 // lookup_insert_eq.
    - rw !lookup_insert_ne //. }
  apply map_eq. intros k. rw Hf; [|apply range_nodup].
  assert (list_to_map (range_map m) = m) as ->.
  { rw -{2}(list_to_map_to_list m). apply list_to_map_proper; [apply range_nodup|apply map_range_perm]. }
  rw lookup_empty lookup_fmap. by destruct (m !! k).
Qed.
Lemma range_copy m : foldl (λ acc kv, <[kv.1 := kv.2]> acc) ∅ (range_map m) = m.
Proof. apply (map_copy (λ m', range_map m')). intros. apply map_range_perm. Qed.
End map_range.
