(* ===== verification/ContainerHeap.v ===== *)
(** * Go's [container/heap], generically over [heap.Interface]

    The scheduler's keyed heap (pkg/util/heap) and the dispatcher's priority
    queue both implement Go's [heap.Interface] and are driven by the functions
    of the standard package [container/heap].  [HeapInterface] is that
    interface; [HeapLaws] states what an implementation promises (its methods
    act on a list of elements as a slice); the sift loops are proved correct
    once against the laws. *)
From S2P Require Import Prelude.

(** [heap.Interface]: [Less] and [Swap] may panic on a bad index, [Push] and
    [Pop] on a value of the wrong type or an empty slice; [None] is the panic. *)
Class HeapInterface (H X Y : Type) := {
  h_Len : H → nat;
  h_Less : nat → nat → H → option bool;
  h_Swap : nat → nat → H → option H;
  h_Push : X → H → option H;
  h_Pop : H → option (H * Y)
}.

(** ** The functions of [container/heap] *)
Section functions.
Context {H X Y : Type} `{HI : HeapInterface H X Y}.

(** [func up(h Interface, j int)]; [j] decreases, so [j] itself is enough
    fuel. *)
Fixpoint up_loop (fuel : nat) (j : nat) (h : H) : option H :=
  let i := (j - 1) / 2 in
  if decide (i = j) then Some h else
  b ← h_Less j i h;
  if (b : bool) then
    h' ← h_Swap i j h;
    match fuel with O => None | S f => up_loop f i h' end
  else Some h.

Definition up (j : nat) (h : H) : option H := up_loop j j h.

(** [func down(h Interface, i0, n int) bool]: [n - i] bounds the steps. *)
Fixpoint down_loop (fuel : nat) (i n : nat) (h : H) : option (H * nat) :=
  let j1 := 2 * i + 1 in
  if decide (n ≤ j1) then Some (h, i) else
  let j2 := j1 + 1 in
  b2 ← (if decide (j2 < n) then h_Less j2 j1 h else Some false);
  let j := if (b2 : bool) then j2 else j1 in
  b ← h_Less j i h;
  if (b : bool) then
    h' ← h_Swap i j h;
    match fuel with O => None | S f => down_loop f j n h' end
  else Some (h, i).

Definition down (i0 n : nat) (h : H) : option (H * bool) :=
  r ← down_loop (n - i0) i0 n h;
  Some (r.1, bool_decide (i0 < r.2)).

Definition heap_Push (x : X) (h : H) : option H :=
  h' ← h_Push x h; up (h_Len h' - 1) h'.

(** Go's [n := h.Len() - 1] is -1 on an empty heap and [Swap(0, -1)] then
    panics, as [h_Swap 0 0] does here. *)
Definition heap_Pop (h : H) : option (H * Y) :=
  let n := h_Len h - 1 in
  h1 ← h_Swap 0 n h;
  r ← down 0 n h1;
  h_Pop r.1.

Definition heap_Fix (i : nat) (h : H) : option H :=
  r ← down i (h_Len h) h;
  if (r.2 : bool) then Some r.1 else up i r.1.

Definition heap_Remove (i : nat) (h : H) : option (H * Y) :=
  let n := h_Len h - 1 in
  if decide (n = i) then h_Pop h else
  h1 ← h_Swap i n h;
  r ← down i n h1;
  h2 ← (if (r.2 : bool) then Some r.1 else up i r.1);
  h_Pop h2.
End functions.

(** ** The laws of an implementation

    [hrepr h l]: the heap value [h] holds the elements [l], in slice order. *)
Class HeapLaws (H X Y E : Type) `{HeapInterface H X Y}
    (lt : E → E → bool) (hrepr : H → list E → Prop)
    (pushable : X → E → list E → Prop) (popped : E → Y) : Prop := {
  hl_len : ∀ h l, hrepr h l → h_Len h = length l;
  hl_less : ∀ h l i j x y, hrepr h l → l !! i = Some x → l !! j = Some y →
    h_Less i j h = Some (lt x y);
  hl_swap : ∀ h l i j x y, hrepr h l → l !! i = Some x → l !! j = Some y →
    ∃ h', h_Swap i j h = Some h' ∧ hrepr h' (<[j:=x]> (<[i:=y]> l));
  hl_push : ∀ h l x e, hrepr h l → pushable x e l →
    ∃ h', h_Push x h = Some h' ∧ hrepr h' (l ++ [e]);
  hl_pop : ∀ h l e, hrepr h (l ++ [e]) →
    ∃ h', h_Pop h = Some (h', popped e) ∧ hrepr h' l
}.

(** ** Heap order on a slice *)
Section order.
Context {E : Type} (lt : E → E → bool).
Implicit Types l : list E.

Definition parent (i : nat) : nat := (i - 1) / 2.

(** No child is smaller than its parent, among the first [n] cells.  The order
    is only promised for a [less] function that is a strict weak order; the
    functions keep their elements together for any [less]. *)
Definition pair_ok l (p c : nat) : Prop :=
  StrictWeak lt → ∀ x y, l !! p = Some x → l !! c = Some y → lt y x = false.

Definition heap_upto (n : nat) l : Prop :=
  ∀ i, 0 < i < n → pair_ok l (parent i) i.

Definition heap_ordered l : Prop := heap_upto (length l) l.

(** Heap order except at the cell [k], whose children are still not smaller
    than its parent. *)
Definition heap_hole (n k : nat) l : Prop :=
  (∀ i, 0 < i < n → i ≠ k → parent i ≠ k → pair_ok l (parent i) i) ∧
  (∀ i, 0 < i < n → parent i = k → 0 < k → pair_ok l (parent k) i).

Definition children_ok (n k : nat) l : Prop :=
  ∀ i, 0 < i < n → parent i = k → pair_ok l k i.

Lemma parent_lt i : 0 < i → parent i < i.
Proof. unfold parent. intros. apply Nat.Div0.div_lt_upper_bound; lia. Qed.

Lemma parent_child i c : parent c = i → 0 < c → c = 2 * i + 1 ∨ c = 2 * i + 2.
Proof.
  unfold parent. intros Hp ?. pose proof (Nat.div_mod_eq (c - 1) 2).
  pose proof (Nat.mod_upper_bound (c - 1) 2). lia.
Qed.

Lemma parent_left i : parent (2 * i + 1) = i.
Proof. unfold parent. replace (2 * i + 1 - 1) with (i * 2) by lia. apply Nat.div_mul. lia. Qed.

Lemma parent_right i : parent (2 * i + 1 + 1) = i.
Proof.
  unfold parent. replace (2 * i + 1 + 1 - 1) with (1 + i * 2) by lia.
  rw Nat.div_add; [done|lia].
Qed.

Lemma heap_close n k l :
  heap_hole n k l → children_ok n k l → (0 < k → pair_ok l (parent k) k) →
  heap_upto n l.
Proof.
  intros [H1 _] Hc Hp i Hi. destruct (decide (i = k)) as [->|]; [apply Hp; lia|].
  destruct (decide (parent i = k)) as [<-|]; [by apply Hc|by apply H1].
Qed.

Lemma heap_upto_mono n m l : m ≤ n → heap_upto n l → heap_upto m l.
Proof. intros ? Hh i ?. apply Hh. lia. Qed.
End order.

(** ** Sifting

    [sifted n l l']: [l'] rearranges the first [n] cells of [l] and leaves the
    others alone. *)
Definition sifted {E} (n : nat) (l l' : list E) : Prop :=
  l' ≡ₚ l ∧ ∀ k, n ≤ k → l' !! k = l !! k.

#[export] Instance sifted_preorder {E} n : PreOrder (@sifted E n).
Proof.
  split; [by split|]. intros l1 l2 l3 [Hp1 H1] [Hp2 H2].
  split; [by etrans|]. intros k Hk. by rw H2 // H1.
Qed.

Lemma sifted_length {E} n (l l' : list E) : sifted n l l' → length l' = length l.
Proof. intros [Hp _]. by apply Permutation_length. Qed.

Lemma sifted_swap {E} n (l : list E) i j x y :
  i < n → j < n → l !! i = Some x → l !! j = Some y →
  sifted n l (<[j:=x]> (<[i:=y]> l)).
Proof.
  intros ?? Hi Hj. split; [by apply Permutation_insert_swap|].
  intros k ?. rw !list_lookup_insert_ne //; lia.
Qed.

Lemma sifted_snoc {E} (l l' : list E) e :
  sifted (length l) (l ++ [e]) l' → ∃ l1, l' = l1 ++ [e] ∧ l1 ≡ₚ l.
Proof.
  intros Hs. pose proof (sifted_length _ _ _ Hs) as Hlen. destruct Hs as [Hp Hk].
  rw length_app /= in Hlen.
  destruct (snoc_inv l' (length l)) as (l1 & x & -> & Hl1); [lia|].
  specialize (Hk (length l) (le_n _)).
  rw -{1}Hl1 !list_lookup_middle // in Hk. simplify_eq.
  exists l1. split; [done|]. by eapply Permutation_app_inv_r.
Qed.

Section order_lemmas.
Context {E : Type} (lt : E → E → bool).
Implicit Types l : list E.

Lemma hole_up n l i j xi xj :
  i = parent j → 0 < j < n → l !! i = Some xi → l !! j = Some xj →
  lt xj xi = true → heap_hole lt n j l → children_ok lt n j l →
  let l' := <[j:=xi]> (<[i:=xj]> l) in
  heap_hole lt n i l' ∧ children_ok lt n i l'.
Proof.
  intros -> Hj Hi Hjx Hlt [H1 H2] Hc l'. pose proof (parent_lt j ltac:(lia)) as Hp.
  pose proof (λ k, lookup_swapped (parent j) j k l xi xj Hi Hjx) as HL. fold l' in HL.
  assert (Hsib : StrictWeak lt → ∀ c x, 0 < c < n → parent c = parent j → c ≠ j →
            l !! c = Some x → lt x xi = false).
  { intros SW c x ? Hpc ? Hx. eapply (H1 c); eauto; rw ?Hpc //; lia. }
  repeat split.
  - intros c Hcn Hci Hpc SW x y. rw !HL. pose proof (parent_lt c ltac:(lia)).
    assert (c ≠ j) by congruence. repeat case_decide; try lia; try congruence.
    + intros [= <-] Hy. eapply (H2 c); eauto. lia.
    + intros Hx Hy. by eapply (H1 c).
  - intros c Hcn Hpc Hi0 SW x y. rw !HL.
    pose proof (parent_lt c ltac:(lia)). pose proof (parent_lt (parent j) ltac:(lia)).
    repeat case_decide; try lia.
    + intros Hx [= <-]. eapply (H1 (parent j)); eauto; lia.
    + intros Hx Hy. eapply (sw_ntrans x xi y); [|by eapply Hsib].
      eapply (H1 (parent j)); eauto; lia.
  - intros c Hcn Hpc SW x y. rw !HL. pose proof (parent_lt c ltac:(lia)).
    repeat case_decide; try lia.
    + intros [= <-] [= <-]. by apply sw_asym.
    + intros [= <-] Hy. eapply (sw_ntrans xj xi y); [by apply sw_asym|by eapply Hsib].
Qed.

(** One step of [down]: the hole moves to the smaller child [j]. *)
Lemma hole_down n l i j xi xj :
  parent j = i → 0 < j < n → l !! i = Some xi → l !! j = Some xj →
  (StrictWeak lt → ∀ c x, 0 < c < n → parent c = i → l !! c = Some x → lt x xj = false) →
  lt xj xi = true → heap_hole lt n i l →
  let l' := <[j:=xi]> (<[i:=xj]> l) in
  heap_hole lt n j l' ∧ pair_ok lt l' (parent j) j.
Proof.
  intros <- Hj Hi Hjx Hmin Hlt [H1 H2] l'. pose proof (parent_lt j ltac:(lia)) as Hp.
  pose proof (λ k, lookup_swapped (parent j) j k l xi xj Hi Hjx) as HL. fold l' in HL.
  repeat split.
  - intros c Hcn Hcj Hpc SW x y. rw !HL. pose proof (parent_lt c ltac:(lia)).
    repeat case_decide; try lia; try congruence.
    + intros [= <-] Hy. by eapply Hmin.
    + subst c. intros Hx [= <-]. eapply (H2 j); eauto; lia.
    + intros Hx Hy. by eapply (H1 c).
  - intros c Hcn Hpc Hi0 SW x y. rw !HL. pose proof (parent_lt c ltac:(lia)).
    repeat case_decide; try lia.
    intros [= <-] Hy. eapply (H1 c); eauto; try lia. congruence.
  - intros SW x y. rw !HL. repeat case_decide; try lia.
    intros [= <-] [= <-]. by apply sw_asym.
Qed.

(** Overwriting one cell of a heap makes a hole there. *)
Lemma heap_hole_insert l i x :
  heap_ordered lt l → heap_hole lt (length l) i (<[i:=x]> l).
Proof.
  intros Hh. split.
  - intros c Hc Hci Hpc SW a b. rw !list_lookup_insert_ne //. by apply Hh.
  - intros c Hc Hpc Hi SW a b. pose proof (parent_lt c ltac:(lia)).
    pose proof (parent_lt i Hi). rw !list_lookup_insert_ne; try lia.
    intros Ha Hb. destruct (lookup_is_Some_lt l i) as [y Hy]; [lia|].
    apply (sw_ntrans a y b); [eapply (Hh i)|eapply (Hh c)]; eauto; [lia|by rw Hpc].
Qed.

(** After the last cell is moved to [i], only [i] is out of order. *)
Lemma heap_hole_swap_last l e i x :
  heap_ordered lt (l ++ [e]) → l !! i = Some x →
  heap_hole lt (length l) i (<[length l:=x]> (<[i:=e]> (l ++ [e]))).
Proof.
  intros Hh Hi. assert (Hh' : heap_ordered lt l).
  { intros c Hc SW a b Ha Hb. eapply (Hh c); [rw length_app; lia|done| |];
      by apply lookup_app_l_Some. }
  apply lookup_lt_Some in Hi as Hil.
  replace (<[length l:=x]> (<[i:=e]> (l ++ [e]))) with (<[i:=e]> l ++ [x]).
  2:{ rw insert_app_l //. rw insert_app_r_alt; rw length_insert //.
      by rw Nat.sub_diag. }
  destruct (heap_hole_insert l i e Hh') as [H1 H2].
  split; intros c Hc Hn1 Hn2 SW a b Ha Hb;
    rw lookup_app_l ?length_insert in Ha; try (by eapply H1 || by eapply H2);
    try (rw lookup_app_l ?length_insert in Hb; [|lia]).
  - by eapply H1.
  - pose proof (parent_lt c ltac:(lia)). lia.
  - by eapply H2.
  - pose proof (parent_lt c ltac:(lia)). pose proof (parent_lt i ltac:(lia)). lia.
Qed.

Lemma heap_root_min `{SW : !StrictWeak lt} l r :
  heap_ordered lt l → l !! 0 = Some r → ∀ x, x ∈ l → lt x r = false.
Proof.
  intros Hh Hr x [i Hi]%list_elem_of_lookup. revert x Hi.
  induction (lt_wf i) as [i _ IH]. intros x Hi.
  destruct (decide (i = 0)) as [->|]; [simplify_eq; by apply sw_irrefl|].
  pose proof (parent_lt i ltac:(lia)). apply lookup_lt_Some in Hi as ?.
  destruct (lookup_is_Some_lt l (parent i)) as [y Hy]; [lia|].
  eapply (sw_ntrans r y x); [eapply IH; eauto|eapply Hh; eauto; lia].
Qed.
End order_lemmas.

(** ** Correctness of the functions, for any implementation of the interface *)
Section correctness.
Context {H X Y E : Type} `{HI : HeapInterface H X Y}
  (lt : E → E → bool) (hrepr : H → list E → Prop) (pushable : X → E → list E → Prop) (popped : E → Y)
  `{HL : !HeapLaws H X Y E lt hrepr pushable popped}.
Implicit Types (h : H) (l : list E).

Lemma up_loop_spec f j n h l :
  hrepr h l → j ≤ f → j < n ≤ length l →
  heap_hole lt n j l → children_ok lt n j l →
  ∃ h' l', up_loop f j h = Some h' ∧ hrepr h' l' ∧ sifted n l l' ∧ heap_upto lt n l'.
Proof.
  revert j h l. induction f as [|f IH]; intros j h l Hr Hf Hj Hh Hc;
    cbn [up_loop]; fold (parent j); (case_decide as Hp;
    [exists h, l; split_and!; try done; eapply heap_close; eauto;
      intros ?%parent_lt; lia|]).
  { assert (j = 0) as -> by lia. done. }
  assert (0 < j) by (destruct j; [done|lia]). pose proof (parent_lt j ltac:(lia)).
  destruct (lookup_is_Some_lt l j) as [xj Hxj]; [lia|].
  destruct (lookup_is_Some_lt l (parent j)) as [xi Hxi]; [lia|].
  rw (hl_less h l j (parent j) xj xi Hr Hxj Hxi) /=.
  destruct (lt xj xi) eqn:Hlt.
  - destruct (hl_swap h l (parent j) j xi xj Hr Hxi Hxj) as (h1 & -> & Hr1). simpl.
    destruct (hole_up lt n l _ j xi xj eq_refl ltac:(lia) Hxi Hxj Hlt Hh Hc) as [Hh1 Hc1].
    destruct (IH (parent j) h1 _ Hr1) as (h' & l' & -> & Hr' & Hs & Hu); try done;
      rw ?length_insert; try lia.
    exists h', l'. split_and!; try done. etrans; [|exact Hs].
    apply sifted_swap; [lia..|done|done].
  - exists h, l. split_and!; try done. eapply heap_close; eauto. intros _ _ x y Hx Hy.
    by simplify_eq.
Qed.

Lemma up_spec j n h l :
  hrepr h l → j < n ≤ length l → heap_hole lt n j l → children_ok lt n j l →
  ∃ h' l', up j h = Some h' ∧ hrepr h' l' ∧ sifted n l l' ∧ heap_upto lt n l'.
Proof. intros. by apply up_loop_spec. Qed.

(** The smaller child of [i], as [down] picks it. *)
Lemma down_pick n h l i :
  hrepr h l → n ≤ length l → 2 * i + 1 < n →
  ∃ b j xj, (if decide (2 * i + 1 + 1 < n) then h_Less (2 * i + 1 + 1) (2 * i + 1) h
             else Some false) = Some b ∧
    j = (if b : bool then 2 * i + 1 + 1 else 2 * i + 1) ∧ l !! j = Some xj ∧
    0 < j < n ∧ parent j = i ∧
    (StrictWeak lt → ∀ c x, 0 < c < n → parent c = i → l !! c = Some x → lt x xj = false).
Proof.
  intros Hr Hn Hi. destruct (lookup_is_Some_lt l (2 * i + 1)) as [x1 Hx1]; [lia|].
  case_decide as Hd.
  - destruct (lookup_is_Some_lt l (2 * i + 1 + 1)) as [x2 Hx2]; [lia|].
    rw (hl_less h l _ _ x2 x1 Hr Hx2 Hx1).
    destruct (lt x2 x1) eqn:Hlt;
      [exists true, (2 * i + 1 + 1), x2 | exists false, (2 * i + 1), x1];
      split_and!; auto using parent_left, parent_right; try lia;
      intros SW c x Hc Hpc Hx; apply parent_child in Hpc as [->| ->]; try lia;
      replace (2 * i + 2) with (2 * i + 1 + 1) in * by lia; simplify_eq;
      auto using sw_irrefl, sw_asym.
  - exists false, (2 * i + 1), x1. split_and!; auto using parent_left; try lia.
    intros SW c x Hc Hpc Hx. apply parent_child in Hpc as [->| ->]; try lia.
    simplify_eq. by apply sw_irrefl.
Qed.

Lemma down_loop_spec f i n h l :
  hrepr h l → n - i ≤ f → n ≤ length l → heap_hole lt n i l →
  ∃ h' l' i', down_loop f i n h = Some (h', i') ∧ hrepr h' l' ∧ sifted n l l' ∧
    ((i' = i ∧ l' = l ∧ h' = h ∧ children_ok lt n i l) ∨ (i < i' ∧ heap_upto lt n l')).
Proof.
  revert i h l. induction f as [|f IH]; intros i h l Hr Hf Hn Hh;
    cbn [down_loop]; case_decide as Hd; try lia;
    try (exists h, l, i; split_and!; try done; left; split_and!; try done;
         intros c Hc Hpc; apply parent_child in Hpc; lia).
  destruct (down_pick n h l i Hr Hn ltac:(lia)) as (b & j & xj & -> & Hjb & Hxj & Hj & Hpj & Hmin).
  cbn [mbind option_bind]. rw -Hjb.
  pose proof (parent_lt j ltac:(lia)).
  destruct (lookup_is_Some_lt l i) as [xi Hxi]; [lia|].
  rw (hl_less h l j i xj xi Hr Hxj Hxi) /=.
  destruct (lt xj xi) eqn:Hlt.
  - destruct (hl_swap h l i j xi xj Hr Hxi Hxj) as (h1 & -> & Hr1). simpl.
    destruct (hole_down lt n l i j xi xj Hpj Hj Hxi Hxj Hmin Hlt Hh) as [Hh1 Hp1].
    destruct (IH j h1 _ Hr1) as (h' & l' & i' & -> & Hr' & Hs & Hcase);
      rw ?length_insert; try done; try lia.
    assert (sifted n l (<[j:=xi]> (<[i:=xj]> l))) by (apply sifted_swap; [lia..|done|done]).
    exists h', l', i'. split_and!; [done|done|by etrans|right].
    destruct Hcase as [(-> & -> & -> & Hc)|[? Hu]]; (split; [lia|]); [|done].
    by eapply heap_close.
  - exists h, l, i. split_and!; try done. left; split_and!; try done.
    intros c Hc Hpc SW x y Hx Hy. simplify_eq. eapply (sw_ntrans xi xj y); eauto.
Qed.

(** [down] followed by [up] when nothing moved: the common tail of
    [heap.Remove] and [heap.Fix]. *)
Lemma down_up_spec i n h l :
  hrepr h l → i < n ≤ length l → heap_hole lt n i l →
  ∃ h1 b h' l', down i n h = Some (h1, b) ∧
    (if b : bool then Some h1 else up i h1) = Some h' ∧
    hrepr h' l' ∧ sifted n l l' ∧ heap_upto lt n l'.
Proof.
  intros Hr Hi Hh. unfold down.
  destruct (down_loop_spec (n - i) i n h l) as (h1 & l1 & i' & -> & Hr1 & Hs & Hcase);
    try done; try lia. simpl.
  destruct Hcase as [(-> & -> & -> & Hc)|[? Hu]].
  - rw bool_decide_eq_false_2; [|lia].
    destruct (up_spec i n h l Hr Hi Hh Hc) as (h' & l' & Hup & ?).
    exists h, false, h', l'. done.
  - rw bool_decide_eq_true_2; [|done]. by exists h1, true, h1, l1.
Qed.

Lemma heap_Push_spec h l x e :
  hrepr h l → heap_ordered lt l → pushable x e l →
  ∃ h' l', heap_Push x h = Some h' ∧ hrepr h' l' ∧ heap_ordered lt l' ∧ l' ≡ₚ e :: l.
Proof.
  intros Hr Hh Hpu. unfold heap_Push.
  destruct (hl_push h l x e Hr Hpu) as (h1 & -> & Hr1). simpl.
  rw (hl_len h1 _ Hr1) length_app /=. replace (length l + 1 - 1) with (length l) by lia.
  destruct (up_spec (length l) (S (length l)) h1 (l ++ [e])) as (h' & l' & Hup & Hr' & Hs & Hu);
    rw ?length_app /=; try done; try lia.
  - split; intros c Hc.
    + intros ?? SW a b Ha Hb. pose proof (parent_lt c ltac:(lia)).
      rw !lookup_app_l in Ha Hb; try lia. by eapply (Hh c); first lia.
    + intros Hpc. pose proof (parent_lt c ltac:(lia)). lia.
  - intros c Hc Hpc. pose proof (parent_lt c ltac:(lia)). lia.
  - exists h', l'. split_and!; try done.
    + unfold heap_ordered. rw (sifted_length _ _ _ Hs) length_app /= Nat.add_comm //.
    + destruct Hs as [-> _]. by rw -Permutation_cons_append.
Qed.

Lemma heap_Fix_spec h l i :
  hrepr h l → i < length l → heap_hole lt (length l) i l →
  ∃ h' l', heap_Fix i h = Some h' ∧ hrepr h' l' ∧ heap_ordered lt l' ∧ l' ≡ₚ l.
Proof.
  intros Hr Hi Hh. unfold heap_Fix. rw (hl_len h l Hr).
  destruct (down_up_spec i (length l) h l Hr ltac:(lia) Hh)
    as (h1 & b & h' & l' & -> & Hup & Hr' & Hs & Hu). simpl. rw Hup.
  exists h', l'. split_and!; try done; [|by destruct Hs].
  unfold heap_ordered. by rw (sifted_length _ _ _ Hs).
Qed.

(** The removed element was swapped to the end; [Pop] takes it off. *)
Lemma pop_swapped h l' l0 i z e :
  hrepr h l' → l0 !! i = Some e →
  sifted (length l0) (<[length l0:=e]> (<[i:=z]> (l0 ++ [z]))) l' →
  heap_upto lt (length l0) l' →
  ∃ h' l2, h_Pop h = Some (h', popped e) ∧ hrepr h' l2 ∧ heap_ordered lt l2 ∧
    l0 ++ [z] ≡ₚ e :: l2.
Proof.
  intros Hr Hi Hs Hu. apply lookup_lt_Some in Hi as Hil.
  replace (<[length l0:=e]> (<[i:=z]> (l0 ++ [z]))) with (<[i:=z]> l0 ++ [e]) in Hs.
  2:{ rw insert_app_l; [|lia]. rw insert_app_r_alt; rw length_insert //. by rw Nat.sub_diag. }
  rw -(length_insert l0 i z) in Hs.
  apply sifted_snoc in Hs as (l2 & -> & Hp2).
  destruct (hl_pop h l2 e Hr) as (h' & -> & Hr'). exists h', l2. split_and!; try done.
  - intros c Hc SW a b' Ha Hb. pose proof (Permutation_length Hp2) as Hlen.
    rw length_insert in Hlen.
    by eapply (Hu c); [lia|done|apply lookup_app_l_Some|apply lookup_app_l_Some].
  - rw Hp2. rw -Permutation_cons_append.
    by rw -(Permutation_insert_swap (z :: l0) 0 (S i) z e).
Qed.

Lemma heap_ordered_prefix l z : heap_ordered lt (l ++ [z]) → heap_ordered lt l.
Proof.
  intros Hh c Hc SW a b Ha Hb.
  eapply (Hh c); [rw length_app; lia|done| |]; by apply lookup_app_l_Some.
Qed.

Lemma heap_Remove_spec h l i e :
  hrepr h l → heap_ordered lt l → l !! i = Some e →
  ∃ h' l', heap_Remove i h = Some (h', popped e) ∧ hrepr h' l' ∧
    heap_ordered lt l' ∧ l ≡ₚ e :: l'.
Proof.
  intros Hr Hh Hi. unfold heap_Remove. rw (hl_len h l Hr).
  apply lookup_lt_Some in Hi as Hil.
  destruct (snoc_inv l (length l - 1)) as (l0 & z & -> & Hl0); [lia|].
  rw length_app /= in Hil |- *. replace (length l0 + 1 - 1) with (length l0) by lia.
  case_decide as Hd.
  - subst i. rw list_lookup_middle // in Hi. simplify_eq.
    destruct (hl_pop h l0 e Hr) as (h' & -> & Hr'). exists h', l0.
    split_and!; eauto using heap_ordered_prefix. by rw -Permutation_cons_append.
  - rw lookup_app_l in Hi; [|lia].
    destruct (hl_swap h _ i (length l0) e z Hr) as (h1 & -> & Hr1);
      [by apply lookup_app_l_Some|by apply list_lookup_middle|]. simpl.
    destruct (down_up_spec i (length l0) h1 _ Hr1) as (h2 & b & h3 & l' & -> & Hup & Hr' & Hs & Hu);
      [rw ?length_insert ?length_app /=; lia|by apply heap_hole_swap_last|].
    simpl. rw Hup /=. by eapply pop_swapped.
Qed.

Lemma heap_Pop_spec h l :
  hrepr h l → heap_ordered lt l → l ≠ [] →
  ∃ h' l' e, heap_Pop h = Some (h', popped e) ∧ hrepr h' l' ∧ heap_ordered lt l' ∧
    l !! 0 = Some e ∧ l ≡ₚ e :: l' ∧ (StrictWeak lt → ∀ x, x ∈ l → lt x e = false).
Proof.
  intros Hr Hh Hne. destruct (lookup_is_Some_lt l 0) as [e He]; [by destruct l; [|simpl; lia]|].
  pose proof (λ SW, heap_root_min lt (SW := SW) l e Hh He) as Hmin. unfold heap_Pop, down.
  rw (hl_len h l Hr). destruct (snoc_inv l (length l - 1)) as (l0 & z & -> & Hl0).
  { apply lookup_lt_Some in He. lia. }
  rw length_app /=. replace (length l0 + 1 - 1) with (length l0) by lia.
  destruct (hl_swap h _ 0 (length l0) e z Hr) as (h1 & -> & Hr1);
    [done|by apply list_lookup_middle|]. simpl.
  destruct l0 as [|a l0].
  - simplify_eq/=. destruct (hl_pop h1 [] e Hr1) as (h' & -> & Hr').
    by exists h', [], e.
  - assert (a = e) as -> by (simpl in He; congruence).
    destruct (down_loop_spec (length (e :: l0) - 0) 0 (length (e :: l0)) h1 _ Hr1)
      as (h2 & l' & i' & -> & Hr2 & Hs & Hcase); [done|rw ?length_insert ?length_app /=; lia|
      by apply heap_hole_swap_last|]. simpl.
    destruct (pop_swapped h2 l' (e :: l0) 0 z e Hr2) as (h' & l2 & -> & ? & ? & ?);
      [done|done| |by exists h', l2, e].
    destruct Hcase as [(-> & -> & -> & Hc)|[_ Hu]]; [|done].
    eapply heap_close; [by apply heap_hole_swap_last|done|lia].
Qed.
End correctness.
