(* ===== verification/KeyedHeap.v ===== *)
(** * The keyed heap of pkg/util/heap/heap.go

    [data] (a map from keys to items plus the heap slice of keys) implements
    [heap.Interface]; [Heap] wraps it with the key function and the metric
    recorder.  The scheduler's ready, backoff, waiting and unschedulable queues
    are all values of this type. *)
From S2P Require Import Prelude ContainerHeap.

(** The calls a [metrics.MetricRecorder] receives, oldest last. *)
Inductive MetricCall (O : Type) :=
  | MInc (obj : O) | MDec (obj : O) | MAddingLatency (obj : O).
Arguments MInc {O} obj. Arguments MDec {O} obj. Arguments MAddingLatency {O} obj.

Record heapItem (O : Type) := mkItem { obj : O; index : nat }.
Arguments mkItem {O}. Arguments obj {O}. Arguments index {O}.

Record data (O : Type) := mkData {
  items : gmap string (heapItem O);
  queue : list string
}.
Arguments mkData {O}. Arguments items {O}. Arguments queue {O}.

(** Errors the heap's methods return. *)
Inductive HeapError := KeyError | ObjectNotFound | ObjectRemoved.

(** [metricRecorder] is [None] for Go's nil. *)
Record Heap (O : Type) := mkHeap {
  hdata : data O;
  metricRecorder : option (list (MetricCall O))
}.
Arguments mkHeap {O}. Arguments hdata {O}. Arguments metricRecorder {O}.

Section keyed_heap.
Context {O : Type} (keyFunc : O → option string) (lessFunc : O → O → bool).

(** ** [data] as a [heap.Interface] *)

(** The index test of the source is [>], so an index equal to the length goes
    on to the slice read and panics there. *)
Definition data_Less (i j : nat) (h : data O) : option bool :=
  if decide (length (queue h) < i ∨ length (queue h) < j) then Some false else
  ki ← queue h !! i;
  match items h !! ki with
  | None => Some false
  | Some itemi =>
      kj ← queue h !! j;
      match items h !! kj with
      | None => Some false
      | Some itemj => Some (lessFunc (obj itemi) (obj itemj))
      end
  end.

Definition data_Len (h : data O) : nat := length (queue h).

(** Writing [index] through a nil item pointer panics. *)
Definition set_index (k : string) (i : nat) (m : gmap string (heapItem O)) :
    option (gmap string (heapItem O)) :=
  it ← m !! k; Some (<[k := mkItem (obj it) i]> m).

Definition data_Swap (i j : nat) (h : data O) : option (data O) :=
  q ← swap i j (queue h);
  ki ← q !! i;
  m1 ← set_index ki i (items h);
  kj ← q !! j;
  m2 ← set_index kj j m1;
  Some (mkData m2 q).

Definition data_Push (kv : string * O) (h : data O) : option (data O) :=
  let n := length (queue h) in
  Some (mkData (<[kv.1 := mkItem kv.2 n]> (items h)) (queue h ++ [kv.1])).

(** The result is [interface{}]: [None] inside is the nil of the error branch. *)
Definition data_Pop (h : data O) : option (data O * option O) :=
  key ← last (queue h);
  let q := take (length (queue h) - 1) (queue h) in
  match items h !! key with
  | None => Some (mkData (items h) q, None)
  | Some it => Some (mkData (delete key (items h)) q, Some (obj it))
  end.

(** Peek dereferences the item of the first key: a missing item panics. *)
Definition data_Peek (h : data O) : option (option O) :=
  match queue h with
  | [] => Some None
  | k :: _ => it ← items h !! k; Some (Some (obj it))
  end.

#[local] Instance data_heap : HeapInterface (data O) (string * O) (option O) := {
  h_Len := data_Len; h_Less := data_Less; h_Swap := data_Swap;
  h_Push := data_Push; h_Pop := data_Pop
}.

(** ** The [Heap] methods *)
Implicit Types h : Heap O.

Definition record (c : MetricCall O) (r : option (list (MetricCall O))) :=
  (λ log, c :: log) <$> r.

Definition NewWithRecorder (r : option (list (MetricCall O))) : Heap O :=
  mkHeap (mkData ∅ []) r.
Definition New : Heap O := NewWithRecorder None.

Definition Add (o : O) h : option (Heap O * option HeapError) :=
  match keyFunc o with
  | None => Some (h, Some KeyError)
  | Some key =>
      match items (hdata h) !! key with
      | Some it =>
          let d := mkData (<[key := mkItem o (index it)]> (items (hdata h))) (queue (hdata h)) in
          d' ← heap_Fix (index it) d;
          Some (mkHeap d' (record (MAddingLatency o) (metricRecorder h)), None)
      | None =>
          d' ← heap_Push (key, o) (hdata h);
          Some (mkHeap d' (record (MAddingLatency o) (record (MInc o) (metricRecorder h))), None)
      end
  end.

Definition AddIfNotPresent (o : O) h : option (Heap O * option HeapError) :=
  match keyFunc o with
  | None => Some (h, Some KeyError)
  | Some key =>
      match items (hdata h) !! key with
      | Some _ => Some (h, None)
      | None =>
          d' ← heap_Push (key, o) (hdata h);
          Some (mkHeap d' (record (MInc o) (metricRecorder h)), None)
      end
  end.

Definition DeleteByKey (key : string) h : option (Heap O * option HeapError) :=
  match items (hdata h) !! key with
  | Some item =>
      r ← heap_Remove (index item) (hdata h);
      Some (mkHeap r.1 (record (MDec (obj item)) (metricRecorder h)), None)
  | None => Some (h, Some ObjectNotFound)
  end.

Definition Delete (o : O) h : option (Heap O * option HeapError) :=
  match keyFunc o with
  | None => Some (h, Some KeyError)
  | Some key => DeleteByKey key h
  end.

(** [oldObj] is [interface{}] and may be nil; the error of its Delete is
    dropped. *)
Definition Update (oldObj : option O) (newObj : O) h : option (Heap O * option HeapError) :=
  h' ← (match oldObj with
        | Some o => r ← Delete o h; Some r.1
        | None => Some h
        end);
  Add newObj h'.

Definition Peek h : option (option O) := data_Peek (hdata h).

Definition Pop h : option (Heap O * (O + HeapError)) :=
  r ← heap_Pop (hdata h);
  match r.2 with
  | Some o => Some (mkHeap r.1 (record (MDec o) (metricRecorder h)), inl o)
  | None => Some (mkHeap r.1 (metricRecorder h), inr ObjectRemoved)
  end.

Definition GetByKey (key : string) h : option O * bool :=
  match items (hdata h) !! key with
  | None => (None, false)
  | Some item => (Some (obj item), true)
  end.

Definition Get (o : O) h : (option O * bool) * option HeapError :=
  match keyFunc o with
  | None => ((None, false), Some KeyError)
  | Some key => (GetByKey key h, None)
  end.

(** [List] ranges over a Go map, whose order is unspecified: the model gives
    one enumeration, and theorems about it are up to permutation. *)
Definition List h : list O := obj <$> (map_to_list (items (hdata h))).*2.

Definition Len h : nat := length (queue (hdata h)).

(** [Process] runs [f] on every cell in parallel: the calls it makes, as a
    list in index order (a nil item panics). *)
Definition Process_calls h : option (list (nat * string * O)) :=
  mapM (λ ik, it ← items (hdata h) !! ik.2; Some (ik.1, ik.2, obj it))
    (imap (λ i k, (i, k)) (queue (hdata h))).
End keyed_heap.

(** ** [data] satisfies the laws of the interface *)
Section data_laws.
Context {O : Type} (lessFunc : O → O → bool).
Implicit Types (d : data O) (l : list (string * O)).

(** Order on (key, object) pairs: by object only. *)
Definition less_kv (p q : string * O) : bool := lessFunc p.2 q.2.

#[export] Instance less_kv_strict_weak `{!StrictWeak lessFunc} : StrictWeak less_kv.
Proof. by apply (strict_weak_key snd). Qed.

(** "items in the map are in the queue and vice versa": the slice lists the
    keys of [l] in order, and the map holds exactly the pairs of [l], each
    with its position. *)
Record repr d l : Prop := {
  repr_queue : queue d = l.*1;
  repr_items : ∀ i k o, l !! i = Some (k, o) → items d !! k = Some (mkItem o i);
  repr_inv : ∀ k it, items d !! k = Some it → l !! index it = Some (k, obj it)
}.

Definition fresh_kv (x e : string * O) l : Prop := x = e ∧ x.1 ∉ l.*1.

Lemma repr_nodup d l : repr d l → NoDup l.*1.
Proof.
  intros [_ Hi _]. apply NoDup_alt. intros i j k Hik Hjk.
  apply list_lookup_fmap_Some in Hik as ([k1 o1] & -> & Hi1).
  apply list_lookup_fmap_Some in Hjk as ([k2 o2] & Heq & Hi2). simplify_eq/=.
  apply Hi in Hi1. apply Hi in Hi2. congruence.
Qed.

Lemma repr_lookup_queue d l i k o : repr d l → l !! i = Some (k, o) → queue d !! i = Some k.
Proof. intros [-> _ _] Hi. by rw list_lookup_fmap Hi. Qed.

Lemma repr_key_inj d l i j k o o' :
  repr d l → l !! i = Some (k, o) → l !! j = Some (k, o') → i = j.
Proof. intros [_ Hi _] H1%Hi H2%Hi. congruence. Qed.

Lemma repr_none d l k : repr d l → k ∉ l.*1 → items d !! k = None.
Proof.
  intros [_ _ Hv] Hk. destruct (items d !! k) as [it|] eqn:E; [|done].
  apply Hv in E. destruct Hk. apply list_elem_of_fmap.
  exists (k, obj it). split; [done|]. by eapply list_elem_of_lookup_2.
Qed.

Lemma data_Swap_repr d l i j x y :
  repr d l → l !! i = Some x → l !! j = Some y →
  ∃ d', data_Swap i j d = Some d' ∧ repr d' (<[j:=x]> (<[i:=y]> l)).
Proof.
  intros Hr Hi Hj. destruct x as [kx ox], y as [ky oy].
  pose proof (repr_lookup_queue _ _ _ _ _ Hr Hi) as Hqi.
  pose proof (repr_lookup_queue _ _ _ _ _ Hr Hj) as Hqj.
  pose proof (repr_items _ _ Hr _ _ _ Hi) as Hx.
  pose proof (repr_items _ _ Hr _ _ _ Hj) as Hy.
  unfold data_Swap. rw (swap_Some i j (queue d) kx ky Hqi Hqj). simpl.
  rw !(lookup_swapped i j _ (queue d) kx ky Hqi Hqj).
  assert (Hyi : (if decide (i = j) then Some kx else if decide (i = i) then Some ky
            else queue d !! i) = Some ky).
  { repeat case_decide; simplify_eq; done. }
  rw Hyi decide_True //=. clear Hyi. unfold set_index. rw Hy /=.
  assert (Hx' : ∃ it, <[ky:=mkItem oy i]> (items d) !! kx = Some it ∧ obj it = ox).
  { destruct (decide (kx = ky)) as [->|].
    - rw lookup_insert_eq. pose proof (repr_key_inj _ _ _ _ _ _ _ Hr Hi Hj); simplify_eq. eauto.
    - rw lookup_insert_ne //. eauto. }
  destruct Hx' as (it & -> & <-). simpl. eexists. split; [done|].
  pose proof (λ k, lookup_swapped i j k l _ _ Hi Hj) as HL.
  assert (Hinj : kx = ky → i = j) by (intros ->; by eapply repr_key_inj).
  split; simpl.
  - rw (repr_queue _ _ Hr) !list_fmap_insert. done.
  - intros c k o. rw HL. repeat case_decide; intros Hc; simplify_eq.
    + by rw lookup_insert_eq.
    + rw lookup_insert_ne; [|by intros ?%Hinj]. by rw lookup_insert_eq.
    + assert (k ≠ kx) by (intros ->; by destruct (repr_key_inj _ _ _ _ _ _ _ Hr Hi Hc)).
      assert (k ≠ ky) by (intros ->; by destruct (repr_key_inj _ _ _ _ _ _ _ Hr Hj Hc)).
      rw !lookup_insert_ne //. by apply Hr.
  - intros k it'. rw lookup_insert. case_decide as Hk; subst.
    + intros [= <-]. simpl. rw HL. by rw decide_True.
    + rw lookup_insert. case_decide as Hk'; subst.
      * intros [= <-]. simpl. rw HL. repeat case_decide; simplify_eq; done.
      * intros Hk2. pose proof (repr_inv _ _ Hr _ _ Hk2) as Hc. rw HL.
        repeat case_decide; simplify_eq; done.
Qed.

Lemma data_Push_repr d l x e :
  repr d l → fresh_kv x e l → ∃ d', data_Push x d = Some d' ∧ repr d' (l ++ [e]).
Proof.
  intros Hr [-> Hf]. destruct e as [k o]. eexists; split; [done|].
  pose proof (repr_none _ _ _ Hr Hf) as Hn. simpl in *.
  assert (Hlen : length (queue d) = length l) by (rw (repr_queue _ _ Hr) length_fmap //).
  split; simpl.
  - by rw (repr_queue _ _ Hr) fmap_app.
  - intros i k' o' [Hi|[Hge Hi]]%lookup_app_Some.
    + apply (repr_items _ _ Hr) in Hi. rw lookup_insert_ne //. congruence.
    + apply list_lookup_singleton_Some in Hi as [? [= <- <-]].
      rw lookup_insert_eq Hlen. do 2 f_equal. lia.
  - intros k' it. rw lookup_insert. case_decide; subst.
    + intros [= <-]. simpl. rw Hlen. by apply list_lookup_middle.
    + intros Hi%(repr_inv _ _ Hr). by apply lookup_app_l_Some.
Qed.

Lemma data_Pop_repr d l e :
  repr d (l ++ [e]) → ∃ d', data_Pop d = Some (d', Some e.2) ∧ repr d' l.
Proof.
  intros Hr. destruct e as [k o]. unfold data_Pop.
  rw (repr_queue _ _ Hr) fmap_app last_snoc. simpl.
  rw (repr_items _ _ Hr (length l) k o) ?list_lookup_middle //. eexists; split; [done|].
  rw length_app /= Nat.add_sub take_app_length.
  pose proof (repr_nodup _ _ Hr) as Hnd. rw fmap_app in Hnd.
  apply NoDup_app in Hnd as (Hnd & Hdis & _).
  split; simpl; [done| |].
  - intros i k' o' Hi. rw lookup_delete_ne.
    + apply Hr. by apply lookup_app_l_Some.
    + intros ->. eapply (Hdis k'); [|set_solver]. apply list_elem_of_fmap.
      eexists (k', o'). split; [done|]. by eapply list_elem_of_lookup_2.
  - intros k' it [Hne Hi]%lookup_delete_Some. apply (repr_inv _ _ Hr) in Hi.
    apply lookup_app_Some in Hi as [Hi|[_ Hi]]; [done|].
    apply list_lookup_singleton_Some in Hi as [_ [= -> _]]. done.
Qed.

#[export] Instance data_laws :
  @HeapLaws (data O) (string * O) (option O) (string * O) (data_heap lessFunc)
    less_kv repr fresh_kv (Some ∘ snd).
Proof.
  split.
  - intros d l Hr. simpl. unfold data_Len. by rw (repr_queue _ _ Hr) length_fmap.
  - intros d l i j [kx ox] [ky oy] Hr Hi Hj. simpl. unfold data_Less.
    pose proof (repr_lookup_queue _ _ _ _ _ Hr Hi) as Hqi.
    pose proof (repr_lookup_queue _ _ _ _ _ Hr Hj) as Hqj.
    apply lookup_lt_Some in Hqi as ?. apply lookup_lt_Some in Hqj as ?.
    rw decide_False; [|lia]. rw Hqi /= (repr_items _ _ Hr _ _ _ Hi) Hqj /=.
    by rw (repr_items _ _ Hr _ _ _ Hj).
  - intros. by apply data_Swap_repr.
  - intros. by apply data_Push_repr.
  - intros. by apply data_Pop_repr.
Qed.
End data_laws.

(** ** The heap as a finite map with a minimum

    The abstract value of a heap is the finite map from keys to objects. *)
Definition contents {O} (h : Heap O) : gmap string O := obj <$> items (hdata h).

(** Increments minus decrements among the recorder's calls. *)
Fixpoint gauge {O} (log : list (MetricCall O)) : Z :=
  match log with
  | [] => 0
  | MInc _ :: r => gauge r + 1
  | MDec _ :: r => gauge r - 1
  | MAddingLatency _ :: r => gauge r
  end%Z.

Section heap_spec.
Context {O : Type} (keyFunc : O → option string) (lessFunc : O → O → bool).

(** What callers can do with a heap, and what they get back. *)
Inductive HeapOp :=
  | OpAdd (o : O) | OpAddIfNotPresent (o : O) | OpUpdate (oldObj : option O) (newObj : O)
  | OpDelete (o : O) | OpDeleteByKey (k : string) | OpPop.

Inductive HeapOut := OutErr (e : option HeapError) | OutPop (r : O + HeapError).

Definition exec (op : HeapOp) (h : Heap O) : option (Heap O * HeapOut) :=
  match op with
  | OpAdd o => r ← Add keyFunc lessFunc o h; Some (r.1, OutErr r.2)
  | OpAddIfNotPresent o => r ← AddIfNotPresent keyFunc lessFunc o h; Some (r.1, OutErr r.2)
  | OpUpdate old new => r ← Update keyFunc lessFunc old new h; Some (r.1, OutErr r.2)
  | OpDelete o => r ← Delete keyFunc lessFunc o h; Some (r.1, OutErr r.2)
  | OpDeleteByKey k => r ← DeleteByKey lessFunc k h; Some (r.1, OutErr r.2)
  | OpPop => r ← Pop lessFunc h; Some (r.1, OutPop r.2)
  end.

(** The abstract machine on finite maps. *)
Definition spec_add (o : O) (m : gmap string O) : gmap string O * option HeapError :=
  match keyFunc o with
  | None => (m, Some KeyError)
  | Some k => (<[k:=o]> m, None)
  end.

Definition spec_add_if_absent (o : O) (m : gmap string O) : gmap string O * option HeapError :=
  match keyFunc o with
  | None => (m, Some KeyError)
  | Some k => (match m !! k with Some _ => m | None => <[k:=o]> m end, None)
  end.

Definition spec_delete_key (k : string) (m : gmap string O) : gmap string O * option HeapError :=
  (delete k m, match m !! k with Some _ => None | None => Some ObjectNotFound end).

Definition spec_delete (o : O) (m : gmap string O) : gmap string O * option HeapError :=
  match keyFunc o with
  | None => (m, Some KeyError)
  | Some k => spec_delete_key k m
  end.

Inductive spec_step : HeapOp → gmap string O → HeapOut → gmap string O → Prop :=
  | SAdd o m : spec_step (OpAdd o) m (OutErr (spec_add o m).2) (spec_add o m).1
  | SAddIf o m :
      spec_step (OpAddIfNotPresent o) m (OutErr (spec_add_if_absent o m).2)
        (spec_add_if_absent o m).1
  | SUpdate old new m :
      let m1 := match old with Some o => (spec_delete o m).1 | None => m end in
      spec_step (OpUpdate old new) m (OutErr (spec_add new m1).2) (spec_add new m1).1
  | SDelete o m : spec_step (OpDelete o) m (OutErr (spec_delete o m).2) (spec_delete o m).1
  | SDeleteByKey k m :
      spec_step (OpDeleteByKey k) m (OutErr (spec_delete_key k m).2) (spec_delete_key k m).1
  | SPop m k o :
      m !! k = Some o →
      (StrictWeak lessFunc → ∀ k' o', m !! k' = Some o' → lessFunc o' o = false) →
      spec_step OpPop m (OutPop (inl o)) (delete k m).

(** Pops [n] objects. *)
Fixpoint drain (n : nat) (h : Heap O) : option (list O) :=
  match n with
  | 0 => Some []
  | S n' =>
      r ← Pop lessFunc h;
      match r.2 with
      | inl o => os ← drain n' r.1; Some (o :: os)
      | inr _ => None
      end
  end.

(** The representation invariant of a heap. *)
Definition heap_rep (h : Heap O) (l : list (string * O)) : Prop :=
  repr (hdata h) l ∧ heap_ordered (less_kv lessFunc) l ∧
  Forall (λ p, keyFunc p.2 = Some p.1) l ∧
  from_option (λ log, gauge log = Z.of_nat (length l)) True (metricRecorder h).

Definition heap_inv (h : Heap O) : Prop := ∃ l, heap_rep h l.

Implicit Types (h : Heap O) (l : list (string * O)).

#[local] Hint Extern 0 (HeapInterface (data _) _ _) =>
  exact (data_heap lessFunc) : typeclass_instances.

Lemma repr_contents (d : data O) l : repr d l → obj <$> items d = list_to_map l.
Proof.
  intros Hr. pose proof (repr_nodup _ _ Hr) as Hnd. apply map_eq. intros k.
  rw lookup_fmap. destruct (items d !! k) as [it|] eqn:E; simpl; symmetry.
  - apply elem_of_list_to_map_1; [done|]. eapply list_elem_of_lookup_2. by apply Hr.
  - apply not_elem_of_list_to_map_1. intros ([k' o] & -> & [i Hi]%list_elem_of_lookup)%list_elem_of_fmap.
    apply (repr_items _ _ Hr) in Hi. simplify_eq/=.
Qed.

Lemma list_to_map_cons_perm l l' k o :
  NoDup l.*1 → l ≡ₚ (k, o) :: l' →
  (list_to_map l : gmap string O) = <[k:=o]> (list_to_map l') ∧
  (list_to_map l' : gmap string O) = delete k (list_to_map l).
Proof.
  intros Hnd Hp. rw (list_to_map_proper l _ Hnd Hp) /=. split; [done|].
  rw Hp /= in Hnd. apply NoDup_cons in Hnd as [Hk _].
  rw delete_insert_id //. by apply not_elem_of_list_to_map_1.
Qed.

Lemma repr_insert (d : data O) l i k o o' :
  repr d l → l !! i = Some (k, o) →
  repr (mkData (<[k:=mkItem o' i]> (items d)) (queue d)) (<[i:=(k, o')]> l).
Proof.
  intros Hr Hi. apply lookup_lt_Some in Hi as Hil. split; simpl.
  - rw (repr_queue _ _ Hr) list_fmap_insert /=. symmetry. apply list_insert_id.
    by rw list_lookup_fmap Hi.
  - intros j k' o1. destruct (decide (i = j)) as [->|].
    + rw list_lookup_insert_eq //. intros [= <- <-]. by rw lookup_insert_eq.
    + rw list_lookup_insert_ne //. intros Hj.
      rw lookup_insert_ne; [by apply Hr|]. intros ->. by destruct (repr_key_inj _ _ _ _ _ _ _ Hr Hi Hj).
  - intros k' it. rw lookup_insert. case_decide; subst.
    + intros [= <-]. by rw list_lookup_insert_eq.
    + intros Hk'%(repr_inv _ _ Hr). rw list_lookup_insert_ne //. intros Heq.
      rw -Heq Hi in Hk'. by simplify_eq.
Qed.

Lemma heap_rep_new r : from_option (λ log, gauge log = 0%Z) True r →
  heap_rep (NewWithRecorder r) [].
Proof. intros. split_and!; [by split| |by constructor|done]. by intros i ? x y. Qed.

Lemma rep_contents h l : heap_rep h l → contents h = list_to_map l.
Proof. intros [Hr _]. by apply repr_contents. Qed.

Lemma rep_lookup h l k it :
  heap_rep h l → items (hdata h) !! k = Some it → l !! index it = Some (k, obj it).
Proof. intros [Hr _]. apply Hr. Qed.

Lemma contents_lookup h k : contents h !! k = obj <$> items (hdata h) !! k.
Proof. by rw /contents lookup_fmap. Qed.

Lemma Len_contents h : heap_inv h → Len h = size (contents h).
Proof.
  intros (l & Hl). rw (rep_contents _ _ Hl). destruct Hl as (Hr & _).
  rw /Len (repr_queue _ _ Hr) length_fmap.
  by rw map_size_list_to_map //; apply (repr_nodup _ _ Hr).
Qed.

(** *** Each operation against the abstract map *)

Lemma push_rep h l k o r :
  heap_rep h l → keyFunc o = Some k → items (hdata h) !! k = None →
  from_option (λ log, gauge log = Z.of_nat (S (length l))) True r →
  ∃ d', heap_Push (k, o) (hdata h) = Some d' ∧ heap_inv (mkHeap d' r) ∧
    contents (mkHeap d' r) = <[k:=o]> (contents h).
Proof.
  intros Hrep Hk Hn Hg. pose proof (rep_contents _ _ Hrep) as Hc.
  destruct Hrep as (Hr & Hh & Hf & _).
  assert (k ∉ l.*1).
  { intros ([k' o'] & -> & [i Hi]%list_elem_of_lookup)%list_elem_of_fmap.
    apply (repr_items _ _ Hr) in Hi. simplify_eq/=. }
  destruct (heap_Push_spec (less_kv lessFunc) repr fresh_kv (Some ∘ snd)
    (hdata h) l (k, o) (k, o) Hr Hh) as (d' & l' & Hpush & Hr' & Hh' & Hp); [done|].
  exists d'. split; [done|]. split.
  - exists l'. split_and!; try done; simpl.
    + rw Hp. by constructor.
    + destruct r; [|done]. simpl in *. by rw Hp.
  - rw /contents /= (repr_contents _ _ Hr') -/(contents h) Hc.
    by apply list_to_map_cons_perm; [apply (repr_nodup _ _ Hr')|].
Qed.

Lemma Add_spec h o :
  heap_inv h → ∃ h', Add keyFunc lessFunc o h = Some (h', (spec_add o (contents h)).2) ∧
    heap_inv h' ∧ contents h' = (spec_add o (contents h)).1.
Proof.
  intros (l & Hrep). unfold Add, spec_add. destruct (keyFunc o) as [k|] eqn:Hk.
  2:{ exists h. split_and!; try done. by exists l. }
  destruct (items (hdata h) !! k) as [it|] eqn:Hit; simpl.
  - pose proof (rep_lookup _ _ _ _ Hrep Hit) as Hi.
    pose proof (rep_contents _ _ Hrep) as Hc. destruct Hrep as (Hr & Hh & Hf & Hg).
    apply lookup_lt_Some in Hi as Hil.
    pose proof (repr_insert _ _ _ _ _ o Hr Hi) as Hr1.
    destruct (heap_Fix_spec (less_kv lessFunc) repr fresh_kv (Some ∘ snd) _ _ (index it) Hr1)
      as (d' & l' & -> & Hr' & Hh' & Hp); [by rw length_insert| |].
    { rw length_insert. by apply heap_hole_insert. }
    eexists. split; [done|]. split.
    + exists l'. split_and!; try done; simpl.
      * rw Hp. apply Forall_insert; [done|]. by simpl.
      * destruct (metricRecorder h); [|done]. simpl in *. by rw Hp length_insert.
    + rw /contents /= (repr_contents _ _ Hr') -(list_to_map_proper _ _ (repr_nodup _ _ Hr1)) //.
      by rw -(repr_contents _ _ Hr1) /= fmap_insert.
  - destruct (push_rep h l k o
      (record (MAddingLatency o) (record (MInc o) (metricRecorder h))) Hrep Hk Hit)
      as (d' & -> & Hinv & Hc).
    { destruct Hrep as (_ & _ & _ & Hg). destruct (metricRecorder h); simpl in *; [lia|done]. }
    by eexists.
Qed.

Lemma AddIfNotPresent_spec h o :
  heap_inv h →
  ∃ h', AddIfNotPresent keyFunc lessFunc o h = Some (h', (spec_add_if_absent o (contents h)).2) ∧
    heap_inv h' ∧ contents h' = (spec_add_if_absent o (contents h)).1.
Proof.
  intros (l & Hrep). unfold AddIfNotPresent, spec_add_if_absent.
  destruct (keyFunc o) as [k|] eqn:Hk.
  2:{ exists h. split_and!; try done. by exists l. }
  rw contents_lookup. destruct (items (hdata h) !! k) as [it|] eqn:Hit; simpl.
  - exists h. split_and!; try done. by exists l.
  - destruct (push_rep h l k o (record (MInc o) (metricRecorder h)) Hrep Hk Hit)
      as (d' & -> & Hinv & Hc).
    { destruct Hrep as (_ & _ & _ & Hg). destruct (metricRecorder h); simpl in *; [lia|done]. }
    by eexists.
Qed.

(** What is left once [l ≡ (k, o) :: l'] lost its first pair. *)
Lemma removed_rep h l d' l' k o :
  heap_rep h l → repr d' l' → heap_ordered (less_kv lessFunc) l' → l ≡ₚ (k, o) :: l' →
  let h' := mkHeap d' (record (MDec o) (metricRecorder h)) in
  heap_inv h' ∧ contents h' = delete k (contents h) ∧ contents h !! k = Some o.
Proof.
  intros Hrep Hr' Hh' Hp. pose proof (rep_contents _ _ Hrep) as Hc.
  destruct Hrep as (Hr & Hh & Hf & Hg). simpl.
  destruct (list_to_map_cons_perm l l' k o (repr_nodup _ _ Hr) Hp) as [Hm1 Hm2].
  split_and!.
  - exists l'. split_and!; try done; simpl.
    + rw Hp in Hf. by apply Forall_cons in Hf as [_ ?].
    + destruct (metricRecorder h); [|done]. simpl in *. rw Hg Hp /=. lia.
  - by rw /contents /= (repr_contents _ _ Hr') -/(contents h) Hc.
  - by rw Hc Hm1 lookup_insert_eq.
Qed.

Lemma DeleteByKey_spec h k :
  heap_inv h →
  ∃ h', DeleteByKey lessFunc k h = Some (h', (spec_delete_key k (contents h)).2) ∧
    heap_inv h' ∧ contents h' = (spec_delete_key k (contents h)).1.
Proof.
  intros (l & Hrep). unfold DeleteByKey, spec_delete_key. rw contents_lookup.
  destruct (items (hdata h) !! k) as [it|] eqn:Hit; simpl.
  - pose proof (rep_lookup _ _ _ _ Hrep Hit) as Hi. pose proof Hrep as (Hr & Hh & _).
    destruct (heap_Remove_spec (less_kv lessFunc) repr fresh_kv (Some ∘ snd) _ _ _ _ Hr Hh Hi)
      as (d' & l' & -> & Hr' & Hh' & Hp).
    destruct (removed_rep h l d' l' k (obj it) Hrep Hr' Hh' Hp) as (? & ? & ?).
    by eexists.
  - exists h. split_and!; [done|by exists l|]. rw delete_id //. by rw contents_lookup Hit.
Qed.

Lemma Delete_spec h o :
  heap_inv h →
  ∃ h', Delete keyFunc lessFunc o h = Some (h', (spec_delete o (contents h)).2) ∧
    heap_inv h' ∧ contents h' = (spec_delete o (contents h)).1.
Proof.
  intros Hinv. unfold Delete, spec_delete. destruct (keyFunc o); [|by exists h].
  by apply DeleteByKey_spec.
Qed.

Lemma Update_spec h old new :
  heap_inv h →
  let m1 := match old with Some o => (spec_delete o (contents h)).1 | None => contents h end in
  ∃ h', Update keyFunc lessFunc old new h = Some (h', (spec_add new m1).2) ∧
    heap_inv h' ∧ contents h' = (spec_add new m1).1.
Proof.
  intros Hinv. unfold Update. destruct old as [o|]; simpl; [|by apply Add_spec].
  destruct (Delete_spec h o Hinv) as (h1 & -> & Hinv1 & <-). simpl. by apply Add_spec.
Qed.

Lemma Pop_spec h :
  heap_inv h → contents h ≠ ∅ →
  ∃ h' k o, Pop lessFunc h = Some (h', inl o) ∧ heap_inv h' ∧
    contents h !! k = Some o ∧ contents h' = delete k (contents h) ∧
    Peek h = Some (Some o) ∧
    (StrictWeak lessFunc → ∀ k' o', contents h !! k' = Some o' → lessFunc o' o = false).
Proof.
  intros (l & Hrep) Hne. pose proof (rep_contents _ _ Hrep) as Hc. pose proof Hrep as (Hr & Hh & _).
  assert (l ≠ []) by (intros ->; by rw Hc in Hne).
  destruct (heap_Pop_spec (less_kv lessFunc) repr fresh_kv (Some ∘ snd) _ _ Hr Hh)
    as (d' & l' & [k o] & Hpop & Hr' & Hh' & H0 & Hp & Hmin); [done|].
  destruct (removed_rep h l d' l' k o Hrep Hr' Hh' Hp) as (? & ? & ?).
  eexists _, k, o. unfold Pop. rw Hpop /=. split_and!; try done.
  - pose proof (repr_items _ _ Hr _ _ _ H0) as Hit.
    pose proof (repr_lookup_queue _ _ _ _ _ Hr H0) as Hq.
    unfold Peek, data_Peek. destruct (queue (hdata h)); [done|].
    simpl in Hq. simplify_eq. by rw Hit.
  - intros SW k' o' Hk'. rw Hc in Hk'. apply elem_of_list_to_map_2 in Hk'.
    by apply (Hmin _ (k', o')).
Qed.

(** A [Pop] on an empty heap reads [queue[0]] of an empty slice. *)
Lemma Pop_empty h : heap_inv h → contents h = ∅ → Pop lessFunc h = None.
Proof.
  intros Hinv Hc. pose proof (Len_contents h Hinv) as Hlen. rw Hc map_size_empty in Hlen.
  apply nil_length_inv in Hlen. unfold Pop, heap_Pop. simpl. unfold data_Swap, swap.
  by rw Hlen.
Qed.

Lemma exec_refines op h :
  heap_inv h → (op = OpPop → contents h ≠ ∅) →
  ∃ h' out, exec op h = Some (h', out) ∧ heap_inv h' ∧
    spec_step op (contents h) out (contents h').
Proof.
  intros Hinv Hne. destruct op as [o|o|old new|o|k|]; simpl.
  - destruct (Add_spec h o Hinv) as (h' & -> & ? & Hc). eexists h', _; split_and!; [done..|rw Hc; constructor].
  - destruct (AddIfNotPresent_spec h o Hinv) as (h' & -> & ? & Hc).
    eexists h', _; split_and!; [done..|rw Hc; constructor].
  - destruct (Update_spec h old new Hinv) as (h' & -> & ? & Hc).
    eexists h', _; split_and!; [done..|rw Hc; constructor].
  - destruct (Delete_spec h o Hinv) as (h' & -> & ? & Hc). eexists h', _; split_and!; [done..|rw Hc; constructor].
  - destruct (DeleteByKey_spec h k Hinv) as (h' & -> & ? & Hc).
    eexists h', _; split_and!; [done..|rw Hc; constructor].
  - destruct (Pop_spec h Hinv) as (h' & k & o & -> & ? & Hk & Hc & _ & Hmin); [auto|].
    eexists h', _; split_and!; [done..|rw Hc; by econstructor].
Qed.

Lemma drain_spec `{!StrictWeak lessFunc} n h :
  heap_inv h → size (contents h) = n →
  ∃ os, drain n h = Some os ∧ os ≡ₚ (map_to_list (contents h)).*2 ∧
    StronglySorted (λ a b, lessFunc b a = false) os.
Proof.
  revert h. induction n as [|n IH]; intros h Hinv Hsz; simpl.
  - exists []. apply map_size_empty_inv in Hsz as ->. rw map_to_list_empty. by repeat constructor.
  - assert (contents h ≠ ∅) by (intros E; by rw E map_size_empty in Hsz).
    destruct (Pop_spec h Hinv) as (h' & k & o & -> & Hinv' & Hk & Hc' & _ & Hmin); [done|]. simpl.
    destruct (IH h' Hinv') as (os & -> & Hp & Hs).
    { rw Hc' map_size_delete Hk /= Hsz. lia. }
    exists (o :: os). split; [done|]. rw Hc' in Hp. split.
    + by rw -(map_to_list_delete _ _ _ Hk) Hp.
    + constructor; [done|]. apply Forall_forall. intros o' Ho'. rw Hp in Ho'.
      apply list_elem_of_fmap in Ho' as ([k' ?] & -> & Hin%elem_of_map_to_list).
      apply lookup_delete_Some in Hin as [_ Hin]. by eapply Hmin.
Qed.

Lemma Peek_spec h :
  heap_inv h →
  (contents h = ∅ ∧ Peek h = Some None) ∨
  (∃ k o, Peek h = Some (Some o) ∧ contents h !! k = Some o ∧
     (StrictWeak lessFunc → ∀ k' o', contents h !! k' = Some o' → lessFunc o' o = false)).
Proof.
  intros Hi. destruct (decide (contents h = ∅)) as [He|Hne].
  - left. split; [done|]. pose proof (Len_contents h Hi) as Hlen. rw He map_size_empty in Hlen.
    unfold Peek, data_Peek. apply nil_length_inv in Hlen. by rw Hlen.
  - right. destruct (Pop_spec h Hi Hne) as (h' & k & o & _ & _ & Hk & _ & Hp & Hmin).
    by exists k, o.
Qed.

(** [Process] calls its function once on every object. *)
Lemma Process_calls_spec h :
  heap_inv h → ∃ cs, Process_calls h = Some cs ∧ cs.*2 ≡ₚ (map_to_list (contents h)).*2.
Proof.
  intros (l & Hl). pose proof Hl as (Hr & _).
  exists (imap (λ i p, (i, p.1, p.2)) l). split.
  - unfold Process_calls. apply mapM_Some_2, Forall2_same_length_lookup_2.
    { by rw !length_imap (repr_queue _ _ Hr) length_fmap. }
    intros i [j k] [[j' k'] o]. rw !list_lookup_imap.
    intros (k1 & Hk1 & [= <- <-])%fmap_Some ([k2 o2] & Hk2 & [= <- <- <-])%fmap_Some. simpl.
    rw (repr_lookup_queue _ _ _ _ _ Hr Hk2) in Hk1. simplify_eq.
    by rw (repr_items _ _ Hr _ _ _ Hk2).
  - rw (rep_contents _ _ Hl) map_to_list_to_map; [|apply (repr_nodup _ _ Hr)].
    rw fmap_imap. by rw -(imap_const snd).
Qed.

(** Heaps the program can reach from a new one. *)
Inductive heap_reachable : Heap O → Prop :=
  | hr_new r : from_option (λ log, log = []) True r → heap_reachable (NewWithRecorder r)
  | hr_step op h h' out : heap_reachable h → exec op h = Some (h', out) → heap_reachable h'.

Lemma reachable_inv h : heap_reachable h → heap_inv h.
Proof.
  induction 1 as [r Hr|op h h' out _ Hinv Hex].
  - exists []. apply heap_rep_new. destruct r; [|done]. by simplify_eq/=.
  - destruct (decide (contents h = ∅)) as [He|Hne].
    + destruct (exec_refines op h Hinv) as (h1 & out1 & Hex1 & Hinv1 & _); [|congruence].
      intros ->. simpl in Hex. by rw (Pop_empty h Hinv He) in Hex.
    + destruct (exec_refines op h Hinv) as (h1 & out1 & Hex1 & Hinv1 & _); congruence.
Qed.
End heap_spec.

(** ** Properties *)
Section heap_properties.
Context {O : Type} (keyFunc : O → option string) (lessFunc : O → O → bool).

(** C28: for any [less] function, every operation on a heap that satisfies the
    invariant (a pop needs a non-empty heap) returns without a panic, restores
    the invariant and acts on the key-to-object map as the abstract machine
    says: insert, insert if absent, delete, delete-then-insert, and removal of
    one object, a least one when [less] is a strict weak order. *)
Theorem heap_refines_map (op : HeapOp) (h : Heap O) :
  heap_inv keyFunc lessFunc h → (op = OpPop → contents h ≠ ∅) →
  ∃ h' out, exec keyFunc lessFunc op h = Some (h', out) ∧
    heap_inv keyFunc lessFunc h' ∧
    spec_step keyFunc lessFunc op (contents h) out (contents h').
Proof. by apply exec_refines. Qed.

(** Popping a heap until it is empty yields each stored object exactly
    once, in an order in which no later object is less than an earlier one. *)
Theorem heap_drain_sorted `{!StrictWeak lessFunc} (h : Heap O) :
  heap_inv keyFunc lessFunc h →
  ∃ os, drain lessFunc (Len h) h = Some os ∧ os ≡ₚ List h ∧
    StronglySorted (λ a b, lessFunc b a = false) os.
Proof.
  intros Hinv. destruct (drain_spec keyFunc lessFunc _ h Hinv eq_refl) as (os & Hd & Hp & Hs).
  rw (Len_contents _ _ _ Hinv). exists os. split_and!; [done| |done].
  rw Hp /contents /List map_to_list_fmap -!list_fmap_compose. done.
Qed.

(** In every heap reachable from a new one by the public operations, the
    queue length, the number of keys and the recorder's increments minus
    decrements are equal, and [Peek]/[Pop] agree with the map: an empty heap
    peeks nil and a pop on it panics. *)
Theorem heap_reachable_counts (h : Heap O) :
  heap_reachable keyFunc lessFunc h →
  Len h = size (contents h) ∧
  (∀ log, metricRecorder h = Some log → gauge log = Z.of_nat (Len h)) ∧
  (Pop lessFunc h = None ↔ contents h = ∅) ∧
  (Peek h = Some None ↔ contents h = ∅).
Proof.
  intros Hreach. apply reachable_inv in Hreach as Hinv.
  pose proof (Len_contents _ _ _ Hinv) as Hlen. split_and!; [done| | |].
  - intros log Hlog. destruct Hinv as (l & Hr & _ & _ & Hg). rw Hlog in Hg. simpl in Hg.
    by rw Hg /Len (repr_queue _ _ Hr) length_fmap.
  - split; [|by eapply Pop_empty].
    intros Hp. destruct (decide (contents h = ∅)) as [|Hne]; [done|].
    destruct (Pop_spec keyFunc lessFunc h Hinv Hne) as (? & ? & ? & Hp' & _). congruence.
  - destruct (decide (contents h = ∅)) as [He|Hne].
    + split; [done|]. rw He map_size_empty in Hlen. apply nil_length_inv in Hlen.
      intros _. by rw /Peek /data_Peek Hlen.
    + destruct (Pop_spec keyFunc lessFunc h Hinv Hne) as (? & ? & ? & _ & _ & _ & _ & Hpk & _).
      split; intros; [congruence|done].
Qed.
End heap_properties.

(** Concrete inputs: objects are (name, priority) pairs, lower number first. *)
Definition kv_key (o : string * Z) : option string := if decide (o.1 = "") then None else Some o.1.
Definition kv_less (o1 o2 : string * Z) : bool := (o1.2 <? o2.2)%Z.

#[export] Instance kv_less_sw : StrictWeak kv_less.
Proof. apply (strict_weak_key snd). apply _. Qed.

Definition kv_new : Heap (string * Z) := NewWithRecorder (Some []).

Lemma kv_new_inv : heap_inv kv_key kv_less kv_new.
Proof. exists []. by apply heap_rep_new. Qed.

Lemma heap_refines_map_witness :
  ∃ h' out, exec kv_key kv_less (OpAdd ("a"%string, 3%Z)) kv_new = Some (h', out) ∧
    contents h' = {["a"%string := ("a"%string, 3%Z)]}.
Proof.
  destruct (heap_refines_map kv_key kv_less (OpAdd ("a"%string, 3%Z)) kv_new kv_new_inv)
    as (h' & out & Hex & _ & Hstep); [discriminate|].
  exists h', out. split; [exact Hex|]. inversion Hstep. reflexivity.
Defined.

(** A heap holding three objects, built by three adds. *)
Definition kv_add (o : string * Z) (h : Heap (string * Z)) : Heap (string * Z) :=
  from_option fst h (Add kv_key kv_less o h).

Definition kv_three : Heap (string * Z) :=
  kv_add ("c"%string, 2%Z) (kv_add ("b"%string, 1%Z) (kv_add ("a"%string, 3%Z) kv_new)).

Lemma kv_add_reachable o h :
  is_Some (Add kv_key kv_less o h) →
  heap_reachable kv_key kv_less h → heap_reachable kv_key kv_less (kv_add o h).
Proof.
  intros [[h' e] He] Hr. rw /kv_add He /=. eapply (hr_step _ _ (OpAdd o)); [done|].
  by rw /= He.
Qed.

Lemma kv_three_reachable : heap_reachable kv_key kv_less kv_three.
Proof. repeat (apply kv_add_reachable; [by vm_compute; eexists|]). by apply hr_new. Qed.

Lemma heap_drain_sorted_witness :
  drain kv_less 3 kv_three = Some [("b"%string, 1%Z); ("c"%string, 2%Z); ("a"%string, 3%Z)] ∧
  ∃ os, drain kv_less (Len kv_three) kv_three = Some os ∧ os ≡ₚ List kv_three.
Proof.
  split; [vm_compute; reflexivity|].
  destruct (heap_drain_sorted kv_key kv_less kv_three) as (os & Hd & Hp & _).
  - apply reachable_inv. exact kv_three_reachable.
  - exists os. split; [exact Hd|exact Hp].
Defined.

Lemma heap_reachable_counts_witness :
  Len kv_three = 3 ∧ Len kv_three = size (contents kv_three) ∧ Pop kv_less kv_three ≠ None.
Proof.
  destruct (heap_reachable_counts kv_key kv_less kv_three kv_three_reachable)
    as (Hlen & _ & Hpop & _).
  split; [vm_compute; reflexivity|]. split; [exact Hlen|]. vm_compute. discriminate.
Defined.
