(* ===== verification/BitPlace.v ===== *)
(** * The place allocator of pkg/util/bitplace/bitplace.go

    A Fenwick tree over the places [1..n] counts the allocated ones; [Alloc]
    binary-searches the first place that is free.  The abstract value is the
    set of allocated places; the tree is related to it by prefix counts. *)
From S2P Require Import Prelude.
Local Open Scope Z_scope.

(** Go's [int] values here stay between [-1] and [2 * n + 1], so they are modelled
    by [Z] without wrap-around. *)
Record fenwick := mkFenwick { items : list Z; n : Z }.

Definition lowbit (x : Z) : Z := Z.land x (- x).

(** [f.items[i]], panicking out of range. *)
Definition read (f : fenwick) (i : Z) : option Z :=
  if bool_decide (0 ≤ i) then items f !! Z.to_nat i else None.

Definition add_at (f : fenwick) (i v : Z) : option fenwick :=
  y ← read f i; Some (mkFenwick (<[Z.to_nat i := y + v]> (items f)) (n f)).

(** [for i := x; i <= f.n; i += lowbit(i)]: [i] grows, [n] steps are enough. *)
Fixpoint add_loop (fuel : nat) (i v : Z) (f : fenwick) : option fenwick :=
  if bool_decide (i ≤ n f) then
    match fuel with
    | O => None
    | S k => f' ← add_at f i v; add_loop k (i + lowbit i) v f'
    end
  else Some f.

Definition add (x v : Z) (f : fenwick) : option fenwick :=
  add_loop (length (items f)) x v f.

(** [for i := x; i != 0; i -= lowbit(i)] *)
Fixpoint sum_loop (fuel : nat) (i ret : Z) (f : fenwick) : option Z :=
  if bool_decide (i = 0) then Some ret else
  match fuel with
  | O => None
  | S k => y ← read f i; sum_loop k (i - lowbit i) (ret + y) f
  end.

Definition sum (x : Z) (f : fenwick) : option Z := sum_loop (Z.to_nat x) x 0 f.

Record bitPlaceImpl := mkBitPlace { f : fenwick }.

Definition New (m : Z) : option bitPlaceImpl :=
  if bool_decide (0 ≤ m + 1) then
    Some (mkBitPlace (mkFenwick (replicate (Z.to_nat (m + 1)) 0) m))
  else None.

Definition has (x : Z) (b : bitPlaceImpl) : option bool :=
  if bool_decide (x ≤ 0) then Some false else
  s1 ← sum x (f b); s0 ← sum (x - 1) (f b); Some (bool_decide (0 < s1 - s0)).

Definition Free (x : Z) (b : bitPlaceImpl) : option bitPlaceImpl :=
  let x := x + 1 in
  h ← has x b;
  if negb h then Some b else f' ← add x (-1) (f b); Some (mkBitPlace f').

(** The binary search: the interval halves, [n + 1] steps are more than enough. *)
Fixpoint find_loop (fuel : nat) (l r : Z) (g : fenwick) : option Z :=
  if bool_decide (l < r) then
    match fuel with
    | O => None
    | S k =>
        let mid := Z.shiftr (l + r) 1 in
        s ← sum mid g;
        if bool_decide (mid ≤ s) then find_loop k (mid + 1) r g else find_loop k l mid g
    end
  else Some l.

Definition findUnusedIdx (b : bitPlaceImpl) : option Z :=
  find_loop (length (items (f b))) 1 (n (f b) + 1) (f b).

Definition Alloc (b : bitPlaceImpl) : option (bitPlaceImpl * Z) :=
  idx ← findUnusedIdx b;
  if bool_decide (n (f b) < idx) then Some (b, -1) else
  f' ← add idx 1 (f b);
  Some (mkBitPlace f', idx - 1).

Definition Clean (b : bitPlaceImpl) : bitPlaceImpl :=
  mkBitPlace (mkFenwick (replicate (Z.to_nat (n (f b) + 1)) 0) (n (f b))).

(** ** Lowest set bit *)

Lemma lowbit_double y : lowbit (2 * y) = 2 * lowbit y.
Proof.
  unfold lowbit. replace (- (2 * y)) with (2 * - y) by lia.
  replace (2 * y) with (Z.shiftl y 1) by (rw Z.shiftl_mul_pow2; lia).
  replace (2 * - y) with (Z.shiftl (- y) 1) by (rw Z.shiftl_mul_pow2; lia).
  rw -Z.shiftl_land Z.shiftl_mul_pow2; lia.
Qed.

Lemma lowbit_odd m : lowbit (2 * m + 1) = 1.
Proof.
  unfold lowbit. replace (- (2 * m + 1)) with (2 * Z.lnot m + 1) by (unfold Z.lnot; lia).
  apply Z.bits_inj'. intros i Hi. rw Z.land_spec.
  destruct (decide (i = 0)) as [->|].
  - by rw !Z.testbit_odd_0.
  - replace i with (Z.succ (i - 1)) by lia.
    rw !Z.testbit_odd_succ; try lia. rw Z.lnot_spec; [|lia].
    replace 1 with (2 * 0 + 1) at 3 by lia. rw Z.testbit_odd_succ; [|lia].
    rw Z.bits_0. by destruct (Z.testbit m (i - 1)).
Qed.

Lemma lowbit_pow k m : 0 ≤ k → lowbit (2 ^ k * (2 * m + 1)) = 2 ^ k.
Proof.
  intros Hk. revert m. pattern k. apply natlike_ind; [|clear k Hk|done].
  - intros m. rw Z.pow_0_r Z.mul_1_l. apply lowbit_odd.
  - intros k Hk IH m. rw Z.pow_succ_r // -Z.mul_assoc lowbit_double IH //.
Qed.

(** Every positive number is a power of two times an odd number. *)
Lemma pow_odd x : 0 < x → ∃ k m, 0 ≤ k ∧ 0 ≤ m ∧ x = 2 ^ k * (2 * m + 1).
Proof.
  intros Hx. revert Hx. pattern x. apply (well_founded_ind (Z.lt_wf 0)). clear x.
  intros x IH Hx. destruct (Z.Even_or_Odd x) as [[y ->]|[y ->]].
  - destruct (IH y) as (k & m & ? & ? & ->); try lia.
    exists (Z.succ k), m. rw Z.pow_succ_r //. lia.
  - exists 0, y. rw Z.pow_0_r. lia.
Qed.

Lemma lowbit_range x : 0 < x → 0 < lowbit x ≤ x.
Proof.
  intros (k & m & ? & ? & ->)%pow_odd. rw lowbit_pow //.
  assert (0 < 2 ^ k) by (by apply Z.pow_pos_nonneg). nia.
Qed.

(** Adding the lowest bit at least doubles it. *)
Lemma lowbit_next x : 0 < x → 2 * lowbit x ≤ lowbit (x + lowbit x).
Proof.
  intros (k & m & ? & ? & ->)%pow_odd. rw lowbit_pow //.
  replace (2 ^ k * (2 * m + 1) + 2 ^ k) with (2 ^ Z.succ k * (m + 1)).
  2:{ rw Z.pow_succ_r //. lia. }
  destruct (pow_odd (m + 1)) as (k' & m' & ? & ? & ->); [lia|].
  rw Z.mul_assoc -Z.pow_add_r; try lia. rw lowbit_pow; [|lia].
  rw -Z.pow_succ_r //. apply Z.pow_le_mono_r; lia.
Qed.

(** Between [c] and its successor in the update chain, the blocks start after
    [c]. *)
Lemma lowbit_between c i : 0 < c → c < i < c + lowbit c → c ≤ i - lowbit i.
Proof.
  intros (k & m & ? & ? & ->)%pow_odd. rw lowbit_pow //. intros Hi.
  destruct (pow_odd (i - 2 ^ k * (2 * m + 1))) as (j & p & ? & ? & Hd); [lia|].
  assert (0 < 2 ^ j) by (by apply Z.pow_pos_nonneg).
  assert (j < k) by (apply (Z.pow_lt_mono_r_iff 2); nia).
  assert (Hk : 2 ^ k = 2 ^ j * (2 * 2 ^ (k - j - 1))).
  { replace k with (j + Z.succ (k - j - 1)) at 1 by lia.
    rw Z.pow_add_r; try lia. rw Z.pow_succ_r; lia. }
  replace i with (2 ^ j * (2 * (p + 2 ^ (k - j - 1) * (2 * m + 1)) + 1)) at 2 by nia.
  rw lowbit_pow //. nia.
Qed.

(** ** The tree as an array of counters *)

(** [a 1 + ... + a k] *)
Fixpoint psum (a : Z → Z) (k : nat) : Z :=
  match k with O => 0 | S k' => psum a k' + a (Z.of_nat k) end.

Definition prefix (a : Z → Z) (x : Z) : Z := psum a (Z.to_nat x).

Definition bump (a : Z → Z) (x v : Z) : Z → Z := λ j, if decide (j = x) then a j + v else a j.

(** Node [i] holds the sum of the block [(i - lowbit i, i]]. *)
Record repr (g : fenwick) (a : Z → Z) : Prop := {
  repr_n : 0 ≤ n g;
  repr_len : length (items g) = Z.to_nat (n g + 1);
  repr_read : ∀ i, 1 ≤ i ≤ n g → read g i = Some (prefix a i - prefix a (i - lowbit i))
}.

Lemma prefix_bump a x v i :
  1 ≤ x → prefix (bump a x v) i = prefix a i + (if decide (x ≤ i) then v else 0).
Proof.
  intros Hx. unfold prefix. destruct (decide (0 ≤ i)) as [Hi|Hi].
  2:{ replace (Z.to_nat i) with O by lia. case_decide; [lia|]. simpl. lia. }
  destruct (Z_of_nat_complete i Hi) as [k ->]. rw Nat2Z.id. clear Hi.
  induction k as [|k IH]; simpl.
  - case_decide; lia.
  - rw IH. unfold bump. repeat case_decide; lia.
Qed.

Lemma prefix_succ a x : 0 ≤ x → prefix a (x + 1) = prefix a x + a (x + 1).
Proof.
  intros. unfold prefix. rw Z.add_1_r Z2Nat.inj_succ //=. do 2 f_equal. lia.
Qed.

Lemma sum_loop_spec g a k i ret :
  repr g a → 0 ≤ i ≤ n g → (Z.to_nat i ≤ k)%nat →
  sum_loop k i ret g = Some (ret + prefix a i).
Proof.
  intros Hr. revert i ret. induction k as [|k IH]; intros i ret Hi Hk; simpl.
  - rw bool_decide_eq_true_2; [|lia]. replace i with 0 by lia. by rw Z.add_0_r.
  - case_bool_decide as Hz; [subst; by rw Z.add_0_r|].
    pose proof (lowbit_range i ltac:(lia)). rw (repr_read _ _ Hr); [|lia]. simpl.
    rw IH; [|lia..]. f_equal. lia.
Qed.

Lemma sum_spec g a x : repr g a → 0 ≤ x ≤ n g → sum x g = Some (prefix a x).
Proof. intros. by rw /sum (sum_loop_spec g a) // Z.add_0_l. Qed.

(** Out of range, [sum] reads past the slice. *)
Lemma sum_panics g a x : repr g a → n g < x → sum x g = None.
Proof.
  intros Hr Hx. pose proof (repr_n _ _ Hr). unfold sum.
  destruct (Z.to_nat x) eqn:E; [lia|]. simpl. rw bool_decide_eq_false_2; [|lia].
  unfold read. rw bool_decide_eq_true_2; [|lia].
  rw lookup_ge_None_2 //. rw (repr_len _ _ Hr). lia.
Qed.

Definition covers (x i : Z) : Prop := i - lowbit i < x ≤ i.
#[local] Instance covers_dec x i : Decision (covers x i).
Proof. unfold covers. apply _. Defined.

(** The loop of [add] after the nodes below [c] were visited. *)
Lemma add_loop_spec k c x v (d : Z → Z) g :
  1 ≤ x ≤ c → covers x c → (Z.to_nat (n g + 1 - c) ≤ k)%nat →
  length (items g) = Z.to_nat (n g + 1) →
  (∀ i, 1 ≤ i ≤ n g →
     read g i = Some (d i + if decide (covers x i ∧ i < c) then v else 0)) →
  ∃ g', add_loop k c v g = Some g' ∧ n g' = n g ∧ length (items g') = length (items g) ∧
    ∀ i, 1 ≤ i ≤ n g → read g' i = Some (d i + if decide (covers x i) then v else 0).
Proof.
  revert c g. induction k as [|k IH]; intros c g Hc Hcov Hk Hlen Hg; simpl;
    (case_bool_decide; [|exists g; split_and!; [done..|];
      intros i Hi; rw Hg //; do 2 f_equal;
      destruct (decide (covers x i ∧ i < c)), (decide (covers x i)); try done;
      unfold covers in *; lia]).
  { lia. }
  unfold add_at. rw Hg; [|lia]. rw decide_False; [|lia]. simpl.
  set (g1 := mkFenwick _ _). pose proof (lowbit_range c ltac:(lia)).
  pose proof (lowbit_next c ltac:(lia)).
  destruct (IH (c + lowbit c) g1) as (g' & -> & Hn & Hl & Hrd); simpl.
  - lia.
  - unfold covers in *. lia.
  - lia.
  - by rw length_insert.
  - intros i Hi. unfold read. simpl. rw bool_decide_eq_true_2; [|lia].
    destruct (decide (i = c)) as [->|Hne].
    + rw list_lookup_insert_eq; [|lia]. f_equal. rw decide_True; [lia|]. split; [done|lia].
    + rw list_lookup_insert_ne; [|lia].
      specialize (Hg i Hi). unfold read in Hg. rw bool_decide_eq_true_2 in Hg; [|lia].
      rw Hg. do 2 f_equal. destruct (decide (c < i < c + lowbit c)) as [Hb|Hb].
      * pose proof (lowbit_between c i ltac:(lia) Hb). unfold covers.
        repeat case_decide; lia.
      * destruct (decide (covers x i ∧ i < c)), (decide (covers x i ∧ i < c + lowbit c));
          try done; unfold covers in *; lia.
  - exists g'. split_and!; [done|done|by rw Hl /= length_insert|done].
Qed.

Lemma add_spec g a x v :
  repr g a → 1 ≤ x ≤ n g →
  ∃ g', add x v g = Some g' ∧ n g' = n g ∧ repr g' (bump a x v).
Proof.
  intros Hr Hx. pose proof (lowbit_range x ltac:(lia)).
  destruct (add_loop_spec (length (items g)) x x v
    (λ i, prefix a i - prefix a (i - lowbit i)) g) as (g' & Hadd & Hn & Hl & Hrd).
  - lia.
  - unfold covers. lia.
  - rw (repr_len _ _ Hr). lia.
  - apply Hr.
  - intros i Hi. rw (repr_read _ _ Hr) //. f_equal. rw decide_False; [|unfold covers; lia]. lia.
  - exists g'. split_and!; [done|done|]. split; rw ?Hn; [apply Hr|by rw Hl; apply Hr|].
    intros i Hi. rw Hrd // !prefix_bump; [|lia..]. f_equal.
    pose proof (lowbit_range i ltac:(lia)). unfold covers. repeat case_decide; lia.
Qed.

(** ** The allocator as a set of allocated places *)

Definition ind (U : gset Z) : Z → Z := λ j, if decide (j - 1 ∈ U) then 1 else 0.

Definition bp_rep (b : bitPlaceImpl) (U : gset Z) : Prop :=
  repr (f b) (ind U) ∧ ∀ p, p ∈ U → 0 ≤ p < n (f b).

(** The places [0..m-1] are all allocated. *)
Definition full (U : gset Z) (m : Z) : Prop := ∀ p, 0 ≤ p < m → p ∈ U.

Lemma repr_ext g a a' : (∀ j, a j = a' j) → repr g a → repr g a'.
Proof.
  intros He [H1 H2 H3]. assert (Hp : ∀ x, prefix a x = prefix a' x).
  { intros x. unfold prefix. induction (Z.to_nat x) as [|k IH]; simpl; [done|]. by rw IH He. }
  split; [done..|]. intros i Hi. by rw H3 // !Hp.
Qed.

Lemma ind_succ U x : ind U (x + 1) = if decide (x ∈ U) then 1 else 0.
Proof. unfold ind. by replace (x + 1 - 1) with x by lia. Qed.

Lemma prefix_ind_le U m : 0 ≤ m → prefix (ind U) m ≤ m.
Proof.
  intros Hm. pattern m. apply natlike_ind; [done| |done]. intros x Hx IH.
  rw -Z.add_1_r prefix_succ // ind_succ. case_decide; lia.
Qed.

Lemma prefix_ind_full U m : 0 ≤ m → (m ≤ prefix (ind U) m ↔ full U m).
Proof.
  intros Hm. pattern m. apply natlike_ind; [|clear m Hm|done].
  - split; [|done]. intros _ p. lia.
  - intros x Hx IH. rw -Z.add_1_r prefix_succ // ind_succ.
    pose proof (prefix_ind_le U x Hx). split.
    + case_decide as Hin; [|lia]. intros Hle p Hp.
      destruct (decide (p = x)) as [->|]; [done|]. apply IH; lia.
    + intros Hf. rw decide_True; [|apply Hf; lia].
      assert (x ≤ prefix (ind U) x); [|lia]. apply IH. intros p Hp. apply Hf. lia.
Qed.

Lemma find_loop_spec k l r g U :
  repr g (ind U) → 1 ≤ l ≤ r → r ≤ n g + 1 → (Z.to_nat (r - l) ≤ k)%nat →
  full U (l - 1) → (r ≤ n g → ¬ full U r) →
  ∃ i, find_loop k l r g = Some i ∧ l ≤ i ≤ r ∧ full U (i - 1) ∧ (i ≤ n g → ¬ full U i).
Proof.
  intros Hr. revert l r. induction k as [|k IH]; intros l r Hlr Hrn Hk Hf Hnf; simpl;
    (case_bool_decide; [|assert (l = r) as -> by lia; exists r; split_and!; auto; lia]); [lia|].
  set (mid := Z.shiftr (l + r) 1).
  assert (Hmid : l ≤ mid < r).
  { unfold mid. rw Z.shiftr_div_pow2 // Z.pow_1_r.
    pose proof (Z.div_mod (l + r) 2). pose proof (Z.mod_pos_bound (l + r) 2). lia. }
  rw (sum_spec g (ind U)) //; [|lia]. simpl.
  pose proof (prefix_ind_full U mid ltac:(lia)) as Hiff. case_bool_decide as Hd.
  - destruct (IH (mid + 1) r) as (i & -> & ? & ? & ?); try lia; [|done|].
    + replace (mid + 1 - 1) with mid by lia. by apply Hiff.
    + exists i. split_and!; auto; lia.
  - destruct (IH l mid) as (i & -> & ? & ? & ?); try lia; [done| |].
    + intros _ Hfull. by apply Hd, Hiff.
    + exists i. split_and!; auto; lia.
Qed.

Lemma New_spec m : 0 ≤ m → ∃ b, New m = Some b ∧ n (f b) = m ∧ bp_rep b ∅.
Proof.
  intros Hm. unfold New. rw bool_decide_eq_true_2; [|lia]. eexists; split_and!; [done|done|].
  split; [|set_solver]. split; simpl; [done|by rw length_replicate|].
  intros i Hi. assert (Hz : ∀ x, prefix (ind ∅) x = 0).
  { intros x. unfold prefix. induction (Z.to_nat x) as [|k IH]; cbn [psum]; [done|].
    rw IH. unfold ind. case_decide; [set_solver|done]. }
  rw !Hz /read bool_decide_eq_true_2; [|lia]. simpl. rw lookup_replicate_2; [done|lia].
Qed.

Lemma Clean_spec b U : bp_rep b U → bp_rep (Clean b) ∅ ∧ n (f (Clean b)) = n (f b).
Proof.
  intros [Hr _]. pose proof (repr_n _ _ Hr).
  destruct (New_spec (n (f b))) as (b' & Hb & _ & Hrep); [done|].
  split; [|done]. unfold New in Hb. rw bool_decide_eq_true_2 in Hb; [|lia]. by simplify_eq.
Qed.

Lemma Alloc_spec b U :
  bp_rep b U → ∃ b' r, Alloc b = Some (b', r) ∧ n (f b') = n (f b) ∧
    ((r = -1 ∧ b' = b ∧ full U (n (f b))) ∨
     (0 ≤ r < n (f b) ∧ r ∉ U ∧ full U r ∧ bp_rep b' ({[r]} ∪ U))).
Proof.
  intros [Hr Hb]. pose proof (repr_n _ _ Hr). unfold Alloc, findUnusedIdx.
  destruct (find_loop_spec (length (items (f b))) 1 (n (f b) + 1) (f b) U Hr)
    as (i & -> & Hi & Hf & Hnf); try lia.
  { rw (repr_len _ _ Hr). lia. }
  { intros p. lia. }
  simpl. case_bool_decide as Hin.
  - eexists _, _. split_and!; [done..|]. left. split_and!; [done..|].
    by replace (n (f b)) with (i - 1) by lia.
  - destruct (add_spec (f b) (ind U) i 1 Hr) as (g' & -> & Hn & Hr'); [lia|]. simpl.
    assert (i - 1 ∉ U) as Hni.
    { intros Hin'. apply Hnf; [lia|]. intros p Hp.
      destruct (decide (p = i - 1)) as [->|]; [done|]. apply Hf. lia. }
    eexists _, _. split_and!; [done..|]. right. split_and!; [lia|lia|done|done|].
    split; simpl; rw ?Hn.
    2:{ intros p [->%elem_of_singleton|Hp]%elem_of_union; [lia|by apply Hb]. }
    eapply repr_ext; [|exact Hr']. intros j. unfold bump, ind.
    destruct (decide (j = i)) as [->|].
    + case_decide; case_decide; set_solver.
    + assert (j - 1 ∈ U ↔ j - 1 ∈ {[i - 1]} ∪ U) as Hiff.
      { rw elem_of_union elem_of_singleton. split; [tauto|]. intros [?|?]; [lia|done]. }
      case_decide; case_decide; tauto || done.
Qed.

Lemma Free_spec b U x :
  bp_rep b U → x < n (f b) →
  ∃ b', Free x b = Some b' ∧ n (f b') = n (f b) ∧ bp_rep b' (U ∖ {[x]}).
Proof.
  intros [Hr Hb] Hx. unfold Free, has. case_bool_decide as Hd.
  - exists b. split_and!; [done..|]. replace (U ∖ {[x]}) with U; [done|].
    apply set_eq. intros p. rw elem_of_difference elem_of_singleton.
    split; [|tauto]. intros Hp. pose proof (Hb p Hp). split; [done|lia].
  - rw !(sum_spec _ _ _ Hr); [|lia..]. simpl.
    replace (x + 1 - 1) with x by lia. rw prefix_succ; [|lia].
    rw ind_succ. destruct (decide (x ∈ U)) as [Hin|Hni].
    + rw bool_decide_eq_true_2; [|lia]. simpl.
      destruct (add_spec (f b) (ind U) (x + 1) (-1) Hr) as (g' & -> & Hn & Hr'); [lia|]. simpl.
      eexists. split_and!; [done..|]. split; simpl; rw ?Hn; [|set_solver].
      eapply repr_ext; [|exact Hr']. intros j. unfold bump, ind.
      destruct (decide (j = x + 1)) as [->|].
      * replace (x + 1 - 1) with x by lia. case_decide; case_decide; set_solver.
      * assert (j - 1 ∈ U ↔ j - 1 ∈ U ∖ {[x]}) as Hiff.
        { rw elem_of_difference elem_of_singleton. split; [|tauto]. intros; split; [done|lia]. }
        case_decide; case_decide; tauto || done.
    + rw bool_decide_eq_false_2; [|lia]. exists b. split_and!; [done..|].
      replace (U ∖ {[x]}) with U; [done|set_solver].
Qed.

Lemma Free_panics b U x : bp_rep b U → n (f b) ≤ x → Free x b = None.
Proof.
  intros [Hr _] Hx. pose proof (repr_n _ _ Hr). unfold Free, has.
  rw bool_decide_eq_false_2; [|lia]. rw (sum_panics _ _ (x + 1) Hr) //. lia.
Qed.

(** ** The allocator against its specification *)

Inductive BitPlaceOp := OpAlloc | OpFree (x : Z) | OpClean.

(** The result of [Alloc]; the other methods return nothing. *)
Definition exec (op : BitPlaceOp) (b : bitPlaceImpl) : option (bitPlaceImpl * option Z) :=
  match op with
  | OpAlloc => r ← Alloc b; Some (r.1, Some r.2)
  | OpFree x => b' ← Free x b; Some (b', None)
  | OpClean => Some (Clean b, None)
  end.

Fixpoint run (ops : list BitPlaceOp) (b : bitPlaceImpl) : option (bitPlaceImpl * list (option Z)) :=
  match ops with
  | [] => Some (b, [])
  | op :: ops' =>
      r ← exec op b; r' ← run ops' r.1; Some (r'.1, r.2 :: r'.2)
  end.

(** A set of places below [m]: [Alloc] takes the least free one, -1 when there
    is none. *)
Inductive spec_run (m : Z) : list BitPlaceOp → gset Z → list (option Z) → gset Z → Prop :=
  | SRNil U : spec_run m [] U [] U
  | SRAlloc ops U r outs U' :
      0 ≤ r < m → r ∉ U → (∀ p, 0 ≤ p < r → p ∈ U) →
      spec_run m ops ({[r]} ∪ U) outs U' → spec_run m (OpAlloc :: ops) U (Some r :: outs) U'
  | SRFull ops U outs U' :
      (∀ p, 0 ≤ p < m → p ∈ U) →
      spec_run m ops U outs U' → spec_run m (OpAlloc :: ops) U (Some (-1) :: outs) U'
  | SRFree ops U x outs U' :
      spec_run m ops (U ∖ {[x]}) outs U' → spec_run m (OpFree x :: ops) U (None :: outs) U'
  | SRClean ops U outs U' :
      spec_run m ops ∅ outs U' → spec_run m (OpClean :: ops) U (None :: outs) U'.

Lemma run_refines ops b U :
  bp_rep b U → Forall (λ op, match op with OpFree x => x < n (f b) | _ => True end) ops →
  ∃ b' outs U', run ops b = Some (b', outs) ∧ spec_run (n (f b)) ops U outs U' ∧ bp_rep b' U'.
Proof.
  revert b U. induction ops as [|op ops IH]; intros b U Hr Hf; simpl.
  { exists b, [], U. split_and!; [done|constructor|done]. }
  apply Forall_cons in Hf as [Hop Hf].
  assert (Hstep : ∃ b1 o U1, exec op b = Some (b1, o) ∧ n (f b1) = n (f b) ∧ bp_rep b1 U1 ∧
    ∀ outs U', spec_run (n (f b)) ops U1 outs U' → spec_run (n (f b)) (op :: ops) U (o :: outs) U').
  { destruct op as [|x|]; simpl.
    - destruct (Alloc_spec b U Hr) as (b1 & r & -> & Hn & [(-> & -> & ?)|(? & ? & ? & ?)]);
        eexists _, _, _; split_and!; try done; eauto using spec_run.
    - destruct (Free_spec b U x Hr Hop) as (b1 & -> & Hn & ?).
      eexists _, _, _; split_and!; try done; eauto using spec_run.
    - destruct (Clean_spec b U Hr). eexists _, _, _; split_and!; try done; eauto using spec_run. }
  destruct Hstep as (b1 & o & U1 & -> & Hn & Hr1 & Hspec). simpl.
  destruct (IH b1 U1 Hr1) as (b' & outs & U' & -> & Hs & Hr'); [by rw Hn|].
  eexists _, _, _. split_and!; [done| |done]. apply Hspec. by rw -Hn.
Qed.

(** A Fenwick tree that holds the array [a] answers prefix sums, and [add]
    is a point update: after [add x v] every prefix sum from [x] on has grown by
    [v] and the others are unchanged.  Neither call panics in range. *)
Theorem fenwick_point_update (g : fenwick) (a : Z → Z) (x v y : Z) :
  repr g a → 1 ≤ x ≤ n g → 0 ≤ y ≤ n g →
  sum y g = Some (prefix a y) ∧
  ∃ g', add x v g = Some g' ∧
    sum y g' = Some (prefix a y + (if decide (x ≤ y) then v else 0)).
Proof.
  intros Hr Hx Hy. split; [by apply sum_spec|].
  destruct (add_spec g a x v Hr Hx) as (g' & Hadd & Hn & Hr'). exists g'. split; [done|].
  rw (sum_spec g' _ y Hr'); [|by rw Hn]. rw prefix_bump; [done|lia].
Qed.

(** C33: any sequence of [Alloc], [Free] (of a place below the capacity) and
    [Clean] on a new allocator runs without a panic and returns what a plain set
    of places would: each [Alloc] yields the least free place and -1 exactly
    when all are taken. *)
Theorem bitplace_refines_set (m : Z) (ops : list BitPlaceOp) :
  0 ≤ m → Forall (λ op, match op with OpFree x => x < m | _ => True end) ops →
  ∃ b b' outs U', New m = Some b ∧ run ops b = Some (b', outs) ∧ spec_run m ops ∅ outs U'.
Proof.
  intros Hm Hf. destruct (New_spec m Hm) as (b & Hb & <- & Hr).
  destruct (run_refines ops b ∅ Hr Hf) as (b' & outs & U' & ? & ? & _).
  by exists b, b', outs, U'.
Qed.

(** [Free] of a place at or beyond the capacity reads past the tree and
    panics. *)
Theorem bitplace_free_out_of_range (b : bitPlaceImpl) (U : gset Z) (x : Z) :
  bp_rep b U → n (f b) ≤ x → Free x b = None.
Proof. apply Free_panics. Qed.

Definition five : bitPlaceImpl := default (mkBitPlace (mkFenwick [] 0)) (New 5).

Lemma five_rep : bp_rep five ∅.
Proof. destruct (New_spec 5) as (b & Hb & _ & Hr); [lia|]. unfold five. by rw Hb. Qed.

Lemma fenwick_point_update_witness :
  sum 4 (f five) = Some 0 ∧
  ∃ g', add 3 1 (f five) = Some g' ∧ sum 4 g' = Some 1.
Proof.
  destruct (fenwick_point_update (f five) (ind ∅) 3 1 4) as (_ & g' & Hadd & Hsum).
  - apply five_rep.
  - vm_compute. split; discriminate.
  - vm_compute. split; discriminate.
  - split; [vm_compute; reflexivity|]. exists g'. split; [exact Hadd|].
    rewrite -> Hsum. vm_compute. reflexivity.
Defined.

Lemma bitplace_refines_set_witness :
  (r ← New 2; run [OpAlloc; OpAlloc; OpAlloc; OpFree 0; OpAlloc] r) ≫= (λ r, Some r.2) =
    Some [Some 0; Some 1; Some (-1); None; Some 0] ∧
  ∃ b b' outs U', New 2 = Some b ∧
    run [OpAlloc; OpAlloc; OpAlloc; OpFree 0; OpAlloc] b = Some (b', outs) ∧
    spec_run 2 [OpAlloc; OpAlloc; OpAlloc; OpFree 0; OpAlloc] ∅ outs U'.
Proof.
  split; [vm_compute; reflexivity|]. apply bitplace_refines_set; [lia|].
  repeat constructor.
Defined.

Lemma bitplace_free_out_of_range_witness : Free 5 five = None.
Proof. apply (bitplace_free_out_of_range five ∅ 5 five_rep). vm_compute. discriminate. Defined.
