(* ===== verification/MinHeap.v ===== *)
(** * Node scores: the min-heap of pkg/scheduler/util/min_heap.go and the host
    selection of pkg/scheduler/core/pod_scheduler/pod_scheduler.go

    [MinHeap] keeps the [size] best nodes seen; [selectHostAndCacheResults]
    picks a node of maximal score by reservoir sampling and caches the runners
    up in ascending order of score. *)
From S2P Require Import Prelude ContainerHeap.
Local Open Scope nat_scope.

Record NodeScore := mkNodeScore { Name : string; Score : Z }.

(** Go's [api.NodeScore{}] *)
Definition zeroNode : NodeScore := mkNodeScore "" 0.

Record MinHeap := mkMinHeap { size : nat; scoredNodes : list NodeScore }.

Definition NewMinHeap : MinHeap := mkMinHeap 0 [].

Definition Parent (i : nat) : nat := if decide (i = 0) then 0 else (i - 1) / 2.
Definition LeftChild (i : nat) : nat := 2 * i + 1.

Definition IsEmpty (h : MinHeap) : bool := bool_decide (size h = 0).

(** [inl] an error, [inr] the value; the outer [None] is a panic. *)
Definition GetMinVal (h : MinHeap) : option (unit + NodeScore) :=
  if IsEmpty h then Some (inl tt) else v ← scoredNodes h !! 0; Some (inr v).

(** [if a[i].Score > a[j].Score { a[i], a[j] = a[j], a[i] }] *)
Definition swap_if_greater (i j : nat) (l : list NodeScore) : option (list NodeScore) :=
  x ← l !! i; y ← l !! j;
  if (Score y <? Score x)%Z then swap i j l else Some l.

(** [parI] grows at each turn, so [size] turns are enough. *)
Fixpoint siftDown_loop (fuel : nat) (parI sz : nat) (l : list NodeScore) :
    option (list NodeScore) :=
  let leftI := LeftChild parI in
  if decide (sz < leftI + 1) then Some l
  else if decide (sz < leftI + 2) then swap_if_greater parI leftI l
  else
    a ← l !! leftI; b ← l !! (leftI + 1);
    let minI := if (Score a <=? Score b)%Z then leftI else leftI + 1 in
    l' ← swap_if_greater parI minI l;
    match fuel with O => None | S f => siftDown_loop f minI sz l' end.

Definition siftDown (h : MinHeap) (parI : nat) : option MinHeap :=
  l ← siftDown_loop (size h) parI (size h) (scoredNodes h);
  Some (mkMinHeap (size h) l).

(** [parI, childI] move up until the parent is not greater. *)
Fixpoint siftUp_loop (fuel : nat) (parI childI : nat) (l : list NodeScore) :
    option (list NodeScore) :=
  x ← l !! parI; y ← l !! childI;
  if (Score y <? Score x)%Z then
    l' ← swap parI childI l;
    match fuel with O => None | S f => siftUp_loop f (Parent parI) parI l' end
  else Some l.

Definition SiftUp (v : NodeScore) (h : MinHeap) : option MinHeap :=
  l ← siftUp_loop (size h) (Parent (size h)) (size h) (scoredNodes h ++ [v]);
  Some (mkMinHeap (size h + 1) l).

Definition SiftDown (h : MinHeap) : option (MinHeap * (unit + NodeScore)) :=
  r ← GetMinVal h;
  match r with
  | inl e => Some (h, inl e)
  | inr minVal =>
      let sz := size h - 1 in
      x ← scoredNodes h !! sz;
      l1 ← store 0 x (scoredNodes h);
      l2 ← store sz zeroNode l1;
      h' ← siftDown (mkMinHeap sz l2) 0;
      Some (h', inr minVal)
  end.

(** [Replace] returns whether it failed. *)
Definition Replace (v : NodeScore) (h : MinHeap) : option (MinHeap * bool) :=
  r ← GetMinVal h;
  match r with
  | inl _ => Some (h, true)
  | inr _ =>
      l ← store 0 v (scoredNodes h);
      h' ← siftDown (mkMinHeap (size h) l) 0;
      Some (h', false)
  end.

(** The three loops of [TopHighestScoreNodes]. *)
Fixpoint siftUp_all (vs : list NodeScore) (h : MinHeap) : option MinHeap :=
  match vs with [] => Some h | v :: vs' => h' ← SiftUp v h; siftUp_all vs' h' end.

(** The value part of [minVal, _ = h.GetMinVal()]. *)
Definition min_or_zero (h : MinHeap) : option NodeScore :=
  r ← GetMinVal h; Some (match r with inl _ => zeroNode | inr v => v end).

Fixpoint replace_greater (vs : list NodeScore) (minVal : NodeScore) (h : MinHeap) :
    option MinHeap :=
  match vs with
  | [] => Some h
  | v :: vs' =>
      if (Score minVal <? Score v)%Z then
        r ← Replace v h; m ← min_or_zero r.1; replace_greater vs' m r.1
      else replace_greater vs' minVal h
  end.

Fixpoint siftDown_n (m : nat) (h : MinHeap) : option (MinHeap * list NodeScore) :=
  match m with
  | O => Some (h, [])
  | S m' =>
      r ← SiftDown h;
      let v := match r.2 with inl _ => zeroNode | inr v => v end in
      r' ← siftDown_n m' r.1;
      Some (r'.1, v :: r'.2)
  end.

(** [priorityNodes[i]] for [i < m] panics when [m] exceeds the length. *)
Definition TopHighestScoreNodes (priorityNodes : list NodeScore) (m : nat) :
    option (list NodeScore) :=
  if decide (length priorityNodes < m) then None else
  h ← siftUp_all (take m priorityNodes) NewMinHeap;
  minVal ← min_or_zero h;
  h' ← replace_greater (drop m priorityNodes) minVal h;
  r ← siftDown_n m h';
  Some r.2.

(** ** Host selection *)

(** The loop of [selectHostAndCacheResults].  [intn k c] is the result of the
    [k]-th call [rand.Intn(c)]; [numCache] is [NumberOfNodesToBeCache]. *)
Section select.
Context (intn : nat → nat → nat).

Record SelState := mkSel {
  maxScore : Z; selected : string; cntOfMaxScore : nat; calls : nat; heap : MinHeap
}.

Definition select_step (needCacheNodes : bool) (numCache : Z) (i : nat) (ns : NodeScore)
    (s : SelState) : option SelState :=
  let s1 :=
    if (maxScore s <? Score ns)%Z then mkSel (Score ns) (Name ns) 1 (calls s) (heap s)
    else if (Score ns =? maxScore s)%Z then
      let c := cntOfMaxScore s + 1 in
      mkSel (maxScore s)
        (if decide (intn (calls s) c = 0) then Name ns else selected s)
        c (calls s + 1) (heap s)
    else s in
  if needCacheNodes then
    h ← (if decide (Z.of_nat i < numCache)%Z then SiftUp ns (heap s1)
         else r ← GetMinVal (heap s1);
              match r with
              | inr minVal =>
                  if (Score minVal <? Score ns)%Z then fst <$> Replace ns (heap s1)
                  else Some (heap s1)
              | inl _ => Some (heap s1)
              end);
    Some (mkSel (maxScore s1) (selected s1) (cntOfMaxScore s1) (calls s1) h)
  else Some s1.

Fixpoint select_loop (needCacheNodes : bool) (numCache : Z) (i : nat) (l : list NodeScore)
    (s : SelState) : option SelState :=
  match l with
  | [] => Some s
  | ns :: l' => s' ← select_step needCacheNodes numCache i ns s;
                select_loop needCacheNodes numCache (i + 1) l' s'
  end.

Fixpoint cache_loop (m : nat) (h : MinHeap) (selectedNode : string) : option (list string) :=
  match m with
  | O => Some []
  | S m' =>
      r ← SiftDown h;
      rest ← cache_loop m' r.1 selectedNode;
      Some (match r.2 with
            | inl _ => rest
            | inr nodeScore =>
                if decide (Name nodeScore = selectedNode) then rest else Name nodeScore :: rest
            end)
  end.

(** [CacheNodesForPodOwner]: the node names handed to the isolated cache, or
    [None] inside when it returns without caching. *)
Definition CacheNodesForPodOwner (minHeap : MinHeap) (selectedNode : string) :
    option (option (list string)) :=
  let nodeCount := size minHeap in
  if decide (nodeCount = 1) then Some None else
  nodeSlice ← cache_loop nodeCount minHeap selectedNode; Some (Some nodeSlice).

Definition numberOfNodesToBeCache (allMember : Z) (everScheduled : bool) : Z :=
  if bool_decide (1 < allMember)%Z || everScheduled then allMember else 30%Z.

(** The result: the selected node (or the "empty priorityList" error) and what
    was handed to the isolated cache. *)
Definition selectHostAndCacheResults (nodeScoreList : list NodeScore)
    (needCacheNodes : bool) (allMember : Z) (everScheduled : bool) :
    option ((unit + string) * option (list string)) :=
  match nodeScoreList with
  | [] => Some (inl tt, None)
  | ns0 :: rest =>
      let numCache := numberOfNodesToBeCache allMember everScheduled in
      h0 ← (if needCacheNodes then SiftUp ns0 NewMinHeap else Some NewMinHeap);
      s ← select_loop needCacheNodes numCache 0 rest
            (mkSel (Score ns0) (Name ns0) 1 0 h0);
      c ← (if needCacheNodes then CacheNodesForPodOwner (heap s) (selected s)
           else Some None);
      Some (inr (selected s), c)
  end.
End select.

Definition needCacheNodesForPod (hasPodAffinity : bool) (podOwner : string) : bool :=
  if bool_decide (podOwner = "") then false else negb hasPodAffinity.

(** ** Heap order by score *)
Definition score_lt (a b : NodeScore) : bool := (Score a <? Score b)%Z.

#[export] Instance score_lt_sw : StrictWeak score_lt.
Proof. apply (strict_weak_key Score). apply _. Qed.

(** The first [size] cells form a heap; [SiftDown] leaves dead cells behind. *)
Definition mh_ok (h : MinHeap) : Prop :=
  size h ≤ length (scoredNodes h) ∧ heap_upto score_lt (size h) (scoredNodes h).

Definition elems (h : MinHeap) : list NodeScore := take (size h) (scoredNodes h).

Lemma Parent_parent i : Parent i = parent i.
Proof. unfold Parent, parent. by case_decide; subst. Qed.

Lemma sifted_take {E} n (l l' : list E) : sifted n l l' → take n l' ≡ₚ take n l.
Proof.
  intros [Hp Hk]. apply (Permutation_app_inv_r (drop n l)).
  assert (drop n l' = drop n l) as Hd.
  { apply list_eq. intros i. rw !lookup_drop. apply Hk. lia. }
  rw -{1}Hd !take_drop //.
Qed.

Lemma swap_if_greater_spec i j l x y :
  l !! i = Some x → l !! j = Some y →
  swap_if_greater i j l =
    Some (if score_lt y x then <[j:=x]> (<[i:=y]> l) else l).
Proof.
  intros Hi Hj. unfold swap_if_greater, score_lt. rw Hi /= Hj /=.
  case_match; [by apply swap_Some|done].
Qed.

(** On a heap the loop compares and never swaps. *)
Lemma siftDown_idle f i n l :
  n ≤ length l → n - i ≤ f → heap_upto score_lt n l → siftDown_loop f i n l = Some l.
Proof.
  intros Hn. revert i. induction f as [|f IH]; intros i Hf Hh; cbn [siftDown_loop];
    unfold LeftChild; (case_decide; [done|]); try lia.
  destruct (lookup_is_Some_lt l i) as [x Hx]; [lia|].
  destruct (lookup_is_Some_lt l (2 * i + 1)) as [a Ha]; [lia|].
  assert (Hok : ∀ c y, parent c = i → 0 < c < n → l !! c = Some y → score_lt y x = false).
  { intros c y Hp Hc Hy. eapply (Hh c); [done|apply _|by rw Hp|done]. }
  case_decide.
  - rw (swap_if_greater_spec _ _ _ x a) // (Hok (2 * i + 1)) //; [apply parent_left|lia].
  - destruct (lookup_is_Some_lt l (2 * i + 1 + 1)) as [b Hb]; [lia|]. rw Ha /= Hb /=.
    case_match.
    + rw (swap_if_greater_spec _ _ _ x a) // (Hok (2 * i + 1)) //=; try apply parent_left; [|lia].
      apply IH; [lia|done].
    + rw (swap_if_greater_spec _ _ _ x b) // (Hok (2 * i + 1 + 1)) //=; try apply parent_right; [|lia].
      apply IH; [lia|done].
Qed.

(** The child the loop compares with is the smaller one. *)
Lemma min_child n l i c y :
  2 * i + 1 < n → n ≤ length l → (n < 2 * i + 3 ∧ c = 2 * i + 1 ∨
     ∃ a b, l !! (2 * i + 1) = Some a ∧ l !! (2 * i + 1 + 1) = Some b ∧ 2 * i + 2 < n ∧
       c = if (Score a <=? Score b)%Z then 2 * i + 1 else 2 * i + 1 + 1) →
  l !! c = Some y →
  parent c = i ∧ 0 < c < n ∧
  ∀ d z, 0 < d < n → parent d = i → l !! d = Some z → score_lt z y = false.
Proof.
  intros Hi Hn Hc Hy. destruct Hc as [[? ->]|(a & b & Ha & Hb & ? & Hc)].
  - split_and!; [apply parent_left|lia..|]. intros d z Hd [->| ->]%parent_child Hz; [|lia|lia].
    simplify_eq. apply (sw_irrefl score_lt).
  - revert Hc. destruct (Z.leb_spec (Score a) (Score b)); intros ->; simplify_eq;
      (split_and!; [apply parent_left || apply parent_right|lia..|]);
      intros d z Hd [->| ->]%parent_child Hz; try lia;
      replace (2 * i + 2) with (2 * i + 1 + 1) in * by lia; simplify_eq;
      unfold score_lt; apply Z.ltb_ge; lia.
Qed.

Lemma siftDown_loop_spec f i n l :
  n ≤ length l → n - i ≤ f → heap_hole score_lt n i l →
  (0 < i < n → pair_ok score_lt l (parent i) i) →
  ∃ l', siftDown_loop f i n l = Some l' ∧ sifted n l l' ∧ heap_upto score_lt n l'.
Proof.
  revert i l. induction f as [|f IH]; intros i l Hn Hf Hh Hp; cbn [siftDown_loop];
    unfold LeftChild; (case_decide as Hd;
    [exists l; split_and!; [done..|]; intros c Hc;
      destruct (decide (c = i)) as [->|]; [by apply Hp|];
      destruct (decide (parent c = i)) as [Hpc|]; [apply parent_child in Hpc; lia|];
      by apply Hh|]); try lia.
  destruct (lookup_is_Some_lt l i) as [x Hx]; [lia|].
  destruct (lookup_is_Some_lt l (2 * i + 1)) as [a Ha]; [lia|].
  (* one comparison with the smaller child [c], then [k] on the result *)
  assert (Hstep : ∀ c y, l !! c = Some y → parent c = i → 0 < c < n →
    (∀ d z, 0 < d < n → parent d = i → l !! d = Some z → score_lt z y = false) →
    ∃ l1, swap_if_greater i c l = Some l1 ∧ sifted n l l1 ∧
      ((heap_upto score_lt n l1) ∨
       (heap_hole score_lt n c l1 ∧ pair_ok score_lt l1 (parent c) c))).
  { intros c y Hy Hpc Hc Hmin. rw (swap_if_greater_spec _ _ _ x y) //.
    pose proof (parent_lt c ltac:(lia)). destruct (score_lt y x) eqn:Hlt.
    - eexists; split_and!; [done| |].
      + apply sifted_swap; [lia..|done|done].
      + right. exact (hole_down score_lt n l i c x y Hpc Hc Hx Hy (λ _, Hmin) Hlt Hh).
    - exists l. split_and!; [done..|]. left.
      eapply heap_close; [done| |intros; apply Hp; lia].
      intros d Hd' Hpd _ x' z Hx' Hz. simplify_eq. eapply (sw_ntrans x y z); eauto. }
  case_decide as Hd2.
  - destruct (min_child n l i (2 * i + 1) a) as (Hpc & Hc & Hmin); [lia..|left; lia|done|].
    destruct (Hstep _ _ Ha Hpc Hc Hmin) as (l1 & -> & Hs & [Hu|[[H1 H2] Hpo]]);
      exists l1; split_and!; try done.
    intros d Hd'. destruct (decide (d = 2 * i + 1)) as [->|]; [done|]. apply H1; try lia.
    intros Hpd%parent_child; lia.
  - destruct (lookup_is_Some_lt l (2 * i + 1 + 1)) as [b Hb]; [lia|].
    rw Ha. cbn [mbind option_bind]. rw Hb. cbn [mbind option_bind].
    set (c := if (Score a <=? Score b)%Z then 2 * i + 1 else 2 * i + 1 + 1).
    assert (∃ y, l !! c = Some y) as [y Hy] by (unfold c; case_match; eauto).
    destruct (min_child n l i c y) as (Hpc & Hc & Hmin); [lia|lia| |done|].
    { right. exists a, b. split_and!; [done|done|lia|done]. }
    pose proof (parent_lt c ltac:(lia)).
    destruct (Hstep _ _ Hy Hpc Hc Hmin) as (l1 & -> & Hs & [Hu|[Hh1 Hpo]]); cbn [mbind option_bind];
      pose proof (sifted_length _ _ _ Hs).
    + exists l1. rw siftDown_idle; [done|lia|lia|done].
    + destruct (IH c l1) as (l' & -> & Hs' & Hu'); [lia|lia|done|done|].
      exists l'. split_and!; [done|by etrans|done].
Qed.

Lemma siftUp_loop_spec f j n l :
  j ≤ f → j < n ≤ length l → heap_hole score_lt n j l → children_ok score_lt n j l →
  ∃ l', siftUp_loop f (Parent j) j l = Some l' ∧ sifted n l l' ∧ heap_upto score_lt n l'.
Proof.
  revert j l. induction f as [|f IH]; intros j l Hf Hj Hh Hc; cbn [siftUp_loop]; rw (Parent_parent j);
    destruct (lookup_is_Some_lt l j) as [xj Hxj]; try lia;
    (assert (parent j < n) by (destruct (decide (j = 0)) as [->|]; [change (parent 0) with 0; lia|];
      pose proof (parent_lt j ltac:(lia)); lia));
    destruct (lookup_is_Some_lt l (parent j)) as [xi Hxi]; try lia;
    rw Hxi /= Hxj /= -/(score_lt xj xi); destruct (score_lt xj xi) eqn:Hlt;
    try (exists l; split_and!; try done; eapply heap_close; eauto;
         intros _ _ x y Hx Hy; by simplify_eq);
    (assert (0 < j) by (destruct (decide (j = 0)) as [->|]; [|lia];
       change (parent 0) with 0 in Hxi; simplify_eq; by rw (sw_irrefl score_lt) in Hlt)); [lia|].
  pose proof (parent_lt j ltac:(lia)). rw (swap_Some _ _ _ xi xj) //=.
  destruct (hole_up score_lt n l _ j xi xj eq_refl ltac:(lia) Hxi Hxj Hlt Hh Hc) as [Hh1 Hc1].
  destruct (IH (parent j) (<[j:=xi]> (<[parent j:=xj]> l))) as (l' & Hup & Hs & Hu); try done;
    rw ?length_insert; try lia.
  rw Hup. exists l'. split_and!; try done. etrans; [|exact Hs].
  apply sifted_swap; [lia..|done|done].
Qed.

(** ** The heap operations on the bag of live nodes *)

Lemma elems_length h : mh_ok h → length (elems h) = size h.
Proof. intros [Hl _]. rw /elems length_take. lia. Qed.

Lemma GetMinVal_spec h :
  mh_ok h → 0 < size h →
  ∃ m, GetMinVal h = Some (inr m) ∧ scoredNodes h !! 0 = Some m ∧ m ∈ elems h ∧
    ∀ x, x ∈ elems h → (Score m ≤ Score x)%Z.
Proof.
  intros [Hl Hh] Hs. destruct (lookup_is_Some_lt (scoredNodes h) 0) as [m Hm]; [lia|].
  assert (Hm' : elems h !! 0 = Some m) by (rw /elems lookup_take_lt //).
  exists m. split_and!; [|done|by eapply list_elem_of_lookup_2|].
  - rw /GetMinVal /IsEmpty bool_decide_eq_false_2; [by rw Hm|lia].
  - intros x Hx. apply Z.ltb_ge. eapply (heap_root_min score_lt (elems h)); [|done|done].
    intros i Hi _ a b Ha Hb. rw elems_length // in Hi.
    apply lookup_take_Some in Ha as [Ha _]. apply lookup_take_Some in Hb as [Hb _].
    eapply (Hh i); [done|apply _|done|done].
Qed.

(** [siftDown] from the root repairs a heap whose root was overwritten. *)
Lemma siftDown_root n l :
  n ≤ length l → heap_hole score_lt n 0 l →
  ∃ l', siftDown (mkMinHeap n l) 0 = Some (mkMinHeap n l') ∧
    length l' = length l ∧ mh_ok (mkMinHeap n l') ∧ take n l' ≡ₚ take n l.
Proof.
  intros Hn Hh. unfold siftDown. simpl.
  destruct (siftDown_loop_spec n 0 n l) as (l' & -> & Hs & Hu); [done|lia|done|lia|].
  pose proof (sifted_length _ _ _ Hs). exists l'. split_and!; [done|done| |by apply sifted_take].
  split; simpl; [lia|done].
Qed.

Lemma heap_hole_root n l l' :
  heap_upto score_lt n l → (∀ i, 0 < i < n → l' !! i = l !! i) → heap_hole score_lt n 0 l'.
Proof.
  intros Hh Heq. split; [|lia]. intros c Hc _ Hpc SW a b.
  pose proof (parent_lt c ltac:(lia)). rw !Heq; [|lia..]. by apply Hh.
Qed.

Lemma SiftUp_spec v h :
  mh_ok h → length (scoredNodes h) = size h →
  ∃ h', SiftUp v h = Some h' ∧ mh_ok h' ∧ size h' = S (size h) ∧
    length (scoredNodes h') = size h' ∧ elems h' ≡ₚ v :: elems h.
Proof.
  intros [_ Hh] Hlen. unfold SiftUp.
  destruct (siftUp_loop_spec (size h) (size h) (S (size h)) (scoredNodes h ++ [v]))
    as (l' & -> & Hs & Hu); [done|rw length_app /=; lia| | |].
  - split; intros c Hc.
    + intros ?? SW a b Ha Hb. pose proof (parent_lt c ltac:(lia)).
      rw !lookup_app_l in Ha Hb; try lia. eapply (Hh c); eauto. lia.
    + intros Hpc. pose proof (parent_lt c ltac:(lia)). lia.
  - intros c Hc Hpc. pose proof (parent_lt c ltac:(lia)). lia.
  - simpl. pose proof (sifted_length _ _ _ Hs) as Hl'. rw length_app /= in Hl'.
    replace (S (size h)) with (size h + 1) in Hu, Hs by lia.
    eexists. split_and!; [done| |simpl; lia|simpl; lia|].
    + split; simpl; [lia|done].
    + rw /elems /= !take_ge; [|lia..]. destruct Hs as [-> _].
      by rw -Permutation_cons_append.
Qed.

Lemma Replace_spec v h :
  mh_ok h → 0 < size h →
  ∃ h' m rest, Replace v h = Some (h', false) ∧ mh_ok h' ∧ size h' = size h ∧
    GetMinVal h = Some (inr m) ∧ elems h ≡ₚ m :: rest ∧ elems h' ≡ₚ v :: rest.
Proof.
  intros Hok Hs. destruct (GetMinVal_spec h Hok Hs) as (m & Hg & Hm & _). destruct Hok as [Hl Hh].
  unfold Replace. rw Hg /= store_Some /=; [|lia].
  destruct (siftDown_root (size h) (<[0:=v]> (scoredNodes h))) as (l' & -> & _ & Hok' & Hp).
  - by rw length_insert.
  - eapply heap_hole_root; [done|]. intros i Hi. rw list_lookup_insert_ne //. lia.
  - unfold elems in *. destruct (scoredNodes h) as [|x t]; simplify_eq/=.
    destruct (size h) as [|k]; [lia|]. eexists _, m, (take k t).
    split_and!; try done.
Qed.

Lemma SiftDown_spec h :
  mh_ok h → 0 < size h →
  ∃ h' m, SiftDown h = Some (h', inr m) ∧ mh_ok h' ∧ size h' = size h - 1 ∧
    elems h ≡ₚ m :: elems h' ∧ (∀ x, x ∈ elems h → (Score m ≤ Score x)%Z).
Proof.
  intros Hok Hs. destruct (GetMinVal_spec h Hok Hs) as (m & Hg & Hm & _ & Hmin).
  destruct Hok as [Hl Hh]. unfold SiftDown. rw Hg /=.
  destruct (lookup_is_Some_lt (scoredNodes h) (size h - 1)) as [x Hx]; [lia|]. rw Hx /=.
  rw store_Some /=; [|lia]. rw store_Some /=; [|rw length_insert; lia].
  set (l2 := <[size h - 1:=zeroNode]> (<[0:=x]> (scoredNodes h))).
  destruct (siftDown_root (size h - 1) l2) as (l' & -> & _ & Hok' & Hp).
  - unfold l2. rw !length_insert. lia.
  - eapply heap_hole_root; [eapply heap_upto_mono; [|exact Hh]; lia|].
    intros i Hi. unfold l2. rw !list_lookup_insert_ne //; lia.
  - eexists _, m. split_and!; try done. unfold elems. simpl. rw Hp.
    unfold l2. rw take_insert_ge //. destruct (size h) as [|k]; [lia|]. simpl in *.
    rw Nat.sub_0_r in Hx |- *. rw (take_S_r _ _ x) //.
    destruct (scoredNodes h) as [|y t]; simplify_eq/=.
    destruct k as [|k]; simplify_eq/=; [done|].
    constructor. by rw -Permutation_cons_append.
Qed.

(** ** The [m] best of a list *)

(** [hs] are best among [seen]: the others do not score higher. *)
Definition is_top (hs seen : list NodeScore) : Prop :=
  ∃ rest, seen ≡ₚ hs ++ rest ∧ ∀ a b, a ∈ hs → b ∈ rest → (Score b ≤ Score a)%Z.

#[export] Instance is_top_proper : Proper ((≡ₚ) ==> (≡ₚ) ==> iff) is_top.
Proof.
  intros hs hs' Hhs seen seen' Hs. split; intros (rest & Hp & Hr); exists rest; split.
  - by rw -Hs -Hhs.
  - intros a b Ha. apply Hr. by rw Hhs.
  - by rw Hs Hhs.
  - intros a b Ha. apply Hr. by rw -Hhs.
Qed.

Lemma is_top_refl l : is_top l l.
Proof. exists []. rw app_nil_r. split; [done|]. set_solver. Qed.

Lemma is_top_replace m v hs seen :
  (∀ x, x ∈ m :: hs → (Score m ≤ Score x)%Z) → (Score m < Score v)%Z →
  is_top (m :: hs) seen → is_top (v :: hs) (v :: seen).
Proof.
  intros Hm Hv (rest & Hp & Hr). exists (m :: rest). split.
  - rw Hp /=. constructor. by rw -Permutation_middle.
  - intros a b Ha Hb. assert (Score m ≤ Score a)%Z.
    { apply elem_of_cons in Ha as [->|Ha]; [lia|]. apply Hm. set_solver. }
    apply elem_of_cons in Hb as [->|Hb]; [done|].
    assert (Score b ≤ Score m)%Z by (apply Hr; set_solver). lia.
Qed.

Lemma is_top_skip m v hs seen :
  (∀ x, x ∈ hs → (Score m ≤ Score x)%Z) → (Score v ≤ Score m)%Z →
  is_top hs seen → is_top hs (v :: seen).
Proof.
  intros Hm Hv (rest & Hp & Hr). exists (v :: rest). split.
  - by rw Hp -Permutation_middle.
  - intros a b Ha [->|Hb]%elem_of_cons; [|by apply Hr]. specialize (Hm a Ha). lia.
Qed.

(** While every node seen is kept, the new one is too. *)
Lemma is_top_grow v hs seen : length hs = length seen → is_top hs seen → is_top (v :: hs) (v :: seen).
Proof.
  intros Hl (rest & Hp & _). pose proof (Permutation_length Hp) as Hl'. rw length_app in Hl'.
  destruct rest; [|simpl in Hl'; lia]. rw app_nil_r in Hp. rw Hp. apply is_top_refl.
Qed.

Lemma siftUp_all_spec vs h :
  mh_ok h → length (scoredNodes h) = size h →
  ∃ h', siftUp_all vs h = Some h' ∧ mh_ok h' ∧ size h' = length vs + size h ∧
    length (scoredNodes h') = size h' ∧ elems h' ≡ₚ vs ++ elems h.
Proof.
  revert h. induction vs as [|v vs IH]; intros h Hok Hl; simpl; [by exists h|].
  destruct (SiftUp_spec v h Hok Hl) as (h1 & -> & Hok1 & Hs1 & Hl1 & Hp1). simpl.
  destruct (IH h1 Hok1 Hl1) as (h' & -> & Hok' & Hs' & Hl' & Hp').
  exists h'. split_and!; [done|done|lia|done|]. rw Hp' Hp1. by rw Permutation_middle.
Qed.

Lemma replace_greater_spec vs m h seen :
  mh_ok h → 0 < size h → GetMinVal h = Some (inr m) → is_top (elems h) seen →
  ∃ h', replace_greater vs m h = Some h' ∧ mh_ok h' ∧ size h' = size h ∧
    is_top (elems h') (vs ++ seen).
Proof.
  revert m h seen. induction vs as [|v vs IH]; intros m h seen Hok Hs Hm Ht; simpl; [by exists h|].
  destruct (GetMinVal_spec h Hok Hs) as (m' & Hm' & _ & _ & Hmin). simplify_eq.
  setoid_rewrite (Permutation_middle vs seen v).
  case_match eqn:Hlt.
  - destruct (Replace_spec v h Hok Hs) as (h1 & m1 & rest & -> & Hok1 & Hs1 & Hg1 & Hp & Hp1).
    simplify_eq. destruct (GetMinVal_spec h1 Hok1 ltac:(lia)) as (m2 & Hm2 & _).
    simpl. rw /min_or_zero Hm2 /=.
    destruct (IH m2 h1 (v :: seen)) as (h' & -> & ? & ? & ?); [done|lia|done| |].
    + rw Hp1. eapply is_top_replace; [|by apply Z.ltb_lt|by rw -Hp].
      intros x. rw -Hp. apply Hmin.
    + exists h'. split_and!; [done|done|lia|done].
  - apply IH; [done..|]. eapply is_top_skip; [done|by apply Z.ltb_ge|done].
Qed.

Lemma replace_greater_empty vs m h : size h = 0 → replace_greater vs m h = Some h.
Proof.
  intros Hs. revert m. induction vs as [|v vs IH]; intros m; simpl; [done|].
  case_match; [|done]. rw /Replace /min_or_zero /GetMinVal /IsEmpty Hs /=.
  rw /GetMinVal /IsEmpty Hs /=. apply IH.
Qed.

Abbreviation score_le := (λ a b : NodeScore, (Score a ≤ Score b)%Z).

Lemma siftDown_n_spec m h :
  mh_ok h → size h = m →
  ∃ h' os, siftDown_n m h = Some (h', os) ∧ os ≡ₚ elems h ∧ StronglySorted score_le os.
Proof.
  revert h. induction m as [|m IH]; intros h Hok Hs; simpl.
  - exists h, []. split_and!; [done| |constructor]. by rw /elems Hs.
  - destruct (SiftDown_spec h Hok) as (h1 & x & -> & Hok1 & Hs1 & Hp & Hmin); [lia|]. simpl.
    destruct (IH h1 Hok1) as (h' & os & -> & Hp' & Hss); [lia|]. simpl.
    eexists _, _. split_and!; [done|by rw Hp Hp'|]. constructor; [done|].
    apply Forall_forall. intros y Hy. apply Hmin. rw Hp -Hp'. set_solver.
Qed.

Lemma mh_ok_new : mh_ok NewMinHeap.
Proof. split; [done|]. intros i Hi. simpl in Hi. lia. Qed.

Lemma cache_loop_spec m h sel :
  mh_ok h → size h = m →
  ∃ os, cache_loop m h sel = Some (Name <$> filter (λ ns, Name ns ≠ sel) os) ∧
    os ≡ₚ elems h ∧ StronglySorted score_le os.
Proof.
  revert h. induction m as [|m IH]; intros h Hok Hs; cbn [cache_loop].
  - exists []. split_and!; [done| |constructor]. by rw /elems Hs.
  - destruct (SiftDown_spec h Hok) as (h1 & x & -> & Hok1 & Hs1 & Hp & Hmin); [lia|].
    cbn [mbind option_bind]. simpl.
    destruct (IH h1 Hok1) as (os & -> & Hp' & Hss); [lia|]. simpl.
    exists (x :: os). split_and!.
    + rw filter_cons. by case_decide; case_decide.
    + by rw Hp Hp'.
    + constructor; [done|]. apply Forall_forall. intros y Hy. apply Hmin. rw Hp -Hp'. set_solver.
Qed.

(** What the loop of [selectHostAndCacheResults] has established after the
    nodes [seen]. *)
Record sel_inv (needCache : bool) (numCache : Z) (seen : list NodeScore) (s : SelState) : Prop := {
  si_sel : ∃ ns, ns ∈ seen ∧ Name ns = selected s ∧ Score ns = maxScore s;
  si_max : ∀ ns, ns ∈ seen → (Score ns ≤ maxScore s)%Z;
  si_ok : needCache = true → mh_ok (heap s) ∧
    size (heap s) = Nat.min (S (Z.to_nat numCache)) (length seen) ∧
    ((length seen ≤ S (Z.to_nat numCache)) → length (scoredNodes (heap s)) = size (heap s)) ∧
    is_top (elems (heap s)) seen
}.

Lemma select_step_inv intn needCache numCache ns seen s :
  sel_inv needCache numCache seen s → seen ≠ [] →
  ∃ s', select_step intn needCache numCache (length seen - 1) ns s = Some s' ∧
    sel_inv needCache numCache (ns :: seen) s'.
Proof.
  intros [(n0 & Hn0 & Hsel & Hms) Hmax Hok] Hne. unfold select_step.
  set (s1 := if (maxScore s <? Score ns)%Z then _ else _).
  assert (Hs1 : (∃ n1, n1 ∈ ns :: seen ∧ Name n1 = selected s1 ∧ Score n1 = maxScore s1) ∧
    (∀ n1, n1 ∈ ns :: seen → (Score n1 ≤ maxScore s1)%Z) ∧ heap s1 = heap s).
  { unfold s1. destruct (Z.ltb_spec (maxScore s) (Score ns)) as [Hlt|Hge]; [|destruct (Z.eqb_spec (Score ns) (maxScore s)) as [Heq|Hneq]]; simpl.
    - split_and!; [exists ns; set_solver| |done].
      intros n1 [->|Hn1]%elem_of_cons; [done|]. specialize (Hmax _ Hn1). lia.
    - split_and!; [|intros n1 [->|Hn1]%elem_of_cons; [lia|by apply Hmax]|done].
      case_decide; [exists ns; set_solver|exists n0; set_solver].
    - split_and!; [exists n0; set_solver|intros n1 [->|Hn1]%elem_of_cons; [lia|by apply Hmax]|done]. }
  clearbody s1. destruct Hs1 as (Hsel1 & Hmax1 & Hheap). destruct needCache.
  2:{ exists s1. split; [done|]. split; [done..|discriminate]. }
  destruct (Hok eq_refl) as (Hmh & Hsz & Hfull & Htop). rw Hheap.
  assert (0 < length seen) by (destruct seen; [done|simpl; lia]).
  pose proof (elems_length _ Hmh) as Hel.
  case_decide as Hi.
  - destruct (SiftUp_spec ns (heap s) Hmh) as (h' & -> & Hmh' & Hsz' & Hl' & Hp'); [apply Hfull; lia|].
    eexists. split; [done|]. split; simpl; [done..|]. intros _.
    split_and!; [done|rw Hsz' Hsz; lia|done|]. rw Hp'. apply is_top_grow; [lia|done].
  - destruct (GetMinVal_spec (heap s) Hmh) as (m & Hg & _ & _ & Hmin); [lia|]. rw Hg /=.
    case_match eqn:Hlt.
    + destruct (Replace_spec ns (heap s) Hmh) as (h' & m' & rest & -> & Hmh' & Hsz' & Hg' & Hp & Hp'); [lia|].
      simplify_eq. eexists. split; [done|]. split; simpl; [done..|]. intros _.
      split_and!; [done|rw Hsz' Hsz; lia|lia|].
      rw Hp'. eapply is_top_replace; [|by apply Z.ltb_lt|by rw -Hp]. intros x. rw -Hp. apply Hmin.
    + eexists. split; [done|]. split; simpl; [done..|]. intros _. rw ?Hheap.
      split_and!; [done|lia|lia|]. eapply is_top_skip; [done|by apply Z.ltb_ge|done].
Qed.

Lemma select_loop_inv intn needCache numCache l seen s :
  sel_inv needCache numCache seen s → seen ≠ [] →
  ∃ s', select_loop intn needCache numCache (length seen - 1) l s = Some s' ∧
    sel_inv needCache numCache (reverse l ++ seen) s'.
Proof.
  revert seen s. induction l as [|ns l IH]; intros seen s Hinv Hne; simpl; [by exists s|].
  destruct (select_step_inv intn needCache numCache ns seen s Hinv Hne) as (s1 & -> & Hinv1).
  simpl. destruct (IH (ns :: seen) s1 Hinv1) as (s' & Hl & Hinv'); [done|].
  exists s'. rw reverse_cons -assoc /=. split; [|done].
  rw -Hl. f_equal. destruct seen; [done|]. simpl. lia.
Qed.

(** ** Properties *)

(** For [m] at most the number of nodes, [TopHighestScoreNodes] returns
    without a panic [m] of the given nodes, in ascending order of score, such
    that none of the nodes left out scores higher than one returned. *)
Theorem top_highest_correct (nodes : list NodeScore) (m : nat) :
  m ≤ length nodes →
  ∃ resp, TopHighestScoreNodes nodes m = Some resp ∧ length resp = m ∧
    is_top resp nodes ∧ StronglySorted score_le resp.
Proof.
  intros Hm. unfold TopHighestScoreNodes. rw decide_False; [|lia].
  destruct (siftUp_all_spec (take m nodes) NewMinHeap mh_ok_new eq_refl)
    as (h & -> & Hok & Hs & _ & Hp).
  rw app_nil_r in Hp. rw length_take /= in Hs. cbn [mbind option_bind].
  assert (Hloop : ∃ mv h', min_or_zero h = Some mv ∧ replace_greater (drop m nodes) mv h = Some h' ∧
    mh_ok h' ∧ size h' = m ∧ is_top (elems h') nodes).
  { destruct (decide (m = 0)) as [->|].
    - eexists _, h. rw replace_greater_empty; [|lia].
      rw /min_or_zero /GetMinVal /IsEmpty bool_decide_eq_true_2; [|lia].
      split_and!; [done|done|done|lia|]. rw Hp take_0. exists nodes. by split; [|set_solver].
    - destruct (GetMinVal_spec h Hok) as (mv & Hg & _); [lia|]. exists mv.
      destruct (replace_greater_spec (drop m nodes) mv h (take m nodes)) as (h' & ? & ? & ? & Ht);
        [done|lia|done|by rw Hp; apply is_top_refl|].
      exists h'. rw /min_or_zero Hg /=. split_and!; [done..|lia|].
      by rw Permutation_app_comm take_drop in Ht. }
  destruct Hloop as (mv & h' & -> & Hrg & Hok' & Hs' & Ht). cbn [mbind option_bind]. rw Hrg.
  cbn [mbind option_bind].
  destruct (siftDown_n_spec m h' Hok' Hs') as (h2 & os & -> & Hpo & Hss). simpl.
  exists os. split_and!; [done| |by rw Hpo|done]. by rw Hpo elems_length.
Qed.

Lemma select_host_spec (intn : nat → nat → nat) (nodes : list NodeScore)
    (needCache : bool) (allMember : Z) (everScheduled : bool) :
  nodes ≠ [] →
  ∃ sel cached, selectHostAndCacheResults intn nodes needCache allMember everScheduled =
      Some (inr sel, cached) ∧
    (∃ ns, ns ∈ nodes ∧ Name ns = sel ∧ ∀ ns', ns' ∈ nodes → (Score ns' ≤ Score ns)%Z) ∧
    (let k := Nat.min (S (Z.to_nat (numberOfNodesToBeCache allMember everScheduled)))
                (length nodes) in
     match cached with
     | None => needCache = false ∨ k = 1
     | Some names => needCache = true ∧ k ≠ 1 ∧
         ∃ best, is_top best nodes ∧ length best = k ∧ StronglySorted score_le best ∧
           names = Name <$> filter (λ ns, Name ns ≠ sel) best
     end).
Proof.
  intros Hne. destruct nodes as [|ns0 rest]; [done|]. unfold selectHostAndCacheResults.
  set (num := numberOfNodesToBeCache allMember everScheduled).
  assert (∃ h0, (if needCache then SiftUp ns0 NewMinHeap else Some NewMinHeap) = Some h0 ∧
    sel_inv needCache num [ns0] (mkSel (Score ns0) (Name ns0) 1 0 h0)) as (h0 & -> & Hinv).
  { destruct (SiftUp_spec ns0 NewMinHeap mh_ok_new eq_refl) as (h' & Hup & Hok & Hs & Hl & Hp).
    destruct needCache; eexists; (split; [done|]); split; simpl.
    1,4: by exists ns0; set_solver. 1,3: by intros ns ->%list_elem_of_singleton.
    - intros _. split_and!; [done|rw Hs /=; lia|done|]. rw Hp. apply is_top_refl.
    - discriminate. }
  cbn [mbind option_bind].
  destruct (select_loop_inv intn needCache num rest [ns0] _ Hinv) as (s & Hl & [Hsel Hmax Hok]); [done|].
  simpl in Hl. rw Hl. cbn [mbind option_bind].
  assert (Hperm : reverse rest ++ [ns0] ≡ₚ ns0 :: rest).
  { by rw -Permutation_cons_append reverse_Permutation. }
  setoid_rewrite Hperm in Hsel. setoid_rewrite Hperm in Hmax. setoid_rewrite Hperm in Hok.
  destruct Hsel as (ns & Hin & Hname & Hscore).
  assert (Hbest : ∃ ns, ns ∈ ns0 :: rest ∧ Name ns = selected s ∧
    ∀ ns', ns' ∈ ns0 :: rest → (Score ns' ≤ Score ns)%Z).
  { exists ns. split_and!; [done..|]. rw Hscore. apply Hmax. }
  destruct needCache; [|by eexists _, None; split_and!; [done| |left]].
  destruct (Hok eq_refl) as (Hmh & Hsz & _ & Htop). unfold CacheNodesForPodOwner.
  case_decide as H1; cbn [mbind option_bind].
  - eexists _, None. split_and!; [done..|]. right. by rw -Hsz.
  - destruct (cache_loop_spec (size (heap s)) (heap s) (selected s) Hmh eq_refl)
      as (os & -> & Hpo & Hss). cbn [mbind option_bind].
    eexists _, (Some _). split_and!; [done..|by rw -Hsz|]. exists os.
    split_and!; [by rw Hpo|by rw Hpo elems_length|done|done].
Qed.

(** Whatever the random numbers, on a non-empty score list the selection
    returns without a panic a node of maximal score; when caching is on and the
    heap kept more than one node, the cached names are those of the best
    [1 + NumberOfNodesToBeCache] nodes, in ascending order of score, without the
    selected name. *)
Theorem select_host_correct (intn : nat → nat → nat) (nodes : list NodeScore)
    (needCache : bool) (allMember : Z) (everScheduled : bool) :
  nodes ≠ [] →
  ∃ sel cached, selectHostAndCacheResults intn nodes needCache allMember everScheduled =
      Some (inr sel, cached) ∧
    (∃ ns, ns ∈ nodes ∧ Name ns = sel ∧ ∀ ns', ns' ∈ nodes → (Score ns' ≤ Score ns)%Z) ∧
    (let k := Nat.min (S (Z.to_nat (numberOfNodesToBeCache allMember everScheduled)))
                (length nodes) in
     match cached with
     | None => needCache = false ∨ k = 1
     | Some names => needCache = true ∧ k ≠ 1 ∧
         ∃ best, is_top best nodes ∧ length best = k ∧ StronglySorted score_le best ∧
           names = Name <$> filter (λ ns, Name ns ≠ sel) best
     end).
Proof. apply select_host_spec. Qed.

(** [SiftDown] shrinks [size] but not the slice, so a later [SiftUp], which
    appends, leaves the new node outside the heap: after one [SiftUp], one
    [SiftDown] and another [SiftUp] the minimum reported is the zero node. *)
Theorem siftup_after_siftdown_loses_node (a b : NodeScore) :
  ∃ h1 h2 h3, SiftUp a NewMinHeap = Some h1 ∧ SiftDown h1 = Some (h2, inr a) ∧
    SiftUp b h2 = Some h3 ∧ size h3 = 1 ∧ GetMinVal h3 = Some (inr zeroNode).
Proof.
  eexists _, _, _. split_and!.
  - rw /SiftUp /= Z.ltb_irrefl. done.
  - done.
  - rw /SiftUp /=. done.
  - done.
  - done.
Qed.

Definition sample_nodes : list NodeScore :=
  [mkNodeScore "n1" 10; mkNodeScore "n2" 40; mkNodeScore "n3" 20; mkNodeScore "n4" 30].

Lemma top_highest_correct_witness :
  option_map (map Name) (TopHighestScoreNodes sample_nodes 2) = Some ["n4"; "n2"]%string ∧
  ∃ resp, TopHighestScoreNodes sample_nodes 2 = Some resp ∧ length resp = 2 ∧
    is_top resp sample_nodes ∧ StronglySorted score_le resp.
Proof.
  split; [vm_compute; reflexivity|]. apply (top_highest_correct sample_nodes 2). simpl. lia.
Defined.

Lemma select_host_correct_witness :
  selectHostAndCacheResults (λ _ _, 0) sample_nodes true 2 false =
    Some (inr "n2", Some ["n3"; "n4"])%string ∧
  ∃ sel cached, selectHostAndCacheResults (λ _ _, 0) sample_nodes true 2 false =
    Some (inr sel, cached) ∧
    ∃ ns, ns ∈ sample_nodes ∧ Name ns = sel ∧
      ∀ ns', ns' ∈ sample_nodes → (Score ns' ≤ Score ns)%Z.
Proof.
  split; [vm_compute; reflexivity|].
  destruct (select_host_correct (λ _ _, 0) sample_nodes true 2 false) as (sel & c & H1 & H2 & _);
    [discriminate|]. exists sel, c. split; [exact H1|exact H2].
Defined.
