(* ===== verification/GenStore.v ===== *)
(** * The generation store of pkg/util/generationstore

    The scheduler cache keeps its objects in a [ListStoreImpl]: a hash map onto
    the cells of a doubly linked list ordered by descending generation.  A
    snapshot is a [RawStoreImpl].  [UpdateRawStore] refreshes a snapshot by
    walking the list only as far as the snapshot's own generation.

    The list is modelled at pointer level: a store of cells addressed by
    locations, with the [next]/[prev] writes of the source.  A stored object is
    a value with its generation; the source mutates an object in place only
    before it calls [Set] again with it, which is a [Set] of the new value here.
    Receivers are non-nil (the methods of a nil store do nothing). *)
From S2P Require Import Prelude.
Local Open Scope Z_scope.

(** Addresses of list items. *)
Abbreviation loc := nat.

Record StoredObj (V : Type) := mkObj { val : V; gen : Z }.
Arguments mkObj {V}. Arguments val {V}. Arguments gen {V}.

Record ListItem (V : Type) := mkListItem {
  key : string; storedObj : StoredObj V; next : option loc; prev : option loc
}.
Arguments mkListItem {V}. Arguments key {V}. Arguments storedObj {V}.
Arguments next {V}. Arguments prev {V}.

(** [cells] is the memory of list items, [fresh_loc] the next unused address. *)
Record ListStoreImpl (V : Type) := mkListStore {
  store : gmap string loc;
  head : option loc;
  generation : Z;
  cells : gmap loc (ListItem V);
  fresh_loc : loc
}.
Arguments mkListStore {V}. Arguments store {V}. Arguments head {V}.
Arguments generation {V}. Arguments cells {V}. Arguments fresh_loc {V}.

Record RawStoreImpl (V : Type) := mkRawStore {
  rstore : gmap string (StoredObj V);
  rgeneration : Z;
  updatedSet : gset string
}.
Arguments mkRawStore {V}. Arguments rstore {V}. Arguments rgeneration {V}.
Arguments updatedSet {V}.

Section operations.
Context {V : Type}.
Implicit Types (s : ListStoreImpl V) (m : gmap loc (ListItem V)) (r : RawStoreImpl V).

(** Field writes through a pointer; a dangling pointer panics. *)
Definition set_next (p : loc) (q : option loc) m : option (gmap loc (ListItem V)) :=
  it ← m !! p; Some (<[p := mkListItem (key it) (storedObj it) q (prev it)]> m).
Definition set_prev (p : loc) (q : option loc) m : option (gmap loc (ListItem V)) :=
  it ← m !! p; Some (<[p := mkListItem (key it) (storedObj it) (next it) q]> m).
Definition set_links (p : loc) (nx pv : option loc) m : option (gmap loc (ListItem V)) :=
  it ← m !! p; Some (<[p := mkListItem (key it) (storedObj it) nx pv]> m).
Definition set_obj (p : loc) (o : StoredObj V) m : option (gmap loc (ListItem V)) :=
  it ← m !! p; Some (<[p := mkListItem (key it) o (next it) (prev it)]> m).

Definition nextGeneration (g : Z) : Z := wrap64 (g + 1).

(** [func (item *ListItem) remove()] *)
Definition item_remove (item : loc) m : option (gmap loc (ListItem V)) :=
  it ← m !! item;
  m1 ← (match prev it with Some p => set_next p (next it) m | None => Some m end);
  it1 ← m1 !! item;
  match next it1 with Some n => set_prev n (prev it1) m1 | None => Some m1 end.

(** [func (s *ListStoreImpl) remove(item *ListItem)] *)
Definition remove (item : loc) s : option (ListStoreImpl V) :=
  m ← item_remove item (cells s);
  it ← m !! item;
  Some (mkListStore (store s)
          (if decide (head s = Some item) then next it else head s)
          (generation s) m (fresh_loc s)).

Definition NewListStore : ListStoreImpl V := mkListStore ∅ None 0 ∅ 0%nat.

(** The inner [None] is the nil object, the outer one a panic. *)
Definition Get (k : string) s : option (option (StoredObj V)) :=
  match store s !! k with
  | None => Some None
  | Some p => it ← cells s !! p; Some (Some (storedObj it))
  end.

(** The first branch of [Set]: unlink and reuse the existing cell, or take a
    new address; the flag tells which. *)
Definition set_cell (k : string) s : option (ListStoreImpl V * loc * bool) :=
  match store s !! k with
  | Some p => s' ← remove p s; Some (s', p, true)
  | None => Some (s, fresh_loc s, false)
  end.

(** [Set]: reuse or create the cell, stamp the object with the next
    generation, and move the cell to the front. *)
Definition Set_ (k : string) (v : V) s : option (ListStoreImpl V) :=
  match set_cell k s with
  | None => None
  | Some (s1, p, existed) =>
      let g := nextGeneration (generation s1) in
      let o := mkObj v g in
      m1 ← (if (existed : bool) then set_obj p o (cells s1)
            else Some (<[p := mkListItem k o None None]> (cells s1)));
      m2 ← (match head s1 with Some h => set_prev h (Some p) m1 | None => Some m1 end);
      m3 ← set_links p (head s1) None m2;
      Some (mkListStore (<[k := p]> (store s1)) (Some p) g m3
              (if existed then fresh_loc s1 else S (fresh_loc s1)))
  end.

Definition Delete (k : string) s : option (ListStoreImpl V) :=
  s1 ← (match store s !! k with Some p => remove p s | None => Some s end);
  Some (mkListStore (delete k (store s1)) (head s1) (generation s1) (cells s1) (fresh_loc s1)).

Definition Front s : option loc := head s.
Definition Len s : nat := size (store s).

(** The [RawStoreImpl] methods. *)
Definition NewRawStore : RawStoreImpl V := mkRawStore ∅ 0 ∅.
Definition raw_Get (k : string) r : option (StoredObj V) := rstore r !! k.
Definition raw_Set (k : string) (o : StoredObj V) r : RawStoreImpl V :=
  mkRawStore (<[k := o]> (rstore r)) (rgeneration r) ({[k]} ∪ updatedSet r).
Definition raw_Delete (k : string) r : RawStoreImpl V :=
  mkRawStore (delete k (rstore r)) (rgeneration r) ({[k]} ∪ updatedSet r).
Definition raw_Len r : nat := size (rstore r).
Definition raw_SetGeneration (g : Z) r : RawStoreImpl V := mkRawStore (rstore r) g (updatedSet r).
Definition raw_GetGeneration r : Z := rgeneration r.
Definition raw_ResetUpdatedSet r : RawStoreImpl V := mkRawStore (rstore r) (rgeneration r) ∅.
(** [store.UpdatedSet().Delete(key)] *)
Definition raw_unmark (k : string) r : RawStoreImpl V :=
  mkRawStore (rstore r) (rgeneration r) (updatedSet r ∖ {[k]}).

(** The list loop of [UpdateRawStore]: the list has at most [fresh_loc]
    cells. *)
Fixpoint update_list_loop (cloneFunc : string → StoredObj V → RawStoreImpl V → RawStoreImpl V)
    (storedGeneration : Z) (fuel : nat) (e : option loc) s r : option (RawStoreImpl V) :=
  match e with
  | None => Some r
  | Some p =>
      it ← cells s !! p;
      if bool_decide (gen (storedObj it) ≤ storedGeneration) then Some r else
      match fuel with
      | O => None
      | S f =>
          update_list_loop cloneFunc storedGeneration f (next it) s
            (raw_unmark (key it) (cloneFunc (key it) (storedObj it) r))
      end
  end.

(** [for key := range store.UpdatedSet()], in the order [ks] the runtime
    happens to choose. *)
Fixpoint update_marked_loop (cloneFunc : string → StoredObj V → RawStoreImpl V → RawStoreImpl V)
    (ks : list string) s r : option (RawStoreImpl V) :=
  match ks with
  | [] => Some r
  | k :: ks' =>
      match store s !! k with
      | None => update_marked_loop cloneFunc ks' s r
      | Some p => it ← cells s !! p; update_marked_loop cloneFunc ks' s (cloneFunc k (storedObj it) r)
      end
  end.

(** [order] picks the iteration order of a Go map range, given its key set. *)
Definition UpdateRawStore (cloneFunc : string → StoredObj V → RawStoreImpl V → RawStoreImpl V)
    (cleanFunc : RawStoreImpl V → option (RawStoreImpl V))
    (order : gset string → list string) s r : option (RawStoreImpl V) :=
  r1 ← update_list_loop cloneFunc (raw_GetGeneration r) (fresh_loc s) (Front s) s r;
  r2 ← update_marked_loop cloneFunc (order (updatedSet r1)) s r1;
  cleanFunc (raw_SetGeneration (generation s) (raw_ResetUpdatedSet r2)).

(** The ranging function of [DefaultCleanFunc]. *)
Fixpoint clean_loop (ks : list string) (diff : Z) s r : option (RawStoreImpl V) :=
  match ks with
  | [] => Some r
  | k :: ks' =>
      if bool_decide (diff ≤ 0) then Some r else
      o ← Get k s;
      match o with
      | None => clean_loop ks' (diff - 1) s (raw_Delete k r)
      | Some _ => clean_loop ks' diff s r
      end
  end.

Definition DefaultCleanFunc (order : gset string → list string) s r : option (RawStoreImpl V) :=
  if decide (Len s = raw_Len r) then Some r else
  clean_loop (order (dom (rstore r))) (Z.of_nat (raw_Len r) - Z.of_nat (Len s)) s r.

(** The clone function the stores pass: put a clone of the object into the
    snapshot. *)
Definition cloneInto (clone : StoredObj V → StoredObj V) (k : string) (o : StoredObj V) r :
    RawStoreImpl V := raw_Set k (clone o) r.
End operations.

(** ** Doubly linked segments *)
Section segments.
Context {V : Type}.
Abbreviation entry := (loc * (string * StoredObj V))%type.
Implicit Types (m : gmap loc (ListItem V)) (L : list entry).

(** The cells of [L] are linked from [h]: the first one's [prev] is [pv], the
    last cell is [lst] and its [next] is [nx]. *)
Fixpoint seg m (pv h : option loc) L (lst nx : option loc) : Prop :=
  match L with
  | [] => h = nx ∧ lst = pv
  | (p, (k, o)) :: L' =>
      h = Some p ∧ ∃ q, m !! p = Some (mkListItem k o q pv) ∧ seg m (Some p) q L' lst nx
  end.

Lemma seg_app m pv h L1 L2 lst nx :
  seg m pv h (L1 ++ L2) lst nx ↔
  ∃ mid ml, seg m pv h L1 ml mid ∧ seg m ml mid L2 lst nx.
Proof.
  revert pv h. induction L1 as [|[p [k o]] L1 IH]; intros pv h; simpl.
  - split; [by eauto|]. by intros (mid & ml & [-> ->] & ?).
  - setoid_rewrite IH. naive_solver.
Qed.

Lemma seg_frame m m' pv h L lst nx :
  (∀ p, p ∈ L.*1 → m' !! p = m !! p) → seg m pv h L lst nx → seg m' pv h L lst nx.
Proof.
  revert pv h. induction L as [|[p [k o]] L IH]; intros pv h Hm; simpl; [done|].
  intros (-> & q & Hp & Hs). split; [done|]. exists q. split.
  - rw Hm //. set_solver.
  - apply IH; [|done]. intros p' Hp'. apply Hm. set_solver.
Qed.

Lemma seg_last_in m pv h L lst nx p :
  seg m pv h L lst nx → lst = Some p → p ∈ L.*1 ∨ (L = [] ∧ pv = Some p).
Proof.
  revert pv h. induction L as [|[p' [k o]] L IH]; intros pv h; simpl.
  - intros [_ ->] ->. by right.
  - intros (_ & q & _ & Hs) Hl. left. destruct (IH _ _ Hs Hl) as [?|[-> [= ->]]]; set_solver.
Qed.

(** Redirecting the [next] of the last cell of a non-empty segment. *)
Lemma seg_set_last m pv h L lst nx nx' :
  seg m pv h L lst nx → L ≠ [] → NoDup L.*1 →
  ∃ p m', lst = Some p ∧ p ∈ L.*1 ∧ set_next p nx' m = Some m' ∧
    seg m' pv h L lst nx' ∧ (∀ p', p' ≠ p → m' !! p' = m !! p').
Proof.
  intros Hs Hne Hnd. destruct L as [|[p [k o]] L _] using rev_ind; [done|].
  rw fmap_app in Hnd. apply NoDup_app in Hnd as (_ & Hdis & _).
  apply seg_app in Hs as (mid & ml & Hs1 & -> & q & Hp & -> & ->).
  exists p, (<[p := mkListItem k o nx' ml]> m). split_and!.
  - done.
  - rw fmap_app. set_solver.
  - by rw /set_next Hp.
  - apply seg_app. exists (Some p), ml. split.
    + eapply seg_frame; [|done]. intros p' Hp'. rw lookup_insert_ne //. intros ->. eapply Hdis; set_solver.
    + split; [done|]. exists nx'. by rw lookup_insert_eq.
  - intros p' Hp'. by rw lookup_insert_ne.
Qed.

(** Redirecting the [prev] of the first cell. *)
Lemma seg_set_first m pv pv' h p k o L lst nx :
  seg m pv h ((p, (k, o)) :: L) lst nx → p ∉ L.*1 →
  ∃ m', set_prev p pv' m = Some m' ∧ seg m' pv' h ((p, (k, o)) :: L) lst nx ∧
    (∀ p', p' ≠ p → m' !! p' = m !! p').
Proof.
  intros (-> & q & Hp & Hs) Hn. exists (<[p := mkListItem k o q pv']> m). split_and!.
  - by rw /set_prev Hp.
  - split; [done|]. exists q. rw lookup_insert_eq. split; [done|].
    eapply seg_frame; [|done]. intros p' Hp'. rw lookup_insert_ne //. by intros ->.
  - intros p' Hp'. by rw lookup_insert_ne.
Qed.

(** Unlinking the cell in the middle. *)
Lemma item_remove_seg m h L1 p k o L2 lst :
  seg m None h (L1 ++ (p, (k, o)) :: L2) lst None → NoDup (L1 ++ (p, (k, o)) :: L2).*1 →
  ∃ m' q pv lst', item_remove p m = Some m' ∧
    m' !! p = Some (mkListItem k o q pv) ∧
    seg m' None (if decide (h = Some p) then q else h) (L1 ++ L2) lst' None.
Proof.
  intros Hs Hnd. apply seg_app in Hs as (mid & ml & Hs1 & -> & q & Hp & Hs2).
  rw fmap_app /= in Hnd. apply NoDup_app in Hnd as (Hnd1 & Hdis & [Hp2 Hnd2]%NoDup_cons).
  unfold item_remove. rw Hp /=.
  (* first write: the cell before *)
  assert (∃ m1, (match ml with Some p0 => set_next p0 q m | None => Some m end) = Some m1 ∧
    seg m1 None (if decide (h = Some p) then q else h) L1 ml q ∧
    m1 !! p = Some (mkListItem k o q ml) ∧ seg m1 (Some p) q L2 lst None)
    as (m1 & -> & Hs1' & Hp1 & Hs2').
  { destruct L1 as [|e1 L1'].
    - destruct Hs1 as [-> ->]. exists m. rw decide_True //.
    - destruct (seg_set_last _ _ _ _ _ _ q Hs1) as (p0 & m1 & -> & Hin & -> & Hsg & Hfr);
        [done|done|]. exists m1.
      assert (h ≠ Some p).
      { destruct e1 as [p1 [k1 o1]]. destruct Hs1 as [-> _]. intros [= ->]. eapply (Hdis p); set_solver. }
      rw decide_False //. split_and!; [done|done| |].
      + rw Hfr //. intros ->. eapply (Hdis p0); set_solver.
      + eapply seg_frame; [|done]. intros p' Hp'. rw Hfr //. intros ->. eapply (Hdis p0); set_solver. }
  simpl. rw Hp1 /=. destruct L2 as [|[p2 [k2 o2]] L2'].
  - destruct Hs2' as [-> ->]. exists m1, None, ml, ml. split_and!; [done|done|]. by rw app_nil_r.
  - pose proof Hs2' as (-> & _).
    destruct (seg_set_first _ _ ml _ _ _ _ _ _ _ Hs2') as (m2 & -> & Hsg & Hfr).
    { simpl in Hnd2. by apply NoDup_cons in Hnd2 as [? _]. }
    exists m2, (Some p2), ml, lst. split_and!; [done| |].
    + rw Hfr //. set_solver.
    + apply seg_app. exists (Some p2), ml. split; [|done].
      eapply seg_frame; [|done]. intros p' Hp'. rw Hfr //. intros ->. eapply (Hdis p2); set_solver.
Qed.
End segments.

(** ** The list store represents a list of entries *)
Section list_store.
Context {V : Type}.
Abbreviation entry := (loc * (string * StoredObj V))%type.
Implicit Types (s : ListStoreImpl V) (L : list entry).

Definition ekey (e : entry) : string := e.2.1.
Definition eobj (e : entry) : StoredObj V := e.2.2.

(** Map and list hold the same cells, each key once, in strictly descending
    order of generation, below the store's own generation. *)
Record rep s L : Prop := {
  rep_seg : ∃ lst, seg (cells s) None (head s) L lst None;
  rep_locs : NoDup L.*1;
  rep_keys : NoDup (ekey <$> L);
  rep_store : ∀ k p, store s !! k = Some p ↔ ∃ o, (p, (k, o)) ∈ L;
  rep_sorted : StronglySorted (λ e1 e2, gen (eobj e2) < gen (eobj e1)) L;
  rep_gen : ∀ e, e ∈ L → gen (eobj e) ≤ generation s;
  rep_nonneg : 0 ≤ generation s;
  rep_fresh : ∀ e, e ∈ L → (e.1 < fresh_loc s)%nat
}.

(** The objects by key, read through the map and the cells. *)
Definition contents s : gmap string (StoredObj V) :=
  omap (λ p, storedObj <$> cells s !! p) (store s).

Definition without (k : string) L : list entry := filter (λ e, ekey e ≠ k) L.

Lemma seg_cell m pv h L lst nx p k o :
  seg m pv h L lst nx → (p, (k, o)) ∈ L →
  ∃ q pv', m !! p = Some (mkListItem k o q pv').
Proof.
  revert pv h. induction L as [|[p' [k' o']] L IH]; intros pv h; simpl; [set_solver|].
  intros (_ & q & Hp & Hs) [[= -> -> ->]|Hin]%elem_of_cons; eauto.
Qed.

Lemma list_rep_contents s L k o : rep s L → contents s !! k = Some o ↔ ∃ p, (p, (k, o)) ∈ L.
Proof.
  intros Hr. destruct (rep_seg _ _ Hr) as [lst Hs]. rw /contents lookup_omap.
  destruct (store s !! k) as [p|] eqn:Hk; simpl.
  - apply (rep_store _ _ Hr) in Hk as [o' Hin].
    destruct (seg_cell _ _ _ _ _ _ _ _ _ Hs Hin) as (q & pv & ->). simpl. split.
    + intros [= ->]. eauto.
    + intros [p' Hin']. pose proof (rep_keys _ _ Hr) as Hnd.
      apply list_elem_of_lookup in Hin as [i Hi]. apply list_elem_of_lookup in Hin' as [j Hj].
      assert (i = j) as ->.
      { eapply NoDup_lookup; [exact Hnd|rw list_lookup_fmap Hi //|rw list_lookup_fmap Hj //]. }
      by simplify_eq.
  - split; [done|]. intros [p Hin].
    assert (store s !! k = Some p) by (apply (rep_store _ _ Hr); eauto). congruence.
Qed.

Lemma rep_Get s L k : rep s L → Get k s = Some (contents s !! k).
Proof.
  intros Hr. rw /Get /contents lookup_omap. destruct (store s !! k) as [p|] eqn:Hk; [|done]. simpl.
  apply (rep_store _ _ Hr) in Hk as [o Hin]. destruct (rep_seg _ _ Hr) as [lst Hs].
  by destruct (seg_cell _ _ _ _ _ _ _ _ _ Hs Hin) as (q & pv & ->).
Qed.

Lemma without_split L L1 L2 p k o :
  L = L1 ++ (p, (k, o)) :: L2 → NoDup (ekey <$> L) → without k L = L1 ++ L2.
Proof.
  intros ->. rw fmap_app fmap_cons. intros (_ & Hdis & [Hn2 _]%NoDup_cons)%NoDup_app.
  rw /without filter_app filter_cons_False; [|unfold ekey; simpl; tauto].
  rw !filter_all //.
  - intros e He <-. apply Hn2. apply list_elem_of_fmap. by exists e.
  - intros e He <-. eapply (Hdis (ekey e)); [apply list_elem_of_fmap; by exists e|].
    apply elem_of_cons. by left.
Qed.

Lemma without_absent s L k : rep s L → store s !! k = None → without k L = L.
Proof.
  intros Hr Hn. apply filter_all. intros [p [k' o]] Hin Heq.
  rw /ekey /= in Heq. subst k'.
  assert (store s !! k = Some p) by (apply (rep_store _ _ Hr); eauto). congruence.
Qed.

(** Unlinking the cell of [k], whether or not the map entry goes too. *)
Lemma remove_spec s L k p :
  rep s L → store s !! k = Some p →
  ∃ s' it lst, remove p s = Some s' ∧ store s' = store s ∧ generation s' = generation s ∧
    fresh_loc s' = fresh_loc s ∧ cells s' !! p = Some it ∧ key it = k ∧
    seg (cells s') None (head s') (without k L) lst None ∧ p ∉ (without k L).*1 ∧
    (p < fresh_loc s)%nat.
Proof.
  intros Hr Hk. apply (rep_store _ _ Hr) in Hk as [o Hin]. pose proof (rep_fresh _ _ Hr _ Hin).
  apply list_elem_of_split in Hin as (L1 & L2 & HL). destruct (rep_seg _ _ Hr) as [lst Hs].
  pose proof (rep_locs _ _ Hr) as Hnd. rw HL in Hs Hnd.
  destruct (item_remove_seg _ _ _ _ _ _ _ _ Hs Hnd) as (m' & q & pv & lst' & Hrm & Hp & Hs').
  unfold remove. rw Hrm /= Hp /=. rw (without_split _ _ _ _ _ _ HL (rep_keys _ _ Hr)).
  eexists _, _, lst'. split_and!; try done.
  rw fmap_app /= in Hnd. apply NoDup_app in Hnd as (_ & Hdis & [Hp2 _]%NoDup_cons).
  rw fmap_app. intros [Hp1|Hp1]%elem_of_app; [|done]. eapply Hdis; set_solver.
Qed.

Lemma push_front (m : gmap loc (ListItem V)) h0 L lst p k o q pv :
  seg m None h0 L lst None → NoDup L.*1 → p ∉ L.*1 → m !! p = Some (mkListItem k o q pv) →
  ∃ m2 m3 lst',
    (match h0 with Some h => set_prev h (Some p) m | None => Some m end) = Some m2 ∧
    set_links p h0 None m2 = Some m3 ∧
    seg m3 None (Some p) ((p, (k, o)) :: L) lst' None.
Proof.
  intros Hs Hnd Hp Hm.
  assert (∃ m2 lst', (match h0 with Some h => set_prev h (Some p) m | None => Some m end) = Some m2 ∧
    seg m2 (Some p) h0 L lst' None ∧ m2 !! p = Some (mkListItem k o q pv))
    as (m2 & lst' & -> & Hs2 & Hp2).
  { destruct L as [|[p1 [k1 o1]] L].
    - destruct Hs as [-> _]. by exists m, (Some p).
    - pose proof Hs as [-> _]. simpl in Hnd. apply NoDup_cons in Hnd as [Hn1 _].
      destruct (seg_set_first _ _ (Some p) _ _ _ _ _ _ _ Hs Hn1) as (m2 & Hsp & Hs2 & Hfr).
      exists m2, lst. split_and!; [done|done|]. rw Hfr //. set_solver. }
  eexists m2, _, lst'. split_and!; [done|by rw /set_links Hp2|].
  split; [done|]. exists h0. simpl. rw lookup_insert_eq. split; [done|].
  eapply seg_frame; [|done]. intros p' Hp'. rw lookup_insert_ne //. set_solver.
Qed.

Lemma rep_without s L k : rep s L → NoDup (without k L).*1 ∧ NoDup (ekey <$> without k L) ∧
  StronglySorted (λ e1 e2, gen (eobj e2) < gen (eobj e1)) (without k L).
Proof.
  intros Hr. split_and!.
  - eapply sublist_NoDup; [apply (rep_locs _ _ Hr)|]. apply fmap_sublist, sublist_filter.
  - eapply sublist_NoDup; [apply (rep_keys _ _ Hr)|]. apply fmap_sublist, sublist_filter.
  - apply StronglySorted_filter, Hr.
Qed.

(** [Set]'s first branch leaves the list without [k] and a cell address for it. *)
Lemma set_cell_spec s L k :
  rep s L → ∃ s1 p existed lst, set_cell k s = Some (s1, p, existed) ∧
    store s1 = store s ∧ generation s1 = generation s ∧ fresh_loc s1 = fresh_loc s ∧
    seg (cells s1) None (head s1) (without k L) lst None ∧ p ∉ (without k L).*1 ∧
    (if (existed : bool) then (∃ it, cells s1 !! p = Some it ∧ key it = k) ∧ (p < fresh_loc s)%nat
     else p = fresh_loc s).
Proof.
  intros Hr. unfold set_cell. destruct (store s !! k) as [p|] eqn:Hk.
  - destruct (remove_spec s L k p Hr Hk) as (s1 & it & lst & -> & ? & ? & ? & ? & ? & ? & ? & ?).
    exists s1, p, true, lst. split_and!; eauto.
  - destruct (rep_seg _ _ Hr) as [lst Hs]. exists s, (fresh_loc s), false, lst.
    rw (without_absent s L k Hr Hk). split_and!; try done.
    intros [e [Heq He]]%list_elem_of_fmap. apply (rep_fresh _ _ Hr) in He. lia.
Qed.

Lemma Set_spec s L k v :
  rep s L → generation s < i64_max →
  ∃ s' p, Set_ k v s = Some s' ∧ generation s' = generation s + 1 ∧
    rep s' ((p, (k, mkObj v (generation s + 1))) :: without k L).
Proof.
  intros Hr Hg. destruct (set_cell_spec s L k Hr)
    as (s1 & p & ex & lst & Hcell & Hst & Hgen & Hfr & Hs & Hp & Hex).
  destruct (rep_without s L k Hr) as (Hnd1 & Hnd2 & Hsort). pose proof (rep_nonneg _ _ Hr).
  assert (Hng : nextGeneration (generation s1) = generation s + 1).
  { rw /nextGeneration Hgen wrap64_id //. unfold in_i64, i64_min. lia. }
  unfold Set_. rw Hcell Hng. set (o := mkObj v (generation s + 1)).
  assert (∃ m1 q pv, (if ex then set_obj p o (cells s1)
      else Some (<[p:=mkListItem k o None None]> (cells s1))) = Some m1 ∧
    m1 !! p = Some (mkListItem k o q pv) ∧ ∀ p', p' ≠ p → m1 !! p' = cells s1 !! p')
    as (m1 & q & pv & -> & Hm1 & Hfr1).
  { destruct ex.
    - destruct Hex as [([k' o' q' pv'] & Hc & <-) _]. rw /set_obj Hc /=.
      eexists _, _, _; split_and!; [done|by rw lookup_insert_eq|]. intros; by rw lookup_insert_ne.
    - eexists _, _, _; split_and!; [done|by rw lookup_insert_eq|]. intros; by rw lookup_insert_ne. }
  cbn [mbind option_bind].
  destruct (push_front m1 (head s1) (without k L) lst p k o q pv) as (m2 & m3 & lst' & -> & Hl & Hs3);
    [|done..|].
  { eapply seg_frame; [|exact Hs]. intros p' Hp'. apply Hfr1. by intros ->. }
  simpl. rw Hl. eexists _, p. split_and!; [done|done|]. split; simpl.
  - by exists lst'.
  - constructor; done.
  - rw /= {1}/ekey /=. constructor; [|done].
    intros ([p' [k' o']] & -> & [Hne _]%list_elem_of_filter)%list_elem_of_fmap. by apply Hne.
  - intros k' p'. rw lookup_insert Hst. case_decide as Hk; subst.
    + split; [intros [= ->]; set_solver|].
      intros [o' [[= -> _]|[Hne _]%list_elem_of_filter]%elem_of_cons]; [done|by destruct Hne].
    + rw (rep_store _ _ Hr). split; intros [o' Hin]; exists o'.
      * apply elem_of_cons. right. apply list_elem_of_filter. by split; [|done]; intros <-.
      * apply elem_of_cons in Hin as [[= -> ->]|[_ Hin]%list_elem_of_filter]; done.
  - constructor; [done|]. apply Forall_forall. intros e [_ He]%list_elem_of_filter.
    apply (rep_gen _ _ Hr) in He. rw {2}/eobj /=. lia.
  - intros e [->|[_ He]%list_elem_of_filter]%elem_of_cons; [rw /eobj /=; lia|].
    apply (rep_gen _ _ Hr) in He. lia.
  - lia.
  - intros e He. rw Hfr. apply elem_of_cons in He as [->|[_ He]%list_elem_of_filter]; simpl.
    + destruct ex; [by destruct Hex|]. subst p. lia.
    + apply (rep_fresh _ _ Hr) in He. destruct ex; lia.
Qed.

Lemma list_Delete_spec s L k :
  rep s L → ∃ s', Delete k s = Some s' ∧ generation s' = generation s ∧ rep s' (without k L).
Proof.
  intros Hr. destruct (rep_without s L k Hr) as (Hnd1 & Hnd2 & Hsort).
  assert (∃ s1 lst, (match store s !! k with Some p => remove p s | None => Some s end) = Some s1 ∧
    store s1 = store s ∧ generation s1 = generation s ∧ fresh_loc s1 = fresh_loc s ∧
    seg (cells s1) None (head s1) (without k L) lst None)
    as (s1 & lst & Hm & Hst & Hgen & Hfr & Hs).
  { destruct (store s !! k) as [p|] eqn:Hk.
    - destruct (remove_spec s L k p Hr Hk) as (s1 & it & lst & -> & ? & ? & ? & ? & ? & ? & _).
      by exists s1, lst.
    - destruct (rep_seg _ _ Hr) as [lst Hs]. exists s, lst. by rw (without_absent s L k Hr Hk). }
  unfold Delete. rw Hm /=. eexists. split_and!; [done|done|]. split; simpl; try done.
  - by exists lst.
  - intros k' p. rw Hst lookup_delete_Some (rep_store _ _ Hr). split.
    + intros [Hne [o Hin]]. exists o. apply list_elem_of_filter. by split; [intros <-|].
    + intros [o [Hne Hin]%list_elem_of_filter]. split; [by intros ->|eauto].
  - intros e [_ He]%list_elem_of_filter. rw Hgen. by apply (rep_gen _ _ Hr).
  - rw Hgen. apply Hr.
  - intros e [_ He]%list_elem_of_filter. rw Hfr. by apply (rep_fresh _ _ Hr).
Qed.
End list_store.

(** ** Refreshing a snapshot *)
Section snapshot.
Context {V : Type} (clone : StoredObj V → StoredObj V).
Context (order : gset string → list string) (order_elements : ∀ X, order X ≡ₚ elements X).
Abbreviation entry := (loc * (string * StoredObj V))%type.
Implicit Types (s : ListStoreImpl V) (r : RawStoreImpl V) (L : list entry).

Lemma update_list_loop_spec s g fuel pv e L lst r :
  seg (cells s) pv e L lst None → (length L ≤ fuel)%nat → NoDup (ekey <$> L) →
  StronglySorted (λ e1 e2, gen (eobj e2) < gen (eobj e1)) L →
  ∃ r', update_list_loop (cloneInto clone) g fuel e s r = Some r' ∧
    rgeneration r' = rgeneration r ∧
    (∀ p k o, (p, (k, o)) ∈ L → g < gen o → rstore r' !! k = Some (clone o)) ∧
    (∀ k, (∀ p o, (p, (k, o)) ∈ L → gen o ≤ g) →
       rstore r' !! k = rstore r !! k ∧ (k ∈ updatedSet r' ↔ k ∈ updatedSet r)).
Proof.
  revert pv e fuel r. induction L as [|[p [k o]] L IH]; intros pv e fuel r; cbn [seg length].
  { intros [-> _] _ _ _. destruct fuel; (exists r; split_and!; [done|done|set_solver|done]). }
  intros (-> & q & Hp & Hs) Hlen Hnd Hso. destruct fuel as [|fuel]; [simpl in Hlen; lia|].
  cbn [update_list_loop]. rw Hp. cbn [mbind option_bind storedObj next key].
  apply StronglySorted_inv in Hso as [Hso Hhd]. rw fmap_cons in Hnd. apply NoDup_cons in Hnd as [Hk Hnd].
  assert (Hfresh : ∀ p' o', (p', (k, o')) ∉ L).
  { intros p' o' Hin. apply Hk. apply list_elem_of_fmap. by exists (p', (k, o')). }
  case_bool_decide as Hg.
  - exists r. split_and!; [done|done| |done]. intros p' k' o' Hin Hg'. exfalso.
    apply elem_of_cons in Hin as [[= -> -> ->]|Hin]; [lia|].
    eapply Forall_forall in Hhd; [|exact Hin]. rw /eobj /= in Hhd. lia.
  - destruct (IH (Some p) q fuel (raw_unmark k (cloneInto clone k o r)))
      as (r' & -> & Hgen & Hin' & Hout'); [done|simpl in Hlen; lia|done|done|].
    exists r'. split_and!; [done|done| |].
    + intros p' k' o' [[= -> -> ->]|Hin]%elem_of_cons Hg'; [|by eapply Hin'].
      destruct (Hout' k) as [-> _].
      * intros p1 o1 H1. by apply Hfresh in H1.
      * simpl. by rw lookup_insert_eq.
    + intros k' Hall. destruct (decide (k' = k)) as [->|Hne].
      { specialize (Hall p o). exfalso. apply Hg, Hall. set_solver. }
      destruct (Hout' k') as [-> Hu]; [intros p1 o1 H1; apply (Hall p1); set_solver|].
      simpl. rw lookup_insert_ne //. split; [done|]. rw Hu /=. set_solver.
Qed.

Lemma update_marked_loop_spec s L ks r :
  rep s L → ∃ r', update_marked_loop (cloneInto clone) ks s r = Some r' ∧
    rgeneration r' = rgeneration r ∧
    ∀ k, rstore r' !! k =
      match contents s !! k with
      | Some o => if decide (k ∈ ks) then Some (clone o) else rstore r !! k
      | None => rstore r !! k
      end.
Proof.
  intros Hr. revert r. induction ks as [|k ks IH]; intros r; cbn [update_marked_loop].
  { exists r. split_and!; [done|done|]. intros k. by case_match. }
  pose proof (rep_Get s L k Hr) as HG. unfold Get in HG. destruct (store s !! k) as [p|] eqn:Hk.
  - destruct (cells s !! p) as [it|] eqn:Hp; [|done]. simplify_eq/=.
    destruct (IH (cloneInto clone k (storedObj it) r)) as (r' & -> & Hgen & Hl).
    exists r'. split_and!; [done|done|]. intros k'. rw Hl /=.
    destruct (decide (k' = k)) as [->|Hne].
    + rw -HG. rw lookup_insert_eq. repeat case_decide; try done; set_solver.
    + rw lookup_insert_ne //. case_match; [|done]. repeat case_decide; set_solver.
  - destruct (IH r) as (r' & -> & Hgen & Hl). exists r'. split_and!; [done|done|].
    intros k'. rw Hl. case_match eqn:Hc; [|done].
    assert (k' ≠ k) by (intros ->; simplify_eq/=; congruence).
    repeat case_decide; set_solver.
Qed.

(** Keys of the snapshot the cache no longer has. *)
Definition extras s r : gset string := dom (rstore r) ∖ dom (contents s).

Lemma elem_of_extras s r k : k ∈ extras s r ↔ k ∈ dom (rstore r) ∧ k ∉ dom (contents s).
Proof. unfold extras. apply elem_of_difference. Qed.

Lemma clean_loop_spec s L ks diff r :
  rep s L → diff = Z.of_nat (size (extras s r)) → NoDup ks →
  (∀ k, k ∈ extras s r → k ∈ ks) → (∀ k, k ∈ ks → k ∈ dom (rstore r)) →
  ∃ r', clean_loop ks diff s r = Some r' ∧ rgeneration r' = rgeneration r ∧
    (∀ k, rstore r' !! k = if decide (k ∈ dom (contents s)) then rstore r !! k else None) ∧
    (∀ k, k ∈ dom (contents s) → k ∈ updatedSet r' → k ∈ updatedSet r).
Proof.
  intros Hr. revert diff r. induction ks as [|k ks IH]; intros diff r Hd Hnd Hex Hks; cbn [clean_loop].
  - exists r. split_and!; [done|done| |done]. intros k. case_decide as Hc; [done|].
    apply not_elem_of_dom. intros Hin. apply (not_elem_of_nil k), Hex. by apply elem_of_extras.
  - case_bool_decide as Hdiff.
    { exists r. split_and!; [done|done| |done]. intros k'. case_decide as Hc; [done|].
      assert (extras s r ≡ ∅) as He by (apply size_empty_iff; lia).
      apply not_elem_of_dom. intros Hin. apply (not_elem_of_empty (C:=gset string) k').
      rw -He. by apply elem_of_extras. }
    rw (rep_Get s L k Hr). cbn [mbind option_bind]. apply NoDup_cons in Hnd as [Hk Hnd].
    destruct (contents s !! k) as [o|] eqn:Hc.
    + destruct (IH diff r) as (r' & -> & ? & ? & ?); [done|done| | |by exists r'].
      * intros k' Hin. assert (k' ≠ k).
        { intros ->. apply elem_of_extras in Hin as [_ []]. by apply elem_of_dom. }
        specialize (Hex k' Hin). set_solver.
      * intros k' Hin. apply Hks. set_solver.
    + assert (k ∈ extras s r) as Hke.
      { apply elem_of_extras. split; [apply Hks; set_solver|]. by apply not_elem_of_dom. }
      assert (extras s (raw_Delete k r) = extras s r ∖ {[k]}) as Heq.
      { rw /extras /= dom_delete_L. set_solver. }
      destruct (IH (diff - 1) (raw_Delete k r)) as (r' & -> & Hg & Hl & Hu).
      * rw Heq size_difference; [|set_solver]. rw size_singleton.
        pose proof (size_non_empty_iff (extras s r)). assert (size (extras s r) ≠ 0%nat) by set_solver.
        lia.
      * done.
      * intros k'. rw Heq. intros [Hin Hne]%elem_of_difference. specialize (Hex k' Hin). set_solver.
      * intros k' Hin. rw /= dom_delete_L. specialize (Hks k'). set_solver.
      * exists r'. split_and!; [done|done| |].
        -- intros k'. rw Hl /=. case_decide as Hd'; [|done]. rw lookup_delete_ne //.
           intros <-. by apply not_elem_of_dom in Hc.
        -- intros k' Hin' Hk'. specialize (Hu k' Hin' Hk'). simpl in Hu.
           apply not_elem_of_dom in Hc. set_solver.
Qed.

Lemma rep_Len s L : rep s L → Len s = size (contents s).
Proof.
  intros Hr. rw /Len -!size_dom. f_equal. apply set_eq. intros k. rw !elem_of_dom. split.
  - intros [p Hk]. apply (rep_store _ _ Hr) in Hk as [o Hin]. exists o. apply (list_rep_contents _ _ _ _ Hr). eauto.
  - intros [o Ho]. apply (list_rep_contents _ _ _ _ Hr) in Ho as [p Hin]. exists p. apply (rep_store _ _ Hr). eauto.
Qed.

Lemma DefaultCleanFunc_spec s L r :
  rep s L → dom (contents s) ⊆ dom (rstore r) →
  ∃ r', DefaultCleanFunc order s r = Some r' ∧ rgeneration r' = rgeneration r ∧
    (∀ k, rstore r' !! k = if decide (k ∈ dom (contents s)) then rstore r !! k else None) ∧
    (∀ k, k ∈ dom (contents s) → k ∈ updatedSet r' → k ∈ updatedSet r).
Proof.
  intros Hr Hsub. unfold DefaultCleanFunc. rw (rep_Len s L Hr) /raw_Len.
  assert (Hsz : size (extras s r) = (size (rstore r) - size (contents s))%nat).
  { rw /extras size_difference // !size_dom //. }
  assert (size (contents s) ≤ size (rstore r))%nat.
  { rw -!size_dom. by apply subseteq_size. }
  case_decide as Heq.
  - exists r. split_and!; [done|done| |done]. intros k. case_decide as Hd; [done|].
    apply not_elem_of_dom. intros Hin. assert (extras s r ≡ ∅) as He by (apply size_empty_iff; lia).
    apply (not_elem_of_empty (C:=gset string) k). rw -He. by apply elem_of_extras.
  - pose proof (order_elements (dom (rstore r))) as Ho. apply (clean_loop_spec s L); [done|lia| | |].
    + rw Ho. apply NoDup_elements.
    + intros k Hk. rw Ho elem_of_elements. by apply elem_of_extras in Hk as [? _].
    + intros k Hk. by rw Ho elem_of_elements in Hk.
Qed.

(** The snapshot is behind by no more than the newer entries and its own
    marked keys. *)
Definition synced s r : Prop :=
  rgeneration r ≤ generation s ∧
  ∀ k o, contents s !! k = Some o → gen o ≤ rgeneration r → k ∉ updatedSet r →
    rstore r !! k = Some (clone o).

Lemma rep_length s L : rep s L → (length L ≤ fresh_loc s)%nat.
Proof.
  intros Hr. rw -(length_fmap fst) -(length_seq (fresh_loc s) 0).
  apply submseteq_length, NoDup_submseteq; [apply Hr|]. intros p [e [-> He]]%list_elem_of_fmap.
  apply elem_of_seq. pose proof (rep_fresh _ _ Hr _ He). lia.
Qed.

(** The two loops bring every object of the cache into the snapshot. *)
Lemma update_loops_spec s L r :
  rep s L → synced s r →
  ∃ r1 r2, update_list_loop (cloneInto clone) (rgeneration r) (fresh_loc s) (head s) s r = Some r1 ∧
    update_marked_loop (cloneInto clone) (order (updatedSet r1)) s r1 = Some r2 ∧
    (∀ k o, contents s !! k = Some o → rstore r2 !! k = Some (clone o)).
Proof.
  intros Hr [Hg Hsync]. destruct (rep_seg _ _ Hr) as [lst Hs].
  destruct (update_list_loop_spec s (rgeneration r) (fresh_loc s) None (head s) L lst r Hs)
    as (r1 & -> & Hg1 & Hin1 & Hout1); [by apply rep_length|apply Hr|apply Hr|].
  destruct (update_marked_loop_spec s L (order (updatedSet r1)) r1 Hr) as (r2 & E2 & Hg2 & Hl2).
  exists r1, r2. split_and!; [done|exact E2|].
  intros k o Hk. rw Hl2 Hk. case_decide as Hd; [done|].
  rw order_elements elem_of_elements in Hd. pose proof Hk as [p Hin]%(list_rep_contents _ _ _ _ Hr).
  destruct (decide (gen o ≤ rgeneration r)) as [Hle|Hgt]; [|eapply Hin1; [done|lia]].
  destruct (Hout1 k) as [-> Hu].
  - intros p' o' Hin'. assert (contents s !! k = Some o') by (apply (list_rep_contents _ _ _ _ Hr); eauto).
    by simplify_eq.
  - apply Hsync; [done|done|]. by rw -Hu.
Qed.

Lemma UpdateRawStore_spec s L r :
  rep s L → synced s r →
  ∃ r', UpdateRawStore (cloneInto clone) (DefaultCleanFunc order s) order s r = Some r' ∧
    rstore r' = clone <$> contents s ∧ rgeneration r' = generation s ∧ synced s r'.
Proof.
  intros Hr Hsync. unfold UpdateRawStore, Front, raw_GetGeneration.
  destruct (update_loops_spec s L r Hr Hsync) as (r1 & r2 & -> & E2 & H2). cbn [mbind option_bind]. rw E2. cbn [mbind option_bind].
  set (r3 := raw_SetGeneration (generation s) (raw_ResetUpdatedSet r2)).
  destruct (DefaultCleanFunc_spec s L r3 Hr) as (r' & -> & Hg' & Hl' & Hu').
  { intros k [o Ho]%elem_of_dom. apply elem_of_dom. exists (clone o). by apply H2. }
  assert (Hfin : rstore r' = clone <$> contents s).
  { apply map_eq. intros k. rw Hl' lookup_fmap. case_decide as Hd.
    - apply elem_of_dom in Hd as [o Ho]. rw Ho /=. by apply H2.
    - apply not_elem_of_dom in Hd. by rw Hd. }
  exists r'. split_and!; [done|done|done|]. split; [by rw Hg'|].
  intros k o Hk _ _. by rw Hfin lookup_fmap Hk.
Qed.
End snapshot.

(** ** A cache and a snapshot, interleaved *)

(** Following [Front] and [Next]: the (key, object) pairs in list order. *)
Fixpoint walk {V} (fuel : nat) (e : option loc) (s : ListStoreImpl V) :
    option (list (string * StoredObj V)) :=
  match e with
  | None => Some []
  | Some p =>
      it ← cells s !! p;
      match fuel with
      | O => None
      | S f => l ← walk f (next it) s; Some ((key it, storedObj it) :: l)
      end
  end.

Section machine.
Context {V : Type} (clone : StoredObj V → StoredObj V).
Context (order : gset string → list string) (order_elements : ∀ X, order X ≡ₚ elements X).
Implicit Types (s : ListStoreImpl V) (r : RawStoreImpl V).

Lemma contents_Set s s' L k v g p :
  rep s L → rep s' ((p, (k, mkObj v g)) :: without k L) →
  contents s' = <[k := mkObj v g]> (contents s).
Proof.
  intros Hr Hr'. apply map_eq. intros k'. apply option_eq. intros o.
  rw (list_rep_contents _ _ _ _ Hr') lookup_insert. case_decide as Hk; subst.
  - split.
    + intros [p' [[= _ ->]|[Hne _]%list_elem_of_filter]%elem_of_cons]; [done|by destruct Hne].
    + intros [= <-]. exists p. apply elem_of_cons. by left.
  - rw (list_rep_contents _ _ _ _ Hr). split; intros [p' Hin]; exists p'.
    + apply elem_of_cons in Hin as [[= -> -> _]|[_ Hin]%list_elem_of_filter]; done.
    + apply elem_of_cons. right. apply list_elem_of_filter. by split; [intros <-|].
Qed.

Lemma contents_Delete s s' L k :
  rep s L → rep s' (without k L) → contents s' = delete k (contents s).
Proof.
  intros Hr Hr'. apply map_eq. intros k'. apply option_eq. intros o.
  rw (list_rep_contents _ _ _ _ Hr') lookup_delete_Some (list_rep_contents _ _ _ _ Hr). split.
  - intros [p [Hne Hin]%list_elem_of_filter]. split; [by intros ->|eauto].
  - intros [Hne [p Hin]]. exists p. apply list_elem_of_filter. by split; [intros <-|].
Qed.

(** One step of the pair: the cache or the snapshot is written, or the
    snapshot is refreshed. *)
Inductive step : ListStoreImpl V * RawStoreImpl V → ListStoreImpl V * RawStoreImpl V → Prop :=
  | StSet k v s s' r : generation s < i64_max → Set_ k v s = Some s' → step (s, r) (s', r)
  | StDelete k s s' r : Delete k s = Some s' → step (s, r) (s', r)
  | StRawSet k o s r : step (s, r) (s, raw_Set k o r)
  | StRawDelete k s r : step (s, r) (s, raw_Delete k r)
  | StUpdate s r r' :
      UpdateRawStore (cloneInto clone) (DefaultCleanFunc order s) order s r = Some r' →
      step (s, r) (s, r').

Inductive reachable : ListStoreImpl V * RawStoreImpl V → Prop :=
  | ReachInit : reachable (NewListStore, NewRawStore)
  | ReachStep x y : reachable x → step x y → reachable y.

Lemma rep_new : rep (V:=V) NewListStore [].
Proof.
  split; simpl; try done; try (by constructor); try (by intros ? ?%elem_of_nil).
  - by exists None.
  - intros k p. rw lookup_empty. split; [done|]. by intros [o ?%elem_of_nil].
Qed.

Lemma reachable_synced x : reachable x → (∃ L, rep x.1 L) ∧ synced clone x.1 x.2.
Proof.
  induction 1 as [|x y _ [[L Hr] [Hg Hs]] Hst]; simpl.
  - split; [exists []; apply rep_new|]. split; [done|]. intros k o.
    by rw /contents lookup_omap lookup_empty.
  - inversion Hst as [k v s s' r Hmax Hset|k s s' r Hdel|k o s r|k s r|s r r' Hupd]; subst; simpl in *.
    + destruct (Set_spec s L k v Hr Hmax) as (s1 & p & Heq & Hgen & Hr1). simplify_eq.
      split; [eauto|]. split; [lia|]. rw (contents_Set _ _ _ _ _ _ _ Hr Hr1). intros k' o.
      intros [[<- <-]|[Hne Hk']]%lookup_insert_Some; [simpl; lia|by apply Hs].
    + destruct (list_Delete_spec s L k Hr) as (s1 & Heq & Hgen & Hr1). simplify_eq.
      split; [eauto|]. split; [lia|]. rw (contents_Delete _ _ _ _ Hr Hr1). intros k' o.
      intros [_ Hk']%lookup_delete_Some. by apply Hs.
    + split; [eauto|]. split; [done|]. intros k' o' Hk' Hle Hu. simpl in *.
      rw lookup_insert_ne; [|set_solver]. apply Hs; [done|done|set_solver].
    + split; [eauto|]. split; [done|]. intros k' o' Hk' Hle Hu. simpl in *.
      rw lookup_delete_ne; [|set_solver]. apply Hs; [done|done|set_solver].
    + destruct (UpdateRawStore_spec clone order order_elements s L r Hr (conj Hg Hs))
        as (r1 & Heq & _ & _ & Hs1). simplify_eq. by split; [eauto|].
Qed.

Lemma walk_spec s fuel pv e L lst :
  seg (cells s) pv e L lst None → (length L ≤ fuel)%nat → walk fuel e s = Some L.*2.
Proof.
  revert pv e fuel. induction L as [|[p [k o]] L IH]; intros pv e fuel; cbn [seg length].
  - intros [-> _] _. by destruct fuel.
  - intros (-> & q & Hp & Hs) Hlen. destruct fuel as [|fuel]; [lia|]. cbn [walk].
    rw Hp. cbn [mbind option_bind next key storedObj]. by rw (IH _ _ _ Hs) //; lia.
Qed.

(** The list store is a finite map that stamps objects: in every
    reachable state, [Get] returns the last object set under the key and not
    deleted, [Set] stores the object with the next generation and touches no
    other key, and [Delete] removes exactly its key; none of them panics on a
    dangling list pointer. *)
Theorem liststore_refines_map s r (k : string) (v : V) :
  reachable (s, r) → generation s < i64_max →
  Get k s = Some (contents s !! k) ∧ Len s = size (contents s) ∧
  (∃ s', Set_ k v s = Some s' ∧ generation s' = generation s + 1 ∧
     contents s' = <[k := mkObj v (generation s + 1)]> (contents s)) ∧
  (∃ s', Delete k s = Some s' ∧ generation s' = generation s ∧
     contents s' = delete k (contents s)).
Proof.
  intros Hre Hmax. apply reachable_synced in Hre as [[L Hr] _]. simpl in Hr. split_and!.
  - by eapply rep_Get.
  - by eapply rep_Len.
  - destruct (Set_spec s L k v Hr Hmax) as (s' & p & ? & ? & Hr'). exists s'.
    split_and!; [done|done|by eapply contents_Set].
  - destruct (list_Delete_spec s L k Hr) as (s' & ? & ? & Hr'). exists s'.
    split_and!; [done|done|by eapply contents_Delete].
Qed.

(** In every reachable state, walking the linked list from the front
    visits each stored object exactly once, in strictly descending order of
    generation, none above the store's generation. *)
Theorem liststore_walk_descending s r :
  reachable (s, r) →
  ∃ l, walk (fresh_loc s) (Front s) s = Some l ∧ l ≡ₚ map_to_list (contents s) ∧
    StronglySorted (λ a b, gen b.2 < gen a.2) l ∧
    Forall (λ a, gen a.2 ≤ generation s) l.
Proof.
  intros Hre. apply reachable_synced in Hre as [[L Hr] _]. simpl in Hr.
  destruct (rep_seg _ _ Hr) as [lst Hs]. exists L.*2. split_and!.
  - eapply walk_spec; [done|by apply rep_length].
  - assert (Hnd : NoDup L.*2.*1) by (rw -list_fmap_compose; apply (rep_keys _ _ Hr)).
    assert (contents s = list_to_map L.*2) as ->; [|by rw map_to_list_to_map].
    apply map_eq. intros k. apply option_eq. intros o. rw (list_rep_contents _ _ _ _ Hr).
    rw -elem_of_list_to_map //. rw list_elem_of_fmap. split.
    + intros [p Hp]. by exists (p, (k, o)).
    + intros ([p [k' o']] & [= -> ->] & Hin). eauto.
  - pose proof (rep_sorted _ _ Hr) as Hso. clear -Hso. induction Hso as [|e l _ IH Hf]; [constructor|].
    constructor; [done|]. apply Forall_fmap. exact Hf.
  - apply Forall_fmap, Forall_forall. intros e He. by apply (rep_gen _ _ Hr).
Qed.

(** C21: from any interleaving of cache writes, snapshot writes and earlier
    refreshes, a refresh succeeds and makes the snapshot hold exactly the
    clones of the cache's current objects: newer ones, objects the snapshot
    had changed, and nothing the cache has dropped. *)
Theorem snapshot_refresh_exact s r :
  reachable (s, r) →
  ∃ r', UpdateRawStore (cloneInto clone) (DefaultCleanFunc order s) order s r = Some r' ∧
    rstore r' = clone <$> contents s ∧ rgeneration r' = generation s.
Proof.
  intros Hre. apply reachable_synced in Hre as [[L Hr] Hs].
  destruct (UpdateRawStore_spec clone order order_elements s L r Hr Hs) as (r' & ? & ? & ? & _).
  eauto.
Qed.
End machine.

(** A cache with three writes and a snapshot with a local write, before a
    refresh. *)
Definition demo_cache : option (ListStoreImpl Z) :=
  s1 ← Set_ "a" 10 NewListStore; s2 ← Set_ "b" 20 s1; s3 ← Set_ "a" 30 s2; Delete "b" s3.

Definition demo_store : ListStoreImpl Z := default NewListStore demo_cache.
Definition demo_raw : RawStoreImpl Z := raw_Set "c" (mkObj 5 0) NewRawStore.

Lemma demo_reachable : reachable id elements (demo_store, demo_raw).
Proof.
  apply (ReachStep _ _ (demo_store, NewRawStore)); [|apply StRawSet].
  unfold demo_store, demo_cache.
  destruct (Set_ "a" 10 NewListStore) as [s1|] eqn:E1; [|vm_compute in E1; discriminate E1].
  cbn [mbind option_bind].
  destruct (Set_ "b" 20 s1) as [s2|] eqn:E2;
    [|vm_compute in E1; injection E1 as <-; vm_compute in E2; discriminate E2].
  cbn [mbind option_bind].
  destruct (Set_ "a" 30 s2) as [s3|] eqn:E3;
    [|vm_compute in E1; injection E1 as <-; vm_compute in E2; injection E2 as <-;
      vm_compute in E3; discriminate E3].
  cbn [mbind option_bind].
  assert (Hlt : generation s1 < i64_max ∧ generation s2 < i64_max ∧ is_Some (Delete "b" s3)).
  { vm_compute in E1. injection E1 as <-. vm_compute in E2. injection E2 as <-.
    vm_compute in E3. injection E3 as <-. split_and!; [done|done|]. vm_compute. eauto. }
  destruct Hlt as (H1 & H2 & [s4 E4]). rw E4 /=.
  eapply ReachStep; [|eapply StDelete; exact E4].
  eapply ReachStep; [|eapply StSet; [exact H2|exact E3]].
  eapply ReachStep; [|eapply StSet; [exact H1|exact E2]].
  eapply ReachStep; [|eapply StSet; [|exact E1]; done]. constructor.
Qed.

Lemma liststore_refines_map_witness :
  Get "a" demo_store = Some (Some (mkObj 30 3)) ∧
  ∃ s', Set_ "d" 40 demo_store = Some s' ∧
    contents s' = <["d"%string := mkObj 40 (generation demo_store + 1)]> (contents demo_store).
Proof.
  destruct (liststore_refines_map id elements (λ X, reflexivity _) demo_store demo_raw "d" 40
              demo_reachable) as (_ & _ & (s' & H1 & _ & H2) & _); [reflexivity|].
  split; [vm_compute; reflexivity|]. exists s'. split; [exact H1|exact H2].
Defined.

Lemma liststore_walk_descending_witness :
  ∃ l, walk (fresh_loc demo_store) (Front demo_store) demo_store = Some l ∧
    StronglySorted (λ a b, gen b.2 < gen a.2) l.
Proof.
  destruct (liststore_walk_descending id elements (λ X, reflexivity _) demo_store demo_raw
              demo_reachable) as (l & H1 & _ & H2 & _).
  exists l. split; [exact H1|exact H2].
Defined.

Lemma snapshot_refresh_exact_witness :
  ∃ r', UpdateRawStore (cloneInto id) (DefaultCleanFunc elements demo_store) elements
      demo_store demo_raw = Some r' ∧
    rstore r' = id <$> contents demo_store ∧ rgeneration r' = 3.
Proof.
  destruct (snapshot_refresh_exact id elements (λ X, reflexivity _) demo_store demo_raw
              demo_reachable) as (r' & H1 & H2 & H3).
  exists r'. split; [exact H1|]. split; [exact H2|]. rewrite -> H3. vm_compute. reflexivity.
Defined.
