(* ===== verification/StoreI.v ===== *)
(** * The store interface of pkg/util/generationstore (generationstore.go)

    The stores of the scheduler cache hold their objects in a
    [generationstore.Store], which is a [ListStoreImpl] in the cache and a
    [RawStoreImpl] in a snapshot.  [Store] is the part of that interface the node
    store uses; [StoreLaws] says that a store is a map, and both implementations
    satisfy it.

    The store keeps pointers, and callers go on changing an object after they
    have put it in.  [st_Write] is the effect of such a change on the store: the
    object under the key is another value, with no new generation. *)
From S2P Require Import Prelude GenStore.

Local Open Scope Z_scope.

(** [StoredObj]: the objects carry their generation. *)
Class StoredOps (V : Type) := {
  GetGeneration : V → Z;
  SetGeneration : Z → V → V
}.
Class StoredLaws (V : Type) `{!StoredOps V} := {
  get_set_gen (g : Z) (v : V) : GetGeneration (SetGeneration g v) = g;
  set_get_gen (v : V) : SetGeneration (GetGeneration v) v = v;
  set_set_gen (g g' : Z) (v : V) : SetGeneration g (SetGeneration g' v) = SetGeneration g v
}.

Class Store (S V : Type) := {
  st_Get : string → S → option (option V);
  st_Set : string → V → S → option S;
  st_Delete : string → S → option S;
  st_Len : S → nat;
  st_Write : string → V → S → option S
}.

(** [st_ok] is the invariant, [st_map] the abstract value; [st_room m] that the
    generation counter is at least [m] steps from the end of int64. *)
Class StoreLaws (S V : Type) `{!StoredOps V, !Store S V} := {
  st_ok : S → Prop;
  st_room : nat → S → Prop;
  st_map : S → gmap string V;
  law_Get (k : string) (s : S) : st_ok s → st_Get k s = Some (st_map s !! k);
  law_Len (s : S) : st_ok s → st_Len s = size (st_map s);
  law_Set (k : string) (v : V) (s : S) (m : nat) : st_ok s → st_room (Datatypes.S m) s →
    ∃ s' g, st_Set k v s = Some s' ∧ st_ok s' ∧ st_map s' = <[k := SetGeneration g v]> (st_map s) ∧ st_room m s';
  law_Delete (k : string) (s : S) : st_ok s →
    ∃ s', st_Delete k s = Some s' ∧ st_ok s' ∧ st_map s' = delete k (st_map s)
      ∧ (∀ m, st_room m s → st_room m s');
  law_room (m : nat) (s : S) : st_room (Datatypes.S m) s → st_room m s;
  law_Write (k : string) (v v' : V) (s s' : S) : st_Set k v s = Some s' → st_Write k v' s' = st_Set k v' s
}.

(** ** The two implementations *)
Section instances.
Context {V : Type} `{!StoredOps V, !StoredLaws V}.

(** The object a pointer leads to, with its generation. *)
Definition read (o : StoredObj V) : V := SetGeneration (gen o) (val o).
Definition obj (v : V) : StoredObj V := mkObj v (GetGeneration v).

Definition list_Get (k : string) (s : ListStoreImpl V) : option (option V) :=
  match Get k s with
  | None => None
  | Some o => Some (read <$> o)
  end.
Definition list_Write (k : string) (v : V) (s : ListStoreImpl V) : option (ListStoreImpl V) :=
  p ← store s !! k;
  it ← cells s !! p;
  m ← set_obj p (mkObj v (gen (storedObj it))) (cells s);
  Some (mkListStore (store s) (head s) (generation s) m (fresh_loc s)).

#[export] Instance list_store : Store (ListStoreImpl V) V :=
  {| st_Get := list_Get; st_Set := Set_; st_Delete := Delete; st_Len := Len; st_Write := list_Write |}.

Definition raw_Write (k : string) (v : V) (r : RawStoreImpl V) : option (RawStoreImpl V) :=
  _ ← rstore r !! k;
  Some (mkRawStore (<[k := obj v]> (rstore r)) (rgeneration r) (updatedSet r)).

#[export] Instance raw_store : Store (RawStoreImpl V) V :=
  {| st_Get := λ k r, Some (read <$> raw_Get k r);
     st_Set := λ k v r, Some (raw_Set k (obj v) r);
     st_Delete := λ k r, Some (raw_Delete k r);
     st_Len := raw_Len;
     st_Write := raw_Write |}.

(** Overwriting the object of cell [p], whatever its links. *)
Definition over (p : loc) (o : StoredObj V) (m : gmap loc (ListItem V)) : gmap loc (ListItem V) :=
  alter (λ it, mkListItem (key it) o (next it) (prev it)) p m.

(** A write to the links of a cell. *)
Lemma over_links p o h (f : ListItem V → option loc * option loc) (m : gmap loc (ListItem V)) :
  (∀ it o, f (mkListItem (key it) o (next it) (prev it)) = f it) →
  (it ← over p o m !! h; Some (<[h := mkListItem (key it) (storedObj it) (f it).1 (f it).2]> (over p o m)))
  = over p o <$> (it ← m !! h; Some (<[h := mkListItem (key it) (storedObj it) (f it).1 (f it).2]> m)).
Proof.
  intros Hf. unfold over. destruct (decide (h = p)) as [->|Hne].
  - rw lookup_alter_eq. destruct (m !! p) as [it|] eqn:E; simpl; [|done]. f_equal.
    rw Hf alter_insert_eq (alter_alt_Some _ m p it) // insert_insert_eq //.
  - rw lookup_alter_ne //. destruct (m !! h) as [it|]; simpl; [|done]. f_equal. by rw alter_insert_ne.
Qed.

(** Writing through the cell that [Set] has just filled. *)
Lemma Set_Write k v v' (s s' : ListStoreImpl V) : Set_ k v s = Some s' → list_Write k v' s' = Set_ k v' s.
Proof.
  unfold Set_. destruct (set_cell k s) as [[[s1 p] ex]|]; [|done].
  set (g := nextGeneration (generation s1)). set (o' := mkObj v' g).
  set (base := λ o, if ex then set_obj p o (cells s1) else Some (<[p:=mkListItem k o None None]> (cells s1))).
  assert (base o' = over p o' <$> base (mkObj v g)) as Hb.
  { unfold base, over, set_obj. destruct ex; simpl; [|by rw alter_insert_eq].
    destruct (cells s1 !! p) as [it|]; simpl; [|done]. by rw alter_insert_eq. }
  assert (∀ m1, base (mkObj v g) = Some m1 → storedObj <$> m1 !! p = Some (mkObj v g)) as Hs.
  { intros m1. unfold base, set_obj. destruct ex; simpl.
    - destruct (cells s1 !! p); simpl; [|done]. intros [= <-]. by rw lookup_insert_eq.
    - intros [= <-]. by rw lookup_insert_eq. }
  fold (base (mkObj v g)) (base o'). rw Hb. destruct (base (mkObj v g)) as [m1|]; [|done]. specialize (Hs m1 eq_refl). simpl.
  assert (match head s1 with Some h => set_prev h (Some p) (over p o' m1) | None => Some (over p o' m1) end
    = over p o' <$> match head s1 with Some h => set_prev h (Some p) m1 | None => Some m1 end) as ->.
  { destruct (head s1) as [h|]; [|done]. apply (over_links p o' h (λ it, (next it, Some p))). done. }
  assert (∀ m2, match head s1 with Some h => set_prev h (Some p) m1 | None => Some m1 end = Some m2 →
    storedObj <$> m2 !! p = Some (mkObj v g)) as Hs2.
  { intros m2. destruct (head s1) as [h|]; [|by intros [= <-]]. unfold set_prev. destruct (m1 !! h) as [ih|] eqn:Eh; [|done].
    simpl. intros [= <-]. destruct (decide (h = p)) as [->|Hne]; [rw lookup_insert_eq|by rw lookup_insert_ne].
    simpl. rw -Hs. by rw Eh. }
  destruct (match head s1 with Some h => set_prev h (Some p) m1 | None => Some m1 end) as [m2|]; [|done].
  specialize (Hs2 m2 eq_refl). simpl.
  assert (set_links p (head s1) None (over p o' m2) = over p o' <$> set_links p (head s1) None m2) as ->.
  { apply (over_links p o' p (λ it, (head s1, None))). done. }
  destruct (set_links p (head s1) None m2) as [m3|] eqn:E3; [|done]. simpl. intros [= <-].
  unfold list_Write; simpl. rw lookup_insert_eq. simpl.
  unfold set_links in E3. destruct (m2 !! p) as [it|] eqn:E2; [|done]. simpl in E3. injection E3 as <-.
  simpl in Hs2. injection Hs2 as Hs2.
  rw lookup_insert_eq. simpl. unfold set_obj. rw lookup_insert_eq. simpl. unfold over. rw alter_insert_eq Hs2 /=.
  by rw insert_insert_eq.
Qed.

#[export] Program Instance list_store_laws : StoreLaws (ListStoreImpl V) V :=
  {| st_ok s := ∃ L, rep s L; st_room m s := generation s + Z.of_nat m ≤ i64_max; st_map s := read <$> contents s |}.
Next Obligation. intros k s [L HL]. simpl. unfold list_Get. by rw (rep_Get s L k HL) lookup_fmap. Qed.
Next Obligation. intros s [L HL]. simpl. by rw (rep_Len s L HL) map_size_fmap. Qed.
Next Obligation.
  intros k v s m [L HL] Hroom. destruct (Set_spec s L k v HL) as (s' & p & E & Hg & HL'); [lia|].
  exists s', (generation s + 1). split; [exact E|]. split; [eauto|].
  split; [by rw (contents_Set _ _ _ _ _ _ _ HL HL') fmap_insert|lia].
Qed.
Next Obligation.
  intros k s [L HL]. destruct (list_Delete_spec s L k HL) as (s' & E & Hg & HL').
  exists s'. split; [exact E|]. split; [eauto|]. split; [by rw (contents_Delete _ _ _ _ HL HL') fmap_delete|].
  simpl. intros m. by rw Hg.
Qed.
Next Obligation. intros m s. simpl. lia. Qed.
Next Obligation. intros k v v' s s'. apply Set_Write. Qed.

#[export] Program Instance raw_store_laws : StoreLaws (RawStoreImpl V) V :=
  {| st_ok _ := True; st_room _ _ := True; st_map r := read <$> rstore r |}.
Next Obligation. intros k r _. simpl. by rw lookup_fmap. Qed.
Next Obligation. intros r _. simpl. by rw map_size_fmap. Qed.
Next Obligation.
  intros k v r m _ _. exists (raw_Set k (obj v) r), (GetGeneration v). split; [done|]. split; [done|]. split; [|done]. simpl.
  by rw fmap_insert.
Qed.
Next Obligation. intros k r _. exists (raw_Delete k r). split; [done|]. split; [done|]. split; [|done]. simpl. by rw fmap_delete. Qed.
Next Obligation. done. Qed.
Next Obligation.
  intros k v v' r r' [= <-]. simpl. unfold raw_Write; simpl. rw lookup_insert_eq. simpl. unfold raw_Set. simpl.
  by rw insert_insert_eq.
Qed.
End instances.
