(* ===== verification/GoStrings.v ===== *)
(** * Go string functions

    The functions of Go's [strings] and [strconv] packages the program calls:
    [strings.Split] and [strings.Join] with a one-byte separator, and the
    decimal conversions [strconv.Itoa], [strconv.Atoi]/[strconv.ParseInt(s, 10,
    64)].  Strings are byte strings.  The round trips proved here serve the pod
    keys, the failed-scheduler list and the bind-failure counter of the pod
    model. *)
From S2P Require Import Prelude.
From Stdlib Require Import Ascii.

Local Open Scope string_scope.

(** ** Splitting and joining *)

Fixpoint no_sep (sep : Ascii.ascii) (s : string) : bool :=
  match s with
  | EmptyString => true
  | String c s => negb (bool_decide (c = sep)) && no_sep sep s
  end.

(** [strings.Split(s, sep)] *)
Fixpoint Split (sep : Ascii.ascii) (s : string) : list string :=
  match s with
  | EmptyString => [""]
  | String c s =>
      if bool_decide (c = sep) then "" :: Split sep s
      else match Split sep s with
           | x :: xs => String c x :: xs
           | [] => [String c ""]
           end
  end.

(** [strings.Join(elems, sep)] *)
Fixpoint Join (sep : Ascii.ascii) (l : list string) : string :=
  match l with
  | [] => ""
  | [x] => x
  | x :: xs => x ++ String sep (Join sep xs)
  end.

Section split.
Context (sep : Ascii.ascii).

Lemma Split_no_sep s : no_sep sep s = true → Split sep s = [s].
Proof.
  induction s as [|c s IH]; [done|]. simpl. case_bool_decide; [done|].
  simpl. intros Hs. by rw IH.
Qed.

Lemma Split_cons_sep a b :
  no_sep sep a = true → Split sep (a ++ String sep b) = a :: Split sep b.
Proof.
  induction a as [|c a IH]; simpl; [by rw bool_decide_true|].
  case_bool_decide; [done|]. simpl. intros Ha. by rw IH.
Qed.

Lemma Join_cons x y l : Join sep (x :: y :: l) = x ++ String sep (Join sep (y :: l)).
Proof. done. Qed.

Lemma Split_Join l :
  l ≠ [] → Forall (λ s, no_sep sep s = true) l → Split sep (Join sep l) = l.
Proof.
  induction l as [|x [|y l] IH]; [done| |].
  - intros _ [Hx _]%Forall_cons. by apply Split_no_sep.
  - intros _ [Hx Hl]%Forall_cons. rw Join_cons Split_cons_sep; [|done]. by rw IH.
Qed.

Lemma Split_nonempty s : Split sep s ≠ [].
Proof. destruct s; simpl; [done|]. by case_bool_decide; [|case_match]. Qed.

Lemma Join_Split s : Join sep (Split sep s) = s.
Proof.
  induction s as [|c s IH]; [done|]. simpl. pose proof (Split_nonempty s).
  case_bool_decide; subst.
  - destruct (Split sep s) as [|x xs]; [done|]. by rw Join_cons IH.
  - destruct (Split sep s) as [|x [|y ys]]; [done| |]; by rw -IH.
Qed.

Lemma Split_pieces s : Forall (λ x, no_sep sep x = true) (Split sep s).
Proof.
  induction s as [|c s IH]; simpl; [by constructor|]. case_bool_decide; [by constructor|].
  pose proof (Split_nonempty s). destruct (Split sep s) as [|x xs]; [done|].
  apply Forall_cons in IH as [Hx Hxs].
  constructor; [|done]. simpl. by rw bool_decide_false.
Qed.
End split.

(** ** Decimal conversions *)

Definition digit_char (d : Z) : Ascii.ascii := Ascii.ascii_of_nat (48 + Z.to_nat d).

Definition char_digit (c : Ascii.ascii) : option Z :=
  let n := Ascii.nat_of_ascii c in
  if (48 <=? n)%nat && (n <=? 57)%nat then Some (Z.of_nat n - 48)%Z else None.

(** The digits of [n], most significant first, in front of [acc]. *)
Fixpoint format_go (fuel : nat) (n : Z) (acc : string) : string :=
  match fuel with
  | O => acc
  | S fuel =>
      if (n <? 10)%Z then String (digit_char n) acc
      else format_go fuel (n / 10) (String (digit_char (n mod 10)) acc)
  end.

(** [strconv.Itoa]: a 64-bit integer has at most 19 digits. *)
Definition Itoa (n : Z) : string :=
  if (n <? 0)%Z then String "-"%char (format_go 20 (- n) "") else format_go 20 n "".

Fixpoint parse_go (acc : Z) (s : string) : option Z :=
  match s with
  | EmptyString => Some acc
  | String c s => d ← char_digit c; parse_go (10 * acc + d) s
  end.

Definition parse_digits (s : string) : option Z :=
  match s with EmptyString => None | _ => parse_go 0 s end.

Definition parse_signed (s : string) : option Z :=
  match s with
  | EmptyString => None
  | String c r =>
      if bool_decide (c = "-"%char) then Z.opp <$> parse_digits r
      else if bool_decide (c = "+"%char) then parse_digits r
      else parse_digits s
  end.

(** [strconv.Atoi]: optional sign, at least one digit, range of int64; [None]
    is the error. *)
Definition Atoi (s : string) : option Z :=
  n ← parse_signed s;
  if (i64_min <=? n)%Z && (n <=? i64_max)%Z then Some n else None.

Lemma char_digit_char d : (0 ≤ d < 10)%Z → char_digit (digit_char d) = Some d.
Proof.
  intros. unfold char_digit, digit_char. rw Ascii.nat_ascii_embedding; [|lia].
  replace (48 <=? 48 + Z.to_nat d)%nat with true by (symmetry; apply Nat.leb_le; lia).
  replace (48 + Z.to_nat d <=? 57)%nat with true by (symmetry; apply Nat.leb_le; lia).
  simpl. f_equal. lia.
Qed.

Lemma parse_format fuel n acc :
  (0 < fuel)%nat → (0 ≤ n < 10 ^ Z.of_nat fuel)%Z →
  parse_go 0 (format_go fuel n acc) = parse_go n acc.
Proof.
  revert n acc. induction fuel as [|fuel IH]; intros n acc Hf Hn; [lia|].
  cbn [format_go]. case_eq (n <? 10)%Z; intros Hlt.
  - apply Z.ltb_lt in Hlt. cbn [parse_go]. rw char_digit_char; [done|lia].
  - apply Z.ltb_ge in Hlt. rw Nat2Z.inj_succ Z.pow_succ_r in Hn; [|lia].
    assert (fuel ≠ 0) by (intros ->; simpl in Hn; lia).
    pose proof (Z.div_mod n 10 ltac:(lia)). pose proof (Z.mod_pos_bound n 10 ltac:(lia)).
    rw IH; [|lia|lia]. cbn [parse_go]. rw char_digit_char; [|lia].
    cbn [mbind option_bind]. f_equal. lia.
Qed.

Lemma format_head fuel n acc :
  (0 < fuel)%nat → (0 ≤ n < 10 ^ Z.of_nat fuel)%Z →
  ∃ d s, (0 ≤ d < 10)%Z ∧ format_go fuel n acc = String (digit_char d) s.
Proof.
  revert n acc. induction fuel as [|fuel IH]; intros n acc Hf Hn; [lia|].
  cbn [format_go]. case_eq (n <? 10)%Z; intros Hlt.
  - apply Z.ltb_lt in Hlt. exists n, acc. split; [lia|done].
  - apply Z.ltb_ge in Hlt. rw Nat2Z.inj_succ Z.pow_succ_r in Hn; [|lia].
    assert (fuel ≠ 0) by (intros ->; simpl in Hn; lia).
    pose proof (Z.div_mod n 10 ltac:(lia)). pose proof (Z.mod_pos_bound n 10 ltac:(lia)).
    apply IH; lia.
Qed.

Lemma digit_char_not_sign d s :
  (0 ≤ d < 10)%Z →
  parse_signed (String (digit_char d) s) = parse_digits (String (digit_char d) s).
Proof.
  intros. assert (∃ k, d = Z.of_nat k ∧ k < 10)%nat as (k & -> & ?).
  { exists (Z.to_nat d). lia. }
  unfold parse_signed.
  unfold digit_char. rw Nat2Z.id. by do 10 (destruct k as [|k]; [done|]); lia.
Qed.

(** Reading back what [Itoa] wrote gives the number. *)
Lemma Atoi_Itoa n : in_i64 n → Atoi (Itoa n) = Some n.
Proof.
  unfold in_i64, i64_min, i64_max. intros Hn.
  assert (Hr : (i64_min <=? n)%Z && (n <=? i64_max)%Z = true).
  { unfold i64_min, i64_max. apply andb_true_intro; rw !Z.leb_le; lia. }
  unfold Itoa, Atoi. case_eq (n <? 0)%Z; intros Hlt.
  - apply Z.ltb_lt in Hlt.
    pose proof (parse_format 20 (- n) "" ltac:(lia) ltac:(lia)) as Hp.
    destruct (format_head 20 (- n) "" ltac:(lia) ltac:(lia)) as (d & s & Hd & E).
    unfold parse_signed. rw bool_decide_true; [|done]. rw E. rw E in Hp.
    unfold parse_digits. rw Hp.
    cbn [fmap option_fmap option_map mbind option_bind parse_go]. rw Z.opp_involutive Hr. done.
  - apply Z.ltb_ge in Hlt.
    pose proof (parse_format 20 n "" ltac:(lia) ltac:(lia)) as Hp.
    destruct (format_head 20 n "" ltac:(lia) ltac:(lia)) as (d & s & Hd & E).
    rw E. rw E in Hp. rw digit_char_not_sign; [|done].
    unfold parse_digits. rw Hp. cbn [mbind option_bind parse_go]. by rw Hr.
Qed.

#[export] Hint Resolve Split_nonempty Split_pieces : godel.
