(* ===== verification/PodModel.v ===== *)
(** * Pods

    The part of the Kubernetes [v1.Pod] object the program reads and writes,
    and the accessors of [pkg/util/pod/util.go]: resource type, launcher, keys,
    owners, requests, conditions, preemption flags, and the conversion between
    pods and reservations.  A Go map that may be nil is an [option] of a finite
    map; a pointer that the code compares with nil is an [option]. *)
From S2P Require Import Prelude GoStrings.

Local Open Scope godel_scope.
Local Open Scope string_scope.

(** ** The Kubernetes objects *)

Record OwnerReference := {
  ref_Kind : string; ref_Name : string; ref_UID : string; ref_Controller : bool
}.

(** The value of a [resource.Quantity], in units of 10^-9. *)
Abbreviation Quantity := Z.
Abbreviation ResourceList := (gmap string Quantity).

Record ContainerPort := { HostIP : string; Protocol : string; HostPort : Z }.

Record Container := {
  c_Name : string; c_Requests : ResourceList; c_Ports : list ContainerPort
}.

(** Of an affinity term only the topology key is kept: nothing modelled here
    reads its label selector. *)
Record PodAffinityTerms := { RequiredTerms : list string; PreferredTerms : list string }.
Record PodAffinity := { aff_Pod : option PodAffinityTerms; aff_PodAnti : option PodAffinityTerms }.

Record Toleration := {
  tol_Key : string; tol_Operator : string; tol_Value : string; tol_Effect : string
}.

Record PodCondition := {
  cond_Type : string; cond_Status : string; cond_Reason : string;
  cond_Message : string; cond_LastProbeTime : Z; cond_LastTransitionTime : Z
}.

Record Pod := {
  Name : string; Namespace : string; UID : string; CreationTimestamp : Z;
  Annotations : option (gmap string string);
  OwnerReferences : list OwnerReference;
  NodeName : string; SchedulerName : string;
  PriorityClassName : string; Priority : option Z;
  PreemptionPolicy : option string;
  Containers : list Container; InitContainers : list Container;
  Conditions : list PodCondition;
  Labels : gmap string string; Tolerations : list Toleration;
  Affinity : option PodAffinity; Overhead : option ResourceList;
  StartTime : option Z; DeletionTimestamp : option Z
}.

Definition set_Annotations (a : option (gmap string string)) (p : Pod) : Pod :=
  {| Name := Name p; Namespace := Namespace p; UID := UID p;
     CreationTimestamp := CreationTimestamp p; Annotations := a;
     OwnerReferences := OwnerReferences p; NodeName := NodeName p;
     SchedulerName := SchedulerName p; PriorityClassName := PriorityClassName p;
     Priority := Priority p; PreemptionPolicy := PreemptionPolicy p;
     Containers := Containers p; InitContainers := InitContainers p;
     Conditions := Conditions p;
     Labels := Labels p; Tolerations := Tolerations p; Affinity := Affinity p;
     Overhead := Overhead p; StartTime := StartTime p; DeletionTimestamp := DeletionTimestamp p |}.

Definition set_NodeName (n : string) (p : Pod) : Pod :=
  {| Name := Name p; Namespace := Namespace p; UID := UID p;
     CreationTimestamp := CreationTimestamp p; Annotations := Annotations p;
     OwnerReferences := OwnerReferences p; NodeName := n;
     SchedulerName := SchedulerName p; PriorityClassName := PriorityClassName p;
     Priority := Priority p; PreemptionPolicy := PreemptionPolicy p;
     Containers := Containers p; InitContainers := InitContainers p;
     Conditions := Conditions p;
     Labels := Labels p; Tolerations := Tolerations p; Affinity := Affinity p;
     Overhead := Overhead p; StartTime := StartTime p; DeletionTimestamp := DeletionTimestamp p |}.

Definition set_Conditions (c : list PodCondition) (p : Pod) : Pod :=
  {| Name := Name p; Namespace := Namespace p; UID := UID p;
     CreationTimestamp := CreationTimestamp p; Annotations := Annotations p;
     OwnerReferences := OwnerReferences p; NodeName := NodeName p;
     SchedulerName := SchedulerName p; PriorityClassName := PriorityClassName p;
     Priority := Priority p; PreemptionPolicy := PreemptionPolicy p;
     Containers := Containers p; InitContainers := InitContainers p;
     Conditions := c;
     Labels := Labels p; Tolerations := Tolerations p; Affinity := Affinity p;
     Overhead := Overhead p; StartTime := StartTime p; DeletionTimestamp := DeletionTimestamp p |}.

(** Reading a key of a map that may be nil: [v, ok := m[k]]. *)
Definition anno_lookup (p : Pod) (k : string) : option string := Annotations p ≫= (.!! k).

(** [m[k]]: the zero value when absent. *)
Definition anno (p : Pod) (k : string) : string := default "" (anno_lookup p k).

(** [m[k] = v]: writing to a nil map panics. *)
Definition anno_set (k v : string) (p : Pod) : option Pod :=
  m ← Annotations p; Some (set_Annotations (Some (<[k:=v]> m)) p).

(** [delete(m, k)]: a no-op on a nil map. *)
Definition anno_delete (k : string) (p : Pod) : Pod :=
  set_Annotations (delete k <$> Annotations p) p.

(** [if p.Annotations == nil { p.Annotations = make(map[string]string) }] *)
Definition anno_init (p : Pod) : Pod :=
  set_Annotations (Some (default ∅ (Annotations p))) p.

Definition anno_deletes (ks : list string) (p : Pod) : Pod := foldl (λ p k, anno_delete k p) p ks.

Lemma anno_init_lookup p k : anno_lookup (anno_init p) k = anno_lookup p k.
Proof. unfold anno_lookup, anno_init. by destruct (Annotations p); simpl; [|rw lookup_empty]. Qed.

Lemma anno_init_anno p k : anno (anno_init p) k = anno p k.
Proof. unfold anno. by rw anno_init_lookup. Qed.

Lemma anno_delete_lookup p k j :
  anno_lookup (anno_delete k p) j = if decide (k = j) then None else anno_lookup p j.
Proof.
  unfold anno_lookup, anno_delete. destruct (Annotations p) as [m|]; simpl; [|by case_decide].
  case_decide; subst; [by rw lookup_delete_eq|by rw lookup_delete_ne].
Qed.

Lemma anno_deletes_lookup ks p j :
  anno_lookup (anno_deletes ks p) j = if decide (j ∈ ks) then None else anno_lookup p j.
Proof.
  revert p. induction ks as [|k ks IH]; intros p; [done|].
  change (anno_deletes (k :: ks) p) with (anno_deletes ks (anno_delete k p)).
  rw IH anno_delete_lookup. repeat case_decide; set_solver.
Qed.

Lemma anno_deletes_nil ks p : Annotations (anno_deletes ks p) = None ↔ Annotations p = None.
Proof.
  revert p. induction ks as [|k ks IH]; intros p; simpl; [done|]. rw IH. simpl.
  by destruct (Annotations p).
Qed.

Lemma anno_set_ok k v p : Annotations p ≠ None → ∃ p', anno_set k v p = Some p'.
Proof. unfold anno_set. destruct (Annotations p); [simpl; eauto|done]. Qed.

Lemma anno_set_lookup k v p p' j :
  anno_set k v p = Some p' →
  anno_lookup p' j = if decide (k = j) then Some v else anno_lookup p j.
Proof.
  unfold anno_set, anno_lookup. destruct (Annotations p) as [m|]; simpl; [|done].
  intros [= <-]. simpl. case_decide; subst; [by rw lookup_insert_eq|by rw lookup_insert_ne].
Qed.

Lemma anno_set_eq k v p p' : anno_set k v p = Some p' → anno_lookup p' k = Some v.
Proof. intros H. rw (anno_set_lookup _ _ _ _ k H). by case_decide. Qed.

Lemma anno_set_ne k v p p' j : k ≠ j → anno_set k v p = Some p' → anno_lookup p' j = anno_lookup p j.
Proof. intros Hne H. rw (anno_set_lookup _ _ _ _ j H). by case_decide. Qed.

(** ** Resource type, launcher and keys *)

Definition QoSLevelKey : string := "katalyst.kubewharf.io/qos_level".
Definition DedicatedCores : string := "dedicated_cores".
Definition SharedCores : string := "shared_cores".
Definition ReclaimedCores : string := "reclaimed_cores".
Definition PodResourceTypeAnnotationKey : string := "godel.bytedance.com/pod-resource-type".
Definition PodLauncherAnnotationKey : string := "godel.bytedance.com/pod-launcher".

Inductive PodResourceType := GuaranteedPod | BestEffortPod.
Inductive PodLauncher := Kubelet | NodeManager.
#[export] Instance PodResourceType_eq_dec : EqDecision PodResourceType.
Proof. solve_decision. Defined.
#[export] Instance PodLauncher_eq_dec : EqDecision PodLauncher.
Proof. solve_decision. Defined.

(** [None] is [PodResourceTypeUnsupportError]. *)
Definition resourceTypeOfAnnotation (p : Pod) : option PodResourceType :=
  match anno_lookup p PodResourceTypeAnnotationKey with
  | Some t => if t ≟ "guaranteed" then Some GuaranteedPod
              else if t ≟ "best-effort" then Some BestEffortPod
              else None
  | None => Some GuaranteedPod
  end.

Definition GetPodResourceType (p : Pod) : option PodResourceType :=
  match anno_lookup p QoSLevelKey with
  | Some q =>
      if (q ≟ DedicatedCores) || (q ≟ SharedCores) then Some GuaranteedPod
      else if q ≟ ReclaimedCores then Some BestEffortPod
      else resourceTypeOfAnnotation p
  | None => resourceTypeOfAnnotation p
  end.

Definition GetResourceTypeFromQoS (q : string) : PodResourceType :=
  if (q ≟ DedicatedCores) || (q ≟ SharedCores) then GuaranteedPod
  else if q ≟ ReclaimedCores then BestEffortPod
  else GuaranteedPod.

(** [None] is [PodLauncherUnsupportError]. *)
Definition GetPodLauncher (p : Pod) : option PodLauncher :=
  match anno_lookup p PodLauncherAnnotationKey with
  | Some l => if l ≟ "kubelet" then Some Kubelet
              else if l ≟ "node-manager" then Some NodeManager
              else None
  | None => Some Kubelet
  end.

Definition LegalPodResourceTypeAndLauncher (p : Pod) : bool :=
  match GetPodLauncher p with
  | None => false
  | Some _ => match GetPodResourceType p with None => false | Some _ => true end
  end.

Definition IsLongRunningTask (p : Pod) : bool :=
  match Annotations p with
  | None => true
  | Some _ =>
      if anno p PodResourceTypeAnnotationKey ≟ "best-effort" then false
      else if anno p PodLauncherAnnotationKey ≟ "node-manager" then false
      else true
  end.

Definition DefaultPriorityValueForGuaranteedPod : Z := 100.
Definition DefaultPriorityValueForBestEffortPod : Z := 40.

Definition GetPodPriority (p : Pod) : Z :=
  match Priority p with Some v => v | None => 0%Z end.

Definition GetDefaultPriorityForGodelPod (p : Pod) : Z :=
  match Priority p with
  | Some v => v
  | None =>
      match GetPodResourceType p with
      | None => DefaultPriorityValueForGuaranteedPod
      | Some GuaranteedPod => DefaultPriorityValueForGuaranteedPod
      | Some BestEffortPod => DefaultPriorityValueForBestEffortPod
      end
  end.

Definition DefaultSchedulerName : string := "default-scheduler".

Definition responsibleForPod (p : Pod) (schedulerName : string) : bool :=
  (SchedulerName p ≟ schedulerName) || (SchedulerName p ≟ DefaultSchedulerName)
  || (SchedulerName p ≟ "").

Definition GetPodUID (p : Pod) : option string :=
  if UID p ≟ "" then None else Some (UID p).

Definition GetPodKey (p : Pod) : string := Namespace p ++ "/" ++ Name p.

Definition slash : Ascii.ascii := Ascii.ascii_of_nat 47.

Definition GetPodFullKey (namespace name uid : string) : string :=
  namespace ++ "/" ++ name ++ "/" ++ uid.

Definition GeneratePodKey (p : Pod) : string :=
  Namespace p ++ "/" ++ Name p ++ "/" ++ UID p.

(** [None] is the error "failed to parse pod key". *)
Definition ParsePodKey (s : string) : option (string * string * string) :=
  match Split slash s with
  | [a; b; c] => Some (a, b, c)
  | _ => None
  end.

Definition GetUIDFromPodFullKey (s : string) : string :=
  match Split slash s with
  | [_; _; c] => c
  | _ => ""
  end.

Definition FailedSchedulersAnnotationKey : string := "godel.bytedance.com/failed-schedulers".
Definition comma : Ascii.ascii := Ascii.ascii_of_nat 44.

(** The set [sets.String] of schedulers that already failed the pod. *)
Definition GetFailedSchedulersNames (p : Pod) : gset string :=
  match anno_lookup p FailedSchedulersAnnotationKey with
  | Some f => if f ≟ "" then ∅ else list_to_set (Split comma f)
  | None => ∅
  end.

Definition IsPodEligibleForPreemption (p : Pod) : bool :=
  match PreemptionPolicy p with
  | Some q => if q ≟ "Never" then false else true
  | None => true
  end.

Definition CanBePreemptedAnnotationKey : string := "godel.bytedance.com/can-be-preempted".

(** 1: pass, 0: not sure, -1: not pass *)
Definition CanPodBePreempted (p : Pod) : Z :=
  if PriorityClassName p ≟ "" then (-1)%Z
  else
    let v := anno p CanBePreemptedAnnotationKey in
    if v ≟ "true" then 1%Z
    else if v ≟ "" then 0%Z
    else (-1)%Z.

Definition ProtectionDurationFromPreemptionKey : string :=
  "godel.bytedance.com/protection-duration-from-preemption".

Definition GetProtectionDuration (annotations : option (gmap string string)) : Z * bool :=
  match annotations ≫= (.!! ProtectionDurationFromPreemptionKey) with
  | None => (0%Z, false)
  | Some s => match Atoi s with None => (0%Z, false) | Some n => (n, true) end
  end.

Definition PodGroupNameAnnotationKey : string := "godel.bytedance.com/pod-group-name".

Definition GetPodGroupName (p : Pod) : string :=
  let pgName := anno p PodGroupNameAnnotationKey in
  if negb (pgName ≟ "") then pgName else "".

(** ** Owners *)

Record OwnerInfo := { oi_Type : string; oi_Namespace : string; oi_Name : string; oi_UID : string }.

Definition getOwnerReferenceFromPod (p : Pod) : option OwnerReference :=
  head (filter (λ r, ref_Kind r = "ReplicaSet" ∨ ref_Kind r = "StatefulSet" ∨
                     ref_Kind r = "StatefulSetExtension") (OwnerReferences p)).

Definition PodRequestTemplateAnnotationKey : string := "godel.bytedance.com/request-template".

Definition GetPodOwnerInfo (p : Pod) : option OwnerInfo :=
  match getOwnerReferenceFromPod p with
  | Some r => Some {| oi_Type := ref_Kind r; oi_Namespace := Namespace p;
                      oi_Name := ref_Name r; oi_UID := ref_UID r |}
  | None =>
      match anno_lookup p PodRequestTemplateAnnotationKey with
      | Some t => if negb (t ≟ "")
                  then Some {| oi_Type := "RequestTemplate"; oi_Namespace := Namespace p;
                               oi_Name := t; oi_UID := "" |}
                  else None
      | None => None
      end
  end.

Definition GetPodGroupOwnerInfo (p : Pod) : option OwnerInfo :=
  match anno_lookup p PodGroupNameAnnotationKey with
  | Some g => if negb (g ≟ "")
              then Some {| oi_Type := "PodGroup"; oi_Namespace := Namespace p;
                           oi_Name := g; oi_UID := "" |}
              else None
  | None => None
  end.

Definition GetOwnerInfoKey (o : OwnerInfo) : string :=
  oi_Type o ++ "/" ++ oi_Namespace o ++ "/" ++ oi_Name o ++ "/" ++ oi_UID o.

Definition GetPodOwnerInfoKey (p : Pod) : string :=
  match GetPodOwnerInfo p with None => "" | Some o => GetOwnerInfoKey o end.

Definition GetPodTemplateKey (p : Pod) : string :=
  match GetPodOwnerInfo p with Some o => GetOwnerInfoKey o | None => GeneratePodKey p end.

Definition GetPodOwner (p : Pod) : string :=
  match GetPodOwnerInfo p with
  | Some o => GetOwnerInfoKey o
  | None => match GetPodGroupOwnerInfo p with
            | Some o => GetOwnerInfoKey o
            | None => ""
            end
  end.

Definition GetRSFromPod (p : Pod) : option string :=
  match filter (λ r, ref_Kind r = "ReplicaSet") (OwnerReferences p) with
  | r :: _ => Some (Namespace p ++ "/" ++ ref_Name r)
  | [] => None
  end.

Definition GetOwnerInfo (p : Pod) : string * string :=
  match filter (λ r, ref_Kind r = "DaemonSet" ∨ ref_Kind r = "ReplicaSet") (OwnerReferences p) with
  | r :: _ => (ref_Kind r, Namespace p ++ "/" ++ ref_Name r)
  | [] => ("", "")
  end.

Definition PodHasDaemonSetOwnerReference (p : Pod) : bool :=
  existsb (λ r, ref_Kind r ≟ "DaemonSet") (OwnerReferences p).

(** [metav1.GetControllerOf] *)
Definition GetControllerOf (p : Pod) : option OwnerReference :=
  head (filter (λ r, ref_Controller r = true) (OwnerReferences p)).

Definition GetBestEffortPodAppName (p : Pod) : string :=
  match GetControllerOf p with
  | Some r => if ref_Kind r ≟ "Application" then ref_Name r else ""
  | None => ""
  end.

(** ** Resource requests *)

Section requests.
(** The order in which [range] visits a resource list. *)
Context (order : ResourceList → list (string * Quantity)).

(** [resource.Quantity.MilliValue] rounds up; [SetMilli] writes it back. *)
Definition roundUpMilli (q : Quantity) : Quantity := ((q + 999999) / 1000000 * 1000000)%Z.

Definition GetPodRequest (p : Pod) (resourceType : string) : Quantity :=
  let sum := foldl (λ acc c,
    foldl (λ acc kv, if kv.1 ≟ resourceType then (acc + kv.2)%Z else acc) acc (order (c_Requests c)))
    0%Z (Containers p) in
  foldl (λ acc c,
    foldl (λ acc kv, if kv.1 ≟ resourceType
                     then (if (acc <? kv.2)%Z then roundUpMilli kv.2 else acc)
                     else acc) acc (order (c_Requests c)))
    sum (InitContainers p).

Definition addResourceList (l new : ResourceList) : ResourceList :=
  foldl (λ l kv, match l !! kv.1 with
                 | None => <[kv.1:=kv.2]> l
                 | Some v => <[kv.1:=(v + kv.2)%Z]> l
                 end) l (order new).

Definition maxResourceList (l new : ResourceList) : ResourceList :=
  foldl (λ l kv, match l !! kv.1 with
                 | None => <[kv.1:=kv.2]> l
                 | Some v => if (v <? kv.2)%Z then <[kv.1:=kv.2]> l else l
                 end) l (order new).

Definition GetPodRequests (p : Pod) : ResourceList :=
  foldl (λ reqs c, maxResourceList reqs (c_Requests c))
    (foldl (λ reqs c, addResourceList reqs (c_Requests c)) ∅ (Containers p))
    (InitContainers p).

(** What the pod needs of one resource: the containers run together, the init
    containers one at a time before them. *)
Definition request_of (c : Container) (r : string) : option Quantity := c_Requests c !! r.
Definition opt_combine (f : Z → Z → Z) (a b : option Z) : option Z :=
  match a, b with
  | Some x, Some y => Some (f x y)
  | Some x, None => Some x
  | None, b => b
  end.
Definition pod_need (p : Pod) (r : string) : option Quantity :=
  foldl (opt_combine Z.max)
    (foldl (opt_combine Z.add) None ((λ c, request_of c r) <$> Containers p))
    ((λ c, request_of c r) <$> InitContainers p).

Context (Horder : ∀ m, order m ≡ₚ map_to_list m).

(** Folding over the entries of a map, when only the entry for [r] matters. *)
Lemma foldl_entries_in {A B} (f : A → string * Quantity → A) (obs : A → B)
    (g : B → Z → B) (r : string) (m : ResourceList) (a : A) :
  (∀ a v, m !! r = Some v → obs (f a (r, v)) = g (obs a) v) →
  (∀ a k v, k ≠ r → obs (f a (k, v)) = obs a) →
  obs (foldl f a (order m)) = match m !! r with None => obs a | Some v => g (obs a) v end.
Proof.
  intros Hr Hk.
  assert (Hno : ∀ l a, r ∉ l.*1 → obs (foldl f a l) = obs a).
  { induction l as [|[k v] l IH]; intros b; simpl; [done|]. intros Hnot.
    rw IH; [|set_solver]. apply Hk. set_solver. }
  assert (Hnd : NoDup (order m).*1) by (rw Horder; apply NoDup_fst_map_to_list).
  destruct (m !! r) as [v|] eqn:E.
  - assert (Hin : (r, v) ∈ order m) by (rw Horder; by apply elem_of_map_to_list).
    apply list_elem_of_split in Hin as (l1 & l2 & Hl). rw Hl foldl_app /=.
    rw Hl fmap_app /= in Hnd. apply NoDup_app in Hnd as (_ & Hn1 & Hn2).
    apply NoDup_cons in Hn2 as [Hn2 _].
    rw Hno; [|done]. rw Hr // Hno; [done|]. intros Hin. by apply (Hn1 _ Hin); left.
  - apply Hno. intros ([k v] & ? & Hin)%list_elem_of_fmap. simplify_eq/=.
    rw Horder in Hin. apply elem_of_map_to_list in Hin. congruence.
Qed.

Lemma foldl_entries {A B} (f : A → string * Quantity → A) (obs : A → B)
    (g : B → Z → B) (r : string) (m : ResourceList) (a : A) :
  (∀ a v, obs (f a (r, v)) = g (obs a) v) →
  (∀ a k v, k ≠ r → obs (f a (k, v)) = obs a) →
  obs (foldl f a (order m)) = match m !! r with None => obs a | Some v => g (obs a) v end.
Proof. intros Hr. apply foldl_entries_in; auto. Qed.

Lemma addResourceList_lookup l new r :
  addResourceList l new !! r = opt_combine Z.add (l !! r) (new !! r).
Proof.
  unfold addResourceList.
  rw (foldl_entries _ (λ l : ResourceList, l !! r) (λ o v, opt_combine Z.add o (Some v)) r).
  - by destruct (new !! r), (l !! r).
  - intros a v. simpl. destruct (a !! r) eqn:E; simpl; by rw lookup_insert_eq.
  - intros a k v Hk. simpl. destruct (a !! k); by rw lookup_insert_ne.
Qed.

Lemma maxResourceList_lookup l new r :
  maxResourceList l new !! r = opt_combine Z.max (l !! r) (new !! r).
Proof.
  unfold maxResourceList.
  rw (foldl_entries _ (λ l : ResourceList, l !! r) (λ o v, opt_combine Z.max o (Some v)) r).
  - by destruct (new !! r), (l !! r).
  - intros a v. simpl. destruct (a !! r) as [w|] eqn:E; simpl; [|by rw lookup_insert_eq].
    destruct (Z.ltb_spec w v); [rw lookup_insert_eq|rw E]; f_equal; lia.
  - intros a k v Hk. simpl. destruct (a !! k); [case_match|]; by rw ?lookup_insert_ne.
Qed.

Lemma foldl_resource_lists (op : ResourceList → ResourceList → ResourceList) g cs l r :
  (∀ l new, op l new !! r = opt_combine g (l !! r) (new !! r)) →
  foldl (λ reqs c, op reqs (c_Requests c)) l cs !! r =
  foldl (opt_combine g) (l !! r) ((λ c, request_of c r) <$> cs).
Proof.
  intros Hop. revert l. induction cs as [|c cs IH]; intros l; [done|]. cbn. by rw IH Hop.
Qed.

Lemma GetPodRequests_lookup p r : GetPodRequests p !! r = pod_need p r.
Proof.
  unfold GetPodRequests, pod_need.
  rw (foldl_resource_lists _ Z.max); [|by intros; apply maxResourceList_lookup].
  rw (foldl_resource_lists _ Z.add); [done|by intros; apply addResourceList_lookup].
Qed.

Lemma roundUpMilli_exact q : (1000000 | q)%Z → roundUpMilli q = q.
Proof.
  intros [k ->]. unfold roundUpMilli.
  rw (Z.div_add_l k 1000000 999999); [|done]. change (999999 / 1000000)%Z with 0%Z. lia.
Qed.

Definition milli_exact (p : Pod) (r : string) : Prop :=
  ∀ c q, c ∈ InitContainers p → c_Requests c !! r = Some q → (1000000 | q)%Z.

Lemma sum_requests cs r z o :
  z = default 0%Z o →
  foldl (λ acc c, foldl (λ acc kv, if kv.1 ≟ r then (acc + kv.2)%Z else acc)
                    acc (order (c_Requests c))) z cs =
  default 0%Z (foldl (opt_combine Z.add) o ((λ c, request_of c r) <$> cs)).
Proof.
  revert z o. induction cs as [|c cs IH]; intros z o ->; [done|]. cbn. apply IH.
  apply (inj Some).
  rw (foldl_entries _ Some (λ o v, (λ x, x + v)%Z <$> o) r).
  - unfold request_of. by destruct (c_Requests c !! r), o.
  - intros a v. simpl. by rw bool_decide_true.
  - intros a k v Hk. simpl. by rw bool_decide_false.
Qed.

Lemma max_requests cs r z o :
  (∀ c q, c ∈ cs → c_Requests c !! r = Some q → (1000000 | q)%Z ∧ (0 ≤ q)%Z) →
  (0 ≤ z)%Z → z = default 0%Z o →
  foldl (λ acc c,
    foldl (λ acc kv, if kv.1 ≟ r then (if (acc <? kv.2)%Z then roundUpMilli kv.2 else acc) else acc)
      acc (order (c_Requests c))) z cs =
  default 0%Z (foldl (opt_combine Z.max) o ((λ c, request_of c r) <$> cs)).
Proof.
  revert z o. induction cs as [|c cs IH]; intros z o Hcs Hz ->; [done|]. cbn.
  assert (Hstep : foldl (λ acc kv, if kv.1 ≟ r then (if (acc <? kv.2)%Z then roundUpMilli kv.2 else acc) else acc)
      (default 0%Z o) (order (c_Requests c)) = default 0%Z (opt_combine Z.max o (request_of c r))).
  { apply (inj Some).
    rw (foldl_entries _ Some
      (λ o v, (λ x, if (x <? v)%Z then roundUpMilli v else x) <$> o) r).
    - unfold request_of. destruct (c_Requests c !! r) as [q|] eqn:E; [|by destruct o].
      destruct (Hcs c q ltac:(set_solver) E) as [Hd Hq]. rw /= roundUpMilli_exact; [|done].
      f_equal. destruct o as [x|]; simpl in *; destruct (Z.ltb_spec 0 q);
        try destruct (Z.ltb_spec x q); lia.
    - intros a v. simpl. by rw bool_decide_true.
    - intros a k v Hk. simpl. by rw bool_decide_false. }
  apply IH; [set_solver| |done]. rw Hstep. unfold request_of.
  destruct (c_Requests c !! r) as [q|] eqn:E; [|by destruct o].
  destruct (Hcs c q ltac:(set_solver) E) as [Hd Hq]. destruct o; simpl in *; lia.
Qed.
End requests.

(** ** QoS level *)

Section qos.
Context (order : ResourceList → list (string * Quantity)).

(** [podRequests.Value() > 0]: [Value] rounds up, so it is positive exactly when
    the quantity is. *)
Definition getQoSLevelForPod (p : Pod) (qos : string) : string :=
  if (qos ≟ DedicatedCores) || (qos ≟ SharedCores) || (qos ≟ ReclaimedCores) then qos
  else if GetPodResourceType p ≟ Some BestEffortPod then ReclaimedCores
  else if (0 <? GetPodRequest order p "numa")%Z then DedicatedCores
  else SharedCores.

Definition GetQoSLevelForPod (p : Pod) : string :=
  match anno_lookup p QoSLevelKey with
  | Some qos => getQoSLevelForPod p qos
  | None => SharedCores
  end.
End qos.

(** ** Conditions *)

Fixpoint conditionIndex (conditions : list PodCondition) (t : string) : option nat :=
  match conditions with
  | [] => None
  | c :: cs => if cond_Type c ≟ t then Some 0%nat else S <$> conditionIndex cs t
  end.

(** The index [-1] with a nil pointer is [None]. *)
Definition GetPodConditionFromList (conditions : list PodCondition) (t : string)
    : option (nat * PodCondition) :=
  i ← conditionIndex conditions t; c ← conditions !! i; Some (i, c).

Definition GetPodReadyCondition (p : Pod) : option PodCondition :=
  snd <$> GetPodConditionFromList (Conditions p) "Ready".

Definition IsPodReady (p : Pod) : bool :=
  match GetPodReadyCondition p with
  | Some c => cond_Status c ≟ "True"
  | None => false
  end.

(** [now] is the clock; the zero time is 0. *)
Definition IsPodAvailable (p : Pod) (minReadySeconds now : Z) : bool :=
  if negb (IsPodReady p) then false
  else match GetPodReadyCondition p with
       | None => false
       | Some c =>
           (minReadySeconds =? 0)%Z
           || negb (cond_LastTransitionTime c =? 0)%Z
              && (cond_LastTransitionTime c + minReadySeconds * 1000000000 <? now)%Z
       end.

Definition with_transition (t : Z) (c : PodCondition) : PodCondition :=
  {| cond_Type := cond_Type c; cond_Status := cond_Status c; cond_Reason := cond_Reason c;
     cond_Message := cond_Message c; cond_LastProbeTime := cond_LastProbeTime c;
     cond_LastTransitionTime := t |}.

Definition UpdatePodCondition (now : Z) (p : Pod) (condition : PodCondition) : Pod * bool :=
  let condition := with_transition now condition in
  match GetPodConditionFromList (Conditions p) (cond_Type condition) with
  | None => (set_Conditions (Conditions p ++ [condition])%list p, true)
  | Some (i, old) =>
      let condition := if cond_Status condition ≟ cond_Status old
                       then with_transition (cond_LastTransitionTime old) condition
                       else condition in
      let isEqual := (cond_Status condition ≟ cond_Status old)
        && (cond_Reason condition ≟ cond_Reason old)
        && (cond_Message condition ≟ cond_Message old)
        && (cond_LastProbeTime condition =? cond_LastProbeTime old)%Z
        && (cond_LastTransitionTime condition =? cond_LastTransitionTime old)%Z in
      (set_Conditions (<[i:=condition]> (Conditions p)) p, negb isEqual)
  end.

Lemma conditionIndex_Some cs t i :
  conditionIndex cs t = Some i →
  (∃ c, cs !! i = Some c ∧ cond_Type c = t) ∧ ∀ j c, j < i → cs !! j = Some c → cond_Type c ≠ t.
Proof.
  revert i. induction cs as [|c cs IH]; intros i; simpl; [done|]. case_bool_decide as E.
  - intros [= <-]. split; [by exists c|]. lia.
  - destruct (conditionIndex cs t) as [k|] eqn:Ek; [|done]. intros [= <-].
    destruct (IH k eq_refl) as [(c' & ? & ?) Hb]. split; [by exists c'|].
    intros [|j] d Hj Hd; [by simplify_eq/=|]. apply (Hb j d); [lia|done].
Qed.

Lemma conditionIndex_None cs t c : conditionIndex cs t = None → c ∈ cs → cond_Type c ≠ t.
Proof.
  induction cs as [|d cs IH]; simpl; [set_solver|]. case_bool_decide as E; [done|].
  intros H%fmap_None [->|Hin]%elem_of_cons; [done|by apply IH].
Qed.

Lemma GetPodConditionFromList_Some cs t i c :
  GetPodConditionFromList cs t = Some (i, c) →
  cs !! i = Some c ∧ cond_Type c = t ∧ ∀ j d, j < i → cs !! j = Some d → cond_Type d ≠ t.
Proof.
  unfold GetPodConditionFromList. destruct (conditionIndex cs t) as [k|] eqn:E; [|done]. simpl.
  destruct (conditionIndex_Some _ _ _ E) as [(d & Hd & ?) ?]. rw Hd. by intros [= -> ->].
Qed.

Lemma GetPodConditionFromList_None cs t c :
  GetPodConditionFromList cs t = None → c ∈ cs → cond_Type c ≠ t.
Proof.
  unfold GetPodConditionFromList. destruct (conditionIndex cs t) as [i|] eqn:E; simpl.
  - destruct (conditionIndex_Some _ _ _ E) as [(d & Hd & ?) ?]. by rw Hd.
  - intros _. by apply conditionIndex_None.
Qed.

Lemma GetPodCondition_first cs t i c :
  cs !! i = Some c → cond_Type c = t → (∀ j d, j < i → cs !! j = Some d → cond_Type d ≠ t) →
  GetPodConditionFromList cs t = Some (i, c).
Proof.
  intros Hc Ht Hb. destruct (GetPodConditionFromList cs t) as [[k d]|] eqn:E.
  - apply GetPodConditionFromList_Some in E as (Hk & Hd & Hk').
    destruct (lt_eq_lt_dec k i) as [[? | ->] | ?]; [|by simplify_eq|].
    + by destruct (Hb k d).
    + by destruct (Hk' i c).
  - by destruct (GetPodConditionFromList_None _ _ c E (list_elem_of_lookup_2 _ _ _ Hc)).
Qed.

(** ** Reservations *)

Record Reservation := {
  res_Name : string; res_Namespace : string; res_NodeName : string;
  res_Annotations : gmap string string;
  res_SchedulerName : string; res_PriorityClassName : string; res_Priority : Z;
  res_Containers : list Container; res_InitContainers : list Container;
  res_TimeToLive : Z; res_Phase : string
}.

Definition ReservationIndexAnnotation : string := "godel.bytedance.com/reservation-index".
Definition PlaceholderPodUIDAnno : string := "godel.bytedance.com/placeholder-uid".
Definition ReservationOwnerTypeAnno : string := "godel.bytedance.com/reservation-owner-type".
Definition ReservationOwnerNameAnno : string := "godel.bytedance.com/reservation-owner".
Definition ReservationOriginalPodNameAnno : string := "godel.bytedance.com/reservation-original-pod".
Definition ReservationPlaceHolderPodAnnotation : string := "godel.bytedance.com/reservation-placeholder".
Definition ReservationTTLKey : string := "godel.bytedance.com/reservation-ttl".
Definition ReservationPlaceholderPostFix : string := "-placeholder".
Definition MatchedReservationPlaceholderKey : string := "godel.bytedance.com/matched-reservation-placeholder".
Definition PodResourceReservationAnnotationForGodel : string := "godel.bytedance.com/reservation".
Definition PodResourceReservationAnnotation : string := "pod.tce.kubernetes.io/reservation".

Definition GetReservationIndex (p : Pod) : string :=
  if negb (anno p ReservationIndexAnnotation ≟ "") then anno p ReservationIndexAnnotation else "".

Definition HasReservationRequirement (p : Pod) : bool :=
  match Annotations p with
  | None => false
  | Some _ =>
      if anno_lookup p PodResourceReservationAnnotationForGodel ≟ Some "true" then true
      else if anno_lookup p PodResourceReservationAnnotation ≟ Some "true" then true
      else false
  end.

Definition HasMatchedReservationPlaceholder (p : Pod) : bool :=
  match anno_lookup p MatchedReservationPlaceholderKey with
  | Some v => negb (v ≟ "")
  | None => false
  end.

Definition IsReservationPlaceholderPod (p : Pod) : bool :=
  anno_lookup p ReservationPlaceHolderPodAnnotation ≟ Some "true".

Definition GetPodReservationTimeoutPeriod (p : Pod) : Z :=
  match anno_lookup p ReservationTTLKey with
  | Some v => default 0%Z (Atoi v)
  | None => 0%Z
  end.

(** Writes the placeholder identity into the pod; [None] is the panic of the
    write to a nil annotation map. *)
Definition injectPlaceholderInfo (p : Pod) : option Pod :=
  anno_set ReservationPlaceHolderPodAnnotation "true"
    {| Name := Name p ++ ReservationPlaceholderPostFix; Namespace := Namespace p;
       UID := UID p ++ ReservationPlaceholderPostFix;
       CreationTimestamp := CreationTimestamp p; Annotations := Annotations p;
       OwnerReferences := OwnerReferences p; NodeName := NodeName p;
       SchedulerName := SchedulerName p; PriorityClassName := PriorityClassName p;
       Priority := Priority p; PreemptionPolicy := PreemptionPolicy p;
       Containers := Containers p; InitContainers := InitContainers p;
       Conditions := Conditions p;
     Labels := Labels p; Tolerations := Tolerations p; Affinity := Affinity p;
     Overhead := Overhead p; StartTime := StartTime p; DeletionTimestamp := DeletionTimestamp p |}.

Definition removeTopologyInfoOnPlaceholder (p : Pod) : Pod :=
  anno_deletes [QoSLevelKey; "katalyst.kubewharf.io/memory_enhancement"; "numa_binding";
                "numa_exclusive"] p.

Definition CreateReservationFakePod (p : Pod) : option Pod :=
  injectPlaceholderInfo (removeTopologyInfoOnPlaceholder p).

Section reservation.
(** [util.GetDeployNameFromPod] *)
Context (GetDeployNameFromPod : Pod → string).

Definition GetReservationPlaceholder (p : Pod) : string :=
  let index := GetReservationIndex p in
  if negb (index ≟ "") then index
  else match GetControllerOf p with
       | Some owner => if ref_Kind owner ≟ "StatefulSetExtension" then ref_Name owner
                       else GetDeployNameFromPod p
       | None => GetDeployNameFromPod p
       end.

Definition ConstructReservationAccordingToPod (p : Pod) (defaultTTL : Z) : Reservation :=
  let ttl := GetPodReservationTimeoutPeriod p in
  let a := <[ReservationIndexAnnotation := GetReservationPlaceholder p]>
           (<[PlaceholderPodUIDAnno := UID p]>
           (<[ReservationOriginalPodNameAnno := Name p]> ∅)) in
  {| res_Name := Name p; res_Namespace := Namespace p; res_NodeName := NodeName p;
     res_Annotations :=
       match GetControllerOf p with
       | Some owner => <[ReservationOwnerNameAnno := ref_Name owner]>
                       (<[ReservationOwnerTypeAnno := ref_Kind owner]> a)
       | None => a
       end;
     res_SchedulerName := SchedulerName p; res_PriorityClassName := PriorityClassName p;
     res_Priority := match Priority p with Some v => v | None => 0%Z end;
     res_Containers := Containers p; res_InitContainers := InitContainers p;
     res_TimeToLive := if (ttl =? 0)%Z then defaultTTL else ttl;
     res_Phase := "" |}.
End reservation.

Definition ConvertReservationToPod (r : Reservation) : option Pod :=
  injectPlaceholderInfo
    {| Name := res_Name r; Namespace := res_Namespace r;
       UID := if negb (default "" (res_Annotations r !! PlaceholderPodUIDAnno) ≟ "")
              then default "" (res_Annotations r !! PlaceholderPodUIDAnno) else "";
       CreationTimestamp := 0%Z; Annotations := Some (res_Annotations r); OwnerReferences := [];
       NodeName := res_NodeName r; SchedulerName := res_SchedulerName r;
       PriorityClassName := res_PriorityClassName r; Priority := Some (res_Priority r);
       PreemptionPolicy := None; Containers := res_Containers r;
       InitContainers := res_InitContainers r; Conditions := [];
     Labels := ∅; Tolerations := []; Affinity := None; Overhead := None; StartTime := None;
     DeletionTimestamp := None |}.

Definition ShouldOccupyResources (r : Reservation) : bool :=
  if res_NodeName r ≟ "" then false
  else if res_Phase r ≟ "TimeOut" then false
  else if res_Phase r ≟ "Matched" then false
  else true.

Definition GetReservationKey (r : Reservation) : string := res_Namespace r ++ "/" ++ res_Name r.

(** ** Informer events *)

Inductive UpdateCall := CallUpdate (old new : Pod) | CallAdd (new : Pod) | CallDelete (old : Pod).

(** Which of the three callbacks an update event becomes, given the filter. *)
Definition FilteringUpdate (filterFn : Pod → bool) (oldPod newPod : Pod) : option UpdateCall :=
  let older := filterFn oldPod in
  let newer := filterFn newPod in
  if newer && older then Some (CallUpdate oldPod newPod)
  else if newer && negb older then Some (CallAdd newPod)
  else if negb newer && older then Some (CallDelete oldPod)
  else None.

(** The view an informer handler keeps: the pods that pass the filter, by key. *)
Definition apply_call (view : gmap string Pod) (c : option UpdateCall) : gmap string Pod :=
  match c with
  | Some (CallUpdate _ new) | Some (CallAdd new) => <[GetPodKey new := new]> view
  | Some (CallDelete old) => delete (GetPodKey old) view
  | None => view
  end.

Definition filtered_view (filterFn : Pod → bool) (all : gmap string Pod) : gmap string Pod :=
  filter (λ kp, filterFn kp.2 = true) all.

(** ** Theorems *)

(** The key a pod is stored under parses back into its namespace, name and
    UID whenever these contain no slash, and every key that parses is the key of
    what it parses into. *)
Theorem pod_key_roundtrip (p : Pod) (s : string)
    (Hns : no_sep slash (Namespace p) = true) (Hname : no_sep slash (Name p) = true)
    (Huid : no_sep slash (UID p) = true) :
  ParsePodKey (GeneratePodKey p) = Some (Namespace p, Name p, UID p)
  ∧ GetUIDFromPodFullKey (GeneratePodKey p) = UID p
  ∧ (∀ a b c, ParsePodKey s = Some (a, b, c) → GetPodFullKey a b c = s).
Proof.
  assert (Hsp : Split slash (GeneratePodKey p) = [Namespace p; Name p; UID p]).
  { unfold GeneratePodKey. by rw !Split_cons_sep ?Split_no_sep. }
  unfold ParsePodKey, GetUIDFromPodFullKey. rw Hsp. repeat split.
  intros a b c. destruct (Split slash s) as [|? [|? [|? []]]] eqn:E; try done.
  intros [= -> -> ->]. by rw -(Join_Split slash s) E.
Qed.

Definition example_pod : Pod :=
  {| Name := "p"; Namespace := "ns"; UID := "u1"; CreationTimestamp := 0; Annotations := Some ∅; OwnerReferences := [];
     NodeName := ""; SchedulerName := ""; PriorityClassName := ""; Priority := None;
     PreemptionPolicy := None;
     Containers := [{| c_Name := "a"; c_Requests := {["cpu" := 2000000000%Z]}; c_Ports := [] |}];
     InitContainers := [{| c_Name := "i"; c_Requests := {["cpu" := 3000000000%Z]}; c_Ports := [] |}];
     Conditions := [];
     Labels := ∅; Tolerations := []; Affinity := None; Overhead := None; StartTime := None;
     DeletionTimestamp := None |}.

Lemma pod_key_roundtrip_witness :
  ParsePodKey (GeneratePodKey example_pod) = Some ("ns", "p", "u1").
Proof. apply (pod_key_roundtrip example_pod ""); reflexivity. Defined.

(** Two owners with the same key are the same owner, provided no field but
    the UID contains a slash. *)
Theorem owner_key_injective (o1 o2 : OwnerInfo)
    (H1 : no_sep slash (oi_Type o1) && no_sep slash (oi_Namespace o1) && no_sep slash (oi_Name o1) = true)
    (H2 : no_sep slash (oi_Type o2) && no_sep slash (oi_Namespace o2) && no_sep slash (oi_Name o2) = true)
    (Hkey : GetOwnerInfoKey o1 = GetOwnerInfoKey o2) : o1 = o2.
Proof.
  destruct o1 as [t1 ns1 n1 u1], o2 as [t2 ns2 n2 u2]; simpl in *.
  apply andb_prop in H1 as [[??]%andb_prop ?]. apply andb_prop in H2 as [[??]%andb_prop ?].
  unfold GetOwnerInfoKey in Hkey; simpl in Hkey.
  apply (f_equal (Split slash)) in Hkey as Hs. rw !Split_cons_sep in Hs; [|done..].
  by simplify_eq.
Qed.

Lemma owner_key_injective_witness :
  let o := {| oi_Type := "ReplicaSet"; oi_Namespace := "ns"; oi_Name := "rs"; oi_UID := "u/1" |} in
  o = o.
Proof. intros o. apply (owner_key_injective o o); reflexivity. Defined.

(** Whatever order the resource maps are visited in, [GetPodRequests] maps
    each resource to the larger of the sum over the containers and the maximum
    over the init containers, with an entry exactly for the resources some
    container names, and [GetPodRequest] computes the same quantity (0 when
    there is none) when init containers request whole milli-units. *)
Theorem pod_requests_agree order (p : Pod) (r : string)
    (Horder : ∀ m, order m ≡ₚ map_to_list m)
    (Hpos : ∀ c q, c ∈ Containers p → c_Requests c !! r = Some q → (0 ≤ q)%Z)
    (Hmilli : ∀ c q, c ∈ InitContainers p → c_Requests c !! r = Some q →
       (1000000 | q)%Z ∧ (0 ≤ q)%Z) :
  GetPodRequests order p !! r = pod_need p r
  ∧ GetPodRequest order p r = default 0%Z (pod_need p r).
Proof.
  split; [by apply GetPodRequests_lookup|]. unfold GetPodRequest, pod_need.
  rw (sum_requests order Horder _ _ _ None); [|done]. apply (max_requests order Horder); [done| |done].
  assert (Hsum : ∀ cs o, (∀ c q, c ∈ cs → c_Requests c !! r = Some q → (0 ≤ q)%Z) →
    (0 ≤ default 0%Z o)%Z →
    (0 ≤ default 0%Z (foldl (opt_combine Z.add) o ((λ c, request_of c r) <$> cs)))%Z).
  { induction cs as [|c cs IH]; intros o Hcs Ho; [done|]. cbn. apply IH; [set_solver|].
    unfold request_of. destruct (c_Requests c !! r) as [q|] eqn:E; [|by destruct o].
    pose proof (Hcs c q ltac:(set_solver) E). destruct o; simpl in *; lia. }
  by apply Hsum.
Qed.

Lemma pod_requests_agree_witness :
  GetPodRequests map_to_list example_pod !! "cpu" = pod_need example_pod "cpu".
Proof.
  apply (pod_requests_agree map_to_list example_pod "cpu").
  - done.
  - intros c q [->|?]%elem_of_cons; [|set_solver]. vm_compute. by intros [= <-].
  - intros c q [->|?]%elem_of_cons; [|set_solver]. vm_compute. intros [= <-].
    split; [by exists 3000%Z|done].
Defined.

(** Updating a condition leaves the pod with that condition, first of its
    type, keeps every condition of another type in place, moves the transition
    time exactly when the status changed, and reports a change exactly when the
    stored list changed. *)
Theorem update_condition_spec (now : Z) (p : Pod) (c : PodCondition) :
  let '(p', changed) := UpdatePodCondition now p c in
  ∃ i c', GetPodConditionFromList (Conditions p') (cond_Type c) = Some (i, c')
    ∧ cond_Status c' = cond_Status c ∧ cond_Reason c' = cond_Reason c
    ∧ cond_Message c' = cond_Message c
    ∧ (∀ j d, cond_Type d ≠ cond_Type c → Conditions p' !! j = Some d ↔ Conditions p !! j = Some d)
    ∧ cond_LastTransitionTime c' =
        match GetPodConditionFromList (Conditions p) (cond_Type c) with
        | Some (_, old) => if decide (cond_Status old = cond_Status c)
                           then cond_LastTransitionTime old else now
        | None => now
        end
    ∧ (changed = false ↔ Conditions p' = Conditions p).
Proof.
  unfold UpdatePodCondition. simpl.
  destruct (GetPodConditionFromList (Conditions p) (cond_Type c)) as [[i old]|] eqn:E.
  - apply GetPodConditionFromList_Some in E as (Hi & Ht & Hb).
    apply lookup_lt_Some in Hi as Hlt.
    set (c' := if cond_Status c ≟ cond_Status old
      then with_transition (cond_LastTransitionTime old) (with_transition now c)
      else with_transition now c).
    assert (Hc' : cond_Type c' = cond_Type c ∧ cond_Status c' = cond_Status c
      ∧ cond_Reason c' = cond_Reason c ∧ cond_Message c' = cond_Message c
      ∧ cond_LastProbeTime c' = cond_LastProbeTime c
      ∧ cond_LastTransitionTime c' = if decide (cond_Status old = cond_Status c)
                           then cond_LastTransitionTime old else now).
    { unfold c'. case_bool_decide as Hs; case_decide; naive_solver. }
    destruct Hc' as (HT & HS & HR & HM & HP & HL). clearbody c'.
    exists i, c'. split_and!; try done; simpl.
    + apply GetPodCondition_first; [by rw list_lookup_insert_eq|congruence|].
      intros j d Hj. rw list_lookup_insert_ne; [|lia]. by apply Hb.
    + intros j d Hd. destruct (decide (i = j)) as [<-|]; [|by rw list_lookup_insert_ne].
      rw list_lookup_insert_eq; [|done]. rw Hi. split; intros [= ->]; congruence.
    + rw negb_false_iff !andb_true_iff !bool_decide_eq_true !Z.eqb_eq. split.
      * intros [[[[? ?] ?] ?] ?]. apply list_insert_id. rw Hi. f_equal.
        destruct c', old; simpl in *; congruence.
      * intros Heq. assert (Hold : Some c' = Some old).
        { rw -Hi -Heq. by rw list_lookup_insert_eq. }
        by injection Hold as ->.
  - exists (length (Conditions p)), (with_transition now c). split_and!; try done; simpl.
    + apply GetPodCondition_first; [by rw lookup_app_r ?Nat.sub_diag|done|].
      intros j d Hj. rw lookup_app_l; [|done]. intros Hd%list_elem_of_lookup_2.
      by apply (GetPodConditionFromList_None _ _ _ E).
    + intros j d Hd. rw lookup_app. destruct (Conditions p !! j) eqn:Ej; [done|].
      split; [|done]. intros Hx%list_elem_of_lookup_2. set_solver.
    + split; [done|]. intros Heq. apply (f_equal length) in Heq. rw length_app /= in Heq. lia.
Qed.

Lemma string_app_ne s c t : s ++ String c t ≠ s.
Proof. induction s as [|d s IH]; [done|]. intros [= ?]. by apply IH. Qed.

Lemma reservation_annotations deploy p ttl :
  let a := res_Annotations (ConstructReservationAccordingToPod deploy p ttl) in
  a !! PlaceholderPodUIDAnno = Some (UID p)
  ∧ a !! ReservationIndexAnnotation = Some (GetReservationPlaceholder deploy p).
Proof.
  simpl. destruct (GetControllerOf p); split;
    repeat (rw lookup_insert_eq || (rw lookup_insert_ne; [|done])); done.
Qed.

(** The placeholder pod kept in the cache for a finished pod and the
    placeholder rebuilt from the reservation object written for that pod have
    the same key, resources, node, scheduler and effective priority, are both
    recognised as placeholders, are not the pod itself, and the rebuilt one
    carries the reservation index of the pod. *)
Theorem reservation_placeholder_agree deploy (p : Pod) (ttl : Z) (Hann : Annotations p ≠ None) :
  ∃ f g, CreateReservationFakePod p = Some f
    ∧ ConvertReservationToPod (ConstructReservationAccordingToPod deploy p ttl) = Some g
    ∧ GeneratePodKey f = GeneratePodKey g
    ∧ Containers f = Containers g ∧ InitContainers f = InitContainers g
    ∧ NodeName f = NodeName g ∧ SchedulerName f = SchedulerName g
    ∧ GetPodPriority f = GetPodPriority g
    ∧ IsReservationPlaceholderPod f = true ∧ IsReservationPlaceholderPod g = true
    ∧ Name f ≠ Name p
    ∧ GetReservationIndex g = GetReservationPlaceholder deploy p.
Proof.
  unfold CreateReservationFakePod, ConvertReservationToPod, injectPlaceholderInfo.
  destruct (reservation_annotations deploy p ttl) as [Hu Hx].
  edestruct (anno_set_ok ReservationPlaceHolderPodAnnotation "true") as [f Hf];
    [|edestruct (anno_set_ok ReservationPlaceHolderPodAnnotation "true") as [g Hg]].
  3: exists f, g; split; [exact Hf|]; split; [exact Hg|]. 1: {
    change (Annotations (removeTopologyInfoOnPlaceholder p) ≠ None).
    unfold removeTopologyInfoOnPlaceholder. by rw anno_deletes_nil. } 1: done.
  apply anno_set_eq in Hf as Lf. apply anno_set_eq in Hg as Lg.
  apply (anno_set_ne _ _ _ _ ReservationIndexAnnotation) in Hg as Lx; [|done].
  unfold IsReservationPlaceholderPod, GetReservationIndex, anno. rw Lf Lg Lx. clear Lf Lg Lx.
  unfold anno_set in Hf, Hg. destruct (Annotations p) as [m|] eqn:Ea; [|done].
  unfold removeTopologyInfoOnPlaceholder, anno_deletes, anno_delete in Hf. simpl in Hf.
  rw Ea in Hf. simpl in Hf, Hg. injection Hf as <-. injection Hg as <-.
  split_and!; try done; simpl.
  - unfold GeneratePodKey; simpl in *. rw Hu /=. case_bool_decide as E; [by rw E|done].
  - apply string_app_ne.
  - unfold anno_lookup; simpl in *. rw Hx /=. by case_bool_decide.
Qed.

Lemma reservation_placeholder_agree_witness :
  ∃ f g, CreateReservationFakePod example_pod = Some f
    ∧ ConvertReservationToPod
        (ConstructReservationAccordingToPod (λ _, "d") example_pod 10) = Some g
    ∧ GeneratePodKey f = GeneratePodKey g.
Proof.
  destruct (reservation_placeholder_agree (λ _, "d") example_pod 10) as (f & g & H1 & H2 & H3 & _);
    [discriminate|]. by exists f, g.
Defined.

(** A handler that forwards each update event through [FilteringUpdate] to
    a keyed store keeps in the store exactly the pods of the cluster that pass
    its filter. *)
Theorem filtering_update_view (f : Pod → bool) (all : gmap string Pod) (old new : Pod)
    (Hold : all !! GetPodKey old = Some old) (Hkey : GetPodKey new = GetPodKey old) :
  apply_call (filtered_view f all) (FilteringUpdate f old new) =
  filtered_view f (<[GetPodKey old := new]> all).
Proof.
  unfold filtered_view, FilteringUpdate, apply_call.
  destruct (f new) eqn:En, (f old) eqn:Eo; simpl; rw ?Hkey.
  - by rw map_filter_insert_True.
  - by rw map_filter_insert_True.
  - rw map_filter_insert_False; [|simpl; congruence]. by rw map_filter_delete.
  - rw map_filter_insert_False; [|simpl; congruence]. rw map_filter_delete.
    rw delete_id; [done|]. apply map_lookup_filter_None. right.
    intros q Hq. rw Hold in Hq. simplify_eq/=. congruence.
Qed.

Lemma filtering_update_view_witness :
  let f p := negb (NodeName p ≟ "") in
  apply_call (filtered_view f {[ "ns/p" := example_pod ]})
    (FilteringUpdate f example_pod (set_NodeName "n1" example_pod)) =
  filtered_view f (<["ns/p" := set_NodeName "n1" example_pod]> {[ "ns/p" := example_pod ]}).
Proof.
  intros f. apply (filtering_update_view f {[ "ns/p" := example_pod ]} example_pod
    (set_NodeName "n1" example_pod)); reflexivity.
Defined.

(** ** Decidable equality *)

#[export] Instance OwnerReference_eq_dec : EqDecision OwnerReference.
Proof. solve_decision. Defined.
#[export] Instance ContainerPort_eq_dec : EqDecision ContainerPort.
Proof. solve_decision. Defined.
#[export] Instance PodAffinityTerms_eq_dec : EqDecision PodAffinityTerms.
Proof. solve_decision. Defined.
#[export] Instance PodAffinity_eq_dec : EqDecision PodAffinity.
Proof. solve_decision. Defined.
#[export] Instance Toleration_eq_dec : EqDecision Toleration.
Proof. solve_decision. Defined.
#[export] Instance Container_eq_dec : EqDecision Container.
Proof. solve_decision. Defined.
#[export] Instance PodCondition_eq_dec : EqDecision PodCondition.
Proof. solve_decision. Defined.
#[export] Instance Pod_eq_dec : EqDecision Pod.
Proof. solve_decision. Defined.
