(* ===== verification/PodState.v ===== *)
(** * The scheduling state of a pod

    Dispatcher, scheduler and binder communicate only through the annotations of
    the pod.  This file models the state predicates of
    [pkg/util/pod/podstate.go] and every writer of those annotations: the
    dispatcher ([sendPodToScheduler]), the scheduler ([getAndInitClonedPod],
    [ReservePod], [updateFailedSchedulingPod]), the binder
    ([pkg/binder/utils/util.go], [retry.go], [cleanupPod]) and the dispatcher's
    reconciler ([podstatesyncer.go]).  The life of a pod is a step relation over
    these writers. *)
From S2P Require Import Prelude GoStrings PodModel.

Local Open Scope godel_scope.
Local Open Scope string_scope.

(** ** podstate.go *)

Definition PodStateAnnotationKey : string := "godel.bytedance.com/pod-state".
Definition SchedulerAnnotationKey : string := "godel.bytedance.com/selected-scheduler".
Definition AssumedNodeAnnotationKey : string := "godel.bytedance.com/assumed-node".
Definition AssumedCrossNodeAnnotationKey : string := "godel.bytedance.com/assumed-cross-node".
Definition NominatedNodeAnnotationKey : string := "godel.bytedance.com/nominated-node".
Definition TraceContext : string := "trace-context".
Definition InitialHandledTimestampAnnotationKey : string := "godel.bytedance.com/initial-handled-timestamp".
Definition MicroTopologyKey : string := "godel.bytedance.com/micro-topology".
Definition MovementNameKey : string := "godel.bytedance.com/movement-name".
Definition E2EExcludedPodAnnotationKey : string := "godel.bytedance.com/e2e-excluded".
Definition DebugModeAnnotationKey : string := "godel.bytedance.com/debug-mode".
Definition IgnorePodsLimitAnnotationKey : string := "godel.bytedance.com/ignore-pods-limit".
Definition PodNotInit : string := "".
Definition PodPending : string := "pending".
Definition PodDispatched : string := "dispatched".
Definition PodAssumed : string := "assumed".

Definition GetPodState (annotations : option (gmap string string)) : string :=
  match annotations with
  | None => PodNotInit
  | Some m => match m !! PodStateAnnotationKey with
              | None => PodNotInit
              | Some val => val
              end
  end.

Definition has_annotations (p : Pod) : bool :=
  match Annotations p with Some _ => true | None => false end.

Definition PendingPod (p : Pod) : bool :=
  has_annotations p
  && ((anno p PodStateAnnotationKey ≟ PodPending) || (anno p PodStateAnnotationKey ≟ ""))
  && (anno p SchedulerAnnotationKey ≟ "")
  && (anno p AssumedNodeAnnotationKey ≟ "")
  && (anno p NominatedNodeAnnotationKey ≟ "")
  && (NodeName p ≟ "").

Definition DispatchedPod (p : Pod) : bool :=
  has_annotations p
  && (anno p PodStateAnnotationKey ≟ PodDispatched)
  && negb (anno p SchedulerAnnotationKey ≟ "")
  && (anno p AssumedNodeAnnotationKey ≟ "")
  && (anno p NominatedNodeAnnotationKey ≟ "")
  && (NodeName p ≟ "").

Definition assumedOrNominatedNodeIsSet (p : Pod) : bool :=
  if has_annotations p then
    if (anno p AssumedNodeAnnotationKey ≟ "") && negb (anno p NominatedNodeAnnotationKey ≟ "") then true
    else if negb (anno p AssumedNodeAnnotationKey ≟ "") && (anno p NominatedNodeAnnotationKey ≟ "") then true
    else false
  else false.

Definition AssumedPod (p : Pod) : bool :=
  has_annotations p
  && (anno p PodStateAnnotationKey ≟ PodAssumed)
  && negb (anno p SchedulerAnnotationKey ≟ "")
  && assumedOrNominatedNodeIsSet p
  && (NodeName p ≟ "").

Definition BoundPod (p : Pod) : bool := negb (NodeName p ≟ "").

Definition AbnormalPodState (p : Pod) : bool :=
  if BoundPod p then false
  else
    let st := anno p PodStateAnnotationKey in
    if (st ≟ "") || (st ≟ PodPending) then negb (PendingPod p)
    else if st ≟ PodDispatched then negb (DispatchedPod p)
    else if st ≟ PodAssumed then negb (AssumedPod p)
    else true.

Definition OfGodel (state : Pod → bool) (p : Pod) (schedulerName : string) : bool :=
  LegalPodResourceTypeAndLauncher p && responsibleForPod p schedulerName && state p.
Definition DispatchedPodOfGodel : Pod → string → bool := OfGodel DispatchedPod.
Definition AssumedPodOfGodel : Pod → string → bool := OfGodel AssumedPod.
Definition PendingPodOfGodel : Pod → string → bool := OfGodel PendingPod.

Definition DispatchedPodOfThisScheduler (p : Pod) (schedulerID : string) : bool :=
  has_annotations p && (anno p SchedulerAnnotationKey ≟ schedulerID) && DispatchedPod p.
Definition DispatchedPodOfOtherScheduler (p : Pod) (schedulerID : string) : bool :=
  has_annotations p && negb (anno p SchedulerAnnotationKey ≟ schedulerID) && DispatchedPod p.

Definition AbnormalPodStateOfGodel (p : Pod) (schedulerName : string) : bool :=
  AbnormalPodState p && responsibleForPod p schedulerName.

(** What a lister answers: the object, a not-found error, another error. *)
Inductive Lookup := Found | NotFound | LookupError.

(** [Some b] is [(b, nil)], [None] an error. *)
Definition NodeExists (nodeName : string) (nodeLister nmNodeLister : string → Lookup) : option bool :=
  match nodeLister nodeName with
  | Found => Some true
  | LookupError => None
  | NotFound => match nmNodeLister nodeName with
                | Found => Some true
                | LookupError => None
                | NotFound => Some false
                end
  end.

Definition SchedulerExists (schedulerName : string) (schedulerLister : string → Lookup) : option bool :=
  match schedulerLister schedulerName with
  | Found => Some true
  | LookupError => None
  | NotFound => Some false
  end.

Definition IgnorePodsLimit (p : option Pod) : bool :=
  match p with
  | None => false
  | Some p => match anno_lookup p IgnorePodsLimitAnnotationKey with Some _ => true | None => false end
  end.

(** ** Dispatcher *)

(** The annotations the dispatcher patches onto a pod it sends to a scheduler;
    [timestamp] and [span] are the formatted time and tracing context. *)
Definition sendPodToScheduler (timestamp span : string) (p : Pod) (schedulerName : string) : option Pod :=
  c ← anno_set SchedulerAnnotationKey schedulerName (anno_init p);
  c ← anno_set PodStateAnnotationKey PodDispatched c;
  c ← match anno_lookup c InitialHandledTimestampAnnotationKey with
      | None => anno_set InitialHandledTimestampAnnotationKey timestamp c
      | Some _ => Some c
      end;
  if anno c TraceContext ≟ "" then anno_set TraceContext span c else Some c.

Definition resetPodToPendingState (p : Pod) : option Pod :=
  c ← anno_set PodStateAnnotationKey PodPending (anno_init p);
  Some (anno_deletes [SchedulerAnnotationKey; AssumedNodeAnnotationKey; NominatedNodeAnnotationKey] c).

(** The pod the reconciler writes back, if it writes; the inner [option] is a
    panic. *)
Definition updateAbnormalStatePod (p : Pod) (schedulerName : string) : option (option Pod) :=
  if AbnormalPodStateOfGodel p schedulerName then Some (resetPodToPendingState p) else None.

(** [inactive] and [exists_] are the answers of the scheduler maintainer. *)
Definition updateStaleDispatchedStatePod (inactive exists_ : string → bool) (p : Pod)
    (schedulerName : string) : option (option Pod) :=
  if DispatchedPodOfGodel p schedulerName then
    let s := anno p SchedulerAnnotationKey in
    if inactive s || negb (exists_ s) then Some (resetPodToPendingState p) else None
  else None.

(** ** Scheduler *)

Record NominatedNode := { nn_NodeName : string; nn_VictimPods : list string }.
Record PodScheduleResult := { SuggestedHost : string; sr_NominatedNode : option NominatedNode }.

Definition getAndInitClonedPod (timestamp span : string) (p : Pod) : option Pod :=
  let c := anno_init p in
  c ← (if anno c TraceContext ≟ "" then anno_set TraceContext span c else Some c);
  match anno_lookup c InitialHandledTimestampAnnotationKey with
  | None => anno_set InitialHandledTimestampAnnotationKey timestamp c
  | Some _ => Some c
  end.

Section reserve.
(** [json.Marshal] of a nominated node, [None] its error; [assumePod] is the
    answer of [Snapshot.AssumePod]. *)
Context (marshal : NominatedNode → option string) (assumePod : Pod → bool).

Definition SetPodNominatedNode (p : Pod) (n : NominatedNode) : option (option Pod) :=
  match marshal n with
  | None => Some None
  | Some data => Some <$> anno_set NominatedNodeAnnotationKey data p
  end.

(** The cloned pod as [ReservePod] leaves it, the target node and whether the
    call succeeded; [None] is a panic. *)
Definition ReservePod (p : Pod) (r : PodScheduleResult) : option (Pod * string * bool) :=
  c ← anno_set PodStateAnnotationKey PodAssumed p;
  if negb (SuggestedHost r ≟ "") then
    c ← anno_set AssumedNodeAnnotationKey (SuggestedHost r) c;
    Some (c, SuggestedHost r, assumePod c)
  else match sr_NominatedNode r with
       | None => Some (c, "", assumePod c)
       | Some n =>
           match nn_VictimPods n with
           | [] => c ← anno_set AssumedNodeAnnotationKey (nn_NodeName n) c;
                   Some (c, nn_NodeName n, assumePod c)
           | _ :: _ =>
               match SetPodNominatedNode c n with
               | None => None
               | Some None => Some (c, "", false)
               | Some (Some c) => Some (c, nn_NodeName n, assumePod c)
               end
           end
       end.
End reserve.

Definition GetPodDebugMode (p : Pod) : string :=
  match anno_lookup p DebugModeAnnotationKey with None => "off" | Some d => d end.

(** [sets.String.List]: the elements in increasing order. *)
Definition sorted_names (X : gset string) : list string := merge_sort String.le (elements X).

(** The pod copy the scheduler patches after a failed attempt, before its
    condition is updated. *)
Definition updateFailedSchedulingPod (schedulerName : string) (failedPod : Pod) (reEnqueue : bool)
    : option Pod :=
  c ← (if negb reEnqueue then
         let failedSchedulerSet := GetFailedSchedulersNames failedPod in
         c ← (if bool_decide (schedulerName ∈ failedSchedulerSet) then Some failedPod
              else anno_set FailedSchedulersAnnotationKey
                     (Join comma (sorted_names ({[schedulerName]} ∪ failedSchedulerSet))) failedPod);
         c ← anno_set PodStateAnnotationKey PodPending c;
         Some (anno_delete SchedulerAnnotationKey c)
       else Some failedPod);
  let c := anno_delete MicroTopologyKey c in
  let c := if GetPodDebugMode failedPod ≟ "on" then anno_delete DebugModeAnnotationKey c else c in
  anno_set E2EExcludedPodAnnotationKey "true" c.

(** ** Binder *)

Definition BindFailureCountAnnotationKey : string := "godel.bytedance.com/bind-failure-count".
Definition LastBindFailureReasonKey : string := "godel.bytedance.com/last-bind-failure".

Definition GetBindFailureCount (p : Pod) : Z :=
  match anno_lookup p BindFailureCountAnnotationKey with
  | None => 0
  | Some val => match Atoi val with None => 0 | Some n => n end
  end.

Definition SetBindFailureCount (p : Pod) (count : Z) : option Pod :=
  anno_set BindFailureCountAnnotationKey (Itoa count) (anno_init p).

Definition IncrementBindFailureCount (p : Pod) : option Pod :=
  SetBindFailureCount p (wrap64 (GetBindFailureCount p + 1)).

Definition ShouldDispatchToAnotherScheduler (p : Pod) (maxRetries : Z) : bool :=
  if (maxRetries <=? 0)%Z then false else (maxRetries <=? GetBindFailureCount p)%Z.

Definition SetLastBindFailureReason (p : Pod) (reason : string) : option Pod :=
  anno_set LastBindFailureReasonKey reason (anno_init p).

Definition GetLastBindFailureReason (p : Pod) : string := anno p LastBindFailureReasonKey.

Definition cleanupSchedulingAnnotations (p : Pod) : Pod :=
  anno_deletes [AssumedNodeAnnotationKey; AssumedCrossNodeAnnotationKey; NominatedNodeAnnotationKey;
                FailedSchedulersAnnotationKey; MicroTopologyKey; MovementNameKey;
                MatchedReservationPlaceholderKey] p.

Definition CleanupPodAnnotations (p : Pod) : option Pod :=
  anno_set PodStateAnnotationKey PodDispatched (cleanupSchedulingAnnotations (anno_init p)).

Definition CleanupPodAnnotationsWithRetryCount (p : Pod) (schedulerName : string)
    (maxLocalRetries : Z) : option Pod :=
  let c := cleanupSchedulingAnnotations (anno_init p) in
  if ShouldDispatchToAnotherScheduler c maxLocalRetries then
    let failed := anno c FailedSchedulersAnnotationKey in
    let failed := if failed ≟ "" then schedulerName else failed ++ "," ++ schedulerName in
    c ← anno_set FailedSchedulersAnnotationKey failed c;
    c ← anno_set PodStateAnnotationKey PodPending c;
    Some (anno_delete SchedulerAnnotationKey c)
  else anno_set PodStateAnnotationKey PodDispatched c.

Definition cleanupPod (schedulerName : string) (maxLocalRetries : Z) (p : Pod) : option Pod :=
  if (0 <? maxLocalRetries)%Z && negb (schedulerName ≟ "")
  then CleanupPodAnnotationsWithRetryCount p schedulerName maxLocalRetries
  else CleanupPodAnnotations p.

(** ** Reading annotations back *)

Lemma anno_set_anno k v p p' j :
  anno_set k v p = Some p' → anno p' j = if k ≟ j then v else anno p j.
Proof.
  intros H. unfold anno. rw (anno_set_lookup _ _ _ _ j H). case_decide; case_bool_decide; done.
Qed.

Lemma anno_deletes_anno ks p j :
  anno (anno_deletes ks p) j = if bool_decide (j ∈ ks) then "" else anno p j.
Proof.
  unfold anno. rw anno_deletes_lookup. case_decide; case_bool_decide; done.
Qed.

Lemma anno_delete_anno k p j : anno (anno_delete k p) j = if k ≟ j then "" else anno p j.
Proof. unfold anno. rw anno_delete_lookup. case_decide; case_bool_decide; done. Qed.

(** What the state predicates look at. *)
Record view := {
  v_has : bool; v_state : string; v_sched : string; v_assumed : string; v_nominated : string;
  v_node : string
}.

Definition view_of (p : Pod) : view :=
  {| v_has := has_annotations p; v_state := anno p PodStateAnnotationKey;
     v_sched := anno p SchedulerAnnotationKey; v_assumed := anno p AssumedNodeAnnotationKey;
     v_nominated := anno p NominatedNodeAnnotationKey; v_node := NodeName p |}.

Definition set_state (s : string) (v : view) : view :=
  {| v_has := v_has v; v_state := s; v_sched := v_sched v; v_assumed := v_assumed v;
     v_nominated := v_nominated v; v_node := v_node v |}.
Definition set_sched (s : string) (v : view) : view :=
  {| v_has := v_has v; v_state := v_state v; v_sched := s; v_assumed := v_assumed v;
     v_nominated := v_nominated v; v_node := v_node v |}.
Definition set_assumed (s : string) (v : view) : view :=
  {| v_has := v_has v; v_state := v_state v; v_sched := v_sched v; v_assumed := s;
     v_nominated := v_nominated v; v_node := v_node v |}.
Definition set_nominated (s : string) (v : view) : view :=
  {| v_has := v_has v; v_state := v_state v; v_sched := v_sched v; v_assumed := v_assumed v;
     v_nominated := s; v_node := v_node v |}.
Definition set_has (v : view) : view :=
  {| v_has := true; v_state := v_state v; v_sched := v_sched v; v_assumed := v_assumed v;
     v_nominated := v_nominated v; v_node := v_node v |}.

Definition upd_view (k s : string) (v : view) : view :=
  if k ≟ PodStateAnnotationKey then set_state s v
  else if k ≟ SchedulerAnnotationKey then set_sched s v
  else if k ≟ AssumedNodeAnnotationKey then set_assumed s v
  else if k ≟ NominatedNodeAnnotationKey then set_nominated s v
  else v.

Lemma upd_view_spec k s v :
  upd_view k s v =
  {| v_has := v_has v;
     v_state := if k ≟ PodStateAnnotationKey then s else v_state v;
     v_sched := if k ≟ SchedulerAnnotationKey then s else v_sched v;
     v_assumed := if k ≟ AssumedNodeAnnotationKey then s else v_assumed v;
     v_nominated := if k ≟ NominatedNodeAnnotationKey then s else v_nominated v;
     v_node := v_node v |}.
Proof.
  unfold upd_view. destruct v. do 4 (case_bool_decide; subst; [done|]). done.
Qed.

Lemma view_set k s p p' :
  anno_set k s p = Some p' → view_of p' = upd_view k s (view_of p) ∧ has_annotations p = true.
Proof.
  intros H. rw upd_view_spec. unfold view_of at 1. rw !(anno_set_anno _ _ _ _ _ H).
  unfold anno_set, has_annotations in *. destruct (Annotations p) eqn:E; [|done].
  simpl in H. injection H as <-. unfold view_of, has_annotations; simpl. by rw E.
Qed.

Lemma view_delete k p : view_of (anno_delete k p) = upd_view k "" (view_of p).
Proof.
  rw upd_view_spec. unfold view_of at 1. rw !anno_delete_anno.
  unfold has_annotations, anno_delete, view_of; simpl. unfold has_annotations.
  by destruct (Annotations p).
Qed.

Lemma view_deletes ks p :
  view_of (anno_deletes ks p) = foldl (λ v k, upd_view k "" v) (view_of p) ks.
Proof.
  unfold anno_deletes. revert p. induction ks as [|k ks IH]; intros p; [done|]. simpl.
  by rw IH view_delete.
Qed.

Lemma view_init p : view_of (anno_init p) = set_has (view_of p).
Proof. unfold view_of at 1. by rw !anno_init_anno. Qed.

Lemma set_total k s p : has_annotations p = true → ∃ p', anno_set k s p = Some p'.
Proof. unfold has_annotations. intros H. apply anno_set_ok. by destruct (Annotations p). Qed.

(** Setting an annotation on a pod that has a map, as a view. *)
Lemma set_bind {A} k s p (f : Pod → option A) :
  has_annotations p = true →
  ∃ p', anno_set k s p ≫= f = f p' ∧ anno_set k s p = Some p'
    ∧ view_of p' = upd_view k s (view_of p) ∧ has_annotations p' = true.
Proof.
  intros H. destruct (set_total k s p H) as [p' Hp']. exists p'. rw Hp' /=.
  apply view_set in Hp' as [Hv _]. split_and!; [done..|].
  change (v_has (view_of p') = true). rw Hv upd_view_spec. done.
Qed.

(** The four states as predicates on views. *)
Definition is_pending (v : view) : bool :=
  v_has v && ((v_state v ≟ PodPending) || (v_state v ≟ "")) && (v_sched v ≟ "")
  && (v_assumed v ≟ "") && (v_nominated v ≟ "") && (v_node v ≟ "").
Definition is_dispatched (v : view) : bool :=
  v_has v && (v_state v ≟ PodDispatched) && negb (v_sched v ≟ "")
  && (v_assumed v ≟ "") && (v_nominated v ≟ "") && (v_node v ≟ "").
Definition is_assumed (v : view) : bool :=
  v_has v && (v_state v ≟ PodAssumed) && negb (v_sched v ≟ "")
  && negb (Bool.eqb (v_assumed v ≟ "") (v_nominated v ≟ "")) && (v_node v ≟ "").

Lemma PendingPod_view p : PendingPod p = is_pending (view_of p).
Proof. done. Qed.
Lemma DispatchedPod_view p : DispatchedPod p = is_dispatched (view_of p).
Proof. done. Qed.
Lemma AssumedPod_view p : AssumedPod p = is_assumed (view_of p).
Proof.
  unfold AssumedPod, is_assumed, assumedOrNominatedNodeIsSet; simpl.
  destruct (has_annotations p); [|done]. simpl.
  by destruct (anno p AssumedNodeAnnotationKey ≟ ""), (anno p NominatedNodeAnnotationKey ≟ "").
Qed.

(** Evaluates comparisons of literal strings. *)
Ltac eval_keys :=
  repeat match goal with
  | |- context [bool_decide ?P] =>
      let b := eval vm_compute in (bool_decide P) in
      lazymatch b with
      | true => change (bool_decide P) with true
      | false => change (bool_decide P) with false
      end
  end; cbv match; cbn [andb orb negb].

Ltac view_simpl :=
  unfold upd_view; eval_keys;
  cbv [set_state set_sched set_assumed set_nominated set_has v_has v_state v_sched v_assumed
       v_nominated v_node].

(** ** What each writer does to the scheduling state *)

Lemma send_spec ts sp p s :
  ∃ p', sendPodToScheduler ts sp p s = Some p'
    ∧ view_of p' = set_state PodDispatched (set_sched s (set_has (view_of p))).
Proof.
  unfold sendPodToScheduler.
  edestruct (set_bind (A:=Pod) SchedulerAnnotationKey s (anno_init p)) as (c1 & -> & _ & V1 & H1); [done|].
  edestruct (set_bind (A:=Pod) PodStateAnnotationKey PodDispatched c1) as (c2 & -> & _ & V2 & H2); [done|].
  assert (Hmid : ∃ c3, match anno_lookup c2 InitialHandledTimestampAnnotationKey with
      | None => anno_set InitialHandledTimestampAnnotationKey ts c2 | Some _ => Some c2 end = Some c3
      ∧ view_of c3 = view_of c2 ∧ has_annotations c3 = true).
  { case_match; [by exists c2|].
    destruct (set_total InitialHandledTimestampAnnotationKey ts c2 H2) as [c3 E3].
    exists c3. apply view_set in E3 as V3. destruct V3 as [V3 _]. split; [done|].
    assert (V : view_of c3 = view_of c2) by (rw V3; by view_simpl). split; [done|].
    change (v_has (view_of c3) = true). by rw V. }
  destruct Hmid as (c3 & -> & V3 & H3). cbn [mbind option_bind].
  case_match.
  - destruct (set_total TraceContext sp c3 H3) as [c4 E4]. exists c4. split; [done|].
    apply view_set in E4 as [V4 _]. rw V4 V3 V2 V1 view_init. by view_simpl.
  - exists c3. split; [done|]. rw V3 V2 V1 view_init. by view_simpl.
Qed.

Lemma reset_spec p :
  ∃ p', resetPodToPendingState p = Some p'
    ∧ view_of p' = {| v_has := true; v_state := PodPending; v_sched := ""; v_assumed := "";
                      v_nominated := ""; v_node := NodeName p |}.
Proof.
  unfold resetPodToPendingState.
  edestruct (set_bind (A:=Pod) PodStateAnnotationKey PodPending (anno_init p)) as (c1 & -> & _ & V1 & H1); [done|].
  eexists. split; [done|]. rw view_deletes V1 view_init. cbn [foldl]. by view_simpl.
Qed.

Lemma clone_spec ts sp p :
  ∃ p', getAndInitClonedPod ts sp p = Some p' ∧ view_of p' = set_has (view_of p).
Proof.
  unfold getAndInitClonedPod.
  assert (Hmid : ∃ c, (if anno (anno_init p) TraceContext ≟ ""
      then anno_set TraceContext sp (anno_init p) else Some (anno_init p)) = Some c
      ∧ view_of c = set_has (view_of p)).
  { case_match; [|exists (anno_init p); by rw view_init].
    destruct (set_total TraceContext sp (anno_init p) eq_refl) as [c E]. exists c.
    apply view_set in E as V. destruct V as [V _]. rw V view_init. split; [done|]. by view_simpl. }
  destruct Hmid as (c & -> & V). cbn [mbind option_bind]. case_match; [by exists c|].
  assert (H1 : has_annotations c = true) by (change (v_has (view_of c) = true); by rw V).
  destruct (set_total InitialHandledTimestampAnnotationKey ts c H1) as [c' E]. exists c'.
  apply view_set in E as V'. destruct V' as [V' _]. rw V' V. split; [done|]. by view_simpl.
Qed.

Lemma reserve_spec marshal assume p r p' node :
  (∀ n s, marshal n = Some s → s ≠ "") →
  ReservePod marshal assume p r = Some (p', node, true) → node ≠ "" →
  v_assumed (view_of p) = "" → v_nominated (view_of p) = "" →
  ∃ a n, view_of p' = set_nominated n (set_assumed a (set_state PodAssumed (view_of p)))
    ∧ (a ≟ "") = negb (n ≟ "").
Proof.
  intros Hm. unfold ReservePod. intros H Hnode Ha Hn.
  destruct (anno_set PodStateAnnotationKey PodAssumed p) as [c|] eqn:E; [|done].
  cbn [mbind option_bind] in H. apply view_set in E as [V _].
  assert (Hassume : ∀ s c', s ≠ "" → anno_set AssumedNodeAnnotationKey s c = Some c' →
    ∃ a n, view_of c' = set_nominated n (set_assumed a (set_state PodAssumed (view_of p)))
      ∧ (a ≟ "") = negb (n ≟ "")).
  { intros s c' Hs [V' _]%view_set. exists s, "". rw V' V. destruct (view_of p); simpl in Ha, Hn; subst.
    view_simpl. rw bool_decide_false; [|done]. done. }
  case_bool_decide as Hh; cbn [negb] in H.
  - destruct (sr_NominatedNode r) as [n|]; [|simplify_eq].
    destruct (nn_VictimPods n).
    + destruct (anno_set AssumedNodeAnnotationKey (nn_NodeName n) c) as [c'|] eqn:E'; [|done].
      cbn [mbind option_bind] in H. simplify_eq. by eapply Hassume.
    + unfold SetPodNominatedNode in H. destruct (marshal n) as [d|] eqn:Ed; [|done].
      destruct (anno_set NominatedNodeAnnotationKey d c) as [c'|] eqn:E'; [|done].
      cbn [fmap option_fmap option_map] in H. simplify_eq.
      apply view_set in E' as [V' _]. exists "", d. rw V' V. destruct (view_of p); simpl in Ha, Hn; subst.
      view_simpl. pose proof (Hm _ _ Ed). by rw (bool_decide_false (d = "")).
  - destruct (anno_set AssumedNodeAnnotationKey (SuggestedHost r) c) as [c'|] eqn:E'; [|done].
    cbn [mbind option_bind] in H. simplify_eq. by eapply Hassume.
Qed.

Lemma failed_spec s p re :
  has_annotations p = true →
  ∃ p', updateFailedSchedulingPod s p re = Some p'
    ∧ view_of p' = if re then view_of p else set_sched "" (set_state PodPending (view_of p)).
Proof.
  intros Hp. unfold updateFailedSchedulingPod.
  assert (Hmid : ∃ c, (if negb re then
         c ← (if bool_decide (s ∈ GetFailedSchedulersNames p) then Some p
              else anno_set FailedSchedulersAnnotationKey
                     (Join comma (sorted_names ({[s]} ∪ GetFailedSchedulersNames p))) p);
         c ← anno_set PodStateAnnotationKey PodPending c;
         Some (anno_delete SchedulerAnnotationKey c)
       else Some p) = Some c
     ∧ view_of c = (if re then view_of p else set_sched "" (set_state PodPending (view_of p)))).
  { destruct re; cbn [negb]; [by exists p|].
    assert (Hin : ∃ c, (if bool_decide (s ∈ GetFailedSchedulersNames p) then Some p
              else anno_set FailedSchedulersAnnotationKey
                     (Join comma (sorted_names ({[s]} ∪ GetFailedSchedulersNames p))) p) = Some c
              ∧ view_of c = view_of p).
    { case_bool_decide; [by exists p|].
      destruct (set_total FailedSchedulersAnnotationKey
        (Join comma (sorted_names ({[s]} ∪ GetFailedSchedulersNames p))) p Hp) as [c E].
      exists c. apply view_set in E as V. destruct V as [V _]. rw V. split; [done|]. by view_simpl. }
    destruct Hin as (c & -> & V). cbn [mbind option_bind].
    assert (Hc : has_annotations c = true) by (change (v_has (view_of c) = true); by rw V).
    edestruct (set_bind (A:=Pod) PodStateAnnotationKey PodPending c) as (c1 & -> & _ & V1 & _); [done|].
    eexists. split; [done|]. rw view_delete V1 V. by view_simpl. }
  destruct Hmid as (c & -> & V). cbn [mbind option_bind].
  set (d := if GetPodDebugMode p ≟ "on" then _ else _).
  assert (Vd : view_of d = view_of c).
  { unfold d. destruct (GetPodDebugMode p ≟ "on"); rw !view_delete; by view_simpl. }
  assert (Hd : has_annotations d = true).
  { change (v_has (view_of d) = true). rw Vd V. by destruct re. }
  destruct (set_total E2EExcludedPodAnnotationKey "true" d Hd) as [p' E]. exists p'.
  split; [done|]. apply view_set in E as [V' _]. rw V' Vd V. by view_simpl.
Qed.

Lemma cleanup_view p :
  view_of (cleanupSchedulingAnnotations (anno_init p)) =
  set_nominated "" (set_assumed "" (set_has (view_of p))).
Proof. unfold cleanupSchedulingAnnotations. by rw view_deletes view_init. Qed.

Lemma cleanup_count p :
  GetBindFailureCount (cleanupSchedulingAnnotations (anno_init p)) = GetBindFailureCount p.
Proof.
  unfold GetBindFailureCount, cleanupSchedulingAnnotations. rw anno_deletes_lookup.
  destruct (decide _) as [Hin|]; [|by rw anno_init_lookup].
  pose proof (bool_decide_eq_true_2 _ Hin) as Hb. vm_compute in Hb. discriminate.
Qed.

Lemma cleanupPod_spec name maxr p :
  ∃ p', cleanupPod name maxr p = Some p'
    ∧ view_of p' =
        (if (0 <? maxr)%Z && negb (name ≟ "") && (maxr <=? GetBindFailureCount p)%Z
         then set_sched "" (set_state PodPending (set_nominated "" (set_assumed "" (set_has (view_of p)))))
         else set_state PodDispatched (set_nominated "" (set_assumed "" (set_has (view_of p))))).
Proof.
  unfold cleanupPod, CleanupPodAnnotationsWithRetryCount, CleanupPodAnnotations.
  set (c := cleanupSchedulingAnnotations (anno_init p)).
  assert (Vc : view_of c = set_nominated "" (set_assumed "" (set_has (view_of p)))) by apply cleanup_view.
  assert (Hc : has_annotations c = true) by (change (v_has (view_of c) = true); by rw Vc).
  assert (Hcount : GetBindFailureCount c = GetBindFailureCount p) by apply cleanup_count.
  assert (Hdisp : ∃ p', anno_set PodStateAnnotationKey PodDispatched c = Some p'
    ∧ view_of p' = set_state PodDispatched (set_nominated "" (set_assumed "" (set_has (view_of p))))).
  { destruct (set_total PodStateAnnotationKey PodDispatched c Hc) as [p' E]. exists p'.
    apply view_set in E as V. destruct V as [V _]. rw V Vc. split; [done|]. by view_simpl. }
  destruct (Z.ltb_spec 0 maxr); cbn [andb]; [|done].
  destruct (name ≟ ""); cbn [andb negb]; [done|].
  unfold ShouldDispatchToAnotherScheduler. rw Hcount.
  destruct (Z.leb_spec maxr 0); [lia|].
  destruct (Z.leb_spec maxr (GetBindFailureCount p)); [|done]. clear Hdisp.
  edestruct (set_bind (A:=Pod) FailedSchedulersAnnotationKey) as (c1 & -> & _ & V1 & Hh1); [done|].
  edestruct (set_bind (A:=Pod) PodStateAnnotationKey PodPending c1) as (c2 & -> & _ & V2 & Hh2); [done|].
  change (view_of c1 = view_of c) in V1.
  eexists. split; [done|]. rw view_delete V2 V1 Vc. clear. by view_simpl.
Qed.

(** ** The life of a pod *)

Inductive PodKind := KPending | KDispatched | KAssumed | KBound | KAbnormal.
#[export] Instance PodKind_eq_dec : EqDecision PodKind.
Proof. solve_decision. Defined.

Definition kind (p : Pod) : PodKind :=
  if BoundPod p then KBound
  else if PendingPod p then KPending
  else if DispatchedPod p then KDispatched
  else if AssumedPod p then KAssumed
  else KAbnormal.

Section lifecycle.
(** The scheduler name the components are configured with, the JSON encoder of
    nominated nodes and the scheduler maintainer. *)
Context (godel : string) (marshal : NominatedNode → option string)
  (inactive exists_ : string → bool).

(** What a component makes of the pod it read, and sends as a patch. *)
Inductive patch_step : Pod → Pod → Prop :=
  | step_dispatch ts sp s p p' :
      PendingPodOfGodel p godel = true → s ≠ "" →
      sendPodToScheduler ts sp p s = Some p' → patch_step p p'
  | step_assume ts sp assume r c node p p' :
      DispatchedPodOfGodel p godel = true →
      getAndInitClonedPod ts sp p = Some c →
      ReservePod marshal assume c r = Some (p', node, true) → node ≠ "" → patch_step p p'
  | step_unschedulable s re p p' :
      DispatchedPodOfGodel p godel = true →
      updateFailedSchedulingPod s p re = Some p' → patch_step p p'
  | step_bind_failure reason p c p' :
      AssumedPodOfGodel p godel = true →
      IncrementBindFailureCount p = Some c → SetLastBindFailureReason c reason = Some p' → patch_step p p'
  | step_reject name maxr p p' :
      AssumedPodOfGodel p godel = true → cleanupPod name maxr p = Some p' → patch_step p p'.
(** One write to the pod, by a component that sees the pod as it is in its own
    informer filter. *)
Inductive step : Pod → Pod → Prop :=
  | step_patch p p' : patch_step p p' → step p p'
  | step_bind node p :
      AssumedPodOfGodel p godel = true → node ≠ "" → step p (set_NodeName node p)
  | step_reset p p' :
      updateAbnormalStatePod p godel = Some (Some p') → step p p'
  | step_stale p p' :
      updateStaleDispatchedStatePod inactive exists_ p godel = Some (Some p') → step p p'.

(** The documented diagram of pod states. *)
Definition edge (k k' : PodKind) : Prop :=
  match k, k' with
  | KPending, KDispatched
  | KDispatched, (KAssumed | KPending | KDispatched)
  | KAssumed, (KBound | KDispatched | KPending | KAssumed)
  | KAbnormal, KPending => True
  | _, _ => False
  end.
End lifecycle.

Definition kind_view (v : view) : PodKind :=
  if negb (v_node v ≟ "") then KBound
  else if is_pending v then KPending
  else if is_dispatched v then KDispatched
  else if is_assumed v then KAssumed
  else KAbnormal.

Lemma kind_of_view p : kind p = kind_view (view_of p).
Proof. unfold kind, kind_view. by rw AssumedPod_view. Qed.

Ltac split_view v :=
  let has := fresh "has" in let st := fresh "st" in let sc := fresh "sc" in
  let asm := fresh "asm" in let nom := fresh "nom" in let nd := fresh "nd" in
  destruct v as [has st sc asm nom nd];
  unfold is_pending, is_dispatched, is_assumed in *; simpl in *;
  repeat match goal with
  | H : _ && _ = true |- _ => apply andb_prop in H as [? ?]
  | H : _ || _ = true |- _ => apply orb_prop in H
  | H : negb _ = true |- _ => apply negb_true_iff in H
  | H : bool_decide _ = true |- _ => apply bool_decide_eq_true in H
  | H : bool_decide _ = false |- _ => apply bool_decide_eq_false in H
  end; subst; simpl in *.

Lemma kind_pending v : is_pending v = true → kind_view v = KPending.
Proof. intros H. unfold kind_view. rw H. by split_view v. Qed.

Lemma kind_dispatched v : is_dispatched v = true → kind_view v = KDispatched.
Proof.
  intros H. unfold kind_view. rw H. by split_view v.
Qed.

Lemma kind_assumed v : is_assumed v = true → kind_view v = KAssumed.
Proof. intros H. unfold kind_view. rw H. by split_view v. Qed.

Lemma OfGodel_true f p g :
  OfGodel f p g = true ↔
  LegalPodResourceTypeAndLauncher p = true ∧ responsibleForPod p g = true ∧ f p = true.
Proof. unfold OfGodel. rw !andb_true_iff. tauto. Qed.

Lemma state_count p :
  length (filter (.= true)
    [PendingPod p; DispatchedPod p; AssumedPod p; BoundPod p; AbnormalPodState p]) = 1%nat.
Proof.
  unfold AbnormalPodState. rw AssumedPod_view PendingPod_view DispatchedPod_view.
  change (BoundPod p) with (negb (v_node (view_of p) ≟ "")).
  change (anno p PodStateAnnotationKey) with (v_state (view_of p)).
  destruct (view_of p) as [has st sc asm nom nd].
  unfold is_pending, is_dispatched, is_assumed; simpl.
  destruct has, (nd ≟ ""); simpl; rw ?andb_false_r; simpl; try done.
  - destruct (decide (st = "")) as [->|N1]; [eval_keys|];
      [by destruct (sc ≟ ""), (asm ≟ ""), (nom ≟ "")|].
    destruct (decide (st = PodPending)) as [->|N2]; [eval_keys|];
      [by destruct (sc ≟ ""), (asm ≟ ""), (nom ≟ "")|].
    destruct (decide (st = PodDispatched)) as [->|N3]; [eval_keys|];
      [by destruct (sc ≟ ""), (asm ≟ ""), (nom ≟ "")|].
    destruct (decide (st = PodAssumed)) as [->|N4]; [eval_keys|];
      [by destruct (sc ≟ ""), (asm ≟ ""), (nom ≟ "")|].
    by rw (bool_decide_false _ N1) (bool_decide_false _ N2) (bool_decide_false _ N3)
      (bool_decide_false _ N4).
  - by destruct (st ≟ ""), (st ≟ PodPending), (st ≟ PodDispatched), (st ≟ PodAssumed).
Qed.

Lemma abnormal_kind p : AbnormalPodState p = bool_decide (kind p = KAbnormal).
Proof.
  pose proof (state_count p) as Hc. unfold kind.
  by destruct (BoundPod p), (PendingPod p), (DispatchedPod p), (AssumedPod p), (AbnormalPodState p).
Qed.

Lemma step_refines (godel : string) marshal inactive exists_ p p' :
  (∀ n s, marshal n = Some s → s ≠ "") →
  step godel marshal inactive exists_ p p' → edge (kind p) (kind p').
Proof.
  intros Hm Hs. rw !kind_of_view.
  destruct Hs as [? ? [ts sp s p p' Hp Hne Hw|ts sp assume r c node p p' Hp Hc Hw Hne|s re p p' Hp Hw
    |reason p c p' Hp Hc Hw|name maxr p p' Hp Hw]|node p Hp Hne|p p' Hw|p p' Hw].
  - apply OfGodel_true in Hp as (_ & _ & Hp). rw PendingPod_view in Hp.
    destruct (send_spec ts sp p s) as (q & Hq & V). simplify_eq. rw V (kind_pending _ Hp).
    rw kind_dispatched; [done|]. split_view (view_of p). eval_keys. by rw bool_decide_false.
  - apply OfGodel_true in Hp as (_ & _ & Hp). rw DispatchedPod_view in Hp.
    destruct (clone_spec ts sp p) as (q & Hq & V). simplify_eq.
    assert (Ha : v_assumed (view_of c) = "" ∧ v_nominated (view_of c) = "").
    { rw V. by split_view (view_of p). }
    destruct Ha as [Ha Hn].
    destruct (reserve_spec _ _ _ _ _ _ Hm Hw Hne Ha Hn) as (a & n & V' & Hx).
    rw V' V (kind_dispatched _ Hp). rw kind_assumed; [done|].
    split_view (view_of p). eval_keys. rw Hx. destruct (n ≟ ""); by rw bool_decide_false.
  - apply OfGodel_true in Hp as (_ & _ & Hp). rw DispatchedPod_view in Hp.
    destruct (failed_spec s p re) as (q & Hq & V).
    { change (v_has (view_of p) = true). by split_view (view_of p). }
    simplify_eq. rw V (kind_dispatched _ Hp). destruct re; [by rw kind_dispatched|].
    rw kind_pending; [done|]. split_view (view_of p). by eval_keys.
  - apply OfGodel_true in Hp as (_ & _ & Hp). rw AssumedPod_view in Hp. rw (kind_assumed _ Hp).
    unfold IncrementBindFailureCount, SetBindFailureCount, SetLastBindFailureReason in *.
    apply view_set in Hc as [V _]. apply view_set in Hw as [V' _]. rw V' view_init V view_init.
    rw kind_assumed; [done|]. change (is_assumed (set_has (view_of p)) = true).
    by destruct (view_of p) as [[] ?????].
  - apply OfGodel_true in Hp as (_ & _ & Hp). rw AssumedPod_view in Hp.
    destruct (cleanupPod_spec name maxr p) as (q & Hq & V). simplify_eq.
    rw V (kind_assumed _ Hp). destruct (_ && _ && _).
    + rw kind_pending; [done|]. split_view (view_of p). by eval_keys.
    + rw kind_dispatched; [done|]. split_view (view_of p). eval_keys. by rw bool_decide_false.
  - apply OfGodel_true in Hp as (_ & _ & Hp). rw AssumedPod_view in Hp. rw (kind_assumed _ Hp).
    unfold kind_view at 1. simpl. by rw bool_decide_false.
  - unfold updateAbnormalStatePod in Hw. case_match eqn:Ha; [|done]. destruct (reset_spec p) as (q & Hq & V).
    assert (p' = q) as -> by congruence.
    apply andb_prop in Ha as [Ha _].
    assert (Hk : kind_view (view_of p) = KAbnormal).
    { rw -kind_of_view. rw abnormal_kind in Ha. by case_bool_decide. }
    rw Hk V. rw kind_pending; [done|]. unfold is_pending. simpl. eval_keys.
    unfold AbnormalPodState, BoundPod in Ha. by destruct (NodeName p ≟ "").
  - unfold updateStaleDispatchedStatePod in Hw. case_match eqn:Hp; [|done].
    apply OfGodel_true in Hp as (_ & _ & Hp). rw DispatchedPod_view in Hp.
    case_match; [|done]. destruct (reset_spec p) as (q & Hq & V).
    assert (p' = q) as -> by congruence.
    rw V (kind_dispatched _ Hp). rw kind_pending; [done|]. unfold is_pending. simpl. eval_keys.
    change (NodeName p) with (v_node (view_of p)). by split_view (view_of p).
Qed.

(** Every pod is in exactly one of the five situations pending,
    dispatched, assumed, bound and abnormal: the four predicates of the code are
    pairwise exclusive, [AbnormalPodState] holds exactly when none of them does,
    and a dispatched pod belongs either to a given scheduler or to another. *)
Theorem pod_state_partition (p : Pod) (schedulerID : string) :
  let l := [PendingPod p; DispatchedPod p; AssumedPod p; BoundPod p; AbnormalPodState p] in
  length (filter (.= true) l) = 1%nat
  ∧ DispatchedPod p =
      xorb (DispatchedPodOfThisScheduler p schedulerID) (DispatchedPodOfOtherScheduler p schedulerID).
Proof.
  split.
  - apply state_count.
  - unfold DispatchedPodOfThisScheduler, DispatchedPodOfOtherScheduler.
    rw DispatchedPod_view. unfold is_dispatched.
    change (v_has (view_of p)) with (has_annotations p).
    destruct (has_annotations p); [|done]. simpl.
    by destruct (anno p SchedulerAnnotationKey ≟ schedulerID); simpl; rw ?xorb_false_r.
Qed.

(** The pods of the witnesses: nobody has annotated them yet. *)
Definition fresh_pod : Pod := set_Annotations None example_pod.
Definition dispatched_pod : Pod :=
  set_Annotations (Some {[PodStateAnnotationKey := PodDispatched; SchedulerAnnotationKey := "s1"]})
    example_pod.
Definition assumed_pod : Pod :=
  set_Annotations (Some {[PodStateAnnotationKey := PodAssumed; SchedulerAnnotationKey := "s1";
    AssumedNodeAnnotationKey := "n1"; FailedSchedulersAnnotationKey := "s2,s3";
    BindFailureCountAnnotationKey := "3"]}) example_pod.

(** ** Reachability of the bound state *)

(** The annotations that decide who may handle the pod are never written. *)
Definition identity_keys : list string :=
  [QoSLevelKey; PodResourceTypeAnnotationKey; PodLauncherAnnotationKey].

Definition same_identity (p q : Pod) : Prop :=
  SchedulerName p = SchedulerName q
  ∧ ∀ k, k ∈ identity_keys → anno_lookup p k = anno_lookup q k.

Lemma same_identity_godel p q f g :
  same_identity p q → OfGodel f q g = LegalPodResourceTypeAndLauncher p && responsibleForPod p g && f q.
Proof.
  intros [Hs Hk]. unfold OfGodel, responsibleForPod, LegalPodResourceTypeAndLauncher, GetPodLauncher,
    GetPodResourceType, resourceTypeOfAnnotation. rw Hs. by rw !Hk; [|unfold identity_keys; set_solver..].
Qed.

Lemma same_identity_trans p q r : same_identity p q → same_identity q r → same_identity p r.
Proof. intros [? H1] [? H2]. split; [congruence|]. intros k Hk. by rw H1 ?H2. Qed.

Lemma same_identity_set k v p p' :
  anno_set k v p = Some p' → bool_decide (k ∈ identity_keys) = false → same_identity p p'.
Proof.
  intros H Hk%bool_decide_eq_false. split.
  - unfold anno_set in H. destruct (Annotations p); [|done]. simpl in H. by simplify_eq.
  - intros j Hj. rw (anno_set_ne _ _ _ _ j _ H); [done|]. by intros ->.
Qed.

Lemma same_identity_init p : same_identity p (anno_init p).
Proof. split; [done|]. intros. by rw anno_init_lookup. Qed.

Lemma same_identity_deletes ks p :
  bool_decide (Forall (λ k, k ∉ identity_keys) ks) = true → same_identity p (anno_deletes ks p).
Proof.
  intros Hk%bool_decide_eq_true. rw Forall_forall in Hk. split.
  - unfold anno_deletes. clear Hk. revert p. induction ks as [|k ks IH]; intros p; [done|].
    simpl. by rw -IH.
  - intros j Hj. rw anno_deletes_lookup. case_decide; [|done]. by destruct (Hk j).
Qed.

Lemma send_identity ts sp p s p' : sendPodToScheduler ts sp p s = Some p' → same_identity p p'.
Proof.
  unfold sendPodToScheduler. intros H.
  apply bind_Some in H as (c1 & E1 & H). apply bind_Some in H as (c2 & E2 & H).
  apply bind_Some in H as (c3 & E3 & H).
  assert (same_identity p c2).
  { eapply same_identity_trans; [apply same_identity_init|].
    by apply (same_identity_trans _ c1); eapply same_identity_set. }
  assert (same_identity c2 c3).
  { destruct (anno_lookup c2 InitialHandledTimestampAnnotationKey); [by simplify_eq|].
    by eapply same_identity_set. }
  assert (same_identity c3 p').
  { destruct (anno c3 TraceContext ≟ ""); [by eapply same_identity_set|by simplify_eq]. }
  by repeat (eapply same_identity_trans; [done|]).
Qed.

Lemma reset_identity p p' : resetPodToPendingState p = Some p' → same_identity p p'.
Proof.
  unfold resetPodToPendingState. intros H. apply bind_Some in H as (c & E & H).
  assert (p' = anno_deletes [SchedulerAnnotationKey; AssumedNodeAnnotationKey;
    NominatedNodeAnnotationKey] c) as -> by congruence.
  eapply same_identity_trans; [apply same_identity_init|].
  eapply same_identity_trans; [by eapply same_identity_set|by apply same_identity_deletes].
Qed.

Lemma clone_identity ts sp p p' : getAndInitClonedPod ts sp p = Some p' → same_identity p p'.
Proof.
  unfold getAndInitClonedPod. intros H. apply bind_Some in H as (c & E & H).
  assert (same_identity p c).
  { eapply same_identity_trans; [apply same_identity_init|].
    destruct (anno (anno_init p) TraceContext ≟ ""); [by eapply same_identity_set|by simplify_eq]. }
  destruct (anno_lookup c InitialHandledTimestampAnnotationKey); [by simplify_eq|].
  eapply same_identity_trans; [done|]. by eapply same_identity_set.
Qed.

Lemma clone_keeps ts sp p p' k :
  getAndInitClonedPod ts sp p = Some p' →
  k ≠ TraceContext → k ≠ InitialHandledTimestampAnnotationKey →
  anno_lookup p k = anno_lookup p' k.
Proof.
  unfold getAndInitClonedPod. intros H Hk1 Hk2. apply bind_Some in H as (c & E & H).
  transitivity (anno_lookup c k).
  - destruct (anno (anno_init p) TraceContext ≟ ""); [|simplify_eq; by rw anno_init_lookup].
    rw (anno_set_ne _ _ _ _ k _ E); [by rw anno_init_lookup|done].
  - destruct (anno_lookup c InitialHandledTimestampAnnotationKey); [by simplify_eq|].
    by rw (anno_set_ne _ _ _ _ k _ H).
Qed.

Section reach_bound.
Context (godel : string) (marshal : NominatedNode → option string)
  (inactive exists_ : string → bool).
Let godel_step := step godel marshal inactive exists_.
Let handled (p : Pod) : Prop :=
  LegalPodResourceTypeAndLauncher p && responsibleForPod p godel = true.
Let can_bind (p : Pod) : Prop := ∃ p', rtc godel_step p p' ∧ BoundPod p' = true.

Lemma can_bind_assumed p : handled p → AssumedPod p = true → can_bind p.
Proof.
  intros Hh Ha. exists (set_NodeName "n" p). split; [|done]. apply rtc_once, step_bind; [|done].
  unfold AssumedPodOfGodel, OfGodel. by rw Ha andb_true_r.
Qed.

Lemma can_bind_step p q : godel_step p q → can_bind q → can_bind p.
Proof. intros H (r & Hr & Hb). exists r. split; [by eapply rtc_l|done]. Qed.

Lemma handled_same p q : same_identity p q → handled p → handled q.
Proof.
  intros Hs Hh. pose proof (same_identity_godel p q (λ _, true) godel Hs) as H.
  unfold OfGodel in H. unfold handled in *. rw Hh !andb_true_r in H. done.
Qed.

Lemma can_bind_dispatched p : handled p → DispatchedPod p = true → can_bind p.
Proof.
  intros Hh Hd. destruct (clone_spec "" "" p) as (c & Ec & Vc).
  pose proof (clone_identity _ _ _ _ Ec) as Ic. rw DispatchedPod_view in Hd.
  assert (Hc : has_annotations c = true) by (change (v_has (view_of c) = true); by rw Vc).
  destruct (set_total PodStateAnnotationKey PodAssumed c Hc) as [c1 E1].
  assert (Hc1 : has_annotations c1 = true).
  { change (v_has (view_of c1) = true). apply view_set in E1 as [V _]. by rw V upd_view_spec Vc. }
  destruct (set_total AssumedNodeAnnotationKey "n" c1 Hc1) as [c2 E2].
  apply (can_bind_step p c2).
  - apply step_patch. eapply (step_assume _ _ "" "" (λ _, true) {| SuggestedHost := "n"; sr_NominatedNode := None |}
      c "n"); [|done| |done].
    + unfold DispatchedPodOfGodel, OfGodel. by rw DispatchedPod_view Hd andb_true_r.
    + unfold ReservePod. simpl. rw E1. simpl. by rw E2.
  - apply can_bind_assumed.
    + apply (handled_same p); [|done]. eapply same_identity_trans; [done|].
      by apply (same_identity_trans _ c1); eapply same_identity_set.
    + apply view_set in E1 as [V1 _]. apply view_set in E2 as [V2 _].
      rw AssumedPod_view V2 V1 Vc.
      change (is_assumed (set_assumed "n" (set_state PodAssumed (set_has (view_of p)))) = true).
      split_view (view_of p). eval_keys. by rw bool_decide_false.
Qed.

Lemma can_bind_pending p : handled p → PendingPod p = true → can_bind p.
Proof.
  intros Hh Hp. destruct (send_spec "" "" p "s") as (q & Eq & Vq).
  apply (can_bind_step p q).
  - apply step_patch. eapply (step_dispatch _ _ "" "" "s"); [|done|done].
    unfold PendingPodOfGodel, OfGodel. by rw Hp andb_true_r.
  - apply can_bind_dispatched; [by eapply handled_same; [eapply send_identity|]|].
    rw DispatchedPod_view Vq. rw PendingPod_view in Hp. by split_view (view_of p).
Qed.

(** From whatever annotations it starts, an unscheduled pod that is legal
    and addressed to this scheduler can be brought to a node by steps of the
    components: no combination of annotations is a dead end. *)
Theorem pod_can_always_bind (p : Pod)
    (Hlegal : LegalPodResourceTypeAndLauncher p = true) (Hresp : responsibleForPod p godel = true) :
  ∃ p', rtc (step godel marshal inactive exists_) p p' ∧ BoundPod p' = true.
Proof.
  assert (Hh : handled p) by (unfold handled; by rw Hlegal Hresp).
  pose proof (abnormal_kind p) as Hab. unfold kind in Hab.
  destruct (BoundPod p) eqn:Hb; [by exists p|].
  destruct (PendingPod p) eqn:Hp; [by apply can_bind_pending|].
  destruct (DispatchedPod p) eqn:Hd; [by apply can_bind_dispatched|].
  destruct (AssumedPod p) eqn:Ha; [by apply can_bind_assumed|].
  destruct (reset_spec p) as (q & Eq & Vq).
  apply (can_bind_step p q).
  - apply step_reset. unfold updateAbnormalStatePod, AbnormalPodStateOfGodel. by rw Hab Hresp Eq.
  - apply can_bind_pending; [by eapply handled_same; [eapply reset_identity|]|].
    rw PendingPod_view Vq. unfold is_pending; simpl. eval_keys. unfold BoundPod in Hb.
    by destruct (NodeName p ≟ "").
Qed.
End reach_bound.

Lemma pod_can_always_bind_witness :
  ∃ p', rtc (step "godel" (λ _, None) (λ _, false) (λ _, true)) fresh_pod p' ∧ BoundPod p' = true.
Proof. apply (pod_can_always_bind "godel"); reflexivity. Defined.

(** ** The failed-scheduler list and the bind-failure counter *)

Lemma sorted_names_perm X : sorted_names X ≡ₚ elements X.
Proof. apply merge_sort_Permutation. Qed.

Lemma failed_names_pieces p s : s ∈ GetFailedSchedulersNames p → no_sep comma s = true.
Proof.
  unfold GetFailedSchedulersNames. case_match; [|set_solver]. case_bool_decide; [set_solver|].
  intros Hs%elem_of_list_to_set. pose proof (Split_pieces comma s0) as Hp.
  rw Forall_forall in Hp. by apply Hp.
Qed.

Lemma failed_names_of_list p X s :
  anno_lookup p FailedSchedulersAnnotationKey = Some (Join comma (sorted_names X)) →
  s ∈ X → s ≠ "" → (∀ x, x ∈ X → no_sep comma x = true) → GetFailedSchedulersNames p = X.
Proof.
  intros Hl Hs Hne HX. unfold GetFailedSchedulersNames. rw Hl.
  assert (Hin : s ∈ sorted_names X) by (rw sorted_names_perm; by apply elem_of_elements).
  assert (Hsp : Split comma (Join comma (sorted_names X)) = sorted_names X).
  { apply Split_Join; [by intros E; rw E in Hin; set_solver|].
    apply Forall_forall. intros x. rw sorted_names_perm elem_of_elements. apply HX. }
  case_bool_decide as E.
  - rw E in Hsp. simpl in Hsp. rw -Hsp in Hin. set_solver.
  - rw Hsp. apply set_eq. intros x. by rw elem_of_list_to_set sorted_names_perm elem_of_elements.
Qed.

Lemma failed_names_same p q :
  anno_lookup p FailedSchedulersAnnotationKey = anno_lookup q FailedSchedulersAnnotationKey →
  GetFailedSchedulersNames p = GetFailedSchedulersNames q.
Proof. unfold GetFailedSchedulersNames. by intros ->. Qed.

(** When the scheduler sends a pod back to the dispatcher, the pod's list
    of failed schedulers reads back as the old set plus this scheduler, and the
    pod is pending again; the call never panics on an annotated pod. *)
Theorem failed_schedulers_recorded (s : string) (p : Pod)
    (Hne : s ≠ "") (Hsep : no_sep comma s = true) (Hd : DispatchedPod p = true) :
  ∃ p', updateFailedSchedulingPod s p false = Some p'
    ∧ GetFailedSchedulersNames p' = {[s]} ∪ GetFailedSchedulersNames p
    ∧ PendingPod p' = true.
Proof.
  assert (Hhas : has_annotations p = true).
  { rw DispatchedPod_view in Hd. change (v_has (view_of p) = true). by split_view (view_of p). }
  destruct (failed_spec s p false Hhas) as (p' & E & V). exists p'. split; [done|]. split.
  - unfold updateFailedSchedulingPod in E. cbn [negb] in E.
    apply bind_Some in E as (c & Ec & E). apply bind_Some in Ec as (c1 & Ec1 & Ec).
    apply bind_Some in Ec as (c2 & Ec2 & Ec).
    assert (Hk : anno_lookup p' FailedSchedulersAnnotationKey =
                 anno_lookup c1 FailedSchedulersAnnotationKey).
    { rw (anno_set_ne _ _ _ _ FailedSchedulersAnnotationKey _ E); [|done].
      transitivity (anno_lookup c FailedSchedulersAnnotationKey).
      { case_match; rw ?anno_delete_lookup; done. }
      injection Ec as <-. rw anno_delete_lookup /=.
      by rw (anno_set_ne _ _ _ _ FailedSchedulersAnnotationKey _ Ec2). }
    clear E. case_bool_decide as Hin.
    + injection Ec1 as <-. rw (failed_names_same _ _ Hk). set_solver.
    + apply anno_set_eq in Ec1. rw Ec1 in Hk. apply (failed_names_of_list _ _ s Hk); [set_solver|done|].
      intros x [->%elem_of_singleton|Hx]%elem_of_union; [done|]. by eapply failed_names_pieces.
  - rw PendingPod_view V. rw DispatchedPod_view in Hd. by split_view (view_of p).
Qed.

Lemma failed_schedulers_recorded_witness :
  ∃ p', updateFailedSchedulingPod "s1" dispatched_pod false = Some p'
    ∧ GetFailedSchedulersNames p' = {["s1"]} ∪ GetFailedSchedulersNames dispatched_pod
    ∧ PendingPod p' = true.
Proof. apply (failed_schedulers_recorded "s1" dispatched_pod); [done|reflexivity|reflexivity]. Defined.

(** When the binder gives a pod back to the dispatcher after too many bind
    failures, the list of failed schedulers names this scheduler only, whatever
    it named before, and the failure count stays where it was, so that the next
    scheduler's retry budget is already used up. *)
Theorem binder_fallback_forgets (name : string) (maxr : Z) (p : Pod)
    (Hname : name ≠ "") (Hsep : no_sep comma name = true)
    (Hmax : (0 < maxr)%Z) (Hcount : (maxr ≤ GetBindFailureCount p)%Z) :
  ∃ p', cleanupPod name maxr p = Some p'
    ∧ GetFailedSchedulersNames p' = {[name]}
    ∧ ShouldDispatchToAnotherScheduler p' maxr = true
    ∧ anno_lookup p' SchedulerAnnotationKey = None.
Proof.
  destruct (cleanupPod_spec name maxr p) as (p' & E & _). exists p'. split; [done|].
  pose proof (cleanup_count p) as Hc.
  assert (Hf : anno (cleanupSchedulingAnnotations (anno_init p)) FailedSchedulersAnnotationKey = "").
  { unfold cleanupSchedulingAnnotations. by rw anno_deletes_anno. }
  unfold cleanupPod in E. replace (0 <? maxr)%Z with true in E by (symmetry; by apply Z.ltb_lt).
  rw (bool_decide_false (name = "")) in E; [|done]. cbn [andb negb] in E.
  unfold CleanupPodAnnotationsWithRetryCount, ShouldDispatchToAnotherScheduler in E.
  rw Hc Hf in E. destruct (Z.leb_spec maxr 0); [lia|]. destruct (Z.leb_spec maxr (GetBindFailureCount p)); [|lia].
  apply bind_Some in E as (c1 & E1 & E). apply bind_Some in E as (c2 & E2 & E). injection E as <-.
  split_and!.
  - unfold GetFailedSchedulersNames. rw anno_delete_lookup /=.
    rw (anno_set_ne _ _ _ _ FailedSchedulersAnnotationKey _ E2); [|done].
    rw (anno_set_eq _ _ _ _ E1) /=. rw bool_decide_false; [|done].
    rw Split_no_sep; [|done]. set_solver.
  - unfold ShouldDispatchToAnotherScheduler. destruct (Z.leb_spec maxr 0); [lia|]. apply Z.leb_le.
    unfold GetBindFailureCount in *. rw anno_delete_lookup /=.
    rw (anno_set_ne _ _ _ _ BindFailureCountAnnotationKey _ E2); [|done].
    rw (anno_set_ne _ _ _ _ BindFailureCountAnnotationKey _ E1); [|done]. by rw Hc.
  - by rw anno_delete_lookup /=.
Qed.

Lemma binder_fallback_forgets_witness :
  GetFailedSchedulersNames assumed_pod = {["s2"; "s3"]}
  ∧ ∃ p', cleanupPod "s1" 3 assumed_pod = Some p' ∧ GetFailedSchedulersNames p' = {["s1"]}
    ∧ ShouldDispatchToAnotherScheduler p' 3 = true.
Proof.
  split; [reflexivity|].
  destruct (binder_fallback_forgets "s1" 3 assumed_pod) as (p' & H1 & H2 & H3 & _);
    [done|reflexivity|lia|vm_compute; discriminate|]. exists p'. split; [exact H1|].
  split; [exact H2|exact H3].
Defined.

(** [n] bind failures in a row. *)
Fixpoint increments (n : nat) (p : Pod) : option Pod :=
  match n with
  | O => Some p
  | S n => increments n p ≫= IncrementBindFailureCount
  end.

Lemma increment_count p :
  (0 ≤ GetBindFailureCount p < i64_max)%Z →
  ∃ p', IncrementBindFailureCount p = Some p'
    ∧ GetBindFailureCount p' = (GetBindFailureCount p + 1)%Z.
Proof.
  intros Hr. unfold IncrementBindFailureCount, SetBindFailureCount.
  destruct (set_total BindFailureCountAnnotationKey
    (Itoa (wrap64 (GetBindFailureCount p + 1))) (anno_init p) eq_refl) as [p' E].
  exists p'. split; [done|]. unfold GetBindFailureCount at 1. rw (anno_set_eq _ _ _ _ E).
  assert (Hi : in_i64 (GetBindFailureCount p + 1)) by (unfold in_i64, i64_min, i64_max in *; lia).
  rw wrap64_id; [|done]. by rw Atoi_Itoa.
Qed.

(** The counter kept as a decimal string in an annotation counts: after n
    bind failures it reads n more than before, and the pod is sent to another
    scheduler exactly when retries are limited and the limit is reached. *)
Theorem bind_failure_counter (n : nat) (maxr : Z) (p : Pod)
    (Hr : (0 ≤ GetBindFailureCount p ∧ GetBindFailureCount p + Z.of_nat n ≤ i64_max)%Z) :
  ∃ p', increments n p = Some p'
    ∧ GetBindFailureCount p' = (GetBindFailureCount p + Z.of_nat n)%Z
    ∧ (ShouldDispatchToAnotherScheduler p' maxr = true ↔
       (0 < maxr ≤ GetBindFailureCount p + Z.of_nat n)%Z).
Proof.
  assert (Hc : ∃ p', increments n p = Some p'
    ∧ GetBindFailureCount p' = (GetBindFailureCount p + Z.of_nat n)%Z).
  { induction n as [|n IH]; [exists p; split; [done|lia]|].
    destruct IH as (q & Eq & Cq); [lia|]. destruct (increment_count q) as (q' & Eq' & Cq'); [lia|].
    exists q'. cbn [increments]. rw Eq. split; [done|lia]. }
  destruct Hc as (p' & E & C). exists p'. split_and!; [done..| |]; unfold ShouldDispatchToAnotherScheduler;
    rw C; destruct (Z.leb_spec maxr 0); rw ?Z.leb_le; try done; lia.
Qed.

Lemma bind_failure_counter_witness :
  ∃ p', increments 3 fresh_pod = Some p' ∧ ShouldDispatchToAnotherScheduler p' 3 = true.
Proof.
  destruct (bind_failure_counter 3 3 fresh_pod) as (p' & H1 & _ & H3).
  - change (GetBindFailureCount fresh_pod) with 0%Z. unfold i64_max. lia.
  - exists p'. split; [done|]. apply H3. change (GetBindFailureCount fresh_pod) with 0%Z. lia.
Defined.

(** ** Patches computed from a stale copy *)

(** The annotation part of a two-way merge patch: the keys on which [old] and
    [new] differ are written, the others keep what the server holds. *)
Definition patch_map (old new cur : gmap string string) : gmap string string :=
  merge (λ (d : option (option string)) c, match d with Some x => x | None => c end)
    (merge (λ o n, if o ≟ n then None else Some n) old new) cur.

Definition PatchPod (old new cur : Pod) : Pod :=
  set_Annotations (Some (patch_map (default ∅ (Annotations old)) (default ∅ (Annotations new))
                           (default ∅ (Annotations cur)))) cur.

Lemma patch_map_lookup old new cur k :
  patch_map old new cur !! k = if old !! k ≟ new !! k then cur !! k else new !! k.
Proof.
  unfold patch_map. rw !lookup_merge.
  destruct (old !! k) as [x|], (new !! k) as [y|], (cur !! k) as [z|]; simpl;
    try done; by case_bool_decide.
Qed.

Lemma default_lookup p k : default ∅ (Annotations p) !! k = anno_lookup p k.
Proof. unfold anno_lookup. by destruct (Annotations p); [|simpl; rw lookup_empty]. Qed.

Lemma PatchPod_lookup old new cur k :
  anno_lookup (PatchPod old new cur) k =
  if anno_lookup old k ≟ anno_lookup new k then anno_lookup cur k else anno_lookup new k.
Proof. unfold PatchPod, anno_lookup at 1. simpl. by rw patch_map_lookup !default_lookup. Qed.

(** When the reconciler takes a pod away from its scheduler while the
    scheduler is still placing it, the scheduler's patch, computed from the old
    copy, leaves the pod abnormal; the reconciler's next pass makes it pending
    again, and a patch computed from the current copy writes exactly what was
    intended. *)
Theorem stale_patch_repaired (ts sp node : string) (p c r q : Pod)
    (Hp : DispatchedPod p = true) (Hnode : node ≠ "")
    (Hclone : getAndInitClonedPod ts sp p = Some c)
    (Hreserve : ReservePod (λ _, None) (λ _, true) c
       {| SuggestedHost := node; sr_NominatedNode := None |} = Some (r, node, true))
    (Hreset : resetPodToPendingState p = Some q) :
  AbnormalPodState (PatchPod p r q) = true
  ∧ (∃ q', resetPodToPendingState (PatchPod p r q) = Some q' ∧ PendingPod q' = true)
  ∧ ∀ k, anno_lookup (PatchPod p r p) k = anno_lookup r k.
Proof.
  destruct (reset_spec p) as (q0 & Hq0 & Vq). assert (q0 = q) as -> by congruence. clear Hq0.
  assert (HN : NodeName p = "").
  { rw DispatchedPod_view in Hp. change (v_node (view_of p) = ""). by split_view (view_of p). }
  assert (Hnode' : NodeName (PatchPod p r q) = "") by (change (v_node (view_of q) = ""); by rw Vq).
  unfold ReservePod in Hreserve. simpl in Hreserve. rw bool_decide_false in Hreserve; [|done].
  apply bind_Some in Hreserve as (c1 & E1 & Hr). apply bind_Some in Hr as (c2 & E2 & Hr).
  injection Hr as <-.
  assert (Hst : anno (PatchPod p c2 q) PodStateAnnotationKey = PodAssumed).
  { unfold anno. rw PatchPod_lookup (anno_set_ne _ _ _ _ _ _ E2) // (anno_set_eq _ _ _ _ E1).
    rw bool_decide_false; [done|]. intros Heq. rw DispatchedPod_view in Hp.
    assert (Hs : v_state (view_of p) = PodAssumed) by (simpl; unfold anno; by rw Heq).
    by split_view (view_of p). }
  assert (Hsc : anno (PatchPod p c2 q) SchedulerAnnotationKey = "").
  { unfold anno. rw PatchPod_lookup (anno_set_ne _ _ _ _ _ _ E2) // (anno_set_ne _ _ _ _ _ _ E1) //.
    assert (Hk : anno_lookup p SchedulerAnnotationKey = anno_lookup c SchedulerAnnotationKey).
    { by apply (clone_keeps ts sp). }
    rw bool_decide_true; [|done]. change (v_sched (view_of q) = ""). by rw Vq. }
  split_and!.
  - unfold AbnormalPodState, BoundPod. rw Hnode' Hst. eval_keys.
    rw AssumedPod_view. unfold is_assumed. cbn [view_of v_sched v_state v_has]. rw Hsc.
    rw (bool_decide_true (_ = "")) //=. by rw andb_false_r.
  - destruct (reset_spec (PatchPod p c2 q)) as (q' & E & V). exists q'. split; [done|].
    by rw PendingPod_view V Hnode'.
  - intros k. rw PatchPod_lookup. by case_bool_decide.
Qed.

Lemma stale_patch_repaired_witness :
  let p := dispatched_pod in
  let c := default p (getAndInitClonedPod "t" "x" p) in
  let r := default (p, "", true) (ReservePod (λ _, None) (λ _, true) c
             {| SuggestedHost := "n1"; sr_NominatedNode := None |}) in
  let q := default p (resetPodToPendingState p) in
  AbnormalPodState (PatchPod p r.1.1 q) = true.
Proof.
  intros p c r q. apply (stale_patch_repaired "t" "x" "n1" p c r.1.1 q);
    [reflexivity|discriminate|vm_compute; reflexivity..].
Defined.

(** ** Writes from any version of the pod *)

Section server.
Context (godel : string) (marshal : NominatedNode → option string) (inactive exists_ : string → bool).
Context (Hmarshal : ∀ n s, marshal n = Some s → s ≠ "").
Abbreviation patch_step := (patch_step godel marshal).

(** The API server holds a version of the pod, and the components have read this one
    or an earlier one.  A patch changes the annotations that differ between the pod
    read and the pod written.  The scheduler repeats a failed patch by writing the
    annotations of its reserved pod over those of a dispatched pod it reads now.  A
    binding is refused for a bound pod, and an update is refused unless it is of the
    current version.  The flag tells whether the write was made from the current
    version. *)
Inductive server : bool → list Pod → Pod → Prop :=
  | sv_patch cur new h : patch_step cur new → server true (cur :: h) (PatchPod cur new cur)
  | sv_patch_outdated old new cur h : old ∈ h → patch_step old new → server false (cur :: h) (PatchPod old new cur)
  | sv_repeat old new cur h : old ∈ cur :: h → DispatchedPodOfGodel old godel = true → patch_step old new → AssumedPod new = true →
      DispatchedPodOfGodel cur godel = true → server true (cur :: h) (PatchPod cur (set_Annotations (Annotations new) cur) cur)
  | sv_repeat_outdated old new latest cur h : old ∈ cur :: h → DispatchedPodOfGodel old godel = true → patch_step old new → AssumedPod new = true →
      latest ∈ h → DispatchedPodOfGodel latest godel = true →
      server false (cur :: h) (PatchPod latest (set_Annotations (Annotations new) latest) cur)
  | sv_bind node cur h : AssumedPodOfGodel cur godel = true → node ≠ "" → server true (cur :: h) (set_NodeName node cur)
  | sv_bind_outdated old node cur h : old ∈ h → AssumedPodOfGodel old godel = true → node ≠ "" → BoundPod cur = false →
      server false (cur :: h) (set_NodeName node cur)
  | sv_reset cur new h : updateAbnormalStatePod cur godel = Some (Some new) → server true (cur :: h) new
  | sv_stale cur new h : updateStaleDispatchedStatePod inactive exists_ cur godel = Some (Some new) → server true (cur :: h) new.

(** A run, with the flags of its writes. *)
Inductive versions : list bool → list Pod → list Pod → Prop :=
  | vs_done h : versions [] h h
  | vs_write b bs h p h' : server b h p → versions bs (p :: h) h' → versions (b :: bs) h h'.

Lemma patch_step_view p p' : patch_step p p' → has_annotations p' = true ∧ NodeName p' = NodeName p.
Proof.
  change (has_annotations p') with (v_has (view_of p')). change (NodeName p') with (v_node (view_of p')). change (NodeName p) with (v_node (view_of p)).
  intros [ts sp s ? ? Hp Hne Hw|ts sp assume r c node ? ? Hp Hc Hw Hne|s re ? ? Hp Hw|reason ? c ? Hp Hc Hw|name maxr ? ? Hp Hw].
  - destruct (send_spec ts sp p0 s) as (q & Hq & V). simplify_eq. by rw V.
  - apply OfGodel_true in Hp as (_ & _ & Hp). rw DispatchedPod_view in Hp.
    destruct (clone_spec ts sp p0) as (q & Hq & V). simplify_eq.
    assert (Ha : v_assumed (view_of c) = "" ∧ v_nominated (view_of c) = "") by (rw V; by split_view (view_of p0)).
    destruct (reserve_spec _ _ _ _ _ _ Hmarshal Hw Hne (proj1 Ha) (proj2 Ha)) as (a & n & V' & _). by rw V' V.
  - apply OfGodel_true in Hp as (_ & _ & Hp). rw DispatchedPod_view in Hp.
    assert (v_has (view_of p0) = true) as Hh by by split_view (view_of p0).
    destruct (failed_spec s p0 re Hh) as (q & Hq & V). simplify_eq. rw V. by destruct re.
  - unfold IncrementBindFailureCount, SetBindFailureCount, SetLastBindFailureReason in *.
    apply view_set in Hc as [V _]. apply view_set in Hw as [V' _]. by rw V' view_init V view_init.
  - destruct (cleanupPod_spec name maxr p0) as (q & Hq & V). simplify_eq. rw V. by case_match.
Qed.

Lemma view_eq p q : has_annotations p = has_annotations q → (∀ k, anno_lookup p k = anno_lookup q k) → NodeName p = NodeName q → view_of p = view_of q.
Proof. intros H1 H2 H3. unfold view_of, anno. by rw H1 H3 !H2. Qed.
Lemma PatchPod_current p p' k : anno_lookup (PatchPod p p' p) k = anno_lookup p' k.
Proof. rw PatchPod_lookup. by case_bool_decide. Qed.

(** A write made from the current version follows the diagram; no write changes the
    node of a bound pod. *)
Lemma server_current h p : server true h p → ∃ cur rest, h = cur :: rest ∧ edge (kind cur) (kind p).
Proof.
  remember true as b eqn:Eb. intros Hs. destruct Hs as [cur new h Hp|?|old new cur h _ Hd Hp Ha Hc|?|node cur h Ha Hn|?|cur new h Hu|cur new h Hu]; try done;
    exists cur, h; (split; [done|]).
  - destruct (patch_step_view _ _ Hp) as [Hh HN].
    assert (view_of (PatchPod cur new cur) = view_of new) as E by (apply view_eq; [by rw Hh|apply PatchPod_current|by rw HN]).
    pose proof (step_refines godel marshal inactive exists_ _ _ Hmarshal (step_patch _ _ _ _ _ _ Hp)) as H. by rw !kind_of_view E -!kind_of_view.
  - destruct (patch_step_view _ _ Hp) as [Hh HN]. apply OfGodel_true in Hc as (_ & _ & Hc), Hd as (_ & _ & Hd).
    assert (NodeName cur = "" ∧ NodeName old = "") as [Hnc Hno].
    { split; [change (v_node (view_of cur) = "")|change (v_node (view_of old) = "")]; rw DispatchedPod_view in Hc; rw DispatchedPod_view in Hd;
        [by split_view (view_of cur)|by split_view (view_of old)]. }
    assert (view_of (PatchPod cur (set_Annotations (Annotations new) cur) cur) = view_of new) as E.
    { apply view_eq; [by rw Hh|intros k; exact (PatchPod_current cur (set_Annotations (Annotations new) cur) k)|]. rw HN Hno. exact Hnc. }
    rw !kind_of_view E. rw DispatchedPod_view in Hc. rw AssumedPod_view in Ha. by rw (kind_dispatched _ Hc) (kind_assumed _ Ha).
  - by apply (step_refines godel marshal inactive exists_ _ _ Hmarshal), step_bind.
  - by apply (step_refines godel marshal inactive exists_ _ _ Hmarshal), step_reset.
  - by apply (step_refines godel marshal inactive exists_ _ _ Hmarshal), step_stale.
Qed.
Lemma server_bound b h p : server b h p → ∃ cur rest, h = cur :: rest ∧ (BoundPod cur = true → NodeName p = NodeName cur).
Proof.
  assert (∀ p, DispatchedPod p = true → BoundPod p = false) as Hdis.
  { intros q Hq. rw DispatchedPod_view in Hq. change (BoundPod q) with (negb (v_node (view_of q) ≟ "")). by split_view (view_of q); rw ?bool_decide_true. }
  assert (∀ p, AssumedPod p = true → BoundPod p = false) as Hass.
  { intros q Hq. rw AssumedPod_view in Hq. change (BoundPod q) with (negb (v_node (view_of q) ≟ "")). by split_view (view_of q); rw ?bool_decide_true. }
  intros Hs. destruct Hs as [cur new h Hp|old new cur h _ Hp|old new cur h _ _ Hp _ _|old new latest cur h _ _ Hp _ _ _|node cur h Ha Hn|old node cur h _ _ _ Hb|cur new h Hu|cur new h Hu];
    exists cur, h; (split; [done|]); try done.
  - apply OfGodel_true in Ha as (_ & _ & Ha). by rw (Hass _ Ha).
  - by rw Hb.
  - unfold updateAbnormalStatePod, AbnormalPodStateOfGodel, AbnormalPodState in Hu. by destruct (BoundPod cur).
  - unfold updateStaleDispatchedStatePod in Hu. destruct (DispatchedPodOfGodel cur godel) eqn:E; [|done]. apply OfGodel_true in E as (_ & _ & E). by rw (Hdis _ E).
Qed.

(** C1: Along any run of writes to a pod, the writes made from the current version of
    the pod and those made from an outdated one in any mixture, a bound pod keeps its
    node.  A run whose writes were all made from the current version follows the
    diagram Pending, Dispatched, Assumed, Bound with its way back, and creates no
    abnormal pod.  Writes from outdated versions can leave the diagram (the API server
    merges the patch, [stale_patch_repaired]); whatever run led to an abnormal pod, one
    write of the reconciler from the current version makes it pending. *)
Theorem pod_lifecycle_refines bs h h' cur cur' (Hrun : versions bs (cur :: h) (cur' :: h')) :
  (BoundPod cur = true → NodeName cur' = NodeName cur)
  ∧ (Forall (λ b, b = true) bs → rtc edge (kind cur) (kind cur') ∧ (AbnormalPodState cur = false → AbnormalPodState cur' = false))
  ∧ (AbnormalPodState cur' = true → responsibleForPod cur' godel = true →
     ∃ new, server true (cur' :: h') new ∧ PendingPod new = true).
Proof.
  split_and!.
  - remember (cur :: h) as s0 eqn:E0. remember (cur' :: h') as s1 eqn:E1. revert cur h E0. induction Hrun as [h0|b bs h0 p h1 Hs Hr IH]; intros cur h -> Hb.
    { by injection E1 as -> ->. }
    destruct (server_bound _ _ _ Hs) as (c & r & [= <- <-] & Hc). specialize (Hc Hb). rw -Hc. apply (IH E1 p (cur :: h) eq_refl). unfold BoundPod in *. by rw Hc.
  - intros Hall. assert (rtc edge (kind cur) (kind cur')) as Hp.
    { remember (cur :: h) as s0 eqn:E0. remember (cur' :: h') as s1 eqn:E1. revert cur h E0. induction Hrun as [h0|b bs h0 p h1 Hs Hr IH]; intros cur h ->.
      { by injection E1 as -> ->. }
      apply Forall_cons in Hall as [-> Hall]. destruct (server_current _ _ Hs) as (c & r & [= <- <-] & Hc).
      eapply rtc_l; [exact Hc|]. by apply (IH E1 Hall p (cur :: h) eq_refl). }
    split; [done|]. rw !abnormal_kind !bool_decide_eq_false.
    assert (Hinv : ∀ k k', rtc edge k k' → k ≠ KAbnormal → k' ≠ KAbnormal); [|by apply Hinv].
    intros k k'. induction 1 as [|x y z Hxy _ IH]; [done|]. intros Hx. apply IH. by destruct x, y.
  - intros Hab Hresp. destruct (reset_spec cur') as (q & Eq & Vq). exists q. split.
    + apply sv_reset. unfold updateAbnormalStatePod, AbnormalPodStateOfGodel. by rw Hab Hresp Eq.
    + rw PendingPod_view Vq. unfold is_pending. simpl. eval_keys. unfold AbnormalPodState, BoundPod in Hab. by destruct (NodeName cur' ≟ "").
Qed.
End server.

(** A scheduler and a binder write after each other, and the reconciler after a write
    from an outdated version. *)
Lemma pod_lifecycle_refines_witness :
  (NodeName (set_NodeName "n1" assumed_pod) = "n1") ∧ rtc edge (kind assumed_pod) (kind (set_NodeName "n1" assumed_pod)).
Proof.
  assert (∀ n s, Some ("{" ++ nn_NodeName n) = Some s → s ≠ "") as Hm by (by intros n s [= <-]).
  split; [reflexivity|].
  refine (proj1 (proj1 (proj2 (pod_lifecycle_refines "godel" (λ n, Some ("{" ++ nn_NodeName n)) (λ _, false) (λ _, true) Hm [true] [] [assumed_pod] _ _ _)) _)); [|by repeat constructor].
  eapply vs_write; [apply (sv_bind _ _ _ _ "n1"); [vm_compute; reflexivity|discriminate]|constructor].
Defined.
