(* ===== verification/DispatchFifo.v ===== *)
(** * The dispatcher's queues

    [MetricsFIFO] of pkg/dispatcher/internal/queue/fifo.go, the two queues built
    on it (sorted_queue.go, pending_queue.go), and the [container/heap] based
    [PriorityQueue] of priority_queue.go.  A deletion leaves the key behind in
    the slice ("dangling index"); the abstract value of the queue is the list of
    live keys in order of their first occurrence. *)
From S2P Require Import Prelude ContainerHeap PodModel.

Local Open Scope godel_scope.

Definition danglingIndicesThreshold : Z := 100.

Section fifo.
#[local] Set Default Proof Using "Type".
Context {T : Type} (keyFunc : T → string) (updateHandler : T → T → T).

(** [metricLog] is the balance of the recorder: Inc minus Dec calls. *)
Record MetricsFIFO := {
  items : gmap string T;
  queue : list string;
  closed : bool;
  balance : Z
}.

Definition NewMetricsFIFO : MetricsFIFO :=
  {| items := ∅; queue := []; closed := false; balance := 0 |}.

(** The handler copies fields of the stored object into the new one, in place. *)
Definition update (obj : T) (f : MetricsFIFO) : MetricsFIFO :=
  let id := keyFunc obj in
  match items f !! id with
  | Some existed =>
      {| items := <[id := updateHandler existed obj]> (items f); queue := queue f;
         closed := closed f; balance := balance f |}
  | None =>
      {| items := <[id := obj]> (items f); queue := queue f ++ [id];
         closed := closed f; balance := balance f + 1 |}
  end.

Definition Add : T → MetricsFIFO → MetricsFIFO := update.
Definition Update : T → MetricsFIFO → MetricsFIFO := update.

Inductive PopResult := Popped (item : T) | ErrFIFOClosed | Blocked.

(** The loop of [Pop]: it drops dangling ids; on an empty queue it returns the
    error when closed and waits otherwise. *)
Fixpoint pop_loop (its : gmap string T) (q : list string) : list string * option (string * T) :=
  match q with
  | [] => ([], None)
  | id :: q =>
      match its !! id with
      | None => pop_loop its q
      | Some item => (q, Some (id, item))
      end
  end.

Definition Pop (f : MetricsFIFO) : MetricsFIFO * PopResult :=
  match pop_loop (items f) (queue f) with
  | (q, Some (id, item)) =>
      ({| items := delete id (items f); queue := q; closed := closed f; balance := balance f - 1 |},
       Popped item)
  | (q, None) =>
      ({| items := items f; queue := q; closed := closed f; balance := balance f |},
       if closed f then ErrFIFOClosed else Blocked)
  end.

Definition Exists (obj : T) (f : MetricsFIFO) : bool :=
  match items f !! keyFunc obj with Some _ => true | None => false end.

(** The in-place compaction: the ids kept are written from index 0 on, then the
    slice is cut. *)
Fixpoint compact_loop (its : gmap string T) (ids : list string) (q : list string) (index : nat)
    : list string * nat :=
  match ids with
  | [] => (q, index)
  | id :: ids =>
      match its !! id with
      | Some _ => compact_loop its ids (<[index := id]> q) (S index)
      | None => compact_loop its ids q index
      end
  end.

(** [range f.queue] evaluates the slice header once and reads the elements from
    the array the loop writes to: element [k] is read before any write beyond
    [k], since [index] never overtakes the reader. *)
Definition removeDanglingIndices (f : MetricsFIFO) : MetricsFIFO :=
  let '(q, index) := compact_loop (items f) (queue f) (queue f) 0 in
  {| items := items f; queue := take index q; closed := closed f; balance := balance f |}.

Definition Delete (obj : T) (f : MetricsFIFO) : MetricsFIFO :=
  let id := keyFunc obj in
  match items f !! id with
  | None => f
  | Some _ =>
      let f := {| items := items f; queue := queue f; closed := closed f; balance := balance f - 1 |} in
      let f := if (danglingIndicesThreshold <?
                   Z.of_nat (length (queue f)) - Z.of_nat (size (items f)))%Z
               then removeDanglingIndices f else f in
      {| items := delete id (items f); queue := queue f; closed := closed f; balance := balance f |}
  end.

(** [Close] also clears the metric. *)
Definition Close (f : MetricsFIFO) : MetricsFIFO :=
  {| items := items f; queue := queue f; closed := true; balance := 0 |}.

Definition IsClosed (f : MetricsFIFO) : bool := closed f.

(** ** The abstract queue *)

(** First occurrences. *)
Fixpoint nub (seen : gset string) (l : list string) : list string :=
  match l with
  | [] => []
  | x :: l => if decide (x ∈ seen) then nub seen l else x :: nub ({[x]} ∪ seen) l
  end.

Definition live (f : MetricsFIFO) : list string :=
  filter (λ id, id ∈ dom (items f)) (nub ∅ (queue f)).

(** "We depend on the property that every key in [items] is also in [queue]". *)
Definition fifo_inv (f : MetricsFIFO) : Prop :=
  (∀ id, id ∈ dom (items f) → id ∈ queue f)
  ∧ map_Forall (λ id x, keyFunc x = id) (items f).

Lemma nub_elem seen l x : x ∈ nub seen l ↔ x ∈ l ∧ x ∉ seen.
Proof.
  revert seen. induction l as [|y l IH]; intros seen; simpl; [by rw elem_of_nil; tauto|].
  destruct (decide (y ∈ seen)); rw !elem_of_cons IH ?not_elem_of_union ?elem_of_singleton.
  - split; [tauto|]. intros [[->|?] ?]; [done|tauto].
  - destruct (decide (x = y)) as [->|]; tauto.
Qed.

Lemma nub_NoDup seen l : NoDup (nub seen l).
Proof.
  revert seen. induction l as [|y l IH]; intros seen; simpl; [constructor|].
  case_decide; [done|]. constructor; [|done]. rw nub_elem. set_solver.
Qed.

Lemma nub_union (s t : gset string) l : nub (s ∪ t) l = filter (.∉ s) (nub t l).
Proof.
  revert t. induction l as [|x l IH]; intros t; [done|]. simpl.
  destruct (decide (x ∈ t)) as [Ht|Ht].
  - rw decide_True; [|set_solver]. apply IH.
  - rw filter_cons. destruct (decide (x ∉ s)) as [Hs|Hs%dec_stable].
    + rw decide_False; [|set_solver]. f_equal. rw -IH. f_equal. set_solver.
    + rw decide_True; [|set_solver]. rw -IH. f_equal. set_solver.
Qed.

Lemma nub_seen (s : gset string) l : nub s l = filter (.∉ s) (nub ∅ l).
Proof. rw -nub_union. f_equal. set_solver. Qed.

Lemma nub_app seen l l' :
  nub seen (l ++ l') = nub seen l ++ nub (list_to_set l ∪ seen) l'.
Proof.
  revert seen. induction l as [|y l IH]; intros seen; simpl.
  - f_equal. set_solver.
  - case_decide; rw IH; [f_equal|rw -app_comm_cons; f_equal; f_equal]; f_equal; set_solver.
Qed.

Lemma nub_filter (P : string → Prop) `{!∀ x, Decision (P x)} t l :
  nub t (filter P l) = filter P (nub t l).
Proof.
  revert t. induction l as [|x l IH]; intros t; [done|]. rw filter_cons. simpl.
  destruct (decide (x ∈ t)) as [Ht|Ht].
  - case_decide; [simpl; by rw decide_True|done].
  - rw filter_cons. case_decide as HP.
    + simpl. rw decide_False; [|done]. by rw IH.
    + rw -IH (nub_union {[x]} t (filter P l)). symmetry. apply filter_all.
      intros y [[Hy _]%list_elem_of_filter _]%nub_elem. set_solver.
Qed.

(** Filters with equivalent predicates. *)
Lemma filter_filter_dom (X Y : gset string) (l : list string) :
  filter (.∈ X) (filter (.∉ Y) l) = filter (.∈ X ∖ Y) l.
Proof. rw list_filter_filter. apply list_filter_iff. set_solver. Qed.

Lemma live_elem f id : fifo_inv f → id ∈ live f ↔ id ∈ dom (items f).
Proof. intros [H _]. unfold live. rw list_elem_of_filter nub_elem. set_solver. Qed.

Lemma live_NoDup f : NoDup (live f).
Proof. apply NoDup_filter, nub_NoDup. Qed.

Lemma compact_loop_spec its ids q index :
  index + length ids ≤ length q →
  let kept := filter (λ id, id ∈ dom its) ids in
  compact_loop its ids q index =
    (take index q ++ kept ++ drop (index + length kept) q, index + length kept).
Proof.
  revert q index. induction ids as [|id ids IH]; intros q index Hlen; simpl.
  - by rw Nat.add_0_r take_drop.
  - simpl in Hlen. rw filter_cons. destruct (its !! id) as [x|] eqn:E.
    + rw decide_True; [|by apply elem_of_dom; exists x]. rw IH; [|rw length_insert; lia].
      simpl. f_equal; [|lia].
      rw (take_S_r _ _ id); [|rw list_lookup_insert_eq; [done|lia]].
      rw take_insert_ge; [|done]. rw -assoc /=. do 3 f_equal.
      rw drop_insert_lt; [|lia]. f_equal. lia.
    + rw decide_False; [|by apply not_elem_of_dom]. apply IH. lia.
Qed.

Lemma removeDanglingIndices_queue f :
  queue (removeDanglingIndices f) = filter (λ id, id ∈ dom (items f)) (queue f).
Proof.
  unfold removeDanglingIndices. rw compact_loop_spec; [|done]. simpl.
  by rw take_app_length.
Qed.

Lemma pop_loop_spec its q :
  match pop_loop its q with
  | (q', Some (id, x)) => ∃ pre, q = pre ++ id :: q' ∧ its !! id = Some x
                          ∧ ∀ y, y ∈ pre → y ∉ dom its
  | (q', None) => q' = [] ∧ ∀ y, y ∈ q → y ∉ dom its
  end.
Proof.
  clear keyFunc updateHandler. induction q as [|id q IH]; simpl; [set_solver|].
  destruct (its !! id) as [x|] eqn:E; [exists []; set_solver|].
  apply not_elem_of_dom in E. destruct (pop_loop its q) as [q' [[id' x]|]].
  - destruct IH as (pre & -> & ? & Hpre). exists (id :: pre). set_solver.
  - set_solver.
Qed.
End fifo.

Arguments MetricsFIFO : clear implicits.
Arguments PopResult : clear implicits.

(** ** Correctness of the FIFO *)
Section fifo_spec.
#[local] Set Default Proof Using "Type".
Context {T : Type} (keyFunc : T → string) (updateHandler : T → T → T).
Context (Hkey : ∀ a b, keyFunc (updateHandler a b) = keyFunc b).
Implicit Types f : MetricsFIFO T.

Definition fifo_wf f : Prop :=
  fifo_inv keyFunc f ∧ (closed f = false → balance f = Z.of_nat (size (items f))).

Lemma new_wf : fifo_wf NewMetricsFIFO.
Proof. clear Hkey updateHandler. split; [split; [set_solver|done]|]. by rw /= map_size_empty. Qed.

Lemma fifo_add_spec f x :
  let k := keyFunc x in let f' := update keyFunc updateHandler x f in
  fifo_wf f →
  fifo_wf f'
  ∧ items f' = <[k := match items f !! k with Some o => updateHandler o x | None => x end]> (items f)
  ∧ (k ∈ dom (items f) → live f' = live f)
  ∧ (k ∉ dom (items f) → filter (.≠ k) (live f') = live f)
  ∧ (k ∉ queue f → live f' = live f ++ [k]).
Proof using Hkey.
  intros k f' [[Hd Hk] Hb]. unfold f', update. fold k.
  destruct (items f !! k) as [o|] eqn:E.
  - assert (Hin : k ∈ dom (items f)) by (apply elem_of_dom; by exists o).
    assert (Hdom : dom (<[k:=updateHandler o x]> (items f)) = dom (items f)) by set_solver.
    split_and!; simpl; try done.
    + split; [split; simpl|simpl]; rw ?Hdom; [done| |].
      * apply map_Forall_insert_2; [by rw Hkey|done].
      * intros Hc. rw map_size_insert_Some; [by apply Hb|by exists o].
    + intros _. unfold live; simpl. by rw Hdom.
    + intros Hq. by apply Hd in Hin.
  - apply not_elem_of_dom in E as Hnot.
    assert (Hfil : filter (.≠ k) (filter (λ id, id ∈ dom (<[k:=x]> (items f))) (nub ∅ (queue f ++ [k])))
      = live f).
    { rw list_filter_filter nub_app filter_app. unfold live.
      rw (filter_none _ (nub _ [k])); [rw app_nil_r|].
      - apply list_filter_iff. intros y. set_solver.
      - intros y [->%list_elem_of_singleton _]%nub_elem. naive_solver. }
    split_and!; simpl; try done.
    + split; [split; simpl|simpl].
      * intros id. rw dom_insert elem_of_union elem_of_singleton elem_of_app.
        intros [->|Hid%Hd]; [right; set_solver|by left].
      * by apply map_Forall_insert_2.
      * intros Hc. rw map_size_insert_None; [|done]. rw Hb; [lia|done].
    + intros Hq. unfold live; simpl. rw nub_app filter_app /=.
      rw decide_False; [|rw elem_of_union elem_of_list_to_set; set_solver].
      rw filter_cons_True; [|set_solver]. f_equal. apply filter_iff_in.
      intros y [Hy _]%nub_elem. set_solver.
Qed.

Lemma fifo_pop_spec f :
  fifo_wf f →
  match live f with
  | [] => ∃ f', Pop f = (f', if closed f then ErrFIFOClosed else Blocked)
            ∧ items f = ∅ ∧ items f' = ∅ ∧ queue f' = [] ∧ fifo_wf f'
  | k :: ks => ∃ x f', items f !! k = Some x ∧ Pop f = (f', Popped x)
            ∧ items f' = delete k (items f) ∧ live f' = ks ∧ fifo_wf f'
  end.
Proof.
  clear Hkey updateHandler. intros [[Hd Hk] Hb]. unfold Pop. pose proof (pop_loop_spec (items f) (queue f)) as Hp.
  destruct (pop_loop (items f) (queue f)) as [q [[id x]|]].
  - destruct Hp as (pre & Hq & Hx & Hpre).
    assert (Hid : id ∈ dom (items f)) by (apply elem_of_dom; by exists x).
    assert (Hlive : live f = id :: filter (λ y, y ∈ dom (items f) ∖ {[id]}) (nub ∅ q)).
    { unfold live. rw Hq nub_app filter_app. rw filter_none; [|intros y [Hy _]%nub_elem; by apply Hpre]. simpl.
      rw decide_False; [|rw elem_of_union elem_of_list_to_set; set_solver].
      rw filter_cons_True; [|done]. f_equal. rw nub_seen filter_filter_dom.
      apply list_filter_iff. set_solver. }
    rw Hlive. eexists x, _. split; [done|]. split; [done|]. split; [done|]. split.
    + unfold live; simpl. rw dom_delete_L. done.
    + split; [split; simpl|simpl].
      * intros y. rw dom_delete_L. intros [Hy Hne]%elem_of_difference.
        pose proof (Hd y Hy) as Hin. rw Hq in Hin. set_solver.
      * by apply map_Forall_delete.
      * intros Hc. rw map_size_delete_Some; [|by exists x].
        assert (size (items f) ≠ 0) by (apply map_size_non_empty_iff; intros H0; by rw H0 in Hx).
        rw Hb; [lia|done].
  - destruct Hp as [-> Hp].
    assert (Hempty : items f = ∅).
    { apply map_empty. intros i. apply not_elem_of_dom. intros Hi. by apply (Hp i); [apply Hd|]. }
    assert (Hlive : live f = []).
    { unfold live. apply filter_none. rw Hempty. set_solver. }
    rw Hlive. eexists. split; [done|]. simpl. split_and!; try done.
    split; [split; simpl|simpl]; rw ?Hempty; [set_solver|done|]. intros Hc. rw Hb; [|done].
    by rw Hempty.
Qed.

Lemma fifo_delete_spec f x :
  let k := keyFunc x in let f' := Delete keyFunc x f in
  fifo_wf f →
  fifo_wf f' ∧ items f' = delete k (items f) ∧ live f' = filter (.≠ k) (live f).
Proof.
  clear Hkey updateHandler. intros k f' [[Hd Hk] Hb]. unfold f', Delete. fold k.
  destruct (items f !! k) as [o|] eqn:E.
  - set (f1 := {| items := items f |}).
    set (f2 := if (_ <? _)%Z then removeDanglingIndices f1 else f1).
    assert (Hcb : items f2 = items f ∧ closed f2 = closed f ∧ balance f2 = (balance f - 1)%Z).
    { unfold f2. destruct (_ <? _)%Z; [|done]. unfold removeDanglingIndices.
      by destruct (compact_loop _ _ _ _). }
    destruct Hcb as (Hi & Hc2 & Hb2).
    assert (Hq : queue f2 = queue f ∨ queue f2 = filter (λ id, id ∈ dom (items f)) (queue f)).
    { unfold f2. destruct (_ <? _)%Z; [right; apply (removeDanglingIndices_queue f1)|by left]. }
    clearbody f2. split_and!; simpl.
    + split; [split; simpl|simpl]; rw ?Hi.
      * intros y. rw dom_delete_L. intros [Hy _]%elem_of_difference.
        destruct Hq as [->| ->]; [by apply Hd|]. apply list_elem_of_filter. split; [done|by apply Hd].
      * by apply map_Forall_delete.
      * intros Hc. rw map_size_delete_Some; [|by exists o].
        assert (size (items f) ≠ 0) by (apply map_size_non_empty_iff; intros H0; by rw H0 in E).
        rw Hb2 Hb; [lia|congruence].
    + by rw Hi.
    + unfold live; simpl. rw Hi list_filter_filter dom_delete_L.
      destruct Hq as [->| ->]; [|rw nub_filter list_filter_filter]; apply list_filter_iff; set_solver.
  - split_and!; [by split|by rw delete_id|].
    symmetry. apply filter_all. intros y Hy ->.
    apply (live_elem keyFunc) in Hy; [|by split].
    apply not_elem_of_dom in E. done.
Qed.
End fifo_spec.

(** ** Queues of pods (sorted_queue.go, pending_queue.go) *)

(** Timestamps are nanoseconds; 0 is Go's zero time. *)
Record QueuedPodInfo := {
  PodKey : string; ResourceType : PodResourceType; Timestamp : Z; InitialAddedTimestamp : Z;
  SpanContext : string
}.

Definition podInfoKeyFunc (p : QueuedPodInfo) : string := PodKey p.

(** The update handler of both queues. *)
Definition keepTimestamps (existed podInfo : QueuedPodInfo) : QueuedPodInfo :=
  {| PodKey := PodKey podInfo; ResourceType := ResourceType podInfo; Timestamp := Timestamp existed;
     InitialAddedTimestamp := InitialAddedTimestamp existed; SpanContext := SpanContext podInfo |}.

Definition stamp (now : Z) (p : QueuedPodInfo) : QueuedPodInfo :=
  {| PodKey := PodKey p; ResourceType := ResourceType p;
     Timestamp := if (Timestamp p =? 0)%Z then now else Timestamp p;
     InitialAddedTimestamp := if (InitialAddedTimestamp p =? 0)%Z then now else InitialAddedTimestamp p;
     SpanContext := SpanContext p |}.

Abbreviation PodFIFO := (MetricsFIFO QueuedPodInfo).

Definition NewSortedFIFO : PodFIFO := NewMetricsFIFO.
Definition AddPodInfo (now : Z) (p : QueuedPodInfo) (f : PodFIFO) : PodFIFO :=
  Add podInfoKeyFunc keepTimestamps (stamp now p) f.
Definition UpdatePodInfo (now : Z) (p : QueuedPodInfo) (f : PodFIFO) : PodFIFO :=
  Update podInfoKeyFunc keepTimestamps (stamp now p) f.
Definition PopPodInfo (f : PodFIFO) : PodFIFO * PopResult QueuedPodInfo := Pop f.
Definition PodInfoExist (p : QueuedPodInfo) (f : PodFIFO) : bool := Exists podInfoKeyFunc p f.
Definition RemovePodInfo (p : QueuedPodInfo) (f : PodFIFO) : PodFIFO := Delete podInfoKeyFunc p f.

Definition NewPendingFIFO : PodFIFO := NewMetricsFIFO.
Definition pending_AddPodInfo : Z → QueuedPodInfo → PodFIFO → PodFIFO := AddPodInfo.
Definition pending_UpdatePodInfo : Z → QueuedPodInfo → PodFIFO → PodFIFO := UpdatePodInfo.
Definition pending_RemovePodInfo : QueuedPodInfo → PodFIFO → PodFIFO := RemovePodInfo.
(** The pending queue pops slices of one element. *)
Definition pending_Pop (f : PodFIFO) : PodFIFO * PopResult (list QueuedPodInfo) :=
  match Pop f with
  | (f, Popped x) => (f, Popped [x])
  | (f, ErrFIFOClosed) => (f, ErrFIFOClosed)
  | (f, Blocked) => (f, Blocked)
  end.

(** A run of calls; the times are those of the clock. *)
Inductive PodOp := OpAdd (now : Z) (p : QueuedPodInfo) | OpUpdate (now : Z) (p : QueuedPodInfo)
  | OpPop | OpRemove (p : QueuedPodInfo).

Definition pod_step (f : PodFIFO) (op : PodOp) : PodFIFO :=
  match op with
  | OpAdd now p => AddPodInfo now p f
  | OpUpdate now p => UpdatePodInfo now p f
  | OpPop => (PopPodInfo f).1
  | OpRemove p => RemovePodInfo p f
  end.

Definition pod_run (ops : list PodOp) : PodFIFO := foldl pod_step NewSortedFIFO ops.

Definition pod_wf : PodFIFO → Prop := fifo_wf podInfoKeyFunc.

Lemma keepTimestamps_key a b : podInfoKeyFunc (keepTimestamps a b) = podInfoKeyFunc b.
Proof. done. Qed.

Lemma pod_step_wf f op : pod_wf f → pod_wf (pod_step f op).
Proof.
  intros Hf. destruct op as [now p|now p| |p]; simpl.
  - by apply fifo_add_spec.
  - by apply fifo_add_spec.
  - pose proof (fifo_pop_spec podInfoKeyFunc f Hf) as Hp. unfold PopPodInfo. destruct (live f).
    + by destruct Hp as (f' & -> & _ & _ & _ & ?).
    + by destruct Hp as (x & f' & _ & -> & _ & _ & ?).
  - by apply fifo_delete_spec.
Qed.

Lemma pod_run_wf ops : pod_wf (pod_run ops).
Proof.
  unfold pod_run. assert (H : pod_wf NewSortedFIFO) by apply new_wf. revert H.
  generalize NewSortedFIFO. induction ops as [|op ops IH]; intros f Hf; [done|]. simpl.
  by apply IH, pod_step_wf.
Qed.

Lemma pod_run_open ops : closed (pod_run ops) = false.
Proof.
  unfold pod_run. assert (H : closed NewSortedFIFO = false) by done. revert H.
  generalize NewSortedFIFO. induction ops as [|op ops IH]; intros f Hf; [done|]. simpl. apply IH.
  destruct op as [now p|now p| |p]; simpl.
  - unfold AddPodInfo, Add, update. by case_match.
  - unfold UpdatePodInfo, Update, update. by case_match.
  - unfold PopPodInfo, Pop. by destruct (pop_loop _ _) as [? [[]|]].
  - unfold RemovePodInfo, Delete. case_match; [|done]. simpl. case_match; [|done].
    unfold removeDanglingIndices. by destruct (compact_loop _ _ _ _).
Qed.

(** C32: In every state that the operations of the dispatcher other than Close lead its
    pod queue to, popping returns the pod at the front of the queue of live keys and
    removes exactly it, and blocks exactly when no pod is stored; a pod whose key is not
    in the slice goes to the back, an existing one keeps its place, and a new one whose
    key still dangles in the slice from an earlier removal may get its old place
    ([readd_keeps_place]) while the others keep their order; a removal takes out exactly
    that pod whether or not it compacts the slice, and the pending-pods metric equals
    the number of stored pods. *)
Theorem pod_queue_is_fifo (ops : list PodOp) (now : Z) (p : QueuedPodInfo) :
  let f := pod_run ops in
  NoDup (live f) ∧ (∀ k, k ∈ live f ↔ k ∈ dom (items f))
  ∧ balance f = Z.of_nat (size (items f))
  ∧ match live f with
    | [] => (PopPodInfo f).2 = Blocked ∧ items f = ∅
    | k :: ks => ∃ x, items f !! k = Some x ∧ (PopPodInfo f).2 = Popped x
                   ∧ items (PopPodInfo f).1 = delete k (items f) ∧ live (PopPodInfo f).1 = ks
    end
  ∧ (PodKey p ∉ queue f → live (AddPodInfo now p f) = live f ++ [PodKey p])
  ∧ (PodKey p ∈ dom (items f) → live (AddPodInfo now p f) = live f)
  ∧ (PodKey p ∉ dom (items f) → filter (.≠ PodKey p) (live (AddPodInfo now p f)) = live f)
  ∧ items (RemovePodInfo p f) = delete (PodKey p) (items f)
  ∧ live (RemovePodInfo p f) = filter (.≠ PodKey p) (live f).
Proof.
  intros f. pose proof (pod_run_wf ops) as Hf. fold f in Hf.
  assert (Hopen : closed f = false) by apply pod_run_open.
  pose proof (fifo_add_spec podInfoKeyFunc keepTimestamps keepTimestamps_key f (stamp now p) Hf)
    as (_ & _ & Ha & Hb & Hc).
  pose proof (fifo_delete_spec podInfoKeyFunc f p Hf) as (_ & Hd & He).
  split_and!; try done.
  - apply live_NoDup.
  - intros k. apply (live_elem podInfoKeyFunc), Hf.
  - by apply Hf.
  - pose proof (fifo_pop_spec podInfoKeyFunc f Hf) as Hp. unfold PopPodInfo. destruct (live f).
    + destruct Hp as (f' & -> & ? & _). by rw Hopen.
    + destruct Hp as (x & f' & ? & -> & ? & ? & _). by exists x.
Qed.

Definition removes (op : PodOp) : bool := match op with OpRemove _ => true | _ => false end.

Definition exact (f : PodFIFO) : Prop :=
  pod_wf f ∧ NoDup (queue f) ∧ ∀ k, k ∈ queue f → k ∈ dom (items f).

Lemma nub_exact seen (l : list string) : NoDup l → (∀ x, x ∈ l → x ∉ seen) → nub seen l = l.
Proof.
  revert seen. induction l as [|x l IH]; intros seen Hl Hs; [done|].
  apply NoDup_cons in Hl as [Hx Hl]. simpl. rw decide_False; [|apply Hs; set_solver]. f_equal. apply IH; [done|set_solver].
Qed.

Lemma exact_live f : exact f → live f = queue f.
Proof.
  intros (_ & Hnd & Hd). unfold live. rw nub_exact; [|done|set_solver]. by apply filter_all.
Qed.

Lemma exact_step f op : removes op = false → exact f → exact (pod_step f op).
Proof.
  intros Hop Hex. pose proof (exact_live f Hex) as Hlive. destruct Hex as (Hwf & Hnd & Hd).
  split; [by apply pod_step_wf|].
  assert (Hadd : ∀ p, NoDup (queue (update podInfoKeyFunc keepTimestamps p f)) ∧
    ∀ k, k ∈ queue (update podInfoKeyFunc keepTimestamps p f) →
         k ∈ dom (items (update podInfoKeyFunc keepTimestamps p f))).
  { intros p. unfold update. destruct (items f !! podInfoKeyFunc p) eqn:E; simpl.
    - split; [done|]. set_solver.
    - apply not_elem_of_dom in E. split; [|set_solver].
      apply NoDup_app. split_and!; [done| |by apply NoDup_singleton]. set_solver. }
  destruct op as [now p|now p| |p]; [apply Hadd|apply Hadd| |done]. simpl.
  pose proof (fifo_pop_spec podInfoKeyFunc f Hwf) as Hp. unfold PopPodInfo, Pop in *.
  pose proof (pop_loop_spec (items f) (queue f)) as Hl.
  destruct (pop_loop (items f) (queue f)) as [q [[k x]|]]; simpl in *.
  - destruct Hl as (pre & Hq & Hx & Hpre). assert (pre = []) as ->.
    { destruct pre as [|y pre]; [done|]. destruct (Hpre y); [by left|]. apply Hd. rw Hq. by left. }
    simpl in Hq. rw Hq in Hnd. apply NoDup_cons in Hnd as [Hk Hnd]. split; [done|].
    intros y Hy. rw dom_delete_L. apply elem_of_difference. split.
    + apply Hd. rw Hq. by right.
    + by intros ->%elem_of_singleton.
  - destruct Hl as [-> _]. split; [constructor|set_solver].
Qed.

Lemma readd_keeps_place now (a b : QueuedPodInfo) :
  PodKey a ≠ PodKey b →
  live (pod_run [OpAdd now a; OpAdd now b; OpRemove a; OpAdd now a]) = [PodKey a; PodKey b].
Proof.
  intros Hab. set (a' := stamp now a). set (b' := stamp now b).
  assert (E1 : pod_run [OpAdd now a] =
    {| items := <[PodKey a := a']> ∅; queue := [PodKey a]; closed := false; balance := 1 |}) by done.
  assert (E2 : pod_run [OpAdd now a; OpAdd now b] =
    {| items := <[PodKey b := b']> (<[PodKey a := a']> ∅); queue := [PodKey a; PodKey b];
       closed := false; balance := 2 |}).
  { transitivity (AddPodInfo now b (pod_run [OpAdd now a])); [done|]. rw E1.
    unfold AddPodInfo, Add, update, podInfoKeyFunc; simpl. rw lookup_insert_ne; [|done]. done. }
  assert (E3 : pod_run [OpAdd now a; OpAdd now b; OpRemove a] =
    {| items := <[PodKey b := b']> ∅; queue := [PodKey a; PodKey b];
       closed := false; balance := 1 |}).
  { transitivity (RemovePodInfo a (pod_run [OpAdd now a; OpAdd now b])); [done|]. rw E2.
    unfold RemovePodInfo, Delete, podInfoKeyFunc; simpl.
    rw lookup_insert_ne; [|done]. rw lookup_insert_eq map_size_insert_None; [|by rw lookup_insert_ne].
    rw map_size_insert_None; [|done]. rw map_size_empty. cbn [Z.of_nat]. simpl.
    rw delete_insert_ne; [|done]. by rw delete_insert_id. }
  change (live (AddPodInfo now a (pod_run [OpAdd now a; OpAdd now b; OpRemove a])) =
    [PodKey a; PodKey b]). rw E3.
  unfold AddPodInfo, Add, update, podInfoKeyFunc; simpl. rw lookup_insert_ne; [|done].
  rw lookup_empty. unfold live. simpl. repeat (rw decide_False; [|set_solver]).
  rw decide_True; [|set_solver]. rw !filter_cons_True; [done|set_solver..].
Qed.

(** As long as no pod is removed, the queue is exactly first in, first out:
    the slice holds the live pods in order and a new pod goes to the back.  A
    removal only marks the slice entry, so a pod that is removed and added again
    before its entry was dropped gets its old place back. *)
Theorem pod_queue_exact_without_removal (ops : list PodOp) (now : Z) (p : QueuedPodInfo)
    (Hops : forallb (λ op, negb (removes op)) ops = true) :
  let f := pod_run ops in
  live f = queue f
  ∧ (PodKey p ∉ dom (items f) → live (AddPodInfo now p f) = live f ++ [PodKey p])
  ∧ ∀ a b : QueuedPodInfo, PodKey a ≠ PodKey b →
      live (pod_run [OpAdd now a; OpAdd now b; OpRemove a; OpAdd now a]) = [PodKey a; PodKey b].
Proof.
  intros f. assert (Hex : exact f).
  { assert (Hgen : ∀ ops g, forallb (λ op, negb (removes op)) ops = true → exact g →
      exact (foldl pod_step g ops)).
    { clear. induction ops as [|op ops IH]; intros g Ho Hg; [done|]. simpl in *.
      apply andb_prop in Ho as [?%negb_true_iff ?]. by apply IH, exact_step. }
    apply Hgen; [done|]. split; [apply new_wf|]. split; [constructor|set_solver]. }
  split; [by apply exact_live|]. split.
  - intros Hp. destruct Hex as (Hwf & _ & Hd).
    pose proof (fifo_add_spec podInfoKeyFunc keepTimestamps keepTimestamps_key f (stamp now p) Hwf)
      as (_ & _ & _ & _ & Hc). apply Hc. intros Hq. by apply Hp, Hd.
  - apply readd_keeps_place.
Qed.

Lemma pod_queue_exact_without_removal_witness :
  let a := {| PodKey := "a"; ResourceType := GuaranteedPod; Timestamp := 0; InitialAddedTimestamp := 0; SpanContext := "" |} in
  live (pod_run [OpAdd 5 a; OpPop; OpUpdate 7 a]) = queue (pod_run [OpAdd 5 a; OpPop; OpUpdate 7 a]).
Proof.
  intros a.
  apply (pod_queue_exact_without_removal [OpAdd 5 a; OpPop; OpUpdate 7 a] 9 a). reflexivity.
Defined.

(** The time a pod was first added, and its queueing time, survive every
    later add or update of the pod while it stays in the queue. *)
Theorem pod_queue_timestamps (ops ops' : list PodOp) (k : string) (a : QueuedPodInfo)
    (Ha : items (pod_run ops) !! k = Some a)
    (Hstay : Forall (λ op, op ≠ OpPop ∧ ∀ p, op = OpRemove p → PodKey p ≠ k) ops') :
  ∃ b, items (foldl pod_step (pod_run ops) ops') !! k = Some b
    ∧ Timestamp b = Timestamp a ∧ InitialAddedTimestamp b = InitialAddedTimestamp a.
Proof.
  pose proof (pod_run_wf ops) as Hwf. revert Ha Hwf. generalize (pod_run ops) as f.
  revert a. induction Hstay as [|op ops' [Hpop Hrem] _ IH]; intros a f Ha Hwf; [by exists a|].
  simpl. assert (Hstep : ∃ b, items (pod_step f op) !! k = Some b ∧ Timestamp b = Timestamp a
    ∧ InitialAddedTimestamp b = InitialAddedTimestamp a).
  { assert (Hadd : ∀ p, ∃ b, items (update podInfoKeyFunc keepTimestamps p f) !! k = Some b
      ∧ Timestamp b = Timestamp a ∧ InitialAddedTimestamp b = InitialAddedTimestamp a).
    { intros p. pose proof (fifo_add_spec podInfoKeyFunc keepTimestamps keepTimestamps_key f p Hwf)
        as (_ & Hi & _). simpl in Hi. rw Hi.
      destruct (decide (podInfoKeyFunc p = k)) as [<-|Hne].
      - rw lookup_insert_eq Ha. by eexists.
      - rw lookup_insert_ne; [|done]. by exists a. }
    destruct op as [now p|now p| |p]; [apply Hadd|apply Hadd|done|].
    simpl. pose proof (fifo_delete_spec podInfoKeyFunc f p Hwf) as (_ & Hi & _). simpl in Hi.
    unfold RemovePodInfo. rw Hi. rw lookup_delete_ne; [by exists a|]. by apply Hrem. }
  destruct Hstep as (b & Hb & Ht & Hi). destruct (IH b (pod_step f op) Hb) as (c & Hc & Ht' & Hi').
  { by apply pod_step_wf. }
  exists c. split_and!; [done|congruence..].
Qed.

Lemma pod_queue_timestamps_witness :
  let a := {| PodKey := "a"; ResourceType := GuaranteedPod; Timestamp := 0; InitialAddedTimestamp := 0; SpanContext := "" |} in
  ∃ b, items (foldl pod_step (pod_run [OpAdd 5 a]) [OpUpdate 7 a]) !! "a" = Some b
    ∧ Timestamp b = 5%Z ∧ InitialAddedTimestamp b = 5%Z.
Proof.
  intros a. apply (pod_queue_timestamps [OpAdd 5 a] [OpUpdate 7 a] "a"
    {| PodKey := "a"; ResourceType := GuaranteedPod; Timestamp := 5; InitialAddedTimestamp := 5; SpanContext := "" |}).
  - reflexivity.
  - repeat constructor; done.
Defined.

(** ** priority_queue.go *)
Section priority_queue.
Context {T : Type} (lessFn : option (T → T → bool)).

(** [priorityQueue.items]; [Less] falls back to comparing indices. *)
Abbreviation pqueue := (list T).

Definition pq_Less (i j : nat) (q : pqueue) : option bool :=
  match lessFn with
  | None => Some (bool_decide (i < j))
  | Some less => a ← q !! i; b ← q !! j; Some (less a b)
  end.
Definition pq_Swap (i j : nat) (q : pqueue) : option pqueue := swap i j q.
Definition pq_Push (x : T) (q : pqueue) : option pqueue := Some (q ++ [x]).
Definition pq_Pop (q : pqueue) : option (pqueue * T) :=
  item ← q !! (length q - 1); Some (take (length q - 1) q, item).

#[local] Instance pq_heap : HeapInterface pqueue T T := {
  h_Len := length; h_Less := pq_Less; h_Swap := pq_Swap; h_Push := pq_Push; h_Pop := pq_Pop
}.

Definition NewPriorityQueue : pqueue := [].
Definition PriorityQueue_Push (x : T) (q : pqueue) : option pqueue := heap_Push x q.
(** The outer [option] is a panic, the inner one the nil returned when empty. *)
Definition PriorityQueue_Pop (q : pqueue) : option (pqueue * option T) :=
  if decide (length q = 0) then Some (q, None)
  else r ← heap_Pop q; Some (r.1, Some r.2).
Definition PriorityQueue_Empty (q : pqueue) : bool := bool_decide (length q = 0).
Definition PriorityQueue_Len (q : pqueue) : nat := length q.

Fixpoint push_all (xs : list T) (q : pqueue) : option pqueue :=
  match xs with
  | [] => Some q
  | x :: xs => q ← PriorityQueue_Push x q; push_all xs q
  end.

(** Popping until the queue is empty. *)
Fixpoint drain (fuel : nat) (q : pqueue) : option (list T) :=
  match fuel with
  | O => if PriorityQueue_Empty q then Some [] else None
  | S fuel =>
      r ← PriorityQueue_Pop q;
      match r.2 with
      | None => Some []
      | Some x => cons x <$> drain fuel r.1
      end
  end.
End priority_queue.

Section priority_queue_correct.
Context {T : Type} (lt : T → T → bool) `{!StrictWeak lt}.

#[local] Instance pq_laws :
  @HeapLaws (list T) T T T (pq_heap (Some lt)) lt eq (λ x e _, x = e) id.
Proof.
  split; simpl.
  - by intros h l ->.
  - intros h l i j x y -> Hi Hj. unfold pq_Less. by rw Hi /= Hj.
  - intros h l i j x y -> Hi Hj. eexists. split; [by apply swap_Some|done].
  - intros h l x e -> ->. by eexists.
  - intros h l e ->. unfold pq_Pop. rw length_app /= Nat.add_sub list_lookup_middle; [|done].
    simpl. eexists. split; [done|]. by rw take_app_length.
Qed.

Lemma push_all_spec xs q :
  heap_ordered lt q →
  ∃ q', push_all (Some lt) xs q = Some q' ∧ heap_ordered lt q' ∧ q' ≡ₚ xs ++ q.
Proof.
  revert q. induction xs as [|x xs IH]; intros q Hq; simpl; [by exists q|].
  destruct (heap_Push_spec (HI := pq_heap (Some lt)) lt eq (λ x e _, x = e) id q q x x) as (q1 & l1 & Hpush & <- & Ho & Hp);
    [done..|].
  unfold PriorityQueue_Push. rw Hpush. cbn [mbind option_bind].
  destruct (IH q1 Ho) as (q2 & -> & Ho2 & Hp2). exists q2. split_and!; [done..|].
  rw Hp2 Hp. by rw Permutation_middle.
Qed.

Lemma pq_drain_spec n q :
  length q = n → heap_ordered lt q →
  ∃ ys, drain (Some lt) n q = Some ys ∧ ys ≡ₚ q ∧ StronglySorted (λ a b, lt b a = false) ys.
Proof.
  revert q. induction n as [|n IH]; intros q Hn Hq.
  - apply length_zero_iff_nil in Hn as ->. exists []. split_and!; [done..|constructor].
  - simpl. unfold PriorityQueue_Pop. rw decide_False; [|lia].
    destruct (heap_Pop_spec (HI := pq_heap (Some lt)) lt eq (λ x e _, x = e) id q q) as (q' & l' & e & Hpop & <- & Ho & _ & Hp & Hmin);
      [done|done|by destruct q|].
    rw Hpop. cbn [mbind option_bind fst snd].
    destruct (IH q') as (ys & -> & Hys & Hs); [|done|].
    { apply Permutation_length in Hp. simpl in Hp. lia. }
    exists (e :: ys). split_and!; [done|by rw Hys Hp|]. constructor; [done|].
    apply Forall_forall. intros y Hy. apply (Hmin _). rw Hp -Hys. by right.
Qed.
End priority_queue_correct.

(** Pushing elements on the dispatcher's priority queue and popping until
    it is empty never panics and returns each pushed element once, in the order
    of the less function. *)
Theorem priority_queue_sorts {T} (lt : T → T → bool) (Hlt : StrictWeak lt) (xs : list T) :
  ∃ q ys, push_all (Some lt) xs NewPriorityQueue = Some q
    ∧ drain (Some lt) (length xs) q = Some ys
    ∧ ys ≡ₚ xs ∧ StronglySorted (λ a b, lt b a = false) ys.
Proof.
  destruct (push_all_spec lt xs []) as (q & Hq & Ho & Hp).
  { intros i. simpl. lia. }
  rw app_nil_r in Hp. destruct (pq_drain_spec lt (length xs) q) as (ys & Hy & Hyp & Hs); [|done|].
  { by apply Permutation_length. }
  exists q, ys. split_and!; try done. by rw Hyp.
Qed.

Lemma priority_queue_sorts_witness :
  ∃ q ys, push_all (Some Z.ltb) [3; 1; 2]%Z NewPriorityQueue = Some q
    ∧ drain (Some Z.ltb) 3 q = Some ys ∧ ys ≡ₚ [3; 1; 2]%Z.
Proof.
  destruct (priority_queue_sorts Z.ltb strict_weak_Zltb [3; 1; 2]%Z) as (q & ys & H1 & H2 & H3 & _).
  by exists q, ys.
Defined.
