(* ===== verification/DispatchStore.v ===== *)
(** * What the dispatcher remembers about dispatched pods

    [dispatchInfo] and [ownerInfo] of pkg/dispatcher/internal/store/dispatch.go:
    which scheduler each dispatched pod was given to, the inverse index used to
    balance the load, and the scheduler all unbound pods of one owner share. *)
From S2P Require Import Prelude GoStrings PodModel PodState.

Local Open Scope godel_scope.
Local Open Scope string_scope.

(** ** podStore: sets of pods by scheduler *)

Abbreviation podStore := (gmap string (gset string)).

Definition addPod_store (key podID : string) (ps : podStore) : podStore :=
  match ps !! key with
  | None => <[key := {[podID]}]> ps
  | Some val => <[key := {[podID]} ∪ val]> ps
  end.

Definition removePod_store (key podID : string) (ps : podStore) : podStore :=
  match ps !! key with
  | None => ps
  | Some val =>
      let val := val ∖ {[podID]} in
      if decide (size val = 0) then delete key ps else <[key := val]> ps
  end.

(** ** dispatchInfo *)

Record podInfo := { podKey : string; gangID : string; scheduler : string; timeStamp : Z }.

Definition GetPodGroupFullName (p : Pod) : string :=
  let pgName := GetPodGroupName p in
  if pgName ≟ "" then "" else Namespace p ++ "/" ++ pgName.

Definition NewPodInfo (now : Z) (p : Pod) (s : string) : podInfo :=
  {| podKey := GetPodKey p; gangID := GetPodGroupFullName p; scheduler := s; timeStamp := now |}.

Record dispatchInfo := {
  Pods : gmap string podInfo;
  SchedulerToPods : podStore;
  Schedulers : gset string
}.

Definition NewDispatchInfo : dispatchInfo :=
  {| Pods := ∅; SchedulerToPods := ∅; Schedulers := ∅ |}.

Definition AddScheduler (name : string) (d : dispatchInfo) : dispatchInfo :=
  if name ≟ "" then d
  else {| Pods := Pods d; SchedulerToPods := SchedulerToPods d; Schedulers := {[name]} ∪ Schedulers d |}.

Definition DeleteScheduler (name : string) (d : dispatchInfo) : dispatchInfo :=
  {| Pods := Pods d; SchedulerToPods := SchedulerToPods d; Schedulers := Schedulers d ∖ {[name]} |}.

(** [cache.MetaNamespaceKeyFunc] on a pod *)
Definition MetaNamespaceKey (p : Pod) : string :=
  if Namespace p ≟ "" then Name p else Namespace p ++ "/" ++ Name p.

Definition addPod (now : Z) (p : Pod) (s : string) (d : dispatchInfo) : dispatchInfo :=
  let key := MetaNamespaceKey p in
  {| Pods := <[key := NewPodInfo now p s]> (Pods d);
     SchedulerToPods := addPod_store s key (SchedulerToPods d);
     Schedulers := Schedulers d |}.

Definition AddPod (now : Z) (p : Pod) (d : dispatchInfo) : dispatchInfo :=
  addPod now p (anno p SchedulerAnnotationKey) d.

Definition removeFromScheduler (podID : string) (d : dispatchInfo) : dispatchInfo :=
  if podID ≟ "" then d
  else match Pods d !! podID with
       | None => d
       | Some i => {| Pods := Pods d;
                      SchedulerToPods := removePod_store (scheduler i) podID (SchedulerToPods d);
                      Schedulers := Schedulers d |}
       end.

Definition RemovePodByKey (key : string) (d : dispatchInfo) : dispatchInfo :=
  match Pods d !! key with
  | None => d
  | Some _ =>
      let d := removeFromScheduler key d in
      {| Pods := delete key (Pods d); SchedulerToPods := SchedulerToPods d; Schedulers := Schedulers d |}
  end.

Definition removePod (p : Pod) (d : dispatchInfo) : dispatchInfo :=
  let key := MetaNamespaceKey p in
  match Pods d !! key with
  | None => d
  | Some _ =>
      let d := removeFromScheduler key d in
      {| Pods := delete key (Pods d); SchedulerToPods := SchedulerToPods d; Schedulers := Schedulers d |}
  end.

Definition RemovePod : Pod → dispatchInfo → dispatchInfo := removePod.
Definition AddPodInAdvance : Z → Pod → string → dispatchInfo → dispatchInfo := addPod.
Definition UpdatePodInAdvance (now : Z) (p : Pod) (s : string) (d : dispatchInfo) : dispatchInfo :=
  addPod now p s (removePod p d).

(** [len(dq.SchedulerToPods[name])] *)
Definition load (d : dispatchInfo) (name : string) : Z :=
  match SchedulerToPods d !! name with Some v => Z.of_nat (size v) | None => 0 end.

Section most_idle.
(** The order of [range] over a set, and the numbers [rand.Intn] draws. *)
Context (order : gset string → list string) (rand : nat → nat).

Definition MaxInt32 : Z := 2147483647.

(** One round of the reservoir sampling loop; [n] counts the rounds. *)
Definition idle_step (d : dispatchInfo) (acc : string * Z * nat * nat) (name : string)
    : string * Z * nat * nat :=
  let '(result, max, randomPoolSize, n) := acc in
  let cnt := load d name in
  if (cnt <? max)%Z then (name, cnt, 1, S n)
  else if (cnt =? max)%Z then
    (if decide (rand n mod S randomPoolSize = 0) then name else result, max, S randomPoolSize, S n)
  else (result, max, randomPoolSize, S n).

Definition mostIdle (d : dispatchInfo) : string :=
  (foldl (idle_step d) ("", MaxInt32, 0, 0) (order (Schedulers d))).1.1.1.

Definition GetMostIdleSchedulerAndAddPodInAdvance (now : Z) (p : Pod) (d : dispatchInfo)
    : dispatchInfo * string :=
  let result := mostIdle d in
  (if negb (result ≟ "") then addPod now p result d else d, result).

Definition GetPodsOfOneScheduler (name : string) (d : dispatchInfo) : list string :=
  match SchedulerToPods d !! name with
  | None => []
  | Some keys => omap (λ k, podKey <$> Pods d !! k) (order keys)
  end.
End most_idle.

(** ** ownerInfo *)

Record ownerPodsInfo := { schedulerName : string; unBoundPods : gset string }.

Record ownerInfo := {
  ownerToUnboundPods : gmap string ownerPodsInfo;
  podToOwner : gmap string string
}.

Definition NewOwnerInfo : ownerInfo := {| ownerToUnboundPods := ∅; podToOwner := ∅ |}.

Definition owner_addPod (podOwner podKey s : string) (o : ownerInfo) : ownerInfo :=
  let pods := match ownerToUnboundPods o !! podOwner with
              | Some i => unBoundPods i
              | None => ∅
              end in
  {| ownerToUnboundPods :=
       <[podOwner := {| schedulerName := s; unBoundPods := {[podKey]} ∪ pods |}]> (ownerToUnboundPods o);
     podToOwner := <[podKey := podOwner]> (podToOwner o) |}.

Definition getOwnerScheduler (podOwner : string) (o : ownerInfo) : string :=
  match ownerToUnboundPods o !! podOwner with Some i => schedulerName i | None => "" end.

Definition AddDispatchedUnboundPod (p : Pod) (s : string) (o : ownerInfo) : ownerInfo :=
  if s ≟ "" then o
  else let podOwner := GetPodOwnerInfoKey p in
       if podOwner ≟ "" then o else owner_addPod podOwner (GeneratePodKey p) s o.

Definition SetDispatchedUnboundPod (p : Pod) (s : string) (o : ownerInfo) : ownerInfo * string :=
  if s ≟ "" then (o, s)
  else
    let podOwner := GetPodOwnerInfoKey p in
    if podOwner ≟ "" then (o, s)
    else
      let existing := getOwnerScheduler podOwner o in
      let s := if negb (existing ≟ "") && negb (existing ≟ s) then existing else s in
      (owner_addPod podOwner (GeneratePodKey p) s o, s).

Definition DeleteDispatchedUnboundPod (p : Pod) (o : ownerInfo) : ownerInfo :=
  let podKey := GeneratePodKey p in
  let podOwner := default "" (podToOwner o !! podKey) in
  let m := match ownerToUnboundPods o !! podOwner with
           | None => ownerToUnboundPods o
           | Some i =>
               let pods := unBoundPods i ∖ {[podKey]} in
               if decide (size pods = 0) then delete podOwner (ownerToUnboundPods o)
               else <[podOwner := {| schedulerName := schedulerName i; unBoundPods := pods |}]>
                      (ownerToUnboundPods o)
           end in
  {| ownerToUnboundPods := m; podToOwner := delete podKey (podToOwner o) |}.

Definition SelectSchedulerAndSetDispatchedUnboundPod (p : Pod) (o : ownerInfo) : ownerInfo * string :=
  let podOwner := GetPodOwnerInfoKey p in
  if podOwner ≟ "" then (o, "")
  else
    let s := getOwnerScheduler podOwner o in
    (if negb (s ≟ "") then owner_addPod podOwner (GeneratePodKey p) s o else o, s).

(** ** Consistency of the index *)

Definition members (ps : podStore) (s : string) : gset string := default ∅ (ps !! s).

(** [SchedulerToPods] is the inverse of [Pods], and stores no empty set. *)
Definition consistent (d : dispatchInfo) : Prop :=
  (∀ s k, k ∈ members (SchedulerToPods d) s ↔ scheduler <$> Pods d !! k = Some s)
  ∧ (∀ s, SchedulerToPods d !! s ≠ Some ∅)
  ∧ "" ∉ Schedulers d ∧ Pods d !! "" = None.

Lemma members_add s k ps s' :
  members (addPod_store s k ps) s' = if decide (s = s') then {[k]} ∪ members ps s' else members ps s'.
Proof.
  unfold addPod_store, members.
  destruct (ps !! s) eqn:E; (case_decide; subst; [rw lookup_insert_eq ?E /=|by rw lookup_insert_ne]);
    set_solver.
Qed.

Lemma members_remove s k ps s' :
  members (removePod_store s k ps) s' = if decide (s = s') then members ps s' ∖ {[k]} else members ps s'.
Proof.
  unfold removePod_store, members. destruct (ps !! s) as [v|] eqn:E.
  - case_decide as Hs; case_decide; subst;
      rw ?lookup_delete_eq ?lookup_insert_eq ?E /= ?lookup_delete_ne ?lookup_insert_ne //.
    apply size_empty_inv in Hs. set_solver.
  - case_decide; subst; rw ?E /=; set_solver.
Qed.

Lemma add_nonempty s k (ps : podStore) s' : ps !! s' ≠ Some ∅ → addPod_store s k ps !! s' ≠ Some ∅.
Proof.
  intros H. unfold addPod_store.
  destruct (ps !! s) eqn:E; (destruct (decide (s = s')) as [->|];
    [rw lookup_insert_eq|by rw lookup_insert_ne]); intros [= Heq]; set_solver.
Qed.

Lemma remove_nonempty s k (ps : podStore) s' : ps !! s' ≠ Some ∅ → removePod_store s k ps !! s' ≠ Some ∅.
Proof.
  intros H. unfold removePod_store. destruct (ps !! s) as [v|] eqn:E; [|done].
  case_decide as Hs; (destruct (decide (s = s')) as [->|];
    [rw ?lookup_delete_eq ?lookup_insert_eq|by rw ?lookup_delete_ne ?lookup_insert_ne]); [done|].
  intros [= Heq]. by rw Heq in Hs.
Qed.

Lemma add_consistent now p s d :
  consistent d → MetaNamespaceKey p ≠ "" →
  (∀ s', scheduler <$> Pods d !! MetaNamespaceKey p = Some s' → s' = s) →
  consistent (addPod now p s d).
Proof.
  intros (Hc & Hn & Hs & He) Hk Hold. split_and!; simpl.
  - intros s' k. rw members_add. destruct (decide (MetaNamespaceKey p = k)) as [<-|Hne].
    + rw lookup_insert_eq /=. case_decide; [subst; set_solver|].
      rw Hc. split; [intros ?%Hold; congruence|congruence].
    + rw lookup_insert_ne; [|done]. rw -Hc. case_decide; set_solver.
  - intros s'. by apply add_nonempty.
  - done.
  - by rw lookup_insert_ne.
Qed.

Lemma remove_consistent p d : consistent d → consistent (removePod p d).
Proof.
  intros (Hc & Hn & Hs & He). unfold removePod, removeFromScheduler.
  destruct (Pods d !! MetaNamespaceKey p) as [i|] eqn:E; [|done].
  rw bool_decide_false; [|intros Hk; rw Hk in E; congruence].
  split_and!; simpl; [|by intros; apply remove_nonempty|done|].
  - intros s' k. rw members_remove. destruct (decide (MetaNamespaceKey p = k)) as [<-|Hne].
    + rw lookup_delete_eq /=. case_decide; [set_solver|]. rw Hc E /=. split; congruence.
    + rw lookup_delete_ne; [|done]. rw -Hc. case_decide; set_solver.
  - destruct (decide (MetaNamespaceKey p = "")) as [->|]; [by rw lookup_delete_eq|by rw lookup_delete_ne].
Qed.

Lemma removed_untracked p d : Pods (removePod p d) !! MetaNamespaceKey p = None.
Proof.
  unfold removePod. destruct (Pods d !! MetaNamespaceKey p) eqn:E; [|done]. simpl.
  by rw lookup_delete_eq.
Qed.

(** ** Theorems *)

Inductive dispatch_op :=
  | DAdd (now : Z) (p : Pod) | DRemove (p : Pod) | DRemoveKey (k : string)
  | DAdvance (now : Z) (p : Pod) (s : string) | DUpdate (now : Z) (p : Pod) (s : string)
  | DIdle (rand : nat → nat) (now : Z) (p : Pod) | DAddSched (n : string) | DDelSched (n : string).

Section dispatch_run.
Context (order : gset string → list string).

Definition dispatch_step (d : dispatchInfo) (op : dispatch_op) : dispatchInfo :=
  match op with
  | DAdd now p => AddPod now p d
  | DRemove p => RemovePod p d
  | DRemoveKey k => RemovePodByKey k d
  | DAdvance now p s => AddPodInAdvance now p s d
  | DUpdate now p s => UpdatePodInAdvance now p s d
  | DIdle rand now p => (GetMostIdleSchedulerAndAddPodInAdvance order rand now p d).1
  | DAddSched n => AddScheduler n d
  | DDelSched n => DeleteScheduler n d
  end.

(** The pods of an operation have names. *)
Definition named (op : dispatch_op) : Prop :=
  match op with
  | DAdd _ p | DAdvance _ p _ | DUpdate _ p _ | DIdle _ _ p => MetaNamespaceKey p ≠ ""
  | _ => True
  end.

(** The states that any operations on named pods lead to. *)
Inductive dispatch_any : dispatchInfo → Prop :=
  | any_new : dispatch_any NewDispatchInfo
  | any_more d op : dispatch_any d → named op → dispatch_any (dispatch_step d op).

(** A pod that is added is not tracked under another scheduler at that moment.
    The dispatcher does not always respect this: [addPod] does not remove a pod
    from the list of the scheduler it was under (dispatch.go:166). *)
Definition tracked_only (d : dispatchInfo) (p : Pod) (s : string) : Prop :=
  MetaNamespaceKey p ≠ "" ∧ ∀ s', scheduler <$> Pods d !! MetaNamespaceKey p = Some s' → s' = s.

Definition op_ok (d : dispatchInfo) (op : dispatch_op) : Prop :=
  match op with
  | DAdd _ p => tracked_only d p (anno p SchedulerAnnotationKey)
  | DAdvance _ p s => tracked_only d p s
  | DUpdate _ p _ => MetaNamespaceKey p ≠ ""
  | DIdle rand _ p => tracked_only d p (mostIdle order rand d)
  | _ => True
  end.

(** The states the operations that respect [op_ok] lead to. *)
Inductive dispatch_reachable : dispatchInfo → Prop :=
  | dispatch_new : dispatch_reachable NewDispatchInfo
  | dispatch_more d op : dispatch_reachable d → op_ok d op → dispatch_reachable (dispatch_step d op).

Lemma removeKey_consistent k d : consistent d → consistent (RemovePodByKey k d).
Proof.
  intros Hd. destruct (decide (k = "")) as [->|Hk].
  - unfold RemovePodByKey. destruct Hd as (? & ? & ? & He). by rw He.
  - replace (RemovePodByKey k d) with (removePod (set_Annotations None
      {| Name := k; Namespace := ""; UID := ""; CreationTimestamp := 0; Annotations := None; OwnerReferences := [];
         NodeName := ""; SchedulerName := ""; PriorityClassName := ""; Priority := None;
         PreemptionPolicy := None; Containers := []; InitContainers := []; Conditions := [];
     Labels := ∅; Tolerations := []; Affinity := None; Overhead := None; StartTime := None;
     DeletionTimestamp := None |}) d) by done.
    by apply remove_consistent.
Qed.

Lemma reachable_consistent d : dispatch_reachable d → consistent d.
Proof.
  induction 1 as [|d op _ Hd Hop].
  - split_and!; simpl; [|by intros|set_solver|done].
    intros s k. unfold members. rw !lookup_empty /=. set_solver.
  - destruct op as [now p|p|k|now p s|now p s|rand now p|n|n]; simpl in *.
    + destruct Hop. by apply add_consistent.
    + by apply remove_consistent.
    + by apply removeKey_consistent.
    + destruct Hop. by apply add_consistent.
    + apply add_consistent; [by apply remove_consistent|done|]. by rw removed_untracked.
    + case_bool_decide; simpl; [done|]. destruct Hop. by apply add_consistent.
    + unfold AddScheduler. case_bool_decide; [done|]. destruct Hd as (? & ? & ? & ?).
      split_and!; simpl; [done..| |done]. set_solver.
    + destruct Hd as (? & ? & ? & ?). split_and!; simpl; [done..| |done]. set_solver.
Qed.

(** What every operation keeps: a tracked pod is in the list of its scheduler. *)
Definition covered (d : dispatchInfo) : Prop :=
  (∀ s k, scheduler <$> Pods d !! k = Some s → k ∈ members (SchedulerToPods d) s) ∧ Pods d !! "" = None.

Lemma add_covered now p s d : covered d → MetaNamespaceKey p ≠ "" → covered (addPod now p s d).
Proof.
  intros [Hc He] Hk. split; simpl; [|by rw lookup_insert_ne].
  intros s' k. rw members_add. destruct (decide (MetaNamespaceKey p = k)) as [<-|Hne].
  - rw lookup_insert_eq /=. intros [= <-]. rw decide_True //. set_solver.
  - rw lookup_insert_ne; [|done]. intros H%Hc. case_decide; set_solver.
Qed.

Lemma removeKey_covered k d : covered d → covered (RemovePodByKey k d).
Proof.
  intros [Hc He]. unfold RemovePodByKey, removeFromScheduler.
  destruct (Pods d !! k) as [i|] eqn:E; [|done].
  rw bool_decide_false; [|intros Hk; rw Hk in E; congruence]. split; simpl.
  - intros s' k'. rw members_remove. destruct (decide (k = k')) as [<-|Hne]; [by rw lookup_delete_eq|].
    rw lookup_delete_ne; [|done]. intros H%Hc. case_decide; set_solver.
  - destruct (decide (k = "")) as [->|]; [by rw lookup_delete_eq|by rw lookup_delete_ne].
Qed.

Lemma any_covered d : dispatch_any d → covered d.
Proof.
  induction 1 as [|d op _ Hd Hop].
  - split; simpl; [|done]. intros s k. by rw lookup_empty.
  - destruct op as [now p|p|k|now p s|now p s|rand now p|n|n]; simpl in *.
    + by apply add_covered.
    + by apply (removeKey_covered (MetaNamespaceKey p)).
    + by apply removeKey_covered.
    + by apply add_covered.
    + apply add_covered; [|done]. by apply (removeKey_covered (MetaNamespaceKey p)).
    + case_bool_decide; simpl; [done|]. by apply add_covered.
    + unfold AddScheduler. by case_bool_decide.
    + done.
Qed.

Definition tracked (d : dispatchInfo) (s : string) : gset string :=
  dom (filter (λ ki, scheduler ki.2 = s) (Pods d)).

Lemma members_tracked d s : consistent d → members (SchedulerToPods d) s = tracked d s.
Proof.
  intros (Hc & _). apply set_eq. intros k. rw Hc. unfold tracked. rw elem_of_dom.
  split.
  - intros (i & Hi & Hs)%fmap_Some. exists i. by apply map_lookup_filter_Some.
  - intros (i & [Hi Hs]%map_lookup_filter_Some). apply fmap_Some. by exists i.
Qed.

Lemma tracked_covered d s :
  (∀ s k, scheduler <$> Pods d !! k = Some s → k ∈ members (SchedulerToPods d) s) →
  tracked d s ⊆ members (SchedulerToPods d) s.
Proof.
  intros Hc k Hk. unfold tracked in Hk. apply elem_of_dom in Hk as (i & [Hi Hs]%map_lookup_filter_Some).
  apply Hc. by rw Hi /= Hs.
Qed.

Lemma load_members d s : load d s = Z.of_nat (size (members (SchedulerToPods d) s)).
Proof. unfold load, members. destruct (SchedulerToPods d !! s); [done|]. by rw size_empty. Qed.

Lemma tracked_names d s :
  omap (λ k, podKey <$> Pods d !! k) (elements (tracked d s))
  = (λ k, default "" (podKey <$> Pods d !! k)) <$> elements (tracked d s).
Proof.
  assert (Hall : ∀ k, k ∈ elements (tracked d s) → is_Some (Pods d !! k)).
  { intros k. rw elem_of_elements elem_of_dom. intros (i & [Hi _]%map_lookup_filter_Some). by exists i. }
  induction (elements (tracked d s)) as [|k l IH]; [done|]. simpl.
  destruct (Hall k) as [i Hi]; [by left|]. rw Hi /=. f_equal. apply IH.
  intros k' Hk'. apply Hall. by right.
Qed.
End dispatch_run.

(** C34: The pod list of a scheduler against the map of pods.  After any store
    operations on named pods, every pod tracked under a scheduler is named by its
    list, which names tracked pods only, and the load is at least the number of
    pods tracked under it.  If moreover no pod was added while tracked under
    another scheduler, the load is exactly that number and the list names exactly
    those pods.  Otherwise the list of the former scheduler keeps the pod
    (dispatch.go:166). *)
Theorem dispatch_index_consistent order (d : dispatchInfo) (s : string)
    (Horder : ∀ X, order X ≡ₚ elements X) (Hd : dispatch_any order d) :
  let names := (λ k, default "" (podKey <$> Pods d !! k)) <$> elements (tracked d s) in
  names ⊆ GetPodsOfOneScheduler order s d
  ∧ (∀ n, n ∈ GetPodsOfOneScheduler order s d → ∃ k i, Pods d !! k = Some i ∧ podKey i = n)
  ∧ (Z.of_nat (size (tracked d s)) ≤ load d s)%Z
  ∧ (dispatch_reachable order d →
     load d s = Z.of_nat (size (tracked d s)) ∧ GetPodsOfOneScheduler order s d ≡ₚ names).
Proof.
  intros names. apply any_covered in Hd. destruct Hd as [Hd _]. pose proof (tracked_covered d s Hd) as Hsub.
  assert (GetPodsOfOneScheduler order s d ≡ₚ
    omap (λ k, podKey <$> Pods d !! k) (elements (members (SchedulerToPods d) s))) as EL.
  { unfold GetPodsOfOneScheduler, members. by destruct (SchedulerToPods d !! s); simpl; [rw Horder|rw elements_empty]. }
  split_and!.
  - intros n (k & -> & Hk%elem_of_elements)%list_elem_of_fmap. rw EL. apply list_elem_of_omap.
    exists k. rw elem_of_elements. split; [by apply Hsub|].
    unfold tracked in Hk. apply elem_of_dom in Hk as (i & [Hi _]%map_lookup_filter_Some). by rw Hi.
  - intros n. rw EL list_elem_of_omap. intros (k & _ & (i & Hi & ->)%fmap_Some). by exists k, i.
  - rw load_members. apply inj_le, subseteq_size, Hsub.
  - intros Hr%reachable_consistent. pose proof (members_tracked d s Hr) as Hm. rw load_members Hm.
    split; [done|]. rw EL Hm. by rw tracked_names.
Qed.

Lemma dispatch_index_consistent_witness :
  let d := dispatch_step elements NewDispatchInfo (DAdvance 1 example_pod "s1") in
  load d "s1" = Z.of_nat (size (tracked d "s1")).
Proof.
  intros d. apply (dispatch_index_consistent elements d "s1"); [done| |].
  - apply any_more; [constructor|done].
  - apply dispatch_more; [constructor|]. split; [done|]. by intros s'.
Defined.

(** The state of the sampling loop after the schedulers [seen]. *)
Definition idle_inv (d : dispatchInfo) (seen : list string) (acc : string * Z * nat * nat) : Prop :=
  let '(result, max, pool, _) := acc in
  match seen with
  | [] => result = "" ∧ max = MaxInt32
  | _ => result ∈ seen ∧ load d result = max ∧ ∀ s, s ∈ seen → (max ≤ load d s)%Z
  end.

Lemma idle_loop_inv rand d l :
  (∀ s, s ∈ l → (load d s < MaxInt32)%Z) →
  idle_inv d l (foldl (idle_step rand d) ("", MaxInt32, 0, 0) l).
Proof.
  induction l as [|s l IH] using rev_ind; intros Hl; [done|].
  rw foldl_snoc. assert (Hs : (load d s < MaxInt32)%Z) by (apply Hl; set_solver).
  specialize (IH ltac:(set_solver)).
  destruct (foldl (idle_step rand d) ("", MaxInt32, 0, 0) l) as [[[result max] pool] n].
  unfold idle_step. destruct l as [|a l].
  - destruct IH as [-> ->]. destruct (Z.ltb_spec (load d s) MaxInt32); [|lia]. simpl.
    split_and!; [set_solver|done|]. intros s'. rw list_elem_of_singleton. by intros ->.
  - destruct IH as (Hin & Hmax & Hmin). set (l' := a :: l) in *.
    assert (Hcase : ∀ r m pl, r ∈ (l' ++ [s])%list → load d r = m → (m ≤ load d s)%Z →
      (∀ s', s' ∈ l' → (m ≤ load d s')%Z) → idle_inv d (l' ++ [s])%list (r, m, pl, S n)).
    { intros r m pl Hr Hm Hms Hms'. unfold l'. simpl. split_and!; [done|done|].
      intros s'. change (a :: l ++ [s])%list with (l' ++ [s])%list. rw elem_of_app list_elem_of_singleton.
      intros [?| ->]; auto. }
    destruct (Z.ltb_spec (load d s) max).
    + apply Hcase; [set_solver|done|done|]. intros s' Hs'. pose proof (Hmin s' Hs'). lia.
    + destruct (Z.eqb_spec (load d s) max).
      * case_decide; apply Hcase; try done; try lia; set_solver.
      * apply Hcase; try done. set_solver.
Qed.

(** Whatever the iteration order and the random numbers, a pod is handed to
    a registered scheduler with the fewest tracked pods, which then tracks it;
    no scheduler is chosen, and nothing changes, exactly when none is
    registered. *)
Theorem most_idle_scheduler order rand (now : Z) (p : Pod) (d : dispatchInfo)
    (Horder : ∀ X, order X ≡ₚ elements X) (Hempty : "" ∉ Schedulers d)
    (Hload : ∀ s, s ∈ Schedulers d → (load d s < MaxInt32)%Z) :
  let '(d', s) := GetMostIdleSchedulerAndAddPodInAdvance order rand now p d in
  (Schedulers d = ∅ → s = "" ∧ d' = d)
  ∧ (Schedulers d ≠ ∅ →
      s ∈ Schedulers d ∧ (∀ s', s' ∈ Schedulers d → (load d s ≤ load d s')%Z)
      ∧ d' = addPod now p s d ∧ MetaNamespaceKey p ∈ members (SchedulerToPods d') s).
Proof.
  unfold GetMostIdleSchedulerAndAddPodInAdvance, mostIdle.
  assert (Hin : ∀ s, s ∈ order (Schedulers d) ↔ s ∈ Schedulers d).
  { intros s. by rw Horder elem_of_elements. }
  pose proof (idle_loop_inv rand d (order (Schedulers d))) as Hinv.
  destruct (foldl (idle_step rand d) _ _) as [[[result max] pool] n]. simpl.
  specialize (Hinv ltac:(intros s; rw Hin; apply Hload)).
  destruct (order (Schedulers d)) as [|a l] eqn:E.
  - destruct Hinv as [-> ->].
    assert (Hnone : Schedulers d = ∅) by (apply set_eq; intros s; rw -Hin; set_solver).
    split; [done|]. by intros [].
  - destruct Hinv as (Hr & Hm & Hmin). apply Hin in Hr as Hr'.
    assert (Hne : Schedulers d ≠ ∅) by set_solver.
    split; [done|]. intros _. rw bool_decide_false; [|by intros ->]. split_and!; try done.
    + intros s' Hs'%Hin. rw Hm. by apply Hmin.
    + simpl. rw members_add. rw decide_True; [|done]. set_solver.
Qed.

Lemma most_idle_scheduler_witness :
  let d := AddScheduler "s1" NewDispatchInfo in
  (GetMostIdleSchedulerAndAddPodInAdvance elements (λ n, n) 1 example_pod d).2 ∈ Schedulers d.
Proof.
  intros d. pose proof (most_idle_scheduler elements (λ n, n) 1 example_pod d) as H.
  destruct (GetMostIdleSchedulerAndAddPodInAdvance elements (λ n, n) 1 example_pod d) as [d' s].
  destruct H as [_ H]; [done| | |]; [vm_compute; set_solver| |].
  - intros s'. rw elem_of_union elem_of_singleton elem_of_empty. intros [->|[]]. reflexivity.
  - by apply H.
Defined.

(** Handing a pod to a second scheduler while it is still tracked under a
    first one leaves it counted in the first one's load for good: removing the
    pod afterwards does not take it out again. *)
Theorem readd_leaks_load (now : Z) (p : Pod) (s1 s2 : string) (d : dispatchInfo)
    (Hd : consistent d) (Hs : s1 ≠ s2) (Hk : MetaNamespaceKey p ≠ "")
    (Hnew : Pods d !! MetaNamespaceKey p = None) :
  let d' := RemovePod p (AddPodInAdvance now p s2 (AddPodInAdvance now p s1 d)) in
  Pods d' !! MetaNamespaceKey p = None
  ∧ MetaNamespaceKey p ∈ members (SchedulerToPods d') s1
  ∧ load d' s1 = (load d s1 + 1)%Z.
Proof.
  intros d'. split; [apply removed_untracked|].
  assert (Hm : members (SchedulerToPods d') s1 = {[MetaNamespaceKey p]} ∪ members (SchedulerToPods d) s1).
  { unfold d', RemovePod, removePod, removeFromScheduler, AddPodInAdvance, addPod. simpl.
    rw lookup_insert_eq /=. rw bool_decide_false; [|done]. simpl.
    rw members_remove decide_False; [|done]. rw members_add decide_False; [|done].
    rw members_add decide_True //. }
  split; [set_solver|].
  assert (Hload : ∀ e : dispatchInfo, load e s1 = Z.of_nat (size (members (SchedulerToPods e) s1))).
  { intros e. unfold load, members. by destruct (SchedulerToPods e !! s1). }
  rw !Hload Hm. rw size_union; [rw size_singleton; lia|].
  destruct Hd as (Hc & _). intros k. rw elem_of_singleton. intros -> Hin. apply Hc in Hin.
  by rw Hnew in Hin.
Qed.

Lemma readd_leaks_load_witness :
  let d' := RemovePod example_pod (AddPodInAdvance 1 example_pod "s2"
              (AddPodInAdvance 1 example_pod "s1" NewDispatchInfo)) in
  load d' "s1" = 1%Z.
Proof.
  intros d'. apply (readd_leaks_load 1 example_pod "s1" "s2" NewDispatchInfo); try done.
Defined.

(** ** Owners *)

(** [podToOwner] is the inverse of the owners' pod sets; owners with no unbound
    pod are dropped; recorded schedulers are non-empty. *)
Definition owner_inv (o : ownerInfo) : Prop :=
  (∀ ow k, (∃ i, ownerToUnboundPods o !! ow = Some i ∧ k ∈ unBoundPods i) ↔ podToOwner o !! k = Some ow)
  ∧ map_Forall (λ ow i, unBoundPods i ≠ ∅ ∧ schedulerName i ≠ "" ∧ ow ≠ "") (ownerToUnboundPods o).

(** The pod is unknown or known under this owner. *)
Definition owned_by (o : ownerInfo) (k ow : string) : Prop :=
  ∀ ow', podToOwner o !! k = Some ow' → ow' = ow.

Lemma owner_add_inv ow k s o :
  owner_inv o → owned_by o k ow → s ≠ "" → ow ≠ "" → owner_inv (owner_addPod ow k s o).
Proof.
  intros [Hi Hn] Hown Hs How. split; simpl.
  - intros ow' k'. destruct (decide (ow = ow')) as [<-|Hne].
    + rw lookup_insert_eq. destruct (decide (k = k')) as [<-|Hk].
      * rw lookup_insert_eq. split; [done|]. intros _. eexists. split; [done|]. simpl. set_solver.
      * rw lookup_insert_ne; [|done]. rw -Hi. split.
        -- intros (i & [= <-] & Hin). simpl in Hin. apply elem_of_union in Hin as [?|Hin]; [set_solver|].
           destruct (ownerToUnboundPods o !! ow) as [j|]; [by exists j|set_solver].
        -- intros (i & Hio & Hin). rw Hio. eexists. split; [done|]. simpl. set_solver.
    + rw lookup_insert_ne; [|done]. rw Hi. destruct (decide (k = k')) as [<-|Hk].
      * rw lookup_insert_eq. split; [intros H%Hown; congruence|congruence].
      * by rw lookup_insert_ne.
  - apply map_Forall_insert_2; [|done]. simpl. split_and!; [set_solver|done|done].
Qed.

Lemma owner_delete_inv p o : owner_inv o → owner_inv (DeleteDispatchedUnboundPod p o).
Proof.
  intros [Hi Hn]. unfold DeleteDispatchedUnboundPod. set (k := GeneratePodKey p).
  destruct (podToOwner o !! k) as [ow|] eqn:E; simpl.
  - apply Hi in E as (i & Ho & Hin). rw Ho. split; simpl.
    + intros ow' k'. destruct (decide (k = k')) as [<-|Hk].
      * rw lookup_delete_eq. split; [|done]. intros (j & Hj & Hkj).
        case_decide as Hsz; (destruct (decide (ow = ow')) as [<-|Hne];
          [rw ?lookup_delete_eq ?lookup_insert_eq in Hj|rw ?lookup_delete_ne ?lookup_insert_ne // in Hj]).
        -- done.
        -- assert (podToOwner o !! k = Some ow') by (apply Hi; by exists j).
           assert (podToOwner o !! k = Some ow) by (apply Hi; by exists i). congruence.
        -- injection Hj as <-. simpl in Hkj. set_solver.
        -- assert (podToOwner o !! k = Some ow') by (apply Hi; by exists j).
           assert (podToOwner o !! k = Some ow) by (apply Hi; by exists i). congruence.
      * rw lookup_delete_ne; [|done]. rw -Hi.
        case_decide as Hsz; (destruct (decide (ow = ow')) as [<-|Hne];
          [rw ?lookup_delete_eq ?lookup_insert_eq|by rw ?lookup_delete_ne ?lookup_insert_ne]).
        -- apply size_empty_inv in Hsz. rw Ho. split; [by intros (? & ? & ?)|].
           intros (j & [= <-] & Hj). set_solver.
        -- rw Ho. split; intros (j & [= <-] & Hj); (eexists; split; [done|]); simpl in *; set_solver.
    + case_decide as Hsz; [by apply map_Forall_delete|]. apply map_Forall_insert_2; [|done].
      destruct (Hn ow i Ho) as (_ & ? & ?). split_and!; simpl; try done.
      intros Hem. apply Hsz. by rw Hem size_empty.
  - assert (Hnone : ownerToUnboundPods o !! "" = None).
    { destruct (ownerToUnboundPods o !! "") as [i|] eqn:E'; [|done].
      by destruct (Hn "" i E') as (_ & _ & []). }
    rw Hnone. split; simpl; [|done]. intros ow' k'. rw Hi.
    destruct (decide (k = k')) as [<-|]; [by rw lookup_delete_eq E|by rw lookup_delete_ne].
Qed.

Inductive owner_op := OSet (p : Pod) (s : string) | OSelect (p : Pod) | ODelete (p : Pod)
  | OAdd (p : Pod) (s : string).

Definition owner_step (o : ownerInfo) (op : owner_op) : ownerInfo :=
  match op with
  | OSet p s => (SetDispatchedUnboundPod p s o).1
  | OSelect p => (SelectSchedulerAndSetDispatchedUnboundPod p o).1
  | ODelete p => DeleteDispatchedUnboundPod p o
  | OAdd p s => AddDispatchedUnboundPod p s o
  end.

(** A pod keeps its owner; the informer reports the scheduler the owner's pods
    were sent to. *)
Definition owner_op_ok (o : ownerInfo) (op : owner_op) : Prop :=
  match op with
  | OSet p _ | OSelect p => owned_by o (GeneratePodKey p) (GetPodOwnerInfoKey p)
  | ODelete _ => True
  | OAdd p s => owned_by o (GeneratePodKey p) (GetPodOwnerInfoKey p)
                ∧ (getOwnerScheduler (GetPodOwnerInfoKey p) o = ""
                   ∨ getOwnerScheduler (GetPodOwnerInfoKey p) o = s)
  end.

Inductive owner_reachable : ownerInfo → Prop :=
  | owner_new : owner_reachable NewOwnerInfo
  | owner_more o op : owner_reachable o → owner_op_ok o op → owner_reachable (owner_step o op).

Lemma owner_step_inv o op : owner_inv o → owner_op_ok o op → owner_inv (owner_step o op).
Proof.
  intros Ho Hop. destruct op as [p s|p|p|p s]; simpl in *.
  - unfold SetDispatchedUnboundPod. case_bool_decide; [done|]. case_bool_decide; [done|]. simpl.
    apply owner_add_inv; try done. repeat case_bool_decide; simpl; try done.
  - unfold SelectSchedulerAndSetDispatchedUnboundPod. case_bool_decide; [done|]. simpl.
    case_bool_decide; simpl; [done|]. by apply owner_add_inv.
  - by apply owner_delete_inv.
  - unfold AddDispatchedUnboundPod. case_bool_decide; [done|]. case_bool_decide; [done|].
    destruct Hop. by apply owner_add_inv.
Qed.

Lemma owner_reachable_inv o : owner_reachable o → owner_inv o.
Proof.
  induction 1 as [|o op _ IH Hop]; [|by apply owner_step_inv].
  split; simpl; [|done]. intros ow k. rw !lookup_empty. split; [by intros (? & ? & ?)|done].
Qed.

Lemma owner_add_scheduler ow k s o ow' :
  getOwnerScheduler ow' (owner_addPod ow k s o) = if decide (ow = ow') then s else getOwnerScheduler ow' o.
Proof.
  unfold getOwnerScheduler; simpl. case_decide; subst; [by rw lookup_insert_eq|by rw lookup_insert_ne].
Qed.

Lemma owner_delete_scheduler p o ow :
  ownerToUnboundPods (DeleteDispatchedUnboundPod p o) !! ow = None
  ∨ getOwnerScheduler ow (DeleteDispatchedUnboundPod p o) = getOwnerScheduler ow o.
Proof.
  unfold DeleteDispatchedUnboundPod, getOwnerScheduler. simpl.
  set (ow' := default "" (podToOwner o !! GeneratePodKey p)).
  destruct (ownerToUnboundPods o !! ow') as [i|] eqn:E; [|by right]. case_decide.
  - destruct (decide (ow' = ow)) as [->|]; [left; by rw lookup_delete_eq|].
    right. by rw lookup_delete_ne.
  - right. destruct (decide (ow' = ow)) as [->|]; [by rw lookup_insert_eq E|by rw lookup_insert_ne].
Qed.

(** All unbound pods of an owner go to one scheduler: once a scheduler is
    recorded for an owner, no operation changes it while the owner still has an
    unbound pod, and every pod of that owner that is dispatched meanwhile is
    redirected to it. *)
Theorem owner_affinity (o : ownerInfo) (op : owner_op) (ow : string) (p : Pod) (s : string)
    (Ho : owner_reachable o) (Hop : owner_op_ok o op)
    (Hrec : getOwnerScheduler ow o ≠ "") (Hp : GetPodOwnerInfoKey p = ow) (Hs : s ≠ "") :
  (ownerToUnboundPods (owner_step o op) !! ow = None
   ∨ getOwnerScheduler ow (owner_step o op) = getOwnerScheduler ow o)
  ∧ (SetDispatchedUnboundPod p s o).2 = getOwnerScheduler ow o
  ∧ (SelectSchedulerAndSetDispatchedUnboundPod p o).2 = getOwnerScheduler ow o
  ∧ (∃ i, ownerToUnboundPods o !! ow = Some i ∧ unBoundPods i ≠ ∅).
Proof.
  apply owner_reachable_inv in Ho as Hinv.
  assert (How : ow ≠ "" ∧ ∃ i, ownerToUnboundPods o !! ow = Some i ∧ unBoundPods i ≠ ∅).
  { unfold getOwnerScheduler in Hrec. destruct (ownerToUnboundPods o !! ow) as [i|] eqn:E; [|done].
    destruct Hinv as [_ Hn]. destruct (Hn ow i E) as (? & ? & ?). eauto. }
  destruct How as [How Hex]. split_and!; [| | |done].
  - destruct op as [q t|q|q|q t]; simpl in *.
    + right. unfold SetDispatchedUnboundPod. case_bool_decide; [done|]. case_bool_decide; [done|].
      simpl. rw owner_add_scheduler. case_decide as Hq; [|done]. rw Hq.
      rw (bool_decide_false (_ = "")); [|done]. simpl. by case_bool_decide.
    + right. unfold SelectSchedulerAndSetDispatchedUnboundPod. case_bool_decide; [done|]. simpl.
      case_bool_decide; [done|]. simpl. rw owner_add_scheduler. by case_decide as Hq; [rw Hq|].
    + apply owner_delete_scheduler.
    + right. unfold AddDispatchedUnboundPod. case_bool_decide; [done|]. case_bool_decide; [done|].
      rw owner_add_scheduler. case_decide as Hq; [|done]. destruct Hop as [_ [Hx|Hx]]; congruence.
  - unfold SetDispatchedUnboundPod. rw Hp. rw bool_decide_false; [|done].
    rw bool_decide_false; [|done]. simpl. rw (bool_decide_false (_ = "")); [|done]. simpl.
    by case_bool_decide.
  - unfold SelectSchedulerAndSetDispatchedUnboundPod. rw Hp. by rw bool_decide_false.
Qed.

Definition owned_pod : Pod :=
  {| Name := "p"; Namespace := "ns"; UID := "u1"; CreationTimestamp := 0; Annotations := Some ∅;
     OwnerReferences := [{| ref_Kind := "ReplicaSet"; ref_Name := "rs"; ref_UID := "r"; ref_Controller := true |}];
     NodeName := ""; SchedulerName := ""; PriorityClassName := ""; Priority := None;
     PreemptionPolicy := None; Containers := []; InitContainers := []; Conditions := [];
     Labels := ∅; Tolerations := []; Affinity := None; Overhead := None; StartTime := None;
     DeletionTimestamp := None |}.

Lemma owner_affinity_witness :
  let o := owner_step NewOwnerInfo (OSet owned_pod "s1") in
  (SetDispatchedUnboundPod owned_pod "s2" o).2 = "s1".
Proof.
  intros o. apply (owner_affinity o (OSelect owned_pod) "ReplicaSet/ns/rs/r" owned_pod "s2").
  - apply owner_more; [constructor|]. by intros ow'.
  - intros ow'. vm_compute. by intros [= <-].
  - done.
  - reflexivity.
  - done.
Defined.
