(* ===== verification/UnitInfos.v ===== *)
(** * Gang dispatching

    [unitInfos] of pkg/dispatcher/internal/queue/unit.go: the pods of a pod group
    are held back until the group may be dispatched, then moved together to the
    ready queue.  The ready queue is client-go's [cache.FIFO], which keeps the
    same map and slice as [MetricsFIFO] and overwrites the stored object on a
    second [Add]; only its [Add] and [Pop] are used.  Unit property caching and
    waiting times (metrics) and events are not modelled. *)
From S2P Require Import Prelude ContainerHeap PodModel DispatchFifo.

Local Open Scope godel_scope.
Local Open Scope string_scope.

(** What the dispatcher reads of a [v1alpha1.PodGroup]. *)
Record PodGroup := {
  pg_Namespace : string; pg_Name : string; pg_DeletionTimestamp : option Z;
  pg_Phase : string; pg_MinMember : Z
}.
Definition PodGroupPending : string := "Pending".
Definition PodGroupUnknown : string := "Unknown".

Record unitInfo := {
  podGroup : option PodGroup;
  pods : gset string;
  unSortedPods : gmap string QueuedPodInfo;
  scheduler : string
}.

Definition NewUnitInfo : unitInfo :=
  {| podGroup := None; pods := ∅; unSortedPods := ∅; scheduler := "" |}.

Definition keepNew (a b : QueuedPodInfo) : QueuedPodInfo := b.

Record unitInfos := { units : gmap string unitInfo; readyUnitPods : MetricsFIFO QueuedPodInfo }.

Definition NewUnitInfos : unitInfos := {| units := ∅; readyUnitPods := NewMetricsFIFO |}.

(** [cache.FIFO.Add] *)
Definition ready_Add (x : QueuedPodInfo) (f : MetricsFIFO QueuedPodInfo) : MetricsFIFO QueuedPodInfo :=
  update podInfoKeyFunc keepNew x f.

Definition generateUnitKeyFromPodGroup (pg : PodGroup) : string := pg_Namespace pg ++ "/" ++ pg_Name pg.

Definition readyToBeDispatched (ui : unitInfo) : bool :=
  match podGroup ui with
  | None => false
  | Some pg =>
      match pg_DeletionTimestamp pg with
      | Some _ => false
      | None =>
          if negb (pg_Phase pg ≟ PodGroupPending) && negb (pg_Phase pg ≟ PodGroupUnknown) then true
          else if (Z.of_nat (size (pods ui)) <? pg_MinMember pg)%Z then false
          else true
      end
  end.

Section unit_infos.
(** The orders in which [range] visits the held-back pods and the units. *)
Context (order : gmap string QueuedPodInfo → list (string * QueuedPodInfo))
  (unit_order : gmap string unitInfo → list (string * unitInfo)).

(** [Add] of the ready queue never fails, so every pod is taken out of the
    unit. *)
Definition movePodsToReadyQueue (ui : unitInfo) (r : MetricsFIFO QueuedPodInfo)
    : unitInfo * MetricsFIFO QueuedPodInfo :=
  if decide (size (unSortedPods ui) = 0) then (ui, r)
  else foldl (λ '(ui, r) '(key, podInfo),
         ({| podGroup := podGroup ui; pods := pods ui;
             unSortedPods := delete key (unSortedPods ui); scheduler := scheduler ui |},
          ready_Add podInfo r)) (ui, r) (order (unSortedPods ui)).

(** The common tail of the operations: store the unit, release it if ready. *)
Definition checkUnit (unitKey : string) (ui : unitInfo) (u : unitInfos) : unitInfos :=
  if readyToBeDispatched ui then
    let '(ui, r) := movePodsToReadyQueue ui (readyUnitPods u) in
    {| units := <[unitKey := ui]> (units u); readyUnitPods := r |}
  else {| units := <[unitKey := ui]> (units u); readyUnitPods := readyUnitPods u |}.

Definition getUnit (unitKey : string) (u : unitInfos) : unitInfo :=
  default NewUnitInfo (units u !! unitKey).

Definition AddPodGroup (pg : PodGroup) (u : unitInfos) : unitInfos :=
  let unitKey := generateUnitKeyFromPodGroup pg in
  let ui := getUnit unitKey u in
  checkUnit unitKey {| podGroup := Some pg; pods := pods ui; unSortedPods := unSortedPods ui;
                       scheduler := scheduler ui |} u.

Definition UpdatePodGroup (oldPG newPG : PodGroup) (u : unitInfos) : unitInfos := AddPodGroup newPG u.

Definition DeletePodGroup (pg : PodGroup) (u : unitInfos) : unitInfos :=
  let unitKey := generateUnitKeyFromPodGroup pg in
  match units u !! unitKey with
  | None => u
  | Some ui =>
      let ui := {| podGroup := None; pods := pods ui; unSortedPods := unSortedPods ui;
                   scheduler := scheduler ui |} in
      if decide (size (pods ui) = 0)
      then {| units := delete unitKey (units u); readyUnitPods := readyUnitPods u |}
      else {| units := <[unitKey := ui]> (units u); readyUnitPods := readyUnitPods u |}
  end.

Definition AddPod (unitKey podKey : string) (u : unitInfos) : unitInfos :=
  if unitKey ≟ "" then u
  else
    let ui := getUnit unitKey u in
    checkUnit unitKey {| podGroup := podGroup ui; pods := {[podKey]} ∪ pods ui;
                         unSortedPods := unSortedPods ui; scheduler := scheduler ui |} u.

Definition AddUnSortedPodInfo (unitKey : string) (podInfo : QueuedPodInfo) (u : unitInfos) : unitInfos :=
  if unitKey ≟ "" then u
  else
    let ui := getUnit unitKey u in
    checkUnit unitKey {| podGroup := podGroup ui; pods := {[PodKey podInfo]} ∪ pods ui;
                         unSortedPods := <[PodKey podInfo := podInfo]> (unSortedPods ui);
                         scheduler := scheduler ui |} u.

Definition DeleteUnSortedPodInfo (unitKey : string) (podInfo : QueuedPodInfo) (u : unitInfos) : unitInfos :=
  if unitKey ≟ "" then u
  else match units u !! unitKey with
       | None => u
       | Some ui =>
           {| units := <[unitKey := {| podGroup := podGroup ui; pods := pods ui;
                           unSortedPods := delete (PodKey podInfo) (unSortedPods ui);
                           scheduler := scheduler ui |}]> (units u);
              readyUnitPods := readyUnitPods u |}
       end.

Definition DeletePod (unitKey podKey : string) (u : unitInfos) : unitInfos :=
  if unitKey ≟ "" then u
  else match units u !! unitKey with
       | None => u
       | Some ui =>
           let ui := {| podGroup := podGroup ui; pods := pods ui ∖ {[podKey]};
                        unSortedPods := delete podKey (unSortedPods ui); scheduler := scheduler ui |} in
           if decide (size (pods ui) = 0 ∧ podGroup ui = None)
           then {| units := delete unitKey (units u); readyUnitPods := readyUnitPods u |}
           else {| units := <[unitKey := ui]> (units u); readyUnitPods := readyUnitPods u |}
       end.

Definition Pop (u : unitInfos) : unitInfos * PopResult QueuedPodInfo :=
  let '(r, x) := DispatchFifo.Pop (readyUnitPods u) in
  ({| units := units u; readyUnitPods := r |}, x).

Definition Enqueue (podInfo : QueuedPodInfo) (u : unitInfos) : unitInfos :=
  {| units := units u; readyUnitPods := ready_Add podInfo (readyUnitPods u) |}.

Definition GetAssignedSchedulerForPodGroupUnit (pg : PodGroup) (u : unitInfos) : string :=
  match units u !! generateUnitKeyFromPodGroup pg with Some ui => scheduler ui | None => "" end.

(** [false] is the error "already assigned". *)
Definition AssignSchedulerToPodGroupUnit (pg : PodGroup) (schedName : string) (forceUpdate : bool)
    (u : unitInfos) : unitInfos * bool :=
  let unitKey := generateUnitKeyFromPodGroup pg in
  let ui := getUnit unitKey u in
  let assigned := {| units := <[unitKey := {| podGroup := podGroup ui; pods := pods ui;
                       unSortedPods := unSortedPods ui; scheduler := schedName |}]> (units u);
                     readyUnitPods := readyUnitPods u |} in
  if forceUpdate then (assigned, true)
  else if negb (scheduler ui ≟ "") && negb (scheduler ui ≟ schedName)
  then ({| units := <[unitKey := ui]> (units u); readyUnitPods := readyUnitPods u |}, false)
  else (assigned, true).

(** The periodic check of every unit. *)
Definition populate (u : unitInfos) : unitInfos :=
  foldl (λ u '(unitKey, _), match units u !! unitKey with
                            | Some ui => checkUnit unitKey ui u
                            | None => u
                            end) u (unit_order (units u)).
End unit_infos.

(** ** Invariant *)

Definition unit_ok (ui : unitInfo) : Prop :=
  dom (unSortedPods ui) ⊆ pods ui
  ∧ (readyToBeDispatched ui = true → unSortedPods ui = ∅)
  ∧ map_Forall (λ k i, PodKey i = k) (unSortedPods ui).

Definition uis_inv (u : unitInfos) : Prop :=
  map_Forall (λ _ ui, unit_ok ui) (units u) ∧ pod_wf (readyUnitPods u).

Lemma new_unit_ok : unit_ok NewUnitInfo.
Proof. split_and!; [set_solver|done|done]. Qed.

Lemma getUnit_ok k u : uis_inv u → unit_ok (getUnit k u).
Proof.
  intros [Hu _]. unfold getUnit. destruct (units u !! k) eqn:E; [by apply (Hu k)|apply new_unit_ok].
Qed.

(** A unit whose pods may go: its pod group is known and not being deleted, and
    has left the pending phase or has its minimum of members. *)
Definition may_dispatch (ui : unitInfo) : Prop :=
  ∃ pg, podGroup ui = Some pg ∧ pg_DeletionTimestamp pg = None
    ∧ (pg_Phase pg ∉ [PodGroupPending; PodGroupUnknown] ∨ (pg_MinMember pg ≤ Z.of_nat (size (pods ui)))%Z).

Lemma readyToBeDispatched_iff ui : readyToBeDispatched ui = true ↔ may_dispatch ui.
Proof.
  unfold readyToBeDispatched, may_dispatch. destruct (podGroup ui) as [pg|]; [|naive_solver].
  destruct (pg_DeletionTimestamp pg) as [z|] eqn:Ed; [naive_solver|].
  destruct (decide (pg_Phase pg ∈ [PodGroupPending; PodGroupUnknown])) as [Hin|Hn].
  - assert (negb (pg_Phase pg ≟ PodGroupPending) && negb (pg_Phase pg ≟ PodGroupUnknown) = false) as ->.
    { apply elem_of_cons in Hin as [->|Hin%list_elem_of_singleton]; [by rw bool_decide_eq_true_2|].
      rw Hin. by rw (bool_decide_eq_true_2 (PodGroupUnknown = PodGroupUnknown)) // andb_false_r. }
    destruct (Z.ltb_spec (Z.of_nat (size (pods ui))) (pg_MinMember pg)); (split; [|intros _]; [|done]) || idtac.
    + split; [done|]. intros (pg' & [= <-] & _ & [?|?]); [done|lia].
    + exists pg. split_and!; [done..|]. by right.
  - assert (negb (pg_Phase pg ≟ PodGroupPending) && negb (pg_Phase pg ≟ PodGroupUnknown) = true) as ->.
    { rw !bool_decide_eq_false_2; [done|set_solver..]. }
    split; [|done]. intros _. exists pg. split_and!; [done..|]. by left.
Qed.

Section unit_proofs.
Context (order : gmap string QueuedPodInfo → list (string * QueuedPodInfo))
  (unit_order : gmap string unitInfo → list (string * unitInfo)).
Context (Horder : ∀ m, order m ≡ₚ map_to_list m).

Lemma ready_Add_spec x r :
  pod_wf r → pod_wf (ready_Add x r) ∧ items (ready_Add x r) = <[PodKey x := x]> (items r).
Proof.
  intros Hr. pose proof (fifo_add_spec podInfoKeyFunc keepNew (λ a b, eq_refl) r x Hr) as (Hw & Hi & _).
  split; [done|]. unfold ready_Add. simpl in Hi. rw Hi. by destruct (items r !! _).
Qed.

Lemma move_loop l ui r :
  pod_wf r → NoDup l.*1 → Forall (λ ki, PodKey ki.2 = ki.1) l →
  let '(ui', r') := foldl (λ '(ui, r) '(key, podInfo),
         ({| podGroup := podGroup ui; pods := pods ui;
             unSortedPods := delete key (unSortedPods ui); scheduler := scheduler ui |},
          ready_Add podInfo r)) (ui, r) l in
  podGroup ui' = podGroup ui ∧ pods ui' = pods ui ∧ scheduler ui' = scheduler ui
  ∧ (∀ k, unSortedPods ui' !! k = if decide (k ∈ l.*1) then None else unSortedPods ui !! k)
  ∧ pod_wf r'
  ∧ items r' = list_to_map l ∪ items r.
Proof.
  revert ui r. induction l as [|[k i] l IH]; intros ui r Hr Hnd Hk; simpl.
  - split_and!; try done. by rw left_id_L.
  - apply NoDup_cons in Hnd as [Hnk Hnd]. apply Forall_cons in Hk as [Hki Hk]. simpl in Hki.
    destruct (ready_Add_spec i r Hr) as [Hw Hi].
    specialize (IH {| podGroup := podGroup ui; pods := pods ui;
      unSortedPods := delete k (unSortedPods ui); scheduler := scheduler ui |} (ready_Add i r) Hw Hnd Hk).
    destruct (foldl _ _ l) as [ui' r']. destruct IH as (H1 & H2 & H3 & H4 & H5 & H6).
    split_and!; try done.
    + intros k'. rw H4. simpl. destruct (decide (k = k')) as [<-|Hne].
      * rw lookup_delete_eq. repeat case_decide; set_solver.
      * rw lookup_delete_ne; [|done]. repeat case_decide; set_solver.
    + rw H6 Hi Hki. rw -insert_union_r; [by rw insert_union_l|].
      by apply not_elem_of_list_to_map_1.
Qed.

Lemma move_spec ui r :
  pod_wf r → map_Forall (λ k i, PodKey i = k) (unSortedPods ui) →
  let '(ui', r') := movePodsToReadyQueue order ui r in
  podGroup ui' = podGroup ui ∧ pods ui' = pods ui ∧ scheduler ui' = scheduler ui
  ∧ unSortedPods ui' = ∅ ∧ pod_wf r' ∧ items r' = unSortedPods ui ∪ items r.
Proof.
  intros Hr Hk. unfold movePodsToReadyQueue. case_decide as Hs.
  - apply map_size_empty_inv in Hs. rw Hs. by rw left_id_L.
  - pose proof (move_loop (order (unSortedPods ui)) ui r Hr) as Hm.
    destruct (foldl _ _ _) as [ui' r'].
    destruct Hm as (H1 & H2 & H3 & H4 & H5 & H6).
    { rw Horder. apply NoDup_fst_map_to_list. }
    { apply Forall_forall. intros [k i]. rw Horder. rw elem_of_map_to_list. apply Hk. }
    split_and!; try done.
    + apply map_empty. intros k. rw H4. case_decide as Hin; [done|].
      apply eq_None_not_Some. intros [i Hi]. apply Hin, list_elem_of_fmap. exists (k, i).
      split; [done|]. rw Horder. by apply elem_of_map_to_list.
    + rw H6. f_equal. rw -(list_to_map_to_list (unSortedPods ui)).
      apply list_to_map_proper; [|by rw Horder list_to_map_to_list].
      rw Horder. apply NoDup_fst_map_to_list.
Qed.

(** What releasing or storing a unit does. *)
Lemma check_spec key ui u :
  uis_inv u → dom (unSortedPods ui) ⊆ pods ui →
  map_Forall (λ k i, PodKey i = k) (unSortedPods ui) →
  let u' := checkUnit order key ui u in
  uis_inv u' ∧ ∃ ui', units u' = <[key := ui']> (units u)
    ∧ podGroup ui' = podGroup ui ∧ pods ui' = pods ui ∧ scheduler ui' = scheduler ui
    ∧ if readyToBeDispatched ui
      then unSortedPods ui' = ∅ ∧ items (readyUnitPods u') = unSortedPods ui ∪ items (readyUnitPods u)
      else unSortedPods ui' = unSortedPods ui ∧ readyUnitPods u' = readyUnitPods u.
Proof.
  intros [Hu Hr] Hd Hk. unfold checkUnit. destruct (readyToBeDispatched ui) eqn:E.
  - pose proof (move_spec ui (readyUnitPods u) Hr Hk) as Hm.
    destruct (movePodsToReadyQueue order ui (readyUnitPods u)) as [ui' r'].
    destruct Hm as (H1 & H2 & H3 & H4 & H5 & H6). split; [|by exists ui'].
    split; simpl; [|done]. apply map_Forall_insert_2; [|done].
    split_and!; rw H4; [set_solver|done|done].
  - split; [|by exists ui]. split; simpl; [|done]. apply map_Forall_insert_2; [|done].
    split_and!; [done|by rw E|done].
Qed.

Lemma checkUnit_noop key ui u :
  units u !! key = Some ui → unit_ok ui → checkUnit order key ui u = u.
Proof.
  intros Hl (_ & Hok & _). unfold checkUnit. destruct u as [us r]. simpl in *.
  destruct (readyToBeDispatched ui) eqn:E.
  - unfold movePodsToReadyQueue. rw decide_True; [|by rw Hok]. by rw insert_id.
  - by rw insert_id.
Qed.

Lemma populate_noop u : uis_inv u → populate order unit_order u = u.
Proof.
  intros [Hu _]. unfold populate. generalize (unit_order (units u)) as l.
  induction l as [|[k ui] l IH]; [done|]. simpl. destruct (units u !! k) as [ui'|] eqn:E; [|done].
  by rw (checkUnit_noop k ui' u E (Hu k ui' E)).
Qed.

(** Shrinking the pods of a unit cannot make it ready. *)
Lemma ready_antimono ui ui' :
  podGroup ui' = podGroup ui → (size (pods ui') ≤ size (pods ui))%nat →
  readyToBeDispatched ui' = true → readyToBeDispatched ui = true.
Proof.
  intros Hpg Hsz. unfold readyToBeDispatched. rw Hpg. destruct (podGroup ui) as [pg|]; [|done].
  destruct (pg_DeletionTimestamp pg); [done|]. destruct (_ && _); [done|].
  destruct (Z.ltb_spec (Z.of_nat (size (pods ui'))) (pg_MinMember pg)); [done|].
  destruct (Z.ltb_spec (Z.of_nat (size (pods ui))) (pg_MinMember pg)); [lia|done].
Qed.

(** ** Runs *)

Inductive uop :=
  | UAddPG (pg : PodGroup) | UUpdatePG (old new : PodGroup) | UDeletePG (pg : PodGroup)
  | UAddPod (u k : string) | UAddInfo (u : string) (i : QueuedPodInfo)
  | UDelInfo (u : string) (i : QueuedPodInfo) | UDelPod (u k : string)
  | UPop | UEnqueue (i : QueuedPodInfo) | UAssign (pg : PodGroup) (s : string) (force : bool)
  | UPopulate.

Definition uis_step (u : unitInfos) (op : uop) : unitInfos :=
  match op with
  | UAddPG pg => AddPodGroup order pg u
  | UUpdatePG old new => UpdatePodGroup order old new u
  | UDeletePG pg => DeletePodGroup pg u
  | UAddPod uk k => AddPod order uk k u
  | UAddInfo uk i => AddUnSortedPodInfo order uk i u
  | UDelInfo uk i => DeleteUnSortedPodInfo uk i u
  | UDelPod uk k => DeletePod uk k u
  | UPop => (Pop u).1
  | UEnqueue i => Enqueue i u
  | UAssign pg s force => (AssignSchedulerToPodGroupUnit pg s force u).1
  | UPopulate => populate order unit_order u
  end.

(** What one operation may do to the pods that wait, as facts about the pair of
    states. *)
Definition released_only_ready (u u' : unitInfos) (op : uop) : Prop :=
  ∀ k, k ∈ dom (items (readyUnitPods u')) → k ∉ dom (items (readyUnitPods u)) →
    (∃ i, op = UEnqueue i ∧ PodKey i = k)
    ∨ ∃ uk ui, units u' !! uk = Some ui ∧ may_dispatch ui ∧ k ∈ pods ui.

Definition nothing_lost (u u' : unitInfos) (op : uop) : Prop :=
  ∀ uk ui k, units u !! uk = Some ui → k ∈ dom (unSortedPods ui) →
    (∃ ui', units u' !! uk = Some ui' ∧ k ∈ dom (unSortedPods ui'))
    ∨ k ∈ dom (items (readyUnitPods u'))
    ∨ op = UDelPod uk k ∨ ∃ i, op = UDelInfo uk i ∧ PodKey i = k.

(** A pod that arrives with a unit key is a member of its unit; if it waits for
    the unit its info is held back there or is ready, and an enqueued one is
    ready.  A pod that arrives without a unit key is dropped (eventhandler.go:76
    calls with the empty key when the annotation is empty). *)
Definition arrived (u' : unitInfos) (op : uop) : Prop :=
  match op with
  | UAddInfo uk i => uk ≠ "" → ∃ ui, units u' !! uk = Some ui ∧ PodKey i ∈ pods ui
      ∧ (unSortedPods ui !! PodKey i = Some i ∨ items (readyUnitPods u') !! PodKey i = Some i)
  | UAddPod uk k => uk ≠ "" → ∃ ui, units u' !! uk = Some ui ∧ k ∈ pods ui
  | UEnqueue i => items (readyUnitPods u') !! PodKey i = Some i
  | _ => True
  end.

(** A ready pod stays ready until it is the one popped. *)
Definition ready_kept (u u' : unitInfos) (op : uop) : Prop :=
  ∀ k, k ∈ dom (items (readyUnitPods u)) →
    k ∈ dom (items (readyUnitPods u'))
    ∨ op = UPop ∧ ∃ i, (Pop u).2 = Popped i ∧ PodKey i = k.

Definition good_step (u u' : unitInfos) (op : uop) : Prop :=
  uis_inv u' ∧ released_only_ready u u' op ∧ nothing_lost u u' op.

Lemma good_refl u op : uis_inv u → good_step u u op.
Proof. intros Hu. split_and!; [done|intros k ?; done|]. intros uk ui k Hl Hk. left. by exists ui. Qed.

Lemma ready_same_pods ui ui' :
  podGroup ui' = podGroup ui → pods ui' = pods ui → readyToBeDispatched ui' = readyToBeDispatched ui.
Proof. intros H1 H2. unfold readyToBeDispatched. by rw H1 H2. Qed.

(** The operations that end in [checkUnit] on a unit that holds back at least
    what it held back before. *)
Lemma good_check key ui u op :
  uis_inv u → dom (unSortedPods ui) ⊆ pods ui → map_Forall (λ k i, PodKey i = k) (unSortedPods ui) →
  dom (unSortedPods (getUnit key u)) ⊆ dom (unSortedPods ui) →
  good_step u (checkUnit order key ui u) op.
Proof.
  intros Hu Hd Hk Hsub.
  destruct (check_spec key ui u Hu Hd Hk) as (Hinv & ui' & Hunits & Hpg & Hpods & Hsch & Hcase).
  set (u' := checkUnit order key ui u) in *. clearbody u'.
  pose proof (ready_same_pods ui ui' Hpg Hpods) as Hrd.
  split_and!; [done| |].
  - intros k Hin Hnot. destruct (readyToBeDispatched ui) eqn:E.
    + destruct Hcase as [_ Hi]. right. exists key, ui'. rw Hunits lookup_insert_eq -readyToBeDispatched_iff.
      split_and!; [done|by rw Hrd|]. rw Hi dom_union in Hin. rw Hpods. set_solver.
    + destruct Hcase as [_ Hi]. by rw Hi in Hin.
  - intros uk ui0 k Hl Hk0. destruct (decide (key = uk)) as [<-|Hne].
    + assert (Hin : k ∈ dom (unSortedPods ui)).
      { apply Hsub. unfold getUnit. by rw Hl. }
      destruct (readyToBeDispatched ui).
      * destruct Hcase as [_ Hi]. right. left. rw Hi dom_union. set_solver.
      * destruct Hcase as [Hsame _]. left. exists ui'. rw Hunits lookup_insert_eq.
        split; [done|]. by rw Hsame.
    + left. exists ui0. rw Hunits lookup_insert_ne; [|done]. done.
Qed.

(** The operations that replace or drop one unit and leave the ready queue. *)
Lemma good_replace key (oui : option unitInfo) u op :
  uis_inv u → (∀ ui, oui = Some ui → unit_ok ui) →
  (∀ ui0 k, units u !! key = Some ui0 → k ∈ dom (unSortedPods ui0) →
     (∃ ui, oui = Some ui ∧ k ∈ dom (unSortedPods ui))
     ∨ op = UDelPod key k ∨ ∃ i, op = UDelInfo key i ∧ PodKey i = k) →
  good_step u {| units := partial_alter (λ _, oui) key (units u);
                 readyUnitPods := readyUnitPods u |} op.
Proof.
  intros [Hu Hr] Hok Hkeep. split_and!.
  - split; simpl; [|done]. intros uk ui. destruct (decide (key = uk)) as [<-|].
    + rw lookup_partial_alter_eq. apply Hok.
    + rw lookup_partial_alter_ne; [|done]. apply Hu.
  - intros k Hin Hnot. done.
  - intros uk ui0 k Hl Hk. destruct (decide (key = uk)) as [<-|Hne].
    + destruct (Hkeep ui0 k Hl Hk) as [(ui & -> & ?)|[->|?]]; [left; exists ui| |]; simpl; [|tauto..].
      by rw lookup_partial_alter_eq.
    + left. exists ui0. simpl. by rw lookup_partial_alter_ne.
Qed.

Lemma step_good u op : uis_inv u → good_step u (uis_step u op) op.
Proof.
  intros Hu. destruct op as [pg|old pg|pg|uk k|uk i|uk i|uk k| |i|pg s force|]; simpl.
  - destruct (getUnit_ok (generateUnitKeyFromPodGroup pg) u Hu) as (H1 & H2 & H3).
    by apply good_check.
  - destruct (getUnit_ok (generateUnitKeyFromPodGroup pg) u Hu) as (H1 & H2 & H3).
    by apply good_check.
  - unfold DeletePodGroup. destruct (units u !! _) as [ui|] eqn:E; [|by apply good_refl].
    destruct Hu as [Hu Hr]. destruct (Hu _ _ E) as (H1 & H2 & H3). simpl.
    case_decide as Hs.
    + apply (good_replace _ None); [by split|done|]. intros ui0 k Hl Hk. simplify_eq.
      apply size_empty_inv in Hs. set_solver.
    + apply (good_replace _ (Some _)); [by split| |].
      * intros ui' [= <-]. split_and!; simpl; [done|done|done].
      * intros ui0 k Hl Hk. left. simplify_eq. by eexists.
  - unfold AddPod. case_bool_decide; [by apply good_refl|].
    destruct (getUnit_ok uk u Hu) as (H1 & H2 & H3). apply good_check; simpl; [done|set_solver|done|done].
  - unfold AddUnSortedPodInfo. case_bool_decide; [by apply good_refl|].
    destruct (getUnit_ok uk u Hu) as (H1 & H2 & H3). apply good_check; simpl; [done|set_solver| |set_solver].
    by apply map_Forall_insert_2.
  - unfold DeleteUnSortedPodInfo. case_bool_decide; [by apply good_refl|].
    destruct (units u !! uk) as [ui|] eqn:E; [|by apply good_refl].
    destruct Hu as [Hu Hr]. destruct (Hu _ _ E) as (H1 & H2 & H3).
    apply (good_replace uk (Some _)); [by split| |].
    + intros ui' [= <-]. split_and!; simpl; [set_solver| |by apply map_Forall_delete].
      intros Hrd. rw H2; [by rw delete_empty|]. by rw -Hrd; apply ready_same_pods.
    + intros ui0 k Hl Hk. simplify_eq. destruct (decide (PodKey i = k)) as [<-|].
      * right. right. by exists i.
      * left. eexists. split; [done|]. simpl. set_solver.
  - unfold DeletePod. case_bool_decide; [by apply good_refl|].
    destruct (units u !! uk) as [ui|] eqn:E; [|by apply good_refl].
    destruct Hu as [Hu Hr]. destruct (Hu _ _ E) as (H1 & H2 & H3). simpl.
    case_decide as Hs.
    + destruct Hs as [Hs _]. apply size_empty_inv in Hs.
      apply (good_replace uk None); [by split|done|]. intros ui0 k' Hl Hk. simplify_eq.
      destruct (decide (k = k')) as [<-|]; [right; by left|]. set_solver.
    + apply (good_replace uk (Some _)); [by split| |].
      * intros ui' [= <-]. split_and!; simpl; [set_solver| |by apply map_Forall_delete].
        intros Hrd. rw H2; [by rw delete_empty|]. revert Hrd.
        apply ready_antimono; [done|]. simpl. apply subseteq_size. set_solver.
      * intros ui0 k' Hl Hk. simplify_eq. destruct (decide (k = k')) as [<-|]; [right; by left|].
        left. eexists. split; [done|]. simpl. set_solver.
  - unfold Pop. destruct Hu as [Hu Hr]. pose proof (fifo_pop_spec podInfoKeyFunc _ Hr) as Hp.
    destruct (DispatchFifo.Pop (readyUnitPods u)) as [r x]. simpl.
    assert (Hr' : pod_wf r ∧ dom (items r) ⊆ dom (items (readyUnitPods u))).
    { destruct (live (readyUnitPods u)).
      - destruct Hp as (f' & [= -> _] & _ & -> & _ & ?). split; [done|set_solver].
      - destruct Hp as (y & f' & _ & [= -> _] & -> & _ & ?). split; [done|set_solver]. }
    destruct Hr' as [Hw Hdom]. split_and!; [by split| |].
    + intros k Hin Hnot. simpl in Hin. set_solver.
    + intros uk ui k Hl Hk. left. by exists ui.
  - destruct Hu as [Hu Hr]. destruct (ready_Add_spec i (readyUnitPods u) Hr) as [Hw Hi].
    split_and!; [by split| |].
    + intros k Hin Hnot. left. exists i. split; [done|]. simpl in Hin. rw Hi in Hin. set_solver.
    + intros uk ui k Hl Hk. left. by exists ui.
  - unfold AssignSchedulerToPodGroupUnit. set (key := generateUnitKeyFromPodGroup pg).
    destruct (getUnit_ok key u Hu) as (H1 & H2 & H3).
    assert (Hall : ∀ ui, podGroup ui = podGroup (getUnit key u) → pods ui = pods (getUnit key u) →
      unSortedPods ui = unSortedPods (getUnit key u) →
      good_step u {| units := <[key := ui]> (units u); readyUnitPods := readyUnitPods u |}
        (UAssign pg s force)).
    { intros ui E1 E2 E3. apply (good_replace key (Some ui)); [done| |].
      - intros ui' [= <-]. split_and!; rw ?E3 ?E2; [done| |done].
        intros Hrd. apply H2. rw -Hrd. by apply ready_same_pods.
      - intros ui0 k Hl Hk. left. exists ui. split; [done|]. rw E3. unfold getUnit. by rw Hl. }
    destruct force; simpl; [by apply Hall|]. destruct (_ && _); simpl; by apply Hall.
  - rw populate_noop; [|done]. by apply good_refl.
Qed.

Lemma check_ready_dom key ui u :
  uis_inv u → dom (unSortedPods ui) ⊆ pods ui → map_Forall (λ k i, PodKey i = k) (unSortedPods ui) →
  dom (items (readyUnitPods u)) ⊆ dom (items (readyUnitPods (checkUnit order key ui u))).
Proof.
  intros Hu Hd Hk. destruct (check_spec key ui u Hu Hd Hk) as (_ & ui' & _ & _ & _ & _ & Hc).
  destruct (readyToBeDispatched ui); destruct Hc as [_ ->]; set_solver.
Qed.

Lemma step_arrived u op : uis_inv u → arrived (uis_step u op) op.
Proof.
  intros Hu. destruct op as [pg|old pg|pg|uk k|uk i|uk i|uk k| |i|pg s force|]; simpl; try done.
  - intros Hne. unfold AddPod. rw bool_decide_eq_false_2 //.
    destruct (getUnit_ok uk u Hu) as (H1 & H2 & H3).
    destruct (check_spec uk {| podGroup := podGroup (getUnit uk u); pods := {[k]} ∪ pods (getUnit uk u);
      unSortedPods := unSortedPods (getUnit uk u); scheduler := scheduler (getUnit uk u) |} u Hu)
      as (_ & ui' & -> & _ & Hp & _); [set_solver|done|].
    exists ui'. rw lookup_insert_eq Hp. set_solver.
  - intros Hne. unfold AddUnSortedPodInfo. rw bool_decide_eq_false_2 //.
    destruct (getUnit_ok uk u Hu) as (H1 & H2 & H3). set (ui := {| podGroup := _ |}).
    destruct (check_spec uk ui u Hu) as (_ & ui' & -> & _ & Hp & _ & Hc);
      [set_solver|by apply map_Forall_insert_2|].
    exists ui'. rw lookup_insert_eq Hp. split_and!; [done|set_solver|].
    destruct (readyToBeDispatched ui); destruct Hc as [Hs Hi].
    + right. rw Hi. apply lookup_union_Some_l. simpl. by rw lookup_insert_eq.
    + left. rw Hs. by rw lookup_insert_eq.
  - destruct Hu as [Hu Hr]. destruct (ready_Add_spec i (readyUnitPods u) Hr) as [_ ->]. by rw lookup_insert_eq.
Qed.

Lemma step_ready_kept u op : uis_inv u → ready_kept u (uis_step u op) op.
Proof.
  intros Hu. assert (∀ u', dom (items (readyUnitPods u)) ⊆ dom (items (readyUnitPods u')) →
    ready_kept u u' op) as Hkeep by (intros u' Hs k Hk; left; by apply Hs).
  destruct op as [pg|old pg|pg|uk k|uk i|uk i|uk k| |i|pg s force|]; simpl.
  - destruct (getUnit_ok (generateUnitKeyFromPodGroup pg) u Hu) as (H1 & H2 & H3).
    by apply Hkeep, check_ready_dom.
  - destruct (getUnit_ok (generateUnitKeyFromPodGroup pg) u Hu) as (H1 & H2 & H3).
    by apply Hkeep, check_ready_dom.
  - apply Hkeep. unfold DeletePodGroup. destruct (units u !! _); [|done]. by case_decide.
  - apply Hkeep. unfold AddPod. case_bool_decide; [done|].
    destruct (getUnit_ok uk u Hu) as (H1 & H2 & H3). apply check_ready_dom; simpl; [done|set_solver|done].
  - apply Hkeep. unfold AddUnSortedPodInfo. case_bool_decide; [done|].
    destruct (getUnit_ok uk u Hu) as (H1 & H2 & H3). apply check_ready_dom; simpl; [done|set_solver|].
    by apply map_Forall_insert_2.
  - apply Hkeep. unfold DeleteUnSortedPodInfo. case_bool_decide; [done|]. by destruct (units u !! uk).
  - apply Hkeep. unfold DeletePod. case_bool_decide; [done|]. destruct (units u !! uk); [|done]. by case_decide.
  - destruct Hu as [_ Hr]. pose proof (fifo_pop_spec podInfoKeyFunc _ Hr) as Hp.
    intros k Hk. unfold Pop in *. destruct (live (readyUnitPods u)) as [|k0 ks].
    + destruct Hp as (f' & -> & He & _). rw He in Hk. set_solver.
    + destruct Hp as (x & f' & Hx & -> & Hi & _). simpl. rw Hi dom_delete.
      destruct (decide (k = k0)) as [->|]; [|left; set_solver]. right. split; [done|]. exists x.
      split; [done|]. by apply (proj2 (proj1 Hr) k0).
  - apply Hkeep. destruct Hu as [_ Hr]. destruct (ready_Add_spec i (readyUnitPods u) Hr) as [_ Hi].
    simpl. rw Hi. set_solver.
  - apply Hkeep. unfold AssignSchedulerToPodGroupUnit. destruct force; [done|]. by destruct (_ && _).
  - rw populate_noop; [|done]. by apply Hkeep.
Qed.

Inductive uis_reachable : unitInfos → Prop :=
  | uis_new : uis_reachable NewUnitInfos
  | uis_more u op : uis_reachable u → uis_reachable (uis_step u op).

Lemma uis_reachable_inv u : uis_reachable u → uis_inv u.
Proof.
  induction 1 as [|u op _ IH]; [|by destruct (step_good u op IH)].
  split; [done|]. apply new_wf.
Qed.
End unit_proofs.

(** C27: Gang dispatching is all-or-nothing and loses nothing.  In every
    reachable state an operation puts a pod in the ready queue only if it is
    enqueued directly or its pod group may be dispatched (it exists, is not being
    deleted, and has left the pending phase or has its minimum of members), and
    such a group holds back no pod.  A pod that arrives with a unit key becomes a
    member of its unit and is held back there or ready, with the info it arrived
    with; a pod held back stays held back or becomes ready unless it is deleted;
    a ready pod stays ready until Pop returns it.  So the periodic check never
    finds anything to do.  A pod that arrives with the empty unit key is not
    stored: the event handler does this for an empty annotation. *)
Theorem gang_dispatch order unit_order (u : unitInfos) (op : uop)
    (Horder : ∀ m, order m ≡ₚ map_to_list m) (Hu : uis_reachable order unit_order u) :
  let u' := uis_step order unit_order u op in
  released_only_ready u u' op
  ∧ arrived u' op ∧ nothing_lost u u' op ∧ ready_kept u u' op
  ∧ (∀ uk ui, units u' !! uk = Some ui → may_dispatch ui → unSortedPods ui = ∅)
  ∧ populate order unit_order u' = u'.
Proof.
  intros u'. apply (uis_reachable_inv order unit_order Horder) in Hu.
  destruct (step_good order unit_order Horder u op Hu) as (Hinv & Hrel & Hlost).
  split; [done|]. split; [by apply step_arrived|]. split; [done|]. split; [by apply step_ready_kept|]. split.
  - intros uk ui Hl Hm%readyToBeDispatched_iff. destruct Hinv as [Hok _]. by apply (Hok uk ui Hl).
  - by apply populate_noop.
Qed.

Lemma gang_dispatch_witness :
  let pg := {| pg_Namespace := "ns"; pg_Name := "g"; pg_DeletionTimestamp := None;
               pg_Phase := "Pending"; pg_MinMember := 2 |} in
  let i k := {| PodKey := k; ResourceType := GuaranteedPod; Timestamp := 0; InitialAddedTimestamp := 0;
               SpanContext := "" |} in
  let u := uis_step map_to_list map_to_list
             (uis_step map_to_list map_to_list NewUnitInfos (UAddPG pg)) (UAddInfo "ns/g" (i "a")) in
  dom (items (readyUnitPods u)) = ∅
  ∧ dom (items (readyUnitPods (uis_step map_to_list map_to_list u (UAddInfo "ns/g" (i "b"))))) = {["a"; "b"]}
  ∧ nothing_lost u (uis_step map_to_list map_to_list u (UAddInfo "ns/g" (i "b"))) (UAddInfo "ns/g" (i "b")).
Proof.
  intros pg i u. split; [reflexivity|]. split; [vm_compute; reflexivity|].
  apply (gang_dispatch map_to_list map_to_list u); [done|]. do 2 apply uis_more. constructor.
Defined.
