(* ===== verification/Dispatcher.v ===== *)
(** * The dispatcher

    The event handlers of pkg/dispatcher/eventhandler.go that move pods between
    the dispatcher's queues, and the dispatching of one pod
    (pkg/dispatcher/dispatcher.go): choosing a scheduler by pod group, owner or
    load, patching the pod and putting it back on failure.  Listers, the
    scheduler maintainer, the API server and the feature gate are arguments. *)
From S2P Require Import Prelude GoStrings PodModel PodState ContainerHeap DispatchFifo.
From S2P Require Import DispatchStore UnitInfos.

Local Open Scope godel_scope.
Local Open Scope string_scope.

Record Dispatcher := {
  FIFOPendingPodsQueue : PodFIFO;
  SortedPodsQueue : PodFIFO;
  UnitInfos_ : unitInfos;
  DispatchInfo : dispatchInfo;
  OwnerInfos : ownerInfo
}.

Definition with_pending (q : PodFIFO) (d : Dispatcher) : Dispatcher :=
  {| FIFOPendingPodsQueue := q; SortedPodsQueue := SortedPodsQueue d; UnitInfos_ := UnitInfos_ d;
     DispatchInfo := DispatchInfo d; OwnerInfos := OwnerInfos d |}.
Definition with_sorted (q : PodFIFO) (d : Dispatcher) : Dispatcher :=
  {| FIFOPendingPodsQueue := FIFOPendingPodsQueue d; SortedPodsQueue := q; UnitInfos_ := UnitInfos_ d;
     DispatchInfo := DispatchInfo d; OwnerInfos := OwnerInfos d |}.
Definition with_units (u : unitInfos) (d : Dispatcher) : Dispatcher :=
  {| FIFOPendingPodsQueue := FIFOPendingPodsQueue d; SortedPodsQueue := SortedPodsQueue d;
     UnitInfos_ := u; DispatchInfo := DispatchInfo d; OwnerInfos := OwnerInfos d |}.
Definition with_info (i : dispatchInfo) (d : Dispatcher) : Dispatcher :=
  {| FIFOPendingPodsQueue := FIFOPendingPodsQueue d; SortedPodsQueue := SortedPodsQueue d;
     UnitInfos_ := UnitInfos_ d; DispatchInfo := i; OwnerInfos := OwnerInfos d |}.
Definition with_owners (o : ownerInfo) (d : Dispatcher) : Dispatcher :=
  {| FIFOPendingPodsQueue := FIFOPendingPodsQueue d; SortedPodsQueue := SortedPodsQueue d;
     UnitInfos_ := UnitInfos_ d; DispatchInfo := DispatchInfo d; OwnerInfos := o |}.

(** ** Event handlers *)

Definition PodBelongToUnit (p : Pod) : bool :=
  match anno_lookup p PodGroupNameAnnotationKey with Some _ => true | None => false end.

Definition generateUnitKeyFromPod (p : Pod) : string :=
  if negb (anno p PodGroupNameAnnotationKey ≟ "")
  then Namespace p ++ "/" ++ anno p PodGroupNameAnnotationKey else "".

(** [None] is the error for an unsupported resource type. *)
Definition NewQueuedPodInfo (p : Pod) : option QueuedPodInfo :=
  t ← GetPodResourceType p;
  Some {| PodKey := GetPodKey p; ResourceType := t; Timestamp := 0; InitialAddedTimestamp := 0;
          SpanContext := anno p TraceContext |}.

Section handlers.
Context (order : gmap string QueuedPodInfo → list (string * QueuedPodInfo)).

Definition addPodToPendingOrSortedQueue (now : Z) (p : Pod) (d : Dispatcher) : Dispatcher :=
  match NewQueuedPodInfo p with
  | None => d
  | Some podInfo =>
      if PodBelongToUnit p
      then with_units (AddUnSortedPodInfo order (generateUnitKeyFromPod p) podInfo (UnitInfos_ d)) d
      else with_pending (pending_AddPodInfo now podInfo (FIFOPendingPodsQueue d)) d
  end.

Definition updatePodInPendingOrSortedQueue (now : Z) (oldPod newPod : Pod) (d : Dispatcher) : Dispatcher :=
  match NewQueuedPodInfo newPod with
  | None => d
  | Some newPodInfo =>
      let oldPodInfo := {| PodKey := GetPodKey oldPod; ResourceType := ResourceType newPodInfo;
                           Timestamp := 0; InitialAddedTimestamp := 0;
                           SpanContext := SpanContext newPodInfo |} in
      if PodInfoExist newPodInfo (SortedPodsQueue d)
      then with_sorted (UpdatePodInfo now newPodInfo (SortedPodsQueue d)) d
      else
        let d := with_pending (pending_RemovePodInfo oldPodInfo (FIFOPendingPodsQueue d)) d in
        let d := with_units
          (DeleteUnSortedPodInfo (generateUnitKeyFromPod oldPod) oldPodInfo (UnitInfos_ d)) d in
        if PodBelongToUnit newPod
        then with_units (AddUnSortedPodInfo order (generateUnitKeyFromPod newPod) newPodInfo
                           (UnitInfos_ d)) d
        else with_pending (pending_AddPodInfo now newPodInfo (FIFOPendingPodsQueue d)) d
  end.

Definition deletePodFromPendingOrSortedQueue (p : Pod) (d : Dispatcher) : Dispatcher :=
  match NewQueuedPodInfo p with
  | None => d
  | Some podInfo =>
      if PodInfoExist podInfo (SortedPodsQueue d)
      then with_sorted (RemovePodInfo podInfo (SortedPodsQueue d)) d
      else if PodBelongToUnit p
      then with_units (DeleteUnSortedPodInfo (generateUnitKeyFromPod p) podInfo (UnitInfos_ d)) d
      else with_pending (pending_RemovePodInfo podInfo (FIFOPendingPodsQueue d)) d
  end.

Definition addPodToDispatchedInfo (now : Z) (p : Pod) (d : Dispatcher) : Dispatcher :=
  with_info (DispatchStore.AddPod now p (DispatchInfo d)) d.
Definition deletePodFromDispatchedInfo (p : Pod) (d : Dispatcher) : Dispatcher :=
  with_info (RemovePod p (DispatchInfo d)) d.
Definition addPodToOwnerInfo (p : Pod) (d : Dispatcher) : Dispatcher :=
  with_owners (AddDispatchedUnboundPod p (anno p SchedulerAnnotationKey) (OwnerInfos d)) d.
Definition deletePodFromOwnerInfo (p : Pod) (d : Dispatcher) : Dispatcher :=
  with_owners (DeleteDispatchedUnboundPod p (OwnerInfos d)) d.
End handlers.

(** ** Choosing a scheduler *)

Inductive PodLookup := PodFound (p : Pod) (deleting : bool) | PodNotFound | PodLookupError.
Inductive PatchResult := PatchOK | PatchNotFound | PatchError.

Section select.
(** The order of set iteration and the random numbers of the load balancer. *)
Context (set_order : gset string → list string) (rand : nat → nat).
(** The feature gate, the scheduler maintainer, the pod group lister ([None] an
    error) and the scheduler found on the group's pods in the pod lister. *)
Context (SupportRescheduling : bool) (SchedulerExist IsSchedulerInActiveQueue : string → bool)
  (PodGroupLister : string → string → option PodGroup)
  (getAssignedSchedulerFromPods : PodGroup → option string).

(** The second component is the scheduler, [None] an error. *)
Definition loadBalancing (now : Z) (p : Pod) (d : Dispatcher) : Dispatcher * option string :=
  let '(i, s) := GetMostIdleSchedulerAndAddPodInAdvance set_order rand now p (DispatchInfo d) in
  (with_info i d, if s ≟ "" then None else Some s).

Definition selectSchedulerBasedOnOwner (now : Z) (p : Pod) (d : Dispatcher) : Dispatcher * option string :=
  let '(o, s) := SelectSchedulerAndSetDispatchedUnboundPod p (OwnerInfos d) in
  let d := with_owners o d in
  if negb (s ≟ "") then (with_info (AddPodInAdvance now p s (DispatchInfo d)) d, Some s)
  else
    let '(d, r) := loadBalancing now p d in
    match r with
    | None => (d, None)
    | Some s =>
        let '(o, got) := SetDispatchedUnboundPod p s (OwnerInfos d) in
        let d := with_owners o d in
        (if got ≟ s then d else with_info (UpdatePodInAdvance now p got (DispatchInfo d)) d, Some got)
    end.

Definition pickScheduler (now : Z) (p : Pod) (d : Dispatcher) : Dispatcher * option string :=
  if SupportRescheduling then selectSchedulerBasedOnOwner now p d else loadBalancing now p d.

(** [None] is an error; [Some ""] means that no scheduler was assigned yet. *)
Definition getAssignedScheduler (pg : PodGroup) (d : Dispatcher) : Dispatcher * option string :=
  let cached := GetAssignedSchedulerForPodGroupUnit pg (UnitInfos_ d) in
  if negb (cached ≟ "") then (d, Some cached)
  else match getAssignedSchedulerFromPods pg with
       | None => (d, None)
       | Some s =>
           if negb (s ≟ "") then
             let '(u, ok) := AssignSchedulerToPodGroupUnit pg s false (UnitInfos_ d) in
             (with_units u d, if ok then Some s else None)
           else (d, Some s)
       end.

Definition selectSchedulerForUnit (now : Z) (pg : PodGroup) (p : Pod) (d : Dispatcher)
    : Dispatcher * option string :=
  let '(d, r) := getAssignedScheduler pg d in
  match r with
  | None => (d, None)
  | Some s =>
      if negb (s ≟ "") && SchedulerExist s && IsSchedulerInActiveQueue s then
        let d := with_info (AddPodInAdvance now p s (DispatchInfo d)) d in
        (if SupportRescheduling
         then with_owners (AddDispatchedUnboundPod p s (OwnerInfos d)) d else d, Some s)
      else
        let forceUpdate := negb (s ≟ "") in
        let '(d, r) := pickScheduler now p d in
        match r with
        | None => (d, None)
        | Some s =>
            let '(u, ok) := AssignSchedulerToPodGroupUnit pg s forceUpdate (UnitInfos_ d) in
            (with_units u d, if ok then Some s else None)
        end
  end.

Definition selectScheduler (now : Z) (p : Pod) (d : Dispatcher) : Dispatcher * option string :=
  let pgName := GetPodGroupName p in
  if negb (pgName ≟ "") then
    match PodGroupLister (Namespace p) pgName with
    | None => (d, None)
    | Some pg => selectSchedulerForUnit now pg p d
    end
  else pickScheduler now p d.

(** ** Dispatching one pod *)

(** [cache.SplitMetaNamespaceKey]; [None] is its error. *)
Definition SplitMetaNamespaceKey (key : string) : option (string * string) :=
  match Split slash key with
  | [name] => Some ("", name)
  | [ns; name] => Some (ns, name)
  | _ => None
  end.

Definition restamp (now : Z) (i : QueuedPodInfo) : QueuedPodInfo :=
  {| PodKey := PodKey i; ResourceType := ResourceType i; Timestamp := now;
     InitialAddedTimestamp := InitialAddedTimestamp i; SpanContext := SpanContext i |}.

Context (godel timestamp span : string) (podLister : string → string → PodLookup)
  (patch : Pod → Pod → PatchResult).

(** The pod written to the API server, if any; the outer [option] is a panic
    (the lister's pod is nil on an error other than not-found). *)
Definition dispatchingPod (now : Z) (podInfo : QueuedPodInfo) (d : Dispatcher)
    : option (Dispatcher * option Pod) :=
  match SplitMetaNamespaceKey (PodKey podInfo) with
  | None => Some (with_sorted (AddPodInfo now podInfo (SortedPodsQueue d)) d, None)
  | Some (namespace, name) =>
      match podLister namespace name with
      | PodLookupError => None
      | PodNotFound => Some (d, None)
      | PodFound p deleting =>
          if deleting || negb (PendingPodOfGodel p godel) then Some (d, None)
          else
            let '(d, r) := selectScheduler now p d in
            match r with
            | None => Some (with_sorted (AddPodInfo now (restamp now podInfo) (SortedPodsQueue d)) d, None)
            | Some s =>
                podCopy ← sendPodToScheduler timestamp span p s;
                match patch p podCopy with
                | PatchOK => Some (d, Some podCopy)
                | res =>
                    let d := with_info (RemovePod podCopy (DispatchInfo d)) d in
                    let d := if SupportRescheduling then deletePodFromOwnerInfo podCopy d else d in
                    Some (match res with
                          | PatchNotFound => d
                          | _ => with_sorted (AddPodInfo now (restamp now podInfo) (SortedPodsQueue d)) d
                          end, None)
                end
            end
      end
  end.
End select.

(** ** Events *)

(** The pod waits in its unit or in the unit's ready queue. *)
Definition waits_in_unit (k uk : string) (u : unitInfos) : Prop :=
  (∃ ui, units u !! uk = Some ui ∧ k ∈ dom (unSortedPods ui)) ∨ k ∈ dom (items (readyUnitPods u)).

Lemma AddUnSorted_waits order uk i u :
  (∀ m, order m ≡ₚ map_to_list m) → uis_inv u → uk ≠ "" →
  waits_in_unit (PodKey i) uk (AddUnSortedPodInfo order uk i u).
Proof.
  intros Horder Hu Huk. unfold AddUnSortedPodInfo. rw bool_decide_false; [|done].
  destruct (getUnit_ok uk u Hu) as (H1 & H2 & H3).
  set (ui := {| podGroup := podGroup (getUnit uk u) |}).
  destruct (check_spec order Horder uk ui u) as (_ & ui' & Hunits & _ & _ & _ & Hcase).
  { done. } { unfold ui; simpl. set_solver. } { unfold ui; simpl. by apply map_Forall_insert_2. }
  unfold waits_in_unit. destruct (readyToBeDispatched ui).
  - right. destruct Hcase as [_ ->]. unfold ui; simpl. set_solver.
  - left. exists ui'. rw Hunits lookup_insert_eq. split; [done|]. destruct Hcase as [-> _].
    unfold ui; simpl. set_solver.
Qed.

(** When a pending pod with a legal resource type appears, it is queued:
    without a group in the pending queue, with a named group in its unit or the
    unit's ready queue; a pod whose group annotation is present but empty is
    dropped without a trace. *)
Theorem add_event_queues_pod order (now : Z) (p : Pod) (d : Dispatcher)
    (Horder : ∀ m, order m ≡ₚ map_to_list m)
    (Hlegal : GetPodResourceType p ≠ None) (Hunits : uis_inv (UnitInfos_ d))
    (Hpend : pod_wf (FIFOPendingPodsQueue d)) :
  let d' := addPodToPendingOrSortedQueue order now p d in
  match anno_lookup p PodGroupNameAnnotationKey with
  | None => GetPodKey p ∈ dom (items (FIFOPendingPodsQueue d')) ∧ UnitInfos_ d' = UnitInfos_ d
  | Some g => if decide (g = "") then d' = d
              else waits_in_unit (GetPodKey p) (Namespace p ++ "/" ++ g) (UnitInfos_ d')
                   ∧ FIFOPendingPodsQueue d' = FIFOPendingPodsQueue d
  end.
Proof.
  intros d'. unfold d', addPodToPendingOrSortedQueue, NewQueuedPodInfo, PodBelongToUnit,
    generateUnitKeyFromPod, anno. clear d'.
  destruct (GetPodResourceType p) as [t|]; [|done]. cbn [mbind option_bind].
  destruct (anno_lookup p PodGroupNameAnnotationKey) as [g|]; cbn [default from_option id].
  - case_decide as Hg.
    + subst g. rw bool_decide_true; [|done]. cbn [negb]. unfold AddUnSortedPodInfo.
      rw bool_decide_true; [|done]. by destruct d.
    + rw bool_decide_false; [|done]. cbn [negb]. split; [|done].
      apply (AddUnSorted_waits order _ {| PodKey := GetPodKey p |}); [done|done|].
      destruct (Namespace p); done.
  - split; [|done]. simpl. unfold pending_AddPodInfo, AddPodInfo, Add.
    set (i := {| PodKey := GetPodKey p |}).
    pose proof (fifo_add_spec podInfoKeyFunc keepTimestamps keepTimestamps_key _ (stamp now i) Hpend)
      as (_ & Hi & _). simpl in Hi. rw Hi. set_solver.
Qed.

Definition empty_dispatcher : Dispatcher :=
  {| FIFOPendingPodsQueue := NewPendingFIFO; SortedPodsQueue := NewSortedFIFO;
     UnitInfos_ := NewUnitInfos; DispatchInfo := NewDispatchInfo; OwnerInfos := NewOwnerInfo |}.

Definition empty_group_pod : Pod :=
  set_Annotations (Some {[PodGroupNameAnnotationKey := ""]}) example_pod.

Lemma add_event_queues_pod_witness :
  addPodToPendingOrSortedQueue map_to_list 5 empty_group_pod empty_dispatcher = empty_dispatcher.
Proof.
  apply (add_event_queues_pod map_to_list 5 empty_group_pod empty_dispatcher);
    [done|done| |apply new_wf]. split; [done|]. apply new_wf.
Defined.

(** An update event for a pod in the pending queue takes the pod out and
    puts it in anew: the time it was first added becomes the time of the
    update. *)
Theorem update_event_resets_age order (now : Z) (p q : Pod) (i : QueuedPodInfo) (d : Dispatcher)
    (Hkey : GetPodKey q = GetPodKey p) (Hlegal : GetPodResourceType q ≠ None)
    (Hgroup : anno_lookup q PodGroupNameAnnotationKey = None)
    (Hpend : pod_wf (FIFOPendingPodsQueue d))
    (Hi : items (FIFOPendingPodsQueue d) !! GetPodKey p = Some i)
    (Hsorted : items (SortedPodsQueue d) !! GetPodKey p = None) :
  ∃ j, items (FIFOPendingPodsQueue (updatePodInPendingOrSortedQueue order now p q d)) !! GetPodKey p
         = Some j
    ∧ Timestamp j = now ∧ InitialAddedTimestamp j = now.
Proof.
  unfold updatePodInPendingOrSortedQueue, NewQueuedPodInfo, PodBelongToUnit.
  destruct (GetPodResourceType q) as [t|]; [|done]. cbn [mbind option_bind]. rw Hgroup.
  unfold PodInfoExist, Exists, podInfoKeyFunc. simpl. rw Hkey Hsorted. simpl.
  set (old := {| PodKey := GetPodKey p |}).
  pose proof (fifo_delete_spec podInfoKeyFunc (FIFOPendingPodsQueue d) old Hpend) as (Hw & Hd & _).
  pose proof (fifo_add_spec podInfoKeyFunc keepTimestamps keepTimestamps_key _ (stamp now old) Hw)
    as (_ & Hadd & _). simpl in Hadd, Hd.
  unfold pending_AddPodInfo, AddPodInfo, Add, pending_RemovePodInfo, RemovePodInfo.
  rw Hadd Hd. rw lookup_insert_eq lookup_delete_eq. by eexists.
Qed.

Lemma update_event_resets_age_witness :
  let d := addPodToPendingOrSortedQueue map_to_list 5 example_pod empty_dispatcher in
  ∃ j, items (FIFOPendingPodsQueue
         (updatePodInPendingOrSortedQueue map_to_list 9 example_pod example_pod d)) !! "ns/p" = Some j
    ∧ Timestamp j = 9%Z ∧ InitialAddedTimestamp j = 9%Z.
Proof.
  intros d. apply (update_event_resets_age map_to_list 9 example_pod example_pod
    {| PodKey := "ns/p"; ResourceType := GuaranteedPod; Timestamp := 5; InitialAddedTimestamp := 5;
       SpanContext := "" |} d); try reflexivity; [discriminate|].
  apply (pod_step_wf _ (OpAdd 5 {| PodKey := "ns/p"; ResourceType := GuaranteedPod; Timestamp := 0;
    InitialAddedTimestamp := 0; SpanContext := "" |})), new_wf.
Defined.

(** ** Selection *)

Section select_proofs.
Context (set_order : gset string → list string) (rand : nat → nat).
Context (SupportRescheduling : bool) (SchedulerExist IsSchedulerInActiveQueue : string → bool)
  (PodGroupLister : string → string → option PodGroup)
  (getAssignedSchedulerFromPods : PodGroup → option string).

Abbreviation select := (selectScheduler set_order rand SupportRescheduling SchedulerExist
  IsSchedulerInActiveQueue PodGroupLister getAssignedSchedulerFromPods).
Abbreviation select_unit := (selectSchedulerForUnit set_order rand SupportRescheduling SchedulerExist
  IsSchedulerInActiveQueue getAssignedSchedulerFromPods).

(** The pod is tracked under [s], the sorted queue is untouched. *)
Definition tracks (d d' : Dispatcher) (p : Pod) (s : string) : Prop :=
  s ≠ "" ∧ DispatchStore.scheduler <$> Pods (DispatchInfo d') !! MetaNamespaceKey p = Some s
  ∧ MetaNamespaceKey p ∈ members (SchedulerToPods (DispatchInfo d')) s
  ∧ SortedPodsQueue d' = SortedPodsQueue d.

Lemma addPod_tracks now p s (d d0 : Dispatcher) i :
  s ≠ "" → SortedPodsQueue d = SortedPodsQueue d0 →
  tracks d0 (with_info (addPod now p s i) d) p s.
Proof.
  intros Hs Hq. split_and!; [done| | |done]; simpl.
  - by rw lookup_insert_eq.
  - rw members_add. rw decide_True; [|done]. set_solver.
Qed.

Lemma loadBalancing_tracks now p d d' s :
  loadBalancing set_order rand now p d = (d', Some s) → tracks d d' p s ∧ UnitInfos_ d' = UnitInfos_ d.
Proof.
  unfold loadBalancing, GetMostIdleSchedulerAndAddPodInAdvance.
  case_bool_decide as E; [done|]. intros [= <- <-]. split; [|done].
  by apply addPod_tracks.
Qed.

Lemma Set_nonempty p s o : s ≠ "" → (SetDispatchedUnboundPod p s o).2 ≠ "".
Proof.
  intros Hs. unfold SetDispatchedUnboundPod. case_bool_decide; [done|]. case_bool_decide; [done|]. simpl.
  case_bool_decide; simpl; [done|]. by case_bool_decide.
Qed.

Lemma pick_tracks now p d d' s :
  pickScheduler set_order rand SupportRescheduling now p d = (d', Some s) →
  tracks d d' p s ∧ UnitInfos_ d' = UnitInfos_ d.
Proof.
  unfold pickScheduler. destruct SupportRescheduling; [|by apply loadBalancing_tracks].
  unfold selectSchedulerBasedOnOwner.
  destruct (SelectSchedulerAndSetDispatchedUnboundPod p (OwnerInfos d)) as [o s0].
  case_bool_decide as E; cbn [negb].
  - destruct (loadBalancing set_order rand now p (with_owners o d)) as [d1 [s1|]] eqn:E1; [|done].
    apply loadBalancing_tracks in E1 as [(Hs & Hp & Hm & Hq) Hu].
    pose proof (Set_nonempty p s1 (OwnerInfos d1) Hs) as Hgot.
    destruct (SetDispatchedUnboundPod p s1 (OwnerInfos d1)) as [o1 got]. simpl in Hgot.
    case_bool_decide as Eg; intros [= <- <-].
    + subst got. split; [by split_and!|done].
    + split; [|done]. by apply addPod_tracks.
  - intros [= <- <-]. split; [|done]. by apply addPod_tracks.
Qed.

Definition assigned (pg : PodGroup) (d : Dispatcher) : string :=
  GetAssignedSchedulerForPodGroupUnit pg (UnitInfos_ d).

Lemma assign_ok pg s force u u' :
  AssignSchedulerToPodGroupUnit pg s force u = (u', true) →
  GetAssignedSchedulerForPodGroupUnit pg u' = s.
Proof.
  unfold AssignSchedulerToPodGroupUnit, GetAssignedSchedulerForPodGroupUnit.
  destruct force; [intros [= <-]; simpl; by rw lookup_insert_eq|].
  destruct (_ && _); [done|]. intros [= <-]. simpl. by rw lookup_insert_eq.
Qed.

Lemma getAssigned_ok pg d d' s :
  getAssignedScheduler getAssignedSchedulerFromPods pg d = (d', Some s) →
  (s ≠ "" → assigned pg d' = s) ∧ SortedPodsQueue d' = SortedPodsQueue d
  ∧ DispatchInfo d' = DispatchInfo d.
Proof.
  unfold getAssignedScheduler. case_bool_decide as E; cbn [negb].
  - destruct (getAssignedSchedulerFromPods pg) as [t|]; [|done].
    case_bool_decide as Et; cbn [negb]; [intros [= <- <-]; done|].
    destruct (AssignSchedulerToPodGroupUnit pg t false (UnitInfos_ d)) as [u []] eqn:Ea; [|done].
    intros [= <- <-]. split; [|done]. intros _. by apply (assign_ok pg t false (UnitInfos_ d)).
  - by intros [= <- <-].
Qed.

Lemma select_unit_ok now pg p d d' s :
  select_unit now pg p d = (d', Some s) → tracks d d' p s ∧ assigned pg d' = s.
Proof.
  unfold selectSchedulerForUnit.
  destruct (getAssignedScheduler getAssignedSchedulerFromPods pg d) as [d1 [s1|]] eqn:E1; [|done].
  apply getAssigned_ok in E1 as (Ha & Hq & Hinfo).
  destruct (negb (s1 ≟ "") && SchedulerExist s1 && IsSchedulerInActiveQueue s1) eqn:Eok.
  - intros [= <- <-]. apply andb_prop in Eok as [[Hne _]%andb_prop _].
    apply negb_true_iff, bool_decide_eq_false in Hne. split.
    + destruct SupportRescheduling; by apply addPod_tracks.
    + unfold assigned in *. destruct SupportRescheduling; by apply Ha.
  - destruct (pickScheduler set_order rand SupportRescheduling now p d1) as [d2 [s2|]] eqn:Ep; [|done].
    apply pick_tracks in Ep as [(Hs & Hp & Hm & Hq2) Hu].
    destruct (AssignSchedulerToPodGroupUnit pg s2 (negb (s1 ≟ "")) (UnitInfos_ d2)) as [u []] eqn:Eas;
      [|done].
    intros [= <- <-]. split; [split_and!; try done; simpl; congruence|].
    by apply (assign_ok pg s2 (negb (s1 ≟ "")) (UnitInfos_ d2)).
Qed.

(** No path touches the sorted queue. *)
Lemma pick_sorted now p d d' r :
  pickScheduler set_order rand SupportRescheduling now p d = (d', r) →
  SortedPodsQueue d' = SortedPodsQueue d.
Proof.
  unfold pickScheduler, loadBalancing, selectSchedulerBasedOnOwner. destruct SupportRescheduling.
  - destruct (SelectSchedulerAndSetDispatchedUnboundPod p (OwnerInfos d)) as [o s0].
    destruct (negb (s0 ≟ "")); [by intros [= <- <-]|]. unfold loadBalancing.
    destruct (GetMostIdleSchedulerAndAddPodInAdvance _ _ _ _ _) as [i s1].
    destruct (s1 ≟ ""); [by intros [= <- <-]|].
    destruct (SetDispatchedUnboundPod _ _ _) as [o1 got]. destruct (got ≟ s1); by intros [= <- <-].
  - destruct (GetMostIdleSchedulerAndAddPodInAdvance _ _ _ _ _) as [i s1]. by intros [= <- <-].
Qed.

Lemma select_sorted now p d d' r : select now p d = (d', r) → SortedPodsQueue d' = SortedPodsQueue d.
Proof.
  unfold selectScheduler. destruct (negb (GetPodGroupName p ≟ "")); [|by apply pick_sorted].
  destruct (PodGroupLister _ _) as [pg|]; [|by intros [= <- <-]].
  unfold selectSchedulerForUnit.
  assert (Hg : SortedPodsQueue (getAssignedScheduler getAssignedSchedulerFromPods pg d).1 = SortedPodsQueue d).
  { unfold getAssignedScheduler. destruct (negb _); [done|].
    destruct (getAssignedSchedulerFromPods pg); [|done]. destruct (negb _); [|done].
    by destruct (AssignSchedulerToPodGroupUnit _ _ _ _). }
  destruct (getAssignedScheduler getAssignedSchedulerFromPods pg d) as [d1 [s1|]]; simpl in Hg;
    [|by intros [= <- <-]].
  destruct (_ && _ && _); [by destruct SupportRescheduling; intros [= <- <-]|].
  destruct (pickScheduler set_order rand SupportRescheduling now p d1) as [d2 [s2|]] eqn:Ep;
    apply pick_sorted in Ep; [|intros [= <- <-]; congruence].
  destruct (AssignSchedulerToPodGroupUnit _ _ _ _). intros [= <- <-]. simpl. congruence.
Qed.

Lemma select_tracks now p d d' s : select now p d = (d', Some s) → tracks d d' p s.
Proof.
  unfold selectScheduler. destruct (negb (GetPodGroupName p ≟ "")).
  - destruct (PodGroupLister _ _); [|done]. intros H. by apply select_unit_ok in H as [? _].
  - intros H. by apply pick_tracks in H as [? _].
Qed.

(** A group that is assigned to a live scheduler keeps it. *)
Lemma select_assigned now pg p d s :
  assigned pg d = s → s ≠ "" → SchedulerExist s = true → IsSchedulerInActiveQueue s = true →
  (select_unit now pg p d).2 = Some s.
Proof.
  intros Ha Hs He Hact. unfold selectSchedulerForUnit, getAssignedScheduler. unfold assigned in Ha.
  rw Ha. rw bool_decide_false; [|done]. cbn [negb]. rw bool_decide_false; [|done]. by rw He Hact.
Qed.
End select_proofs.

(** Operations on the units that concern neither the assignment nor the removal
    of members or groups. *)
Definition keeps_assignment (op : uop) : bool :=
  match op with UDeletePG _ | UDelPod _ _ | UAssign _ _ _ => false | _ => true end.

Lemma assigned_getUnit pg u :
  GetAssignedSchedulerForPodGroupUnit pg u =
  UnitInfos.scheduler (getUnit (generateUnitKeyFromPodGroup pg) u).
Proof. unfold GetAssignedSchedulerForPodGroupUnit, getUnit. by destruct (units u !! _). Qed.

Lemma keeps_assignment_step order unit_order u op pg :
  (∀ m, order m ≡ₚ map_to_list m) → uis_inv u → keeps_assignment op = true →
  GetAssignedSchedulerForPodGroupUnit pg (uis_step order unit_order u op) =
  GetAssignedSchedulerForPodGroupUnit pg u.
Proof.
  intros Horder Hu Hop. rw !assigned_getUnit. set (k := generateUnitKeyFromPodGroup pg).
  assert (Hcheck : ∀ key ui, dom (unSortedPods ui) ⊆ pods ui →
    map_Forall (λ k i, PodKey i = k) (unSortedPods ui) →
    UnitInfos.scheduler ui = UnitInfos.scheduler (getUnit key u) →
    UnitInfos.scheduler (getUnit k (checkUnit order key ui u)) = UnitInfos.scheduler (getUnit k u)).
  { intros key ui H1 H2 H3.
    destruct (check_spec order Horder key ui u Hu H1 H2) as (_ & ui' & Hunits & _ & _ & Hsch & _).
    unfold getUnit. rw Hunits. destruct (decide (key = k)) as [->|].
    - rw lookup_insert_eq /= Hsch H3. done.
    - by rw lookup_insert_ne. }
  destruct op as [g|o g|g|uk q|uk i|uk i|uk q| |i|g t f|]; simpl in *; try done.
  - destruct (getUnit_ok (generateUnitKeyFromPodGroup g) u Hu) as (H1 & H2 & H3). by apply Hcheck.
  - destruct (getUnit_ok (generateUnitKeyFromPodGroup g) u Hu) as (H1 & H2 & H3). by apply Hcheck.
  - unfold UnitInfos.AddPod. case_bool_decide; [done|].
    destruct (getUnit_ok uk u Hu) as (H1 & H2 & H3). apply Hcheck; simpl; [set_solver|done|done].
  - unfold AddUnSortedPodInfo. case_bool_decide; [done|].
    destruct (getUnit_ok uk u Hu) as (H1 & H2 & H3).
    apply Hcheck; simpl; [set_solver|by apply map_Forall_insert_2|done].
  - unfold DeleteUnSortedPodInfo. case_bool_decide; [done|].
    destruct (units u !! uk) as [ui|] eqn:E; [|done]. unfold getUnit; simpl.
    destruct (decide (uk = k)) as [->|]; [by rw lookup_insert_eq E|by rw lookup_insert_ne].
  - unfold Pop. by destruct (DispatchFifo.Pop (readyUnitPods u)).
  - by rw populate_noop.
Qed.

(** The pods of a pod group all go to one scheduler: once a pod of the
    group was given to a scheduler, every later pod of the group is given to the
    same one as long as that scheduler is registered and active, whatever else
    happened to the groups in between short of deletions and reassignments. *)
Theorem gang_same_scheduler order unit_order set_order rand rand' resched exist active pgLister fromPods
    (now now' : Z) (pg : PodGroup) (p q : Pod) (d d1 d2 : Dispatcher) (s : string) (ops : list uop)
    (Horder : ∀ m, order m ≡ₚ map_to_list m)
    (Hp : GetPodGroupName p ≠ "" ∧ pgLister (Namespace p) (GetPodGroupName p) = Some pg)
    (Hq : GetPodGroupName q ≠ "" ∧ pgLister (Namespace q) (GetPodGroupName q) = Some pg)
    (Hsel : selectScheduler set_order rand resched exist active pgLister fromPods now p d = (d1, Some s))
    (Hinv : uis_inv (UnitInfos_ d1))
    (Hops : forallb keeps_assignment ops = true)
    (Hd2 : UnitInfos_ d2 = foldl (uis_step order unit_order) (UnitInfos_ d1) ops)
    (Hlive : exist s = true ∧ active s = true) :
  (selectScheduler set_order rand' resched exist active pgLister fromPods now' q d2).2 = Some s.
Proof.
  destruct Hp as [Hpn Hpg]. destruct Hq as [Hqn Hqg]. destruct Hlive as [He Ha].
  unfold selectScheduler in *. rw (bool_decide_false _ Hpn) /= Hpg in Hsel.
  rw (bool_decide_false _ Hqn) /= Hqg.
  apply (select_unit_ok set_order rand resched exist active pgLister) in Hsel as [(Hs & _) Hass].
  apply select_assigned; [|done..]. unfold assigned in *. rw Hd2 -Hass.
  clear Hass Hd2. revert Hinv Hops. generalize (UnitInfos_ d1) as u.
  induction ops as [|op ops IH]; intros u Hinv Hops; [done|]. simpl in *.
  apply andb_prop in Hops as [Hop Hops].
  rw IH; [by apply keeps_assignment_step| |done].
  by destruct (step_good order unit_order Horder u op Hinv).
Qed.

Definition group_pod (name : string) : Pod :=
  {| Name := name; Namespace := "ns"; UID := name; CreationTimestamp := 0;
     Annotations := Some {[PodGroupNameAnnotationKey := "g"]}; OwnerReferences := [];
     NodeName := ""; SchedulerName := ""; PriorityClassName := ""; Priority := None;
     PreemptionPolicy := None; Containers := []; InitContainers := []; Conditions := [];
     Labels := ∅; Tolerations := []; Affinity := None; Overhead := None; StartTime := None;
     DeletionTimestamp := None |}.

Definition two_schedulers : Dispatcher :=
  with_info (AddScheduler "s2" (AddScheduler "s1" NewDispatchInfo)) empty_dispatcher.

Lemma gang_same_scheduler_witness :
  let pg := {| pg_Namespace := "ns"; pg_Name := "g"; pg_DeletionTimestamp := None;
               pg_Phase := "Running"; pg_MinMember := 1 |} in
  let sel rand := selectScheduler elements rand false (λ _, true) (λ _, true) (λ _ _, Some pg)
                    (λ _, Some "") in
  let r := sel (λ n, n) 1%Z (group_pod "a") two_schedulers in
  (sel (λ _, 0%nat) 2%Z (group_pod "b") r.1).2 = r.2.
Proof.
  intros pg sel r. assert (Hr : ∃ s, r.2 = Some s ∧
    UnitInfos_ r.1 = uis_step map_to_list map_to_list NewUnitInfos (UAssign pg s false)).
  { exists "s1". split; vm_compute; reflexivity. }
  destruct Hr as (s & Hs & Hu). rw Hs.
  assert (Hsel : sel (λ n, n) 1%Z (group_pod "a") two_schedulers = (r.1, Some s)).
  { fold r. rw -Hs. by apply surjective_pairing. }
  clearbody r.
  apply (gang_same_scheduler map_to_list map_to_list elements (λ n, n) (λ _, 0%nat) false (λ _, true)
    (λ _, true) (λ _ _, Some pg) (λ _, Some "") 1 2 pg (group_pod "a") (group_pod "b") two_schedulers
    r.1 r.1 s []).
  - intros m. reflexivity.
  - split; [discriminate|reflexivity].
  - split; [discriminate|reflexivity].
  - exact Hsel.
  - rw Hu. apply (step_good map_to_list map_to_list (λ m, reflexivity _)). split; [done|apply new_wf].
  - reflexivity.
  - reflexivity.
  - split; reflexivity.
Defined.

(** ** Dispatching *)

Lemma anno_set_names k v p p' :
  anno_set k v p = Some p' → Name p' = Name p ∧ Namespace p' = Namespace p.
Proof. unfold anno_set. destruct (Annotations p); [|done]. simpl. by intros [= <-]. Qed.

Lemma send_names ts sp p s p' :
  sendPodToScheduler ts sp p s = Some p' → MetaNamespaceKey p' = MetaNamespaceKey p.
Proof.
  unfold sendPodToScheduler. intros H.
  apply bind_Some in H as (c1 & E1 & H). apply bind_Some in H as (c2 & E2 & H).
  apply bind_Some in H as (c3 & E3 & H).
  apply anno_set_names in E1 as [N1 S1]. apply anno_set_names in E2 as [N2 S2].
  assert (H3 : Name c3 = Name c2 ∧ Namespace c3 = Namespace c2).
  { destruct (anno_lookup c2 InitialHandledTimestampAnnotationKey); [by simplify_eq|].
    by apply anno_set_names in E3. }
  assert (H4 : Name p' = Name c3 ∧ Namespace p' = Namespace c3).
  { destruct (anno c3 TraceContext ≟ ""); [by apply anno_set_names in H|by simplify_eq]. }
  unfold MetaNamespaceKey. simpl in N1, S1. destruct H3 as [N3 S3], H4 as [N4 S4].
  by rw N4 S4 N3 S3 N2 S2 N1 S1.
Qed.

Lemma AddPodInfo_in now i q : pod_wf q → PodKey i ∈ dom (items (AddPodInfo now i q)).
Proof.
  intros Hq. pose proof (fifo_add_spec podInfoKeyFunc keepTimestamps keepTimestamps_key q (stamp now i) Hq)
    as (_ & Hi & _). simpl in Hi. unfold AddPodInfo, Add. rw Hi. set_solver.
Qed.

(** C25: Dispatching a pending pod never loses it: either the pod is written to
    the API server as dispatched to a scheduler that now tracks it, or it is back
    in the sorted queue and, after a failed write, no longer tracked, or the API
    server said that the pod is gone. *)
Theorem dispatch_pod_not_lost set_order rand resched exist active pgLister fromPods godel ts sp podLister
    patch (now : Z) (i : QueuedPodInfo) (d : Dispatcher) (ns name : string) (p : Pod)
    (Hkey : SplitMetaNamespaceKey (PodKey i) = Some (ns, name))
    (Hget : podLister ns name = PodFound p false)
    (Hpend : PendingPodOfGodel p godel = true)
    (Hq : pod_wf (SortedPodsQueue d)) :
  ∃ d' w, dispatchingPod set_order rand resched exist active pgLister fromPods godel ts sp podLister patch
            now i d = Some (d', w)
    ∧ match w with
      | Some c => ∃ s, anno c SchedulerAnnotationKey = s ∧ DispatchedPod c = true
          ∧ MetaNamespaceKey p ∈ members (SchedulerToPods (DispatchInfo d')) s
          ∧ DispatchStore.scheduler <$> Pods (DispatchInfo d') !! MetaNamespaceKey p = Some s
      | None => (PodKey i ∈ dom (items (SortedPodsQueue d'))
                 ∨ ∃ c, patch p c = PatchNotFound)
          ∧ (∀ c s, sendPodToScheduler ts sp p s = Some c → patch p c ≠ PatchOK →
              (selectScheduler set_order rand resched exist active pgLister fromPods now p d).2 = Some s →
              Pods (DispatchInfo d') !! MetaNamespaceKey p = None)
      end.
Proof.
  unfold dispatchingPod. rw Hkey Hget Hpend. cbn [orb negb].
  destruct (selectScheduler set_order rand resched exist active pgLister fromPods now p d)
    as [d1 [s|]] eqn:Esel.
  - apply select_tracks in Esel as (Hs & Hp & Hm & Hsq).
    destruct (send_spec ts sp p s) as (c & Ec & Vc). rw Ec. cbn [mbind option_bind].
    assert (Hc : DispatchedPod c = true ∧ anno c SchedulerAnnotationKey = s).
    { apply OfGodel_true in Hpend as (_ & _ & Hpend). rw PendingPod_view in Hpend. split.
      - rw DispatchedPod_view Vc. split_view (view_of p). eval_keys. by rw bool_decide_false.
      - change (v_sched (view_of c) = s). by rw Vc. }
    assert (Hrm : ∀ dd : Dispatcher, Pods (RemovePod c (DispatchInfo dd)) !! MetaNamespaceKey p = None).
    { intros dd. rewrite <- (send_names _ _ _ _ _ Ec). apply removed_untracked. }
    destruct (patch p c) eqn:Epatch.
    + eexists _, _. split; [done|]. destruct Hc as [Hc1 Hc2]. exists s. by split_and!.
    + eexists _, _. split; [done|]. split; [right; by exists c|].
      intros c' s' _ _ _. destruct resched; apply Hrm.
    + eexists _, _. split; [done|]. split.
      * left. simpl. change (PodKey i) with (PodKey (restamp now i)). apply AddPodInfo_in.
        destruct resched; simpl; by rw Hsq.
      * intros c' s' _ _ _. destruct resched; apply Hrm.
  - eexists _, _. split; [done|]. split.
    + left. simpl. change (PodKey i) with (PodKey (restamp now i)). apply AddPodInfo_in.
      by rw (select_sorted _ _ _ _ _ _ _ _ _ _ _ _ Esel).
    + intros c s _ _. done.
Qed.

Lemma dispatch_pod_not_lost_witness :
  let i := {| PodKey := "ns/p"; ResourceType := GuaranteedPod; Timestamp := 1;
              InitialAddedTimestamp := 1; SpanContext := "" |} in
  ∃ d' w, dispatchingPod elements (λ n, n) false (λ _, true) (λ _, true) (λ _ _, None) (λ _, None)
            "godel" "t" "x" (λ _ _, PodFound example_pod false) (λ _ _, PatchOK) 2 i two_schedulers
          = Some (d', w).
Proof.
  intros i. destruct (dispatch_pod_not_lost elements (λ n, n) false (λ _, true) (λ _, true)
    (λ _ _, None) (λ _, None) "godel" "t" "x" (λ _ _, PodFound example_pod false) (λ _ _, PatchOK) 2 i
    two_schedulers "ns" "p" example_pod) as (d' & w & H & _);
    [reflexivity|reflexivity|reflexivity|apply new_wf|].
  exists d', w. exact H.
Defined.
