(* ===== verification/Splay.v ===== *)
(** * Splay tree (pkg/util/splay/splay.go)

    The array-based splay tree that keeps the pods of a node that may be
    preempted.  [items] and [infos] are the two slices; index 0 is the nil
    node, 1 and 2 are the sentinels [minv] and [maxv].  The links are indices,
    and every read or write of a slice that Go would refuse is [None].  The
    loops run with the number of items as fuel; the theorems show that this is
    enough, so no run ends for lack of it.

    The second half relates the array to an inductive tree ([rep], and [repc]
    for the path from a node to the root), shows what one rotation, the
    splaying loop and every operation do to it, and from that what callers see:
    a list of objects in ascending order ([R]). *)
From S2P Require Import Prelude.

Local Open Scope godel_scope.
Local Open Scope string_scope.

(** What the tree asks of the objects stored in it, and of the information it
    maintains for every subtree: [StoredObj], [Comparable] and [MaintainInfo]. *)
Class StoredObjOps (Obj Info : Type) := {
  Key : Obj → string;
  (** [Compare a b]: [a] is strictly greater than [b]. *)
  Compare : Obj → Obj → bool;
  MakeMaintainInfo : Obj → Info;
  Maintain : Info → option Info → option Info → Info
}.

(** [Maintain] recomputes the properties of a node from its children, whatever
    they were before. *)
Class StoredObjLaws (Obj Info : Type) `{!StoredObjOps Obj Info} : Prop := {
  maintain_again : ∀ (i : Info) a b c d, Maintain (Maintain i a b) c d = Maintain i c d;
  maintain_make : ∀ o : Obj, Maintain (MakeMaintainInfo o) None None = MakeMaintainInfo o
}.

Section splay.
Context {Obj Info : Type} `{!StoredObjOps Obj Info}.

(** [StoredObj]: an object of the caller or a [storedObjForLookup]. *)
Inductive StoredObj := storedObjForLookup (key : string) | Stored (o : Obj).
(** [MaintainInfo]: of the caller or a [maintainInfoForLookup]. *)
Inductive MaintainInfo := maintainInfoForLookup | Maintained (i : Info).

Record node := mkNode {
  lchild : nat; rchild : nat; parent : Z; key : string; obj : StoredObj
}.

Definition StoredObj_Key (o : StoredObj) : string :=
  match o with storedObjForLookup k => k | Stored o => Key o end.
Definition StoredObj_MakeMaintainInfo (o : StoredObj) : MaintainInfo :=
  match o with storedObjForLookup _ => maintainInfoForLookup
             | Stored o => Maintained (MakeMaintainInfo o) end.

Definition newNode (o : StoredObj) (p : Z) : node := mkNode 0 0 p (StoredObj_Key o) o.

Definition set_lchild (v : nat) (n : node) : node := mkNode v (rchild n) (parent n) (key n) (obj n).
Definition set_rchild (v : nat) (n : node) : node := mkNode (lchild n) v (parent n) (key n) (obj n).
Definition set_parent (v : nat) (n : node) : node :=
  mkNode (lchild n) (rchild n) (Z.of_nat v) (key n) (obj n).
Definition set_obj (o : StoredObj) (n : node) : node :=
  mkNode (lchild n) (rchild n) (parent n) (key n) o.

Record splay := mkSplay {
  root : nat; hash : gmap string nat; items : list node; infos : list MaintainInfo; count : nat
}.

(** [s.minv] and [s.maxv], set once by [NewSplay]. *)
Definition minv : nat := 1.
Definition maxv : nat := 2.

Definition nilObj : StoredObj := storedObjForLookup "NilObj".
Definition minObj : StoredObj := storedObjForLookup "MinObj".
Definition maxObj : StoredObj := storedObjForLookup "MaxObj".

Definition NewSplay : splay :=
  mkSplay minv ∅
    [newNode nilObj (-1)%Z; set_rchild maxv (newNode minObj 0%Z); set_parent minv (newNode maxObj 1%Z)]
    (StoredObj_MakeMaintainInfo <$> [nilObj; minObj; maxObj]) 2.

Definition set_root (r : nat) (s : splay) : splay := mkSplay r (hash s) (items s) (infos s) (count s).
Definition set_items (l : list node) (s : splay) : splay := mkSplay (root s) (hash s) l (infos s) (count s).
Definition set_infos (l : list MaintainInfo) (s : splay) : splay :=
  mkSplay (root s) (hash s) (items s) l (count s).
Definition set_hash (h : gmap string nat) (s : splay) : splay :=
  mkSplay (root s) h (items s) (infos s) (count s).

(** [s.items[i].f = v] *)
Definition upd (i : nat) (f : node → node) (s : splay) : option splay :=
  if decide (i < length (items s)) then Some (set_items (alter f i (items s)) s) else None.

(** Using a link as an index. *)
Definition index (z : Z) : option nat := if (z <? 0)%Z then None else Some (Z.to_nat z).

(** [s.chooseChildIndex] for a comparable that is greater than a stored object
    exactly when [gt] says so. *)
Definition chooseChildIndex (gt : Obj → bool) (n : nat) (s : splay) : option bool :=
  if n ≟ minv then Some true
  else if n ≟ maxv then Some false
  else nd ← items s !! n;
       match obj nd with Stored o => Some (gt o) | storedObjForLookup _ => None end.

Definition maintained (m : MaintainInfo) : option Info :=
  match m with Maintained i => Some i | maintainInfoForLookup => None end.

(** The info of a child that takes part: [None] is the panic of the type
    assertion, [Some None] is nil. *)
Definition childInfo (c sentinel : nat) (s : splay) : option (option Info) :=
  if negb (c ≟ 0) && negb (c ≟ sentinel)
  then m ← infos s !! c; i ← maintained m; Some (Some i)
  else Some None.

Definition maintain (i : nat) (s : splay) : option splay :=
  n ← items s !! i; m ← infos s !! i;
  match m with
  | maintainInfoForLookup => Some s
  | Maintained o =>
      l ← childInfo (lchild n) minv s; r ← childInfo (rchild n) maxv s;
      Some (set_infos (<[i := Maintained (Maintain o l r)]> (infos s)) s)
  end.

(** Whether [x] is the right child of [y]. *)
Definition getChildIndex (x y : nat) (s : splay) : option bool :=
  if y ≟ 0 then Some false
  else ny ← items s !! y; Some (rchild ny ≟ x).

(** [if getChildIndex(old, p) == 1 { items[p].rchild = v } else { items[p].lchild = v }] *)
Definition setChild (p old v : nat) (s : splay) : option splay :=
  k ← getChildIndex old p s;
  if k : bool then upd p (set_rchild v) s else upd p (set_lchild v) s.

Definition rotate (x : nat) (s : splay) : option splay :=
  nx ← items s !! x; y ← index (parent nx);
  ny ← items s !! y; z ← index (parent ny);
  k ← getChildIndex x y s;
  s ← (if z ≟ 0 then Some s else setChild z y x s);
  s ← upd x (set_parent z) s;
  s ← (if k : bool then
         nx ← items s !! x;
         s ← upd y (set_rchild (lchild nx)) s;
         s ← (if lchild nx ≟ 0 then Some s else upd (lchild nx) (set_parent y) s);
         upd x (set_lchild y) s
       else
         nx ← items s !! x;
         s ← upd y (set_lchild (rchild nx)) s;
         s ← (if rchild nx ≟ 0 then Some s else upd (rchild nx) (set_parent y) s);
         upd x (set_rchild y) s);
  s ← upd y (set_parent x) s;
  s ← maintain y s;
  maintain x s.

Fixpoint splay_loop (fuel : nat) (x k : nat) (s : splay) : option splay :=
  match fuel with
  | 0 => None
  | S fuel =>
      nx ← items s !! x;
      if (parent nx =? Z.of_nat k)%Z then Some s
      else
        y ← index (parent nx); ny ← items s !! y;
        s ← (if (parent ny =? Z.of_nat k)%Z then Some s
             else z ← index (parent ny);
                  kx ← getChildIndex x y s; ky ← getChildIndex y z s;
                  if negb (eqb kx ky) then rotate x s else rotate y s);
        s ← rotate x s;
        splay_loop fuel x k s
  end.

(** [s.splay(x, k)] *)
Definition splay_to (x k : nat) (s : splay) : option splay :=
  s ← splay_loop (length (items s)) x k s;
  Some (if k ≟ 0 then set_root x s else s).

(** The descent of [Insert]: the last node before the nil link. *)
Fixpoint descend (fuel : nat) (gt : Obj → bool) (p n : nat) (s : splay) : option nat :=
  match fuel with
  | 0 => None
  | S fuel =>
      if n ≟ 0 then Some p
      else k ← chooseChildIndex gt n s; nd ← items s !! n;
           descend fuel gt n (if k : bool then rchild nd else lchild nd) s
  end.

Definition Insert (v : Obj) (s : splay) : option (splay * bool) :=
  match hash s !! Key v with
  | Some i => s ← upd i (set_obj (Stored v)) s; Some (s, false)
  | None =>
      p ← descend (S (length (items s))) (Compare v) 0 (root s) s;
      let n := S (count s) in
      let s := mkSplay (root s) (<[Key v := n]> (hash s))
                 (items s ++ [newNode (Stored v) (Z.of_nat p)])
                 (infos s ++ [StoredObj_MakeMaintainInfo (Stored v)]) n in
      s ← (if p ≟ 0 then Some s
           else k ← chooseChildIndex (Compare v) p s;
                if k : bool then upd p (set_rchild n) s else upd p (set_lchild n) s);
      s ← splay_to n 0 s;
      Some (s, true)
  end.

(** [find(0)] and [find(1)] of [Delete]: the loops that go right (left) as far
    as the links lead. *)
Fixpoint find_loop (fuel : nat) (right : bool) (ret : nat) (s : splay) : option nat :=
  match fuel with
  | 0 => None
  | S fuel =>
      nd ← items s !! ret;
      let next := if right then rchild nd else lchild nd in
      if next ≟ 0 then Some ret else find_loop fuel right next s
  end.

(** Moves the last item into the hole left at [i]. *)
Definition moveLast (i lastIndex : nat) (s : splay) : option splay :=
  lastNode ← items s !! lastIndex;
  lastParent ← index (parent lastNode);
  s ← (if lastParent ≟ 0 then Some s else setChild lastParent lastIndex i s);
  s ← (if lchild lastNode ≟ 0 then Some s else upd (lchild lastNode) (set_parent i) s);
  s ← (if rchild lastNode ≟ 0 then Some s else upd (rchild lastNode) (set_parent i) s);
  let s := set_hash (<[key lastNode := i]> (hash s)) s in
  lastNode ← items s !! lastIndex;
  s ← upd i (λ _, lastNode) s;
  lastInfo ← infos s !! lastIndex;
  infos' ← store i lastInfo (infos s);
  let s := set_infos infos' s in
  Some (if root s ≟ lastIndex then set_root i s else s).

(** The first part of [Delete]: the node [i] becomes the only node between its
    predecessor at the root and its successor, and is unlinked there. *)
Definition unlink (i : nat) (s : splay) : option splay :=
  s ← splay_to i 0 s;
  ni ← items s !! i;
  pre ← find_loop (length (items s)) true (lchild ni) s;
  nxt ← find_loop (length (items s)) false (rchild ni) s;
  s ← splay_to pre 0 s;
  s ← splay_to nxt pre s;
  s ← upd nxt (set_lchild 0) s;
  s ← maintain nxt s;
  maintain pre s.

Definition Delete (v : string) (s : splay) : option (splay * bool) :=
  match hash s !! v with
  | None => Some (s, false)
  | Some i =>
      s ← unlink i s;
      let s := set_hash (delete v (hash s)) s in
      s ← (if i ≟ count s then Some s else moveLast i (count s) s);
      Some (mkSplay (root s) (hash s) (take (count s) (items s)) (take (count s) (infos s))
              (pred (count s)), true)
  end.

(** [Get] returns a [StoredObj], nil when the key is absent. *)
Definition Get (v : string) (s : splay) : option (option StoredObj) :=
  match hash s !! v with
  | None => Some None
  | Some i => nd ← items s !! i; Some (Some (obj nd))
  end.

Fixpoint partition_loop (fuel : nat) (gt : Obj → bool) (next p : nat) (s : splay) : option nat :=
  match fuel with
  | 0 => None
  | S fuel =>
      if p ≟ 0 then Some next
      else k ← chooseChildIndex gt p s; nd ← items s !! p;
           if k : bool then partition_loop fuel gt next (rchild nd) s
           else partition_loop fuel gt p (lchild nd) s
  end.

(** [Partition] for the comparable that is greater than exactly the objects on
    which [gt] holds; the result is nil or the info of the subtree. *)
Definition Partition (gt : Obj → bool) (s : splay) : option (splay * option MaintainInfo) :=
  s ← splay_to minv 0 s;
  next ← partition_loop (S (length (items s))) gt 0 (root s) s;
  s ← splay_to next minv s;
  nn ← items s !! next;
  if lchild nn ≟ 0 then Some (s, None)
  else m ← infos s !! lchild nn; Some (s, Some m).

(** The in-order traversal with a visitor of state [St]; the visitor is called
    on the stored objects only. *)
Fixpoint range_dfs {St} (fuel : nat) (f : St → StoredObj → St) (i : nat) (st : St) (s : splay)
    : option St :=
  match fuel with
  | 0 => None
  | S fuel =>
      if i ≟ 0 then Some st
      else
        nd ← items s !! i;
        st ← range_dfs fuel f (lchild nd) st s;
        let st := if negb (i ≟ minv) && negb (i ≟ maxv) then f st (obj nd) else st in
        range_dfs fuel f (rchild nd) st s
  end.
Definition Range {St} (f : St → StoredObj → St) (st : St) (s : splay) : option St :=
  range_dfs (S (length (items s))) f (root s) st s.

(** As [range_dfs]; a visitor that answers false ends the current call, and
    only that one. *)
Fixpoint crange_dfs {St} (fuel : nat) (f : St → StoredObj → St * bool) (i : nat) (st : St)
    (s : splay) : option St :=
  match fuel with
  | 0 => None
  | S fuel =>
      if i ≟ 0 then Some st
      else
        nd ← items s !! i;
        st ← crange_dfs fuel f (lchild nd) st s;
        if negb (i ≟ minv) && negb (i ≟ maxv) then
          match f st (obj nd) with
          | (st, false) => Some st
          | (st, true) => crange_dfs fuel f (rchild nd) st s
          end
        else crange_dfs fuel f (rchild nd) st s
  end.
Definition ConditionRange {St} (f : St → StoredObj → St * bool) (st : St) (s : splay) : option St :=
  crange_dfs (S (length (items s))) f (root s) st s.

Definition Len (s : splay) : Z := (Z.of_nat (count s) - 2)%Z.

(** The method [String]: the keys in order, each followed by a comma. *)
Definition String_ (s : splay) : option string :=
  Range (λ st o, st ++ StoredObj_Key o ++ ",") "" s.

(** [copy] into a slice of length [n] that holds [zero]. *)
Definition copy_into {A} (n : nat) (zero : A) (l : list A) : list A :=
  (take n l ++ replicate (n - length l) zero)%list.

Fixpoint clone_hash (l : list node) (i : nat) (h : gmap string nat) : gmap string nat :=
  match l with
  | [] => h
  | nd :: l => clone_hash l (S i) (<[key nd := i]> h)
  end.

(** [Clone]; [None] is the index out of range of the loop over [items]. *)
Definition Clone (s : splay) : option splay :=
  let n := size (hash s) + 3 in
  let items' := copy_into n (mkNode 0 0 0 "" (storedObjForLookup "")) (items s) in
  let infos' := copy_into n maintainInfoForLookup (infos s) in
  if decide (length (items s) ≤ n)%nat
  then Some (mkSplay (root s) (clone_hash (drop 3 (take (length (items s)) items')) 3 ∅)
               items' infos' (count s))
  else None.
End splay.
