(* ===== verification/SplayRefine.v ===== *)
(** * The splay tree: the array holds a search tree

    [rep s b p n t]: the links of [s] from index [n], whose parent link is [p],
    spell out the tree [t], and the maintained info of every node of it is the
    one computed from its children.  [repc s b h p c]: the path [c] leads from
    the node [p], whose child on the path is [h], up to the root.  [b] is the
    object the info of an index was made from. *)
From S2P Require Import Prelude Splay.

Local Open Scope godel_scope.

(** ** Trees and paths *)

Inductive tree := E | T (l : tree) (i : nat) (r : tree).

(** The tree with [a] on side [k] (right when true) and [c] on the other. *)
Definition tk (k : bool) (a : tree) (i : nat) (c : tree) : tree := if k then T c i a else T a i c.

Fixpoint inorder (t : tree) : list nat :=
  match t with E => [] | T l i r => inorder l ++ i :: inorder r end.

Definition troot (t : tree) : nat := match t with E => 0 | T _ i _ => i end.

(** A step of a path: the side the path came from, the node, its other subtree. *)
Abbreviation frame := (bool * nat * tree)%type.

Fixpoint plug (t : tree) (c : list frame) : tree :=
  match c with [] => t | (k, i, sib) :: c => plug (tk k t i sib) c end.
Fixpoint lctx (c : list frame) : list nat :=
  match c with
  | [] => []
  | (k, i, sib) :: c => lctx c ++ (if k : bool then inorder sib ++ [i] else [])
  end.
Fixpoint rctx (c : list frame) : list nat :=
  match c with
  | [] => []
  | (k, i, sib) :: c => (if k : bool then [] else i :: inorder sib) ++ rctx c
  end.
Definition whole (m : list nat) (c : list frame) : list nat := lctx c ++ m ++ rctx c.

Lemma inorder_plug t c : inorder (plug t c) = whole (inorder t) c.
Proof.
  revert t. induction c as [|[[k i] sib] c IH]; intros t; unfold whole; simpl.
  { by rw app_nil_r. }
  rw IH /whole. destruct k; simpl; by rw -?app_assoc /= -?app_assoc.
Qed.

Lemma whole_cons m k i sib c :
  whole m ((k, i, sib) :: c) = whole (if k then inorder sib ++ i :: m else m ++ i :: inorder sib) c.
Proof. unfold whole; simpl. destruct k; by rw -?app_assoc /= -?app_assoc. Qed.

Lemma inorder_tk k a i c :
  inorder (tk k a i c) = if k then inorder c ++ i :: inorder a else inorder a ++ i :: inorder c.
Proof. by destruct k. Qed.

Lemma whole_tk k a i sib c : whole (inorder (tk k a i sib)) c = whole (inorder a) ((k, i, sib) :: c).
Proof. by rw whole_cons inorder_tk. Qed.

(** A rotation does not change the order. *)
Lemma whole_rotate k o x inn y sib c :
  whole (inorder (tk k o x (tk k inn y sib))) c = whole (inorder (tk k o x inn)) ((k, y, sib) :: c).
Proof.
  rw whole_cons !inorder_tk. destruct k; f_equal; by rw -app_assoc.
Qed.

Lemma elem_of_inorder_tk j k a i c :
  j ∈ inorder (tk k a i c) ↔ j = i ∨ j ∈ inorder a ∨ j ∈ inorder c.
Proof. rw inorder_tk. destruct k; set_solver. Qed.

Lemma elem_of_whole j m c : j ∈ whole m c ↔ j ∈ m ∨ j ∈ whole [] c.
Proof. unfold whole. set_solver. Qed.

Lemma elem_of_whole_cons j m k i sib c :
  j ∈ whole m ((k, i, sib) :: c) ↔ j ∈ m ∨ j = i ∨ j ∈ inorder sib ∨ j ∈ whole [] c.
Proof. rw whole_cons elem_of_whole. destruct k; set_solver. Qed.

Lemma troot_elem t : troot t ≠ 0 → troot t ∈ inorder t.
Proof. destruct t; simpl; [done|]. set_solver. Qed.

Lemma plug_app t c1 c2 : plug t (c1 ++ c2) = plug (plug t c1) c2.
Proof. revert t. induction c1 as [|[[k x] sib] c IH]; intros t; simpl; [done|]. apply IH. Qed.

(** Every node of a tree is reached by a path. *)
Lemma tree_split t i : i ∈ inorder t → ∃ l r c, t = plug (T l i r) c.
Proof.
  induction t as [|l IHl j r IHr]; simpl; [set_solver|].
  intros [H|[->|H]%elem_of_cons]%elem_of_app.
  - destruct (IHl H) as (l' & r' & c & ->). exists l', r', (c ++ [(false, j, r)]). by rw plug_app.
  - by exists l, r, [].
  - destruct (IHr H) as (l' & r' & c & ->). exists l', r', (c ++ [(true, j, l)]). by rw plug_app.
Qed.

(** ** The order of the indices

    The sentinels stay at the two ends. *)
Definition ok (L : list nat) : Prop := NoDup L ∧ ∃ mid, L = 1 :: mid ++ [2].

Lemma ok_sides L A i B : ok L → L = A ++ i :: B → 2 ∉ A ∧ 1 ∉ B.
Proof.
  intros [Hnd [mid Hmid]] ->. split; intros Hin.
  - assert (last (A ++ i :: B) = Some 2) as Hl.
    { rw Hmid. change (1 :: mid ++ [2]) with ((1 :: mid) ++ [2]). by rw last_snoc. }
    assert (2 ∈ i :: B) as HB.
    { apply last_Some_elem_of. rw -Hl. by rw last_app_cons. }
    apply NoDup_app in Hnd as (_ & Hd & _). by eapply Hd.
  - destruct A as [|a A]; simpl in *; simplify_eq.
    + apply NoDup_cons in Hnd as [? _]. set_solver.
    + apply NoDup_cons in Hnd as [Hn _]. apply Hn. set_solver.
Qed.

Lemma ok_roots k a i c ctx :
  ok (whole (inorder (tk k a i c)) ctx) →
  troot (if k then c else a) ≠ 2 ∧ troot (if k then a else c) ≠ 1.
Proof.
  intros Hok. set (l := if k then c else a). set (r := if k then a else c).
  assert (whole (inorder (tk k a i c)) ctx
    = (lctx ctx ++ inorder l) ++ i :: (inorder r ++ rctx ctx)) as HL.
  { unfold whole, l, r. rw inorder_tk. destruct k; by rw -!app_assoc. }
  destruct (ok_sides _ _ _ _ Hok HL) as [H2 H1].
  split; intros Ht; [apply H2|apply H1]; rw -Ht; apply elem_of_app;
    [right|left]; apply troot_elem; lia.
Qed.

Lemma whole_perm m c : whole m c ≡ₚ m ++ whole [] c.
Proof. unfold whole. rw /= !app_assoc. by rw (Permutation_app_comm _ m). Qed.

Lemma inorder_tk_perm k a i c : inorder (tk k a i c) ≡ₚ i :: inorder a ++ inorder c.
Proof.
  rw inorder_tk. destruct k; rw -Permutation_middle //. by rw Permutation_app_comm.
Qed.

Lemma whole_cons_perm m k i sib c :
  whole m ((k, i, sib) :: c) ≡ₚ m ++ i :: inorder sib ++ whole [] c.
Proof.
  rw whole_cons (whole_perm (if k then _ else _)). destruct k; solve_Permutation.
Qed.

(** Membership in the parts of a path and its focus. *)
Lemma nin_cons_app (j y : nat) (A B : list nat) : j ∉ y :: A ++ B ↔ j ≠ y ∧ j ∉ A ∧ j ∉ B.
Proof. rw not_elem_of_cons not_elem_of_app. done. Qed.

Section refine.
Context {Obj Info : Type} `{!StoredObjOps Obj Info} `{!StoredObjLaws Obj Info}.
Implicit Types (s : @splay Obj Info) (nd : @node Obj) (b : nat → Obj).

(** ** Sides *)

Definition child (k : bool) nd : nat := if k then rchild nd else lchild nd.
Definition set_child (k : bool) (v : nat) nd : node := if k then set_rchild v nd else set_lchild v nd.

Lemma child_set_child k v nd : child k (set_child k v nd) = v.
Proof. by destruct k. Qed.
Lemma child_set_other k v nd : child (negb k) (set_child k v nd) = child (negb k) nd.
Proof. by destruct k. Qed.
Lemma child_set_other' k v nd : child k (set_child (negb k) v nd) = child k nd.
Proof. by destruct k. Qed.
Lemma child_set_parent k v nd : child k (set_parent v nd) = child k nd.
Proof. by destruct k. Qed.
Lemma parent_set_child k v nd : parent (set_child k v nd) = parent nd.
Proof. by destruct k. Qed.

(** ** What the array says about a tree *)

Section base.
Context (b : nat → Obj).

(** The info of a subtree that takes part in that of its parent: the sentinels'
    does not. *)
Fixpoint agg (t : tree) : option Info :=
  match t with
  | E => None
  | T l i r => if decide (i ≤ 2) then None
               else Some (Maintain (MakeMaintainInfo (b i)) (agg l) (agg r))
  end.
Definition ninfo (i : nat) (l r : option Info) : MaintainInfo :=
  if decide (i ≤ 2) then maintainInfoForLookup
  else Maintained (Maintain (MakeMaintainInfo (b i)) l r).
End base.

Fixpoint rep s b (p n : nat) (t : tree) : Prop :=
  match t with
  | E => n = 0
  | T l i r => n = i ∧ i ≠ 0 ∧ ∃ nd, items s !! i = Some nd ∧ parent nd = Z.of_nat p
      ∧ infos s !! i = Some (ninfo b i (agg b l) (agg b r))
      ∧ rep s b i (lchild nd) l ∧ rep s b i (rchild nd) r
  end.

Definition ninfo_k b (k : bool) (i : nat) (a c : option Info) : MaintainInfo :=
  if k then ninfo b i c a else ninfo b i a c.

(** A node whose own info may be out of date. *)
Definition cell s b (k : bool) (p : nat) (a : tree) (i : nat) (c : tree) : Prop :=
  i ≠ 0 ∧ ∃ nd, items s !! i = Some nd ∧ parent nd = Z.of_nat p
    ∧ (∃ la ra, infos s !! i = Some (ninfo b i la ra))
    ∧ rep s b i (child k nd) a ∧ rep s b i (child (negb k) nd) c.

Fixpoint repc s b (h p : nat) (c : list frame) : Prop :=
  match c with
  | [] => p = 0
  | (k, i, sib) :: c => p = i ∧ i ≠ 0 ∧ ∃ nd q, items s !! i = Some nd ∧ child k nd = h
      ∧ parent nd = Z.of_nat q ∧ (∃ la ra, infos s !! i = Some (ninfo b i la ra))
      ∧ rep s b i (child (negb k) nd) sib ∧ repc s b i q c
  end.

Lemma rep_tk s b p n k a i c :
  rep s b p n (tk k a i c) ↔ n = i ∧ i ≠ 0 ∧ ∃ nd, items s !! i = Some nd ∧ parent nd = Z.of_nat p
      ∧ infos s !! i = Some (ninfo_k b k i (agg b a) (agg b c))
      ∧ rep s b i (child k nd) a ∧ rep s b i (child (negb k) nd) c.
Proof. destruct k; simpl; naive_solver. Qed.

Lemma rep_cell s b p n k a i c : rep s b p n (tk k a i c) → n = i ∧ cell s b k p a i c.
Proof.
  intros (-> & Hi & nd & ? & ? & Hinf & ? & ?)%rep_tk. split; [done|].
  split; [done|]. exists nd. split_and!; [done..| |done|done].
  destruct k; eauto.
Qed.

Lemma rep_troot s b p n t : rep s b p n t → troot t = n.
Proof. destruct t; simpl; naive_solver. Qed.

Lemma rep_elem_pos s b p n t j : rep s b p n t → j ∈ inorder t → j ≠ 0.
Proof.
  revert p n. induction t as [|l IHl i r IHr]; simpl; intros p n H Hj; [set_solver|].
  destruct H as (-> & Hi & nd & _ & _ & _ & Hl & Hr).
  apply elem_of_app in Hj as [Hj|[->|Hj]%elem_of_cons]; eauto.
Qed.

Lemma tree_rep_lookup s b p n t j : rep s b p n t → j ∈ inorder t → is_Some (items s !! j).
Proof.
  revert p n. induction t as [|l IHl i r IHr]; simpl; intros p n H Hj; [set_solver|].
  destruct H as (-> & Hi & nd & ? & _ & _ & Hl & Hr).
  apply elem_of_app in Hj as [Hj|[->|Hj]%elem_of_cons]; eauto.
Qed.

(** Nothing outside a tree matters for it. *)
Lemma rep_frame s s' b p n t :
  (∀ j, j ∈ inorder t → items s' !! j = items s !! j ∧ infos s' !! j = infos s !! j) →
  rep s b p n t → rep s' b p n t.
Proof.
  revert p n. induction t as [|l IHl i r IHr]; simpl; intros p n Hs H; [done|].
  destruct H as (-> & Hi & nd & Hnd & Hp & Hinf & Hl & Hr).
  destruct (Hs i) as [E1 E2]; [set_solver|].
  split_and!; [done..|]. exists nd. rw E1 E2. split_and!; [done..| |].
  - apply IHl; [|done]. intros j Hj. apply Hs. set_solver.
  - apply IHr; [|done]. intros j Hj. apply Hs. set_solver.
Qed.

(** Only the parent link of the root may change. *)
Lemma rep_reparent s s' b p p' n t :
  NoDup (inorder t) →
  (∀ j, j ∈ inorder t → infos s' !! j = infos s !! j) →
  (∀ j, j ∈ inorder t → j ≠ n → items s' !! j = items s !! j) →
  (n ≠ 0 → items s' !! n = set_parent p' <$> items s !! n) →
  rep s b p n t → rep s' b p' n t.
Proof.
  destruct t as [|l i r]; [done|]. intros Hnd Hinf Hit Hn (-> & Hi & nd & Ei & Hp & Ef & Hl & Hr).
  simpl in *. split_and!; [done..|]. rw Hn // Ei /=. exists (set_parent p' nd).
  apply NoDup_app in Hnd as (_ & Hd & [Hd' _]%NoDup_cons).
  rw Hinf; [|set_solver]. split_and!; [done..| |].
  - apply (rep_frame s); [|done]. intros j Hj. split; [apply Hit|apply Hinf]; set_solver.
  - apply (rep_frame s); [|done]. intros j Hj. split; [apply Hit|apply Hinf]; set_solver.
Qed.

Lemma repc_frame s s' b h p c :
  (∀ j, j ∈ whole [] c → items s' !! j = items s !! j ∧ infos s' !! j = infos s !! j) →
  repc s b h p c → repc s' b h p c.
Proof.
  revert h p. induction c as [|[[k i] sib] c IH]; simpl; intros h p Hs H; [done|].
  destruct H as (-> & Hi & nd & q & Hnd & Hh & Hq & Hinf & Hsib & Hc).
  destruct (Hs i) as [E1 E2]; [apply elem_of_whole_cons; set_solver|].
  split_and!; [done..|]. exists nd, q. rw E1 E2. split_and!; [done..| |].
  - apply (rep_frame s); [|done]. intros j Hj. apply Hs, elem_of_whole_cons. tauto.
  - apply IH; [|done]. intros j Hj. apply Hs, elem_of_whole_cons. tauto.
Qed.

(** Nor does the base object of an index outside it. *)
Lemma agg_base b b' t : (∀ j, j ∈ inorder t → b' j = b j) → agg b' t = agg b t.
Proof.
  induction t as [|l IHl i r IHr]; simpl; intros Hb; [done|].
  rw (Hb i) ?IHl ?IHr //; set_solver.
Qed.

Lemma rep_base s b b' p n t : (∀ j, j ∈ inorder t → b' j = b j) → rep s b p n t → rep s b' p n t.
Proof.
  revert p n. induction t as [|l IHl i r IHr]; simpl; intros p n Hb H; [done|].
  destruct H as (-> & Hi & nd & Hnd & Hp & Hinf & Hl & Hr). split_and!; [done..|]. exists nd.
  split_and!; [done..| |apply IHl; [set_solver|done]|apply IHr; [set_solver|done]].
  rw (agg_base b b' l) ?(agg_base b b' r) //; [|set_solver..]. unfold ninfo in *. rw (Hb i) //. set_solver.
Qed.

Lemma repc_base s b b' h p c :
  (∀ j, j ∈ whole [] c → b' j = b j) → repc s b h p c → repc s b' h p c.
Proof.
  revert h p. induction c as [|[[k i] sib] c IH]; simpl; intros h p Hb H; [done|].
  destruct H as (-> & Hi & nd & q & Hnd & Hh & Hq & Hinf & Hsib & Hc).
  assert (∀ j, j = i ∨ j ∈ inorder sib ∨ j ∈ whole [] c → b' j = b j) as Hb'.
  { intros j Hj. apply Hb, elem_of_whole_cons. by right. }
  split_and!; [done..|]. exists nd, q. split_and!; [done..| | |].
  - unfold ninfo in *. by rw Hb'; [|left].
  - apply (rep_base _ b); [|done]. intros j Hj. apply Hb'. tauto.
  - apply IH; [|done]. intros j Hj. apply Hb'. tauto.
Qed.

(** Stepping down to a child and (when its info is right) back up. *)
Lemma repc_push s b k p a i c ctx :
  cell s b k p a i c → repc s b i p ctx →
  rep s b i (troot a) a ∧ repc s b (troot a) i ((k, i, c) :: ctx).
Proof.
  intros (Hi & nd & Hnd & Hp & Hinf & Ha & Hc) Hctx.
  rw (rep_troot _ _ _ _ _ Ha). split; [done|]. simpl. split_and!; [done..|].
  exists nd, p. by split_and!.
Qed.

Lemma rep_down s b p n k a i c ctx :
  rep s b p n (tk k a i c) → repc s b n p ctx →
  rep s b i (troot a) a ∧ repc s b (troot a) i ((k, i, c) :: ctx).
Proof. intros [-> H]%rep_cell. by apply repc_push. Qed.

(** Any tree with a path in it splits there. *)
Lemma rep_plug s b t c p n :
  rep s b p n (plug t c) → ∃ h q, rep s b q h t ∧ (p = 0 → repc s b h q c).
Proof.
  revert t p n. induction c as [|[[k i] sib] c IH]; simpl; intros t p n H.
  { exists n, p. split; [done|]. intros ->. done. }
  apply IH in H as (h & q & Hh & Hc). apply rep_cell in Hh as Hcell. destruct Hcell as [-> Hcell].
  exists (troot t), i. destruct Hcell as (? & nd & ? & ? & ? & Ht & ?). split.
  { by rw (rep_troot _ _ _ _ _ Ht). }
  intros ->. rw (rep_troot _ _ _ _ _ Ht). split_and!; [done..|]. exists nd, q. by split_and!; auto.
Qed.


(** ** Steps that change links only *)

(** The key and object of every item. *)
Definition dat s : list (string * StoredObj) := (λ nd, (key nd, obj nd)) <$> items s.

(** What every relinking step keeps. *)
Definition keeps s s' : Prop :=
  root s' = root s ∧ hash s' = hash s ∧ count s' = count s ∧ dat s' = dat s
  ∧ length (infos s') = length (infos s).

#[export] Instance keeps_preorder : PreOrder keeps.
Proof.
  split; [by intros s|]. intros x y z (?&?&?&?&?) (?&?&?&?&?). split_and!; congruence.
Qed.

Lemma keeps_length s s' : keeps s s' → length (items s') = length (items s).
Proof.
  intros (_ & _ & _ & H & _). apply (f_equal length) in H. unfold dat in H.
  by rw !length_fmap in H.
Qed.

Lemma dat_lookup s j nd : items s !! j = Some nd → dat s !! j = Some (key nd, obj nd).
Proof. intros H. unfold dat. by rw list_lookup_fmap H. Qed.

Definition link_only (f : node → node) : Prop := ∀ nd, key (f nd) = key nd ∧ obj (f nd) = obj nd.
Lemma link_only_child k v : link_only (set_child k v).
Proof. by destruct k. Qed.
Lemma link_only_parent v : link_only (set_parent v).
Proof. done. Qed.

Lemma upd_ok s i nd f :
  items s !! i = Some nd →
  ∃ s', upd i f s = Some s' ∧ infos s' = infos s ∧ items s' !! i = Some (f nd)
        ∧ (∀ j, j ≠ i → items s' !! j = items s !! j) ∧ (link_only f → keeps s s').
Proof.
  intros Hi. unfold upd. rw decide_True; [|by eapply lookup_lt_Some].
  eexists; split_and!; [done|done|simpl..].
  - by rw list_lookup_alter_eq Hi.
  - intros j Hj. by rw list_lookup_alter_ne.
  - intros Hf. split_and!; [done..| |done]. unfold dat; simpl.
    apply list_eq. intros j. rw !list_lookup_fmap. destruct (decide (j = i)) as [->|Hj].
    + rw list_lookup_alter_eq Hi /=. by destruct (Hf nd) as [-> ->].
    + by rw list_lookup_alter_ne.
Qed.

(** An update that is skipped for the nil node. *)
Lemma opt_upd_ok s i nd f :
  (i ≠ 0 → items s !! i = Some nd) →
  ∃ s', (if i ≟ 0 then Some s else upd i f s) = Some s' ∧ infos s' = infos s
        ∧ (i ≠ 0 → items s' !! i = Some (f nd))
        ∧ (∀ j, (j ≠ i ∨ i = 0) → items s' !! j = items s !! j) ∧ (link_only f → keeps s s').
Proof.
  intros Hi. case_bool_decide as E0; [by exists s|].
  destruct (upd_ok s i nd f (Hi E0)) as (s' & -> & ? & ? & Ho & ?). exists s'.
  split_and!; [done..| |done]. intros j [?|?]; [by apply Ho|done].
Qed.

Lemma index_of_nat n : index (Z.of_nat n) = Some n.
Proof. unfold index. destruct (Z.ltb_spec (Z.of_nat n) 0); [lia|]. by rw Nat2Z.id. Qed.

Lemma maintain_ok s b i nd la ra l r :
  items s !! i = Some nd → infos s !! i = Some (ninfo b i la ra) →
  rep s b i (lchild nd) l → rep s b i (rchild nd) r → troot l ≠ 2 → troot r ≠ 1 →
  maintain i s = Some (set_infos (<[i := ninfo b i (agg b l) (agg b r)]> (infos s)) s).
Proof.
  intros Hi Hinf Hl Hr Hl2 Hr1. unfold maintain. rw Hi /= Hinf /=. unfold ninfo in *.
  destruct (decide (i ≤ 2)) as [?|Hgt]; simpl.
  { rw list_insert_id //. by destruct s. }
  assert (∀ p c sent t, rep s b p c t → troot t ≠ 3 - sent → (sent = 1 ∨ sent = 2) →
    childInfo c sent s = Some (agg b t)) as Hchild.
  { intros p c sent [|tl j tr]; unfold childInfo; simpl.
    - intros -> _ _. done.
    - intros (-> & Hj & ndj & Hndj & _ & Hinfj & _ & _) Hne Hsent.
      rw bool_decide_eq_false_2 //=. case_bool_decide; simpl.
      + rw decide_True //. lia.
      + assert (¬ j ≤ 2) by lia. rw Hinfj /= /ninfo. by rw !decide_False. }
  rw (Hchild _ _ _ _ Hl) //; [|by left]. simpl. rw (Hchild _ _ _ _ Hr) //; [|by right]. simpl.
  by rw maintain_again.
Qed.

Lemma getChildIndex_ok s i p k nd :
  p ≠ 0 → items s !! p = Some nd → child k nd = i → child (negb k) nd ≠ i →
  getChildIndex i p s = Some k.
Proof.
  intros Hp Hnd Hk Hnk. unfold getChildIndex. rw bool_decide_eq_false_2 // Hnd /=.
  destruct k; simpl in *; f_equal; [by apply bool_decide_eq_true_2|by apply bool_decide_eq_false_2].
Qed.

Lemma setChild_ok s i p k nd v :
  p ≠ 0 → items s !! p = Some nd → child k nd = i → child (negb k) nd ≠ i →
  setChild p i v s = upd p (set_child k v) s.
Proof.
  intros ????. unfold setChild. erewrite getChildIndex_ok; [|done..]. by destruct k.
Qed.

(** The relinking part of a rotation. *)
Definition rotate_links (k : bool) (x y z : nat) s : option splay :=
  s ← (if z ≟ 0 then Some s else setChild z y x s);
  s ← upd x (set_parent z) s;
  nx ← items s !! x;
  s ← upd y (set_child k (child (negb k) nx)) s;
  s ← (if child (negb k) nx ≟ 0 then Some s else upd (child (negb k) nx) (set_parent y) s);
  s ← upd x (set_child (negb k) y) s;
  upd y (set_parent x) s.

Lemma rotate_eq s k x y z nx ny :
  items s !! x = Some nx → parent nx = Z.of_nat y → items s !! y = Some ny →
  parent ny = Z.of_nat z → getChildIndex x y s = Some k →
  rotate x s = (s ← rotate_links k x y z s; s ← maintain y s; maintain x s).
Proof.
  intros Hx Hy Hny Hz Hk. unfold rotate, rotate_links.
  rw Hx /= Hy index_of_nat /= Hny /= Hz index_of_nat /= Hk /=.
  destruct (if z ≟ 0 then _ else _) as [s1|]; [|done]. simpl.
  destruct (upd x (set_parent z) s1) as [s2|]; [|done]. simpl.
  destruct k; simpl; destruct (items s2 !! x) as [nx2|]; try done; simpl.
  - destruct (upd y _ s2) as [s3|]; [|done]; simpl.
    destruct (if lchild nx2 ≟ 0 then _ else _) as [s4|]; [|done]; simpl.
    by destruct (upd x _ s4).
  - destruct (upd y _ s2) as [s3|]; [|done]; simpl.
    destruct (if rchild nx2 ≟ 0 then _ else _) as [s4|]; [|done]; simpl.
    by destruct (upd x _ s4).
Qed.

(** What the relinking part leaves in each cell, when the five nodes involved
    are different ones. *)
Lemma rotate_links_ok s k kz x y z w nx ny nz nw :
  items s !! x = Some nx → items s !! y = Some ny →
  x ≠ y → x ≠ z → y ≠ z → w ≠ x → w ≠ y → (z ≠ 0 → w ≠ z) → child (negb k) nx = w →
  (z ≠ 0 → items s !! z = Some nz ∧ child kz nz = y ∧ child (negb kz) nz ≠ y) →
  (w ≠ 0 → items s !! w = Some nw) →
  ∃ s', rotate_links k x y z s = Some s' ∧ keeps s s' ∧ infos s' = infos s
    ∧ items s' !! x = Some (set_child (negb k) y (set_parent z nx))
    ∧ items s' !! y = Some (set_parent x (set_child k w ny))
    ∧ (z ≠ 0 → items s' !! z = Some (set_child kz x nz))
    ∧ (w ≠ 0 → items s' !! w = Some (set_parent y nw))
    ∧ (∀ j, j ≠ x → j ≠ y → (j ≠ z ∨ z = 0) → (j ≠ w ∨ w = 0) → items s' !! j = items s !! j).
Proof.
  intros Hx Hy Hxy Hxz Hyz Hwx Hwy Hwz Hw Hz Hnw. unfold rotate_links.
  assert ((if z ≟ 0 then Some s else setChild z y x s)
    = (if z ≟ 0 then Some s else upd z (set_child kz x) s)) as ->.
  { case_bool_decide as Ez; [done|]. destruct (Hz Ez) as (? & ? & ?). by eapply setChild_ok. }
  destruct (opt_upd_ok s z nz (set_child kz x)) as (s1 & -> & I1 & Z1 & O1 & K1); [naive_solver|].
  simpl. destruct (upd_ok s1 x nx (set_parent z)) as (s2 & -> & I2 & X2 & O2 & K2); [by rw O1; auto|].
  simpl. rw X2 /= child_set_parent Hw.
  destruct (upd_ok s2 y ny (set_child k w)) as (s3 & -> & I3 & Y3 & O3 & K3).
  { rw O2; [|done]. rw O1; auto. }
  simpl.
  destruct (opt_upd_ok s3 w nw (set_parent y)) as (s4 & -> & I4 & W4 & O4 & K4).
  { intros Ew. rw O3 // O2 // O1; [by auto|]. destruct (decide (z = 0)); auto. }
  simpl. destruct (upd_ok s4 x (set_parent z nx) (set_child (negb k) y)) as (s5 & -> & I5 & X5 & O5 & K5).
  { rw O4; [|by left]. by rw O3. }
  simpl. destruct (upd_ok s5 y (set_child k w ny) (set_parent x)) as (s6 & -> & I6 & Y6 & O6 & K6).
  { rw O5 // O4; auto. }
  exists s6. split_and!; [done| |congruence| |done| | |].
  - do 5 (etrans; [|eauto using link_only_child, link_only_parent]). eauto using link_only_child.
  - by rw O6.
  - intros Ez. rw O6 // O5 // O4; [|by left; naive_solver]. rw O3 // O2 //. by apply Z1.
  - intros Ew. rw O6 // O5 //. by apply W4.
  - intros j ????. rw O6 // O5 // O4 // O3 // O2 //. by apply O1.
Qed.

Lemma maintain_k s b k i nd a c ctx :
  items s !! i = Some nd → (∃ la ra, infos s !! i = Some (ninfo b i la ra)) →
  rep s b i (child k nd) a → rep s b i (child (negb k) nd) c →
  ok (whole (inorder (tk k a i c)) ctx) →
  maintain i s = Some (set_infos (<[i := ninfo_k b k i (agg b a) (agg b c)]> (infos s)) s).
Proof.
  intros Hi (la & ra & Hinf) Ha Hc [H1 H2]%ok_roots.
  destruct k; simpl in *; by eapply maintain_ok.
Qed.

(** [maintain] repairs the info of a node whose children are in order. *)
Lemma maintain_cell s b k p a i c ctx :
  cell s b k p a i c → ok (whole (inorder (tk k a i c)) ctx) →
  ∃ s', maintain i s = Some s' ∧ keeps s s' ∧ items s' = items s
    ∧ (∀ j, j ≠ i → infos s' !! j = infos s !! j) ∧ rep s' b p i (tk k a i c).
Proof.
  intros (Hi & nd & Hnd & Hp & Hinf & Ha & Hc) Hok.
  assert (NoDup (i :: inorder a ++ inorder c)) as HND.
  { destruct Hok as [H _]. rw whole_perm inorder_tk_perm in H. by apply NoDup_app in H as [H _]. }
  apply NoDup_cons in HND as [Hni HND].
  eexists. split_and!.
  - by apply (maintain_k s b k i nd a c ctx).
  - split_and!; [done..|]. by rw /= length_insert.
  - done.
  - intros j Hj. simpl. by rw list_lookup_insert_ne.
  - apply rep_tk. split_and!; [done..|]. exists nd. simpl. split_and!; [done..| | |].
    + rw list_lookup_insert_eq //. destruct Hinf as (?&?&?). by eapply lookup_lt_Some.
    + apply (rep_frame s); [|done]. intros j Hj. simpl. split; [done|].
      apply list_lookup_insert_ne. set_solver.
    + apply (rep_frame s); [|done]. intros j Hj. simpl. split; [done|].
      apply list_lookup_insert_ne. set_solver.
Qed.

(** ** One rotation *)
Lemma rotate_ok s b k o x inn y sib c :
  cell s b k y o x inn → repc s b x y ((k, y, sib) :: c) →
  ok (whole (inorder (tk k o x inn)) ((k, y, sib) :: c)) →
  ∃ s' q, rotate x s = Some s' ∧ keeps s s'
    ∧ rep s' b q x (tk k o x (tk k inn y sib)) ∧ repc s' b x q c.
Proof.
  intros (Hx & nx & Enx & Hpx & Ix & Ro & Ri) (_ & Hy & ny & q & Eny & Hxy & Hpy & Iy & Rs & Rc) Hok.
  assert (ok (whole (inorder (tk k o x (tk k inn y sib))) c)) as Hok' by by rw whole_rotate.
  assert (NoDup (x :: inorder o ++ inorder inn ++ y :: inorder sib ++ whole [] c)) as HND.
  { destruct Hok as [H _]. rw whole_cons_perm inorder_tk_perm in H. by rw /= -app_assoc in H. }
  apply NoDup_cons in HND as [Nx HND]. apply NoDup_app in HND as (No & Do & HND).
  apply NoDup_app in HND as (Ni & Di & HND). apply NoDup_cons in HND as [Ny HND].
  apply NoDup_app in HND as (Ns & Ds & Nc).
  apply not_elem_of_app in Nx as [Nxo [Nxi (Nxy & Nxs & Nxc)%nin_cons_app]%not_elem_of_app].
  apply not_elem_of_app in Ny as [Nys Nyc].
  assert (∀ j, j ∈ inorder inn → j ≠ y ∧ j ∉ inorder sib ∧ j ∉ whole [] c) as Di'.
  { intros j Hj. by apply nin_cons_app, Di. }
  assert (∀ j, j ∈ inorder o → j ∉ inorder inn ∧ j ≠ y ∧ j ∉ inorder sib ∧ j ∉ whole [] c) as Do'.
  { intros j Hj. rw -nin_cons_app -not_elem_of_app. by apply Do. }
  clear Di Do. rename Di' into Di. rename Do' into Do.
  set (w := child (negb k) nx) in *.
  assert (w = troot inn) as Hw by (symmetry; by eapply rep_troot).
  assert (w ≠ 0 → w ∈ inorder inn) as Hwin by (rw Hw; apply troot_elem).
  assert (w ≠ 0 → is_Some (items s !! w)) as Hws by eauto using tree_rep_lookup.
  assert (∃ kz nz, q ≠ 0 → items s !! q = Some nz ∧ child kz nz = y ∧ child (negb kz) nz ≠ y
    ∧ q ∈ whole [] c) as (kz & nz & Hq).
  { destruct c as [|[[kz z] sz] c]; simpl in Rc; [by exists true, nx; intros; simplify_eq|].
    destruct Rc as (-> & Hz & nz & q' & Enz & Hzy & _ & _ & Rz & _). exists kz, nz. intros _.
    split_and!; [done..| |apply elem_of_whole_cons; tauto].
    intros Heq. apply Nyc. apply elem_of_whole_cons. right; right; left.
    rw -Heq -(rep_troot _ _ _ _ _ Rz). apply troot_elem. rw (rep_troot _ _ _ _ _ Rz). lia. }
  assert (getChildIndex x y s = Some k) as Hk.
  { eapply getChildIndex_ok; [done..|]. intros Heq. apply Nxs. rw -Heq -(rep_troot _ _ _ _ _ Rs).
    apply troot_elem. rw (rep_troot _ _ _ _ _ Rs). lia. }
  destruct (rotate_links_ok s k kz x y q w nx ny nz (default nx (items s !! w)))
    as (s1 & E1 & K1 & I1 & X1 & Y1 & Z1 & W1 & O1); [done|done|done|..].
  { intros <-. destruct (Hq Hx) as (_&_&_&?). done. }
  { intros <-. by destruct (Hq Hy) as (_&_&_&?). }
  { intros ->. by apply Nxi, Hwin. }
  { intros ->. by destruct (Di y) as (? & _); auto. }
  { intros Hq0 ->. destruct (Hq Hq0) as (_&_&_&?). by destruct (Di q) as (_ & _ & ?); auto. }
  { done. }
  { intros Hq0. by destruct (Hq Hq0) as (?&?&?&_). }
  { intros Hw0. by destruct (Hws Hw0) as [? ->]. }
  rw (rotate_eq s k x y q nx ny) // E1 /=.
  assert (∀ j, j ∉ whole [] c → j ≠ q ∨ q = 0) as Hjq.
  { intros j Hj. destruct (decide (q = 0)) as [|Hq0]; [by right|left]. intros ->. by destruct (Hq Hq0) as (_&_&_&?). }
  assert (∀ j, j ∉ inorder inn → j ≠ w ∨ w = 0) as Hjw.
  { intros j Hj. destruct (decide (w = 0)) as [|Hw0]; [by right|left]. intros ->. auto. }
  assert (cell s1 b k x inn y sib) as Cy.
  { split; [done|]. eexists. rw I1. split_and!; [exact Y1|done|done| |].
    - rw child_set_parent child_set_child. apply (rep_reparent s _ _ x); [done|by rw I1| | |done].
      + intros j Hj Hjw'. destruct (Di j Hj) as (? & ? & ?).
        apply O1; [by intros ->|done|by apply Hjq|by left].
      + intros Hw0. rw W1 //. by destruct (Hws Hw0) as [? ->].
    - rw child_set_parent child_set_other. apply (rep_frame s); [|done]. rw I1. intros j Hj. split; [|done].
      apply O1; [by intros ->|by intros ->| |].
      + by apply Hjq; auto.
      + apply Hjw. intros Hji. by destruct (Di j Hji) as (_ & ? & _). }
  destruct (maintain_cell s1 b k x inn y sib ((negb k, x, o) :: c)) as (s2 & -> & K2 & It2 & I2 & Ry); [done| |].
  { rw -whole_tk. by destruct k. }
  simpl.
  assert (cell s2 b k q o x (tk k inn y sib)) as Cx.
  { split; [done|]. eexists. rw It2 I2 // I1. split_and!; [exact X1|by destruct k|done| |].
    - rw child_set_other' child_set_parent. apply (rep_frame s); [|done]. intros j Hj.
      destruct (Do j Hj) as (? & ? & ? & ?). rw It2 I2 // I1. split; [|done].
      apply O1; [by intros ->|done|by apply Hjq|by apply Hjw].
    - by rw child_set_child. }
  destruct (maintain_cell s2 b k q o x (tk k inn y sib) c) as (s3 & -> & K3 & It3 & I3 & Rx); [done..|].
  exists s3, q. split_and!; [done| |done|].
  { by do 2 (etrans; [|done]). }
  assert (∀ j, j ∈ whole [] c → j ≠ q ∨ q = 0 → items s3 !! j = items s !! j ∧ infos s3 !! j = infos s !! j) as Hout.
  { intros j Hj Hjq'. assert (j ≠ x ∧ j ≠ y) as [? ?] by (split; by intros ->).
    rw It3 It2 I3 // I2 // I1. split; [|done]. apply O1; [done..|]. apply Hjw.
    intros Hji. by destruct (Di j Hji) as (_ & _ & ?). }
  destruct c as [|[[kz' z] sz] c]; simpl in Rc; [done|].
  destruct Rc as (-> & Hz & nz' & q' & Enz & Hzy & Hpz & Iz & Rz & Rc).
  destruct (Hq Hz) as (Enz' & Hzy' & Hzy'' & _). rw Enz in Enz'. injection Enz' as <-.
  assert (kz' = kz) as -> by (destruct kz, kz'; simpl in *; congruence).
  assert (z ≠ x ∧ z ≠ y) as [Nzx Nzy].
  { split; intros ->; [apply Nxc|apply Nyc]; apply elem_of_whole_cons; tauto. }
  assert (NoDup (z :: inorder sz ++ whole [] c)) as NDz by by rw whole_cons_perm in Nc.
  apply NoDup_cons in NDz as [Nz NDz]. rw not_elem_of_app in Nz. destruct Nz.
  simpl. split_and!; [done..|]. exists (set_child kz x nz'), q'. rw It3 It2 I3 // I2 // I1.
  split_and!; [by apply Z1|by rw child_set_child|by rw parent_set_child|done| |].
  - rw child_set_other. apply (rep_frame s); [|done]. intros j Hj.
    apply Hout; [apply elem_of_whole_cons; tauto|left; by intros ->].
  - apply (repc_frame s); [|done]. intros j Hj.
    apply Hout; [apply elem_of_whole_cons; tauto|left; by intros ->].
Qed.

(** ** The splaying loop *)

Lemma tree_tk k t x : troot t = x → x ≠ 0 → ∃ a c, t = tk k a x c.
Proof. destruct t as [|l i r]; simpl; [lia|]. intros -> _. destruct k; eauto. Qed.

Lemma rotate_any s b k x t q y sib c :
  rep s b q x t → x ≠ 0 → repc s b x q ((k, y, sib) :: c) →
  ok (whole (inorder t) ((k, y, sib) :: c)) →
  ∃ s' t' q', rotate x s = Some s' ∧ keeps s s' ∧ rep s' b q' x t' ∧ repc s' b x q' c
    ∧ inorder t' = inorder (tk k t y sib).
Proof.
  intros Ht Hx Hc Hok.
  destruct (tree_tk k t x (rep_troot _ _ _ _ _ Ht) Hx) as (o & inn & ->).
  pose proof Hc as (-> & _). apply rep_cell in Ht as [_ Ht].
  destruct (rotate_ok s b k o x inn y sib c Ht Hc Hok) as (s' & q' & ? & ? & ? & ?).
  eexists s', _, q'. split_and!; [done..|]. destruct k; simpl; by rw -app_assoc.
Qed.

Lemma frame_index s b k x t y sib c :
  x ≠ 0 → x ∈ inorder t → repc s b x y ((k, y, sib) :: c) →
  NoDup (whole (inorder t) ((k, y, sib) :: c)) → getChildIndex x y s = Some k.
Proof.
  intros Hx Hxt (_ & Hy & ny & q & Eny & Hxy & _ & _ & Rs & _) HND.
  eapply getChildIndex_ok; [done..|]. intros Heq.
  rw whole_cons_perm in HND. apply NoDup_app in HND as (_ & Hd & _). apply (Hd _ Hxt).
  apply elem_of_cons; right. apply elem_of_app; left. rw -Heq -(rep_troot _ _ _ _ _ Rs).
  apply troot_elem. rw (rep_troot _ _ _ _ _ Rs). lia.
Qed.

(** Where the loop stops: below [k], or at the root when [k] is 0. *)
Definition stops_at (k : nat) (c : list frame) : Prop :=
  match c with [] => k = 0 | (_, i, _) :: _ => i = k end.

Lemma stops_at_parent s b h p k c : repc s b h p c → stops_at k c → p = k.
Proof. destruct c as [|[[? ?] ?] c]; simpl; [congruence|]. intros (-> & _) ->. done. Qed.

Lemma stops_at_later m f c1 c2 s b h p k :
  NoDup (whole m (f :: c1 ++ c2)) → repc s b h p (f :: c1 ++ c2) → stops_at k c2 → p ≠ k.
Proof.
  destruct f as [[kf i] sib]. intros HND (-> & Hi & _) Hst ->.
  rw whole_cons_perm in HND. apply NoDup_app in HND as (_ & _ & [Hk _]%NoDup_cons).
  destruct c2 as [|[[? j] ?] c2]; simpl in *; [done|]. subst j. apply Hk.
  apply elem_of_app; right. clear. induction c1 as [|[[? ?] ?] c1 IH]; simpl; apply elem_of_whole_cons; tauto.
Qed.

Lemma splay_loop_ok fuel s b x k t q c1 c2 :
  rep s b q x t → x ≠ 0 → repc s b x q (c1 ++ c2) → ok (whole (inorder t) (c1 ++ c2)) →
  stops_at k c2 → length c1 < fuel →
  ∃ s' t' q', splay_loop fuel x k s = Some s' ∧ keeps s s' ∧ rep s' b q' x t'
    ∧ repc s' b x q' c2 ∧ inorder t' = inorder (plug t c1).
Proof.
  revert s t q c1. induction fuel as [|fuel IH]; intros s t q c1 Ht Hx Hc Hok Hst Hfuel; [lia|].
  pose proof (rep_troot _ _ _ _ _ Ht) as Hroot.
  assert (x ∈ inorder t) as Hxt by (rw -Hroot; apply troot_elem; lia).
  destruct (tree_tk true t x Hroot Hx) as (a & r & Et). pose proof Ht as Ht'. rw Et in Ht'.
  apply rep_tk in Ht' as (_ & _ & nx & Enx & Hpx & _). simpl. rw Enx /= Hpx.
  destruct c1 as [|[[k1 y] s1] c1]; simpl in *.
  { rw (stops_at_parent _ _ _ _ _ _ Hc Hst) Z.eqb_refl. by exists s, t, q. }
  assert (q ≠ k) as Hqk by (destruct Hok; by eapply (stops_at_later (inorder t) (k1, y, s1))).
  destruct (Z.eqb_spec (Z.of_nat q) (Z.of_nat k)); [lia|]. rw index_of_nat /=.
  pose proof Hc as (-> & Hy & ny & z & Eny & _ & Hpz & Iy & Rs1 & Rc). rw Eny /= Hpz.
  destruct c1 as [|[[k2 z'] s2] c1]; simpl in *.
  - (* one rotation is left *)
    rw (stops_at_parent _ _ _ _ _ _ Rc Hst) Z.eqb_refl.
    destruct (rotate_any s b k1 x t y y s1 c2) as (s' & t' & q' & E' & K' & R' & C' & O'); [done..|].
    simpl. rw E' /=.
    destruct (IH s' t' q' []) as (s'' & t'' & q'' & E'' & K'' & R'' & C'' & O''); [done..| |done|simpl; lia|].
    { simpl. by rw O' whole_tk. }
    exists s'', t'', q''. simpl in *. split_and!; [done|by etrans|done..|congruence].
  - assert (z ≠ k) as Hzk.
    { destruct Hok as [HND _]. rw -whole_tk in HND.
      by eapply (stops_at_later _ (k2, z', s2) c1 c2). }
    destruct (Z.eqb_spec (Z.of_nat z) (Z.of_nat k)); [lia|]. rw index_of_nat /=.
    rw (frame_index s b k1 x t y s1 ((k2, z', s2) :: c1 ++ c2)) //; [|by destruct Hok]. simpl.
    pose proof Rc as (-> & _).
    rw (frame_index s b k2 y (tk k1 t y s1) z' s2 (c1 ++ c2)) //;
      [|apply elem_of_inorder_tk; tauto|rw whole_tk; by destruct Hok]. simpl.
    assert (∃ s2' t2 q2, (if negb (eqb k1 k2) then rotate x s else rotate y s) ≫= rotate x = Some s2'
      ∧ keeps s s2' ∧ rep s2' b q2 x t2 ∧ repc s2' b x q2 (c1 ++ c2)
      ∧ inorder t2 = inorder (tk k2 (tk k1 t y s1) z' s2)) as (s2' & t2 & q2 & E2 & K2 & R2 & C2 & O2).
    { destruct (eqb k1 k2) eqn:Ek; simpl.
      - apply eqb_prop in Ek as <-.
        destruct (rotate_ok s b k1 t y s1 z' s2 (c1 ++ c2)) as (s3 & q3 & -> & K3 & R3 & C3).
        { split; [done|]. exists ny. split_and!; [done..| |done]. destruct Hc as (_&_&ny'&?&Eny'&Hch&_).
          by simplify_eq. }
        { done. }
        { by rw whole_tk. }
        simpl. apply (rep_down _ _ _ _ _ _ _ _ (c1 ++ c2)) in R3 as [R3 C3']; [|done].
        rw Hroot in R3 C3'.
        destruct (rotate_any s3 b k1 x t y y (tk k1 s1 z' s2) (c1 ++ c2)) as (s4 & t4 & q4 & -> & K4 & R4 & C4 & O4); [done..| |].
        { rw -whole_tk whole_rotate whole_tk. done. }
        exists s4, t4, q4. split_and!; [done|by etrans|done..|]. rw O4. clear.
        destruct k1; simpl; by rw -app_assoc.
      - destruct (rotate_any s b k1 x t y y s1 ((k2, z', s2) :: c1 ++ c2)) as (s3 & t3 & q3 & -> & K3 & R3 & C3 & O3); [done..|].
        simpl. pose proof C3 as (-> & _).
        destruct (rotate_any s3 b k2 x t3 z' z' s2 (c1 ++ c2)) as (s4 & t4 & q4 & -> & K4 & R4 & C4 & O4); [done..| |].
        { by rw O3 whole_tk. }
        exists s4, t4, q4. split_and!; [done|by etrans|done..|]. by rw O4 !(inorder_tk k2) O3. }
    destruct (if negb (eqb k1 k2) then _ else _) as [s5|]; [|done]. simpl in *. rw E2 /=.
    destruct (IH s2' t2 q2 c1) as (s'' & t'' & q'' & E'' & K'' & R'' & C'' & O''); [done..| |done|lia|].
    { rw O2 !whole_tk. done. }
    exists s'', t'', q''. split_and!; [done|by etrans|done..|].
    rw O'' !inorder_plug. f_equal. done.
Qed.
End refine.
