(* ===== verification/SplayProps.v ===== *)
(** * The splay tree: what the operations do

    [Inv] is the invariant of the array; [R] relates it to the list of entries
    (the stored object and the object its info was made from) in the order of
    the tree.  Every operation is shown to return, to keep the invariant, and
    to act on the list as its name says. *)
From S2P Require Import Prelude Splay SplayRefine.

Local Open Scope godel_scope.

Section props.
Context {Obj Info : Type} `{!StoredObjOps Obj Info} `{!StoredObjLaws Obj Info}.
Implicit Types (s : @splay Obj Info) (nd : @node Obj) (b : nat → Obj).

Record Inv s b (t : tree) (ids : list nat) : Prop := {
  inv_rep : rep s b 0 (root s) t;
  inv_order : inorder t = 1 :: ids ++ [2];
  inv_nodup : NoDup (inorder t);
  inv_ids : ∀ j, j ∈ inorder t ↔ 1 ≤ j ≤ count s;
  inv_len : length (dat s) = S (count s);
  inv_leni : length (infos s) = S (count s);
  inv_obj : ∀ j k o, 3 ≤ j → dat s !! j = Some (k, o) → ∃ v, o = Stored v ∧ k = Key v;
  inv_hash : ∀ k j, hash s !! k = Some j ↔ 3 ≤ j ∧ ∃ o, dat s !! j = Some (k, o)
}.

(** What splaying keeps: everything but the links and the root. *)
Definition same_store s s' : Prop :=
  hash s' = hash s ∧ count s' = count s ∧ dat s' = dat s ∧ length (infos s') = length (infos s).

#[export] Instance same_store_preorder : PreOrder same_store.
Proof. split; [done|]. intros x y z (?&?&?&?) (?&?&?&?). split_and!; congruence. Qed.

Lemma keeps_same s s' : keeps s s' → same_store s s'.
Proof. by intros (_ & ? & ? & ? & ?). Qed.

Lemma inv_ok s b t ids : Inv s b t ids → ok (inorder t).
Proof. intros []. split; eauto. Qed.

Lemma inv_transfer s s' b t t' ids :
  Inv s b t ids → same_store s s' → rep s' b 0 (root s') t' → inorder t' = inorder t → Inv s' b t' ids.
Proof.
  intros [] (Hh & Hc & Hd & Hi) Hr Ho. split; rw ?Ho ?Hh ?Hc ?Hd ?Hi //.
Qed.

Lemma length_dat s : length (dat s) = length (items s).
Proof. apply length_fmap. Qed.

Lemma inv_count s b t ids : Inv s b t ids → length (inorder t) = count s ∧ count s = length ids + 2.
Proof.
  intros HI. assert (inorder t ≡ₚ seq 1 (count s)) as HP.
  { apply NoDup_Permutation; [by eapply inv_nodup|apply NoDup_seq|].
    intros j. rw (inv_ids _ _ _ _ HI) elem_of_seq. lia. }
  apply Permutation_length in HP as HL. rw length_seq in HL. split; [done|].
  rw -HL (inv_order _ _ _ _ HI) /= length_app /=. lia.
Qed.

Lemma length_whole m c : length m + length c ≤ length (whole m c).
Proof.
  revert m. induction c as [|[[k i] sib] c IH]; intros m; [unfold whole; simpl; rw app_nil_r; lia|].
  rw whole_cons. specialize (IH (if k then inorder sib ++ i :: m else m ++ i :: inorder sib)).
  destruct k; rw length_app /= in IH; simpl; lia.
Qed.

(** Only the sentinels are below 3. *)
Lemma NoDup_elem_gt2 ids j : ok (1 :: ids ++ [2]) → j ∈ ids → j ≠ 0 → ¬ j ≤ 2.
Proof.
  intros [HND _] Hj Hj0 Hle. apply NoDup_cons in HND as [H1 HND]. apply NoDup_app in HND as (_ & H2 & _).
  destruct (decide (j = 1)) as [->|]; [set_solver|]. assert (j = 2) as -> by lia. by apply (H2 2); [|set_solver].
Qed.

(** ** Splaying a node to the root, or below the root *)

Lemma splay_root_ok s b t ids x :
  Inv s b t ids → x ∈ inorder t →
  ∃ s' t', splay_to x 0 s = Some s' ∧ Inv s' b t' ids ∧ same_store s s' ∧ troot t' = x ∧ root s' = x.
Proof.
  intros HI Hx. destruct (tree_split t x Hx) as (l & r & c & ->).
  pose proof (inv_ok _ _ _ _ HI) as Hok. rw inorder_plug in Hok.
  destruct (rep_plug _ _ _ _ _ _ (inv_rep _ _ _ _ HI)) as (h & q & Ht & Hc).
  pose proof (rep_troot _ _ _ _ _ Ht) as Hroot. simpl in Hroot. subst h.
  destruct (inv_count _ _ _ _ HI) as [Hlen _]. rw inorder_plug in Hlen.
  pose proof (length_whole (inorder (T l x r)) c) as Hw.
  pose proof (inv_len _ _ _ _ HI) as Hit. rw length_dat in Hit.
  assert (x ≠ 0) as Hx0 by (by eapply rep_elem_pos; [exact (inv_rep _ _ _ _ HI)|]).
  destruct (splay_loop_ok (length (items s)) s b x 0 (T l x r) q c []) as (s' & t' & q' & E & K & R & C & O).
  { done. } { done. } { rw app_nil_r. by apply Hc. } { by rw app_nil_r. } { done. }
  { lia. }
  simpl in C. subst q'. unfold splay_to. rw E /=.
  exists (set_root x s'), t'. apply keeps_same in K.
  split_and!; [done| |done|by eapply rep_troot|done].
  eapply inv_transfer; [done..| |done]. simpl. by apply (rep_frame s').
Qed.

Lemma splay_below_ok s b l p r ids x :
  Inv s b (T l p r) ids → x ∈ inorder r →
  ∃ s' r', splay_to x p s = Some s' ∧ same_store s s' ∧ root s' = root s
    ∧ rep s' b p x r' ∧ repc s' b x p [(true, p, l)] ∧ inorder r' = inorder r.
Proof.
  intros HI Hx. destruct (tree_split r x Hx) as (l' & r' & c & ->).
  pose proof (inv_rep _ _ _ _ HI) as HR. change (T l p (plug (T l' x r') c)) with (tk true (plug (T l' x r') c) p l) in HR.
  assert (T l p (plug (T l' x r') c) = plug (T l' x r') (c ++ [(true, p, l)])) as Eplug by by rw plug_app.
  pose proof (inv_ok _ _ _ _ HI) as Hok. rw Eplug inorder_plug in Hok.
  destruct (inv_count _ _ _ _ HI) as [Hlen _]. rw Eplug inorder_plug in Hlen.
  pose proof (length_whole (inorder (T l' x r')) (c ++ [(true, p, l)])) as Hw.
  pose proof (inv_len _ _ _ _ HI) as Hit. rw length_dat in Hit.
  pose proof (inv_rep _ _ _ _ HI) as HR'. rw Eplug in HR'.
  destruct (rep_plug _ _ _ _ _ _ HR') as (h & q & Ht & Hc).
  pose proof (rep_troot _ _ _ _ _ Ht) as Hroot. simpl in Hroot. subst h.
  assert (x ≠ 0) as Hx0 by (by eapply rep_elem_pos; [exact Ht|simpl; set_solver]).
  destruct (splay_loop_ok (length (items s)) s b x p (T l' x r') q c [(true, p, l)])
    as (s' & t' & q' & E & K & R & C & O); [done|done|by apply Hc|done|done| |].
  { rw (length_app c) in Hw. lia. }
  pose proof C as (-> & Hp & _). unfold splay_to. rw E /=. rw bool_decide_eq_false_2 //.
  exists s', t'. split; [done|]. split; [by apply keeps_same|]. split; [by destruct K|]. done.
Qed.

(** ** Descending along the comparisons *)

(** The comparison made at index [j], whatever the links. *)
Definition choice (gt : Obj → bool) s (j : nat) : option bool :=
  if j ≟ minv then Some true
  else if j ≟ maxv then Some false
  else match dat s !! j with Some (_, Stored o) => Some (gt o) | _ => None end.

Lemma chooseChildIndex_choice gt s j : chooseChildIndex gt j s = choice gt s j.
Proof.
  unfold chooseChildIndex, choice, dat. rw list_lookup_fmap. repeat case_bool_decide; try done.
  by destruct (items s !! j) as [[? ? ? ? []]|].
Qed.

Lemma choice_total gt s b t ids j : Inv s b t ids → j ∈ inorder t → is_Some (choice gt s j).
Proof.
  intros HI Hj. unfold choice. do 2 (case_bool_decide; [by eauto|]).
  apply (inv_ids _ _ _ _ HI) in Hj. destruct (lookup_lt_is_Some_2 (dat s) j) as [[k o] Hd].
  { rw (inv_len _ _ _ _ HI). lia. }
  rw Hd. destruct (inv_obj _ _ _ _ HI j k o) as (v & -> & _); [unfold minv, maxv in *; lia|done|by eauto].
Qed.

Definition chosen (gt : Obj → bool) s (f : frame) : Prop := choice gt s f.1.2 = Some f.1.1.

(** The descents of [Insert] and of [Partition] reach a nil link by a path of
    the choices made. *)
Lemma descents_ok gt s b t : ∀ fuel p n next c,
  rep s b p n t → repc s b n p c → (∀ j, j ∈ inorder t → is_Some (choice gt s j)) →
  Forall (chosen gt s) c → length (inorder t) < fuel →
  ∃ c' p', descend fuel gt p n s = Some p' ∧ repc s b 0 p' c' ∧ plug E c' = plug t c
    ∧ Forall (chosen gt s) c' ∧ (c' = [] → t = E)
    ∧ (next = default 0 (head (rctx c)) →
       partition_loop fuel gt next n s = Some (default 0 (head (rctx c')))).
Proof.
  induction t as [|l IHl i r IHr]; intros fuel p n next c Ht Hc Hch HF Hfuel.
  { destruct fuel as [|fuel]; [simpl in *; lia|]. simpl in Ht. subst n. exists c, p. simpl.
    split_and!; [done..|by intros ->]. }
  assert (n = i) as -> by by destruct Ht.
  destruct (Hch i) as [k Hk]; [simpl; set_solver|].
  assert (∃ l' r', T l i r = tk k l' i r') as (a & sib & Etk) by (destruct k; eexists _, _; done).
  assert (length (inorder a) < pred fuel) as Hfa.
  { simpl in Hfuel. rw length_app /= in Hfuel. destruct k; simplify_eq/=; lia. }
  assert (∀ j, j ∈ inorder a → is_Some (choice gt s j)) as Hcha.
  { intros j Hj. apply Hch. rw Etk elem_of_inorder_tk. tauto. }
  pose proof Ht as Ht2. rw Etk in Ht2. apply (rep_down _ _ _ _ _ _ _ _ c) in Ht2 as [Ha Hca]; [|done].
  pose proof Ht as (_ & Hi & nd & End & _ & _ & Hl & Hr).
  assert ((if k then rchild nd else lchild nd) = troot a) as Hnext.
  { destruct k; simplify_eq/=; symmetry; by eapply rep_troot. }
  destruct fuel as [|fuel]; [lia|]. simpl. rw bool_decide_eq_false_2 // chooseChildIndex_choice Hk /= End /=.
  rw Hnext. rw Etk.
  assert (∀ next', ∃ c' p', descend fuel gt i (troot a) s = Some p' ∧ repc s b 0 p' c'
    ∧ plug E c' = plug a ((k, i, sib) :: c) ∧ Forall (chosen gt s) c' ∧ (c' = [] → a = E)
    ∧ (next' = default 0 (head (rctx ((k, i, sib) :: c))) →
       partition_loop fuel gt next' (troot a) s = Some (default 0 (head (rctx c'))))) as IH.
  { intros next'. destruct k; injection Etk as -> ->;
      [apply (IHr fuel i _ next' ((true, i, sib) :: c))|apply (IHl fuel i _ next' ((false, i, sib) :: c))];
      try done; by constructor. }
  destruct (IH (if k then next else i)) as (c' & p' & Hd & Hc' & Hp & HF' & Hnil & Hpart).
  exists c', p'. split_and!; [done..| |].
  { intros ->. apply (f_equal inorder) in Hp. simpl in Hp. rw inorder_plug inorder_tk /whole /= in Hp.
    destruct (lctx c); [|done]. by destruct k, (inorder sib), (inorder a). }
  intros ->. destruct k; rw -Hnext in Hpart; simpl in *; by apply Hpart.
Qed.

(** What the choices say about the indices to the left and to the right of the
    place reached. *)
Lemma ctx_choices gt s c m :
  Forall (chosen gt s) c →
  (∀ j, j ∈ lctx c → ∃ A i B, whole m c = A ++ i :: B ∧ choice gt s i = Some true ∧ (j = i ∨ j ∈ A))
  ∧ (∀ j, j ∈ rctx c → ∃ A i B, whole m c = A ++ i :: B ∧ choice gt s i = Some false ∧ (j = i ∨ j ∈ B)).
Proof.
  revert m. induction c as [|[[k i] sib] c IH]; intros m; simpl; [set_solver|].
  intros [Hi HF]%Forall_cons. unfold chosen in Hi; simpl in Hi. rw whole_cons.
  destruct (IH (if k then inorder sib ++ i :: m else m ++ i :: inorder sib) HF) as [IHl IHr].
  split; intros j Hj.
  - apply elem_of_app in Hj as [Hj|Hj]; [by apply IHl|]. destruct k; [|set_solver].
    exists (lctx c ++ inorder sib), i, (m ++ rctx c). split_and!; [|done|set_solver].
    unfold whole. by rw -!app_assoc.
  - apply elem_of_app in Hj as [Hj|Hj]; [|by apply IHr]. destruct k; [set_solver|].
    exists (lctx c ++ m), i, (inorder sib ++ rctx c). split_and!; [|done|set_solver].
    unfold whole. by rw -!app_assoc.
Qed.

Lemma ctx_ends gt s c ids :
  Forall (chosen gt s) c → ok (whole [] c) → whole [] c = 1 :: ids ++ [2] →
  ∃ I1 I2, lctx c = 1 :: I1 ∧ rctx c = I2 ++ [2] ∧ ids = I1 ++ I2.
Proof.
  intros HF Hok HL. destruct (ctx_choices gt s c [] HF) as [Hl Hr].
  assert (1 ∉ rctx c) as H1.
  { intros (A & i & B & E' & Hc & [<-|Hin])%Hr; [done|].
    by destruct (ok_sides _ _ _ _ Hok E') as [_ ?]. }
  assert (2 ∉ lctx c) as H2.
  { intros (A & i & B & E' & Hc & [<-|Hin])%Hl; [done|].
    by destruct (ok_sides _ _ _ _ Hok E') as [? _]. }
  unfold whole in HL. simpl in HL. destruct (lctx c) as [|x I1]; simpl in *.
  { exfalso. apply H1. rw HL. set_solver. }
  injection HL as -> HL. destruct (rctx c) as [|y I2 _] using rev_ind.
  { exfalso. apply H2. rw app_nil_r in HL. rw HL. set_solver. }
  rw app_assoc in HL. apply app_inj_tail in HL as [<- ->]. by exists I1, I2.
Qed.

(** The choices respect the order of the indices: an index chosen to the left
    has only such ones before it. *)
Definition downward gt s (L : list nat) : Prop :=
  ∀ A i B, L = A ++ i :: B → choice gt s i = Some true → Forall (λ j, choice gt s j = Some true) A.

Lemma ctx_downward gt s c m :
  Forall (chosen gt s) c → downward gt s (whole m c) →
  (∀ j, j ∈ whole m c → is_Some (choice gt s j)) →
  Forall (λ j, choice gt s j = Some true) (lctx c) ∧ Forall (λ j, choice gt s j = Some false) (rctx c).
Proof.
  intros HF Hd Htot. destruct (ctx_choices gt s c m HF) as [Hl Hr]. split; apply Forall_forall; intros j Hj.
  - destruct (Hl j Hj) as (A & i & B & HE & Hi & [->|Hin]); [done|].
    specialize (Hd _ _ _ HE Hi). by eapply Forall_forall in Hd.
  - destruct (Hr j Hj) as (A & i & B & HE & Hi & [->|Hin]); [done|].
    destruct (Htot j) as [[] Hj']; [rw HE; set_solver| |done].
    apply list_elem_of_split in Hin as (B1 & B2 & ->).
    assert (whole m c = (A ++ i :: B1) ++ j :: B2) as HE' by by rw HE -app_assoc.
    specialize (Hd _ _ _ HE' Hj'). apply Forall_app in Hd as [_ [Hi' _]%Forall_cons]. congruence.
Qed.

(** ** Insert *)

Definition base_set b (n : nat) (v : Obj) (j : nat) : Obj := if decide (j = n) then v else b j.

Lemma base_set_ne b n v j : j ≠ n → base_set b n v j = b j.
Proof. intros. unfold base_set. by rw decide_False. Qed.
Lemma base_set_eq b n v : base_set b n v n = v.
Proof. unfold base_set. by rw decide_True. Qed.

(** The state after appending the new node, before linking it. *)
Definition appended (v : Obj) (p : nat) s : splay :=
  mkSplay (root s) (<[Key v := S (count s)]> (hash s))
    (items s ++ [newNode (Stored v) (Z.of_nat p)])
    (infos s ++ [StoredObj_MakeMaintainInfo (Stored v)]) (S (count s)).

Lemma dat_appended v p s : dat (appended v p s) = dat s ++ [(Key v, Stored v)].
Proof. unfold dat; simpl. by rw fmap_app. Qed.

Lemma choice_appended gt s b t ids v p j :
  Inv s b t ids → j ∈ inorder t → choice gt (appended v p s) j = choice gt s j.
Proof.
  intros HI Hj. unfold choice. rw dat_appended lookup_app_l //.
  rw (inv_len _ _ _ _ HI). apply (inv_ids _ _ _ _ HI) in Hj. lia.
Qed.

(** Linking the new node under the last node of the descent. *)
Lemma link_new s b t ids v k p sib c :
  Inv s b t ids → repc s b 0 p ((k, p, sib) :: c) → plug E ((k, p, sib) :: c) = t →
  let n := S (count s) in
  ∃ s', upd p (set_child k n) (appended v p s) = Some s' ∧ keeps (appended v p s) s'
    ∧ rep s' (base_set b n v) p n (T E n E) ∧ repc s' (base_set b n v) n p ((k, p, sib) :: c).
Proof.
  intros HI Hc Ht n. pose proof (inv_len _ _ _ _ HI) as Hlen. rw length_dat in Hlen.
  pose proof (inv_leni _ _ _ _ HI) as Hleni.
  assert (∀ j, j ∈ whole [] ((k, p, sib) :: c) → 1 ≤ j ≤ count s) as Hin.
  { intros j Hj. apply (inv_ids _ _ _ _ HI). by rw -Ht inorder_plug. }
  assert (NoDup (p :: inorder sib ++ whole [] c)) as [Np HND]%NoDup_cons.
  { pose proof (inv_nodup _ _ _ _ HI) as H. by rw -Ht inorder_plug whole_cons_perm in H. }
  apply not_elem_of_app in Np as [Nps Npc].
  assert (∀ j, j ≤ count s → items (appended v p s) !! j = items s !! j
    ∧ infos (appended v p s) !! j = infos s !! j) as Hold.
  { intros j Hj. simpl. rw !lookup_app_l //; lia. }
  pose proof Hc as (_ & Hp & nd & q & Hnd & Hch & Hq & Hinf & Hsib & Hrc).
  assert (p ≤ count s ∧ p ≠ n) as [Hple Hpn].
  { destruct (Hin p); [apply elem_of_whole_cons; tauto|]. subst n. lia. }
  destruct (upd_ok (appended v p s) p nd (set_child k n)) as (s' & E' & I' & P' & O' & K').
  { by rw (proj1 (Hold p Hple)). }
  assert (∀ j, j ∈ whole [] ((k, p, sib) :: c) → j ≠ p → items s' !! j = items s !! j
    ∧ infos s' !! j = infos s !! j ∧ base_set b n v j = b j) as Hall.
  { intros j Hj Hjp. destruct (Hin j Hj). rw I' O' // base_set_ne; [|subst n; lia].
    split_and!; [by apply Hold; lia..|done]. }
  exists s'. split_and!; [done|apply K', link_only_child| |].
  - simpl. split_and!; [done|done|]. exists (newNode (Stored v) (Z.of_nat p)).
    rw I' O' //=. split_and!; [by rw lookup_app_r Hlen ?Nat.sub_diag //; lia|done| |done|done].
    rw lookup_app_r; [|subst n; lia]. rw Hleni /n Nat.sub_diag /= /ninfo decide_False.
    + by rw base_set_eq maintain_make.
    + destruct (inv_count _ _ _ _ HI). lia.
  - assert (base_set b n v p = b p) as Hbp by by apply base_set_ne.
    simpl. split_and!; [done..|]. exists (set_child k n nd), q. rw I' (proj2 (Hold p Hple)).
    split_and!; [done|by rw child_set_child|by rw parent_set_child|by rw /ninfo Hbp| |].
    + rw child_set_other. apply (rep_base _ b), (rep_frame s); [..|done];
        intros j Hj; destruct (Hall j) as (?&?&?); try done;
          try (apply elem_of_whole_cons; tauto); by intros ->.
    + apply (repc_base _ b), (repc_frame s); [..|done];
        intros j Hj; destruct (Hall j) as (?&?&?); try done;
          try (apply elem_of_whole_cons; tauto); by intros ->.
Qed.

Lemma inv_root_pos s b t ids : Inv s b t ids → root s ≠ 0 ∧ t ≠ E.
Proof.
  intros HI. pose proof (inv_rep _ _ _ _ HI) as Hr. destruct t as [|l i r].
  - by pose proof (inv_order _ _ _ _ HI).
  - by destruct Hr as (-> & ? & _).
Qed.

Lemma ok_insert c I1 I2 n :
  ok (whole [] c) → n ∉ whole [] c → lctx c = 1 :: I1 → rctx c = I2 ++ [2] →
  ok (whole [n] c) ∧ whole [n] c = 1 :: (I1 ++ n :: I2) ++ [2].
Proof.
  intros [HND _] Hn Hl Hr.
  assert (whole [n] c = 1 :: (I1 ++ n :: I2) ++ [2]) as HE.
  { unfold whole. rw Hl Hr /=. by rw -app_assoc. }
  split; [split|done].
  - rw whole_perm. by apply NoDup_cons.
  - by exists (I1 ++ n :: I2).
Qed.

(** Assembling the invariant of the state with one more object. *)
Lemma inv_insert s s' b t t' ids v I1 I2 (p : nat) :
  Inv s b t ids → hash s !! Key v = None → ids = I1 ++ I2 →
  same_store (appended v p s) s' →
  rep s' (base_set b (S (count s)) v) 0 (root s') t' →
  inorder t' = 1 :: (I1 ++ S (count s) :: I2) ++ [2] → NoDup (inorder t') →
  Inv s' (base_set b (S (count s)) v) t' (I1 ++ S (count s) :: I2).
Proof.
  intros HI Hh Hids (H1 & H2 & H3 & H4) Hr Ho HND. rw dat_appended in H3. simpl in *.
  pose proof (inv_len _ _ _ _ HI) as Hlen. split; [done|done|done|..].
  - intros j. rw Ho H2. pose proof (inv_ids _ _ _ _ HI j) as Hj.
    rw (inv_order _ _ _ _ HI) Hids in Hj.
    transitivity (j = S (count s) ∨ j ∈ 1 :: (I1 ++ I2) ++ [2]); [clear; set_solver|]. rw Hj. lia.
  - rw H3 H2 length_app Hlen /=. lia.
  - rw H4 H2 length_app (inv_leni _ _ _ _ HI) /=. lia.
  - intros j k o Hj. rw H3 lookup_app_Some. intros [?|[Hle [_ [= <- <-]]%list_lookup_singleton_Some]].
    + by eapply inv_obj.
    + by exists v.
  - intros k j. rw H1 H3. destruct (decide (k = Key v)) as [->|Hk].
    + rw lookup_insert_eq. split.
      * intros [= <-]. split; [destruct (inv_count _ _ _ _ HI); lia|]. exists (Stored v).
        by rw lookup_app_r Hlen // Nat.sub_diag.
      * intros (Hj & o & [Ho'|[Hle Ho']]%lookup_app_Some).
        -- assert (hash s !! Key v = Some j) as Hc by (apply (inv_hash _ _ _ _ HI); eauto). congruence.
        -- apply list_lookup_singleton_Some in Ho' as [? _]. f_equal. lia.
    + rw lookup_insert_ne // (inv_hash _ _ _ _ HI). split.
      * intros (Hj & o & Ho'). split; [done|]. exists o. apply lookup_app_l_Some. done.
      * intros (Hj & o & [Ho'|[Hle [_ [= <- _]]%list_lookup_singleton_Some]]%lookup_app_Some); eauto. done.
Qed.

Lemma Insert_new_ok s b t ids v :
  Inv s b t ids → hash s !! Key v = None →
  ∃ s' t' I1 I2, Insert v s = Some (s', true) ∧ ids = I1 ++ I2
    ∧ Inv s' (base_set b (S (count s)) v) t' (I1 ++ S (count s) :: I2)
    ∧ dat s' = dat s ++ [(Key v, Stored v)]
    ∧ (downward (Compare v) s (inorder t) →
       Forall (λ j, choice (Compare v) s j = Some true) I1
       ∧ Forall (λ j, choice (Compare v) s j = Some false) I2).
Proof.
  intros HI Hh. pose proof (inv_ok _ _ _ _ HI) as Hok. destruct (inv_count _ _ _ _ HI) as [Hcnt _].
  pose proof (inv_len _ _ _ _ HI) as Hlen. rw length_dat in Hlen.
  destruct (descents_ok (Compare v) s b t (S (length (items s))) 0 (root s) 0 [])
    as (c & p & Hd & Hc & Hp & HF & Hne & _).
  { apply HI. } { done. } { intros j. by eapply choice_total. } { done. } { lia. }
  simpl in Hp. assert (whole [] c = inorder t) as HW by by rw -Hp inorder_plug.
  destruct (ctx_ends (Compare v) s c ids) as (I1 & I2 & Hl & Hr & Hids); [done|by rw HW| |].
  { rw HW. by eapply inv_order. }
  destruct c as [|[[k p'] sib] c]; [by destruct (inv_root_pos _ _ _ _ HI) as [_ ?]; auto|].
  pose proof Hc as (-> & Hp0 & _). set (n := S (count s)).
  assert (n ∉ whole [] ((k, p', sib) :: c)) as Hn.
  { rw HW (inv_ids _ _ _ _ HI). subst n. lia. }
  destruct (link_new s b t ids v k p' sib c HI Hc Hp) as (s2 & E2 & K2 & R2 & C2).
  destruct (ok_insert ((k, p', sib) :: c) I1 I2 n) as [Hok' HW']; [by rw HW|done..|].
  destruct (splay_loop_ok (length (items s2)) s2 (base_set b n v) n 0 (T E n E) p' ((k, p', sib) :: c) [])
    as (s3 & t3 & q3 & E3 & K3 & R3 & C3 & O3); [done|done|by rw app_nil_r|by rw app_nil_r|done| |].
  { pose proof (length_whole [] ((k, p', sib) :: c)) as Hw. rw HW in Hw.
    rw (keeps_length _ _ K2) /= length_app Hlen. simpl in *. lia. }
  simpl in C3. subst q3. rw inorder_plug in O3.
  exists (set_root n s3), t3, I1, I2. split_and!; [|done| | |].
  - unfold Insert. rw Hh Hd /= bool_decide_eq_false_2 // chooseChildIndex_choice.
    rw (choice_appended _ s b t ids) //; [|rw -HW; apply elem_of_whole_cons; tauto].
    apply Forall_cons in HF as [Hk _]. rw Hk /=.
    replace (if k then _ else _) with (Some s2) by (rw -E2; by destruct k).
    rw /= /splay_to E3 /=. done.
  - apply (inv_insert s _ b t t3 ids v I1 I2 p'); try done.
    + etrans; [by apply keeps_same|]. apply keeps_same in K3. by etrans.
    + by apply (rep_frame s3).
    + by rw O3.
    + rw O3. by destruct Hok'.
  - destruct K2 as (_ & _ & _ & Hd2 & _), K3 as (_ & _ & _ & Hd3 & _).
    transitivity (dat s3); [done|]. by rw Hd3 Hd2 dat_appended.
  - intros Hdown. destruct (ctx_downward (Compare v) s ((k, p', sib) :: c) [] HF) as [HL HR].
    { by rw HW. } { rw HW. intros j. by eapply choice_total. }
    rw Hl in HL. rw Hr in HR. apply Forall_cons in HL as [_ ?]. by apply Forall_app in HR as [? _].
Qed.

Lemma rep_set_obj s b i o p n t :
  rep s b p n t → rep (set_items (alter (set_obj o) i (items s)) s) b p n t.
Proof.
  revert p n. induction t as [|l IHl j r IHr]; simpl; intros p n Hr; [done|].
  destruct Hr as (-> & Hj & ndj & Hndj & Hp & Hinf & Hl & Hr'). split_and!; [done..|].
  destruct (decide (j = i)) as [->|Hne].
  - rw list_lookup_alter_eq Hndj /=. eexists; split_and!; [done|done|done|by apply IHl|by apply IHr].
  - rw list_lookup_alter_ne //. exists ndj. split_and!; [done..|by apply IHl|by apply IHr].
Qed.

(** An object whose key is present replaces the stored one; nothing else moves. *)
Lemma Insert_old_ok s b t ids v i :
  Inv s b t ids → hash s !! Key v = Some i →
  ∃ s', Insert v s = Some (s', false) ∧ Inv s' b t ids ∧ dat s' = <[i := (Key v, Stored v)]> (dat s).
Proof.
  intros HI Hh. pose proof Hh as (Hi & o & Ho)%(inv_hash _ _ _ _ HI).
  unfold dat in Ho. apply list_lookup_fmap_Some in Ho as (nd & [= Hkey ->] & Hnd).
  unfold Insert. rw Hh.
  destruct (upd_ok s i nd (set_obj (Stored v))) as (s' & E' & I' & P' & O' & _); [done|]. rw E' /=.
  unfold upd in E'. rw decide_True in E'; [|by eapply lookup_lt_Some]. injection E' as <-.
  exists (set_items (alter (set_obj (Stored v)) i (items s)) s).
  assert (dat (set_items (alter (set_obj (Stored v)) i (items s)) s) = <[i:=(Key v, Stored v)]> (dat s)) as HD.
  { unfold dat; simpl. apply list_eq. intros j. rw list_lookup_fmap. destruct (decide (j = i)) as [->|Hj].
    - rw list_lookup_alter_eq Hnd /= list_lookup_insert_eq ?Hkey //. rw length_fmap. by eapply lookup_lt_Some.
    - by rw list_lookup_alter_ne // list_lookup_insert_ne // list_lookup_fmap. }
  split_and!; [done| |done].
  assert (i < length (dat s)) as Hlt by (rw length_dat; by eapply lookup_lt_Some).
  assert (dat s !! i = Some (Key v, obj nd)) as Hdi by by rw (dat_lookup _ _ _ Hnd) Hkey.
  split; rw ?HD; try apply HI.
  - apply rep_set_obj, HI.
  - by rw length_insert (inv_len _ _ _ _ HI).
  - intros j k o' Hj. destruct (decide (j = i)) as [->|Hne].
    + rw list_lookup_insert_eq //. intros [= <- <-]. eauto.
    + rw list_lookup_insert_ne //. by eapply inv_obj.
  - intros k j. rw (inv_hash _ _ _ _ HI). destruct (decide (j = i)) as [->|Hne].
    + rw list_lookup_insert_eq // Hdi. naive_solver.
    + by rw list_lookup_insert_ne.
Qed.

(** ** Delete *)

(** The loops of [find] reach the last (first) node of a subtree. *)
Lemma find_loop_ok s b k t : ∀ fuel p n,
  rep s b p n t → n ≠ 0 → length (inorder t) ≤ fuel →
  ∃ A x, find_loop fuel k n s = Some x ∧ inorder t = if k : bool then A ++ [x] else x :: A.
Proof.
  induction t as [|l IHl i r IHr]; intros fuel p n Ht Hn Hf; [done|].
  destruct Ht as (-> & Hi & nd & Hnd & _ & _ & Hl & Hr). simpl in Hf. rw length_app /= in Hf.
  destruct fuel as [|fuel]; [lia|]. simpl. rw Hnd /=.
  pose proof (rep_troot _ _ _ _ _ Hl) as Tl. pose proof (rep_troot _ _ _ _ _ Hr) as Tr.
  destruct k; case_bool_decide as Hz.
  - exists (inorder l), i. split; [done|]. by destruct r; [|simpl in *; destruct Hr as (?&?&_); congruence].
  - destruct (IHr fuel i (rchild nd)) as (A & x & -> & HA); [done|done|lia|]. simpl in HA.
    exists (inorder l ++ i :: A), x. split; [done|]. by rw HA -app_assoc.
  - exists (inorder r), i. split; [done|]. by destruct l; [|simpl in *; destruct Hl as (?&?&_); congruence].
  - destruct (IHl fuel i (lchild nd)) as (A & x & -> & HA); [done|done|lia|]. simpl in HA.
    exists (A ++ i :: inorder r), x. split; [done|]. by rw HA.
Qed.

(** A path whose own infos are right, given the info of the subtree it leads to. *)
Definition agg_k b (k : bool) (A : option Info) (i : nat) (sib : tree) : option Info :=
  if decide (i ≤ 2) then None
  else Some (if k then Maintain (MakeMaintainInfo (b i)) (agg b sib) A
             else Maintain (MakeMaintainInfo (b i)) A (agg b sib)).

Fixpoint repcf s b (A : option Info) (h p : nat) (c : list frame) : Prop :=
  match c with
  | [] => p = 0
  | (k, i, sib) :: c => p = i ∧ i ≠ 0 ∧ ∃ nd q, items s !! i = Some nd ∧ child k nd = h
      ∧ parent nd = Z.of_nat q ∧ infos s !! i = Some (ninfo_k b k i A (agg b sib))
      ∧ rep s b i (child (negb k) nd) sib ∧ repcf s b (agg_k b k A i sib) i q c
  end.

Fixpoint top (h : nat) (c : list frame) : nat :=
  match c with [] => h | (_, i, _) :: c => top i c end.

Lemma agg_tk b k t i sib : agg b (tk k t i sib) = agg_k b k (agg b t) i sib.
Proof. unfold agg_k. by destruct k; simpl; case_decide. Qed.

Lemma rep_plug_iff s b t c n :
  rep s b 0 n (plug t c) ↔ ∃ h q, rep s b q h t ∧ repcf s b (agg b t) h q c ∧ n = top h c.
Proof.
  revert t n. induction c as [|[[k i] sib] c IH]; intros t n; simpl.
  { split; [intros; by exists n, 0|]. by intros (h & q & ? & -> & ->). }
  rw IH. setoid_rewrite rep_tk. rw agg_tk. split.
  - intros (h & q & (-> & Hi & nd & Hnd & Hp & Hinf & Ha & Hc) & Hcf & ->).
    exists (child k nd), i. split_and!; [done..| |done]. by exists nd, q.
  - intros (h & q & Ht & (-> & Hi & nd & q' & Hnd & <- & Hp & Hinf & Hsib & Hcf) & ->).
    exists i, q'. split_and!; [done|done| |done|done]. by exists nd.
Qed.

Lemma repcf_frame s s' b b' A h p c :
  (∀ j, j ∈ whole [] c → items s' !! j = items s !! j ∧ infos s' !! j = infos s !! j ∧ b' j = b j) →
  repcf s b A h p c → repcf s' b' A h p c.
Proof.
  revert A h p. induction c as [|[[k i] sib] c IH]; simpl; intros A h p Hs H; [done|].
  destruct H as (-> & Hi & nd & q & Hnd & Hh & Hq & Hinf & Hsib & Hc).
  assert (∀ j, j = i ∨ j ∈ inorder sib ∨ j ∈ whole [] c →
    items s' !! j = items s !! j ∧ infos s' !! j = infos s !! j ∧ b' j = b j) as Hs'.
  { intros j Hj. apply Hs, elem_of_whole_cons. by right. }
  assert (agg b' sib = agg b sib) as Hagg by (apply agg_base; intros; apply Hs'; tauto).
  destruct (Hs' i) as (E1 & E2 & E3); [by left|]. split_and!; [done..|]. exists nd, q. rw E1 E2.
  split_and!; [done..| | |].
  - rw Hinf Hagg. unfold ninfo_k, ninfo. by rw E3.
  - apply (rep_base _ b), (rep_frame s); [..|done]; intros j Hj;
      by destruct (Hs' j) as (?&?&?); [tauto|].
  - replace (agg_k b' k A i sib) with (agg_k b k A i sib) by (unfold agg_k; by rw Hagg E3).
    apply IH; [|done]. intros j Hj. apply Hs'. tauto.
Qed.

(** Moving the last node into a free index renames it. *)
Definition renamed (last i j : nat) : nat := if decide (j = last) then i else j.

Lemma renamed_id last i (l : list nat) : last ∉ l → renamed last i <$> l = l.
Proof.
  intros Hl. rw -{2}(list_fmap_id l). apply list_fmap_ext. intros ? x Hx.
  unfold renamed. rw decide_False //. intros ->. apply Hl. by eapply list_elem_of_lookup_2.
Qed.

Lemma whole_renamed last i (m1 m2 : list nat) c :
  last ∉ m1 ++ m2 → last ∉ whole [] c →
  renamed last i <$> whole (m1 ++ last :: m2) c = whole (m1 ++ i :: m2) c.
Proof.
  unfold whole. intros [H1 H2]%not_elem_of_app Hc. simpl in Hc. apply not_elem_of_app in Hc as [Hl Hr].
  rw !fmap_app fmap_cons !renamed_id //. unfold renamed. by rw decide_True.
Qed.


Lemma upd_dat s s' i nd f :
  items s !! i = Some nd → upd i f s = Some s' →
  dat s' = <[i := (key (f nd), obj (f nd))]> (dat s) ∧ root s' = root s ∧ hash s' = hash s
  ∧ count s' = count s ∧ length (items s') = length (items s).
Proof.
  unfold upd. intros Hi. rw decide_True; [|by eapply lookup_lt_Some]. intros [= <-]. simpl.
  split_and!; [|done..|by rw length_alter]. unfold dat; simpl. apply list_eq. intros j. rw list_lookup_fmap.
  destruct (decide (j = i)) as [->|Hj].
  - rw list_lookup_alter_eq Hi /= list_lookup_insert_eq // length_fmap. by eapply lookup_lt_Some.
  - by rw list_lookup_alter_ne // list_lookup_insert_ne // list_lookup_fmap.
Qed.

(** The links of the moved node. *)
Lemma moveLast_links s inf q last i nl kz nz na nr ni :
  items s !! last = Some nl → parent nl = Z.of_nat q → items s !! i = Some ni →
  i ≠ 0 → q ≠ last → lchild nl ≠ last → rchild nl ≠ last → i ≠ last → i ≠ q → i ≠ lchild nl → i ≠ rchild nl →
  (q ≠ 0 → items s !! q = Some nz ∧ child kz nz = last ∧ child (negb kz) nz ≠ last
           ∧ q ≠ lchild nl ∧ q ≠ rchild nl) →
  (lchild nl ≠ 0 → items s !! lchild nl = Some na ∧ lchild nl ≠ rchild nl) →
  (rchild nl ≠ 0 → items s !! rchild nl = Some nr) →
  infos s !! last = Some inf → i < length (infos s) →
  ∃ t, moveLast i last s = Some t
    ∧ root t = (if root s ≟ last then i else root s)
    ∧ hash t = <[key nl := i]> (hash s) ∧ count t = count s
    ∧ dat t = <[i := (key nl, obj nl)]> (dat s) ∧ infos t = <[i := inf]> (infos s)
    ∧ items t !! i = Some nl
    ∧ (q ≠ 0 → items t !! q = Some (set_child kz i nz))
    ∧ (lchild nl ≠ 0 → items t !! lchild nl = Some (set_parent i na))
    ∧ (rchild nl ≠ 0 → items t !! rchild nl = Some (set_parent i nr))
    ∧ (∀ j, j ≠ i → (j ≠ q ∨ q = 0) → (j ≠ lchild nl ∨ lchild nl = 0) → (j ≠ rchild nl ∨ rchild nl = 0) →
        items t !! j = items s !! j).
Proof.
  intros Hl Hp Hi Hi0 Hql Hal Hrl Hil Hiq Hia Hir Hq Ha Hr Hinf Hlen.
  unfold moveLast. rw Hl /= Hp index_of_nat /=.
  assert ((if q ≟ 0 then Some s else setChild q last i s)
    = (if q ≟ 0 then Some s else upd q (set_child kz i) s)) as ->.
  { case_bool_decide as Ez; [done|]. destruct (Hq Ez) as (? & ? & ? & _). by eapply setChild_ok. }
  destruct (opt_upd_ok s q nz (set_child kz i)) as (s1 & -> & I1 & Q1 & O1 & K1); [naive_solver|]. simpl.
  destruct (opt_upd_ok s1 (lchild nl) na (set_parent i)) as (s2 & -> & I2 & A2 & O2 & K2).
  { intros Ea. rw O1; [by apply Ha|]. destruct (decide (q = 0)); naive_solver. }
  simpl. destruct (opt_upd_ok s2 (rchild nl) nr (set_parent i)) as (s3 & -> & I3 & R3 & O3 & K3).
  { intros Er. rw O2; [|destruct (decide (lchild nl = 0)); naive_solver].
    rw O1; [by apply Hr|]. destruct (decide (q = 0)); naive_solver. }
  simpl. assert (keeps s s3) as K.
  { etrans; [|apply K3, link_only_parent]. etrans; [|apply K2, link_only_parent]. apply K1, link_only_child. }
  assert (∀ j, j ≠ q ∨ q = 0 → j ≠ lchild nl ∨ lchild nl = 0 → j ≠ rchild nl ∨ rchild nl = 0 →
    items s3 !! j = items s !! j) as HO by (intros j ???; rw O3 // O2 // O1 //).
  rw HO; [|by left..]. rw Hl /=.
  set (s3' := set_hash _ s3).
  destruct (upd_ok s3' i ni (λ _, nl)) as (s4 & E4 & I4 & P4 & O4 & _).
  { simpl. by rw HO; [|by left..]. }
  destruct (upd_dat s3' s4 i ni (λ _, nl)) as (D4 & R4 & H4 & C4 & _); [simpl; by rw HO; [|by left..]|done|].
  rw E4 /= I4 /= I3 I2 I1 Hinf /= store_Some //=.
  destruct K as (Kr & Kh & Kc & Kd & _).
  set (t := if root s4 ≟ last then set_root i (set_infos (<[i:=inf]> (infos s)) s4)
            else set_infos (<[i:=inf]> (infos s)) s4). exists t.
  assert (root t = (if root s ≟ last then i else root s) ∧ items t = items s4
    ∧ infos t = <[i:=inf]> (infos s) ∧ hash t = hash s4 ∧ count t = count s4 ∧ dat t = dat s4)
    as (Tr & -> & Ti & -> & -> & ->).
  { subst t. rw R4 /= Kr. case_bool_decide; simpl; split_and!; try done. by rw R4. }
  split; [done|]. split; [done|].
  split_and!.
  - by rw H4 /= Kh.
  - by rw C4 /= Kc.
  - rw D4. by f_equal.
  - done.
  - done.
  - intros Hq0. destruct (Hq Hq0) as (_ & _ & _ & ? & ?). rw O4 //=. rw O3; [|by left]. rw O2; [|by left]. by apply Q1.
  - intros Ha0. destruct (Ha Ha0). rw O4 //=. rw O3; [|by left]. by apply A2.
  - intros Hr0. rw O4 //=. by apply R3.
  - intros j ????. rw O4 //=. by apply HO.
Qed.

Lemma top_elem h k i sib c : top h ((k, i, sib) :: c) ∈ whole [] ((k, i, sib) :: c).
Proof.
  simpl. revert k i sib. induction c as [|[[k' j] sib'] c IH]; intros k i sib; apply elem_of_whole_cons; simpl.
  - tauto.
  - right; right; right. apply IH.
Qed.

(** The path when the node it leads to gets another index. *)
Lemma repcf_rehole s s' b b' A h h' q k nz c :
  repcf s b A h q c → NoDup (whole [] c) →
  (q ≠ 0 → items s !! q = Some nz ∧ child k nz = h ∧ child (negb k) nz ≠ h ∧ q ∈ whole [] c) →
  (q ≠ 0 → items s' !! q = Some (set_child k h' nz)) →
  (∀ j, j ∈ whole [] c → j ≠ q ∨ q = 0 → items s' !! j = items s !! j) →
  (∀ j, j ∈ whole [] c → infos s' !! j = infos s !! j) → (∀ j, j ∈ whole [] c → b' j = b j) →
  repcf s' b' A h' q c.
Proof.
  intros Hcf HND Hq Hq' Ho Hinf Hb. destruct c as [|[[kz z] sz] c]; [done|].
  destruct Hcf as (-> & Hz & nz' & q' & Enz & Hzy & Hpz & Iz & Rz & Rc).
  destruct (Hq Hz) as (Enz' & Hzy' & Hzy'' & _). rw Enz in Enz'. injection Enz' as <-.
  assert (kz = k) as -> by (destruct kz, k; simpl in *; congruence).
  rw whole_cons_perm in HND. apply NoDup_cons in HND as [[Nz1 Nz2]%not_elem_of_app HND].
  assert (∀ j, j = z ∨ j ∈ inorder sz ∨ j ∈ whole [] c → infos s' !! j = infos s !! j ∧ b' j = b j) as Hib.
  { intros j Hj. split; [apply Hinf|apply Hb]; apply elem_of_whole_cons; by right. }
  assert (∀ j, j ∈ inorder sz ∨ j ∈ whole [] c → items s' !! j = items s !! j) as Hoth.
  { intros j Hj. apply Ho; [apply elem_of_whole_cons; tauto|left; intros ->; tauto]. }
  assert (agg b' sz = agg b sz) as Hagg by (apply agg_base; intros; apply Hib; tauto).
  destruct (Hib z) as [Hiz Hbz]; [by left|].
  simpl. split_and!; [done..|]. exists (set_child k h' nz'), q'.
  split_and!; [by apply Hq'|by rw child_set_child|by rw parent_set_child| | |].
  - rw Hiz Iz Hagg. unfold ninfo_k, ninfo. by rw Hbz.
  - rw child_set_other. apply (rep_base _ b), (rep_frame s); [..|done]; intros j Hj.
    + apply Hib. tauto.
    + split; [apply Hoth; tauto|apply Hib; tauto].
  - replace (agg_k b' k A z sz) with (agg_k b k A z sz) by (unfold agg_k; by rw Hagg Hbz).
    apply (repcf_frame s _ b); [|done]. intros j Hj. split_and!; [apply Hoth; tauto|apply Hib; tauto..].
Qed.

Lemma moveLast_ok s b t last i nl ni :
  rep s b 0 (root s) t → NoDup (inorder t) → last ∈ inorder t → i ∉ inorder t → 3 ≤ i → 3 ≤ last →
  items s !! last = Some nl → items s !! i = Some ni → i < length (infos s) →
  ∃ s' t', moveLast i last s = Some s' ∧ rep s' (base_set b i (b last)) 0 (root s') t'
    ∧ inorder t' = renamed last i <$> inorder t
    ∧ hash s' = <[key nl := i]> (hash s) ∧ count s' = count s
    ∧ dat s' = <[i := (key nl, obj nl)]> (dat s) ∧ length (infos s') = length (infos s).
Proof.
  intros Hr HND Hlast Hi Hi3 Hl3 Hnl Hni Hilt.
  destruct (tree_split t last Hlast) as (a & r & c & ->).
  apply rep_plug_iff in Hr as (h & q & (-> & Hl0 & nl' & Hnl' & Hpl & Hil & Ra & Rr) & Hcf & Hroot).
  rw Hnl in Hnl'. injection Hnl' as <-. rw inorder_plug in HND. rw inorder_plug in Hi.
  rw inorder_plug. simpl inorder in *.
  assert (NoDup (last :: inorder a ++ inorder r ++ whole [] c)) as HND'.
  { rw whole_perm in HND. by rw -app_assoc /= -Permutation_middle in HND. }
  apply NoDup_cons in HND' as [Nl HND']. apply NoDup_app in HND' as (NDa & Da & HND').
  apply NoDup_app in HND' as (NDr & Dr & NDc).
  assert (∀ j, j ∈ inorder a ∨ j = last ∨ j ∈ inorder r ∨ j ∈ whole [] c → j ≠ i) as Ni.
  { clear -Hi. intros j Hj ->. apply Hi, elem_of_whole. set_solver. }
  assert (∀ j, j ∈ inorder a → j ≠ i) as Nia by auto.
  assert (∀ j, j ∈ inorder r → j ≠ i) as Nir by auto.
  assert (∀ j, j ∈ whole [] c → j ≠ i) as Nic by auto.
  apply not_elem_of_app in Nl as [Nla [Nlr Nlc]%not_elem_of_app].
  assert (∀ j, j ∈ inorder a → j ∉ inorder r ∧ j ∉ whole [] c) as Da'.
  { intros j Hj. by apply not_elem_of_app, Da. } clear Da.
  assert (lchild nl ≠ 0 → lchild nl ∈ inorder a) as Ia by (rw -(rep_troot _ _ _ _ _ Ra); apply troot_elem).
  assert (rchild nl ≠ 0 → rchild nl ∈ inorder r) as Ir by (rw -(rep_troot _ _ _ _ _ Rr); apply troot_elem).
  assert (∃ kz nz, q ≠ 0 → items s !! q = Some nz ∧ child kz nz = last ∧ child (negb kz) nz ≠ last
    ∧ q ∈ whole [] c) as (kz & nz & Hq).
  { destruct c as [|[[kz z] sz] c]; simpl in Hcf; [by exists true, nl; intros; simplify_eq|].
    destruct Hcf as (-> & Hz & nz & q' & Enz & Hzy & _ & _ & Rz & _). exists kz, nz. intros _.
    split_and!; [done..| |apply elem_of_whole_cons; tauto].
    intros Heq. apply Nlc. apply elem_of_whole_cons. right; right; left.
    rw -Heq -(rep_troot _ _ _ _ _ Rz). apply troot_elem. rw (rep_troot _ _ _ _ _ Rz). lia. }
  assert (∀ j, j ∈ inorder a ∨ j ∈ inorder r → is_Some (items s !! j)) as Hsome.
  { intros j [Hj|Hj]; [by eapply (tree_rep_lookup _ _ _ _ a)|by eapply (tree_rep_lookup _ _ _ _ r)]. }
  destruct (moveLast_links s (ninfo b last (agg b a) (agg b r)) q last i nl kz nz
    (default ni (items s !! lchild nl)) (default ni (items s !! rchild nl)) ni)
    as (s' & E' & R' & H' & C' & D' & I' & T' & Q' & A' & RR' & O'); try done.
  { lia. }
  { intros ->. by destruct (Hq Hl0) as (_&_&_&?). }
  { intros Heq. apply Nla. rw -Heq. apply Ia. lia. }
  { intros Heq. apply Nlr. rw -Heq. apply Ir. lia. }
  { intros ->. by apply (Ni last); auto. }
  { intros ->. destruct (Hq) as (_&_&_&?); [lia|]. by apply (Ni q); auto. }
  { intros ->. by apply (Ni (lchild nl)); auto with lia. }
  { intros ->. by apply (Ni (rchild nl)); auto with lia. }
  { intros Hq0. destruct (Hq Hq0) as (?&?&?&Hqc). split_and!; [done..| |].
    - intros ->. by destruct (Da' (lchild nl)); auto.
    - intros ->. by apply (Dr (rchild nl)); auto. }
  { intros Ha0. destruct (Hsome (lchild nl)) as [? ->]; [auto|]. split; [done|].
    intros Heq. destruct (Da' (lchild nl)) as [Hn _]; [auto|]. apply Hn. rw Heq. apply Ir. lia. }
  { intros Hr0. by destruct (Hsome (rchild nl)) as [? ->]; [auto|]. }
  exists s', (plug (T a i r) c). split_and!; [done| | |done..|by rw I' length_insert].
  2: { rw inorder_plug /=. symmetry. apply whole_renamed; [by apply not_elem_of_app|done]. }
  set (b' := base_set b i (b last)).
  assert (∀ j, j ≠ i → b' j = b j) as Hb by (intros; by apply base_set_ne).
  assert (∀ j, j ∉ whole [] c → j ≠ q ∨ q = 0) as Hjq.
  { intros j Hj. destruct (decide (q = 0)) as [|Hq0]; [by right|left]. intros ->. by destruct (Hq Hq0) as (_&_&_&?). }
  assert (∀ j, j ∉ inorder a → j ≠ lchild nl ∨ lchild nl = 0) as Hja.
  { intros j Hj. destruct (decide (lchild nl = 0)) as [|?]; [by right|left]. intros ->. auto. }
  assert (∀ j, j ∉ inorder r → j ≠ rchild nl ∨ rchild nl = 0) as Hjr.
  { intros j Hj. destruct (decide (rchild nl = 0)) as [|?]; [by right|left]. intros ->. auto. }
  assert (∀ j, j ≠ i → infos s' !! j = infos s !! j) as Hinf.
  { intros j Hj. by rw I' list_lookup_insert_ne. }
  assert (agg b' a = agg b a) as Ga by (apply agg_base; auto).
  assert (agg b' r = agg b r) as Gr by (apply agg_base; auto).
  assert (b' i = b last) as Hbi by apply base_set_eq.
  assert (¬ i ≤ 2 ∧ ¬ last ≤ 2) as [Hi2 Hl2] by lia.
  assert (agg b' (T a i r) = agg b (T a last r)) as Hagg by (simpl; by rw !decide_False // Ga Gr Hbi).
  apply rep_plug_iff. exists i, q. rw Hagg. split_and!.
  - simpl. split_and!; [done|lia|]. exists nl. split_and!; [done|done| | |].
    + rw I' list_lookup_insert_eq // Ga Gr. unfold ninfo. by rw !decide_False // Hbi.
    + apply (rep_base _ b); [by auto|].
      apply (rep_reparent s _ _ last); [done| | | |done].
      * intros j Hj. auto.
      * intros j Hj Hjne. destruct (Da' j Hj). apply O'; [by auto|by apply Hjq|by left|by apply Hjr].
      * intros Ha0. rw A' //. by destruct (Hsome (lchild nl)) as [? ->]; [auto|].
    + apply (rep_base _ b); [by auto|].
      apply (rep_reparent s _ _ last); [done| | | |done].
      * intros j Hj. auto.
      * intros j Hj Hjne. apply O'; [by auto|by apply Hjq, Dr| |by left].
        apply Hja. intros Hj'. by destruct (Da' j Hj').
      * intros Hr0. rw RR' //. by destruct (Hsome (rchild nl)) as [? ->]; [auto|].
  - assert (∀ j, j ∈ whole [] c → j ≠ q ∨ q = 0 → items s' !! j = items s !! j) as Hctx.
    { intros j Hj Hjq'. apply O'; [by auto|done|apply Hja|apply Hjr].
      - intros Hj'. by destruct (Da' j Hj').
      - intros Hj'. by apply (Dr j Hj'). }
    apply (repcf_rehole s _ b _ _ last i q kz nz); try done; by auto.
  - rw R' Hroot. destruct c as [|[[k z] sz] c]; [by rw bool_decide_eq_true_2|].
    rw bool_decide_eq_false_2 //. intros Heq. apply Nlc. rw -Heq. apply top_elem.
Qed.


Lemma unlink_ok s b t ids i I1 I2 :
  Inv s b t ids → ids = I1 ++ i :: I2 →
  ∃ s' t', unlink i s = Some s' ∧ same_store s s' ∧ rep s' b 0 (root s') t'
    ∧ inorder t' = 1 :: (I1 ++ I2) ++ [2].
Proof.
  intros HI Hids. unfold unlink.
  assert (inorder t = (1 :: I1) ++ i :: (I2 ++ [2])) as Ho.
  { rw (inv_order _ _ _ _ HI) Hids /= -app_assoc. done. }
  destruct (splay_root_ok s b t ids i) as (s1 & t1 & -> & HI1 & S1 & Ht1 & _); [done|rw Ho; set_solver|].
  simpl. pose proof (inv_nodup _ _ _ _ HI1) as ND1.
  assert (inorder t1 = inorder t) as Ho1 by by rw (inv_order _ _ _ _ HI1) (inv_order _ _ _ _ HI).
  destruct t1 as [|l i' r]; simpl in Ht1; [subst i; rw Ho in Ho1; by destruct (1 :: I1)|]. subst i'.
  rw Ho in Ho1. destruct (NoDup_split_unique (inorder l) (inorder r) (1 :: I1) (I2 ++ [2]) i) as [Hl Hr]; [done..|].
  pose proof (inv_rep _ _ _ _ HI1) as (_ & _ & n1 & En1 & _ & _ & Rl & Rr). rw En1 /=.
  destruct (inv_count _ _ _ _ HI1) as [Hc1 _]. simpl in Hc1. rw length_app /= in Hc1.
  pose proof (inv_len _ _ _ _ HI1) as Hlen1. rw length_dat in Hlen1.
  destruct (find_loop_ok s1 b true l (length (items s1)) i (lchild n1)) as (A & pre & Ef & HA); [done| |lia|].
  { intros H0. destruct l; [done|]. by destruct Rl as (?&?&_); congruence. }
  rw Ef /=. clear Ef.
  destruct (find_loop_ok s1 b false r (length (items s1)) i (rchild n1)) as (B & nxt & Ef & HB); [done| |lia|].
  { intros H0. destruct r; [by destruct I2|]. by destruct Rr as (?&?&_); congruence. }
  rw Ef /=. clear Ef.
  destruct (splay_root_ok s1 b (T l i r) ids pre) as (s2 & t2 & -> & HI2 & S2 & Ht2 & Hr2);
    [done|simpl; rw HA; set_solver|].
  simpl. pose proof (inv_nodup _ _ _ _ HI2) as ND2.
  assert (inorder t2 = A ++ pre :: i :: nxt :: B) as Ho2.
  { rw (inv_order _ _ _ _ HI2) -(inv_order _ _ _ _ HI1) /= HA HB -app_assoc. done. }
  destruct t2 as [|l2 pre' r2]; simpl in Ht2; [subst pre; by destruct A|]. subst pre'.
  destruct (NoDup_split_unique (inorder l2) (inorder r2) A (i :: nxt :: B) pre) as [Hl2 Hrr2]; [done..|].
  simpl in ND2.
  destruct (splay_below_ok s2 b l2 pre r2 ids nxt) as (s3 & r3 & -> & S3 & Hr3 & R3 & C3 & O3);
    [done|rw Hrr2; set_solver|].
  simpl. rw Hrr2 in O3.
  assert (NoDup (i :: nxt :: B)) as ND3.
  { rw Hrr2 in ND2. apply NoDup_app in ND2 as (_ & _ & ND). by apply NoDup_cons in ND as [_ ?]. }
  pose proof (rep_troot _ _ _ _ _ R3) as Ht3.
  destruct r3 as [|m nxt' r3]; simpl in Ht3; [done|]. subst nxt'.
  simpl in O3. destruct (NoDup_split_unique (inorder m) (inorder r3) [i] B nxt) as [Hm Hr3']; [by rw O3|done|].
  set (ctx := [(true, pre, l2)]) in *.
  assert (inorder l2 ++ pre :: nxt :: B = 1 :: (I1 ++ I2) ++ [2]) as Hfin.
  { rw Hl2. replace (A ++ pre :: nxt :: B) with ((A ++ [pre]) ++ nxt :: B) by by rw -app_assoc.
    rw -HA -HB Hl Hr /= -app_assoc. done. }
  assert (ok (whole (inorder (tk false E nxt r3)) ctx)) as Hok.
  { unfold ctx, whole; simpl. rw Hr3' app_nil_r -app_assoc /= Hfin. split; [|by eexists].
    rw -Hfin Hl2. rw Hl2 Hrr2 in ND2.
    assert (A ++ pre :: i :: nxt :: B ≡ₚ i :: A ++ pre :: nxt :: B) as HP by solve_Permutation.
    rw HP in ND2. by apply NoDup_cons in ND2 as [_ ?]. }
  assert (NoDup (nxt :: inorder r3 ++ whole [] ctx)) as [Nn NDn]%NoDup_cons.
  { destruct Hok as [H _]. by rw whole_perm in H. }
  apply not_elem_of_app in Nn as [Nn1 Nn2].
  destruct R3 as (_ & Hnxt0 & n3 & En3 & Hp3 & Hi3 & Rm & Rr3).
  destruct (upd_ok s3 nxt n3 (set_lchild 0)) as (s4 & -> & I4 & P4 & O4 & K4); [done|]. simpl.
  assert (cell s4 b false pre E nxt r3) as C4.
  { split; [done|]. eexists. rw I4. split_and!; [exact P4|done|by eauto|done|].
    apply (rep_frame s3); [|done]. intros j Hj. rw I4. split; [|done]. apply O4. by intros ->. }
  destruct (maintain_cell s4 b false pre E nxt r3 ctx C4 Hok) as (s5 & -> & K5 & It5 & I5 & R5). simpl.
  assert (repc s5 b nxt pre ctx) as (_ & Hpre0 & n5 & q5 & En5 & Hch5 & Hq5 & Hi5 & Hl5 & ->).
  { apply (repc_frame s3); [|done]. intros j Hj. assert (j ≠ nxt) by by intros ->.
    rw It5 I5 // I4. split; [|done]. by apply O4. }
  destruct (maintain_cell s5 b true 0 (T E nxt r3) pre l2 []) as (s6 & -> & K6 & It6 & I6 & R6).
  { split; [done|]. exists n5. split_and!; [done..| |done]. by rw Hch5. }
  { move: Hok. by rw /ctx /whole /= !app_nil_r -app_assoc. }
  eexists s6, _. split_and!; [done| | |].
  - specialize (K4 (link_only_child false 0)). do 5 (etrans; [|eauto using keeps_same]). done.
  - specialize (K4 (link_only_child false 0)).
    replace (root s6) with pre; [exact R6|].
    destruct K4 as [K4 _], K5 as [K5 _], K6 as [K6 _]. congruence.
  - by rw /= Hr3'.
Qed.

Lemma key_unique s b t ids j j' k o o' :
  Inv s b t ids → 3 ≤ j → 3 ≤ j' → dat s !! j = Some (k, o) → dat s !! j' = Some (k, o') → j = j'.
Proof.
  intros HI Hj Hj' H1 H2.
  assert (hash s !! k = Some j) as E1 by (apply (inv_hash _ _ _ _ HI); eauto).
  assert (hash s !! k = Some j') as E2 by (apply (inv_hash _ _ _ _ HI); eauto). congruence.
Qed.

(** The index whose content is at [j] once the last item has moved to [i]. *)
Definition origin (i last j : nat) : nat := if decide (j = i) then last else j.

(** The keys after the deletion. *)
Lemma delete_hash s b t ids k i km om :
  Inv s b t ids → hash s !! k = Some i → dat s !! count s = Some (km, om) →
  let h := if i ≟ count s then delete k (hash s) else <[km := i]> (delete k (hash s)) in
  ∀ k' j, h !! k' = Some j ↔ 3 ≤ j < count s ∧ ∃ o, dat s !! origin i (count s) j = Some (k', o).
Proof.
  intros HI Hk Hm h k' j. pose proof Hk as (Hi3 & oi & Hdi)%(inv_hash _ _ _ _ HI).
  pose proof (inv_len _ _ _ _ HI) as Hlen.
  assert (i ≤ count s) as Him by (apply lookup_lt_Some in Hdi; lia).
  assert (∀ j o, dat s !! j = Some (k, o) → 3 ≤ j → j = i) as Hui by (intros; by eapply key_unique).
  assert (∀ j o, dat s !! j = Some (km, o) → 3 ≤ j → j = count s) as Hum.
  { intros; eapply key_unique; [done| |lia|done|done]. done. }
  assert (∀ j k' o, dat s !! j = Some (k', o) → j ≤ count s) as Hle.
  { intros j' ?? H%lookup_lt_Some. lia. }
  unfold h, origin. case_bool_decide as Heq.
  - rw lookup_delete_Some (inv_hash _ _ _ _ HI). split.
    + intros (Hne & Hj & o & Ho). pose proof (Hle _ _ _ Ho).
      assert (j ≠ i) by (intros ->; rw Hdi in Ho; congruence).
      split; [lia|]. exists o. by rw decide_False.
    + intros (Hj & o & Ho). rw decide_False in Ho; [|lia]. split_and!; [|lia|by eauto].
      intros <-. specialize (Hui _ _ Ho). lia.
  - destruct (decide (k' = km)) as [->|Hne]; [rw lookup_insert_eq|rw lookup_insert_ne // lookup_delete_Some (inv_hash _ _ _ _ HI)]; split.
    + intros [= <-]. split; [lia|]. rw decide_True //. by eauto.
    + intros (Hj & o & Ho). destruct (decide (j = i)); [congruence|]. specialize (Hum _ _ Ho). lia.
    + intros (Hnk & Hj & o & Ho). pose proof (Hle _ _ _ Ho).
      assert (j ≠ i) by (intros ->; rw Hdi in Ho; congruence).
      assert (j ≠ count s) by (intros ->; rw Hm in Ho; congruence).
      split; [lia|]. exists o. by rw decide_False.
    + intros (Hj & o & Ho). destruct (decide (j = i)); [congruence|]. split_and!; [|lia|by eauto].
      intros <-. specialize (Hui _ _ Ho). lia.
Qed.

(** The state handed to the truncation: the object is gone from the tree, and
    the last index is free. *)
Lemma delete_state s b t ids k i I1 I2 km om :
  Inv s b t ids → hash s !! k = Some i → ids = I1 ++ i :: I2 → dat s !! count s = Some (km, om) →
  ∃ s1 s2 t2, unlink i s = Some s1
    ∧ (if i ≟ count (set_hash (delete k (hash s1)) s1) then Some (set_hash (delete k (hash s1)) s1)
       else moveLast i (count (set_hash (delete k (hash s1)) s1)) (set_hash (delete k (hash s1)) s1)) = Some s2
    ∧ rep s2 (base_set b i (b (count s))) 0 (root s2) t2
    ∧ inorder t2 = renamed (count s) i <$> 1 :: (I1 ++ I2) ++ [2]
    ∧ hash s2 = (if i ≟ count s then delete k (hash s) else <[km := i]> (delete k (hash s)))
    ∧ count s2 = count s ∧ dat s2 = <[i := (km, om)]> (dat s) ∧ length (infos s2) = S (count s).
Proof.
  intros HI Hk Hids Hm. pose proof Hk as (Hi3 & oi & Hdi)%(inv_hash _ _ _ _ HI).
  pose proof (inv_len _ _ _ _ HI) as Hlen. pose proof (inv_leni _ _ _ _ HI) as Hleni.
  assert (i ≤ count s) as Him by (apply lookup_lt_Some in Hdi; lia).
  destruct (unlink_ok s b t ids i I1 I2 HI Hids) as (s1 & t1 & E1 & (Sh & Sc & Sd & Si) & R1 & O1).
  assert (inorder t ≡ₚ i :: inorder t1) as HP.
  { rw (inv_order _ _ _ _ HI) O1 Hids. solve_Permutation. }
  pose proof (inv_nodup _ _ _ _ HI) as HND. rw HP in HND. apply NoDup_cons in HND as [Hni HND].
  set (s1' := set_hash (delete k (hash s1)) s1).
  assert (rep s1' b 0 (root s1') t1) as R1' by by apply (rep_frame s1).
  assert (dat s1' = dat s ∧ count s1' = count s ∧ hash s1' = delete k (hash s)) as (Sd' & Sc' & Sh').
  { split_and!; [done..|]. by rw /= Sh. }
  exists s1. rw Sc'. case_bool_decide as Heq.
  - exists s1', t1. split_and!; [done..| | |done|done| |by rw /= Si].
    + apply (rep_base _ b); [|done]. intros j Hj. apply base_set_ne. by intros ->.
    + rw -O1 renamed_id // -Heq. done.
    + rw Sd' list_insert_id //. by rw Heq.
  - assert (count s ∈ inorder t1) as Hin.
    { assert (count s ∈ inorder t) as H by (apply (inv_ids _ _ _ _ HI); lia).
      rw HP in H. apply elem_of_cons in H as [?|?]; [lia|done]. }
    assert (∃ nl, items s1' !! count s = Some nl ∧ km = key nl ∧ om = obj nl) as (nl & Hnl & -> & ->).
    { rw -Sd' in Hm. unfold dat in Hm. apply list_lookup_fmap_Some in Hm as (nl & [= -> ->] & ?). eauto. }
    assert (is_Some (items s1' !! i)) as [ni Hnii].
    { apply lookup_lt_is_Some. rw -length_dat Sd' Hlen. lia. }
    destruct (moveLast_ok s1' b t1 (count s) i nl ni) as (s2 & t2 & E2 & R2 & O2 & H2 & C2 & D2 & L2);
      [done|done|done|done|done|lia|done|done|rw /= Si; lia|].
    exists s2, t2. rw -O1. split_and!; [done|done|done|done|by rw H2 Sh'|by rw C2|by rw D2 Sd'|by rw L2 /= Si].
Qed.

(** The indices after the deletion. *)
Lemma delete_ids s b t ids i I1 I2 :
  Inv s b t ids → ids = I1 ++ i :: I2 → 3 ≤ i →
  NoDup (renamed (count s) i <$> 1 :: (I1 ++ I2) ++ [2])
  ∧ ∀ j, j ∈ renamed (count s) i <$> 1 :: (I1 ++ I2) ++ [2] ↔ 1 ≤ j < count s.
Proof.
  intros HI Hids Hi. pose proof (inv_nodup _ _ _ _ HI) as HND. pose proof (inv_ids _ _ _ _ HI) as Hin.
  assert (inorder t ≡ₚ i :: 1 :: (I1 ++ I2) ++ [2]) as HP.
  { rw (inv_order _ _ _ _ HI) Hids. solve_Permutation. }
  rw HP in HND. setoid_rewrite HP in Hin. apply NoDup_cons in HND as [Hni HND].
  set (L := 1 :: (I1 ++ I2) ++ [2]) in *. clearbody L. setoid_rewrite elem_of_cons in Hin.
  split.
  - apply NoDup_fmap_2_strong; [|done]. intros x y Hx Hy. unfold renamed.
    do 2 case_decide; intros; subst; try done; by destruct Hni.
  - intros j. rw list_elem_of_fmap. unfold renamed. split.
    + intros (x & -> & Hx). assert (1 ≤ x ≤ count s) as Hx' by (apply Hin; by right).
      assert (1 ≤ i ≤ count s) as Hi' by (apply Hin; by left).
      assert (x ≠ i) by by intros ->. case_decide; lia.
    + intros Hj. destruct (decide (j = i)) as [->|Hne].
      * exists (count s). rw decide_True //. split; [done|].
        destruct (proj2 (Hin (count s))) as [?|?]; [lia|lia|done].
      * exists j. rw decide_False; [|lia]. split; [done|]. destruct (proj2 (Hin j)) as [?|?]; [lia|done|done].
Qed.

Lemma Delete_ok s b t ids k i :
  Inv s b t ids → hash s !! k = Some i →
  ∃ s' t' I1 I2, Delete k s = Some (s', true) ∧ ids = I1 ++ i :: I2
    ∧ Inv s' (base_set b i (b (count s))) t' (renamed (count s) i <$> I1 ++ I2)
    ∧ ∀ j, j < count s → dat s' !! j = dat s !! origin i (count s) j.
Proof.
  intros HI Hk. pose proof Hk as (Hi3 & oi & Hdi)%(inv_hash _ _ _ _ HI).
  pose proof (inv_len _ _ _ _ HI) as Hlen.
  assert (i ≤ count s) as Him by (apply lookup_lt_Some in Hdi; lia).
  assert (i ∈ ids) as (I1 & I2 & Hids)%list_elem_of_split.
  { assert (i ∈ inorder t) as H by (apply (inv_ids _ _ _ _ HI); lia).
    rw (inv_order _ _ _ _ HI) in H. clear -H Hi3. set_solver by lia. }
  destruct (lookup_lt_is_Some_2 (dat s) (count s)) as [[km om] Hm]; [lia|].
  destruct (delete_state s b t ids k i I1 I2 km om) as (s1 & s2 & t2 & E1 & E2 & R2 & O2 & H2 & C2 & D2 & L2); [done..|].
  unfold Delete. rw Hk E1 /= E2 /=. eexists _, t2, I1, I2. split; [done|]. split; [done|].
  destruct (delete_ids s b t ids i I1 I2) as [HND2 Hin2]; [done..|]. rw -O2 in HND2. rw -O2 in Hin2.
  assert (∀ j, j < count s → dat (mkSplay (root s2) (hash s2) (take (count s2) (items s2))
    (take (count s2) (infos s2)) (pred (count s2))) !! j = dat s !! origin i (count s) j) as Hdat.
  { intros j Hj. unfold dat; simpl. rw fmap_take C2 lookup_take_lt //.
    transitivity (dat s2 !! j); [done|]. rw D2. unfold origin. destruct (decide (j = i)) as [->|Hne].
    - rw list_lookup_insert_eq //. lia.
    - by rw list_lookup_insert_ne. }
  split; [|done]. pose proof (delete_hash s b t ids k i km om HI Hk Hm) as Hhash. simpl in Hhash.
  assert (∀ j k' o, dat s !! origin i (count s) j = Some (k', o) → 3 ≤ j → ∃ v, o = Stored v ∧ k' = Key v) as Hobj.
  { intros j k' o Ho Hj. apply (inv_obj _ _ _ _ HI (origin i (count s) j)); [|done].
    unfold origin. destruct (decide (j = i)); lia. }
  split; simpl.
  - apply (rep_frame s2); [|done]. simpl. intros j Hj%Hin2. rw C2. rw !lookup_take_lt //; lia.
  - rw O2 fmap_cons (fmap_app _ _ [2]) /=. unfold renamed at 1 3. by rw !decide_False; [|lia..].
  - done.
  - intros j. rw Hin2 C2. lia.
  - unfold dat; simpl. rw fmap_take length_take C2. fold (dat s2). rw D2 length_insert Hlen. lia.
  - rw length_take C2 L2. lia.
  - intros j k' o Hj Ho. assert (j < count s) as Hjm.
    { apply lookup_lt_Some in Ho. unfold dat in Ho; simpl in Ho. rw length_fmap length_take C2 in Ho. lia. }
    rw Hdat // in Ho. by eapply Hobj.
  - intros k' j. rw H2 Hhash. split.
    + intros (Hj & o & Ho). split; [lia|]. exists o. rw Hdat //. lia.
    + intros (Hj & o & Ho). assert (j < count s) as Hjm.
      { apply lookup_lt_Some in Ho. unfold dat in Ho; simpl in Ho. rw length_fmap length_take C2 in Ho. lia. }
      rw Hdat // in Ho. eauto.
Qed.


(** ** Partition *)

Lemma Partition_ok gt s b t ids :
  Inv s b t ids →
  ∃ s' t' tm I1 I2, Partition gt s = Some (s', Maintained <$> agg b tm)
    ∧ Inv s' b t' ids ∧ same_store s s' ∧ ids = I1 ++ I2 ∧ inorder tm = I1
    ∧ (downward gt s (inorder t) →
       Forall (λ j, choice gt s j = Some true) I1 ∧ Forall (λ j, choice gt s j = Some false) I2).
Proof.
  intros HI. unfold Partition.
  destruct (splay_root_ok s b t ids minv) as (s1 & t1 & -> & HI1 & S1 & Ht1 & Hr1).
  { done. } { rw (inv_order _ _ _ _ HI). set_solver. }
  cbn [mbind option_bind]. pose proof (inv_nodup _ _ _ _ HI1) as ND1. pose proof (inv_order _ _ _ _ HI1) as Ho1.
  destruct t1 as [|l i r]; simpl in Ht1; [done|]. subst i.
  destruct (NoDup_split_unique (inorder l) (inorder r) [] (ids ++ [2]) minv) as [Hl Hr]; [done..|].
  destruct l as [|l1 ? l2]; [|simpl in Hl; by destruct (inorder l1)]. clear Hl.
  destruct (inv_count _ _ _ _ HI1) as [Hc1 _]. pose proof (inv_len _ _ _ _ HI1) as Hlen1. rw length_dat in Hlen1.
  destruct (descents_ok gt s1 b (T E minv r) (S (length (items s1))) 0 (root s1) 0 [])
    as (c & p & _ & _ & Hp & HF & _ & Hpart).
  { apply HI1. } { done. } { intros j. by eapply choice_total. } { done. } { lia. }
  rw Hpart //. clear Hpart. cbn [mbind option_bind]. simpl in Hp.
  assert (whole [] c = 1 :: ids ++ [2]) as HW by by rw -Ho1 -Hp inorder_plug.
  destruct (ctx_ends gt s1 c ids) as (I1 & I2 & HL & HR & Hids);
    [done|rw HW -Ho1; by eapply inv_ok|done|].
  destruct (I2 ++ [2]) as [|next rest] eqn:Enext; [by destruct I2|]. rw HR /=.
  assert (inorder r = I1 ++ next :: rest) as Hr' by by rw Hr Hids -app_assoc Enext.
  destruct (splay_below_ok s1 b E minv r ids next) as (s2 & r2 & -> & S2 & Hr2 & R2 & C2 & O2).
  { done. } { rw Hr'. set_solver. }
  simpl. pose proof (rep_troot _ _ _ _ _ R2) as Ht2.
  destruct r2 as [|m i r2]; simpl in Ht2; [rw Hr' in O2; by destruct I1|]. subst i.
  assert (NoDup (inorder m ++ next :: inorder r2)) as ND2.
  { change (NoDup (inorder (T m next r2))). rw O2. simpl in ND1. by apply NoDup_cons in ND1 as [_ ?]. }
  destruct (NoDup_split_unique (inorder m) (inorder r2) I1 rest next) as [Hm _]; [done|by rw -Hr' -O2|].
  pose proof R2 as (_ & _ & n2 & En2 & _ & _ & Rm & _). rw En2 /=.
  destruct C2 as (_ & _ & n1 & q1 & En1 & Hch1 & Hq1 & (la & ra & Hi1) & HlE & ->).
  assert (Inv s2 b (T E minv (T m next r2)) ids) as HI2.
  { eapply inv_transfer; [done|done| |by rw /= -O2]. split_and!; [by rw Hr2 Hr1|done|].
    exists n1. split_and!; [done|done|by rw Hi1|done|]. by rw (Hch1 : rchild n1 = next). }
  exists s2, (T E minv (T m next r2)), m, I1, I2. split_and!; [|done|by etrans|done|done|].
  - destruct m as [|ml j mr]; [by rw (Rm : lchild n2 = 0)|].
    destruct Rm as (-> & Hj0 & nj & Ej & _ & Ij & _ & _). rw bool_decide_eq_false_2 //= Ij /=.
    assert (¬ j ≤ 2) as Hj2.
    { apply (NoDup_elem_gt2 ids); [|rw Hids -Hm /=; set_solver|done].
      split; [rw -Ho1; by eapply inv_nodup|by eexists]. }
    unfold ninfo. by rw !decide_False.
  - intros Hd. assert (∀ j, choice gt s1 j = choice gt s j) as Hch.
    { intros j. unfold choice. destruct S1 as (_ & _ & -> & _). done. }
    destruct (ctx_downward gt s1 c []) as [Hc Hc']; [done| | |].
    + rw HW -(inv_order _ _ _ _ HI). intros A i B HE. rw Hch. intros Hi. specialize (Hd A i B HE Hi).
      eapply Forall_impl; [done|]. simpl. intros j. by rw Hch.
    + rw HW -Ho1. intros j. by eapply choice_total.
    + rw HL in Hc. rw HR -Enext in Hc'. apply Forall_cons in Hc as [_ Hc]. apply Forall_app in Hc' as [Hc' _].
      split; (eapply Forall_impl; [done|]); simpl; intros j; by rw Hch.
Qed.

(** ** Traversals *)

(** The stored object at an index, when it is not a sentinel. *)
Definition objs s (L : list nat) : list StoredObj :=
  omap (λ j, if (j ≟ minv) || (j ≟ maxv) then None else snd <$> dat s !! j) L.

Lemma objs_app s L1 L2 : objs s (L1 ++ L2) = objs s L1 ++ objs s L2.
Proof. apply omap_app. Qed.

Lemma range_dfs_ok {St} (f : St → StoredObj → St) s b t : ∀ fuel p n st,
  rep s b p n t → length (inorder t) < fuel →
  range_dfs fuel f n st s = Some (foldl f st (objs s (inorder t))).
Proof.
  induction t as [|l IHl i r IHr]; intros fuel p n st Ht Hf; (destruct fuel as [|fuel]; [simpl in *; lia|]).
  { simpl in Ht. by subst n. }
  destruct Ht as (-> & Hi & nd & Hnd & _ & _ & Hl & Hr). simpl in *. rw length_app /= in Hf.
  rw bool_decide_eq_false_2 // Hnd /= (IHl _ i) //; [|lia]. simpl. rw (IHr _ i) //; [|lia].
  rw objs_app foldl_app /=. f_equal. rw (dat_lookup _ _ _ Hnd) /=. by do 2 case_bool_decide.
Qed.

(** A visitor that acts on the objects it keeps and stops at the first one it
    does not. *)
Lemma crange_dfs_ok {St} (f : St → StoredObj → St * bool) (act : St → StoredObj → St)
    (keep : StoredObj → bool) s b t :
  ∀ fuel p n st, rep s b p n t → length (inorder t) < fuel →
  (∀ st o, o ∈ objs s (inorder t) → f st o = if keep o then (act st o, true) else (st, false)) →
  (∀ A o B, objs s (inorder t) = A ++ o :: B → keep o = false → Forall (λ o, keep o = false) B) →
  crange_dfs fuel f n st s = Some (foldl act st (filter (λ o, keep o = true) (objs s (inorder t)))).
Proof.
  induction t as [|l IHl i r IHr]; intros fuel p n st Ht Hf Hfo Hup; (destruct fuel as [|fuel]; [simpl in *; lia|]).
  { simpl in Ht. by subst n. }
  destruct Ht as (-> & Hi & nd & Hnd & _ & _ & Hl & Hr). simpl in *. rw length_app /= in Hf.
  rw objs_app in Hup. rw objs_app in Hfo. rw bool_decide_eq_false_2 // Hnd /= (IHl _ i) //; [|lia|..].
  2: { intros st' o Ho. apply Hfo. set_solver. }
  2: { intros A o B HE Ho. rw HE -app_assoc in Hup. specialize (Hup _ _ _ eq_refl Ho). by apply Forall_app in Hup as [? _]. }
  simpl. rw objs_app filter_app foldl_app. simpl in *. rw (dat_lookup _ _ _ Hnd) /= in Hup Hfo |- *.
  destruct ((i ≟ minv) || (i ≟ maxv)) eqn:Es.
  - replace (negb (i ≟ minv) && negb (i ≟ maxv)) with false by (by do 2 case_bool_decide).
    apply (IHr _ i); [done|lia|intros; apply Hfo; set_solver|].
    intros A o B HE Ho. rw HE in Hup. eapply (Hup (_ ++ A)); [|done]. by rw -app_assoc.
  - replace (negb (i ≟ minv) && negb (i ≟ maxv)) with true by (by do 2 case_bool_decide).
    rw Hfo; [|apply elem_of_app; right; left]. destruct (keep (obj nd)) eqn:Ek.
    + rw filter_cons_True //=. apply (IHr _ i); [done|lia| |].
      * intros st' o Ho. apply Hfo, elem_of_app. right. by right.
      * intros A o B HE Ho. rw HE in Hup. eapply (Hup (_ ++ _ :: A)); [|done]. by rw -app_assoc.
    + rw filter_cons_False; [|congruence]. specialize (Hup _ _ _ eq_refl Ek).
      rw (filter_none _ (objs s (inorder r))); [done|]. intros o Ho Hk. eapply Forall_forall in Hup; [|done]. congruence.
Qed.

(** ** Clone *)

Lemma inv_hash_size s b t ids : Inv s b t ids → size (hash s) + 3 = length (items s).
Proof.
  intros HI. destruct (inv_count _ _ _ _ HI) as [_ Hc]. pose proof (inv_len _ _ _ _ HI) as Hlen.
  rw length_dat in Hlen. assert (snd <$> map_to_list (hash s) ≡ₚ seq 3 (count s - 2)) as HP.
  { apply NoDup_Permutation.
    - apply NoDup_fmap_2_strong; [|apply NoDup_map_to_list].
      intros [k1 j1] [k2 j2] H1%elem_of_map_to_list H2%elem_of_map_to_list Heq. simpl in Heq. subst j2.
      apply (inv_hash _ _ _ _ HI) in H1 as (_ & o1 & H1). apply (inv_hash _ _ _ _ HI) in H2 as (_ & o2 & H2).
      congruence.
    - apply NoDup_seq.
    - intros j. rw elem_of_seq list_elem_of_fmap. split.
      + intros ([k j'] & -> & (Hj & o & Ho%lookup_lt_Some)%elem_of_map_to_list%(inv_hash _ _ _ _ HI)).
        rw length_dat in Ho. simpl. lia.
      + intros Hj. destruct (lookup_lt_is_Some_2 (dat s) j) as [[k o] Ho]; [rw length_dat; lia|].
        exists (k, j). split; [done|]. apply elem_of_map_to_list, (inv_hash _ _ _ _ HI). split; [lia|by eauto]. }
  apply Permutation_length in HP. rw length_fmap length_seq in HP.
  rw length_map_to_list in HP. lia.
Qed.

Lemma clone_hash_lookup (l : list (@node Obj)) i h k j :
  (∀ a c na nc, l !! a = Some na → l !! c = Some nc → key na = key nc → a = c) →
  clone_hash l i h !! k = Some j ↔
    (∃ a nd, l !! a = Some nd ∧ key nd = k ∧ j = i + a)
    ∨ ((∀ a nd, l !! a = Some nd → key nd ≠ k) ∧ h !! k = Some j).
Proof.
  revert i h. induction l as [|x l IH]; intros i h Hinj; simpl.
  { split; [by right; split|]. by intros [(a & nd & ? & _)|[_ ?]]. }
  rw IH; [|intros a c na nc Ha Hc Hk; by specialize (Hinj (S a) (S c) na nc Ha Hc Hk); lia].
  split.
  - intros [(a & nd & Ha & Hk & ->)|[Hn Hh]].
    + left. exists (S a), nd. split_and!; [done..|lia].
    + destruct (decide (key x = k)) as [<-|Hne].
      * rw lookup_insert_eq in Hh. injection Hh as <-. left. exists 0, x. split_and!; [done..|lia].
      * rw lookup_insert_ne // in Hh. right. split; [|done]. intros [|a] nd Ha; simplify_eq/=; eauto.
  - intros [([|a] & nd & Ha & Hk & ->)|[Hn Hh]]; simplify_eq/=.
    + right. split; [|rw lookup_insert_eq; f_equal; lia].
      intros a nd' Ha' Hk. by specialize (Hinj 0 (S a) nd nd' eq_refl Ha' (eq_sym Hk)).
    + left. exists a, nd. split_and!; [done..|lia].
    + right. split; [intros a nd Ha; by apply (Hn (S a))|]. rw lookup_insert_ne //. by apply (Hn 0).
Qed.

(** A clone is the splay it was cloned from. *)
Lemma Clone_ok s b t ids : Inv s b t ids → Clone s = Some s.
Proof.
  intros HI. pose proof (inv_hash_size _ _ _ _ HI) as Hsz. pose proof (inv_leni _ _ _ _ HI) as Hleni.
  pose proof (inv_len _ _ _ _ HI) as Hlen. rw length_dat in Hlen.
  assert (∀ A (z : A) l, length l = size (hash s) + 3 → copy_into (size (hash s) + 3) z l = l) as Hcopy.
  { intros A z l Hl. unfold copy_into. rw -Hl Nat.sub_diag firstn_all /= app_nil_r. done. }
  unfold Clone. rw !Hcopy //; [|lia]. rw decide_True; [|lia]. f_equal.
  rw firstn_all. destruct s as [rt h it inf c]; simpl in *. f_equal. apply map_eq. intros k.
  apply option_eq. intros j. rw clone_hash_lookup.
  2: { intros a a' na na'. rw !lookup_drop. intros Ha Ha' Hk.
       assert (3 + a = 3 + a'); [|lia].
       eapply (key_unique _ b t ids _ _ (key na)); [exact HI|lia|lia|by apply dat_lookup|].
       rw Hk. by apply dat_lookup. }
  rw lookup_empty. rw (inv_hash _ _ _ _ HI k j : h !! k = Some j ↔ _). split.
  - intros [(a & nd & Ha & <- & ->)|[_ ?]]; [|done]. rw lookup_drop in Ha. split; [lia|].
    exists (obj nd). by apply dat_lookup.
  - intros (Hj & o & Ho). left. unfold dat in Ho; simpl in Ho.
    apply list_lookup_fmap_Some in Ho as (nd & [= -> ->] & Hnd).
    exists (j - 3), nd. rw lookup_drop. replace (3 + (j - 3)) with j by lia. by split_and!; [..|lia].
Qed.
End props.
