(* ===== verification/SplaySpec.v ===== *)
(** * The splay tree as its callers see it

    [R s L]: the tree holds the entries [L], in ascending order.  An entry is
    the stored object with the object its maintained info was made from; the
    two differ once [Insert] has replaced an object.  The operations on the list
    are the reference definitions ([insert_sorted], [replace], [remove]) that
    the operations of the array are shown to follow. *)
From S2P Require Import Prelude Splay SplayRefine SplayProps.

Local Open Scope godel_scope.

Section spec.
Context {Obj Info : Type} `{!StoredObjOps Obj Info} `{!StoredObjLaws Obj Info}.
Implicit Types (s : @splay Obj Info) (b : nat → Obj) (v o : Obj).
Implicit Types (L : list (Obj * Obj)) (e : Obj * Obj).

Definition entry_at s b (j : nat) e : Prop := dat s !! j = Some (Key e.1, Stored e.1) ∧ b j = e.2.

Definition R s L : Prop := ∃ b t ids, Inv s b t ids ∧ Forall2 (entry_at s b) ids L.

Definition keys L : list string := (λ e, Key e.1) <$> L.

(** ** The reference operations on the list *)

Fixpoint insert_sorted v L : list (Obj * Obj) :=
  match L with
  | [] => [(v, v)]
  | e :: L' => if Compare v e.1 then e :: insert_sorted v L' else (v, v) :: L
  end.
Definition replace v L : list (Obj * Obj) := (λ e, if Key e.1 ≟ Key v then (v, e.2) else e) <$> L.
Definition remove (k : string) L : list (Obj * Obj) := filter (λ e, Key e.1 ≠ k) L.
Definition spec_insert v L : list (Obj * Obj) :=
  if decide (Key v ∈ keys L) then replace v L else insert_sorted v L.
Definition find_entry (k : string) L : option Obj := fst <$> head (filter (λ e, Key e.1 = k) L).

(** Ascending: no entry is greater than a later one. *)
Definition Asc L : Prop := StronglySorted (λ e e', Compare e.1 e'.1 = false) L.

(** The info of a subtree over the objects [l], whatever its shape. *)
Inductive Agg : list Obj → option Info → Prop :=
  | Agg_nil : Agg [] None
  | Agg_node l o r a c : Agg l a → Agg r c →
      Agg (l ++ o :: r) (Some (Maintain (MakeMaintainInfo o) a c)).

(** ** Entries and indices *)

Lemma R_ids s b t ids L j :
  Inv s b t ids → Forall2 (entry_at s b) ids L → j ∈ ids → 3 ≤ j ≤ count s.
Proof.
  intros HI HF Hj. assert (j ∈ inorder t) as Hin by (rw (inv_order _ _ _ _ HI); set_solver).
  apply (inv_ids _ _ _ _ HI) in Hin. assert (¬ j ≤ 2); [|lia].
  apply (NoDup_elem_gt2 ids); [|done|lia]. rw -(inv_order _ _ _ _ HI). by eapply inv_ok.
Qed.

Lemma R_ids_elem s b t ids j : Inv s b t ids → 3 ≤ j ≤ count s → j ∈ ids.
Proof.
  intros HI Hj. assert (j ∈ inorder t) as Hin by (apply (inv_ids _ _ _ _ HI); lia).
  rw (inv_order _ _ _ _ HI) in Hin.
  apply elem_of_cons in Hin as [?|[?|?%list_elem_of_singleton]%elem_of_app]; [lia|done|lia].
Qed.

(** An entry's index is the one its key hashes to. *)
Lemma R_hash s b t ids L j e :
  Inv s b t ids → Forall2 (entry_at s b) ids L → j ∈ ids → entry_at s b j e → hash s !! Key e.1 = Some j.
Proof.
  intros HI HF Hj [He _]. apply (inv_hash _ _ _ _ HI). destruct (R_ids _ _ _ _ _ _ HI HF Hj). eauto.
Qed.

Lemma R_split s b t ids L k i :
  Inv s b t ids → Forall2 (entry_at s b) ids L → hash s !! k = Some i →
  ∃ I1 I2 L1 e L2, ids = I1 ++ i :: I2 ∧ L = L1 ++ e :: L2 ∧ Key e.1 = k
    ∧ Forall2 (entry_at s b) I1 L1 ∧ entry_at s b i e ∧ Forall2 (entry_at s b) I2 L2.
Proof.
  intros HI HF Hk. pose proof Hk as (Hi & o & Ho)%(inv_hash _ _ _ _ HI).
  assert (i ∈ ids) as (I1 & I2 & ->)%list_elem_of_split.
  { eapply R_ids_elem; [done|]. apply lookup_lt_Some in Ho. rw (inv_len _ _ _ _ HI) in Ho. lia. }
  apply Forall2_app_inv_l in HF as (L1 & L2' & H1 & H2 & ->).
  apply Forall2_cons_inv_l in H2 as (e & L2 & He & H2 & ->).
  exists I1, I2, L1, e, L2. split_and!; try done. destruct He as [He _]. congruence.
Qed.

Lemma R_keys_nodup s L : R s L → NoDup (keys L).
Proof.
  intros (b & t & ids & HI & HF). apply NoDup_alt. intros n n' k.
  unfold keys. rw !list_lookup_fmap_Some. intros (e & -> & He) (e' & Hk & He').
  destruct (Forall2_lookup_r _ _ _ _ _ HF He) as (j & Hj & Hje).
  destruct (Forall2_lookup_r _ _ _ _ _ HF He') as (j' & Hj' & Hje').
  assert (j = j') as <-.
  { assert (hash s !! Key e.1 = Some j) by (eapply R_hash; eauto using list_elem_of_lookup_2).
    assert (hash s !! Key e'.1 = Some j') by (eapply R_hash; eauto using list_elem_of_lookup_2). congruence. }
  pose proof (inv_nodup _ _ _ _ HI) as HND. rw (inv_order _ _ _ _ HI) in HND.
  apply NoDup_cons in HND as [_ [HND _]%NoDup_app]. by eapply NoDup_lookup.
Qed.

Lemma R_hash_None s b t ids L k :
  Inv s b t ids → Forall2 (entry_at s b) ids L → hash s !! k = None ↔ k ∉ keys L.
Proof.
  intros HI HF. split.
  - intros Hn (e & -> & He)%list_elem_of_fmap. apply list_elem_of_lookup in He as [n Hn'].
    destruct (Forall2_lookup_r _ _ _ _ _ HF Hn') as (j & Hj & Hje).
    assert (hash s !! Key e.1 = Some j) by (eapply R_hash; eauto using list_elem_of_lookup_2). congruence.
  - intros Hk. destruct (hash s !! k) as [i|] eqn:Hi; [|done]. exfalso. apply Hk.
    destruct (R_split _ _ _ _ _ _ _ HI HF Hi) as (? & ? & ? & e & ? & _ & -> & <- & _).
    apply list_elem_of_fmap. exists e. set_solver.
Qed.

(** The entries do not depend on what lies outside their indices. *)
Lemma entries_mono s s' b b' (f : nat → nat) ids L :
  (∀ j, j ∈ ids → dat s' !! f j = dat s !! j ∧ b' (f j) = b j) →
  Forall2 (entry_at s b) ids L → Forall2 (entry_at s' b') (f <$> ids) L.
Proof.
  intros Hf HF. induction HF as [|j e ids L He HF IH]; [constructor|]. simpl. constructor.
  - destruct (Hf j) as [E1 E2]; [set_solver|]. destruct He. split; congruence.
  - apply IH. intros j' Hj'. apply Hf. set_solver.
Qed.

Lemma entries_same s s' b b' ids L :
  (∀ j, j ∈ ids → dat s' !! j = dat s !! j ∧ b' j = b j) →
  Forall2 (entry_at s b) ids L → Forall2 (entry_at s' b') ids L.
Proof. intros H HF. rw -(list_fmap_id ids). by apply (entries_mono s _ b _ id). Qed.

(** ** Comparisons along the list *)

Lemma entries_choice gt s b t ids L n j e :
  Inv s b t ids → Forall2 (entry_at s b) ids L → ids !! n = Some j → L !! n = Some e →
  choice gt s j = Some (gt e.1).
Proof.
  intros HI HF Hj He. destruct (R_ids _ _ _ _ _ j HI HF) as [Hj3 _]; [by eapply list_elem_of_lookup_2|].
  destruct (Forall2_lookup_lr _ _ _ _ _ _ HF Hj He) as [Hd _]. unfold choice, minv, maxv.
  rw !bool_decide_eq_false_2; [|lia..]. by rw Hd.
Qed.

(** [gt] never holds again once it has failed. *)
Definition gt_prefix (gt : Obj → bool) L : Prop :=
  ∀ n n' e e', n < n' → L !! n = Some e → L !! n' = Some e' → gt e'.1 = true → gt e.1 = true.

Lemma entries_downward gt s b t ids L :
  Inv s b t ids → Forall2 (entry_at s b) ids L → gt_prefix gt L → downward gt s (inorder t).
Proof.
  intros HI HF Hgt A i B HE Hi. rw (inv_order _ _ _ _ HI) in HE. apply Forall_lookup. intros n j Hj.
  assert ((1 :: ids ++ [2]) !! length A = Some i) as Hli by by rw HE list_lookup_middle.
  assert ((1 :: ids ++ [2]) !! n = Some j) as Hlj by (rw HE; by apply lookup_app_l_Some).
  apply lookup_lt_Some in Hj as Hn. destruct n as [|n]; simpl in Hlj; [by simplify_eq|].
  destruct (length A) as [|m]; [lia|]. simpl in Hli.
  assert (i ≠ 2) as Hi2 by (intros ->; done).
  apply lookup_app_Some in Hli as [Hli|[_ [_ ?]%list_lookup_singleton_Some]]; [|congruence].
  apply lookup_lt_Some in Hli as Hm. rw lookup_app_l in Hlj; [|lia].
  destruct (Forall2_lookup_l _ _ _ _ _ HF Hli) as (e' & He' & _).
  destruct (Forall2_lookup_l _ _ _ _ _ HF Hlj) as (e & He & _).
  rw (entries_choice gt s b t ids L m i e' HI HF Hli He') in Hi. injection Hi as Hi.
  rw (entries_choice gt s b t ids L n j e HI HF Hlj He). f_equal. eapply (Hgt n m); [lia|done..].
Qed.

Lemma Asc_gt_prefix `{!StrictWeak (Compare (Obj:=Obj) (Info:=Info))} v L :
  Asc L → gt_prefix (Compare v) L.
Proof.
  intros HA n n' e e' Hlt He He' Hgt.
  assert (Compare e.1 e'.1 = false) as Hle.
  { eapply (StronglySorted_lookup_lt (λ e e' : Obj * Obj, Compare e.1 e'.1 = false)); eauto. }
  destruct (Compare v e.1) eqn:Ev; [done|]. by rw (sw_ntrans _ _ _ Hle Ev) in Hgt.
Qed.

Lemma entries_Forall gt s b t ids I1 I2 L1 L2 (x : bool) :
  Inv s b t ids → ids = I1 ++ I2 → Forall2 (entry_at s b) I1 L1 → Forall2 (entry_at s b) I2 L2 →
  Forall (λ j, choice gt s j = Some x) I1 → Forall (λ e, gt e.1 = x) L1.
Proof.
  intros HI Hids H1 H2 HF. apply Forall_lookup. intros n e He.
  destruct (Forall2_lookup_r _ _ _ _ _ H1 He) as (j & Hj & _).
  assert (Forall2 (entry_at s b) ids (L1 ++ L2)) as HF2 by (rw Hids; by apply Forall2_app).
  eapply Forall_lookup in HF; [|done]. simpl in HF.
  rw (entries_choice gt s b t ids (L1 ++ L2) n j e HI HF2) in HF; [by injection HF| |].
  - rw Hids. by apply lookup_app_l_Some.
  - by apply lookup_app_l_Some.
Qed.

Lemma entries_Forall_r gt s b t ids I1 I2 L1 L2 (x : bool) :
  Inv s b t ids → ids = I1 ++ I2 → Forall2 (entry_at s b) I1 L1 → Forall2 (entry_at s b) I2 L2 →
  Forall (λ j, choice gt s j = Some x) I2 → Forall (λ e, gt e.1 = x) L2.
Proof.
  intros HI Hids H1 H2 HF. apply Forall_lookup. intros n e He.
  destruct (Forall2_lookup_r _ _ _ _ _ H2 He) as (j & Hj & _).
  assert (Forall2 (entry_at s b) ids (L1 ++ L2)) as HF2 by (rw Hids; by apply Forall2_app).
  eapply Forall_lookup in HF; [|done]. simpl in HF. pose proof (Forall2_length _ _ _ H1) as Hlen.
  rw (entries_choice gt s b t ids (L1 ++ L2) (length I1 + n) j e HI HF2) in HF; [by injection HF| |].
  - rw Hids lookup_app_r; [|lia]. by replace (length I1 + n - length I1) with n by lia.
  - rw lookup_app_r Hlen; [|lia]. by replace (length L1 + n - length L1) with n by lia.
Qed.

Lemma insert_sorted_split v L1 L2 :
  Forall (λ e, Compare v e.1 = true) L1 → Forall (λ e, Compare v e.1 = false) L2 →
  insert_sorted v (L1 ++ L2) = L1 ++ (v, v) :: L2.
Proof.
  intros H1 H2. induction H1 as [|e L1 He _ IH]; simpl; [|by rw He IH].
  destruct H2 as [|e L2 He _]; simpl; [done|]. by rw He.
Qed.

(** ** The operations *)

Lemma R_New (o : Obj) : R NewSplay [].
Proof.
  exists (λ _, o), (T E 1 (T E 2 E)), []. split; [|constructor]. split; simpl.
  - split_and!; [done..|]. eexists; split_and!; [done..|]. eexists; split_and!; done.
  - done.
  - apply (bool_decide_unpack _). by vm_compute.
  - intros j. rw !elem_of_cons elem_of_nil. lia.
  - done.
  - done.
  - intros [|[|[|j]]] k o' Hj; try lia. done.
  - intros k j. rw lookup_empty. split; [done|]. intros (Hj & o' & Ho). by destruct j as [|[|[|j]]]; try lia.
Qed.

Lemma R_Insert_new `{!StrictWeak (Compare (Obj:=Obj) (Info:=Info))} s L v :
  R s L → Key v ∉ keys L →
  ∃ s' L1 L2, Insert v s = Some (s', true) ∧ L = L1 ++ L2 ∧ R s' (L1 ++ (v, v) :: L2)
    ∧ (Asc L → L1 ++ (v, v) :: L2 = insert_sorted v L).
Proof.
  intros (b & t & ids & HI & HF) Hk. apply (R_hash_None _ _ _ _ _ _ HI HF) in Hk.
  destruct (Insert_new_ok s b t ids v HI Hk) as (s' & t' & I1 & I2 & E' & Hids & HI' & HD & Hch).
  pose proof HF as HF'. rw Hids in HF'. apply Forall2_app_inv_l in HF' as (L1 & L2 & H1 & H2 & ->).
  assert (∀ j, j ∈ ids → dat s' !! j = dat s !! j ∧ base_set b (S (count s)) v j = b j) as Hsame.
  { intros j Hj. destruct (R_ids _ _ _ _ _ j HI HF Hj). rw HD. split.
    - apply lookup_app_l. rw (inv_len _ _ _ _ HI). lia.
    - apply base_set_ne. lia. }
  exists s', L1, L2. split_and!; [done|done| |].
  - eexists _, t', _. split; [exact HI'|]. apply Forall2_app; [|constructor].
    + eapply entries_same; [|done]. intros j Hj. apply Hsame. set_solver.
    + split; [|by rw base_set_eq]. by rw HD lookup_app_r (inv_len _ _ _ _ HI) // Nat.sub_diag.
    + eapply entries_same; [|done]. intros j Hj. apply Hsame. set_solver.
  - intros HA. destruct Hch as [C1 C2]; [eapply entries_downward; [done..|]; by apply Asc_gt_prefix|].
    symmetry. apply insert_sorted_split;
      [by apply (entries_Forall _ s b t ids I1 I2 L1 L2)|by apply (entries_Forall_r _ s b t ids I1 I2 L1 L2)].
Qed.

Lemma replace_elsewhere v L : Key v ∉ keys L → replace v L = L.
Proof.
  intros Hk. unfold replace. rw -{2}(list_fmap_id L). apply list_fmap_ext. intros n e He. simpl.
  rw bool_decide_eq_false_2 //. intros Heq. apply Hk. rw -Heq. apply list_elem_of_fmap.
  exists e. split; [done|]. by eapply list_elem_of_lookup_2.
Qed.

Lemma keys_split L1 e L2 :
  NoDup (keys (L1 ++ e :: L2)) → Key e.1 ∉ keys L1 ∧ Key e.1 ∉ keys L2.
Proof.
  unfold keys. rw fmap_app fmap_cons NoDup_app NoDup_cons. intros (_ & Hd & Hn & _).
  split; [|done]. intros Hin. apply (Hd _ Hin). set_solver.
Qed.

Lemma R_Insert_old s L v :
  R s L → Key v ∈ keys L → ∃ s', Insert v s = Some (s', false) ∧ R s' (replace v L).
Proof.
  intros HR Hk. pose proof (R_keys_nodup _ _ HR) as HND. destruct HR as (b & t & ids & HI & HF).
  destruct (hash s !! Key v) as [i|] eqn:Hi; [|by apply (R_hash_None _ _ _ _ _ _ HI HF) in Hi].
  destruct (R_split _ _ _ _ _ _ _ HI HF Hi) as (I1 & I2 & L1 & e & L2 & -> & -> & Hke & H1 & [He Hb] & H2).
  destruct (Insert_old_ok s b t _ v i HI Hi) as (s' & E' & HI' & HD).
  destruct (keys_split _ _ _ HND) as [Hk1 Hk2]. rw Hke in Hk1. rw Hke in Hk2.
  assert (NoDup (I1 ++ i :: I2)) as HNDi.
  { pose proof (inv_nodup _ _ _ _ HI) as H. rw (inv_order _ _ _ _ HI) in H.
    apply NoDup_cons in H as [_ H]. by apply NoDup_app in H as [? _]. }
  assert (∀ j, j ≠ i → dat s' !! j = dat s !! j ∧ b j = b j) as Hsame.
  { intros j Hj. split; [|done]. by rw HD list_lookup_insert_ne. }
  exists s'. split; [done|]. exists b, t, (I1 ++ i :: I2). split; [done|].
  unfold replace. rw fmap_app fmap_cons /= bool_decide_eq_true_2 //.
  fold (replace v L1) (replace v L2). rw !replace_elsewhere //.
  apply NoDup_app in HNDi as (_ & Hd & [Hn _]%NoDup_cons). apply Forall2_app; [|constructor].
  - eapply entries_same; [|done]. intros j Hj. apply Hsame. intros ->. by apply (Hd i Hj); left.
  - split; [|done]. rw HD list_lookup_insert_eq //. apply lookup_lt_Some in He. done.
  - eapply entries_same; [|done]. intros j Hj. apply Hsame. by intros ->.
Qed.

Lemma remove_elsewhere k L : k ∉ keys L → remove k L = L.
Proof.
  intros Hk. apply filter_all. intros e He Heq. apply Hk. rw -Heq. apply list_elem_of_fmap. by exists e.
Qed.

Lemma R_Delete s L k :
  R s L → ∃ s', Delete k s = Some (s', bool_decide (k ∈ keys L)) ∧ R s' (remove k L).
Proof.
  intros HR. pose proof (R_keys_nodup _ _ HR) as HND. pose proof HR as (b & t & ids & HI & HF).
  destruct (hash s !! k) as [i|] eqn:Hi.
  2: { pose proof Hi as Hn%(R_hash_None _ _ _ _ _ _ HI HF). exists s. unfold Delete.
       rw Hi bool_decide_eq_false_2 // remove_elsewhere //. }
  destruct (R_split _ _ _ _ _ _ _ HI HF Hi) as (I1 & I2 & L1 & e & L2 & Hids & -> & Hke & H1 & [He Hb] & H2).
  destruct (keys_split _ _ _ HND) as [Hk1 Hk2]. rw Hke in Hk1. rw Hke in Hk2.
  destruct (Delete_ok s b t ids k i HI Hi) as (s' & t' & J1 & J2 & E' & Hids' & HI' & HD).
  exists s'. rw bool_decide_eq_true_2; [|unfold keys; rw fmap_app fmap_cons Hke; set_solver].
  split; [done|]. unfold remove. rw filter_app filter_cons_False; [|naive_solver].
  fold (remove k L1) (remove k L2). rw !remove_elsewhere //.
  eexists _, t', _. split; [exact HI'|].
  assert (NoDup ids) as HNDi.
  { pose proof (inv_nodup _ _ _ _ HI) as H. rw (inv_order _ _ _ _ HI) in H.
    apply NoDup_cons in H as [_ H]. by apply NoDup_app in H as [? _]. }
  assert (J1 = I1 ∧ J2 = I2) as [-> ->].
  { apply (NoDup_split_unique J1 J2 I1 I2 i); congruence. }
  apply (entries_mono s _ b); [|by apply Forall2_app]. intros j Hj.
  assert (j ∈ ids ∧ j ≠ i) as [Hj' Hji].
  { rw Hids in HNDi |- *. apply NoDup_app in HNDi as (_ & Hd & [Hn _]%NoDup_cons).
    apply elem_of_app in Hj as [Hj|Hj]; (split; [set_solver|intros ->]); [|done].
    by apply (Hd i Hj); left. }
  destruct (R_ids _ _ _ _ _ j HI HF Hj'). destruct (R_ids _ _ _ _ _ i HI HF); [rw Hids; set_solver|].
  unfold renamed. destruct (decide (j = count s)) as [->|Hne].
  - rw HD; [|lia]. unfold origin. by rw decide_True // base_set_eq.
  - rw HD; [|lia]. unfold origin. by rw decide_False // base_set_ne.
Qed.

Lemma find_entry_split k L1 e L2 :
  k ∉ keys L1 → Key e.1 = k → find_entry k (L1 ++ e :: L2) = Some e.1.
Proof.
  intros Hk He. unfold find_entry. rw filter_app (filter_none _ L1).
  - by rw filter_cons_True.
  - intros e' He' Heq. apply Hk. rw -Heq. apply list_elem_of_fmap. by exists e'.
Qed.

Lemma find_entry_None k L : k ∉ keys L → find_entry k L = None.
Proof.
  intros Hk. unfold find_entry. rw filter_none //. intros e' He' Heq. apply Hk. rw -Heq.
  apply list_elem_of_fmap. by exists e'.
Qed.

Lemma R_Get s L k : R s L → Get k s = Some (Stored <$> find_entry k L).
Proof.
  intros HR. pose proof (R_keys_nodup _ _ HR) as HND. pose proof HR as (b & t & ids & HI & HF).
  unfold Get. destruct (hash s !! k) as [i|] eqn:Hi.
  - destruct (R_split _ _ _ _ _ _ _ HI HF Hi) as (I1 & I2 & L1 & e & L2 & Hids & -> & Hke & H1 & [He Hb] & H2).
    destruct (keys_split _ _ _ HND) as [Hk1 Hk2]. rw find_entry_split //; [|congruence].
    unfold dat in He. apply list_lookup_fmap_Some in He as (nd & [= _ Ho] & ->). simpl. by rw -Ho.
  - apply (R_hash_None _ _ _ _ _ _ HI HF) in Hi. by rw find_entry_None.
Qed.

Lemma R_objs s b t ids L :
  Inv s b t ids → Forall2 (entry_at s b) ids L → objs s (inorder t) = (λ e, Stored e.1) <$> L.
Proof.
  intros HI HF. rw (inv_order _ _ _ _ HI). change (1 :: ids ++ [2]) with ([1] ++ ids ++ [2]).
  rw !objs_app /= app_nil_r. assert (∀ j, j ∈ ids → 3 ≤ j) as Hids.
  { intros j Hj. by destruct (R_ids _ _ _ _ _ j HI HF Hj). }
  clear HI. induction HF as [|j e ids L [He _] HF IH]; [done|]. unfold objs in *. simpl.
  assert (3 ≤ j) by (apply Hids; set_solver). rw !bool_decide_eq_false_2 /=; [|unfold minv, maxv; lia..].
  rw He /=. f_equal. apply IH. intros j' Hj'. apply Hids. set_solver.
Qed.

Lemma R_fuel s b t ids : Inv s b t ids → length (inorder t) < S (length (items s)).
Proof.
  intros HI. destruct (inv_count _ _ _ _ HI) as [-> _]. pose proof (inv_len _ _ _ _ HI) as H.
  rw length_dat in H. lia.
Qed.

Lemma R_Range {St} (f : St → StoredObj → St) st s L :
  R s L → Range f st s = Some (foldl f st ((λ e, Stored e.1) <$> L)).
Proof.
  intros (b & t & ids & HI & HF). unfold Range.
  rw (range_dfs_ok f s b t _ 0) //; [|by apply HI|by eapply R_fuel]. by rw (R_objs s b t ids L).
Qed.

(** A traversal whose visitor rejects everything after the first object it
    rejects visits the ones it accepts. *)
Lemma R_ConditionRange {St} (f : St → StoredObj → St * bool) (act : St → StoredObj → St)
    (keep : StoredObj → bool) st s L :
  R s L → gt_prefix (λ o, keep (Stored o)) L →
  (∀ st v, f st (Stored v) = if keep (Stored v) then (act st (Stored v), true) else (st, false)) →
  ConditionRange f st s
  = Some (foldl act st ((λ e, Stored e.1) <$> filter (λ e, keep (Stored e.1) = true) L)).
Proof.
  intros (b & t & ids & HI & HF) Hup Hf. unfold ConditionRange.
  rw (crange_dfs_ok f act keep s b t _ 0) //; [|by apply HI|by eapply R_fuel| |]; rw (R_objs s b t ids L) //.
  - do 2 f_equal. clear. induction L as [|e L IH]; [done|]. simpl. rw !filter_cons IH. by case_decide.
  - intros st' x (e & -> & _)%list_elem_of_fmap. apply Hf.
  - intros A o B HE Hk. apply Forall_lookup. intros n o' Ho'.
    destruct (keep o') eqn:Ek'; [|done]. exfalso.
    assert (((λ e, Stored e.1) <$> L) !! length A = Some o) as H1 by by rw HE list_lookup_middle.
    assert (((λ e, Stored e.1) <$> L) !! (length A + S n) = Some o') as H2.
    { rw HE lookup_app_r; [|lia]. by replace (length A + S n - length A) with (S n) by lia. }
    apply list_lookup_fmap_Some in H1 as (e & -> & H1). apply list_lookup_fmap_Some in H2 as (e' & -> & H2).
    rw (Hup (length A) (length A + S n) e e') // in Hk. lia.
Qed.

Lemma R_Len s L : R s L → Len s = Z.of_nat (length L).
Proof.
  intros (b & t & ids & HI & HF). unfold Len. destruct (inv_count _ _ _ _ HI) as [_ ->].
  rw (Forall2_length _ _ _ HF). lia.
Qed.

Lemma R_Clone s L : R s L → Clone s = Some s.
Proof. intros (b & t & ids & HI & HF). by eapply Clone_ok. Qed.

Lemma agg_Agg b t L s :
  (∀ j, j ∈ inorder t → 3 ≤ j) → Forall2 (entry_at s b) (inorder t) L → Agg (snd <$> L) (agg b t).
Proof.
  revert L. induction t as [|l IHl i r IHr]; intros L Hids HF; simpl in *.
  { apply Forall2_nil_inv_l in HF as ->. constructor. }
  apply Forall2_app_inv_l in HF as (L1 & L2' & H1 & H2 & ->).
  apply Forall2_cons_inv_l in H2 as (e & L2 & He & H2 & ->).
  assert (3 ≤ i) by (apply Hids; set_solver). rw decide_False; [|lia]. destruct He as [_ ->].
  rw fmap_app fmap_cons. constructor; [apply IHl|apply IHr]; try done; intros; apply Hids; set_solver.
Qed.

(** [Partition] leaves the entries as they are and returns the info of those the
    comparable is greater than. *)
Lemma R_Partition gt s L :
  R s L →
  ∃ s' m, Partition gt s = Some (s', Maintained <$> m) ∧ R s' L
    ∧ (gt_prefix gt L → Agg (snd <$> filter (λ e, gt e.1 = true) L) m).
Proof.
  intros (b & t & ids & HI & HF).
  destruct (Partition_ok gt s b t ids HI) as (s' & t' & tm & I1 & I2 & E' & HI' & S' & Hids & Hm & Hch).
  pose proof HF as HF'. rw Hids in HF'. apply Forall2_app_inv_l in HF' as (L1 & L2 & H1 & H2 & ->).
  exists s', (agg b tm). split_and!; [done| |].
  - exists b, t', ids. split; [done|]. eapply entries_same; [|done]. intros j _.
    by destruct S' as (_ & _ & -> & _).
  - intros Hgt. destruct Hch as [C1 C2]; [by eapply entries_downward|].
    rw filter_app (filter_all _ L1) ?(filter_none _ L2) ?app_nil_r.
    + apply (agg_Agg b tm L1 s); [|by rw Hm]. rw Hm. intros j Hj.
      destruct (R_ids _ _ _ _ _ j HI HF); [rw Hids; set_solver|lia].
    + intros e He. pose proof (entries_Forall_r gt s b t ids I1 I2 L1 L2 false HI Hids H1 H2 C2) as HA.
      eapply Forall_forall in HA; [|done]. congruence.
    + intros e He. pose proof (entries_Forall gt s b t ids I1 I2 L1 L2 true HI Hids H1 H2 C1) as HA.
      by eapply Forall_forall in HA; [|done].
Qed.

(** More fuel does not change what the splaying loop returns. *)
Lemma splay_loop_mono fuel fuel' x k s s' :
  fuel ≤ fuel' → splay_loop fuel x k s = Some s' → splay_loop fuel' x k s = Some s'.
Proof.
  revert fuel' s. induction fuel as [|f IH]; intros fuel' s Hle E'; [done|].
  destruct fuel' as [|f']; [lia|]. simpl in *.
  destruct (items s !! x) as [nx|]; [|done]. simpl in *. destruct (parent nx =? Z.of_nat k)%Z; [done|].
  destruct (index (parent nx)) as [y|]; [|done]. simpl in *. destruct (items s !! y) as [ny|]; [|done]. simpl in *.
  destruct (if (parent ny =? Z.of_nat k)%Z then _ else _) as [s1|]; [|done]. simpl in *.
  destruct (rotate x s1) as [s2|]; [|done]. simpl in *. apply IH; [lia|done].
Qed.

Lemma R_splay s L x :
  R s L → 1 ≤ x ≤ count s → ∃ s', splay_to x 0 s = Some s' ∧ root s' = x ∧ R s' L.
Proof.
  intros (b & t & ids & HI & HF) Hx.
  destruct (splay_root_ok s b t ids x HI) as (s' & t' & E' & HI' & S' & _ & Hr).
  { by apply (inv_ids _ _ _ _ HI). }
  exists s'. split_and!; [done..|]. exists b, t', ids. split; [done|].
  eapply entries_same; [|done]. intros j _. by destruct S' as (_ & _ & -> & _).
Qed.

(** ** Sequences of operations *)

Inductive Op := OpInsert v | OpDelete (k : string) | OpPartition (gt : Obj → bool).

(** What an operation returns. *)
Inductive Res := RInsert (added : bool) | RDelete (found : bool) | RPartition (m : option (@MaintainInfo Info)).

Definition exec (op : Op) s : option (splay * Res) :=
  match op with
  | OpInsert v => prod_map id RInsert <$> Insert v s
  | OpDelete k => prod_map id RDelete <$> Delete k s
  | OpPartition gt => prod_map id RPartition <$> Partition gt s
  end.
(** The tree after the operations and what each of them returned. *)
Fixpoint run (ops : list Op) s : option (splay * list Res) :=
  match ops with
  | [] => Some (s, [])
  | op :: ops => '(s, r) ← exec op s; '(s, rs) ← run ops s; Some (s, r :: rs)
  end.

Definition spec_step (op : Op) L : list (Obj * Obj) :=
  match op with
  | OpInsert v => spec_insert v L
  | OpDelete k => remove k L
  | OpPartition _ => L
  end.
Definition spec_run (ops : list Op) L : list (Obj * Obj) := foldl (λ L op, spec_step op L) L ops.

(** What the reference list says an operation returns: Insert whether the key is
    new, Delete whether it was there, Partition the info over exactly the objects
    the comparable is greater than, when these are the first of the list. *)
Definition res_ok (op : Op) L (r : Res) : Prop :=
  match op with
  | OpInsert v => r = RInsert (bool_decide (Key v ∉ keys L))
  | OpDelete k => r = RDelete (bool_decide (k ∈ keys L))
  | OpPartition gt => ∃ m, r = RPartition (Maintained <$> m)
      ∧ (gt_prefix gt L → Agg (snd <$> filter (λ e, gt e.1 = true) L) m)
  end.
Fixpoint results_ok (ops : list Op) L (rs : list Res) : Prop :=
  match ops, rs with
  | [], [] => True
  | op :: ops, r :: rs => res_ok op L r ∧ results_ok ops (spec_step op L) rs
  | _, _ => False
  end.

(** An object that replaces another is in the same place of the order.  Without
    this the list is no longer sorted: Insert leaves the new object where the
    old one was (splay.go:175, [insert_keeps_old_info]). *)
Definition op_ok (op : Op) L : Prop :=
  match op with
  | OpInsert v => ∀ o, find_entry (Key v) L = Some o →
      ∀ x, Compare v x = Compare o x ∧ Compare x v = Compare x o
  | _ => True
  end.
Fixpoint ops_ok (ops : list Op) L : Prop :=
  match ops with [] => True | op :: ops => op_ok op L ∧ ops_ok ops (spec_step op L) end.

Section ordered.
Context `{!StrictWeak (Compare (Obj:=Obj) (Info:=Info))}.

Lemma Asc_insert_sorted v L : Asc L → Asc (insert_sorted v L).
Proof.
  intros HA. induction HA as [|e L HA IH HF]; simpl; [repeat constructor|].
  destruct (Compare v e.1) eqn:Ev.
  - constructor; [done|]. apply Forall_forall. intros e' He'.
    assert (e' = (v, v) ∨ e' ∈ L) as [->|Hin].
    { clear -He'. induction L as [|x L IH]; simpl in *; [set_solver|]. destruct (Compare v x.1); set_solver. }
    + by apply sw_asym.
    + by eapply Forall_forall in HF.
  - constructor; [by constructor|]. constructor; [done|]. eapply Forall_impl; [done|]. simpl.
    intros e' He'. by eapply sw_ntrans.
Qed.

Lemma Asc_replace v L : Asc L → NoDup (keys L) → op_ok (OpInsert v) L → Asc (replace v L).
Proof.
  intros HA HND Hop. destruct (decide (Key v ∈ keys L)) as [Hin|Hn]; [|by rw replace_elsewhere].
  apply list_elem_of_fmap in Hin as (e & Hk & He). apply list_elem_of_split in He as (L1 & L2 & ->).
  destruct (keys_split _ _ _ HND) as [Hk1 Hk2]. rw -Hk in Hk1. rw -Hk in Hk2.
  assert (∀ x, Compare v x = Compare e.1 x ∧ Compare x v = Compare x e.1) as Hcmp.
  { apply Hop. by rw find_entry_split. }
  unfold replace. rw fmap_app fmap_cons bool_decide_eq_true_2 //. fold (replace v L1) (replace v L2).
  rw !replace_elsewhere //. unfold Asc in *. apply StronglySorted_app in HA as (H12 & H1 & H2).
  apply StronglySorted_app. split_and!; [|done|].
  - intros x1 x2 Hx1 [->|Hx2]%elem_of_cons; [|by apply H12; [|right]].
    simpl. rw (proj2 (Hcmp x1.1)). by apply H12; [|left].
  - inversion H2 as [|?? H2' HF]; subst. constructor; [done|]. eapply Forall_impl; [done|]. simpl.
    intros x. by rw (proj1 (Hcmp x.1)).
Qed.

Lemma exec_ok op s L :
  R s L → Asc L → op_ok op L →
  ∃ s' r, exec op s = Some (s', r) ∧ res_ok op L r ∧ R s' (spec_step op L) ∧ Asc (spec_step op L).
Proof.
  intros HR HA Hop. destruct op as [v|k|gt]; simpl.
  - unfold spec_insert. destruct (decide (Key v ∈ keys L)) as [Hin|Hn].
    + destruct (R_Insert_old s L v HR Hin) as (s' & -> & HR'). exists s', (RInsert false).
      rw bool_decide_eq_false_2; [|tauto]. split_and!; [done..|].
      by apply Asc_replace; [|eapply R_keys_nodup|].
    + destruct (R_Insert_new s L v HR Hn) as (s' & L1 & L2 & -> & _ & HR' & HE). exists s', (RInsert true).
      rw HE // in HR'. rw bool_decide_eq_true_2 //. split_and!; [done..|]. by apply Asc_insert_sorted.
  - destruct (R_Delete s L k HR) as (s' & -> & HR'). eexists s', _. split_and!; [done..|].
    by apply StronglySorted_filter.
  - destruct (R_Partition gt s L HR) as (s' & m & -> & HR' & Hm). eexists s', _. split_and!; [done| |done..].
    by exists m.
Qed.

Lemma run_ok ops s L :
  R s L → Asc L → ops_ok ops L →
  ∃ s' rs, run ops s = Some (s', rs) ∧ results_ok ops L rs ∧ R s' (spec_run ops L) ∧ Asc (spec_run ops L).
Proof.
  revert s L. induction ops as [|op ops IH]; intros s L HR HA Hok; [by exists s, []|].
  destruct Hok as [Hop Hok]. destruct (exec_ok op s L HR HA Hop) as (s' & r & E' & Hr & HR' & HA').
  destruct (IH s' _ HR' HA' Hok) as (s2 & rs & E2 & Hrs & HR2 & HA2).
  exists s2, (r :: rs). simpl. rw E' /= E2. by split_and!.
Qed.
End ordered.
End spec.

Arguments Op : clear implicits.

Lemma foldl_collect {A} (l l' : list A) : foldl (λ l x, l ++ [x]) l' l = l' ++ l.
Proof.
  revert l'. induction l as [|x l IH]; intros l'; simpl; [by rw app_nil_r|]. by rw IH -app_assoc.
Qed.

(** ** Theorems *)

Section theorems.
Context {Obj Info : Type} `{!StoredObjOps Obj Info} `{!StoredObjLaws Obj Info}.
Context `{!StrictWeak (Compare (Obj:=Obj) (Info:=Info))}.


(** Partition moves nothing: the tree holds the same objects in the same
    order, and the result is the info of a subtree over exactly the objects
    that are strictly smaller than the comparable, nil when there is none. *)
Theorem splay_partition_smaller (s : @splay Obj Info) L (gt : Obj → bool)
    (HR : R s L) (HA : Asc L)
    (Hgt : ∀ x y, Compare y x = false → gt x = true → gt y = true) :
  ∃ s' m, Partition gt s = Some (s', Maintained <$> m) ∧ R s' L
    ∧ Agg (snd <$> filter (λ e, gt e.1 = true) L) m
    ∧ (m = None ↔ filter (λ e, gt e.1 = true) L = []).
Proof.
  destruct (R_Partition gt s L HR) as (s' & m & E' & HR' & Hm).
  assert (gt_prefix gt L) as Hpre.
  { intros n n' e e' Hlt He He'. apply Hgt.
    eapply (StronglySorted_lookup_lt (λ e e' : Obj * Obj, Compare e.1 e'.1 = false)); eauto. }
  exists s', m. specialize (Hm Hpre). split_and!; [done..|]. inversion Hm as [Hn Hn'|l x r a c ? ? Hl].
  - symmetry in Hn. apply fmap_nil_inv in Hn. by rw Hn.
  - split; [done|]. intros Hnil. rw Hnil in Hl. by destruct l.
Qed.

(** C40: The splaying loop ends: in a tree that holds the entries [L], splaying
    any of its indices returns with that index at the root, and the entries are
    where they were.  The number of slots is enough fuel: with any more the loop
    returns the same tree. *)
Theorem splay_terminates (s : @splay Obj Info) L (x : nat) (HR : R s L) (Hx : 1 ≤ x ≤ count s) :
  ∃ s1 s', splay_to x 0 s = Some s' ∧ root s' = x ∧ R s' L ∧ s' = set_root x s1
    ∧ ∀ fuel, length (items s) ≤ fuel → splay_loop fuel x 0 s = Some s1.
Proof.
  destruct (R_splay s L x HR Hx) as (s' & E' & Hr & HR'). pose proof E' as E1. unfold splay_to in E1.
  destruct (splay_loop (length (items s)) x 0 s) as [s1|] eqn:El; [|done]. simpl in E1. injection E1 as <-.
  exists s1, (set_root x s1). split_and!; [done..|]. intros fuel Hf. by eapply splay_loop_mono.
Qed.
End theorems.

(** ** Concrete trees: objects are numbers with a key, the info is their sum *)
Module Examples.
Local Open Scope string_scope.

Definition obj := (string * Z)%type.
Definition info := (Z * Z)%type.
Definition sum_of (i : option info) : Z := match i with Some (_, t) => t | None => 0%Z end.

#[export] Instance obj_ops : StoredObjOps obj info := {
  Key := fst;
  Compare a b := (b.2 <? a.2)%Z;
  MakeMaintainInfo o := (o.2, o.2);
  Maintain i l r := (i.1, (i.1 + sum_of l + sum_of r)%Z)
}.
#[export] Instance obj_laws : StoredObjLaws obj info.
Proof. split; [done|]. intros [k v]; simpl. f_equal. lia. Qed.
#[export] Instance obj_order : StrictWeak (Compare (Obj:=obj) (Info:=info)).
Proof. split; intros x y; simpl; [|intros z]; rw ?Z.ltb_lt ?Z.ltb_ge; lia. Qed.

Definition ops5 : list (Op obj) :=
  [OpInsert ("c", 3%Z); OpInsert ("a", 1%Z); OpInsert ("b", 2%Z); OpDelete "c"; OpInsert ("d", 4%Z);
   OpPartition (λ o, (o.2 <? 4)%Z)].

Definition tree5 : @splay obj info := default NewSplay (fst <$> run ops5 NewSplay).

Lemma ops5_ok : ops_ok (Info:=info) ops5 [].
Proof. repeat split; done. Qed.

Lemma tree5_R :
  let L := [(("a", 1%Z), ("a", 1%Z)); (("b", 2%Z), ("b", 2%Z)); (("d", 4%Z), ("d", 4%Z))] in
  R tree5 L ∧ Asc (Info:=info) L.
Proof.
  destruct (run_ok ops5 NewSplay [] (R_New ("", 0%Z)) ltac:(constructor) ops5_ok)
    as (s & rs & E' & _ & HR & HA).
  unfold tree5. rw E'. exact (conj HR HA).
Qed.


Lemma splay_partition_smaller_witness :
  ∃ s m, Partition (λ o : obj, (o.2 <? 4)%Z) tree5 = Some (s, Maintained <$> m) ∧ m ≠ None.
Proof.
  destruct (splay_partition_smaller (Info:=info) tree5 _ (λ o : obj, (o.2 <? 4)%Z) (proj1 tree5_R) (proj2 tree5_R)) as (s & m & E' & _ & _ & Hm).
  - intros x y. simpl. rw !Z.ltb_lt Z.ltb_ge. lia.
  - exists s, m. split; [exact E'|]. intros Hn. by apply Hm in Hn.
Defined.

Lemma splay_terminates_witness : ∃ s, splay_to 4 0 tree5 = Some s ∧ root s = 4.
Proof.
  destruct (splay_terminates tree5 _ 4 (proj1 tree5_R)) as (s1 & s & E' & Hr & _).
  - replace (count tree5) with 5 by (vm_compute; reflexivity). lia.
  - exists s. exact (conj E' Hr).
Defined.

(** The tree after inserting 5, 1, 4, 2 and 3: 3 is at the root, with 1 and 2 on
    its left. *)
Definition tree_cr : @splay obj info :=
  default NewSplay (fst <$> run (OpInsert <$> [("e", 5%Z); ("a", 1%Z); ("d", 4%Z); ("b", 2%Z); ("c", 3%Z)]) NewSplay).

(** ConditionRange does not end the traversal when the visitor answers
    false, only the visit of the current subtree: on a tree of five objects a
    visitor that answers false on the second one is still called on the last three. *)
Theorem condition_range_goes_on :
  ConditionRange (λ l x, match x with Stored o => ((l ++ [o.2])%list, negb (o.2 =? 2)%Z)
                                 | _ => (l, true) end) [] tree_cr
  = Some [1; 2; 3; 4; 5]%Z.
Proof. vm_compute. reflexivity. Qed.

(** Insert of a key that is present replaces the object but neither its
    place nor the maintained info: after 1 is replaced by 10 under the same key,
    the object is still visited before 2, and Partition still counts 1 for it. *)
Theorem insert_keeps_old_info :
  let s := default NewSplay (fst <$> run [OpInsert ("a", 1%Z); OpInsert ("b", 2%Z); OpInsert ("a", 10%Z)] NewSplay) in
  Range (λ l x, match x with Stored o => (l ++ [o.2])%list | _ => l end) [] s = Some [10; 2]%Z
  ∧ snd <$> Partition (λ o : obj, (o.2 <? 100)%Z) s = Some (Some (Maintained (2, 3)%Z)).
Proof. vm_compute. split; reflexivity. Qed.
End Examples.
