(* ===== verification/HashSlice.v ===== *)
(** * Slices indexed by a hash (nodeinfo_podinfo.go, nodeinfo_hashslice.go)

    [PodInfoSliceImpl] and [NodeHashSliceImpl] are the same structure: a slice
    of objects and a map from their keys to their indices; an object is deleted
    by moving the last one into its place.  They differ in the key only. *)
From S2P Require Import Prelude.

Local Open Scope godel_scope.

Section hashslice.
Context {A : Type} (key : A → string).

Record HashSlice := mkHashSlice { hash : gmap string nat; items : list A; count : nat }.
Implicit Types hs : HashSlice.

Definition NewHashSlice : HashSlice := mkHashSlice ∅ [] 0.

(** [Add]; [None] is an index out of range. *)
Definition hs_Add (x : A) hs : option (HashSlice * bool) :=
  match hash hs !! key x with
  | None => Some (mkHashSlice (<[key x := count hs]> (hash hs)) (items hs ++ [x]) (S (count hs)), true)
  | Some p => l ← store p x (items hs); Some (mkHashSlice (hash hs) l (count hs), false)
  end.

Definition hs_Del (x : A) hs : option (HashSlice * bool) :=
  match hash hs !! key x with
  | None => Some (hs, false)
  | Some px =>
      let c := pred (count hs) in
      y ← items hs !! c;
      l ← store px y (items hs);
      let h := <[key y := px]> (hash hs) in
      let h := delete (key x) h in
      Some (mkHashSlice h (take c l) c, true)
  end.

Definition hs_Has (k : string) hs : bool := bool_decide (is_Some (hash hs !! k)).
Definition hs_Items hs : list A := items hs.
Definition hs_Len hs : nat := count hs.

(** [Clone]: the map entry by entry, the slice by [copy] into one of [count]
    elements. *)
Definition hs_Clone (order : gmap string nat → list (string * nat)) hs : HashSlice :=
  mkHashSlice (foldl (λ h kv, <[kv.1 := kv.2]> h) ∅ (order (hash hs))) (take (count hs) (items hs)) (count hs).

(** The slice holds exactly the objects of the map [M]. *)
Record HR hs (M : gmap string A) : Prop := {
  hr_count : count hs = length (items hs);
  hr_hash : ∀ k i, hash hs !! k = Some i ↔ ∃ x, items hs !! i = Some x ∧ key x = k;
  hr_map : ∀ k x, M !! k = Some x ↔ x ∈ items hs ∧ key x = k
}.

Lemma HR_New : HR NewHashSlice ∅.
Proof.
  split; [done|..]; intros k x; rw lookup_empty; (split; [done|]); simpl.
  - by intros (? & ? & _).
  - by intros [?%not_elem_of_nil _].
Qed.

Lemma HR_lookup hs M k i : HR hs M → hash hs !! k = Some i → ∃ x, items hs !! i = Some x ∧ key x = k ∧ M !! k = Some x.
Proof.
  intros HR' (x & Hx & Hk)%(hr_hash _ _ HR'). exists x. split_and!; [done..|].
  apply (hr_map _ _ HR'). split; [by eapply list_elem_of_lookup_2|done].
Qed.

Lemma HR_absent hs M k : HR hs M → hash hs !! k = None ↔ M !! k = None.
Proof.
  intros HR'. split; intros Hn; apply eq_None_not_Some.
  - intros [x (Hx & Hk)%(hr_map _ _ HR')]. apply list_elem_of_lookup in Hx as [i Hi].
    assert (hash hs !! k = Some i) by (apply (hr_hash _ _ HR'); eauto). congruence.
  - intros [i Hi]. destruct (HR_lookup _ _ _ _ HR' Hi) as (x & _ & _ & ?). congruence.
Qed.

(** A key has one index. *)
Lemma HR_inj hs M i j x y :
  HR hs M → items hs !! i = Some x → items hs !! j = Some y → key x = key y → i = j.
Proof.
  intros HR' Hi Hj Hk.
  assert (hash hs !! key x = Some i) by (apply (hr_hash _ _ HR'); eauto).
  assert (hash hs !! key x = Some j) by (apply (hr_hash _ _ HR'); eauto). congruence.
Qed.

Lemma HR_Add hs M x :
  HR hs M → ∃ hs', hs_Add x hs = Some (hs', bool_decide (M !! key x = None)) ∧ HR hs' (<[key x := x]> M).
Proof.
  intros HR'. unfold hs_Add. pose proof (hr_count _ _ HR') as Hc. destruct (hash hs !! key x) as [p|] eqn:Hp.
  - destruct (HR_lookup _ _ _ _ HR' Hp) as (z & Hz & Hkz & HM).
    rw store_Some; [|by eapply lookup_lt_Some]. simpl. eexists. rw bool_decide_eq_false_2; [|by rw HM].
    split; [done|]. pose proof (lookup_lt_Some _ _ _ Hz) as Hlt.
    assert (∀ i y, <[p:=x]> (items hs) !! i = Some y ↔
      (i = p ∧ y = x) ∨ (i ≠ p ∧ items hs !! i = Some y)) as Hl.
    { intros i y. destruct (decide (i = p)) as [->|Hne].
      - rw list_lookup_insert_eq //. naive_solver.
      - rw list_lookup_insert_ne //. naive_solver. }
    split; simpl.
    + by rw length_insert.
    + intros k i. rw (hr_hash _ _ HR'). setoid_rewrite Hl. destruct (decide (i = p)) as [->|Hne]; naive_solver.
    + intros k y. rw lookup_insert_Some (hr_map _ _ HR') !list_elem_of_lookup. setoid_rewrite Hl. split.
      * intros [[<- <-]|[Hk [[i Hi] Hky]]]; [by eauto 6|]. split; [|done]. exists i. right. split; [|done].
        intros ->. congruence.
      * intros [(i & [[-> ->]|[Hne Hi]]) Hk]; [by left|]. right. split; [|by eauto].
        intros Hk'. apply Hne. eapply (HR_inj hs M); [done..|]. congruence.
  - pose proof Hp as HM%(HR_absent _ _ _ HR'). eexists. rw bool_decide_eq_true_2 //. split; [done|]. split; simpl.
    + rw length_app /=. lia.
    + intros k i. rw lookup_insert_Some (hr_hash _ _ HR'). setoid_rewrite lookup_snoc_Some. split.
      * intros [[<- <-]|[Hk (y & Hy & Hky)]]; [by eauto|]. exists y. split; [|done].
        left. split; [by eapply lookup_lt_Some|done].
      * intros (y & [[Hlt Hy]|[-> <-]] & Hk); [|left; by rw Hc].
        right. split; [|by eauto]. intros <-.
        assert (hash hs !! key x = Some i) by (apply (hr_hash _ _ HR'); eauto). congruence.
    + intros k y. rw lookup_insert_Some (hr_map _ _ HR') elem_of_app list_elem_of_singleton. split.
      * intros [[<- <-]|[Hk [Hy Hky]]]; auto.
      * intros [[Hy| ->] Hk]; [|by left]. right. split; [|done]. intros <-.
        assert (M !! key x = Some y) by (apply (hr_map _ _ HR'); auto). congruence.
Qed.

Lemma HR_Del hs M x :
  HR hs M → ∃ hs', hs_Del x hs = Some (hs', bool_decide (is_Some (M !! key x))) ∧ HR hs' (delete (key x) M).
Proof.
  intros HR'. unfold hs_Del. pose proof (hr_count _ _ HR') as Hc. destruct (hash hs !! key x) as [p|] eqn:Hp.
  2: { pose proof Hp as HM%(HR_absent _ _ _ HR'). exists hs. rw HM bool_decide_eq_false_2; [|by apply is_Some_None].
       split; [done|]. by rw delete_id. }
  destruct (HR_lookup _ _ _ _ HR' Hp) as (z & Hz & Hkz & HM). pose proof (lookup_lt_Some _ _ _ Hz) as Hlt.
  destruct (lookup_lt_is_Some_2 (items hs) (pred (count hs))) as [y Hy]; [lia|].
  rw Hy /= store_Some //=. eexists. rw HM bool_decide_eq_true_2; [|done]. split; [done|].
  set (c := pred (count hs)) in *.
  assert (∀ i w, take c (<[p:=y]> (items hs)) !! i = Some w ↔
    i < c ∧ ((i = p ∧ w = y) ∨ (i ≠ p ∧ items hs !! i = Some w))) as Hl.
  { intros i w. rw lookup_take_Some. destruct (decide (i = p)) as [->|Hne].
    - rw list_lookup_insert_eq //. naive_solver.
    - rw list_lookup_insert_ne //. naive_solver. }
  assert (∀ i w, items hs !! i = Some w → i ≤ c) as Hle.
  { intros i w Hi%lookup_lt_Some. lia. }
  assert (∀ i w, items hs !! i = Some w → key w = key x → i = p) as Hxp.
  { intros i w Hi Hk. eapply (HR_inj hs M); [done..|]. congruence. }
  assert (∀ i w, items hs !! i = Some w → key w = key y → i = c) as Hyc.
  { intros i w Hi Hk. by eapply (HR_inj hs M). }
  split; simpl.
  - rw length_take length_insert. lia.
  - intros k i. rw lookup_delete_Some lookup_insert_Some (hr_hash _ _ HR'). setoid_rewrite Hl. split.
    + intros [Hk [[<- <-]|[Hky (w & Hw & Hkw)]]].
      * exists y. split; [|done]. split; [|by left]. pose proof (Hle _ _ Hz).
        destruct (decide (p = c)) as [->|]; [|lia]. rw Hy in Hz. congruence.
      * exists w. split; [|done]. pose proof (Hle _ _ Hw).
        assert (i ≠ c) by (intros ->; congruence). split; [lia|]. right. split; [|done].
        intros ->. congruence.
    + intros (w & (Hic & [[-> ->]|[Hne Hw]]) & <-).
      * split; [|by left]. intros Hk. specialize (Hxp c y Hy (eq_sym Hk)). lia.
      * split; [intros Hk; by apply Hne, (Hxp i w)|]. right. split; [|by eauto].
        intros Hk. specialize (Hyc i w Hw (eq_sym Hk)). lia.
  - intros k w. rw lookup_delete_Some (hr_map _ _ HR') !list_elem_of_lookup. setoid_rewrite Hl. split.
    + intros [Hk [[i Hi] <-]]. split; [|done]. pose proof (Hle _ _ Hi).
      destruct (decide (i = c)) as [->|Hne].
      * rw Hy in Hi. injection Hi as <-. exists p. pose proof (Hle _ _ Hz).
        assert (p ≠ c) by (intros ->; congruence). split; [lia|by left].
      * exists i. split; [lia|]. right. split; [|done]. intros ->. congruence.
    + intros [(i & Hic & [[-> ->]|[Hne Hi]]) <-].
      * split; [intros Hk; specialize (Hxp c y Hy (eq_sym Hk)); lia|by eauto].
      * split; [intros Hk; by apply Hne, (Hxp i w)|by eauto].
Qed.

Lemma HR_Items hs M : HR hs M → hs_Items hs ≡ₚ (map_to_list M).*2.
Proof.
  intros HR'. apply NoDup_Permutation.
  - apply NoDup_alt. intros i j x Hi Hj. by eapply (HR_inj hs M).
  - apply NoDup_fmap_2_strong; [|apply NoDup_map_to_list].
    intros [k1 x1] [k2 x2] H1%elem_of_map_to_list H2%elem_of_map_to_list Heq. simpl in Heq. subst x2.
    apply (hr_map _ _ HR') in H1 as [_ <-], H2 as [_ <-]. done.
  - intros x. rw list_elem_of_fmap. split.
    + intros Hx. exists (key x, x). split; [done|]. apply elem_of_map_to_list. by apply (hr_map _ _ HR').
    + intros ([k y] & -> & H%elem_of_map_to_list). by apply (hr_map _ _ HR') in H as [? _].
Qed.

Lemma HR_Len hs M : HR hs M → hs_Len hs = size M.
Proof.
  intros HR'. unfold hs_Len. rw (hr_count _ _ HR') -length_map_to_list -(length_fmap snd).
  by apply Permutation_length, HR_Items.
Qed.

Lemma HR_Has hs M k : HR hs M → hs_Has k hs = bool_decide (is_Some (M !! k)).
Proof.
  intros HR'. unfold hs_Has. pose proof (HR_absent hs M k HR').
  destruct (hash hs !! k), (M !! k); try by repeat case_bool_decide; naive_solver.
Qed.

Lemma HR_Clone order hs M :
  (∀ m, order m ≡ₚ map_to_list m) → HR hs M → hs_Clone order hs = hs.
Proof.
  intros Ho HR'. unfold hs_Clone. pose proof (hr_count _ _ HR') as Hc. rw Hc firstn_all -Hc.
  destruct hs as [h l c]; simpl in *. f_equal. by apply map_copy.
Qed.
End hashslice.

(** ** Theorem *)

(** A hash slice is a map from keys to objects: from any state in which it
    holds the objects of a map, Add and Del return without an index out of
    range, report whether the key was new (was present), and leave the slice
    holding the map with the key set (deleted); the number of items is the size
    of the map, the items are its values, and a clone is the same slice. *)
Theorem hash_slice_refines_map {A} (key : A → string) (hs : HashSlice) (M : gmap string A)
    (order : gmap string nat → list (string * nat)) (x : A)
    (Horder : ∀ m, order m ≡ₚ map_to_list m) (HR' : HR key hs M) :
  (∃ hs', hs_Add key x hs = Some (hs', bool_decide (M !! key x = None)) ∧ HR key hs' (<[key x := x]> M))
  ∧ (∃ hs', hs_Del key x hs = Some (hs', bool_decide (is_Some (M !! key x))) ∧ HR key hs' (delete (key x) M))
  ∧ hs_Len hs = size M ∧ hs_Items hs ≡ₚ (map_to_list M).*2
  ∧ (∀ k, hs_Has k hs = bool_decide (is_Some (M !! k))) ∧ hs_Clone order hs = hs.
Proof.
  split_and!; [by apply HR_Add|by apply HR_Del|by eapply HR_Len|by eapply HR_Items|
    intros; by eapply HR_Has|by eapply HR_Clone].
Qed.

Lemma hash_slice_refines_map_witness :
  ∃ hs hs', hs_Add (λ s : string, s) "b"%string (mkHashSlice {["a"%string := 0]} ["a"%string] 1) = Some (hs, true)
    ∧ hs_Del (λ s : string, s) "a"%string hs = Some (hs', true) ∧ hs_Items hs' = ["b"%string].
Proof.
  destruct (HR_Add (λ s : string, s) NewHashSlice ∅ "a"%string (HR_New _)) as (hs1 & E1 & H1).
  injection E1 as <-.
  destruct (hash_slice_refines_map (λ s : string, s) _ _ map_to_list "b"%string (λ m, Permutation_refl _) H1)
    as ((hs & E2 & H2) & _).
  exists hs. injection E2 as <-.
  eexists. split; [reflexivity|]. split; [reflexivity|reflexivity].
Defined.
