(* ===== verification/Resource.v ===== *)
(** * Resources and host ports (pkg/framework/api/types.go)

    [Resource], the vector of compute resources the scheduler counts with, and
    [HostPortInfo], the host ports taken on a node; with the resource-name
    predicates of pkg/util/helper/helpers.go and the default requests of
    pkg/util/non_zero.go.

    All amounts are Go [int64] and their arithmetic wraps.  The scalar resources
    are a map that may be nil, and a resource is observed through its
    [amount]s: [r ≡ r'] when they agree, whether a zero is absent, stored, or the
    map is nil.  Receivers are never nil here. *)
From S2P Require Import Prelude GoStrings PodModel.

Local Open Scope godel_scope.
Local Open Scope string_scope.

(** ** Names *)

(** [strings.HasPrefix] and [strings.Contains] *)
Definition HasPrefix (s p : string) : bool := String.prefix p s.
Fixpoint Contains (s sub : string) : bool :=
  String.prefix sub s || match s with String _ s => Contains s sub | EmptyString => false end.

Definition ResourceCPU : string := "cpu".
Definition ResourceMemory : string := "memory".
Definition ResourcePods : string := "pods".
Definition ResourceEphemeralStorage : string := "ephemeral-storage".

Definition IsPrefixedNativeResource (name : string) : bool := Contains name "kubernetes.io/".
Definition IsNativeResource (name : string) : bool :=
  negb (Contains name "/") || IsPrefixedNativeResource name.
Definition IsExtendedResourceName (name : string) : bool :=
  if IsNativeResource name || HasPrefix name "requests." then false else true.
Definition IsHugePageResourceName (name : string) : bool := HasPrefix name "hugepages-".
Definition IsAttachableVolumeResourceName (name : string) : bool := HasPrefix name "attachable-volumes-".
Definition IsScalarResourceName (name : string) : bool :=
  IsExtendedResourceName name || IsHugePageResourceName name
  || IsPrefixedNativeResource name || IsAttachableVolumeResourceName name.

(** ** Quantities

    [Value] and [MilliValue] round away from zero and return an int64. *)
Definition round_away (unit q : Z) : Z :=
  if (0 <=? q)%Z then ((q + unit - 1) / unit)%Z else (- ((- q + unit - 1) / unit))%Z.
Definition Value (q : Quantity) : Z := wrap64 (round_away (10 ^ 9) q).
Definition MilliValue (q : Quantity) : Z := wrap64 (round_away (10 ^ 6) q).
Definition NewQuantity (v : Z) : Quantity := (v * 10 ^ 9)%Z.
Definition NewMilliQuantity (v : Z) : Quantity := (v * 10 ^ 6)%Z.

(** ** Resource *)

Record Resource := mkResource {
  MilliCPU : Z; Memory : Z; EphemeralStorage : Z; AllowedPodNumber : Z;
  ScalarResources : option (gmap string Z)
}.

Definition zeroResource : Resource := mkResource 0 0 0 0 None.

Definition set_MilliCPU (v : Z) (r : Resource) : Resource :=
  mkResource v (Memory r) (EphemeralStorage r) (AllowedPodNumber r) (ScalarResources r).
Definition set_Memory (v : Z) (r : Resource) : Resource :=
  mkResource (MilliCPU r) v (EphemeralStorage r) (AllowedPodNumber r) (ScalarResources r).
Definition set_EphemeralStorage (v : Z) (r : Resource) : Resource :=
  mkResource (MilliCPU r) (Memory r) v (AllowedPodNumber r) (ScalarResources r).
Definition set_AllowedPodNumber (v : Z) (r : Resource) : Resource :=
  mkResource (MilliCPU r) (Memory r) (EphemeralStorage r) v (ScalarResources r).

(** [r.ScalarResources[name]], zero when absent or the map is nil. *)
Definition scalar (r : Resource) (name : string) : Z := default 0%Z (ScalarResources r ≫= (.!! name)).

Definition SetScalar (name : string) (quantity : Z) (r : Resource) : Resource :=
  mkResource (MilliCPU r) (Memory r) (EphemeralStorage r) (AllowedPodNumber r)
    (Some (<[name := quantity]> (default ∅ (ScalarResources r)))).
Definition AddScalar (name : string) (quantity : Z) (r : Resource) : Resource :=
  SetScalar name (wrap64 (scalar r name + quantity)) r.

Definition getScalarResourceQuantity (name : string) (r : Resource) : Z * bool :=
  if negb (IsScalarResourceName name) then (0%Z, false)
  else match ScalarResources r ≫= (.!! name) with
       | Some q => (q, true)
       | None => (0%Z, false)
       end.

Section resource.
(** The order in which [range] visits a map, and the feature gate
    LocalStorageCapacityIsolation. *)
Context (order : gmap string Z → list (string * Z)) (LocalStorageCapacityIsolation : bool).

Definition Add_entry (r : Resource) (kv : string * Quantity) : Resource :=
  let '(rName, rQuant) := kv in
  if rName ≟ ResourceCPU then set_MilliCPU (wrap64 (MilliCPU r + MilliValue rQuant)) r
  else if rName ≟ ResourceMemory then set_Memory (wrap64 (Memory r + Value rQuant)) r
  else if rName ≟ ResourcePods then
    set_AllowedPodNumber (wrap64 (AllowedPodNumber r + Value rQuant)) r
  else if rName ≟ ResourceEphemeralStorage then
    (if LocalStorageCapacityIsolation
     then set_EphemeralStorage (wrap64 (EphemeralStorage r + Value rQuant)) r else r)
  else if IsScalarResourceName rName then AddScalar rName (Value rQuant) r else r.
Definition Add (rl : ResourceList) (r : Resource) : Resource := foldl Add_entry r (order rl).

Definition Sub_entry (r : Resource) (kv : string * Quantity) : Resource :=
  let '(rName, rQuant) := kv in
  if rName ≟ ResourceCPU then set_MilliCPU (wrap64 (MilliCPU r - MilliValue rQuant)) r
  else if rName ≟ ResourceMemory then set_Memory (wrap64 (Memory r - Value rQuant)) r
  else if rName ≟ ResourcePods then
    set_AllowedPodNumber (wrap64 (AllowedPodNumber r - Value rQuant)) r
  else if rName ≟ ResourceEphemeralStorage then
    (if LocalStorageCapacityIsolation
     then set_EphemeralStorage (wrap64 (EphemeralStorage r - Value rQuant)) r else r)
  else if IsScalarResourceName rName then AddScalar rName (wrap64 (- Value rQuant)) r else r.
Definition Sub (rl : ResourceList) (r : Resource) : Resource := foldl Sub_entry r (order rl).

Definition NewResource (rl : ResourceList) : Resource := Add rl zeroResource.
Definition NewResourceFromPtr (rl : option ResourceList) : Resource :=
  match rl with None => zeroResource | Some rl => NewResource rl end.

Definition AddResource (resource r : Resource) : Resource :=
  let r := set_MilliCPU (wrap64 (MilliCPU r + MilliCPU resource)) r in
  let r := set_Memory (wrap64 (Memory r + Memory resource)) r in
  let r := set_AllowedPodNumber (wrap64 (AllowedPodNumber r + AllowedPodNumber resource)) r in
  let r := if LocalStorageCapacityIsolation
           then set_EphemeralStorage (wrap64 (EphemeralStorage r + EphemeralStorage resource)) r else r in
  foldl (λ r kv, match getScalarResourceQuantity kv.1 r with
                 | (quant, true) => SetScalar kv.1 (wrap64 (kv.2 + quant)) r
                 | (_, false) => SetScalar kv.1 kv.2 r
                 end) r (order (default ∅ (ScalarResources resource))).

Definition SubResource (resource r : Resource) : Resource :=
  let r := set_MilliCPU (wrap64 (MilliCPU r - MilliCPU resource)) r in
  let r := set_Memory (wrap64 (Memory r - Memory resource)) r in
  let r := set_AllowedPodNumber (wrap64 (AllowedPodNumber r - AllowedPodNumber resource)) r in
  let r := if LocalStorageCapacityIsolation
           then set_EphemeralStorage (wrap64 (EphemeralStorage r - EphemeralStorage resource)) r else r in
  foldl (λ r kv, SetScalar kv.1 (wrap64 ((getScalarResourceQuantity kv.1 r).1 - kv.2)) r)
    r (order (default ∅ (ScalarResources resource))).

(** [ResourceList]; the formats (binary or decimal) are not kept. *)
Definition toResourceList (r : Resource) : ResourceList :=
  foldl (λ result kv, <[kv.1 := NewQuantity kv.2]> result)
    (<[ResourceCPU := NewMilliQuantity (MilliCPU r)]>
     (<[ResourceMemory := NewQuantity (Memory r)]>
      (<[ResourcePods := NewQuantity (AllowedPodNumber r)]>
       (<[ResourceEphemeralStorage := NewQuantity (EphemeralStorage r)]> ∅))))
    (order (default ∅ (ScalarResources r))).

Definition Clone (r : Resource) : Resource :=
  let res := mkResource (MilliCPU r) (Memory r) (EphemeralStorage r) (AllowedPodNumber r) None in
  match ScalarResources r with
  | None => res
  | Some m =>
      mkResource (MilliCPU res) (Memory res) (EphemeralStorage res) (AllowedPodNumber res)
        (Some (foldl (λ acc kv, <[kv.1 := kv.2]> acc) ∅ (order m)))
  end.

Definition SetMax_entry (r : Resource) (kv : string * Quantity) : Resource :=
  let '(rName, rQuantity) := kv in
  if rName ≟ ResourceMemory then
    (if (Memory r <? Value rQuantity)%Z then set_Memory (Value rQuantity) r else r)
  else if rName ≟ ResourceCPU then
    (if (MilliCPU r <? MilliValue rQuantity)%Z then set_MilliCPU (MilliValue rQuantity) r else r)
  else if rName ≟ ResourceEphemeralStorage then
    (if (EphemeralStorage r <? Value rQuantity)%Z then set_EphemeralStorage (Value rQuantity) r else r)
  else if IsScalarResourceName rName then
    (if (scalar r rName <? Value rQuantity)%Z then SetScalar rName (Value rQuantity) r else r)
  else r.
Definition SetMaxResource (rl : ResourceList) (r : Resource) : Resource := foldl SetMax_entry r (order rl).

Definition SetMin_entry (r : Resource) (kv : string * Quantity) : Resource :=
  let '(rName, rQuantity) := kv in
  if rName ≟ ResourceMemory then
    (if (Value rQuantity <? Memory r)%Z then set_Memory (Value rQuantity) r else r)
  else if rName ≟ ResourceCPU then
    (if (MilliValue rQuantity <? MilliCPU r)%Z then set_MilliCPU (MilliValue rQuantity) r else r)
  else if rName ≟ ResourceEphemeralStorage then
    (if (Value rQuantity <? EphemeralStorage r)%Z then set_EphemeralStorage (Value rQuantity) r else r)
  else if IsScalarResourceName rName then
    (if (Value rQuantity <? scalar r rName)%Z then SetScalar rName (Value rQuantity) r else r)
  else r.
Definition SetMinResource (rl : ResourceList) (r : Resource) : Resource := foldl SetMin_entry r (order rl).

Definition Satisfy (request r : Resource) : bool :=
  if (0 <? MilliCPU request)%Z && (MilliCPU r <? MilliCPU request)%Z then false
  else if (0 <? Memory request)%Z && (Memory r <? Memory request)%Z then false
  else if LocalStorageCapacityIsolation && (0 <? EphemeralStorage request)%Z
          && (EphemeralStorage r <? EphemeralStorage request)%Z then false
  else forallb (λ kv, negb ((0 <? scalar request kv.1)%Z && (kv.2 <? scalar request kv.1)%Z))
         (order (default ∅ (ScalarResources r))).
End resource.

Definition IsZero (r : Resource) : bool :=
  (MilliCPU r =? 0)%Z && (Memory r =? 0)%Z && (EphemeralStorage r =? 0)%Z
  && (size (default ∅ (ScalarResources r)) ≟ 0%nat).

(** ** Default requests (pkg/util/non_zero.go) *)

Definition DefaultMilliCPURequest : Z := 100.
Definition DefaultMemoryRequest : Z := 200 * 1024 * 1024.

Definition GetNonzeroRequestForResource (LocalStorageCapacityIsolation : bool) (resource : string)
    (requests : ResourceList) : Z :=
  if resource ≟ ResourceCPU then
    match requests !! ResourceCPU with None => DefaultMilliCPURequest | Some q => MilliValue q end
  else if resource ≟ ResourceMemory then
    match requests !! ResourceMemory with None => DefaultMemoryRequest | Some q => Value q end
  else if resource ≟ ResourceEphemeralStorage then
    (if negb LocalStorageCapacityIsolation then 0%Z
     else match requests !! ResourceEphemeralStorage with None => 0%Z | Some q => Value q end)
  else if IsScalarResourceName resource then
    match requests !! resource with None => 0%Z | Some q => Value q end
  else 0%Z.

Definition GetNonzeroRequests (lsci : bool) (requests : ResourceList) : Z * Z :=
  (GetNonzeroRequestForResource lsci ResourceCPU requests,
   GetNonzeroRequestForResource lsci ResourceMemory requests).

(** ** Amounts *)

Inductive Dim := DCPU | DMem | DPods | DEph | DScalar (n : string).

#[export] Instance Dim_eq_dec : EqDecision Dim.
Proof. solve_decision. Defined.

Definition amount (r : Resource) (d : Dim) : Z :=
  match d with
  | DCPU => MilliCPU r
  | DMem => Memory r
  | DPods => AllowedPodNumber r
  | DEph => EphemeralStorage r
  | DScalar n => scalar r n
  end.

(** Two resources with the same amounts. *)
#[export] Instance Resource_equiv : Equiv Resource := λ r r', ∀ d, amount r d = amount r' d.
#[export] Instance Resource_equivalence : Equivalence (≡@{Resource}).
Proof. split; [by intros r d|by intros r r' H d|by intros r1 r2 r3 H1 H2 d; rw H1]. Qed.
#[export] Instance amount_proper : Proper ((≡) ==> (=) ==> (=)) amount.
Proof. intros r r' H d d' <-. apply H. Qed.

(** The name under which a resource list states a dimension, the unit it is
    read in, and whether it is counted at all. *)
Definition dim_name (d : Dim) : string :=
  match d with
  | DCPU => ResourceCPU | DMem => ResourceMemory | DPods => ResourcePods
  | DEph => ResourceEphemeralStorage | DScalar n => n
  end.
Definition dim_value (d : Dim) (q : Quantity) : Z :=
  match d with DCPU => MilliValue q | _ => Value q end.
Definition counted (lsci : bool) (d : Dim) : bool :=
  match d with DEph => lsci | DScalar n => IsScalarResourceName n | _ => true end.

(** What a resource list adds to a dimension. *)
Definition delta (lsci : bool) (rl : ResourceList) (d : Dim) : Z :=
  if counted lsci d then match rl !! dim_name d with Some q => dim_value d q | None => 0%Z end else 0%Z.

Definition native (n : string) : Prop :=
  n = ResourceCPU ∨ n = ResourceMemory ∨ n = ResourcePods ∨ n = ResourceEphemeralStorage.

Lemma native_not_scalar n : native n → IsScalarResourceName n = false.
Proof. by intros [->|[->|[->| ->]]]. Qed.

(** Amounts in the range of int64, and only scalar names in the scalar map. *)
Definition wf_resource (r : Resource) : Prop :=
  (∀ d, in_i64 (amount r d))
  ∧ (∀ n q, ScalarResources r ≫= (.!! n) = Some q → IsScalarResourceName n = true).

Lemma wf_zero : wf_resource zeroResource.
Proof. split; [|done]. intros []; by split; vm_compute. Qed.

Lemma amount_SetScalar n q r d :
  amount (SetScalar n q r) d = if decide (d = DScalar n) then q else amount r d.
Proof.
  destruct (decide (d = DScalar n)) as [->|Hd]; unfold amount, SetScalar, scalar; simpl.
  - by rw lookup_insert_eq.
  - destruct d; simpl; try done. rw lookup_insert_ne; [|congruence].
    by destruct (ScalarResources r).
Qed.

Ltac amount_cases :=
  repeat match goal with
  | |- context [bool_decide ?P] => case_bool_decide; subst
  | |- context [if ?b then _ else _] => destruct b eqn:?
  end.

(** A step over one entry changes only the dimension it names. *)
Definition entry_step (f : Resource → string * Z → Resource) (g : Dim → Z → Z → Z) : Prop :=
  (∀ r d q, amount (f r (dim_name d, q)) d = g d (amount r d) q)
  ∧ (∀ r d k q, k ≠ dim_name d → amount (f r (k, q)) d = amount r d).

Section lemmas.
Context (order : gmap string Z → list (string * Z)) (lsci : bool).
Context (Horder : ∀ m, order m ≡ₚ map_to_list m).

Lemma foldl_amount f g rl r d :
  entry_step f g →
  amount (foldl f r (order rl)) d
  = match rl !! dim_name d with None => amount r d | Some q => g d (amount r d) q end.
Proof.
  intros [H1 H2]. apply (foldl_entries order Horder f (λ r, amount r d) (g d) (dim_name d)); auto.
Qed.

Lemma Add_step :
  entry_step (Add_entry lsci) (λ d a q, if counted lsci d then wrap64 (a + dim_value d q) else a).
Proof.
  split.
  - intros r d q. destruct d as [| | | |n]; simpl; try done; [by destruct lsci|].
    destruct (decide (native n)) as [Hn|Hn].
    + rw (native_not_scalar n Hn). by destruct Hn as [->|[->|[->| ->]]]; [..|destruct lsci].
    + unfold native in Hn. rw !bool_decide_eq_false_2; [|tauto..]. destruct (IsScalarResourceName n); [|done].
      unfold AddScalar. pose proof (amount_SetScalar n (wrap64 (scalar r n + Value q)) r (DScalar n)) as H.
      by rw decide_True // in H.
  - intros r d k q Hk. unfold Add_entry. amount_cases; try done; try (by destruct d).
    unfold AddScalar. rw amount_SetScalar. rw decide_False //. by intros ->.
Qed.

(** A dimension's amount after a list is added or subtracted. *)
Lemma Add_amount rl r d :
  wf_resource r → amount (Add order lsci rl r) d = wrap64 (amount r d + delta lsci rl d).
Proof.
  intros [Hr _]. unfold Add. rw (foldl_amount _ _ _ _ _ Add_step) /delta.
  destruct (counted lsci d), (rl !! dim_name d); try done; by rw Z.add_0_r wrap64_id.
Qed.

Lemma Sub_step :
  entry_step (Sub_entry lsci) (λ d a q, if counted lsci d then wrap64 (a - dim_value d q) else a).
Proof.
  split.
  - intros r d q. destruct d as [| | | |n]; simpl; try done; [by destruct lsci|].
    destruct (decide (native n)) as [Hn|Hn].
    + rw (native_not_scalar n Hn). by destruct Hn as [->|[->|[->| ->]]]; [..|destruct lsci].
    + unfold native in Hn. rw !bool_decide_eq_false_2; [|tauto..]. destruct (IsScalarResourceName n); [|done].
      unfold AddScalar. rw wrap64_add_r Z.add_opp_r.
      pose proof (amount_SetScalar n (wrap64 (scalar r n - Value q)) r (DScalar n)) as H.
      by rw decide_True // in H.
  - intros r d k q Hk. unfold Sub_entry. amount_cases; try done; try (by destruct d).
    unfold AddScalar. rw amount_SetScalar. rw decide_False //. by intros ->.
Qed.

Lemma Sub_amount rl r d :
  wf_resource r → amount (Sub order lsci rl r) d = wrap64 (amount r d - delta lsci rl d).
Proof.
  intros [Hr _]. unfold Sub. rw (foldl_amount _ _ _ _ _ Sub_step) /delta.
  destruct (counted lsci d), (rl !! dim_name d); try done; by rw Z.sub_0_r wrap64_id.
Qed.

(** The steps keep resources well formed. *)
Definition scalar_names (r : Resource) : Prop :=
  ∀ n q, ScalarResources r ≫= (.!! n) = Some q → IsScalarResourceName n = true.

Lemma SetScalar_names n q r : scalar_names r → IsScalarResourceName n = true → scalar_names (SetScalar n q r).
Proof.
  intros Hr Hn n' q'. simpl. destruct (decide (n' = n)) as [->|Hne]; [done|].
  rw lookup_insert_ne //. intros H. apply (Hr n' q'). by destruct (ScalarResources r).
Qed.

Lemma foldl_names (f : Resource → string * Z → Resource) l r :
  (∀ r kv, scalar_names r → scalar_names (f r kv)) → scalar_names r →
  scalar_names (foldl f r l).
Proof. intros Hf. revert r. induction l as [|kv l IH]; intros r Hr; simpl; auto. Qed.

Lemma Add_wf rl r : wf_resource r → wf_resource (Add order lsci rl r).
Proof.
  intros Hwf. split.
  - intros d. rw Add_amount //. apply wrap64_range.
  - apply foldl_names; [|exact (proj2 Hwf)]. intros r' [k q] Hr'. unfold Add_entry.
    amount_cases; try done. by apply SetScalar_names.
Qed.

Lemma Sub_wf rl r : wf_resource r → wf_resource (Sub order lsci rl r).
Proof.
  intros Hwf. split.
  - intros d. rw Sub_amount //. apply wrap64_range.
  - apply foldl_names; [|exact (proj2 Hwf)]. intros r' [k q] Hr'. unfold Sub_entry.
    amount_cases; try done. by apply SetScalar_names.
Qed.

(** The scalar part of [AddResource] and [SubResource]. *)
Lemma getScalar_spec n r :
  IsScalarResourceName n = true →
  (getScalarResourceQuantity n r).1 = scalar r n
  ∧ ((getScalarResourceQuantity n r).2 = false → scalar r n = 0%Z).
Proof.
  intros Hn. unfold getScalarResourceQuantity, scalar. rw Hn /=.
  by destruct (ScalarResources r ≫= (.!! n)).
Qed.

Lemma lookup_scalars r n : default ∅ (ScalarResources r) !! n = ScalarResources r ≫= (.!! n).
Proof. destruct (ScalarResources r); [done|]. apply lookup_empty. Qed.

Lemma AddResource_amount r' r d :
  wf_resource r' → wf_resource r →
  amount (AddResource order lsci r' r) d
  = wrap64 (amount r d + if counted lsci d then amount r' d else 0%Z).
Proof.
  intros [Hr' Hn'] [Hr Hn]. unfold AddResource.
  set (f := λ (r : Resource) (kv : string * Z), match getScalarResourceQuantity kv.1 r with
    | (quant, true) => SetScalar kv.1 (wrap64 (kv.2 + quant)) r | (_, false) => SetScalar kv.1 kv.2 r end).
  set (r1 := if lsci then _ else _).
  assert (∀ d, (∀ n, d ≠ DScalar n) →
    amount r1 d = wrap64 (amount r d + if counted lsci d then amount r' d else 0%Z)) as Hnat.
  { intros d' Hd'. specialize (Hr d'). destruct d'; unfold r1; destruct lsci; simpl in *;
      rw ?Z.add_0_r //; try (symmetry; by apply wrap64_id); by destruct (Hd' n). }
  assert (∀ n, amount r1 (DScalar n) = amount r (DScalar n)) as Hsc by (intros n; unfold r1; by destruct lsci).
  assert (∀ l r0 d, (∀ n, d ≠ DScalar n) → amount (foldl f r0 l) d = amount r0 d) as Hfold.
  { induction l as [|[k q] l IH]; intros r0 d' Hd'; simpl; [done|]. rw IH // /f /=.
    destruct (getScalarResourceQuantity k r0) as [? []]; rw amount_SetScalar decide_False //. }
  destruct d as [| | | |n]; [by rw Hfold // Hnat..|]. simpl counted.
  rw (foldl_entries_in order Horder f (λ r, amount r (DScalar n))
        (λ a q, if IsScalarResourceName n then wrap64 (a + q) else q) n).
  - rw lookup_scalars Hsc. pose proof (Hr (DScalar n)) as Hrn. simpl in Hrn. simpl amount. unfold scalar in *.
    destruct (ScalarResources r' ≫= (.!! n)) as [q|] eqn:Eq; simpl.
    + by rw (Hn' _ _ Eq).
    + by destruct (IsScalarResourceName n); rw Z.add_0_r wrap64_id.
  - intros a q Hq. rw lookup_scalars in Hq. pose proof (Hn' _ _ Hq) as Hs. rw Hs.
    destruct (getScalar_spec n a Hs) as [G1 G2]. unfold f; cbn [fst snd].
    specialize (Hr' (DScalar n)). simpl in Hr'. unfold scalar in Hr' at 1. rw Hq /= in Hr'.
    destruct (getScalarResourceQuantity n a) as [x []]; simpl in G1, G2; rw amount_SetScalar decide_True //=.
    + by rw G1 Z.add_comm.
    + rw G2 // Z.add_0_l wrap64_id //.
  - intros a k v Hk. unfold f; cbn [fst snd]. destruct (getScalarResourceQuantity k a) as [? []];
      rw amount_SetScalar decide_False //; congruence.
Qed.

Lemma SubResource_amount r' r d :
  wf_resource r' → wf_resource r →
  amount (SubResource order lsci r' r) d
  = wrap64 (amount r d - if counted lsci d then amount r' d else 0%Z).
Proof.
  intros [Hr' Hn'] [Hr Hn]. unfold SubResource.
  set (f := λ (r : Resource) (kv : string * Z),
    SetScalar kv.1 (wrap64 ((getScalarResourceQuantity kv.1 r).1 - kv.2)) r).
  set (r1 := if lsci then _ else _).
  assert (∀ d, (∀ n, d ≠ DScalar n) →
    amount r1 d = wrap64 (amount r d - if counted lsci d then amount r' d else 0%Z)) as Hnat.
  { intros d' Hd'. specialize (Hr d'). destruct d'; unfold r1; destruct lsci; simpl in *;
      rw ?Z.sub_0_r //; try (symmetry; by apply wrap64_id); by destruct (Hd' n). }
  assert (∀ n, amount r1 (DScalar n) = amount r (DScalar n)) as Hsc by (intros n; unfold r1; by destruct lsci).
  assert (∀ l r0 d, (∀ n, d ≠ DScalar n) → amount (foldl f r0 l) d = amount r0 d) as Hfold.
  { induction l as [|[k q] l IH]; intros r0 d' Hd'; simpl; [done|]. rw IH // /f /=.
    rw amount_SetScalar decide_False //. }
  destruct d as [| | | |n]; [by rw Hfold // Hnat..|]. simpl counted.
  rw (foldl_entries_in order Horder f (λ r, amount r (DScalar n)) (λ a q, wrap64 (a - q)) n).
  - rw lookup_scalars Hsc. pose proof (Hr (DScalar n)) as Hrn. simpl in Hrn. simpl amount. unfold scalar in *.
    destruct (ScalarResources r' ≫= (.!! n)) as [q|] eqn:Eq; simpl.
    + by rw (Hn' _ _ Eq).
    + by destruct (IsScalarResourceName n); rw Z.sub_0_r wrap64_id.
  - intros a q Hq. rw lookup_scalars in Hq. pose proof (Hn' _ _ Hq) as Hs.
    unfold f; cbn [fst snd]. rw (proj1 (getScalar_spec n a Hs)). rw amount_SetScalar decide_True //.
  - intros a k v Hk. unfold f; cbn [fst snd]. rw amount_SetScalar decide_False //; congruence.
Qed.

Lemma AddResource_wf r' r : wf_resource r' → wf_resource r → wf_resource (AddResource order lsci r' r).
Proof.
  intros Hr' Hr. split.
  - intros d. rw AddResource_amount //. apply wrap64_range.
  - unfold AddResource. set (r1 := if lsci then _ else _).
    assert (scalar_names r1) as Hr1 by (unfold r1; destruct lsci; exact (proj2 Hr)).
    generalize (Horder (default ∅ (ScalarResources r'))). intros HP.
    assert (∀ kv, kv ∈ order (default ∅ (ScalarResources r')) → IsScalarResourceName kv.1 = true) as Hin.
    { intros [k q] Hk. rw HP elem_of_map_to_list lookup_scalars in Hk. by apply (proj2 Hr' k q). }
    clearbody r1. revert r1 Hr1 Hin. generalize (order (default ∅ (ScalarResources r'))). clear.
    intros l. induction l as [|kv l IH]; intros r1 Hr1 Hin; simpl; [done|].
    apply IH; [|intros; apply Hin; set_solver]. assert (IsScalarResourceName kv.1 = true) by (apply Hin; set_solver).
    destruct (getScalarResourceQuantity kv.1 r1) as [? []]; by apply SetScalar_names.
Qed.

(** ** Maxima *)

Lemma SetMax_step :
  entry_step SetMax_entry (λ d a q,
    match d with
    | DPods => a
    | DScalar n => if IsScalarResourceName n then Z.max a (Value q) else a
    | _ => Z.max a (dim_value d q)
    end).
Proof.
  split.
  - intros r d q. destruct d as [| | | |n]; simpl.
    1,2,4: case_match; simpl; lia.
    + done.
    + destruct (decide (native n)) as [Hn|Hn].
      * rw (native_not_scalar n Hn). destruct Hn as [->|[->|[->| ->]]]; simpl; try done; by case_match.
      * unfold native in Hn. rw !bool_decide_eq_false_2; [|tauto..]. destruct (IsScalarResourceName n); [|done].
        destruct (Z.ltb_spec (scalar r n) (Value q)) as [Hlt|Hge]; [|lia].
        pose proof (amount_SetScalar n (Value q) r (DScalar n)) as H. rw decide_True // in H. simpl in H. lia.
  - intros r d k q Hk. unfold SetMax_entry. amount_cases; try done; try (by destruct d).
    rw amount_SetScalar. rw decide_False //. by intros ->.
Qed.

Lemma SetMax_wf rl r : wf_resource r → wf_resource (SetMaxResource order rl r).
Proof.
  intros Hr. split.
  - intros d. unfold SetMaxResource. rw (foldl_amount _ _ _ _ _ SetMax_step).
    pose proof (proj1 Hr d) as Hd. destruct (rl !! dim_name d) as [q|]; [|done].
    assert (∀ q, in_i64 (Value q)) as HV by (intros; apply wrap64_range).
    assert (∀ q, in_i64 (MilliValue q)) as HM by (intros; apply wrap64_range).
    assert (∀ a c, in_i64 a → in_i64 c → in_i64 (Z.max a c)) as Hmax by (unfold in_i64; lia).
    destruct d; simpl in *; try done; auto. case_match; auto.
  - apply foldl_names; [|exact (proj2 Hr)]. intros r' [k q] Hr'. unfold SetMax_entry.
    amount_cases; try done. by apply SetScalar_names.
Qed.

(** ** Lists of a resource *)

Lemma round_away_exact unit v : (0 < unit)%Z → round_away unit (v * unit) = v.
Proof.
  intros Hu. unfold round_away. destruct (Z.leb_spec 0 (v * unit)).
  - replace (v * unit + unit - 1)%Z with (v * unit + (unit - 1))%Z by lia.
    rw Z.div_add_l; [|lia]. rw Z.div_small; lia.
  - replace (- (v * unit) + unit - 1)%Z with ((- v) * unit + (unit - 1))%Z by lia.
    rw Z.div_add_l; [|lia]. rw Z.div_small; lia.
Qed.

Lemma Value_NewQuantity v : in_i64 v → Value (NewQuantity v) = v.
Proof. intros. unfold Value, NewQuantity. rw round_away_exact //. by apply wrap64_id. Qed.
Lemma MilliValue_NewMilliQuantity v : in_i64 v → MilliValue (NewMilliQuantity v) = v.
Proof. intros. unfold MilliValue, NewMilliQuantity. rw round_away_exact //. by apply wrap64_id. Qed.

Lemma toResourceList_lookup r k :
  wf_resource r →
  toResourceList order r !! k =
    if k ≟ ResourceCPU then Some (NewMilliQuantity (MilliCPU r))
    else if k ≟ ResourceMemory then Some (NewQuantity (Memory r))
    else if k ≟ ResourcePods then Some (NewQuantity (AllowedPodNumber r))
    else if k ≟ ResourceEphemeralStorage then Some (NewQuantity (EphemeralStorage r))
    else NewQuantity <$> (ScalarResources r ≫= (.!! k)).
Proof.
  intros [_ Hn]. unfold toResourceList.
  rw (foldl_entries order Horder _ (λ m : ResourceList, m !! k) (λ _ q, Some (NewQuantity q)) k).
  - rw lookup_scalars. destruct (ScalarResources r ≫= (.!! k)) as [q|] eqn:E; simpl.
    + pose proof (Hn _ _ E) as Hs.
      assert (∀ n, native n → k ≠ n) as Hne by (intros n Hnn ->; by rw native_not_scalar in Hs).
      by rw !bool_decide_eq_false_2; [|apply Hne; unfold native; tauto..].
    + rw !lookup_insert lookup_empty. repeat case_bool_decide; subst; repeat case_decide; done || congruence.
  - intros a v. by rw /= lookup_insert_eq.
  - intros a k' v Hk. by rw /= lookup_insert_ne.
Qed.
End lemmas.

(** ** Host ports *)

Definition DefaultBindAllHostIP : string := "0.0.0.0".
Definition ProtocolTCP : string := "TCP".

(** [ProtocolPort]: the protocol and the port. *)
Definition ProtocolPort : Type := string * Z.
Definition NewProtocolPort (protocol : string) (port : Z) : ProtocolPort :=
  (if protocol ≟ "" then ProtocolTCP else protocol, port).

Definition HostPortInfo : Type := gmap string (gset ProtocolPort).

Definition sanitize (ip protocol : string) : string * string :=
  (if ip ≟ "" then DefaultBindAllHostIP else ip, if protocol ≟ "" then ProtocolTCP else protocol).

Definition ports_Add (ip protocol : string) (port : Z) (h : HostPortInfo) : HostPortInfo :=
  if (port <=? 0)%Z then h
  else
    let '(ip, protocol) := sanitize ip protocol in
    let pp := NewProtocolPort protocol port in
    match h !! ip with
    | None => <[ip := {[pp]}]> h
    | Some m => <[ip := {[pp]} ∪ m]> h
    end.

Definition ports_Remove (ip protocol : string) (port : Z) (h : HostPortInfo) : HostPortInfo :=
  if (port <=? 0)%Z then h
  else
    let '(ip, protocol) := sanitize ip protocol in
    let pp := NewProtocolPort protocol port in
    match h !! ip with
    | None => h
    | Some m => let m := m ∖ {[pp]} in
                if size m ≟ 0%nat then delete ip (<[ip := m]> h) else <[ip := m]> h
    end.

Definition ports_Len (h : HostPortInfo) : nat :=
  foldl (λ length kv, (length + size kv.2)%nat) 0%nat (map_to_list h).

Definition CheckConflict (ip protocol : string) (port : Z) (h : HostPortInfo) : bool :=
  if (port <=? 0)%Z then false
  else
    let '(ip, protocol) := sanitize ip protocol in
    let pp := NewProtocolPort protocol port in
    if ip ≟ DefaultBindAllHostIP then existsb (λ kv : string * gset ProtocolPort, bool_decide (pp ∈ kv.2)) (map_to_list h)
    else existsb (λ key, match h !! key with Some m => bool_decide (pp ∈ m) | None => false end)
           [DefaultBindAllHostIP; ip].

(** The entry [pp] is taken at address [ip]. *)
Definition taken (h : HostPortInfo) (ip : string) (pp : ProtocolPort) : Prop :=
  ∃ m, h !! ip = Some m ∧ pp ∈ m.

(** The address and port of a request as they are stored. *)
Definition port_ip (ip : string) : string := (sanitize ip "").1.
Definition port_pp (protocol : string) (port : Z) : ProtocolPort := NewProtocolPort (sanitize "" protocol).2 port.

Lemma sanitize_eq ip protocol port :
  sanitize ip protocol = (port_ip ip, (sanitize "" protocol).2)
  ∧ NewProtocolPort (sanitize "" protocol).2 port = port_pp protocol port.
Proof. by split. Qed.

Lemma taken_Add ip protocol port h ip' pp' :
  taken (ports_Add ip protocol port h) ip' pp' ↔
    taken h ip' pp' ∨ ((0 < port)%Z ∧ ip' = port_ip ip ∧ pp' = port_pp protocol port).
Proof.
  unfold ports_Add. destruct (Z.leb_spec port 0) as [Hp|Hp]; [split; [by left|intros [?|?]; [done|lia]]|].
  destruct (sanitize_eq ip protocol port) as [-> ->]. unfold taken.
  destruct (h !! port_ip ip) as [m|] eqn:Em; setoid_rewrite lookup_insert_Some.
  - split.
    + intros (m' & [[<- <-]|[Hne Hm']] & Hpp); [set_solver|left; eauto].
    + destruct (decide (port_ip ip = ip')) as [<-|Hne].
      * intros [(m' & Hm' & Hpp)|(_ & _ & ->)]; eexists; (split; [left; done|]); [|set_solver].
        rw Em in Hm'. set_solver.
      * intros [(m' & Hm' & Hpp)|(_ & -> & _)]; [|done]. exists m'. split; [by right|done].
  - split.
    + intros (m' & [[<- <-]|[Hne Hm']] & Hpp); [set_solver|left; eauto].
    + destruct (decide (port_ip ip = ip')) as [<-|Hne].
      * intros [(m' & Hm' & Hpp)|(_ & _ & ->)]; [congruence|]. eexists; (split; [left; done|]); set_solver.
      * intros [(m' & Hm' & Hpp)|(_ & -> & _)]; [|done]. exists m'. split; [by right|done].
Qed.

Lemma taken_Remove ip protocol port h ip' pp' :
  taken (ports_Remove ip protocol port h) ip' pp' ↔
    taken h ip' pp' ∧ ¬ ((0 < port)%Z ∧ ip' = port_ip ip ∧ pp' = port_pp protocol port).
Proof.
  unfold ports_Remove. destruct (Z.leb_spec port 0) as [Hp|Hp]; [split; [intros; split; [done|lia]|tauto]|].
  destruct (sanitize_eq ip protocol port) as [-> ->]. unfold taken.
  destruct (h !! port_ip ip) as [m|] eqn:Em.
  2: { split; [|naive_solver]. intros (m & Hm & Hpp). split; [eauto|]. intros (_ & -> & _). congruence. }
  set (pp := port_pp protocol port).
  assert (∀ h', (∀ i, i ≠ port_ip ip → h' !! i = h !! i) →
    (∀ x, taken h' (port_ip ip) x ↔ x ∈ m ∧ x ≠ pp) →
    taken h' ip' pp' ↔ taken h ip' pp' ∧ ¬ ((0 < port)%Z ∧ ip' = port_ip ip ∧ pp' = pp)) as Hgen.
  { intros h' Hne Heq. destruct (decide (ip' = port_ip ip)) as [->|Hn].
    - rw Heq. unfold taken. rw Em. naive_solver.
    - unfold taken. rw Hne //. naive_solver. }
  apply Hgen; [intros i Hi|intros x]; case_bool_decide as Hsz.
  - by rw lookup_delete_ne // lookup_insert_ne.
  - by rw lookup_insert_ne.
  - unfold taken. rw lookup_delete_eq. apply size_empty_inv in Hsz. split; [by intros (? & ? & _)|].
    intros [Hx Hne]. exfalso. apply (not_elem_of_empty (C:=gset ProtocolPort) x), Hsz. by apply elem_of_difference; split; [|apply not_elem_of_singleton].
  - unfold taken. rw lookup_insert_eq. split.
    + intros (? & [= <-] & [? ?%not_elem_of_singleton]%elem_of_difference). done.
    + intros [Hx Hne]. eexists. split; [done|]. by apply elem_of_difference; split; [|apply not_elem_of_singleton].
Qed.

(** ** Theorems *)

Section theorems.
Context (order : gmap string Z → list (string * Z)) (lsci : bool).

(** Subtracting what was added restores a resource: after Add and Sub of
    the same resource list, and after AddResource and SubResource of the same
    resource, every amount is what it was before, whatever the order in which
    the maps are visited and even when the sums wrap around. *)
Theorem resource_add_sub_roundtrip (r r' : Resource) (rl : ResourceList)
    (Horder : ∀ m, order m ≡ₚ map_to_list m) (Hr : wf_resource r) (Hr' : wf_resource r') :
  Sub order lsci rl (Add order lsci rl r) ≡ r
  ∧ SubResource order lsci r' (AddResource order lsci r' r) ≡ r.
Proof.
  split; intros d.
  - rw Sub_amount //; [|by apply Add_wf]. rw Add_amount // wrap64_sub_l Z.add_simpl_r wrap64_id //. apply Hr.
  - rw SubResource_amount //; [|by apply AddResource_wf].
    rw AddResource_amount // wrap64_sub_l Z.add_simpl_r wrap64_id //. apply Hr.
Qed.

(** Writing a resource as a resource list and reading it back gives the same
    amounts, when local storage is counted; otherwise only the ephemeral storage
    is lost. *)
Theorem resource_list_roundtrip (r : Resource)
    (Horder : ∀ m, order m ≡ₚ map_to_list m) (Hr : wf_resource r) :
  (lsci = true → NewResource order lsci (toResourceList order r) ≡ r)
  ∧ ∀ d, amount (NewResource order lsci (toResourceList order r)) d
         = if counted lsci d then amount r d else 0%Z.
Proof.
  assert (∀ d, amount (NewResource order lsci (toResourceList order r)) d
         = if counted lsci d then amount r d else 0%Z) as HE.
  { intros d. unfold NewResource. rw Add_amount //; [|apply wf_zero].
    replace (amount zeroResource d) with 0%Z by by destruct d. rw Z.add_0_l /delta toResourceList_lookup //.
    pose proof (proj1 Hr d) as Hd. destruct (counted lsci d) eqn:Ec; [|by rw wrap64_id].
    destruct d as [| | | |n]; simpl in *;
      [by rw ?Value_NewQuantity ?MilliValue_NewMilliQuantity // wrap64_id..|].
    assert (∀ n', native n' → n ≠ n') as Hne by (intros n' Hnn ->; by rw native_not_scalar in Ec).
    rw !bool_decide_eq_false_2; [|apply Hne; unfold native; tauto..]. unfold scalar in *.
    destruct (ScalarResources r ≫= (.!! n)); simpl in *; rw ?Value_NewQuantity // wrap64_id //. }
  split; [|done]. intros -> d. rw HE. destruct d; simpl; try done. destruct (IsScalarResourceName n) eqn:En; [done|].
  unfold scalar. destruct (ScalarResources r ≫= (.!! n)) eqn:E; [|done]. apply (proj2 Hr) in E. congruence.
Qed.

(** Satisfy answers whether the request fits: for CPU, memory, local storage
    (when counted) and every scalar resource the available list names, nothing
    is asked for or what is asked for is there.  A scalar resource that the
    available list does not name is not compared. *)
Theorem satisfy_iff_fits (r request : Resource) (Horder : ∀ m, order m ≡ₚ map_to_list m) :
  Satisfy order lsci request r = true ↔
    ∀ d, match d with
         | DPods => False | DEph => lsci = true
         | DScalar n => is_Some (ScalarResources r ≫= (.!! n)) | _ => True
         end →
    (amount request d ≤ 0 ∨ amount request d ≤ amount r d)%Z.
Proof.
  unfold Satisfy.
  assert (∀ a c : Z, (0 <? a)%Z && (c <? a)%Z = false ↔ (a ≤ 0 ∨ a ≤ c)%Z) as Hfit.
  { intros a c. rw andb_false_iff !Z.ltb_ge. lia. }
  split.
  - intros HS d Hd. apply Hfit. destruct ((0 <? MilliCPU request)%Z && _) eqn:E1; [done|].
    destruct ((0 <? Memory request)%Z && _) eqn:E2; [done|].
    destruct (lsci && _ && _) eqn:E3; [done|].
    destruct d as [| | | |n]; simpl; try done; [by rw Hd in E3|].
    destruct Hd as [q Hq]. apply forallb_forall with (x := (n, q)) in HS.
    + unfold scalar at 2. rw Hq /=. by apply negb_true_iff in HS.
    + apply list_elem_of_In. rw Horder elem_of_map_to_list. by rw lookup_scalars.
  - intros HS. pose proof (HS DCPU I) as H1. pose proof (HS DMem I) as H2. apply Hfit in H1, H2. simpl in H1, H2.
    rw H1 H2. assert (lsci && (0 <? EphemeralStorage request)%Z && (EphemeralStorage r <? EphemeralStorage request)%Z = false) as ->.
    { destruct lsci; [|done]. apply (Hfit (amount request DEph) (amount r DEph)), HS. done. }
    apply forallb_forall. intros [n q] Hin%list_elem_of_In. rw Horder elem_of_map_to_list lookup_scalars in Hin.
    apply negb_true_iff, Hfit. simpl. specialize (HS (DScalar n)). simpl in HS. unfold scalar in HS at 3.
    rw Hin /= in HS. apply HS. by exists q.
Qed.
End theorems.

Lemma check_conflict_iff ip protocol port h : CheckConflict ip protocol port h = true ↔
  (0 < port)%Z ∧ ∃ ip', taken h ip' (port_pp protocol port)
    ∧ (ip' = port_ip ip ∨ ip' = DefaultBindAllHostIP ∨ port_ip ip = DefaultBindAllHostIP).
Proof.
  unfold CheckConflict. destruct (Z.leb_spec port 0) as [Hp|Hp]; [split; [done|lia]|].
  destruct (sanitize_eq ip protocol port) as [-> ->]. case_bool_decide as Hw.
  - rw existsb_exists. split.
    + intros ([k m] & Hin%list_elem_of_In%elem_of_map_to_list & Hpp%bool_decide_eq_true). split; [done|].
      exists k. split; [by exists m|]. by right; right.
    + intros (_ & k & (m & Hm & Hpp) & _). exists (k, m).
      split; [by apply list_elem_of_In, elem_of_map_to_list|by apply bool_decide_eq_true].
  - rw existsb_exists. split.
    + intros (k & Hin%list_elem_of_In & Hk). split; [done|]. exists k.
      destruct (h !! k) as [m|] eqn:Em; [|done]. apply bool_decide_eq_true in Hk.
      split; [by exists m|]. apply elem_of_cons in Hin as [->|Hin]; [by auto|].
      apply list_elem_of_singleton in Hin as ->. by auto.
    + intros (_ & k & (m & Hm & Hpp) & Hor). exists k. split.
      * apply list_elem_of_In. destruct Hor as [->|[->|?]]; [right; left|left|done].
      * rw Hm. by apply bool_decide_eq_true.
Qed.

(** A port conflicts exactly when it is asked for (positive), and the same
    protocol and port is taken at the same address, or one of the two addresses
    is the wildcard.  Taking a port makes it conflict; releasing it frees that
    address, protocol and port and no other. *)
Theorem host_port_conflict_iff (h : HostPortInfo) (ip protocol : string) (port : Z) :
  (CheckConflict ip protocol port h = true ↔
    (0 < port)%Z ∧ ∃ ip', taken h ip' (port_pp protocol port)
      ∧ (ip' = port_ip ip ∨ ip' = DefaultBindAllHostIP ∨ port_ip ip = DefaultBindAllHostIP))
  ∧ ((0 < port)%Z → CheckConflict ip protocol port (ports_Add ip protocol port h) = true)
  ∧ (∀ ip' pp', taken (ports_Remove ip protocol port h) ip' pp' ↔
       taken h ip' pp' ∧ ¬ ((0 < port)%Z ∧ ip' = port_ip ip ∧ pp' = port_pp protocol port)).
Proof.
  split_and!; [apply check_conflict_iff| |intros; apply taken_Remove].
  intros Hp. apply check_conflict_iff. split; [done|]. exists (port_ip ip). split; [|by left]. apply taken_Add. by right.
Qed.

(** ** Concrete resources *)

Definition res_example : Resource :=
  mkResource 1500 4096 10 0 (Some {["nvidia.com/gpu" := 2%Z]}).
Definition rl_example : ResourceList :=
  <["cpu" := 2500000000%Z]> (<["nvidia.com/gpu" := 1000000000%Z]> ∅).

Lemma wf_res_example : wf_resource res_example.
Proof.
  split.
  - intros [| | | |n]; [by (split; vm_compute)..|]. simpl. unfold scalar; simpl.
    destruct (decide (n = "nvidia.com/gpu")) as [->|Hn].
    + rw lookup_singleton_eq /=. by (split; vm_compute).
    + by rw lookup_singleton_ne.
  - intros n q Hq. simpl in Hq. by apply lookup_singleton_Some in Hq as [<- _].
Qed.

Lemma resource_add_sub_roundtrip_witness :
  amount (Add map_to_list true rl_example res_example) DCPU = 4000%Z
  ∧ Sub map_to_list true rl_example (Add map_to_list true rl_example res_example) ≡ res_example.
Proof.
  split; [vm_compute; reflexivity|].
  exact (proj1 (resource_add_sub_roundtrip map_to_list true res_example res_example rl_example
    (λ m, Permutation_refl _) wf_res_example wf_res_example)).
Defined.

Lemma resource_list_roundtrip_witness :
  NewResource map_to_list true (toResourceList map_to_list res_example) ≡ res_example.
Proof.
  exact (proj1 (resource_list_roundtrip map_to_list true res_example (λ m, Permutation_refl _) wf_res_example) eq_refl).
Defined.

Lemma satisfy_iff_fits_witness : Satisfy map_to_list true (NewResource map_to_list true rl_example) res_example = false.
Proof.
  apply not_true_is_false. intros H.
  pose proof (proj1 (satisfy_iff_fits map_to_list true res_example (NewResource map_to_list true rl_example)
    (λ m, Permutation_refl _)) H DCPU I) as H'.
  revert H'. vm_compute. intros [H'|H']; by apply H'.
Defined.
