(* ===== verification/MicroTopo.v ===== *)
(** * The micro topology of a pod (pkg/util/utils.go)

    The annotation that records which NUMA nodes serve a pod and with how much,
    [MarshalMicroTopology] and [UnmarshalMicroTopology], with their round trip,
    and whether a pod is bound to NUMA nodes ([NeedConsiderTopology]).

    The printing and parsing of quantities (apimachinery) and the JSON decoder
    are parameters. *)
From S2P Require Import Prelude GoStrings PodModel PodState Resource.
From Stdlib Require Import Ascii.

Local Open Scope godel_scope.
Local Open Scope string_scope.
#[local] Arguments String.append : simpl nomatch.

Definition semicolon : ascii := ";"%char.
Definition comma_sep : ascii := ","%char.
Definition colon : ascii := ":"%char.
Definition equal_sign : ascii := "="%char.

(** [strings.TrimRight(s, c)] with a cutset of one byte. *)
Fixpoint TrimRight (c : ascii) (s : string) : string :=
  match s with
  | EmptyString => ""
  | String a s =>
      match TrimRight c s with
      | EmptyString => if bool_decide (a = c) then "" else String a ""
      | t => String a t
      end
  end.

(** ** NUMA binding *)

Definition MemoyEnhancementKey : string := "katalyst.kubewharf.io/memory_enhancement".
Definition NumaBindingKey : string := "numa_binding".
Definition NumaExclusiveKey : string := "numa_exclusive".
Definition MemoyEnhancementTrue : string := "true".

Section topology.
(** [json.Unmarshal] into an empty map of strings: what the map then holds,
    which the code uses also after an error. *)
Context (jsonStrings : string → gmap string string).

Definition memoryEnhancement (s : string) : bool * bool :=
  if s ≟ "" then (false, false)
  else
    let m := jsonStrings s in
    let numaBinding := default "" (m !! NumaBindingKey) ≟ MemoyEnhancementTrue in
    (numaBinding,
     match m !! NumaExclusiveKey with
     | Some v => v ≟ MemoyEnhancementTrue
     | None => numaBinding
     end).

Definition NeedConsiderTopology (p : Pod) : bool * bool :=
  if negb (default "" (anno_lookup p QoSLevelKey) ≟ DedicatedCores) then (false, false)
  else match anno_lookup p MemoyEnhancementKey with
       | Some s => memoryEnhancement s
       | None => (false, false)
       end.

Definition NeedNumaBinding (p : Pod) : bool * bool :=
  memoryEnhancement (default "" (anno_lookup p MemoyEnhancementKey)).

Definition IsSharedCores (p : Pod) : bool := negb (NeedConsiderTopology p).1.
End topology.

(** ** The annotation *)

Section micro.
(** [resource.ParseQuantity] ([None] is the error) and [Quantity.String]. *)
Context (ParseQuantity : string → option Quantity) (QString : Quantity → string).

(** One resource of one NUMA node. *)
Definition unmarshal_resource (acc : option ResourceList) (s : string) : option ResourceList :=
  rl ← acc;
  match Split equal_sign s with
  | [resourceName; quan] => q ← ParseQuantity quan; Some (<[resourceName := q]> rl)
  | _ => None
  end.

(** One NUMA node; the list of a node named before is extended. *)
Definition unmarshal_numa (acc : option (gmap Z ResourceList)) (s : string) : option (gmap Z ResourceList) :=
  res ← acc;
  match Split colon s with
  | [id; resources] =>
      numaId ← Atoi id;
      rl ← foldl unmarshal_resource (Some (default ∅ (res !! numaId))) (Split comma_sep resources);
      Some (<[numaId := rl]> res)
  | _ => None
  end.

(** [UnmarshalMicroTopology]; [None] is an error, the nil map is the empty one. *)
Definition UnmarshalMicroTopology (s : string) : option (gmap Z ResourceList) :=
  if (s ≟ "") || (s ≟ "null") then Some ∅
  else foldl unmarshal_numa (Some ∅) (Split semicolon s).

(** The orders in which [range] visits the two maps. *)
Context (norder : gmap Z (option ResourceList) → list (Z * option ResourceList)).
Context (rorder : ResourceList → list (string * Quantity)).

Definition marshal_resource (str : string) (kv : string * Quantity) : string :=
  str ++ kv.1 ++ String equal_sign (QString kv.2) ++ String comma_sep "".

Definition marshal_numa (str : string) (kv : Z * option ResourceList) : string :=
  let str := str ++ Itoa kv.1 ++ String colon "" in
  match kv.2 with
  | None => str
  | Some rl =>
      let str := foldl marshal_resource str (rorder rl) in
      let str := TrimRight comma_sep str in
      str ++ String semicolon ""
  end.

Definition MarshalMicroTopology (topology : gmap Z (option ResourceList)) : string :=
  TrimRight semicolon (foldl marshal_numa "" (norder topology)).
End micro.

(** ** Strings *)

Lemma str_app_assoc a b c : (a ++ b) ++ c = a ++ (b ++ c).
Proof. induction a as [|x a IH]; [done|]. cbn. by f_equal. Qed.
Lemma str_app_nil a : a ++ "" = a.
Proof. induction a as [|x a IH]; [done|]. cbn. by f_equal. Qed.

Lemma no_sep_app c a b : no_sep c (a ++ b) = no_sep c a && no_sep c b.
Proof. induction a as [|x a IH]; simpl; [done|]. by rw IH andb_assoc. Qed.

Lemma TrimRight_end c s : TrimRight c (s ++ String c "") = TrimRight c s.
Proof. induction s as [|x s IH]; simpl; [by rw bool_decide_true|]. by rw IH. Qed.

Lemma TrimRight_no_sep c s : no_sep c s = true → TrimRight c s = s.
Proof.
  induction s as [|x s IH]; simpl; [done|]. intros [Hx Hs]%andb_true_iff. rw IH //.
  destruct s; [|done]. case_bool_decide; [done|done].
Qed.

(** Nothing is trimmed from a string that ends in a non-empty part without the
    separator. *)
Lemma TrimRight_id c a t : t ≠ "" → no_sep c t = true → TrimRight c (a ++ t) = a ++ t.
Proof.
  intros Ht Hc. induction a as [|x a IH]; simpl; [by apply TrimRight_no_sep|]. rw IH.
  destruct (a ++ t) eqn:E; [|done]. destruct a; simpl in E; [by subst t|done].
Qed.

(** Pieces written with a separator after each, then trimmed, are joined. *)
Lemma foldl_pieces c (l : list string) s :
  foldl (λ str p, str ++ p ++ String c "") s l
  = match l with [] => s | _ => s ++ Join c l ++ String c "" end.
Proof.
  revert s. induction l as [|x l IH]; intros s; [done|]. simpl foldl. rw IH. destruct l as [|y l]; [done|].
  rw Join_cons !str_app_assoc. done.
Qed.

Lemma Join_last c l x : ∃ a, Join c (l ++ [x])%list = a ++ x.
Proof.
  induction l as [|y l [a IH]]; [by exists ""|]. exists (y ++ String c a). rw str_app_assoc /= -IH.
  destruct l; [done|]. done.
Qed.

Lemma trim_pieces c s l :
  l ≠ [] → Forall (λ p, p ≠ "" ∧ no_sep c p = true) l →
  TrimRight c (foldl (λ str p, str ++ p ++ String c "") s l) = s ++ Join c l.
Proof.
  intros Hl HF. rw foldl_pieces. destruct l as [|y l] using rev_ind; [done|]. clear Hl.
  apply Forall_app in HF as [_ [[Hx Hc] _]%Forall_cons]. destruct (Join_last c l y) as [a Ha].
  replace (match (l ++ [y])%list with [] => s | _ => s ++ Join c (l ++ [y]) ++ String c "" end)
    with (s ++ Join c (l ++ [y])%list ++ String c "") by by destruct l.
  rw -str_app_assoc TrimRight_end Ha -str_app_assoc. by apply TrimRight_id.
Qed.

Lemma no_sep_digit c d : char_digit c = None → (0 ≤ d < 10)%Z → digit_char d ≠ c.
Proof. intros Hc Hd <-. by rw char_digit_char in Hc. Qed.

Lemma no_sep_format c fuel n acc :
  char_digit c = None → (0 ≤ n)%Z → no_sep c acc = true → no_sep c (format_go fuel n acc) = true.
Proof.
  intros Hc. revert n acc. induction fuel as [|fuel IH]; intros n acc Hn Ha; cbn [format_go]; [done|].
  destruct (Z.ltb_spec n 10).
  - cbn [no_sep]. rw bool_decide_false; [by rw Ha|]. apply no_sep_digit; [done|lia].
  - apply IH; [by apply Z.div_pos; lia|]. cbn [no_sep]. rw bool_decide_false; [by rw Ha|]. apply no_sep_digit; [done|].
    apply Z.mod_pos_bound. lia.
Qed.

Lemma no_sep_Itoa c n : char_digit c = None → c ≠ "-"%char → no_sep c (Itoa n) = true.
Proof.
  intros Hc Hm. unfold Itoa. destruct (Z.ltb_spec n 0).
  - cbn [no_sep]. rw no_sep_format //; [|lia]. by rw bool_decide_false.
  - apply no_sep_format; [done|lia|done].
Qed.

(** ** The round trip *)

(** None of the separators occurs. *)
Definition plain (s : string) : bool :=
  no_sep semicolon s && no_sep comma_sep s && no_sep colon s && no_sep equal_sign s.

Lemma plain_seps s :
  plain s = true →
  no_sep semicolon s = true ∧ no_sep comma_sep s = true ∧ no_sep colon s = true ∧ no_sep equal_sign s = true.
Proof. unfold plain. rw !andb_true_iff. tauto. Qed.

Lemma plain_Itoa n : plain (Itoa n) = true.
Proof. unfold plain. by rw !no_sep_Itoa. Qed.

Lemma no_sep_Join c sep l :
  c ≠ sep → Forall (λ s, no_sep c s = true) l → no_sep c (Join sep l) = true.
Proof.
  intros Hc. induction l as [|x [|y l] IH]; [done|by intros [? _]%Forall_cons|].
  intros [Hx Hl]%Forall_cons. rw Join_cons no_sep_app Hx. cbn [no_sep]. rw bool_decide_false; [|congruence]. by apply IH.
Qed.

Section roundtrip.
Context (ParseQuantity : string → option Quantity) (QString : Quantity → string).
Context (rorder : ResourceList → list (string * Quantity)).
Context (Hrorder : ∀ m, rorder m ≡ₚ map_to_list m).

Definition entry (kv : string * Quantity) : string := kv.1 ++ String equal_sign (QString kv.2).
Definition piece (kv : Z * ResourceList) : string :=
  Itoa kv.1 ++ String colon (Join comma_sep (entry <$> rorder kv.2)).

(** What can be written: names and quantities without separators, and
    quantities that are read back. *)
Definition writable (kv : string * Quantity) : Prop :=
  plain kv.1 = true ∧ plain (QString kv.2) = true ∧ ParseQuantity (QString kv.2) = Some kv.2.
Definition writable_list (rl : ResourceList) : Prop := rl ≠ ∅ ∧ ∀ n q, rl !! n = Some q → writable (n, q).

Lemma writable_all rl : writable_list rl → Forall writable (rorder rl).
Proof.
  intros [_ H]. apply Forall_forall. intros [n q]. rw (Hrorder rl) elem_of_map_to_list. apply H.
Qed.

Lemma entry_seps kv :
  writable kv → entry kv ≠ "" ∧ no_sep semicolon (entry kv) = true ∧ no_sep comma_sep (entry kv) = true
    ∧ no_sep colon (entry kv) = true ∧ Split equal_sign (entry kv) = [kv.1; QString kv.2].
Proof.
  intros (Hn & Hq & _). apply plain_seps in Hn as (? & ? & ? & ?), Hq as (? & ? & ? & ?). unfold entry.
  split; [by destruct kv.1|]. rw !no_sep_app. cbn [no_sep]. rw !bool_decide_false //.
  split_and!; [by apply andb_true_iff..|]. rw Split_cons_sep // Split_no_sep //.
Qed.

Lemma marshal_resources rl s :
  writable_list rl → TrimRight comma_sep (foldl (marshal_resource QString) s (rorder rl))
  = s ++ Join comma_sep (entry <$> rorder rl).
Proof.
  intros Hw. pose proof (writable_all rl Hw) as HF. rw -trim_pieces.
  - f_equal. generalize (rorder rl) s. intros l. induction l as [|kv l IH]; intros s'; [done|]. simpl. rw -IH. f_equal.
    unfold marshal_resource, entry. by rw !str_app_assoc.
  - intros E%fmap_nil_inv. destruct Hw as [Hne _]. apply Hne. apply map_to_list_empty_iff.
    apply Permutation_nil. by rw -Hrorder E.
  - apply Forall_fmap. eapply Forall_impl; [exact HF|]. intros kv Hkv. by destruct (entry_seps kv Hkv) as (? & _ & ? & _).
Qed.

Lemma marshal_numa_piece s i rl :
  writable_list rl → marshal_numa QString rorder s (i, Some rl) = s ++ piece (i, rl) ++ String semicolon "".
Proof.
  intros Hw. unfold marshal_numa, piece. simpl. rw marshal_resources // !str_app_assoc. done.
Qed.

Lemma foldl_unmarshal_resource l rl :
  Forall writable l →
  foldl (unmarshal_resource ParseQuantity) (Some rl) (entry <$> l) = Some (foldl (λ acc kv, <[kv.1 := kv.2]> acc) rl l).
Proof.
  revert rl. induction l as [|kv l IH]; intros rl; [done|]. intros [Hkv Hl]%Forall_cons. simpl.
  destruct (entry_seps kv Hkv) as (_ & _ & _ & _ & ->). destruct Hkv as (_ & _ & ->). simpl. by apply IH.
Qed.

Lemma entries_ok rl :
  writable_list rl → (entry <$> rorder rl) ≠ [] ∧ Forall (λ s, no_sep comma_sep s = true) (entry <$> rorder rl)
  ∧ no_sep colon (Join comma_sep (entry <$> rorder rl)) = true
  ∧ no_sep semicolon (Join comma_sep (entry <$> rorder rl)) = true.
Proof.
  intros Hw. pose proof (writable_all rl Hw) as HF. split_and!.
  - intros E%fmap_nil_inv. destruct Hw as [Hne _]. apply Hne, map_to_list_empty_iff, Permutation_nil.
    by rw -Hrorder E.
  - apply Forall_fmap. eapply Forall_impl; [exact HF|]. intros kv Hkv. by destruct (entry_seps kv Hkv) as (_ & _ & ? & _).
  - apply no_sep_Join; [done|]. apply Forall_fmap. eapply Forall_impl; [exact HF|].
    intros kv Hkv. by destruct (entry_seps kv Hkv) as (_ & _ & _ & ? & _).
  - apply no_sep_Join; [done|]. apply Forall_fmap. eapply Forall_impl; [exact HF|].
    intros kv Hkv. by destruct (entry_seps kv Hkv) as (_ & ? & _).
Qed.

Lemma unmarshal_piece res i rl :
  in_i64 i → writable_list rl → res !! i = None →
  unmarshal_numa ParseQuantity (Some res) (piece (i, rl)) = Some (<[i := rl]> res).
Proof.
  intros Hi Hw Hn. destruct (entries_ok rl Hw) as (Hne & Hcomma & Hcolon & _).
  unfold unmarshal_numa, piece. simpl. destruct (plain_seps _ (plain_Itoa i)) as (_ & _ & ? & _).
  rw Split_cons_sep // Split_no_sep // Atoi_Itoa //. cbn [mbind option_bind]. rw Hn. simpl default.
  rw Split_Join // foldl_unmarshal_resource; [|by apply writable_all]. cbn [mbind option_bind]. by rw map_copy.
Qed.

Lemma foldl_unmarshal_numa l res :
  Forall (λ kv : Z * ResourceList, in_i64 kv.1 ∧ writable_list kv.2) l → NoDup l.*1 → (∀ i, i ∈ l.*1 → res !! i = None) →
  foldl (unmarshal_numa ParseQuantity) (Some res) (piece <$> l) = Some (foldl (λ acc kv, <[kv.1 := kv.2]> acc) res l).
Proof.
  revert res. induction l as [|[i rl] l IH]; intros res; [done|].
  intros [[Hi Hw] Hl]%Forall_cons [Hnot HND]%NoDup_cons Hfresh. simpl fmap. cbn [foldl].
  rw unmarshal_piece //; [|apply Hfresh; simpl; set_solver]. apply IH; [done|done|].
  intros j Hj. simpl. rw lookup_insert_ne; [|by intros ->]. apply Hfresh. simpl. set_solver.
Qed.

Lemma piece_seps i rl :
  writable_list rl → piece (i, rl) ≠ "" ∧ no_sep semicolon (piece (i, rl)) = true ∧ no_sep colon (piece (i, rl)) = false.
Proof.
  intros Hw. destruct (entries_ok rl Hw) as (_ & _ & _ & Hs). destruct (plain_seps _ (plain_Itoa i)) as (Hi & _ & _ & _).
  unfold piece. simpl. rw !no_sep_app. cbn [no_sep]. rw Hi Hs bool_decide_false // bool_decide_true //.
  split_and!; [by destruct (Itoa i)|done|by rw andb_false_r].
Qed.

Lemma marshal_pieces l :
  Forall (λ kv : Z * ResourceList, writable_list kv.2) l → l ≠ [] →
  TrimRight semicolon (foldl (marshal_numa QString rorder) "" ((λ kv, (kv.1, Some kv.2)) <$> l))
  = Join semicolon (piece <$> l).
Proof.
  intros HF Hl. transitivity ("" ++ Join semicolon (piece <$> l)); [|done]. rw -trim_pieces.
  - f_equal. assert (∀ s, foldl (marshal_numa QString rorder) s ((λ kv, (kv.1, Some kv.2)) <$> l)
      = foldl (λ str p, str ++ p ++ String semicolon "") s (piece <$> l)) as H; [|apply H].
    clear Hl. induction HF as [|[i rl] l Hw HF IH]; intros s; [done|]. simpl fmap. cbn [foldl].
    rw marshal_numa_piece //.
  - by intros ?%fmap_nil_inv.
  - apply Forall_fmap. eapply Forall_impl; [exact HF|]. intros [i rl] Hw. by destruct (piece_seps i rl Hw) as (? & ? & _).
Qed.

Lemma joined_not_null l :
  Forall (λ kv : Z * ResourceList, writable_list kv.2) l → l ≠ [] →
  Join semicolon (piece <$> l) ≠ "" ∧ Join semicolon (piece <$> l) ≠ "null".
Proof.
  intros HF Hl. assert (no_sep colon (Join semicolon (piece <$> l)) = false) as H; [|by split; intros E; rw E in H].
  destruct HF as [|[i rl] l Hw _]; [done|]. destruct (piece_seps i rl Hw) as (_ & _ & Hc).
  rw fmap_cons. destruct l as [|kv l]; [done|]. rw fmap_cons Join_cons no_sep_app Hc. done.
Qed.
End roundtrip.

(** ** Theorem *)

(** The micro topology annotation is read back as it was written: for any
    map from NUMA ids to non-empty resource lists whose names and printed
    quantities hold no separator, and whatever order the maps are iterated in,
    UnmarshalMicroTopology of MarshalMicroTopology's string is the map.  The
    only facts used of the quantity library are that the quantities in the map
    are read back from their printed form and that this form holds no
    separator. *)
Theorem micro_topology_roundtrip (ParseQuantity : string → option Quantity) (QString : Quantity → string)
    (norder : gmap Z (option ResourceList) → list (Z * option ResourceList))
    (rorder : ResourceList → list (string * Quantity)) (topology : gmap Z ResourceList)
    (Hnorder : ∀ m, norder m ≡ₚ map_to_list m) (Hrorder : ∀ m, rorder m ≡ₚ map_to_list m)
    (Hwritable : ∀ i rl, topology !! i = Some rl →
       in_i64 i ∧ rl ≠ ∅ ∧ ∀ n q, rl !! n = Some q →
         plain n = true ∧ plain (QString q) = true ∧ ParseQuantity (QString q) = Some q) :
  UnmarshalMicroTopology ParseQuantity (MarshalMicroTopology QString norder rorder (Some <$> topology)) = Some topology.
Proof.
  set (order m := (λ kv : Z * option ResourceList, (kv.1, default ∅ kv.2)) <$> norder (Some <$> m)).
  assert (∀ m : gmap Z ResourceList, norder (Some <$> m) = (λ kv, (kv.1, Some kv.2)) <$> order m) as Hn.
  { intros m. unfold order. rw -list_fmap_compose -{1}(list_fmap_id (norder _)).
    apply list_fmap_ext. intros k [i o] Hk. apply list_elem_of_lookup_2 in Hk. rw (Hnorder (Some <$> m)) in Hk.
    apply elem_of_map_to_list in Hk. simpl. rw lookup_fmap in Hk. destruct (m !! i); [|done]. by injection Hk as <-. }
  assert (∀ m : gmap Z ResourceList, order m ≡ₚ map_to_list m) as Ho.
  { intros m. unfold order. rw (Hnorder (Some <$> m)) map_to_list_fmap -list_fmap_compose.
    rw (list_fmap_ext _ id) ?list_fmap_id //. intros k [i rl] _. done. }
  assert (Forall (λ kv : Z * ResourceList, in_i64 kv.1 ∧ writable_list ParseQuantity QString kv.2) (order topology)) as HF.
  { apply Forall_forall. intros [i rl]. rw (Ho topology) elem_of_map_to_list. intros H.
    destruct (Hwritable i rl H) as (? & ? & ?). by split. }
  unfold MarshalMicroTopology. rw Hn. destruct (decide (order topology = [])) as [E|E].
  { rw E. assert (topology = ∅) as -> by (apply map_to_list_empty_iff, Permutation_nil; by rw -Ho E). done. }
  rw (marshal_pieces ParseQuantity) //; [|by eapply Forall_impl; [exact HF|intros ? []]].
  destruct (joined_not_null ParseQuantity QString rorder Hrorder (order topology)) as [H1 H2];
    [by eapply Forall_impl; [exact HF|intros ? []]|done|].
  unfold UnmarshalMicroTopology. rw !bool_decide_false //. simpl.
  rw Split_Join; [|by intros ?%fmap_nil_inv|].
  - rw foldl_unmarshal_numa //; [by rw map_copy|]. rw (Ho topology). apply NoDup_fst_map_to_list.
  - apply Forall_fmap. eapply Forall_impl; [exact HF|]. intros [i rl] [_ Hw]. simpl.
    by destruct (piece_seps ParseQuantity QString rorder Hrorder i rl Hw) as (_ & ? & _).
Qed.

(** The annotation of a pod that has a GPU on node 0 and 2 CPUs on node 3. *)
Definition topo_example : gmap Z ResourceList :=
  {[0%Z := {["gpu" := 1%Z]}; 3%Z := {["cpu" := 2%Z; "memory" := 40%Z]}]}.

Lemma micro_topology_roundtrip_witness :
  UnmarshalMicroTopology Atoi (MarshalMicroTopology Itoa map_to_list map_to_list (Some <$> topo_example))
  = Some topo_example.
Proof.
  apply (micro_topology_roundtrip Atoi Itoa map_to_list map_to_list topo_example);
    [intros; apply Permutation_refl..|].
  assert (map_Forall (λ i (rl : ResourceList), in_i64 i ∧ rl ≠ ∅ ∧ map_Forall (λ n q,
    plain n = true ∧ plain (Itoa q) = true ∧ Atoi (Itoa q) = Some q) rl) topo_example) as H.
  { apply (bool_decide_unpack _). vm_compute. exact I. }
  intros i rl Hi. destruct (H i rl Hi) as (? & ? & Hq). split; [done|]. split; [done|]. exact Hq.
Defined.

(** A node whose list is empty is written as "3:", which is not read back. *)
Example micro_topology_empty_list :
  UnmarshalMicroTopology Atoi (MarshalMicroTopology Itoa map_to_list map_to_list {[3%Z := Some ∅]}) = None.
Proof. vm_compute. reflexivity. Qed.
