(* ===== verification/PodInfos.v ===== *)
(** * The pods of a node (pkg/framework/api/nodeinfo_podinfo.go)

    [PodInfo] with its order and its maintained sums, [CalculateResource]
    (nodeinfo.go), and [PodInfoMaintainer]: the pods that may be preempted in two
    splay trees (guaranteed and best effort), with a count per priority, the
    others in a map; the pods with affinity in two hash slices; the placeholder
    pods of reservations in a map.

    The affinity terms, their parse error and the formatted labels of a [PodInfo]
    are not kept.  The feature gates are a record that every operation takes. *)
From S2P Require Import Prelude GoStrings PodModel PodState Splay SplayRefine SplayProps SplaySpec HashSlice Resource MicroTopo.

Local Open Scope godel_scope.
Local Open Scope string_scope.

Record FeatureGates := {
  LocalStorageCapacityIsolation : bool; PodOverhead : bool; ResourceReservation : bool
}.

(** ** Requests of a pod *)

Section calculate.
Context (order : gmap string Z → list (string * Z)) (gates : FeatureGates).

Abbreviation lsci := (LocalStorageCapacityIsolation gates).

Definition calc_container (acc : Resource * Z * Z) (c : Container) : Resource * Z * Z :=
  let '(res, non0CPU, non0Mem) := acc in
  let '(non0CPUReq, non0MemReq) := GetNonzeroRequests lsci (c_Requests c) in
  (Add order lsci (c_Requests c) res, wrap64 (non0CPU + non0CPUReq), wrap64 (non0Mem + non0MemReq)).

Definition calc_init (acc : Resource * Z * Z) (ic : Container) : Resource * Z * Z :=
  let '(res, non0CPU, non0Mem) := acc in
  let '(non0CPUReq, non0MemReq) := GetNonzeroRequests lsci (c_Requests ic) in
  (SetMaxResource order (c_Requests ic) res,
   if (non0CPU <? non0CPUReq)%Z then non0CPUReq else non0CPU,
   if (non0Mem <? non0MemReq)%Z then non0MemReq else non0Mem).

Definition CalculateResource (pod : Pod) : Resource * Z * Z :=
  let acc := foldl calc_container (zeroResource, 0%Z, 0%Z) (Containers pod) in
  let acc := foldl calc_init acc (InitContainers pod) in
  match Overhead pod with
  | Some oh =>
      if PodOverhead gates then
        let '(res, non0CPU, non0Mem) := acc in
        (Add order lsci oh res,
         match oh !! ResourceCPU with Some q => wrap64 (non0CPU + MilliValue q) | None => non0CPU end,
         match oh !! ResourceMemory with Some q => wrap64 (non0Mem + Value q) | None => non0Mem end)
      else acc
  | None => acc
  end.

(** ** PodInfo *)

Record PodPreemptionInfo := {
  CanBePreempted : Z; pi_StartTime : option Z; ProtectionDuration : Z;
  ProtectionDurationExist : bool; OwnerType : string; OwnerKey : string
}.

Record PodInfo := mkPodInfo {
  pi_Pod : Pod; Res : Resource; Non0CPU : Z; Non0Mem : Z;
  pi_ResourceType : option PodResourceType;
  PodKey : string; PodPriority : Z; pi_IsSharedCores : bool; PodGroupName : string;
  pi_Launcher : option PodLauncher; PreemptionInfo : PodPreemptionInfo
}.

(** The JSON decoder of the memory enhancement annotation. *)
Context (jsonStrings : string → gmap string string).

Definition NewPodInfo (pod : Pod) : PodInfo :=
  let '(res, non0CPU, non0Mem) := CalculateResource pod in
  let '(protectionDuration, protectionDurationExist) := GetProtectionDuration (Annotations pod) in
  let '(ownerType, ownerKey) := GetOwnerInfo pod in
  mkPodInfo pod res non0CPU non0Mem (GetPodResourceType pod) (UID pod) (GetPodPriority pod)
    (IsSharedCores jsonStrings pod) (GetPodGroupName pod) (GetPodLauncher pod)
    {| CanBePreempted := CanPodBePreempted pod; pi_StartTime := StartTime pod;
       ProtectionDuration := protectionDuration; ProtectionDurationExist := protectionDurationExist;
       OwnerType := ownerType; OwnerKey := ownerKey |}.
End calculate.

(** [PodInfo.Compare]: strictly greater by priority, then the one that started
    earlier (one that has started before one that has not), then by key. *)
Definition PodInfo_Compare (pi pi2 : PodInfo) : bool :=
  if negb (PodPriority pi =? PodPriority pi2)%Z then (PodPriority pi2 <? PodPriority pi)%Z
  else
    let byKey := String.ltb (PodKey pi2) (PodKey pi) in
    match pi_StartTime (PreemptionInfo pi), pi_StartTime (PreemptionInfo pi2) with
    | Some t, Some t2 => if negb (t =? t2)%Z then (t <? t2)%Z else byKey
    | None, None => byKey
    | Some _, None => true
    | None, Some _ => false
    end.

(** [PodMaintainableInfo]: the pod and the sums over its subtree. *)
Record PodMaintainableInfo := mkMaintainable { mi_PodInfo : PodInfo; mi_MilliCPU : Z; mi_Memory : Z }.

Definition mi_add (f : PodMaintainableInfo → Z) (acc : Z) (c : option PodMaintainableInfo) : Z :=
  match c with Some i => wrap64 (acc + f i) | None => acc end.

Definition PodInfo_Maintain (o : PodMaintainableInfo) (l r : option PodMaintainableInfo) : PodMaintainableInfo :=
  let p := mi_PodInfo o in
  mkMaintainable p (mi_add mi_MilliCPU (mi_add mi_MilliCPU (MilliCPU (Res p)) l) r)
    (mi_add mi_Memory (mi_add mi_Memory (Memory (Res p)) l) r).

Definition PodInfo_MakeMaintainInfo (pi : PodInfo) : PodMaintainableInfo :=
  mkMaintainable pi (MilliCPU (Res pi)) (Memory (Res pi)).

#[export] Instance PodInfo_stored : StoredObjOps PodInfo PodMaintainableInfo := {
  Key := PodKey;
  Compare := PodInfo_Compare;
  MakeMaintainInfo := PodInfo_MakeMaintainInfo;
  Maintain := PodInfo_Maintain
}.
#[export] Instance PodInfo_stored_laws : StoredObjLaws PodInfo PodMaintainableInfo.
Proof. by split. Qed.

(** ** The order of pods is a strict total order *)

Lemma ascii_compare_nat a b : Ascii.compare a b = N.compare (Ascii.N_of_ascii a) (Ascii.N_of_ascii b).
Proof. done. Qed.

Lemma string_compare_refl s : String.compare s s = Eq.
Proof. induction s as [|c s IH]; simpl; [done|]. by rw ascii_compare_nat N.compare_refl. Qed.

Lemma string_ltb_trans a b c : String.ltb a b = true → String.ltb b c = true → String.ltb a c = true.
Proof.
  unfold String.ltb. revert b c. induction a as [|x a IH]; intros [|y b] [|z c]; simpl; try done.
  rw !ascii_compare_nat.
  destruct (N.compare_spec (Ascii.N_of_ascii x) (Ascii.N_of_ascii y)) as [E1|L1|G1]; [|  |done].
  - rw E1. destruct (N.compare_spec (Ascii.N_of_ascii y) (Ascii.N_of_ascii z)); try done. apply IH.
  - destruct (N.compare_spec (Ascii.N_of_ascii y) (Ascii.N_of_ascii z)) as [E2|L2|G2]; [| |done]; intros.
    + rw -E2 (proj2 (N.compare_lt_iff _ _)) //.
    + rw (proj2 (N.compare_lt_iff _ _)) //. by etrans.
Qed.

Lemma string_ltb_total a b : String.ltb a b = false → String.ltb b a = false → a = b.
Proof.
  unfold String.ltb. rw (String.compare_antisym b a).
  destruct (String.compare a b) eqn:E; simpl; try done. by apply String.compare_eq_iff in E.
Qed.

Lemma string_ltb_asym a b : String.ltb a b = true → String.ltb b a = false.
Proof. unfold String.ltb. rw (String.compare_antisym b a). by destruct (String.compare a b). Qed.

#[export] Instance strict_weak_string_gtb : StrictWeak (λ a b, String.ltb b a).
Proof.
  split.
  - intros x y. apply string_ltb_asym.
  - intros x y z Hyx Hzy. destruct (String.ltb x z) eqn:Exz; [|done].
    destruct (String.ltb x y) eqn:Exy; [congruence|]. destruct (String.ltb y x) eqn:Eyx.
    + by rw (string_ltb_trans y x z Eyx Exz) in Hzy.
    + rw (string_ltb_total x y Exy Eyx) in Exz. congruence.
Qed.

(** The comparison by start time. *)
Definition started_first (a b : option Z) : bool :=
  match a, b with Some t, Some t2 => (t <? t2)%Z | Some _, None => true | None, _ => false end.

#[export] Instance strict_weak_started : StrictWeak started_first.
Proof.
  split.
  - intros [x|] [y|]; simpl; rw ?Z.ltb_lt ?Z.ltb_ge //; lia.
  - intros [x|] [y|] [z|]; simpl; rw ?Z.ltb_ge //; lia.
Qed.

Definition pi_key (p : PodInfo) : Z * option Z * string :=
  (PodPriority p, pi_StartTime (PreemptionInfo p), PodKey p).

Lemma PodInfo_Compare_lex pi pi2 :
  PodInfo_Compare pi pi2 =
    (if (PodPriority pi2 <? PodPriority pi)%Z then true
     else if (PodPriority pi <? PodPriority pi2)%Z then false
     else if started_first (pi_StartTime (PreemptionInfo pi)) (pi_StartTime (PreemptionInfo pi2)) then true
     else if started_first (pi_StartTime (PreemptionInfo pi2)) (pi_StartTime (PreemptionInfo pi)) then false
     else String.ltb (PodKey pi2) (PodKey pi)).
Proof.
  unfold PodInfo_Compare, started_first.
  destruct (Z.eqb_spec (PodPriority pi) (PodPriority pi2)) as [->|Hne]; simpl.
  - rw Z.ltb_irrefl. destruct (pi_StartTime (PreemptionInfo pi)) as [t|], (pi_StartTime (PreemptionInfo pi2)) as [t2|]; try done.
    destruct (Z.eqb_spec t t2) as [->|Ht]; simpl; [by rw Z.ltb_irrefl|].
    destruct (Z.ltb_spec t t2); [done|]. destruct (Z.ltb_spec t2 t); [done|lia].
  - destruct (Z.ltb_spec (PodPriority pi2) (PodPriority pi)); [done|].
    destruct (Z.ltb_spec (PodPriority pi) (PodPriority pi2)); [done|lia].
Qed.

#[export] Instance PodInfo_order : StrictWeak (Compare (Obj:=PodInfo) (Info:=PodMaintainableInfo)).
Proof.
  assert (StrictWeak (λ x y : PodInfo, if (PodPriority y <? PodPriority x)%Z then true
    else if (PodPriority x <? PodPriority y)%Z then false
    else if started_first (pi_StartTime (PreemptionInfo x)) (pi_StartTime (PreemptionInfo y)) then true
    else if started_first (pi_StartTime (PreemptionInfo y)) (pi_StartTime (PreemptionInfo x)) then false
    else String.ltb (PodKey y) (PodKey x))) as [Ha Hn].
  { apply (strict_weak_lex (λ x y : PodInfo, (PodPriority y <? PodPriority x)%Z)
      (λ x y, if started_first (pi_StartTime (PreemptionInfo x)) (pi_StartTime (PreemptionInfo y)) then true
        else if started_first (pi_StartTime (PreemptionInfo y)) (pi_StartTime (PreemptionInfo x)) then false
        else String.ltb (PodKey y) (PodKey x))).
    - apply (strict_weak_key PodPriority (λ a b, (b <? a)%Z)).
      split; intros *; rw ?Z.ltb_lt ?Z.ltb_ge; lia.
    - apply (strict_weak_lex (λ x y : PodInfo, started_first (pi_StartTime (PreemptionInfo x)) (pi_StartTime (PreemptionInfo y)))
        (λ x y, String.ltb (PodKey y) (PodKey x))).
      + apply (strict_weak_key (λ p, pi_StartTime (PreemptionInfo p)) started_first), _.
      + apply (strict_weak_key PodKey (λ a b, String.ltb b a)), _. }
  split; intros *; simpl; rw !PodInfo_Compare_lex; [apply Ha|apply Hn].
Qed.

Lemma PodInfo_Compare_priority x y :
  PodInfo_Compare x y = false → (PodPriority x ≤ PodPriority y)%Z.
Proof. rw PodInfo_Compare_lex. destruct (Z.ltb_spec (PodPriority y) (PodPriority x)); [done|]. lia. Qed.

(** ** PodInfoMaintainer *)

Abbreviation PodSplay := (@splay PodInfo PodMaintainableInfo).
Abbreviation PodInfoSlice := (@HashSlice PodInfo).

Record PodInfoMaintainer := mkMaintainer {
  bePodsMayBePreempted : PodSplay;
  prioritiesForBEPodsMayBePreempted : gmap Z Z;
  prioritiesSliceForBEPodsMayBePreempted : list Z;
  gtPodsMayBePreempted : PodSplay;
  prioritiesForGTPodsMayBePreempted : gmap Z Z;
  prioritiesSliceForGTPodsMayBePreempted : list Z;
  neverBePreempted : gmap string PodInfo;
  reserved : gmap string PodInfo;
  podsWithAffinity : PodInfoSlice;
  podsWithRequiredAntiAffinity : PodInfoSlice
}.

Definition set_bePods (s : PodSplay) (pr : gmap Z Z) (m : PodInfoMaintainer) : PodInfoMaintainer :=
  mkMaintainer s pr (prioritiesSliceForBEPodsMayBePreempted m) (gtPodsMayBePreempted m)
    (prioritiesForGTPodsMayBePreempted m) (prioritiesSliceForGTPodsMayBePreempted m)
    (neverBePreempted m) (reserved m) (podsWithAffinity m) (podsWithRequiredAntiAffinity m).
Definition set_gtPods (s : PodSplay) (pr : gmap Z Z) (m : PodInfoMaintainer) : PodInfoMaintainer :=
  mkMaintainer (bePodsMayBePreempted m) (prioritiesForBEPodsMayBePreempted m)
    (prioritiesSliceForBEPodsMayBePreempted m) s pr (prioritiesSliceForGTPodsMayBePreempted m)
    (neverBePreempted m) (reserved m) (podsWithAffinity m) (podsWithRequiredAntiAffinity m).
Definition set_never (n : gmap string PodInfo) (m : PodInfoMaintainer) : PodInfoMaintainer :=
  mkMaintainer (bePodsMayBePreempted m) (prioritiesForBEPodsMayBePreempted m)
    (prioritiesSliceForBEPodsMayBePreempted m) (gtPodsMayBePreempted m)
    (prioritiesForGTPodsMayBePreempted m) (prioritiesSliceForGTPodsMayBePreempted m)
    n (reserved m) (podsWithAffinity m) (podsWithRequiredAntiAffinity m).
Definition set_reserved (r : gmap string PodInfo) (m : PodInfoMaintainer) : PodInfoMaintainer :=
  mkMaintainer (bePodsMayBePreempted m) (prioritiesForBEPodsMayBePreempted m)
    (prioritiesSliceForBEPodsMayBePreempted m) (gtPodsMayBePreempted m)
    (prioritiesForGTPodsMayBePreempted m) (prioritiesSliceForGTPodsMayBePreempted m)
    (neverBePreempted m) r (podsWithAffinity m) (podsWithRequiredAntiAffinity m).
Definition set_affinity (a b : PodInfoSlice) (m : PodInfoMaintainer) : PodInfoMaintainer :=
  mkMaintainer (bePodsMayBePreempted m) (prioritiesForBEPodsMayBePreempted m)
    (prioritiesSliceForBEPodsMayBePreempted m) (gtPodsMayBePreempted m)
    (prioritiesForGTPodsMayBePreempted m) (prioritiesSliceForGTPodsMayBePreempted m)
    (neverBePreempted m) (reserved m) a b.

Definition NewPodInfoMaintainer : PodInfoMaintainer :=
  mkMaintainer NewSplay ∅ [] NewSplay ∅ [] ∅ ∅ NewHashSlice NewHashSlice.

(** The affinity predicates of a pod. *)
Definition hasAffinity (p : Pod) : bool :=
  match Affinity p with
  | None => false
  | Some a => bool_decide (is_Some (aff_Pod a)) || bool_decide (is_Some (aff_PodAnti a))
  end.
Definition hasRequiredAntiAffinity (p : Pod) : bool :=
  match Affinity p with
  | Some a => match aff_PodAnti a with
              | Some t => negb (length (RequiredTerms t) ≟ 0%nat)
              | None => false
              end
  | None => false
  end.

(** The three filters that a pod must pass to be preemptible at all. *)
Definition podFilters : list (PodInfo → bool) :=
  [λ pi, bool_decide (is_Some (pi_ResourceType pi));
   λ pi, BoundPod (pi_Pod pi);
   λ pi, negb (IsReservationPlaceholderPod (pi_Pod pi))].

(** [m[k]++], and [m[k]--] with the deletion at zero.  The counts are numbers of
    pods on a node and far from the limits of an int. *)
Definition prio_inc (k : Z) (m : gmap Z Z) : gmap Z Z := <[k := (default 0 (m !! k) + 1)%Z]> m.
Definition prio_dec (k : Z) (m : gmap Z Z) : gmap Z Z :=
  let v := (default 0 (m !! k) - 1)%Z in
  let m := <[k := v]> m in
  if (v <=? 0)%Z then delete k m else m.

Definition isGuaranteed (p : PodInfo) : bool := pi_ResourceType p ≟ Some GuaranteedPod.

Section maintainer.
Context (gates : FeatureGates).

Definition isReserved (p : PodInfo) : bool :=
  ResourceReservation gates && IsReservationPlaceholderPod (pi_Pod p).

Definition AddPodInfo (p : PodInfo) (m : PodInfoMaintainer) : option PodInfoMaintainer :=
  a ← (if hasAffinity (pi_Pod p) then fst <$> hs_Add PodKey p (podsWithAffinity m)
       else Some (podsWithAffinity m));
  b ← (if hasRequiredAntiAffinity (pi_Pod p) then fst <$> hs_Add PodKey p (podsWithRequiredAntiAffinity m)
       else Some (podsWithRequiredAntiAffinity m));
  let m := set_affinity a b m in
  let m := if isReserved p then set_reserved (<[PodKey p := p]> (reserved m)) m else m in
  if negb (forallb (λ f, f p) podFilters) then Some (set_never (<[PodKey p := p]> (neverBePreempted m)) m)
  else if isGuaranteed p then
    '(s, _) ← Splay.Insert p (gtPodsMayBePreempted m);
    Some (set_gtPods s (prio_inc (PodPriority p) (prioritiesForGTPodsMayBePreempted m)) m)
  else
    '(s, _) ← Splay.Insert p (bePodsMayBePreempted m);
    Some (set_bePods s (prio_inc (PodPriority p) (prioritiesForBEPodsMayBePreempted m)) m).

Definition RemovePodInfo (p : PodInfo) (m : PodInfoMaintainer) : option PodInfoMaintainer :=
  a ← (if hasAffinity (pi_Pod p) then fst <$> hs_Del PodKey p (podsWithAffinity m)
       else Some (podsWithAffinity m));
  b ← (if hasRequiredAntiAffinity (pi_Pod p) then fst <$> hs_Del PodKey p (podsWithRequiredAntiAffinity m)
       else Some (podsWithRequiredAntiAffinity m));
  let m := set_affinity a b m in
  let m := if isReserved p then set_reserved (delete (PodKey p) (reserved m)) m else m in
  match neverBePreempted m !! PodKey p with
  | Some _ => Some (set_never (delete (PodKey p) (neverBePreempted m)) m)
  | None =>
      if isGuaranteed p then
        '(s, _) ← Splay.Delete (PodKey p) (gtPodsMayBePreempted m);
        Some (set_gtPods s (prio_dec (PodPriority p) (prioritiesForGTPodsMayBePreempted m)) m)
      else
        '(s, _) ← Splay.Delete (PodKey p) (bePodsMayBePreempted m);
        Some (set_bePods s (prio_dec (PodPriority p) (prioritiesForBEPodsMayBePreempted m)) m)
  end.
End maintainer.

(** The type assertion to a pod info. *)
Definition as_PodInfo (o : @StoredObj PodInfo) : option PodInfo :=
  match o with Stored p => Some p | storedObjForLookup _ => None end.

(** [GetPodInfo]: [None] is a panic, [Some None] is nil. *)
Definition GetPodInfo (k : string) (m : PodInfoMaintainer) : option (option PodInfo) :=
  match neverBePreempted m !! k with
  | Some p => Some (Some p)
  | None =>
      o ← Splay.Get k (gtPodsMayBePreempted m);
      match o : option StoredObj with
      | Some o => p ← as_PodInfo o; Some (Some p)
      | None =>
          o ← Splay.Get k (bePodsMayBePreempted m);
          match o : option StoredObj with
          | Some o => p ← as_PodInfo o; Some (Some p)
          | None => Some None
          end
      end
  end.

Definition m_Len (m : PodInfoMaintainer) : Z :=
  (Splay.Len (bePodsMayBePreempted m) + Splay.Len (gtPodsMayBePreempted m)
   + Z.of_nat (size (neverBePreempted m)))%Z.
Definition ReservedPodsNum (m : PodInfoMaintainer) : nat := size (reserved m).

(** Appending every object of a splay to a slice; a failed assertion is [None]. *)
Definition append_splay (acc : option (list PodInfo)) (o : StoredObj) : option (list PodInfo) :=
  l ← acc; p ← as_PodInfo o; Some (l ++ [p])%list.

(** [GetPods] and [Range]: the two trees in order, then the map in the order
    [norder] of its iteration. *)
Definition GetPods (norder : gmap string PodInfo → list (string * PodInfo)) (m : PodInfoMaintainer)
    : option (list PodInfo) :=
  be ← Splay.Range append_splay (Some []) (bePodsMayBePreempted m);
  gt ← Splay.Range append_splay be (gtPodsMayBePreempted m);
  l ← gt; Some (l ++ (norder (neverBePreempted m)).*2)%list.

(** [PodPartitionInfo] and [NewPartitionInfo] *)
Record PodPartitionInfo := NewPartitionInfo {
  priorityLower : Z; priorityUpper : Z; pt_resourceType : PodResourceType
}.
(** [PodPartitionInfo.Compare] *)
Definition Partition_Compare (p : PodPartitionInfo) (o : PodInfo) : bool :=
  (PodPriority o <? priorityUpper p)%Z.

Definition partition_splay (p : PodPartitionInfo) (m : PodInfoMaintainer) : PodSplay :=
  match pt_resourceType p with
  | GuaranteedPod => gtPodsMayBePreempted m
  | BestEffortPod => bePodsMayBePreempted m
  end.

(** The visitor of [GetVictimCandidates]. *)
Definition victim_visit (p : PodPartitionInfo) (acc : option (list PodInfo)) (o : StoredObj)
    : option (list PodInfo) * bool :=
  match as_PodInfo o with
  | None => (None, false)
  | Some pi =>
      if (PodPriority pi <=? priorityLower p)%Z then (acc, true)
      else if (priorityUpper p <=? PodPriority pi)%Z then (acc, false)
      else (append_splay acc o, true)
  end.
Definition GetVictimCandidates (p : PodPartitionInfo) (m : PodInfoMaintainer) : option (list PodInfo) :=
  r ← Splay.ConditionRange (victim_visit p) (Some []) (partition_splay p m); r.

(** [GetMaintainableInfoByPartition]: the sums of CPU and memory; partitioning
    rebalances the tree. *)
Definition GetMaintainableInfoByPartition (p : PodPartitionInfo) (m : PodInfoMaintainer)
    : option (PodInfoMaintainer * (Z * Z)) :=
  '(s, o) ← Splay.Partition (Partition_Compare p) (partition_splay p m);
  let m := match pt_resourceType p with
           | GuaranteedPod => set_gtPods s (prioritiesForGTPodsMayBePreempted m) m
           | BestEffortPod => set_bePods s (prioritiesForBEPodsMayBePreempted m) m
           end in
  match o : option MaintainInfo with
  | None => Some (m, (0%Z, 0%Z))
  | Some (Maintained i) => Some (m, (mi_MilliCPU i, mi_Memory i))
  | Some maintainInfoForLookup => None
  end.

Definition GetPodsWithAffinity (m : PodInfoMaintainer) : list PodInfo := hs_Items (podsWithAffinity m).
Definition GetPodsWithRequiredAntiAffinity (m : PodInfoMaintainer) : list PodInfo :=
  hs_Items (podsWithRequiredAntiAffinity m).

Definition GetPrioritiesForPodsMayBePreempted (t : PodResourceType) (m : PodInfoMaintainer) : list Z :=
  match t with
  | GuaranteedPod => prioritiesSliceForGTPodsMayBePreempted m
  | BestEffortPod => prioritiesSliceForBEPodsMayBePreempted m
  end.

Section clone.
(** The orders in which [range] visits the maps. *)
Context (porder : gmap Z Z → list (Z * Z)) (horder : gmap string nat → list (string * nat)).
Context (norder : gmap string PodInfo → list (string * PodInfo)).

(** [clonePrioritiesForPodsMayBePreempted]: the slice of the keys and the map. *)
Definition clonePrioritiesForPodsMayBePreempted (existing : gmap Z Z) : list Z * gmap Z Z :=
  (fst <$> porder existing, foldl (λ m kv, <[kv.1 := kv.2]> m) ∅ (porder existing)).

Definition m_Clone (m : PodInfoMaintainer) : option PodInfoMaintainer :=
  be ← Splay.Clone (bePodsMayBePreempted m);
  gt ← Splay.Clone (gtPodsMayBePreempted m);
  let '(gtSlice, gtPrio) := clonePrioritiesForPodsMayBePreempted (prioritiesForGTPodsMayBePreempted m) in
  let '(beSlice, bePrio) := clonePrioritiesForPodsMayBePreempted (prioritiesForBEPodsMayBePreempted m) in
  Some (mkMaintainer be bePrio beSlice gt gtPrio gtSlice
          (foldl (λ acc kv, <[kv.1 := kv.2]> acc) ∅ (norder (neverBePreempted m)))
          (foldl (λ acc kv, <[kv.1 := kv.2]> acc) ∅ (norder (reserved m)))
          (hs_Clone horder (podsWithAffinity m)) (hs_Clone horder (podsWithRequiredAntiAffinity m))).
End clone.
