(* ===== verification/PodInfosProps.v ===== *)
(** * The pods of a node: the maintainer is a map of pods

    [RM gates m P]: the maintainer [m] holds exactly the pods of the map [P],
    each in the structure its filters and resource type put it in, with right
    priority counts.  Every operation is shown to follow the map. *)
From S2P Require Import Prelude GoStrings PodModel PodState Splay SplayRefine SplayProps SplaySpec HashSlice Resource MicroTopo PodInfos.

Local Open Scope godel_scope.
Local Open Scope string_scope.

(** ** The pods of a map that satisfy a predicate *)

Definition sub (f : PodInfo → bool) (P : gmap string PodInfo) : gmap string PodInfo :=
  filter (λ kp, f kp.2 = true) P.
Definition pods_of (P : gmap string PodInfo) : list PodInfo := (map_to_list P).*2.
(** Every pod is stored under its own key. *)
Definition keyed (P : gmap string PodInfo) : Prop := ∀ k p, P !! k = Some p → PodKey p = k.

Lemma sub_lookup f P k p : sub f P !! k = Some p ↔ P !! k = Some p ∧ f p = true.
Proof. apply map_lookup_filter_Some. Qed.

Lemma sub_lookup_None f P k : P !! k = None → sub f P !! k = None.
Proof. intros H. apply map_lookup_filter_None. by left. Qed.

Lemma sub_insert f P k p :
  P !! k = None → sub f (<[k := p]> P) = if f p then <[k := p]> (sub f P) else sub f P.
Proof.
  intros Hk. destruct (f p) eqn:Ef; apply map_eq; intros k'; apply option_eq; intros p'.
  - rw sub_lookup !lookup_insert_Some sub_lookup. split.
    + intros [[[-> ->]|[? ?]] ?]; [by left|by right].
    + intros [[-> ->]|[? [? ?]]]; (split; [|done]); [by left|by right].
  - rw !sub_lookup lookup_insert_Some. split.
    + intros [[[-> ->]|[? ?]] ?]; [congruence|done].
    + intros [Hp' ?]. split; [|done]. right. split; [|done]. intros ->. congruence.
Qed.

Lemma sub_delete f P k p :
  P !! k = Some p → sub f (delete k P) = if f p then delete k (sub f P) else sub f P.
Proof.
  intros Hk. destruct (f p) eqn:Ef; apply map_eq; intros k'; apply option_eq; intros p'.
  - rw sub_lookup !lookup_delete_Some sub_lookup. tauto.
  - rw !sub_lookup lookup_delete_Some. split; [tauto|]. intros [Hp' ?]. split_and!; [|done..].
    intros ->. congruence.
Qed.

Lemma keyed_sub f P : keyed P → keyed (sub f P).
Proof. intros HK k p [? _]%sub_lookup. by apply HK. Qed.
Lemma pods_keyed_insert P p : keyed P → keyed (<[PodKey p := p]> P).
Proof. intros HK k q [[<- <-]|[_ ?]]%lookup_insert_Some; [done|by apply HK]. Qed.
Lemma keyed_delete P k : keyed P → keyed (delete k P).
Proof. intros HK k' q [_ ?]%lookup_delete_Some. by apply HK. Qed.

Lemma pods_of_insert P k p : P !! k = None → pods_of (<[k := p]> P) ≡ₚ p :: pods_of P.
Proof. intros Hk. unfold pods_of. by rw map_to_list_insert. Qed.

Lemma pods_of_delete P k p : P !! k = Some p → pods_of P ≡ₚ p :: pods_of (delete k P).
Proof. intros Hk. unfold pods_of. by rw -(map_to_list_delete P k p). Qed.

Lemma elem_of_pods_of P p : keyed P → p ∈ pods_of P ↔ P !! PodKey p = Some p.
Proof.
  intros HK. unfold pods_of. rw list_elem_of_fmap. split.
  - intros ([k q] & -> & H%elem_of_map_to_list). simpl. by rw (HK _ _ H).
  - intros H. exists (PodKey p, p). split; [done|]. by apply elem_of_map_to_list.
Qed.

Lemma pods_of_sub f P : pods_of (sub f P) ≡ₚ filter (λ p, f p = true) (pods_of P).
Proof.
  unfold pods_of, sub. rw map_filter_alt.
  rw map_to_list_to_map; [|apply NoDup_fmap_filter, NoDup_fst_map_to_list].
  generalize (map_to_list P). intros l. induction l as [|[k p] l IH]; [done|].
  simpl. rw !filter_cons /=. case_decide; [by constructor|exact IH].
Qed.

(** ** Where a pod is kept *)

Inductive Bucket := Never | MayGT | MayBE.
#[export] Instance Bucket_eq_dec : EqDecision Bucket.
Proof. solve_decision. Defined.

Definition bucket (p : PodInfo) : Bucket :=
  if negb (forallb (λ f, f p) podFilters) then Never
  else if isGuaranteed p then MayGT else MayBE.
Definition in_bucket (B : Bucket) (p : PodInfo) : bool := bool_decide (bucket p = B).

Definition prio_count (z : Z) (l : list PodInfo) : nat := length (filter (λ p, PodPriority p = z) l).
(** The counts per priority: absent when there is no such pod. *)
Definition prio_ok (pr : gmap Z Z) (l : list PodInfo) : Prop :=
  ∀ z, pr !! z = if decide (prio_count z l = 0) then None else Some (Z.of_nat (prio_count z l)).

(** A splay and its counts hold the pods of [M]. *)
Definition tree_holds (s : PodSplay) (pr : gmap Z Z) (M : gmap string PodInfo) : Prop :=
  ∃ L, R s L ∧ Asc (Info:=PodMaintainableInfo) L ∧ L.*2 = L.*1 ∧ L.*1 ≡ₚ pods_of M ∧ prio_ok pr L.*1.

Record RM (gates : FeatureGates) (m : PodInfoMaintainer) (P : gmap string PodInfo) : Prop := {
  rm_keyed : keyed P;
  rm_never : neverBePreempted m = sub (in_bucket Never) P;
  rm_gt : tree_holds (gtPodsMayBePreempted m) (prioritiesForGTPodsMayBePreempted m) (sub (in_bucket MayGT) P);
  rm_be : tree_holds (bePodsMayBePreempted m) (prioritiesForBEPodsMayBePreempted m) (sub (in_bucket MayBE) P);
  rm_aff : HR PodKey (podsWithAffinity m) (sub (λ p, hasAffinity (pi_Pod p)) P);
  rm_anti : HR PodKey (podsWithRequiredAntiAffinity m) (sub (λ p, hasRequiredAntiAffinity (pi_Pod p)) P);
  rm_reserved : reserved m = sub (isReserved gates) P
}.

(** ** The counts *)

Lemma prio_ok_perm pr l l' : l ≡ₚ l' → prio_ok pr l → prio_ok pr l'.
Proof.
  intros HP H z. replace (prio_count z l') with (prio_count z l); [apply H|].
  unfold prio_count. by rw HP.
Qed.

Lemma prio_count_cons z p l : prio_count z (p :: l) = (if decide (PodPriority p = z) then 1 else 0) + prio_count z l.
Proof. unfold prio_count. rw filter_cons. by case_decide. Qed.

Lemma prio_ok_inc pr p l : prio_ok pr l → prio_ok (prio_inc (PodPriority p) pr) (p :: l).
Proof.
  intros H z. unfold prio_inc. rw prio_count_cons. destruct (decide (PodPriority p = z)) as [<-|Hne].
  - rw lookup_insert_eq H. destruct (decide (prio_count (PodPriority p) l = 0)) as [->|]; simpl; f_equal; lia.
  - rw lookup_insert_ne //.
Qed.

Lemma prio_ok_dec pr p l : prio_ok pr (p :: l) → prio_ok (prio_dec (PodPriority p) pr) l.
Proof.
  intros H z. specialize (H z) as Hz. rw prio_count_cons in Hz. unfold prio_dec.
  destruct (decide (PodPriority p = z)) as [<-|Hne].
  - simpl in Hz. rw Hz /=.
    replace (Z.of_nat (S (prio_count (PodPriority p) l)) - 1)%Z with (Z.of_nat (prio_count (PodPriority p) l)) by lia.
    destruct (Z.leb_spec (Z.of_nat (prio_count (PodPriority p) l)) 0).
    + rw lookup_delete_eq decide_True //. lia.
    + rw lookup_insert_eq decide_False //. lia.
  - simpl in Hz. destruct (_ <=? 0)%Z; [rw lookup_delete_ne //|]; by rw lookup_insert_ne.
Qed.

(** ** A tree of pods *)

Lemma tree_keys M L k :
  keyed M → L.*1 ≡ₚ pods_of M → k ∈ keys (Info:=PodMaintainableInfo) L ↔ is_Some (M !! k).
Proof.
  intros HK HP. unfold keys. rw list_elem_of_fmap. split.
  - intros (e & -> & He). assert (e.1 ∈ pods_of M) as H.
    { rw -HP. by apply list_elem_of_fmap_2. }
    apply (elem_of_pods_of _ _ HK) in H. by exists e.1.
  - intros [p Hp]. pose proof (HK _ _ Hp) as <-. apply (elem_of_pods_of _ _ HK) in Hp. rw -HP in Hp.
    apply list_elem_of_fmap in Hp as (e & -> & He). by exists e.
Qed.

Lemma tree_find M L k :
  keyed M → NoDup (keys (Info:=PodMaintainableInfo) L) → L.*1 ≡ₚ pods_of M → find_entry k L = M !! k.
Proof.
  intros HK HND HP. destruct (M !! k) as [p|] eqn:Hp.
  - pose proof (HK _ _ Hp) as <-. apply (elem_of_pods_of _ _ HK) in Hp. rw -HP in Hp.
    apply list_elem_of_fmap in Hp as (e & -> & He). apply list_elem_of_split in He as (L1 & L2 & ->).
    apply find_entry_split; [|done]. by destruct (keys_split _ _ _ HND).
  - apply find_entry_None. intros Hin. apply (tree_keys M L k HK HP) in Hin as [? ?]. congruence.
Qed.

Lemma insert_sorted_perm (v : PodInfo) L :
  (insert_sorted (Info:=PodMaintainableInfo) v L).*1 ≡ₚ v :: L.*1.
Proof.
  induction L as [|e L IH]; simpl; [done|]. destruct (PodInfo_Compare v e.1); simpl; [|done].
  transitivity (e.1 :: v :: L.*1); [by constructor|apply Permutation_swap].
Qed.

Lemma insert_sorted_same (v : PodInfo) L :
  L.*2 = L.*1 → (insert_sorted (Info:=PodMaintainableInfo) v L).*2 = (insert_sorted (Info:=PodMaintainableInfo) v L).*1.
Proof.
  induction L as [|e L IH]; simpl; [done|]. intros [= He HL]. destruct (PodInfo_Compare v e.1); simpl; f_equal; auto.
  by f_equal.
Qed.

Lemma tree_insert s pr M p :
  keyed M → tree_holds s pr M → M !! PodKey p = None →
  ∃ s', Splay.Insert p s = Some (s', true) ∧ tree_holds s' (prio_inc (PodPriority p) pr) (<[PodKey p := p]> M).
Proof.
  intros HK (L & HR' & HA & HS & HP & Hpr) Hn.
  destruct (R_Insert_new s L p HR') as (s' & L1 & L2 & E' & _ & HR2 & HE).
  { rw (tree_keys M L _ HK HP) Hn. by apply is_Some_None. }
  exists s'. split; [done|]. exists (insert_sorted (Info:=PodMaintainableInfo) p L). rw HE // in HR2.
  split_and!; [done|by apply Asc_insert_sorted|by apply insert_sorted_same| |].
  - by rw insert_sorted_perm HP pods_of_insert.
  - eapply prio_ok_perm; [symmetry; apply insert_sorted_perm|]. by apply prio_ok_inc.
Qed.

Lemma remove_split k L1 (e : PodInfo * PodInfo) L2 :
  NoDup (keys (Info:=PodMaintainableInfo) (L1 ++ e :: L2)) → PodKey e.1 = k →
  remove (Info:=PodMaintainableInfo) k (L1 ++ e :: L2) = (L1 ++ L2)%list.
Proof.
  intros [H1 H2]%keys_split Hk. simpl in H1, H2. rw Hk in H1. rw Hk in H2.
  unfold remove. rw filter_app filter_cons_False; [|by intros []].
  f_equal; by apply remove_elsewhere.
Qed.

Lemma tree_delete s pr M p :
  keyed M → tree_holds s pr M → M !! PodKey p = Some p →
  ∃ s', Splay.Delete (PodKey p) s = Some (s', true)
    ∧ tree_holds s' (prio_dec (PodPriority p) pr) (delete (PodKey p) M).
Proof.
  intros HK (L & HR' & HA & HS & HP & Hpr) Hp. pose proof (R_keys_nodup _ _ HR') as HND.
  destruct (R_Delete s L (PodKey p) HR') as (s' & E' & HR2).
  rw bool_decide_eq_true_2 in E'; [|by apply (tree_keys M L _ HK HP)].
  exists s'. split; [done|]. eexists. split; [exact HR2|].
  pose proof Hp as Hin. apply (elem_of_pods_of _ _ HK) in Hin. rw -HP in Hin.
  apply list_elem_of_fmap in Hin as (e & He & Hin). apply list_elem_of_split in Hin as (L1 & L2 & ->).
  assert (Asc (Info:=PodMaintainableInfo) (remove (PodKey p) (L1 ++ e :: L2)%list)) as HA' by by apply StronglySorted_filter.
  rw remove_split // in HA' HR2 |- *; [|by rw He..]. split; [done|].
  rw !fmap_app !fmap_cons in HS HP Hpr. rw !fmap_app.
  assert (L1.*2 = L1.*1 ∧ L2.*2 = L2.*1) as [-> ->].
  { apply app_inj_1 in HS as [-> [= _ ->]]; [done|]. by rw !length_fmap. }
  rw -He in HP Hpr. assert ((L1.*1 ++ p :: L2.*1)%list ≡ₚ p :: (L1.*1 ++ L2.*1)) as HP'.
  { by rw Permutation_middle. }
  split_and!; [done| |].
  - apply (Permutation_cons_inv (a:=p)). rw -HP' HP -(pods_of_delete M) //.
  - apply (prio_ok_dec _ p). by eapply prio_ok_perm.
Qed.

(** ** The maintainer *)

Section maintainer_ok.
Context (gates : FeatureGates).
Implicit Types (m : PodInfoMaintainer) (P : gmap string PodInfo) (p : PodInfo).

Lemma sub_empty f : sub f ∅ = ∅.
Proof. apply map_filter_empty. Qed.

Lemma tree_empty (o : PodInfo) : tree_holds NewSplay ∅ ∅.
Proof. exists []. split_and!; [by apply R_New|constructor|done|done|done]. Qed.

Lemma RM_New (o : PodInfo) : RM gates NewPodInfoMaintainer ∅.
Proof.
  split; rw ?sub_empty; simpl; [done|done|by apply tree_empty|by apply tree_empty|apply HR_New|apply HR_New|done].
Qed.

(** Adding to or deleting from a slice that keeps the pods that satisfy [f]. *)
Lemma slice_add (f : PodInfo → bool) hs P p :
  HR PodKey hs (sub f P) → P !! PodKey p = None →
  ∃ hs', (if f p then fst <$> hs_Add PodKey p hs else Some hs) = Some hs'
    ∧ HR PodKey hs' (sub f (<[PodKey p := p]> P)).
Proof.
  intros HS Hn. rw sub_insert //. destruct (f p); [|by exists hs].
  destruct (HR_Add PodKey hs _ p HS) as (hs' & -> & ?). by exists hs'.
Qed.

Lemma slice_del (f : PodInfo → bool) hs P p :
  HR PodKey hs (sub f P) → P !! PodKey p = Some p →
  ∃ hs', (if f p then fst <$> hs_Del PodKey p hs else Some hs) = Some hs'
    ∧ HR PodKey hs' (sub f (delete (PodKey p) P)).
Proof.
  intros HS Hp. rw (sub_delete f P _ p) //. destruct (f p); [|by exists hs].
  destruct (HR_Del PodKey hs _ p HS) as (hs' & -> & ?). by exists hs'.
Qed.

Lemma in_bucket_eq B p : in_bucket B p = true ↔ bucket p = B.
Proof. unfold in_bucket. by rw bool_decide_eq_true. Qed.

Lemma sub_bucket_insert B P p :
  P !! PodKey p = None →
  sub (in_bucket B) (<[PodKey p := p]> P)
  = if decide (bucket p = B) then <[PodKey p := p]> (sub (in_bucket B) P) else sub (in_bucket B) P.
Proof. intros Hn. rw sub_insert //. unfold in_bucket. by do 2 case_decide. Qed.

Lemma sub_bucket_delete B P p :
  P !! PodKey p = Some p →
  sub (in_bucket B) (delete (PodKey p) P)
  = if decide (bucket p = B) then delete (PodKey p) (sub (in_bucket B) P) else sub (in_bucket B) P.
Proof. intros Hn. rw (sub_delete _ _ _ p) //. unfold in_bucket. by do 2 case_decide. Qed.

Lemma bucket_spec p :
  (forallb (λ f, f p) podFilters = false ∧ bucket p = Never)
  ∨ (forallb (λ f, f p) podFilters = true ∧ isGuaranteed p = true ∧ bucket p = MayGT)
  ∨ (forallb (λ f, f p) podFilters = true ∧ isGuaranteed p = false ∧ bucket p = MayBE).
Proof. unfold bucket. destruct (forallb _ _), (isGuaranteed p); simpl; tauto. Qed.

Lemma RM_Add m P p :
  RM gates m P → P !! PodKey p = None →
  ∃ m', AddPodInfo gates p m = Some m' ∧ RM gates m' (<[PodKey p := p]> P).
Proof.
  intros HM Hn. destruct HM as [HK Hnev Hgt Hbe Haff Hanti Hres]. unfold AddPodInfo.
  destruct (slice_add (λ p, hasAffinity (pi_Pod p)) _ P p Haff Hn) as (a & -> & Ha).
  destruct (slice_add (λ p, hasRequiredAntiAffinity (pi_Pod p)) _ P p Hanti Hn) as (b & -> & Hb). cbn [mbind option_bind].
  assert (∀ B, sub (in_bucket B) P !! PodKey p = None) as HnB by (intros B; by apply sub_lookup_None).
  pose proof (sub_insert (isReserved gates) P (PodKey p) p Hn) as Hres'. rw -Hres in Hres'.
  destruct (bucket_spec p) as [[-> HB]|[(-> & -> & HB)|(-> & -> & HB)]]; simpl negb; cbv iota.
  - eexists. split; [reflexivity|]. split; rw ?sub_bucket_insert // ?HB; [by apply pods_keyed_insert|..].
    all: try (by destruct (isReserved gates p)).
    destruct (isReserved gates p); simpl; by rw Hnev.
  - destruct (tree_insert _ _ _ p (keyed_sub _ _ HK) Hgt (HnB MayGT)) as (s' & Es & Hs').
    assert (gtPodsMayBePreempted (if isReserved gates p then set_reserved (<[PodKey p := p]> (reserved (set_affinity a b m))) (set_affinity a b m) else set_affinity a b m) = gtPodsMayBePreempted m) as -> by by destruct (isReserved gates p).
    rw Es. cbn [mbind option_bind]. eexists. split; [reflexivity|]. split; rw ?sub_bucket_insert // ?HB; [by apply pods_keyed_insert|..].
    all: by destruct (isReserved gates p).
  - destruct (tree_insert _ _ _ p (keyed_sub _ _ HK) Hbe (HnB MayBE)) as (s' & Es & Hs').
    assert (bePodsMayBePreempted (if isReserved gates p then set_reserved (<[PodKey p := p]> (reserved (set_affinity a b m))) (set_affinity a b m) else set_affinity a b m) = bePodsMayBePreempted m) as -> by by destruct (isReserved gates p).
    rw Es. cbn [mbind option_bind]. eexists. split; [reflexivity|]. split; rw ?sub_bucket_insert // ?HB; [by apply pods_keyed_insert|..].
    all: by destruct (isReserved gates p).
Qed.
Lemma RM_Remove m P p :
  RM gates m P → P !! PodKey p = Some p →
  ∃ m', RemovePodInfo gates p m = Some m' ∧ RM gates m' (delete (PodKey p) P).
Proof.
  intros HM Hp. destruct HM as [HK Hnev Hgt Hbe Haff Hanti Hres]. unfold RemovePodInfo.
  destruct (slice_del (λ p, hasAffinity (pi_Pod p)) _ P p Haff Hp) as (a & -> & Ha).
  destruct (slice_del (λ p, hasRequiredAntiAffinity (pi_Pod p)) _ P p Hanti Hp) as (b & -> & Hb). cbn [mbind option_bind].
  pose proof (sub_delete (isReserved gates) P (PodKey p) p Hp) as Hres'. rw -Hres in Hres'.
  set (mr := if isReserved gates p then _ else _).
  assert (neverBePreempted mr = neverBePreempted m ∧ gtPodsMayBePreempted mr = gtPodsMayBePreempted m
    ∧ bePodsMayBePreempted mr = bePodsMayBePreempted m) as (-> & -> & ->)
    by (unfold mr; by destruct (isReserved gates p)).
  assert (∀ B, bucket p = B → sub (in_bucket B) P !! PodKey p = Some p) as HinB.
  { intros B HB. apply sub_lookup. by rw in_bucket_eq. }
  assert (bucket p ≠ Never → neverBePreempted m !! PodKey p = None) as Hnn.
  { intros HB. rw Hnev. apply eq_None_not_Some. intros [q [Hq Hb']%sub_lookup]. apply in_bucket_eq in Hb'. congruence. }
  destruct (bucket_spec p) as [[_ HB]|[(_ & -> & HB)|(_ & -> & HB)]].
  - rw {1}Hnev HinB //. eexists. split; [reflexivity|]. unfold mr. split; rw ?sub_bucket_delete // ?HB; [by apply keyed_delete|..].
    all: try (by destruct (isReserved gates p)). destruct (isReserved gates p); simpl; by rw Hnev.
  - rw Hnn; [|by rw HB]. destruct (tree_delete _ _ _ p (keyed_sub _ _ HK) Hgt (HinB _ HB)) as (s' & Es & Hs').
    rw Es. cbn [mbind option_bind]. eexists. split; [reflexivity|]. unfold mr.
    split; rw ?sub_bucket_delete // ?HB; [by apply keyed_delete|..]. all: by destruct (isReserved gates p).
  - rw Hnn; [|by rw HB]. destruct (tree_delete _ _ _ p (keyed_sub _ _ HK) Hbe (HinB _ HB)) as (s' & Es & Hs').
    rw Es. cbn [mbind option_bind]. eexists. split; [reflexivity|]. unfold mr.
    split; rw ?sub_bucket_delete // ?HB; [by apply keyed_delete|..]. all: by destruct (isReserved gates p).
Qed.

Lemma bucket_cases P k p : P !! k = Some p → ∃ B, sub (in_bucket B) P !! k = Some p.
Proof. intros Hp. exists (bucket p). apply sub_lookup. by rw in_bucket_eq. Qed.

Lemma tree_get s pr M k : keyed M → tree_holds s pr M → Splay.Get k s = Some (Stored <$> M !! k).
Proof.
  intros HK (L & HR' & _ & _ & HP & _). rw (R_Get s L k) //. by rw (tree_find M L k HK (R_keys_nodup _ _ HR') HP).
Qed.

Lemma sub_disjoint B B' P k p : sub (in_bucket B) P !! k = Some p → B ≠ B' → sub (in_bucket B') P !! k = None.
Proof.
  intros [Hp Hb]%sub_lookup HB. apply eq_None_not_Some. intros [q [Hq Hb']%sub_lookup].
  apply in_bucket_eq in Hb. apply in_bucket_eq in Hb'. congruence.
Qed.

Lemma RM_GetPodInfo m P k : RM gates m P → GetPodInfo k m = Some (P !! k).
Proof.
  intros HM. unfold GetPodInfo. pose proof (rm_keyed _ _ _ HM) as HK. rw (rm_never _ _ _ HM).
  rw (tree_get _ _ _ k (keyed_sub _ _ HK) (rm_gt _ _ _ HM)) (tree_get _ _ _ k (keyed_sub _ _ HK) (rm_be _ _ _ HM)).
  destruct (P !! k) as [p|] eqn:Hp; [|by rw !sub_lookup_None].
  destruct (bucket_cases _ _ _ Hp) as [[] Hb].
  - by rw Hb.
  - rw (sub_disjoint MayGT Never _ _ _ Hb) // Hb //.
  - rw (sub_disjoint MayBE Never _ _ _ Hb) // (sub_disjoint MayBE MayGT _ _ _ Hb) // Hb //.
Qed.

Lemma pods_of_buckets P :
  pods_of P ≡ₚ (pods_of (sub (in_bucket MayBE) P) ++ pods_of (sub (in_bucket MayGT) P)
                ++ pods_of (sub (in_bucket Never) P))%list.
Proof.
  rw !pods_of_sub. generalize (pods_of P). intros l. induction l as [|p l IH]; [done|].
  rw !filter_cons. unfold in_bucket in *. destruct (bucket p) eqn:HB; simpl.
  - rw {1}IH. rw -!Permutation_middle. done.
  - rw {1}IH. rw -!Permutation_middle. done.
  - by rw {1}IH.
Qed.

Lemma foldl_append_splay l l0 :
  foldl append_splay (Some l0) (Stored <$> l) = Some (l0 ++ l)%list.
Proof.
  revert l0. induction l as [|p l IH]; intros l0; simpl; [by rw app_nil_r|]. rw IH. by rw -app_assoc.
Qed.

Lemma Stored_fst (L : list (PodInfo * PodInfo)) : (λ e, Stored e.1) <$> L = Stored <$> L.*1.
Proof. by rw -list_fmap_compose. Qed.

Lemma RM_GetPods norder m P :
  (∀ n, norder n ≡ₚ map_to_list n) → RM gates m P →
  ∃ l, GetPods norder m = Some l ∧ l ≡ₚ pods_of P.
Proof.
  intros Ho HM. destruct (rm_be _ _ _ HM) as (L1 & HR1 & _ & _ & HP1 & _).
  destruct (rm_gt _ _ _ HM) as (L2 & HR2 & _ & _ & HP2 & _). unfold GetPods.
  rw (R_Range _ _ _ _ HR1) Stored_fst foldl_append_splay. cbn [mbind option_bind].
  rw (R_Range _ _ _ _ HR2) Stored_fst foldl_append_splay. cbn [mbind option_bind]. eexists. split; [done|].
  rw pods_of_buckets /= HP1 HP2 -app_assoc. unfold pods_of at 4. rw -(rm_never _ _ _ HM).
  by rw (Ho (neverBePreempted m)).
Qed.

Lemma pods_of_length P : length (pods_of P) = size P.
Proof. unfold pods_of. by rw length_fmap length_map_to_list. Qed.

Lemma RM_Len m P : RM gates m P → m_Len m = Z.of_nat (size P).
Proof.
  intros HM. destruct (rm_be _ _ _ HM) as (L1 & HR1 & _ & _ & HP1 & _).
  destruct (rm_gt _ _ _ HM) as (L2 & HR2 & _ & _ & HP2 & _). unfold m_Len.
  rw (R_Len _ _ HR1) (R_Len _ _ HR2) (rm_never _ _ _ HM) -(pods_of_length P) (Permutation_length (pods_of_buckets P)).
  apply Permutation_length in HP1, HP2. rw length_fmap in HP1. rw length_fmap in HP2.
  rw HP1 HP2 !length_app -(pods_of_length (sub _ _)). lia.
Qed.

(** *** The pods below a priority *)

Definition preemptible (t : PodResourceType) : Bucket :=
  match t with GuaranteedPod => MayGT | BestEffortPod => MayBE end.

Lemma RM_partition_splay m P pt :
  RM gates m P → ∃ pr, tree_holds (partition_splay pt m) pr (sub (in_bucket (preemptible (pt_resourceType pt))) P).
Proof.
  intros HM. unfold partition_splay, preemptible. destruct (pt_resourceType pt); eexists; [apply HM|apply HM].
Qed.

Lemma Asc_below (L : list (PodInfo * PodInfo)) u :
  Asc (Info:=PodMaintainableInfo) L → gt_prefix (λ o, (PodPriority o <? u)%Z) L.
Proof.
  intros HA n n' e e' Hlt He He' Hu.
  assert (Compare (Info:=PodMaintainableInfo) e.1 e'.1 = false) as Hle%PodInfo_Compare_priority.
  { eapply (StronglySorted_lookup_lt (λ e e' : PodInfo * PodInfo, Compare (Info:=PodMaintainableInfo) e.1 e'.1 = false)); eauto. }
  apply Z.ltb_lt in Hu. apply Z.ltb_lt. lia.
Qed.

Definition between (pt : PodPartitionInfo) (p : PodInfo) : bool :=
  (priorityLower pt <? PodPriority p)%Z && (PodPriority p <? priorityUpper pt)%Z.

Lemma foldl_victims pt l l0 :
  foldl (λ acc o, match as_PodInfo o with
                  | Some pi => if (PodPriority pi <=? priorityLower pt)%Z then acc else append_splay acc o
                  | None => None end) (Some l0) (Stored <$> l)
  = Some (l0 ++ filter (λ p, (priorityLower pt <? PodPriority p)%Z = true) l)%list.
Proof.
  revert l0. induction l as [|p l IH]; intros l0; simpl; [by rw app_nil_r|]. rw filter_cons Z.leb_antisym.
  destruct (priorityLower pt <? PodPriority p)%Z; simpl; rw IH //. by rw -app_assoc.
Qed.

Lemma victims_filter pt (L : list (PodInfo * PodInfo)) :
  filter (λ p, (priorityLower pt <? PodPriority p)%Z = true)
    (filter (λ e, (PodPriority e.1 <? priorityUpper pt)%Z || (PodPriority e.1 <=? priorityLower pt)%Z = true) L).*1
  = filter (λ p, between pt p = true) L.*1.
Proof.
  induction L as [|e L IH]; [done|]. rw fmap_cons filter_cons (filter_cons _ e.1). unfold between at 1.
  destruct (decide (_ || _ = true)) as [H1|H1], (decide (_ && _ = true)) as [H2|H2]; rw ?fmap_cons ?filter_cons;
    try case_decide; try lia; [by f_equal|done..].
Qed.

Lemma RM_victims m P pt :
  RM gates m P →
  ∃ l, GetVictimCandidates pt m = Some l
    ∧ StronglySorted (λ p q, PodInfo_Compare p q = false) l
    ∧ l ≡ₚ filter (λ p, between pt p = true) (pods_of (sub (in_bucket (preemptible (pt_resourceType pt))) P)).
Proof.
  intros HM. destruct (RM_partition_splay m P pt HM) as (pr & L & HR' & HA & _ & HP & _).
  unfold GetVictimCandidates.
  rw (R_ConditionRange (victim_visit pt)
       (λ acc o, match as_PodInfo o with
                 | Some pi => if (PodPriority pi <=? priorityLower pt)%Z then acc else append_splay acc o
                 | None => None end)
       (λ o, match as_PodInfo o with
             | Some pi => (PodPriority pi <? priorityUpper pt)%Z || (PodPriority pi <=? priorityLower pt)%Z
             | None => false end) _ _ L) //.
  2: { simpl. intros n n' e e' Hlt He He'. pose proof (Asc_below L (Z.max (priorityUpper pt) (priorityLower pt + 1)) HA n n' e e' Hlt He He') as H.
       rw !Z.ltb_lt in H. rw !orb_true_iff !Z.ltb_lt !Z.leb_le. lia. }
  2: { intros st v. unfold victim_visit. simpl. rw !Z.leb_antisym.
       by destruct (priorityLower pt <? PodPriority v)%Z, (PodPriority v <? priorityUpper pt)%Z. }
  rw Stored_fst foldl_victims /=. eexists. split; [done|].
  set (Lf := filter _ L). assert (Sublist: Asc (Info:=PodMaintainableInfo) Lf) by by apply StronglySorted_filter.
  split.
  - apply StronglySorted_filter. clear -Sublist. induction Sublist as [|e L' HS IH HF]; [constructor|].
    rw fmap_cons. constructor; [done|]. by apply Forall_fmap.
  - unfold Lf. by rw victims_filter -HP.
Qed.

Definition opt_sum (f : PodMaintainableInfo → Z) (o : option PodMaintainableInfo) : Z :=
  match o with Some i => f i | None => 0%Z end.

Lemma mi_add_wrap f a o : wrap64 (mi_add f a o) = wrap64 (a + opt_sum f o).
Proof. destruct o; simpl; [by rw wrap64_idem|by rw Z.add_0_r]. Qed.

(** A maintained info is the sum over its objects, up to wrap-around. *)
Lemma Agg_sum l o :
  Agg (Info:=PodMaintainableInfo) l o →
  wrap64 (opt_sum mi_MilliCPU o) = wrap64 (zsum (λ p, MilliCPU (Res p)) l)
  ∧ wrap64 (opt_sum mi_Memory o) = wrap64 (zsum (λ p, Memory (Res p)) l).
Proof.
  induction 1 as [|l q r a c _ [IHa1 IHa2] _ [IHc1 IHc2]]; [done|]. simpl. rw !zsum_app /= !mi_add_wrap.
  rw -!(wrap64_add_l (mi_add _ _ _)) !mi_add_wrap !wrap64_add_l.
  split; [rw -wrap64_add_r IHc1 wrap64_add_r|rw -wrap64_add_r IHc2 wrap64_add_r].
  - rw -(wrap64_add_l (_ + _)) -(wrap64_add_r (MilliCPU _)) IHa1 wrap64_add_r wrap64_add_l. f_equal. lia.
  - rw -(wrap64_add_l (_ + _)) -(wrap64_add_r (Memory _)) IHa2 wrap64_add_r wrap64_add_l. f_equal. lia.
Qed.

Lemma tree_reshaped s s' pr M L :
  tree_holds s pr M → R s' L → Asc (Info:=PodMaintainableInfo) L → L.*2 = L.*1 → L.*1 ≡ₚ pods_of M →
  tree_holds s' pr M.
Proof.
  intros (L' & _ & _ & _ & HP' & Hpr) HR' HA HS HP. exists L. split_and!; [done..|].
  eapply prio_ok_perm; [|exact Hpr]. by rw HP HP'.
Qed.

Lemma RM_Partition m P pt :
  RM gates m P →
  ∃ m' sums, GetMaintainableInfoByPartition pt m = Some (m', sums) ∧ RM gates m' P
    ∧ let below := filter (λ p, Partition_Compare pt p = true)
                     (pods_of (sub (in_bucket (preemptible (pt_resourceType pt))) P)) in
      wrap64 sums.1 = wrap64 (zsum (λ p, MilliCPU (Res p)) below)
      ∧ wrap64 sums.2 = wrap64 (zsum (λ p, Memory (Res p)) below).
Proof.
  intros HM. destruct (RM_partition_splay m P pt HM) as (pr & L & HR' & HA & HS & HP & _).
  destruct (R_Partition (Partition_Compare pt) _ _ HR') as (s' & o & E' & HR2 & Hagg).
  assert (Agg (Info:=PodMaintainableInfo) (filter (λ p, Partition_Compare pt p = true) L.*1) o) as Hag.
  { rw -HS. replace (filter (λ p, Partition_Compare pt p = true) L.*2) with
      (snd <$> filter (λ e : PodInfo * PodInfo, Partition_Compare pt e.1 = true) L).
    { apply Hagg. by apply Asc_below. }
    clear -HS. induction L as [|e L IH]; [done|]. injection HS as He HS. rw fmap_cons !filter_cons He.
    destruct (decide _); rw ?fmap_cons IH // He //. }
  apply Agg_sum in Hag. rw HP in Hag. unfold GetMaintainableInfoByPartition. rw E'. cbn [mbind option_bind].
  destruct HM as [HK Hnev Hgt Hbe Haff Hanti Hres]. unfold partition_splay, preemptible in *.
  destruct (pt_resourceType pt), o as [i|]; simpl in *; eexists _, _; (split; [done|]); (split; [|exact Hag]);
    (split; [done..| | | | |]); simpl; try done; by eapply tree_reshaped.
Qed.

(** *** Copying *)

Lemma tree_priorities porder s pr M z :
  (∀ n, porder n ≡ₚ map_to_list n) → tree_holds s pr M →
  NoDup (clonePrioritiesForPodsMayBePreempted porder pr).1
  ∧ (z ∈ (clonePrioritiesForPodsMayBePreempted porder pr).1 ↔ ∃ p, p ∈ pods_of M ∧ PodPriority p = z).
Proof.
  intros Ho (L & _ & _ & _ & HP & Hpr). simpl. rw (Ho pr). split; [apply NoDup_fst_map_to_list|].
  transitivity (is_Some (pr !! z)).
  { rw list_elem_of_fmap. split.
    - intros ([k v] & -> & H%elem_of_map_to_list). by exists v.
    - intros [v Hv]. exists (z, v). split; [done|]. by apply elem_of_map_to_list. }
  rw (Hpr z). assert (prio_count z L.*1 = prio_count z (pods_of M)) as -> by (unfold prio_count; by rw HP).
  split.
  - intros H. destruct (filter (λ p, PodPriority p = z) (pods_of M)) as [|p l] eqn:E.
    { unfold prio_count in H. rw E /= in H. by apply is_Some_None in H. }
    assert (p ∈ filter (λ p, PodPriority p = z) (pods_of M)) as [? ?]%list_elem_of_filter by (rw E; set_solver). eauto.
  - intros (p & Hp & Hz). rw decide_False; [by eexists|]. unfold prio_count. intros H%nil_length_inv.
    assert (p ∈ filter (λ p, PodPriority p = z) (pods_of M)) as Hin by by apply list_elem_of_filter.
    rw H in Hin. by apply not_elem_of_nil in Hin.
Qed.

Lemma RM_Clone porder horder norder m P :
  (∀ n, porder n ≡ₚ map_to_list n) → (∀ n, horder n ≡ₚ map_to_list n) → (∀ n, norder n ≡ₚ map_to_list n) →
  RM gates m P →
  ∃ m', m_Clone porder horder norder m = Some m' ∧ RM gates m' P
    ∧ ∀ t z, NoDup (GetPrioritiesForPodsMayBePreempted t m')
        ∧ (z ∈ GetPrioritiesForPodsMayBePreempted t m'
           ↔ ∃ p, p ∈ pods_of (sub (in_bucket (preemptible t)) P) ∧ PodPriority p = z).
Proof.
  intros Hp Hh Hn HM. destruct HM as [HK Hnev Hgt Hbe Haff Hanti Hres]. unfold m_Clone.
  pose proof Hgt as (Lg & HRg & _). pose proof Hbe as (Lb & HRb & _).
  rw (R_Clone _ _ HRb) (R_Clone _ _ HRg). cbn [mbind option_bind].
  eexists. split; [reflexivity|]. split.
  - split; simpl; rw ?map_copy //; [by rw (HR_Clone _ _ _ _ Hh Haff)|by rw (HR_Clone _ _ _ _ Hh Hanti)].
  - intros [] z; by eapply tree_priorities.
Qed.
End maintainer_ok.

(** ** Theorems *)

Section theorems.
Context (gates : FeatureGates).
Context (porder : gmap Z Z → list (Z * Z)) (horder : gmap string nat → list (string * nat))
  (norder : gmap string PodInfo → list (string * PodInfo)).

(** C26: The pods of a node, kept in two splay trees, two hash slices and two
    maps, are one map from pod keys to pods.  From any state that holds the pods
    of [P] (the empty maintainer is one, for the empty map): adding a pod with a
    fresh key and removing a stored pod return without a panic and hold [P] with
    the pod set or deleted; a lookup is the lookup in [P] whatever structure the
    pod is in; the length is the size of [P]; GetPods is the pods of [P] in some
    order; the two affinity slices hold exactly the pods of [P] with (required
    anti-) affinity; and a clone holds [P] too, with each priority of the
    preemptible pods of a type listed once. *)
Theorem node_pods_refine_map (m : PodInfoMaintainer) (P : gmap string PodInfo) (p : PodInfo) (k : string)
    (Hporder : ∀ n, porder n ≡ₚ map_to_list n) (Hhorder : ∀ n, horder n ≡ₚ map_to_list n)
    (Hnorder : ∀ n, norder n ≡ₚ map_to_list n) (HM : RM gates m P) :
  RM gates NewPodInfoMaintainer ∅
  ∧ (P !! PodKey p = None → ∃ m', AddPodInfo gates p m = Some m' ∧ RM gates m' (<[PodKey p := p]> P))
  ∧ (P !! PodKey p = Some p → ∃ m', RemovePodInfo gates p m = Some m' ∧ RM gates m' (delete (PodKey p) P))
  ∧ GetPodInfo k m = Some (P !! k) ∧ m_Len m = Z.of_nat (size P)
  ∧ (∃ l, GetPods norder m = Some l ∧ l ≡ₚ (map_to_list P).*2)
  ∧ GetPodsWithAffinity m ≡ₚ filter (λ p, hasAffinity (pi_Pod p) = true) (map_to_list P).*2
  ∧ GetPodsWithRequiredAntiAffinity m ≡ₚ filter (λ p, hasRequiredAntiAffinity (pi_Pod p) = true) (map_to_list P).*2
  ∧ ∃ m', m_Clone porder horder norder m = Some m' ∧ RM gates m' P
      ∧ ∀ t z, NoDup (GetPrioritiesForPodsMayBePreempted t m')
          ∧ (z ∈ GetPrioritiesForPodsMayBePreempted t m'
             ↔ ∃ q k', P !! k' = Some q ∧ bucket q = preemptible t ∧ PodPriority q = z).
Proof.
  split_and!; [by apply RM_New|by apply RM_Add|by apply RM_Remove|by eapply RM_GetPodInfo|by eapply RM_Len
    |by eapply RM_GetPods| | |].
  - rw -(pods_of_sub (λ p, hasAffinity (pi_Pod p))). apply (HR_Items PodKey), HM.
  - rw -(pods_of_sub (λ p, hasRequiredAntiAffinity (pi_Pod p))). apply (HR_Items PodKey), HM.
  - destruct (RM_Clone gates porder horder norder m P) as (m' & E & HM' & Hpr); [done..|].
    exists m'. split_and!; [done..|]. intros t z. destruct (Hpr t z) as [? Hz]. split; [done|]. rw Hz.
    pose proof (rm_keyed _ _ _ HM) as HK. split.
    + intros (q & Hq%(elem_of_pods_of _ _ (keyed_sub _ _ HK)) & Hqz).
      apply sub_lookup in Hq as [Hq Hb]. exists q, (PodKey q). split_and!; [done| |done]. by apply in_bucket_eq.
    + intros (q & k' & Hq & Hb & Hqz). pose proof (HK _ _ Hq) as <-. exists q. split; [|done].
      apply (elem_of_pods_of _ _ (keyed_sub _ _ HK)), sub_lookup. split; [done|]. by apply in_bucket_eq.
Qed.

End theorems.

(** C30: The candidates for preemption are exactly right: in any state that holds
    the pods of [P], GetVictimCandidates returns the bound, typed, not
    placeholder pods of [P] of the requested resource type whose priority is
    strictly between the two bounds, each once, from the least important to the
    most important in the order of the pods.  (Its traversal prunes subtrees by
    the visitor's answer.) *)
Theorem victim_candidates_exact (gates : FeatureGates) (m : PodInfoMaintainer) (P : gmap string PodInfo) (pt : PodPartitionInfo)
    (HM : RM gates m P) :
  ∃ l, GetVictimCandidates pt m = Some l
    ∧ StronglySorted (λ p q, PodInfo_Compare p q = false) l
    ∧ l ≡ₚ filter (λ p, (priorityLower pt < PodPriority p < priorityUpper pt)%Z
                        ∧ bucket p = preemptible (pt_resourceType pt)) (map_to_list P).*2.
Proof.
  destruct (RM_victims gates m P pt HM) as (l & E & HS & HP). exists l. split_and!; [done..|]. rw HP pods_of_sub.
  rw list_filter_filter. apply Permutation_refl', list_filter_iff. intros p.
  rw in_bucket_eq. unfold between. rw andb_true_iff !Z.ltb_lt. tauto.
Qed.

(** ** Examples *)

Definition bound_pod (uid : string) (prio milliCPU : Z) : Pod :=
  {| Name := uid; Namespace := "ns"; UID := uid; CreationTimestamp := 0; Annotations := None;
     OwnerReferences := []; NodeName := "node"; SchedulerName := ""; PriorityClassName := "";
     Priority := Some prio; PreemptionPolicy := None;
     Containers := [{| c_Name := "c"; c_Requests := {[ResourceCPU := (milliCPU * 1000000)%Z]}; c_Ports := [] |}];
     InitContainers := []; Conditions := []; Labels := ∅; Tolerations := []; Affinity := None;
     Overhead := None; StartTime := None; DeletionTimestamp := None |}.

Definition all_gates : FeatureGates :=
  {| LocalStorageCapacityIsolation := true; PodOverhead := true; ResourceReservation := true |}.

Definition bound_info (uid : string) (prio milliCPU : Z) : PodInfo :=
  NewPodInfo map_to_list all_gates (λ _, ∅) (bound_pod uid prio milliCPU).

Lemma node_pods_refine_map_witness :
  ∃ m m', AddPodInfo all_gates (bound_info "a" 5 100) NewPodInfoMaintainer = Some m
    ∧ GetPodInfo "a" m = Some (Some (bound_info "a" 5 100)) ∧ m_Len m = 1%Z
    ∧ RemovePodInfo all_gates (bound_info "a" 5 100) m = Some m' ∧ m_Len m' = 0%Z.
Proof.
  destruct (node_pods_refine_map all_gates map_to_list map_to_list map_to_list NewPodInfoMaintainer ∅
    (bound_info "a" 5 100) "a" (λ _, Permutation_refl _) (λ _, Permutation_refl _) (λ _, Permutation_refl _)
    (RM_New _ (bound_info "a" 5 100))) as (_ & HAdd & _).
  destruct (HAdd eq_refl) as (m & E & HM).
  destruct (node_pods_refine_map all_gates map_to_list map_to_list map_to_list m _
    (bound_info "a" 5 100) "a" (λ _, Permutation_refl _) (λ _, Permutation_refl _) (λ _, Permutation_refl _) HM)
    as (_ & _ & HRem & HG & HL & _).
  destruct (HRem ltac:(vm_compute; reflexivity)) as (m' & E' & HM').
  exists m, m'. split; [exact E|]. split; [rw HG; vm_compute; reflexivity|].
  split; [rw HL; vm_compute; reflexivity|]. split; [exact E'|].
  rw (RM_Len _ _ _ HM'). vm_compute. reflexivity.
Defined.

Lemma victim_candidates_exact_witness :
  ∃ m l, AddPodInfo all_gates (bound_info "a" 5 100) NewPodInfoMaintainer = Some m
    ∧ GetVictimCandidates (NewPartitionInfo 0 9 GuaranteedPod) m = Some l
    ∧ l ≡ₚ [bound_info "a" 5 100].
Proof.
  destruct (RM_Add all_gates NewPodInfoMaintainer ∅ (bound_info "a" 5 100) (RM_New _ (bound_info "a" 5 100)) eq_refl)
    as (m & E & HM).
  destruct (victim_candidates_exact all_gates m _ (NewPartitionInfo 0 9 GuaranteedPod) HM) as (l & El & _ & HP).
  exists m, l. split; [exact E|]. split; [exact El|]. rw HP. vm_compute. reflexivity.
Defined.
