(* ===== verification/Numa.v ===== *)
(** * The NUMA topology of a node (pkg/framework/api/nodeinfo.go, types.go)

    [NumaTopologyStatus]: for each NUMA node its socket and, per resource, what
    is allocatable, what is available and which pods use it; the allocations of
    the pods; what the pods that share cores request, and what is left to them:
    the CPU and memory of the NUMA nodes nobody is bound to; and the free NUMA
    nodes of each socket.

    [None] is a panic (a nil pointer).  The pointers [Allocatable] and
    [Available] of a resource status, and the entries of the two maps, are never
    nil in a status the code builds.  Quantities are unbounded, as in
    apimachinery; the [Resource] sums are int64.  Map iterations go through an
    order that is a parameter. *)
From S2P Require Import Prelude GoStrings PodModel PodState Splay SplayRefine SplayProps SplaySpec HashSlice Resource MicroTopo PodInfos.

Local Open Scope godel_scope.
Local Open Scope string_scope.

(** ** Data *)

Record ResourceStatus := mkStatus { Allocatable : Quantity; Available : Quantity; Users : gset string }.
Record NumaStatus := mkNuma { socketId : Z; resourceStatuses : gmap string ResourceStatus }.
Record PodAllocation := mkAllocation { agent : bool; numaAllocations : gmap Z ResourceList }.

Record NumaTopologyStatus := mkTopology {
  podAllocations : gmap string PodAllocation;
  topology : gmap Z NumaStatus;
  requestsOfSharedCores : Resource;
  availableOfSharedCores : Resource;
  socketToFreeNumasOfConflictResources : gmap Z (gset Z)
}.

Definition set_podAllocations (m : gmap string PodAllocation) (n : NumaTopologyStatus) : NumaTopologyStatus :=
  mkTopology m (topology n) (requestsOfSharedCores n) (availableOfSharedCores n) (socketToFreeNumasOfConflictResources n).
Definition set_topology (t : gmap Z NumaStatus) (n : NumaTopologyStatus) : NumaTopologyStatus :=
  mkTopology (podAllocations n) t (requestsOfSharedCores n) (availableOfSharedCores n) (socketToFreeNumasOfConflictResources n).
Definition set_requests (r : Resource) (n : NumaTopologyStatus) : NumaTopologyStatus :=
  mkTopology (podAllocations n) (topology n) r (availableOfSharedCores n) (socketToFreeNumasOfConflictResources n).
Definition set_available (r : Resource) (n : NumaTopologyStatus) : NumaTopologyStatus :=
  mkTopology (podAllocations n) (topology n) (requestsOfSharedCores n) r (socketToFreeNumasOfConflictResources n).
Definition set_free (f : gmap Z (gset Z)) (n : NumaTopologyStatus) : NumaTopologyStatus :=
  mkTopology (podAllocations n) (topology n) (requestsOfSharedCores n) (availableOfSharedCores n) f.

(** A status reached through the two maps, and the write through its pointer. *)
Definition status (n : NumaTopologyStatus) (i : Z) (r : string) : option ResourceStatus :=
  st ← topology n !! i; resourceStatuses st !! r.
Definition set_status (i : Z) (r : string) (rs : ResourceStatus) (n : NumaTopologyStatus) : NumaTopologyStatus :=
  set_topology (alter (λ st, mkNuma (socketId st) (<[r := rs]> (resourceStatuses st))) i (topology n)) n.

Definition newResourceStatus : ResourceStatus := mkStatus 0 0 ∅.

(** [newNumaTopologyStatus], with [NewResource(nil)] for what is available. *)
Definition newNumaTopologyStatus (requests : Resource) : NumaTopologyStatus :=
  mkTopology ∅ ∅ requests zeroResource ∅.

Definition IsConflictResourcesForDifferentQoS (name : string) : bool :=
  (name ≟ ResourceCPU) || (name ≟ ResourceMemory).

(** [strconv.Atoi] with the error ignored: 0 for what is not a number, and the
    nearest int for a number out of range. *)
Definition Atoi_ignored (s : string) : Z :=
  match parse_signed s with
  | None => 0%Z
  | Some n => Z.max i64_min (Z.min i64_max n)
  end.

(** ** The custom node resource *)

Record Allocation := { Consumer : string; alloc_Requests : option ResourceList }.
(** A zone of type NUMA below a socket. *)
Record ChildZone := {
  child_Type : string; child_Name : string; child_Allocatable : option ResourceList; Allocations : list Allocation
}.
Record TopologyZone := { zone_Type : string; zone_Name : string; Children : list ChildZone }.
(** [None] in the list is a nil zone. *)
Record CNR := { cnr_Name : string; cnr_Allocatable : option ResourceList; cnr_TopologyZone : list (option TopologyZone) }.

Definition TopologyTypeSocket : string := "Socket".
Definition TopologyTypeNuma : string := "Numa".

Section numa.
(** The orders of iteration, a feature gate, and the quantity parser. *)
Context (order : gmap string Z → list (string * Z)) (lsci : bool).
Context (norder : gmap Z ResourceList → list (Z * ResourceList)).
Context (sorder : gmap string ResourceStatus → list (string * ResourceStatus)).
Context (aorder : gmap string PodAllocation → list (string * PodAllocation)).
Context (ParseQuantity : string → option Quantity).
Implicit Types n : NumaTopologyStatus.

(** ** What is left to shared cores, and the free NUMA nodes *)

Definition updateAvailableOfSharedCores (isAdd needUpdate : bool) (name : string) (val : Quantity) n
    : NumaTopologyStatus :=
  if needUpdate && IsConflictResourcesForDifferentQoS name then
    if isAdd then set_available (Add order lsci {[name := val]} (availableOfSharedCores n)) n
    else set_available (Sub order lsci {[name := val]} (availableOfSharedCores n)) n
  else n.

Definition updateFreeNumaForConflictResources (isAdd : bool) (numaId socketId : Z) n : NumaTopologyStatus :=
  let free := socketToFreeNumasOfConflictResources n in
  if isAdd then set_free (<[socketId := {[numaId]} ∪ default ∅ (free !! socketId)]> free) n
  else
    let s := default ∅ (free !! socketId) ∖ {[numaId]} in
    let free := match free !! socketId with Some _ => <[socketId := s]> free | None => free end in
    set_free (if size s ≟ 0%nat then delete socketId free else free) n.

(** ** Adding and removing a pod *)

(** The body of the loop over the resources of one NUMA node: the second
    component is [isFree]. *)
Definition add_resource (podKey : string) (i : Z) (acc : option (NumaTopologyStatus * bool)) (kv : string * Quantity)
    : option (NumaTopologyStatus * bool) :=
  '(n, isFree) ← acc;
  rs ← status n i kv.1;
  if bool_decide (podKey ∈ Users rs) then Some (n, isFree)
  else
    let isEmpty := bool_decide (Users rs = ∅) in
    let n := set_status i kv.1 (mkStatus (Allocatable rs) (Available rs - kv.2) ({[podKey]} ∪ Users rs)) n in
    let n := updateAvailableOfSharedCores false isEmpty kv.1 (Allocatable rs) n in
    Some (n, if IsConflictResourcesForDifferentQoS kv.1 then false else isFree).

Definition add_numa (podKey : string) (acc : option NumaTopologyStatus) (kv : Z * ResourceList)
    : option NumaTopologyStatus :=
  n ← acc;
  match topology n !! kv.1 with
  | None => Some n
  | Some st =>
      '(n, isFree) ← foldl (add_resource podKey kv.1) (Some (n, true)) (order kv.2);
      Some (if isFree : bool then n else updateFreeNumaForConflictResources false kv.1 (socketId st) n)
  end.

Definition numa_AddPod (p : PodInfo) n : option NumaTopologyStatus :=
  let n := if pi_IsSharedCores p && isGuaranteed p
           then set_requests (AddResource order lsci (Res p) (requestsOfSharedCores n)) n else n in
  let podKey := GeneratePodKey (pi_Pod p) in
  let isAgent := match podAllocations n !! podKey with Some a => agent a | None => false end in
  let annotated :=
    match anno_lookup (pi_Pod p) MicroTopologyKey with
    | Some v =>
        if isAgent then Some n
        else match UnmarshalMicroTopology ParseQuantity v with
             | None => None
             | Some a => Some (if (0 <? size a)%nat
                               then set_podAllocations (<[podKey := mkAllocation false a]> (podAllocations n)) n
                               else n)
             end
    | None => Some n
    end in
  match annotated with
  | None => Some n
  | Some n =>
      match podAllocations n !! podKey with
      | None => Some n
      | Some a => foldl (add_numa podKey) (Some n) (norder (numaAllocations a))
      end
  end.

Definition remove_resource (podKey : string) (i : Z) (acc : option (NumaTopologyStatus * bool)) (kv : string * Quantity)
    : option (NumaTopologyStatus * bool) :=
  '(n, isFree) ← acc;
  rs ← status n i kv.1;
  if negb (bool_decide (podKey ∈ Users rs)) then Some (n, isFree)
  else
    let users := Users rs ∖ {[podKey]} in
    let isEmpty := bool_decide (users = ∅) in
    let n := set_status i kv.1 (mkStatus (Allocatable rs) (Available rs + kv.2) users) n in
    let n := updateAvailableOfSharedCores true isEmpty kv.1 (Allocatable rs) n in
    Some (n, if IsConflictResourcesForDifferentQoS kv.1 && negb isEmpty then false else isFree).

(** No conflict resource of the NUMA node has a user. *)
Definition all_free (st : NumaStatus) : bool :=
  foldl (λ isFree kv, if IsConflictResourcesForDifferentQoS kv.1 && bool_decide (Users kv.2 ≠ ∅)
                      then false else isFree) true (sorder (resourceStatuses st)).

Definition remove_numa (podKey : string) (acc : option NumaTopologyStatus) (kv : Z * ResourceList)
    : option NumaTopologyStatus :=
  n ← acc;
  match topology n !! kv.1 with
  | None => Some n
  | Some _ =>
      '(n, isFree) ← foldl (remove_resource podKey kv.1) (Some (n, true)) (order kv.2);
      st ← topology n !! kv.1;
      Some (if (isFree : bool) && all_free st then updateFreeNumaForConflictResources true kv.1 (socketId st) n else n)
  end.

Definition numa_RemovePod (p : PodInfo) (preempt notChangedNumaTopology : bool) n : option NumaTopologyStatus :=
  let n := if pi_IsSharedCores p && isGuaranteed p
           then set_requests (SubResource order lsci (Res p) (requestsOfSharedCores n)) n else n in
  if negb preempt && notChangedNumaTopology then Some n
  else
    let podKey := GeneratePodKey (pi_Pod p) in
    match podAllocations n !! podKey with
    | None => Some n
    | Some a =>
        n ← foldl (remove_numa podKey) (Some n) (norder (numaAllocations a));
        Some (if negb preempt && negb notChangedNumaTopology
              then set_podAllocations (delete podKey (podAllocations n)) n else n)
    end.

(** [updateNonNativeResource]; the status is [None] when the feature gate is off. *)
Definition updateNonNativeResource (p : PodInfo) (isAdd preempt : bool) (o : option NumaTopologyStatus)
    : option (option NumaTopologyStatus) :=
  match o with
  | None => Some None
  | Some n =>
      if isAdd then Some <$> numa_AddPod p n
      else
        let notChanged := match podAllocations n !! GeneratePodKey (pi_Pod p) with
                          | Some a => agent a
                          | None => true
                          end in
        Some <$> numa_RemovePod p preempt notChanged n
  end.

(** ** Reading a custom node resource *)

Definition parse_allocatable (acc : NumaTopologyStatus * NumaStatus) (kv : string * Quantity)
    : NumaTopologyStatus * NumaStatus :=
  let '(n, st) := acc in
  let users := match resourceStatuses st !! kv.1 with Some rs => Users rs | None => ∅ end in
  (updateAvailableOfSharedCores true true kv.1 kv.2 n,
   mkNuma (socketId st) (<[kv.1 := mkStatus kv.2 kv.2 users]> (resourceStatuses st))).

Definition parse_request (podKey : string) (i : Z) (acc : NumaTopologyStatus * NumaStatus) (kv : string * Quantity)
    : NumaTopologyStatus * NumaStatus :=
  let '(n, st) := acc in
  if (MilliValue kv.2 =? 0)%Z then (n, st)
  else
    let st := match resourceStatuses st !! kv.1 with
              | Some _ => st
              | None => mkNuma (socketId st) (<[kv.1 := newResourceStatus]> (resourceStatuses st))
              end in
    (set_podAllocations (alter (λ a, mkAllocation (agent a)
       (alter (λ rl, <[kv.1 := kv.2]> rl) i (numaAllocations a))) podKey (podAllocations n)) n, st).

Definition parse_allocation (i : Z) (acc : NumaTopologyStatus * NumaStatus) (al : Allocation)
    : NumaTopologyStatus * NumaStatus :=
  let '(n, st) := acc in
  match alloc_Requests al with
  | None => (n, st)
  | Some reqs =>
      let a := default (mkAllocation false ∅) (podAllocations n !! Consumer al) in
      let rl := default ∅ (numaAllocations a !! i) in
      let a := mkAllocation true (<[i := rl]> (numaAllocations a)) in
      foldl (parse_request (Consumer al) i)
        (set_podAllocations (<[Consumer al := a]> (podAllocations n)) n, st) (order reqs)
  end.

Definition parse_child (socketID : Z) n (z : ChildZone) : NumaTopologyStatus :=
  if negb (child_Type z ≟ TopologyTypeNuma) then n
  else
    let numaID := Atoi_ignored (child_Name z) in
    let '(n, st) :=
      match child_Allocatable z with
      | None => (n, mkNuma socketID ∅)
      | Some rl =>
          let '(n, st) := foldl parse_allocatable (n, mkNuma socketID ∅) (order rl) in
          (updateFreeNumaForConflictResources true numaID socketID n, st)
      end in
    let '(n, st) := foldl (parse_allocation numaID) (n, st) (Allocations z) in
    set_topology (<[numaID := st]> (topology n)) n.

Definition parse_zone n (z : option TopologyZone) : NumaTopologyStatus :=
  match z with
  | None => n
  | Some z => if negb (zone_Type z ≟ TopologyTypeSocket) then n
              else foldl (parse_child (Atoi_ignored (zone_Name z))) n (Children z)
  end.

(** The allocations known before that the resource does not report: kept when
    the pod is still there and its annotation is readable. *)
Definition keep_allocation (pods : PodInfoMaintainer) (acc : option NumaTopologyStatus) (kv : string * PodAllocation)
    : option NumaTopologyStatus :=
  n ← acc;
  match podAllocations n !! kv.1 with
  | Some _ => Some n
  | None =>
      match ParsePodKey kv.1 with
      | None => Some n
      | Some (_, _, uid) =>
          o ← GetPodInfo uid pods;
          match o : option PodInfo with
          | None => Some n
          | Some p =>
              match anno_lookup (pi_Pod p) MicroTopologyKey with
              | None => Some n
              | Some v =>
                  match UnmarshalMicroTopology ParseQuantity v with
                  | None => Some n
                  | Some a =>
                      if size a ≟ 0%nat then Some n
                      else Some (set_podAllocations (<[kv.1 := mkAllocation false a]> (podAllocations n)) n)
                  end
              end
          end
      end
  end.

(** Taking the allocation of a pod on one NUMA node: the loop is over the
    resources of the node. *)
Definition take_resource (podKey : string) (i : Z) (rl : ResourceList) (acc : option (NumaTopologyStatus * bool))
    (kv : string * ResourceStatus) : option (NumaTopologyStatus * bool) :=
  '(n, isFree) ← acc;
  rs ← status n i kv.1;
  let podRequest := default 0%Z (rl !! kv.1) in
  if (MilliValue podRequest =? 0)%Z then Some (n, isFree)
  else
    let isEmpty := bool_decide (Users rs = ∅) in
    let n := set_status i kv.1 (mkStatus (Allocatable rs) (Available rs - podRequest) ({[podKey]} ∪ Users rs)) n in
    let n := updateAvailableOfSharedCores false isEmpty kv.1 (Allocatable rs) n in
    Some (n, if IsConflictResourcesForDifferentQoS kv.1 then false else isFree).

Definition take_numa (podKey : string) (acc : option NumaTopologyStatus) (kv : Z * ResourceList)
    : option NumaTopologyStatus :=
  n ← acc;
  st ← topology n !! kv.1;
  '(n, isFree) ← foldl (take_resource podKey kv.1 kv.2) (Some (n, true)) (sorder (resourceStatuses st));
  Some (if isFree : bool then n else updateFreeNumaForConflictResources false kv.1 (socketId st) n).

Definition take_pod (acc : option NumaTopologyStatus) (kv : string * PodAllocation) : option NumaTopologyStatus :=
  foldl (take_numa kv.1) acc (norder (numaAllocations kv.2)).

Definition parseNumaTopologyStatus (cnr : CNR) (pods : PodInfoMaintainer) n : option NumaTopologyStatus :=
  let t := foldl parse_zone (newNumaTopologyStatus (requestsOfSharedCores n)) (cnr_TopologyZone cnr) in
  t ← foldl (keep_allocation pods) (Some t) (aorder (podAllocations n));
  foldl take_pod (Some t) (aorder (podAllocations t)).

Definition numa_removeCNR n : NumaTopologyStatus := newNumaTopologyStatus (requestsOfSharedCores n).

(** ** Queries *)

Definition GetNumaNum n : nat := size (topology n).
Definition GetNumaList (torder : gmap Z NumaStatus → list (Z * NumaStatus)) n : list Z := (torder (topology n)).*1.
Definition GetFreeNumasInSocketForConflictResources (socket : Z) n : gset Z :=
  default ∅ (socketToFreeNumasOfConflictResources n !! socket).

Definition IsEmptyForConflictResources (st : NumaStatus) : bool :=
  forallb (λ kv : string * ResourceStatus,
             bool_decide (Users kv.2 = ∅) || negb (IsConflictResourcesForDifferentQoS kv.1)) (sorder (resourceStatuses st)).
Definition IsNumaEmptyForConflictResources (numa : Z) n : bool :=
  match topology n !! numa with None => true | Some st => IsEmptyForConflictResources st end.

Definition GetFreeResourcesInNuma (numa : Z) n : option ResourceList :=
  st ← topology n !! numa;
  Some (foldl (λ rl kv, <[kv.1 := Available kv.2]> rl) ∅ (sorder (resourceStatuses st))).
Definition GetFreeResourcesInNumaList (numas : list Z) n : option ResourceList :=
  foldl (λ acc numa, rl ← acc; st ← topology n !! numa;
           Some (foldl (λ rl kv, <[kv.1 := (default 0 (rl !! kv.1) + Available kv.2)%Z]> rl) rl
                   (sorder (resourceStatuses st)))) (Some ∅) numas.

Definition shared_sub (res : Resource) (kv : string * ResourceStatus) : Resource :=
  if negb (IsConflictResourcesForDifferentQoS kv.1) then res
  else if bool_decide (Users kv.2 = ∅) then Sub order lsci {[kv.1 := Allocatable kv.2]} res else res.
Definition GetResourcesAvailableForSharedCoresPods (unavailable : list Z) n : option Resource :=
  foldl (λ acc numa, res ← acc; st ← topology n !! numa;
           Some (foldl shared_sub res (sorder (resourceStatuses st))))
    (Some (availableOfSharedCores n)) unavailable.

Definition GetResourcesRequestsOfSharedCoresPods n : Resource := requestsOfSharedCores n.

(** [HasResourceInTopology] returns in the first iteration. *)
Definition HasResourceInTopology (torder : gmap Z NumaStatus → list (Z * NumaStatus)) (rName : string) n : bool :=
  match torder (topology n) with
  | [] => false
  | (_, st) :: _ => bool_decide (is_Some (resourceStatuses st !! rName))
  end.
End numa.
