(* ===== verification/NumaProps.v ===== *)
(** * The NUMA accounting invariant

    [NumaOK]: what is available on a NUMA node is what is allocatable less the
    requests of its users; what is left to shared cores is the CPU and memory of
    the NUMA nodes without users; the free NUMA nodes of a socket are those
    without users of CPU and memory.  Adding and removing pods, and reading a
    custom node resource, keep it. *)
From S2P Require Import Prelude GoStrings PodModel PodState Splay SplayRefine SplayProps SplaySpec HashSlice Resource MicroTopo PodInfos PodInfosProps Numa.

Local Open Scope godel_scope.
Local Open Scope string_scope.

Implicit Types n : NumaTopologyStatus.

(** ** Views of a status *)

(** The request of pod [k] for resource [r] of NUMA node [i]. *)
Definition req n (k : string) (i : Z) (r : string) : option Quantity :=
  a ← podAllocations n !! k; rl ← numaAllocations a !! i; rl !! r.
Definition reqz n k i r : Z := default 0%Z (req n k i r).
(** What is allocatable, and the users. *)
Definition usage n (i : Z) (r : string) : option (Quantity * gset string) :=
  (λ rs, (Allocatable rs, Users rs)) <$> status n i r.
Definition socket n (i : Z) : option Z := socketId <$> topology n !! i.

Definition conflict_dim (d : Dim) : bool := match d with DCPU | DMem => true | _ => false end.
(** What an unused NUMA node leaves to shared cores. *)
Definition share (d : Dim) (st : NumaStatus) : Z :=
  match resourceStatuses st !! dim_name d with
  | Some rs => if bool_decide (Users rs = ∅) then dim_value d (Allocatable rs) else 0%Z
  | None => 0%Z
  end.
(** No pod uses CPU or memory of the NUMA node. *)
Definition numa_unused n (i : Z) : Prop :=
  ∀ r a U, usage n i r = Some (a, U) → IsConflictResourcesForDifferentQoS r = true → U = ∅.

Record Core n : Prop := {
  c_avail : ∀ i r rs, status n i r = Some rs →
    Available rs = (Allocatable rs - ssum (λ k, reqz n k i r) (Users rs))%Z;
  c_users : ∀ i r rs k, status n i r = Some rs → k ∈ Users rs → is_Some (req n k i r);
  c_shared : ∀ d, amount (availableOfSharedCores n) d
    = if conflict_dim d then wrap64 (msum (share d) (topology n)) else 0%Z;
  c_wf : wf_resource (availableOfSharedCores n)
}.

Record FreeOK n : Prop := {
  f_free : ∀ s i, i ∈ GetFreeNumasInSocketForConflictResources s n ↔ socket n i = Some s ∧ numa_unused n i;
  f_nonempty : ∀ s X, socketToFreeNumasOfConflictResources n !! s = Some X → X ≠ ∅
}.

Definition NumaOK n : Prop := Core n ∧ FreeOK n.

(** ** Writing a status *)

Lemma status_set n i r rs i' r' :
  is_Some (status n i r) →
  status (set_status i r rs n) i' r' = if decide (i' = i ∧ r' = r) then Some rs else status n i' r'.
Proof.
  unfold status, set_status. intros [x Hx]. simpl. destruct (topology n !! i) as [st|] eqn:Est; [|done].
  destruct (decide (i' = i)) as [->|Hi].
  - rw lookup_alter_eq Est /=. destruct (decide (r' = r)) as [->|Hr].
    + rw lookup_insert_eq decide_True //.
    + rw lookup_insert_ne // decide_False //. by intros [_ ?].
  - rw lookup_alter_ne // decide_False //. by intros [? _].
Qed.

Lemma socket_set n i r rs j : socket (set_status i r rs n) j = socket n j.
Proof.
  unfold socket, set_status. simpl. destruct (decide (j = i)) as [->|Hj].
  - rw lookup_alter_eq. by destruct (topology n !! i).
  - by rw lookup_alter_ne.
Qed.

Lemma share_set n i r rs rs' d :
  status n i r = Some rs →
  let b U := if decide (dim_name d = r ∧ U = ∅) then dim_value d (Allocatable rs) else 0%Z in
  Allocatable rs' = Allocatable rs →
  msum (share d) (topology (set_status i r rs' n)) = (msum (share d) (topology n) - b (Users rs) + b (Users rs'))%Z.
Proof.
  intros Hs b Ha. unfold status in Hs. destruct (topology n !! i) as [st|] eqn:Est; [|done]. simpl in Hs.
  unfold set_status. simpl. rw (alter_alt_Some _ _ _ _ Est) (msum_set _ _ _ _ _ Est). unfold share, b. simpl.
  destruct (decide (dim_name d = r)) as [<-|Hr].
  - rw lookup_insert_eq Hs Ha. repeat case_bool_decide; repeat case_decide; naive_solver lia.
  - rw lookup_insert_ne //. rw !decide_False; [lia|naive_solver..].
Qed.

(** The users of every resource change by [g], and nothing else but what is
    computed from them. *)
Definition Changed n n' (g : Z → string → gset string → gset string) : Prop :=
  podAllocations n' = podAllocations n ∧ requestsOfSharedCores n' = requestsOfSharedCores n
  ∧ (∀ j, socket n' j = socket n j)
  ∧ ∀ j r, usage n' j r = (λ aU, (aU.1, g j r aU.2)) <$> usage n j r.

Lemma Changed_refl n g : (∀ j r a U, usage n j r = Some (a, U) → g j r U = U) → Changed n n g.
Proof.
  intros Hg. split_and!; [done..|]. intros j r. specialize (Hg j r).
  destruct (usage n j r) as [[a U]|]; simpl; [by rw (Hg a)|done].
Qed.

Lemma Changed_trans n1 n2 n3 g1 g2 g :
  Changed n1 n2 g1 → Changed n2 n3 g2 → (∀ j r U, g j r U = g2 j r (g1 j r U)) → Changed n1 n3 g.
Proof.
  intros (H1 & H2 & H3 & H4) (E1 & E2 & E3 & E4) Hg. split_and!; [congruence..| |].
  - intros j. by rw E3 H3.
  - intros j r. rw E4 H4. destruct (usage n1 j r) as [[a U]|]; simpl; [by rw Hg|done].
Qed.

Lemma Changed_ext n n' g g' : Changed n n' g → (∀ j r U, g' j r U = g j r U) → Changed n n' g'.
Proof.
  intros (H1 & H2 & H3 & H4) Hg. split_and!; [done..|]. intros j r. rw H4.
  destruct (usage n j r) as [[a U]|]; simpl; [by rw Hg|done].
Qed.

Lemma Changed_req n n' g k i r : Changed n n' g → req n' k i r = req n k i r.
Proof. intros (H & _). unfold req. by rw H. Qed.

Lemma Changed_known n n' g i r : Changed n n' g → is_Some (status n' i r) ↔ is_Some (status n i r).
Proof.
  intros (_ & _ & _ & H). specialize (H i r). unfold usage in H.
  rw -(fmap_is_Some (λ rs, (Allocatable rs, Users rs)) (status n' i r)) H !fmap_is_Some. done.
Qed.

Lemma usage_status n i r rs : status n i r = Some rs → usage n i r = Some (Allocatable rs, Users rs).
Proof. unfold usage. by intros ->. Qed.

(** ** The free NUMA nodes *)

Record FreeExcept (i : Z) n : Prop := {
  fe_free : ∀ s j, j ≠ i → j ∈ GetFreeNumasInSocketForConflictResources s n ↔ socket n j = Some s ∧ numa_unused n j;
  fe_socket : ∀ s, i ∈ GetFreeNumasInSocketForConflictResources s n → socket n i = Some s;
  fe_nonempty : ∀ s X, socketToFreeNumasOfConflictResources n !! s = Some X → X ≠ ∅
}.

Lemma FreeOK_except i n : FreeOK n → FreeExcept i n.
Proof. intros [Hf Hne]. split; [intros; apply Hf|intros s []%Hf; done|done]. Qed.

Lemma unused_changed n n' g j :
  Changed n n' g → (∀ r U, g j r U = U) → numa_unused n' j ↔ numa_unused n j.
Proof.
  intros (_ & _ & _ & HU) Hg. unfold numa_unused. split; intros H r a U Hu Hr.
  - apply (H r a U); [|done]. by rw HU Hu /= Hg.
  - apply (H r a U); [|done]. rw HU in Hu. destruct (usage n j r) as [[a' U']|]; [|done].
    simpl in Hu. by rw Hg in Hu.
Qed.

Lemma except_changed i n n' g :
  FreeExcept i n → Changed n n' g → (∀ j r U, j ≠ i → g j r U = U) →
  socketToFreeNumasOfConflictResources n' = socketToFreeNumasOfConflictResources n → FreeExcept i n'.
Proof.
  intros [Hf Hs Hne] HCh Hg HF.
  assert (∀ s, GetFreeNumasInSocketForConflictResources s n' = GetFreeNumasInSocketForConflictResources s n) as HG
    by (intros s; unfold GetFreeNumasInSocketForConflictResources; by rw HF).
  split.
  - intros s j Hj. rw HG (Hf s j Hj) (unused_changed n n' g j HCh); [|by intros; apply Hg].
    destruct HCh as (_ & _ & -> & _). done.
  - intros s. rw HG. destruct HCh as (_ & _ & -> & _). apply Hs.
  - by rw HF.
Qed.

Lemma except_ok i n :
  FreeExcept i n → (∀ s, socket n i = Some s → i ∈ GetFreeNumasInSocketForConflictResources s n ↔ numa_unused n i) → FreeOK n.
Proof.
  intros [Hf Hs Hne] Hi. split; [|done]. intros s j. destruct (decide (j = i)) as [->|Hj]; [|by apply Hf]. split.
  - intros H. pose proof (Hs s H) as Hsock. split; [done|]. by apply (Hi s).
  - intros [Hsock Hu]. by apply (Hi s).
Qed.

Lemma updateFree_members isAdd i s n s' j :
  j ∈ GetFreeNumasInSocketForConflictResources s' (updateFreeNumaForConflictResources isAdd i s n)
  ↔ if isAdd then (j = i ∧ s' = s) ∨ j ∈ GetFreeNumasInSocketForConflictResources s' n
    else j ∈ GetFreeNumasInSocketForConflictResources s' n ∧ ¬ (j = i ∧ s' = s).
Proof.
  unfold GetFreeNumasInSocketForConflictResources, updateFreeNumaForConflictResources. destruct isAdd; simpl.
  - destruct (decide (s' = s)) as [->|Hs]; [rw lookup_insert_eq /=; set_solver|rw lookup_insert_ne //; naive_solver].
  - set (free := socketToFreeNumasOfConflictResources n). set (X := default ∅ (free !! s) ∖ {[i]}).
    assert (default ∅ ((if size X ≟ 0%nat then delete s (match free !! s with Some _ => <[s:=X]> free | None => free end)
      else match free !! s with Some _ => <[s:=X]> free | None => free end) !! s')
      = if decide (s' = s) then X else default ∅ (free !! s')) as ->; last first.
    { destruct (decide (s' = s)) as [->|]; unfold X; [set_solver|naive_solver]. }
    destruct (decide (s' = s)) as [->|Hs]; case_bool_decide as Hsz.
    + rw lookup_delete_eq /=. apply size_empty_inv in Hsz. fold_leibniz. done.
    + destruct (free !! s) eqn:E; [by rw lookup_insert_eq|]. exfalso. apply Hsz.
      assert (X = ∅) as -> by (unfold X; simpl default; set_solver). apply size_empty.
    + rw lookup_delete_ne //. destruct (free !! s); rw ?lookup_insert_ne //.
    + destruct (free !! s); rw ?lookup_insert_ne //.
Qed.

Lemma updateFree_nonempty isAdd i s n :
  (∀ s' X, socketToFreeNumasOfConflictResources n !! s' = Some X → X ≠ ∅) →
  ∀ s' X, socketToFreeNumasOfConflictResources (updateFreeNumaForConflictResources isAdd i s n) !! s' = Some X → X ≠ ∅.
Proof.
  intros Hne s' X. unfold updateFreeNumaForConflictResources. destruct isAdd; simpl.
  - intros [[<- <-]|[_ ?]]%lookup_insert_Some; [set_solver|by eapply Hne].
  - set (free := socketToFreeNumasOfConflictResources n). set (Y := default ∅ (free !! s) ∖ {[i]}).
    case_bool_decide as Hsz.
    + intros [Hs H]%lookup_delete_Some. destruct (free !! s); [rw lookup_insert_ne // in H|]; by eapply Hne.
    + destruct (free !! s); [|by eapply Hne]. intros [[<- <-]|[_ ?]]%lookup_insert_Some; [|by eapply Hne].
      intros HY. apply Hsz. rw HY. apply size_empty.
Qed.

Lemma updateFree_ok isAdd i s n :
  FreeExcept i n → socket n i = Some s → (numa_unused n i ↔ isAdd = true) →
  FreeOK (updateFreeNumaForConflictResources isAdd i s n).
Proof.
  intros [Hf Hs Hne] Hsock Hu. split; [|by apply updateFree_nonempty]. intros s' j.
  assert (∀ j, socket (updateFreeNumaForConflictResources isAdd i s n) j = socket n j
    ∧ (numa_unused (updateFreeNumaForConflictResources isAdd i s n) j ↔ numa_unused n j)) as Hsame
    by (intros j'; unfold updateFreeNumaForConflictResources; by destruct isAdd).
  destruct (Hsame j) as [-> ->]. rw updateFree_members. destruct (decide (j = i)) as [->|Hj].
  - destruct isAdd; split.
    + intros [[_ ->]|H%Hs]; [split; [done|by apply Hu]|]. split; [done|by apply Hu].
    + intros [H _]. left. split; [done|congruence].
    + intros [H%Hs Hn]. exfalso. apply Hn. split; [done|congruence].
    + intros [_ H%Hu]. done.
  - rw -Hf //. destruct isAdd; naive_solver.
Qed.

Lemma updateFree_core isAdd i s n : Core n → Core (updateFreeNumaForConflictResources isAdd i s n).
Proof. intros [H1 H2 H3 H4]. unfold updateFreeNumaForConflictResources. destruct isAdd; by split. Qed.

Lemma updateFree_changed isAdd i s n n' g : Changed n n' g → Changed n (updateFreeNumaForConflictResources isAdd i s n') g.
Proof. intros (H1 & H2 & H3 & H4). unfold updateFreeNumaForConflictResources. destruct isAdd; by split_and!. Qed.

Section numa_ok.
Context (order : gmap string Z → list (string * Z)) (lsci : bool).
Context (norder : gmap Z ResourceList → list (Z * ResourceList)).
Context (sorder : gmap string ResourceStatus → list (string * ResourceStatus)).
Context (aorder : gmap string PodAllocation → list (string * PodAllocation)).
Context (ParseQuantity : string → option Quantity).
Context (Horder : ∀ m, order m ≡ₚ map_to_list m) (Hnorder : ∀ m, norder m ≡ₚ map_to_list m)
  (Hsorder : ∀ m, sorder m ≡ₚ map_to_list m) (Haorder : ∀ m, aorder m ≡ₚ map_to_list m).

Abbreviation updAvail := (updateAvailableOfSharedCores order lsci).

Lemma updAvail_same isAdd need r v n :
  podAllocations (updAvail isAdd need r v n) = podAllocations n
  ∧ topology (updAvail isAdd need r v n) = topology n
  ∧ requestsOfSharedCores (updAvail isAdd need r v n) = requestsOfSharedCores n
  ∧ socketToFreeNumasOfConflictResources (updAvail isAdd need r v n) = socketToFreeNumasOfConflictResources n.
Proof. unfold updateAvailableOfSharedCores. by destruct (_ && _), isAdd. Qed.

Lemma conflict_name r :
  IsConflictResourcesForDifferentQoS r = true ↔ ∃ d, conflict_dim d = true ∧ dim_name d = r.
Proof.
  unfold IsConflictResourcesForDifferentQoS. rw orb_true_iff !bool_decide_eq_true. split.
  - intros [->| ->]; [by exists DCPU|by exists DMem].
  - intros (d & Hd & <-). destruct d; try done; [by left|by right].
Qed.

Lemma delta_conflict r v d :
  IsConflictResourcesForDifferentQoS r = true →
  delta lsci {[r := v]} d = if conflict_dim d && bool_decide (dim_name d = r) then dim_value d v else 0%Z.
Proof.
  intros Hr. unfold delta. destruct (decide (dim_name d = r)) as [<-|Hne].
  - rw lookup_singleton_eq bool_decide_true // andb_true_r. apply conflict_name in Hr as (d' & Hd' & Hn).
    destruct d', d as [| | | |nm]; try done; simpl in *; subst nm; vm_compute; done.
  - rw lookup_singleton_ne // bool_decide_false // andb_false_r. by destruct (counted lsci d).
Qed.

Lemma updAvail_amount isAdd need r v n d :
  wf_resource (availableOfSharedCores n) →
  amount (availableOfSharedCores (updAvail isAdd need r v n)) d
  = if need && conflict_dim d && bool_decide (dim_name d = r)
    then wrap64 (amount (availableOfSharedCores n) d + if isAdd then dim_value d v else - dim_value d v)%Z
    else amount (availableOfSharedCores n) d.
Proof.
  intros Hwf. unfold updateAvailableOfSharedCores. destruct need; [|done]. simpl.
  destruct (IsConflictResourcesForDifferentQoS r) eqn:Hr.
  - destruct isAdd; simpl; rw ?Add_amount // ?Sub_amount // delta_conflict //;
      destruct (_ && _); try done; rw ?Z.add_0_r ?Z.sub_0_r wrap64_id //; apply Hwf.
  - destruct (conflict_dim d) eqn:Hd; [|done]. simpl. rw bool_decide_false //. intros <-.
    assert (IsConflictResourcesForDifferentQoS (dim_name d) = true); [|congruence]. apply conflict_name. eauto.
Qed.

Lemma updAvail_wf isAdd need r v n :
  wf_resource (availableOfSharedCores n) → wf_resource (availableOfSharedCores (updAvail isAdd need r v n)).
Proof.
  intros Hwf. unfold updateAvailableOfSharedCores.
  destruct (_ && _), isAdd; simpl; try done; [by apply Add_wf|by apply Sub_wf].
Qed.

(** Changing the users of one resource of one NUMA node. *)
Definition set_users (i : Z) (r : string) (rs : ResourceStatus) (avail : Z) (U : gset string) (isAdd need : bool) n :=
  updAvail isAdd need r (Allocatable rs) (set_status i r (mkStatus (Allocatable rs) avail U) n).

Lemma set_users_same i r rs avail U isAdd need n :
  let n' := set_users i r rs avail U isAdd need n in
  podAllocations n' = podAllocations n ∧ requestsOfSharedCores n' = requestsOfSharedCores n
  ∧ socketToFreeNumasOfConflictResources n' = socketToFreeNumasOfConflictResources n
  ∧ ∀ j, socket n' j = socket n j.
Proof.
  unfold set_users. destruct (updAvail_same isAdd need r (Allocatable rs) (set_status i r (mkStatus (Allocatable rs) avail U) n))
    as (-> & Ht & -> & ->). split_and!; [done..|]. intros j. unfold socket at 1. rw Ht.
  apply (socket_set n i r (mkStatus (Allocatable rs) avail U) j).
Qed.

Lemma set_users_status i r rs avail U isAdd need n i' r' :
  status n i r = Some rs →
  status (set_users i r rs avail U isAdd need n) i' r'
  = if decide (i' = i ∧ r' = r) then Some (mkStatus (Allocatable rs) avail U) else status n i' r'.
Proof.
  intros Hs. unfold set_users, status at 1.
  destruct (updAvail_same isAdd need r (Allocatable rs) (set_status i r (mkStatus (Allocatable rs) avail U) n)) as (_ & -> & _).
  rw -(status_set n i r) //.
Qed.

Lemma set_users_core i r rs U isAdd need n avail :
  Core n → status n i r = Some rs →
  avail = (Allocatable rs - ssum (λ k, reqz n k i r) U)%Z → (∀ k, k ∈ U → is_Some (req n k i r)) →
  need = bool_decide (Users rs = ∅ ∧ U ≠ ∅ ∨ Users rs ≠ ∅ ∧ U = ∅) → (need = true → isAdd = bool_decide (U = ∅)) →
  Core (set_users i r rs avail U isAdd need n).
Proof.
  intros [Hav Hus Hsh Hwf] Hs Havail HU Hneed HisAdd.
  destruct (set_users_same i r rs avail U isAdd need n) as (Hpa & _ & _ & _).
  assert (∀ k i' r', req (set_users i r rs avail U isAdd need n) k i' r' = req n k i' r') as Hreq.
  { intros k i' r'. unfold req. by rw Hpa. }
  split.
  - intros i' r' rs'. rw set_users_status //. intros Hst. transitivity (Allocatable rs' - ssum (λ k, reqz n k i' r') (Users rs'))%Z.
    + destruct (decide _) as [[-> ->]|]; [injection Hst as <-; done|by apply Hav].
    + f_equal. apply ssum_ext. intros k _. unfold reqz. by rw Hreq.
  - intros i' r' rs' k. rw set_users_status // Hreq. destruct (decide _) as [[-> ->]|]; [intros [= <-]; apply HU|apply Hus].
  - intros d. unfold set_users. rw updAvail_amount //.
    destruct (updAvail_same isAdd need r (Allocatable rs) (set_status i r (mkStatus (Allocatable rs) avail U) n)) as (_ & -> & _).
    rw (share_set n i r rs) //=. rw Hsh. destruct (conflict_dim d); [|by rw andb_false_r]. rw andb_true_r.
    destruct (decide (dim_name d = r)) as [Hd|Hd].
    + rw (bool_decide_true (dim_name d = r)) // andb_true_r. subst need.
      destruct (decide (Users rs = ∅)) as [E1|E1], (decide (U = ∅)) as [E2|E2].
      * rw bool_decide_false; [|naive_solver]. rw !decide_True //. f_equal. lia.
      * rw bool_decide_true; [|naive_solver]. rw HisAdd; [|apply bool_decide_eq_true_2; naive_solver].
        rw (bool_decide_false (U = ∅)) //. rw decide_True // decide_False; [|naive_solver].
        rw wrap64_add_l. f_equal. lia.
      * rw bool_decide_true; [|naive_solver]. rw HisAdd; [|apply bool_decide_eq_true_2; naive_solver].
        rw (bool_decide_true (U = ∅)) //. rw decide_False; [|naive_solver]. rw decide_True //.
        rw wrap64_add_l. f_equal. lia.
      * rw bool_decide_false; [|naive_solver]. rw !decide_False; [|naive_solver..]. f_equal. lia.
    + rw (bool_decide_false (dim_name d = r)) // andb_false_r !decide_False; [|naive_solver..]. f_equal. lia.
  - unfold set_users. by apply updAvail_wf.
Qed.

Lemma set_users_changed i r rs avail (h : gset string → gset string) isAdd need n :
  status n i r = Some rs →
  Changed n (set_users i r rs avail (h (Users rs)) isAdd need n) (λ j r' V, if decide (j = i ∧ r' = r) then h V else V).
Proof.
  intros Hs. destruct (set_users_same i r rs avail (h (Users rs)) isAdd need n) as (H1 & H2 & H3 & H4).
  split_and!; [done..|]. intros j r'. unfold usage. rw set_users_status //.
  destruct (decide _) as [[-> ->]|]; [by rw Hs|]. by destruct (status n j r').
Qed.

(** ** A loop over resources of one NUMA node *)

Section loop.
Context {X : Type} (i : Z) (step : option (NumaTopologyStatus * bool) → string * X → option (NumaTopologyStatus * bool)).
Context (g : string → gset string → gset string) (hit : string → gset string → bool).
Context (pre : NumaTopologyStatus → string * X → gset string → Prop).
Context (Hpre : ∀ n n' f kv U, Changed n n' f → pre n kv U → pre n' kv U).
Context (Hstep : ∀ n fl kv rs, Core n → status n i kv.1 = Some rs → pre n kv (Users rs) →
  ∃ n', step (Some (n, fl)) kv = Some (n', if hit kv.1 (Users rs) then false else fl) ∧ Core n'
    ∧ socketToFreeNumasOfConflictResources n' = socketToFreeNumasOfConflictResources n
    ∧ Changed n n' (λ j r U, if decide (j = i ∧ r = kv.1) then g r U else U)).

Lemma users_loop l n fl :
  Core n → NoDup l.*1 → (∀ kv, kv ∈ l → ∃ rs, status n i kv.1 = Some rs ∧ pre n kv (Users rs)) →
  ∃ n' b, foldl step (Some (n, fl)) l = Some (n', b) ∧ Core n'
    ∧ socketToFreeNumasOfConflictResources n' = socketToFreeNumasOfConflictResources n
    ∧ Changed n n' (λ j r U, if decide (j = i ∧ r ∈ l.*1) then g r U else U)
    ∧ (b = false ↔ fl = false ∨ ∃ r a U, r ∈ l.*1 ∧ usage n i r = Some (a, U) ∧ hit r U = true).
Proof.
  revert n fl. induction l as [|kv l IH]; intros n fl HC HND Hall.
  { exists n, fl. split_and!; [done..| |].
    - apply Changed_refl. intros j r a U _. rw decide_False //. intros [_ ?%not_elem_of_nil]. done.
    - split; [by left|]. intros [?|(r & a & U & ?%not_elem_of_nil & _)]; done. }
  apply NoDup_cons in HND as [Hnot HND]. destruct (Hall kv) as (rs & Hs & Hp); [set_solver|].
  destruct (Hstep n fl kv rs HC Hs Hp) as (n1 & E1 & HC1 & HF1 & HCh1). simpl foldl. rw E1.
  destruct (IH n1 (if hit kv.1 (Users rs) then false else fl) HC1 HND) as (n' & b & E' & HC' & HF' & HCh' & Hb).
  { intros kv' Hkv'. destruct (Hall kv') as (rs' & Hs' & Hp'); [set_solver|].
    assert (kv'.1 ≠ kv.1) as Hne by (intros E; apply Hnot; rw -E; by apply list_elem_of_fmap_2).
    destruct (proj2 (Changed_known _ _ _ i kv'.1 HCh1)) as [rs2 Hs2]; [by eexists|].
    exists rs2. split; [done|]. eapply Hpre; [exact HCh1|].
    destruct HCh1 as (_ & _ & _ & HU). specialize (HU i kv'.1). rw (usage_status _ _ _ _ Hs2) (usage_status _ _ _ _ Hs') /= in HU.
    rw decide_False in HU; [|naive_solver]. by injection HU as _ ->. }
  exists n', b. split_and!; [done..|congruence| |].
  - eapply Changed_trans; [exact HCh1|exact HCh'|]. intros j r U. simpl.
    destruct (decide (j = i ∧ r = kv.1)) as [[-> ->]|H1].
    + rw decide_True; [|set_solver]. rw decide_False //. naive_solver.
    + destruct (decide (j = i ∧ r ∈ l.*1)) as [[-> ?]|H2]; [rw decide_True //; set_solver|].
      rw decide_False //. intros [-> [->|?]%elem_of_cons]; naive_solver.
  - rw Hb. destruct HCh1 as (_ & _ & _ & HU). split.
    + intros [Hf|(r & a & U & Hr & Hu & Hh)].
      * destruct (hit kv.1 (Users rs)) eqn:Eh; [|by left]. right. exists kv.1, (Allocatable rs), (Users rs).
        split_and!; [simpl; set_solver|by apply usage_status|done].
      * right. exists r, a, U. split_and!; [simpl; set_solver| |done]. rw HU in Hu.
        destruct (usage n i r) as [[a' U']|]; [|done]. simpl in Hu. rw decide_False in Hu; [|naive_solver]. done.
    + intros [->|(r & a & U & [->|Hr]%elem_of_cons & Hu & Hh)].
      * left. by destruct (hit _ _).
      * left. rw (usage_status _ _ _ _ Hs) in Hu. injection Hu as <- <-. by rw Hh.
      * right. exists r, a, U. split_and!; [done| |done]. rw HU Hu /=. rw decide_False //. naive_solver.
Qed.
End loop.

(** ** One resource *)

Abbreviation conflict := IsConflictResourcesForDifferentQoS.

Lemma add_users_core k i r rs q n :
  Core n → status n i r = Some rs → k ∉ Users rs → req n k i r = Some q →
  Core (set_users i r rs (Available rs - q) ({[k]} ∪ Users rs) false (bool_decide (Users rs = ∅)) n).
Proof.
  intros HC Hs Hin Hk. apply set_users_core; [done..| | | |].
  - rw ssum_add // (c_avail _ HC _ _ _ Hs) {2}/reqz Hk /=. lia.
  - intros k' [->%elem_of_singleton|Hk']%elem_of_union; [by eexists|]. by eapply c_users.
  - apply bool_decide_ext. set_solver.
  - intros _. symmetry. apply bool_decide_eq_false_2. set_solver.
Qed.

Lemma add_step k i n fl (kv : string * Quantity) rs :
  Core n → status n i kv.1 = Some rs → req n k i kv.1 = Some kv.2 →
  ∃ n', add_resource order lsci k i (Some (n, fl)) kv
        = Some (n', if conflict kv.1 && bool_decide (k ∉ Users rs) then false else fl) ∧ Core n'
    ∧ socketToFreeNumasOfConflictResources n' = socketToFreeNumasOfConflictResources n
    ∧ Changed n n' (λ j r U, if decide (j = i ∧ r = kv.1) then {[k]} ∪ U else U).
Proof.
  intros HC Hs Hk. unfold add_resource. cbn [mbind option_bind]. rw Hs. cbn [mbind option_bind].
  destruct (decide (k ∈ Users rs)) as [Hin|Hin].
  - rw (bool_decide_true (k ∈ Users rs)) // (bool_decide_false (k ∉ Users rs)); [|naive_solver]. rw andb_false_r. exists n. split_and!; [done..|].
    apply Changed_refl. intros j r a U Hu. case_decide as E; [|done]. destruct E as [-> ->].
    rw (usage_status _ _ _ _ Hs) in Hu. injection Hu as _ <-. set_solver.
  - rw (bool_decide_false (k ∈ Users rs)) // (bool_decide_true (k ∉ Users rs)) // andb_true_r.
    exists (set_users i kv.1 rs (Available rs - kv.2) ({[k]} ∪ Users rs) false (bool_decide (Users rs = ∅)) n).
    split; [done|]. split_and!.
    + by apply add_users_core.
    + apply set_users_same.
    + by apply (set_users_changed i kv.1 rs _ (λ U, {[k]} ∪ U)).
Qed.

Lemma take_step k i rl n fl (kv : string * ResourceStatus) rs :
  let q := default 0%Z (rl !! kv.1) in
  Core n → status n i kv.1 = Some rs → k ∉ Users rs → (MilliValue q ≠ 0%Z → req n k i kv.1 = Some q) →
  ∃ n', take_resource order lsci k i rl (Some (n, fl)) kv
        = Some (n', if conflict kv.1 && negb (MilliValue q =? 0)%Z then false else fl) ∧ Core n'
    ∧ socketToFreeNumasOfConflictResources n' = socketToFreeNumasOfConflictResources n
    ∧ Changed n n' (λ j r U, if decide (j = i ∧ r = kv.1) then (if (MilliValue q =? 0)%Z then U else {[k]} ∪ U) else U).
Proof.
  intros q HC Hs Hk Hreq. unfold take_resource. cbn [mbind option_bind]. rw Hs. cbn [mbind option_bind]. fold q.
  destruct (Z.eqb_spec (MilliValue q) 0) as [Hz|Hz].
  - rw andb_false_r. exists n. split_and!; [done..|]. apply Changed_refl. intros j r a U _. by case_decide.
  - rw andb_true_r. exists (set_users i kv.1 rs (Available rs - q) ({[k]} ∪ Users rs) false (bool_decide (Users rs = ∅)) n).
    split; [done|]. split_and!.
    + by apply add_users_core; [..|apply Hreq].
    + apply set_users_same.
    + by apply (set_users_changed i kv.1 rs _ (λ U, {[k]} ∪ U)).
Qed.

Lemma remove_step k i n fl (kv : string * Quantity) rs :
  Core n → status n i kv.1 = Some rs → req n k i kv.1 = Some kv.2 →
  ∃ n', remove_resource order lsci k i (Some (n, fl)) kv
        = Some (n', if conflict kv.1 && bool_decide (k ∈ Users rs ∧ Users rs ∖ {[k]} ≠ ∅) then false else fl) ∧ Core n'
    ∧ socketToFreeNumasOfConflictResources n' = socketToFreeNumasOfConflictResources n
    ∧ Changed n n' (λ j r U, if decide (j = i ∧ r = kv.1) then U ∖ {[k]} else U).
Proof.
  intros HC Hs Hk. unfold remove_resource. cbn [mbind option_bind]. rw Hs. cbn [mbind option_bind].
  destruct (decide (k ∈ Users rs)) as [Hin|Hin].
  - rw (bool_decide_true (k ∈ Users rs)) //. simpl negb. cbv iota.
    exists (set_users i kv.1 rs (Available rs + kv.2) (Users rs ∖ {[k]}) true (bool_decide (Users rs ∖ {[k]} = ∅)) n).
    split; [do 3 f_equal; destruct (decide (Users rs ∖ {[k]} = ∅)) as [E|E];
      [rw bool_decide_true // bool_decide_false //; naive_solver|rw bool_decide_false // bool_decide_true //]|].
    split_and!.
    + assert (Users rs ≠ ∅) by set_solver. apply set_users_core; [done..| | | |].
      * rw ssum_remove // (c_avail _ HC _ _ _ Hs) /=.
        assert (reqz n k i kv.1 = kv.2) as -> by (unfold reqz; by rw Hk). lia.
      * intros k' [Hk' _]%elem_of_difference. by eapply c_users.
      * apply bool_decide_ext. naive_solver.
      * done.
    + apply set_users_same.
    + by apply (set_users_changed i kv.1 rs _ (λ U, U ∖ {[k]})).
  - rw (bool_decide_false (k ∈ Users rs)) // (bool_decide_false (_ ∧ _)); [|naive_solver]. rw andb_false_r. exists n.
    split_and!; [done..|]. apply Changed_refl. intros j r a U Hu. case_decide as E; [|done]. destruct E as [-> ->].
    rw (usage_status _ _ _ _ Hs) in Hu. injection Hu as _ <-. set_solver.
Qed.

(** ** One NUMA node *)

Lemma usage_known n i r a U : usage n i r = Some (a, U) → is_Some (topology n !! i).
Proof. unfold usage, status. by destruct (topology n !! i). Qed.

Lemma usage_status_inv n i r a U : usage n i r = Some (a, U) → ∃ rs, status n i r = Some rs ∧ a = Allocatable rs ∧ U = Users rs.
Proof. unfold usage. destruct (status n i r) as [rs|]; [|done]. intros [= <- <-]. by exists rs. Qed.

Lemma order_nodup (m : ResourceList) : NoDup (order m).*1.
Proof. rw Horder. apply NoDup_fst_map_to_list. Qed.
Lemma order_elem (m : ResourceList) r : r ∈ (order m).*1 ↔ is_Some (m !! r).
Proof.
  rw Horder list_elem_of_fmap. split.
  - intros ([r' q] & -> & H%elem_of_map_to_list). by exists q.
  - intros [q Hq]. exists (r, q). split; [done|]. by apply elem_of_map_to_list.
Qed.
Lemma order_entry (m : ResourceList) kv : kv ∈ order m ↔ m !! kv.1 = Some kv.2.
Proof. destruct kv. rw Horder. apply elem_of_map_to_list. Qed.

(** After a change at NUMA node [i] only, the free sets need care at [i] only. *)
Lemma numa_free i n n' (g : Z → string → gset string → gset string) :
  FreeOK n → Changed n n' g → (∀ j r U, j ≠ i → g j r U = U) →
  socketToFreeNumasOfConflictResources n' = socketToFreeNumasOfConflictResources n →
  FreeExcept i n' ∧ ((numa_unused n' i ↔ numa_unused n i) → FreeOK n').
Proof.
  intros HF HCh Hg HE. assert (FreeExcept i n') as HX by (eapply except_changed; [by apply FreeOK_except|done..]).
  split; [done|]. intros Hu. apply (except_ok i); [done|]. intros s Hs.
  unfold GetFreeNumasInSocketForConflictResources. rw HE. fold (GetFreeNumasInSocketForConflictResources s n).
  destruct HCh as (_ & _ & Hsock & _). rw (f_free _ HF) Hu -Hsock Hs. tauto.
Qed.

(** Users only grow at [i]: the node is unused as before when the flag is still
    set, and used when it is not. *)
Lemma grow_free i s n n' g b :
  FreeOK n → Changed n n' g → (∀ j r U, j ≠ i → g j r U = U) → (∀ r U, U ⊆ g i r U) →
  socketToFreeNumasOfConflictResources n' = socketToFreeNumasOfConflictResources n → socket n i = Some s →
  (b = false ↔ ∃ r a U, usage n i r = Some (a, U) ∧ conflict r = true ∧ ¬ g i r U ⊆ U) →
  FreeOK (if b then n' else updateFreeNumaForConflictResources false i s n').
Proof.
  intros HF HCh Hg Hgrow HE Hs Hb. destruct (numa_free i n n' g HF HCh Hg HE) as [HX Hok].
  pose proof HCh as (_ & _ & Hsock & HU). destruct b.
  - apply Hok. split; intros H r a U Hu Hr.
    + assert (g i r U = ∅); [|pose proof (Hgrow r U); set_solver]. apply (H r a (g i r U)); [|done]. by rw HU Hu.
    + rw HU in Hu. destruct (usage n i r) as [[a' U']|] eqn:Eu; [|done]. injection Hu as <- <-.
      assert (U' = ∅) as HU' by by eapply H. destruct (decide (g i r U' ⊆ U')); [set_solver|].
      assert (true = false) by (apply Hb; eauto 10). done.
  - apply updateFree_ok; [done|by rw Hsock|]. split; [|done]. intros H.
    destruct (proj1 Hb eq_refl) as (r & a & U & Hu & Hr & Hn). exfalso. apply Hn.
    assert (g i r U = ∅) as ->; [|set_solver]. apply (H r a); [|done]. by rw HU Hu.
Qed.

Lemma add_numa_ok k i rl n :
  NumaOK n → (∀ r q, rl !! r = Some q → req n k i r = Some q ∧ (is_Some (topology n !! i) → is_Some (status n i r))) →
  ∃ n', add_numa order lsci k (Some n) (i, rl) = Some n' ∧ NumaOK n'
    ∧ Changed n n' (λ j r U, if decide (j = i ∧ is_Some (rl !! r)) then {[k]} ∪ U else U).
Proof.
  intros [HC HF] Hreq. unfold add_numa. cbn [mbind option_bind fst snd].
  destruct (topology n !! i) as [st|] eqn:Est.
  2: { exists n. split_and!; [done..|]. apply Changed_refl. intros j r a U Hu. case_decide as E; [|done].
       destruct E as [-> _]. apply usage_known in Hu. rw Est in Hu. by apply is_Some_None in Hu. }
  destruct (users_loop i (add_resource order lsci k i) (λ _ U, {[k]} ∪ U) (λ r U, conflict r && bool_decide (k ∉ U))
    (λ n kv _, req n k i kv.1 = Some kv.2)) with (l := order rl) (n := n) (fl := true)
    as (n' & b & E & HC' & HE & HCh & Hb).
  { intros n1 n2 f kv _ HCh. by rw (Changed_req _ _ _ _ _ _ HCh). }
  { intros n1 fl kv rs HC1 Hs1 Hk1. by apply add_step. }
  { done. }
  { apply order_nodup. }
  { intros kv Hkv%order_entry. destruct (Hreq _ _ Hkv) as [? [rs Hrs]]; [by eexists|]. by exists rs. }
  rw E. cbn [mbind option_bind]. eexists. split; [reflexivity|].
  assert (Changed n n' (λ j r U, if decide (j = i ∧ is_Some (rl !! r)) then {[k]} ∪ U else U)) as HCh'.
  { eapply Changed_ext; [exact HCh|]. intros j r U. simpl. do 2 case_decide; try done; rw order_elem in H0; naive_solver. }
  split; [split|].
  - destruct b; [done|by apply updateFree_core].
  - eapply grow_free; [exact HF|exact HCh'|intros j r U Hj; simpl; case_decide; [naive_solver|done]|
      intros r U; simpl; case_decide; set_solver|done|by unfold socket; rw Est|].
    rw Hb. split.
    + intros [?|(r & a & U & Hr & Hu & [Hc Hk%bool_decide_eq_true]%andb_true_iff)]; [done|].
      exists r, a, U. split_and!; [done..|]. rw decide_True; [set_solver|]. split; [done|by apply order_elem].
    + intros (r & a & U & Hu & Hc & Hn). right. exists r, a, U.
      destruct (decide (i = i ∧ is_Some (rl !! r))) as [[_ Hr]|]; [|done].
      split_and!; [by apply order_elem|done|]. rw Hc bool_decide_true //. set_solver.
  - destruct b; [done|by apply updateFree_changed].
Qed.

Lemma sorder_elem (m : gmap string ResourceStatus) r : r ∈ (sorder m).*1 ↔ is_Some (m !! r).
Proof.
  rw Hsorder list_elem_of_fmap. split.
  - intros ([r' q] & -> & H%elem_of_map_to_list). by exists q.
  - intros [q Hq]. exists (r, q). split; [done|]. by apply elem_of_map_to_list.
Qed.

(** The users after a pod's list is taken on NUMA node [i]: the resources
    requested in more than zero milli-units. *)
Definition taken_users (k : string) (rl : ResourceList) (r : string) (U : gset string) : gset string :=
  if (MilliValue (default 0%Z (rl !! r)) =? 0)%Z then U else {[k]} ∪ U.

Lemma take_numa_ok k i rl n :
  NumaOK n → (∀ r q, rl !! r = Some q → req n k i r = Some q) → is_Some (topology n !! i) →
  (∀ r a U, usage n i r = Some (a, U) → k ∉ U) →
  ∃ n', take_numa order lsci sorder k (Some n) (i, rl) = Some n' ∧ NumaOK n'
    ∧ Changed n n' (λ j r U, if decide (j = i) then taken_users k rl r U else U).
Proof.
  intros [HC HF] Hreq [st Est] Hk. unfold take_numa. cbn [mbind option_bind fst snd]. rw Est. cbn [mbind option_bind].
  destruct (users_loop i (take_resource order lsci k i rl) (taken_users k rl)
    (λ r U, conflict r && negb (MilliValue (default 0%Z (rl !! r)) =? 0)%Z)
    (λ n kv U, k ∉ U ∧ (MilliValue (default 0%Z (rl !! kv.1)) ≠ 0%Z → req n k i kv.1 = Some (default 0%Z (rl !! kv.1)))))
    with (l := sorder (resourceStatuses st)) (n := n) (fl := true) as (n' & b & E & HC' & HE & HCh & Hb).
  { intros n1 n2 f kv U HCh. by rw (Changed_req _ _ _ _ _ _ HCh). }
  { intros n1 fl kv rs HC1 Hs1 [? ?]. destruct (take_step k i rl n1 fl kv rs) as (n2 & ? & ? & ? & HCh); [done..|].
    exists n2. split_and!; [done..|]. eapply Changed_ext; [exact HCh|]. intros j r U. simpl.
    destruct (decide (j = i ∧ r = kv.1)) as [[-> ->]|]; done. }
  { done. }
  { rw Hsorder. apply NoDup_fst_map_to_list. }
  { intros [r rs] Hr. rw Hsorder elem_of_map_to_list in Hr. exists rs. simpl.
    assert (status n i r = Some rs) as Hs by (unfold status; by rw Est). split_and!; [done| |].
    - eapply Hk. by apply usage_status.
    - intros Hm. destruct (rl !! r) as [q|] eqn:Eq; [by apply Hreq|]. by vm_compute in Hm. }
  rw E. cbn [mbind option_bind]. eexists. split; [reflexivity|].
  assert (Changed n n' (λ j r U, if decide (j = i) then taken_users k rl r U else U)) as HCh'.
  { destruct HCh as (? & ? & ? & HU). split_and!; [done..|]. intros j r. rw HU.
    destruct (usage n j r) as [[a U]|] eqn:Eu; [|done]. simpl. destruct (decide (j = i)) as [->|]; [|rw decide_False //; naive_solver].
    rw decide_True //. split; [done|]. apply sorder_elem. apply usage_status_inv in Eu as (rs & Hs & _).
    unfold status in Hs. rw Est in Hs. by exists rs. }
  split; [split|].
  - destruct b; [done|by apply updateFree_core].
  - eapply grow_free; [exact HF|exact HCh'|intros j r U Hj; simpl; by rw decide_False|
      intros r U; simpl; rw decide_True //; unfold taken_users; case_match; set_solver|done|by unfold socket; rw Est|].
    rw Hb. split.
    + intros [?|(r & a & U & Hr & Hu & [Hc Hm]%andb_true_iff)]; [done|].
      exists r, a, U. split_and!; [done..|]. rw decide_True //. unfold taken_users. apply negb_true_iff in Hm. rw Hm.
      pose proof (Hk r a U Hu). set_solver.
    + intros (r & a & U & Hu & Hc & Hn). right. exists r, a, U. rw decide_True // in Hn. unfold taken_users in Hn.
      split_and!; [|done|].
      * apply sorder_elem. apply usage_status_inv in Hu as (rs & Hs & _). unfold status in Hs. rw Est in Hs. by exists rs.
      * rw Hc. destruct (_ =? 0)%Z; [done|done].
  - destruct b; [done|by apply updateFree_changed].
Qed.

Lemma all_free_unused n i st :
  topology n !! i = Some st → all_free sorder st = true ↔ numa_unused n i.
Proof.
  intros Est. unfold all_free. transitivity (∀ kv, kv ∈ sorder (resourceStatuses st) → conflict kv.1 = true → Users kv.2 = ∅).
  - generalize (sorder (resourceStatuses st)). intros l.
    assert (∀ b, foldl (λ isFree kv, if conflict kv.1 && bool_decide (Users kv.2 ≠ ∅) then false else isFree) b l
      = b && forallb (λ kv, negb (conflict kv.1 && bool_decide (Users kv.2 ≠ ∅))) l) as ->.
    { induction l as [|kv l IH]; intros b; simpl; [by rw andb_true_r|]. rw IH. by destruct (conflict kv.1 && bool_decide (Users kv.2 ≠ ∅)), b. }
    rw andb_true_l forallb_forall. split.
    + intros H kv Hkv Hc. apply list_elem_of_In, H in Hkv. rw Hc in Hkv. apply negb_true_iff, bool_decide_eq_false in Hkv.
      by apply dec_stable.
    + intros H kv Hkv%list_elem_of_In. destruct (conflict kv.1) eqn:Ec; [|done]. simpl.
      rw bool_decide_false; [done|]. rw (H kv Hkv Ec). naive_solver.
  - unfold numa_unused, usage, status. rw Est. cbn [mbind option_bind]. split.
    + intros H r a U Hu Hc. destruct (resourceStatuses st !! r) as [rs|] eqn:Er; [|done]. injection Hu as _ <-.
      apply (H (r, rs)); [|done]. rw Hsorder. by apply elem_of_map_to_list.
    + intros H [r rs] Hr Hc. rw Hsorder elem_of_map_to_list in Hr. apply (H r (Allocatable rs)); [by rw Hr|done].
Qed.

Lemma remove_numa_ok k i rl n :
  NumaOK n → (∀ r q, rl !! r = Some q → req n k i r = Some q ∧ (is_Some (topology n !! i) → is_Some (status n i r))) →
  ∃ n', remove_numa order lsci sorder k (Some n) (i, rl) = Some n' ∧ NumaOK n'
    ∧ Changed n n' (λ j r U, if decide (j = i ∧ is_Some (rl !! r)) then U ∖ {[k]} else U).
Proof.
  intros [HC HF] Hreq. unfold remove_numa. cbn [mbind option_bind fst snd].
  destruct (topology n !! i) as [st|] eqn:Est.
  2: { exists n. split_and!; [done..|]. apply Changed_refl. intros j r a U Hu. case_decide as E; [|done].
       destruct E as [-> _]. apply usage_known in Hu. rw Est in Hu. by apply is_Some_None in Hu. }
  destruct (users_loop i (remove_resource order lsci k i) (λ _ U, U ∖ {[k]})
    (λ r U, conflict r && bool_decide (k ∈ U ∧ U ∖ {[k]} ≠ ∅))
    (λ n kv _, req n k i kv.1 = Some kv.2)) with (l := order rl) (n := n) (fl := true)
    as (n' & b & E & HC' & HE & HCh & Hb).
  { intros n1 n2 f kv _ HCh. by rw (Changed_req _ _ _ _ _ _ HCh). }
  { intros n1 fl kv rs HC1 Hs1 Hk1. by apply remove_step. }
  { done. }
  { apply order_nodup. }
  { intros kv Hkv%order_entry. destruct (Hreq _ _ Hkv) as [? [rs Hrs]]; [by eexists|]. by exists rs. }
  rw E. cbn [mbind option_bind].
  assert (Changed n n' (λ j r U, if decide (j = i ∧ is_Some (rl !! r)) then U ∖ {[k]} else U)) as HCh'.
  { eapply Changed_ext; [exact HCh|]. intros j r U. simpl. do 2 case_decide; try done; rw order_elem in H0; naive_solver. }
  destruct (numa_free i n n' _ HF HCh') as [HX Hok]; [intros j r U Hj; simpl; case_decide; [naive_solver|done]|done|].
  pose proof HCh' as (_ & _ & Hsock & HU). specialize (Hsock i) as Hsi. unfold socket in Hsi. rw Est in Hsi.
  destruct (topology n' !! i) as [st'|] eqn:Est'; [|done]. injection Hsi as Hsi. cbn [mbind option_bind].
  eexists. split; [reflexivity|].
  assert (numa_unused n i → numa_unused n' i) as Hmono.
  { intros H r a U Hu Hc. rw HU in Hu. destruct (usage n i r) as [[a' U']|] eqn:Eu; [|done]. injection Hu as <- <-.
    rw (H r _ _ Eu Hc). case_decide; set_solver. }
  assert (b = false → ¬ numa_unused n' i) as Hbf.
  { intros [?|(r & a & U & Hr & Hu & [Hc Hk%bool_decide_eq_true]%andb_true_iff)]%Hb Hun; [done|]. destruct Hk as [_ Hk].
    apply Hk. apply (Hun r a); [|done]. rw HU Hu /= decide_True //. split; [done|by apply order_elem]. }
  destruct (b && all_free sorder st') eqn:Eb.
  - apply andb_true_iff in Eb as [-> Haf]. split; [split|].
    + by apply updateFree_core.
    + apply updateFree_ok; [done| |].
      * by rw Hsock /socket Est Hsi.
      * split; [done|]. intros _. by eapply all_free_unused.
    + by apply updateFree_changed.
  - split; [split; [done|]|done]. apply Hok.
    assert (¬ numa_unused n' i) as Hn; [|tauto].
    apply andb_false_iff in Eb as [->|Haf]; [by apply Hbf|]. rw -(all_free_unused n' i st') // Haf. done.
Qed.

(** ** The NUMA nodes of one pod *)

Section pod_loop.
Context (step : option NumaTopologyStatus → Z * ResourceList → option NumaTopologyStatus).
Context (g : ResourceList → string → gset string → gset string) (pre : NumaTopologyStatus → Z * ResourceList → Prop).
Context (Hpre : ∀ n n' f kv, Changed n n' f → (∀ r U, f kv.1 r U = U) → pre n kv → pre n' kv).
Context (Hstep : ∀ n kv, NumaOK n → pre n kv → ∃ n', step (Some n) kv = Some n' ∧ NumaOK n'
  ∧ Changed n n' (λ j r U, if decide (j = kv.1) then g kv.2 r U else U)).

Lemma numa_loop l n :
  NumaOK n → NoDup l.*1 → (∀ kv, kv ∈ l → pre n kv) →
  ∃ n', foldl step (Some n) l = Some n' ∧ NumaOK n'
    ∧ Changed n n' (λ j r U, match (list_to_map l : gmap Z ResourceList) !! j with Some rl => g rl r U | None => U end).
Proof.
  revert n. induction l as [|[i rl] l IH]; intros n HN HND Hall.
  { exists n. split_and!; [done..|]. apply Changed_refl. intros j r a U _. by rw lookup_empty. }
  apply NoDup_cons in HND as [Hnot HND]. destruct (Hstep n (i, rl) HN) as (n1 & E1 & HN1 & HCh1); [apply Hall; set_solver|].
  simpl foldl. rw E1. destruct (IH n1 HN1 HND) as (n' & E' & HN' & HCh').
  { intros kv Hkv. eapply Hpre; [exact HCh1| |apply Hall; set_solver]. intros r U. simpl. rw decide_False //.
    intros <-. simpl in Hnot. apply Hnot. by apply (list_elem_of_fmap_2 fst). }
  exists n'. split_and!; [done..|]. eapply Changed_trans; [exact HCh1|exact HCh'|]. intros j r U. simpl.
  destruct (decide (j = i)) as [->|Hj].
  - rw lookup_insert_eq. by rw not_elem_of_list_to_map_1.
  - by rw lookup_insert_ne.
Qed.
End pod_loop.

(** Pod [k] asks for resource [r] of NUMA node [i]. *)
Definition wants (a : PodAllocation) (i : Z) (r : string) : bool :=
  bool_decide (is_Some (numaAllocations a !! i ≫= (.!! r))).

Lemma norder_map (m : gmap Z ResourceList) : NoDup (norder m).*1 ∧ list_to_map (norder m) = m.
Proof.
  assert (NoDup (norder m).*1) as H by (rw Hnorder; apply NoDup_fst_map_to_list). split; [done|].
  rw -{2}(list_to_map_to_list m). by apply list_to_map_proper.
Qed.

(** The resources of the pod's allocation are known to its NUMA nodes. *)
Definition known n (a : PodAllocation) : Prop :=
  ∀ i r, wants a i r = true → is_Some (topology n !! i) → is_Some (status n i r).

Lemma changed_topology n n' g i : Changed n n' g → is_Some (topology n' !! i) ↔ is_Some (topology n !! i).
Proof.
  intros (_ & _ & H & _). specialize (H i). unfold socket in H.
  rw -(fmap_is_Some socketId (topology n' !! i)) H fmap_is_Some. done.
Qed.

Lemma known_changed n n' g a : Changed n n' g → known n a → known n' a.
Proof. intros HCh Hk i r Hw Hi. apply (Changed_known _ _ _ _ _ HCh), Hk; [done|]. by apply (changed_topology _ _ _ _ HCh). Qed.

Section both.
Context (step : string → option NumaTopologyStatus → Z * ResourceList → option NumaTopologyStatus).
Context (h : string → gset string → gset string).
Context (Hstep : ∀ k i rl n,
  NumaOK n → (∀ r q, rl !! r = Some q → req n k i r = Some q ∧ (is_Some (topology n !! i) → is_Some (status n i r))) →
  ∃ n', step k (Some n) (i, rl) = Some n' ∧ NumaOK n'
    ∧ Changed n n' (λ j r U, if decide (j = i ∧ is_Some (rl !! r)) then h k U else U)).

Lemma allocation_loop k a n :
  NumaOK n → podAllocations n !! k = Some a → known n a →
  ∃ n', foldl (step k) (Some n) (norder (numaAllocations a)) = Some n' ∧ NumaOK n'
    ∧ Changed n n' (λ j r U, if wants a j r then h k U else U).
Proof.
  intros HN Hk Hkn. destruct (norder_map (numaAllocations a)) as [HND Hm].
  destruct (numa_loop (step k) (λ rl r U, if decide (is_Some (rl !! r)) then h k U else U)
    (λ n kv, podAllocations n !! k = Some a ∧ numaAllocations a !! kv.1 = Some kv.2 ∧ known n a))
    with (l := norder (numaAllocations a)) (n := n) as (n' & E' & HN' & HCh).
  - intros n1 n2 f kv HCh _ (H1 & H2 & H3). split_and!; [|done|by eapply known_changed]. by destruct HCh as (-> & _).
  - intros n1 [i rl] HN1 (H1 & H2 & H3). simpl in H2. destruct (Hstep k i rl n1 HN1) as (n' & E' & HN' & HCh).
    { intros r q Hq. split; [by rw /req H1 /= H2|]. intros Hi. apply H3; [|done].
      apply bool_decide_eq_true. rw H2 /= Hq. by eexists. }
    exists n'. split_and!; [done..|]. eapply Changed_ext; [exact HCh|]. intros j r U. simpl.
    destruct (decide (j = i)) as [->|]; [|rw decide_False //; naive_solver].
    destruct (decide (is_Some (rl !! r))); [rw decide_True //|rw decide_False //; naive_solver].
  - done.
  - done.
  - intros [i rl] H. rw Hnorder elem_of_map_to_list in H. done.
  - exists n'. split_and!; [done..|]. eapply Changed_ext; [exact HCh|]. intros j r U. simpl. rw Hm. unfold wants.
    destruct (numaAllocations a !! j) as [rl|]; simpl; [|done].
    case_decide; [by rw bool_decide_true|by rw bool_decide_false].
Qed.
End both.

(** ** Pods *)

Definition no_user n (k : string) : Prop := ∀ i r a U, usage n i r = Some (a, U) → k ∉ U.

(** The allocation of a pod without users may change. *)
Lemma NumaOK_allocations n (m : gmap string PodAllocation) k :
  NumaOK n → no_user n k → (∀ k', k' ≠ k → m !! k' = podAllocations n !! k') → NumaOK (set_podAllocations m n).
Proof.
  intros [[Hav Hus Hsh Hwf] HF] Hk Hm.
  assert (∀ i r rs k', status n i r = Some rs → k' ∈ Users rs →
    req (set_podAllocations m n) k' i r = req n k' i r) as Hreq.
  { intros i r rs k' Hs Hin. unfold req. simpl. rw Hm //. intros ->. by apply (Hk i r (Allocatable rs) (Users rs)); [apply usage_status|]. }
  split; [split|]; [| |done|done|].
  - intros i r rs Hs. rw (Hav i r rs Hs). f_equal. apply ssum_ext. intros k' Hk'. unfold reqz. by rw (Hreq i r rs k').
  - intros i r rs k' Hs Hin. rw (Hreq i r rs k') //. by eapply Hus.
  - destruct HF. by split.
Qed.

Lemma NumaOK_requests n x : NumaOK n → NumaOK (set_requests x n).
Proof. intros [[H1 H2 H3 H4] [H5 H6]]. by split; split. Qed.

(** The requests of the pods that share cores, after the pod is added. *)
Definition shared_after (f : Resource → Resource → Resource) (p : PodInfo) n : NumaTopologyStatus :=
  if pi_IsSharedCores p && isGuaranteed p then set_requests (f (Res p) (requestsOfSharedCores n)) n else n.

Lemma shared_after_same f p n :
  podAllocations (shared_after f p n) = podAllocations n ∧ topology (shared_after f p n) = topology n
  ∧ socketToFreeNumasOfConflictResources (shared_after f p n) = socketToFreeNumasOfConflictResources n
  ∧ (NumaOK n → NumaOK (shared_after f p n)).
Proof. unfold shared_after. destruct (_ && _); split_and!; try done. apply NumaOK_requests. Qed.

(** The allocation that adding the pod works with: [None] when its annotation
    cannot be read, [Some None] when there is none. *)
Definition allocation_of (p : PodInfo) n : option (option PodAllocation) :=
  let old := podAllocations n !! GeneratePodKey (pi_Pod p) in
  match anno_lookup (pi_Pod p) MicroTopologyKey with
  | Some v =>
      if match old with Some a => agent a | None => false end then Some old
      else match UnmarshalMicroTopology ParseQuantity v with
           | None => None
           | Some m => Some (if (0 <? size m)%nat then Some (mkAllocation false m) else old)
           end
  | None => Some old
  end.

Abbreviation AddPod_ := (numa_AddPod order lsci norder ParseQuantity).
Abbreviation RemovePod_ := (numa_RemovePod order lsci norder sorder).

(** Adding a pod, once its allocation is known. *)
Lemma AddPod_unfold p n :
  let k := GeneratePodKey (pi_Pod p) in
  let n1 := shared_after (AddResource order lsci) p n in
  AddPod_ p n = match allocation_of p n with
                | None => Some n1
                | Some None => Some n1
                | Some (Some a) =>
                    foldl (add_numa order lsci k)
                      (Some (set_podAllocations (<[k := a]> (podAllocations n)) n1)) (norder (numaAllocations a))
                end.
Proof.
  intros k n1. unfold numa_AddPod. fold (shared_after (AddResource order lsci) p n). fold n1. fold k.
  destruct (shared_after_same (AddResource order lsci) p n) as (Hpa & _). unfold allocation_of. fold k.
  fold n1 in Hpa. rw Hpa.
  assert (∀ a, podAllocations n !! k = Some a → set_podAllocations (<[k := a]> (podAllocations n)) n1 = n1) as Hid.
  { intros a Ha. rw insert_id // -Hpa. by destruct n1. }
  destruct (anno_lookup (pi_Pod p) MicroTopologyKey) as [v|]; last first.
  { rw Hpa. destruct (podAllocations n !! k) as [a|] eqn:E; [by rw Hid|done]. }
  destruct (podAllocations n !! k) as [a0|] eqn:E.
  - destruct (agent a0) eqn:Eag; [rw Hpa E; by rw Hid|].
    destruct (UnmarshalMicroTopology ParseQuantity v) as [m|]; [|done]. destruct (0 <? size m)%nat.
    + simpl. by rw lookup_insert_eq.
    + rw Hpa E. by rw Hid.
  - destruct (UnmarshalMicroTopology ParseQuantity v) as [m|]; [|done]. destruct (0 <? size m)%nat.
    + simpl. by rw lookup_insert_eq.
    + by rw Hpa E.
Qed.

Lemma numa_AddPod_ok p n :
  let k := GeneratePodKey (pi_Pod p) in
  NumaOK n →
  (∀ a, allocation_of p n = Some (Some a) → known n a ∧ (podAllocations n !! k = Some a ∨ no_user n k)) →
  ∃ n', AddPod_ p n = Some n' ∧ NumaOK n'
    ∧ requestsOfSharedCores n' = requestsOfSharedCores (shared_after (AddResource order lsci) p n)
    ∧ podAllocations n' = match allocation_of p n with
                          | Some (Some a) => <[k := a]> (podAllocations n) | _ => podAllocations n end
    ∧ (∀ j, socket n' j = socket n j)
    ∧ ∀ j r, usage n' j r = (λ aU, (aU.1, match allocation_of p n with
                                          | Some (Some a) => if wants a j r then {[k]} ∪ aU.2 else aU.2
                                          | _ => aU.2 end)) <$> usage n j r.
Proof.
  intros k HN Hal. rw AddPod_unfold. fold k. set (n1 := shared_after (AddResource order lsci) p n).
  destruct (shared_after_same (AddResource order lsci) p n) as (Hpa & Ht & HF & Hok). fold n1 in Hpa, Ht, HF, Hok.
  assert (∀ j, socket n1 j = socket n j) as Hs1 by (intros j; unfold socket; by rw Ht).
  assert (∀ j r, usage n1 j r = usage n j r) as Hu1 by (intros j r; unfold usage, status; by rw Ht).
  destruct (allocation_of p n) as [[a|]|]; last first.
  { exists n1. split_and!; [done|by apply Hok|done..|]. intros j r. rw Hu1. by destruct (usage n j r) as [[]|]. }
  { exists n1. split_and!; [done|by apply Hok|done..|]. intros j r. rw Hu1. by destruct (usage n j r) as [[]|]. }
  destruct (Hal a eq_refl) as [Hkn Hdis].
  set (n2 := set_podAllocations (<[k := a]> (podAllocations n)) n1).
  assert (NumaOK n2) as HN2.
  { unfold n2. destruct Hdis as [E|Hno].
    - rw insert_id // -Hpa. replace (set_podAllocations (podAllocations n1) n1) with n1 by by destruct n1. by apply Hok.
    - apply (NumaOK_allocations n1 _ k); [by apply Hok| |].
      + intros i r b U. rw Hu1. apply Hno.
      + intros k' Hk'. by rw lookup_insert_ne // Hpa. }
  assert (podAllocations n2 = <[k := a]> (podAllocations n) ∧ topology n2 = topology n
    ∧ requestsOfSharedCores n2 = requestsOfSharedCores n1) as (Hpa2 & Ht2 & Hr2) by done.
  destruct (allocation_loop (add_numa order lsci) (λ k U, {[k]} ∪ U)) with (k := k) (a := a) (n := n2)
    as (n' & E' & HN' & HCh); [intros; by apply add_numa_ok|done| | |].
  { rw Hpa2. apply lookup_insert_eq. }
  { intros i r Hw. unfold status. rw Ht2. apply Hkn, Hw. }
  exists n'. destruct HCh as (C1 & C2 & C3 & C4). split_and!; [done..| | | |].
  - congruence.
  - congruence.
  - intros j. rw C3. unfold socket. by rw Ht2.
  - intros j r. rw C4. unfold usage, status. by rw Ht2.
Qed.

(** A pod that uses a resource wants it. *)
Lemma users_want n k a j r b U :
  NumaOK n → podAllocations n !! k = Some a → usage n j r = Some (b, U) → k ∈ U → wants a j r = true.
Proof.
  intros [HC _] Ha Hu Hin. apply usage_status_inv in Hu as (rs & Hs & _ & ->).
  pose proof (c_users _ HC _ _ _ _ Hs Hin) as Hr. unfold req in Hr. rw Ha in Hr. cbn [mbind option_bind] in Hr.
  by apply bool_decide_eq_true.
Qed.

Lemma RemovePod_ok p preempt notChanged n :
  let k := GeneratePodKey (pi_Pod p) in
  let touched := negb (negb preempt && notChanged) in
  NumaOK n → (∀ a, podAllocations n !! k = Some a → known n a) →
  ∃ n', RemovePod_ p preempt notChanged n = Some n' ∧ NumaOK n'
    ∧ requestsOfSharedCores n' = requestsOfSharedCores (shared_after (SubResource order lsci) p n)
    ∧ podAllocations n' = (if negb preempt && negb notChanged then delete k (podAllocations n) else podAllocations n)
    ∧ (∀ j, socket n' j = socket n j)
    ∧ ∀ j r, usage n' j r = (λ aU, (aU.1, if touched then aU.2 ∖ {[k]} else aU.2)) <$> usage n j r.
Proof.
  intros k touched HN Hkn. unfold numa_RemovePod. fold (shared_after (SubResource order lsci) p n). fold k.
  set (n1 := shared_after (SubResource order lsci) p n).
  destruct (shared_after_same (SubResource order lsci) p n) as (Hpa & Ht & HF & Hok). fold n1 in Hpa, Ht, HF, Hok.
  assert (∀ j, socket n1 j = socket n j) as Hs1 by (intros j; unfold socket; by rw Ht).
  assert (∀ j r, usage n1 j r = usage n j r) as Hu1 by (intros j r; unfold usage, status; by rw Ht).
  unfold touched. destruct (negb preempt && notChanged) eqn:Et.
  { exists n1. apply andb_true_iff in Et as [-> ->]. split_and!; [done|by apply Hok|done..|].
    intros j r. rw Hu1. by destruct (usage n j r) as [[]|]. }
  rw Hpa. destruct (podAllocations n !! k) as [a|] eqn:Ea.
  2: { exists n1. split_and!; [done|by apply Hok|done| |done|].
       - rw delete_id // Hpa. by destruct (negb preempt && negb notChanged).
       - intros j r. rw Hu1. destruct (usage n j r) as [[b U]|] eqn:Eu; [|done]. simpl. do 2 f_equal.
         symmetry. apply difference_disjoint_L. apply disjoint_singleton_r. intros Hin.
         apply usage_status_inv in Eu as (rs & Hs & _ & ->). destruct HN as [HC _].
         pose proof (c_users _ HC _ _ _ _ Hs Hin) as Hr. unfold req in Hr. rw Ea in Hr. by apply is_Some_None in Hr. }
  destruct (allocation_loop (remove_numa order lsci sorder) (λ k U, U ∖ {[k]})) with (k := k) (a := a) (n := n1)
    as (n2 & E' & HN2 & HCh); [intros; by apply remove_numa_ok|by apply Hok|by rw Hpa| |].
  { intros i r Hw. unfold status. rw Ht. by apply (Hkn a eq_refl). }
  rw E'. cbn [mbind option_bind]. destruct HCh as (C1 & C2 & C3 & C4).
  assert (∀ j r, usage n2 j r = (λ aU, (aU.1, aU.2 ∖ {[k]})) <$> usage n j r) as Hu2.
  { intros j r. rw C4 Hu1. destruct (usage n j r) as [[b U]|] eqn:Eu; [|done]. simpl.
    destruct (wants a j r) eqn:Ew; [done|]. do 2 f_equal. symmetry. apply difference_disjoint_L.
    apply disjoint_singleton_r. intros Hin. by rw (users_want n k a j r b U HN Ea Eu Hin) in Ew. }
  eexists. split; [reflexivity|]. destruct (negb preempt && negb notChanged).
  - split_and!; [|done| | |].
    + apply (NumaOK_allocations n2 _ k); [done| |].
      * intros i r b U Hu. rw Hu2 in Hu. destruct (usage n i r) as [[b' U']|]; [|done]. injection Hu as <- <-. set_solver.
      * intros k' Hk'. by rw lookup_delete_ne.
    + simpl. by rw C1 Hpa.
    + intros j. rw -Hs1. apply C3.
    + intros j r. apply Hu2.
  - split_and!; [done|done| |intros j; by rw C3 Hs1|done]. by rw C1 Hpa.
Qed.

(** ** States that agree *)

Lemma free_unique n n' :
  FreeOK n → FreeOK n' → (∀ j, socket n' j = socket n j) → (∀ j, numa_unused n' j ↔ numa_unused n j) →
  socketToFreeNumasOfConflictResources n' = socketToFreeNumasOfConflictResources n.
Proof.
  intros [Hf Hne] [Hf' Hne'] Hs Hu.
  assert (∀ s, GetFreeNumasInSocketForConflictResources s n' = GetFreeNumasInSocketForConflictResources s n) as HG.
  { intros s. apply set_eq. intros j. by rw Hf Hf' Hs Hu. }
  apply map_eq. intros s. specialize (HG s). unfold GetFreeNumasInSocketForConflictResources in HG.
  specialize (Hne s). specialize (Hne' s).
  destruct (socketToFreeNumasOfConflictResources n' !! s) as [X|], (socketToFreeNumasOfConflictResources n !! s) as [Y|];
    simpl in HG; [by subst| | |done].
  - by destruct (Hne' X eq_refl).
  - by destruct (Hne Y eq_refl).
Qed.

(** The accounting is a function of the allocations and of who uses what. *)
Lemma NumaOK_unique n n' :
  NumaOK n → NumaOK n' → podAllocations n' = podAllocations n → (∀ j, socket n' j = socket n j) →
  (∀ j r, usage n' j r = usage n j r) →
  topology n' = topology n ∧ availableOfSharedCores n' ≡ availableOfSharedCores n
  ∧ socketToFreeNumasOfConflictResources n' = socketToFreeNumasOfConflictResources n.
Proof.
  intros [HC HF] [HC' HF'] Hpa Hs Hu.
  assert (∀ j r, status n' j r = status n j r) as Hst.
  { intros j r. specialize (Hu j r). unfold usage in Hu.
    pose proof (c_avail _ HC j r) as Ha. pose proof (c_avail _ HC' j r) as Ha'.
    destruct (status n' j r) as [[al' av' U']|], (status n j r) as [[al av U]|]; simpl in *; try done.
    injection Hu as -> ->. specialize (Ha _ eq_refl). specialize (Ha' _ eq_refl). simpl in Ha, Ha'. subst av av'.
    do 3 f_equal. apply ssum_ext. intros k _.
    unfold reqz, req. by rw Hpa. }
  assert (topology n' = topology n) as Ht.
  { apply map_eq. intros j. specialize (Hs j). specialize (Hst j). unfold socket in Hs. unfold status in Hst.
    destruct (topology n' !! j) as [[s' R']|], (topology n !! j) as [[s R]|]; simpl in *; try done.
    injection Hs as ->. do 2 f_equal. by apply map_eq. }
  split_and!; [done| |].
  - intros d. by rw (c_shared _ HC) (c_shared _ HC') Ht.
  - apply free_unique; [done..|]. intros j. unfold numa_unused. by setoid_rewrite Hu.
Qed.

(** ** Taking allocations one after the other *)

Lemma take_pod_ok k a n :
  NumaOK n → podAllocations n !! k = Some a → no_user n k →
  (∀ i, is_Some (numaAllocations a !! i) → is_Some (topology n !! i)) →
  ∃ n', take_pod order lsci norder sorder (Some n) (k, a) = Some n' ∧ NumaOK n'
    ∧ Changed n n' (λ j r U, match numaAllocations a !! j with Some rl => taken_users k rl r U | None => U end).
Proof.
  intros HN Ha Hno Hnuma. destruct (norder_map (numaAllocations a)) as [HND Hm]. unfold take_pod. simpl.
  destruct (numa_loop (take_numa order lsci sorder k) (taken_users k)
    (λ n kv, podAllocations n !! k = Some a ∧ numaAllocations a !! kv.1 = Some kv.2 ∧ is_Some (topology n !! kv.1)
       ∧ ∀ r b U, usage n kv.1 r = Some (b, U) → k ∉ U))
    with (l := norder (numaAllocations a)) (n := n) as (n' & E' & HN' & HCh).
  - intros n1 n2 f kv HCh Hf (H1 & H2 & H3 & H4). split_and!; [by destruct HCh as (-> & _)|done|by apply (changed_topology _ _ _ _ HCh)|].
    intros r b U Hu. destruct HCh as (_ & _ & _ & HU). rw HU in Hu. destruct (usage n1 kv.1 r) as [[b' U']|] eqn:Eu; [|done].
    injection Hu as <- <-. rw Hf. by eapply H4.
  - intros n1 [i rl] HN1 (H1 & H2 & H3 & H4). simpl in *. apply take_numa_ok; [done| |done|done].
    intros r q Hq. by rw /req H1 /= H2.
  - done.
  - done.
  - intros [i rl] H. rw Hnorder elem_of_map_to_list in H. simpl. split_and!; [done..| |].
    + apply Hnuma. by rw H.
    + intros r b U. apply Hno.
  - exists n'. split_and!; [done..|]. eapply Changed_ext; [exact HCh|]. intros j r U. by rw Hm.
Qed.

(** The pods of a list that take some of resource [r] of NUMA node [j]. *)
Definition takers (l : list (string * PodAllocation)) (j : Z) (r : string) : gset string :=
  list_to_set (fst <$> filter (λ ka, MilliValue (default 0%Z (numaAllocations ka.2 !! j ≫= (.!! r))) ≠ 0%Z) l).

Lemma take_pods_ok l n :
  NumaOK n → NoDup l.*1 →
  (∀ ka, ka ∈ l → podAllocations n !! ka.1 = Some ka.2 ∧ no_user n ka.1
     ∧ ∀ i, is_Some (numaAllocations ka.2 !! i) → is_Some (topology n !! i)) →
  ∃ n', foldl (take_pod order lsci norder sorder) (Some n) l = Some n' ∧ NumaOK n'
    ∧ Changed n n' (λ j r U, takers l j r ∪ U).
Proof.
  revert n. induction l as [|[k a] l IH]; intros n HN HND Hall; cbn [foldl].
  { exists n. split_and!; [done..|]. apply Changed_refl. intros j r b U _. unfold takers. simpl. set_solver. }
  apply NoDup_cons in HND as [Hnot HND]. simpl in Hnot. destruct (Hall (k, a)) as (Ha & Hno & Hnuma); [set_solver|].
  destruct (take_pod_ok k a n HN Ha Hno Hnuma) as (n1 & E1 & HN1 & HCh1). rw E1.
  destruct (IH n1 HN1 HND) as (n' & E' & HN' & HCh').
  - intros [k' a'] Hin. destruct (Hall (k', a')) as (Ha' & Hno' & Hnuma'); [set_solver|]. simpl in *.
    assert (k' ≠ k) as Hne by (intros ->; apply Hnot; by apply (list_elem_of_fmap_2 fst _ (k, a'))).
    split_and!; [by destruct HCh1 as (-> & _)| |].
    + intros i r b U Hu. destruct HCh1 as (_ & _ & _ & HU). rw HU in Hu. destruct (usage n i r) as [[b' U']|] eqn:Eu; [|done].
      injection Hu as <- <-. pose proof (Hno' i r b' U' Eu). destruct (numaAllocations a !! i); [|done].
      unfold taken_users. destruct (_ =? 0)%Z; [done|]. set_solver.
    + intros i Hi. by apply (changed_topology _ _ _ _ HCh1), Hnuma'.
  - exists n'. split_and!; [done..|]. eapply Changed_trans; [exact HCh1|exact HCh'|]. intros j r U. simpl.
    unfold takers. rw filter_cons. simpl. unfold taken_users. destruct (numaAllocations a !! j) as [rl|]; simpl.
    + destruct (Z.eqb_spec (MilliValue (default 0%Z (rl !! r))) 0) as [E|E].
      * rw decide_False; [done|naive_solver].
      * rw decide_True //=. set_solver.
    + done.
Qed.
End numa_ok.
