(* ===== verification/NumaParse.v ===== *)
(** * Reading a custom node resource establishes the NUMA accounting

    [parseNumaTopologyStatus] from any state: first the zones of the resource
    give a status without users, then the allocations that are kept are taken
    one after the other. *)
From S2P Require Import Prelude GoStrings PodModel PodState Splay SplayRefine SplayProps SplaySpec HashSlice Resource MicroTopo PodInfos PodInfosProps Numa NumaProps.

Local Open Scope godel_scope.
Local Open Scope string_scope.

Implicit Types n : NumaTopologyStatus.

(** ** A status without users *)

Definition unused_status (st : NumaStatus) : Prop :=
  ∀ r rs, resourceStatuses st !! r = Some rs → Users rs = ∅ ∧ Available rs = Allocatable rs.

Record Fresh n : Prop := {
  fr_unused : ∀ i st, topology n !! i = Some st → unused_status st;
  fr_shared : ∀ d, amount (availableOfSharedCores n) d
    = if conflict_dim d then wrap64 (msum (share d) (topology n)) else 0%Z;
  fr_wf : wf_resource (availableOfSharedCores n);
  fr_free : ∀ s i, i ∈ GetFreeNumasInSocketForConflictResources s n ↔ socket n i = Some s;
  fr_nonempty : ∀ s X, socketToFreeNumasOfConflictResources n !! s = Some X → X ≠ ∅;
  (** The reported allocations are on reported NUMA nodes. *)
  fr_alloc : ∀ k a i, podAllocations n !! k = Some a → is_Some (numaAllocations a !! i) → is_Some (topology n !! i)
}.

Lemma Fresh_users n i r a U : Fresh n → usage n i r = Some (a, U) → U = ∅.
Proof.
  intros HF Hu. apply usage_status_inv in Hu as (rs & Hs & _ & ->). unfold status in Hs.
  destruct (topology n !! i) as [st|] eqn:Est; [|done]. by destruct (fr_unused _ HF i st Est r rs Hs).
Qed.

Lemma Fresh_ok n : Fresh n → NumaOK n.
Proof.
  intros HF. split; [split|split].
  - intros i r rs Hs. unfold status in Hs. destruct (topology n !! i) as [st|] eqn:Est; [|done].
    destruct (fr_unused _ HF i st Est r rs Hs) as [-> ->]. rw ssum_empty. lia.
  - intros i r rs k Hs Hk. rw (Fresh_users n i r (Allocatable rs) (Users rs) HF (usage_status _ _ _ _ Hs)) in Hk.
    by apply not_elem_of_empty in Hk.
  - apply HF.
  - apply HF.
  - intros s i. rw (fr_free _ HF). split; [|naive_solver]. intros Hs. split; [done|]. intros r a U Hu _. by eapply Fresh_users.
  - apply HF.
Qed.

Lemma Fresh_new x : Fresh (newNumaTopologyStatus x).
Proof.
  split; [done|by intros []|apply wf_zero| |done|done].
  intros s i. unfold GetFreeNumasInSocketForConflictResources, socket. simpl. rw !lookup_empty. simpl. set_solver.
Qed.

Section parse_ok.
Context (order : gmap string Z → list (string * Z)) (lsci : bool).
Context (Horder : ∀ m, order m ≡ₚ map_to_list m).

(** ** One NUMA zone *)

(** What is allocatable enters the shared cores and the status. *)
Lemma parse_allocatable_loop l n st base :
  NoDup l.*1 → (∀ r, r ∈ l.*1 → resourceStatuses st !! r = None) → unused_status st →
  wf_resource (availableOfSharedCores n) →
  (∀ d, amount (availableOfSharedCores n) d = if conflict_dim d then wrap64 (base d + share d st) else 0%Z) →
  let '(n', st') := foldl (parse_allocatable order lsci) (n, st) l in
  socketId st' = socketId st ∧ unused_status st' ∧ wf_resource (availableOfSharedCores n')
  ∧ (∀ d, amount (availableOfSharedCores n') d = if conflict_dim d then wrap64 (base d + share d st') else 0%Z)
  ∧ podAllocations n' = podAllocations n ∧ topology n' = topology n
  ∧ requestsOfSharedCores n' = requestsOfSharedCores n
  ∧ socketToFreeNumasOfConflictResources n' = socketToFreeNumasOfConflictResources n.
Proof.
  revert n st. induction l as [|[r q] l IH]; intros n st HND Hnone Hun Hwf Ham; [by split_and!|].
  apply NoDup_cons in HND as [Hnot HND]. simpl foldl. simpl in Hnot.
  assert (resourceStatuses st !! r = None) as Hr by (apply Hnone; set_solver). simpl in Hr. rw Hr.
  set (n1 := updateAvailableOfSharedCores order lsci true true r q n).
  set (st1 := mkNuma (socketId st) (<[r := mkStatus q q ∅]> (resourceStatuses st))).
  destruct (updAvail_same order lsci true true r q n) as (E1 & E2 & E3 & E4). fold n1 in E1, E2, E3, E4.
  assert (∀ d, share d st1 = (share d st + if decide (dim_name d = r) then dim_value d q else 0)%Z) as Hsh.
  { intros d. unfold share, st1. simpl. destruct (decide (dim_name d = r)) as [->|].
    - rw lookup_insert_eq Hr /=. by rw bool_decide_true.
    - rw lookup_insert_ne //. lia. }
  pose proof (IH n1 st1 HND) as H. destruct (foldl (parse_allocatable order lsci) (n1, st1) l) as [n' st'].
  rw -E1 -E2 -E3 -E4. apply H.
  - intros r' Hr'. simpl. rw lookup_insert_ne; [|by intros ->]. apply Hnone. set_solver.
  - intros r' rs'. simpl. intros [[<- <-]|[_ ?]]%lookup_insert_Some; [done|by eapply Hun].
  - by apply updAvail_wf.
  - intros d. unfold n1. rw updAvail_amount // Ham Hsh /=. destruct (conflict_dim d); [|done]. simpl.
    case_bool_decide; [rw decide_True //|rw decide_False //; f_equal; lia]. rw wrap64_add_l. f_equal. lia.
Qed.

(** The allocations reported on a zone change neither what is shared nor who
    uses what. *)
Definition alloc_step (i : Z) (x x' : NumaTopologyStatus * NumaStatus) : Prop :=
  socketId x'.2 = socketId x.2 ∧ (unused_status x.2 → unused_status x'.2) ∧ (∀ d, share d x'.2 = share d x.2)
  ∧ availableOfSharedCores x'.1 = availableOfSharedCores x.1 ∧ topology x'.1 = topology x.1
  ∧ requestsOfSharedCores x'.1 = requestsOfSharedCores x.1
  ∧ socketToFreeNumasOfConflictResources x'.1 = socketToFreeNumasOfConflictResources x.1
  ∧ ∀ k a j, podAllocations x'.1 !! k = Some a → is_Some (numaAllocations a !! j) →
      j = i ∨ ∃ a0, podAllocations x.1 !! k = Some a0 ∧ is_Some (numaAllocations a0 !! j).

Lemma alloc_step_refl i x : alloc_step i x x.
Proof. split_and!; try done. intros k a j H1 H2. right. eauto. Qed.

Lemma alloc_step_trans i x y z : alloc_step i x y → alloc_step i y z → alloc_step i x z.
Proof.
  intros (A1 & A2 & A3 & A4 & A5 & A6 & A7 & A8) (B1 & B2 & B3 & B4 & B5 & B6 & B7 & B8).
  split_and!; [congruence|auto| |congruence..|].
  - intros d. by rw B3 A3.
  - intros k a j H1 H2. destruct (B8 k a j H1 H2) as [->|(a0 & H3 & H4)]; [by left|by eapply A8].
Qed.

Lemma alloc_step_foldl {X} (f : NumaTopologyStatus * NumaStatus → X → NumaTopologyStatus * NumaStatus) i l x :
  (∀ x e, alloc_step i x (f x e)) → alloc_step i x (foldl f x l).
Proof.
  intros Hf. revert x. induction l as [|e l IH]; intros x; [apply alloc_step_refl|]. simpl.
  eapply alloc_step_trans; [apply Hf|apply IH].
Qed.

Lemma parse_request_step k i x kv : alloc_step i x (parse_request k i x kv).
Proof.
  destruct x as [n st]. unfold parse_request. destruct (_ =? 0)%Z; [apply alloc_step_refl|].
  set (st1 := match resourceStatuses st !! kv.1 with Some _ => st | None => _ end).
  assert (socketId st1 = socketId st ∧ (unused_status st → unused_status st1) ∧ ∀ d, share d st1 = share d st) as (H1 & H2 & H3).
  { unfold st1. destruct (resourceStatuses st !! kv.1) eqn:E; [done|]. split_and!; [done| |].
    - intros Hu r rs. simpl. intros [[<- <-]|[_ ?]]%lookup_insert_Some; [done|by eapply Hu].
    - intros d. unfold share. simpl. destruct (decide (kv.1 = dim_name d)) as [Ed|Ed].
      + rw Ed lookup_insert_eq. rw Ed in E. rw E. by destruct d.
      + by rw lookup_insert_ne. }
  split_and!; simpl; try done. intros k' a j. destruct (decide (k' = k)) as [->|Hk]; [|rw lookup_alter_ne //; eauto].
  rw lookup_alter_eq. destruct (podAllocations n !! k) as [a0|] eqn:E; [|done]. intros [= <-]. simpl. intros Hj.
  right. exists a0. split; [done|]. destruct (decide (j = i)) as [->|].
  - rw lookup_alter_eq in Hj. by apply fmap_is_Some in Hj.
  - by rw lookup_alter_ne in Hj.
Qed.

Lemma parse_allocation_step i x al : alloc_step i x (parse_allocation order i x al).
Proof.
  destruct x as [n st]. unfold parse_allocation. destruct (alloc_Requests al) as [reqs|]; [|apply alloc_step_refl].
  eapply alloc_step_trans; [|apply alloc_step_foldl, parse_request_step].
  split_and!; simpl; try done. intros k a j [[<- <-]|[Hk Ha]]%lookup_insert_Some; [|eauto]. simpl.
  rw lookup_insert_is_Some. intros [->|[Hj Hs]]; [by left|]. right.
  destruct (podAllocations n !! Consumer al) as [a0|] eqn:E; simpl in Hs; [eauto|].
  rw lookup_empty in Hs. by apply is_Some_None in Hs.
Qed.

Lemma parse_allocations_step i l x : alloc_step i x (foldl (parse_allocation order i) x l).
Proof. apply alloc_step_foldl, parse_allocation_step. Qed.

(** ** The zones *)

Definition zone_id (z : ChildZone) : Z := Atoi_ignored (child_Name z).

Lemma parse_child_ok s n z :
  Fresh n → (child_Type z ≟ TopologyTypeNuma) = true → is_Some (child_Allocatable z) → topology n !! zone_id z = None →
  Fresh (parse_child order lsci s n z)
  ∧ requestsOfSharedCores (parse_child order lsci s n z) = requestsOfSharedCores n
  ∧ ∀ j, is_Some (topology (parse_child order lsci s n z) !! j) ↔ j = zone_id z ∨ is_Some (topology n !! j).
Proof.
  intros HF Hty [rl Hrl] Hnone. unfold parse_child. rw Hty Hrl. simpl negb. cbv iota. fold (zone_id z). set (i := zone_id z) in *.
  pose proof (parse_allocatable_loop (order rl) n (mkNuma s ∅) (λ d, msum (share d) (topology n))) as HL.
  destruct (foldl (parse_allocatable order lsci) (n, mkNuma s ∅) (order rl)) as [n1 st1].
  destruct HL as (S1 & U1 & W1 & A1 & P1 & T1 & R1 & F1).
  { rw Horder. apply NoDup_fst_map_to_list. }
  { done. }
  { done. }
  { apply HF. }
  { intros d. rw (fr_shared _ HF). destruct (conflict_dim d); [|done]. f_equal. unfold share at 3. simpl. rw lookup_empty. lia. }
  set (n2 := updateFreeNumaForConflictResources true i s n1).
  pose proof (parse_allocations_step i (Allocations z) (n2, st1)) as HA.
  destruct (foldl (parse_allocation order i) (n2, st1) (Allocations z)) as [n3 st3]. simpl in HA, S1.
  destruct HA as (S3 & U3 & Sh3 & A3 & T3 & R3 & F3 & P3). simpl in A3, T3, R3, F3, P3.
  assert (topology n3 = topology n) as Htt by (etransitivity; [exact T3|exact T1]).
  assert (∀ j, topology n3 !! j = topology n !! j) as Ht by (intros j; by rw Htt).
  assert (∀ s' j, j ∈ GetFreeNumasInSocketForConflictResources s' (set_topology (<[i := st3]> (topology n3)) n3)
    ↔ (j = i ∧ s' = s) ∨ j ∈ GetFreeNumasInSocketForConflictResources s' n) as Hfree.
  { intros s' j. unfold GetFreeNumasInSocketForConflictResources at 1. simpl. rw F3.
    pose proof (updateFree_members true i s n1 s' j) as H. unfold GetFreeNumasInSocketForConflictResources in H at 2.
    rw F1 in H. exact H. }
  split; [split|split].
  - intros j st. simpl. intros [[<- <-]|[_ Hj]]%lookup_insert_Some; [by apply U3|]. rw Ht in Hj. by eapply fr_unused.
  - intros d. simpl. rw A3 A1. destruct (conflict_dim d); [|done]. rw msum_insert; [|by rw Ht]. rw Sh3 Htt. simpl. f_equal. lia.
  - simpl. by rw A3.
  - intros s' j. rw Hfree (fr_free _ HF). unfold socket. simpl. destruct (decide (j = i)) as [->|Hj].
    + rw lookup_insert_eq Hnone /= S3 S1. split; [intros [[_ ->]|?]; done|]. intros [= ->]. by left.
    + rw lookup_insert_ne // Ht. naive_solver.
  - intros s' X. simpl. rw F3. apply (updateFree_nonempty true i s n1). rw F1. apply HF.
  - intros k a j. simpl. intros Hk Hj. rw lookup_insert_is_Some. destruct (P3 k a j Hk Hj) as [->|(a0 & H0 & Hj0)]; [by left|].
    destruct (decide (i = j)); [by left|right]. split; [done|]. rw Ht. eapply fr_alloc; [done| |done]. by rw -P1.
  - simpl. by rw R3 R1.
  - intros j. simpl. rw lookup_insert_is_Some Ht. destruct (decide (j = i)); naive_solver.
Qed.

(** The NUMA zones of a resource, each with the id of its socket. *)
Definition numa_zones (cnr : CNR) : list (Z * ChildZone) :=
  mbind (λ o : option TopologyZone,
    match o with
    | Some z => if negb (zone_Type z ≟ TopologyTypeSocket) then []
                else (λ c, (Atoi_ignored (zone_Name z), c)) <$> filter (λ c, (child_Type c ≟ TopologyTypeNuma) = true) (Children z)
    | None => []
    end) (cnr_TopologyZone cnr).

Lemma zones_as_list cnr n :
  foldl (parse_zone order lsci) n (cnr_TopologyZone cnr)
  = foldl (λ n sz, parse_child order lsci sz.1 n sz.2) n (numa_zones cnr).
Proof.
  unfold numa_zones. generalize (cnr_TopologyZone cnr). intros l. revert n.
  induction l as [|o l IH]; intros n; [done|]. cbn [foldl mbind list_bind]. rw foldl_app -IH. f_equal. clear IH.
  destruct o as [z|]; [|done]. simpl. destruct (negb (zone_Type z ≟ TopologyTypeSocket)); [done|].
  revert n. induction (Children z) as [|c cs IH]; intros n; [done|]. cbn [foldl]. rw IH filter_cons.
  destruct (decide ((child_Type c ≟ TopologyTypeNuma) = true)) as [E|E]; [done|].
  f_equal. unfold parse_child. apply not_true_is_false in E. by rw E.
Qed.

(** Every NUMA zone reports what is allocatable, and no two have the same id. *)
Definition cnr_ok (cnr : CNR) : Prop :=
  NoDup (zone_id <$> (numa_zones cnr).*2) ∧ ∀ sz, sz ∈ numa_zones cnr → is_Some (child_Allocatable sz.2).

Lemma numa_zones_type cnr sz : sz ∈ numa_zones cnr → (child_Type sz.2 ≟ TopologyTypeNuma) = true.
Proof.
  unfold numa_zones. intros (o & Hsz & _)%list_elem_of_bind. destruct o as [z|]; [|by apply not_elem_of_nil in Hsz].
  destruct (negb _); [by apply not_elem_of_nil in Hsz|].
  apply list_elem_of_fmap in Hsz as (c & -> & [Hc _]%list_elem_of_filter). done.
Qed.

Lemma parse_zones_ok l n :
  Fresh n → NoDup (zone_id <$> l.*2) → (∀ sz, sz ∈ l → (child_Type sz.2 ≟ TopologyTypeNuma) = true ∧ is_Some (child_Allocatable sz.2)) →
  (∀ i, i ∈ zone_id <$> l.*2 → topology n !! i = None) →
  let n' := foldl (λ n sz, parse_child order lsci sz.1 n sz.2) n l in
  Fresh n' ∧ requestsOfSharedCores n' = requestsOfSharedCores n
  ∧ ∀ j, is_Some (topology n' !! j) ↔ j ∈ zone_id <$> l.*2 ∨ is_Some (topology n !! j).
Proof.
  revert n. induction l as [|[s z] l IH]; intros n HF HND Hl Hnone; cbn [foldl].
  { split_and!; [done..|]. intros j. split; [by right|]. intros [?%not_elem_of_nil|?]; done. }
  apply NoDup_cons in HND as [Hnot HND]. destruct (Hl (s, z)) as [Hty Hal]; [set_solver|].
  destruct (parse_child_ok s n z HF Hty Hal) as (HF1 & R1 & T1); [apply Hnone; set_solver|].
  destruct (IH (parse_child order lsci s n z) HF1 HND) as (HF' & R' & T').
  - intros sz Hsz. apply Hl. set_solver.
  - intros i Hi. apply eq_None_not_Some. rw T1. intros [->|Hs]; [done|].
    rw Hnone in Hs; [by apply is_Some_None in Hs|]. simpl. set_solver.
  - split_and!; [done|simpl; congruence|]. intros j. simpl. rw T' T1 elem_of_cons. tauto.
Qed.

(** ** The allocations that are kept *)

Context (gates : FeatureGates) (norder : gmap Z ResourceList → list (Z * ResourceList)).
Context (sorder : gmap string ResourceStatus → list (string * ResourceStatus)).
Context (aorder : gmap string PodAllocation → list (string * PodAllocation)).
Context (ParseQuantity : string → option Quantity).
Context (Hnorder : ∀ m, norder m ≡ₚ map_to_list m) (Hsorder : ∀ m, sorder m ≡ₚ map_to_list m)
  (Haorder : ∀ m, aorder m ≡ₚ map_to_list m).

(** The micro topology of a pod of the node. *)
Definition annotated (P : gmap string PodInfo) (k : string) (m : gmap Z ResourceList) : Prop :=
  ∃ ns name uid p v, ParsePodKey k = Some (ns, name, uid) ∧ P !! uid = Some p
    ∧ anno_lookup (pi_Pod p) MicroTopologyKey = Some v ∧ UnmarshalMicroTopology ParseQuantity v = Some m.

Definition kept (P : gmap string PodInfo) n n' : Prop :=
  topology n' = topology n ∧ availableOfSharedCores n' = availableOfSharedCores n
  ∧ requestsOfSharedCores n' = requestsOfSharedCores n
  ∧ socketToFreeNumasOfConflictResources n' = socketToFreeNumasOfConflictResources n
  ∧ ∀ k a, podAllocations n' !! k = Some a →
      podAllocations n !! k = Some a ∨ ∃ m, annotated P k m ∧ a = mkAllocation false m.

Lemma keep_one pods P n kv :
  RM gates pods P → ∃ n', keep_allocation ParseQuantity pods (Some n) kv = Some n' ∧ kept P n n'.
Proof.
  intros HM. assert (kept P n n) as Hr by (split_and!; auto). unfold keep_allocation. cbn [mbind option_bind].
  destruct (podAllocations n !! kv.1); [eauto|].
  destruct (ParsePodKey kv.1) as [[[ns name] uid]|] eqn:Ek; [|eauto]. rw (RM_GetPodInfo gates pods P uid HM). cbn [mbind option_bind].
  destruct (P !! uid) as [p|] eqn:Ep; [|eauto].
  destruct (anno_lookup (pi_Pod p) MicroTopologyKey) as [v|] eqn:Ev; [|eauto].
  destruct (UnmarshalMicroTopology ParseQuantity v) as [m|] eqn:Em; [|eauto]. case_bool_decide; [eauto|].
  eexists. split; [reflexivity|]. split_and!; try done. intros k a. simpl.
  intros [[<- <-]|[_ ?]]%lookup_insert_Some; [|by left]. right. exists m. split; [|done]. unfold annotated. eauto 10.
Qed.

Lemma keep_all pods P l n :
  RM gates pods P → ∃ n', foldl (keep_allocation ParseQuantity pods) (Some n) l = Some n' ∧ kept P n n'.
Proof.
  intros HM. revert n. induction l as [|kv l IH]; intros n; cbn [foldl]; [exists n; split; [done|]; split_and!; auto|].
  destruct (keep_one pods P n kv HM) as (n1 & -> & (A1 & A2 & A3 & A4 & A5)).
  destruct (IH n1) as (n' & -> & (B1 & B2 & B3 & B4 & B5)). exists n'. split; [done|]. split_and!; [congruence..|].
  intros k a Hk. destruct (B5 k a Hk) as [Hk1|?]; [by apply A5|by right].
Qed.

Definition reported (cnr : CNR) (i : Z) : Prop := i ∈ zone_id <$> (numa_zones cnr).*2.

(** Reading a resource that reports each NUMA node once, with what is
    allocatable, when the annotations of the pods name reported NUMA nodes only. *)
Lemma parse_ok cnr pods P n :
  RM gates pods P → cnr_ok cnr → (∀ k m i, annotated P k m → is_Some (m !! i) → reported cnr i) →
  ∃ n', parseNumaTopologyStatus order lsci norder sorder aorder ParseQuantity cnr pods n = Some n' ∧ NumaOK n'
    ∧ requestsOfSharedCores n' = requestsOfSharedCores n
    ∧ (∀ i, is_Some (topology n' !! i) ↔ reported cnr i)
    ∧ ∀ i r a U k, usage n' i r = Some (a, U) → k ∈ U ↔ MilliValue (reqz n' k i r) ≠ 0%Z.
Proof.
  intros HM [HND Hal] Hann. unfold parseNumaTopologyStatus. rw zones_as_list.
  destruct (parse_zones_ok (numa_zones cnr) (newNumaTopologyStatus (requestsOfSharedCores n))) as (HF & HR & HT);
    [apply Fresh_new|done|intros sz Hsz; split; [by eapply numa_zones_type|by apply Hal]|done|].
  set (t := foldl _ _ _) in *.
  destruct (keep_all pods P (aorder (podAllocations n)) t HM) as (t' & -> & (T1 & T2 & T3 & T4 & T5)). cbn [mbind option_bind].
  assert (∀ i, is_Some (topology t' !! i) ↔ reported cnr i) as Htop.
  { intros i. rw T1 HT. split; [intros [?|H]; [done|by apply is_Some_None in H]|by left]. }
  assert (∀ j r, usage t' j r = usage t j r) as Hut by (intros j r; unfold usage, status; by rw T1).
  assert (NumaOK t') as HN.
  { destruct (Fresh_ok t HF) as [[H1 H2 H3 H4] [H5 H6]]. split; split; rw ?T2 ?T1 ?T4 //.
    - intros i r rs. unfold status. rw T1. intros Hs.
      assert (Users rs = ∅) as -> by (eapply (Fresh_users t i r); [done|by apply usage_status]).
      pose proof (H1 i r rs Hs) as H. rw (Fresh_users t i r (Allocatable rs) (Users rs) HF (usage_status _ _ _ _ Hs)) in H.
      by rw !ssum_empty in H |- *.
    - intros i r rs k. unfold status. rw T1. intros Hs Hin.
      rw (Fresh_users t i r (Allocatable rs) (Users rs) HF (usage_status _ _ _ _ Hs)) in Hin. by apply not_elem_of_empty in Hin.
    - intros s i. unfold GetFreeNumasInSocketForConflictResources, socket, numa_unused in *. rw T4 T1. setoid_rewrite Hut. apply H5. }
  destruct (take_pods_ok order lsci norder sorder aorder ParseQuantity Horder Hnorder Hsorder Haorder) with (l := aorder (podAllocations t')) (n := t')
    as (n' & E' & HN' & HCh); [done| | |].
  { rw Haorder. apply NoDup_fst_map_to_list. }
  { intros [k a] Hka. rw Haorder elem_of_map_to_list in Hka. simpl. split_and!; [done| |].
    - intros i r b U Hu. rw Hut in Hu. rw (Fresh_users t i r b U HF Hu). apply not_elem_of_empty.
    - intros i Hi. apply Htop. destruct (T5 k a Hka) as [Hk|(m & Hm & ->)]; [|by eapply Hann].
      apply Htop. rw T1. by eapply fr_alloc. }
  exists n'. split_and!; [done..| | |].
  - destruct HCh as (_ & -> & _). by rw T3 HR.
  - intros i. by rw (changed_topology _ _ _ _ HCh).
  - intros i r a U k Hu. assert (reqz n' k i r = reqz t' k i r) as -> by (unfold reqz; by rw (Changed_req _ _ _ _ _ _ HCh)).
    destruct HCh as (_ & _ & _ & HU). rw HU Hut in Hu. destruct (usage t i r) as [[b V]|] eqn:Eu; [|done].
    injection Hu as _ <-. rw (Fresh_users t i r b V HF Eu) right_id_L. unfold takers.
    rw elem_of_list_to_set list_elem_of_fmap. unfold reqz, req. split.
    + intros ([k' al] & -> & [Hm Hin]%list_elem_of_filter). rw Haorder elem_of_map_to_list in Hin. by rw Hin.
    + intros Hm. destruct (podAllocations t' !! k) as [al|] eqn:Ea; [|by vm_compute in Hm].
      exists (k, al). split; [done|]. apply list_elem_of_filter. split; [done|]. rw Haorder. by apply elem_of_map_to_list.
Qed.
End parse_ok.
