(* ===== verification/NumaSpec.v ===== *)
(** * What the NUMA accounting promises

    The statuses a node can reach, the accounting equations they satisfy, that
    no operation panics on them, the round trip of adding and removing a pod,
    and two cases where the code panics or depends on the order of iteration. *)
From S2P Require Import Prelude GoStrings PodModel PodState Splay SplayRefine SplayProps SplaySpec HashSlice Resource MicroTopo PodInfos PodInfosProps Numa NumaProps NumaParse.

Local Open Scope godel_scope.
Local Open Scope string_scope.

Implicit Types n : NumaTopologyStatus.

Section spec.
Context (order : gmap string Z → list (string * Z)) (lsci : bool) (gates : FeatureGates).
Context (norder : gmap Z ResourceList → list (Z * ResourceList)).
Context (sorder : gmap string ResourceStatus → list (string * ResourceStatus)).
Context (aorder : gmap string PodAllocation → list (string * PodAllocation)).
Context (ParseQuantity : string → option Quantity).

Abbreviation add := (numa_AddPod order lsci norder ParseQuantity).
Abbreviation remove := (numa_RemovePod order lsci norder sorder).
Abbreviation parse := (parseNumaTopologyStatus order lsci norder sorder aorder ParseQuantity).
Abbreviation key p := (GeneratePodKey (pi_Pod p)).

(** A pod may be added when its allocation names resources its NUMA nodes have,
    and it is either the allocation on record or the pod uses nothing yet. *)
Definition may_add (p : PodInfo) n : Prop :=
  ∀ a, allocation_of ParseQuantity p n = Some (Some a) →
    known n a ∧ (podAllocations n !! key p = Some a ∨ no_user n (key p)).
(** A pod may be removed when its allocation names resources its NUMA nodes have. *)
Definition may_remove (p : PodInfo) n : Prop := ∀ a, podAllocations n !! key p = Some a → known n a.
(** A resource may be read when it reports each NUMA node once, with what is
    allocatable, and the annotated pods are on reported NUMA nodes. *)
Definition may_read (cnr : CNR) (P : gmap string PodInfo) : Prop :=
  cnr_ok cnr ∧ ∀ k m i, annotated ParseQuantity P k m → is_Some (m !! i) → reported cnr i.

Inductive numa_reach : NumaTopologyStatus → Prop :=
  | reach_new x : numa_reach (newNumaTopologyStatus x)
  | reach_add n p n' : numa_reach n → may_add p n → add p n = Some n' → numa_reach n'
  | reach_remove n p preempt notChanged n' :
      numa_reach n → may_remove p n → remove p preempt notChanged n = Some n' → numa_reach n'
  | reach_cnr n cnr pods P n' :
      numa_reach n → RM gates pods P → may_read cnr P → parse cnr pods n = Some n' → numa_reach n'
  | reach_removeCNR n : numa_reach n → numa_reach (numa_removeCNR n).

Context (Horder : ∀ m, order m ≡ₚ map_to_list m) (Hnorder : ∀ m, norder m ≡ₚ map_to_list m)
  (Hsorder : ∀ m, sorder m ≡ₚ map_to_list m) (Haorder : ∀ m, aorder m ≡ₚ map_to_list m).

Lemma add_total p n : NumaOK n → may_add p n → ∃ n', add p n = Some n' ∧ NumaOK n'.
Proof.
  intros HN Hm. destruct (numa_AddPod_ok order lsci norder sorder aorder ParseQuantity Horder Hnorder Hsorder Haorder p n HN Hm)
    as (n' & E & HN' & _). eauto.
Qed.

Lemma remove_total p preempt notChanged n :
  NumaOK n → may_remove p n → ∃ n', remove p preempt notChanged n = Some n' ∧ NumaOK n'.
Proof.
  intros HN Hm.
  destruct (RemovePod_ok order lsci norder sorder aorder ParseQuantity Horder Hnorder Hsorder Haorder p preempt notChanged n HN Hm)
    as (n' & E & HN' & _). eauto.
Qed.

Lemma parse_total cnr pods P n :
  RM gates pods P → may_read cnr P → ∃ n', parse cnr pods n = Some n' ∧ NumaOK n'.
Proof.
  intros HM [Hok Hann].
  destruct (parse_ok order lsci Horder gates norder sorder aorder ParseQuantity Hnorder Hsorder Haorder cnr pods P n HM Hok Hann)
    as (n' & E & HN' & _). eauto.
Qed.

Lemma reach_ok n : numa_reach n → NumaOK n.
Proof.
  induction 1 as [x|n p n' _ IH Hm E|n p pre nc n' _ IH Hm E|n cnr pods P n' _ IH HM Hm E|n _ IH].
  - apply Fresh_ok, Fresh_new.
  - destruct (add_total p n IH Hm) as (? & E' & ?). congruence.
  - destruct (remove_total p pre nc n IH Hm) as (? & E' & ?). congruence.
  - destruct (parse_total cnr pods P n HM Hm) as (? & E' & ?). congruence.
  - apply Fresh_ok, Fresh_new.
Qed.

(** ** Queries *)

Lemma all_used_spec st : IsEmptyForConflictResources sorder st = true ↔
  ∀ r rs, resourceStatuses st !! r = Some rs → IsConflictResourcesForDifferentQoS r = true → Users rs = ∅.
Proof.
  unfold IsEmptyForConflictResources. rw forallb_forall. split.
  - intros H r rs Hr Hc. assert ((r, rs) ∈ sorder (resourceStatuses st)) as Hin%list_elem_of_In by (rw Hsorder; by apply elem_of_map_to_list).
    apply H in Hin. simpl in Hin. rw Hc orb_false_r in Hin. by apply bool_decide_eq_true in Hin.
  - intros H [r rs] Hin%list_elem_of_In. rw Hsorder elem_of_map_to_list in Hin. simpl.
    destruct (IsConflictResourcesForDifferentQoS r) eqn:Hc; [|by rw orb_true_r]. by rw bool_decide_true; [|by eapply H].
Qed.

Lemma IsNumaEmpty_spec n i : IsNumaEmptyForConflictResources sorder i n = true ↔ numa_unused n i.
Proof.
  unfold IsNumaEmptyForConflictResources, numa_unused, usage, status. destruct (topology n !! i) as [st|]; [|done].
  rw all_used_spec. cbn [mbind option_bind]. split.
  - intros H r a U Hu Hc. destruct (resourceStatuses st !! r) as [rs|] eqn:E; [|done]. injection Hu as _ <-. by eapply H.
  - intros H r rs Hr Hc. apply (H r (Allocatable rs)); [by rw Hr|done].
Qed.

(** What one unavailable NUMA node takes from the shared cores. *)
Lemma shared_sub_amount st res d :
  wf_resource res →
  amount (foldl (shared_sub order lsci) res (sorder (resourceStatuses st))) d
  = if conflict_dim d then wrap64 (amount res d - share d st) else amount res d.
Proof.
  intros Hwf.
  assert (∀ l res, NoDup l.*1 → (∀ r rs, (r, rs) ∈ l → resourceStatuses st !! r = Some rs) → wf_resource res →
    wf_resource (foldl (shared_sub order lsci) res l) ∧
    amount (foldl (shared_sub order lsci) res l) d
    = if conflict_dim d && bool_decide (dim_name d ∈ l.*1) then wrap64 (amount res d - share d st) else amount res d) as H.
  { clear res Hwf. intros l. induction l as [|[r rs] l IH]; intros res HND Hl Hwf.
    { split; [done|]. rw bool_decide_false; [by rw andb_false_r|apply not_elem_of_nil]. }
    apply NoDup_cons in HND as [Hnot HND]. simpl in Hnot. cbn [foldl].
    assert (wf_resource (shared_sub order lsci res (r, rs))
      ∧ amount (shared_sub order lsci res (r, rs)) d
        = if conflict_dim d && bool_decide (dim_name d = r) then wrap64 (amount res d - share d st) else amount res d) as [Hwf1 Ham1].
    { unfold shared_sub. simpl. destruct (IsConflictResourcesForDifferentQoS r) eqn:Hc; simpl.
      - destruct (decide (conflict_dim d = true ∧ dim_name d = r)) as [[Hd Hr]|Hd].
        + rw Hd (bool_decide_true (dim_name d = r)) //. simpl. unfold share. rw Hr (Hl r rs); [|set_solver].
          destruct (decide (Users rs = ∅)) as [Hu|Hu].
          2: { rw (bool_decide_false (Users rs = ∅)) //. split; [done|]. rw Z.sub_0_r wrap64_id //. apply Hwf. }
          rw (bool_decide_true (Users rs = ∅)) //.
          split; [by apply Sub_wf|]. rw Sub_amount // delta_conflict // Hd bool_decide_true //.
        + assert (conflict_dim d && bool_decide (dim_name d = r) = false) as Hb.
          { apply andb_false_iff. destruct (conflict_dim d) eqn:E; [right|by left]. apply bool_decide_eq_false. naive_solver. }
          rw Hb. destruct (bool_decide (Users rs = ∅)); [|done]. split; [by apply Sub_wf|].
          rw Sub_amount // delta_conflict // Hb Z.sub_0_r wrap64_id //. apply Hwf.
      - split; [done|]. destruct (conflict_dim d) eqn:Hd; [|done]. simpl. rw bool_decide_false //. intros <-.
        assert (IsConflictResourcesForDifferentQoS (dim_name d) = true); [|congruence]. apply conflict_name. eauto. }
    destruct (IH (shared_sub order lsci res (r, rs)) HND) as [Hwf2 Ham2]; [intros r' rs' ?; apply Hl; set_solver|done|].
    split; [done|]. rw Ham2 Ham1. simpl. destruct (conflict_dim d); [|done]. simpl. destruct (decide (dim_name d = r)) as [Hr|Hr].
    - rw (bool_decide_false (dim_name d ∈ l.*1)); [|by rw Hr]. rw (bool_decide_true (dim_name d = r)) // bool_decide_true //. set_solver.
    - rw (bool_decide_false (dim_name d = r)) //.
      rw (bool_decide_ext (dim_name d ∈ l.*1) (dim_name d ∈ r :: l.*1)) //. set_solver. }
  destruct (H (sorder (resourceStatuses st)) res) as [_ ->]; [rw Hsorder; apply NoDup_fst_map_to_list| |done|].
  { intros r rs. rw Hsorder. apply elem_of_map_to_list. }
  destruct (conflict_dim d) eqn:Hd; [|done]. simpl. case_bool_decide as Hin; [done|].
  unfold share. rw (sorder_elem _ Hsorder) in Hin. destruct (resourceStatuses st !! dim_name d); [by destruct Hin|].
  rw Z.sub_0_r wrap64_id //. apply Hwf.
Qed.

Lemma msum_filter_delete (f : NumaStatus → Z) (m : gmap Z NumaStatus) (l : list Z) i st :
  m !! i = Some st → i ∉ l →
  msum f (filter (λ kv, kv.1 ∉ i :: l) m) = (msum f (filter (λ kv, kv.1 ∉ l) m) - f st)%Z.
Proof.
  intros Hi Hl. rw -(msum_delete f _ i st); [|by apply map_lookup_filter_Some]. f_equal. apply map_eq. intros j. apply option_eq. intros st'.
  rw lookup_delete_Some !map_lookup_filter_Some /= not_elem_of_cons. naive_solver.
Qed.

Lemma shared_loop n l res d :
  NoDup l → (∀ i, i ∈ l → is_Some (topology n !! i)) → wf_resource res →
  ∀ m : gmap Z NumaStatus, (∀ i, i ∈ l → m !! i = topology n !! i) →
  (∀ d, conflict_dim d = true → amount res d = wrap64 (msum (share d) m)) → conflict_dim d = true →
  ∃ res', foldl (λ acc numa, res ← acc; st ← topology n !! numa;
             Some (foldl (shared_sub order lsci) res (sorder (resourceStatuses st)))) (Some res) l = Some res'
    ∧ amount res' d = wrap64 (msum (share d) (filter (λ kv, kv.1 ∉ l) m)).
Proof.
  revert res. induction l as [|i l IH]; intros res HND Hl Hwf m Hm Ham Hd; cbn [foldl].
  { exists res. split; [done|]. rw Ham //. do 2 f_equal. symmetry. apply map_filter_id. intros j st _. apply not_elem_of_nil. }
  apply NoDup_cons in HND as [Hnot HND]. destruct (Hl i) as [st Hst]; [set_solver|]. rw Hst. cbn [mbind option_bind].
  assert (m !! i = Some st) as Hmi by (rw Hm; [done|set_solver]).
  set (res1 := foldl (shared_sub order lsci) res (sorder (resourceStatuses st))).
  destruct (IH res1 HND) with (m := delete i m) as (res' & E' & Ham'); [intros j ?; apply Hl; set_solver| | | |done|].
  - unfold res1. clear -Hwf Horder. generalize (sorder (resourceStatuses st)). intros l. revert res Hwf.
    induction l as [|kv l IH]; intros res Hwf; [done|]. simpl. apply IH. unfold shared_sub.
    destruct (negb _); [done|]. destruct (bool_decide _); [by apply Sub_wf|done].
  - intros j Hj. rw lookup_delete_ne; [apply Hm; set_solver|by intros <-].
  - intros d' Hd'. unfold res1. rw shared_sub_amount // Hd' (msum_delete _ _ _ _ Hmi) Ham // wrap64_sub_l //.
  - exists res'. split; [done|]. rw Ham'. do 2 f_equal. apply map_eq. intros j. apply option_eq. intros st'.
    rw !map_lookup_filter_Some lookup_delete_Some /= not_elem_of_cons. naive_solver.
Qed.

(** ** Theorems *)

(** C23: The NUMA accounting is exact in every status a node reaches by reading
    custom node resources and adding and removing pods: what is available of a
    resource of a NUMA node is what is allocatable less the requests of exactly
    the pods recorded as its users; the CPU and memory left to shared cores are
    those of the NUMA nodes without users of that resource (int64 wrap-around);
    and the free set of a socket holds exactly its NUMA nodes whose CPU and
    memory nobody uses. *)
Theorem numa_accounting n (Hreach : numa_reach n) :
  (∀ i r rs, status n i r = Some rs →
     Available rs = (Allocatable rs - ssum (λ k, reqz n k i r) (Users rs))%Z
     ∧ ∀ k, k ∈ Users rs → is_Some (req n k i r))
  ∧ (∀ d, amount (availableOfSharedCores n) d
          = if conflict_dim d then wrap64 (msum (share d) (topology n)) else 0%Z)
  ∧ ∀ s i, i ∈ GetFreeNumasInSocketForConflictResources s n ↔
       socketId <$> topology n !! i = Some s ∧ IsNumaEmptyForConflictResources sorder i n = true.
Proof.
  destruct (reach_ok n Hreach) as [HC HF]. split_and!.
  - intros i r rs Hs. split; [by apply HC|]. intros k. by apply HC.
  - apply HC.
  - intros s i. rw IsNumaEmpty_spec. apply HF.
Qed.

(** C37: No NUMA operation panics, and each stays within the reachable statuses:
    a pod whose allocation names resources its NUMA nodes have can be added (if
    it uses nothing yet, or its allocation is the one on record) and removed,
    with and without preemption, whether its agent reported it or not; and a
    resource that reports each NUMA node once with what is allocatable can be
    read when the annotated pods are on reported nodes. *)
Theorem numa_no_panic n (Hreach : numa_reach n) :
  (∀ p, may_add p n → ∃ n', add p n = Some n' ∧ numa_reach n')
  ∧ (∀ p preempt notChanged, may_remove p n → ∃ n', remove p preempt notChanged n = Some n' ∧ numa_reach n')
  ∧ ∀ cnr pods P, RM gates pods P → may_read cnr P → ∃ n', parse cnr pods n = Some n' ∧ numa_reach n'.
Proof.
  pose proof (reach_ok n Hreach) as HN. split_and!.
  - intros p Hm. destruct (add_total p n HN Hm) as (n' & E & _). exists n'. split; [done|by eapply reach_add].
  - intros p pre nc Hm. destruct (remove_total p pre nc n HN Hm) as (n' & E & _). exists n'. split; [done|by eapply reach_remove].
  - intros cnr pods P HM Hm. destruct (parse_total cnr pods P n HM Hm) as (n' & E & _). exists n'. split; [done|by eapply reach_cnr].
Qed.

(** Adding a pod the status does not know and removing it again restores
    the status: the allocations, every NUMA node with its availability and
    users, the free sets, and the amounts requested by and available to shared
    cores; whether the pod is bound to NUMA nodes by its annotation, shares
    cores, or its annotation cannot be read. *)
Theorem numa_add_remove_roundtrip n (p : PodInfo) (Hreach : numa_reach n)
    (Hnew : podAllocations n !! key p = None)
    (Hknown : ∀ a, allocation_of ParseQuantity p n = Some (Some a) → known n a)
    (Hres : wf_resource (Res p)) (Hreq : wf_resource (requestsOfSharedCores n)) :
  ∃ n1 n2, updateNonNativeResource order lsci norder sorder ParseQuantity p true false (Some n) = Some (Some n1)
    ∧ updateNonNativeResource order lsci norder sorder ParseQuantity p false false (Some n1) = Some (Some n2)
    ∧ podAllocations n2 = podAllocations n ∧ topology n2 = topology n
    ∧ socketToFreeNumasOfConflictResources n2 = socketToFreeNumasOfConflictResources n
    ∧ availableOfSharedCores n2 ≡ availableOfSharedCores n
    ∧ requestsOfSharedCores n2 ≡ requestsOfSharedCores n.
Proof.
  pose proof (reach_ok n Hreach) as HN.
  assert (no_user n (key p)) as Hno.
  { intros i r a U Hu Hin. destruct HN as [HC _]. apply usage_status_inv in Hu as (rs & Hs & _ & ->).
    pose proof (c_users _ HC _ _ _ _ Hs Hin) as Hr. unfold req in Hr. rw Hnew in Hr. by apply is_Some_None in Hr. }
  destruct (numa_AddPod_ok order lsci norder sorder aorder ParseQuantity Horder Hnorder Hsorder Haorder p n HN)
    as (n1 & E1 & HN1 & R1 & P1 & S1 & U1); [intros a Ha; split; [by apply Hknown|by right]|].
  exists n1. unfold updateNonNativeResource. rw E1. simpl fmap.
  assert (podAllocations n1 !! key p = match allocation_of ParseQuantity p n with Some (Some a) => Some a | _ => None end) as Hk1.
  { rw P1. destruct (allocation_of ParseQuantity p n) as [[a|]|]; [apply lookup_insert_eq|done..]. }
  assert (∀ a, allocation_of ParseQuantity p n = Some (Some a) → agent a = false) as Hag.
  { intros a. unfold allocation_of. rw Hnew. destruct (anno_lookup _ _); [|done].
    destruct (UnmarshalMicroTopology _ _); [|done]. destruct (0 <? _)%nat; [|done]. by intros [= <-]. }
  set (nc := match podAllocations n1 !! key p with Some a => agent a | None => true end).
  destruct (RemovePod_ok order lsci norder sorder aorder ParseQuantity Horder Hnorder Hsorder Haorder p false nc n1 HN1)
    as (n2 & E2 & HN2 & R2 & P2 & S2 & U2).
  { intros a Ha. rw Hk1 in Ha. destruct (allocation_of ParseQuantity p n) as [[a'|]|] eqn:Eal; [|done..]. injection Ha as ->.
    intros i r Hw Hi. assert (is_Some (topology n !! i)) as Hi0.
    { rw -(fmap_is_Some socketId) in Hi. unfold socket in S1. rw S1 in Hi. by apply fmap_is_Some in Hi. }
    apply (Hknown a eq_refl i r Hw) in Hi0. specialize (U1 i r). unfold usage in U1.
    rw -(fmap_is_Some (λ rs, (Allocatable rs, Users rs))) U1 !fmap_is_Some. done. }
  exists n2. rw E2. split; [done|]. split; [done|].
  assert (podAllocations n2 = podAllocations n) as HP.
  { rw P2. unfold nc. rw Hk1. simpl. destruct (allocation_of ParseQuantity p n) as [[a|]|]; simpl; [|by rw P1..].
    rw (Hag a) //= P1. by rw delete_insert_id. }
  assert (∀ j r, usage n2 j r = usage n j r) as HU.
  { intros j r. rw U2 U1. destruct (usage n j r) as [[b U]|] eqn:Eu; [|done]. simpl. do 2 f_equal.
    pose proof (Hno j r b U Eu). unfold nc. rw Hk1. destruct (allocation_of ParseQuantity p n) as [[a|]|]; simpl; [|done..].
    rw (Hag a) //=. destruct (wants a j r); set_solver. }
  destruct (NumaOK_unique n n2 HN HN2 HP) as (H1 & H2 & H3); [intros j; by rw S2 S1|done|]. split_and!; [done..|].
  intros d. rw R2. unfold shared_after. destruct (pi_IsSharedCores p && isGuaranteed p) eqn:Esh.
  - simpl. rw SubResource_amount //; rw R1; unfold shared_after; rw Esh; simpl; [|by apply AddResource_wf].
    rw AddResource_amount // wrap64_sub_l. replace (_ + _ - _)%Z with (amount (requestsOfSharedCores n) d) by lia.
    apply wrap64_id, Hreq.
  - rw R1. unfold shared_after. by rw Esh.
Qed.

(** What is left to shared cores when some NUMA nodes are not usable: for
    any reachable status and any list of its NUMA nodes without repetitions,
    GetResourcesAvailableForSharedCoresPods returns, for CPU and for memory, the
    sum over the other NUMA nodes that no pod uses. *)
Theorem shared_cores_available n (unavailable : list Z) (d : Dim) (Hreach : numa_reach n)
    (Hnodup : NoDup unavailable) (Hin : ∀ i, i ∈ unavailable → is_Some (topology n !! i)) (Hd : conflict_dim d = true) :
  ∃ res, GetResourcesAvailableForSharedCoresPods order lsci sorder unavailable n = Some res
    ∧ amount res d = wrap64 (msum (share d) (filter (λ kv, kv.1 ∉ unavailable) (topology n))).
Proof.
  destruct (reach_ok n Hreach) as [HC _]. apply shared_loop; [done..|apply HC|done| |done].
  intros d' Hd'. by rw (c_shared _ HC) Hd'.
Qed.
End spec.

(** ** Examples *)

Module NumaExamples.

Definition cores (z : Z) : Quantity := NewQuantity z.
(** Whole numbers of cores. *)
Definition parse_whole (s : string) : option Quantity := cores <$> Atoi s.

(** Two NUMA nodes of one socket, with 8 and 4 CPUs; pod [old] has 2 CPUs of
    the second. *)
Definition cnr_example : CNR :=
  {| cnr_Name := "n"; cnr_Allocatable := None;
     cnr_TopologyZone := [None; Some {| zone_Type := "Socket"; zone_Name := "0"; Children :=
       [{| child_Type := "Numa"; child_Name := "0"; child_Allocatable := Some {["cpu" := cores 8]}; Allocations := [] |};
        {| child_Type := "Numa"; child_Name := "1"; child_Allocatable := Some {["cpu" := cores 4]};
           Allocations := [{| Consumer := "ns/old/u"; alloc_Requests := Some {["cpu" := cores 2]} |}] |}] |}] |}.

Definition annotated_pod (topo : string) : Pod :=
  set_Annotations (Some {[MicroTopologyKey := topo]}) (bound_pod "a" 5 100).
Definition annotated_info (topo : string) : PodInfo :=
  NewPodInfo map_to_list all_gates (λ _, ∅) (annotated_pod topo).

Abbreviation add_ := (numa_AddPod map_to_list true map_to_list parse_whole).
Abbreviation parse_ := (parseNumaTopologyStatus map_to_list true map_to_list map_to_list map_to_list parse_whole).
Abbreviation reach_ := (numa_reach map_to_list true all_gates map_to_list map_to_list map_to_list parse_whole).
Abbreviation perm_ := (λ _, Permutation_refl _).

Definition n_read : NumaTopologyStatus :=
  default (newNumaTopologyStatus zeroResource) (parse_ cnr_example NewPodInfoMaintainer (newNumaTopologyStatus zeroResource)).

Lemma may_read_example : may_read parse_whole cnr_example ∅.
Proof.
  split; [split|].
  - apply (bool_decide_unpack _). vm_compute. exact I.
  - apply Forall_forall. apply (bool_decide_unpack _). vm_compute. exact I.
  - intros k m i (ns & name & uid & p & v & _ & Hp & _). by rw lookup_empty in Hp.
Qed.

Lemma n_read_eq : parse_ cnr_example NewPodInfoMaintainer (newNumaTopologyStatus zeroResource) = Some n_read.
Proof.
  destruct (parse_total map_to_list true all_gates map_to_list map_to_list map_to_list parse_whole perm_ perm_ perm_ perm_
    cnr_example NewPodInfoMaintainer ∅ (newNumaTopologyStatus zeroResource)
    (RM_New _ (bound_info "a" 5 100)) may_read_example) as (n' & E & _).
  unfold n_read. rw E. reflexivity.
Qed.

Lemma n_read_reach : reach_ n_read.
Proof.
  eapply reach_cnr; [apply reach_new|apply RM_New, (bound_info "a" 5 100)|apply may_read_example|apply n_read_eq].
Qed.

(** The pod is bound to 3 CPUs of NUMA node 0. *)
Lemma may_add_example : may_add parse_whole (annotated_info "0:cpu=3") n_read.
Proof.
  intros a Ha. assert (a = mkAllocation false {[0%Z := {["cpu" := cores 3]}]}) as ->.
  { assert (allocation_of parse_whole (annotated_info "0:cpu=3") n_read
      = Some (Some (mkAllocation false {[0%Z := {["cpu" := cores 3]}]}))) as E by (vm_compute; reflexivity). rw E in Ha. by injection Ha as <-. }
  split.
  - clear Ha. intros i r Hw _. assert (i = 0%Z ∧ r = "cpu") as [-> ->].
    { revert Hw. generalize n_read. intros _. unfold wants. rw bool_decide_eq_true. cbn [numaAllocations].
      intros [q Hq]. apply bind_Some in Hq as (rl & [-> <-]%lookup_singleton_Some & [-> _]%lookup_singleton_Some). done. }
    vm_compute. by eexists.
  - right. intros i r a U Hu Hin.
    destruct (reach_ok map_to_list true all_gates map_to_list map_to_list map_to_list parse_whole perm_ perm_ perm_ perm_
      n_read n_read_reach) as [HC _].
    apply usage_status_inv in Hu as (rs & Hs & _ & ->). pose proof (c_users _ HC _ _ _ _ Hs Hin) as Hr.
    unfold req in Hr. revert Hr. clear. vm_compute. intros [x Hx]. discriminate Hx.
Qed.

Lemma numa_accounting_witness :
  ∃ n rs, add_ (annotated_info "0:cpu=3") n_read = Some n ∧ status n 0 "cpu" = Some rs
    ∧ Available rs = cores 5 ∧ Available rs = (Allocatable rs - ssum (λ k, reqz n k 0 "cpu") (Users rs))%Z
    ∧ ¬ (0%Z ∈ GetFreeNumasInSocketForConflictResources 0 n).
Proof.
  destruct (add_total map_to_list true map_to_list map_to_list map_to_list parse_whole perm_ perm_ perm_ perm_
    (annotated_info "0:cpu=3") n_read
    (reach_ok map_to_list true all_gates map_to_list map_to_list map_to_list parse_whole perm_ perm_ perm_ perm_ n_read n_read_reach)
    may_add_example) as (n & E & _).
  assert (reach_ n) as Hr by (eapply reach_add; [apply n_read_reach|apply may_add_example|exact E]).
  destruct (numa_accounting map_to_list true all_gates map_to_list map_to_list map_to_list parse_whole
    perm_ perm_ perm_ perm_ n Hr) as (H1 & _ & H3).
  assert (∃ rs, status n 0 "cpu" = Some rs ∧ Available rs = cores 5
    ∧ ¬ (0%Z ∈ GetFreeNumasInSocketForConflictResources 0 n)) as (rs & Hrs & Hav & Hfree).
  { assert (n = default n_read (add_ (annotated_info "0:cpu=3") n_read)) as -> by by rw E.
    eexists. split; [vm_compute; reflexivity|]. split; [vm_compute; reflexivity|].
    apply (bool_decide_unpack _). vm_compute. exact I. }
  exists n, rs. split; [exact E|]. split; [exact Hrs|]. split; [exact Hav|]. split; [apply (H1 0%Z "cpu" rs Hrs)|exact Hfree].
Defined.

Lemma numa_no_panic_witness : ∃ n, add_ (annotated_info "0:cpu=3") n_read = Some n.
Proof.
  destruct (numa_no_panic map_to_list true all_gates map_to_list map_to_list map_to_list parse_whole
    perm_ perm_ perm_ perm_ n_read n_read_reach) as (H & _).
  destruct (H (annotated_info "0:cpu=3") may_add_example) as (n & E & _). exists n. exact E.
Defined.

Lemma wf_bound_info : wf_resource (Res (annotated_info "0:cpu=3")).
Proof.
  assert (Res (annotated_info "0:cpu=3") = mkResource 100 0 0 0 None) as -> by (vm_compute; reflexivity).
  split; [|done]. intros []; by split; vm_compute.
Qed.

Lemma numa_add_remove_roundtrip_witness :
  ∃ n1 n2, updateNonNativeResource map_to_list true map_to_list map_to_list parse_whole (annotated_info "0:cpu=3") true false
      (Some n_read) = Some (Some n1)
    ∧ updateNonNativeResource map_to_list true map_to_list map_to_list parse_whole (annotated_info "0:cpu=3") false false
      (Some n1) = Some (Some n2)
    ∧ topology n2 = topology n_read.
Proof.
  destruct (numa_add_remove_roundtrip map_to_list true all_gates map_to_list map_to_list map_to_list parse_whole
    perm_ perm_ perm_ perm_ n_read (annotated_info "0:cpu=3") n_read_reach) as (n1 & n2 & E1 & E2 & _ & E3 & _).
  - vm_compute. reflexivity.
  - intros a Ha. exact (proj1 (may_add_example a Ha)).
  - exact wf_bound_info.
  - assert (requestsOfSharedCores n_read = zeroResource) as -> by (vm_compute; reflexivity). exact wf_zero.
  - exists n1, n2. split; [exact E1|]. split; [exact E2|exact E3].
Defined.

Lemma shared_cores_available_witness :
  ∃ res, GetResourcesAvailableForSharedCoresPods map_to_list true map_to_list [0%Z] n_read = Some res
    ∧ amount res DCPU = 0%Z.
Proof.
  destruct (shared_cores_available map_to_list true all_gates map_to_list map_to_list map_to_list parse_whole
    perm_ perm_ perm_ perm_ n_read [0%Z] DCPU n_read_reach) as (res & E & Ham).
  - apply NoDup_singleton.
  - intros i ->%list_elem_of_singleton. vm_compute. by eexists.
  - reflexivity.
  - exists res. split; [exact E|]. rw Ham. vm_compute. reflexivity.
Defined.

(** A pod whose annotation names NUMA node 7 was added before its node's
    resource reported only nodes 0 and 1. *)
Definition pods_on_7 : PodInfoMaintainer :=
  default NewPodInfoMaintainer (AddPodInfo all_gates (annotated_info "7:cpu=1") NewPodInfoMaintainer).
Definition n_before : NumaTopologyStatus :=
  default n_read (add_ (annotated_info "7:cpu=1") (newNumaTopologyStatus zeroResource)).

(** Reading a custom node resource panics when a pod on the node is
    annotated with a NUMA node the resource does not report: the pod can be added
    (NumaTopologyStatus.AddPod skips NUMA nodes it does not know), but the next
    SetCNR dereferences the missing NUMA status. *)
Theorem set_cnr_panics_on_unknown_numa :
  add_ (annotated_info "7:cpu=1") (newNumaTopologyStatus zeroResource) = Some n_before
  ∧ parse_ cnr_example pods_on_7 n_before = None.
Proof. split; vm_compute; reflexivity. Qed.

(** Two NUMA nodes, of which one has a GPU. *)
Definition one_gpu : NumaTopologyStatus :=
  set_topology {[0%Z := mkNuma 0 {["gpu" := mkStatus 1 1 ∅]}; 1%Z := mkNuma 0 ∅]} (newNumaTopologyStatus zeroResource).

(** HasResourceInTopology answers for whichever NUMA node the map iteration
    visits first: for a node with a GPU on one of two NUMA nodes, both answers
    occur, depending on the order. *)
Theorem has_resource_depends_on_order :
  HasResourceInTopology map_to_list "gpu" one_gpu = false
  ∧ HasResourceInTopology (λ m, rev (map_to_list m)) "gpu" one_gpu = true
  ∧ (∀ m : gmap Z NumaStatus, rev (map_to_list m) ≡ₚ map_to_list m).
Proof.
  split; [vm_compute; reflexivity|]. split; [vm_compute; reflexivity|]. intros m. symmetry. apply Permutation_rev.
Qed.
End NumaExamples.
