(* ===== verification/NodeInfo.v ===== *)
(** * Node information (pkg/framework/api/nodeinfo.go)

    [NodeInfoImpl]: the objects that describe a node (the Kubernetes node, the
    node manager's node, the custom node resource), its pods, the host ports
    they use, what they request, and what is allocatable.  The resources
    requested are kept up to date by [AddPod] and [RemovePod].

    [None] is a panic.  The locks are not modelled: every method takes the lock
    of the object for its whole body.  The transient scheduling information is
    only stored and handed out, and left out. *)
From S2P Require Import Prelude GoStrings PodModel PodState Splay SplayRefine SplayProps SplaySpec HashSlice Resource MicroTopo PodInfos Numa.

Local Open Scope godel_scope.
Local Open Scope string_scope.

(** ** Data *)

Record Taint := { taint_Key : string; taint_Value : string; taint_Effect : string }.
Record ContainerImage := { image_Names : list string; image_SizeBytes : Z }.
Record NodeCondition := { ncond_Type : string; ncond_Status : string }.

Record Node := {
  node_Name : string; node_Labels : gmap string string;
  node_Annotations : gmap string string;
  node_Unschedulable : bool; node_Taints : list Taint;
  node_Allocatable : ResourceList; node_Capacity : ResourceList;
  node_Conditions : list NodeCondition; node_Images : list ContainerImage
}.
Record NMNode := {
  nm_Name : string; nm_Labels : gmap string string;
  nm_Annotations : gmap string string;
  nm_ResourceAllocatable : option ResourceList; nm_ResourceCapacity : option ResourceList;
  nm_Conditions : list NodeCondition; nm_Taints : list Taint
}.

(** Size of an image and the number of nodes that have it. *)
Record ImageStateSummary := { is_Size : Z; is_NumNodes : Z }.

Record NodeInfo := mkNodeInfo {
  ni_Node : option Node;
  ni_NMNode : option NMNode;
  ni_CNR : option CNR;
  NodeInSchedulerPartition : bool;
  NMNodeInSchedulerPartition : bool;
  Maintainer : PodInfoMaintainer;
  UsedPorts : HostPortInfo;
  GuaranteedRequested : Resource;
  GuaranteedNonZeroRequested : Resource;
  GuaranteedAllocatable : Resource;
  GuaranteedCapacity : Resource;
  GuaranteedReserved : Resource;
  BestEffortRequested : Resource;
  BestEffortNonZeroRequested : Resource;
  BestEffortAllocatable : Resource;
  Generation : Z;
  NumaStatus_ : option NumaTopologyStatus;
  ImageStates : gmap string ImageStateSummary
}.

(** [RemovePod]'s errors. *)
Inductive NodeError := EmptyUID | NoCorrespondingPod.

(** Setters of groups of fields. *)
Definition set_objects (nd : option Node) (nm : option NMNode) (n : NodeInfo) : NodeInfo :=
  mkNodeInfo nd nm (ni_CNR n) (NodeInSchedulerPartition n) (NMNodeInSchedulerPartition n) (Maintainer n) (UsedPorts n)
    (GuaranteedRequested n) (GuaranteedNonZeroRequested n) (GuaranteedAllocatable n) (GuaranteedCapacity n)
    (GuaranteedReserved n) (BestEffortRequested n) (BestEffortNonZeroRequested n) (BestEffortAllocatable n)
    (Generation n) (NumaStatus_ n) (ImageStates n).
Definition set_guaranteed (alloc cap : Resource) (n : NodeInfo) : NodeInfo :=
  mkNodeInfo (ni_Node n) (ni_NMNode n) (ni_CNR n) (NodeInSchedulerPartition n) (NMNodeInSchedulerPartition n)
    (Maintainer n) (UsedPorts n) (GuaranteedRequested n) (GuaranteedNonZeroRequested n) alloc cap
    (GuaranteedReserved n) (BestEffortRequested n) (BestEffortNonZeroRequested n) (BestEffortAllocatable n)
    (Generation n) (NumaStatus_ n) (ImageStates n).
Definition set_cnr (c : option CNR) (be : Resource) (t : option NumaTopologyStatus) (n : NodeInfo) : NodeInfo :=
  mkNodeInfo (ni_Node n) (ni_NMNode n) c (NodeInSchedulerPartition n) (NMNodeInSchedulerPartition n)
    (Maintainer n) (UsedPorts n) (GuaranteedRequested n) (GuaranteedNonZeroRequested n) (GuaranteedAllocatable n)
    (GuaranteedCapacity n) (GuaranteedReserved n) (BestEffortRequested n) (BestEffortNonZeroRequested n) be
    (Generation n) t (ImageStates n).
Definition set_partitions (a b : bool) (n : NodeInfo) : NodeInfo :=
  mkNodeInfo (ni_Node n) (ni_NMNode n) (ni_CNR n) a b (Maintainer n) (UsedPorts n) (GuaranteedRequested n)
    (GuaranteedNonZeroRequested n) (GuaranteedAllocatable n) (GuaranteedCapacity n) (GuaranteedReserved n)
    (BestEffortRequested n) (BestEffortNonZeroRequested n) (BestEffortAllocatable n) (Generation n) (NumaStatus_ n) (ImageStates n).
Definition set_maintainer (m : PodInfoMaintainer) (n : NodeInfo) : NodeInfo :=
  mkNodeInfo (ni_Node n) (ni_NMNode n) (ni_CNR n) (NodeInSchedulerPartition n) (NMNodeInSchedulerPartition n) m
    (UsedPorts n) (GuaranteedRequested n) (GuaranteedNonZeroRequested n) (GuaranteedAllocatable n)
    (GuaranteedCapacity n) (GuaranteedReserved n) (BestEffortRequested n) (BestEffortNonZeroRequested n)
    (BestEffortAllocatable n) (Generation n) (NumaStatus_ n) (ImageStates n).
Definition set_gt_requested (r r0 : Resource) (n : NodeInfo) : NodeInfo :=
  mkNodeInfo (ni_Node n) (ni_NMNode n) (ni_CNR n) (NodeInSchedulerPartition n) (NMNodeInSchedulerPartition n)
    (Maintainer n) (UsedPorts n) r r0 (GuaranteedAllocatable n) (GuaranteedCapacity n) (GuaranteedReserved n)
    (BestEffortRequested n) (BestEffortNonZeroRequested n) (BestEffortAllocatable n) (Generation n) (NumaStatus_ n) (ImageStates n).
Definition set_be_requested (r r0 : Resource) (n : NodeInfo) : NodeInfo :=
  mkNodeInfo (ni_Node n) (ni_NMNode n) (ni_CNR n) (NodeInSchedulerPartition n) (NMNodeInSchedulerPartition n)
    (Maintainer n) (UsedPorts n) (GuaranteedRequested n) (GuaranteedNonZeroRequested n) (GuaranteedAllocatable n)
    (GuaranteedCapacity n) (GuaranteedReserved n) r r0 (BestEffortAllocatable n) (Generation n) (NumaStatus_ n) (ImageStates n).
Definition set_rest (ports : HostPortInfo) (reserved : Resource) (t : option NumaTopologyStatus) (n : NodeInfo) : NodeInfo :=
  mkNodeInfo (ni_Node n) (ni_NMNode n) (ni_CNR n) (NodeInSchedulerPartition n) (NMNodeInSchedulerPartition n)
    (Maintainer n) ports (GuaranteedRequested n) (GuaranteedNonZeroRequested n) (GuaranteedAllocatable n)
    (GuaranteedCapacity n) reserved (BestEffortRequested n) (BestEffortNonZeroRequested n) (BestEffortAllocatable n)
    (Generation n) t (ImageStates n).
Definition SetGeneration (g : Z) (n : NodeInfo) : NodeInfo :=
  mkNodeInfo (ni_Node n) (ni_NMNode n) (ni_CNR n) (NodeInSchedulerPartition n) (NMNodeInSchedulerPartition n)
    (Maintainer n) (UsedPorts n) (GuaranteedRequested n) (GuaranteedNonZeroRequested n) (GuaranteedAllocatable n)
    (GuaranteedCapacity n) (GuaranteedReserved n) (BestEffortRequested n) (BestEffortNonZeroRequested n)
    (BestEffortAllocatable n) g (NumaStatus_ n) (ImageStates n).

Definition SetImageStates (summary : gmap string ImageStateSummary) (n : NodeInfo) : NodeInfo :=
  mkNodeInfo (ni_Node n) (ni_NMNode n) (ni_CNR n) (NodeInSchedulerPartition n) (NMNodeInSchedulerPartition n)
    (Maintainer n) (UsedPorts n) (GuaranteedRequested n) (GuaranteedNonZeroRequested n) (GuaranteedAllocatable n)
    (GuaranteedCapacity n) (GuaranteedReserved n) (BestEffortRequested n) (BestEffortNonZeroRequested n)
    (BestEffortAllocatable n) (Generation n) (NumaStatus_ n) summary.

(** ** Names and labels *)

Definition getNodeName (n : NodeInfo) : string :=
  match ni_Node n with
  | Some nd => node_Name nd
  | None => match ni_NMNode n with Some nm => nm_Name nm | None => "" end
  end.

Definition GetNodeLabels (l : option PodLauncher) (n : NodeInfo) : gmap string string :=
  match l with
  | Some Kubelet => match ni_Node n with Some nd => node_Labels nd | None => ∅ end
  | Some NodeManager => match ni_NMNode n with Some nm => nm_Labels nm | None => ∅ end
  | None => ∅
  end.

Definition ObjectIsNil (n : NodeInfo) : bool :=
  bool_decide (ni_NMNode n = None) && bool_decide (ni_Node n = None).

Definition SetNodePartition (inPartition : bool) (n : NodeInfo) : NodeInfo := set_partitions inPartition inPartition n.
Definition SetNodeInSchedulerPartition (b : bool) (n : NodeInfo) : NodeInfo :=
  set_partitions b (NMNodeInSchedulerPartition n) n.
Definition SetNMNodeInSchedulerPartition (b : bool) (n : NodeInfo) : NodeInfo :=
  set_partitions (NodeInSchedulerPartition n) b n.

(** [GetPodKey] of nodeinfo.go; [None] is the error. *)
Definition nodeinfo_GetPodKey (p : Pod) : option string := if UID p ≟ "" then None else Some (UID p).

Section nodeinfo.
Context (order : gmap string Z → list (string * Z)) (gates : FeatureGates).
Context (jsonStrings : string → gmap string string).
Context (norder : gmap Z ResourceList → list (Z * ResourceList)).
Context (sorder : gmap string ResourceStatus → list (string * ResourceStatus)).
Context (aorder : gmap string PodAllocation → list (string * PodAllocation)).
Context (ParseQuantity : string → option Quantity).
(** [NonNativeResourceSchedulingSupport] *)
Context (nonNative : bool).

Abbreviation lsci := (LocalStorageCapacityIsolation gates).

(** ** What pods request *)

Definition update_requested (sign : Z) (p : PodInfo) (r : Resource) : Resource :=
  let r := set_MilliCPU (wrap64 (MilliCPU r + wrap64 (sign * MilliCPU (Res p)))) r in
  let r := set_Memory (wrap64 (Memory r + wrap64 (sign * Memory (Res p)))) r in
  let r := set_EphemeralStorage (wrap64 (EphemeralStorage r + wrap64 (sign * EphemeralStorage (Res p)))) r in
  foldl (λ r kv, SetScalar kv.1 (wrap64 (scalar r kv.1 + wrap64 (sign * kv.2))) r) r
    (order (default ∅ (ScalarResources (Res p)))).

Definition update_nonzero (sign : Z) (p : PodInfo) (r : Resource) : Resource :=
  let r := set_MilliCPU (wrap64 (MilliCPU r + wrap64 (sign * Non0CPU p))) r in
  set_Memory (wrap64 (Memory r + wrap64 (sign * Non0Mem p))) r.

Definition updateReservedResource (p : PodInfo) (sign : Z) (r : Resource) : Resource :=
  let r := set_MilliCPU (wrap64 (MilliCPU r + wrap64 (sign * MilliCPU (Res p)))) r in
  let r := set_Memory (wrap64 (Memory r + wrap64 (sign * Memory (Res p)))) r in
  foldl (λ r kv, AddScalar kv.1 (wrap64 (sign * kv.2)) r) r (order (default ∅ (ScalarResources (Res p)))).

Definition updateUsedPorts (p : Pod) (add : bool) (h : HostPortInfo) : HostPortInfo :=
  foldl (λ h c, foldl (λ h port,
    if add then ports_Add (HostIP port) (Protocol port) (HostPort port) h
    else ports_Remove (HostIP port) (Protocol port) (HostPort port) h) h (c_Ports c)) h (Containers p).

(** [update]: pods without a legal resource type count as guaranteed. *)
Definition update (p : PodInfo) (sign : Z) (preempt : bool) (n : NodeInfo) : option NodeInfo :=
  let n := match pi_ResourceType p with
           | Some BestEffortPod =>
               set_be_requested (update_requested sign p (BestEffortRequested n))
                 (update_nonzero sign p (BestEffortNonZeroRequested n)) n
           | _ =>
               set_gt_requested (update_requested sign p (GuaranteedRequested n))
                 (update_nonzero sign p (GuaranteedNonZeroRequested n)) n
           end in
  let ports := updateUsedPorts (pi_Pod p) (0 <? sign)%Z (UsedPorts n) in
  t ← updateNonNativeResource order lsci norder sorder ParseQuantity p (0 <? sign)%Z preempt (NumaStatus_ n);
  let reserved := if isReserved gates p then updateReservedResource p sign (GuaranteedReserved n)
                  else GuaranteedReserved n in
  Some (set_rest ports reserved t n).

Definition AddPod (pod : Pod) (n : NodeInfo) : option NodeInfo :=
  let p := NewPodInfo order gates jsonStrings pod in
  m ← AddPodInfo gates p (Maintainer n);
  update p 1 false (set_maintainer m n).

(** [RemovePod] with its error. *)
Definition RemovePod (pod : Pod) (preempt : bool) (n : NodeInfo) : option (NodeInfo * option NodeError) :=
  match nodeinfo_GetPodKey pod with
  | None => Some (n, Some EmptyUID)
  | Some k =>
      o ← GetPodInfo k (Maintainer n);
      match o : option PodInfo with
      | Some p =>
          m ← RemovePodInfo gates p (Maintainer n);
          n ← update p (-1) preempt (set_maintainer m n);
          Some (n, None)
      | None => Some (n, Some NoCorrespondingPod)
      end
  end.

Definition NewNodeInfo (pods : list Pod) : option NodeInfo :=
  let n := mkNodeInfo None None None false false NewPodInfoMaintainer ∅ zeroResource zeroResource zeroResource
             zeroResource zeroResource zeroResource zeroResource zeroResource 0
             (if nonNative then Some (newNumaTopologyStatus zeroResource) else None) ∅ in
  foldl (λ acc pod, n ← acc; AddPod pod n) (Some n) pods.

(** ** What is allocatable *)

(** One resource of the node manager's allocatable list. *)
Definition merge_allocatable (nmCapacity : ResourceList) (rl : ResourceList) (kv : string * Quantity) : ResourceList :=
  match rl !! kv.1 with
  | Some quantity =>
      match nmCapacity !! kv.1 with
      | Some rQuant =>
          let rQuant := (rQuant - kv.2)%Z in
          let rQuant := if (rQuant <? 0)%Z then 0%Z else rQuant in
          let quantity := (quantity - rQuant)%Z in
          let quantity := if (quantity <? 0)%Z then 0%Z else quantity in
          <[kv.1 := quantity]> rl
      | None => rl
      end
  | None => <[kv.1 := kv.2]> rl
  end.

Definition getAllocatableResources (nd : Node) (nm : NMNode) : Resource :=
  NewResourceFromPtr order lsci
    (Some (foldl (merge_allocatable (default ∅ (nm_ResourceCapacity nm))) (node_Allocatable nd)
             (order (default ∅ (nm_ResourceAllocatable nm))))).

Definition setGuaranteedAllocatableResource (n : NodeInfo) : NodeInfo :=
  set_guaranteed
    (match ni_Node n, ni_NMNode n with
     | None, None => zeroResource
     | Some nd, None => NewResource order lsci (node_Allocatable nd)
     | None, Some nm => NewResourceFromPtr order lsci (nm_ResourceAllocatable nm)
     | Some nd, Some nm => getAllocatableResources nd nm
     end) (GuaranteedCapacity n) n.

Definition setGuaranteedCapacityResource (n : NodeInfo) : NodeInfo :=
  set_guaranteed (GuaranteedAllocatable n)
    (match ni_Node n, ni_NMNode n with
     | None, None => zeroResource
     | Some nd, None => NewResource order lsci (node_Capacity nd)
     | None, Some nm => NewResourceFromPtr order lsci (nm_ResourceCapacity nm)
     | Some nd, Some nm => NewResource order lsci (node_Capacity nd)
     end) n.

Definition SetNode (nd : Node) (n : NodeInfo) : NodeInfo :=
  setGuaranteedCapacityResource (setGuaranteedAllocatableResource (set_objects (Some nd) (ni_NMNode n) n)).
Definition SetNMNode (nm : NMNode) (n : NodeInfo) : NodeInfo :=
  setGuaranteedCapacityResource (setGuaranteedAllocatableResource (set_objects (ni_Node n) (Some nm) n)).
Definition RemoveNode (n : NodeInfo) : NodeInfo :=
  setGuaranteedCapacityResource (setGuaranteedAllocatableResource (set_objects None (ni_NMNode n) n)).
Definition RemoveNMNode (n : NodeInfo) : NodeInfo :=
  setGuaranteedCapacityResource (setGuaranteedAllocatableResource (set_objects (ni_Node n) None n)).

Definition SetCNR (cnr : CNR) (n : NodeInfo) : option NodeInfo :=
  t ← match NumaStatus_ n with
      | None => Some None
      | Some t => Some <$> parseNumaTopologyStatus order lsci norder sorder aorder ParseQuantity cnr (Maintainer n) t
      end;
  Some (set_cnr (Some cnr) (NewResourceFromPtr order lsci (cnr_Allocatable cnr)) t n).
Definition RemoveCNR (n : NodeInfo) : NodeInfo :=
  set_cnr None zeroResource (numa_removeCNR <$> NumaStatus_ n) n.

(** ** Queries *)

Definition NumPods (n : NodeInfo) : Z := m_Len (Maintainer n).
Definition NumPlaceholderPods (n : NodeInfo) : nat := ReservedPodsNum (Maintainer n).
Definition node_GetVictimCandidates (pt : PodPartitionInfo) (n : NodeInfo) : option (list PodInfo) :=
  GetVictimCandidates pt (Maintainer n).

(** [GetOccupiableResources]: CPU and memory that are unused, or used by pods
    in the partition.  The query rebalances the tree of the pods. *)
Definition GetOccupiableResources (pt : PodPartitionInfo) (n : NodeInfo) : option (NodeInfo * Resource) :=
  '(m, (cpu, mem)) ← GetMaintainableInfoByPartition pt (Maintainer n);
  let '(alloc, requested) :=
    match pt_resourceType pt with
    | GuaranteedPod => (GuaranteedAllocatable n, GuaranteedRequested n)
    | BestEffortPod => (BestEffortAllocatable n, BestEffortRequested n)
    end in
  Some (set_maintainer m n,
        mkResource (wrap64 (cpu + wrap64 (MilliCPU alloc - MilliCPU requested)))
          (wrap64 (mem + wrap64 (Memory alloc - Memory requested))) 0 0 None).

Definition VolumeLimits (n : NodeInfo) : gmap string Z :=
  foldl (λ limits kv, if IsAttachableVolumeResourceName kv.1 then <[kv.1 := kv.2]> limits else limits) ∅
    (order (default ∅ (ScalarResources (GuaranteedAllocatable n)))).
End nodeinfo.
