(* ===== verification/NodeInfoProps.v ===== *)
(** * The accounting of a node

    [NI n P]: the node information [n] holds the pods of the map [P], and what
    it records as requested is the sum over the pods of [P]. *)
From S2P Require Import Prelude GoStrings PodModel PodState Splay SplayRefine SplayProps SplaySpec HashSlice Resource MicroTopo PodInfos PodInfosProps Numa NumaProps NumaParse NumaSpec NodeInfo.

Local Open Scope godel_scope.
Local Open Scope string_scope.

Implicit Types (n : NodeInfo) (P : gmap string PodInfo) (p : PodInfo).

(** ** Sums *)

(** The account a pod's requests go to. *)
Definition pod_type p : PodResourceType :=
  match pi_ResourceType p with Some BestEffortPod => BestEffortPod | _ => GuaranteedPod end.
Definition of_type (t : PodResourceType) p : bool := bool_decide (pod_type p = t).

Definition Requested (r : Resource) (l : list PodInfo) : Prop :=
  ∀ d, amount r d = match d with DPods => 0%Z | _ => wrap64 (zsum (λ p, amount (Res p) d) l) end.
Definition NonZero (r : Resource) (l : list PodInfo) : Prop :=
  MilliCPU r = wrap64 (zsum Non0CPU l) ∧ Memory r = wrap64 (zsum Non0Mem l).
Definition Reserved (r : Resource) (l : list PodInfo) : Prop :=
  ∀ d, amount r d = match d with DPods | DEph => 0%Z | _ => wrap64 (zsum (λ p, amount (Res p) d) l) end.

#[global] Instance Requested_perm : Proper ((=) ==> (≡ₚ) ==> (iff)) Requested.
Proof. intros r r' <- l l' HP. split; intros H d; rw H; destruct d; rw ?HP //. Qed.
#[global] Instance NonZero_perm : Proper ((=) ==> (≡ₚ) ==> (iff)) NonZero.
Proof. intros r r' <- l l' HP. unfold NonZero. by rw HP. Qed.
#[global] Instance Reserved_perm : Proper ((=) ==> (≡ₚ) ==> (iff)) Reserved.
Proof. intros r r' <- l l' HP. split; intros H d; rw H; destruct d; rw ?HP //. Qed.

Section props.
Context (order : gmap string Z → list (string * Z)) (gates : FeatureGates).
Context (jsonStrings : string → gmap string string).
Context (norder : gmap Z ResourceList → list (Z * ResourceList)).
Context (sorder : gmap string ResourceStatus → list (string * ResourceStatus)).
Context (aorder : gmap string PodAllocation → list (string * PodAllocation)).
Context (ParseQuantity : string → option Quantity).
Context (Horder : ∀ m, order m ≡ₚ map_to_list m) (Hnorder : ∀ m, norder m ≡ₚ map_to_list m)
  (Hsorder : ∀ m, sorder m ≡ₚ map_to_list m) (Haorder : ∀ m, aorder m ≡ₚ map_to_list m).
Abbreviation lsci := (LocalStorageCapacityIsolation gates).

(** A fold that adds [sign] times each scalar. *)
Lemma scalar_fold (f : Resource → string * Z → Resource) sign (m : gmap string Z) r d :
  (∀ r kv, f r kv = SetScalar kv.1 (wrap64 (scalar r kv.1 + wrap64 (sign * kv.2))) r) →
  amount (foldl f r (order m)) d
  = match d with DScalar x => match m !! x with Some q => wrap64 (scalar r x + sign * q) | None => scalar r x end
    | _ => amount r d end.
Proof.
  intros Hf. rw (foldl_amount order Horder f (λ d a q, match d with DScalar _ => wrap64 (a + sign * q) | _ => a end)).
  - destruct d; simpl; try by destruct (m !! _).
  - split.
    + intros r' d' q. rw Hf amount_SetScalar. cbn [fst snd]. destruct (decide (d' = DScalar (dim_name d'))) as [E|E].
      * destruct d'; try done. simpl. by rw wrap64_add_r.
      * by destruct d'.
    + intros r' d' k q Hk. rw Hf amount_SetScalar decide_False //. by intros ->.
Qed.

Lemma update_requested_amount sign p r d :
  (∀ d, in_i64 (amount r d)) →
  amount (update_requested order sign p r) d
  = match d with DPods => amount r d | _ => wrap64 (amount r d + sign * amount (Res p) d) end.
Proof.
  intros Hr. unfold update_requested. rw (scalar_fold _ sign) //.
  destruct d as [| | | |x]; simpl; rw ?wrap64_add_r //. unfold scalar. simpl.
  destruct (ScalarResources (Res p)) as [m|]; simpl; [destruct (m !! x); simpl; [done|]|rw lookup_empty /=];
    rw Z.mul_0_r Z.add_0_r wrap64_id //; apply (Hr (DScalar x)).
Qed.

Lemma updateReserved_amount p sign r d :
  (∀ d, in_i64 (amount r d)) →
  amount (updateReservedResource order p sign r) d
  = match d with DPods | DEph => amount r d | _ => wrap64 (amount r d + sign * amount (Res p) d) end.
Proof.
  intros Hr. unfold updateReservedResource. rw (scalar_fold _ sign) //.
  destruct d as [| | | |x]; simpl; rw ?wrap64_add_r //. unfold scalar. simpl.
  destruct (ScalarResources (Res p)) as [m|]; simpl; [destruct (m !! x); simpl; [done|]|rw lookup_empty /=];
    rw Z.mul_0_r Z.add_0_r wrap64_id //; apply (Hr (DScalar x)).
Qed.

Lemma Requested_i64 r l d : Requested r l → in_i64 (amount r d).
Proof. intros H. rw H. destruct d; try apply wrap64_range. by split; vm_compute. Qed.
Lemma Reserved_i64 r l d : Reserved r l → in_i64 (amount r d).
Proof. intros H. rw H. destruct d; try apply wrap64_range; by split; vm_compute. Qed.

(** One more pod, one pod less. *)
Lemma Requested_add r l p : Requested r l → Requested (update_requested order 1 p r) (p :: l).
Proof.
  intros H d. rw update_requested_amount; [|intros; by eapply Requested_i64]. rw H. destruct d; try done; simpl; rw wrap64_add_l; f_equal; lia.
Qed.
Lemma Requested_remove r l p : Requested r (p :: l) → Requested (update_requested order (-1) p r) l.
Proof.
  intros H d. rw update_requested_amount; [|intros; by eapply Requested_i64]. rw H. destruct d; try done; simpl; rw wrap64_add_l; f_equal; lia.
Qed.
Lemma Reserved_add r l p : Reserved r l → Reserved (updateReservedResource order p 1 r) (p :: l).
Proof.
  intros H d. rw updateReserved_amount; [|intros; by eapply Reserved_i64]. rw H. destruct d; try done; simpl; rw wrap64_add_l; f_equal; lia.
Qed.
Lemma Reserved_remove r l p : Reserved r (p :: l) → Reserved (updateReservedResource order p (-1) r) l.
Proof.
  intros H d. rw updateReserved_amount; [|intros; by eapply Reserved_i64]. rw H. destruct d; try done; simpl; rw wrap64_add_l; f_equal; lia.
Qed.
Lemma NonZero_add r l p : NonZero r l → NonZero (update_nonzero 1 p r) (p :: l).
Proof.
  intros [H1 H2]. unfold NonZero, update_nonzero. cbn [MilliCPU Memory set_MilliCPU set_Memory].
  rw H1 H2 !wrap64_add_l !wrap64_add_r !zsum_cons. split; f_equal; lia.
Qed.
Lemma NonZero_remove r l p : NonZero r (p :: l) → NonZero (update_nonzero (-1) p r) l.
Proof.
  intros [H1 H2]. unfold NonZero, update_nonzero. cbn [MilliCPU Memory set_MilliCPU set_Memory].
  rw H1 H2 !wrap64_add_l !wrap64_add_r !zsum_cons. split; f_equal; lia.
Qed.

(** ** The invariant *)

Definition alloc_of (nd : option Node) (nm : option NMNode) : Resource :=
  match nd, nm with
  | None, None => zeroResource
  | Some nd, None => NewResource order lsci (node_Allocatable nd)
  | None, Some nm => NewResourceFromPtr order lsci (nm_ResourceAllocatable nm)
  | Some nd, Some nm => getAllocatableResources order gates nd nm
  end.
Definition capacity_of (nd : option Node) (nm : option NMNode) : Resource :=
  match nd, nm with
  | None, None => zeroResource
  | Some nd, _ => NewResource order lsci (node_Capacity nd)
  | None, Some nm => NewResourceFromPtr order lsci (nm_ResourceCapacity nm)
  end.

Definition typed (t : PodResourceType) P : list PodInfo := pods_of (sub (of_type t) P).

Record NI n P : Prop := {
  ni_pods : RM gates (Maintainer n) P;
  ni_gt : Requested (GuaranteedRequested n) (typed GuaranteedPod P);
  ni_gt0 : NonZero (GuaranteedNonZeroRequested n) (typed GuaranteedPod P);
  ni_be : Requested (BestEffortRequested n) (typed BestEffortPod P);
  ni_be0 : NonZero (BestEffortNonZeroRequested n) (typed BestEffortPod P);
  ni_reserved : Reserved (GuaranteedReserved n) (pods_of (sub (isReserved gates) P));
  ni_numa : ∀ t, NumaStatus_ n = Some t → NumaOK t;
  ni_alloc : GuaranteedAllocatable n = alloc_of (ni_Node n) (ni_NMNode n);
  ni_capacity : GuaranteedCapacity n = capacity_of (ni_Node n) (ni_NMNode n);
  ni_be_alloc : BestEffortAllocatable n = match ni_CNR n with
                                          | Some c => NewResourceFromPtr order lsci (cnr_Allocatable c)
                                          | None => zeroResource end
}.

Lemma pods_of_sub_insert f P p :
  P !! PodKey p = None → pods_of (sub f (<[PodKey p := p]> P)) ≡ₚ if f p then p :: pods_of (sub f P) else pods_of (sub f P).
Proof.
  intros Hn. rw sub_insert //. destruct (f p); [|done]. apply pods_of_insert. by apply sub_lookup_None.
Qed.

Lemma pods_of_sub_delete f P p :
  P !! PodKey p = Some p → f p = true → pods_of (sub f P) ≡ₚ p :: pods_of (sub f (delete (PodKey p) P)).
Proof.
  intros Hp Hf. rw (sub_delete f P _ p) // Hf. apply pods_of_delete. by apply sub_lookup.
Qed.
Lemma pods_of_sub_delete_not f P p :
  P !! PodKey p = Some p → f p = false → sub f (delete (PodKey p) P) = sub f P.
Proof. intros Hp Hf. by rw (sub_delete f P _ p) // Hf. Qed.

(** ** Adding and removing pods *)

Abbreviation numa_update := (updateNonNativeResource order lsci norder sorder ParseQuantity).

(** The NUMA accounting accepts the pod. *)
Definition numa_may_add p n : Prop := ∀ t, NumaStatus_ n = Some t → may_add ParseQuantity p t.
Definition numa_may_remove p n : Prop := ∀ t, NumaStatus_ n = Some t → may_remove p t.

Lemma numa_update_add p o preempt :
  (∀ t, o = Some t → NumaOK t ∧ may_add ParseQuantity p t) →
  ∃ o', numa_update p true preempt o = Some o' ∧ ∀ t, o' = Some t → NumaOK t.
Proof.
  intros Ho. unfold updateNonNativeResource. destruct o as [t|]; [|by exists None].
  destruct (Ho t eq_refl) as [HN Hm].
  destruct (add_total order lsci norder sorder aorder ParseQuantity Horder Hnorder Hsorder Haorder p t HN Hm) as (t' & -> & ?).
  exists (Some t'). split; [done|]. by intros ? [= <-].
Qed.

Lemma numa_update_remove p o preempt :
  (∀ t, o = Some t → NumaOK t ∧ may_remove p t) →
  ∃ o', numa_update p false preempt o = Some o' ∧ ∀ t, o' = Some t → NumaOK t.
Proof.
  intros Ho. unfold updateNonNativeResource. destruct o as [t|]; [|by exists None].
  destruct (Ho t eq_refl) as [HN Hm]. set (nc := match _ with Some a => agent a | None => true end).
  destruct (remove_total order lsci norder sorder aorder ParseQuantity Horder Hnorder Hsorder Haorder p preempt nc t HN Hm) as (t' & -> & ?).
  exists (Some t'). split; [done|]. by intros ? [= <-].
Qed.

Lemma of_type_spec p :
  (pi_ResourceType p = Some BestEffortPod ∧ of_type BestEffortPod p = true ∧ of_type GuaranteedPod p = false)
  ∨ (pi_ResourceType p ≠ Some BestEffortPod ∧ of_type BestEffortPod p = false ∧ of_type GuaranteedPod p = true).
Proof. unfold of_type, pod_type. destruct (pi_ResourceType p) as [[]|]; auto. Qed.

(** What [update] does to the parts other than the two accounts. *)
Lemma update_unfold p sign preempt n o' :
  numa_update p (0 <? sign)%Z preempt (NumaStatus_ n) = Some o' →
  update order gates norder sorder ParseQuantity p sign preempt n
  = Some (set_rest (updateUsedPorts (pi_Pod p) (0 <? sign)%Z (UsedPorts n))
      (if isReserved gates p then updateReservedResource order p sign (GuaranteedReserved n) else GuaranteedReserved n) o'
      (if of_type BestEffortPod p
       then set_be_requested (update_requested order sign p (BestEffortRequested n))
              (update_nonzero sign p (BestEffortNonZeroRequested n)) n
       else set_gt_requested (update_requested order sign p (GuaranteedRequested n))
              (update_nonzero sign p (GuaranteedNonZeroRequested n)) n)).
Proof.
  intros E. unfold update. destruct (of_type_spec p) as [(-> & -> & _)|(Hne & -> & _)]; simpl.
  - by rw E.
  - destruct (pi_ResourceType p) as [[]|]; simpl; try done; by rw E.
Qed.

Lemma NI_Add n P pod :
  let p := NewPodInfo order gates jsonStrings pod in
  NI n P → P !! UID pod = None → numa_may_add p n →
  ∃ n', AddPod order gates jsonStrings norder sorder ParseQuantity pod n = Some n' ∧ NI n' (<[UID pod := p]> P)
    ∧ UsedPorts n' = updateUsedPorts pod true (UsedPorts n).
Proof.
  intros p HN Hn Hnuma. unfold AddPod. fold p.
  assert (PodKey p = UID pod ∧ pi_Pod p = pod) as [Hk Hpod].
  { unfold p, NewPodInfo. destruct (CalculateResource _ _ _) as [[? ?] ?], (GetProtectionDuration _), (GetOwnerInfo _). done. }
  rw -Hk in Hn. rw -Hk. destruct HN as [HM Hgt Hgt0 Hbe Hbe0 Hresv Hnu Hal Hcap Hbal].
  destruct (RM_Add gates (Maintainer n) P p HM Hn) as (m & -> & HM'). cbn [mbind option_bind].
  destruct (numa_update_add p (NumaStatus_ n) false) as (o' & Eo & Ho'); [intros t Ht; split; [by apply Hnu|by apply Hnuma]|].
  rw (update_unfold p 1 false (set_maintainer m n) o' Eo). eexists. split; [reflexivity|]. split; [|by rw Hpod].
  assert (∀ t, typed t (<[PodKey p := p]> P) ≡ₚ if of_type t p then p :: typed t P else typed t P) as Ht
    by (intros t; by apply pods_of_sub_insert).
  pose proof (pods_of_sub_insert (isReserved gates) P p Hn) as Hr.
  destruct (of_type_spec p) as [(_ & E1 & E2)|(_ & E1 & E2)]; rw E1; split; cbn -[update_requested update_nonzero];
    rw ?Ht ?E1 ?E2 ?Hr; try done; try (by apply Requested_add); try (by apply NonZero_add);
    destruct (isReserved gates p); try done; by apply Reserved_add.
Qed.

Lemma NI_Remove n P p preempt :
  NI n P → P !! PodKey p = Some p → numa_may_remove p n →
  ∃ m n', RemovePodInfo gates p (Maintainer n) = Some m
    ∧ update order gates norder sorder ParseQuantity p (-1) preempt (set_maintainer m n) = Some n'
    ∧ NI n' (delete (PodKey p) P) ∧ UsedPorts n' = updateUsedPorts (pi_Pod p) false (UsedPorts n).
Proof.
  intros [HM Hgt Hgt0 Hbe Hbe0 Hresv Hnu Hal Hcap Hbal] Hp Hnuma.
  destruct (RM_Remove gates (Maintainer n) P p HM Hp) as (m & E & HM'). exists m.
  destruct (numa_update_remove p (NumaStatus_ n) preempt) as (o' & Eo & Ho'); [intros t Ht; split; [by apply Hnu|by apply Hnuma]|].
  rw (update_unfold p (-1) preempt (set_maintainer m n) o' Eo). eexists. split; [done|]. split; [reflexivity|]. split; [|done].
  assert (∀ f, f p = true → pods_of (sub f P) ≡ₚ p :: pods_of (sub f (delete (PodKey p) P))) as Hy
    by (intros f ?; by apply pods_of_sub_delete).
  assert (∀ f, f p = false → sub f (delete (PodKey p) P) = sub f P) as Hno
    by (intros f ?; by apply pods_of_sub_delete_not).
  unfold typed in *.
  destruct (of_type_spec p) as [(_ & E1 & E2)|(_ & E1 & E2)]; rw E1; rw ?(Hy _ E1) in Hbe Hbe0; rw ?(Hy _ E2) in Hgt Hgt0;
    split; cbn -[update_requested update_nonzero]; unfold typed; rw ?(Hno _ E1) ?(Hno _ E2); try done;
    try (by apply Requested_remove); try (by apply NonZero_remove);
    destruct (isReserved gates p) eqn:Er; rw ?(Hy _ Er) in Hresv; rw ?(Hno _ Er); try done; by apply Reserved_remove.
Qed.

Lemma NI_New nonNative n :
  NewNodeInfo order gates jsonStrings norder sorder ParseQuantity nonNative [] = Some n → NI n ∅.
Proof.
  intros [= <-]. assert (∀ f, pods_of (sub f ∅) = []) as Hs by (intros f; by rw sub_empty).
  split; cbn [Maintainer GuaranteedRequested GuaranteedNonZeroRequested BestEffortRequested BestEffortNonZeroRequested
    GuaranteedReserved NumaStatus_ GuaranteedAllocatable GuaranteedCapacity BestEffortAllocatable ni_Node ni_NMNode ni_CNR];
    unfold typed; rw ?Hs; [|by intros []|done|by intros []|done|by intros []| |done|done|done].
  - apply RM_New, (NewPodInfo order gates jsonStrings
      {| Name := ""; Namespace := ""; UID := ""; CreationTimestamp := 0; Annotations := None; OwnerReferences := [];
         NodeName := ""; SchedulerName := ""; PriorityClassName := ""; Priority := None; PreemptionPolicy := None;
         Containers := []; InitContainers := []; Conditions := []; Labels := ∅; Tolerations := []; Affinity := None;
         Overhead := None; StartTime := None; DeletionTimestamp := None |}).
  - intros t. destruct nonNative; [|done]. intros [= <-]. apply Fresh_ok, Fresh_new.
Qed.

(** [RemovePod] on every branch. *)
Lemma RemovePod_spec n P pod preempt :
  NI n P → (∀ p, P !! UID pod = Some p → numa_may_remove p n) →
  ∃ n' e, RemovePod order gates norder sorder ParseQuantity pod preempt n = Some (n', e)
    ∧ match P !! UID pod with
      | Some p => if UID pod ≟ "" then n' = n ∧ e = Some EmptyUID
                  else NI n' (delete (UID pod) P) ∧ e = None ∧ UsedPorts n' = updateUsedPorts (pi_Pod p) false (UsedPorts n)
      | None => n' = n ∧ e = Some (if UID pod ≟ "" then EmptyUID else NoCorrespondingPod)
      end.
Proof.
  intros HN Hnuma. unfold RemovePod, nodeinfo_GetPodKey. case_bool_decide as Hu.
  { exists n, (Some EmptyUID). split; [done|]. by destruct (P !! UID pod). }
  rw (RM_GetPodInfo gates (Maintainer n) P (UID pod) (ni_pods _ _ HN)). cbn [mbind option_bind].
  destruct (P !! UID pod) as [p|] eqn:Ep; [|by exists n, (Some NoCorrespondingPod)].
  pose proof (rm_keyed _ _ _ (ni_pods _ _ HN) _ _ Ep) as Hk.
  destruct (NI_Remove n P p preempt HN) as (m & n' & E1 & E2 & HN' & HP'); [by rw Hk|by apply Hnuma|].
  rw E1. cbn [mbind option_bind]. rw E2. cbn [mbind option_bind]. exists n', None. split; [done|]. by rw -Hk.
Qed.

(** ** The other operations *)

Lemma NI_objects nd nm n P :
  NI n P → NI (setGuaranteedCapacityResource order gates (setGuaranteedAllocatableResource order gates (set_objects nd nm n))) P.
Proof. intros []. split; simpl; try done. by destruct nd, nm. Qed.

Lemma NI_SetCNR cnr n P :
  NI n P → (∀ t, NumaStatus_ n = Some t → may_read ParseQuantity cnr P) →
  ∃ n', SetCNR order gates norder sorder aorder ParseQuantity cnr n = Some n' ∧ NI n' P.
Proof.
  intros [HM Hgt Hgt0 Hbe Hbe0 Hresv Hnu Hal Hcap Hbal] Hr. unfold SetCNR. destruct (NumaStatus_ n) as [t|] eqn:Et.
  - destruct (parse_total order lsci gates norder sorder aorder ParseQuantity Horder Hnorder Hsorder Haorder cnr (Maintainer n) P t HM
      (Hr t eq_refl)) as (t' & E & HN'). rw E. cbn [fmap option_fmap option_map mbind option_bind].
    eexists. split; [reflexivity|]. split; simpl; try done. by intros ? [= <-].
  - cbn [mbind option_bind]. eexists. split; [reflexivity|]. by split.
Qed.

Lemma NI_RemoveCNR n P : NI n P → NI (RemoveCNR n) P.
Proof.
  intros []. split; simpl; try done. intros t Ht. destruct (NumaStatus_ n); [|done]. injection Ht as <-. apply Fresh_ok, Fresh_new.
Qed.

Lemma NI_misc n P a b g : NI n P → NI (set_partitions a b n) P ∧ NI (SetGeneration g n) P.
Proof. intros []. by split; split. Qed.

(** *** Occupiable resources *)

Lemma preemptible_type t p : bucket p = preemptible t → pod_type p = t.
Proof.
  unfold pod_type. destruct (bucket_spec p) as [[_ ->]|[(_ & Hg & ->)|(Hf & Hg & ->)]]; destruct t; try done.
  - intros _. unfold isGuaranteed in Hg. apply bool_decide_eq_true in Hg. by rw Hg.
  - intros _. unfold isGuaranteed in Hg. apply bool_decide_eq_false in Hg.
    assert (bool_decide (is_Some (pi_ResourceType p)) = true) as Hs%bool_decide_eq_true.
    { unfold podFilters in Hf. simpl in Hf. by destruct (bool_decide (is_Some (pi_ResourceType p))). }
    destruct Hs as [[] Hs]; rw Hs in Hg |- *; done.
Qed.

(** The pods that stay when the preemptible ones below a priority go. *)
Definition stays (pt : PodPartitionInfo) p : bool :=
  of_type (pt_resourceType pt) p
  && negb (in_bucket (preemptible (pt_resourceType pt)) p && Partition_Compare pt p).

Lemma zsum_partition f pt P :
  zsum f (typed (pt_resourceType pt) P)
  = (zsum f (filter (λ p, Partition_Compare pt p = true) (pods_of (sub (in_bucket (preemptible (pt_resourceType pt))) P)))
     + zsum f (pods_of (sub (stays pt) P)))%Z.
Proof.
  unfold typed. rw !pods_of_sub. generalize (pods_of P). intros l. induction l as [|p l IH]; [done|].
  rw !filter_cons. unfold stays. destruct (in_bucket (preemptible (pt_resourceType pt)) p) eqn:Eb.
  - assert (of_type (pt_resourceType pt) p = true) as Et.
    { apply bool_decide_eq_true, preemptible_type. by apply in_bucket_eq. }
    rw Et. simpl. rw filter_cons. destruct (Partition_Compare pt p); simpl; rw ?zsum_cons IH; unfold stays; lia.
  - simpl. rw andb_true_r. destruct (of_type (pt_resourceType pt) p); simpl; rw ?zsum_cons IH; unfold stays; lia.
Qed.

Lemma NI_occupiable pt n P :
  NI n P →
  ∃ n' res, GetOccupiableResources pt n = Some (n', res) ∧ NI n' P
    ∧ let alloc := match pt_resourceType pt with GuaranteedPod => GuaranteedAllocatable n | BestEffortPod => BestEffortAllocatable n end in
      MilliCPU res = wrap64 (MilliCPU alloc - zsum (λ p, MilliCPU (Res p)) (pods_of (sub (stays pt) P)))
      ∧ Memory res = wrap64 (Memory alloc - zsum (λ p, Memory (Res p)) (pods_of (sub (stays pt) P))).
Proof.
  intros HN. destruct (RM_Partition gates (Maintainer n) P pt (ni_pods _ _ HN)) as (m & [c me] & E & HM & Hc & Hm).
  unfold GetOccupiableResources. rw E. cbn [mbind option_bind]. simpl in Hc, Hm.
  set (alloc := match pt_resourceType pt with GuaranteedPod => GuaranteedAllocatable n | BestEffortPod => BestEffortAllocatable n end).
  set (requested := match pt_resourceType pt with GuaranteedPod => GuaranteedRequested n | BestEffortPod => BestEffortRequested n end).
  assert (Requested requested (typed (pt_resourceType pt) P)) as Hreq.
  { unfold requested. destruct (pt_resourceType pt); apply HN. }
  assert ((match pt_resourceType pt with
     | GuaranteedPod => (GuaranteedAllocatable n, GuaranteedRequested n)
     | BestEffortPod => (BestEffortAllocatable n, BestEffortRequested n) end) = (alloc, requested)) as ->
    by (unfold alloc, requested; by destruct (pt_resourceType pt)).
  eexists _, _. split; [reflexivity|]. split; [destruct HN; by split|]. simpl.
  pose proof (Hreq DCPU) as H1. pose proof (Hreq DMem) as H2. simpl in H1, H2. rw H1 H2.
  rw !wrap64_add_r !Z.add_sub_assoc !wrap64_sub_r.
  rw -(wrap64_sub_l (c + _)) -(wrap64_add_l c) Hc wrap64_add_l wrap64_sub_l.
  rw -(wrap64_sub_l (me + _)) -(wrap64_add_l me) Hm wrap64_add_l wrap64_sub_l.
  rw (zsum_partition (λ p, MilliCPU (Res p)) pt P) (zsum_partition (λ p, Memory (Res p)) pt P). split; f_equal; lia.
Qed.
End props.
