(* ===== verification/NodeInfoSpec.v ===== *)
(** * What the node information promises

    The node states that are reached by its operations, with the map of the pods
    they hold; the accounting equations; the resources preemption could free; the
    host ports; what is allocatable; and two cases where the accounting is
    lost. *)
From S2P Require Import Prelude GoStrings PodModel PodState Splay SplayRefine SplayProps SplaySpec HashSlice Resource MicroTopo PodInfos PodInfosProps Numa NumaProps NumaParse NumaSpec NodeInfo NodeInfoProps.

Local Open Scope godel_scope.
Local Open Scope string_scope.

Implicit Types (n : NodeInfo) (P : gmap string PodInfo) (p : PodInfo).

(** ** Host ports *)

(** The pod asks for the host port [pp] at address [ip]. *)
Definition uses (pod : Pod) (ip : string) (pp : ProtocolPort) : Prop :=
  ∃ c port, c ∈ Containers pod ∧ port ∈ c_Ports c ∧ (0 < HostPort port)%Z
    ∧ ip = port_ip (HostIP port) ∧ pp = port_pp (Protocol port) (HostPort port).

Lemma taken_foldl {A} (f : HostPortInfo → A → HostPortInfo) (Q : A → Prop) (add : bool) l h ip pp :
  (∀ h x, taken (f h x) ip pp ↔ if add then taken h ip pp ∨ Q x else taken h ip pp ∧ ¬ Q x) →
  taken (foldl f h l) ip pp ↔
    if add then taken h ip pp ∨ ∃ x, x ∈ l ∧ Q x else taken h ip pp ∧ ¬ ∃ x, x ∈ l ∧ Q x.
Proof.
  intros Hf. revert h. induction l as [|x l IH]; intros h; simpl.
  - assert (¬ ∃ x : A, x ∈ [] ∧ Q x) by (intros (x & ?%not_elem_of_nil & _); done). destruct add; tauto.
  - assert ((∃ y, y ∈ x :: l ∧ Q y) ↔ Q x ∨ ∃ y, y ∈ l ∧ Q y) as Hx.
    { split; [intros (y & [->|?]%elem_of_cons & ?); eauto|]. intros [?|(y & ? & ?)]; [exists x|exists y]; rw elem_of_cons; auto. }
    specialize (Hf h x). specialize (IH (f h x)). destruct add; rw IH Hf Hx; tauto.
Qed.

Lemma taken_updateUsedPorts pod add h ip pp :
  taken (updateUsedPorts pod add h) ip pp ↔
    if add then taken h ip pp ∨ uses pod ip pp else taken h ip pp ∧ ¬ uses pod ip pp.
Proof.
  unfold updateUsedPorts.
  set (Qp := λ port : ContainerPort, (0 < HostPort port)%Z ∧ ip = port_ip (HostIP port) ∧ pp = port_pp (Protocol port) (HostPort port)).
  rw (taken_foldl _ (λ c, ∃ port, port ∈ c_Ports c ∧ Qp port) add).
  - assert ((∃ c, c ∈ Containers pod ∧ ∃ port, port ∈ c_Ports c ∧ Qp port) ↔ uses pod ip pp) as Hu
      by (unfold uses, Qp; naive_solver). destruct add; tauto.
  - intros h' c. apply (taken_foldl _ Qp add). intros h'' port. destruct add; [apply taken_Add|apply taken_Remove].
Qed.

Section spec.
Context (order : gmap string Z → list (string * Z)) (gates : FeatureGates).
Context (jsonStrings : string → gmap string string).
Context (norder : gmap Z ResourceList → list (Z * ResourceList)).
Context (sorder : gmap string ResourceStatus → list (string * ResourceStatus)).
Context (aorder : gmap string PodAllocation → list (string * PodAllocation)).
Context (ParseQuantity : string → option Quantity).
Abbreviation lsci := (LocalStorageCapacityIsolation gates).
Abbreviation add := (AddPod order gates jsonStrings norder sorder ParseQuantity).
Abbreviation remove := (RemovePod order gates norder sorder ParseQuantity).
Abbreviation info := (NewPodInfo order gates jsonStrings).

(** ** The states of a node *)

Inductive node_reach : NodeInfo → gmap string PodInfo → Prop :=
  | nr_new nonNative n :
      NewNodeInfo order gates jsonStrings norder sorder ParseQuantity nonNative [] = Some n → node_reach n ∅
  | nr_add n P pod n' :
      node_reach n P → P !! UID pod = None → numa_may_add ParseQuantity (info pod) n → add pod n = Some n' →
      node_reach n' (<[UID pod := info pod]> P)
  | nr_remove n P pod preempt n' :
      node_reach n P → (∀ p, P !! UID pod = Some p → numa_may_remove p n) → remove pod preempt n = Some (n', None) →
      node_reach n' (delete (UID pod) P)
  | nr_remove_error n P pod preempt n' e :
      node_reach n P → (∀ p, P !! UID pod = Some p → numa_may_remove p n) → remove pod preempt n = Some (n', Some e) →
      node_reach n' P
  | nr_SetNode n P nd : node_reach n P → node_reach (SetNode order gates nd n) P
  | nr_SetNMNode n P nm : node_reach n P → node_reach (SetNMNode order gates nm n) P
  | nr_RemoveNode n P : node_reach n P → node_reach (RemoveNode order gates n) P
  | nr_RemoveNMNode n P : node_reach n P → node_reach (RemoveNMNode order gates n) P
  | nr_SetCNR n P cnr n' :
      node_reach n P → (∀ t, NumaStatus_ n = Some t → may_read ParseQuantity cnr P) →
      SetCNR order gates norder sorder aorder ParseQuantity cnr n = Some n' → node_reach n' P
  | nr_RemoveCNR n P : node_reach n P → node_reach (RemoveCNR n) P
  | nr_partitions n P a b : node_reach n P → node_reach (set_partitions a b n) P
  | nr_SetGeneration n P g : node_reach n P → node_reach (SetGeneration g n) P
  | nr_occupiable n P pt n' res : node_reach n P → GetOccupiableResources pt n = Some (n', res) → node_reach n' P.

Context (Horder : ∀ m, order m ≡ₚ map_to_list m) (Hnorder : ∀ m, norder m ≡ₚ map_to_list m)
  (Hsorder : ∀ m, sorder m ≡ₚ map_to_list m) (Haorder : ∀ m, aorder m ≡ₚ map_to_list m).
Abbreviation NI_ := (NI order gates).

Lemma node_reach_ok n P : node_reach n P → NI_ n P.
Proof.
  induction 1 as [nonNative n E|n P pod n' _ IH Hn Hnu E|n P pod pre n' _ IH Hnu E|n P pod pre n' e _ IH Hnu E
    |n P nd _ IH|n P nm _ IH|n P _ IH|n P _ IH|n P cnr n' _ IH Hr E|n P _ IH|n P a b _ IH|n P g _ IH|n P pt n' res _ IH E].
  - by eapply NI_New.
  - destruct (NI_Add order gates jsonStrings norder sorder aorder ParseQuantity Horder Hnorder Hsorder Haorder n P pod IH Hn Hnu)
      as (? & E' & ? & _). congruence.
  - destruct (RemovePod_spec order gates norder sorder aorder ParseQuantity Horder Hnorder Hsorder Haorder n P pod pre IH Hnu)
      as (? & ? & E' & H). rw E in E'. injection E' as <- <-. destruct (P !! UID pod); [|by destruct H].
    case_bool_decide; [by destruct H|by destruct H].
  - destruct (RemovePod_spec order gates norder sorder aorder ParseQuantity Horder Hnorder Hsorder Haorder n P pod pre IH Hnu)
      as (? & ? & E' & H). rw E in E'. injection E' as <- <-. destruct (P !! UID pod).
    + case_bool_decide; [by destruct H as [-> _]|by destruct H as (_ & ? & _)].
    + by destruct H as [-> _].
  - by apply NI_objects.
  - by apply NI_objects.
  - by apply NI_objects.
  - by apply NI_objects.
  - destruct (NI_SetCNR order gates norder sorder aorder ParseQuantity Horder Hnorder Hsorder Haorder cnr n P IH Hr)
      as (? & E' & ?). congruence.
  - by apply NI_RemoveCNR.
  - exact (proj1 (NI_misc order gates n P a b 0 IH)).
  - exact (proj2 (NI_misc order gates n P false false g IH)).
  - destruct (NI_occupiable order gates pt n P IH) as (? & ? & E' & ? & _). rw E in E'. by injection E' as <- <-.
Qed.

(** ** Theorems *)

(** C20: A node's accounts always balance.  In every state reached by the
    operations of the node (adding pods with new UIDs, removing pods, setting and
    removing the three objects that describe the node, preemption queries), with
    [P] the pods added and not removed: the guaranteed and best-effort requests
    are, in every dimension including each scalar resource, the int64 sums over
    the pods of [P] of that type (a pod without a legal type counts as
    guaranteed), the non-zero requests and the reserved resources are sums
    likewise, the number of pods is the size of [P], and what is allocatable is a
    function of the objects set last. *)
Theorem node_accounting n P (Hreach : node_reach n P) :
  (∀ d, d ≠ DPods →
     amount (GuaranteedRequested n) d = wrap64 (zsum (λ p, amount (Res p) d) (typed GuaranteedPod P))
     ∧ amount (BestEffortRequested n) d = wrap64 (zsum (λ p, amount (Res p) d) (typed BestEffortPod P)))
  ∧ MilliCPU (GuaranteedNonZeroRequested n) = wrap64 (zsum Non0CPU (typed GuaranteedPod P))
  ∧ Memory (GuaranteedNonZeroRequested n) = wrap64 (zsum Non0Mem (typed GuaranteedPod P))
  ∧ MilliCPU (BestEffortNonZeroRequested n) = wrap64 (zsum Non0CPU (typed BestEffortPod P))
  ∧ Memory (BestEffortNonZeroRequested n) = wrap64 (zsum Non0Mem (typed BestEffortPod P))
  ∧ MilliCPU (GuaranteedReserved n) = wrap64 (zsum (λ p, MilliCPU (Res p)) (pods_of (sub (isReserved gates) P)))
  ∧ Memory (GuaranteedReserved n) = wrap64 (zsum (λ p, Memory (Res p)) (pods_of (sub (isReserved gates) P)))
  ∧ NumPods n = Z.of_nat (size P) ∧ NumPlaceholderPods n = size (sub (isReserved gates) P)
  ∧ GuaranteedAllocatable n = alloc_of order gates (ni_Node n) (ni_NMNode n)
  ∧ GuaranteedCapacity n = capacity_of order gates (ni_Node n) (ni_NMNode n).
Proof.
  destruct (node_reach_ok n P Hreach) as [HM Hgt [? ?] Hbe [? ?] Hresv Hnu Hal Hcap Hbal]. split_and!; try done.
  - intros d Hd. rw Hgt Hbe. by destruct d.
  - apply (Hresv DCPU).
  - apply (Hresv DMem).
  - by eapply RM_Len.
  - unfold NumPlaceholderPods, ReservedPodsNum. by rw (rm_reserved _ _ _ HM).
Qed.

(** RemovePod on every branch: with an empty UID, or a UID that is not on
    the node, it returns the error and the node is as it was; otherwise it
    removes the pod stored under the UID (not the pod it was given), without an
    error. *)
Theorem remove_pod_branches n P pod preempt (Hreach : node_reach n P)
    (Hnuma : ∀ p, P !! UID pod = Some p → numa_may_remove p n) :
  ∃ n' e, remove pod preempt n = Some (n', e)
    ∧ (UID pod = "" → n' = n ∧ e = Some EmptyUID)
    ∧ (UID pod ≠ "" → P !! UID pod = None → n' = n ∧ e = Some NoCorrespondingPod)
    ∧ (UID pod ≠ "" → is_Some (P !! UID pod) → e = None ∧ node_reach n' (delete (UID pod) P)).
Proof.
  destruct (RemovePod_spec order gates norder sorder aorder ParseQuantity Horder Hnorder Hsorder Haorder n P pod preempt
    (node_reach_ok n P Hreach) Hnuma) as (n' & e & E & H). exists n', e. split; [done|]. destruct (P !! UID pod) as [p|] eqn:Ep.
  - split_and!; [intros Hu; by rw bool_decide_true in H|done|]. intros Hu _. rw bool_decide_false // in H.
    destruct H as (_ & -> & _). split; [done|]. eapply nr_remove; [done| |done]. intros q Hq. rw Ep in Hq. by apply Hnuma.
  - destruct H as [-> ->]. split_and!; [intros Hu; by rw bool_decide_true|intros Hu _; by rw bool_decide_false|].
    intros _ H. by apply is_Some_None in H.
Qed.

(** C29: The resources preemption could free: GetOccupiableResources returns, for
    the resource type of the partition, what is allocatable less the requests of
    the pods of that type that would stay, i.e. all but the preemptible ones
    whose priority is below the bound; the query leaves the node's accounts and
    pods as they were. *)
Theorem occupiable_resources_exact n P pt (Hreach : node_reach n P) :
  ∃ n' res, GetOccupiableResources pt n = Some (n', res) ∧ node_reach n' P
    ∧ let alloc := match pt_resourceType pt with
                   | GuaranteedPod => GuaranteedAllocatable n | BestEffortPod => BestEffortAllocatable n end in
      let staying := filter (λ p, pod_type p = pt_resourceType pt
                               ∧ ¬ (bucket p = preemptible (pt_resourceType pt) ∧ (PodPriority p < priorityUpper pt)%Z))
                       (map_to_list P).*2 in
      MilliCPU res = wrap64 (MilliCPU alloc - zsum (λ p, MilliCPU (Res p)) staying)
      ∧ Memory res = wrap64 (Memory alloc - zsum (λ p, Memory (Res p)) staying).
Proof.
  destruct (NI_occupiable order gates pt n P (node_reach_ok n P Hreach)) as (n' & res & E & _ & H). exists n', res.
  split; [done|]. split; [by eapply nr_occupiable|]. simpl in *.
  assert (pods_of (sub (stays pt) P) ≡ₚ filter (λ p, pod_type p = pt_resourceType pt
    ∧ ¬ (bucket p = preemptible (pt_resourceType pt) ∧ (PodPriority p < priorityUpper pt)%Z)) (map_to_list P).*2) as HP; [|by rw -!HP].
  rw pods_of_sub. apply Permutation_refl', list_filter_iff. intros p. unfold stays, of_type, Partition_Compare.
  rw andb_true_iff negb_true_iff andb_false_iff bool_decide_eq_true Z.ltb_ge.
  assert (in_bucket (preemptible (pt_resourceType pt)) p = false ↔ bucket p ≠ preemptible (pt_resourceType pt)) as ->.
  { unfold in_bucket. apply bool_decide_eq_false. }
  clear -pt. split; intros [? Hs]; (split; [done|]).
  - intros [Hb Hlt]. destruct Hs; [done|lia].
  - destruct (decide (bucket p = preemptible (pt_resourceType pt))); [right|by left].
    destruct (Z.lt_ge_cases (PodPriority p) (priorityUpper pt)); [|done]. by destruct Hs.
Qed.

(** Every port taken is used by a pod and conversely. *)
Definition PortsOK n P : Prop :=
  ∀ ip pp, taken (UsedPorts n) ip pp ↔ ∃ k p, P !! k = Some p ∧ uses (pi_Pod p) ip pp.

Lemma PortsOK_add n n' P pod p : PortsOK n P → P !! UID pod = None → pi_Pod p = pod →
  UsedPorts n' = updateUsedPorts pod true (UsedPorts n) → PortsOK n' (<[UID pod := p]> P).
Proof.
  intros Hports Hn Hp HU ip pp. rw HU taken_updateUsedPorts (Hports ip pp). split.
  - intros [(k & q & Hk & Hq)|Hu]; [exists k, q; split; [|done]; rw lookup_insert_ne //; congruence|].
    exists (UID pod), p. rw lookup_insert_eq Hp. done.
  - intros (k & q & [[<- <-]|[_ Hk]]%lookup_insert_Some & Hq); [right; by rw Hp in Hq|left; eauto].
Qed.
Lemma PortsOK_remove n n' P u p : PortsOK n P → P !! u = Some p →
  (∀ k q ip pp, P !! k = Some q → k ≠ u → uses (pi_Pod p) ip pp → ¬ uses (pi_Pod q) ip pp) →
  UsedPorts n' = updateUsedPorts (pi_Pod p) false (UsedPorts n) → PortsOK n' (delete u P).
Proof.
  intros Hports Hp Hdis HU ip pp. rw HU taken_updateUsedPorts (Hports ip pp). split.
  - intros [(k & q & Hk & Hq) Hnot]. exists k, q. split; [|done]. apply lookup_delete_Some. split; [|done].
    intros <-. congruence.
  - intros (k & q & [Hne Hk]%lookup_delete_Some & Hq). split; [eauto|]. intros Hu. by eapply (Hdis k q).
Qed.

(** The used host ports of a node are exactly those of its pods: adding a
    pod with a new UID keeps this, whatever ports it uses; removing a pod keeps
    it when no other pod of the node uses one of its ports. *)
Theorem used_ports_exact n P (Hreach : node_reach n P) (Hports : PortsOK n P) :
  (∀ pod n', P !! UID pod = None → numa_may_add ParseQuantity (info pod) n → add pod n = Some n' →
     PortsOK n' (<[UID pod := info pod]> P))
  ∧ ∀ pod p preempt n', P !! UID pod = Some p → numa_may_remove p n →
      (∀ k q ip pp, P !! k = Some q → k ≠ UID pod → uses (pi_Pod p) ip pp → ¬ uses (pi_Pod q) ip pp) →
      remove pod preempt n = Some (n', None) → PortsOK n' (delete (UID pod) P).
Proof.
  pose proof (node_reach_ok n P Hreach) as HN. split.
  - intros pod n' Hn Hnu E.
    destruct (NI_Add order gates jsonStrings norder sorder aorder ParseQuantity Horder Hnorder Hsorder Haorder n P pod HN Hn Hnu)
      as (n2 & E' & _ & HU). rw E in E'. injection E' as <-. eapply PortsOK_add; [done|done| |done].
    unfold NewPodInfo. by destruct (CalculateResource _ _ _) as [[? ?] ?], (GetProtectionDuration _), (GetOwnerInfo _).
  - intros pod p preempt n' Hp Hnu Hdis E.
    destruct (RemovePod_spec order gates norder sorder aorder ParseQuantity Horder Hnorder Hsorder Haorder n P pod preempt HN)
      as (n2 & e & E' & H); [intros q Hq; rw Hp in Hq; by injection Hq as <-|].
    rw E in E'. injection E' as <- <-. rw Hp in H. case_bool_decide; [by destruct H|]. destruct H as (_ & _ & HU).
    by eapply PortsOK_remove.
Qed.
End spec.

(** ** What is allocatable *)

(** The quantity of one resource from the node's list and the node manager's
    two lists. *)
Definition merged (node nmAllocatable nmCapacity : option Quantity) : option Quantity :=
  match node, nmAllocatable with
  | Some q, Some a => match nmCapacity with
                      | Some c => Some (Z.max 0 (q - Z.max 0 (c - a)))
                      | None => Some q
                      end
  | Some q, None => Some q
  | None, o => o
  end.

Lemma merge_lookup order (nmC nmA rl : ResourceList) r :
  (∀ m, order m ≡ₚ map_to_list m) →
  foldl (merge_allocatable nmC) rl (order nmA) !! r = merged (rl !! r) (nmA !! r) (nmC !! r).
Proof.
  intros Ho.
  rw (foldl_entries order Ho (merge_allocatable nmC) (λ l : ResourceList, l !! r) (λ o v, merged o (Some v) (nmC !! r)) r).
  - by destruct (nmA !! r), (rl !! r).
  - intros l v. unfold merge_allocatable, merged. simpl. destruct (l !! r) as [q|] eqn:El; [|by rw lookup_insert_eq].
    destruct (nmC !! r) as [c|]; [|done]. rw lookup_insert_eq. f_equal.
    destruct (Z.ltb_spec (c - v) 0); match goal with |- context [(?x <? 0)%Z] => destruct (Z.ltb_spec x 0) end; lia.
  - intros l k v Hk. unfold merge_allocatable. simpl.
    destruct (l !! k); [destruct (nmC !! k); [by rw lookup_insert_ne|done]|by rw lookup_insert_ne].
Qed.

(** What is allocatable of a node that both the kubelet and the node manager
    report, dimension by dimension: a resource both report is the node's
    quantity less what the node manager withholds (its capacity less its
    allocatable, not below zero), not below zero itself; without a node manager
    capacity the node's quantity stands; a resource only one reports is taken
    from it; and if the node's quantity is not negative the result lies between
    zero and it. *)
Theorem guaranteed_allocatable_merge (order : gmap string Z → list (string * Z)) (gates : FeatureGates)
    (nd : Node) (nm : NMNode) (d : Dim) (Horder : ∀ m, order m ≡ₚ map_to_list m) :
  let r := dim_name d in
  let q := merged (node_Allocatable nd !! r) (default ∅ (nm_ResourceAllocatable nm) !! r) (default ∅ (nm_ResourceCapacity nm) !! r) in
  amount (getAllocatableResources order gates nd nm) d
  = (if counted (LocalStorageCapacityIsolation gates) d then match q with Some v => dim_value d v | None => 0%Z end else 0%Z)
  ∧ ∀ v, node_Allocatable nd !! r = Some v → (0 ≤ v)%Z → ∃ v', q = Some v' ∧ (0 ≤ v' ≤ v)%Z.
Proof.
  intros r q. split.
  - unfold getAllocatableResources, NewResourceFromPtr, NewResource. rw Add_amount //; [|apply wf_zero]. unfold delta.
    rw merge_lookup //. fold r q. destruct (counted _ d); [|by destruct d]. destruct q as [v|]; [|by destruct d].
    destruct d; simpl; rw ?Z.add_0_l; try (by rw wrap64_idem); apply wrap64_idem.
  - intros v Hv Hpos. unfold q. rw Hv. unfold merged.
    destruct (default ∅ (nm_ResourceAllocatable nm) !! r) as [a|], (default ∅ (nm_ResourceCapacity nm) !! r) as [c|];
      eexists; (split; [reflexivity|]); lia.
Qed.

(** ** Examples *)

Module NodeExamples.

Abbreviation perm_ := (λ _, Permutation_refl _).
Abbreviation add_ := (AddPod map_to_list all_gates (λ _, ∅) map_to_list map_to_list Atoi).
Abbreviation remove_ := (RemovePod map_to_list all_gates map_to_list map_to_list Atoi).
Abbreviation reach_ := (node_reach map_to_list all_gates (λ _, ∅) map_to_list map_to_list map_to_list Atoi).

Definition empty_node : NodeInfo :=
  mkNodeInfo None None None false false NewPodInfoMaintainer ∅ zeroResource zeroResource zeroResource
    zeroResource zeroResource zeroResource zeroResource zeroResource 0 None ∅.

Lemma reach_empty : reach_ empty_node ∅.
Proof. apply (nr_new _ _ _ _ _ _ _ false). reflexivity. Qed.

(** A node that holds one guaranteed pod of 100 milli-CPUs. *)
Definition one_pod : NodeInfo := default empty_node (add_ (bound_pod "a" 5 100) empty_node).

Lemma one_pod_eq : add_ (bound_pod "a" 5 100) empty_node = Some one_pod.
Proof. vm_compute. reflexivity. Qed.

Lemma reach_one : reach_ one_pod (<["a" := bound_info "a" 5 100]> ∅).
Proof.
  apply (nr_add map_to_list all_gates (λ _, ∅) map_to_list map_to_list map_to_list Atoi empty_node ∅ (bound_pod "a" 5 100)
    one_pod reach_empty eq_refl); [intros t Ht; discriminate Ht|apply one_pod_eq].
Qed.

Lemma node_accounting_witness : MilliCPU (GuaranteedRequested one_pod) = 100%Z ∧ NumPods one_pod = 1%Z.
Proof.
  destruct (node_accounting map_to_list all_gates (λ _, ∅) map_to_list map_to_list map_to_list Atoi
    perm_ perm_ perm_ perm_ one_pod _ reach_one) as (H & _ & _ & _ & _ & _ & _ & HL & _).
  split; [|rw HL; vm_compute; reflexivity].
  destruct (H DCPU) as [HG _]; [discriminate|]. etransitivity; [exact HG|]. vm_compute. reflexivity.
Defined.

Lemma remove_pod_branches_witness :
  ∃ n', remove_ (bound_pod "a" 9 1) false one_pod = Some (n', None) ∧ NumPods n' = 0%Z.
Proof.
  destruct (remove_pod_branches map_to_list all_gates (λ _, ∅) map_to_list map_to_list map_to_list Atoi
    perm_ perm_ perm_ perm_ one_pod _ (bound_pod "a" 9 1) false reach_one) as (n' & e & E & _ & _ & H).
  - intros p _ t Ht. assert (NumaStatus_ one_pod = None) as E0 by (vm_compute; reflexivity). rw E0 in Ht. discriminate Ht.
  - destruct H as [-> Hr]; [discriminate|vm_compute; by eexists|]. exists n'. split; [exact E|].
    pose proof (node_reach_ok _ _ _ _ _ _ _ perm_ perm_ perm_ perm_ _ _ Hr) as HN.
    unfold NumPods. rw (RM_Len _ _ _ (ni_pods _ _ _ _ HN)). vm_compute. reflexivity.
Defined.

Lemma occupiable_resources_exact_witness :
  ∃ n' res, GetOccupiableResources (NewPartitionInfo 0 9 GuaranteedPod) one_pod = Some (n', res) ∧ MilliCPU res = 0%Z.
Proof.
  destruct (occupiable_resources_exact map_to_list all_gates (λ _, ∅) map_to_list map_to_list map_to_list Atoi
    perm_ perm_ perm_ perm_ one_pod _ (NewPartitionInfo 0 9 GuaranteedPod) reach_one) as (n' & res & E & _ & H & _).
  exists n', res. split; [exact E|]. etransitivity; [exact H|]. vm_compute. reflexivity.
Defined.

Lemma used_ports_exact_witness : PortsOK one_pod (<["a" := bound_info "a" 5 100]> ∅).
Proof.
  destruct (used_ports_exact map_to_list all_gates (λ _, ∅) map_to_list map_to_list map_to_list Atoi
    perm_ perm_ perm_ perm_ empty_node ∅ reach_empty) as [H _].
  - intros ip pp. split; [intros (m & Hm & _)|intros (k & p & Hp & _)].
    + vm_compute in Hm. discriminate Hm.
    + rw lookup_empty in Hp. discriminate Hp.
  - apply (H (bound_pod "a" 5 100) one_pod eq_refl); [intros t Ht; discriminate Ht|apply one_pod_eq].
Defined.

Definition nd_example : Node :=
  {| node_Name := "n"; node_Labels := ∅; node_Annotations := ∅; node_Unschedulable := false; node_Taints := [];
     node_Conditions := []; node_Images := []; node_Allocatable := {[ResourceMemory := NewQuantity 10]}; node_Capacity := ∅ |}.
Definition nm_example : NMNode :=
  {| nm_Name := "n"; nm_Labels := ∅; nm_Annotations := ∅; nm_Conditions := []; nm_Taints := []; nm_ResourceAllocatable := Some {[ResourceMemory := NewQuantity 5]};
     nm_ResourceCapacity := Some {[ResourceMemory := NewQuantity 8]} |}.

Lemma guaranteed_allocatable_merge_witness :
  Memory (getAllocatableResources map_to_list all_gates nd_example nm_example) = 7%Z.
Proof.
  destruct (guaranteed_allocatable_merge map_to_list all_gates nd_example nm_example DMem (λ _, Permutation_refl _)) as [H _].
  etransitivity; [exact H|]. vm_compute. reflexivity.
Defined.

(** A pod that is added twice is counted twice and stored once. *)
Example add_twice_counts_twice :
  ∃ n, add_ (bound_pod "a" 5 100) one_pod = Some n ∧ MilliCPU (GuaranteedRequested n) = 200%Z ∧ NumPods n = 1%Z.
Proof. eexists. split; [vm_compute; reflexivity|]. split; vm_compute; reflexivity. Qed.

(** Two pods that use the same host port: removing one frees the port of the
    other. *)
Definition port_pod (uid : string) : Pod :=
  {| Name := uid; Namespace := "ns"; UID := uid; CreationTimestamp := 0; Annotations := None;
     OwnerReferences := []; NodeName := "node"; SchedulerName := ""; PriorityClassName := "";
     Priority := Some 5%Z; PreemptionPolicy := None;
     Containers := [{| c_Name := "c"; c_Requests := ∅; c_Ports := [{| HostIP := ""; Protocol := ""; HostPort := 80 |}] |}];
     InitContainers := []; Conditions := []; Labels := ∅; Tolerations := []; Affinity := None;
     Overhead := None; StartTime := None; DeletionTimestamp := None |}.

Example shared_port_is_freed :
  ∃ n1 n2 n3, add_ (port_pod "a") empty_node = Some n1 ∧ add_ (port_pod "b") n1 = Some n2
    ∧ remove_ (port_pod "a") false n2 = Some (n3, None) ∧ NumPods n3 = 1%Z
    ∧ CheckConflict "" "" 80 (UsedPorts n3) = false.
Proof.
  eexists _, _, _. split; [vm_compute; reflexivity|]. split; [vm_compute; reflexivity|].
  split; [vm_compute; reflexivity|]. split; vm_compute; reflexivity.
Qed.
End NodeExamples.
