(* ===== verification/Framework.v ===== *)
(** * Statuses and the filter plugins of the scheduling framework

    [Code], [Status] and [PluginToStatus.Merge] (pkg/framework/api/interface.go),
    and the part of pkg/scheduler/framework/runtime/framework.go that runs the
    filter plugins on a node: [RunFilterPlugins] and [PodPassesFiltersOnNode].

    Of a status only the code is kept; its reasons are texts for logs and events.
    [None] is the nil status, which counts as a success but is not equal to the
    status [Success].  The cycle state is a record of the entries that the modelled
    plugins write and read; no plugin of the repository has PreFilter extensions,
    so adding or removing a pod does not change it. *)
From S2P Require Import Prelude GoStrings PodModel PodState HashSlice Resource MicroTopo PodInfos Numa NodeInfo.

Local Open Scope godel_scope.
Local Open Scope string_scope.

(** ** Status codes *)

Inductive Code :=
  | Success | Error | Unschedulable | UnschedulableAndUnresolvable | Wait | Skip
  | PreemptionSucceed | PreemptionFail | PreemptionNotSure.
#[export] Instance Code_eq_dec : EqDecision Code.
Proof. solve_decision. Defined.

Definition code_index (c : Code) : nat :=
  match c with
  | Success => 0 | Error => 1 | Unschedulable => 2 | UnschedulableAndUnresolvable => 3 | Wait => 4 | Skip => 5
  | PreemptionSucceed => 6 | PreemptionFail => 7 | PreemptionNotSure => 8
  end.
Definition codes : list string :=
  ["Success"; "Error"; "Unschedulable"; "UnschedulableAndUnresolvable"; "Wait"; "Skip"; "PreemptionFail"; "PreemptionNotSure"].
(** [Code.String]; [None] is an index out of range. *)
Definition Code_String (c : Code) : option string := codes !! code_index c.

Definition Status : Type := option Code.
Definition code_of (s : Status) : Code := default Success s.
Definition IsSuccess (s : Status) : bool := code_of s ≟ Success.
Definition IsUnschedulable (s : Status) : bool := (code_of s ≟ Unschedulable) || (code_of s ≟ UnschedulableAndUnresolvable).

Definition PluginToStatus : Type := gmap string Status.

(** ** Cycle state *)

(** [PodRequest] of pkg/plugins/noderesources. *)
Record PodRequest := {
  pr_Resource : Resource; pr_ResourceType : option PodResourceType; pr_IgnorePodsLimit : bool; pr_Err : bool
}.
Record CycleState := {
  cs_Fit : option PodRequest;
  cs_NodePorts : option (list ContainerPort);
  cs_Priority : option Z;
  cs_PDB : option (gmap string (list nat));
  cs_ResourceType : option PodResourceType
}.
Definition NewCycleState : CycleState :=
  {| cs_Fit := None; cs_NodePorts := None; cs_Priority := None; cs_PDB := None; cs_ResourceType := None |}.
Definition cs_set_Fit (r : PodRequest) (cs : CycleState) : CycleState :=
  {| cs_Fit := Some r; cs_NodePorts := cs_NodePorts cs; cs_Priority := cs_Priority cs; cs_PDB := cs_PDB cs; cs_ResourceType := cs_ResourceType cs |}.
Definition cs_set_NodePorts (l : list ContainerPort) (cs : CycleState) : CycleState :=
  {| cs_Fit := cs_Fit cs; cs_NodePorts := Some l; cs_Priority := cs_Priority cs; cs_PDB := cs_PDB cs; cs_ResourceType := cs_ResourceType cs |}.
Definition cs_set_Priority (v : Z) (cs : CycleState) : CycleState :=
  {| cs_Fit := cs_Fit cs; cs_NodePorts := cs_NodePorts cs; cs_Priority := Some v; cs_PDB := cs_PDB cs; cs_ResourceType := cs_ResourceType cs |}.
Definition cs_set_PDB (m : gmap string (list nat)) (cs : CycleState) : CycleState :=
  {| cs_Fit := cs_Fit cs; cs_NodePorts := cs_NodePorts cs; cs_Priority := cs_Priority cs; cs_PDB := Some m; cs_ResourceType := cs_ResourceType cs |}.

(** ** Running the filter plugins *)

Record FilterPlugin := { fp_Name : string; fp_Filter : CycleState → Pod → NodeInfo → Status }.

Definition WatchNodeNameLabelName : string := "godel.bytedance.com/watch-node-label".
Definition GetPodDebugMode (p : Pod) : string := default "off" (anno_lookup p DebugModeAnnotationKey).
Definition GetPodWatchLabelValueString (p : Pod) : string := default "" (anno_lookup p WatchNodeNameLabelName).
Definition CheckIfNodeLabelsInSpecifiedLabels (labels requiredLabels : gmap string string) : bool :=
  bool_decide (map_Forall (λ k v, default "" (labels !! k) = v) requiredLabels).

Section filters.
Context {MR : MapRange}.
(** The JSON decoder of the watched labels; nothing decoded is no label. *)
Context (jsonLabels : string → gmap string string).
Implicit Types (cs : CycleState) (p : Pod) (n : NodeInfo).

(** Whether the loop goes on after a failed plugin, to log every failure. *)
Definition fitLabelFlag p n : bool :=
  (GetPodDebugMode p ≟ "on") &&
  match GetPodLauncher p with
  | Some Kubelet =>
      match ni_Node n with
      | Some nd => CheckIfNodeLabelsInSpecifiedLabels (node_Labels nd) (jsonLabels (GetPodWatchLabelValueString p))
      | None => false end
  | Some NodeManager =>
      match ni_NMNode n with
      | Some nm => CheckIfNodeLabelsInSpecifiedLabels (nm_Labels nm) (jsonLabels (GetPodWatchLabelValueString p))
      | None => false end
  | None => false
  end.

Definition pick_status (finalStatus statuses : PluginToStatus) : PluginToStatus :=
  if negb (size finalStatus ≟ 0%nat) then finalStatus else statuses.

Fixpoint filter_loop cs p n (skipPlugins : gset string) (pls : list FilterPlugin) (finalStatus statuses : PluginToStatus)
    : PluginToStatus :=
  match pls with
  | [] => pick_status finalStatus statuses
  | pl :: pls' =>
      if bool_decide (fp_Name pl ∈ skipPlugins) then filter_loop cs p n skipPlugins pls' finalStatus statuses
      else
        let pluginStatus := fp_Filter pl cs p n in
        if IsSuccess pluginStatus then
          filter_loop cs p n skipPlugins pls' finalStatus (<[fp_Name pl := pluginStatus]> statuses)
        else
          let finalStatus := if negb (IsUnschedulable pluginStatus) && (size finalStatus ≟ 0%nat)
                             then {[fp_Name pl := Some Error]} else finalStatus in
          let statuses := if IsUnschedulable pluginStatus then <[fp_Name pl := pluginStatus]> statuses else statuses in
          if negb (fitLabelFlag p n) then pick_status finalStatus statuses
          else filter_loop cs p n skipPlugins pls' finalStatus statuses
  end.
Definition RunFilterPlugins (pls : list FilterPlugin) cs p n (skipPlugins : list string) : PluginToStatus :=
  filter_loop cs p n (list_to_set skipPlugins) pls ∅ ∅.

(** The code of the merged status: the last one visited, unless one failed. *)
Definition Merge (m : PluginToStatus) : Status :=
  if size m ≟ 0%nat then None else
  let l := (range_map m).*2 in
  let has c := existsb (λ s, code_of s ≟ c) l in
  Some (if has Error then Error
        else if has UnschedulableAndUnresolvable then UnschedulableAndUnresolvable
        else if has Unschedulable then Unschedulable
        else foldl (λ _ s, code_of s) Success l).

Definition PodPassesFiltersOnNode (pls : list FilterPlugin) cs p n (skipPlugins : list string) : bool * PluginToStatus :=
  let statusMap := RunFilterPlugins pls cs p n skipPlugins in
  (IsSuccess (Merge statusMap), statusMap).
End filters.

(** ** A pod passes exactly when every plugin that is not skipped succeeds *)

Section passes.
Context {MR : MapRange} {ML : MapRangeLaws MR} (jsonLabels : string → gmap string string).
Implicit Types (cs : CycleState) (p : Pod) (n : NodeInfo) (m : PluginToStatus).

Definition all_success m : Prop := ∀ k s, m !! k = Some s → IsSuccess s = true.

Lemma last_code (l : list Status) c : (∀ s, s ∈ l → IsSuccess s = true) → c = Success → foldl (λ _ s, code_of s) c l = Success.
Proof.
  revert c. induction l as [|s l IH]; intros c Hl Hc; [done|]. simpl. apply IH; [intros; apply Hl; by right|].
  assert (IsSuccess s = true) as Hs by (apply Hl; by left). by apply bool_decide_eq_true in Hs.
Qed.
Lemma last_code_any (l : list Status) c : foldl (λ _ s, code_of s) c l = c ∨ ∃ s, s ∈ l ∧ foldl (λ _ s, code_of s) c l = code_of s.
Proof.
  revert c. induction l as [|s l IH]; intros c; [by left|]. simpl. destruct (IH (code_of s)) as [->|(s' & ? & ->)]; right.
  - exists s. split; [by left|done].
  - exists s'. split; [by right|done].
Qed.

Lemma Merge_success m : (∀ k s, m !! k = Some s → IsSuccess s = true ∨ code_of s = Error ∨ IsUnschedulable s = true) →
  IsSuccess (Merge m) = true ↔ all_success m.
Proof.
  intros Hm. unfold Merge. case_bool_decide as Hz.
  { split; [|done]. intros _ k s. apply map_size_empty_inv in Hz as ->. by rw lookup_empty. }
  set (l := (range_map m).*2).
  assert (∀ s, s ∈ l ↔ ∃ k, m !! k = Some s) as Hl.
  { intros s. unfold l. rw list_elem_of_fmap. split.
    - intros ([k s'] & -> & Hin). apply range_elem in Hin. eauto.
    - intros [k Hk]. exists (k, s). split; [done|]. by apply range_elem. }
  assert (∀ c, existsb (λ s, code_of s ≟ c) l = true ↔ ∃ k s, m !! k = Some s ∧ code_of s = c) as Hex.
  { intros c. rw existsb_exists. setoid_rewrite <- list_elem_of_In. setoid_rewrite Hl. setoid_rewrite bool_decide_eq_true.
    naive_solver. }
  assert (∀ c, existsb (λ s, code_of s ≟ c) l = false → ∀ k s, m !! k = Some s → code_of s ≠ c) as Hno.
  { intros c Hc k s Hk He. assert (existsb (λ s, code_of s ≟ c) l = true) as H by (apply Hex; eauto). congruence. }
  assert (∀ c, c ≠ Success → existsb (λ s, code_of s ≟ c) l = true → ¬ all_success m) as Hfail.
  { intros c Hc (k & s & Hk & He)%Hex Hall. specialize (Hall k s Hk). apply bool_decide_eq_true in Hall. congruence. }
  destruct (existsb (λ s, code_of s ≟ Error) l) eqn:E1; [split; [done|]; intros H; by destruct (Hfail Error)|].
  destruct (existsb (λ s, code_of s ≟ UnschedulableAndUnresolvable) l) eqn:E2;
    [split; [done|]; intros H; by destruct (Hfail UnschedulableAndUnresolvable)|].
  destruct (existsb (λ s, code_of s ≟ Unschedulable) l) eqn:E3; [split; [done|]; intros H; by destruct (Hfail Unschedulable)|].
  assert (all_success m) as Hall.
  { intros k s Hk. destruct (Hm k s Hk) as [?|[He|Hu]]; [done|by destruct (Hno _ E1 k s Hk)|].
    unfold IsUnschedulable in Hu. apply orb_true_iff in Hu as [Hu|Hu]; apply bool_decide_eq_true in Hu;
      [by destruct (Hno _ E3 k s Hk)|by destruct (Hno _ E2 k s Hk)]. }
  split; [done|]. intros _. unfold IsSuccess. simpl. apply bool_decide_eq_true. apply last_code; [|done].
  intros s [k Hk]%Hl. by eapply Hall.
Qed.

Definition good_statuses m : Prop := ∀ k s, m !! k = Some s → IsSuccess s = true ∨ code_of s = Error ∨ IsUnschedulable s = true.

Lemma good_insert m k s : good_statuses m → IsSuccess s = true ∨ code_of s = Error ∨ IsUnschedulable s = true → good_statuses (<[k := s]> m).
Proof. intros Hm Hs k' s'. rw lookup_insert_Some. intros [[_ <-]|[_ ?]]; [done|by eapply Hm]. Qed.

Lemma pick_fails (F S : PluginToStatus) : good_statuses F → good_statuses S → (F ≠ ∅ → ¬ all_success F) → ¬ (F = ∅ ∧ all_success S) →
  IsSuccess (Merge (pick_status F S)) = false.
Proof.
  intros HF HS HnF Hno. apply not_true_iff_false. unfold pick_status. case_bool_decide as Hz; simpl.
  - apply map_size_empty_inv in Hz. rw Merge_success //. by intros ?; apply Hno.
  - rw Merge_success //. intros ?. apply HnF; [|done]. intros ->. by rw map_size_empty in Hz.
Qed.

Definition passes (pls : list FilterPlugin) cs p n (skip : gset string) : bool :=
  forallb (λ pl, bool_decide (fp_Name pl ∈ skip) || IsSuccess (fp_Filter pl cs p n)) pls.

Lemma filter_loop_success cs p n skip pls : ∀ F S,
  good_statuses F → good_statuses S → (F ≠ ∅ → ¬ all_success F) → NoDup (fp_Name <$> pls) →
  (∀ pl, pl ∈ pls → S !! fp_Name pl = None) →
  IsSuccess (Merge (filter_loop jsonLabels cs p n skip pls F S)) = true ↔ F = ∅ ∧ all_success S ∧ passes pls cs p n skip = true.
Proof.
  induction pls as [|pl pls IH]; intros F S HF HS HnF HND Hfresh; simpl.
  { split.
    - intros H. destruct (decide (F = ∅)) as [->|Hne].
      + unfold pick_status in H. rw map_size_empty in H. simpl in H. apply Merge_success in H; [auto|done].
      + rw pick_fails in H; [done..|]. by intros [? _].
    - intros (-> & Hall & _). unfold pick_status. rw map_size_empty. simpl. by apply Merge_success. }
  simpl in HND. apply NoDup_cons in HND as [Hni HND].
  assert (∀ pl', pl' ∈ pls → S !! fp_Name pl' = None) as Hfr by (intros; apply Hfresh; by right).
  assert (∀ s pl', pl' ∈ pls → <[fp_Name pl := s]> S !! fp_Name pl' = None) as Hfr'.
  { intros s pl' Hin. rw lookup_insert_ne; [by apply Hfr|]. intros Heq. apply Hni. rw Heq. by apply list_elem_of_fmap_2. }
  destruct (bool_decide (fp_Name pl ∈ skip)); simpl; [by apply IH|].
  destruct (IsSuccess (fp_Filter pl cs p n)) eqn:Es; simpl.
  { rw IH //; [|by apply good_insert; auto|by apply Hfr']. split; intros (-> & Hall & ?); split_and!; try done.
    - intros k s Hk. destruct (decide (k = fp_Name pl)) as [->|Hne].
      + assert (S !! fp_Name pl = None) as H0 by (apply Hfresh; by left). congruence.
      + apply (Hall k). by rw lookup_insert_ne.
    - intros k s. rw lookup_insert_Some. intros [[_ <-]|[_ ?]]; [done|by eapply Hall]. }
  set (F' := if _ && _ then _ else F). set (S' := if IsUnschedulable _ then _ else S).
  assert (good_statuses F') as HF'.
  { unfold F'. destruct (_ && _); [|done]. intros k s [<- <-]%lookup_singleton_Some. auto. }
  assert (good_statuses S') as HS'.
  { unfold S'. destruct (IsUnschedulable _) eqn:Eu; [|done]. apply good_insert; auto. }
  assert (F' ≠ ∅ → ¬ all_success F') as HnF'.
  { unfold F'. destruct (_ && _); [|done]. intros _ Hall. by specialize (Hall (fp_Name pl) (Some Error) (lookup_singleton_eq _ _)). }
  assert (¬ (F' = ∅ ∧ all_success S')) as Hno.
  { intros [HFe Hall]. unfold F', S' in *. destruct (IsUnschedulable (fp_Filter pl cs p n)) eqn:Eu; simpl in HFe.
    - specialize (Hall (fp_Name pl) _ (lookup_insert_eq _ _ _)). congruence.
    - case_bool_decide as Hz; [|subst F; by rw map_size_empty in Hz].
      assert (size ({[fp_Name pl := Some Error]} : PluginToStatus) = 0%nat) as H0 by (rw HFe; apply map_size_empty).
      by rw map_size_singleton in H0. }
  destruct (fitLabelFlag jsonLabels p n); simpl.
  - rw IH //.
    + split; [|by intros (_ & _ & ?)]. intros (? & ? & _). by destruct Hno.
    + unfold S'. destruct (IsUnschedulable _); [by apply Hfr'|by apply Hfr].
  - rw pick_fails //. split; [done|]. by intros (_ & _ & ?).
Qed.

Lemma passes_spec pls cs p n skip : NoDup (fp_Name <$> pls) →
  (PodPassesFiltersOnNode jsonLabels pls cs p n skip).1 = passes pls cs p n (list_to_set skip).
Proof.
  intros HND. apply Bool.eq_iff_eq_true. unfold PodPassesFiltersOnNode, RunFilterPlugins. cbn [fst].
  rw filter_loop_success //; [|intros k s; by rw lookup_empty..]. split; [by intros (_ & _ & ?)|].
  intros H. split_and!; [done| |done]. intros k s. by rw lookup_empty.
Qed.

(** A success in the status map is the success of a plugin of that name. *)
Definition from_plugin (l : list FilterPlugin) cs p n m : Prop :=
  ∀ k s, m !! k = Some s → IsSuccess s = true → ∃ pl, pl ∈ l ∧ fp_Name pl = k ∧ IsSuccess (fp_Filter pl cs p n) = true.

Lemma statuses_sound l cs p n skip pls : (∀ pl, pl ∈ pls → pl ∈ l) → ∀ F S,
  from_plugin l cs p n F → from_plugin l cs p n S → from_plugin l cs p n (filter_loop jsonLabels cs p n skip pls F S).
Proof.
  assert (∀ F S, from_plugin l cs p n F → from_plugin l cs p n S → from_plugin l cs p n (pick_status F S)) as Hpick
    by (intros F S HF HS; unfold pick_status; by case_bool_decide).
  induction pls as [|pl pls IH]; intros Hl F S HF HS; simpl; [by apply Hpick|].
  assert (∀ pl, pl ∈ pls → pl ∈ l) as Hl' by (intros; apply Hl; by right).
  destruct (bool_decide (fp_Name pl ∈ skip)); [by apply IH|].
  destruct (IsSuccess (fp_Filter pl cs p n)) eqn:Es.
  { apply IH; [done|done|]. intros k s. rw lookup_insert_Some. intros [[<- <-]|[_ Hk]]; [|by eapply HS].
    intros _. exists pl. split_and!; [apply Hl; by left|done|done]. }
  set (F' := if _ && _ then _ else F). set (S' := if IsUnschedulable _ then _ else S).
  assert (from_plugin l cs p n F') as HF'.
  { unfold F'. destruct (_ && _); [|done]. by intros k s [<- <-]%lookup_singleton_Some. }
  assert (from_plugin l cs p n S') as HS'.
  { unfold S'. destruct (IsUnschedulable _) eqn:Eu; [|done]. intros k s. rw lookup_insert_Some. intros [[<- <-]|[_ Hk]]; [congruence|by eapply HS]. }
  destruct (fitLabelFlag jsonLabels p n); simpl; [by apply IH|by apply Hpick].
Qed.
End passes.
