(* ===== verification/NodeClone.v ===== *)
(** * Cloning the information about a node (pkg/framework/api/nodeinfo.go)

    [NodeInfoImpl.Clone] and the [clone] methods of the NUMA status: the copy a
    snapshot takes of a node of the cache.  Each map is rebuilt entry by entry
    in the order the runtime visits it; the copy holds the same values, and the
    pods of the maintainer are the same map of pods. *)
From S2P Require Import Prelude GoStrings PodModel PodState Splay SplayRefine SplayProps SplaySpec HashSlice Resource MicroTopo PodInfos PodInfosProps Numa NumaProps NodeInfo NodeInfoProps.

Local Open Scope godel_scope.
Local Open Scope string_scope.

Section clone.
Context {MR : MapRange}.

(** [ResourceStatus.clone]: the users are inserted one by one into a new set. *)
Definition status_clone (s : ResourceStatus) : ResourceStatus :=
  mkStatus (Allocatable s) (Available s) (list_to_set (elements (Users s))).

Definition numaStatus_clone (st : NumaStatus) : NumaStatus :=
  mkNuma (socketId st) (foldl (λ acc kv, <[kv.1 := status_clone kv.2]> acc) ∅ (range_map (resourceStatuses st))).

(** One iteration of the loop over the allocations; a resource list is copied
    by [DeepCopy]. *)
Definition allocation_clone (a : PodAllocation) : PodAllocation :=
  mkAllocation (agent a) (foldl (λ acc kv, <[kv.1 := kv.2]> acc) ∅ (range_map (numaAllocations a))).

Definition topology_clone (n : NumaTopologyStatus) : NumaTopologyStatus :=
  let clone := newNumaTopologyStatus (Resource.Clone (map_range _ _ _ _) (requestsOfSharedCores n)) in
  let clone := set_available (Resource.Clone (map_range _ _ _ _) (availableOfSharedCores n)) clone in
  let clone := set_podAllocations
    (foldl (λ acc kv, <[kv.1 := allocation_clone kv.2]> acc) (podAllocations clone) (range_map (podAllocations n))) clone in
  let clone := set_topology
    (foldl (λ acc kv, <[kv.1 := numaStatus_clone kv.2]> acc) (topology clone) (range_map (topology n))) clone in
  set_free
    (foldl (λ (acc : gmap Z (gset Z)) kv, <[kv.1 := default ∅ (acc !! kv.1) ∪ list_to_set (elements kv.2)]> acc)
       (socketToFreeNumasOfConflictResources clone) (range_map (socketToFreeNumasOfConflictResources n))) clone.

(** [UsedPorts] is a map of maps, copied in two loops. *)
Definition ports_clone (h : HostPortInfo) : HostPortInfo :=
  foldl (λ acc kv, <[kv.1 := list_to_set (elements kv.2)]> acc) ∅ (range_map h).

Definition node_Clone (n : NodeInfo) : option NodeInfo :=
  m ← m_Clone (map_range _ _ _ _) (map_range _ _ _ _) (map_range _ _ _ _) (Maintainer n);
  let rc := Resource.Clone (map_range _ _ _ _) in
  Some (mkNodeInfo (ni_Node n) (ni_NMNode n) (ni_CNR n) (NodeInSchedulerPartition n) (NMNodeInSchedulerPartition n)
          m (ports_clone (UsedPorts n)) (rc (GuaranteedRequested n)) (rc (GuaranteedNonZeroRequested n))
          (rc (GuaranteedAllocatable n)) (rc (GuaranteedCapacity n)) (rc (GuaranteedReserved n))
          (rc (BestEffortRequested n)) (rc (BestEffortNonZeroRequested n)) (rc (BestEffortAllocatable n))
          (Generation n) (topology_clone <$> NumaStatus_ n) (ImageStates n)).
End clone.

Section clone_props.
Context {MR : MapRange} {ML : MapRangeLaws MR}.

Lemma list_to_set_elements_id `{Countable A} (X : gset A) : list_to_set (elements X) = X.
Proof. apply list_to_set_elements_L. Qed.

Lemma fmap_id_map `{Countable K} {A} (f : A → A) (m : gmap K A) : (∀ x, f x = x) → f <$> m = m.
Proof. intros Hf. rw -{2}(map_fmap_id m). by apply map_fmap_ext. Qed.

Lemma Resource_Clone_id r : Resource.Clone (map_range _ _ _ _) r = r.
Proof.
  destruct r as [c m e p [s|]]; unfold Resource.Clone; simpl; [|done]. do 2 f_equal. apply range_copy.
Qed.

Lemma status_clone_id s : status_clone s = s.
Proof. destruct s. unfold status_clone; simpl. by rw list_to_set_elements_id. Qed.
Lemma numaStatus_clone_id st : numaStatus_clone st = st.
Proof.
  destruct st as [i m]. unfold numaStatus_clone; simpl. f_equal. rw range_copy_fmap. apply fmap_id_map, status_clone_id.
Qed.
Lemma allocation_clone_id a : allocation_clone a = a.
Proof. destruct a. unfold allocation_clone; simpl. f_equal. apply range_copy. Qed.

(** Inserting into the set of a socket that is visited once. *)
Lemma free_clone_id (f : gmap Z (gset Z)) :
  foldl (λ (acc : gmap Z (gset Z)) kv, <[kv.1 := default ∅ (acc !! kv.1) ∪ list_to_set (elements kv.2)]> acc) ∅ (range_map f) = f.
Proof.
  assert (∀ (l : list (Z * gset Z)) (a : gmap Z (gset Z)), NoDup l.*1 → (∀ k, k ∈ l.*1 → a !! k = None) →
    foldl (λ (acc : gmap Z (gset Z)) kv, <[kv.1 := default ∅ (acc !! kv.1) ∪ list_to_set (elements kv.2)]> acc) a l
    = foldl (λ acc kv, <[kv.1 := kv.2]> acc) a l) as Hl.
  { clear. induction l as [|[k X] l IH]; intros a; simpl; [done|]. intros [Hk HND]%NoDup_cons Ha.
    rw (Ha k); [|set_solver]. simpl. rw left_id_L list_to_set_elements_id. apply IH; [done|].
    intros k' Hk'. rw lookup_insert_ne; [apply Ha; set_solver|]. by intros ->. }
  rw Hl; [apply range_copy|apply range_nodup|]. intros k _. apply lookup_empty.
Qed.

Lemma topology_clone_id n : topology_clone n = n.
Proof.
  destruct n. unfold topology_clone, newNumaTopologyStatus; simpl. unfold set_available, set_podAllocations, set_topology, set_free; simpl.
  rw !Resource_Clone_id free_clone_id (range_copy_fmap allocation_clone) (range_copy_fmap numaStatus_clone) !fmap_id_map //;
    [apply numaStatus_clone_id|apply allocation_clone_id].
Qed.

Lemma ports_clone_id h : ports_clone h = h.
Proof. unfold ports_clone. rw (range_copy_fmap (λ X : gset ProtocolPort, list_to_set (elements X))). apply fmap_id_map. intros. apply list_to_set_elements_id. Qed.

Lemma set_maintainer_eta n : set_maintainer (Maintainer n) n = n.
Proof. by destruct n. Qed.

(** The clone differs from the node at most in how its pods are laid out. *)
Lemma node_Clone_eq n n' : node_Clone n = Some n' → n' = set_maintainer (Maintainer n') n.
Proof.
  unfold node_Clone. destruct (m_Clone _ _ _ _) as [m|]; [|done]. cbn [mbind option_bind]. intros [= <-].
  simpl. unfold set_maintainer; simpl. rw ports_clone_id !Resource_Clone_id. do 2 f_equal.
  destruct (NumaStatus_ n); simpl; [by rw topology_clone_id|done].
Qed.

Lemma NI_maintainer order gates n P m :
  NI order gates n P → RM gates m P → NI order gates (set_maintainer m n) P.
Proof. intros [] ?. by split. Qed.

Lemma NI_Clone order gates n P :
  NI order gates n P → ∃ n', node_Clone n = Some n' ∧ NI order gates n' P ∧ n' = set_maintainer (Maintainer n') n.
Proof.
  intros HN. destruct (RM_Clone gates (map_range _ _ _ _) (map_range _ _ _ _) (map_range _ _ _ _) (Maintainer n) P)
    as (m' & Em & Hm & _); [intros; apply map_range_perm..|by apply (ni_pods _ _ _ _ HN)|].
  destruct (node_Clone n) as [n'|] eqn:E.
  - exists n'. split; [done|]. pose proof (node_Clone_eq _ _ E) as Hn'. split; [|done]. rw Hn'.
    apply NI_maintainer; [done|]. unfold node_Clone in E. rw Em in E. cbn [mbind option_bind] in E. by injection E as <-.
  - unfold node_Clone in E. by rw Em in E.
Qed.
End clone_props.
