(* ===== verification/NodeStore.v ===== *)
(** * The node store of the scheduler (pkg/scheduler/cache/commonstores/node_store)

    [NodeStore] holds the information about every node the scheduler knows: in
    the cache, where the informers' events and the assumed pods arrive, and in a
    snapshot.  The two differ in the generation store that holds the objects and
    in the functions called after a node is added or deleted, which are
    parameters here: [hooks] is the state these functions work on.

    A result is [None] for a panic; otherwise the new store and the error.  What
    the code logs is left out. *)
From S2P Require Import Prelude GoStrings PodModel PodState GenStore StoreI Splay HashSlice Resource MicroTopo PodInfos Numa NodeInfo NodeClone.

Local Open Scope godel_scope.
Local Open Scope string_scope.

#[export] Instance node_stored : StoredOps NodeInfo :=
  {| GetGeneration := Generation; StoreI.SetGeneration := NodeInfo.SetGeneration |}.
#[export] Instance node_stored_laws : StoredLaws NodeInfo.
Proof. split; [done|by intros []|by intros g g' []]. Qed.

(** What the stores get from their handler and from the rest of the program:
    feature gates, decoders, and the names of the component. *)
Record Config := {
  cf_gates : FeatureGates;
  cf_nonNative : bool;
  cf_json : string → gmap string string;
  cf_parse : string → option Quantity;
  (** The node name in a nominated-node annotation; [None] if it is no JSON. *)
  cf_nominated : string → option string;
  ComponentName : string;
  SchedulerType : string
}.

Inductive StoreType := Cache | Snapshot.

(** The errors of the stores of a cache. *)
Inductive StoreError :=
  | NodeNotFound | NodeErr (e : NodeError) | PodKeyErr
  | AlreadyAdded | NotInCache | AlreadyInCache | NotAssumed.

Record Victims := { victim_Pods : list Pod }.
Record CachePodInfo := { cp_Pod : Pod; cp_Victims : option Victims }.

Record imageState := { img_size : Z; img_nodes : gset string }.

Definition GodelSchedulerNodeAnnotationKey : string := "godel.bytedance.com/scheduler-name".
Definition NodeOfThisScheduler (annotations : gmap string string) (schedulerName : string) : bool :=
  bool_decide (annotations !! GodelSchedulerNodeAnnotationKey = Some schedulerName).

Definition GetNodeNameFromPod (cf : Config) (p : Pod) : string :=
  if negb (NodeName p ≟ "") then NodeName p
  else if negb (anno p AssumedNodeAnnotationKey ≟ "") then anno p AssumedNodeAnnotationKey
  else if negb (anno p NominatedNodeAnnotationKey ≟ "") then
    default "" (cf_nominated cf (anno p NominatedNodeAnnotationKey))
  else "".

Section node_store.
Context {MR : MapRange} (cf : Config).
Context {S H : Type} `{!Store S NodeInfo}.
Context (AfterAdd AfterDelete : string → NodeInfo → H → option H).

Record NodeStore := mkNodeStore {
  storeType : StoreType;
  Store_ : S;
  Deleted : gset string;
  imageStates : gmap string imageState;
  hooks : H
}.
Implicit Types (s : NodeStore) (n : NodeInfo) (nd : Node) (nm : NMNode).

Definition with_Store (st : S) s : NodeStore := mkNodeStore (storeType s) st (Deleted s) (imageStates s) (hooks s).
Definition with_Deleted (d : gset string) s : NodeStore := mkNodeStore (storeType s) (Store_ s) d (imageStates s) (hooks s).
Definition with_images (i : gmap string imageState) s : NodeStore := mkNodeStore (storeType s) (Store_ s) (Deleted s) i (hooks s).
Definition with_hooks (h : H) s : NodeStore := mkNodeStore (storeType s) (Store_ s) (Deleted s) (imageStates s) h.

(** The methods of a node, at the parameters of this store. *)
Abbreviation ord := (λ m, range_map m).
Abbreviation gates := (cf_gates cf).
Definition node_new : option NodeInfo :=
  NewNodeInfo ord gates (cf_json cf) ord ord (cf_parse cf) (cf_nonNative cf) [].
Definition node_AddPod (p : Pod) n : option NodeInfo :=
  NodeInfo.AddPod ord gates (cf_json cf) ord ord (cf_parse cf) p n.
Definition node_RemovePod (p : Pod) (preempt : bool) n : option (NodeInfo * option NodeError) :=
  NodeInfo.RemovePod ord gates ord ord (cf_parse cf) p preempt n.
Definition node_SetNode nd n : NodeInfo := SetNode ord gates nd n.
Definition node_SetNMNode nm n : NodeInfo := SetNMNode ord gates nm n.
Definition node_RemoveNode n : NodeInfo := RemoveNode ord gates n.
Definition node_RemoveNMNode n : NodeInfo := RemoveNMNode ord gates n.
Definition node_SetCNR (c : CNR) n : option NodeInfo := SetCNR ord gates ord ord ord (cf_parse cf) c n.

(** ** The store below *)

Definition ns_Get (name : string) s : option (option NodeInfo) := st_Get name (Store_ s).
Definition ns_Len s : nat := st_Len (Store_ s).
Definition ns_Set (name : string) n s : option NodeStore :=
  st ← st_Set name n (Store_ s); Some (with_Store st s).
Definition store_Delete (name : string) s : option NodeStore :=
  st ← st_Delete name (Store_ s); Some (with_Store st s).
(** Changing a node that is in the store. *)
Definition ns_Write (name : string) n s : option NodeStore :=
  st ← st_Write name n (Store_ s); Some (with_Store st s).

(** [Add] and [Delete] call the functions set by the owner of the store. *)
Definition ns_Add (name : string) n s : option NodeStore :=
  s ← ns_Set name n s; h ← AfterAdd name n (hooks s); Some (with_hooks h s).
Definition ns_Delete (name : string) n s : option NodeStore :=
  s ← store_Delete name s; h ← AfterDelete name n (hooks s); Some (with_hooks h s).

(** ** Image states *)

Definition createImageStateSummary (state : imageState) : ImageStateSummary :=
  {| is_Size := img_size state; is_NumNodes := Z.of_nat (size (img_nodes state)) |}.

(** One name of an image on the node. *)
Definition add_image (nodeName : string) (sizeBytes : Z)
    (acc : gmap string imageState * gmap string ImageStateSummary) (name : string)
    : gmap string imageState * gmap string ImageStateSummary :=
  let '(states, newSum) := acc in
  let state := match states !! name with
               | None => {| img_size := sizeBytes; img_nodes := {[nodeName]} |}
               | Some st => {| img_size := img_size st; img_nodes := {[nodeName]} ∪ img_nodes st |}
               end in
  (<[name := state]> states,
   match newSum !! name with Some _ => newSum | None => <[name := createImageStateSummary state]> newSum end).

Definition addNodeImageStates nd n s : NodeStore * NodeInfo :=
  let '(states, newSum) :=
    foldl (λ acc image, foldl (add_image (node_Name nd) (image_SizeBytes image)) acc (image_Names image))
      (imageStates s, ∅) (node_Images nd) in
  (with_images states s, SetImageStates newSum n).

Definition remove_image (nodeName : string) (states : gmap string imageState) (name : string) : gmap string imageState :=
  match states !! name with
  | None => states
  | Some st =>
      let nodes := img_nodes st ∖ {[nodeName]} in
      if size nodes ≟ 0%nat then delete name states
      else <[name := {| img_size := img_size st; img_nodes := nodes |}]> states
  end.

Definition removeNodeImageStates (o : option Node) s : NodeStore :=
  match o with
  | None => s
  | Some nd =>
      with_images (foldl (λ acc image, foldl (remove_image (node_Name nd)) acc (image_Names image))
        (imageStates s) (node_Images nd)) s
  end.

(** ** Nodes *)

Definition AddNode nd s : option (NodeStore * option StoreError) :=
  o ← ns_Get (node_Name nd) s;
  '(n, s) ← (match (o : option NodeInfo) with
             | Some n =>
                 let s := removeNodeImageStates (ni_Node n) s in
                 let s := with_Deleted (Deleted s ∖ {[node_Name nd]}) s in
                 s ← ns_Delete (node_Name nd) n s; Some (n, s)
             | None => n ← node_new; Some (n, s)
             end);
  let '(s, n) := addNodeImageStates nd n s in
  let n := SetNodeInSchedulerPartition (NodeOfThisScheduler (node_Annotations nd) (ComponentName cf)) n in
  let n := node_SetNode nd n in
  s ← ns_Add (node_Name nd) n s;
  Some (s, None).

Definition AddNMNode nm s : option (NodeStore * option StoreError) :=
  o ← ns_Get (nm_Name nm) s;
  '(n, s) ← (match (o : option NodeInfo) with
             | Some n =>
                 let s := with_Deleted (Deleted s ∖ {[nm_Name nm]}) s in
                 s ← ns_Delete (nm_Name nm) n s; Some (n, s)
             | None => n ← node_new; Some (n, s)
             end);
  let n := SetNMNodeInSchedulerPartition (NodeOfThisScheduler (nm_Annotations nm) (ComponentName cf)) n in
  let n := node_SetNMNode nm n in
  s ← ns_Add (nm_Name nm) n s;
  Some (s, None).

Definition AddCNR (c : CNR) s : option (NodeStore * option StoreError) :=
  o ← ns_Get (cnr_Name c) s;
  n ← (match (o : option NodeInfo) with Some n => Some n | None => node_new end);
  n ← node_SetCNR c n;
  s ← ns_Set (cnr_Name c) n s;
  Some (s, None).

(** The update handlers have the same bodies: the old object is not used. *)
Definition UpdateNode (oldNode newNode : Node) s : option (NodeStore * option StoreError) := AddNode newNode s.
Definition UpdateNMNode (oldNMNode newNMNode : NMNode) s : option (NodeStore * option StoreError) := AddNMNode newNMNode s.
Definition UpdateCNR (oldCNR newCNR : CNR) s : option (NodeStore * option StoreError) := AddCNR newCNR s.

(** A node whose last object is gone stays while it has pods or a custom node
    resource. *)
Definition DeleteNode nd s : option (NodeStore * option StoreError) :=
  o ← ns_Get (node_Name nd) s;
  match (o : option NodeInfo) with
  | None => Some (s, Some NodeNotFound)
  | Some n =>
      s ← ns_Delete (node_Name nd) n s;
      let n := node_RemoveNode n in
      let s := removeNodeImageStates (Some nd) s in
      if bool_decide (is_Some (ni_NMNode n)) then s ← ns_Add (node_Name nd) n s; Some (s, None)
      else if negb (NumPods n =? 0)%Z || bool_decide (is_Some (ni_CNR n)) then
        let s := with_Deleted ({[node_Name nd]} ∪ Deleted s) s in
        s ← ns_Set (node_Name nd) n s; Some (s, None)
      else Some (s, None)
  end.

Definition DeleteNMNode nm s : option (NodeStore * option StoreError) :=
  o ← ns_Get (nm_Name nm) s;
  match (o : option NodeInfo) with
  | None => Some (s, Some NodeNotFound)
  | Some n =>
      s ← ns_Delete (nm_Name nm) n s;
      let n := node_RemoveNMNode n in
      if bool_decide (is_Some (ni_Node n)) then s ← ns_Add (nm_Name nm) n s; Some (s, None)
      else if negb (NumPods n =? 0)%Z || bool_decide (is_Some (ni_CNR n)) then
        let s := with_Deleted ({[nm_Name nm]} ∪ Deleted s) s in
        s ← ns_Set (nm_Name nm) n s; Some (s, None)
      else Some (s, None)
  end.

(** The end of four handlers: a node with neither pods nor objects is dropped,
    any other is stored. *)
Definition keep_or_drop (name : string) n s : option NodeStore :=
  if (NumPods n =? 0)%Z && ObjectIsNil n
  then store_Delete name (with_Deleted (Deleted s ∖ {[name]}) s)
  else ns_Set name n s.

Definition DeleteCNR (c : CNR) s : option (NodeStore * option StoreError) :=
  o ← ns_Get (cnr_Name c) s;
  match (o : option NodeInfo) with
  | None => Some (s, Some NodeNotFound)
  | Some n => s ← keep_or_drop (cnr_Name c) (RemoveCNR n) s; Some (s, None)
  end.

Definition set_partition (b : bool) (name : string) s : option (NodeStore * option StoreError) :=
  o ← ns_Get name s;
  match (o : option NodeInfo) with
  | None => Some (s, Some NodeNotFound)
  | Some n =>
      s ← ns_Delete name n s;
      s ← ns_Add name (SetNodePartition b n) s;
      Some (s, None)
  end.
Definition SetNodeInPartition : string → NodeStore → option (NodeStore * option StoreError) := set_partition true.
Definition SetNodeOutOfPartition : string → NodeStore → option (NodeStore * option StoreError) := set_partition false.

Definition NodeInThisPartition (name : string) s : option bool :=
  o ← ns_Get name s;
  Some (match (o : option NodeInfo) with
        | None => false
        | Some n => NodeInSchedulerPartition n || NMNodeInSchedulerPartition n
        end).

(** ** Pods *)

(** The node is put back into the store, with a new generation, before it is
    changed. *)
Definition getOrCreateNode (name : string) s : option (NodeStore * NodeInfo) :=
  o ← ns_Get name s;
  '(n, s) ← (match (o : option NodeInfo) with
             | Some n => Some (n, s)
             | None => n ← node_new; Some (n, with_Deleted ({[name]} ∪ Deleted s) s)
             end);
  s ← ns_Set name n s;
  Some (s, n).

(** The pods that count: bound, or assumed by a scheduler of this type. *)
Definition cachedPod (p : Pod) : bool := BoundPod p || AssumedPodOfGodel p (SchedulerType cf).

Definition AddPod (p : Pod) s : option (NodeStore * option StoreError) :=
  if negb (cachedPod p) then Some (s, None) else
  let name := GetNodeNameFromPod cf p in
  if name ≟ "" then Some (s, None) else
  '(s, n) ← getOrCreateNode name s;
  n ← node_AddPod p n;
  s ← ns_Write name n s;
  Some (s, None).

Definition DeletePod (p : Pod) s : option (NodeStore * option StoreError) :=
  if negb (cachedPod p) then Some (s, None) else
  let name := GetNodeNameFromPod cf p in
  if name ≟ "" then Some (s, None) else
  o ← ns_Get name s;
  match (o : option NodeInfo) with
  | None => Some (s, None)
  | Some n =>
      '(n, e) ← node_RemovePod p false n;
      match (e : option NodeError) with
      | Some e => Some (s, Some (NodeErr e))
      | None => s ← keep_or_drop name n s; Some (s, None)
      end
  end.

(** [podState] looks a pod up in the pod store, which handles the event later. *)
Definition UpdatePod (podState : string → option Pod) (oldPod newPod : Pod) s : option (NodeStore * option StoreError) :=
  match nodeinfo_GetPodKey oldPod with
  | None => Some (s, Some PodKeyErr)
  | Some key =>
      '(s, e) ← (match podState key with Some p => DeletePod p s | None => Some (s, None) end);
      match (e : option StoreError) with
      | Some _ => Some (s, e)
      | None => AddPod newPod s
      end
  end.

(** The errors of removing a victim are logged. *)
Definition remove_victim (acc : option NodeInfo) (victim : Pod) : option NodeInfo :=
  n ← acc; '(n, _) ← node_RemovePod victim true n; Some n.
Definition add_victim (acc : option NodeInfo) (victim : Pod) : option NodeInfo := n ← acc; node_AddPod victim n.
Definition victims_of (pi : CachePodInfo) : list Pod :=
  match cp_Victims pi with Some v => victim_Pods v | None => [] end.

(** [AssignMicroTopology] never finds an allocation and does nothing. *)
Definition AssumePod (pi : CachePodInfo) s : option (NodeStore * option StoreError) :=
  let name := GetNodeNameFromPod cf (cp_Pod pi) in
  if name ≟ "" then Some (s, None) else
  '(s, n) ← getOrCreateNode name s;
  n ← node_AddPod (cp_Pod pi) n;
  n ← (match storeType s with
       | Snapshot => foldl remove_victim (Some n) (victims_of pi)
       | Cache => Some n
       end);
  s ← ns_Write name n s;
  Some (s, None).

Definition ForgetPod (pi : CachePodInfo) s : option (NodeStore * option StoreError) :=
  let name := GetNodeNameFromPod cf (cp_Pod pi) in
  if name ≟ "" then Some (s, None) else
  o ← ns_Get name s;
  match (o : option NodeInfo) with
  | None => Some (s, None)
  | Some n =>
      '(n, e) ← node_RemovePod (cp_Pod pi) false n;
      match (e : option NodeError) with
      | Some e => Some (s, Some (NodeErr e))
      | None =>
          n ← (match storeType s with
               | Snapshot => foldl add_victim (Some n) (victims_of pi)
               | Cache => Some n
               end);
          s ← keep_or_drop name n s;
          Some (s, None)
      end
  end.
End node_store.
Arguments NodeStore : clear implicits.
Arguments mkNodeStore {S H}. Arguments storeType {S H}. Arguments Store_ {S H}. Arguments Deleted {S H}.
Arguments imageStates {S H}. Arguments hooks {S H}.
