(* ===== verification/NodeStoreProps.v ===== *)
(** * The node store holds, for each node, a map of pods

    [NodesOK s A]: the store [s] is well formed, the pods of the node [k] are
    [A k], its accounts balance, and a node the store does not have has no pods.
    Every operation returns and acts on [A] as its name says; the operations on
    nodes leave [A] as it is.  Here the NUMA status is off
    ([NonNativeResourceSchedulingSupport] disabled); its own invariant is that of
    NumaProps.v. *)
From S2P Require Import Prelude GoStrings PodModel PodState GenStore StoreI Splay SplayRefine SplayProps SplaySpec HashSlice Resource MicroTopo PodInfos PodInfosProps Numa NumaProps NodeInfo NodeInfoProps NodeClone NodeStore.

Local Open Scope godel_scope.
Local Open Scope string_scope.

Section node.
Context {MR : MapRange} {ML : MapRangeLaws MR} (cf : Config) (Hnn : cf_nonNative cf = false).
Abbreviation ord := (λ m, range_map m).
Implicit Types (n : NodeInfo) (P : gmap string PodInfo) (p : Pod).

Definition info p : PodInfo := NewPodInfo ord (cf_gates cf) (cf_json cf) p.

(** A node with the pods [P], without a NUMA status. *)
Definition NS n P : Prop := NI ord (cf_gates cf) n P ∧ NumaStatus_ n = None.
Definition same_objects n n' : Prop := ni_Node n' = ni_Node n ∧ ni_NMNode n' = ni_NMNode n ∧ ni_CNR n' = ni_CNR n
  ∧ NodeInSchedulerPartition n' = NodeInSchedulerPartition n ∧ NMNodeInSchedulerPartition n' = NMNodeInSchedulerPartition n.

Lemma same_objects_refl n : same_objects n n.
Proof. done. Qed.
Lemma same_objects_trans n1 n2 n3 : same_objects n1 n2 → same_objects n2 n3 → same_objects n1 n3.
Proof. unfold same_objects. intuition congruence. Qed.

Lemma update_objects (p : PodInfo) sign pre n n' :
  update ord (cf_gates cf) ord ord (cf_parse cf) p sign pre n = Some n' → NumaStatus_ n = None →
  same_objects n n' ∧ NumaStatus_ n' = None.
Proof.
  unfold update. intros E Hn. destruct (pi_ResourceType p) as [[]|]; simpl in E; rw Hn in E; simpl in E; by injection E as <-.
Qed.

Lemma node_new_ok : ∃ n, node_new cf = Some n ∧ NS n ∅ ∧ ni_Node n = None ∧ ni_NMNode n = None ∧ ni_CNR n = None.
Proof.
  unfold node_new. rw Hnn. eexists. split; [reflexivity|]. split; [|done]. split; [|done].
  exact (NI_New ord (cf_gates cf) (cf_json cf) ord ord (cf_parse cf) false _ eq_refl).
Qed.

Lemma node_add_ok n P p : NS n P → P !! UID p = None →
  ∃ n', node_AddPod cf p n = Some n' ∧ NS n' (<[UID p := info p]> P) ∧ same_objects n n'.
Proof.
  intros [HN Hnu] HP.
  destruct (NI_Add ord (cf_gates cf) (cf_json cf) ord ord ord (cf_parse cf)) with (n := n) (P := P) (pod := p) as (n' & E & HN' & _);
    [intros; apply map_range_perm..|done|done|by intros t; rw Hnu|].
  exists n'. split; [exact E|]. unfold NodeInfo.AddPod in E. destruct (AddPodInfo _ _ _) as [m|]; [|done].
  simpl in E. destruct (update_objects _ _ _ _ _ E) as [Hs Hn']; [done|]. by split_and!.
Qed.

Lemma node_remove_ok n P p pre : NS n P → UID p ≠ "" →
  match P !! UID p with
  | Some _ => ∃ n', node_RemovePod cf p pre n = Some (n', None) ∧ NS n' (delete (UID p) P) ∧ same_objects n n'
  | None => node_RemovePod cf p pre n = Some (n, Some NoCorrespondingPod)
  end.
Proof.
  intros [HN Hnu] Hu.
  destruct (RemovePod_spec ord (cf_gates cf) ord ord ord (cf_parse cf)) with (n := n) (P := P) (pod := p) (preempt := pre)
    as (n' & e & E & H); [intros; apply map_range_perm..|done|by intros ? _ t; rw Hnu|].
  rw (bool_decide_eq_false_2 _ Hu) in H. destruct (P !! UID p) as [q|] eqn:Ep.
  - destruct H as (HN' & -> & _). exists n'. split; [exact E|]. unfold RemovePod in E.
    destruct (nodeinfo_GetPodKey p) as [k|]; [|done]. destruct (GetPodInfo _ _) as [[o|]|]; [|done|done]. simpl in E.
    destruct (RemovePodInfo _ _ _) as [m|]; [|done]. simpl in E. destruct (update _ _ _ _ _ _ _ _ _) as [n''|] eqn:E2; [|done].
    simpl in E. injection E as ->. destruct (update_objects _ _ _ _ _ E2) as [Hs Hn']; [done|]. by split_and!.
  - destruct H as [-> ->]. exact E.
Qed.

Lemma NS_objects nd nm n P : NS n P →
  NS (setGuaranteedCapacityResource ord (cf_gates cf) (setGuaranteedAllocatableResource ord (cf_gates cf) (set_objects nd nm n))) P.
Proof. intros [HN Hnu]. split; [|done]. by apply NI_objects. Qed.
Lemma NS_partitions a b n P : NS n P → NS (set_partitions a b n) P.
Proof. intros [HN Hnu]. split; [|done]. apply (proj1 (NI_misc _ _ n P a b 0 HN)). Qed.
Lemma NS_gen g n P : NS n P → NS (NodeInfo.SetGeneration g n) P.
Proof. intros [HN Hnu]. split; [|done]. apply (proj2 (NI_misc _ _ n P true true g HN)). Qed.
Lemma NS_images i n P : NS n P → NS (SetImageStates i n) P.
Proof. intros [[] Hnu]. split; [by split|done]. Qed.
Lemma NS_RemoveCNR n P : NS n P → NS (RemoveCNR n) P.
Proof. intros [HN Hnu]. split; [by apply NI_RemoveCNR|]. simpl. by rw Hnu. Qed.
Lemma NS_SetCNR c n P : NS n P → ∃ n', node_SetCNR cf c n = Some n' ∧ NS n' P.
Proof.
  intros [HN Hnu].
  destruct (NI_SetCNR ord (cf_gates cf) ord ord ord (cf_parse cf)) with (cnr := c) (n := n) (P := P) as (n' & E & HN');
    [intros; apply map_range_perm..|done|by intros t; rw Hnu|].
  exists n'. split; [exact E|]. split; [done|]. unfold SetCNR in E. rw Hnu in E. simpl in E. by injection E as <-.
Qed.
Lemma NS_len n P : NS n P → NumPods n = Z.of_nat (size P).
Proof. intros [HN _]. unfold NumPods. apply (RM_Len (cf_gates cf)), (ni_pods _ _ _ _ HN). Qed.
Lemma NS_empty n P : NS n P → (NumPods n =? 0)%Z = true → P = ∅.
Proof. intros HN H%Z.eqb_eq. rw (NS_len n P HN) in H. apply map_size_empty_inv. lia. Qed.
End node.

#[export] Hint Resolve NS_objects NS_partitions NS_gen NS_images NS_RemoveCNR : godel.

(** ** The store *)
Section store.
Context {MR : MapRange} {ML : MapRangeLaws MR} (cf : Config) (Hnn : cf_nonNative cf = false).
Context {S H : Type} `{!Store S NodeInfo, !StoreLaws S NodeInfo}.
Context (AfterAdd AfterDelete : string → NodeInfo → H → option H).
Context (Hadd : ∀ k n h, is_Some (AfterAdd k n h)) (Hdel : ∀ k n h, is_Some (AfterDelete k n h)).
Implicit Types (s : NodeStore S H) (n : NodeInfo) (P : gmap string PodInfo) (p : Pod) (A : string → gmap string PodInfo).
Abbreviation nodes s := (st_map (Store_ s)).
Abbreviation room m s := (st_room m (Store_ s)).
Abbreviation NS := (NS cf).
Abbreviation info := (info cf).

(** The pods of node [k] are replaced. *)
Definition upd (k : string) P A : string → gmap string PodInfo := λ k', if decide (k' = k) then P else A k'.

Lemma upd_eq k P A : upd k P A k = P.
Proof. unfold upd. by rw decide_True. Qed.
Lemma upd_ne k k' P A : k' ≠ k → upd k P A k' = A k'.
Proof. intros. unfold upd. by rw decide_False. Qed.
Lemma upd_upd k P Q A k' : upd k P (upd k Q A) k' = upd k P A k'.
Proof. unfold upd. by case_decide. Qed.
Lemma upd_same k A k' : upd k (A k) A k' = A k'.
Proof. unfold upd. by case_decide; subst. Qed.

Record NodesOK s A : Prop := {
  nok_store : st_ok (Store_ s);
  nok_node : ∀ k n, nodes s !! k = Some n → NS n (A k);
  nok_absent : ∀ k, nodes s !! k = None → A k = ∅
}.

Lemma NodesOK_ext s A A' : (∀ k, A k = A' k) → NodesOK s A → NodesOK s A'.
Proof. intros He [H1 H2 H3]. split; [done|..]; intros k; rw -He; eauto. Qed.

Lemma NodesOK_rest s s' A : Store_ s' = Store_ s → NodesOK s A → NodesOK s' A.
Proof. intros E [H1 H2 H3]. split; rw E //. Qed.

(** A store that differs outside of the map of nodes. *)
Ltac nrest := match goal with H : NodesOK ?s ?A |- NodesOK _ ?A => eapply (NodesOK_rest s); [|exact H]; done end.

Lemma ns_Get_ok s A k : NodesOK s A → ns_Get k s = Some (nodes s !! k).
Proof. intros HN. apply law_Get, HN. Qed.

Lemma ns_Set_ok s A m k n P : NodesOK s A → room (Datatypes.S m) s → NS n P →
  ∃ s', ns_Set k n s = Some s' ∧ NodesOK s' (upd k P A) ∧ room m s' ∧ storeType s' = storeType s
    ∧ (∃ g, nodes s' = <[k := NodeInfo.SetGeneration g n]> (nodes s)).
Proof.
  intros HN Hroom HP. destruct (law_Set k n (Store_ s) m (nok_store _ _ HN) Hroom) as (st & g & E & Hok & Hmap & Hr).
  exists (with_Store st s). unfold ns_Set. rw E. split; [done|]. split; [|by eauto]. split; [done|..]; intros k'; simpl; rw Hmap lookup_insert.
  - intros n'. case_decide as Hk; subst.
    + intros [= <-]. rw upd_eq. by apply NS_gen.
    + intros Hn'. rw upd_ne //. by apply HN.
  - case_decide as Hk; [done|]. intros Hn'. rw upd_ne //. by apply HN.
Qed.

Lemma store_Delete_ok s A k : NodesOK s A →
  ∃ s', store_Delete k s = Some s' ∧ NodesOK s' (upd k ∅ A) ∧ (∀ m, room m s → room m s') ∧ storeType s' = storeType s
    ∧ nodes s' = delete k (nodes s).
Proof.
  intros HN. destruct (law_Delete k (Store_ s) (nok_store _ _ HN)) as (st & E & Hok & Hmap & Hr).
  exists (with_Store st s). unfold store_Delete. rw E. split; [done|]. split; [|done]. split; [done|..]; intros k'; simpl; rw Hmap lookup_delete.
  - intros n'. case_decide as Hk; [done|]. intros Hn'. rw upd_ne //. by apply HN.
  - case_decide as Hk; subst; [by rw upd_eq|]. intros Hn'. rw upd_ne //. by apply HN.
Qed.

Lemma ns_Add_ok s A m k n P : NodesOK s A → room (Datatypes.S m) s → NS n P →
  ∃ s', ns_Add AfterAdd k n s = Some s' ∧ NodesOK s' (upd k P A) ∧ room m s' ∧ storeType s' = storeType s.
Proof.
  intros HN Hroom HP. destruct (ns_Set_ok s A m k n P HN Hroom HP) as (s1 & E & HN1 & Hr & Ht & _). unfold ns_Add. rw E. simpl.
  destruct (Hadd k n (hooks s1)) as [h ->]. simpl. eexists. split; [done|]. split; [nrest|done].
Qed.
Lemma ns_Delete_ok s A k n : NodesOK s A →
  ∃ s', ns_Delete AfterDelete k n s = Some s' ∧ NodesOK s' (upd k ∅ A) ∧ (∀ m, room m s → room m s') ∧ storeType s' = storeType s.
Proof.
  intros HN. destruct (store_Delete_ok s A k HN) as (s1 & E & HN1 & Hr & Ht & _). unfold ns_Delete. rw E. simpl.
  destruct (Hdel k n (hooks s1)) as [h ->]. simpl. eexists. split; [done|]. split; [nrest|done].
Qed.

(** The node under [k] is rewritten with the same pods. *)
Lemma NodesOK_back s A k Q : NodesOK s (upd k (A k) (upd k Q A)) → NodesOK s A.
Proof. apply NodesOK_ext. intros k'. rw upd_upd. apply upd_same. Qed.

Lemma keep_or_drop_ok s A m k n P : NodesOK s A → room (Datatypes.S m) s → NS n P →
  ∃ s', keep_or_drop k n s = Some s' ∧ NodesOK s' (upd k P A) ∧ room m s' ∧ storeType s' = storeType s
    ∧ (∀ k', k' ≠ k → nodes s' !! k' = nodes s !! k').
Proof.
  intros HN Hroom HP. unfold keep_or_drop. destruct ((NumPods n =? 0)%Z && ObjectIsNil n) eqn:Eb.
  - apply andb_true_iff in Eb as [E0%(NS_empty cf n P HP) _]. subst P.
    destruct (store_Delete_ok (with_Deleted (Deleted s ∖ {[k]}) s) A k) as (s' & -> & HN' & Hr & Ht & Hmap);
      [nrest|]. exists s'. split_and!; [done|done|by apply Hr, law_room|done|].
    intros k' Hk'. rw Hmap. by rw lookup_delete_ne.
  - destruct (ns_Set_ok s A m k n P HN Hroom HP) as (s' & -> & HN' & Hr & Ht & g & Hmap). exists s'.
    split_and!; [done..|]. intros k' Hk'. rw Hmap. by rw lookup_insert_ne.
Qed.

(** *** Nodes *)

(** Taking a node out of the store, or making a new one. *)
Lemma take_node_ok s A k (f : NodeInfo → NodeStore S H → NodeStore S H) :
  (∀ n s, Store_ (f n s) = Store_ s ∧ storeType (f n s) = storeType s) → NodesOK s A →
  ∃ n s', (match nodes s !! k with
           | Some n => s' ← ns_Delete AfterDelete k n (f n s); Some (n, s')
           | None => n ← node_new cf; Some (n, s)
           end) = Some (n, s') ∧ NS n (A k) ∧ NodesOK s' (upd k ∅ A) ∧ (∀ m, room m s → room m s') ∧ storeType s' = storeType s.
Proof.
  intros Hf HN. destruct (nodes s !! k) as [n|] eqn:En.
  - destruct (Hf n s) as [Hst Hty].
    destruct (ns_Delete_ok (f n s) A k n) as (s' & -> & HN' & Hr & Ht); [nrest|]. exists n, s'.
    split_and!; [done|by apply HN|done| |by rw Ht]. intros m. rw -Hst. apply Hr.
  - destruct (node_new_ok cf Hnn) as (n & -> & HS & _). exists n, s. rw (nok_absent _ _ HN _ En).
    split_and!; try done. eapply NodesOK_ext; [|exact HN]. intros k'. unfold upd. case_decide; subst; [|done].
    by apply (nok_absent _ _ HN).
Qed.

Lemma images_rest o s : Store_ (removeNodeImageStates o s) = Store_ s ∧ storeType (removeNodeImageStates o s) = storeType s.
Proof. by destruct o. Qed.

Lemma AddNode_ok s A m nd : NodesOK s A → room (Datatypes.S m) s →
  ∃ s', AddNode cf AfterAdd AfterDelete nd s = Some (s', None) ∧ NodesOK s' A ∧ room m s' ∧ storeType s' = storeType s.
Proof.
  intros HN Hroom. unfold AddNode. rw (ns_Get_ok s A) //. cbn [mbind option_bind].
  destruct (take_node_ok s A (node_Name nd) (λ n s,
    with_Deleted (Deleted (removeNodeImageStates (ni_Node n) s) ∖ {[node_Name nd]}) (removeNodeImageStates (ni_Node n) s)))
    as (n & s1 & E & HS & HN1 & Hr & Ht); [intros n s0; apply images_rest|done|].
  cbv zeta. rw E. cbn [mbind option_bind]. unfold addNodeImageStates. destruct (foldl _ _ _) as [im sm].
  destruct (ns_Add_ok (with_images im s1) (upd (node_Name nd) ∅ A) m (node_Name nd)
    (node_SetNode cf nd (SetNodeInSchedulerPartition (NodeOfThisScheduler (node_Annotations nd) (ComponentName cf)) (SetImageStates sm n)))
    (A (node_Name nd))) as (s' & -> & HN' & Hr' & Ht').
  - nrest.
  - by apply Hr.
  - by apply NS_objects, NS_partitions, NS_images.
  - exists s'. split_and!; [done|by eapply NodesOK_back|done|by rw Ht'].
Qed.

Lemma AddNMNode_ok s A m nm : NodesOK s A → room (Datatypes.S m) s →
  ∃ s', AddNMNode cf AfterAdd AfterDelete nm s = Some (s', None) ∧ NodesOK s' A ∧ room m s' ∧ storeType s' = storeType s.
Proof.
  intros HN Hroom. unfold AddNMNode. rw (ns_Get_ok s A) //. cbn [mbind option_bind].
  destruct (take_node_ok s A (nm_Name nm) (λ n s, with_Deleted (Deleted s ∖ {[nm_Name nm]}) s))
    as (n & s1 & E & HS & HN1 & Hr & Ht); [done|done|].
  cbv zeta. rw E. cbn [mbind option_bind].
  destruct (ns_Add_ok s1 (upd (nm_Name nm) ∅ A) m (nm_Name nm)
    (node_SetNMNode cf nm (SetNMNodeInSchedulerPartition (NodeOfThisScheduler (nm_Annotations nm) (ComponentName cf)) n))
    (A (nm_Name nm))) as (s' & -> & HN' & Hr' & Ht').
  - done.
  - by apply Hr.
  - by apply NS_objects, NS_partitions.
  - exists s'. split_and!; [done|by eapply NodesOK_back|done|by rw Ht'].
Qed.

Lemma AddCNR_ok s A m c : NodesOK s A → room (Datatypes.S m) s →
  ∃ s', AddCNR cf c s = Some (s', None) ∧ NodesOK s' A ∧ room m s' ∧ storeType s' = storeType s.
Proof.
  intros HN Hroom. unfold AddCNR. rw (ns_Get_ok s A) //. cbn [mbind option_bind].
  assert (∃ n, match nodes s !! cnr_Name c with Some n => Some n | None => node_new cf end = Some n ∧ NS n (A (cnr_Name c)))
    as (n & -> & HS).
  { destruct (nodes s !! cnr_Name c) as [n|] eqn:En; [exists n; split; [done|by apply HN]|].
    destruct (node_new_ok cf Hnn) as (n & -> & HS & _). exists n. by rw (nok_absent _ _ HN _ En). }
  cbn [mbind option_bind]. destruct (NS_SetCNR cf c n _ HS) as (n' & -> & HS'). cbn [mbind option_bind].
  destruct (ns_Set_ok s A m (cnr_Name c) n' _ HN Hroom HS') as (s' & -> & HN' & Hr & Ht & _). exists s'.
  split_and!; [done| |done..]. eapply NodesOK_ext; [|exact HN']. apply upd_same.
Qed.

(** The end of the two handlers that delete a node object. *)
Lemma delete_object_ok s A m k n P (b : bool) : NodesOK s (upd k ∅ A) → room (Datatypes.S m) s → NS n P → A k = P →
  ∃ s', (if b then s ← ns_Add AfterAdd k n s; Some (s, None : option StoreError)
         else if negb (NumPods n =? 0)%Z || bool_decide (is_Some (ni_CNR n))
         then s ← ns_Set k n (with_Deleted ({[k]} ∪ Deleted s) s); Some (s, None) else Some (s, None)) = Some (s', None)
    ∧ NodesOK s' A ∧ room m s' ∧ storeType s' = storeType s.
Proof.
  intros HN Hroom HS HP. destruct b.
  - destruct (ns_Add_ok s _ m k n P HN Hroom HS) as (s' & -> & HN' & Hr & Ht). exists s'. split_and!; [done| |done..].
    subst P. by eapply NodesOK_back.
  - destruct (_ || _) eqn:Eb.
    + destruct (ns_Set_ok (with_Deleted ({[k]} ∪ Deleted s) s) (upd k ∅ A) m k n P) as (s' & -> & HN' & Hr & Ht & _);
        [nrest|done|done|]. exists s'. split_and!; [done| |done..]. subst P. by eapply NodesOK_back.
    + exists s. split_and!; [done| |by apply law_room|done]. apply orb_false_iff in Eb as [E0%negb_false_iff _].
      pose proof (NS_empty cf n P HS E0) as ->. eapply NodesOK_ext; [|exact HN]. intros k'. unfold upd. by case_decide; subst.
Qed.

Lemma DeleteNode_ok s A m nd : NodesOK s A → room (Datatypes.S m) s →
  ∃ s' e, DeleteNode cf AfterAdd AfterDelete nd s = Some (s', e) ∧ NodesOK s' A ∧ room m s' ∧ storeType s' = storeType s.
Proof.
  intros HN Hroom. unfold DeleteNode. rw (ns_Get_ok s A) //. cbn [mbind option_bind].
  destruct (nodes s !! node_Name nd) as [n|] eqn:En; [|by exists s, (Some NodeNotFound); split_and!; [..|apply law_room|]].
  destruct (ns_Delete_ok s A (node_Name nd) n HN) as (s1 & -> & HN1 & Hr & Ht). cbn [mbind option_bind].
  destruct (delete_object_ok (removeNodeImageStates (Some nd) s1) A m (node_Name nd) (node_RemoveNode cf n) (A (node_Name nd))
    (bool_decide (is_Some (ni_NMNode (node_RemoveNode cf n))))) as (s' & E & HN' & Hr' & Ht').
  - nrest.
  - by apply Hr.
  - by apply NS_objects, HN.
  - done.
  - cbv zeta. rw E. exists s', None. split_and!; [done..|by rw Ht'].
Qed.

Lemma DeleteNMNode_ok s A m nm : NodesOK s A → room (Datatypes.S m) s →
  ∃ s' e, DeleteNMNode cf AfterAdd AfterDelete nm s = Some (s', e) ∧ NodesOK s' A ∧ room m s' ∧ storeType s' = storeType s.
Proof.
  intros HN Hroom. unfold DeleteNMNode. rw (ns_Get_ok s A) //. cbn [mbind option_bind].
  destruct (nodes s !! nm_Name nm) as [n|] eqn:En; [|by exists s, (Some NodeNotFound); split_and!; [..|apply law_room|]].
  destruct (ns_Delete_ok s A (nm_Name nm) n HN) as (s1 & -> & HN1 & Hr & Ht). cbn [mbind option_bind].
  destruct (delete_object_ok s1 A m (nm_Name nm) (node_RemoveNMNode cf n) (A (nm_Name nm))
    (bool_decide (is_Some (ni_Node (node_RemoveNMNode cf n))))) as (s' & E & HN' & Hr' & Ht').
  - done.
  - by apply Hr.
  - by apply NS_objects, HN.
  - done.
  - cbv zeta. rw E. exists s', None. split_and!; [done..|by rw Ht'].
Qed.

Lemma DeleteCNR_ok s A m c : NodesOK s A → room (Datatypes.S m) s →
  ∃ s' e, DeleteCNR c s = Some (s', e) ∧ NodesOK s' A ∧ room m s' ∧ storeType s' = storeType s.
Proof.
  intros HN Hroom. unfold DeleteCNR. rw (ns_Get_ok s A) //. cbn [mbind option_bind].
  destruct (nodes s !! cnr_Name c) as [n|] eqn:En; [|by exists s, (Some NodeNotFound); split_and!; [..|apply law_room|]].
  destruct (keep_or_drop_ok s A m (cnr_Name c) (RemoveCNR n) (A (cnr_Name c))) as (s' & -> & HN' & Hr & Ht & _);
    [done|done|by apply NS_RemoveCNR, HN|]. exists s', None. split_and!; [done| |done..].
  eapply NodesOK_ext; [|exact HN']. apply upd_same.
Qed.

Lemma set_partition_ok s A m b k : NodesOK s A → room (Datatypes.S m) s →
  ∃ s' e, set_partition AfterAdd AfterDelete b k s = Some (s', e) ∧ NodesOK s' A ∧ room m s' ∧ storeType s' = storeType s.
Proof.
  intros HN Hroom. unfold set_partition. rw (ns_Get_ok s A) //. cbn [mbind option_bind].
  destruct (nodes s !! k) as [n|] eqn:En; [|by exists s, (Some NodeNotFound); split_and!; [..|apply law_room|]].
  destruct (ns_Delete_ok s A k n HN) as (s1 & -> & HN1 & Hr & Ht). cbn [mbind option_bind].
  destruct (ns_Add_ok s1 _ m k (SetNodePartition b n) (A k) HN1 (Hr _ Hroom)) as (s' & -> & HN' & Hr' & Ht');
    [by apply NS_partitions, HN|]. exists s', None. split_and!; [done|by eapply NodesOK_back|done|by rw Ht'].
Qed.

(** *** Pods *)

(** A node is stored and then changed through the pointer. *)
Lemma create_write_ok s A m k : NodesOK s A → room (Datatypes.S m) s →
  ∃ s1 n, getOrCreateNode cf k s = Some (s1, n) ∧ NS n (A k) ∧ storeType s1 = storeType s
    ∧ ∀ n' P, NS n' P → ∃ s', ns_Write k n' s1 = Some s' ∧ NodesOK s' (upd k P A) ∧ room m s' ∧ storeType s' = storeType s
        ∧ (∃ g, nodes s' = <[k := NodeInfo.SetGeneration g n']> (nodes s)).
Proof.
  intros HN Hroom. unfold getOrCreateNode. rw (ns_Get_ok s A) //. cbn [mbind option_bind].
  assert (∃ n s0, match nodes s !! k with
                  | Some n => Some (n, s)
                  | None => n ← node_new cf; Some (n, with_Deleted ({[k]} ∪ Deleted s) s)
                  end = Some (n, s0) ∧ NS n (A k) ∧ Store_ s0 = Store_ s ∧ storeType s0 = storeType s) as (n & s0 & -> & HS & Hst & Hty).
  { destruct (nodes s !! k) as [n|] eqn:En; [exists n, s; split; [done|split; [by apply HN|done]]|].
    destruct (node_new_ok cf Hnn) as (n & -> & HS & _). eexists n, _. split; [done|]. by rw (nok_absent _ _ HN _ En). }
  cbn [mbind option_bind]. assert (NodesOK s0 A) as HN0 by nrest. assert (room (Datatypes.S m) s0) as Hroom0 by (rw Hst //).
  destruct (ns_Set_ok s0 A m k n (A k) HN0 Hroom0 HS) as (s1 & E1 & HN1 & Hr1 & Ht1 & _). rw E1. cbn [mbind option_bind].
  exists s1, n. split_and!; [done|done|by rw Ht1|]. intros n' P HS'.
  destruct (ns_Set_ok s0 A m k n' P HN0 Hroom0 HS') as (s' & E' & HN' & Hr' & Ht' & Hmap). rw Hst in Hmap.
  unfold ns_Set in E1, E'. unfold ns_Write. destruct (st_Set k n (Store_ s0)) as [t1|] eqn:Et1; [|done].
  simpl in E1. injection E1 as <-. simpl. rw (law_Write k n n' _ _ Et1).
  destruct (st_Set k n' (Store_ s0)) as [t'|]; [|done]. simpl in E' |- *. injection E' as <-.
  eexists. split; [done|]. by rw -Hty.
Qed.

Abbreviation name p := (GetNodeNameFromPod cf p).

Lemma ns_AddPod_ok s A m p : NodesOK s A → room (Datatypes.S m) s → cachedPod cf p = true → name p ≠ "" →
  A (name p) !! UID p = None →
  ∃ s', AddPod cf p s = Some (s', None) ∧ NodesOK s' (upd (name p) (<[UID p := info p]> (A (name p))) A)
    ∧ room m s' ∧ storeType s' = storeType s.
Proof.
  intros HN Hroom Hc Hne HA. unfold AddPod. rw Hc (bool_decide_eq_false_2 _ Hne). simpl.
  destruct (create_write_ok s A m (name p) HN Hroom) as (s1 & n & -> & HS & Ht & Hw). cbn [mbind option_bind].
  destruct (node_add_ok cf n _ p HS HA) as (n' & -> & HS' & _). cbn [mbind option_bind].
  destruct (Hw n' _ HS') as (s' & -> & HN' & Hr' & Ht' & _). exists s'. by split_and!.
Qed.

(** Removing a pod, on every branch. *)
Lemma ns_DeletePod_ok s A m p : NodesOK s A → room (Datatypes.S m) s → cachedPod cf p = true → name p ≠ "" → UID p ≠ "" →
  ∃ s' e, DeletePod cf p s = Some (s', e) ∧ room m s' ∧ storeType s' = storeType s
    ∧ match A (name p) !! UID p with
      | Some _ => e = None ∧ NodesOK s' (upd (name p) (delete (UID p) (A (name p))) A)
      | None => s' = s
      end.
Proof.
  intros HN Hroom Hc Hne Hu. unfold DeletePod. rw Hc (bool_decide_eq_false_2 _ Hne). simpl.
  rw (ns_Get_ok s A) //. cbn [mbind option_bind]. destruct (nodes s !! name p) as [n|] eqn:En.
  - pose proof (nok_node _ _ HN _ _ En) as HS. pose proof (node_remove_ok cf n _ p false HS Hu) as Hrm.
    destruct (A (name p) !! UID p) as [q|].
    + destruct Hrm as (n' & -> & HS' & _). cbn [mbind option_bind].
      destruct (keep_or_drop_ok s A m (name p) n' _ HN Hroom HS') as (s' & -> & HN' & Hr & Ht & _). by exists s', None.
    + rw Hrm. cbn [mbind option_bind]. exists s, (Some (NodeErr NoCorrespondingPod)). by split_and!; [|apply law_room|..].
  - rw (nok_absent _ _ HN _ En) lookup_empty. exists s, None. by split_and!; [|apply law_room|..].
Qed.

Lemma ns_AssumePod_ok s A m pi : let p := cp_Pod pi in
  NodesOK s A → storeType s = Cache → room (Datatypes.S m) s → name p ≠ "" → A (name p) !! UID p = None →
  ∃ s', AssumePod cf pi s = Some (s', None) ∧ NodesOK s' (upd (name p) (<[UID p := info p]> (A (name p))) A)
    ∧ room m s' ∧ storeType s' = storeType s.
Proof.
  intros p HN Hty Hroom Hne HA. unfold AssumePod. fold p. rw (bool_decide_eq_false_2 _ Hne).
  destruct (create_write_ok s A m (name p) HN Hroom) as (s1 & n & -> & HS & Ht & Hw). cbn [mbind option_bind].
  destruct (node_add_ok cf n _ p HS HA) as (n' & -> & HS' & _). cbn [mbind option_bind]. rw Ht Hty. cbn [mbind option_bind].
  destruct (Hw n' _ HS') as (s' & -> & HN' & Hr' & Ht' & _). exists s'. split_and!; [done..|by rw Ht'].
Qed.

Lemma ns_ForgetPod_ok s A m pi : let p := cp_Pod pi in
  NodesOK s A → storeType s = Cache → room (Datatypes.S m) s → name p ≠ "" → UID p ≠ "" →
  ∃ s' e, ForgetPod cf pi s = Some (s', e) ∧ room m s' ∧ storeType s' = storeType s
    ∧ match A (name p) !! UID p with
      | Some _ => e = None ∧ NodesOK s' (upd (name p) (delete (UID p) (A (name p))) A)
      | None => s' = s
      end.
Proof.
  intros p HN Hty Hroom Hne Hu. unfold ForgetPod. fold p. rw (bool_decide_eq_false_2 _ Hne).
  rw (ns_Get_ok s A) //. cbn [mbind option_bind]. destruct (nodes s !! name p) as [n|] eqn:En.
  - pose proof (nok_node _ _ HN _ _ En) as HS. pose proof (node_remove_ok cf n _ p false HS Hu) as Hrm.
    destruct (A (name p) !! UID p) as [q|].
    + destruct Hrm as (n' & -> & HS' & _). cbn [mbind option_bind]. rw Hty. cbn [mbind option_bind].
      destruct (keep_or_drop_ok s A m (name p) n' _ HN Hroom HS') as (s' & -> & HN' & Hr & Ht & _). exists s', None.
      split_and!; [done|done|by rw Ht|done|done].
    + rw Hrm. cbn [mbind option_bind]. exists s, (Some (NodeErr NoCorrespondingPod)). by split_and!; [|apply law_room|..].
  - rw (nok_absent _ _ HN _ En) lookup_empty. exists s, None. by split_and!; [|apply law_room|..].
Qed.
End store.
