(* ===== verification/FilterPlugins.v ===== *)
(** * Filter plugins

    The filters that decide whether a pod can be placed on a node:
    [NodeResourcesFit] (pkg/plugins/noderesources/util.go and
    pkg/scheduler/framework/plugins/noderesources/fit.go), [NodePorts],
    [NodeUnschedulable], [TaintToleration] and [PodLauncher] with the helpers they
    share.  The theorem relates [NodeResourcesFit] to the accounts of the node; the
    lemmas show that each filter goes on to succeed when pods are taken off the
    node, which is what preemption relies on. *)
From S2P Require Import Prelude GoStrings PodModel PodState GenStore StoreI HashSlice Resource MicroTopo PodInfos PodInfosProps Numa NumaProps NodeInfo NodeInfoProps NodeInfoSpec NodeClone NodeStore NodeStoreProps Framework.

Local Open Scope godel_scope.
Local Open Scope string_scope.

(** ** Launchers *)

Definition canPodPlaceOnNode (l : PodLauncher) (n : NodeInfo) : bool :=
  match l with
  | Kubelet => bool_decide (is_Some (ni_Node n))
  | NodeManager => bool_decide (is_Some (ni_NMNode n))
  end.
Definition NodeFits (p : Pod) (n : NodeInfo) : option PodLauncher * Status :=
  match GetPodLauncher p with
  | None => (None, Some Error)
  | Some l => if canPodPlaceOnNode l n then (Some l, None) else (Some l, Some UnschedulableAndUnresolvable)
  end.

Definition PodLauncher_Filter (_ : CycleState) (p : Pod) (n : NodeInfo) : Status := (NodeFits p n).2.
Definition PodLauncherPlugin : FilterPlugin := {| fp_Name := "PodLauncher"; fp_Filter := PodLauncher_Filter |}.

(** ** Taints *)

Definition TaintEffectNoSchedule : string := "NoSchedule".
Definition TaintEffectNoExecute : string := "NoExecute".
Definition TaintEffectPreferNoSchedule : string := "PreferNoSchedule".
Definition TaintNodeUnschedulable : string := "node.kubernetes.io/unschedulable".

Definition ToleratesTaint (t : Toleration) (taint : Taint) : bool :=
  if negb (tol_Effect t ≟ "") && negb (tol_Effect t ≟ taint_Effect taint) then false
  else if negb (tol_Key t ≟ "") && negb (tol_Key t ≟ taint_Key taint) then false
  else if (tol_Operator t ≟ "") || (tol_Operator t ≟ "Equal") then tol_Value t ≟ taint_Value taint
  else tol_Operator t ≟ "Exists".
Definition TolerationsTolerateTaint (tolerations : list Toleration) (taint : Taint) : bool :=
  existsb (λ t, ToleratesTaint t taint) tolerations.
Definition getFilteredTaints (taints : list Taint) (inclusionFilter : Taint → bool) : list Taint :=
  filter (λ t, inclusionFilter t = true) taints.
Definition FindMatchingUntoleratedTaint (taints : list Taint) (tolerations : list Toleration) (inclusionFilter : Taint → bool) : option Taint :=
  List.find (λ t, negb (TolerationsTolerateTaint tolerations t)) (getFilteredTaints taints inclusionFilter).

Definition node_taints (l : option PodLauncher) (n : NodeInfo) : option (list Taint) :=
  match l with
  | Some Kubelet => node_Taints <$> ni_Node n
  | Some NodeManager => nm_Taints <$> ni_NMNode n
  | None => Some []
  end.

(** The pointers are not nil once [NodeFits] has succeeded. *)
Definition TaintToleration_Filter (_ : CycleState) (p : Pod) (n : NodeInfo) : Status :=
  match NodeFits p n with
  | (_, Some s) => Some s
  | (launcher, None) =>
      match FindMatchingUntoleratedTaint (default [] (node_taints launcher n)) (Tolerations p)
              (λ t, (taint_Effect t ≟ TaintEffectNoSchedule) || (taint_Effect t ≟ TaintEffectNoExecute)) with
      | None => None
      | Some _ => Some UnschedulableAndUnresolvable
      end
  end.
Definition TaintTolerationPlugin : FilterPlugin := {| fp_Name := "TaintToleration"; fp_Filter := TaintToleration_Filter |}.

Definition NodeUnschedulable_Filter (_ : CycleState) (p : Pod) (n : NodeInfo) : Status :=
  match NodeFits p n with
  | (_, Some s) => Some s
  | (Some Kubelet, None) =>
      let podToleratesUnschedulable := TolerationsTolerateTaint (Tolerations p)
        {| taint_Key := TaintNodeUnschedulable; taint_Value := ""; taint_Effect := TaintEffectNoSchedule |} in
      if match ni_Node n with Some nd => node_Unschedulable nd | None => false end && negb podToleratesUnschedulable
      then Some UnschedulableAndUnresolvable else None
  | (Some NodeManager, None) =>
      match ni_NMNode n with None => Some UnschedulableAndUnresolvable | Some _ => None end
  | (None, None) => None
  end.
Definition NodeUnschedulablePlugin : FilterPlugin := {| fp_Name := "NodeUnschedulable"; fp_Filter := NodeUnschedulable_Filter |}.

(** ** Host ports *)

Definition getContainerPorts (p : Pod) : list ContainerPort := Containers p ≫= c_Ports.
Definition FitsPorts (wantPorts : list ContainerPort) (n : NodeInfo) : bool :=
  forallb (λ cp, negb (CheckConflict (HostIP cp) (Protocol cp) (HostPort cp) (UsedPorts n))) wantPorts.
Definition NodePorts_PreFilter (cs : CycleState) (p : Pod) : CycleState := cs_set_NodePorts (getContainerPorts p) cs.
Definition NodePorts_Filter (cs : CycleState) (p : Pod) (n : NodeInfo) : Status :=
  match cs_NodePorts cs with
  | None => Some Error
  | Some wantPorts => if FitsPorts wantPorts n then None else Some Unschedulable
  end.
Definition NodePortsPlugin : FilterPlugin := {| fp_Name := "NodePorts"; fp_Filter := NodePorts_Filter |}.

(** ** Resources *)

Record InsufficientResource := { ir_ResourceName : string; ir_Requested : Z; ir_Used : Z; ir_Capacity : Z }.
Definition isZeroRequest (r : Resource) : bool :=
  (MilliCPU r =? 0)%Z && (Memory r =? 0)%Z && (EphemeralStorage r =? 0)%Z && (size (default ∅ (ScalarResources r)) ≟ 0%nat).

Section fit.
Context {MR : MapRange} (cf : Config).
Abbreviation ord := (λ m, range_map m).
Abbreviation lsci := (LocalStorageCapacityIsolation (cf_gates cf)).

Definition ComputePodResourceRequest (p : Pod) : PodRequest :=
  let r := foldl (λ r c, Resource.Add ord lsci (c_Requests c) r) zeroResource (Containers p) in
  let r := foldl (λ r c, SetMaxResource ord (c_Requests c) r) r (InitContainers p) in
  let r := match Overhead p with
           | Some oh => if PodOverhead (cf_gates cf) then Resource.Add ord lsci oh r else r
           | None => r
           end in
  {| pr_Resource := r; pr_ResourceType := GetPodResourceType p; pr_IgnorePodsLimit := IgnorePodsLimit (Some p); pr_Err := false |}.

Definition ignored (ignoredExtendedResources ignoredResourceGroups : gset string) (rName : string) : bool :=
  IsExtendedResourceName rName &&
  (let rNamePrefix := if (0 <? size ignoredResourceGroups)%nat then default "" (Split slash rName !! 0%nat) else "" in
   bool_decide (rName ∈ ignoredExtendedResources) || bool_decide (rNamePrefix ∈ ignoredResourceGroups)).

(** The first scalar resource that does not fit. *)
Fixpoint fits_scalars (ie ig : gset string) (allocatable requested : Resource) (l : list (string * Z)) : option InsufficientResource :=
  match l with
  | [] => None
  | (rName, rQuant) :: l' =>
      if ignored ie ig rName then fits_scalars ie ig allocatable requested l'
      else if (scalar allocatable rName <? wrap64 (rQuant + scalar requested rName))%Z
      then Some {| ir_ResourceName := rName; ir_Requested := rQuant; ir_Used := scalar requested rName; ir_Capacity := scalar allocatable rName |}
      else fits_scalars ie ig allocatable requested l'
  end.

Definition fitsRequestCore (podRequest : PodRequest) (podNumber : Z) (allocatable requested : Resource) (ie ig : gset string)
    : option InsufficientResource :=
  let r := pr_Resource podRequest in
  if negb (pr_IgnorePodsLimit podRequest) && (AllowedPodNumber allocatable <? wrap64 (podNumber + 1))%Z then
    Some {| ir_ResourceName := ResourcePods; ir_Requested := 1; ir_Used := podNumber; ir_Capacity := AllowedPodNumber allocatable |}
  else if isZeroRequest r then None
  else if (MilliCPU allocatable <? wrap64 (MilliCPU r + MilliCPU requested))%Z then
    Some {| ir_ResourceName := ResourceCPU; ir_Requested := MilliCPU r; ir_Used := MilliCPU requested; ir_Capacity := MilliCPU allocatable |}
  else if (Memory allocatable <? wrap64 (Memory r + Memory requested))%Z then
    Some {| ir_ResourceName := ResourceMemory; ir_Requested := Memory r; ir_Used := Memory requested; ir_Capacity := Memory allocatable |}
  else if (EphemeralStorage allocatable <? wrap64 (EphemeralStorage r + EphemeralStorage requested))%Z then
    Some {| ir_ResourceName := ResourceEphemeralStorage; ir_Requested := EphemeralStorage r; ir_Used := EphemeralStorage requested;
            ir_Capacity := EphemeralStorage allocatable |}
  else fits_scalars ie ig allocatable requested (range_map (default ∅ (ScalarResources r))).

Definition FitsRequest (podRequest : PodRequest) (n : NodeInfo) (ie ig : gset string) : option InsufficientResource :=
  match pr_ResourceType podRequest with
  | Some GuaranteedPod => fitsRequestCore podRequest (NumPods n) (GuaranteedAllocatable n) (GuaranteedRequested n) ie ig
  | Some BestEffortPod => fitsRequestCore podRequest (NumPods n) (BestEffortAllocatable n) (BestEffortRequested n) ie ig
  | None => None
  end.

Definition Fit_PreFilter (cs : CycleState) (p : Pod) : CycleState := cs_set_Fit (ComputePodResourceRequest p) cs.
Definition Fit_Filter (ie ig : gset string) (cs : CycleState) (p : Pod) (n : NodeInfo) : Status :=
  match cs_Fit cs with
  | None => Some Error
  | Some s =>
      if pr_Err s then Some Error else
      match (NodeFits p n).2 with
      | Some st => Some st
      | None => match FitsRequest s n ie ig with Some _ => Some Unschedulable | None => None end
      end
  end.
Definition FitPlugin (ie ig : gset string) : FilterPlugin := {| fp_Name := "NodeResourcesFit"; fp_Filter := Fit_Filter ie ig |}.
End fit.

(** ** What the filters see of a node

    [World n P]: the node [n] holds the pods [P], with balanced accounts and exact
    host ports.  [sane r P]: the pods of [P] can be together on one node, where a
    pod that asks for [r] is to be placed: they do not share host ports, and their
    requests with [r] stay within int64. *)

Section world.
Context {MR : MapRange} {ML : MapRangeLaws MR} (cf : Config) (Hnn : cf_nonNative cf = false).
Abbreviation ord := (λ m, range_map m).
Abbreviation NS := (NS cf).
Abbreviation info := (info cf).
Implicit Types (n : NodeInfo) (P : gmap string PodInfo) (p : Pod) (r : Resource).

Definition World n P : Prop := NS n P ∧ PortsOK n P.

Record sane r P : Prop := {
  sane_made : ∀ u q, P !! u = Some q → q = info (pi_Pod q) ∧ UID (pi_Pod q) = u ∧ u ≠ "";
  sane_ports : ∀ k k' q q' ip pp, P !! k = Some q → P !! k' = Some q' → k ≠ k' → uses (pi_Pod q) ip pp → ¬ uses (pi_Pod q') ip pp;
  sane_nonneg : ∀ k q d, P !! k = Some q → (0 ≤ amount (Res q) d)%Z;
  sane_request : ∀ d, (0 ≤ amount r d)%Z;
  sane_sum : ∀ t d, (amount r d + zsum (λ q, amount (Res q) d) (typed t P) ≤ i64_max)%Z;
  sane_count : (Z.of_nat (size P) < i64_max)%Z
}.

Lemma info_Pod p : pi_Pod (info p) = p.
Proof.
  unfold NodeStoreProps.info, NewPodInfo. by destruct (CalculateResource _ _ _) as [[? ?] ?], (GetProtectionDuration _), (GetOwnerInfo _).
Qed.
Lemma info_Key p : PodKey (info p) = UID p.
Proof.
  unfold NodeStoreProps.info, NewPodInfo. by destruct (CalculateResource _ _ _) as [[? ?] ?], (GetProtectionDuration _), (GetOwnerInfo _).
Qed.

Lemma world_add n P p : World n P → P !! UID p = None →
  ∃ n', node_AddPod cf p n = Some n' ∧ World n' (<[UID p := info p]> P) ∧ same_objects n n'.
Proof.
  intros [HN HP] Hn. destruct (node_add_ok cf n P p HN Hn) as (n' & E & HN' & Hs). exists n'. split_and!; [done| |done].
  split; [done|]. destruct HN as [HI Hnu].
  destruct (NI_Add ord (cf_gates cf) (cf_json cf) ord ord ord (cf_parse cf)) with (n := n) (P := P) (pod := p) as (n2 & E2 & _ & HU);
    [intros; apply map_range_perm..|done|done|by intros t; rw Hnu|].
  unfold node_AddPod in E. rw E2 in E. injection E as ->. eapply PortsOK_add; [done|done|apply info_Pod|done].
Qed.

Lemma world_remove r n P p pre q : World n P → sane r P → P !! UID p = Some q →
  ∃ n', node_RemovePod cf p pre n = Some (n', None) ∧ World n' (delete (UID p) P) ∧ same_objects n n'.
Proof.
  intros [HN HP] Hsane Hq. destruct (sane_made _ _ Hsane _ _ Hq) as (_ & _ & Hu).
  pose proof (node_remove_ok cf n P p pre HN Hu) as H. rw Hq in H. destruct H as (n' & E & HN' & Hs).
  exists n'. split_and!; [done| |done]. split; [done|]. destruct HN as [HI Hnu].
  destruct (RemovePod_spec ord (cf_gates cf) ord ord ord (cf_parse cf)) with (n := n) (P := P) (pod := p) (preempt := pre)
    as (n2 & e & E2 & H); [intros; apply map_range_perm..|done|by intros ? _ t; rw Hnu|].
  unfold node_RemovePod in E. rw E2 in E. injection E as -> ->. rw Hq (bool_decide_eq_false_2 _ Hu) in H. destruct H as (_ & _ & HU).
  eapply PortsOK_remove; [done|done| |done]. intros k q' ip pp Hk Hne Hus. eapply (sane_ports _ _ Hsane (UID p) k); eauto.
Qed.

(** Sub-maps stay sane. *)
Lemma zsum_sub f (Pb : PodInfo → bool) P P' : P' ⊆ P → (∀ k q, P !! k = Some q → (0 ≤ f q)%Z) →
  (zsum f (pods_of (sub Pb P')) ≤ zsum f (pods_of (sub Pb P)))%Z.
Proof.
  intros Hsub. remember (P ∖ P') as D eqn:HD. revert P' Hsub HD.
  induction D as [|k q D Hk IH] using map_ind; intros P' Hsub HD Hpos.
  - assert (P' = P) as ->; [|done]. apply map_eq. intros i. destruct (P' !! i) as [x|] eqn:Ei.
    + symmetry. by eapply lookup_weaken.
    + destruct (P !! i) as [x|] eqn:Ep; [|done].
      assert ((P ∖ P') !! i = Some x) as H by by apply lookup_difference_Some. by rw -HD lookup_empty in H.
  - assert ((P ∖ P') !! k = Some q) as [HP HP']%lookup_difference_Some by by rw -HD lookup_insert_eq.
    transitivity (zsum f (pods_of (sub Pb (<[k := q]> P')))).
    + rw !pods_of_sub. unfold pods_of. rw map_to_list_insert // fmap_cons filter_cons. case_decide; [|done].
      rw zsum_cons. specialize (Hpos _ _ HP). cbn [snd] in *. lia.
    + apply IH; [by apply insert_subseteq_l| |done]. apply map_eq. intros i.
      destruct (decide (i = k)) as [->|Hne].
      * rw Hk. symmetry. apply lookup_difference_None. right. rw lookup_insert_eq. eauto.
      * rewrite -(lookup_insert_ne D k i q); [|done]. rw HD. apply option_eq. intros x.
        rw !lookup_difference_Some lookup_insert_ne //.
Qed.

Lemma sane_sub r P P' : sane r P → P' ⊆ P → sane r P'.
Proof.
  intros [H1 H2 H3 H4 H5 H6] Hsub. split.
  - intros u q Hu. apply (H1 u q). by eapply lookup_weaken.
  - intros k k' q q' ip pp Hk Hk'. apply (H2 k k' q q'); by eapply lookup_weaken.
  - intros k q d Hk. apply (H3 k). by eapply lookup_weaken.
  - done.
  - intros t d. specialize (H5 t d).
    pose proof (zsum_sub (λ q, amount (Res q) d) (of_type t) P P' Hsub (λ k q Hk, H3 k q d Hk)) as H. unfold typed in *. lia.
  - apply map_subseteq_size in Hsub. lia.
Qed.

(** *** Resources *)

Definition alloc_for (t : PodResourceType) n : Resource :=
  match t with GuaranteedPod => GuaranteedAllocatable n | BestEffortPod => BestEffortAllocatable n end.

(** The dimensions [fitsRequestCore] compares. *)
Definition checked (ie ig : gset string) r (d : Dim) : bool :=
  negb (isZeroRequest r) &&
  match d with
  | DCPU | DMem | DEph => true
  | DPods => false
  | DScalar x => bool_decide (is_Some (default ∅ (ScalarResources r) !! x)) && negb (ignored ie ig x)
  end.

Lemma fits_scalars_None ie ig allocatable requested l :
  fits_scalars ie ig allocatable requested l = None ↔
  ∀ x q, (x, q) ∈ l → ignored ie ig x = false → (wrap64 (q + scalar requested x) ≤ scalar allocatable x)%Z.
Proof.
  induction l as [|[x q] l IH]; simpl; [split; [by intros _ ? ? ?%not_elem_of_nil|done]|].
  destruct (ignored ie ig x) eqn:Ei.
  { rw IH. split; intros H y v Hin; [|by apply H; right]. apply elem_of_cons in Hin as [[= -> ->]|Hin]; [congruence|by apply H]. }
  case_match eqn:El; [|rw IH]; (split; [|]).
  - done.
  - intros H. specialize (H x q (list_elem_of_here _ _) Ei). lia.
  - intros H y v Hin. apply elem_of_cons in Hin as [[= -> ->]|Hin]; [intros _; lia|by apply H].
  - intros H y v Hin. by apply H; right.
Qed.

Lemma core_None s num allocatable requested ie ig : let r := pr_Resource s in
  fitsRequestCore s num allocatable requested ie ig = None ↔
  (pr_IgnorePodsLimit s = true ∨ (wrap64 (num + 1) ≤ AllowedPodNumber allocatable)%Z)
  ∧ ∀ d, checked ie ig r d = true → (wrap64 (amount r d + amount requested d) ≤ amount allocatable d)%Z.
Proof.
  intros r. unfold fitsRequestCore. fold r. unfold checked.
  destruct (negb (pr_IgnorePodsLimit s) && (AllowedPodNumber allocatable <? wrap64 (num + 1))%Z) eqn:El.
  { apply andb_true_iff in El as [Hi Hlt]. split; [done|]. intros [[H|H] _]; [by rw H in Hi|lia]. }
  assert (pr_IgnorePodsLimit s = true ∨ (wrap64 (num + 1) ≤ AllowedPodNumber allocatable)%Z) as Hnum.
  { destruct (pr_IgnorePodsLimit s); [by left|]. simpl in El. right. lia. }
  destruct (isZeroRequest r); simpl; [by split|].
  destruct (MilliCPU allocatable <? _)%Z eqn:E1.
  { split; [done|]. intros [_ H]. specialize (H DCPU eq_refl). simpl in H. lia. }
  destruct (Memory allocatable <? _)%Z eqn:E2.
  { split; [done|]. intros [_ H]. specialize (H DMem eq_refl). simpl in H. lia. }
  destruct (EphemeralStorage allocatable <? _)%Z eqn:E3.
  { split; [done|]. intros [_ H]. specialize (H DEph eq_refl). simpl in H. lia. }
  assert (∀ x q, (x, q) ∈ range_map (default ∅ (ScalarResources r)) → scalar r x = q) as Hsc.
  { intros x q Hin%range_elem. unfold scalar. destruct (ScalarResources r) as [m|]; simpl in *; [by rw Hin|by rw lookup_empty in Hin]. }
  rw fits_scalars_None. split.
  - intros H. split; [done|]. intros [| | | |x]; simpl; intros Hd; try done; try lia.
    apply andb_true_iff in Hd as [[q Hq]%bool_decide_eq_true Hi%negb_true_iff].
    apply range_elem in Hq. rw (Hsc _ _ Hq). by apply H.
  - intros [_ H] x q Hin Hi. rw -(Hsc _ _ Hin). apply (H (DScalar x)). apply andb_true_iff. split; [|by rw Hi].
    apply bool_decide_eq_true. apply range_elem in Hin. eauto.
Qed.

Lemma zsum_nonneg f (l : list PodInfo) : (∀ q, q ∈ l → (0 ≤ f q)%Z) → (0 ≤ zsum f l)%Z.
Proof.
  induction l as [|q l IH]; intros H; [done|]. rw zsum_cons. pose proof (H q (list_elem_of_here _ _)).
  assert (0 ≤ zsum f l)%Z by (apply IH; intros; apply H; by right). lia.
Qed.

Lemma sane_typed_nonneg r P t d : sane r P → (0 ≤ zsum (λ q, amount (Res q) d) (typed t P))%Z.
Proof.
  intros HS. apply zsum_nonneg. intros q. unfold typed, pods_of. rw list_elem_of_fmap. intros ([k q'] & -> & Hk).
  apply elem_of_map_to_list, sub_lookup in Hk as [Hk _]. by eapply (sane_nonneg _ _ HS).
Qed.

Lemma requested_exact r n P t d : World n P → sane r P → d ≠ DPods →
  amount (match t with GuaranteedPod => GuaranteedRequested n | BestEffortPod => BestEffortRequested n end) d
  = zsum (λ q, amount (Res q) d) (typed t P).
Proof.
  intros [[HI _] _] HS Hd. pose proof (sane_typed_nonneg r P t d HS). pose proof (sane_sum _ _ HS t d). pose proof (sane_request _ _ HS d).
  assert (wrap64 (zsum (λ q, amount (Res q) d) (typed t P)) = zsum (λ q, amount (Res q) d) (typed t P)) as Hw
    by (apply wrap64_id; unfold in_i64, i64_min; lia).
  destruct t; [pose proof (ni_gt _ _ _ _ HI d) as H'|pose proof (ni_be _ _ _ _ HI d) as H']; rw H'; by destruct d.
Qed.

Lemma fits_None s t n P ie ig : World n P → sane (pr_Resource s) P → pr_ResourceType s = Some t →
  FitsRequest s n ie ig = None ↔
  (pr_IgnorePodsLimit s = true ∨ (Z.of_nat (size P) + 1 ≤ AllowedPodNumber (alloc_for t n))%Z)
  ∧ ∀ d, checked ie ig (pr_Resource s) d = true →
      (amount (pr_Resource s) d + zsum (λ q, amount (Res q) d) (typed t P) ≤ amount (alloc_for t n) d)%Z.
Proof.
  intros HW HS Ht. unfold FitsRequest. rw Ht.
  assert (∀ d, checked ie ig (pr_Resource s) d = true → d ≠ DPods) as Hne.
  { intros d Hd ->. unfold checked in Hd. by rw andb_false_r in Hd. }
  pose proof (NS_len cf n P (proj1 HW)) as Hlen. pose proof (sane_count _ _ HS) as Hc.
  assert (wrap64 (NumPods n + 1) = Z.of_nat (size P) + 1)%Z as Hw1.
  { rw Hlen. apply wrap64_id. unfold in_i64, i64_min. lia. }
  assert (∀ d, checked ie ig (pr_Resource s) d = true →
    wrap64 (amount (pr_Resource s) d + amount (match t with GuaranteedPod => GuaranteedRequested n | BestEffortPod => BestEffortRequested n end) d)
    = amount (pr_Resource s) d + zsum (λ q, amount (Res q) d) (typed t P))%Z as Hw2.
  { intros d Hd. rw (requested_exact _ _ _ t d HW HS (Hne d Hd)). apply wrap64_id.
    pose proof (sane_typed_nonneg _ P t d HS). pose proof (sane_sum _ _ HS t d). pose proof (sane_request _ _ HS d). unfold in_i64, i64_min. lia. }
  destruct t; rw core_None Hw1; apply and_iff_compat_l; split; intros H d Hd; specialize (H d Hd); specialize (Hw2 d Hd);
    cbv beta iota in Hw2; unfold alloc_for in *; lia.
Qed.

(** What the plugin asks for is what the node will account for the pod. *)
Lemma request_is_res p : pr_Resource (ComputePodResourceRequest cf p) = Res (info p).
Proof.
  unfold NodeStoreProps.info, NewPodInfo. destruct (CalculateResource _ _ p) as [[res c] m] eqn:E.
  destruct (GetProtectionDuration _), (GetOwnerInfo _). simpl.
  change res with (res, c, m).1.1. rw -E. clear. unfold CalculateResource.
  assert (∀ l acc, (foldl (calc_container ord (cf_gates cf)) acc l).1.1
    = foldl (λ r c, Resource.Add ord (LocalStorageCapacityIsolation (cf_gates cf)) (c_Requests c) r) acc.1.1 l) as H1.
  { intros l. induction l as [|x l IH]; intros [[a b] d]; [done|]. simpl. rw IH. unfold calc_container.
    by destruct (GetNonzeroRequests (LocalStorageCapacityIsolation (cf_gates cf)) (c_Requests x)). }
  assert (∀ l acc, (foldl (calc_init ord (cf_gates cf)) acc l).1.1
    = foldl (λ r c, SetMaxResource ord (c_Requests c) r) acc.1.1 l) as H2.
  { intros l. induction l as [|x l IH]; intros [[a b] d]; [done|]. simpl. rw IH. unfold calc_init.
    by destruct (GetNonzeroRequests (LocalStorageCapacityIsolation (cf_gates cf)) (c_Requests x)). }
  rw -(H1 _ (zeroResource, 0%Z, 0%Z)) -H2. destruct (Overhead p); [|done]. destruct (PodOverhead _); [|done].
  by destruct (foldl (calc_init _ _) _ _) as [[? ?] ?].
Qed.

(** *** Taking pods off a node *)

Definition request (cs : CycleState) : Resource := match cs_Fit cs with Some s => pr_Resource s | None => zeroResource end.

(** A plugin that succeeds on a node succeeds on the node with fewer pods. *)
Class PodMonotone (fp : FilterPlugin) (cs : CycleState) (p : Pod) : Prop :=
  pod_mono n n' P P' : World n P → World n' P' → same_objects n n' → sane (request cs) P → P' ⊆ P →
    IsSuccess (fp_Filter fp cs p n) = true → IsSuccess (fp_Filter fp cs p n') = true.

Lemma NodeFits_same p n n' : same_objects n n' → NodeFits p n' = NodeFits p n.
Proof. intros (H1 & H2 & _). unfold NodeFits, canPodPlaceOnNode. by rw H1 H2. Qed.

#[export] Instance PodLauncher_mono cs p : PodMonotone PodLauncherPlugin cs p.
Proof. intros n n' P P' _ _ Hs _ _. unfold PodLauncherPlugin, PodLauncher_Filter. simpl. by rw (NodeFits_same p n n' Hs). Qed.
#[export] Instance TaintToleration_mono cs p : PodMonotone TaintTolerationPlugin cs p.
Proof.
  intros n n' P P' _ _ Hs _ _. unfold TaintTolerationPlugin, TaintToleration_Filter. simpl. rw (NodeFits_same p n n' Hs).
  destruct Hs as (H1 & H2 & _). unfold node_taints. by rw H1 H2.
Qed.
#[export] Instance NodeUnschedulable_mono cs p : PodMonotone NodeUnschedulablePlugin cs p.
Proof.
  intros n n' P P' _ _ Hs _ _. unfold NodeUnschedulablePlugin, NodeUnschedulable_Filter. simpl. rw (NodeFits_same p n n' Hs).
  destruct Hs as (H1 & H2 & _). by rw H1 H2.
Qed.

Lemma ports_fit_iff want n P : World n P →
  FitsPorts want n = true ↔ ∀ cp, cp ∈ want → ¬ ((0 < HostPort cp)%Z ∧ ∃ ip' k q, P !! k = Some q
    ∧ uses (pi_Pod q) ip' (port_pp (Protocol cp) (HostPort cp))
    ∧ (ip' = port_ip (HostIP cp) ∨ ip' = DefaultBindAllHostIP ∨ port_ip (HostIP cp) = DefaultBindAllHostIP)).
Proof.
  intros [_ HP]. unfold FitsPorts. rw forallb_forall. setoid_rewrite <- list_elem_of_In. split.
  - intros H cp Hin [Hpos (ip' & k & q & Hk & Hu & Hip)]. specialize (H cp Hin). apply negb_true_iff in H.
    assert (CheckConflict (HostIP cp) (Protocol cp) (HostPort cp) (UsedPorts n) = true); [|congruence].
    apply (check_conflict_iff _ _ _ _). split; [done|]. exists ip'. split; [|done]. apply HP. eauto.
  - intros H cp Hin. apply negb_true_iff, not_true_iff_false. rw check_conflict_iff. intros [Hpos (ip' & Ht & Hip)].
    apply HP in Ht as (k & q & Hk & Hu). apply (H cp Hin). split; [done|]. exists ip', k, q. auto.
Qed.

#[export] Instance NodePorts_mono cs p : PodMonotone NodePortsPlugin cs p.
Proof.
  intros n n' P P' HW HW' Hs _ Hsub. unfold NodePortsPlugin, NodePorts_Filter. simpl. destruct (cs_NodePorts cs) as [want|]; [|done].
  destruct (FitsPorts want n) eqn:E; [|done]. intros _. rw (proj2 (ports_fit_iff want n' P' HW')) //.
  intros cp Hin [Hpos (ip' & k & q & Hk & ?)]. eapply (proj1 (ports_fit_iff want n P HW) E cp Hin). split; [done|].
  exists ip', k, q. split; [|done]. by eapply lookup_weaken.
Qed.

Lemma alloc_same t n n' P P' : World n P → World n' P' → same_objects n n' → alloc_for t n' = alloc_for t n.
Proof.
  intros [[HI _] _] [[HI' _] _] (H1 & H2 & H3 & _). unfold alloc_for.
  rw (ni_alloc _ _ _ _ HI) (ni_alloc _ _ _ _ HI') (ni_be_alloc _ _ _ _ HI) (ni_be_alloc _ _ _ _ HI'). by rw H1 H2 H3.
Qed.

#[export] Instance Fit_mono ie ig cs p : PodMonotone (FitPlugin ie ig) cs p.
Proof.
  intros n n' P P' HW HW' Hs HS Hsub. unfold FitPlugin, Fit_Filter. simpl. unfold request in HS.
  destruct (cs_Fit cs) as [s|]; [|done]. destruct (pr_Err s); [done|]. rw (NodeFits_same p n n' Hs).
  destruct (NodeFits p n).2; [done|]. destruct (FitsRequest s n ie ig) eqn:E; [done|]. intros _.
  destruct (pr_ResourceType s) as [t|] eqn:Et; [|by unfold FitsRequest; rw Et].
  assert (FitsRequest s n' ie ig = None) as ->; [|done]. apply (fits_None s t n P) in E; [|done..].
  apply (fits_None s t n' P'); [done|by eapply sane_sub|done|]. rw (alloc_same t n n' P P' HW HW' Hs).
  destruct E as [E1 E2]. split.
  - destruct E1 as [?|E1]; [by left|right]. apply map_subseteq_size in Hsub. lia.
  - intros d Hd. specialize (E2 d Hd).
    pose proof (zsum_sub (λ q, amount (Res q) d) (of_type t) P P' Hsub (λ k q Hk, sane_nonneg _ _ HS k q d Hk)) as H. unfold typed in *. lia.
Qed.

(** C6: [NodeResourcesFit] admits a pod exactly when the node has what the pod's
    launcher needs, has room for one more pod (unless the pod ignores the limit),
    and in every compared dimension the requests of the pods of the same type on
    the node plus the pod's own are within what is allocatable; and the node the
    pod is then added to requests no more than it has in these dimensions. *)
Theorem fit_admits_exactly ie ig cs n P p t (HW : World n P) (HS : sane (Res (info p)) P) (Ht : GetPodResourceType p = Some t) :
  (IsSuccess (Fit_Filter ie ig (Fit_PreFilter cf cs p) p n) = true ↔
    (∃ l, GetPodLauncher p = Some l ∧ canPodPlaceOnNode l n = true)
    ∧ (IgnorePodsLimit (Some p) = true ∨ (Z.of_nat (size P) + 1 ≤ AllowedPodNumber (alloc_for t n))%Z)
    ∧ ∀ d, checked ie ig (Res (info p)) d = true →
        (amount (Res (info p)) d + zsum (λ q, amount (Res q) d) (typed t P) ≤ amount (alloc_for t n) d)%Z)
  ∧ (IsSuccess (Fit_Filter ie ig (Fit_PreFilter cf cs p) p n) = true → P !! UID p = None →
     ∃ n', node_AddPod cf p n = Some n' ∧ World n' (<[UID p := info p]> P) ∧ ∀ d, checked ie ig (Res (info p)) d = true →
       (amount (match t with GuaranteedPod => GuaranteedRequested n' | BestEffortPod => BestEffortRequested n' end) d
        ≤ amount (alloc_for t n') d)%Z).
Proof.
  assert (IsSuccess (Fit_Filter ie ig (Fit_PreFilter cf cs p) p n) = true ↔
    (∃ l, GetPodLauncher p = Some l ∧ canPodPlaceOnNode l n = true)
    ∧ FitsRequest (ComputePodResourceRequest cf p) n ie ig = None) as Hs.
  { unfold Fit_Filter. simpl. unfold NodeFits. destruct (GetPodLauncher p) as [l|]; [|by split; [|intros [(? & ? & _) _]]].
    destruct (canPodPlaceOnNode l n) eqn:El; simpl; [|by split; [|intros [(? & [= <-] & ?) _]; congruence]].
    split.
    - destruct (FitsRequest _ _ _ _); [done|]. intros _. split; [by exists l|done].
    - by intros [_ ->]. }
  pose proof (request_is_res p) as Hreq.
  assert (pr_ResourceType (ComputePodResourceRequest cf p) = Some t) as Ht' by done.
  assert (sane (pr_Resource (ComputePodResourceRequest cf p)) P) as HS' by by rw Hreq.
  pose proof (fits_None _ t n P ie ig HW HS' Ht') as Hf. rw Hreq in Hf.
  split; [by rw Hs Hf|]. intros [_ Hfit%Hf]%Hs Hn.
  destruct (world_add n P p HW Hn) as (n' & E & HW' & Hsame). exists n'. split; [done|]. split; [done|]. intros d Hd.
  assert (d ≠ DPods) as Hne by (intros ->; unfold checked in Hd; by rw andb_false_r in Hd).
  rw (alloc_same t n n' _ _ HW HW' Hsame). destruct Hfit as [_ Hfit]. specialize (Hfit d Hd).
  assert (of_type t (info p) = true) as Hty.
  { unfold of_type, pod_type. assert (pi_ResourceType (info p) = Some t) as ->; [|by destruct t].
    unfold NodeStoreProps.info, NewPodInfo. by destruct (CalculateResource _ _ _) as [[? ?] ?], (GetProtectionDuration _), (GetOwnerInfo _). }
  pose proof (sane_typed_nonneg _ P t d HS). pose proof (sane_sum _ _ HS t d). pose proof (sane_request _ _ HS d).
  destruct HW' as [[HI' _] _].
  assert (wrap64 (zsum (λ q, amount (Res q) d) (typed t (<[UID p := info p]> P)))
    = amount (Res (info p)) d + zsum (λ q, amount (Res q) d) (typed t P))%Z as Hw.
  { unfold typed. rewrite -{1}(info_Key p). rw pods_of_sub_insert; [|by rw info_Key]. rw Hty zsum_cons. apply wrap64_id. unfold in_i64, i64_min, typed in *. lia. }
  destruct t; [pose proof (ni_gt _ _ _ _ HI' d) as HR|pose proof (ni_be _ _ _ _ HI' d) as HR]; rw HR; destruct d; try done;
    rw Hw; exact Hfit.
Qed.
End world.

(** ** Examples *)

Module FilterExamples.

Definition cf0 : Config :=
  {| cf_gates := all_gates; cf_nonNative := false; cf_json := λ _, ∅; cf_parse := Atoi;
     cf_nominated := Some; ComponentName := "scheduler"; SchedulerType := "" |}.
Definition node0 : Node :=
  {| node_Name := "node"; node_Labels := ∅; node_Annotations := ∅; node_Unschedulable := false; node_Taints := [];
     node_Conditions := []; node_Images := [];
     node_Allocatable := <[ResourceCPU := NewQuantity 1]> {[ResourcePods := NewQuantity 10]}; node_Capacity := ∅ |}.
Definition n_new : NodeInfo := default NodeExamples.empty_node (node_new cf0).
Definition n0 : NodeInfo := node_SetNode cf0 node0 n_new.

Lemma world0 : World cf0 n0 ∅.
Proof.
  split.
  - apply NS_objects. destruct (node_new_ok cf0 eq_refl) as (n & E & HN & _). unfold n_new. rewrite E. exact HN.
  - intros ip pp. split.
    + intros (m & Hm & _). change (UsedPorts n0) with (∅ : HostPortInfo) in Hm. by rw lookup_empty in Hm.
    + intros (k & q & Hk & _). by rw lookup_empty in Hk.
Qed.
Lemma sane0 r : (∀ d, (0 ≤ amount r d ≤ i64_max)%Z) → sane cf0 r ∅.
Proof.
  intros Hr. split.
  - intros u q Hu. by rw lookup_empty in Hu.
  - intros k k' q q' ip pp Hk. by rw lookup_empty in Hk.
  - intros k q d Hk. by rw lookup_empty in Hk.
  - intros d. apply Hr.
  - intros t d. unfold typed. rw sub_empty. change (pods_of ∅) with (@nil PodInfo). destruct (Hr d). simpl. lia.
  - by vm_compute.
Qed.
Lemma bound_amounts uid prio m d : (0 ≤ m ≤ i64_max)%Z →
  Res (info cf0 (bound_pod uid prio m)) = mkResource m 0 0 0 None → (0 ≤ amount (Res (info cf0 (bound_pod uid prio m))) d ≤ i64_max)%Z.
Proof. intros Hm ->. destruct d; simpl; unfold scalar, i64_max in *; simpl; lia. Qed.

Lemma fit_admits_exactly_witness :
  IsSuccess (Fit_Filter ∅ ∅ (Fit_PreFilter cf0 NewCycleState (bound_pod "a" 5 700)) (bound_pod "a" 5 700) n0) = true
  ∧ IsSuccess (Fit_Filter ∅ ∅ (Fit_PreFilter cf0 NewCycleState (bound_pod "a" 5 1700)) (bound_pod "a" 5 1700) n0) = false.
Proof.
  split.
  - assert (sane cf0 (Res (info cf0 (bound_pod "a" 5 700))) ∅) as HS
      by (apply sane0; intros d; apply bound_amounts; [unfold i64_max; lia|vm_compute; reflexivity]).
    destruct (fit_admits_exactly cf0 ∅ ∅ NewCycleState n0 ∅ (bound_pod "a" 5 700) GuaranteedPod world0 HS eq_refl) as [H _].
    apply H. split; [exists Kubelet; split; reflexivity|]. split; [right; vm_compute; discriminate|].
    intros [| | | |x] Hd; vm_compute; discriminate.
  - vm_compute. reflexivity.
Defined.
End FilterExamples.
