(* ===== verification/PdbStore.v ===== *)
(** * Disruption budgets and the workloads they select

    pkg/scheduler/cache/commonstores/pdb_store: [PdbStore] keeps, for every
    PodDisruptionBudget, the replica sets and daemon sets whose labels its selector
    matches, and for every such owner the budgets.  The label selectors are those of
    the vendored apimachinery (pkg/apis/meta/v1/helpers.go, pkg/labels/selector.go);
    what is a valid label key or value, and the text of a selector, are arguments.

    The three generation stores are maps here (GenStore.v proves that they are); the
    generations of the items are not kept.  An item in the store is a pointer, so an
    item changed after its [Set] is changed in the map. *)
From S2P Require Import Prelude GoStrings PodModel.

Local Open Scope godel_scope.
Local Open Scope string_scope.

(** ** Label selectors *)

Inductive Operator := OpEquals | OpIn | OpNotIn | OpExists | OpDoesNotExist.
#[export] Instance Operator_eq_dec : EqDecision Operator.
Proof. solve_decision. Defined.

Record Requirement := mkRequirement { req_key : string; req_operator : Operator; strValues : list string }.
Definition hasValue (value : string) (r : Requirement) : bool := existsb (λ v, v ≟ value) (strValues r).
Definition Requirement_Matches (ls : gmap string string) (r : Requirement) : bool :=
  match req_operator r with
  | OpIn | OpEquals => match ls !! req_key r with Some v => hasValue v r | None => false end
  | OpNotIn => match ls !! req_key r with Some v => negb (hasValue v r) | None => true end
  | OpExists => bool_decide (is_Some (ls !! req_key r))
  | OpDoesNotExist => negb (bool_decide (is_Some (ls !! req_key r)))
  end.

(** [Requirements] is internalSelector; the order of its elements does not matter. *)
Inductive Selector := Nothing | Requirements (rs : list Requirement).
Definition Matches (s : Selector) (ls : gmap string string) : bool :=
  match s with
  | Nothing => false
  | Requirements rs => forallb (Requirement_Matches ls) rs
  end.
Definition Selector_Empty (s : Selector) : bool :=
  match s with Nothing => false | Requirements rs => length rs ≟ 0%nat end.

Record LabelSelectorRequirement := { expr_Key : string; expr_Operator : string; expr_Values : list string }.
Record LabelSelector := { MatchLabels : gmap string string; MatchExpressions : list LabelSelectorRequirement }.

Section selectors.
Context {MR : MapRange} (validKey validValue : string → bool).

Definition NewRequirement (key : string) (op : Operator) (vals : list string) : option Requirement :=
  if validKey key
     && match op with
        | OpIn | OpNotIn => negb (length vals ≟ 0%nat)
        | OpEquals => length vals ≟ 1%nat
        | OpExists | OpDoesNotExist => length vals ≟ 0%nat
        end
     && forallb validValue vals
  then Some (mkRequirement key op vals) else None.

Definition operator_of (o : string) : option Operator :=
  if o ≟ "In" then Some OpIn else if o ≟ "NotIn" then Some OpNotIn
  else if o ≟ "Exists" then Some OpExists else if o ≟ "DoesNotExist" then Some OpDoesNotExist else None.

Definition LabelSelectorAsSelector (ps : option LabelSelector) : option Selector :=
  match ps with
  | None => Some Nothing
  | Some ps =>
      if (size (MatchLabels ps) + length (MatchExpressions ps))%nat ≟ 0%nat then Some (Requirements []) else
      ls ← mapM (λ '(k, v), NewRequirement k OpEquals [v]) (range_map (MatchLabels ps));
      es ← mapM (λ e, op ← operator_of (expr_Operator e); NewRequirement (expr_Key e) op (expr_Values e)) (MatchExpressions ps);
      Some (Requirements (ls ++ es)%list)
  end.
End selectors.

(** ** Items *)

Record PodDisruptionBudget := {
  pdb_Namespace : string; pdb_Name : string; pdb_Selector : option LabelSelector;
  DisruptionsAllowed : Z; DisruptedPods : gset string
}.
Definition GetPDBKey (pdb : PodDisruptionBudget) : string := pdb_Namespace pdb ++ "/" ++ pdb_Name pdb.

Definition OwnerTypeReplicaSet : string := "ReplicaSet".
Definition OwnerTypeDaemonSet : string := "DaemonSet".

Record PDBItem := mkPDBItem {
  item_pdb : option PodDisruptionBudget; pdbSelector : option Selector;
  replicaSetKeys : gset string; daemonSetKeys : gset string
}.
Definition NewPDBItemImpl (pdb : option PodDisruptionBudget) : PDBItem := mkPDBItem pdb None ∅ ∅.
Definition SetPDB (pdb : PodDisruptionBudget) (p : PDBItem) : PDBItem := mkPDBItem (Some pdb) (pdbSelector p) (replicaSetKeys p) (daemonSetKeys p).
Definition SetPDBSelector (sel : Selector) (p : PDBItem) : PDBItem := mkPDBItem (item_pdb p) (Some sel) (replicaSetKeys p) (daemonSetKeys p).
Definition RemoveAllOwners (p : PDBItem) : PDBItem := mkPDBItem (item_pdb p) (pdbSelector p) ∅ ∅.
Definition item_AddOwner (ownerType k : string) (p : PDBItem) : PDBItem :=
  if ownerType ≟ OwnerTypeReplicaSet then mkPDBItem (item_pdb p) (pdbSelector p) ({[k]} ∪ replicaSetKeys p) (daemonSetKeys p)
  else if ownerType ≟ OwnerTypeDaemonSet then mkPDBItem (item_pdb p) (pdbSelector p) (replicaSetKeys p) ({[k]} ∪ daemonSetKeys p)
  else p.
Definition item_RemoveOwner (ownerType k : string) (p : PDBItem) : PDBItem :=
  if ownerType ≟ OwnerTypeReplicaSet then mkPDBItem (item_pdb p) (pdbSelector p) (replicaSetKeys p ∖ {[k]}) (daemonSetKeys p)
  else if ownerType ≟ OwnerTypeDaemonSet then mkPDBItem (item_pdb p) (pdbSelector p) (replicaSetKeys p) (daemonSetKeys p ∖ {[k]})
  else p.
Definition GetRelatedOwnersByType (ownerType : string) (p : PDBItem) : gset string :=
  if ownerType ≟ OwnerTypeReplicaSet then replicaSetKeys p
  else if ownerType ≟ OwnerTypeDaemonSet then daemonSetKeys p else ∅.
(** [Clone] and [Replace] of a snapshot; the selector interface must not be nil. *)
Definition item_Clone (p : PDBItem) : option PDBItem :=
  _ ← pdbSelector p; Some (mkPDBItem (item_pdb p) (pdbSelector p) (replicaSetKeys p) (daemonSetKeys p)).

Record OwnerItem := mkOwnerItem { ownerLabels : gmap string string; owner_Pdbs : gset string; pdbUpdated : bool }.
Definition owner_AddPDB (k : string) (o : OwnerItem) : OwnerItem := mkOwnerItem (ownerLabels o) ({[k]} ∪ owner_Pdbs o) (pdbUpdated o).
Definition owner_RemovePDB (k : string) (o : OwnerItem) : OwnerItem := mkOwnerItem (ownerLabels o) (owner_Pdbs o ∖ {[k]}) (pdbUpdated o).
Definition owner_SetPDBUpdated (o : OwnerItem) : OwnerItem := mkOwnerItem (ownerLabels o) (owner_Pdbs o) true.

(** ** The store *)

Record PdbStore := mkPdbStore { ReplicaSets : gmap string OwnerItem; DaemonSets : gmap string OwnerItem; Pdbs : gmap string PDBItem }.
Definition NewPdbStore : PdbStore := mkPdbStore ∅ ∅ ∅.

(** The store that the switch on the owner type picks. *)
Definition owners (ownerType : string) (s : PdbStore) : option (gmap string OwnerItem) :=
  if ownerType ≟ OwnerTypeReplicaSet then Some (ReplicaSets s)
  else if ownerType ≟ OwnerTypeDaemonSet then Some (DaemonSets s) else None.
Definition set_owners (ownerType : string) (m : gmap string OwnerItem) (s : PdbStore) : PdbStore :=
  if ownerType ≟ OwnerTypeReplicaSet then mkPdbStore m (DaemonSets s) (Pdbs s)
  else if ownerType ≟ OwnerTypeDaemonSet then mkPdbStore (ReplicaSets s) m (Pdbs s) else s.
Definition alter_owner (ownerType k : string) (f : OwnerItem → OwnerItem) (s : PdbStore) : PdbStore :=
  match owners ownerType s with Some m => set_owners ownerType (alter f k m) s | None => s end.
Definition alter_pdb (k : string) (f : PDBItem → PDBItem) (s : PdbStore) : PdbStore :=
  mkPdbStore (ReplicaSets s) (DaemonSets s) (alter f k (Pdbs s)).
Definition set_pdbs (m : gmap string PDBItem) (s : PdbStore) : PdbStore := mkPdbStore (ReplicaSets s) (DaemonSets s) m.

(** [EqualMap] of pkg/util: the values of the first map, with the second map's default. *)
Definition EqualMap {MR : MapRange} (m1 m2 : gmap string string) : bool :=
  (size m1 ≟ size m2) && forallb (λ '(k, v), v ≟ default "" (m2 !! k)) (range_map m1).

Section store.
Context {MR : MapRange} (validKey validValue : string → bool) (SelString : option LabelSelector → string).
Abbreviation AsSelector := (LabelSelectorAsSelector validKey validValue).
Implicit Types (s : PdbStore) (pdb : PodDisruptionBudget).

Definition addPDB_visit (ownerType k : string) (selector : Selector) s (e : string * OwnerItem) : PdbStore :=
  if Matches selector (ownerLabels e.2)
  then alter_pdb k (item_AddOwner ownerType e.1) (alter_owner ownerType e.1 (owner_AddPDB k) s)
  else alter_owner ownerType e.1 (owner_RemovePDB k) s.
Definition addPDB (pdb : PodDisruptionBudget) s : PdbStore :=
  let k := GetPDBKey pdb in
  match AsSelector (pdb_Selector pdb) with
  | None => s
  | Some selector =>
      let s := alter_pdb k (λ it, RemoveAllOwners (SetPDBSelector selector it)) s in
      let s := foldl (addPDB_visit OwnerTypeReplicaSet k selector) s (range_map (ReplicaSets s)) in
      foldl (addPDB_visit OwnerTypeDaemonSet k selector) s (range_map (DaemonSets s))
  end.

Definition removePDB (k : string) s : PdbStore :=
  match Pdbs s !! k with
  | None => s
  | Some it =>
      let s := foldl (λ s rs, alter_owner OwnerTypeReplicaSet rs (owner_RemovePDB k) s) s (elements (replicaSetKeys it)) in
      foldl (λ s ds, alter_owner OwnerTypeDaemonSet ds (owner_RemovePDB k) s) s (elements (daemonSetKeys it))
  end.

Definition stored_item pdb s : PDBItem :=
  match Pdbs s !! GetPDBKey pdb with Some it => SetPDB pdb it | None => NewPDBItemImpl (Some pdb) end.
Definition AddPDB pdb s : PdbStore :=
  addPDB pdb (set_pdbs (<[GetPDBKey pdb := stored_item pdb s]> (Pdbs s)) s).
Definition UpdatePDB (oldPdb newPdb : PodDisruptionBudget) s : PdbStore :=
  let s := set_pdbs (<[GetPDBKey newPdb := stored_item newPdb s]> (Pdbs s)) s in
  if SelString (pdb_Selector oldPdb) ≟ SelString (pdb_Selector newPdb) then s
  else addPDB newPdb (removePDB (GetPDBKey newPdb) s).
Definition DeletePDB pdb s : PdbStore :=
  let s := removePDB (GetPDBKey pdb) s in set_pdbs (delete (GetPDBKey pdb) (Pdbs s)) s.

(** [None] is the nil selector of an item. *)
Definition AddOwner_visit (ownerType ownerKey : string) (ls : gmap string string) (acc : option (PdbStore * list string))
    (e : string * PDBItem) : option (PdbStore * list string) :=
  '(s, matchedPDBs) ← acc;
  selector ← pdbSelector e.2;
  if negb (Matches selector ls) then Some (s, matchedPDBs)
  else Some (alter_pdb e.1 (item_AddOwner ownerType ownerKey) s, (matchedPDBs ++ [e.1])%list).
Definition AddOwner (ownerType ownerKey : string) (ls : gmap string string) s : option PdbStore :=
  match owners ownerType s with
  | None => Some s
  | Some _ =>
      '(s, matchedPDBs) ← foldl (AddOwner_visit ownerType ownerKey ls) (Some (s, [])) (range_map (Pdbs s));
      Some (set_owners ownerType (<[ownerKey := mkOwnerItem ls (list_to_set matchedPDBs) false]> (default ∅ (owners ownerType s))) s)
  end.
Definition DeleteOwner (ownerType ownerKey : string) s : PdbStore :=
  match owners ownerType s with
  | None => s
  | Some m =>
      let s := match m !! ownerKey with
               | Some o => foldl (λ s k, alter_pdb k (item_RemoveOwner ownerType ownerKey) s) s (elements (owner_Pdbs o))
               | None => s
               end in
      set_owners ownerType (delete ownerKey m) s
  end.

(** Whether the owner is known, whether its budgets changed, and their keys. *)
Definition GetPDBsForOwner (ownerType ownerKey : string) s : bool * bool * gset string :=
  match owners ownerType s ≫= (.!! ownerKey) with
  | Some o => (true, pdbUpdated o, owner_Pdbs o)
  | None => (false, false, ∅)
  end.
Definition GetOwnerLabels (ownerType ownerKey : string) s : gmap string string :=
  match owners ownerType s ≫= (.!! ownerKey) with Some o => ownerLabels o | None => ∅ end.
Definition SetPDBUpdated (ownerType ownerKey : string) s : PdbStore := alter_owner ownerType ownerKey owner_SetPDBUpdated s.
Definition GetOwnersForPDB (k ownerType : string) s : gset string :=
  match Pdbs s !! k with Some it => GetRelatedOwnersByType ownerType it | None => ∅ end.
Definition GetPDBItemList s : list PDBItem :=
  filter (λ it, is_Some (item_pdb it)) (range_map (Pdbs s)).*2.

Definition UpdateOwner (ownerType k : string) (oldLabels newLabels : gmap string string) s : option PdbStore :=
  if EqualMap oldLabels newLabels then Some s else
  let oldPDBs := (GetPDBsForOwner ownerType k s).2 in
  s ← AddOwner ownerType k newLabels (DeleteOwner ownerType k s);
  let newPDBs := (GetPDBsForOwner ownerType k s).2 in
  Some (if negb (oldPDBs ≟ newPDBs) then SetPDBUpdated ownerType k s else s).
End store.
