(* ===== verification/PdbStoreProps.v ===== *)
(** * The budgets of an owner are exactly those that select it

    [Edges] is the contract of the store: with the live budgets and the labels of
    the live owners, an owner lists exactly the budgets that select its labels and
    a budget lists exactly these owners.  Every operation keeps it. *)
From S2P Require Import Prelude GoStrings PodModel PdbStore.

Local Open Scope godel_scope.
Local Open Scope string_scope.

(** ** The two owner stores as one map *)

Definition own (t : string) (s : PdbStore) : gmap string OwnerItem := default ∅ (owners t s).
Definition known (t : string) : Prop := t = OwnerTypeReplicaSet ∨ t = OwnerTypeDaemonSet.

Lemma owners_known t s : is_Some (owners t s) ↔ known t.
Proof. unfold owners, known. repeat case_bool_decide; naive_solver. Qed.
Lemma owners_unknown t s : ¬ known t → owners t s = None.
Proof. rw -(owners_known t s). intros H. by apply eq_None_not_Some. Qed.
Lemma owners_own t s : known t → owners t s = Some (own t s).
Proof. intros [m Hm]%(owners_known t s). unfold own. by rw Hm. Qed.
Lemma own_unknown t s : ¬ known t → own t s = ∅.
Proof. intros H. unfold own. by rw owners_unknown. Qed.
Lemma known_dec t : known t ∨ ¬ known t.
Proof. unfold known. destruct (decide (t = OwnerTypeReplicaSet)), (decide (t = OwnerTypeDaemonSet)); tauto. Qed.

Lemma own_set t t' m s : known t → own t' (set_owners t m s) = if decide (t' = t) then m else own t' s.
Proof.
  intros Hk. unfold own, owners, set_owners, OwnerTypeReplicaSet, OwnerTypeDaemonSet. destruct Hk as [-> | ->]; simpl;
    case_decide; subst; simpl; repeat case_bool_decide; try done.
Qed.
Lemma pdbs_set_owners t m s : Pdbs (set_owners t m s) = Pdbs s.
Proof. unfold set_owners. by repeat case_bool_decide. Qed.
Lemma own_alter_owner t t' k f s : own t' (alter_owner t k f s) = if decide (t' = t) then alter f k (own t s) else own t' s.
Proof.
  unfold alter_owner. destruct (known_dec t) as [Hk|Hk].
  - rw (owners_own t s Hk). by rw own_set.
  - rw (owners_unknown t s Hk). case_decide; [|done]. subst t'. rw (own_unknown t s Hk). symmetry. apply alter_empty.
Qed.
Lemma pdbs_alter_owner t k f s : Pdbs (alter_owner t k f s) = Pdbs s.
Proof. unfold alter_owner. destruct (owners t s); [apply pdbs_set_owners|done]. Qed.
Lemma own_alter_pdb t k f s : own t (alter_pdb k f s) = own t s.
Proof. done. Qed.
Lemma own_set_pdbs t m s : own t (set_pdbs m s) = own t s.
Proof. done. Qed.

Lemma related_unknown t it : ¬ known t → GetRelatedOwnersByType t it = ∅.
Proof. unfold known, GetRelatedOwnersByType. intros H. repeat case_bool_decide; tauto. Qed.
Lemma related_add t t' k j it : j ∈ GetRelatedOwnersByType t' (item_AddOwner t k it) ↔ (known t ∧ t' = t ∧ j = k) ∨ j ∈ GetRelatedOwnersByType t' it.
Proof.
  destruct (known_dec t) as [[-> | ->]|Hk].
  - unfold item_AddOwner, GetRelatedOwnersByType, known. simpl. repeat case_bool_decide; subst; set_solver.
  - unfold item_AddOwner, GetRelatedOwnersByType, known. simpl. repeat case_bool_decide; subst; set_solver.
  - unfold item_AddOwner, known in *. repeat case_bool_decide; tauto.
Qed.
Lemma related_remove t t' k j it : j ∈ GetRelatedOwnersByType t' (item_RemoveOwner t k it) ↔ ¬ (t' = t ∧ j = k) ∧ j ∈ GetRelatedOwnersByType t' it.
Proof.
  destruct (known_dec t) as [[-> | ->]|Hk].
  - unfold item_RemoveOwner, GetRelatedOwnersByType. simpl. repeat case_bool_decide; subst; set_solver.
  - unfold item_RemoveOwner, GetRelatedOwnersByType. simpl. repeat case_bool_decide; subst; set_solver.
  - unfold item_RemoveOwner, GetRelatedOwnersByType, known in *. repeat case_bool_decide; subst; try tauto; set_solver.
Qed.
Lemma item_AddOwner_same t k it : item_pdb (item_AddOwner t k it) = item_pdb it ∧ pdbSelector (item_AddOwner t k it) = pdbSelector it.
Proof. unfold item_AddOwner. by repeat case_bool_decide. Qed.
Lemma item_RemoveOwner_same t k it : item_pdb (item_RemoveOwner t k it) = item_pdb it ∧ pdbSelector (item_RemoveOwner t k it) = pdbSelector it.
Proof. unfold item_RemoveOwner. by repeat case_bool_decide. Qed.

(** ** The loops *)

Lemma own_fold_alter t f l : ∀ s t' j, NoDup l →
  own t' (foldl (λ s k, alter_owner t k f s) s l) !! j = (if decide (t' = t ∧ j ∈ l) then f <$> own t' s !! j else own t' s !! j).
Proof.
  induction l as [|k l IH]; intros s t' j HND; simpl.
  { rw decide_False; [|set_solver]. done. }
  apply NoDup_cons in HND as [Hni HND]. rw IH // own_alter_owner.
  destruct (decide (t' = t)) as [->|Ht]; [|rw !decide_False; [done|tauto|tauto]].
  destruct (decide (j = k)) as [->|Hj].
  - rw decide_False; [|tauto]. rw decide_True; [|set_solver]. by rw lookup_alter_eq.
  - rw lookup_alter_ne //. destruct (decide (t = t ∧ j ∈ l)); [rw decide_True; set_solver|rw decide_False; set_solver].
Qed.
Lemma own_fold_set t f (X : gset string) s t' j :
  own t' (foldl (λ s k, alter_owner t k f s) s (elements X)) !! j = (if decide (t' = t ∧ j ∈ X) then f <$> own t' s !! j else own t' s !! j).
Proof.
  rw own_fold_alter; [|apply NoDup_elements].
  destruct (decide (t' = t ∧ j ∈ X)) as [[-> H]|H]; [rw decide_True //; by rw elem_of_elements|rw decide_False //; by rw elem_of_elements].
Qed.
Lemma pdbs_fold_alter t f l : ∀ s, Pdbs (foldl (λ s k, alter_owner t k f s) s l) = Pdbs s.
Proof. induction l as [|k l IH]; intros s; [done|]. simpl. by rw IH pdbs_alter_owner. Qed.

Lemma pdbs_fold_alter_pdb f l : ∀ s p, NoDup l →
  Pdbs (foldl (λ s k, alter_pdb k f s) s l) !! p = (if decide (p ∈ l) then f <$> Pdbs s !! p else Pdbs s !! p).
Proof.
  induction l as [|k l IH]; intros s p HND; cbn [foldl].
  { by destruct (decide (p ∈ [])) as [?%elem_of_nil|]. }
  apply NoDup_cons in HND as [Hni HND]. rw IH //. cbn [alter_pdb Pdbs]. destruct (decide (p = k)) as [->|Hp].
  - rw decide_False //. rw decide_True; [|set_solver]. by rw lookup_alter_eq.
  - rw lookup_alter_ne //. destruct (decide (p ∈ l)); [rw decide_True; set_solver|rw decide_False; set_solver].
Qed.
Lemma own_fold_alter_pdb f t l : ∀ s, own t (foldl (λ s k, alter_pdb k f s) s l) = own t s.
Proof. induction l as [|k l IH]; intros s; [done|]. simpl. by rw IH. Qed.

Definition relabel (k : string) (sel : Selector) (o : OwnerItem) : OwnerItem :=
  if Matches sel (ownerLabels o) then owner_AddPDB k o else owner_RemovePDB k o.

Lemma visit_spec t k sel l : ∀ s it, known t → NoDup l.*1 → (∀ e, e ∈ l → own t s !! e.1 = Some e.2) → Pdbs s !! k = Some it →
  let s' := foldl (addPDB_visit t k sel) s l in
  (∀ t' j, own t' s' !! j = if decide (t' = t ∧ j ∈ l.*1) then relabel k sel <$> own t' s !! j else own t' s !! j)
  ∧ (∀ p, p ≠ k → Pdbs s' !! p = Pdbs s !! p)
  ∧ ∃ it', Pdbs s' !! k = Some it' ∧ item_pdb it' = item_pdb it ∧ pdbSelector it' = pdbSelector it
    ∧ ∀ t' j, j ∈ GetRelatedOwnersByType t' it' ↔
        j ∈ GetRelatedOwnersByType t' it ∨ t' = t ∧ ∃ o, (j, o) ∈ l ∧ Matches sel (ownerLabels o) = true.
Proof.
  induction l as [|[i o] l IH]; intros s it Hk HND Hl Hit; simpl.
  { split_and!; [intros; rw decide_False; [|set_solver]; done|done|]. exists it. split_and!; [done..|]. set_solver. }
  simpl in HND. apply NoDup_cons in HND as [Hni HND].
  assert (own t s !! i = Some o) as Ho by apply (Hl (i, o) (list_elem_of_here _ _)).
  set (s1 := addPDB_visit t k sel s (i, o)).
  assert (∀ t' j, own t' s1 !! j = if decide (t' = t ∧ j = i) then relabel k sel <$> own t' s !! j else own t' s !! j) as Hown.
  { intros t' j. unfold s1, addPDB_visit, relabel. cbn [fst snd].
    destruct (decide (t' = t ∧ j = i)) as [[-> ->]|Hne].
    - rw Ho. simpl. destruct (Matches sel (ownerLabels o)); rw ?own_alter_pdb own_alter_owner decide_True // lookup_alter_eq Ho //.
    - destruct (Matches sel (ownerLabels o)); rw ?own_alter_pdb own_alter_owner; case_decide; subst; try done;
        rw lookup_alter_ne //; naive_solver. }
  assert (∃ it1, Pdbs s1 !! k = Some it1 ∧ item_pdb it1 = item_pdb it ∧ pdbSelector it1 = pdbSelector it
    ∧ ∀ t' j, j ∈ GetRelatedOwnersByType t' it1 ↔ j ∈ GetRelatedOwnersByType t' it ∨ t' = t ∧ j = i ∧ Matches sel (ownerLabels o) = true)
    as (it1 & E1 & Hp1 & Hs1 & Hr1).
  { unfold s1, addPDB_visit. cbn [fst snd]. destruct (Matches sel (ownerLabels o)) eqn:Em.
    - exists (item_AddOwner t i it). simpl. rw lookup_alter_eq pdbs_alter_owner Hit. destruct (item_AddOwner_same t i it) as [-> ->].
      split_and!; [done..|]. intros t' j. rw related_add. naive_solver.
    - exists it. rw pdbs_alter_owner. split_and!; [done..|]. naive_solver. }
  assert (∀ p, p ≠ k → Pdbs s1 !! p = Pdbs s !! p) as Hoth.
  { intros p Hp. unfold s1, addPDB_visit. cbn [fst snd]. destruct (Matches sel (ownerLabels o)); simpl; rw ?lookup_alter_ne ?pdbs_alter_owner //. }
  destruct (IH s1 it1) as (H1 & H2 & it' & E' & Hp' & Hs' & Hr'); [done|done| |done|].
  { intros e He. rw Hown. rw decide_False; [by apply Hl; right|]. intros [_ Heq]. apply Hni. rw -Heq. by apply list_elem_of_fmap_2. }
  split_and!.
  - intros t' j. rw H1 Hown. destruct (decide (t' = t)) as [->|Ht]; [|rw !decide_False //; tauto].
    destruct (decide (j = i)) as [->|Hj].
    + rw decide_False; [|tauto]. rw !decide_True //. set_solver.
    + rw (decide_False (P := t = t ∧ j = i)); [|tauto]. destruct (decide (t = t ∧ j ∈ l.*1)); [rw decide_True; set_solver|rw decide_False; set_solver].
  - intros p Hp. by rw H2 ?Hoth.
  - exists it'. split_and!; [done|congruence|congruence|]. intros t' j. rw Hr' Hr1. setoid_rewrite elem_of_cons. naive_solver.
Qed.

(** ** The operations *)

Section ops.
Context {MR : MapRange} {ML : MapRangeLaws MR}.
Implicit Types (s : PdbStore) (pdb : PodDisruptionBudget).

Lemma in_fst {A} (m : gmap string A) j : j ∈ (range_map m).*1 ↔ is_Some (m !! j).
Proof.
  rw list_elem_of_fmap. split.
  - intros ([i x] & -> & H%range_elem). eauto.
  - intros [x H]. exists (j, x). split; [done|by apply range_elem].
Qed.

Lemma visit_all t k sel s it : known t → Pdbs s !! k = Some it →
  let s' := foldl (addPDB_visit t k sel) s (range_map (own t s)) in
  (∀ t' j, own t' s' !! j = if decide (t' = t) then relabel k sel <$> own t' s !! j else own t' s !! j)
  ∧ (∀ p, p ≠ k → Pdbs s' !! p = Pdbs s !! p)
  ∧ ∃ it', Pdbs s' !! k = Some it' ∧ item_pdb it' = item_pdb it ∧ pdbSelector it' = pdbSelector it
    ∧ ∀ t' j, j ∈ GetRelatedOwnersByType t' it' ↔
        j ∈ GetRelatedOwnersByType t' it ∨ t' = t ∧ ∃ o, own t s !! j = Some o ∧ Matches sel (ownerLabels o) = true.
Proof.
  intros Hk Hit. destruct (visit_spec t k sel (range_map (own t s)) s it) as (H1 & H2 & it' & E & Hp & Hs & Hr);
    [done|apply range_nodup|intros [j o] Hin; apply range_elem in Hin; exact Hin|done|].
  split_and!; [|done|].
  - intros t' j. rw H1. destruct (decide (t' = t)) as [->|Ht]; [|rw decide_False; [done|tauto]].
    destruct (decide (t = t ∧ _)) as [[_ Hin]|Hni]; [done|]. assert (own t s !! j = None) as ->; [|done].
    apply eq_None_not_Some. intros Hin%in_fst. tauto.
  - exists it'. split_and!; [done..|]. intros t' j. rw Hr. by setoid_rewrite range_elem.
Qed.

Lemma removePDB_spec k s it : Pdbs s !! k = Some it →
  let s' := removePDB k s in
  (∀ t j, own t s' !! j = if decide (j ∈ GetRelatedOwnersByType t it) then owner_RemovePDB k <$> own t s !! j else own t s !! j)
  ∧ Pdbs s' = Pdbs s.
Proof.
  intros Hit. unfold removePDB. rw Hit. split; [|by rw !pdbs_fold_alter]. intros t j.
  rw !own_fold_set.
  assert (GetRelatedOwnersByType OwnerTypeReplicaSet it = replicaSetKeys it ∧ GetRelatedOwnersByType OwnerTypeDaemonSet it = daemonSetKeys it) as [HR HD] by done.
  assert (OwnerTypeReplicaSet ≠ OwnerTypeDaemonSet) as Hne by done.
  destruct (known_dec t) as [[-> | ->]|Hk]; rw ?HR ?HD ?(related_unknown t it) //; try (unfold known in Hk); repeat case_decide; naive_solver.
Qed.

Definition has_selectors s : Prop := ∀ p it, Pdbs s !! p = Some it → is_Some (pdbSelector it).
Definition item_selects (ls : gmap string string) (it : PDBItem) : bool :=
  match pdbSelector it with Some sel => Matches sel ls | None => false end.

Lemma AddOwner_fold t k ls l : ∀ s m, NoDup l.*1 → (∀ e, e ∈ l → Pdbs s !! e.1 = Some e.2 ∧ is_Some (pdbSelector e.2)) →
  ∃ s' m', foldl (AddOwner_visit t k ls) (Some (s, m)) l = Some (s', m') ∧ (∀ t', own t' s' = own t' s)
    ∧ (∀ p, Pdbs s' !! p = if decide (p ∈ l.*1) then (λ it, if item_selects ls it then item_AddOwner t k it else it) <$> Pdbs s !! p else Pdbs s !! p)
    ∧ ∀ p, p ∈ m' ↔ p ∈ m ∨ ∃ it, (p, it) ∈ l ∧ item_selects ls it = true.
Proof.
  induction l as [|[i it] l IH]; intros s m HND Hl; cbn [foldl].
  { exists s, m. split_and!; [done|done| |].
    - intros p. destruct (decide _) as [H|_]; [by apply elem_of_nil in H|done].
    - intros p. split; [by left|]. intros [H|(it & H%elem_of_nil & _)]; done. }
  apply NoDup_cons in HND as [Hni HND]. destruct (Hl (i, it)) as [Hi [sel Hs]]; [by left|]. cbn [fst snd] in *.
  unfold AddOwner_visit at 2. cbn [mbind option_bind fst snd]. rw Hs. cbn [mbind option_bind].
  assert (item_selects ls it = Matches sel ls) as Hm by (unfold item_selects; by rw Hs).
  set (s1 := if Matches sel ls then alter_pdb i (item_AddOwner t k) s else s).
  set (m1 := if Matches sel ls then (m ++ [i])%list else m).
  assert ((if negb (Matches sel ls) then Some (s, m) else Some (alter_pdb i (item_AddOwner t k) s, (m ++ [i])%list)) = Some (s1, m1)) as ->
    by (unfold s1, m1; by destruct (Matches sel ls)).
  assert (∀ p, p ≠ i → Pdbs s1 !! p = Pdbs s !! p) as Hoth.
  { intros p Hp. unfold s1. destruct (Matches sel ls); [|done]. simpl. by rw lookup_alter_ne. }
  destruct (IH s1 m1) as (s' & m' & E & H1 & H2 & H3); [done| |].
  { intros e He. rw Hoth; [apply Hl; by right|]. intros <-. apply Hni. by apply list_elem_of_fmap_2. }
  exists s', m'. split_and!; [done| | |].
  - intros t'. rw H1. unfold s1. by destruct (Matches sel ls).
  - intros p. rw H2. destruct (decide (p = i)) as [->|Hp].
    + rw decide_False //. rw decide_True; [|set_solver]. rw Hi. simpl. rw Hm. unfold s1. destruct (Matches sel ls); [|done].
      simpl. by rw lookup_alter_eq Hi.
    + rw Hoth //. destruct (decide (p ∈ l.*1)); [rw decide_True; set_solver|rw decide_False; set_solver].
  - intros p. rw H3. setoid_rewrite elem_of_cons. unfold m1. split.
    + intros [H|(it0 & ? & ?)]; [|right; eauto]. destruct (Matches sel ls) eqn:E'; [|by left].
      apply elem_of_app in H as [?|H]; [by left|]. apply list_elem_of_singleton in H as ->. right. exists it. split; [by left|congruence].
    + intros [H|(it0 & [Heq|?] & ?)]; [left|left|right; eauto].
      * destruct (Matches sel ls); [apply elem_of_app; by left|done].
      * injection Heq as -> ->. rw -Hm H. apply elem_of_app. right. by left.
Qed.

Lemma AddOwner_spec t k ls s : known t → has_selectors s →
  ∃ s' P, AddOwner t k ls s = Some s'
    ∧ (∀ t' j, own t' s' !! j = if decide (t' = t ∧ j = k) then Some (mkOwnerItem ls P false) else own t' s !! j)
    ∧ (∀ p, p ∈ P ↔ ∃ it, Pdbs s !! p = Some it ∧ item_selects ls it = true)
    ∧ ∀ p, Pdbs s' !! p = (λ it, if item_selects ls it then item_AddOwner t k it else it) <$> Pdbs s !! p.
Proof.
  intros Hk Hs. unfold AddOwner. rw (owners_own t s Hk).
  destruct (AddOwner_fold t k ls (range_map (Pdbs s)) s []) as (s1 & m & E & H1 & H2 & H3).
  { apply range_nodup. }
  { intros [p it] Hin%range_elem. split; [done|]. by eapply Hs. }
  rw E. cbn [mbind option_bind]. eexists _, _. split; [done|].
  change (default ∅ (owners t s1)) with (own t s1). split_and!.
  - intros t' j. rw own_set // !H1. destruct (decide (t' = t)) as [->|Ht]; [|rw decide_False; tauto].
    destruct (decide (j = k)) as [->|Hj]; [rw lookup_insert_eq decide_True //|rw lookup_insert_ne // decide_False //; tauto].
  - intros p. rw elem_of_list_to_set H3. setoid_rewrite range_elem. set_solver.
  - intros p. rw pdbs_set_owners H2. destruct (decide _) as [|Hni]; [done|]. rw in_fst in Hni. by destruct (Pdbs s !! p); [destruct Hni; eauto|].
Qed.
Lemma AddOwner_unknown t k ls s : ¬ known t → AddOwner t k ls s = Some s.
Proof. intros Hk. unfold AddOwner. by rw owners_unknown. Qed.

Lemma DeleteOwner_spec t k s :
  let s' := DeleteOwner t k s in
  (∀ t' j, own t' s' !! j = if decide (t' = t ∧ j = k) then None else own t' s !! j)
  ∧ ∀ p, Pdbs s' !! p = match own t s !! k with
      | Some o => if decide (p ∈ owner_Pdbs o) then item_RemoveOwner t k <$> Pdbs s !! p else Pdbs s !! p
      | None => Pdbs s !! p end.
Proof.
  unfold DeleteOwner. destruct (known_dec t) as [Hk|Hk].
  - rw (owners_own t s Hk). set (s1 := match own t s !! k with Some _ => _ | None => _ end).
    assert (∀ t', own t' s1 = own t' s) as Hown by (intros t'; unfold s1; destruct (own t s !! k); [apply own_fold_alter_pdb|done]). split.
    + intros t' j. rw own_set // Hown. destruct (decide (t' = t)) as [->|Ht]; [|rw decide_False; tauto].
      destruct (decide (j = k)) as [->|Hj]; [rw lookup_delete_eq decide_True //|rw lookup_delete_ne // decide_False //; tauto].
    + intros p. rw pdbs_set_owners. unfold s1. destruct (own t s !! k) as [o|]; [|done].
      rw pdbs_fold_alter_pdb; [|apply NoDup_elements].
      destruct (decide (p ∈ owner_Pdbs o)); [rw decide_True //; by apply elem_of_elements|rw decide_False // elem_of_elements //].
  - rw (owners_unknown t s Hk) (own_unknown t s Hk) lookup_empty. split; [|done]. intros t' j.
    destruct (decide _) as [[-> ->]|]; [|done]. by rw own_unknown.
Qed.
Lemma addPDB_spec validKey validValue pdb sel s it : LabelSelectorAsSelector validKey validValue (pdb_Selector pdb) = Some sel → Pdbs s !! GetPDBKey pdb = Some it →
  let s' := addPDB validKey validValue pdb s in
  (∀ t j, own t s' !! j = relabel (GetPDBKey pdb) sel <$> own t s !! j)
  ∧ (∀ p, p ≠ GetPDBKey pdb → Pdbs s' !! p = Pdbs s !! p)
  ∧ ∃ it', Pdbs s' !! GetPDBKey pdb = Some it' ∧ item_pdb it' = item_pdb it ∧ pdbSelector it' = Some sel
    ∧ ∀ t j, j ∈ GetRelatedOwnersByType t it' ↔ ∃ o, own t s !! j = Some o ∧ Matches sel (ownerLabels o) = true.
Proof.
  intros Hsel Hit. unfold addPDB. rw Hsel. set (k := GetPDBKey pdb) in *.
  set (s1 := alter_pdb k _ s). set (s2 := foldl _ s1 _).
  assert (Pdbs s1 !! k = Some (RemoveAllOwners (SetPDBSelector sel it))) as E1 by (unfold s1; simpl; by rw lookup_alter_eq Hit).
  destruct (visit_all OwnerTypeReplicaSet k sel s1 _ (or_introl eq_refl) E1) as (H1 & H2 & it2 & E2 & Hp2 & Hs2 & Hr2).
  change (own OwnerTypeReplicaSet s1) with (ReplicaSets s1) in *. change (foldl _ _ _) with s2 in H1, H2, E2.
  destruct (visit_all OwnerTypeDaemonSet k sel s2 _ (or_intror eq_refl) E2) as (H3 & H4 & it3 & E3 & Hp3 & Hs3 & Hr3).
  change (own OwnerTypeDaemonSet s2) with (DaemonSets s2) in *.
  split_and!.
  - intros t j. rw H3 H1. destruct (known_dec t) as [[-> | ->]|Hk]; [done|done|].
    unfold known in Hk. rw !decide_False; [|tauto|tauto]. unfold s1. rw own_alter_pdb own_unknown //.
  - intros p Hp. rw H4 // H2 //. unfold s1. simpl. by rw lookup_alter_ne.
  - exists it3. split_and!; [done|by rw Hp3 Hp2|by rw Hs3 Hs2|]. intros t j. rw Hr3 Hr2.
    assert (DaemonSets s2 !! j = own OwnerTypeDaemonSet s !! j) as Hds by (change (DaemonSets s2) with (own OwnerTypeDaemonSet s2); by rw H1).
    rw Hds. change (ReplicaSets s1) with (own OwnerTypeReplicaSet s).
    assert (j ∈ GetRelatedOwnersByType t (RemoveAllOwners (SetPDBSelector sel it)) ↔ False) as ->.
    { unfold GetRelatedOwnersByType. repeat case_bool_decide; set_solver. }
    destruct (known_dec t) as [[-> | ->]|Hk]; [naive_solver|naive_solver|].
    unfold known in Hk. rw (own_unknown t s Hk). setoid_rewrite lookup_empty. naive_solver.
Qed.

End ops.
