(* ===== verification/PdbStoreSpec.v ===== *)
(** * The contract of the disruption budget store

    The specification is the live budgets and the labels of the live owners; the
    store, after any sequence of informer events, lists for every owner exactly the
    budgets whose selector matches its labels, and for every budget these owners. *)
From stdpp Require Import pretty.
From S2P Require Import Prelude GoStrings PodModel PdbStore PdbStoreProps.

Local Open Scope godel_scope.
Local Open Scope string_scope.

Lemma EqualMap_eq {MR : MapRange} {ML : MapRangeLaws MR} (m1 m2 : gmap string string) :
  map_Forall (λ _ v, v ≠ "") m1 → EqualMap m1 m2 = true → m1 = m2.
Proof.
  intros Hne [Hsz Hall]%andb_prop. apply bool_decide_eq_true in Hsz. rw forallb_forall in Hall.
  apply map_subseteq_size_eq; [|lia]. apply map_subseteq_spec. intros k v Hk.
  assert ((k, v) ∈ range_map m1) as Hin by by apply range_elem.
  specialize (Hall _ (proj1 (list_elem_of_In _ _) Hin)). cbn in Hall. apply bool_decide_eq_true in Hall.
  specialize (Hne k v Hk). cbn in Hne. destruct (m2 !! k); [by f_equal|done].
Qed.

Inductive PdbEvent :=
  | EAddPDB (pdb : PodDisruptionBudget) | EUpdatePDB (oldPdb newPdb : PodDisruptionBudget) | EDeletePDB (pdb : PodDisruptionBudget)
  | EAddOwner (ownerType k : string) (ls : gmap string string)
  | EUpdateOwner (ownerType k : string) (oldLabels newLabels : gmap string string)
  | EDeleteOwner (ownerType k : string).

Section contract.
Context {MR : MapRange} {ML : MapRangeLaws MR} (validKey validValue : string → bool) (SelString : option LabelSelector → string).
Abbreviation AsSelector := (LabelSelectorAsSelector validKey validValue).
Implicit Types (s : PdbStore) (pdb : PodDisruptionBudget).

Definition pdb_event (e : PdbEvent) s : option PdbStore :=
  match e with
  | EAddPDB pdb => Some (AddPDB validKey validValue pdb s)
  | EUpdatePDB o n => Some (UpdatePDB validKey validValue SelString o n s)
  | EDeletePDB pdb => Some (DeletePDB pdb s)
  | EAddOwner t k ls => AddOwner t k ls s
  | EUpdateOwner t k o n => UpdateOwner t k o n s
  | EDeleteOwner t k => Some (DeleteOwner t k s)
  end.

(** The specification: live budgets by key, labels of live owners. *)
Record PdbSpec := mkPdbSpec { live_pdbs : gmap string PodDisruptionBudget; live_owners : gmap (string * string) (gmap string string) }.
Implicit Types S : PdbSpec.

Definition selects pdb (ls : gmap string string) : bool :=
  match AsSelector (pdb_Selector pdb) with Some sel => Matches sel ls | None => false end.
Definition is_known (t : string) : bool := (t ≟ OwnerTypeReplicaSet) || (t ≟ OwnerTypeDaemonSet).
Definition spec_event (e : PdbEvent) S : PdbSpec :=
  match e with
  | EAddPDB pdb | EUpdatePDB _ pdb => mkPdbSpec (<[GetPDBKey pdb := pdb]> (live_pdbs S)) (live_owners S)
  | EDeletePDB pdb => mkPdbSpec (delete (GetPDBKey pdb) (live_pdbs S)) (live_owners S)
  | EAddOwner t k ls | EUpdateOwner t k _ ls =>
      mkPdbSpec (live_pdbs S) (if is_known t then <[(t, k) := ls]> (live_owners S) else live_owners S)
  | EDeleteOwner t k => mkPdbSpec (live_pdbs S) (delete (t, k) (live_owners S))
  end.

(** What the API server and the informers ensure: selectors are valid, an update
    comes with the last known object, an owner is added once.  The labels an update
    replaces have no empty value (see [EqualMap]). *)
Definition legal (e : PdbEvent) S : Prop :=
  match e with
  | EAddPDB pdb => is_Some (AsSelector (pdb_Selector pdb))
  | EUpdatePDB o n => live_pdbs S !! GetPDBKey n = Some o ∧ is_Some (AsSelector (pdb_Selector n))
  | EDeletePDB _ | EDeleteOwner _ _ => True
  | EAddOwner t k ls => live_owners S !! (t, k) = None ∨ live_owners S !! (t, k) = Some ls
  | EUpdateOwner t k o n => (known t → live_owners S !! (t, k) = Some o) ∧ map_Forall (λ _ v, v ≠ "") o
  end.

Definition item_of (pdb : option PodDisruptionBudget) (p : string) (it : option PDBItem) : Prop :=
  match pdb, it with
  | Some pdb, Some it => item_pdb it = Some pdb ∧ GetPDBKey pdb = p ∧ ∃ sel, AsSelector (pdb_Selector pdb) = Some sel ∧ pdbSelector it = Some sel
  | None, None => True
  | _, _ => False
  end.
Definition picks S (p : string) (ls : gmap string string) : Prop := ∃ pdb, live_pdbs S !! p = Some pdb ∧ selects pdb ls = true.

Record Edges S s : Prop := {
  ed_pdb p : item_of (live_pdbs S !! p) p (Pdbs s !! p);
  ed_label t k : ownerLabels <$> own t s !! k = live_owners S !! (t, k);
  ed_owner t k o p : own t s !! k = Some o → p ∈ owner_Pdbs o ↔ picks S p (ownerLabels o);
  ed_item t k p it : Pdbs s !! p = Some it →
    k ∈ GetRelatedOwnersByType t it ↔ ∃ ls, live_owners S !! (t, k) = Some ls ∧ picks S p ls
}.

Lemma edges_item S s p it : Edges S s → Pdbs s !! p = Some it →
  ∃ pdb sel, live_pdbs S !! p = Some pdb ∧ item_pdb it = Some pdb ∧ GetPDBKey pdb = p
    ∧ AsSelector (pdb_Selector pdb) = Some sel ∧ pdbSelector it = Some sel.
Proof.
  intros HE Hit. pose proof (ed_pdb _ _ HE p) as H. rw Hit in H. unfold item_of in H. destruct (live_pdbs S !! p); [|done]. naive_solver.
Qed.
Lemma edges_picks S s p it ls : Edges S s → Pdbs s !! p = Some it → item_selects ls it = true ↔ picks S p ls.
Proof.
  intros HE Hit. destruct (edges_item S s p it HE Hit) as (pdb & sel & Hl & _ & _ & Hs & Hi).
  unfold item_selects, picks, selects. rw Hi. split; [intros H; exists pdb; by rw Hs|]. intros (pdb' & Hl' & H). by simplify_eq; rw Hs in H.
Qed.
Lemma edges_selectors S s : Edges S s → has_selectors s.
Proof. intros HE p it Hit. destruct (edges_item S s p it HE Hit) as (? & ? & _ & _ & _ & _ & ->). eauto. Qed.
Lemma edges_live S s p ls : Edges S s → picks S p ls ↔ ∃ it, Pdbs s !! p = Some it ∧ item_selects ls it = true.
Proof.
  intros HE. split.
  - intros H. destruct (H) as (pdb & Hl & _). pose proof (ed_pdb _ _ HE p) as Hp. rw Hl in Hp. unfold item_of in Hp.
    destruct (Pdbs s !! p) as [it|] eqn:E; [|done]. exists it. split; [done|]. by apply (edges_picks S s p).
  - intros (it & Hit & H). by apply (edges_picks S s p it).
Qed.
Lemma picks_insert S p pdb q ls O : picks (mkPdbSpec (<[p := pdb]> (live_pdbs S)) O) q ls ↔
  if decide (q = p) then selects pdb ls = true else picks S q ls.
Proof.
  unfold picks. simpl. case_decide as Hq; [subst; rw lookup_insert_eq; naive_solver|]. by rw lookup_insert_ne.
Qed.
Lemma picks_same S p pdb ls O : picks (mkPdbSpec (<[p := pdb]> (live_pdbs S)) O) p ls ↔ selects pdb ls = true.
Proof. by rw picks_insert decide_True. Qed.
Lemma picks_other S p q pdb ls O : q ≠ p → picks (mkPdbSpec (<[p := pdb]> (live_pdbs S)) O) q ls ↔ picks S q ls.
Proof. intros H. by rw picks_insert decide_False. Qed.
Lemma picks_owners S O p ls : picks (mkPdbSpec (live_pdbs S) O) p ls ↔ picks S p ls.
Proof. done. Qed.
Lemma relabel_labels k sel o : ownerLabels (relabel k sel o) = ownerLabels o.
Proof. unfold relabel. by destruct (Matches _ _). Qed.
Lemma relabel_pdbs k sel o p : p ∈ owner_Pdbs (relabel k sel o) ↔ if decide (p = k) then Matches sel (ownerLabels o) = true else p ∈ owner_Pdbs o.
Proof. unfold relabel. destruct (Matches _ _) eqn:E; simpl; case_decide; set_solver. Qed.

(** *** Budgets

    The contract for the budgets other than [k]. *)
Record EdgesBut (k : string) S s : Prop := {
  eb_pdb p : p ≠ k → item_of (live_pdbs S !! p) p (Pdbs s !! p);
  eb_label t j : ownerLabels <$> own t s !! j = live_owners S !! (t, j);
  eb_owner t j o p : p ≠ k → own t s !! j = Some o → p ∈ owner_Pdbs o ↔ picks S p (ownerLabels o);
  eb_item t j p it : p ≠ k → Pdbs s !! p = Some it →
    j ∈ GetRelatedOwnersByType t it ↔ ∃ ls, live_owners S !! (t, j) = Some ls ∧ picks S p ls
}.

Lemma removePDB_pdbs k s : Pdbs (removePDB k s) = Pdbs s.
Proof. unfold removePDB. destruct (Pdbs s !! k); [by rw !pdbs_fold_alter|done]. Qed.
Lemma but_insert k S s it : Edges S s → EdgesBut k S (set_pdbs (<[k := it]> (Pdbs s)) s).
Proof.
  intros [H1 H2 H3 H4]. split.
  - intros p Hp. simpl. rw lookup_insert_ne; [apply H1|done].
  - intros t j. rw own_set_pdbs. apply H2.
  - intros t j o p Hp. rw own_set_pdbs. apply H3.
  - intros t j p it' Hp. simpl. rw lookup_insert_ne //. apply H4.
Qed.
Lemma but_remove k S s : EdgesBut k S s → EdgesBut k S (removePDB k s).
Proof.
  intros [H1 H2 H3 H4]. destruct (Pdbs s !! k) as [it|] eqn:Hit; [|unfold removePDB; by rw Hit].
  destruct (removePDB_spec k s it Hit) as [Hown Hpdbs]. split.
  - intros p Hp. rw Hpdbs. by apply H1.
  - intros t j. rw Hown -H2. case_decide; [|done]. by destruct (own t s !! j).
  - intros t j o p Hp. rw Hown. case_decide; [|by apply H3]. intros (o0 & Ho & ->)%fmap_Some. simpl.
    rw -(H3 t j o0 p Hp Ho). set_solver.
  - intros t j p it' Hp. rw Hpdbs. by apply H4.
Qed.
Lemma but_add S s pdb sel it : EdgesBut (GetPDBKey pdb) S s → Pdbs s !! GetPDBKey pdb = Some it → item_pdb it = Some pdb →
  AsSelector (pdb_Selector pdb) = Some sel →
  Edges (mkPdbSpec (<[GetPDBKey pdb := pdb]> (live_pdbs S)) (live_owners S)) (addPDB validKey validValue pdb s).
Proof.
  intros [H1 H2 H3 H4] Hit Hp Hsel. destruct (addPDB_spec validKey validValue pdb sel s it Hsel Hit) as (Hown & Hoth & it' & Hit' & Hp' & Hs' & Hr').
  set (k := GetPDBKey pdb) in *. set (s' := addPDB _ _ _ _) in *.
  assert (∀ ls, selects pdb ls = Matches sel ls) as Hsm by (intros ls; unfold selects; by rw Hsel).
  split; simpl.
  - intros p. destruct (decide (p = k)) as [->|Hne].
    + rw lookup_insert_eq Hit'. unfold item_of. rw Hp' Hp. split_and!; [done|done|]. exists sel. done.
    + rw lookup_insert_ne // Hoth //. by apply H1.
  - intros t j. rw Hown -H2. destruct (own t s !! j); simpl; [by rw relabel_labels|done].
  - intros t j o p. rw Hown. intros (o0 & Ho & ->)%fmap_Some. rw relabel_pdbs relabel_labels picks_insert Hsm.
    case_decide as Hne; [done|]. by eapply H3.
  - intros t j p it0. destruct (decide (p = k)) as [->|Hne].
    + rw Hit'. intros [= <-]. rw Hr'. setoid_rewrite picks_same. setoid_rewrite Hsm.
      rw -H2. split.
      * intros (o & -> & Hm). exists (ownerLabels o). done.
      * intros (ls & (o & Ho & ->)%fmap_Some & Hm). eauto.
    + rw Hoth // => Hp0. setoid_rewrite (λ ls, picks_other S k p pdb ls (live_owners S) Hne). by eapply H4.
Qed.

Lemma edges_AddPDB S s pdb : Edges S s → is_Some (AsSelector (pdb_Selector pdb)) →
  Edges (spec_event (EAddPDB pdb) S) (AddPDB validKey validValue pdb s).
Proof.
  intros HE [sel Hsel]. unfold AddPDB. eapply but_add; [by apply but_insert|simpl; by rw lookup_insert_eq| |done].
  unfold stored_item. by destruct (Pdbs s !! _).
Qed.

(** Selectors with the same text are the same. *)
Definition text_exact : Prop := ∀ x y sx sy, AsSelector x = Some sx → AsSelector y = Some sy → SelString x = SelString y → sx = sy.

Lemma edges_UpdatePDB S s o n : text_exact → Edges S s → live_pdbs S !! GetPDBKey n = Some o → is_Some (AsSelector (pdb_Selector n)) →
  Edges (spec_event (EUpdatePDB o n) S) (UpdatePDB validKey validValue SelString o n s).
Proof.
  intros Htext HE Ho [sel Hsel]. unfold UpdatePDB. set (k := GetPDBKey n) in *.
  pose proof (ed_pdb _ _ HE k) as Hk. rw Ho in Hk. unfold item_of in Hk. destruct (Pdbs s !! k) as [it|] eqn:Hit; [|done].
  destruct Hk as (Hpdb & Hko & so & Hso & Hsi).
  assert (stored_item n s = SetPDB n it) as -> by (unfold stored_item; fold k; by rw Hit).
  case_bool_decide as Ht.
  - assert (so = sel) as -> by (by eapply Htext).
    assert (∀ p ls, picks (spec_event (EUpdatePDB o n) S) p ls ↔ picks S p ls) as Hpk.
    { intros p ls. simpl. rw picks_insert. case_decide as Hp; [|done]. subst p. unfold picks. fold k. rw Ho. unfold selects. rw Hsel.
      split; [intros H; exists o; by rw Hso|]. intros (? & [= <-] & H). by rw Hso in H. }
    destruct HE as [H1 H2 H3 H4]. split.
    + intros p. simpl. fold k. destruct (decide (p = k)) as [->|Hp]; [|rw !lookup_insert_ne //].
      rw !lookup_insert_eq. unfold item_of. split_and!; [done|done|]. exists sel. done.
    + apply H2.
    + intros t j ow p. rw Hpk. apply H3.
    + intros t j p it0. simpl. setoid_rewrite Hpk. fold k. destruct (decide (p = k)) as [->|Hp]; [|rw lookup_insert_ne //; apply H4].
      rw lookup_insert_eq. intros [= <-]. change (GetRelatedOwnersByType t (SetPDB n it)) with (GetRelatedOwnersByType t it). by apply H4.
  - eapply but_add; [by apply but_remove, but_insert| | |done].
    + rw removePDB_pdbs. simpl. by rw lookup_insert_eq.
    + done.
Qed.

Lemma edges_DeletePDB S s pdb : Edges S s → Edges (spec_event (EDeletePDB pdb) S) (DeletePDB pdb s).
Proof.
  intros HE. unfold DeletePDB. simpl. set (k := GetPDBKey pdb).
  assert (∀ p ls, picks (mkPdbSpec (delete k (live_pdbs S)) (live_owners S)) p ls ↔ p ≠ k ∧ picks S p ls) as Hpk.
  { intros p ls. unfold picks. simpl. setoid_rewrite lookup_delete_Some. naive_solver. }
  assert ((∀ t j, ownerLabels <$> own t (removePDB k s) !! j = live_owners S !! (t, j))
    ∧ (∀ t j o, own t (removePDB k s) !! j = Some o → ∃ o0, own t s !! j = Some o0 ∧ ownerLabels o = ownerLabels o0
         ∧ ∀ p, p ∈ owner_Pdbs o ↔ p ≠ k ∧ p ∈ owner_Pdbs o0)
    ∧ Pdbs (removePDB k s) = Pdbs s) as (HL & HO & HP).
  { destruct (Pdbs s !! k) as [it|] eqn:Hit.
    - destruct (removePDB_spec k s it Hit) as [Hown Hpdbs]. split_and!; [| |done].
      + intros t j. rw Hown -(ed_label _ _ HE). case_decide; [|done]. by destruct (own t s !! j).
      + intros t j o. rw Hown. case_decide as Hj.
        * intros (o0 & Ho & ->)%fmap_Some. exists o0. split_and!; [done|done|]. simpl. set_solver.
        * intros Ho. exists o. split_and!; [done|done|]. intros p. split; [|by intros []]. intros Hin. split; [|done]. intros ->. apply Hj.
          apply (ed_item _ _ HE t j k it Hit). exists (ownerLabels o). rw -(ed_label _ _ HE) Ho. split; [done|]. by apply (ed_owner _ _ HE t j o).
    - assert (removePDB k s = s) as -> by (unfold removePDB; by rw Hit). split_and!; [by apply ed_label| |done].
      intros t j o Ho. exists o. split_and!; [done|done|]. intros p. split; [|by intros []]. intros Hin. split; [|done]. intros ->.
      apply (ed_owner _ _ HE t j o k Ho) in Hin as (pdb' & Hl & _). pose proof (ed_pdb _ _ HE k) as Hk. by rw Hl Hit in Hk. }
  split; simpl.
  - intros p. rw HP. destruct (decide (p = k)) as [->|Hp]; [rw !lookup_delete_eq //|rw !lookup_delete_ne //]. apply (ed_pdb _ _ HE).
  - apply HL.
  - intros t j o p Ho. rw own_set_pdbs in Ho. destruct (HO t j o Ho) as (o0 & Ho0 & Hl & Hin). rw Hin Hpk Hl (ed_owner _ _ HE t j o0 p Ho0). done.
  - intros t j p it. rw HP lookup_delete_Some. intros [Hp Hit]. setoid_rewrite Hpk. rw (ed_item _ _ HE t j p it Hit). naive_solver.
Qed.

(** *** Owners *)

Lemma is_known_spec t : is_known t = true ↔ known t.
Proof. unfold is_known, known. by rw orb_true_iff !bool_decide_eq_true. Qed.

Lemma edges_AddOwner S s t k ls : Edges S s → live_owners S !! (t, k) = None ∨ live_owners S !! (t, k) = Some ls →
  ∃ s', AddOwner t k ls s = Some s' ∧ Edges (spec_event (EAddOwner t k ls) S) s'.
Proof.
  intros HE Hlive. destruct (known_dec t) as [Hk|Hk].
  2:{ exists s. split; [by apply AddOwner_unknown|]. simpl. destruct (is_known t) eqn:E; [by apply is_known_spec in E|by destruct S]. }
  destruct (AddOwner_spec t k ls s Hk (edges_selectors S s HE)) as (s' & P & E & Hown & HP & Hpdbs). exists s'. split; [done|].
  simpl. rw (proj2 (is_known_spec t) Hk).
  assert (∀ p it', Pdbs s' !! p = Some it' → ∃ it, Pdbs s !! p = Some it ∧ item_pdb it' = item_pdb it ∧ pdbSelector it' = pdbSelector it
    ∧ ∀ t' j, j ∈ GetRelatedOwnersByType t' it' ↔ (t' = t ∧ j = k ∧ picks S p ls) ∨ j ∈ GetRelatedOwnersByType t' it) as Hit.
  { intros p it'. rw Hpdbs. intros (it & Hi & ->)%fmap_Some. exists it. split; [done|].
    destruct (item_selects ls it) eqn:Es.
    - apply (edges_picks S s p it ls HE Hi) in Es. destruct (item_AddOwner_same t k it) as [-> ->]. split_and!; [done..|].
      intros t' j. rw related_add. tauto.
    - assert (¬ picks S p ls) as Hn by (intros H%(edges_picks S s p it ls HE Hi); congruence). split_and!; [done..|]. tauto. }
  split; simpl.
  - intros p. pose proof (ed_pdb _ _ HE p) as H. unfold item_of in *. destruct (Pdbs s' !! p) as [it'|] eqn:E'.
    + destruct (Hit p it' E') as (it & Hi & -> & -> & _). by rw Hi in H.
    + rw Hpdbs in E'. apply fmap_None in E'. by rw E' in H.
  - intros t' j. rw Hown. destruct (decide (t' = t ∧ j = k)) as [[-> ->]|Hne]; [by rw lookup_insert_eq|].
    rw lookup_insert_ne; [apply (ed_label _ _ HE)|]. intros [= -> ->]. tauto.
  - intros t' j o p. rw Hown. destruct (decide _) as [[-> ->]|Hne]; [|by apply (ed_owner _ _ HE)].
    intros [= <-]. simpl. rw HP. symmetry. exact (edges_live S s p ls HE).
  - intros t' j p it' E'. destruct (Hit p it' E') as (it & Hi & _ & _ & Hr). rw Hr (ed_item _ _ HE t' j p it Hi).
    destruct (decide ((t, k) = (t', j))) as [[= -> ->]|Hne].
    + rw lookup_insert_eq. split; [|intros (ls' & [= <-] & H); by left].
      intros [(_ & _ & H)|(ls' & Hl & H)]; [eauto|]. destruct Hlive as [Hn|Hs]; [congruence|]. rw Hs in Hl. injection Hl as <-. eauto.
    + rw lookup_insert_ne //. split; [|by right]. intros [(-> & -> & _)|H]; done.
Qed.

Lemma edges_DeleteOwner S s t k : Edges S s → Edges (spec_event (EDeleteOwner t k) S) (DeleteOwner t k s).
Proof.
  intros HE. destruct (DeleteOwner_spec t k s) as [Hown Hpdbs]. set (s' := DeleteOwner t k s) in *.
  assert (∀ p it', Pdbs s' !! p = Some it' → ∃ it, Pdbs s !! p = Some it ∧ item_pdb it' = item_pdb it ∧ pdbSelector it' = pdbSelector it
    ∧ ∀ t' j, j ∈ GetRelatedOwnersByType t' it' ↔ ¬ (t' = t ∧ j = k) ∧ j ∈ GetRelatedOwnersByType t' it) as Hit.
  { intros p it'. rw Hpdbs.
    assert (∀ it, Pdbs s !! p = Some it → k ∉ GetRelatedOwnersByType t it → ∀ t' j,
      j ∈ GetRelatedOwnersByType t' it ↔ ¬ (t' = t ∧ j = k) ∧ j ∈ GetRelatedOwnersByType t' it) as Hno.
    { intros it Hi Hn t' j. split; [|by intros []]. intros Hj. split; [|done]. by intros [-> ->]. }
    destruct (own t s !! k) as [o|] eqn:Ho; [case_decide as Hin|].
    - intros (it & Hi & ->)%fmap_Some. exists it. split; [done|]. destruct (item_RemoveOwner_same t k it) as [-> ->].
      split_and!; [done..|]. intros t' j. apply related_remove.
    - intros Hi. exists it'. split_and!; [done..|]. apply Hno; [done|].
      intros (ls & Hl & Hp)%(ed_item _ _ HE t k p it' Hi). apply Hin. apply (ed_owner _ _ HE t k o p Ho).
      rw -(ed_label _ _ HE) Ho in Hl. simpl in Hl. by injection Hl as <-.
    - intros Hi. exists it'. split_and!; [done..|]. apply Hno; [done|].
      intros (ls & Hl & Hp)%(ed_item _ _ HE t k p it' Hi). by rw -(ed_label _ _ HE) Ho in Hl. }
  split; simpl.
  - intros p. pose proof (ed_pdb _ _ HE p) as H. unfold item_of in *. destruct (Pdbs s' !! p) as [it'|] eqn:E'.
    + destruct (Hit p it' E') as (it & Hi & -> & -> & _). by rw Hi in H.
    + rw Hpdbs in E'. assert (Pdbs s !! p = None) as Hn; [|by rw Hn in H].
      destruct (own t s !! k); [|done]. destruct (decide _); [by apply fmap_None in E'|done].
  - intros t' j. rw Hown. destruct (decide (t' = t ∧ j = k)) as [[-> ->]|Hne]; [by rw lookup_delete_eq|].
    rw lookup_delete_ne; [apply (ed_label _ _ HE)|]. intros [= -> ->]. tauto.
  - intros t' j o p. rw Hown. destruct (decide _) as [|Hne]; [done|]. by apply (ed_owner _ _ HE).
  - intros t' j p it' E'. destruct (Hit p it' E') as (it & Hi & _ & _ & Hr). rw Hr (ed_item _ _ HE t' j p it Hi).
    setoid_rewrite lookup_delete_Some. naive_solver.
Qed.

Lemma edges_SetPDBUpdated S s t k : Edges S s → Edges S (SetPDBUpdated t k s).
Proof.
  intros [H1 H2 H3 H4]. unfold SetPDBUpdated.
  assert (∀ t' j o, own t' (alter_owner t k owner_SetPDBUpdated s) !! j = Some o →
    ∃ o0, own t' s !! j = Some o0 ∧ ownerLabels o = ownerLabels o0 ∧ owner_Pdbs o = owner_Pdbs o0) as Ho.
  { intros t' j o. rw own_alter_owner. case_decide as Ht; [subst t'|eauto]. rw lookup_alter_Some. intros [(<- & o0 & H & ->)|[_ H]]; eauto. }
  split.
  - intros p. rw pdbs_alter_owner. apply H1.
  - intros t' j. rw own_alter_owner -H2. case_decide as Ht; [subst t'|done]. destruct (decide (j = k)) as [->|Hj];
      [rw lookup_alter_eq; by destruct (own t s !! k)|by rw lookup_alter_ne].
  - intros t' j o p (o0 & E & -> & ->)%Ho. by apply H3 with (1 := E).
  - intros t' j p it. rw pdbs_alter_owner. apply H4.
Qed.

Lemma edges_UpdateOwner S s t k o n : Edges S s → legal (EUpdateOwner t k o n) S →
  ∃ s', UpdateOwner t k o n s = Some s' ∧ Edges (spec_event (EUpdateOwner t k o n) S) s'.
Proof.
  intros HE [Hlive Hne]. unfold UpdateOwner. destruct (EqualMap o n) eqn:Eq.
  - apply EqualMap_eq in Eq as <-; [|done]. exists s. split; [done|]. simpl. destruct (is_known t) eqn:E; [|by destruct S].
    apply is_known_spec in E. rw insert_id; [by destruct S|by apply Hlive].
  - pose proof (edges_DeleteOwner S s t k HE) as HD.
    destruct (edges_AddOwner _ _ t k n HD) as (s' & -> & HA); [left; simpl; apply lookup_delete_eq|].
    assert (spec_event (EAddOwner t k n) (spec_event (EDeleteOwner t k) S) = spec_event (EUpdateOwner t k o n) S) as HS.
    { simpl. destruct (is_known t) eqn:E; [by rw insert_delete_eq|]. f_equal. apply delete_id.
      rw -(ed_label _ _ HE) own_unknown //. rw -is_known_spec E //. }
    rw HS in HA. eexists. split; [done|]. cbn [mbind option_bind]. destruct (negb _); [by apply edges_SetPDBUpdated|done].
Qed.

Lemma edges_step S s e : text_exact → Edges S s → legal e S → ∃ s', pdb_event e s = Some s' ∧ Edges (spec_event e S) s'.
Proof.
  intros Ht HE Hl. destruct e as [pdb|o n|pdb|t k ls|t k o n|t k]; simpl in Hl |- *.
  - eexists. split; [done|]. by apply edges_AddPDB.
  - destruct Hl. eexists. split; [done|]. by apply edges_UpdatePDB.
  - eexists. split; [done|]. by apply edges_DeletePDB.
  - by apply edges_AddOwner.
  - by apply edges_UpdateOwner.
  - eexists. split; [done|]. by apply edges_DeleteOwner.
Qed.

Definition pdb_events (evs : list PdbEvent) s : option PdbStore := foldl (λ o e, o ≫= pdb_event e) (Some s) evs.
Fixpoint legal_from (evs : list PdbEvent) S : Prop :=
  match evs with [] => True | e :: evs' => legal e S ∧ legal_from evs' (spec_event e S) end.
Definition EmptySpec : PdbSpec := mkPdbSpec ∅ ∅.

Lemma edges_run evs : text_exact → ∀ S s, Edges S s → legal_from evs S →
  ∃ s', pdb_events evs s = Some s' ∧ Edges (foldl (λ S e, spec_event e S) S evs) s'.
Proof.
  intros Ht. induction evs as [|e evs IH]; intros S s HE Hl; [exists s; done|]. destruct Hl as [Hl Hls].
  destruct (edges_step S s e Ht HE Hl) as (s1 & E1 & HE1). destruct (IH _ s1 HE1 Hls) as (s' & E & HE').
  exists s'. split; [|done]. unfold pdb_events. simpl. by rw E1.
Qed.
Lemma edges_empty : Edges EmptySpec NewPdbStore.
Proof.
  assert (∀ t k, own t NewPdbStore !! k = None) as Ho by (intros t k; unfold own, owners; repeat case_bool_decide; done).
  split; simpl.
  - intros p. by rw !lookup_empty.
  - intros t k. by rw Ho.
  - intros t k o p. by rw Ho.
  - intros t k p it. by rw lookup_empty.
Qed.

(** C5: After any legal sequence of events on budgets, replica sets and daemon
    sets no handler meets a nil selector, an owner is known exactly while it is
    live and has its last labels, its budgets are exactly the live budgets whose
    selector matches these labels, a budget lists exactly the live owners it
    matches, and the list of budgets is the list of the live ones. *)
Theorem pdb_index_refines evs (Htext : text_exact) (Hlegal : legal_from evs EmptySpec) :
  let S := foldl (λ S e, spec_event e S) EmptySpec evs in
  ∃ s, pdb_events evs NewPdbStore = Some s
    ∧ (∀ t k, match live_owners S !! (t, k) with
        | None => GetPDBsForOwner t k s = (false, false, ∅)
        | Some ls => GetOwnerLabels t k s = ls ∧ ∃ upd P, GetPDBsForOwner t k s = (true, upd, P)
            ∧ ∀ p, p ∈ P ↔ ∃ pdb, live_pdbs S !! p = Some pdb ∧ selects pdb ls = true
        end)
    ∧ (∀ t k p, k ∈ GetOwnersForPDB p t s ↔
        ∃ ls pdb, live_owners S !! (t, k) = Some ls ∧ live_pdbs S !! p = Some pdb ∧ selects pdb ls = true)
    ∧ ∀ pdb, (∃ it, it ∈ GetPDBItemList s ∧ item_pdb it = Some pdb) ↔ ∃ p, live_pdbs S !! p = Some pdb.
Proof.
  intros S. destruct (edges_run evs Htext EmptySpec NewPdbStore edges_empty Hlegal) as (s & E & HE). exists s. split; [done|].
  assert (∀ t k, (owners t s ≫= (.!! k)) = own t s !! k) as Hown.
  { intros t k. unfold own. destruct (owners t s); [done|]. simpl. by rw lookup_empty. }
  split_and!.
  - intros t k. unfold GetPDBsForOwner, GetOwnerLabels. rw Hown. pose proof (ed_label _ _ HE t k) as Hl. fold S in Hl. rw -Hl.
    destruct (own t s !! k) as [o|] eqn:Ho; simpl; [|done]. split; [done|]. eexists _, _. split; [done|]. intros p.
    by apply (ed_owner _ _ HE t k).
  - intros t k p. unfold GetOwnersForPDB. destruct (Pdbs s !! p) as [it|] eqn:Hp.
    + rw (ed_item _ _ HE t k p it Hp). unfold picks. naive_solver.
    + pose proof (ed_pdb _ _ HE p) as Hi. fold S in Hi. rw Hp in Hi. split; [set_solver|].
      intros (ls & pdb & _ & Hl & _). by rw Hl in Hi.
  - intros pdb. unfold GetPDBItemList. setoid_rewrite list_elem_of_filter. setoid_rewrite list_elem_of_fmap. split.
    + intros (it & [_ ([p it'] & -> & Hin%range_elem)] & Hp). destruct (edges_item _ s p it' HE Hin) as (pdb' & _ & Hl & Hp' & _).
      exists p. cbn [snd] in Hp. fold S in Hl. congruence.
    + intros [p Hl]. pose proof (ed_pdb _ _ HE p) as Hi. fold S in Hi. rw Hl in Hi. unfold item_of in Hi.
      destruct (Pdbs s !! p) as [it|] eqn:Hp; [|done]. destruct Hi as (Hi & _). exists it. split_and!; [by rw Hi|exists (p, it); split; [done|by apply range_elem]|done].
Qed.
End contract.

(** ** Examples *)

Module PdbExamples.

Definition any : string → bool := λ _, true.
Definition req_code (e : LabelSelectorRequirement) : string * string * list string := (expr_Key e, expr_Operator e, expr_Values e).
Definition sel_code (s : LabelSelector) : gmap string string * list (string * string * list string) := (MatchLabels s, req_code <$> MatchExpressions s).
(** A text that determines the selector. *)
Definition sel_text (s : option LabelSelector) : string := pretty (Npos (encode (sel_code <$> s))).

Lemma req_code_inj e e' : req_code e = req_code e' → e = e'.
Proof. destruct e, e'. unfold req_code. simpl. congruence. Qed.
Lemma sel_code_inj s s' : sel_code s = sel_code s' → s = s'.
Proof.
  destruct s as [m l], s' as [m' l']. unfold sel_code. simpl. intros [= -> Hl]. f_equal. revert l' Hl.
  induction l as [|e l IH]; intros [|e' l']; try done. intros [= ? ? ? ?]. f_equal; [apply req_code_inj; unfold req_code; congruence|by apply IH].
Qed.
Lemma sel_text_exact : text_exact any any sel_text.
Proof.
  intros x y sx sy Hx Hy Ht. assert (x = y) as ->; [|congruence].
  unfold sel_text in Ht. apply (inj (pretty (A := N))) in Ht. injection Ht as Ht. apply (inj encode) in Ht.
  destruct x as [x|], y as [y|]; try done. simpl in Ht. injection Ht as Hm Hl. f_equal. apply sel_code_inj. unfold sel_code. congruence.
Qed.

Definition app (v : string) : LabelSelector := {| MatchLabels := {["app" := v]}; MatchExpressions := [] |}.
Definition budget (ns name : string) (sel : option LabelSelector) (n : Z) : PodDisruptionBudget :=
  {| pdb_Namespace := ns; pdb_Name := name; pdb_Selector := sel; DisruptionsAllowed := n; DisruptedPods := ∅ |}.
Definition web := budget "ns" "web" (Some (app "web")) 1.
Definition web' := budget "ns" "web" (Some (app "api")) 1.
Definition evs0 : list PdbEvent :=
  [EAddOwner OwnerTypeReplicaSet "ns/rs" {["app" := "web"]}; EAddPDB web; EAddOwner OwnerTypeDaemonSet "ns/ds" {["app" := "api"]};
   EUpdatePDB web web'; EUpdateOwner OwnerTypeReplicaSet "ns/rs" {["app" := "web"]} {["app" := "api"]};
   EDeleteOwner OwnerTypeDaemonSet "ns/ds"].

Lemma pdb_index_refines_witness :
  ∃ s, pdb_events any any sel_text evs0 NewPdbStore = Some s ∧ "ns/web" ∈ (GetPDBsForOwner OwnerTypeReplicaSet "ns/rs" s).2
    ∧ GetPDBsForOwner OwnerTypeDaemonSet "ns/ds" s = (false, false, ∅).
Proof.
  destruct (pdb_index_refines any any sel_text evs0 sel_text_exact) as (s & E & H1 & _).
  - simpl. split_and!; try done; try (by eexists); try by left.
    intros k v Hk. by apply lookup_singleton_Some in Hk as [_ <-].
  - exists s. split; [exact E|]. split.
    + specialize (H1 OwnerTypeReplicaSet "ns/rs").
      assert (live_owners (foldl (λ S e, spec_event e S) EmptySpec evs0) !! (OwnerTypeReplicaSet, "ns/rs") = Some {["app" := "api"]}) as El
        by (vm_compute; reflexivity).
      rewrite El in H1. destruct H1 as (_ & upd & P & -> & Hin). apply Hin. exists web'. split; vm_compute; reflexivity.
    + specialize (H1 OwnerTypeDaemonSet "ns/ds").
      assert (live_owners (foldl (λ S e, spec_event e S) EmptySpec evs0) !! (OwnerTypeDaemonSet, "ns/ds") = None) as El
        by (vm_compute; reflexivity).
      rewrite El in H1. exact H1.
Defined.

(** [EqualMap] takes a missing label for an empty one: the labels of an owner that
    change from [a: ""] to [b: "x"] are not updated. *)
Lemma label_update_lost : ∃ s, pdb_events any any sel_text
    [EAddOwner OwnerTypeReplicaSet "ns/rs" {["a" := ""]}; EUpdateOwner OwnerTypeReplicaSet "ns/rs" {["a" := ""]} {["b" := "x"]}] NewPdbStore = Some s
  ∧ GetOwnerLabels OwnerTypeReplicaSet "ns/rs" s = {["a" := ""]}.
Proof. eexists. split; by vm_compute. Qed.

(** A budget is listed for an owner with matching labels in another namespace. *)
Lemma other_namespace_listed : ∃ s, pdb_events any any sel_text
    [EAddOwner OwnerTypeReplicaSet "other/rs" {["app" := "web"]}; EAddPDB web] NewPdbStore = Some s
  ∧ GetPDBsForOwner OwnerTypeReplicaSet "other/rs" s = (true, false, {["ns/web"]}).
Proof. eexists. split; by vm_compute. Qed.
End PdbExamples.
