(* ===== verification/VictimSearch.v ===== *)
(** * Which pods a pod may preempt

    The victim searching plugins of pkg/scheduler/framework/preemption-plugins/searching,
    how the preemption framework runs them
    (pkg/scheduler/framework/runtime/preemption_framework.go), and [FilterVictimsPods],
    the candidates on a node (pkg/scheduler/framework/preemption-plugins/preemption.go).

    [None] is a panic: a nil state or an index out of range.  Times are nanoseconds;
    the clock, the priority classes, the decoder of the victims a pod names and the
    format of labels are arguments.  The map of a pod's match results
    ([cs_PDB]) is one object that every clone of the cycle state shares. *)
From S2P Require Import Prelude GoStrings PodModel PodState HashSlice Resource MicroTopo PodInfos Numa NodeInfo Framework PdbStore.

Local Open Scope godel_scope.
Local Open Scope string_scope.

(** ** Plugins *)

Record VictimState := mkVictimState { MatchedPDBIndexes : list nat; MatchedPDBIndexesExist : bool }.
Definition NewVictimState : VictimState := mkVictimState [] false.

(** The entries of the preemption state: the budgets left on this node, and the
    keys of the pods that may only be preempted with others. *)
Record PreemptionState := mkPreemptionState { ps_PDBsAllowed : option (list Z); PodsCanNotBePreempted : list string }.
Definition NewPreemptionState : PreemptionState := mkPreemptionState None [].
Definition SetPodsCanNotBePreempted (podKey : string) (ps : PreemptionState) : PreemptionState :=
  mkPreemptionState (ps_PDBsAllowed ps) (PodsCanNotBePreempted ps ++ [podKey]).

Record SearchingPlugin := {
  sp_Name : string;
  sp_NodePrePreempting : option (PreemptionState → PreemptionState * Status);
  sp_VictimSearching : Pod → PodInfo → CycleState → PreemptionState → VictimState → option (CycleState * VictimState * Code);
  sp_PostVictimSearching : option (Pod → PodInfo → CycleState → PreemptionState → VictimState → option (PreemptionState * Status))
}.
Record PluginCollection := {
  forceQuickPass : bool; enableQuickPass : bool; rejectNotSure : bool; plugins : list SearchingPlugin
}.
Definition PreemptionFramework : Type := list PluginCollection.
(** The plugins that implement an optional interface, in the order of registration. *)
Definition nodePrePreemptingPlugins (pf : PreemptionFramework) := pf ≫= (λ c, plugins c ≫= λ p, option_list (sp_NodePrePreempting p)).
Definition postVictimSearchingPlugins (pf : PreemptionFramework) := pf ≫= (λ c, plugins c ≫= λ p, option_list (sp_PostVictimSearching p)).

(** ** Running them *)

Section run.
Implicit Types (cs : CycleState) (ps : PreemptionState) (vs : VictimState).

Fixpoint runVictimSearchingPluginCollection (pls : list SearchingPlugin) (preemptor : Pod) (pi : PodInfo) cs ps vs
    : option (CycleState * VictimState * Code) :=
  match pls with
  | [] => Some (cs, vs, PreemptionNotSure)
  | pl :: pls' =>
      '(cs, vs, code) ← sp_VictimSearching pl preemptor pi cs ps vs;
      match code with
      | PreemptionFail => Some (cs, vs, PreemptionFail)
      | PreemptionSucceed => Some (cs, vs, PreemptionSucceed)
      | PreemptionNotSure => runVictimSearchingPluginCollection pls' preemptor pi cs ps vs
      | _ => Some (cs, vs, PreemptionFail)
      end
  end.

Fixpoint search_loop (pf : PreemptionFramework) (podKey : string) (preemptor : Pod) (pi : PodInfo) (pass quickPass : bool) cs ps vs
    : option (CycleState * PreemptionState * VictimState * Code) :=
  match pf with
  | [] =>
      if quickPass then Some (cs, SetPodsCanNotBePreempted podKey ps, vs, PreemptionSucceed)
      else if pass then Some (cs, ps, vs, PreemptionSucceed)
      else Some (cs, ps, vs, PreemptionFail)
  | c :: pf' =>
      '(cs, vs, code) ← runVictimSearchingPluginCollection (plugins c) preemptor pi cs ps vs;
      match code with
      | PreemptionFail =>
          if quickPass then Some (cs, SetPodsCanNotBePreempted podKey ps, vs, PreemptionSucceed)
          else Some (cs, ps, vs, PreemptionFail)
      | PreemptionSucceed =>
          if forceQuickPass c then Some (cs, ps, vs, PreemptionSucceed)
          else if enableQuickPass c then search_loop pf' podKey preemptor pi pass true cs ps vs
          else search_loop pf' podKey preemptor pi true quickPass cs ps vs
      | _ =>
          if (code ≟ PreemptionNotSure) && rejectNotSure c then
            if quickPass then Some (cs, SetPodsCanNotBePreempted podKey ps, vs, PreemptionSucceed)
            else Some (cs, ps, vs, PreemptionFail)
          else search_loop pf' podKey preemptor pi pass quickPass cs ps vs
      end
  end.
Definition RunVictimSearchingPlugins (pf : PreemptionFramework) (preemptor : Pod) (pi : PodInfo) cs ps vs :=
  search_loop pf (GeneratePodKey (pi_Pod pi)) preemptor pi false false cs ps vs.

Definition RunPostVictimSearchingPlugins (pf : PreemptionFramework) (preemptor : Pod) (pi : PodInfo) cs ps vs : option (PreemptionState * Status) :=
  foldl (λ acc post, '(ps, st) ← acc; match st with Some _ => Some (ps, st) | None => post preemptor pi cs ps vs end)
    (Some (ps, None)) (postVictimSearchingPlugins pf).
Definition RunNodePrePreemptingPlugins (pf : PreemptionFramework) ps : PreemptionState * Status :=
  foldl (λ acc pre, match acc with (ps, Some st) => (ps, Some st) | (ps, None) => pre ps end) (ps, None) (nodePrePreemptingPlugins pf).
End run.

(** ** The plugins without state *)

Definition PodLauncherChecker : SearchingPlugin :=
  {| sp_Name := "PodLauncherChecker"; sp_NodePrePreempting := None; sp_PostVictimSearching := None;
     sp_VictimSearching := λ _ pi cs _ vs,
       Some (cs, vs, if negb (pi_Launcher pi ≟ Some Kubelet) then PreemptionFail else PreemptionNotSure) |}.

Record PriorityClass := { pc_Annotations : gmap string string; pc_PreemptionPolicy : option string }.

Section plugins.
Context (pcLister : string → option PriorityClass) (now : Z).

Definition CanBePreemptedValue : string := "true".
Definition checkPreemptibility (pod : Pod) : bool :=
  if PriorityClassName pod ≟ "" then false else
  match pcLister (PriorityClassName pod) with
  | None => false
  | Some pc => default "" (pc_Annotations pc !! CanBePreemptedAnnotationKey) ≟ CanBePreemptedValue
  end.
Definition PreemptibilityChecker : SearchingPlugin :=
  {| sp_Name := "PreemptibilityChecker"; sp_NodePrePreempting := None; sp_PostVictimSearching := None;
     sp_VictimSearching := λ _ pi cs _ vs,
       Some (cs, vs,
         if (0 <? CanBePreempted (PreemptionInfo pi))%Z then PreemptionNotSure
         else if (CanBePreempted (PreemptionInfo pi) <? 0)%Z then PreemptionFail
         else if negb (checkPreemptibility (pi_Pod pi)) then PreemptionFail else PreemptionNotSure) |}.

Definition Second : Z := 1000000000.
Definition newly_started (preemptMinIntervalSeconds : Z) (pi : PodInfo) : Code :=
  let minIntervalSeconds := if ProtectionDurationExist (PreemptionInfo pi) then ProtectionDuration (PreemptionInfo pi)
                            else preemptMinIntervalSeconds in
  if (minIntervalSeconds <=? 0)%Z then PreemptionNotSure else
  match pi_StartTime (PreemptionInfo pi) with
  | None => PreemptionFail
  | Some startTime =>
      if (now <? startTime + wrap64 (minIntervalSeconds * Second))%Z then PreemptionFail else PreemptionNotSure
  end.
Definition NewlyStartedProtectionChecker (preemptMinIntervalSeconds : Z) : SearchingPlugin :=
  {| sp_Name := "NewlyStartedProtectionChecker"; sp_NodePrePreempting := None; sp_PostVictimSearching := None;
     sp_VictimSearching := λ _ pi cs _ vs, Some (cs, vs, newly_started preemptMinIntervalSeconds pi) |}.

Definition PriorityValue_ClusterPrePreempting (preemptor : Pod) (cs : CycleState) : CycleState := cs_set_Priority (GetPodPriority preemptor) cs.
Definition PriorityValueChecker : SearchingPlugin :=
  {| sp_Name := "PriorityValueChecker"; sp_NodePrePreempting := None; sp_PostVictimSearching := None;
     sp_VictimSearching := λ _ pi cs _ vs,
       Some (cs, vs,
         match cs_Priority cs with
         | None => Error
         | Some priority => if (priority <=? PodPriority pi)%Z then PreemptionFail else PreemptionSucceed
         end) |}.

(** [PodEligibleToPreemptOthers] (util.go). *)
Definition PreemptNever : string := "Never".
Definition PreemptionPolicyKey : string := "godel.bytedance.com/preemption-policy".
Definition PodEligibleToPreemptOthers (pod : Pod) : bool :=
  match PreemptionPolicy pod with
  | Some policy => negb (policy ≟ PreemptNever)
  | None =>
      let from_annotation := match anno_lookup pod PreemptionPolicyKey with
                             | Some policy => negb (policy ≟ PreemptNever)
                             | None => true
                             end in
      if PriorityClassName pod ≟ "" then from_annotation else
      match pcLister (PriorityClassName pod) with
      | None => false
      | Some pc => match pc_PreemptionPolicy pc with
                   | Some policy => negb (policy ≟ PreemptNever)
                   | None => from_annotation
                   end
      end
  end.
End plugins.

(** ** Disruption budgets *)

Section pdb.
Context {MR : MapRange} (FormatLabels : gmap string string → string).

(** [PDBMatched]: a budget without selector, or with an empty one, matches nothing. *)
Definition PDBMatched (victim : Pod) (it : PDBItem) : option bool :=
  pdb ← item_pdb it;
  Some (
    if negb (pdb_Namespace pdb ≟ Namespace victim) then false else
    match pdbSelector it with
    | None => false
    | Some sel =>
        if Selector_Empty sel || negb (Matches sel (Labels victim)) then false
        else negb (bool_decide (Name victim ∈ DisruptedPods pdb))
    end).

Fixpoint pdb_violation (victim : Pod) (allowed : list Z) (i : nat) (items : list PDBItem) : option (bool * list nat) :=
  match items with
  | [] => Some (false, [])
  | it :: items' =>
      m ← PDBMatched victim it;
      if negb m then pdb_violation victim allowed (S i) items' else
      a ← allowed !! i;
      '(violating, indexes) ← pdb_violation victim allowed (S i) items';
      Some ((wrap32 (a - 1) <? 0)%Z || violating, i :: indexes)
  end.
(** [CheckPodDisruptionBudgetViolation]; each budget is decremented at most once. *)
Definition CheckPodDisruptionBudgetViolation (victim : Pod) (allowed : list Z) (items : list PDBItem) : option (bool * list nat) :=
  if size (Labels victim) ≟ 0%nat then Some (false, []) else pdb_violation victim allowed 0 items.

Record PDBChecker := mkPDBChecker { pdbsNameToIndexes : gmap string nat; pdbItems : list PDBItem; pdbsAllowed : list Z }.
Record PDBCommonState := mkPDBCommonState { common_pdbs : PDBChecker }.

Definition index_pdbs (items : list PDBItem) : gmap string nat * list Z :=
  let step acc e :=
    let '(m, l) := acc in
    match item_pdb e.2 with
    | Some pdb => (<[GetPDBKey pdb := e.1]> m, (l ++ [DisruptionsAllowed pdb])%list)
    | None => (m, l)
    end in
  foldl step (∅, []) (imap pair items).
(** The budgets are read once per unit and shared through the common state. *)
Definition PDB_ClusterPrePreempting (h : PdbStore) (cs : CycleState) (common : option PDBCommonState)
    : PDBChecker * CycleState * PDBCommonState :=
  let cs := cs_set_PDB ∅ cs in
  match common with
  | Some c => (common_pdbs c, cs, c)
  | None =>
      let items := GetPDBItemList h in
      let '(names, allowed) := index_pdbs items in
      let pdb := mkPDBChecker names items allowed in
      (pdb, cs, mkPDBCommonState pdb)
  end.
Definition PDB_NodePrePreempting (pdb : PDBChecker) (ps : PreemptionState) : PreemptionState * Status :=
  (mkPreemptionState (Some (pdbsAllowed pdb)) (PodsCanNotBePreempted ps), None).

Fixpoint checkPodDisruptionBudgetViolation (allowed : list Z) (indexes : list nat) : option bool :=
  match indexes with
  | [] => Some false
  | i :: indexes' => a ← allowed !! i; if (a <=? 0)%Z then Some true else checkPodDisruptionBudgetViolation allowed indexes'
  end.

(** The budgets of the pod's owner; a name that is not indexed has index 0. *)
Definition getMatchedPDBIndexesFromOwner (h : PdbStore) (pdb : PDBChecker) (pi : PodInfo) : option (list nat) :=
  let t := OwnerType (PreemptionInfo pi) in
  let k := OwnerKey (PreemptionInfo pi) in
  if (t ≟ "") || (k ≟ "") then None else
  let '(known, updated, names) := GetPDBsForOwner t k h in
  if negb known then None
  else if updated && negb (EqualMap (GetOwnerLabels t k h) (Labels (pi_Pod pi))) then None
  else Some ((λ name, default 0%nat (pdbsNameToIndexes pdb !! name)) <$> elements names).

Definition PDB_VictimSearching (h : PdbStore) (pdb : PDBChecker) (_ : Pod) (pi : PodInfo) (cs : CycleState) (ps : PreemptionState) (vs : VictimState)
    : option (CycleState * VictimState * Code) :=
  allowed ← ps_PDBsAllowed ps;
  match getMatchedPDBIndexesFromOwner h pdb pi with
  | Some indexes =>
      violating ← checkPodDisruptionBudgetViolation allowed indexes;
      Some (cs, mkVictimState indexes true, if violating : bool then PreemptionFail else PreemptionNotSure)
  | None =>
      let labels := FormatLabels (Labels (pi_Pod pi)) in
      match cs_PDB cs with
      | None => Some (cs, vs, Error)
      | Some cache =>
          match cache !! labels with
          | Some indexes =>
              violating ← checkPodDisruptionBudgetViolation allowed indexes;
              Some (cs, mkVictimState indexes true, if violating : bool then PreemptionFail else PreemptionNotSure)
          | None =>
              '(violating, indexes) ← CheckPodDisruptionBudgetViolation (pi_Pod pi) allowed (pdbItems pdb);
              Some (cs_set_PDB (<[labels := indexes]> cache) cs, mkVictimState indexes true,
                    if violating : bool then PreemptionFail else PreemptionNotSure)
          end
      end
  end.

Fixpoint take_budgets (indexes : list nat) (allowed : list Z) : option (list Z) :=
  match indexes with
  | [] => Some allowed
  | i :: indexes' => a ← allowed !! i; take_budgets indexes' (<[i := wrap32 (a - 1)]> allowed)
  end.

Definition PDB_PostVictimSearching (h : PdbStore) (pdb : PDBChecker) (_ : Pod) (pi : PodInfo) (cs : CycleState) (ps : PreemptionState) (vs : VictimState)
    : option (PreemptionState * Status) :=
  allowed ← ps_PDBsAllowed ps;
  let take indexes := allowed' ← take_budgets indexes allowed;
                      Some (mkPreemptionState (Some allowed') (PodsCanNotBePreempted ps), None) in
  if MatchedPDBIndexesExist vs then take (MatchedPDBIndexes vs)
  else match getMatchedPDBIndexesFromOwner h pdb pi with
       | Some indexes => take indexes
       | None =>
           match cs_PDB cs with
           | None => Some (ps, Some Error)
           | Some cache =>
               match cache !! FormatLabels (Labels (pi_Pod pi)) with
               | Some indexes => take indexes
               | None => '(_, indexes) ← CheckPodDisruptionBudgetViolation (pi_Pod pi) allowed (pdbItems pdb); take indexes
               end
           end
       end.

(** Once the victims are chosen, the budgets that the unit shares are decremented. *)
Definition post_victim (items : list PDBItem) (acc : option (list Z)) (victim : Pod) : option (list Z) :=
  foldl (λ acc e, allowed ← acc; m ← PDBMatched victim e.2;
                  if m : bool then a ← allowed !! e.1; Some (<[e.1 := wrap32 (a - 1)]> allowed) else Some allowed)
    acc (imap pair items).
Definition PDB_NodePostPreempting (pdb : PDBChecker) (victims : list Pod) : option PDBChecker :=
  allowed ← foldl (post_victim (pdbItems pdb)) (Some (pdbsAllowed pdb)) victims;
  Some (mkPDBChecker (pdbsNameToIndexes pdb) (pdbItems pdb) allowed).

Definition PDBCheckerPlugin (h : PdbStore) (pdb : PDBChecker) : SearchingPlugin :=
  {| sp_Name := "PDBChecker"; sp_NodePrePreempting := Some (PDB_NodePrePreempting pdb);
     sp_VictimSearching := PDB_VictimSearching h pdb; sp_PostVictimSearching := Some (PDB_PostVictimSearching h pdb) |}.
End pdb.

(** The collections of factory.go, for pods that the kubelet launches. *)
Definition single (rejectNotSure_ : bool) (p : SearchingPlugin) : PluginCollection :=
  {| forceQuickPass := false; enableQuickPass := false; rejectNotSure := rejectNotSure_; plugins := [p] |}.
Definition basePreemption (launcher preemptibility newly priority pdb : SearchingPlugin) : PreemptionFramework :=
  [single false launcher; single false preemptibility; single false newly; single true priority; single false pdb].

(** ** The candidates on a node *)

Definition isPodInSpecifiedVictimList (pod : Pod) (specifiedVictimList : option (list string)) : bool :=
  match specifiedVictimList with
  | None => true
  | Some l =>
      let podAppName := GetBestEffortPodAppName pod in
      if podAppName ≟ "" then true else existsb (λ a, podAppName ≟ a) l
  end.
Definition PotentialVictimsAnnotationKey : string := "godel.bytedance.com/potential-victims".
Definition GetPodPartitionPriority (pod : Pod) : Z := (GetPodPriority pod + 1)%Z.

Section filter_victims.
(** The applications that the JSON of the annotation names; [None] if it is invalid. *)
Context (jsonVictims : string → option (list string)).
Definition GetPotentialVictims (pod : Pod) : option (list string) :=
  match anno_lookup pod PotentialVictimsAnnotationKey with
  | Some data => if data ≟ "" then None else jsonVictims data
  | None => None
  end.

Context (pf : PreemptionFramework) (GetPreemptorsByVictim : string → string → list string).

(** Whether one pod is a potential victim, with the states after the plugins. *)
Definition check_victim (nodeName : string) (preemptor : Pod) (cs : CycleState) (ps : PreemptionState) (pi : PodInfo)
    : option (CycleState * PreemptionState * bool) :=
  let podKey := GeneratePodKey (pi_Pod pi) in
  if negb (length (GetPreemptorsByVictim nodeName podKey) ≟ 0%nat) then Some (cs, ps, false) else
  if negb (isPodInSpecifiedVictimList (pi_Pod pi) (GetPotentialVictims preemptor)) then Some (cs, ps, false) else
  '(cs, ps, vs, code) ← RunVictimSearchingPlugins pf preemptor pi cs ps NewVictimState;
  if negb (code ≟ PreemptionSucceed) then Some (cs, ps, false) else
  '(ps, st) ← RunPostVictimSearchingPlugins pf preemptor pi cs ps vs;
  if negb (IsSuccess st) then Some (cs, ps, code_of st ≟ PreemptionSucceed) else Some (cs, ps, true).

Fixpoint check_victims (nodeName : string) (preemptor : Pod) (l : list PodInfo) (cs : CycleState) (ps : PreemptionState)
    : option (CycleState * PreemptionState * list Pod) :=
  match l with
  | [] => Some (cs, ps, [])
  | pi :: l' =>
      '(cs, ps, ok) ← check_victim nodeName preemptor cs ps pi;
      '(cs, ps, rest) ← check_victims nodeName preemptor l' cs ps;
      Some (cs, ps, if ok : bool then pi_Pod pi :: rest else rest)
  end.

Definition FilterVictimsPods (nodeName : string) (cs : CycleState) (ps : PreemptionState) (n : NodeInfo) (preemptor : Pod)
    (priorityLower priorityUpper : Z) (checked : bool) : option (CycleState * PreemptionState * list Pod) :=
  match cs_ResourceType cs with
  | None => Some (cs, ps, [])
  | Some t =>
      let '(ps, st) := if checked then (ps, None) else RunNodePrePreemptingPlugins pf ps in
      match st with
      | Some _ => Some (cs, ps, [])
      | None =>
          l ← node_GetVictimCandidates {| PodInfos.priorityLower := priorityLower; PodInfos.priorityUpper := priorityUpper; pt_resourceType := t |} n;
          check_victims nodeName preemptor l cs ps
      end
  end.
End filter_victims.
