(* ===== verification/VictimSearchProps.v ===== *)
(** * Victims respect the disruption budgets

    The chain of checks that makes a pod a potential victim, and the accounting of
    the budgets along it: every potential victim takes one disruption from each
    budget that matches it, and no budget is overdrawn, on a node and across the
    pods of a unit that share the budgets. *)
From S2P Require Import Prelude GoStrings PodModel PodState HashSlice Resource MicroTopo PodInfos PodInfosProps Numa NodeInfo Framework PdbStore PdbStoreProps PdbStoreSpec VictimSearch.

Local Open Scope godel_scope.
Local Open Scope string_scope.

(** ** Matching *)

Definition matched (victim : Pod) (it : PDBItem) : bool := default false (PDBMatched victim it).
Definition has_pdbs (items : list PDBItem) : Prop := ∀ i it, items !! i = Some it → is_Some (item_pdb it).
(** The budgets are non-negative 32-bit integers, one for each item. *)
Definition budgets_ok (items : list PDBItem) (allowed : list Z) : Prop :=
  length allowed = length items ∧ ∀ i a, allowed !! i = Some a → (0 <= a < 2 ^ 31)%Z.
(** The indexes include every budget that matches the pod. *)
Definition covers (items : list PDBItem) (p : Pod) (idx : list nat) : Prop :=
  NoDup idx ∧ (∀ i, i ∈ idx → (i < length items)%nat) ∧ ∀ i it, items !! i = Some it → matched p it = true → i ∈ idx.

Lemma PDBMatched_total victim it : is_Some (item_pdb it) → PDBMatched victim it = Some (matched victim it).
Proof. intros [pdb Hp]. unfold matched, PDBMatched. rw Hp. done. Qed.

Lemma pdb_violation_spec victim allowed items : ∀ i, has_pdbs items → (∀ k, (i <= k < i + length items)%nat → ∃ a, allowed !! k = Some a ∧ (0 <= a < 2 ^ 31)%Z) →
  ∃ v idx, pdb_violation victim allowed i items = Some (v, idx) ∧ NoDup idx
    ∧ (∀ k, k ∈ idx ↔ (i <= k)%nat ∧ ∃ it, items !! (k - i)%nat = Some it ∧ matched victim it = true)
    ∧ (v = true ↔ ∃ k, k ∈ idx ∧ allowed !! k = Some 0%Z).
Proof.
  induction items as [|it items IH]; intros i Hp Ha; simpl.
  { exists false, []. split_and!; [done|constructor| |].
    - intros k. rw elem_of_nil. split; [done|]. intros (_ & it & H & _). by rw lookup_nil in H.
    - split; [done|]. intros (k & H & _). by apply elem_of_nil in H. }
  destruct (IH (S i)) as (v & idx & E & HND & Hidx & Hv).
  { intros k. apply (Hp (S k)). }
  { intros k Hk. apply Ha. simpl. lia. }
  rw (PDBMatched_total victim it (Hp 0%nat it eq_refl)). cbn [mbind option_bind].
  assert (∀ k, (S i <= k)%nat → (it :: items) !! (k - i)%nat = items !! (k - S i)%nat) as Hsh.
  { intros k Hk. replace (k - i)%nat with (S (k - S i)) by lia. done. }
  assert (∀ k, k ∈ idx ↔ (S i <= k)%nat ∧ ∃ it0, (it :: items) !! (k - i)%nat = Some it0 ∧ matched victim it0 = true) as Hidx'.
  { intros k. rw Hidx. split; intros [Hk H]; (split; [done|]); by rw Hsh in H || rw Hsh. }
  destruct (Ha i) as (a & Hai & Ha0); [simpl; lia|]. destruct (matched victim it) eqn:Em; simpl.
  - rw Hai E. cbn [mbind option_bind]. eexists _, _. split; [done|]. split_and!.
    + constructor; [|done]. rw Hidx. lia.
    + intros k. rw elem_of_cons Hidx'. split.
      * intros [->|[Hk H]]; [|split; [lia|done]]. split; [lia|]. exists it. by rw Nat.sub_diag.
      * intros [Hk H]. destruct (decide (k = i)) as [->|Hne]; [by left|right; split; [lia|done]].
    + rw orb_true_iff Z.ltb_lt Hv wrap32_id; [|lia]. split.
      * intros [H|(k & Hk & H0)]; [exists i; split; [by left|rw Hai; f_equal; lia]|exists k; split; [by right|done]].
      * intros (k & [->|Hk]%elem_of_cons & H0); [left; rw H0 in Hai; injection Hai; lia|right; eauto].
  - rw E. eexists _, _. split; [done|]. split_and!; [done| |done]. intros k. rw Hidx'. split; [intros [Hk H]; split; [lia|done]|].
    intros [Hk H]. split; [|done]. destruct (decide (k = i)) as [->|Hne]; [|lia].
    rw Nat.sub_diag in H. destruct H as (it0 & [= <-] & H). congruence.
Qed.

Lemma violation_check_spec allowed idx : (∀ k, k ∈ idx → ∃ a, allowed !! k = Some a ∧ (0 <= a < 2 ^ 31)%Z) →
  ∃ v, checkPodDisruptionBudgetViolation allowed idx = Some v ∧ (v = true ↔ ∃ k, k ∈ idx ∧ allowed !! k = Some 0%Z).
Proof.
  induction idx as [|i idx IH]; intros Ha; simpl.
  { exists false. split; [done|]. split; [done|]. intros (k & H & _). by apply elem_of_nil in H. }
  destruct (Ha i) as (a & Hai & Ha0); [by left|]. rw Hai. cbn [mbind option_bind]. destruct (Z.leb_spec a 0).
  - exists true. split; [done|]. split; [|done]. intros _. exists i. split; [by left|]. rw Hai. f_equal. lia.
  - destruct IH as (v & E & Hv); [intros; apply Ha; by right|]. exists v. split; [done|]. rw Hv. split; intros (k & Hk & H0).
    + exists k. split; [by right|done].
    + apply elem_of_cons in Hk as [->|Hk]; [rw Hai in H0; injection H0; lia|eauto].
Qed.

Lemma take_budgets_spec idx : ∀ allowed, NoDup idx → (∀ k, k ∈ idx → ∃ a, allowed !! k = Some a ∧ (0 <= a < 2 ^ 31)%Z) →
  ∃ allowed', take_budgets idx allowed = Some allowed' ∧ length allowed' = length allowed
    ∧ ∀ k, allowed' !! k = if decide (k ∈ idx) then (λ a, a - 1)%Z <$> allowed !! k else allowed !! k.
Proof.
  induction idx as [|i idx IH]; intros allowed HND Ha; cbn [take_budgets].
  { exists allowed. split_and!; [done..|]. intros k. by destruct (decide _) as [?%elem_of_nil|]. }
  apply NoDup_cons in HND as [Hni HND]. destruct (Ha i) as (a & Hai & Ha0); [by left|]. rw Hai. cbn [mbind option_bind].
  rw wrap32_id; [|lia]. destruct (IH (<[i := (a - 1)%Z]> allowed)) as (allowed' & E & Hlen & Hk); [done| |].
  { intros k Hkin. rw list_lookup_insert_ne; [apply Ha; by right|]. by intros ->. }
  exists allowed'. split_and!; [done|by rw Hlen length_insert|]. intros k. rw Hk. destruct (decide (k = i)) as [->|Hne].
  - rw decide_False //. destruct (decide (i ∈ i :: idx)) as [_|Hn]; [|destruct Hn; by left].
    rw list_lookup_insert_eq; [by rw Hai|]. by eapply lookup_lt_Some.
  - rw list_lookup_insert_ne //. destruct (decide (k ∈ idx)) as [Hin|Hin]; destruct (decide (k ∈ i :: idx)) as [Hin'|Hin']; try done.
    + destruct Hin'. by right.
    + apply elem_of_cons in Hin' as [?|?]; done.
Qed.

(** ** One candidate *)

Section budgets.
Context {MR : MapRange} {ML : MapRangeLaws MR} (FormatLabels : gmap string string → string).
Context (pcLister : string → option PriorityClass) (now preemptMinIntervalSeconds : Z).
Context (h : PdbStore) (pdb : PDBChecker) (cands : list PodInfo).
Abbreviation items := (pdbItems pdb).

(** The candidates have labels; the index of an owner includes the budgets of its
    pods; pods with the same labels match the same budgets. *)
Record cands_ok : Prop := {
  ca_pdbs : has_pdbs items;
  ca_labels pi : pi ∈ cands → Labels (pi_Pod pi) ≠ ∅;
  ca_owner pi idx : pi ∈ cands → getMatchedPDBIndexesFromOwner h pdb pi = Some idx → covers items (pi_Pod pi) idx;
  ca_format pi pi' it : pi ∈ cands → pi' ∈ cands → it ∈ items →
    FormatLabels (Labels (pi_Pod pi)) = FormatLabels (Labels (pi_Pod pi')) → matched (pi_Pod pi) it = matched (pi_Pod pi') it
}.
Context (HC : cands_ok).

Definition cache_ok (cs : CycleState) : Prop := ∃ cache, cs_PDB cs = Some cache
  ∧ ∀ pi idx, pi ∈ cands → cache !! FormatLabels (Labels (pi_Pod pi)) = Some idx → covers items (pi_Pod pi) idx.
(** The plugins change nothing of the cycle state but the match results. *)
Definition only_cache (cs cs' : CycleState) : Prop := cs' = cs ∨ ∃ c, cs' = cs_set_PDB c cs.

Lemma only_cache_trans cs1 cs2 cs3 : only_cache cs1 cs2 → only_cache cs2 cs3 → only_cache cs1 cs3.
Proof. intros [->|(c & ->)] [->|(c' & ->)]; unfold only_cache; eauto. Qed.
Lemma only_cache_same cs cs' : only_cache cs cs' →
  cs_Priority cs' = cs_Priority cs ∧ cs_ResourceType cs' = cs_ResourceType cs ∧ cs_Fit cs' = cs_Fit cs ∧ cs_NodePorts cs' = cs_NodePorts cs.
Proof. by intros [->|(c & ->)]. Qed.

Lemma covers_bound allowed p idx : budgets_ok items allowed → covers items p idx →
  ∀ k, k ∈ idx → ∃ a, allowed !! k = Some a ∧ (0 <= a < 2 ^ 31)%Z.
Proof.
  intros [Hlen Ha] (_ & Hlt & _) k Hk. specialize (Hlt k Hk). destruct (lookup_lt_is_Some_2 allowed k) as [a E]; [lia|]. eauto.
Qed.

Lemma direct_spec p allowed : Labels p ≠ ∅ → budgets_ok items allowed →
  ∃ v idx, CheckPodDisruptionBudgetViolation p allowed items = Some (v, idx) ∧ covers items p idx
    ∧ (v = true ↔ ∃ k, k ∈ idx ∧ allowed !! k = Some 0%Z).
Proof.
  intros Hl [Hlen Ha]. unfold CheckPodDisruptionBudgetViolation. rw bool_decide_eq_false_2; [|by rw map_size_empty_iff].
  destruct (pdb_violation_spec p allowed items 0 (ca_pdbs HC)) as (v & idx & E & HND & Hidx & Hv).
  { intros k Hk. destruct (lookup_lt_is_Some_2 allowed k) as [a Ea]; [lia|]. eauto. }
  exists v, idx. split_and!; [done| |done]. split_and!; [done| |].
  - intros i (_ & it & Hit & _)%Hidx. rw Nat.sub_0_r in Hit. by eapply lookup_lt_Some.
  - intros i it Hit Hm. apply Hidx. split; [lia|]. exists it. by rw Nat.sub_0_r.
Qed.

Lemma search_pdb preemptor pi cs ps vs allowed : pi ∈ cands → cache_ok cs → ps_PDBsAllowed ps = Some allowed → budgets_ok items allowed →
  ∃ cs' idx (v : bool), PDB_VictimSearching FormatLabels h pdb preemptor pi cs ps vs
      = Some (cs', mkVictimState idx true, if v then PreemptionFail else PreemptionNotSure)
    ∧ only_cache cs cs' ∧ cache_ok cs' ∧ covers items (pi_Pod pi) idx ∧ (v = true ↔ ∃ k, k ∈ idx ∧ allowed !! k = Some 0%Z).
Proof.
  intros Hpi Hcache Hps Hb. unfold PDB_VictimSearching. rw Hps. cbn [mbind option_bind].
  destruct (getMatchedPDBIndexesFromOwner h pdb pi) as [idx|] eqn:Eo.
  { pose proof (ca_owner HC pi idx Hpi Eo) as Hcov. destruct (violation_check_spec allowed idx) as (v & E & Hv); [by eapply covers_bound|].
    rw E. exists cs, idx, v. split_and!; [done|by left|done..]. }
  destruct Hcache as (cache & Ec & Hcache). rw Ec. destruct (cache !! _) as [idx|] eqn:El.
  { pose proof (Hcache pi idx Hpi El) as Hcov. destruct (violation_check_spec allowed idx) as (v & E & Hv); [by eapply covers_bound|].
    rw E. exists cs, idx, v. split_and!; [done|by left|by exists cache|done..]. }
  destruct (direct_spec (pi_Pod pi) allowed (ca_labels HC pi Hpi) Hb) as (v & idx & E & Hcov & Hv). rw E. cbn [mbind option_bind].
  eexists _, idx, v. split_and!; [done|right; eauto| |done|done].
  eexists. split; [done|]. intros pi' idx' Hpi'. rw lookup_insert_Some. intros [[Hf <-]|[_ H]]; [|by eapply Hcache].
  destruct Hcov as (HND & Hlt & Hcov). split_and!; [done..|]. intros i it Hit Hm. apply (Hcov i it Hit).
  rw (ca_format HC pi pi' it) //. by eapply list_elem_of_lookup_2.
Qed.

(** The checks before the budgets. *)
Definition eligible (priority : Z) (pi : PodInfo) : bool :=
  (pi_Launcher pi ≟ Some Kubelet)
  && ((0 <? CanBePreempted (PreemptionInfo pi))%Z
      || (CanBePreempted (PreemptionInfo pi) =? 0)%Z && checkPreemptibility pcLister (pi_Pod pi))
  && (newly_started now preemptMinIntervalSeconds pi ≟ PreemptionNotSure)
  && (PodPriority pi <? priority)%Z.

Definition base_pf : PreemptionFramework :=
  basePreemption PodLauncherChecker (PreemptibilityChecker pcLister) (NewlyStartedProtectionChecker now preemptMinIntervalSeconds)
    PriorityValueChecker (PDBCheckerPlugin FormatLabels h pdb).

Lemma newly_codes pi : newly_started now preemptMinIntervalSeconds pi = PreemptionFail ∨ newly_started now preemptMinIntervalSeconds pi = PreemptionNotSure.
Proof.
  unfold newly_started. destruct (_ <=? 0)%Z; [by right|]. destruct (pi_StartTime _); [|by left]. destruct (_ <? _)%Z; [by left|by right].
Qed.

(** One collection with one plugin, before any quick pass. *)
Lemma search_single r pl pf key preemptor pi pass cs ps vs cs' vs' code :
  sp_VictimSearching pl preemptor pi cs ps vs = Some (cs', vs', code) →
  search_loop (single r pl :: pf) key preemptor pi pass false cs ps vs =
  match code with
  | PreemptionSucceed => search_loop pf key preemptor pi true false cs' ps vs'
  | PreemptionNotSure => if r then Some (cs', ps, vs', PreemptionFail) else search_loop pf key preemptor pi pass false cs' ps vs'
  | _ => Some (cs', ps, vs', PreemptionFail)
  end.
Proof. intros E. simpl. rw E. by destruct code, r. Qed.

Lemma base_search preemptor pi cs ps vs prio cs' vs' code : cs_Priority cs = Some prio →
  PDB_VictimSearching FormatLabels h pdb preemptor pi cs ps vs = Some (cs', vs', code) → code = PreemptionFail ∨ code = PreemptionNotSure →
  RunVictimSearchingPlugins base_pf preemptor pi cs ps vs =
  if eligible prio pi then Some (cs', ps, vs', if code ≟ PreemptionNotSure then PreemptionSucceed else PreemptionFail)
  else Some (cs, ps, vs, PreemptionFail).
Proof.
  intros Hp E Hcode. unfold RunVictimSearchingPlugins, base_pf, basePreemption, eligible. erewrite search_single; [|done].
  destruct (pi_Launcher pi ≟ Some Kubelet); [|done]. rewrite andb_true_l. cbn [negb]. erewrite search_single; [|done].
  destruct (Z.ltb_spec 0 (CanBePreempted (PreemptionInfo pi))) as [H0|H0]; [|destruct (Z.ltb_spec (CanBePreempted (PreemptionInfo pi)) 0) as [H1|H1]].
  2:{ rw (proj2 (Z.eqb_neq (CanBePreempted (PreemptionInfo pi)) 0)); [done|lia]. }
  2: rw (proj2 (Z.eqb_eq (CanBePreempted (PreemptionInfo pi)) 0)); [|lia]; destruct (checkPreemptibility pcLister (pi_Pod pi)); [|done].
  all: cbn [negb orb andb]; erewrite search_single; [|done]; destruct (newly_codes pi) as [-> | ->]; [done|].
  all: cbn [bool_decide andb]; erewrite search_single; [|done]; rw Hp Z.ltb_antisym; destruct (prio <=? PodPriority pi)%Z; [done|].
  all: erewrite search_single; [|exact E]; by destruct Hcode as [-> | ->].
Qed.

(** ** All candidates *)

Context (jsonVictims : string → option (list string)) (preemptors : string → string → list string).
Abbreviation check := (check_victim jsonVictims base_pf preemptors).
Abbreviation checks := (check_victims jsonVictims base_pf preemptors).

(** What is known of a potential victim. *)
Definition may_be_victim (nodeName : string) (preemptor : Pod) (prio : Z) (pi : PodInfo) : Prop :=
  eligible prio pi = true ∧ preemptors nodeName (GeneratePodKey (pi_Pod pi)) = []
  ∧ isPodInSpecifiedVictimList (pi_Pod pi) (GetPotentialVictims jsonVictims preemptor) = true.
(** [k] pods, all matched by the budgets that match [p], have been taken. *)
Definition taken (allowed allowed' : list Z) (n : PDBItem → nat) : Prop :=
  ∀ j it a, items !! j = Some it → allowed !! j = Some a → ∃ a', allowed' !! j = Some a' ∧ (a' + Z.of_nat (n it) <= a)%Z.

Lemma check_victim_spec nodeName preemptor pi cs ps allowed prio : pi ∈ cands → cache_ok cs → cs_Priority cs = Some prio →
  ps_PDBsAllowed ps = Some allowed → budgets_ok items allowed →
  ∃ cs' allowed' ok, check nodeName preemptor cs ps pi = Some (cs', mkPreemptionState (Some allowed') (PodsCanNotBePreempted ps), ok)
    ∧ only_cache cs cs' ∧ cache_ok cs' ∧ budgets_ok items allowed' ∧ (ok = true → may_be_victim nodeName preemptor prio pi)
    ∧ taken allowed allowed' (λ it, if ok && matched (pi_Pod pi) it then 1%nat else 0%nat).
Proof.
  intros Hpi Hcache Hprio Hps Hb. unfold check_victim.
  assert (mkPreemptionState (Some allowed) (PodsCanNotBePreempted ps) = ps) as Heta by (destruct ps; simpl in *; congruence).
  assert (taken allowed allowed (λ _, 0%nat)) as Hnone by (intros j it a _ Ha; exists a; split; [done|simpl; lia]).
  assert (∀ cs', only_cache cs cs' → cache_ok cs' → ∃ cs'' allowed' ok, Some (cs', ps, false) = Some (cs'', mkPreemptionState (Some allowed') (PodsCanNotBePreempted ps), ok)
    ∧ only_cache cs cs'' ∧ cache_ok cs'' ∧ budgets_ok items allowed' ∧ (ok = true → may_be_victim nodeName preemptor prio pi)
    ∧ taken allowed allowed' (λ it, if ok && matched (pi_Pod pi) it then 1%nat else 0%nat)) as Hskip.
  { intros cs' Ho Hc. exists cs', allowed, false. rw Heta. split_and!; done. }
  case_bool_decide as Hpre; cbn [negb]; [|apply Hskip; [by left|done]].
  destruct (isPodInSpecifiedVictimList _ _) eqn:Espec; cbn [negb]; [|apply Hskip; [by left|done]].
  destruct (search_pdb preemptor pi cs ps NewVictimState allowed Hpi Hcache Hps Hb) as (cs' & idx & v & E & Ho & Hc & Hcov & Hv).
  assert ((if v then PreemptionFail else PreemptionNotSure) = PreemptionFail ∨ (if v then PreemptionFail else PreemptionNotSure) = PreemptionNotSure)
    as Hcode by (destruct v; auto).
  rw (base_search preemptor pi cs ps NewVictimState prio cs' _ _ Hprio E Hcode). destruct (eligible prio pi) eqn:Eel; [|apply Hskip; [by left|done]].
  destruct v; [by apply Hskip|]. cbn [mbind option_bind negb bool_decide].
  unfold RunPostVictimSearchingPlugins. change (postVictimSearchingPlugins base_pf) with [PDB_PostVictimSearching FormatLabels h pdb].
  simpl. unfold PDB_PostVictimSearching. rw Hps. cbn [mbind option_bind MatchedPDBIndexesExist MatchedPDBIndexes].
  destruct (take_budgets_spec idx allowed (proj1 Hcov)) as (allowed' & Et & Hlen & Hk); [by eapply covers_bound|].
  rw Et. simpl. exists cs', allowed', true. split_and!; [done..| | |].
  - destruct Hb as [Hl Ha]. split; [by rw Hlen|]. intros i a. rw Hk. case_decide as Hin; [|by apply Ha].
    intros (a0 & Ha0 & ->)%fmap_Some. specialize (Ha i a0 Ha0). assert (a0 ≠ 0%Z); [|lia]. intros ->.
    assert (false = true); [|done]. apply Hv. eauto.
  - intros _. split_and!; [done|by apply length_zero_iff_nil|done].
  - intros j it a Hit Ha. rw Hk Ha. destruct (matched (pi_Pod pi) it) eqn:Em.
    + rw decide_True; [|by eapply (proj2 (proj2 Hcov))]. exists (a - 1)%Z. split; [done|simpl; lia].
    + case_decide; eexists; (split; [done|simpl; lia]).
Qed.

Definition matches_of (l : list Pod) (it : PDBItem) : nat := length (filter (λ p, matched p it = true) l).

Lemma checks_spec nodeName preemptor prio l : (∀ pi, pi ∈ l → pi ∈ cands) → ∀ cs ps allowed,
  cache_ok cs → cs_Priority cs = Some prio → ps_PDBsAllowed ps = Some allowed → budgets_ok items allowed →
  ∃ cs' allowed' vl, checks nodeName preemptor l cs ps = Some (cs', mkPreemptionState (Some allowed') (PodsCanNotBePreempted ps), pi_Pod <$> vl)
    ∧ only_cache cs cs' ∧ cache_ok cs' ∧ budgets_ok items allowed' ∧ sublist vl l
    ∧ (∀ pi, pi ∈ vl → may_be_victim nodeName preemptor prio pi)
    ∧ taken allowed allowed' (matches_of (pi_Pod <$> vl)).
Proof.
  induction l as [|pi l IH]; intros Hl cs ps allowed Hc Hp Hps Hb; simpl.
  { exists cs, allowed, []. split_and!; [|by left|done|done|constructor| |].
    - f_equal. f_equal. f_equal. destruct ps; simpl in *; congruence.
    - intros pi H. by apply elem_of_nil in H.
    - intros j it a _ Ha. exists a. split; [done|]. unfold matches_of. simpl. lia. }
  destruct (check_victim_spec nodeName preemptor pi cs ps allowed prio) as (cs1 & al1 & ok & E1 & Ho1 & Hc1 & Hb1 & Hok & Ht1); [apply Hl; by left|done..|].
  rw E1. cbn [mbind option_bind].
  destruct (IH (λ x Hx, Hl x (list_elem_of_further _ _ _ Hx)) cs1 (mkPreemptionState (Some al1) (PodsCanNotBePreempted ps)) al1)
    as (cs2 & al2 & vl & E2 & Ho2 & Hc2 & Hb2 & Hsub & Hvl & Ht2); [done| |done|done|].
  { rw (proj1 (only_cache_same _ _ Ho1)) //. }
  rw E2. cbn [mbind option_bind]. exists cs2, al2, (if ok then pi :: vl else vl). split_and!; [by destruct ok|by eapply only_cache_trans|done|done| | |].
  - destruct ok; by constructor.
  - intros x Hx. destruct ok; [|by apply Hvl]. apply elem_of_cons in Hx as [->|Hx]; [by apply Hok|by apply Hvl].
  - intros j it a Hit Ha. destruct (Ht1 j it a Hit Ha) as (a1 & Ha1 & Hle1). destruct (Ht2 j it a1 Hit Ha1) as (a2 & Ha2 & Hle2).
    exists a2. split; [done|]. unfold matches_of in *. destruct ok; cbn [andb] in Hle1; [|lia].
    rw fmap_cons filter_cons. destruct (matched (pi_Pod pi) it); case_decide; cbn [length]; try done; lia.
Qed.
End budgets.
