(* ===== verification/VictimSearchSpec.v ===== *)
(** * No disruption budget is overdrawn

    Composes the budget store, the victim searching plugins and the shared budgets
    of a unit: over all the pods of a unit that preempt, on any nodes, at most as
    many victims match a budget as it allows disruptions. *)
From stdpp Require Import pretty.
From S2P Require Import Prelude GoStrings PodModel PodState HashSlice Resource MicroTopo PodInfos PodInfosProps Numa NodeInfo Framework NodeStore NodeStoreProps FilterPlugins PdbStore PdbStoreProps PdbStoreSpec VictimSearch VictimSearchProps.

Local Open Scope godel_scope.
Local Open Scope string_scope.

(** ** The budgets of the checker *)

Definition item_key (it : PDBItem) : string := match item_pdb it with Some pdb => GetPDBKey pdb | None => "" end.

Lemma index_pdbs_spec items : has_pdbs items → NoDup (item_key <$> items) →
  length (index_pdbs items).2 = length items
  ∧ (∀ i it, items !! i = Some it → (index_pdbs items).1 !! item_key it = Some i
       ∧ ∃ pdb, item_pdb it = Some pdb ∧ (index_pdbs items).2 !! i = Some (DisruptionsAllowed pdb))
  ∧ ∀ k i, (index_pdbs items).1 !! k = Some i → ∃ it, items !! i = Some it ∧ item_key it = k.
Proof.
  unfold index_pdbs. induction items as [|it items IH] using rev_ind; intros Hp HND.
  { split_and!; [done| |]. - intros i it. by rw lookup_nil. - intros k i. simpl. by rw lookup_empty. }
  rw fmap_app in HND. apply NoDup_app in HND as (HND & Hdis & _). destruct IH as (H1 & H2 & H3); [|done|].
  { intros i x Hx. apply (Hp i x). by apply lookup_app_l_Some. }
  rw imap_app foldl_app. set (r := foldl _ _ (imap pair items)) in *. simpl.
  destruct (Hp (length items) it) as [pdb Hpdb]; [by rw list_lookup_middle|].
  destruct r as [m l] eqn:Er. simpl in H1, H2, H3. rw Hpdb Nat.add_0_r. simpl.
  assert (item_key it = GetPDBKey pdb) as Hkey by (unfold item_key; by rw Hpdb).
  split_and!.
  - rw !length_app H1. done.
  - intros i x Hx. apply lookup_app_Some in Hx as [Hx|[Hle Hx]].
    + destruct (H2 i x Hx) as [Hm (pdb' & Hp' & Hl)]. split.
      * rw lookup_insert_ne; [done|]. rw -Hkey. intros Heq. apply (Hdis (item_key x)); [|rw -Heq; by left].
        apply list_elem_of_fmap. exists x. split; [done|by eapply list_elem_of_lookup_2].
      * exists pdb'. split; [done|]. by apply lookup_app_l_Some.
    + apply list_lookup_singleton_Some in Hx as [Hi <-]. assert (i = length items) as -> by lia. rw Hkey lookup_insert_eq. split; [done|].
      exists pdb. split; [done|]. by rw list_lookup_middle.
  - intros k i. rw lookup_insert_Some. intros [[<- <-]|[_ Hk]].
    + exists it. split; [by rw list_lookup_middle|done].
    + destruct (H3 k i Hk) as (x & Hx & Hkx). exists x. split; [by apply lookup_app_l_Some|done].
Qed.

Section spec.
Context {MR : MapRange} {ML : MapRangeLaws MR} (validKey validValue : string → bool) (FormatLabels : gmap string string → string).
Context (pcLister : string → option PriorityClass) (now preemptMinIntervalSeconds : Z).
Context (jsonVictims : string → option (list string)) (preemptors : string → string → list string).
Context (S : PdbSpec) (h : PdbStore) (HE : Edges validKey validValue S h).
Abbreviation AsSelector := (LabelSelectorAsSelector validKey validValue).

(** A budget matches a pod of its namespace whose labels its selector, if not empty,
    selects, unless the API server has already recorded the disruption. *)
Definition budget_matches (b : PodDisruptionBudget) (p : Pod) : bool :=
  (pdb_Namespace b ≟ Namespace p)
  && match AsSelector (pdb_Selector b) with Some sel => negb (Selector_Empty sel) && Matches sel (Labels p) | None => false end
  && negb (bool_decide (Name p ∈ DisruptedPods b)).

Lemma matched_budget b p it : item_pdb it = Some b → pdbSelector it = AsSelector (pdb_Selector b) → is_Some (pdbSelector it) →
  matched p it = budget_matches b p.
Proof.
  intros Hb Hs [sel Hsel]. unfold matched, PDBMatched, budget_matches. rw Hb -Hs Hsel. simpl.
  destruct (pdb_Namespace b ≟ Namespace p); [|done]. simpl. destruct (Selector_Empty sel); [done|]. by destruct (Matches sel (Labels p)).
Qed.

Lemma items_key_nodup : has_pdbs (GetPDBItemList h) ∧ NoDup (item_key <$> GetPDBItemList h)
  ∧ (∀ it, it ∈ GetPDBItemList h ↔ Pdbs h !! item_key it = Some it ∧ is_Some (item_pdb it)).
Proof.
  assert (∀ k it, Pdbs h !! k = Some it → item_key it = k) as Hkey.
  { intros k it Hk. destruct (edges_item _ _ S h k it HE Hk) as (pdb & sel & _ & Hp & <- & _). unfold item_key. by rw Hp. }
  unfold GetPDBItemList. split_and!.
  - intros i it Hi%list_elem_of_lookup_2. by apply list_elem_of_filter in Hi as [? _].
  - assert (∀ l, (∀ e, e ∈ l → Pdbs h !! e.1 = Some e.2) → NoDup l.*1 → NoDup (item_key <$> filter (λ it, is_Some (item_pdb it)) l.*2)
      ∧ ∀ k, k ∈ item_key <$> filter (λ it, is_Some (item_pdb it)) l.*2 → k ∈ l.*1) as Hgen.
    { induction l as [|[k it] l IH]; intros Hl HND; [by split; [constructor|]|].
      rw !fmap_cons in HND |- *. apply NoDup_cons in HND as [Hni HND]. destruct IH as [H1 H2]; [intros; apply Hl; by right|done|].
      assert (item_key it = k) as Hk by (apply Hkey; apply (Hl (k, it)); by left). simpl in Hni.
      rw filter_cons. case_decide; [|split; [done|intros k' Hk'; right; by apply H2]]. rw fmap_cons. split.
      - constructor; [|done]. simpl. rw Hk. intros Hin. by apply Hni, H2.
      - intros k' Hk'. apply elem_of_cons in Hk' as [->|Hk']; [apply elem_of_cons; left; exact Hk|right; by apply H2]. }
    apply Hgen; [by intros [k it] Hin%range_elem|apply range_nodup].
  - intros it. rw list_elem_of_filter list_elem_of_fmap. split.
    + intros [Hp ([k it'] & -> & Hin%range_elem)]. simpl. by rw (Hkey k it' Hin).
    + intros [Hk Hp]. split; [done|]. exists (item_key it, it). split; [done|by apply range_elem].
Qed.

Definition base_pdb : PDBChecker := mkPDBChecker (index_pdbs (GetPDBItemList h)).1 (GetPDBItemList h) (index_pdbs (GetPDBItemList h)).2.

Lemma cluster_pre cs : PDB_ClusterPrePreempting h cs None = (base_pdb, cs_set_PDB ∅ cs, mkPDBCommonState base_pdb).
Proof. unfold PDB_ClusterPrePreempting, base_pdb. by destruct (index_pdbs _). Qed.

Lemma live_item b k : live_pdbs S !! k = Some b → ∃ it i, GetPDBItemList h !! i = Some it ∧ item_pdb it = Some b ∧ item_key it = k
  ∧ pdbSelector it = AsSelector (pdb_Selector b) ∧ is_Some (pdbSelector it).
Proof.
  intros Hb. pose proof (ed_pdb _ _ _ _ HE k) as Hk. rw Hb in Hk. unfold item_of in Hk. destruct (Pdbs h !! k) as [it|] eqn:Hit; [|done].
  destruct Hk as (Hp & Hkey & sel & Hs & Hsel).
  assert (item_key it = k) as Hik by (unfold item_key; by rw Hp).
  assert (it ∈ GetPDBItemList h) as [i Hi]%list_elem_of_lookup_1 by (apply items_key_nodup; rw Hik Hit Hp; eauto).
  exists it, i. rw Hsel Hs. eauto.
Qed.

(** The labels of a pod are those of its owner, or the store knows that they differ. *)
Definition owner_labels (pi : PodInfo) : Prop := ∀ ls,
  live_owners S !! (OwnerType (PreemptionInfo pi), OwnerKey (PreemptionInfo pi)) = Some ls →
  map_Forall (λ _ v, v ≠ "") ls
  ∧ ((GetPDBsForOwner (OwnerType (PreemptionInfo pi)) (OwnerKey (PreemptionInfo pi)) h).1.2 = false → Labels (pi_Pod pi) = ls).

Lemma owner_covers names allowed pi idx : names = (index_pdbs (GetPDBItemList h)).1 → owner_labels pi →
  getMatchedPDBIndexesFromOwner h (mkPDBChecker names (GetPDBItemList h) allowed) pi = Some idx → covers (GetPDBItemList h) (pi_Pod pi) idx.
Proof.
  intros -> Hlab. unfold getMatchedPDBIndexesFromOwner. destruct (_ || _); [done|].
  unfold owner_labels, GetPDBsForOwner, GetOwnerLabels in *. set (t := OwnerType _) in *. set (k := OwnerKey _) in *.
  assert ((owners t h ≫= (.!! k)) = own t h !! k) as -> by (unfold own; destruct (owners t h); [done|]; simpl; by rw lookup_empty).
  assert ((owners t h ≫= (.!! k)) = own t h !! k) as Hown by (unfold own; destruct (owners t h); [done|]; simpl; by rw lookup_empty).
  destruct (own t h !! k) as [o|] eqn:Ho; [|done]. rw Hown in Hlab. cbn [fst snd negb] in *.
  assert (live_owners S !! (t, k) = Some (ownerLabels o)) as Hl by (rw -(ed_label _ _ _ _ HE) Ho //).
  destruct (Hlab _ Hl) as [Hne Heq].
  destruct (pdbUpdated o && negb (EqualMap (ownerLabels o) (Labels (pi_Pod pi)))) eqn:Eu; [done|]. intros [= <-].
  assert (Labels (pi_Pod pi) = ownerLabels o) as HL.
  { destruct (pdbUpdated o); [|by apply Heq]. apply negb_false_iff in Eu. symmetry. by apply EqualMap_eq. }
  destruct items_key_nodup as (Hhas & HND & Hin). destruct (index_pdbs_spec _ Hhas HND) as (_ & Hidx & Hidx').
  assert (∀ nm, nm ∈ owner_Pdbs o → ∃ i it, (index_pdbs (GetPDBItemList h)).1 !! nm = Some i ∧ GetPDBItemList h !! i = Some it ∧ item_key it = nm) as Hnames.
  { intros nm (b & Hb & _)%(ed_owner _ _ _ _ HE t k o nm Ho). destruct (live_item b nm Hb) as (it & i & Hi & _ & Hk & _).
    exists i, it. split_and!; [|done|done]. rw -Hk. by apply Hidx. }
  cbn [pdbsNameToIndexes]. split_and!.
  - apply NoDup_fmap_2_strong; [|apply NoDup_elements]. intros x y Hx%elem_of_elements Hy%elem_of_elements.
    destruct (Hnames x Hx) as (i & it & -> & Hi & <-), (Hnames y Hy) as (j & it' & -> & Hj & <-). simpl. intros ->. congruence.
  - intros i (nm & -> & Hnm%elem_of_elements)%list_elem_of_fmap. destruct (Hnames nm Hnm) as (j & it & -> & Hj & _). simpl. by eapply lookup_lt_Some.
  - intros i it Hi Hm. apply list_elem_of_fmap. exists (item_key it). destruct (Hidx i it Hi) as [-> (b & Hb & _)]. split; [done|].
    apply elem_of_elements. apply list_elem_of_lookup_2 in Hi. apply Hin in Hi as [Hi _].
    destruct (edges_item _ _ S h _ it HE Hi) as (b' & sel & Hl' & Hb' & Hk & Hs & Hsel). apply (ed_owner _ _ _ _ HE t k o _ Ho).
    exists b'. split; [done|]. unfold selects. rw Hs -HL. rewrite (matched_budget b') in Hm; [|done|congruence|eauto].
    unfold budget_matches in Hm. rw Hs in Hm. apply andb_prop in Hm as [Hm _]. apply andb_prop in Hm as [_ Hm]. by apply andb_prop in Hm as [_ ?].
Qed.

(** ** The pods of a unit *)

(** One pod that preempts: its cycle state before the plugins, the node that is
    tried with the candidate victims, and which of the potential victims are chosen. *)
Record Round := {
  r_preemptor : Pod; r_cs : CycleState; r_nodeName : string; r_node : NodeInfo;
  r_lower : Z; r_upper : Z; r_choose : list Pod → list Pod
}.
Abbreviation pf_of := (λ pdb, base_pf FormatLabels pcLister now preemptMinIntervalSeconds h pdb).

(** The common state gives the pod the unit's budgets; they are decremented once
    the victims are chosen. *)
Definition preempt_round (common : option PDBCommonState) (r : Round) : option (PDBCommonState * list Pod) :=
  let '(pdb, cs, _) := PDB_ClusterPrePreempting h (PriorityValue_ClusterPrePreempting (r_preemptor r) (r_cs r)) common in
  '(_, _, potentialVictims) ← FilterVictimsPods jsonVictims (pf_of pdb) preemptors (r_nodeName r) cs NewPreemptionState
      (r_node r) (r_preemptor r) (r_lower r) (r_upper r) false;
  let victims := r_choose r potentialVictims in
  pdb ← PDB_NodePostPreempting pdb victims;
  Some (mkPDBCommonState pdb, victims).
Fixpoint preempt_rounds (common : option PDBCommonState) (rs : list Round) : option (list Pod) :=
  match rs with
  | [] => Some []
  | r :: rs' => '(common, victims) ← preempt_round common r; rest ← preempt_rounds (Some common) rs'; Some (victims ++ rest)%list
  end.

Definition round_candidates (r : Round) : option (list PodInfo) :=
  t ← cs_ResourceType (r_cs r);
  node_GetVictimCandidates {| PodInfos.priorityLower := r_lower r; PodInfos.priorityUpper := r_upper r; pt_resourceType := t |} (r_node r).

Record round_ok (cands : list PodInfo) (r : Round) : Prop := {
  ro_cands : ∃ l, round_candidates r = Some l ∧ ∀ pi, pi ∈ l → pi ∈ cands;
  ro_choose : ∀ l, r_choose r l ⊆+ l
}.
Record candidates_ok (cands : list PodInfo) : Prop := {
  co_labels pi : pi ∈ cands → Labels (pi_Pod pi) ≠ ∅;
  co_owner pi : pi ∈ cands → owner_labels pi;
  co_format pi pi' : pi ∈ cands → pi' ∈ cands → FormatLabels (Labels (pi_Pod pi)) = FormatLabels (Labels (pi_Pod pi')) →
    ∀ k b, live_pdbs S !! k = Some b → budget_matches b (pi_Pod pi) = budget_matches b (pi_Pod pi')
}.

Lemma candidates_cands_ok cands allowed : candidates_ok cands →
  cands_ok FormatLabels h (mkPDBChecker (index_pdbs (GetPDBItemList h)).1 (GetPDBItemList h) allowed) cands.
Proof.
  intros [H1 H2 H3]. destruct items_key_nodup as (Hhas & _ & Hin). split; [done|done| |].
  - intros pi idx Hpi. apply owner_covers; [done|by apply H2].
  - intros pi pi' it Hpi Hpi' Hit Hf. cbn [pdbItems] in Hit. apply Hin in Hit as [Hit _].
    destruct (edges_item _ _ S h _ it HE Hit) as (b & sel & Hl & Hb & _ & Hs & Hsel).
    rewrite !(matched_budget b); [by eapply H3|done|congruence|eauto|done|congruence|eauto].
Qed.

Lemma matches_submseteq l l' it : l ⊆+ l' → (matches_of l it <= matches_of l' it)%nat.
Proof.
  intros [k Hk]%submseteq_Permutation. unfold matches_of.
  apply (filter_Permutation (λ p, matched p it = true)) in Hk. apply Permutation_length in Hk. rw filter_app length_app in Hk. lia.
Qed.
Lemma matches_app l l' it : matches_of (l ++ l')%list it = (matches_of l it + matches_of l' it)%nat.
Proof. unfold matches_of. by rw filter_app length_app. Qed.

(** The loop over the budgets from the [i]-th on. *)
Lemma post_victim_loop items victim allowed : budgets_ok items allowed →
  (∀ j it, items !! j = Some it → matched victim it = true → allowed !! j ≠ Some 0%Z) →
  ∀ l i acc, has_pdbs l → length acc = length items → (∀ j, (i <= j)%nat → acc !! j = allowed !! j) →
    (∀ j, (j < length l)%nat → items !! (i + j)%nat = l !! j) → (i + length l <= length items)%nat →
    ∃ acc', foldl (λ a e, allowed ← a; m ← PDBMatched victim e.2; if m : bool then a ← allowed !! e.1; Some (<[e.1 := wrap32 (a - 1)]> allowed) else Some allowed)
       (Some acc) (imap (λ j it, ((i + j)%nat, it)) l) = Some acc'
      ∧ length acc' = length items ∧ (∀ j, (j < i)%nat → acc' !! j = acc !! j) ∧ (∀ j, (i + length l <= j)%nat → acc' !! j = acc !! j)
      ∧ ∀ j it a, l !! j = Some it → allowed !! (i + j)%nat = Some a → acc' !! (i + j)%nat = Some (a - (if matched victim it then 1 else 0))%Z.
Proof.
  intros [Hlen Ha] Hpos. induction l as [|it l IH]; intros i acc Hhas Hacc Hsame Hl Hbound; simpl.
  { exists acc. split_and!; done. }
  rw (PDBMatched_total victim it (Hhas 0%nat it eq_refl)). cbn [mbind option_bind].
  simpl in Hbound. destruct (lookup_lt_is_Some_2 allowed i) as [a Eai]; [lia|].
  assert (items !! i = Some it) as Hit by (specialize (Hl 0%nat); rw Nat.add_0_r in Hl; rw Hl; [done|simpl; lia]).
  assert ((if matched victim it then a0 ← acc !! (i + 0)%nat; Some (<[(i + 0)%nat := wrap32 (a0 - 1)]> acc) else Some acc)
    = Some (<[i := (a - (if matched victim it then 1 else 0))%Z]> acc)) as ->.
  { rw Nat.add_0_r Hsame // Eai. simpl. specialize (Ha i a Eai). destruct (matched victim it) eqn:Em.
    - specialize (Hpos i it Hit Em). rw wrap32_id //. assert (a ≠ 0%Z) by (intros ->; done). lia.
    - f_equal. rw Z.sub_0_r. symmetry. apply list_insert_id. by rw Hsame. }
  destruct (IH (Datatypes.S i) (<[i := (a - (if matched victim it then 1 else 0))%Z]> acc)) as (acc' & E & Hlen' & Hlt & Hge & Hin).
  - intros j. apply (Hhas (Datatypes.S j)).
  - by rw length_insert.
  - intros j Hj. rw list_lookup_insert_ne; [apply Hsame; lia|lia].
  - intros j Hj. specialize (Hl (Datatypes.S j)). simpl in Hl. rw -Hl; [f_equal; lia|lia].
  - lia.
  - exists acc'. split_and!; [|done| | |].
    + rw -E. f_equal. apply imap_ext. intros j x _. simpl. f_equal. lia.
    + intros j Hj. rw Hlt; [|lia]. rw list_lookup_insert_ne //. lia.
    + intros j Hj. rw Hge; [|lia]. rw list_lookup_insert_ne //. lia.
    + intros [|j] x b Hx Hb; simpl in Hx.
      * injection Hx as <-. rw Nat.add_0_r in Hb |- *. rw Hlt; [|lia]. rw list_lookup_insert_eq; [congruence|lia].
      * replace (i + Datatypes.S j)%nat with (Datatypes.S i + j)%nat in * by lia. by apply Hin.
Qed.

(** One victim takes one disruption of each budget that matches it. *)
Lemma post_victim_spec items victim allowed : has_pdbs items → budgets_ok items allowed →
  (∀ j it, items !! j = Some it → matched victim it = true → allowed !! j ≠ Some 0%Z) →
  ∃ allowed', post_victim items (Some allowed) victim = Some allowed' ∧ budgets_ok items allowed'
    ∧ ∀ j it a, items !! j = Some it → allowed !! j = Some a →
        allowed' !! j = Some (a - (if matched victim it then 1 else 0))%Z.
Proof.
  intros Hhas Hb Hpos. unfold post_victim. destruct (Hb) as [Hlen Ha].
  destruct (post_victim_loop items victim allowed Hb Hpos items 0%nat allowed) as (acc' & E & Hl' & _ & _ & Hin); [done|done|done|done|lia|].
  exists acc'. split_and!; [|split; [done|]|intros j it a Hit Hj; by apply (Hin j)].
  - rw -E. f_equal.
  - intros i a' Hi'. destruct (lookup_lt_is_Some_2 items i) as [it Hit]; [rw -Hl'; by eapply lookup_lt_Some|].
    destruct (lookup_lt_is_Some_2 allowed i) as [a Ea]; [rw Hlen; by eapply lookup_lt_Some|].
    pose proof (Hin i it a Hit Ea) as H. simpl in H. rw H in Hi'. injection Hi' as <-. specialize (Ha i a Ea).
    destruct (matched victim it) eqn:Em; [|lia]. specialize (Hpos i it Hit Em). assert (a ≠ 0%Z) by (intros ->; done). lia.
Qed.

Lemma post_victims_spec items victims : has_pdbs items → ∀ allowed, budgets_ok items allowed →
  (∀ j it a, items !! j = Some it → allowed !! j = Some a → (Z.of_nat (matches_of victims it) <= a)%Z) →
  ∃ allowed', foldl (post_victim items) (Some allowed) victims = Some allowed' ∧ budgets_ok items allowed'
    ∧ ∀ j it a, items !! j = Some it → allowed !! j = Some a → allowed' !! j = Some (a - Z.of_nat (matches_of victims it))%Z.
Proof.
  intros Hhas. induction victims as [|v victims IH]; intros allowed Hb Hle; cbn [foldl].
  { exists allowed. split_and!; [done|done|]. intros j it a _ ->. unfold matches_of. simpl. f_equal. lia. }
  assert (∀ it, matches_of (v :: victims) it = ((if matched v it then 1 else 0) + matches_of victims it)%nat) as Hm.
  { intros it. unfold matches_of. rw filter_cons. destruct (matched v it); case_decide; try done. }
  destruct (post_victim_spec items v allowed Hhas Hb) as (al1 & E1 & Hb1 & H1).
  { intros j it Hit Hv H0. specialize (Hle j it 0%Z Hit H0). rw Hm Hv in Hle. lia. }
  destruct (IH al1 Hb1) as (al2 & E2 & Hb2 & H2).
  { intros j it a1 Hit Ha1. destruct (lookup_lt_is_Some_2 allowed j) as [a Ea]; [rw (proj1 Hb); by eapply lookup_lt_Some|].
    specialize (Hle j it a Hit Ea). rw (H1 j it a Hit Ea) in Ha1. injection Ha1 as <-. rw Hm in Hle. destruct (matched v it); lia. }
  rw E1. exists al2. split_and!; [done|done|]. intros j it a Hit Ha. rw (H2 j it _ Hit (H1 j it a Hit Ha)) Hm. f_equal. destruct (matched v it); lia.
Qed.

Definition shared (allowed : list Z) : PDBCommonState :=
  mkPDBCommonState (mkPDBChecker (index_pdbs (GetPDBItemList h)).1 (GetPDBItemList h) allowed).

Lemma round_spec cands r allowed : candidates_ok cands → round_ok cands r → budgets_ok (GetPDBItemList h) allowed →
  ∃ allowed' victims, preempt_round (Some (shared allowed)) r = Some (shared allowed', victims) ∧ budgets_ok (GetPDBItemList h) allowed'
    ∧ (∀ v, v ∈ victims → ∃ pi, pi ∈ cands ∧ pi_Pod pi = v
         ∧ may_be_victim pcLister now preemptMinIntervalSeconds jsonVictims preemptors (r_nodeName r) (r_preemptor r) (GetPodPriority (r_preemptor r)) pi)
    ∧ ∀ j it a, GetPDBItemList h !! j = Some it → allowed !! j = Some a →
        allowed' !! j = Some (a - Z.of_nat (matches_of victims it))%Z.
Proof.
  intros HC [(l & El & Hl) Hch] Hb. unfold preempt_round, shared, PDB_ClusterPrePreempting, FilterVictimsPods. cbn [common_pdbs].
  unfold round_candidates in El. set (pdb := mkPDBChecker _ _ allowed). set (cs := cs_set_PDB ∅ _).
  change (cs_ResourceType cs) with (cs_ResourceType (r_cs r)). destruct (cs_ResourceType (r_cs r)) as [t|]; [|done].
  cbn [mbind option_bind] in El. cbv zeta.
  assert (RunNodePrePreemptingPlugins (pf_of pdb) NewPreemptionState = (mkPreemptionState (Some allowed) [], None)) as Epre by done.
  cbv beta in Epre |- *. rw Epre. rw El. cbn [mbind option_bind].
  destruct (checks_spec FormatLabels pcLister now preemptMinIntervalSeconds h pdb cands) with (jsonVictims := jsonVictims) (preemptors := preemptors)
    (nodeName := r_nodeName r) (preemptor := r_preemptor r) (prio := GetPodPriority (r_preemptor r)) (l := l) (cs := cs)
    (ps := mkPreemptionState (Some allowed) []) (allowed := allowed) as (cs' & al1 & vl & E & _ & _ & Hb1 & Hsub & Hvl & Ht);
    [by apply candidates_cands_ok|done|eexists; split; [done|]; by intros ? ? _ ?|done|done|done|].
  rw E. cbn [mbind option_bind].
  unfold PDB_NodePostPreempting. cbn [pdbItems pdbsAllowed pdb].
  destruct items_key_nodup as (Hhas & _).
  destruct (post_victims_spec (GetPDBItemList h) (r_choose r (pi_Pod <$> vl)) Hhas allowed Hb) as (al2 & E2 & Hb2 & H2).
  { intros j it a Hit Ha. destruct (Ht j it a Hit Ha) as (a1 & Ha1 & Hle). pose proof (proj2 Hb1 j a1 Ha1).
    pose proof (matches_submseteq _ _ it (Hch (pi_Pod <$> vl))). lia. }
  rw E2. cbn [mbind option_bind]. eexists _, _. split_and!; [done|done| |done].
  intros v Hv. eapply elem_of_submseteq in Hv; [|apply Hch]. apply list_elem_of_fmap in Hv as (pi & -> & Hpi). exists pi.
  split_and!; [|done|by apply Hvl]. apply Hl. eapply elem_of_submseteq; [done|by apply sublist_submseteq].
Qed.

Lemma rounds_spec cands rs : candidates_ok cands → (∀ r, r ∈ rs → round_ok cands r) → ∀ allowed, budgets_ok (GetPDBItemList h) allowed →
  ∃ victims, preempt_rounds (Some (shared allowed)) rs = Some victims
    ∧ (∀ v, v ∈ victims → ∃ r pi, r ∈ rs ∧ pi ∈ cands ∧ pi_Pod pi = v
         ∧ may_be_victim pcLister now preemptMinIntervalSeconds jsonVictims preemptors (r_nodeName r) (r_preemptor r) (GetPodPriority (r_preemptor r)) pi)
    ∧ ∀ j it a, GetPDBItemList h !! j = Some it → allowed !! j = Some a → (Z.of_nat (matches_of victims it) <= a)%Z.
Proof.
  intros HC. induction rs as [|r rs IH]; intros Hrs allowed Hb.
  { exists []. split_and!; [done| |]. - intros v Hv. by apply elem_of_nil in Hv.
    - intros j it a _ Ha. pose proof (proj2 Hb j a Ha). unfold matches_of. simpl. lia. }
  destruct (round_spec cands r allowed HC (Hrs r (list_elem_of_here _ _)) Hb) as (al1 & v1 & E1 & Hb1 & Hv1 & H1).
  destruct (IH (λ r' Hr', Hrs r' (list_elem_of_further _ _ _ Hr')) al1 Hb1) as (v2 & E2 & Hv2 & H2).
  exists (v1 ++ v2)%list. simpl. rw E1. cbn [mbind option_bind]. rw E2. split_and!; [done| |].
  - intros v [Hv|Hv]%elem_of_app.
    + destruct (Hv1 v Hv) as (pi & ? & ? & ?). exists r, pi. split_and!; [by left|done..].
    + destruct (Hv2 v Hv) as (r' & pi & ? & ? & ? & ?). exists r', pi. split_and!; [by right|done..].
  - intros j it a Hit Ha. specialize (H2 j it _ Hit (H1 j it a Hit Ha)). rw matches_app. lia.
Qed.

End spec.

(** ** Examples *)

Module VictimExamples.
Import PdbExamples FilterExamples.

(** A pod that may be preempted, bound to the node of the examples. *)
Definition victim_pod (ns uid : string) (ls : gmap string string) (prio milliCPU : Z) : Pod :=
  {| Name := uid; Namespace := ns; UID := uid; CreationTimestamp := 0;
     Annotations := Some {[CanBePreemptedAnnotationKey := "true"]}; OwnerReferences := []; NodeName := "node"; SchedulerName := "";
     PriorityClassName := "batch"; Priority := Some prio; PreemptionPolicy := None;
     Containers := [{| c_Name := "c"; c_Requests := {[ResourceCPU := (milliCPU * 1000000)%Z]}; c_Ports := [] |}];
     InitContainers := []; Conditions := []; Labels := ls; Tolerations := []; Affinity := None;
     Overhead := None; StartTime := None; DeletionTimestamp := None |}.
Definition web_pod (uid : string) : Pod := victim_pod "ns" uid {["app" := "web"]} 5 600.
Definition node_with (p : Pod) : NodeInfo := default n0 (node_AddPod cf0 p n0).
Definition high : Pod := bound_pod "high" 10 700.
Definition cs_of (p : Pod) : CycleState :=
  {| cs_Fit := None; cs_NodePorts := None; cs_Priority := None; cs_PDB := None; cs_ResourceType := GetPodResourceType p |}.
Definition round_on (p : Pod) : Round :=
  {| r_preemptor := high; r_cs := cs_of high; r_nodeName := "node"; r_node := node_with p; r_lower := -1; r_upper := 11; r_choose := λ l, l |}.
Definition labels_text (m : gmap string string) : string := pretty (Npos (encode m)).

Definition store1 : PdbStore := AddPDB any any web NewPdbStore.
Definition spec1 : PdbSpec := mkPdbSpec {["ns/web" := web]} ∅.
Lemma edges1 : Edges any any spec1 store1.
Proof. apply (edges_AddPDB any any EmptySpec NewPdbStore web (edges_empty any any)). eexists. vm_compute. reflexivity. Qed.
Lemma live1 k b : live_pdbs spec1 !! k = Some b → b = web.
Proof. intros H. by apply (lookup_singleton_Some "ns/web" k web b) in H as [_ <-]. Qed.
Definition cands1 : list PodInfo := [info cf0 (web_pod "a"); info cf0 (web_pod "b")].


(** The match results of a pod are kept by its labels alone: a pod of another
    namespace makes a budget without disruptions left be ignored. *)
Definition none_left : PodDisruptionBudget := budget "ns" "web" (Some (app "web")) 0.
Definition checker_of (b : PodDisruptionBudget) : PDBChecker := (PDB_ClusterPrePreempting (AddPDB any any b NewPdbStore) NewCycleState None).1.1.
Definition searched (b : PodDisruptionBudget) (l : list Pod) : option (list Pod) :=
  '(_, _, vs) ← check_victims (λ _, None)
     (base_pf labels_text (λ _, None) 0 0 (AddPDB any any b NewPdbStore) (checker_of b)) (λ _ _, []) "node" high (info cf0 <$> l)
     (PriorityValue_ClusterPrePreempting high (PDB_ClusterPrePreempting (AddPDB any any b NewPdbStore) NewCycleState None).1.2)
     (PDB_NodePrePreempting (checker_of b) NewPreemptionState).1;
  Some vs.
Lemma match_cache_ignores_namespace :
  searched none_left [web_pod "a"] = Some []
  ∧ let other := victim_pod "other" "o" {["app" := "web"]} 5 100 in
    searched none_left [other; web_pod "a"] = Some [other; web_pod "a"].
Proof. split; vm_compute; reflexivity. Qed.

(** A pod without labels is matched by a selector that asks for a label's absence,
    but the search takes no budget for it. *)
Definition absent : PodDisruptionBudget :=
  budget "ns" "absent" (Some {| MatchLabels := ∅; MatchExpressions := [{| expr_Key := "app"; expr_Operator := "DoesNotExist"; expr_Values := [] |}] |}) 0.
Lemma unlabelled_pod_ignores_budget :
  budget_matches any any absent (victim_pod "ns" "u" ∅ 5 100) = true
  ∧ searched absent [victim_pod "ns" "u" ∅ 5 100] = Some [victim_pod "ns" "u" ∅ 5 100].
Proof. split; vm_compute; reflexivity. Qed.

(** The empty selector selects every pod of the namespace, and the owner index says
    so, but the match of a pod says that it selects none. *)
Definition everything : PodDisruptionBudget := budget "ns" "all" (Some {| MatchLabels := ∅; MatchExpressions := [] |}) 0.
Lemma empty_selector_matches_nothing :
  selects any any everything {["app" := "web"]} = true ∧ searched everything [web_pod "a"] = Some [web_pod "a"].
Proof. split; vm_compute; reflexivity. Qed.
End VictimExamples.
