(* ===== verification/Preempt.v ===== *)
(** * Victims on a node

    pkg/scheduler/core/pod_scheduler/preemption.go: [selectVictimsOnNode] with the
    removal of the possible victims and their reprieve.  The policies that choose the
    nodes and the choice among candidates are in Candidates and BetterPreempt.

    The outer [option] is a panic, the inner one an error.  No plugin of the
    repository has PreFilter extensions, so adding and removing pods does not change
    the state. *)
From S2P Require Import Prelude GoStrings PodModel PodState HashSlice Resource MicroTopo PodInfos Numa NodeInfo Framework NodeClone NodeStore VictimSearch.

Local Open Scope godel_scope.
Local Open Scope string_scope.

Definition pluginsSkipCheckingDuringPreemption : gset string := list_to_set
  ["NodeAffinity"; "TaintToleration"; "NodeUnschedulable"; "PodLauncher"; "VolumeBinding"; "NodeLabel"; "NodePorts"; "NodeResourcesFit";
   "NodeVolumeLimits"; "CinderLimits"; "AzureDiskLimits"; "GCEPDLimits"; "EBSLimits"; "NonNativeTopology"; "Coscheduling"].

Definition moreImportantPod (pi1 pi2 : Pod) (podsCanNotBePreempted : gset string) : bool :=
  negb (bool_decide (GeneratePodKey pi1 ∈ podsCanNotBePreempted)) && bool_decide (GeneratePodKey pi2 ∈ podsCanNotBePreempted).

(** [sort.SliceStable], as the insertion sort that it is on short slices. *)
Fixpoint stable_insert {A} (less : A → A → bool) (x : A) (l : list A) : list A :=
  match l with [] => [x] | y :: l' => if less x y then x :: y :: l' else y :: stable_insert less x l' end.
Definition SliceStable {A} (less : A → A → bool) (l : list A) : list A := foldl (λ acc x, stable_insert less x acc) [] l.

(** ** Victims on a node *)

Section preempt.
Context {MR : MapRange} (cf : Config) (jsonLabels : string → gmap string string).
Context (pls : list FilterPlugin) (pf : PreemptionFramework).
Context (jsonVictims : string → option (list string)) (preemptors : string → string → list string).
Implicit Types (cs : CycleState) (ps : PreemptionState) (pod : Pod) (n : NodeInfo).

Abbreviation Passes := (PodPassesFiltersOnNode jsonLabels pls).

(** The plugins that succeeded and that fewer pods on the node cannot make fail. *)
Definition skipped (statusMap : PluginToStatus) : list string :=
  (filter (λ e, IsSuccess e.2 = true ∧ e.1 ∈ pluginsSkipCheckingDuringPreemption) (range_map statusMap)).*1.

Definition removePod (rp : Pod) n : option (NodeInfo * bool) :=
  '(n, err) ← node_RemovePod cf rp true n; Some (n, match err with Some _ => false | None => true end).
Fixpoint removePods (l : list Pod) n : option (option NodeInfo) :=
  match l with
  | [] => Some (Some n)
  | v :: l' => '(n, ok) ← removePod v n; if ok : bool then removePods l' n else Some None
  end.

(** Puts pods back, the most important first, as long as [pod] fits. *)
Fixpoint reprieve cs pod (skipPlugins : list string) (l : list Pod) n (victims : list Pod) : option (option (list Pod)) :=
  match l with
  | [] => Some (Some victims)
  | p :: l' =>
      n ← node_AddPod cf p n;
      if (Passes cs pod n skipPlugins).1 then reprieve cs pod skipPlugins l' n victims
      else '(n, ok) ← removePod p n;
           if ok : bool then reprieve cs pod skipPlugins l' n (victims ++ [p])%list else Some None
  end.

Definition MinInt64 : Z := - 2 ^ 63.

Definition selectVictimsOnNode cs ps pod n : option (CycleState * PreemptionState * (list Pod * bool)) :=
  let '(fits, statusMap) := Passes cs pod n [] in
  if fits : bool then Some (cs, ps, ([], true)) else
  let skipPlugins := skipped statusMap in
  '(cs, ps, potentialVictims) ←
    FilterVictimsPods jsonVictims pf preemptors (getNodeName n) cs ps n pod MinInt64 (GetPodPartitionPriority pod) false;
  match potentialVictims with
  | [] => Some (cs, ps, ([], false))
  | _ =>
      let notPreempted := list_to_set (PodsCanNotBePreempted ps) : gset string in
      let potentialVictims := SliceStable (λ p q, moreImportantPod p q notPreempted) potentialVictims in
      nodeInfoCopy ← node_Clone n;
      removed ← removePods potentialVictims nodeInfoCopy;
      match removed with
      | None => Some (cs, ps, ([], false))
      | Some nodeInfoCopy =>
          if negb (Passes cs pod nodeInfoCopy skipPlugins).1 then Some (cs, ps, ([], false)) else
          r ← reprieve cs pod skipPlugins (rev potentialVictims) nodeInfoCopy [];
          Some (cs, ps, match r with Some victims => (victims, true) | None => ([], false) end)
      end
  end.
End preempt.
