(* ===== verification/PreemptProps.v ===== *)
(** * The victims are a minimal set

    What the search for victims leaves of the states, the filters on a node from
    which pods are taken, and the theorem about [selectVictimsOnNode]: it succeeds
    exactly when the pod fits once all potential victims are gone, the pod fits
    once the victims alone are gone, and no victim could be spared. *)
From S2P Require Import Prelude GoStrings PodModel PodState GenStore StoreI HashSlice Resource MicroTopo PodInfos PodInfosProps Numa NumaProps NodeInfo NodeInfoProps NodeInfoSpec Framework NodeClone NodeStore NodeStoreProps FilterPlugins PdbStore PdbStoreSpec VictimSearch VictimSearchProps VictimSearchSpec Preempt.

Local Open Scope godel_scope.
Local Open Scope string_scope.

Lemma sublist_fmap {A B} (f : A → B) (l1 l2 : list A) : sublist l1 l2 → sublist (f <$> l1) (f <$> l2).
Proof. induction 1; simpl; by constructor. Qed.

(** ** What the search changes *)

Record plain_plugin (p : SearchingPlugin) : Prop := {
  pp_search preemptor pi cs ps vs cs' vs' code : sp_VictimSearching p preemptor pi cs ps vs = Some (cs', vs', code) → only_cache cs cs';
  pp_pre f ps : sp_NodePrePreempting p = Some f → PodsCanNotBePreempted (f ps).1 = PodsCanNotBePreempted ps;
  pp_post f preemptor pi cs ps vs ps' st : sp_PostVictimSearching p = Some f → f preemptor pi cs ps vs = Some (ps', st) →
    PodsCanNotBePreempted ps' = PodsCanNotBePreempted ps
}.
(** Plugins that only cache match results, in collections without quick pass. *)
Definition plain (pf : PreemptionFramework) : Prop := ∀ c, c ∈ pf → enableQuickPass c = false ∧ ∀ p, p ∈ plugins c → plain_plugin p.

Section frame.
Context (pf : PreemptionFramework).

Lemma only_cache_refl cs : only_cache cs cs.
Proof. by left. Qed.

Lemma collection_frame l preemptor pi : (∀ p, p ∈ l → plain_plugin p) → ∀ cs ps vs cs' vs' code,
  runVictimSearchingPluginCollection l preemptor pi cs ps vs = Some (cs', vs', code) → only_cache cs cs'.
Proof.
  induction l as [|p l IH]; intros Hl cs ps vs cs' vs' code; simpl; [intros [= <- _ _]; by left|].
  destruct (sp_VictimSearching p preemptor pi cs ps vs) as [[[cs1 vs1] code1]|] eqn:E; [|done]. cbn [mbind option_bind].
  pose proof (pp_search _ (Hl p (list_elem_of_here _ _)) _ _ _ _ _ _ _ _ E) as H1.
  destruct code1; try (by intros [= <- _ _]). intros H. eapply only_cache_trans; [done|]. eapply IH; [|done]. intros q Hq. apply Hl. by right.
Qed.

Lemma search_frame key preemptor pi (Hpf : plain pf) : ∀ pass cs ps vs cs' ps' vs' code,
  search_loop pf key preemptor pi pass false cs ps vs = Some (cs', ps', vs', code) → only_cache cs cs' ∧ ps' = ps.
Proof.
  induction pf as [|c pf' IH]; intros pass cs ps vs cs' ps' vs' code; simpl.
  { destruct pass; intros [= <- <- _ _]; (split; [by left|done]). }
  destruct (runVictimSearchingPluginCollection _ _ _ _ _ _) as [[[cs1 vs1] code1]|] eqn:E; [|done]. cbn [mbind option_bind].
  destruct (Hpf c (list_elem_of_here _ _)) as [Hq Hp]. apply (collection_frame _ _ _ Hp) in E. rw Hq.
  assert (plain pf') as Hpf' by (intros c' Hc'; apply Hpf; by right).
  assert (∀ pass, search_loop pf' key preemptor pi pass false cs1 ps vs1 = Some (cs', ps', vs', code) → only_cache cs cs' ∧ ps' = ps) as Hrec.
  { intros pass' H. destruct (IH Hpf' _ _ _ _ _ _ _ _ H) as [? ->]. split; [by eapply only_cache_trans|done]. }
  destruct code1; try apply Hrec.
  - destruct (forceQuickPass c); [intros [= <- <- _ _]; done|apply Hrec].
  - intros [= <- <- _ _]. done.
  - destruct (rejectNotSure c); [intros [= <- <- _ _]; done|apply Hrec].
Qed.

Lemma post_frame preemptor pi cs vs (Hpf : plain pf) ps ps' st :
  RunPostVictimSearchingPlugins pf preemptor pi cs ps vs = Some (ps', st) → PodsCanNotBePreempted ps' = PodsCanNotBePreempted ps.
Proof.
  unfold RunPostVictimSearchingPlugins.
  assert (∀ f, f ∈ postVictimSearchingPlugins pf → ∀ ps vs ps' st, f preemptor pi cs ps vs = Some (ps', st) → PodsCanNotBePreempted ps' = PodsCanNotBePreempted ps) as Hf.
  { intros f Hin ps0 vs0 ps1 st1. unfold postVictimSearchingPlugins in Hin. apply list_elem_of_bind in Hin as (c & Hin & Hc).
    apply list_elem_of_bind in Hin as (p & Hin & Hp). destruct (sp_PostVictimSearching p) as [g|] eqn:Eg; [|by apply elem_of_nil in Hin].
    apply list_elem_of_singleton in Hin as ->. destruct (Hpf c Hc) as [_ Hpl]. by eapply pp_post; [apply Hpl|]. }
  revert Hf. generalize (postVictimSearchingPlugins pf). intros l Hf.
  assert (∀ acc : option (PreemptionState * Status), (∀ ps1 st1, acc = Some (ps1, st1) → PodsCanNotBePreempted ps1 = PodsCanNotBePreempted ps) →
    foldl (λ acc post, '(ps, st) ← acc; match st with Some _ => Some (ps, st) | None => post preemptor pi cs ps vs end) acc l = Some (ps', st) →
    PodsCanNotBePreempted ps' = PodsCanNotBePreempted ps) as Hgen; [|apply Hgen; by intros ? ? [= <- _]].
  induction l as [|f l IH]; intros acc Hacc; simpl; [by intros ->%Hacc|]. apply IH; [intros g Hg; apply Hf; by right|].
  intros ps1 st1. destruct acc as [[ps2 [s2|]]|]; [| |done]; cbn [mbind option_bind].
  - intros [= <- _]. by eapply Hacc.
  - intros H. rw (Hf f (list_elem_of_here _ _) _ _ _ _ H). by eapply Hacc.
Qed.

Lemma pre_frame (Hpf : plain pf) ps : PodsCanNotBePreempted (RunNodePrePreemptingPlugins pf ps).1 = PodsCanNotBePreempted ps.
Proof.
  unfold RunNodePrePreemptingPlugins.
  assert (∀ f, f ∈ nodePrePreemptingPlugins pf → ∀ ps, PodsCanNotBePreempted (f ps).1 = PodsCanNotBePreempted ps) as Hf.
  { intros f Hin ps0. unfold nodePrePreemptingPlugins in Hin. apply list_elem_of_bind in Hin as (c & Hin & Hc).
    apply list_elem_of_bind in Hin as (p & Hin & Hp). destruct (sp_NodePrePreempting p) as [g|] eqn:Eg; [|by apply elem_of_nil in Hin].
    apply list_elem_of_singleton in Hin as ->. destruct (Hpf c Hc) as [_ Hpl]. by eapply pp_pre; [apply Hpl|]. }
  revert Hf. generalize (nodePrePreemptingPlugins pf). intros l Hf.
  assert (∀ acc : PreemptionState * Status, PodsCanNotBePreempted acc.1 = PodsCanNotBePreempted ps →
    PodsCanNotBePreempted (foldl (λ acc pre, match acc with (ps, Some st) => (ps, Some st) | (ps, None) => pre ps end) acc l).1 = PodsCanNotBePreempted ps) as Hgen;
    [|by apply Hgen].
  induction l as [|f l IH]; intros acc Hacc; simpl; [done|]. apply IH; [intros g Hg; apply Hf; by right|].
  destruct acc as [ps1 [s|]]; [done|]. simpl in *. rw Hf //. by left.
Qed.

Context (jsonVictims : string → option (list string)) (preemptors : string → string → list string).

Lemma check_frame nodeName preemptor cs ps pi cs' ps' ok (Hpf : plain pf) :
  check_victim jsonVictims pf preemptors nodeName preemptor cs ps pi = Some (cs', ps', ok) → only_cache cs cs' ∧ PodsCanNotBePreempted ps' = PodsCanNotBePreempted ps.
Proof.
  unfold check_victim. destruct (negb _); [intros [= <- <- _]; split; [by left|done]|]. destruct (negb _); [intros [= <- <- _]; split; [by left|done]|].
  destruct (RunVictimSearchingPlugins _ _ _ _ _ _) as [[[[cs1 ps1] vs1] code]|] eqn:E; [|done]. cbn [mbind option_bind].
  apply search_frame in E as [Ho ->]; [|done]. destruct (negb _); [by intros [= <- <- _]|].
  destruct (RunPostVictimSearchingPlugins _ _ _ _ _ _) as [[ps2 st]|] eqn:E2; [|done]. cbn [mbind option_bind]. apply post_frame in E2; [|done].
  destruct (negb _); by intros [= <- <- _].
Qed.

Lemma checks_frame nodeName preemptor (Hpf : plain pf) l : ∀ cs ps cs' ps' pods,
  check_victims jsonVictims pf preemptors nodeName preemptor l cs ps = Some (cs', ps', pods) →
  only_cache cs cs' ∧ PodsCanNotBePreempted ps' = PodsCanNotBePreempted ps ∧ ∃ vl, pods = pi_Pod <$> vl ∧ sublist vl l.
Proof.
  induction l as [|pi l IH]; intros cs ps cs' ps' pods; simpl.
  { intros [= <- <- <-]. split_and!; [by left|done|]. by exists []. }
  destruct (check_victim _ _ _ _ _ _ _ _) as [[[cs1 ps1] ok]|] eqn:E; [|done]. cbn [mbind option_bind]. apply check_frame in E as [Ho Hc]; [|done].
  destruct (check_victims _ _ _ _ _ _ _ _) as [[[cs2 ps2] rest]|] eqn:E2; [|done]. cbn [mbind option_bind].
  destruct (IH _ _ _ _ _ E2) as (Ho2 & Hc2 & vl & -> & Hs). intros [= <- <- <-]. split_and!; [by eapply only_cache_trans|congruence|].
  destruct ok; [exists (pi :: vl); split; [done|by constructor]|exists vl; split; [done|by constructor]].
Qed.

Lemma filter_frame nodeName cs ps n preemptor lo hi cs' ps' pods (Hpf : plain pf) :
  FilterVictimsPods jsonVictims pf preemptors nodeName cs ps n preemptor lo hi false = Some (cs', ps', pods) →
  only_cache cs cs' ∧ PodsCanNotBePreempted ps' = PodsCanNotBePreempted ps
  ∧ (pods = [] ∨ ∃ t l vl, cs_ResourceType cs = Some t
      ∧ node_GetVictimCandidates {| PodInfos.priorityLower := lo; PodInfos.priorityUpper := hi; pt_resourceType := t |} n = Some l
      ∧ pods = pi_Pod <$> vl ∧ sublist vl l).
Proof.
  unfold FilterVictimsPods. destruct (cs_ResourceType cs) as [t|] eqn:Et; [|intros [= <- <- <-]; split_and!; [by left|done|by left]].
  pose proof (pre_frame Hpf ps) as Hpre. destruct (RunNodePrePreemptingPlugins pf ps) as [ps1 [st|]]; simpl in Hpre;
    [intros [= <- <- <-]; split_and!; [by left|done|by left]|].
  destruct (node_GetVictimCandidates _ n) as [l|] eqn:El; [|done]. cbn [mbind option_bind].
  intros E. apply checks_frame in E as (Ho & Hc & vl & -> & Hs); [|done]. split_and!; [done|congruence|right].
  exists t, l, vl. done.
Qed.
End frame.

Lemma plain_pure name f :
  plain_plugin {| sp_Name := name; sp_NodePrePreempting := None; sp_PostVictimSearching := None;
                  sp_VictimSearching := λ p pi cs ps vs, Some (cs, vs, f pi cs) |}.
Proof. split; simpl; [intros ? ? ? ? ? ? ? ? [= <- _ _]; by left|done|done]. Qed.

Lemma plain_pdb `{MapRange} FormatLabels h pdb : plain_plugin (PDBCheckerPlugin FormatLabels h pdb).
Proof.
  split; simpl.
  - intros preemptor pi cs ps vs cs' vs' code. unfold PDB_VictimSearching. destruct (ps_PDBsAllowed ps); [|done]. cbn [mbind option_bind].
    assert (∀ o : option bool, (violating ← o; Some (cs, mkVictimState (MatchedPDBIndexes vs') true, if violating : bool then PreemptionFail else PreemptionNotSure)) = Some (cs', vs', code) → only_cache cs cs') as Hsame
      by (intros [b|]; [intros [= <- _ _]; by left|done]).
    destruct (getMatchedPDBIndexesFromOwner _ _ _) as [idx|].
    { destruct (checkPodDisruptionBudgetViolation _ _); [intros [= <- _ _]; by left|done]. }
    destruct (cs_PDB cs) as [cache|] eqn:Ec; [|intros [= <- _ _]; by left]. destruct (cache !! _) as [idx|].
    { destruct (checkPodDisruptionBudgetViolation _ _); [intros [= <- _ _]; by left|done]. }
    destruct (CheckPodDisruptionBudgetViolation _ _ _) as [[v idx]|]; [|done]. intros [= <- _ _]. right. eauto.
  - intros f ps [= <-]. done.
  - intros f preemptor pi cs ps vs ps' st [= <-]. unfold PDB_PostVictimSearching. destruct (ps_PDBsAllowed ps) as [al|]; [|done]. cbn [mbind option_bind].
    assert (∀ idx, (allowed' ← take_budgets idx al; Some (mkPreemptionState (Some allowed') (PodsCanNotBePreempted ps), None)) = Some (ps', st) →
      PodsCanNotBePreempted ps' = PodsCanNotBePreempted ps) as Htake by (intros idx; destruct (take_budgets idx al); [by intros [= <- _]|done]).
    destruct (MatchedPDBIndexesExist vs); [apply Htake|]. destruct (getMatchedPDBIndexesFromOwner _ _ _); [apply Htake|].
    destruct (cs_PDB cs) as [cache|]; [|by intros [= <- _]]. destruct (cache !! _); [apply Htake|].
    destruct (CheckPodDisruptionBudgetViolation _ _ _) as [[v idx]|]; [|done]. apply Htake.
Qed.

(** The collections of factory.go are plain. *)
Lemma plain_base `{MapRange} FormatLabels pcLister now interval h pdb : plain (base_pf FormatLabels pcLister now interval h pdb).
Proof.
  intros c Hc. unfold base_pf, basePreemption in Hc. repeat (apply elem_of_cons in Hc as [->|Hc]); [..|by apply elem_of_nil in Hc];
    (split; [done|]); simpl; intros p ->%list_elem_of_singleton; try apply plain_pdb.
  - exact (plain_pure _ (λ pi _, _)).
  - exact (plain_pure _ (λ pi _, _)).
  - exact (plain_pure _ (λ pi _, _)).
  - exact (plain_pure _ (λ pi cs, _)).
Qed.

(** A filter that does not look at the cached match results. *)
Class CacheFree (fp : FilterPlugin) : Prop := cache_free c cs p n : fp_Filter fp (cs_set_PDB c cs) p n = fp_Filter fp cs p n.
#[export] Instance PodLauncher_free : CacheFree PodLauncherPlugin.
Proof. done. Qed.
#[export] Instance TaintToleration_free : CacheFree TaintTolerationPlugin.
Proof. done. Qed.
#[export] Instance NodeUnschedulable_free : CacheFree NodeUnschedulablePlugin.
Proof. done. Qed.
#[export] Instance NodePorts_free : CacheFree NodePortsPlugin.
Proof. done. Qed.
#[export] Instance Fit_free `{MapRange} ie ig : CacheFree (FitPlugin ie ig).
Proof. done. Qed.

Lemma SliceStable_const {A} (less : A → A → bool) (l : list A) : (∀ x y, less x y = false) → SliceStable less l = l.
Proof.
  intros Hless. unfold SliceStable. assert (∀ acc x, stable_insert less x acc = (acc ++ [x])%list) as Hins.
  { induction acc as [|y acc IH]; intros x; simpl; [done|]. by rw Hless IH. }
  assert (∀ acc, foldl (λ acc x, stable_insert less x acc) acc l = (acc ++ l)%list) as ->; [|done].
  induction l as [|x l IH]; intros acc; simpl; [by rw app_nil_r|]. by rw Hins IH -app_assoc.
Qed.

(** ** Filters on a node from which pods are taken *)

Lemma reverse_rev {A} (l : list A) : reverse l = rev l.
Proof. by rw rev_alt. Qed.

Section minimal.
Context {MR : MapRange} {ML : MapRangeLaws MR} (cf : Config) (Hnn : cf_nonNative cf = false) (jsonLabels : string → gmap string string).
Context (pls : list FilterPlugin) (HND : NoDup (fp_Name <$> pls)).
Abbreviation World := (World cf).
Abbreviation sane := (sane cf).
Abbreviation info := (NodeStoreProps.info cf).
Implicit Types (cs : CycleState) (pod : Pod) (n : NodeInfo) (P : gmap string PodInfo) (X Y : gset string).

Definition without X P : gmap string PodInfo := filter (λ e, e.1 ∉ X) P.

Lemma without_lookup X P u : without X P !! u = if decide (u ∈ X) then None else P !! u.
Proof.
  unfold without. destruct (P !! u) as [q|] eqn:E.
  - case_decide as Hu; [apply map_lookup_filter_None; right; intros q' _; simpl; tauto|]. by apply map_lookup_filter_Some.
  - case_decide; apply map_lookup_filter_None; by left.
Qed.
Lemma without_sub X Y P : X ⊆ Y → without Y P ⊆ without X P.
Proof.
  intros HXY. apply map_subseteq_spec. intros u q. rw !without_lookup. destruct (decide (u ∈ Y)), (decide (u ∈ X)); try done. set_solver.
Qed.
Lemma without_empty P : without ∅ P = P.
Proof. apply map_eq. intros u. rw without_lookup. destruct (decide (u ∈ ∅)); [set_solver|done]. Qed.
Lemma without_P_sub X P : without X P ⊆ P.
Proof. rw -{2}(without_empty P). apply without_sub. set_solver. Qed.
Lemma without_remove X P u : delete u (without X P) = without ({[u]} ∪ X) P.
Proof.
  apply map_eq. intros v. rw without_lookup. destruct (decide (v = u)) as [->|Hne].
  - rw lookup_delete_eq. destruct (decide (u ∈ {[u]} ∪ X)); [done|set_solver].
  - rw lookup_delete_ne // without_lookup. destruct (decide (v ∈ X)), (decide (v ∈ {[u]} ∪ X)); try done; set_solver.
Qed.
Lemma without_add X P u q : P !! u = Some q → u ∈ X → <[u := q]> (without X P) = without (X ∖ {[u]}) P.
Proof.
  intros Hq Hu. apply map_eq. intros v. rw without_lookup. destruct (decide (v = u)) as [->|Hne].
  - rw lookup_insert_eq. destruct (decide (u ∈ X ∖ {[u]})); [set_solver|done].
  - rw lookup_insert_ne // without_lookup. destruct (decide (v ∈ X)), (decide (v ∈ X ∖ {[u]})); try done; set_solver.
Qed.

Definition uids (l : list Pod) : gset string := list_to_set (UID <$> l).
Lemma elem_uids l u : u ∈ uids l ↔ ∃ p, p ∈ l ∧ UID p = u.
Proof. unfold uids. rw elem_of_list_to_set list_elem_of_fmap. naive_solver. Qed.

Context (n : NodeInfo) (P : gmap string PodInfo) (HW : World n P) (pod : Pod) (cs : CycleState).
Context (HS : sane (request cs) P) (Hmono : ∀ pl, pl ∈ pls → PodMonotone cf pl cs pod).
Abbreviation Passes := (PodPassesFiltersOnNode jsonLabels pls cs pod).

(** The pod fits on the node without the pods of [X]. *)
Definition fits_without X : Prop := ∃ n', World n' (without X P) ∧ same_objects n n' ∧ passes pls cs pod n' ∅ = true.

Lemma passes_mono X Y n1 n2 skip : World n1 (without X P) → World n2 (without Y P) → same_objects n n1 → same_objects n n2 →
  X ⊆ Y → passes pls cs pod n1 skip = true → passes pls cs pod n2 skip = true.
Proof.
  intros H1 H2 Hs1 Hs2 HXY. unfold passes. rw !forallb_forall. intros Hall pl Hin. specialize (Hall pl Hin).
  apply orb_true_iff in Hall as [->|Hall]; [done|]. apply orb_true_iff. right. apply list_elem_of_In in Hin.
  refine (Hmono pl Hin n1 n2 (without X P) (without Y P) H1 H2 _ _ (without_sub X Y P HXY) Hall).
  - unfold same_objects in *. intuition congruence.
  - eapply sane_sub; [done|apply without_P_sub].
Qed.
Lemma fits_iff X n' : World n' (without X P) → same_objects n n' → passes pls cs pod n' ∅ = true ↔ fits_without X.
Proof.
  intros H Hs. split; [intros ?; by exists n'|]. intros (n2 & H2 & Hs2 & Hp). by eapply (passes_mono X X n2 n').
Qed.

Lemma sane_without X : sane (request cs) (without X P).
Proof. eapply sane_sub; [done|apply without_P_sub]. Qed.

(** *** One pod off the node, or back on it *)

Lemma take_pod p X n1 : World n1 (without X P) → same_objects n n1 → is_Some (P !! UID p) → UID p ∉ X →
  ∃ n2, removePod cf p n1 = Some (n2, true) ∧ World n2 (without ({[UID p]} ∪ X) P) ∧ same_objects n n2.
Proof.
  intros H1 Hs [q Hq] Hu. assert (without X P !! UID p = Some q) as Hq' by (rw without_lookup; by destruct (decide (UID p ∈ X))).
  destruct (world_remove cf (request cs) n1 (without X P) p true q H1 (sane_without X) Hq') as (n2 & E & H2 & Hs2).
  exists n2. unfold removePod. rw E. split_and!; [done|by rw -without_remove|by eapply same_objects_trans].
Qed.
Lemma put_back p X n1 q : World n1 (without X P) → same_objects n n1 → P !! UID p = Some q → pi_Pod q = p → UID p ∈ X →
  ∃ n2, node_AddPod cf p n1 = Some n2 ∧ World n2 (without (X ∖ {[UID p]}) P) ∧ same_objects n n2.
Proof.
  intros H1 Hs Hq Hp Hu. destruct (world_add cf n1 (without X P) p H1) as (n2 & E & H2 & Hs2).
  { rw without_lookup. by destruct (decide (UID p ∈ X)). }
  exists n2. split_and!; [done| |by eapply same_objects_trans]. rw -(without_add X P (UID p) q Hq Hu).
  destruct (sane_made _ _ _ HS _ _ Hq) as (Heq & _). rw Hp in Heq. by rw Heq.
Qed.
Lemma exists_without X : ∃ n', World n' (without X P) ∧ same_objects n n'.
Proof.
  induction X as [|u X Hu IH] using set_ind_L; [exists n; rw without_empty; done|]. destruct IH as (n1 & H1 & Hs1).
  destruct (P !! u) as [q|] eqn:Eq.
  - destruct (sane_made _ _ _ HS u q Eq) as (_ & Huq & _).
    destruct (take_pod (pi_Pod q) X n1 H1 Hs1) as (n2 & _ & H2 & Hs2); [rw Huq; eauto|by rw Huq|]. rw Huq in H2. eauto.
  - exists n1. split; [|done]. assert (without ({[u]} ∪ X) P = without X P) as ->; [|done]. rw -without_remove. apply delete_id.
    rw without_lookup. by destruct (decide (u ∈ X)).
Qed.
Lemma fits_mono X Y : X ⊆ Y → fits_without X → fits_without Y.
Proof.
  intros HXY (n1 & H1 & Hs1 & Hp). destruct (exists_without Y) as (n2 & H2 & Hs2). exists n2. split_and!; [done|done|].
  by eapply (passes_mono X Y n1 n2).
Qed.

(** A skipped plugin would succeed. *)
Lemma skip_sound sk X n' : World n' (without X P) → same_objects n n' →
  (∀ pl, pl ∈ pls → fp_Name pl ∈ sk → IsSuccess (fp_Filter pl cs pod n) = true) → passes pls cs pod n' sk = passes pls cs pod n' ∅.
Proof.
  intros H1 Hs Hsk. apply Bool.eq_iff_eq_true. unfold passes. rw !forallb_forall.
  split; intros Hall pl Hin; specialize (Hall pl Hin); apply orb_true_iff; apply orb_true_iff in Hall as [Hall|Hall]; try by right.
  right. apply bool_decide_eq_true in Hall. apply list_elem_of_In in Hin.
  refine (Hmono pl Hin n n' P (without X P) HW H1 Hs HS (without_P_sub X P) (Hsk pl Hin Hall)).
Qed.

Lemma skipped_sound : ∀ pl, pl ∈ pls → fp_Name pl ∈ (list_to_set (skipped (Passes n []).2) : gset string) → IsSuccess (fp_Filter pl cs pod n) = true.
Proof.
  intros pl Hin Hsk. apply elem_of_list_to_set in Hsk. unfold skipped in Hsk. apply list_elem_of_fmap in Hsk as ([k s] & Hk & Hf).
  apply list_elem_of_filter in Hf as [[Hs _] Hr]. apply range_elem in Hr. simpl in *.
  destruct (statuses_sound jsonLabels pls cs pod n ∅ pls (λ _ H, H) ∅ ∅) with (k := k) (s := s) as (pl' & Hin' & Hn & Hok);
    [by intros ? ?; rw lookup_empty|by intros ? ?; rw lookup_empty|exact Hr|done|].
  assert (pl' = pl) as <-; [|done]. apply list_elem_of_lookup in Hin as [i Hi], Hin' as [j Hj].
  assert (i = j) as ->; [|congruence]. eapply (NoDup_lookup (fp_Name <$> pls)); [done|by rw list_lookup_fmap Hi /=|].
  rw list_lookup_fmap Hj /=. by rw Hn Hk.
Qed.

(** *** The loops *)

Definition in_world (l : list Pod) : Prop := NoDup (UID <$> l) ∧ ∀ p, p ∈ l → ∃ q, P !! UID p = Some q ∧ pi_Pod q = p.

Lemma in_world_cons p l : in_world (p :: l) → (∃ q, P !! UID p = Some q ∧ pi_Pod q = p) ∧ UID p ∉ uids l ∧ in_world l.
Proof.
  intros [Hd Hl]. rw fmap_cons in Hd. apply NoDup_cons in Hd as [Hni Hd]. split_and!; [apply Hl; by left| |split; [done|]].
  - intros (p' & Hp' & Heq)%elem_uids. apply Hni. apply list_elem_of_fmap. by exists p'.
  - intros p' Hp'. apply Hl. by right.
Qed.
Lemma uids_cons p l : uids (p :: l) = {[UID p]} ∪ uids l.
Proof. done. Qed.

Lemma removePods_ok l : ∀ X n1, World n1 (without X P) → same_objects n n1 → in_world l → uids l ## X →
  ∃ n2, removePods cf l n1 = Some (Some n2) ∧ World n2 (without (uids l ∪ X) P) ∧ same_objects n n2.
Proof.
  induction l as [|p l IH]; intros X n1 H1 Hs Hl Hd; simpl.
  { exists n1. split_and!; [done| |done]. assert (uids [] ∪ X = X) as -> by (unfold uids; set_solver). done. }
  apply in_world_cons in Hl as ((q & Hq & _) & Hni & Hl). rw uids_cons in Hd |- *.
  destruct (take_pod p X n1 H1 Hs) as (n2 & -> & H2 & Hs2); [eauto|set_solver|]. cbn [mbind option_bind].
  destruct (IH ({[UID p]} ∪ X) n2 H2 Hs2 Hl) as (n3 & E & H3 & Hs3); [set_solver|]. exists n3. split_and!; [done| |done].
  assert ({[UID p]} ∪ uids l ∪ X = uids l ∪ ({[UID p]} ∪ X)) as -> by set_solver. done.
Qed.

Lemma reprieve_ok cs' (sk : list string) (Hsk : ∀ pl, pl ∈ pls → fp_Name pl ∈ (list_to_set sk : gset string) → IsSuccess (fp_Filter pl cs pod n) = true)
    (Hcs : ∀ n', (PodPassesFiltersOnNode jsonLabels pls cs' pod n' sk).1 = passes pls cs pod n' (list_to_set sk)) l :
  ∀ X n1 vs, World n1 (without X P) → same_objects n n1 → in_world l → uids l ⊆ X → fits_without X →
  ∃ new, reprieve cf jsonLabels pls cs' pod sk l n1 vs = Some (Some (vs ++ new)%list)
    ∧ sublist new l ∧ fits_without (X ∖ uids l ∪ uids new)
    ∧ ∀ v, v ∈ new → ∃ l1 l2, l = (l1 ++ v :: l2)%list
        ∧ ∀ Y, UID v ∉ Y → Y ⊆ X ∖ uids l ∪ uids new ∪ uids l2 → ¬ fits_without Y.
Proof.
  induction l as [|p l IH]; intros X n1 vs H1 Hs Hl HX Hfit; cbn [reprieve].
  { exists []. split_and!; [by rw app_nil_r|done| |intros v Hv; by apply elem_of_nil in Hv]. eapply fits_mono; [|done]. unfold uids. set_solver. }
  apply in_world_cons in Hl as ((q & Hq & Hp) & Hni & Hl). rw uids_cons in HX |- *.
  destruct (put_back p X n1 q H1 Hs Hq Hp) as (n2 & -> & H2 & Hs2); [set_solver|]. cbn [mbind option_bind].
  rw Hcs (skip_sound _ _ _ H2 Hs2 Hsk). destruct (passes pls cs pod n2 ∅) eqn:Ep.
  - apply (fits_iff (X ∖ {[UID p]}) n2 H2 Hs2) in Ep.
    destruct (IH (X ∖ {[UID p]}) n2 vs H2 Hs2 Hl) as (new & -> & Hsub & Hfit' & Hmin); [set_solver|done|].
    assert (X ∖ {[UID p]} ∖ uids l = X ∖ ({[UID p]} ∪ uids l)) as Heq by set_solver. rw Heq in Hfit', Hmin.
    exists new. split_and!; [done|by constructor|done|]. intros v Hv. destruct (Hmin v Hv) as (l1 & l2 & -> & HY).
    exists (p :: l1), l2. split; [done|]. done.
  - assert (¬ fits_without (X ∖ {[UID p]})) as Hno by (rw -(fits_iff _ n2 H2 Hs2) Ep //).
    destruct (take_pod p (X ∖ {[UID p]}) n2 H2 Hs2) as (n3 & -> & H3 & Hs3); [eauto|set_solver|]. cbn [mbind option_bind].
    assert ({[UID p]} ∪ X ∖ {[UID p]} = X) as HeqX by (apply set_eq; intros u; destruct (decide (u = UID p)); set_solver). rw HeqX in H3.
    destruct (IH X n3 (vs ++ [p])%list H3 Hs3 Hl) as (new & -> & Hsub & Hfit' & Hmin); [set_solver|done|].
    assert (X ∖ uids l = X ∖ ({[UID p]} ∪ uids l) ∪ {[UID p]}) as Heq by (apply set_eq; intros u; destruct (decide (u = UID p)); set_solver).
    exists (p :: new). split_and!; [by rw -app_assoc|by constructor| |].
    + rw Heq in Hfit'. eapply fits_mono; [|exact Hfit']. rw uids_cons. set_solver.
    + intros v [->|Hv]%elem_of_cons.
      * exists [], l. split; [done|]. intros Y HvY HY HfY. apply Hno. eapply fits_mono; [|exact HfY].
        assert (uids new ⊆ uids l) as Hnl by (intros u (x & Hx & <-)%elem_uids; apply elem_uids; exists x; split; [|done];
          eapply elem_of_submseteq; [done|by apply sublist_submseteq]).
        rw uids_cons in HY. clear - HY HvY HX Hnl. intros u Hu. specialize (HY u Hu). assert (u ≠ UID p) by (by intros ->). set_solver.
      * destruct (Hmin v Hv) as (l1 & l2 & -> & HY). exists (p :: l1), l2. split; [done|]. intros Y HvY HYs. apply HY; [done|].
        rw Heq. rw uids_cons in HYs. clear - HYs. set_solver.
Qed.

(** *** The theorem *)

Lemma clone_world : ∃ n', node_Clone n = Some n' ∧ World n' P ∧ same_objects n n'.
Proof.
  destruct HW as [[HI Hnu] HP]. destruct (NI_Clone _ _ n P HI) as (n' & E & HI' & Hn'). exists n'. split_and!; [done| |by rw Hn'].
  split; [split; [done|by rw Hn']|]. rw Hn'. done.
Qed.

Lemma uid_nodup : NoDup ((UID ∘ pi_Pod) <$> pods_of P).
Proof.
  unfold pods_of. rw -list_fmap_compose. erewrite list_fmap_ext; [apply (NoDup_fst_map_to_list P)|].
  intros i [u q] Hi. simpl. apply list_elem_of_lookup_2, elem_of_map_to_list in Hi. by destruct (sane_made _ _ _ HS u q Hi) as (_ & -> & _).
Qed.
Lemma candidates_in_world lo hi t l vl : node_GetVictimCandidates {| PodInfos.priorityLower := lo; PodInfos.priorityUpper := hi; pt_resourceType := t |} n = Some l →
  sublist vl l → in_world (pi_Pod <$> vl) ∧ StronglySorted (λ p q, (GetPodPriority p <= GetPodPriority q)%Z) (pi_Pod <$> vl).
Proof.
  intros El Hsub. destruct HW as [[HI Hnu] HP].
  destruct (RM_victims (cf_gates cf) (Maintainer n) P {| PodInfos.priorityLower := lo; PodInfos.priorityUpper := hi; pt_resourceType := t |}
    (ni_pods _ _ _ _ HI)) as (l' & El' & HSort & Hperm).
  unfold node_GetVictimCandidates in El. rw El' in El. injection El as <-. rw pods_of_sub in Hperm.
  assert (∀ pi, pi ∈ l' → P !! UID (pi_Pod pi) = Some pi ∧ PodPriority pi = GetPodPriority (pi_Pod pi)) as Hin.
  { intros pi Hpi. rw Hperm in Hpi. apply list_elem_of_filter in Hpi as [_ Hpi]. apply list_elem_of_filter in Hpi as [_ Hpi].
    unfold pods_of in Hpi. apply list_elem_of_fmap in Hpi as ([u q] & -> & Hq%elem_of_map_to_list).
    destruct (sane_made _ _ _ HS u q Hq) as (Heq & Hu & _). cbn [snd]. rw Hu. split; [done|]. rw {1}Heq. unfold NodeStoreProps.info, NewPodInfo.
    by destruct (CalculateResource _ _ _) as [[? ?] ?], (GetProtectionDuration _), (GetOwnerInfo _). }
  assert (NoDup ((UID ∘ pi_Pod) <$> l')) as Hnd by (rw Hperm; do 2 apply NoDup_fmap_filter; apply uid_nodup).
  assert (StronglySorted (λ p q, (GetPodPriority p <= GetPodPriority q)%Z) (pi_Pod <$> l')) as Hsort'.
  { clear -HSort Hin. induction HSort as [|p l HSort IH Hall]; [constructor|]. rw fmap_cons. constructor.
    - apply IH. intros pi Hpi. apply Hin. by right.
    - apply Forall_fmap, Forall_forall. intros q Hq. rw Forall_forall in Hall. specialize (Hall q Hq). simpl.
      rw -(proj2 (Hin p (list_elem_of_here _ _))) -(proj2 (Hin q (list_elem_of_further _ _ _ Hq))). unfold PodInfo_Compare in Hall.
      destruct (Z.eqb_spec (PodPriority p) (PodPriority q)); simpl in Hall; lia. }
  assert (sublist (pi_Pod <$> vl) (pi_Pod <$> l')) as Hsub' by by apply sublist_fmap.
  split; [split|].
  - rw -list_fmap_compose. eapply sublist_NoDup; [exact Hnd|]. by apply sublist_fmap.
  - intros p (pi & -> & Hpi)%list_elem_of_fmap. exists pi. split; [|done]. apply Hin. eapply elem_of_submseteq; [done|by apply sublist_submseteq].
  - clear -Hsort' Hsub'. induction Hsub' as [|x l1 l2 Hsub IH|x l1 l2 Hsub IH]; [done| |].
    + inversion Hsort' as [|? ? Hs Hall]; subst. constructor; [by apply IH|]. rw Forall_forall. intros y Hy. rw Forall_forall in Hall. apply Hall.
      eapply elem_of_submseteq; [done|by apply sublist_submseteq].
    + inversion Hsort'; subst. by apply IH.
Qed.

Context (jsonVictims : string → option (list string)) (preemptors : string → string → list string).
Context (Hfree : ∀ pl, pl ∈ pls → CacheFree pl).

Lemma passes_cache cs' skip n' : only_cache cs cs' → passes pls cs' pod n' skip = passes pls cs pod n' skip.
Proof.
  intros Ho. apply Bool.eq_iff_eq_true. unfold passes. rw !forallb_forall.
  assert (∀ pl, pl ∈ pls → fp_Filter pl cs' pod n' = fp_Filter pl cs pod n') as Heq.
  { intros pl Hin. destruct Ho as [->|(c & ->)]; [done|]. by apply Hfree. }
  split; intros Hall pl Hin; specialize (Hall pl Hin); apply list_elem_of_In in Hin; by rw Heq in Hall || rw Heq.
Qed.

(** The pods of lower priority than [v]. *)
Definition lower (v : Pod) (pods : list Pod) : list Pod := filter (λ p, (GetPodPriority p < GetPodPriority v)%Z) pods.

Lemma victims_of_loop pods victims : in_world pods → StronglySorted (λ p q, (GetPodPriority p <= GetPodPriority q)%Z) pods →
  sublist victims (rev pods) →
  (∀ v, v ∈ victims → ∃ l1 l2, rev pods = (l1 ++ v :: l2)%list ∧ ∀ Y, UID v ∉ Y → Y ⊆ uids victims ∪ uids l2 → ¬ fits_without Y) →
  ∀ v, v ∈ victims → ¬ fits_without ((uids victims ∖ {[UID v]}) ∪ uids (lower v pods)).
Proof.
  intros [Hnd _] Hsort Hsub Hmin v Hv. destruct (Hmin v Hv) as (l1 & l2 & Heq & HY). apply HY.
  - intros [H|H]%elem_of_union; [set_solver|]. apply elem_uids in H as (q & Hq & Hu). apply list_elem_of_filter in Hq as [Hlt Hq].
    assert (q = v) as ->; [|lia]. assert (v ∈ pods) as Hvp.
    { rw -elem_of_reverse reverse_rev Heq. apply elem_of_app. right. by left. }
    apply list_elem_of_lookup in Hq as [i Hi], Hvp as [j Hj]. assert (i = j) as ->; [|congruence].
    eapply (NoDup_lookup (UID <$> pods)); [done|by rw list_lookup_fmap Hi /=|]. by rw list_lookup_fmap Hj /= Hu.
  - assert (pods = (rev l2 ++ v :: rev l1)%list) as Hpods by (rw -(rev_involutive pods) Heq rev_app_distr /= -app_assoc //).
    assert (∀ q, q ∈ lower v pods → q ∈ l2) as Hlow.
    { intros q [Hlt Hq]%list_elem_of_filter. rw Hpods in Hq, Hsort. apply elem_of_app in Hq as [Hq|Hq].
      - by rw -reverse_rev elem_of_reverse in Hq.
      - exfalso. clear -Hlt Hq Hsort. induction (rev l2) as [|x l IH]; simpl in Hsort.
        + inversion Hsort as [|? ? _ Hall]; subst. apply elem_of_cons in Hq as [->|Hq]; [lia|].
          rw Forall_forall in Hall. specialize (Hall q Hq). lia.
        + inversion Hsort; subst. by apply IH. }
    intros u [H|(q & Hq & Hu)%elem_uids]%elem_of_union; [set_solver|]. apply elem_of_union_r, elem_uids. exists q. split; [by apply Hlow|done].
Qed.

(** C3: [selectVictimsOnNode] succeeds exactly when the pod fits on the node once
    all the potential victims are gone.  Then its victims are potential victims, the
    pod fits once they alone are gone, and every victim is needed: the pod does not
    fit without the other victims and all potential victims of lower priority. *)
Theorem victims_minimal pf cs' ps' pods (Hpf : plain pf)
    (Hsearch : FilterVictimsPods jsonVictims pf preemptors (getNodeName n) cs NewPreemptionState n pod MinInt64 (GetPodPartitionPriority pod) false
      = Some (cs', ps', pods)) :
  ∃ cs2 ps2 victims fits, selectVictimsOnNode cf jsonLabels pls pf jsonVictims preemptors cs NewPreemptionState pod n = Some (cs2, ps2, (victims, fits))
    ∧ (fits = true ↔ fits_without (uids pods))
    ∧ (fits = true → NoDup victims ∧ (∀ v, v ∈ victims → v ∈ pods) ∧ fits_without (uids victims)
        ∧ ∀ v, v ∈ victims → ¬ fits_without ((uids victims ∖ {[UID v]}) ∪ uids (lower v pods))).
Proof.
  unfold selectVictimsOnNode. destruct (Passes n []) as [fits0 statusMap] eqn:E0.
  assert (World n (without ∅ P)) as HW0 by by rw without_empty.
  assert (fits0 = passes pls cs pod n ∅) as Hf0 by (rw -(passes_spec jsonLabels pls cs pod n [] HND) E0 //).
  assert (∀ n' cs1 sk, only_cache cs cs1 → (PodPassesFiltersOnNode jsonLabels pls cs1 pod n' sk).1 = passes pls cs pod n' (list_to_set sk)) as Hps.
  { intros n' cs1 sk Ho. rw passes_spec //. by apply passes_cache. }
  destruct fits0.
  { assert (fits_without ∅) as Hfit by (apply (fits_iff ∅ n HW0); done). eexists _, _, [], true. split; [done|]. split.
    - split; [|done]. intros _. eapply fits_mono; [|exact Hfit]. set_solver.
    - intros _. split_and!; [constructor|intros v Hv; by apply elem_of_nil in Hv|exact Hfit|intros v Hv; by apply elem_of_nil in Hv]. }
  assert (¬ fits_without ∅) as Hno by (rw -(fits_iff ∅ n HW0 (same_objects_refl n)) -Hf0 //).
  rw Hsearch. cbn [mbind option_bind]. apply filter_frame in Hsearch as (Hcache & Hcan & Hpods); [|done].
  destruct pods as [|p0 pods0] eqn:Epods; [eexists _, _, [], false; split; [done|]; split; [by split|done]|]. rw -Epods.
  destruct Hpods as [?|(t & l & vl & _ & El & Hvl & Hsub)]; [done|]. rw -Epods in Hvl.
  destruct (candidates_in_world _ _ t l vl El Hsub) as [Hin Hsort]. rw -Hvl in Hin Hsort.
  rw Hcan. cbn [PodsCanNotBePreempted NewPreemptionState].
  rw (SliceStable_const (λ p q, moreImportantPod p q (list_to_set []))); [|intros x y; unfold moreImportantPod; by rw andb_false_r].
  destruct clone_world as (n1 & -> & HW1 & Hs1). cbn [mbind option_bind]. rw -(without_empty P) in HW1.
  destruct (removePods_ok pods ∅ n1 HW1 Hs1 Hin) as (n2 & -> & HW2 & Hs2); [set_solver|]. cbn [mbind option_bind]. rw right_id_L in HW2.
  pose proof skipped_sound as Hsk. rw E0 in Hsk. cbn [snd] in Hsk.
  rw Hps // (skip_sound _ _ _ HW2 Hs2 Hsk). destruct (passes pls cs pod n2 ∅) eqn:Ep; cbn [negb].
  2:{ eexists _, _, [], false. split; [done|]. split; [|done]. split; [done|]. rw -(fits_iff _ n2 HW2 Hs2) Ep //. }
  apply (fits_iff _ n2 HW2 Hs2) in Ep.
  assert (uids (rev pods) = uids pods) as Hrev by (apply set_eq; intros u; rw !elem_uids; by setoid_rewrite <- reverse_rev; setoid_rewrite elem_of_reverse).
  destruct (reprieve_ok cs' (skipped statusMap) Hsk (λ n', Hps n' cs' _ Hcache) (rev pods) (uids pods) n2 [] HW2 Hs2) as (new & -> & Hsubn & Hfit & Hmin);
    [split; [rw -Permutation_rev; apply Hin|intros p Hp; apply Hin; by rw -reverse_rev elem_of_reverse in Hp]|by rw Hrev|done|].
  cbn [mbind option_bind app]. rw Hrev in Hfit, Hmin. assert (uids pods ∖ uids pods ∪ uids new = uids new) as Hx by set_solver. rw Hx in Hfit, Hmin.
  assert (∀ v, v ∈ new → v ∈ pods) as Hnew.
  { intros v Hv. rw -elem_of_reverse reverse_rev. eapply elem_of_submseteq; [done|by apply sublist_submseteq]. }
  eexists _, _, new, true. split; [done|]. split; [done|]. intros _. split_and!; [|done|done|by apply victims_of_loop].
  eapply sublist_NoDup; [|exact Hsubn]. rw -Permutation_rev. destruct Hin as [Hd _]. by eapply NoDup_fmap_1.
Qed.
End minimal.

(** ** An example *)

Module PreemptExamples.
Import FilterExamples VictimExamples.

Definition pod_a : Pod := victim_pod "ns" "a" ∅ 3 400.
Definition pod_b : Pod := victim_pod "ns" "b" ∅ 5 500.
Definition two : gmap string PodInfo := <["b" := info cf0 pod_b]> {["a" := info cf0 pod_a]}.
Definition n_two : NodeInfo := default n0 (node_AddPod cf0 pod_b (default n0 (node_AddPod cf0 pod_a n0))).
Definition wants : Pod := bound_pod "high" 10 450.
Definition filters : list FilterPlugin := [PodLauncherPlugin; FitPlugin ∅ ∅].
Definition state : CycleState :=
  (PDB_ClusterPrePreempting NewPdbStore (PriorityValue_ClusterPrePreempting wants (Fit_PreFilter cf0 (cs_of wants) wants)) None).1.2.
Definition searching : PreemptionFramework := base_pf labels_text (λ _, None) 0 0 NewPdbStore (PDB_ClusterPrePreempting NewPdbStore (cs_of wants) None).1.1.

Lemma two_cases (Q : string → PodInfo → Prop) : Q "a" (info cf0 pod_a) → Q "b" (info cf0 pod_b) → ∀ u q, two !! u = Some q → Q u q.
Proof.
  intros Ha Hb u q. unfold two. intros [[<- <-]|[_ [<- <-]%lookup_singleton_Some]]%lookup_insert_Some; done.
Qed.
Lemma world_two : World cf0 n_two two.
Proof.
  destruct (world_add cf0 n0 ∅ pod_a world0 (lookup_empty _)) as (n1 & E1 & H1 & _).
  destruct (world_add cf0 n1 _ pod_b H1) as (n2 & E2 & H2 & _); [reflexivity|].
  unfold n_two. rw E1. cbn [default from_option id]. rw E2. exact H2.
Qed.
Lemma sane_two : sane cf0 (request state) two.
Proof.
  assert (∀ m, (0 <= m <= 1000)%Z → ∀ d, (0 <= amount (mkResource m 0 0 0 None) d <= 1000)%Z) as Hm.
  { intros m Hm d. destruct d; simpl; unfold scalar; simpl; lia. }
  assert (∀ d, (0 <= amount (Res (info cf0 pod_a)) d <= 1000)%Z) as Ha by
    (change (Res (info cf0 pod_a)) with (mkResource 400 0 0 0 None); apply Hm; lia).
  assert (∀ d, (0 <= amount (Res (info cf0 pod_b)) d <= 1000)%Z) as Hb by
    (change (Res (info cf0 pod_b)) with (mkResource 500 0 0 0 None); apply Hm; lia).
  assert (∀ d, (0 <= amount (request state) d <= 1000)%Z) as Hr by
    (change (request state) with (mkResource 450 0 0 0 None); apply Hm; lia).
  split.
  - apply (two_cases (λ u q, q = info cf0 (pi_Pod q) ∧ UID (pi_Pod q) = u ∧ u ≠ "")); (split_and!; [reflexivity|reflexivity|done]).
  - intros k k' q q' ip pp Hq _ _ Hu. exfalso. revert k q Hq Hu. apply (two_cases (λ u q, uses (pi_Pod q) ip pp → False)); intros (c & cp & Hc & Hcp & _); simpl in Hc;
      apply list_elem_of_singleton in Hc as ->; by apply elem_of_nil in Hcp.
  - intros k q d Hq. revert k q Hq. apply (two_cases (λ u q, (0 <= amount (Res q) d)%Z)); [apply Ha|apply Hb].
  - intros d. apply Hr.
  - intros t d. assert (∃ l, typed t two = l ∧ (l = [] ∨ l = [info cf0 pod_a; info cf0 pod_b] ∨ l = [info cf0 pod_b; info cf0 pod_a])) as (l & -> & Hl).
    { eexists. split; [reflexivity|]. destruct t; vm_compute; tauto. }
    specialize (Ha d). specialize (Hb d). specialize (Hr d).
    destruct Hl as [->|[->| ->]]; cbn [zsum foldr fmap list_fmap]; unfold i64_max; simpl; lia.
  - by vm_compute.
Qed.

(** Two pods can be preempted; sparing the less important one would not help, so
    it is the only victim. *)
Lemma victims_minimal_witness :
  ∃ cs2 ps2, selectVictimsOnNode cf0 (λ _, ∅) filters searching (λ _, None) (λ _ _, []) state NewPreemptionState wants n_two
      = Some (cs2, ps2, ([pod_a], true))
    ∧ fits_without cf0 filters n_two two wants state (uids [pod_a])
    ∧ ¬ fits_without cf0 filters n_two two wants state ∅.
Proof.
  assert (NoDup (fp_Name <$> filters)) as HND by (repeat constructor; set_solver).
  assert (∀ pl, pl ∈ filters → PodMonotone cf0 pl state wants) as Hmono
    by (intros pl [->|Hpl]%elem_of_cons; [apply PodLauncher_mono|apply list_elem_of_singleton in Hpl as ->; by apply Fit_mono]).
  assert (∀ pl, pl ∈ filters → CacheFree pl) as Hfree by (intros pl [->|Hpl]%elem_of_cons; [apply _|apply list_elem_of_singleton in Hpl as ->; apply _]).
  pose proof (victims_minimal cf0 eq_refl (λ _, ∅) filters HND n_two two world_two wants state sane_two Hmono (λ _, None) (λ _ _, []) Hfree searching)
    as H.
  assert (∃ cs' ps', FilterVictimsPods (λ _, None) searching (λ _ _, []) (getNodeName n_two) state NewPreemptionState n_two wants MinInt64
    (GetPodPartitionPriority wants) false = Some (cs', ps', [pod_a; pod_b])) as (cs' & ps' & E) by (eexists _, _; vm_compute; reflexivity).
  assert (∃ cs2 ps2, selectVictimsOnNode cf0 (λ _, ∅) filters searching (λ _, None) (λ _ _, []) state NewPreemptionState wants n_two
    = Some (cs2, ps2, ([pod_a], true))) as (cs2 & ps2 & E2) by (eexists _, _; vm_compute; reflexivity).
  destruct (H cs' ps' _ (plain_base _ _ _ _ _ _) E) as (cs3 & ps3 & victims & fits & E3 & _ & Hv).
  rewrite E2 in E3. injection E3 as <- <- <- <-. destruct (Hv eq_refl) as (_ & _ & Hfit & Hno). exists cs2, ps2. split_and!; [exact E2|exact Hfit|].
  specialize (Hno pod_a (list_elem_of_here _ _)). assert (uids [pod_a] ∖ {[UID pod_a]} ∪ uids (lower pod_a [pod_a; pod_b]) = ∅) as Hx
    by (vm_compute; reflexivity).
  rewrite Hx in Hno. exact Hno.
Defined.
End PreemptExamples.
