(* ===== verification/Candidates.v ===== *)
(** * The choice of a preemption candidate

    pkg/framework/api/candidate.go ([CachedNominatedNodes]), the candidate sorting
    plugins (pkg/scheduler/framework/preemption-plugins/sorting) and their runner
    (pkg/scheduler/framework/runtime/preemption_framework.go), and the part of
    pkg/scheduler/core/pod_scheduler/preemption.go that tries the nodes with the
    policies Best and Random, chooses a candidate, and reuses the candidates of an
    earlier pod of the same unit.

    The code tries the nodes in parallel; here they are tried one after the other,
    in the order of the list, which is one of the orders that can happen.  A query of
    a node rebalances the tree of its pods, so the nodes are part of the result.
    [None] is a panic. *)
From S2P Require Import Prelude GoStrings PodModel PodState HashSlice Resource MicroTopo PodInfos Numa NodeInfo Framework NodeClone NodeStore PdbStore VictimSearch Preempt.

Local Open Scope godel_scope.
Local Open Scope string_scope.

(** ** Candidates and the nodes cached for the next pods *)

Record Victims := { v_Pods : list Pod; v_State : PreemptionState }.
Record Candidate := { cd_Victims : option Victims; cd_Name : string }.
#[export] Instance PreemptionState_eq_dec : EqDecision PreemptionState.
Proof. solve_decision. Defined.
#[export] Instance Victims_eq_dec : EqDecision Victims.
Proof. solve_decision. Defined.
#[export] Instance Candidate_eq_dec : EqDecision Candidate.
Proof. solve_decision. Defined.
Definition victim_pods (c : Candidate) : list Pod := match cd_Victims c with Some v => v_Pods v | None => [] end.

(** The pointer may be nil: an [option]. *)
Record CachedNominatedNodes := mkCNN {
  podCount : Z; hasCrossNodeConstraints : option bool;
  unusedNominatedNodes : list Candidate; usedNominatedNode : option Candidate
}.
Abbreviation CNN := (option CachedNominatedNodes).
Definition NewCachedNominatedNodes : CachedNominatedNodes := mkCNN 1 None [] None.
Definition HasCrossNodeConstraints (c : CNN) : option bool := c ≫= hasCrossNodeConstraints.
Definition SetHasCrossNodesConstraints (b : bool) (c : CNN) : CNN :=
  (λ c, mkCNN (podCount c) (Some b) (unusedNominatedNodes c) (usedNominatedNode c)) <$> c.
Definition SetPodCount (count : Z) (c : CNN) : CNN :=
  (λ c, mkCNN count (hasCrossNodeConstraints c) (unusedNominatedNodes c) (usedNominatedNode c)) <$> c.
Definition RemoveOnePod (c : CNN) : CNN :=
  (λ c, if (0 <? podCount c)%Z
        then mkCNN (podCount c - 1) (hasCrossNodeConstraints c) (unusedNominatedNodes c) (usedNominatedNode c) else c) <$> c.
Definition GetPodCount (c : CNN) : Z := match c with Some c => podCount c | None => 1 end.
Definition GetUsedNominatedNode (c : CNN) : option Candidate := c ≫= usedNominatedNode.
Definition GetUnusedNominatedNodes (c : CNN) : list Candidate := match c with Some c => unusedNominatedNodes c | None => [] end.
Definition cnn_IsEmpty (c : CNN) : bool := length (GetUnusedNominatedNodes c) ≟ 0%nat.
Definition SetUnusedNominatedNodes (l : list Candidate) (c : CNN) : CNN :=
  (λ c, mkCNN (podCount c) (hasCrossNodeConstraints c) l (usedNominatedNode c)) <$> c.
Definition SetUsedNominatedNode (u : option Candidate) (c : CNN) : CNN :=
  (λ c, mkCNN (podCount c) (hasCrossNodeConstraints c) (unusedNominatedNodes c) u) <$> c.

(** ** Sorting plugins

    They are only called with candidates that have victims, so the first victim
    exists. *)

Definition SortingPlugin : Type := Candidate → Candidate → Z.
(** 1 if the smaller first key wins, as in three of the plugins. *)
Definition less_wins (a b : Z) : Z := (if a <? b then 1 else if b <? a then -1 else 0)%Z.

Definition MinHighestPriority : SortingPlugin := λ c1 c2,
  let highest c := match victim_pods c with p :: _ => GetPodPriority p | [] => 0%Z end in
  less_wins (highest c1) (highest c2).

Definition getPrioritySum (c : Candidate) : Z :=
  foldl (λ s p, wrap64 (s + wrap64 (GetPodPriority p + 2 ^ 31)))%Z 0%Z (victim_pods c).
Definition MinPrioritySum : SortingPlugin := λ c1 c2, less_wins (getPrioritySum c1) (getPrioritySum c2).

Definition LeastVictims : SortingPlugin := λ c1 c2,
  less_wins (Z.of_nat (length (victim_pods c1))) (Z.of_nat (length (victim_pods c2))).

Section start_time.
(** The clock, read for pods that have not started. *)
Context (now : Z).
Definition GetPodStartTime (p : Pod) : Z := default now (StartTime p).
(** The earliest start of the pods of highest priority. *)
Definition earliest_step (acc : Z * Z) (p : Pod) : Z * Z :=
  let '(earliest, maxPriority) := acc in
  if (GetPodPriority p =? maxPriority)%Z then
    (if (GetPodStartTime p <? earliest)%Z then GetPodStartTime p else earliest, maxPriority)
  else if (maxPriority <? GetPodPriority p)%Z then (GetPodStartTime p, GetPodPriority p) else acc.
Definition GetEarliestPodStartTime (pods : list Pod) : option Z :=
  match pods with
  | [] => None
  | p0 :: _ => Some (foldl earliest_step (GetPodStartTime p0, GetPodPriority p0) pods).1
  end.
Definition LatestEarliestStartTime : SortingPlugin := λ c1 c2,
  match GetEarliestPodStartTime (victim_pods c1), GetEarliestPodStartTime (victim_pods c2) with
  | Some t1, Some t2 => less_wins t2 t1
  | Some _, None => 1
  | None, Some _ => -1
  | None, None => 0
  end%Z.

(** The sorting plugins of factory.go, in its order. *)
Definition baseSortings : list SortingPlugin := [MinHighestPriority; MinPrioritySum; LeastVictims; LatestEarliestStartTime].
End start_time.

Section sortings.
Context (sortings : list SortingPlugin).

(** Whether [c1] is preferred to [c2]. *)
Fixpoint compare_loop (l : list SortingPlugin) (c1 c2 : Candidate) : bool :=
  match l with
  | [] => false
  | pl :: l' =>
      let numPods1 := length (victim_pods c1) in
      let numPods2 := length (victim_pods c2) in
      if numPods1 ≟ 0%nat then negb (numPods2 ≟ 0%nat)
      else if numPods2 ≟ 0%nat then false
      else let cmp := pl c1 c2 in
           if (0 <? cmp)%Z then true else if (cmp <? 0)%Z then false else compare_loop l' c1 c2
  end.
Definition compareNominatedNodes : Candidate → Candidate → bool := compare_loop sortings.

Fixpoint insert_candidate (candidate : Candidate) (l : list Candidate) : list Candidate :=
  match l with
  | [] => [candidate]
  | node :: l' => if negb (compareNominatedNodes node candidate) then candidate :: node :: l' else node :: insert_candidate candidate l'
  end.
Definition RunCandidatesSortingPlugins (candidates : list Candidate) (candidate : option Candidate) : list Candidate :=
  match candidate with
  | None => SliceStable compareNominatedNodes candidates
  | Some c => insert_candidate c candidates
  end.

(** [selectCandidate]: takes the first candidate and keeps the next ones for the
    other pods of the unit. *)
Definition selectCandidate (candidates : list Candidate) (cnn : CNN) : option (Candidate * CNN) :=
  match candidates with
  | [] => None
  | selectedCandidate :: rest =>
      match cnn with
      | None => Some (selectedCandidate, None)
      | Some _ =>
          let cnn := RemoveOnePod cnn in
          if (GetPodCount cnn <? 0)%Z then None else
          let rest := take (Z.to_nat (GetPodCount cnn)) rest in
          Some (selectedCandidate,
                if negb (length rest ≟ 0%nat)
                then SetUnusedNominatedNodes rest (SetUsedNominatedNode (Some selectedCandidate) cnn)
                else SetUnusedNominatedNodes [] (SetUsedNominatedNode None cnn))
      end
  end.
End sortings.

(** ** Nodes that preemption may help *)

Definition prepareNodes (nodes : list (option NodeInfo)) (m : PluginToStatus) : option (list (option NodeInfo)) :=
  let potential := (λ o, n ← o; if code_of (default None (m !! getNodeName n)) ≟ UnschedulableAndUnresolvable then None else Some n) <$> nodes in
  if existsb (λ o, bool_decide (is_Some o)) potential then Some potential else None.

Definition OccupiableResourcesCheck (priority : Z) (t : PodResourceType) (podResource : Resource) (n : NodeInfo)
    : option (NodeInfo * bool) :=
  '(n, occ) ← GetOccupiableResources {| PodInfos.priorityLower := MinInt64; PodInfos.priorityUpper := priority; pt_resourceType := t |} n;
  Some (n, negb ((MilliCPU occ <? MilliCPU podResource) || (Memory occ <? Memory podResource))%Z).

Section candidates.
Context {MR : MapRange} (cf : Config) (jsonLabels : string → gmap string string).
Context (pls : list FilterPlugin) (jsonVictims : string → option (list string)) (preemptors : string → string → list string).
(** The nodes of the snapshot; [None] is a nil node. *)
Context (GetNodeInfo : string → option NodeInfo) (sortings : list SortingPlugin).
Implicit Types (cs : CycleState) (ps : PreemptionState) (pod : Pod) (n : NodeInfo) (cnn : CNN) (pf : PreemptionFramework).

Abbreviation Sorted := (RunCandidatesSortingPlugins sortings).

Definition preemptOnNode pf cs pod (nodeName : string) : option (CycleState * option Candidate) :=
  if nodeName ≟ "" then Some (cs, None) else
  n ← GetNodeInfo nodeName;
  '(cs, ps, (pods, fits)) ← selectVictimsOnNode cf jsonLabels pls pf jsonVictims preemptors cs NewPreemptionState pod n;
  Some (cs, if fits : bool then Some {| cd_Victims := Some {| v_Pods := pods; v_State := ps |}; cd_Name := nodeName |} else None).

(** *** Trying the nodes *)

(** The resource type is "" if it is not supported, which counts as best effort. *)
Definition checkNode pf cs pod n : option (CycleState * NodeInfo * option Candidate) :=
  '(n, ok) ← OccupiableResourcesCheck (GetPodPartitionPriority pod) (default BestEffortPod (GetPodResourceType pod))
      (CalculateResource (λ m, range_map m) (cf_gates cf) pod).1.1 n;
  if negb ok then Some (cs, n, None) else
  '(cs, ps, (pods, fits)) ← selectVictimsOnNode cf jsonLabels pls pf jsonVictims preemptors cs NewPreemptionState pod n;
  Some (cs, n, if fits : bool then Some {| cd_Victims := Some {| v_Pods := pods; v_State := ps |}; cd_Name := getNodeName n |} else None).

Fixpoint bestPreemption pf cs pod (nodes : list (option NodeInfo)) : option (CycleState * list (option NodeInfo) * list Candidate) :=
  match nodes with
  | [] => Some (cs, [], [])
  | None :: nodes' => '(cs, nodes', candidates) ← bestPreemption pf cs pod nodes'; Some (cs, None :: nodes', candidates)
  | Some n :: nodes' =>
      '(cs, n, c) ← checkNode pf cs pod n;
      '(cs, nodes', candidates) ← bestPreemption pf cs pod nodes';
      Some (cs, Some n :: nodes', match c with Some c => c :: candidates | None => candidates end)
  end.

(** Stops as soon as [podCount] candidates were found whose budgets allow every
    victim; [count] of them were found. *)
Fixpoint randomPreemption pf cs pod (limit count : Z) (nodes : list (option NodeInfo))
    : option (CycleState * list (option NodeInfo) * list Candidate) :=
  match nodes with
  | [] => Some (cs, [], [])
  | None :: nodes' => '(cs, nodes', candidates) ← randomPreemption pf cs pod limit count nodes'; Some (cs, None :: nodes', candidates)
  | Some n :: nodes' =>
      '(cs, n, c) ← checkNode pf cs pod n;
      match c with
      | None =>
          '(cs, nodes', candidates) ← randomPreemption pf cs pod limit count nodes'; Some (cs, Some n :: nodes', candidates)
      | Some c =>
          if (limit <=? count)%Z then
            '(cs, nodes', candidates) ← randomPreemption pf cs pod limit count nodes'; Some (cs, Some n :: nodes', candidates)
          else
            let count := match cd_Victims c with
                         | Some v => if length (PodsCanNotBePreempted (v_State v)) ≟ 0%nat then (count + 1)%Z else count
                         | None => count end in
            if (limit <=? count)%Z then Some (cs, Some n :: nodes', [c]) else
            '(cs, nodes', candidates) ← randomPreemption pf cs pod limit count nodes'; Some (cs, Some n :: nodes', c :: candidates)
      end
  end.

(** *** The candidate that is used *)

(** Evaluates the candidates again, up to the first that still is one. *)
Fixpoint first_preemptable pf cs pod (l : list Candidate) : option (CycleState * option (list Candidate)) :=
  match l with
  | [] => Some (cs, None)
  | candidate :: l' =>
      '(cs, c) ← preemptOnNode pf cs pod (cd_Name candidate);
      match c with Some c => Some (cs, Some (c :: l')) | None => first_preemptable pf cs pod l' end
  end.

Definition last_name (l : list Candidate) : option string := cd_Name <$> last l.
Definition drop_if_last (checked : Candidate) (l : list Candidate) : list Candidate :=
  if last_name l ≟ Some (cd_Name checked) then removelast l else l.

(** The loop over cached candidates: [Some] list starts with the one to use. *)
Fixpoint cached_loop pf pod (lastCandidate : Candidate) (time : nat) cs (candidates : list Candidate)
    : option (CycleState * option (list Candidate)) :=
  match time, candidates with
  | O, _ | _, [] => Some (cs, None)
  | Datatypes.S time, [c0] =>
      '(cs, c) ← preemptOnNode pf cs pod (cd_Name c0);
      match c with
      | None => Some (cs, None)
      | Some c =>
          let sorted := Sorted [lastCandidate] (Some c) in
          Some (cs, if head sorted ≟ Some c then Some (take 1 sorted) else None)
      end
  | Datatypes.S time, _ =>
      '(cs, found) ← first_preemptable pf cs pod candidates;
      match found with
      | None => Some (cs, None)
      | Some [] => Some (cs, None)
      | Some [checkedNode] => cached_loop pf pod lastCandidate time cs [checkedNode]
      | Some (checkedNode :: rest) =>
          let sorted := Sorted rest (Some checkedNode) in
          if (cd_Name <$> head sorted) ≟ Some (cd_Name checkedNode) then Some (cs, Some sorted)
          else cached_loop pf pod lastCandidate time cs (drop_if_last checkedNode sorted)
      end
  end.

Definition select_checked (candidates : list Candidate) cs cnn : option (CycleState * option Candidate * CNN) :=
  '(c, cnn) ← selectCandidate candidates cnn; Some (cs, Some c, cnn).
(** Forgets the cached candidates if none can be used. *)
Definition select_cached pf cs pod (candidates : list Candidate) cnn : option (CycleState * option Candidate * CNN) :=
  lastCandidate ← last candidates;
  '(cs, found) ← cached_loop pf pod lastCandidate (length candidates) cs candidates;
  match found with
  | Some l => select_checked l cs cnn
  | None => Some (cs, None, SetUnusedNominatedNodes [] (SetUsedNominatedNode None cnn))
  end.
Definition SelectCandidate pf cs pod (candidates : list Candidate) (candidate : option Candidate) cnn (usedCachedNominatedNodes : bool)
    : option (CycleState * option Candidate * CNN) :=
  if negb usedCachedNominatedNodes then select_checked (Sorted candidates None) cs cnn else
  match candidate with
  | None => select_cached pf cs pod candidates cnn
  | Some c =>
      let sorted := Sorted candidates (Some c) in
      if (cd_Name <$> head sorted) ≟ Some (cd_Name c) then select_checked sorted cs cnn
      else select_cached pf cs pod (drop_if_last c sorted) cnn
  end.
End candidates.

(** ** Preemption for a pod *)

Inductive CandidateSelectPolicy := PolicyBest | PolicyBetter | PolicyRandom.

Section run.
Context {MR : MapRange} (cf : Config) (jsonLabels : string → gmap string string).
Context (pls : list FilterPlugin) (jsonVictims : string → option (list string)) (preemptors : string → string → list string).
Context (GetNodeInfo : string → option NodeInfo) (sortings : list SortingPlugin).
Context (pcLister : string → option PriorityClass) (podLister : string → string → option Pod).
(** The prefilter plugins of the pod; the store of the disruption budgets; the
    searching plugins, of which one holds the budgets of the unit. *)
Context (RunPreFilterPlugins : CycleState → Pod → CycleState * Status) (h : PdbStore) (pf_of : PDBChecker → PreemptionFramework).
(** What the policy Better finds; see BetterPreempt. *)
Context (betterPreemption : PreemptionFramework → CycleState → Pod → list (option NodeInfo) → CNN →
  option (CycleState * list (option NodeInfo) * CNN * option (list Candidate))).
Context (policy : CandidateSelectPolicy).

Definition preparePod (pod : Pod) : option Pod :=
  pod ← podLister (Namespace pod) (Name pod);
  if PodEligibleToPreemptOthers pcLister pod then Some pod else None.

(** The shared state of the unit holds the budgets after the first pod. *)
Definition RunClusterPrePreemptingPlugins (pod : Pod) (cs : CycleState) (common : option PDBCommonState) : PDBChecker * CycleState * PDBCommonState :=
  PDB_ClusterPrePreempting h (PriorityValue_ClusterPrePreempting pod cs) common.

(** The inner [None] is an error. *)
Definition FindCandidates (cs : CycleState) (common : option PDBCommonState) (pod : Pod) (nodes : list (option NodeInfo)) (cnn : CNN)
    : option (CycleState * option PDBCommonState * PreemptionFramework * list (option NodeInfo) * CNN * option (list Candidate)) :=
  let '(cs, st) := RunPreFilterPlugins cs pod in
  if negb (IsSuccess st) then Some (cs, common, [], nodes, cnn, None) else
  let '(pdb, cs, common) := RunClusterPrePreemptingPlugins pod cs common in
  let pf := pf_of pdb in
  match policy with
  | PolicyBest =>
      '(cs, nodes, l) ← bestPreemption cf jsonLabels pls jsonVictims preemptors pf cs pod nodes;
      Some (cs, Some common, pf, nodes, cnn, Some l)
  | PolicyRandom =>
      '(cs, nodes, l) ← randomPreemption cf jsonLabels pls jsonVictims preemptors pf cs pod (GetPodCount cnn) 0 nodes;
      Some (cs, Some common, pf, nodes, cnn, Some l)
  | PolicyBetter =>
      '(cs, nodes, cnn, l) ← betterPreemption pf cs pod nodes cnn;
      Some (cs, Some common, pf, nodes, cnn, l)
  end.

(** [RunNodePostPreemptingPlugins]: takes the victims from the shared budgets. *)
Definition RunNodePostPreemptingPlugins (victims : list Pod) (common : option PDBCommonState) : option (option PDBCommonState) :=
  match common with
  | None => Some None
  | Some c => pdb ← PDB_NodePostPreempting (common_pdbs c) victims; Some (Some (mkPDBCommonState pdb))
  end.

Definition no_result (cs : CycleState) (common : option PDBCommonState) (cnn : CNN) :=
  Some (cs, common, cnn, @None (string * list Pod)).

Definition runPreemption (cs : CycleState) (common : option PDBCommonState) (clonePod : Pod) (nodeSet : list (option NodeInfo))
    (nodeToStatus : PluginToStatus) (cnn : CNN) : option (CycleState * option PDBCommonState * CNN * option (string * list Pod)) :=
  match preparePod clonePod with
  | None => no_result cs common cnn
  | Some pod =>
      match prepareNodes nodeSet nodeToStatus with
      | None => no_result cs common cnn
      | Some nodes =>
          '(cs, common, pf, _, cnn, candidates) ← FindCandidates cs common pod nodes cnn;
          match candidates with
          | None | Some [] => no_result cs common cnn
          | Some candidates =>
              '(cs, best, cnn) ← SelectCandidate cf jsonLabels pls jsonVictims preemptors GetNodeInfo sortings pf cs pod candidates None cnn false;
              match best with
              | None => no_result cs common cnn
              | Some c =>
                  if cd_Name c ≟ "" then no_result cs common cnn else
                  common ← RunNodePostPreemptingPlugins (victim_pods c) common;
                  Some (cs, common, cnn, Some (cd_Name c, victim_pods c))
              end
          end
      end
  end.

Definition cross_nodes (cnn : CNN) : bool := default false (HasCrossNodeConstraints cnn).
Definition PreemptBasedOnCachedNominatedNodes (cs : CycleState) (common : option PDBCommonState) (pod : Pod) (cnn : CNN)
    : option (CycleState * option PDBCommonState * CNN * option (string * list Pod)) :=
  if cnn_IsEmpty cnn then no_result cs common cnn else
  if match policy with PolicyRandom => false | _ => cross_nodes cnn end then no_result cs common cnn else
  let '(cs, st) := RunPreFilterPlugins cs pod in
  if negb (IsSuccess st) then no_result cs common cnn else
  let '(pdb, cs, common) := RunClusterPrePreemptingPlugins pod cs common in
  let pf := pf_of pdb in
  '(cs, used) ← match GetUsedNominatedNode cnn with
                | None => Some (cs, None)
                | Some u => preemptOnNode cf jsonLabels pls jsonVictims preemptors GetNodeInfo pf cs pod (cd_Name u)
                end;
  '(cs, best, cnn) ← SelectCandidate cf jsonLabels pls jsonVictims preemptors GetNodeInfo sortings pf cs pod
                       (GetUnusedNominatedNodes cnn) used cnn true;
  match best with
  | None => no_result cs (Some common) cnn
  | Some c =>
      common ← RunNodePostPreemptingPlugins (victim_pods c) (Some common);
      Some (cs, common, cnn, Some (cd_Name c, victim_pods c))
  end.

(** [PreemptInNodeCircles]: the cached candidates first, then circle after circle. *)
Fixpoint circles_loop (cs : CycleState) (common : option PDBCommonState) (pod : Pod) (circles : list (list (option NodeInfo)))
    (nodeToStatus : PluginToStatus) (cnn : CNN) : option (CycleState * option PDBCommonState * CNN * option (string * list Pod)) :=
  match circles with
  | [] => no_result cs common cnn
  | nodeSet :: circles' =>
      '(cs, common, cnn, r) ← runPreemption cs common pod nodeSet nodeToStatus cnn;
      match r with
      | Some _ => Some (cs, common, cnn, r)
      | None => circles_loop cs common pod circles' nodeToStatus cnn
      end
  end.
Definition PreemptInNodeCircles (cs : CycleState) (common : option PDBCommonState) (pod : Pod) (circles : list (list (option NodeInfo)))
    (nodeToStatus : PluginToStatus) (cnn : CNN) : option (CycleState * option PDBCommonState * CNN * option (string * list Pod)) :=
  '(cs, common, cnn, r) ← PreemptBasedOnCachedNominatedNodes cs common pod cnn;
  if match r with Some (nominatedNodeName, _) => negb (nominatedNodeName ≟ "") | None => false end
  then Some (cs, common, cnn, r)
  else circles_loop cs common pod circles nodeToStatus cnn.
End run.
