(* ===== verification/CandidatesSpec.v ===== *)
(** * The preferred candidate is chosen, and cached candidates stay usable

    The sorting plugins rank the candidates by keys, so preferring is a strict weak
    order; the policy Best chooses a candidate to which no other is preferred.  The
    candidates cached for the other pods of a unit stay sorted, and each is
    evaluated again before it is used. *)
From S2P Require Import Prelude GoStrings PodModel PodState HashSlice Resource MicroTopo PodInfos Numa NodeInfo Framework NodeClone NodeStore FilterPlugins PdbStore VictimSearch VictimSearchProps VictimSearchSpec Preempt PreemptProps Candidates.

Local Open Scope godel_scope.
Local Open Scope string_scope.

(** ** Strict weak orders and sorting *)

Class WeakOrder {A} (less : A → A → bool) : Prop := {
  wo_asym x y : less x y = true → less y x = false;
  wo_ntrans x y z : less x z = true → less x y = true ∨ less y z = true
}.

Section sorting.
Context {A} (less : A → A → bool) {WO : WeakOrder less}.
Definition ranked (l : list A) : Prop := StronglySorted (λ x y, less y x = false) l.

Lemma not_less_trans x y z : less y x = false → less z y = false → less z x = false.
Proof. intros H1 H2. destruct (less z x) eqn:E; [|done]. destruct (wo_ntrans z y x E); congruence. Qed.

Lemma stable_insert_perm x l : stable_insert less x l ≡ₚ x :: l.
Proof. induction l as [|y l IH]; simpl; [done|]. destruct (less x y); [done|]. rw IH. apply Permutation_swap. Qed.
Lemma stable_insert_ranked x l : ranked l → ranked (stable_insert less x l).
Proof.
  induction 1 as [|y l HS IH Hall]; simpl; [by repeat constructor|].
  destruct (less x y) eqn:E.
  - constructor; [by constructor|]. constructor; [by apply wo_asym|]. eapply Forall_impl; [exact Hall|]. intros z Hz. simpl in *.
    eapply not_less_trans; [|exact Hz]. by apply wo_asym.
  - constructor; [done|]. rw stable_insert_perm. by constructor.
Qed.
Lemma SliceStable_perm l : SliceStable less l ≡ₚ l.
Proof.
  unfold SliceStable. assert (∀ acc, foldl (λ acc x, stable_insert less x acc) acc l ≡ₚ acc ++ l)%list as H; [|apply H].
  induction l as [|x l IH]; intros acc; simpl; [by rw app_nil_r|]. rw IH stable_insert_perm. apply Permutation_middle.
Qed.
Lemma SliceStable_ranked l : ranked (SliceStable less l).
Proof.
  unfold SliceStable. assert (∀ acc, ranked acc → ranked (foldl (λ acc x, stable_insert less x acc) acc l)) as H; [|apply H; constructor].
  induction l as [|x l IH]; intros acc Hacc; simpl; [done|]. by apply IH, stable_insert_ranked.
Qed.
Lemma ranked_head x l : ranked (x :: l) → ∀ y, y ∈ x :: l → less y x = false.
Proof.
  intros HS y [->|Hy]%elem_of_cons; inversion HS as [|? ? _ Hall]; subst.
  - destruct (less x x) eqn:E; [|done]. pose proof (wo_asym _ _ E). congruence.
  - rw Forall_forall in Hall. by apply Hall.
Qed.
Lemma ranked_sublist l l' : sublist l l' → ranked l' → ranked l.
Proof.
  induction 1 as [|x l l' Hs IH|x l l' Hs IH]; intros HS; [done| |]; inversion HS as [|? ? HS' Hall]; subst.
  - constructor; [by apply IH|]. rw Forall_forall in Hall. apply Forall_forall. intros y Hy. apply Hall.
    eapply elem_of_submseteq; [done|by apply sublist_submseteq].
  - by apply IH.
Qed.
End sorting.

(** ** The sorting plugins rank by keys *)

Class Keyed (pl : SortingPlugin) : Prop := keyed : ∃ key : Candidate → Z, ∀ c1 c2,
  victim_pods c1 ≠ [] → victim_pods c2 ≠ [] → pl c1 c2 = less_wins (key c1) (key c2).
#[export] Instance MinHighestPriority_keyed : Keyed MinHighestPriority.
Proof. by eexists. Qed.
#[export] Instance MinPrioritySum_keyed : Keyed MinPrioritySum.
Proof. by eexists. Qed.
#[export] Instance LeastVictims_keyed : Keyed LeastVictims.
Proof. by eexists. Qed.
#[export] Instance LatestEarliestStartTime_keyed now : Keyed (LatestEarliestStartTime now).
Proof.
  exists (λ c, - default 0 (GetEarliestPodStartTime now (victim_pods c)))%Z. intros c1 c2 H1 H2. unfold LatestEarliestStartTime.
  destruct (victim_pods c1) as [|p1 l1]; [done|]. destruct (victim_pods c2) as [|p2 l2]; [done|]. cbn [GetEarliestPodStartTime default from_option id].
  unfold less_wins. set (a := (foldl _ _ _).1). set (b := (foldl _ _ _).1).
  destruct (Z.ltb_spec b a), (Z.ltb_spec a b), (Z.ltb_spec (- a) (- b)), (Z.ltb_spec (- b) (- a)); lia || done.
Qed.
Lemma base_keyed now : Forall Keyed (baseSortings now).
Proof. repeat constructor; apply _. Qed.

Section keyed.
Context (sortings : list SortingPlugin) (HK : Forall Keyed sortings).

Lemma compare_step pl l c1 c2 : Keyed pl → victim_pods c1 ≠ [] → victim_pods c2 ≠ [] →
  ∃ key : Candidate → Z, ∀ d1 d2, victim_pods d1 ≠ [] → victim_pods d2 ≠ [] →
    compare_loop (pl :: l) d1 d2 = if (key d1 <? key d2)%Z then true else if (key d2 <? key d1)%Z then false else compare_loop l d1 d2.
Proof.
  intros [key Hk] _ _. exists key. intros d1 d2 H1 H2. simpl. destruct (victim_pods d1) eqn:E1; [done|]. destruct (victim_pods d2) eqn:E2; [done|].
  simpl. rw Hk; [|by rw E1|by rw E2]. unfold less_wins. destruct (Z.ltb_spec (key d1) (key d2)); [done|].
  destruct (Z.ltb_spec (key d2) (key d1)); done.
Qed.
Lemma compare_nil_l pl l c1 c2 : victim_pods c1 = [] → compare_loop (pl :: l) c1 c2 = negb (length (victim_pods c2) ≟ 0%nat).
Proof. intros H. simpl. by rw H. Qed.
Lemma compare_nil_r pl l c1 c2 : victim_pods c2 = [] → compare_loop (pl :: l) c1 c2 = false.
Proof. intros H. simpl. rw H. by destruct (victim_pods c1). Qed.

#[export] Instance compare_order : WeakOrder (compareNominatedNodes sortings).
Proof.
  unfold compareNominatedNodes. assert (∀ l, Forall Keyed l → WeakOrder (compare_loop l)) as H; [|by apply H].
  induction 1 as [|pl l Hpl Hl IH]; [by split|]. split.
  - intros x y Hxy. destruct (decide (victim_pods x = [])) as [Hx|Hx]; [by apply compare_nil_r|].
    destruct (decide (victim_pods y = [])) as [Hy|Hy]; [by rw compare_nil_r in Hxy|].
    destruct (compare_step pl l x y Hpl Hx Hy) as [key Hkey]. 
    rw (Hkey y x) //. revert Hxy. rw (Hkey x y) //.
    destruct (Z.ltb_spec (key x) (key y)), (Z.ltb_spec (key y) (key x)); try lia; try done. apply wo_asym.
  - intros x y z Hxz. destruct (decide (victim_pods z = [])) as [Hz|Hz]; [by rw compare_nil_r in Hxz|].
    destruct (decide (victim_pods y = [])) as [Hy|Hy].
    { right. rw compare_nil_l //. by destruct (victim_pods z). }
    destruct (decide (victim_pods x = [])) as [Hx|Hx].
    { left. rw compare_nil_l //. by destruct (victim_pods y). }
    destruct (compare_step pl l x y Hpl Hx Hy) as [key Hkey]. revert Hxz. rw (Hkey x z) // (Hkey x y) // (Hkey y z) //.
    destruct (Z.ltb_spec (key x) (key z)), (Z.ltb_spec (key z) (key x)), (Z.ltb_spec (key x) (key y)), (Z.ltb_spec (key y) (key x)),
      (Z.ltb_spec (key y) (key z)), (Z.ltb_spec (key z) (key y)); try lia; try done; try tauto. apply wo_ntrans.
Qed.
End keyed.

(** ** The best candidate *)

Section best.
Context {MR : MapRange} (cf : Config) (jsonLabels : string → gmap string string).
Context (pls : list FilterPlugin) (jsonVictims : string → option (list string)) (preemptors : string → string → list string).
Implicit Types (cs : CycleState) (pod : Pod) (n : NodeInfo) (pf : PreemptionFramework) (c : Candidate).

Abbreviation select := (λ pf, selectVictimsOnNode cf jsonLabels pls pf jsonVictims preemptors).

(** [c] is what the search on the node [n] finds. *)
Definition found_on pf pod n c : Prop := ∃ cs cs' ps,
  select pf cs NewPreemptionState pod n = Some (cs', ps, (victim_pods c, true)).

Lemma occupiable_name pr t r n n' b : OccupiableResourcesCheck pr t r n = Some (n', b) → getNodeName n' = getNodeName n.
Proof.
  unfold OccupiableResourcesCheck, GetOccupiableResources.
  destruct (GetMaintainableInfoByPartition _ _) as [[m [cpu mem]]|]; [|done]. cbn [mbind option_bind].
  destruct (match pt_resourceType _ with GuaranteedPod => _ | BestEffortPod => _ end) as [a q].
  cbn [mbind option_bind]. by intros [= <- _].
Qed.

(** The cycle state is handed from one search to the next. *)
Definition searched pf pod : CycleState → CycleState → Prop := rtc (λ cs cs', ∃ n ps r, select pf cs NewPreemptionState pod n = Some (cs', ps, r)).
(** The same, for a search that comes after others of the same round. *)
Definition found_from pf pod cs0 n c : Prop := ∃ cs cs' ps,
  searched pf pod cs0 cs ∧ select pf cs NewPreemptionState pod n = Some (cs', ps, (victim_pods c, true)).
(** The node of the list passed the heuristic check, which fills its caches. *)
Definition admitted pod n n' : Prop :=
  OccupiableResourcesCheck (GetPodPartitionPriority pod) (default BestEffortPod (GetPodResourceType pod))
    (CalculateResource (λ m, range_map m) (cf_gates cf) pod).1.1 n = Some (n', true).

Lemma found_from_on pf pod cs0 n c : found_from pf pod cs0 n c → found_on pf pod n c.
Proof. intros (cs & cs' & ps & _ & H). by exists cs, cs', ps. Qed.
Lemma found_later pf pod cs0 cs1 n c : searched pf pod cs0 cs1 → found_from pf pod cs1 n c → found_from pf pod cs0 n c.
Proof. intros H (cs & cs' & ps & Hs & Hf). exists cs, cs', ps. split; [by etrans|done]. Qed.
Lemma admitted_name pod n n' : admitted pod n n' → getNodeName n' = getNodeName n.
Proof. apply occupiable_name. Qed.

Lemma checkNode_found pf cs pod n cs' n' oc : checkNode cf jsonLabels pls jsonVictims preemptors pf cs pod n = Some (cs', n', oc) →
  searched pf pod cs cs' ∧ ∀ c, oc = Some c → admitted pod n n' ∧ cd_Name c = getNodeName n ∧ found_from pf pod cs n' c.
Proof.
  unfold checkNode. destruct (OccupiableResourcesCheck _ _ _ n) as [[n1 ok]|] eqn:Eo; [|done]. cbn [mbind option_bind].
  destruct ok; cbn [negb]; [|intros [= <- <- <-]; split; [apply rtc_refl|done]].
  destruct (selectVictimsOnNode _ _ _ _ _ _ _ _ _ n1) as [[[cs1 ps] [pods fits]]|] eqn:E; [|done]. cbn [mbind option_bind].
  intros [= <- <- <-]. split; [apply rtc_once; by exists n1, ps, (pods, fits)|]. destruct fits; [|done]. intros c [= <-].
  split_and!; [done|by apply (occupiable_name _ _ _ _ _ _ Eo)|]. exists cs, cs1, ps. split; [apply rtc_refl|done].
Qed.

(** The names of the nodes that are not nil. *)
Definition node_names (nodes : list (option NodeInfo)) : list string := omap (λ o : option NodeInfo, getNodeName <$> o) nodes.

(** The candidates [l] found on the nodes, in their order, from [cs] on. *)
Definition all_found pf pod cs (nodes : list (option NodeInfo)) (l : list Candidate) : Prop :=
  sublist (cd_Name <$> l) (node_names nodes)
  ∧ ∀ c, c ∈ l → ∃ n n', Some n ∈ nodes ∧ cd_Name c = getNodeName n ∧ admitted pod n n' ∧ found_from pf pod cs n' c.

Lemma all_found_nil pf pod cs nodes : all_found pf pod cs nodes [].
Proof. split; [apply sublist_nil_l|]. intros c Hc. by apply elem_of_nil in Hc. Qed.
Lemma all_found_skip pf pod cs cs1 o nodes l : searched pf pod cs cs1 → all_found pf pod cs1 nodes l → all_found pf pod cs (o :: nodes) l.
Proof.
  intros Hs [Hsub Hall]. split; [destruct o; simpl; [by constructor|done]|].
  intros c' Hc'. destruct (Hall c' Hc') as (m & m' & Hm & ? & ? & Hf). exists m, m'. split_and!; [by right|done..|by eapply found_later].
Qed.
Lemma all_found_keep pf pod cs cs1 n n' c nodes l : searched pf pod cs cs1 →
  admitted pod n n' ∧ cd_Name c = getNodeName n ∧ found_from pf pod cs n' c → all_found pf pod cs1 nodes l → all_found pf pod cs (Some n :: nodes) (c :: l).
Proof.
  intros Hs (Hn & Hc & Hf) Hl. split; [simpl; rw Hc; constructor; by apply Hl|].
  intros c' [->|Hc']%elem_of_cons; [exists n, n'; split_and!; [left|done..]|]. by apply (all_found_skip _ _ _ _ (Some n) _ _ Hs Hl).
Qed.

Lemma bestPreemption_found pf pod nodes : ∀ cs cs' nodes' l,
  bestPreemption cf jsonLabels pls jsonVictims preemptors pf cs pod nodes = Some (cs', nodes', l) → all_found pf pod cs nodes l.
Proof.
  induction nodes as [|o nodes IH]; intros cs cs' nodes' l; simpl; [intros [= <- <- <-]; apply all_found_nil|].
  destruct o as [n|].
  - destruct (checkNode _ _ _ _ _ _ cs pod n) as [[[cs1 n1] oc]|] eqn:Ec; [|done]. cbn [mbind option_bind].
    apply checkNode_found in Ec as [Hs Hc].
    destruct (bestPreemption _ _ _ _ _ _ _ _ nodes) as [[[cs2 nodes2] l2]|] eqn:Eb; [|done]. cbn [mbind option_bind].
    intros [= <- <- <-]. apply IH in Eb. destruct oc as [c|]; [by apply (all_found_keep _ _ _ cs1 n n1); [|apply Hc|]|by eapply all_found_skip].
  - destruct (bestPreemption _ _ _ _ _ _ _ _ nodes) as [[[cs2 nodes2] l2]|] eqn:Eb; [|done]. cbn [mbind option_bind].
    intros [= <- <- <-]. eapply all_found_skip; [apply rtc_refl|by eapply IH].
Qed.

(** As before, of the candidates that were kept. *)
Lemma randomPreemption_found pf pod limit nodes : ∀ count cs cs' nodes' l,
  randomPreemption cf jsonLabels pls jsonVictims preemptors pf cs pod limit count nodes = Some (cs', nodes', l) → all_found pf pod cs nodes l.
Proof.
  induction nodes as [|o nodes IH]; intros count cs cs' nodes' l; simpl; [intros [= <- <- <-]; apply all_found_nil|].
  assert (∀ cs1 o' count, searched pf pod cs cs1 → ('(cs, nodes', candidates) ← randomPreemption cf jsonLabels pls jsonVictims preemptors pf cs1 pod limit count nodes;
    Some (cs, o' :: nodes', candidates)) = Some (cs', nodes', l) → all_found pf pod cs (o :: nodes) l) as Hpass.
  { intros cs1 o' count0 Hs. destruct (randomPreemption _ _ _ _ _ _ _ _ _ _ nodes) as [[[cs2 nodes2] l2]|] eqn:Eb; [|done]. cbn [mbind option_bind].
    intros [= <- <- <-]. by eapply all_found_skip, IH. }
  destruct o as [n|]; [|apply Hpass, rtc_refl].
  destruct (checkNode _ _ _ _ _ _ cs pod n) as [[[cs1 n1] oc]|] eqn:Ec; [|done]. cbn [mbind option_bind]. apply checkNode_found in Ec as [Hs Hc].
  destruct oc as [c|]; [|by apply Hpass]. destruct (limit <=? count)%Z; [by apply Hpass|]. set (count' := match cd_Victims c with Some _ => _ | None => _ end).
  destruct (limit <=? count')%Z.
  - intros [= <- <- <-]. apply (all_found_keep _ _ _ cs1 n n1); [done|by apply Hc|apply all_found_nil].
  - destruct (randomPreemption _ _ _ _ _ _ _ _ _ _ nodes) as [[[cs2 nodes2] l2]|] eqn:Eb; [|done]. cbn [mbind option_bind].
    intros [= <- <- <-]. apply (all_found_keep _ _ _ cs1 n n1); [done|by apply Hc|by eapply IH].
Qed.

Lemma prepareNodes_names nodes m nodes' : prepareNodes nodes m = Some nodes' → sublist (node_names nodes') (node_names nodes).
Proof.
  unfold prepareNodes. destruct (existsb _ _); [|done]. intros [= <-]. induction nodes as [|[n|] nodes IH]; [constructor| |done].
  simpl. destruct (_ ≟ _); simpl; by constructor.
Qed.

Lemma prepareNodes_spec nodes m nodes' n : prepareNodes nodes m = Some nodes' → Some n ∈ nodes' →
  Some n ∈ nodes ∧ code_of (default None (m !! getNodeName n)) ≠ UnschedulableAndUnresolvable.
Proof.
  unfold prepareNodes. destruct (existsb _ _); [|done]. intros [= <-] (o & Ho & Hin)%list_elem_of_fmap.
  destruct o as [n0|]; [|done]. cbn [mbind option_bind] in Ho. destruct (bool_decide_reflect (code_of (default None (m !! getNodeName n0)) = UnschedulableAndUnresolvable)); [done|].
  by injection Ho as ->.
Qed.
End best.

Section chosen.
Context {MR : MapRange} (cf : Config) (jsonLabels : string → gmap string string).
Context (pls : list FilterPlugin) (jsonVictims : string → option (list string)) (preemptors : string → string → list string).
Context (GetNodeInfo : string → option NodeInfo) (sortings : list SortingPlugin) (HK : Forall Keyed sortings).
Context (pcLister : string → option PriorityClass) (podLister : string → string → option Pod).
Context (RunPreFilterPlugins : CycleState → Pod → CycleState * Status) (h : PdbStore) (pf_of : PDBChecker → PreemptionFramework).
Context (better : PreemptionFramework → CycleState → Pod → list (option NodeInfo) → CNN →
  option (CycleState * list (option NodeInfo) * CNN * option (list Candidate))).
Implicit Types (cs : CycleState) (pod : Pod) (n : NodeInfo) (pf : PreemptionFramework) (c : Candidate) (cnn : CNN).

Abbreviation prefer := (compareNominatedNodes sortings).
Abbreviation found := (found_on cf jsonLabels pls jsonVictims preemptors).
Abbreviation best := (bestPreemption cf jsonLabels pls jsonVictims preemptors).
Abbreviation run := (runPreemption cf jsonLabels pls jsonVictims preemptors GetNodeInfo sortings pcLister podLister
  RunPreFilterPlugins h pf_of better PolicyBest).

#[local] Instance prefer_order : WeakOrder prefer.
Proof. by apply compare_order. Qed.

Lemma selectCandidate_head l cnn c cnn' : selectCandidate l cnn = Some (c, cnn') → ∃ rest, l = c :: rest.
Proof.
  destruct l as [|x rest]; [done|]. simpl. destruct cnn as [k|]; [|intros [= <- _]; by exists rest].
  destruct (_ <? 0)%Z; [done|]. intros [= <- _]. by exists rest.
Qed.

(** C7: With the policy Best, the node that [runPreemption] nominates is one of the
    nodes that preemption may help; its victims are what the search finds on it;
    and of the candidates found, none is preferred to it by the sorting plugins. *)
Theorem best_candidate cs common clonePod nodeSet m cnn cs' common' cnn' name victims :
  run cs common clonePod nodeSet m cnn = Some (cs', common', cnn', Some (name, victims)) →
  ∃ pod pf nodes cs1 cs2 nodes2 l c n n',
    podLister (Namespace clonePod) (Name clonePod) = Some pod ∧ PodEligibleToPreemptOthers pcLister pod = true
    ∧ prepareNodes nodeSet m = Some nodes ∧ best pf cs1 pod nodes = Some (cs2, nodes2, l)
    ∧ c ∈ l ∧ name = cd_Name c ∧ victims = victim_pods c ∧ (∀ c', c' ∈ l → prefer c' c = false)
    ∧ Some n ∈ nodeSet ∧ getNodeName n = name ∧ code_of (default None (m !! name)) ≠ UnschedulableAndUnresolvable
    ∧ getNodeName n' = name ∧ found pf pod n' c.
Proof.
  unfold runPreemption, no_result. destruct (preparePod _ _ clonePod) as [pod|] eqn:Ep; [|done].
  unfold preparePod in Ep. destruct (podLister _ _) as [p|] eqn:El; [|done]. cbn [mbind option_bind] in Ep.
  destruct (PodEligibleToPreemptOthers pcLister p) eqn:Ee; [|done]. injection Ep as ->.
  destruct (prepareNodes nodeSet m) as [nodes|] eqn:En; [|done]. unfold FindCandidates.
  destruct (RunPreFilterPlugins cs pod) as [cs0 st]. destruct (IsSuccess st); [|done]. cbn [negb].
  destruct (RunClusterPrePreemptingPlugins h pod cs0 common) as [[pdb cs1] common1].
  destruct (best (pf_of pdb) cs1 pod nodes) as [[[cs2 nodes2] l]|] eqn:Eb; [|done]. cbn [mbind option_bind].
  destruct l as [|c0 l0] eqn:Hl; [done|]. rw -Hl in Eb |- *. unfold SelectCandidate, select_checked. cbn [negb].
  destruct (selectCandidate _ cnn) as [[c cnn1]|] eqn:Es; [|done]. cbn [mbind option_bind].
  destruct (cd_Name c ≟ ""); [done|]. destruct (RunNodePostPreemptingPlugins _ _) as [common2|]; [|done]. cbn [mbind option_bind].
  intros [= _ _ _ <- <-]. apply selectCandidate_head in Es as [rest Hsort]. unfold RunCandidatesSortingPlugins in Hsort.
  pose proof (SliceStable_perm prefer l) as Hperm. pose proof (SliceStable_ranked prefer l) as Hrank. rw Hsort in Hperm, Hrank.
  assert (c ∈ l) as Hc by (rw -Hperm; by left).
  destruct (bestPreemption_found _ _ _ _ _ _ _ _ _ _ _ _ Eb) as [_ Hall]. destruct (Hall c Hc) as (n & n' & Hn & Hname & Hname'%admitted_name & Hf%found_from_on).
  apply (prepareNodes_spec _ _ _ _ En) in Hn as [Hn Hcode]. rw -Hname in Hcode, Hname'.
  exists pod, (pf_of pdb), nodes, cs1, cs2, nodes2, l, c, n, n'. split_and!; try done.
  intros c' Hc'. apply (ranked_head prefer c rest Hrank). by rw Hperm.
Qed.

(** ** The cached candidates *)

Definition cached (cnn : CNN) : list Candidate := (option_list (GetUsedNominatedNode cnn) ++ GetUnusedNominatedNodes cnn)%list.
(** Distinct nodes, sorted, no more than the pods that are left. *)
Record cnn_ok (cnn : CNN) : Prop := {
  ok_ranked : ranked prefer (cached cnn);
  ok_names : NoDup (cd_Name <$> cached cnn);
  ok_used : GetUsedNominatedNode cnn = None → GetUnusedNominatedNodes cnn = [];
  ok_count : (Z.of_nat (length (GetUnusedNominatedNodes cnn)) <= GetPodCount cnn)%Z
}.

Lemma selectCandidate_ok l cnn c cnn' : ranked prefer l → NoDup (cd_Name <$> l) → selectCandidate l cnn = Some (c, cnn') →
  cnn_ok cnn' ∧ (∀ c', c' ∈ GetUnusedNominatedNodes cnn' → prefer c' c = false ∧ c' ∈ l) ∧ GetPodCount cnn' = GetPodCount (RemoveOnePod cnn).
Proof.
  intros HR HN. destruct l as [|x rest]; [done|]. cbn [selectCandidate]. destruct cnn as [k|].
  - assert (∃ k', RemoveOnePod (Some k) = Some k') as [k' ->] by (simpl; eauto).
    destruct (GetPodCount (Some k') <? 0)%Z eqn:Ec; [done|]. intros [= -> <-]. apply Z.ltb_ge in Ec.
    set (t := take _ rest). assert (sublist (c :: t) (c :: rest)) as Hsub by (constructor; apply sublist_take).
    destruct (length t ≟ 0%nat) eqn:El; cbn [negb].
    + split; [|split; [intros c' Hc'; by apply elem_of_nil in Hc'|done]]. split; [by constructor|constructor|done|done].
    + split; [split|split; [|done]].
      * exact (ranked_sublist prefer _ _ Hsub HR).
      * eapply sublist_NoDup; [exact HN|]. change (cached _) with (c :: t). clear -Hsub. induction Hsub; simpl; by constructor.
      * done.
      * simpl. unfold t. rw length_take. simpl in Ec. lia.
      * intros c' Hc'. simpl in Hc'. assert (c' ∈ c :: rest) as Hin by (right; eapply elem_of_submseteq; [exact Hc'|apply sublist_submseteq, sublist_take]).
        split; [|done]. by apply (ranked_head prefer c rest).
  - intros [= -> <-]. split; [|split; [intros c' Hc'; by apply elem_of_nil in Hc'|done]]. split; [constructor|constructor|done|done].
Qed.

Abbreviation again := (preemptOnNode cf jsonLabels pls jsonVictims preemptors GetNodeInfo).
Abbreviation later := (searched cf jsonLabels pls jsonVictims preemptors).
Abbreviation found_since := (found_from cf jsonLabels pls jsonVictims preemptors).
(** [c] comes from a new search on its node, after [cs0]. *)
Definition fresh pf pod cs0 c : Prop := ∃ cs cs', later pf pod cs0 cs ∧ again pf cs pod (cd_Name c) = Some (cs', Some c).

Lemma again_fresh pf cs0 cs pod name cs' oc : later pf pod cs0 cs → again pf cs pod name = Some (cs', oc) →
  later pf pod cs0 cs' ∧ ∀ c, oc = Some c → cd_Name c = name ∧ fresh pf pod cs0 c.
Proof.
  intros Hs H. assert (later pf pod cs cs' ∧ ∀ c, oc = Some c → cd_Name c = name) as [Hl Hn].
  { revert H. unfold preemptOnNode. destruct (name ≟ ""); [intros [= <- <-]; split; [apply rtc_refl|done]|].
    destruct (GetNodeInfo name) as [n|]; [|done]. cbn [mbind option_bind].
    destruct (selectVictimsOnNode _ _ _ _ _ _ _ _ _ n) as [[[cs1 ps] [pods fits]]|] eqn:E; [|done]. cbn [mbind option_bind].
    intros [= <- <-]. split; [apply rtc_once; by exists n, ps, (pods, fits)|]. destruct fits; [|done]. by intros c [= <-]. }
  split; [by etrans|]. intros c ->. pose proof (Hn c eq_refl) as En. split; [done|]. exists cs, cs'. by rw En.
Qed.
Lemma fresh_found pf pod cs0 c : fresh pf pod cs0 c → ∃ n, GetNodeInfo (cd_Name c) = Some n ∧ found_since pf pod cs0 n c.
Proof.
  intros (cs & cs' & Hs & H). revert H. unfold preemptOnNode. destruct (_ ≟ ""); [done|]. destruct (GetNodeInfo _) as [n|]; [|done]. cbn [mbind option_bind].
  destruct (selectVictimsOnNode _ _ _ _ _ _ _ _ _ n) as [[[cs1 ps] [pods fits]]|] eqn:E; [|done]. cbn [mbind option_bind].
  destruct fits; [|done]. intros [= <- <-]. exists n. split; [done|]. by exists cs, cs1, ps.
Qed.

Lemma insert_perm c l : insert_candidate sortings c l ≡ₚ c :: l.
Proof. induction l as [|y l IH]; simpl; [done|]. destruct (negb _); [done|]. rw IH. apply Permutation_swap. Qed.
Lemma insert_ranked c l : ranked prefer l → ranked prefer (insert_candidate sortings c l).
Proof.
  induction 1 as [|y l HS IH Hall]; simpl; [by repeat constructor|]. destruct (prefer y c) eqn:E; cbn [negb].
  - constructor; [done|]. rw insert_perm. constructor; [by apply wo_asym|done].
  - constructor; [by constructor|]. constructor; [done|]. eapply Forall_impl; [exact Hall|]. intros z Hz. simpl in *.
    eapply not_less_trans; [apply _|exact E|exact Hz].
Qed.

(** Sorted candidates on distinct nodes. *)
Record listed (l : list Candidate) : Prop := { li_ranked : ranked prefer l; li_names : NoDup (cd_Name <$> l) }.
Lemma sublist_names (l l' : list Candidate) : sublist l l' → sublist (cd_Name <$> l) (cd_Name <$> l').
Proof. induction 1; simpl; by constructor. Qed.
Lemma listed_sublist l l' : sublist l l' → listed l' → listed l.
Proof. intros Hs [HR HN]. split; [by eapply ranked_sublist|]. eapply sublist_NoDup; [exact HN|by apply sublist_names]. Qed.
Lemma listed_insert c l : listed l → cd_Name c ∉ (cd_Name <$> l) → listed (insert_candidate sortings c l).
Proof. intros [HR HN] Hc. split; [by apply insert_ranked|]. rw insert_perm. simpl. by constructor. Qed.
Lemma sublist_removelast {A} (l : list A) : sublist (removelast l) l.
Proof.
  destruct (decide (l = [])) as [->|Hl]; [constructor|]. destruct l as [|x l] using rev_ind; [done|].
  rw removelast_last. rw -{1}(app_nil_r l). apply sublist_app; [done|apply sublist_nil_l].
Qed.
Lemma drop_sublist c l : sublist (drop_if_last c l) l.
Proof. unfold drop_if_last. destruct (_ ≟ _); [apply sublist_removelast|done]. Qed.

Lemma head_named c l l0 : NoDup (cd_Name <$> l) → l ≡ₚ c :: l0 → (cd_Name <$> head l) = Some (cd_Name c) → ∃ rest, l = c :: rest.
Proof.
  intros HN HP Hh. destruct l as [|x rest]; [done|]. simpl in Hh. injection Hh as Hx. exists rest. f_equal.
  assert (c ∈ x :: rest) as [->|Hc]%elem_of_cons by (rw HP; by left); [done|]. simpl in HN. apply NoDup_cons in HN as [Hno _]. exfalso. apply Hno.
  rw Hx. by apply list_elem_of_fmap_2.
Qed.

Lemma first_preemptable_spec pf pod cs0 l : ∀ cs cs' l', listed l → later pf pod cs0 cs →
  first_preemptable cf jsonLabels pls jsonVictims preemptors GetNodeInfo pf cs pod l = Some (cs', Some l') →
  later pf pod cs0 cs' ∧ ∃ c rest, l' = c :: rest ∧ fresh pf pod cs0 c ∧ listed rest ∧ cd_Name c ∉ (cd_Name <$> rest).
Proof.
  induction l as [|x l IH]; intros cs cs' l' Hl Hs; simpl; [done|].
  destruct (again pf cs pod (cd_Name x)) as [[cs1 oc]|] eqn:E; [|done]. cbn [mbind option_bind]. apply (again_fresh _ cs0) in E as [Hs1 Hf]; [|done].
  assert (listed l) as Hl' by (eapply listed_sublist; [|exact Hl]; by constructor).
  destruct oc as [c|]; [|by apply IH]. intros [= <- <-]. destruct (Hf c eq_refl) as [Hn Hfr]. split; [done|]. exists c, l. split_and!; [done..|].
  destruct Hl as [_ HN]. simpl in HN. apply NoDup_cons in HN as [Hno _]. by rw Hn.
Qed.

Lemma cached_loop_spec pf pod cs0 lastC time : ∀ cs l cs' l', listed l → later pf pod cs0 cs →
  cached_loop cf jsonLabels pls jsonVictims preemptors GetNodeInfo sortings pf pod lastC time cs l = Some (cs', Some l') →
  ∃ c rest, l' = c :: rest ∧ fresh pf pod cs0 c ∧ listed l'.
Proof.
  induction time as [|time IH]; intros cs l cs' l' Hl Hs; [done|]. destruct l as [|c0 [|c1 l0]]; [done| |].
  - cbn [cached_loop]. destruct (again pf cs pod (cd_Name c0)) as [[cs1 [c|]]|] eqn:E; [|done|done]. cbn [mbind option_bind].
    apply (again_fresh _ cs0) in E as [_ [_ Hf]%(λ H, H c eq_refl)]; [|done].
    destruct (RunCandidatesSortingPlugins sortings [lastC] (Some c)) as [|x r]; [done|]. cbn [head take].
    destruct (bool_decide_reflect (Some x = Some c)) as [Hh|]; [|done]. injection Hh as ->. intros [= <- <-].
    exists c, []. split_and!; [done..|]. split; repeat constructor; set_solver.
  - cbn [cached_loop].
    destruct (first_preemptable _ _ _ _ _ _ pf cs pod (c0 :: c1 :: l0)) as [[cs1 [found|]]|] eqn:E; [|done|done]. cbn [mbind option_bind].
    apply (first_preemptable_spec _ _ cs0) in E as (Hs1 & c & rest & -> & Hf & Hr & Hno); [|done..]. destruct rest as [|c2 rest0].
    + intros E. eapply IH; [|exact Hs1|exact E]. split; repeat constructor; set_solver.
    + remember (c2 :: rest0) as rest eqn:Er0. unfold RunCandidatesSortingPlugins. pose proof (listed_insert c rest Hr Hno) as Hs2.
      destruct (bool_decide_reflect ((cd_Name <$> head (insert_candidate sortings c rest)) = Some (cd_Name c))) as [Hh|_].
      * intros [= <- <-]. destruct (head_named c _ rest (li_names _ Hs2) (insert_perm c rest) Hh) as [r Er]. exists c, r. by rw Er in Hs2 |- *.
      * intros E. eapply IH; [|exact Hs1|exact E]. eapply listed_sublist; [apply drop_sublist|done].
Qed.

Lemma cnn_ok_reset cnn : cnn_ok cnn → cnn_ok (SetUnusedNominatedNodes [] (SetUsedNominatedNode None cnn)).
Proof. intros [_ _ _ Hc]. destruct cnn as [k|]; (split; [constructor|constructor|done|]); simpl in *; lia. Qed.

(** What is chosen: sorted before the candidates that are kept. *)
Definition chosen (c : Candidate) (cnn : CNN) : Prop := ∀ c', c' ∈ GetUnusedNominatedNodes cnn → prefer c' c = false.

Lemma select_checked_ok l cs cnn cs' oc cnn' : listed l → select_checked l cs cnn = Some (cs', oc, cnn') →
  cnn_ok cnn' ∧ ∃ c rest, oc = Some c ∧ l = c :: rest ∧ chosen c cnn'.
Proof.
  intros [HR HN]. unfold select_checked. destruct (selectCandidate l cnn) as [[c cnn1]|] eqn:E; [|done]. cbn [mbind option_bind].
  intros [= <- <- <-]. destruct (selectCandidate_ok _ _ _ _ HR HN E) as (Hok & Hch & _). split; [done|].
  destruct (selectCandidate_head _ _ _ _ E) as [rest ->]. exists c, rest. split_and!; [done..|]. intros c' Hc'. by apply Hch.
Qed.

Abbreviation Select := (SelectCandidate cf jsonLabels pls jsonVictims preemptors GetNodeInfo sortings).

Lemma select_first pf cs pod l cnn cs' oc cnn' : NoDup (cd_Name <$> l) → Select pf cs pod l None cnn false = Some (cs', oc, cnn') →
  cnn_ok cnn' ∧ ∃ c, oc = Some c ∧ c ∈ l ∧ chosen c cnn'.
Proof.
  intros HN. unfold SelectCandidate. cbn [negb RunCandidatesSortingPlugins]. pose proof (SliceStable_perm prefer l) as Hperm. intros E.
  apply select_checked_ok in E as (Hok & c & rest & -> & Hl & Hch).
  - split; [done|]. exists c. split_and!; [done| |done]. rw -Hperm Hl. by left.
  - split; [exact (SliceStable_ranked prefer l)|]. change (NoDup (cd_Name <$> SliceStable prefer l)); by rw Hperm.
Qed.

Lemma select_again pf cs0 cs pod cnn used cs' oc cnn' : cnn_ok cnn → later pf pod cs0 cs →
  (∀ c, used = Some c → fresh pf pod cs0 c ∧ cd_Name c ∉ (cd_Name <$> GetUnusedNominatedNodes cnn)) →
  Select pf cs pod (GetUnusedNominatedNodes cnn) used cnn true = Some (cs', oc, cnn') →
  cnn_ok cnn' ∧ ∀ c, oc = Some c → fresh pf pod cs0 c ∧ chosen c cnn'.
Proof.
  intros Hok Hs0 Hused. assert (listed (GetUnusedNominatedNodes cnn)) as Hl.
  { apply (listed_sublist _ (cached cnn)); [|by destruct Hok]. unfold cached. by apply sublist_inserts_l. }
  unfold SelectCandidate. cbn [negb].
  assert (∀ l, listed l → select_cached cf jsonLabels pls jsonVictims preemptors GetNodeInfo sortings pf cs pod l cnn = Some (cs', oc, cnn') →
    cnn_ok cnn' ∧ ∀ c, oc = Some c → fresh pf pod cs0 c ∧ chosen c cnn') as Hloop.
  { intros l HL. unfold select_cached. destruct (last l) as [lastC|]; [|done]. cbn [mbind option_bind].
    destruct (cached_loop _ _ _ _ _ _ _ pf pod lastC _ cs l) as [[cs1 [l1|]]|] eqn:E; [|by intros [= <- <- <-]; split; [by apply cnn_ok_reset|]|done].
    cbn [mbind option_bind]. apply (cached_loop_spec _ _ cs0) in E as (c & rest & -> & Hf & HL1); [|done..]. intros E.
    apply select_checked_ok in E as (Hok' & c' & rest' & -> & [= -> ->] & Hch); [|done]. split; [done|]. by intros ? [= ->]. }
  destruct used as [c|]; [|by apply Hloop]. destruct (Hused c eq_refl) as [Hf Hno].
  pose proof (listed_insert c _ Hl Hno) as Hs. cbn [RunCandidatesSortingPlugins].
  destruct (bool_decide_reflect ((cd_Name <$> head (insert_candidate sortings c (GetUnusedNominatedNodes cnn))) = Some (cd_Name c))) as [Hh|_].
  - intros E. destruct (head_named c _ _ (li_names _ Hs) (insert_perm c _) Hh) as [r Er]. rw Er in Hs, E.
    apply select_checked_ok in E as (Hok' & c' & rest' & -> & [= -> ->] & Hch); [|done]. split; [done|]. by intros ? [= ->].
  - apply Hloop. eapply listed_sublist; [apply drop_sublist|done].
Qed.

Context (policy : CandidateSelectPolicy) (Hpolicy : policy ≠ PolicyBetter).
Abbreviation run_policy := (runPreemption cf jsonLabels pls jsonVictims preemptors GetNodeInfo sortings pcLister podLister
  RunPreFilterPlugins h pf_of better policy).
Abbreviation Circles := (PreemptInNodeCircles cf jsonLabels pls jsonVictims preemptors GetNodeInfo sortings pcLister podLister
  RunPreFilterPlugins h pf_of better policy).
Abbreviation result := (option (string * list Pod)).

(** The budgets, the plugins and the cycle state with which a round searches. *)
Definition starts cs common pod pf cs0 : Prop := ∃ cs1 st pdb common',
  RunPreFilterPlugins cs pod = (cs1, st) ∧ IsSuccess st = true ∧
  RunClusterPrePreemptingPlugins h pod cs1 common = (pdb, cs0, common') ∧ pf = pf_of pdb.

(** The result for [pod] is what a search of this call finds on a node with that
    name: on the node of the snapshot, for a cached candidate; *)
Definition from_cache cs common pod cnn' (name : string) (victims : list Pod) : Prop := ∃ c pf cs0 n,
  name = cd_Name c ∧ victims = victim_pods c ∧ chosen c cnn' ∧ starts cs common pod pf cs0 ∧
  GetNodeInfo name = Some n ∧ found_since pf pod cs0 n c.
(** on a node of the circle, for a new one, with the pod read again. *)
Definition from_circle (nodes : list (option NodeInfo)) cs common pod cnn' (name : string) (victims : list Pod) : Prop := ∃ p c pf cs0 n n',
  name = cd_Name c ∧ victims = victim_pods c ∧ chosen c cnn' ∧ preparePod pcLister podLister pod = Some p ∧ starts cs common p pf cs0 ∧
  Some n ∈ nodes ∧ getNodeName n = name ∧ admitted cf p n n' ∧ found_since pf p cs0 n' c.

Lemma run_policy_ok cs common pod nodeSet m cnn cs' common' cnn' r : NoDup (node_names nodeSet) → cnn_ok cnn →
  run_policy cs common pod nodeSet m cnn = Some (cs', common', cnn', r) →
  cnn_ok cnn' ∧ ∀ name victims, r = Some (name, victims) → from_circle nodeSet cs common pod cnn' name victims.
Proof.
  intros HN Hok. unfold runPreemption, no_result. destruct (preparePod _ _ pod) as [p|] eqn:Ep; [|by intros [= _ _ <- <-]].
  destruct (prepareNodes nodeSet m) as [nodes|] eqn:En; [|by intros [= _ _ <- <-]].
  destruct (FindCandidates _ _ _ _ _ _ _ _ _ policy cs common p nodes cnn) as [[[[[[cs1 common1] pf] nodes1] cnn1] ol]|] eqn:Ef; [|done].
  cbn [mbind option_bind].
  assert (cnn1 = cnn ∧ ∀ l, ol = Some l → ∃ cs0, starts cs common p pf cs0 ∧ all_found cf jsonLabels pls jsonVictims preemptors pf p cs0 nodes l) as [-> Hfound].
  { revert Ef. unfold FindCandidates, starts. destruct (RunPreFilterPlugins cs p) as [cs0 st] eqn:Epre. destruct (IsSuccess st) eqn:Est; cbn [negb]; [|by intros [= _ _ _ _ <- <-]].
    destruct (RunClusterPrePreemptingPlugins h p cs0 common) as [[pdb cs2] common2] eqn:Erun. destruct policy; [| done |].
    - destruct (best (pf_of pdb) cs2 p nodes) as [[[cs3 nodes3] l]|] eqn:Eb; [|done]. cbn [mbind option_bind].
      intros [= _ _ <- _ <- <-]. split; [done|]. intros ? [= <-]. exists cs2. split; [by exists cs0, st, pdb, common2|by eapply bestPreemption_found].
    - destruct (randomPreemption _ _ _ _ _ (pf_of pdb) cs2 p _ _ nodes) as [[[cs3 nodes3] l]|] eqn:Eb; [|done]. cbn [mbind option_bind].
      intros [= _ _ <- _ <- <-]. split; [done|]. intros ? [= <-]. exists cs2. split; [by exists cs0, st, pdb, common2|by eapply randomPreemption_found]. }
  destruct ol as [[|c0 l0]|]; [by intros [= _ _ <- <-]| |by intros [= _ _ <- <-]].
  destruct (Hfound _ eq_refl) as (cs0 & Hstart & Hsub & Hall). pose proof (prepareNodes_names _ _ _ En) as Hsub'.
  assert (NoDup (cd_Name <$> (c0 :: l0))) as HNl by (eapply sublist_NoDup; [exact HN|by etrans]).
  destruct (Select pf cs1 p (c0 :: l0) None cnn false) as [[[cs2 oc] cnn2]|] eqn:Es; [|done]. cbn [mbind option_bind].
  apply select_first in Es as (Hok2 & c & -> & Hc & Hch); [|done].
  destruct (cd_Name c ≟ ""); [by intros [= _ _ <- <-]|].
  destruct (RunNodePostPreemptingPlugins _ _) as [common2|]; [|done]. cbn [mbind option_bind]. intros [= _ _ <- <-]. split; [done|].
  intros name victims [= <- <-]. destruct (Hall c Hc) as (n & n' & Hn & Hname & Hadm & Hf).
  apply (prepareNodes_spec _ _ _ _ En) in Hn as [Hn _]. exists p, c, pf, cs0, n, n'. by split_and!.
Qed.

Abbreviation from_cached := (PreemptBasedOnCachedNominatedNodes cf jsonLabels pls jsonVictims preemptors GetNodeInfo sortings RunPreFilterPlugins h pf_of policy).
Lemma cached_ok cs common pod cnn cs' common' cnn' r : cnn_ok cnn →
  from_cached cs common pod cnn = Some (cs', common', cnn', r) →
  cnn_ok cnn' ∧ ∀ name victims, r = Some (name, victims) → from_cache cs common pod cnn' name victims.
Proof.
  intros Hok. unfold PreemptBasedOnCachedNominatedNodes, no_result, from_cache, starts.
  destruct (cnn_IsEmpty cnn); [by intros [= _ _ <- <-]|].
  destruct (match policy with PolicyRandom => false | _ => _ end); [by intros [= _ _ <- <-]|].
  destruct (RunPreFilterPlugins cs pod) as [cs0 st] eqn:Epre. destruct (IsSuccess st) eqn:Est; cbn [negb]; [|by intros [= _ _ <- <-]].
  destruct (RunClusterPrePreemptingPlugins h pod cs0 common) as [[pdb cs1] common1] eqn:Erun.
  set (again_used := match GetUsedNominatedNode cnn with Some _ => _ | None => _ end).
  destruct again_used as [[cs2 used]|] eqn:Eu; [|done]. cbn [mbind option_bind].
  assert (later (pf_of pdb) pod cs1 cs2 ∧ ∀ c, used = Some c → fresh (pf_of pdb) pod cs1 c ∧ cd_Name c ∉ (cd_Name <$> GetUnusedNominatedNodes cnn)) as [Hs Hused].
  { unfold again_used in Eu. destruct (GetUsedNominatedNode cnn) as [u|] eqn:Eg; [|injection Eu as <- <-; split; [apply rtc_refl|done]].
    apply (again_fresh _ cs1) in Eu as [Hs Hf]; [|apply rtc_refl]. split; [done|]. intros c ->. destruct (Hf c eq_refl) as [Hn Hfr]. split; [done|]. rw Hn.
    destruct Hok as [_ HN _ _]. unfold cached in HN. rw Eg in HN. simpl in HN. by apply NoDup_cons in HN as [? _]. }
  destruct (Select (pf_of pdb) cs2 pod _ used cnn true) as [[[cs3 oc] cnn1]|] eqn:Es; [|done]. cbn [mbind option_bind].
  apply (select_again _ cs1) in Es as [Hok1 Hc]; [|done..].
  destruct oc as [c|]; [|by intros [= _ _ <- <-]]. destruct (Hc c eq_refl) as [Hf Hch].
  destruct (RunNodePostPreemptingPlugins _ _) as [common2|]; [|done]. cbn [mbind option_bind]. intros [= _ _ <- <-]. split; [done|].
  intros name victims [= <- <-]. apply fresh_found in Hf as (n & Hn & Hf). exists c, (pf_of pdb), cs1, n. split_and!; try done. by exists cs0, st, pdb, common1.
Qed.

Abbreviation in_circles := (circles_loop cf jsonLabels pls jsonVictims preemptors GetNodeInfo sortings pcLister podLister RunPreFilterPlugins h pf_of better policy).
(** A result of the circles comes from one of them, from the state that the circles
    before it left. *)
Definition from_circles circles m cs common pod cnn cnn' (name : string) (victims : list Pod) : Prop := ∃ pre nodes post cs1 common1 cnn1,
  circles = (pre ++ nodes :: post)%list ∧ in_circles cs common pod pre m cnn = Some (cs1, common1, cnn1, None) ∧
  from_circle nodes cs1 common1 pod cnn' name victims.

Lemma circles_ok circles m pod : Forall (λ nodes, NoDup (node_names nodes)) circles → ∀ cs common cnn cs' common' cnn' r, cnn_ok cnn →
  in_circles cs common pod circles m cnn = Some (cs', common', cnn', r) →
  cnn_ok cnn' ∧ ∀ name victims, r = Some (name, victims) → from_circles circles m cs common pod cnn cnn' name victims.
Proof.
  induction 1 as [|nodes circles HNn HN IH]; intros cs common cnn cs' common' cnn' r Hok; cbn [circles_loop]; [by intros [= _ _ <- <-]|].
  destruct (run_policy cs common pod nodes m cnn) as [[[[cs2 common2] cnn2] r2]|] eqn:E; [|done]. cbn [mbind option_bind].
  pose proof (run_policy_ok _ _ _ _ _ _ _ _ _ _ HNn Hok E) as [Hok2 Hs2]. destruct r2 as [r2|].
  - intros [= _ _ <- <-]. split; [done|]. intros name victims Hr. exists [], nodes, circles, cs, common, cnn. split_and!; [done|done|by apply Hs2].
  - intros E'. destruct (IH _ _ _ _ _ _ _ Hok2 E') as [? HS]. split; [done|]. intros name victims Hr.
    destruct (HS name victims Hr) as (pre & nodes' & post & cs3 & common3 & cnn3 & -> & El & Hf).
    exists (nodes :: pre), nodes', post, cs3, common3, cnn3. split_and!; [done| |done]. cbn [circles_loop]. rw E. exact El.
Qed.

(** C8: While the pods of a unit preempt one after the other, with the policies Best
    and Random (not Better), the cached candidates stay sorted, on distinct nodes, and
    no more than the pods that are left; the names of the nodes of a circle have to be
    distinct.  A cached candidate is never used as it is: the victims of a result are
    what a search of this very call finds, for this pod and with the plugins, budgets
    and cycle state of the call, on the node of the snapshot with that name (cached
    candidates), or else on a node of a circle that none of the circles before it
    helped (new ones); and no candidate that is kept is preferred. *)
Theorem cached_candidates_sound cs common pod circles m cnn cs' common' cnn' r :
  cnn_ok cnn → Forall (λ nodes, NoDup (node_names nodes)) circles →
  Circles cs common pod circles m cnn = Some (cs', common', cnn', r) →
  cnn_ok cnn' ∧ ∀ name victims, r = Some (name, victims) →
    (from_cached cs common pod cnn = Some (cs', common', cnn', r) ∧ from_cache cs common pod cnn' name victims) ∨
    (∃ cs1 common1 cnn1 r1, from_cached cs common pod cnn = Some (cs1, common1, cnn1, r1) ∧ (∀ name1 v, r1 = Some (name1, v) → name1 = "") ∧
       from_circles circles m cs1 common1 pod cnn1 cnn' name victims).
Proof.
  intros Hok HN. unfold PreemptInNodeCircles.
  destruct (from_cached cs common pod cnn) as [[[[cs1 common1] cnn1] r1]|] eqn:E; [|done].
  cbn [mbind option_bind]. pose proof (cached_ok _ _ _ _ _ _ _ _ Hok E) as [Hok1 Hs1].
  destruct (match r1 with Some _ => _ | None => _ end) eqn:Er.
  - intros [= <- <- <- <-]. split; [done|]. intros name victims Hr. left. split; [done|by apply Hs1].
  - intros E'. destruct (circles_ok _ _ _ HN _ _ _ _ _ _ _ Hok1 E') as [Hok2 Hs2]. split; [done|]. intros name victims Hr. right.
    exists cs1, common1, cnn1, r1. split_and!; [done| |by apply Hs2]. intros name1 v ->. by apply negb_false_iff, bool_decide_eq_true in Er.
Qed.
End chosen.

(** ** Examples *)

Module CandidateExamples.
Import FilterExamples VictimExamples PreemptExamples.

Definition node_other : Node :=
  {| node_Name := "other"; node_Labels := ∅; node_Annotations := ∅; node_Unschedulable := false; node_Taints := [];
     node_Conditions := []; node_Images := []; node_Allocatable := node_Allocatable node0; node_Capacity := ∅ |}.
Definition n_other : NodeInfo := default n0 (node_AddPod cf0 (victim_pod "ns" "c" ∅ 4 600) (node_SetNode cf0 node_other n_new)).
Definition both : list (option NodeInfo) := [Some n_other; None; Some n_two].
Definition node_of (name : string) : option NodeInfo := if name ≟ "other" then Some n_other else Some n_two.
Definition two_pods : CNN := SetPodCount 2 (Some NewCachedNominatedNodes).
Abbreviation unit_run := (runPreemption cf0 (λ _, ∅) filters (λ _, None) (λ _ _, []) node_of (baseSortings 0) (λ _, None) (λ _ _, Some wants)
  (λ cs p, (Fit_PreFilter cf0 cs p, None)) NewPdbStore (base_pf labels_text (λ _, None) 0 0 NewPdbStore) (λ _ cs _ nodes cnn, Some (cs, nodes, cnn, None))
  PolicyBest).
Abbreviation unit_circles := (PreemptInNodeCircles cf0 (λ _, ∅) filters (λ _, None) (λ _ _, []) node_of (baseSortings 0) (λ _, None) (λ _ _, Some wants)
  (λ cs p, (Fit_PreFilter cf0 cs p, None)) NewPdbStore (base_pf labels_text (λ _, None) 0 0 NewPdbStore) (λ _ cs _ nodes cnn, Some (cs, nodes, cnn, None))
  PolicyBest).

(** The victim on the one node has priority 3, on the other node priority 4. *)
Lemma best_candidate_witness : ∃ pf (l : list Candidate) c n',
  c ∈ l ∧ (∀ c', c' ∈ l → compareNominatedNodes (baseSortings 0) c' c = false) ∧ victim_pods c = [pod_a] ∧ getNodeName n' = "node"
  ∧ found_on cf0 (λ _, ∅) filters (λ _, None) (λ _ _, []) pf wants n' c.
Proof.
  assert (∃ cs' common' cnn', unit_run (cs_of wants) None wants both ∅ two_pods = Some (cs', common', cnn', Some ("node", [pod_a])))
    as (cs' & common' & cnn' & E) by (eexists _, _, _; vm_compute; reflexivity).
  apply best_candidate in E as (pod & pf & nodes & cs1 & cs2 & nodes2 & l & c & n & n' & Hpod & _ & _ & _ & Hc & _ & Hv & Hbest & _ & _ & _ & Hn' & Hf);
    [|apply base_keyed].
  injection Hpod as <-. exists pf, l, c, n'. split_and!; [exact Hc|exact Hbest|by symmetry|exact Hn'|exact Hf].
Defined.

(** A candidate is kept for the second pod of the unit. *)
Lemma cached_candidates_sound_witness : ∃ cs' common' cnn' c,
  unit_circles (cs_of wants) None wants [both] ∅ two_pods = Some (cs', common', cnn', Some ("node", [pod_a]))
  ∧ cnn_ok (baseSortings 0) cnn' ∧ GetUnusedNominatedNodes cnn' = [c] ∧ cd_Name c = "other".
Proof.
  assert (∃ cs' common' cnn' c, unit_circles (cs_of wants) None wants [both] ∅ two_pods = Some (cs', common', cnn', Some ("node", [pod_a]))
    ∧ GetUnusedNominatedNodes cnn' = [c] ∧ cd_Name c = "other")
    as (cs' & common' & cnn' & c & E & Hu & Hc) by (eexists _, _, _, _; vm_compute; split_and!; reflexivity).
  exists cs', common', cnn', c. split_and!; [exact E| |exact Hu|exact Hc].
  apply cached_candidates_sound in E as [Hok _]; [exact Hok|apply base_keyed|done| |].
  - split; [constructor|constructor|done|done].
  - constructor; [|constructor]. apply (bool_decide_eq_true_1 (NoDup (node_names both))). vm_compute. reflexivity.
Defined.
End CandidateExamples.
