(* ===== verification/IsolatedCache.v ===== *)
(** * Results kept between scheduling cycles (pkg/scheduler/cache/isolatedcache)

    [isolatedCache] remembers, for the owner of a pod, the runners up of the last
    placement (pod_owner_cache.go) and, for a deployment, the preemption policy that
    worked (preemption_policy_cache.go).  Entries expire; expired entries are dropped
    when the cache is used, at most once per interval.  Times are in nanoseconds;
    each operation takes the clock as an argument.

    [cache_fresh] bounds the age of an entry that is served. *)
From S2P Require Import Prelude GoStrings.

Local Open Scope godel_scope.
Local Open Scope string_scope.

Definition minute : Z := 60 * 10 ^ 9.
Definition hour : Z := 60 * minute.
Definition defaultNodeCacheCleanupInterval : Z := 2 * minute.
Definition defaultNodeCacheExpirationDuration : Z := 3 * minute.
Definition defaultPreemptionPoliciesCleanupInterval : Z := 24 * hour.
Definition defaultPreemptionPoliciesExpirationDuration : Z := 24 * hour.

Record nodeTmpInfo := mkTmp { settingTime : Z; nodeGroup : string }.
(** The slice gives the order; nodes that were deleted stay in it. *)
Record podOwnerCachedNodes := mkOwnerNodes { nodeMap : gmap string nodeTmpInfo; nodeSlice : list string }.
Definition newPodOwnerCachedNodes : podOwnerCachedNodes := mkOwnerNodes ∅ [].
Record preemptionPolicyItem := mkPolicyItem { policyName : string; policySettingTime : Z }.

Record isolatedCache := mkIsolated {
  cachedNodesForPodOwner : gmap string podOwnerCachedNodes;
  latestCleanupTimestamp : Z;
  cachedPreemptionPoliciesForPodOwner : gmap string preemptionPolicyItem;
  latestPreemptionPoliesCleanupTimestamp : Z
}.
Definition NewIsolatedCache (now : Z) : isolatedCache := mkIsolated ∅ now ∅ now.

Definition set_nodes (m : gmap string podOwnerCachedNodes) (c : isolatedCache) : isolatedCache :=
  mkIsolated m (latestCleanupTimestamp c) (cachedPreemptionPoliciesForPodOwner c) (latestPreemptionPoliesCleanupTimestamp c).
Definition set_policies (m : gmap string preemptionPolicyItem) (c : isolatedCache) : isolatedCache :=
  mkIsolated (cachedNodesForPodOwner c) (latestCleanupTimestamp c) m (latestPreemptionPoliesCleanupTimestamp c).

(** ** Nodes of a pod owner *)

Definition add_cached (now : Z) (group : string) (o : podOwnerCachedNodes) (nodeName : string) : podOwnerCachedNodes :=
  mkOwnerNodes (<[nodeName := mkTmp now group]> (nodeMap o)) (nodeSlice o ++ [nodeName])%list.

Definition CacheNodeForPodOwner (now : Z) (podOwner nodeName group : string) (c : isolatedCache) : isolatedCache :=
  let o := default newPodOwnerCachedNodes (cachedNodesForPodOwner c !! podOwner) in
  set_nodes (<[podOwner := add_cached now group o nodeName]> (cachedNodesForPodOwner c)) c.

(** The names come in ascending order of score and are stored in descending order. *)
Definition CacheAscendingOrderNodesForPodOwner (now : Z) (podOwner group : string) (nodeNames : list string) (c : isolatedCache) : isolatedCache :=
  let o := default newPodOwnerCachedNodes (cachedNodesForPodOwner c !! podOwner) in
  set_nodes (<[podOwner := foldl (add_cached now group) o (rev nodeNames)]> (cachedNodesForPodOwner c)) c.

Definition IsNodeInCachedMap (podOwner nodeName : string) (c : isolatedCache) : bool * string :=
  match cachedNodesForPodOwner c !! podOwner with
  | None => (false, "")
  | Some o => match nodeMap o !! nodeName with None => (false, "") | Some i => (true, nodeGroup i) end
  end.
Definition GetOrderedNodesForPodOwner (podOwner : string) (c : isolatedCache) : list string :=
  match cachedNodesForPodOwner c !! podOwner with None => [] | Some o => nodeSlice o end.

Definition DeleteNodeForPodOwner (podOwner nodeName : string) (c : isolatedCache) : isolatedCache :=
  match cachedNodesForPodOwner c !! podOwner with
  | None => c
  | Some o =>
      let m := delete nodeName (nodeMap o) in
      set_nodes (if size m ≟ 0%nat then delete podOwner (cachedNodesForPodOwner c)
                 else <[podOwner := mkOwnerNodes m (nodeSlice o)]> (cachedNodesForPodOwner c)) c
  end.

Definition expired (now setting duration : Z) : bool := (setting + duration <? now)%Z.
Definition drop_expired (now : Z) (o : podOwnerCachedNodes) : option podOwnerCachedNodes :=
  let m := filter (λ e, expired now (settingTime e.2) defaultNodeCacheExpirationDuration = false) (nodeMap o) in
  if size m ≟ 0%nat then None else Some (mkOwnerNodes m (nodeSlice o)).
Definition CleanupCachedNodesForPodOwner (now : Z) (c : isolatedCache) : isolatedCache :=
  if (now - latestCleanupTimestamp c <? defaultNodeCacheCleanupInterval)%Z then c else
  mkIsolated (omap (drop_expired now) (cachedNodesForPodOwner c)) now
    (cachedPreemptionPoliciesForPodOwner c) (latestPreemptionPoliesCleanupTimestamp c).

(** ** Preemption policies *)

(** Reading an entry renews it. *)
Definition GetPreemptionPolicy (now : Z) (podOwner : string) (c : isolatedCache) : isolatedCache * string :=
  match cachedPreemptionPoliciesForPodOwner c !! podOwner with
  | None => (c, "")
  | Some item => (set_policies (<[podOwner := mkPolicyItem (policyName item) now]> (cachedPreemptionPoliciesForPodOwner c)) c, policyName item)
  end.
Definition CachePreemptionPolicy (now : Z) (podOwner policy : string) (c : isolatedCache) : isolatedCache :=
  set_policies (<[podOwner := mkPolicyItem policy now]> (cachedPreemptionPoliciesForPodOwner c)) c.
Definition CleanupPreemptionPolicyForPodOwner (now : Z) (c : isolatedCache) : isolatedCache :=
  if (now <? latestPreemptionPoliesCleanupTimestamp c + defaultPreemptionPoliciesCleanupInterval)%Z then c else
  mkIsolated (cachedNodesForPodOwner c) (latestCleanupTimestamp c)
    (filter (λ e, expired now (policySettingTime e.2) defaultPreemptionPoliciesExpirationDuration = false) (cachedPreemptionPoliciesForPodOwner c)) now.

(** ** Entries that are served are young

    [fresh_at t c]: at the last cleanup no entry was expired, and no entry is from
    the future. *)

Record cache_fresh (t : Z) (c : isolatedCache) : Prop := {
  cf_nodes podOwner o nodeName i : cachedNodesForPodOwner c !! podOwner = Some o → nodeMap o !! nodeName = Some i →
    (latestCleanupTimestamp c <= settingTime i + defaultNodeCacheExpirationDuration)%Z ∧ (settingTime i <= t)%Z;
  cf_slice podOwner o nodeName i : cachedNodesForPodOwner c !! podOwner = Some o → nodeMap o !! nodeName = Some i → nodeName ∈ nodeSlice o;
  cf_cleanup : (latestCleanupTimestamp c <= t)%Z
}.

Lemma fresh_new t : cache_fresh t (NewIsolatedCache t).
Proof. split; [intros ? ? ? ?; by rw lookup_empty|intros ? ? ? ?; by rw lookup_empty|simpl; lia]. Qed.
Lemma fresh_later t t' c : cache_fresh t c → (t <= t')%Z → cache_fresh t' c.
Proof.
  intros [Hn Hs Hc] Ht. split; [|done|lia]. intros k o x i Hk Hi. destruct (Hn k o x i Hk Hi). split; lia.
Qed.
Lemma fresh_policies t m lp c : cache_fresh t c → cache_fresh t (mkIsolated (cachedNodesForPodOwner c) (latestCleanupTimestamp c) m lp).
Proof. by intros [Hn Hs Hc]. Qed.

Lemma add_cached_all (Q : string → nodeTmpInfo → Prop) now group l : ∀ o, (∀ x, Q x (mkTmp now group)) →
  (∀ x i, nodeMap o !! x = Some i → Q x i ∧ x ∈ nodeSlice o) →
  ∀ x i, nodeMap (foldl (add_cached now group) o l) !! x = Some i → Q x i ∧ x ∈ nodeSlice (foldl (add_cached now group) o l).
Proof.
  induction l as [|y l IH]; intros o Hnew Ho; simpl; [done|]. apply IH; [done|]. intros x i. unfold add_cached. cbn [nodeMap nodeSlice].
  intros [[<- <-]|[_ Hx]]%lookup_insert_Some; (split; [|apply elem_of_app]).
  - apply Hnew.
  - right. by apply list_elem_of_singleton.
  - by apply Ho.
  - left. by eapply Ho.
Qed.
Lemma fresh_cache now podOwner group l c : cache_fresh now c → cache_fresh now (CacheAscendingOrderNodesForPodOwner now podOwner group l c).
Proof.
  intros [Hn Hs Hc]. set (o := default newPodOwnerCachedNodes (cachedNodesForPodOwner c !! podOwner)).
  pose proof (add_cached_all (λ _ i, (latestCleanupTimestamp c <= settingTime i + defaultNodeCacheExpirationDuration)%Z ∧ (settingTime i <= now)%Z)
    now group (rev l) o) as Hall.
  assert (∀ x i, nodeMap (foldl (add_cached now group) o (rev l)) !! x = Some i →
    ((latestCleanupTimestamp c <= settingTime i + defaultNodeCacheExpirationDuration)%Z ∧ (settingTime i <= now)%Z)
    ∧ x ∈ nodeSlice (foldl (add_cached now group) o (rev l))) as H.
  { apply Hall; [intros _; unfold defaultNodeCacheExpirationDuration, minute; simpl; lia|]. intros x i. unfold o.
    destruct (cachedNodesForPodOwner c !! podOwner) as [o'|] eqn:E; [|by rw lookup_empty]. intros Hi. split; [by eapply Hn|by eapply Hs]. }
  split; [| |done]; intros k o' x i; cbn [cachedNodesForPodOwner set_nodes CacheAscendingOrderNodesForPodOwner latestCleanupTimestamp];
    (intros [[<- <-]|[_ Hk]]%lookup_insert_Some; [intros Hi; by apply (H x i)|by eauto]).
Qed.

Lemma fresh_sub now c m : cache_fresh now c →
  (∀ k o, m !! k = Some o → ∃ o', cachedNodesForPodOwner c !! k = Some o' ∧ nodeMap o ⊆ nodeMap o' ∧ nodeSlice o = nodeSlice o') →
  cache_fresh now (set_nodes m c).
Proof.
  intros [Hn Hs Hc] Hm. split; [| |done]; intros k o x i Hk Hi; destruct (Hm k o Hk) as (o' & Hk' & Hsub & Hsl);
    pose proof (lookup_weaken _ _ _ _ Hi Hsub) as Hi'; [by eapply Hn|]. rw Hsl. by eapply Hs.
Qed.
Lemma fresh_delete now podOwner nodeName c : cache_fresh now c → cache_fresh now (DeleteNodeForPodOwner podOwner nodeName c).
Proof.
  intros Hf. unfold DeleteNodeForPodOwner. destruct (cachedNodesForPodOwner c !! podOwner) as [o|] eqn:E; [|done]. apply fresh_sub; [done|].
  intros k o'. destruct (size _ ≟ 0%nat).
  - intros [_ Hk]%lookup_delete_Some. by exists o'.
  - intros [[<- <-]|[_ Hk]]%lookup_insert_Some; [|by exists o']. exists o. split_and!; [done|apply delete_subseteq|done].
Qed.
Lemma fresh_cleanup now c : cache_fresh now c → cache_fresh now (CleanupCachedNodesForPodOwner now c).
Proof.
  intros [Hn Hs Hc]. unfold CleanupCachedNodesForPodOwner. destruct (_ <? _)%Z; [done|].
  assert (∀ k o x i, omap (drop_expired now) (cachedNodesForPodOwner c) !! k = Some o → nodeMap o !! x = Some i →
    ∃ o', cachedNodesForPodOwner c !! k = Some o' ∧ nodeMap o' !! x = Some i ∧ nodeSlice o = nodeSlice o'
      ∧ (now <= settingTime i + defaultNodeCacheExpirationDuration)%Z) as H.
  { intros k o x i. rw lookup_omap. destruct (cachedNodesForPodOwner c !! k) as [o'|]; [|done]. cbn [mbind option_bind].
    unfold drop_expired. destruct (size _ ≟ 0%nat); [done|]. intros [= <-]. cbn [nodeMap].
    intros [Hi He]%map_lookup_filter_Some. exists o'. split_and!; [done..|]. unfold expired in He. by apply Z.ltb_ge in He. }
  split; cbn [cachedNodesForPodOwner latestCleanupTimestamp]; [| |lia]; intros k o x i Hk Hi; destruct (H k o x i Hk Hi) as (o' & Hk' & Hi' & Hsl & He).
  - split; [done|by eapply Hn].
  - rw Hsl. by eapply Hs.
Qed.

(** After a cleanup, what is served is younger than five minutes. *)
Lemma served_young now podOwner nodeName o i c : cache_fresh now c →
  let c' := CleanupCachedNodesForPodOwner now c in
  cachedNodesForPodOwner c' !! podOwner = Some o → nodeMap o !! nodeName = Some i →
  (now - settingTime i < defaultNodeCacheExpirationDuration + defaultNodeCacheCleanupInterval)%Z.
Proof.
  intros Hf c' Ho Hi. destruct (cf_nodes _ _ (fresh_cleanup now c Hf) podOwner o nodeName i Ho Hi) as [H _]. unfold CleanupCachedNodesForPodOwner in H.
  destruct (Z.ltb_spec (now - latestCleanupTimestamp c) defaultNodeCacheCleanupInterval); simpl in H;
    unfold defaultNodeCacheCleanupInterval, minute in *; lia.
Qed.
