(* ===== verification/BetterPreempt.v ===== *)
(** * The preemption policy Better

    pkg/scheduler/core/pod_scheduler/preemption.go: [betterPreemption] with its two
    ways to find nodes on which preemption helps by evicting pods of low priority
    only: [ascendingOrderPreemption], which raises the priority step by step, and
    [dichotomyPreemption], a binary search.

    The loops are written over any probe of a node, and used with the probes of the
    code.  The code probes the nodes of a round in parallel (util.ParallelizeUntil): a
    [Race] says in which order the probes end and how many of them end after the round
    was stopped, and the searches take one for each round.  A probe is one step: the
    maps it shares with the others have locks of their own in the code.  The outer [option] is a panic.  No plugin has PreFilter extensions, so
    the clones of the cycle state that the code keeps for each node hold the same
    entries; only whether one was kept is modelled. *)
From S2P Require Import Prelude GoStrings PodModel PodState HashSlice Resource MicroTopo PodInfos Numa NodeInfo Framework NodeClone NodeStore VictimSearch Preempt Candidates IsolatedCache.

Local Open Scope godel_scope.
Local Open Scope string_scope.

(** ** The loops over priorities *)

(** How the probes of one round end. *)
Record Race := { finish : list nat; late : nat }.

Section loops.
Context {C P : Type}.
(** A probe with the victims of a priority above the first bound up to the second:
    the state, the node, and whether the pod fits. *)
Context (check : Z → Z → C → P → option (C * P * bool)).
Context (expectedCount : Z).

(** One round: the probes in the order in which they end, [late] of which are let
    end after the stop; [found] nodes were selected before.  Returns the nodes
    selected and whether the round was stopped. *)
Fixpoint probe_round (lo hi : Z) (order : list nat) (late : nat) (found : Z) (stop : bool) (c : C) (ps : list P)
    : option (C * list P * list nat * bool) :=
  match order with
  | [] => Some (c, ps, [], stop)
  | i :: order' =>
      if stop && (late ≟ 0%nat) then Some (c, ps, [], stop) else
      let late := if stop then Nat.pred late else late in
      p ← ps !! i;
      '(c, p, fits) ← check lo hi c p;
      if fits : bool then
        '(c, ps, l, stop) ← probe_round lo hi order' late (found + 1) (stop || (expectedCount <=? found + 1)%Z) c (<[i := p]> ps);
        Some (c, ps, i :: l, stop)
      else probe_round lo hi order' late found stop c (<[i := p]> ps)
  end.

Context (sched : nat → Race).
Definition round (r : nat) (lo hi found : Z) (c : C) (ps : list P) : option (C * list P * list nat * bool) :=
  probe_round lo hi (finish (sched r)) (late (sched r)) found false c ps.

Fixpoint ascending_loop (previousPriority : Z) (priorityIndex : Z) (priorities : list Z) (c : C) (ps : list P)
    (selectedNodeIndex : list nat) (firstPriorityIndex : Z) : option (C * list P * list nat * Z) :=
  match priorities with
  | [] => Some (c, ps, selectedNodeIndex, firstPriorityIndex)
  | priority :: priorities' =>
      '(c, ps, l, stop) ← round (Z.to_nat priorityIndex) previousPriority priority (Z.of_nat (length selectedNodeIndex)) c ps;
      let firstPriorityIndex := if negb (length l ≟ 0%nat) && (firstPriorityIndex <? 0)%Z then priorityIndex else firstPriorityIndex in
      let selectedNodeIndex := (selectedNodeIndex ++ l)%list in
      if stop : bool then Some (c, ps, selectedNodeIndex, firstPriorityIndex)
      else ascending_loop priority (priorityIndex + 1) priorities' c ps selectedNodeIndex firstPriorityIndex
  end.

(** The binary search; the nodes that failed in a round that selected one are given
    up, and every round starts with no failure.  The interval shrinks in each step,
    so fuel above its length is enough; it counts the rounds down. *)
Context (new_round drop_losers : P → P).
Fixpoint dichotomy_loop (fuel : nat) (priorities : list Z) (left right previousPriority : Z) (c : C) (ps : list P)
    (selectedNodeIndexSlice : list (list nat)) (firstMaxVictimPriorityIndex : Z) : option (C * list P * list (list nat) * Z) :=
  match fuel with
  | O => None
  | S fuel =>
      if (right <? left)%Z then Some (c, ps, selectedNodeIndexSlice, firstMaxVictimPriorityIndex) else
      let mid := ((left + right) `div` 2)%Z in
      priority ← priorities !! Z.to_nat mid;
      '(c, ps, l, _) ← round fuel previousPriority priority 0 c (new_round <$> ps);
      if negb (length l ≟ 0%nat)
      then dichotomy_loop fuel priorities left (mid - 1) previousPriority c (drop_losers <$> ps) (selectedNodeIndexSlice ++ [l]) mid
      else dichotomy_loop fuel priorities (mid + 1) right priority c ps selectedNodeIndexSlice firstMaxVictimPriorityIndex
  end.

(** The last rounds first, every node once, up to the number expected. *)
Fixpoint take_new (l : list nat) (acc : list nat) : list nat :=
  match l with
  | [] => acc
  | index :: l' =>
      if bool_decide (index ∈ acc) then take_new l' acc
      else let acc := (acc ++ [index])%list in if (expectedCount <=? Z.of_nat (length acc))%Z then acc else take_new l' acc
  end.
Fixpoint select_order (slices : list (list nat)) (acc : list nat) : list nat :=
  match slices with
  | [] => acc
  | l :: slices' =>
      let acc := take_new l acc in
      if (expectedCount <=? Z.of_nat (length acc))%Z then acc else select_order slices' acc
  end.

Definition ascending_search (priorities : list Z) (c : C) (ps : list P) : option (C * list P * list nat * Z) :=
  ascending_loop MinInt64 0 priorities c ps [] (-1).
Definition dichotomy_search (priorities : list Z) (c : C) (ps : list P) : option (C * list P * list nat * Z) :=
  '(c, ps, slices, first) ← dichotomy_loop (S (length priorities)) priorities 0 (Z.of_nat (length priorities) - 1) MinInt64 c ps [] (-1);
  Some (c, ps, select_order (rev slices) [], first).
End loops.

(** ** The probes *)

(** What the searches keep for a node: the node of the list; the node with the
    victims of earlier rounds removed, or nothing once it is given up; its preemption
    state; whether a clone of the cycle state is kept; the plugins to skip; whether
    it failed in this round. *)
Record NodeProbe := {
  np_Node : option NodeInfo; np_Copy : option NodeInfo; np_State : option PreemptionState; np_Cloned : bool; np_Skip : list string; np_Failed : bool
}.
Definition new_probe (n : option NodeInfo) : NodeProbe :=
  {| np_Node := n; np_Copy := n; np_State := None; np_Cloned := false; np_Skip := []; np_Failed := false |}.
Definition drop_node (p : NodeProbe) : NodeProbe :=
  {| np_Node := np_Node p; np_Copy := None; np_State := np_State p; np_Cloned := np_Cloned p; np_Skip := np_Skip p; np_Failed := np_Failed p |}.
Definition reset_failed (p : NodeProbe) : NodeProbe :=
  {| np_Node := np_Node p; np_Copy := np_Copy p; np_State := np_State p; np_Cloned := np_Cloned p; np_Skip := np_Skip p; np_Failed := false |}.
Definition drop_failed (p : NodeProbe) : NodeProbe :=
  if np_Failed p
  then {| np_Node := np_Node p; np_Copy := None; np_State := np_State p; np_Cloned := np_Cloned p; np_Skip := []; np_Failed := true |}
  else p.
(** The heuristic check fills caches of the node, which is still shared. *)
Definition set_node (n : NodeInfo) (p : NodeProbe) : NodeProbe :=
  {| np_Node := Some n; np_Copy := Some n; np_State := np_State p; np_Cloned := np_Cloned p; np_Skip := np_Skip p; np_Failed := np_Failed p |}.

Section better.
Context {MR : MapRange} (cf : Config) (jsonLabels : string → gmap string string).
Context (pls : list FilterPlugin) (jsonVictims : string → option (list string)) (preemptors : string → string → list string).
Implicit Types (cs : CycleState) (pod : Pod) (pf : PreemptionFramework).

Definition occupiable pod (n : NodeInfo) : option (NodeInfo * bool) :=
  OccupiableResourcesCheck (GetPodPartitionPriority pod) (default BestEffortPod (GetPodResourceType pod))
    (CalculateResource (λ m, range_map m) (cf_gates cf) pod).1.1 n.
(** An error of a removal is logged. *)
Fixpoint remove_victims (l : list Pod) (n : NodeInfo) : option NodeInfo :=
  match l with [] => Some n | v :: l' => '(n, _) ← removePod cf v n; remove_victims l' n end.

Definition ascending_check pf pod (lo hi : Z) cs (p : NodeProbe) : option (CycleState * NodeProbe * bool) :=
  match np_Copy p with
  | None => Some (cs, p, false)
  | Some n =>
      '(p, n, ok) ← match np_State p with
                    | None => '(n, ok) ← occupiable pod n; Some (set_node n p, n, ok)
                    | Some _ => Some (p, n, true) end;
      if negb ok then Some (cs, drop_node p, false) else
      let checked := bool_decide (is_Some (np_State p)) in
      '(cs, ps, victims) ← FilterVictimsPods jsonVictims pf preemptors (getNodeName n) cs (default NewPreemptionState (np_State p)) n pod lo (hi + 1) checked;
      let clone := negb (length victims ≟ 0%nat) && negb (np_Cloned p) in
      n ← (if clone then node_Clone n else Some n);
      n ← remove_victims victims n;
      let '(fits, statusMap) := PodPassesFiltersOnNode jsonLabels pls cs pod n (np_Skip p) in
      Some (cs, {| np_Node := np_Node p; np_Copy := if fits : bool then None else Some n; np_State := Some ps; np_Cloned := clone || np_Cloned p;
                   np_Skip := if fits then np_Skip p else (np_Skip p ++ skipped statusMap)%list; np_Failed := np_Failed p |}, fits)
  end.

(** A node that fits is left as it was. *)
Definition dichotomy_check pf pod (lo hi : Z) cs (p : NodeProbe) : option (CycleState * NodeProbe * bool) :=
  match np_Copy p with
  | None => Some (cs, p, false)
  | Some n =>
      '(p, n, ok) ← (if np_Cloned p then Some (p, n, true) else '(n, ok) ← occupiable pod n; Some (set_node n p, n, ok));
      if negb ok then Some (cs, drop_node p, false) else
      let checked := bool_decide (is_Some (np_State p)) in
      '(cs, ps, victims) ← FilterVictimsPods jsonVictims pf preemptors (getNodeName n) cs (default NewPreemptionState (np_State p)) n pod lo (hi + 1) checked;
      copy ← (if negb (length victims ≟ 0%nat) then node_Clone n else Some n);
      copy ← remove_victims victims copy;
      let '(fits, statusMap) := PodPassesFiltersOnNode jsonLabels pls cs pod copy [] in
      Some (cs, if fits : bool
                then {| np_Node := np_Node p; np_Copy := Some n; np_State := np_State p; np_Cloned := true; np_Skip := np_Skip p; np_Failed := np_Failed p |}
                else {| np_Node := np_Node p; np_Copy := Some copy; np_State := Some ps; np_Cloned := true;
                        np_Skip := (np_Skip p ++ skipped statusMap)%list; np_Failed := true |}, fits)
  end.

(** ** The policy *)

Definition BetterPreemptionPolicyAscending : string := "Ascending".
Definition BetterPreemptionPolicyDichotomy : string := "Dichotomy".
Definition DeployNameKeyInPodLabels : string := "name".
Definition GetDeployNameFromPod (pod : Pod) : string := default "" (Labels pod !! DeployNameKeyInPodLabels).

Fixpoint insert_priority (z : Z) (l : list Z) : list Z :=
  match l with [] => [z] | x :: l' => if (z <? x)%Z then z :: x :: l' else if (z =? x)%Z then l else x :: insert_priority z l' end.
(** The priorities up to that of the pod, in ascending order without duplicates. *)
Definition prioritiesSlice (t : PodResourceType) (podPriority : Z) (nodes : list (option NodeInfo)) : list Z :=
  filter (λ z, z <= podPriority)%Z
    (foldl (λ acc o, match o with
                     | None => acc
                     | Some n => foldl (λ acc z, insert_priority z acc) acc (GetPrioritiesForPodsMayBePreempted t (Maintainer n)) end) [] nodes).

Context (sched : nat → Race).
Definition ascendingOrderPreemption pf cs pod (priorities : list Z) (nodes : list (option NodeInfo)) (expectedCount : Z)
    : option (CycleState * list NodeProbe * list nat * Z) :=
  ascending_search (ascending_check pf pod) expectedCount sched priorities cs (new_probe <$> nodes).
Definition dichotomyPreemption pf cs pod (priorities : list Z) (nodes : list (option NodeInfo)) (expectedCount : Z)
    : option (CycleState * list NodeProbe * list nat * Z) :=
  dichotomy_search (dichotomy_check pf pod) expectedCount sched reset_failed drop_failed priorities cs (new_probe <$> nodes).

(** Without priorities to try, the nodes on which the pod fits as they are; a nil
    node is a panic here. *)
Definition fit_check pod (lo hi : Z) cs (o : option NodeInfo) : option (CycleState * option NodeInfo * bool) :=
  n ← o; Some (cs, o, (PodPassesFiltersOnNode jsonLabels pls cs pod n []).1).
Definition fit_search cs pod (expectedCount : Z) (nodes : list (option NodeInfo)) : option (list nat) :=
  '(_, _, l, _) ← round (fit_check pod) expectedCount sched 0 MinInt64 MinInt64 0 cs nodes; Some l.

(** [int(math.Log2(...))]; the conversion of minus infinity gives the least integer. *)
Definition int_log2 (n : nat) : Z := if n ≟ 0%nat then MinInt64 else Z.log2 (Z.of_nat n).

Fixpoint victims_loop pf cs pod (nodes : list (option NodeInfo)) (indexes : list nat) : option (CycleState * list Candidate) :=
  match indexes with
  | [] => Some (cs, [])
  | i :: indexes' =>
      n ← mjoin (nodes !! i);
      '(cs, ps, (pods, fits)) ← selectVictimsOnNode cf jsonLabels pls pf jsonVictims preemptors cs NewPreemptionState pod n;
      '(cs, l) ← victims_loop pf cs pod nodes indexes';
      Some (cs, if fits : bool then {| cd_Victims := Some {| v_Pods := pods; v_State := ps |}; cd_Name := getNodeName n |} :: l else l)
  end.

Definition cache_policy (now : Z) (deployName policy : string) (policies : list string) (cache : isolatedCache) : isolatedCache :=
  if bool_decide (policy ∈ policies) then CachePreemptionPolicy now deployName policy cache else cache.

Definition nominated_nodes pf cs pod (ascending : bool) (priorities : list Z) (nodes : list (option NodeInfo)) (expectedCount : Z)
    : option (CycleState * list (option NodeInfo) * list nat * Z) :=
  if length priorities ≟ 0%nat then l ← fit_search cs pod expectedCount nodes; Some (cs, nodes, l, (-1)%Z)
  else
    match (if ascending then ascendingOrderPreemption pf cs pod priorities nodes expectedCount
           else dichotomyPreemption pf cs pod priorities nodes expectedCount) with
    | Some (cs, probes, l, maxIndex) => Some (cs, np_Node <$> probes, l, maxIndex)
    | None => None
    end.

(** The inner [None] is an error.  [policies] are those of the configuration. *)
Definition betterPreemption (now : Z) (policies : list string) pf cs pod (nodes : list (option NodeInfo)) (cnn : CNN) (cache : isolatedCache)
    : option (isolatedCache * CycleState * list (option NodeInfo) * CNN * option (list Candidate)) :=
  let cnn := if cross_nodes cnn then SetPodCount 1 cnn else cnn in
  let deployName := GetDeployNameFromPod pod in
  let cache := CleanupPreemptionPolicyForPodOwner now cache in
  let '(cache, cached) := GetPreemptionPolicy now deployName cache in
  policy ← (if cached ≟ "" then policies !! 0%nat else Some cached);
  let ascending := policy ≟ BetterPreemptionPolicyAscending in
  if negb ascending && negb (policy ≟ BetterPreemptionPolicyDichotomy) then Some (cache, cs, nodes, cnn, None) else
  match cs_ResourceType cs with
  | None => Some (cache, cs, nodes, cnn, None)
  | Some t =>
      let priorities := prioritiesSlice t (GetPodPriority pod) nodes in
      '(cs, nodes, indexes, maxIndex) ← nominated_nodes pf cs pod ascending priorities nodes (GetPodCount cnn);
      if length indexes ≟ 0%nat then Some (cache_policy now deployName BetterPreemptionPolicyDichotomy policies cache, cs, nodes, cnn, Some []) else
      let cache := if (int_log2 (length priorities) <? maxIndex)%Z
                   then cache_policy now deployName BetterPreemptionPolicyDichotomy policies cache
                   else cache_policy now deployName BetterPreemptionPolicyAscending policies cache in
      '(cs, candidates) ← victims_loop pf cs pod nodes indexes;
      Some (cache, cs, nodes, cnn, Some candidates)
  end.
End better.
