(* ===== verification/BetterPreemptSpec.v ===== *)
(** * The two searches of the policy Better agree

    Raising the priority step by step and the binary search find the same least
    priority, and first select nodes that need just this priority, in whatever order
    the parallel probes end, for any probes of nodes that fit once the victims up to
    some priority are gone: the interfaces [AscendingProber] and
    [DichotomyProber] say what a probe promises to each search. *)
From S2P Require Import Prelude GoStrings PodModel PodState HashSlice Resource MicroTopo PodInfos Numa NodeInfo Framework NodeClone NodeStore FilterPlugins PdbStore VictimSearch VictimSearchSpec Preempt PreemptProps Candidates CandidatesSpec BetterPreempt.

Local Open Scope godel_scope.
Local Open Scope nat_scope.

(** [t i] is the index of the first priority with which node [i] fits; the priority
    below which the victims of a probe that failed up to [lo] are gone. *)
Definition bound (priorities : list Z) (lo : nat) : Z := match lo with O => MinInt64 | S k => priorities !!! k end.

(** [Inv] holds of the state that the probes share. *)
Class AscendingProber {C P : Type} (priorities : list Z) (t : nat → nat) (check : Z → Z → C → P → option (C * P * bool))
    (Inv : C → Prop) (Live : nat → nat → P → Prop) (Gone : P → Prop) := {
  ap_live i k c p : Inv c → Live i k p → k < length priorities →
    ∃ c' p', check (bound priorities k) (priorities !!! k) c p = Some (c', p', bool_decide (t i ≤ k)) ∧ Inv c' ∧
      if bool_decide (t i ≤ k) then Gone p' else Live i (S k) p';
  ap_gone lo hi c p : Inv c → Gone p → ∃ c' p', check lo hi c p = Some (c', p', false) ∧ Inv c' ∧ Gone p'
}.
Class DichotomyProber {C P : Type} (priorities : list Z) (t : nat → nat) (check : Z → Z → C → P → option (C * P * bool))
    (new_round drop_losers : P → P) (Inv : C → Prop) (Live Failed : nat → nat → P → Prop) (Gone : P → Prop) := {
  dp_live i lo k c p : Inv c → Live i lo p → lo ≤ k < length priorities →
    ∃ c' p', check (bound priorities lo) (priorities !!! k) c p = Some (c', p', bool_decide (t i ≤ k)) ∧ Inv c' ∧
      if bool_decide (t i ≤ k) then Live i lo p' else Failed i (S k) p';
  dp_gone lo hi c p : Inv c → Gone p → ∃ c' p', check lo hi c p = Some (c', p', false) ∧ Inv c' ∧ Gone p';
  dp_new_live i lo p : Live i lo p → Live i lo (new_round p);
  dp_new_failed i lo p : Failed i lo p → Live i lo (new_round p);
  dp_new_gone p : Gone p → Gone (new_round p);
  dp_up_live i lo p : Live i lo p → Live i lo (drop_losers p);
  dp_up_failed i lo p : Failed i lo p → Gone (drop_losers p);
  dp_up_gone p : Gone p → Gone (drop_losers p)
}.

(** ** One round *)

Section round.
Context {C P : Type} (check : Z → Z → C → P → option (C * P * bool)) (cnt : nat) (lo hi : Z).
Context (F : nat → bool) (Inv : C → Prop) (R Q : nat → P → Prop).
Context (Hcheck : ∀ i c p, Inv c → R i p → ∃ c' p', check lo hi c p = Some (c', p', F i) ∧ Inv c' ∧ Q i p').

(** The probes that ended are a prefix [D] of the order: all of it unless the round
    was stopped, which it is exactly when enough nodes were selected. *)
Lemma probe_round_spec order : ∀ late found c ps, Inv c → NoDup order → (∀ i, i ∈ order → ∃ p, ps !! i = Some p ∧ R i p) →
  ∃ c' ps' D rest stop, order = D ++ rest ∧
    probe_round check (Z.of_nat cnt) lo hi order late (Z.of_nat found) (bool_decide (cnt ≤ found)) c ps = Some (c', ps', filter (λ i, F i = true) D, stop) ∧
    Inv c' ∧ stop = bool_decide (cnt ≤ found + length (filter (λ i, F i = true) D)) ∧ (stop = false → rest = []) ∧ length ps' = length ps ∧
    ∀ j p, ps' !! j = Some p → (j ∈ D ∧ Q j p) ∨ (j ∉ D ∧ ps !! j = Some p).
Proof.
  induction order as [|i order IH]; intros late found c ps Hc Hnd HR; cbn [probe_round].
  { exists c, ps, [], [], (bool_decide (cnt ≤ found)). split_and!; [done|done|done|by rewrite Nat.add_0_r|done|done|]. intros j p Hj. right. split; [apply not_elem_of_nil|done]. }
  destruct (bool_decide (cnt ≤ found) && (late ≟ 0)) eqn:Estop.
  { apply andb_true_iff in Estop as [Es _]. exists c, ps, [], (i :: order), true. cbn [filter list_filter length]. rewrite Nat.add_0_r Es.
    split_and!; [done|done|done|done|done|done|]. intros j p Hj. right. split; [apply not_elem_of_nil|done]. }
  clear Estop. destruct (HR i) as (p & Hp & HRp); [by left|]. rewrite Hp. cbn [mbind option_bind].
  destruct (Hcheck i c p Hc HRp) as (c1 & p1 & -> & Hc1 & HQ). apply NoDup_cons in Hnd as [Hi Hnd].
  assert (∀ j, j ∈ order → ∃ q, <[i := p1]> ps !! j = Some q ∧ R j q) as HR'.
  { intros j Hj. rewrite list_lookup_insert_ne; [|by intros ->]. apply HR. by right. }
  assert (∀ D rest (ps' : list P) j q, order = D ++ rest → (∀ j q, ps' !! j = Some q → (j ∈ D ∧ Q j q) ∨ (j ∉ D ∧ <[i := p1]> ps !! j = Some q)) →
    ps' !! j = Some q → (j ∈ i :: D ∧ Q j q) ∨ (j ∉ i :: D ∧ ps !! j = Some q)) as Hcons.
  { intros D rest ps' j q -> Hps' Hj. destruct (Hps' j q Hj) as [[Hin HQj]|[Hnin Hl]]; [left; split; [by right|done]|].
    destruct (decide (j = i)) as [->|Hne]; [|right; rewrite list_lookup_insert_ne in Hl; [|done]; split; [|done]; rewrite elem_of_cons; by intros [?|?]].
    left. split; [by left|]. rewrite list_lookup_insert_eq in Hl; [|by eapply lookup_lt_Some]. by injection Hl as <-. }
  cbn zeta. cbn [mbind option_bind]. set (late' := if bool_decide (cnt ≤ found) then Nat.pred late else late). destruct (F i) eqn:EF; cbn [mbind option_bind].
  - assert (bool_decide (cnt ≤ found) || (Z.of_nat cnt <=? Z.of_nat found + 1)%Z = bool_decide (cnt ≤ S found)) as ->.
    { do 2 case_bool_decide; destruct (Z.leb_spec (Z.of_nat cnt) (Z.of_nat found + 1)); try done; lia. }
    replace (Z.of_nat found + 1)%Z with (Z.of_nat (S found)) by lia.
    destruct (IH late' (S found) c1 (<[i := p1]> ps)) as (c2 & ps2 & D & rest & stop & E & -> & Hc2 & Hs & Hrest & Hl & HQ2); [done..|].
    exists c2, ps2, (i :: D), rest, stop. cbn [mbind option_bind]. rewrite filter_cons EF. cbn [decide]. destruct (decide (true = true)); [|done].
    split_and!; [by rewrite E|done|done|rewrite Hs; apply bool_decide_ext; cbn [length]; lia|done|by rewrite length_insert in Hl|].
    intros j q. by eapply Hcons.
  - destruct (IH late' found c1 (<[i := p1]> ps)) as (c2 & ps2 & D & rest & stop & E & -> & Hc2 & Hs & Hrest & Hl & HQ2); [done..|].
    exists c2, ps2, (i :: D), rest, stop. cbn [mbind option_bind]. rewrite filter_cons EF. destruct (decide (false = true)); [done|].
    split_and!; [by rewrite E|done|done|done|done|by rewrite length_insert in Hl|]. intros j q. by eapply Hcons.
Qed.

(** A round with all nodes in some order: the nodes selected, none of them twice, and
    whether one is missing. *)
Lemma better_round_spec sched r found c ps : Inv c → found < cnt → finish (sched r) ≡ₚ seq 0 (length ps) → (∀ j p, ps !! j = Some p → R j p) →
  ∃ c' ps' l stop, round check (Z.of_nat cnt) sched r lo hi (Z.of_nat found) c ps = Some (c', ps', l, stop) ∧
    Inv c' ∧ stop = bool_decide (cnt ≤ found + length l) ∧ length ps' = length ps ∧
    NoDup l ∧ (∀ i, i ∈ l → i < length ps ∧ F i = true) ∧ (stop = false → ∀ i, i < length ps → F i = true → i ∈ l) ∧
    ∀ j p, ps' !! j = Some p → Q j p ∨ stop = true ∧ R j p.
Proof.
  intros Hc Hf Hperm HR. assert (NoDup (finish (sched r))) as Hnd by (rewrite Hperm; apply NoDup_seq).
  assert (∀ i, i ∈ finish (sched r) ↔ i < length ps) as Hin by (intros i; rewrite Hperm elem_of_seq; lia).
  destruct (probe_round_spec (finish (sched r)) (late (sched r)) found c ps Hc Hnd) as (c' & ps' & D & rest & stop & E & Eq & Hc' & Hs & Hrest & Hl & HQ).
  { intros i Hi. apply Hin, lookup_lt_is_Some in Hi as [p Hp]. exists p. split; [done|by apply HR]. }
  rewrite bool_decide_eq_false_2 in Eq; [|lia]. unfold round. exists c', ps', (filter (λ i, F i = true) D), stop.
  assert (NoDup D) as HD by (rewrite E in Hnd; by apply NoDup_app in Hnd as (? & _)).
  split_and!; [done|done|done|done|by apply NoDup_filter| | |].
  - intros i [HF HiD]%list_elem_of_filter. split; [|done]. apply Hin. rewrite E. apply elem_of_app. by left.
  - intros Hsf i Hi HF. apply list_elem_of_filter. split; [done|]. apply Hin in Hi. by rewrite E (Hrest Hsf) app_nil_r in Hi.
  - intros j p Hj. destruct (HQ j p Hj) as [[_ ?]|[Hnin ?]]; [by left|]. right. split; [|by apply HR].
    destruct stop; [done|]. exfalso. apply Hnin. rewrite (Hrest eq_refl) app_nil_r in E. rewrite -E. apply Hin. rewrite -Hl. by eapply lookup_lt_Some.
Qed.
End round.

Section searches.
Context {C P : Type} (priorities : list Z) (t : nat → nat) (n cnt : nat).
Implicit Types (c : C) (ps : list P).

(** Some of the nodes that need exactly the priority of index [k]: all of them, or as
    many as are expected. *)
Definition best (k : nat) (l : list nat) : Prop :=
  l ≠ [] ∧ NoDup l ∧ (∀ i, i ∈ l → i < n ∧ t i = k) ∧ (length l < cnt → ∀ i, i < n → t i = k → i ∈ l).

(** ** Raising the priority step by step *)

Section ascending.
Context (check : Z → Z → C → P → option (C * P * bool)) (Inv : C → Prop) (Live : nat → nat → P → Prop) (Gone : P → Prop).
Context `{AP : !AscendingProber priorities t check Inv Live Gone}.

Definition asc_inv (k i : nat) (p : P) : Prop := (k ≤ t i ∧ Live i k p) ∨ (t i < k ∧ Gone p).

Lemma asc_check k i c p : k < length priorities → Inv c → asc_inv k i p →
  ∃ c' p', check (bound priorities k) (priorities !!! k) c p = Some (c', p', bool_decide (t i = k)) ∧ Inv c' ∧ asc_inv (S k) i p'.
Proof.
  intros Hk Hc [[Ht Hl]|[Ht Hg]].
  - destruct (ap_live i k c p Hc Hl Hk) as (c' & p' & -> & Hc' & Hp). exists c', p'. rewrite (bool_decide_ext (t i ≤ k) (t i = k)) in Hp |- *; [|lia].
    split_and!; [done|done|]. unfold asc_inv. case_bool_decide; [right|left]; (split; [lia|done]).
  - destruct (ap_gone (bound priorities k) (priorities !!! k) c p Hc Hg) as (c' & p' & -> & Hc' & Hp). exists c', p'.
    rewrite bool_decide_eq_false_2; [|lia]. split_and!; [done|done|]. right. split; [lia|done].
Qed.

(** After the rounds below [k]: all nodes that need less are selected, in an order
    in which those of the least priority come first. *)
Definition asc_found (k : nat) (sel : list nat) (first : Z) : Prop :=
  (first = (-1)%Z ∧ sel = [] ∧ ∀ j, j < n → k ≤ t j) ∨
  ∃ k0 s r, first = Z.of_nat k0 ∧ k0 < k ∧ (∀ j, j < n → k0 ≤ t j) ∧ sel = s ++ r ∧ best k0 s ∧ (cnt ≤ length s → r = []).
(** The nodes selected in the end: no other node needs less than one of them. *)
Definition cheapest (sel : list nat) : Prop :=
  NoDup sel ∧ (∀ i, i ∈ sel → i < n ∧ t i < length priorities) ∧
  ∀ j, j < n → t j < length priorities → j ∉ sel → cnt ≤ length sel ∧ ∀ i, i ∈ sel → t i ≤ t j.

Lemma asc_found_step k sel first l stop : asc_found k sel first → length sel < cnt → (∀ i, i ∈ sel ↔ i < n ∧ t i < k) →
  NoDup l → (∀ i, i ∈ l → i < n ∧ t i = k) → (stop = false → ∀ i, i < n → t i = k → i ∈ l) → stop = bool_decide (cnt ≤ length sel + length l) →
  asc_found (S k) (sel ++ l) (if negb (length l ≟ 0) && (first <? 0)%Z then Z.of_nat k else first).
Proof.
  intros Hf Hlt Hsel Hnd Hl Hall Hs. destruct Hf as [(-> & -> & Hmin)|(k0 & s & r & -> & Hk0 & Hmin & -> & Hb & Hr)].
  - destruct l as [|x l].
    + left. split_and!; [done|done|]. intros j Hj. specialize (Hmin j Hj). destruct (decide (t j = k)) as [Ht|]; [|lia].
      cbn in Hs. rewrite bool_decide_eq_false_2 in Hs; [|simpl in Hlt; lia]. specialize (Hall Hs j Hj Ht). by apply elem_of_nil in Hall.
    + right. exists k, (x :: l), []. cbn [length app]. rewrite bool_decide_eq_false_2; [|done]. cbn [negb andb Z.ltb Z.compare].
      split_and!; [done|lia|done|by rewrite app_nil_r|split_and!; [done|done|done|]|done]. intros Hc. apply Hall. rewrite Hs. apply bool_decide_eq_false. simpl in *. lia.
  - right. exists k0, s, (r ++ l). rewrite (proj2 (Z.ltb_ge _ _)); [|lia]. rewrite andb_false_r.
    split_and!; [done|lia|done|by rewrite app_assoc|done|]. intros Hc. rewrite length_app in Hlt. lia.
Qed.

Context (sched : nat → Race) (Hsched : ∀ r, finish (sched r) ≡ₚ seq 0 n).

Lemma ascending_spec m : ∀ k c ps sel first, k + m = length priorities → length ps = n → length sel < cnt → Inv c →
  (∀ j p, ps !! j = Some p → asc_inv k j p) → NoDup sel → (∀ i, i ∈ sel ↔ i < n ∧ t i < k) → asc_found k sel first →
  ∃ c' ps' sel' first', ascending_loop check (Z.of_nat cnt) sched (bound priorities k) (Z.of_nat k) (drop k priorities) c ps sel first =
    Some (c', ps', sel', first') ∧ cheapest sel' ∧ asc_found (length priorities) sel' first'.
Proof.
  induction m as [|m IH]; intros k c ps sel first Hk Hn Hlt Hc Hps Hnd Hsel Hf.
  { rewrite drop_ge; [|lia]. exists c, ps, sel, first. assert (k = length priorities) as -> by lia. split_and!; [done| |done].
    split_and!; [done|by intros i Hi%Hsel|]. intros j Hj Ht []. by apply Hsel. }
  assert (∃ p, priorities !! k = Some p) as [prio Hp] by (apply lookup_lt_is_Some_2; lia).
  rewrite (drop_S _ _ _ Hp). cbn [ascending_loop]. rewrite Nat2Z.id.
  assert (∀ i c p, Inv c → asc_inv k i p → ∃ c' p', check (bound priorities k) prio c p = Some (c', p', bool_decide (t i = k)) ∧ Inv c' ∧ asc_inv (S k) i p') as Hcheck.
  { intros i c0 p0 Hc0 H0. rewrite -(list_lookup_total_correct _ _ _ Hp). apply asc_check; [lia|done|done]. }
  destruct (better_round_spec check cnt (bound priorities k) prio (λ i, bool_decide (t i = k)) Inv (asc_inv k) (asc_inv (S k)) Hcheck sched k (length sel) c ps)
    as (c1 & ps1 & l & stop & -> & Hc1 & Hstop & Hlen & Hndl & Hl & Hall & Hps1); [done|done|by rewrite Hn|done|]. cbn [mbind option_bind].
  rewrite Hn in Hlen, Hl, Hall. assert (∀ i, i ∈ l → i < n ∧ t i = k) as Hl' by (intros i [? ?%bool_decide_eq_true]%Hl; done).
  assert (stop = false → ∀ i, i < n → t i = k → i ∈ l) as Hall' by (intros Hs i Hi Ht; apply Hall; [done|done|by apply bool_decide_eq_true]).
  pose proof (asc_found_step k sel first l stop Hf Hlt Hsel Hndl Hl' Hall' Hstop) as Hf'. set (first' := if negb _ && _ then _ else _) in Hf' |- *.
  assert (NoDup (sel ++ l)) as Hnd'. { apply NoDup_app. split_and!; [done| |done]. intros i [_ Hi]%Hsel [_ Hi']%Hl'. lia. }
  destruct stop.
  - symmetry in Hstop. apply bool_decide_eq_true in Hstop. exists c1, ps1, (sel ++ l), first'. split_and!; [done| |].
    + split_and!; [done| |].
      * intros i [[? ?]%Hsel|[? ?]%Hl']%elem_of_app; lia.
      * intros j Hj Htj Hnot. rewrite elem_of_app in Hnot. assert (k ≤ t j) as Hkj.
        { destruct (decide (t j < k)); [|lia]. destruct Hnot. left. by apply Hsel. }
        split; [by rewrite length_app|]. intros i [[? ?]%Hsel|[? ?]%Hl']%elem_of_app; lia.
    + destruct Hf' as [(E1 & E2 & _)|(k0 & s & r & E1 & Hk0 & H)]; [|right; exists k0, s, r; split; [done|]; split; [lia|done]].
      exfalso. rewrite E2 in Hnd'. apply app_nil in E2 as [-> ->]. simpl in *. lia.
  - symmetry in Hstop. apply bool_decide_eq_false in Hstop. replace (Z.of_nat k + 1)%Z with (Z.of_nat (S k)) by lia.
    pose proof (IH (S k) c1 ps1 (sel ++ l) first') as IH'. cbn [bound] in IH'. rewrite (list_lookup_total_correct _ _ _ Hp) in IH'.
    apply IH'; [lia|lia|by rewrite length_app; lia|done| |done| |done].
    + intros j p Hj. destruct (Hps1 j p Hj) as [?|[? _]]; done.
    + intros i. rewrite elem_of_app Hsel. split; [intros [[? ?]|[? ?]%Hl']; lia|]. intros [Hi Ht]. destruct (decide (t i = k)); [right; by apply Hall'|left; lia].
Qed.
End ascending.

(** ** The binary search *)

(** Some of the nodes that fit with the priority of index [k]: all of them, or as many
    as are expected. *)
Definition selected_upto (k : nat) (l : list nat) : Prop :=
  l ≠ [] ∧ NoDup l ∧ (∀ i, i ∈ l → i < n ∧ t i ≤ k) ∧ (length l < cnt → ∀ i, i < n → t i ≤ k → i ∈ l).
Lemma upto_best k l : (∀ j, j < n → k ≤ t j) → selected_upto k l → best k l.
Proof.
  intros Hmin (H0 & H1 & H2 & H3). split_and!; [done|done| |].
  - intros i [Hi Ht]%H2. specialize (Hmin i Hi). lia.
  - intros Hc i Hi Ht. apply H3; lia.
Qed.

Section dichotomy.
Context (check : Z → Z → C → P → option (C * P * bool)) (new_round drop_losers : P → P).
Context (Inv : C → Prop) (Live Failed : nat → nat → P → Prop) (Gone : P → Prop).
Context `{DP : !DichotomyProber priorities t check new_round drop_losers Inv Live Failed Gone} (Hcnt : 0 < cnt).

(** What is known of a node when the search is between [lo] and [up]: before a
    round, in it, and after it. *)
Definition waiting (lo up i : nat) (p : P) : Prop := (lo ≤ t i ∧ (Live i lo p ∨ Failed i lo p)) ∨ (up < t i ∧ lo ≤ t i ∧ Gone p).
Definition in_round (lo up i : nat) (p : P) : Prop := (lo ≤ t i ∧ Live i lo p) ∨ (up < t i ∧ lo ≤ t i ∧ Gone p).
Definition after (lo mid up i : nat) (p : P) : Prop :=
  (t i ≤ mid ∧ lo ≤ t i ∧ Live i lo p) ∨ (mid < t i ∧ lo ≤ t i ∧ Failed i (S mid) p) ∨ (up < t i ∧ lo ≤ t i ∧ Gone p).

Lemma waiting_round lo up i p : waiting lo up i p → in_round lo up i (new_round p).
Proof.
  intros [[Ht [H|H]]|(Hu & Ht & H)]; [left|left|right]; (split_and!; [done..|]);
    [by apply dp_new_live|by apply dp_new_failed|by apply dp_new_gone].
Qed.
Lemma round_check lo mid up i c p : lo ≤ mid < length priorities → mid < up → Inv c → in_round lo up i p →
  ∃ c' p', check (bound priorities lo) (priorities !!! mid) c p = Some (c', p', bool_decide (t i ≤ mid)) ∧ Inv c' ∧ after lo mid up i p'.
Proof.
  intros Hm Hu Hc [[Ht Hl]|(Htu & Ht & Hg)].
  - destruct (dp_live i lo mid c p Hc Hl Hm) as (c' & p' & -> & Hc' & Hp). exists c', p'. split_and!; [done|done|]. unfold after. case_bool_decide; [by left|].
    right. left. split_and!; [lia|done..].
  - destruct (dp_gone (bound priorities lo) (priorities !!! mid) c p Hc Hg) as (c' & p' & -> & Hc' & Hp). exists c', p'.
    rewrite bool_decide_eq_false_2; [|lia]. split_and!; [done|done|]. unfold after. auto.
Qed.
Lemma success_waiting lo mid up i p : mid < up → after lo mid up i p ∨ in_round lo up i p → waiting lo mid i (drop_losers p).
Proof.
  intros Hm [[(H1 & H2 & H)|[(H1 & H2 & H)|(H1 & H2 & H)]]|[[H2 H]|(H1 & H2 & H)]]; unfold waiting.
  1,4: left; split; [done|left]; by apply dp_up_live.
  1,2,3: right; split_and!; [lia|done|]; by (apply dp_up_failed || (by eapply dp_up_failed) || by apply dp_up_gone).
Qed.

Definition found_level (slices : list (list nat)) (first : Z) : Prop :=
  (first = (-1)%Z ∧ slices = [] ∧ ∀ j, j < n → length priorities ≤ t j) ∨
  ∃ k s0 s, first = Z.of_nat k ∧ k < length priorities ∧ (∀ j, j < n → k ≤ t j) ∧ best k s ∧ slices = s0 ++ [s].
Definition search_inv (up : nat) (slices : list (list nat)) (first : Z) : Prop :=
  (up = length priorities ∧ first = (-1)%Z ∧ slices = []) ∨
  (up < length priorities ∧ first = Z.of_nat up ∧ ∃ s0 s, slices = s0 ++ [s] ∧ selected_upto up s).

Context (sched : nat → Race) (Hsched : ∀ r, finish (sched r) ≡ₚ seq 0 n).

Lemma dichotomy_spec fuel : ∀ lo up c ps slices first, up - lo < fuel → lo ≤ up ≤ length priorities → length ps = n → Inv c →
  (∀ j, j < n → lo ≤ t j) → (∀ j p, ps !! j = Some p → waiting lo up j p) → search_inv up slices first →
  ∃ c' ps' slices' first', dichotomy_loop check (Z.of_nat cnt) sched new_round drop_losers fuel priorities (Z.of_nat lo) (Z.of_nat up - 1) (bound priorities lo) c ps slices first =
    Some (c', ps', slices', first') ∧ found_level slices' first'.
Proof.
  induction fuel as [|fuel IH]; intros lo up c ps slices first Hfuel Hlu Hn Hc Hlo Hps Hinv; [lia|]. cbn [dichotomy_loop].
  destruct (Z.ltb_spec (Z.of_nat up - 1) (Z.of_nat lo)) as [Hend|Hgo].
  { assert (lo = up) as -> by lia. exists c, ps, slices, first. split; [done|]. destruct Hinv as [(-> & -> & ->)|(Hup & -> & s0 & s & -> & Hs)]; [by left|].
    right. exists up, s0, s. split_and!; [done..|by apply upto_best|done]. }
  set (mid := (lo + up - 1) `div` 2). assert (lo ≤ mid < up) as Hmid.
  { subst mid. pose proof (Nat.div_mod (lo + up - 1) 2). pose proof (Nat.mod_upper_bound (lo + up - 1) 2). lia. }
  assert (((Z.of_nat lo + (Z.of_nat up - 1)) `div` 2)%Z = Z.of_nat mid) as ->.
  { subst mid. rewrite Nat2Z.inj_div. f_equal. lia. }
  rewrite Nat2Z.id. assert (∃ p, priorities !! mid = Some p) as [prio Hp] by (apply lookup_lt_is_Some_2; lia).
  rewrite Hp. cbn [mbind option_bind].
  assert (∀ i c p, Inv c → in_round lo up i p → ∃ c' p', check (bound priorities lo) prio c p = Some (c', p', bool_decide (t i ≤ mid)) ∧ Inv c' ∧ after lo mid up i p') as Hcheck.
  { intros i c0 p0 Hc0 H0. rewrite -(list_lookup_total_correct _ _ _ Hp). apply round_check; [lia..|done|done]. }
  assert (∀ j p, (new_round <$> ps) !! j = Some p → in_round lo up j p) as Hround.
  { intros j p. rewrite list_lookup_fmap. destruct (ps !! j) as [q|] eqn:E; [|done]. intros [= <-]. apply waiting_round. by apply Hps. }
  destruct (better_round_spec check cnt (bound priorities lo) prio (λ i, bool_decide (t i ≤ mid)) Inv (in_round lo up) (after lo mid up) Hcheck sched fuel 0 c (new_round <$> ps))
    as (c1 & ps1 & l & stop & E & Hc1 & Hstop & Hlen & Hnd & Hl & Hall & Hps1); [done|done|by rewrite length_fmap Hn|done|]. cbn [Z.of_nat] in E. rewrite E. cbn [mbind option_bind].
  rewrite length_fmap Hn in Hlen, Hl, Hall. cbn [Nat.add] in Hstop. destruct l as [|x l].
  - cbn [length]. rewrite bool_decide_eq_true_2; [|done]. cbn [negb].
    assert (stop = false) as Hs by (rewrite Hstop; apply bool_decide_eq_false; simpl; lia).
    assert (∀ j, j < n → mid < t j) as Hnone.
    { intros j Hj. destruct (decide (t j ≤ mid)) as [Ht|]; [|lia]. assert (j ∈ @nil nat) as []%elem_of_nil. apply Hall; [done|done|by apply bool_decide_eq_true]. }
    replace (Z.of_nat mid + 1)%Z with (Z.of_nat (S mid)) by lia.
    pose proof (IH (S mid) up c1 ps1 slices first) as IH'. cbn [bound] in IH'. rewrite (list_lookup_total_correct _ _ _ Hp) in IH'.
    apply IH'; [lia|lia|lia|done| | |done].
    + intros j Hj. pose proof (Hnone j Hj). lia.
    + intros j p Hj. assert (mid < t j) as Hm by (apply Hnone; apply lookup_lt_Some in Hj; lia).
      destruct (Hps1 j p Hj) as [[(H1 & _)|[(H1 & H2 & H)|(H1 & H2 & H)]]|[? _]]; [lia| | |by rewrite Hs in H]; unfold waiting; [left|right]; split_and!; auto; lia.
  - rewrite bool_decide_eq_false_2; [|done]. cbn [negb]. apply IH; [lia|lia|by rewrite length_fmap; lia|done|done| |].
    + intros j p. rewrite list_lookup_fmap. destruct (ps1 !! j) as [q|] eqn:Ej; [|done]. intros [= <-]. apply (success_waiting lo mid up); [lia|].
      destruct (Hps1 j q Ej) as [?|[_ ?]]; [by left|by right].
    + right. split_and!; [lia|done|]. exists slices, (x :: l). split; [done|]. split_and!; [done|done| |].
      * intros i [? ?%bool_decide_eq_true]%Hl. done.
      * intros Hc' i Hi Ht. apply Hall; [rewrite Hstop; apply bool_decide_eq_false; lia|done|by apply bool_decide_eq_true].
Qed.
End dichotomy.
End searches.

(** ** Both searches *)

Lemma take_new_prefix cnt l : ∀ acc, ∃ rest, take_new cnt l acc = acc ++ rest.
Proof.
  induction l as [|x l IH]; intros acc; cbn [take_new]; [exists []; by rewrite app_nil_r|]. case_bool_decide; [apply IH|].
  destruct (cnt <=? _)%Z; [by exists [x]|]. destruct (IH (acc ++ [x])) as [rest ->]. exists (x :: rest). by rewrite -app_assoc.
Qed.
Lemma select_order_prefix cnt slices : ∀ acc, ∃ rest, select_order cnt slices acc = acc ++ rest.
Proof.
  induction slices as [|l slices IH]; intros acc; cbn [select_order]; [exists []; by rewrite app_nil_r|].
  destruct (take_new_prefix cnt l acc) as [r1 ->]. destruct (cnt <=? _)%Z; [by exists r1|].
  destruct (IH (acc ++ r1)) as [r2 ->]. exists (r1 ++ r2). by rewrite app_assoc.
Qed.
(** The list of the last round comes first, cut to the number expected. *)
Lemma take_new_fresh cnt l : ∀ acc, NoDup (acc ++ l) → length acc < cnt → take_new (Z.of_nat cnt) l acc = take cnt (acc ++ l).
Proof.
  induction l as [|x l IH]; intros acc Hnd Hlen; cbn [take_new]; [rewrite app_nil_r take_ge; [done|lia]|].
  rewrite bool_decide_eq_false_2; [|apply NoDup_app in Hnd as (_ & Hno & _); intros Hx; apply (Hno x Hx); by left].
  rewrite length_app. cbn [length]. replace (acc ++ x :: l) with ((acc ++ [x]) ++ l) in Hnd |- * by by rewrite -app_assoc.
  destruct (Z.leb_spec (Z.of_nat cnt) (Z.of_nat (length acc + 1))).
  - rewrite take_app_le; [|rewrite length_app; simpl; lia]. rewrite take_ge; [done|]. rewrite length_app. simpl. lia.
  - apply IH; [done|]. rewrite length_app. simpl. lia.
Qed.
Lemma select_order_last cnt s0 s : NoDup s → 0 < cnt →
  ∃ r, select_order (Z.of_nat cnt) (rev (s0 ++ [s])) [] = take cnt s ++ r ∧ (cnt ≤ length s → r = []).
Proof.
  intros Hnd Hcnt. rewrite rev_app_distr. cbn [rev app select_order]. rewrite (take_new_fresh cnt s []); [|done..]. cbn [app]. rewrite length_take.
  destruct (Z.leb_spec (Z.of_nat cnt) (Z.of_nat (cnt `min` length s))).
  - exists []. by rewrite app_nil_r.
  - destruct (select_order_prefix (Z.of_nat cnt) (rev s0) (take cnt s)) as [r ->]. exists r. split; [done|lia].
Qed.
Lemma best_take t n cnt k l : 0 < cnt → best t n cnt k l → best t n cnt k (take cnt l) ∧ (cnt ≤ length l → length (take cnt l) = cnt).
Proof.
  intros Hcnt (H0 & H1 & H2 & H3). split; [split_and!|].
  - destruct l, cnt; [done|done|lia|done].
  - rewrite -(take_drop cnt l) in H1. by apply NoDup_app in H1 as [? _].
  - intros i Hi. apply H2. rewrite -(take_drop cnt l) elem_of_app. by left.
  - rewrite length_take. intros Hc. assert (length l < cnt) by lia. rewrite take_ge; [|lia]. by apply H3.
  - rewrite length_take. lia.
Qed.

(** C11: Let every node have a threshold [t], the index of the first priority with
    which it fits, and let the probes of the two searches keep the promises of
    [AscendingProber] and [DichotomyProber] for it: a probe selects a node exactly from
    its threshold on.  Then, in whatever order the probes of the rounds end and however
    many of them end after a round was stopped, both searches terminate without a panic
    with the same index of the first priority, the least threshold.  Both first return
    nodes of this threshold, none twice: all there are, so the same nodes, if these are
    fewer than expected; at least the number expected otherwise, and then only such
    nodes.  Which ones these are, and their order, depends on the race.  The nodes of
    the first search all need at most what any node left out needs. *)
Theorem searches_agree {C P} (priorities : list Z) (t : nat → nat) (cnt : nat) (checkA checkD : Z → Z → C → P → option (C * P * bool))
    (new_round drop_losers : P → P) (Inv : C → Prop) (LiveA LiveD Failed : nat → nat → P → Prop) (GoneA GoneD : P → Prop)
    (AP : AscendingProber priorities t checkA Inv LiveA GoneA) (DP : DichotomyProber priorities t checkD new_round drop_losers Inv LiveD Failed GoneD)
    (raceA raceD : nat → Race) (c : C) (ps : list P) (Hc : Inv c) (Hcnt : 0 < cnt)
    (HraceA : ∀ r, finish (raceA r) ≡ₚ seq 0 (length ps)) (HraceD : ∀ r, finish (raceD r) ≡ₚ seq 0 (length ps))
    (Hps : ∀ j p, ps !! j = Some p → LiveA j 0 p ∧ LiveD j 0 p) :
  ∃ cA psA cD psD la ld first,
    ascending_search checkA (Z.of_nat cnt) raceA priorities c ps = Some (cA, psA, la, first) ∧
    dichotomy_search checkD (Z.of_nat cnt) raceD new_round drop_losers priorities c ps = Some (cD, psD, ld, first) ∧
    cheapest priorities t (length ps) cnt la ∧
    ((first = (-1)%Z ∧ la = [] ∧ ld = [] ∧ ∀ j, j < length ps → length priorities ≤ t j) ∨
     ∃ k sa ra sd rd, first = Z.of_nat k ∧ k < length priorities ∧ (∀ j, j < length ps → k ≤ t j) ∧
       la = sa ++ ra ∧ ld = sd ++ rd ∧ best t (length ps) cnt k sa ∧ best t (length ps) cnt k sd ∧
       (cnt ≤ length sa ∧ cnt = length sd ∧ ra = [] ∧ rd = [] ∨ length sa < cnt ∧ sa ≡ₚ sd)).
Proof.
  set (n := length ps). set (len := length priorities).
  destruct (ascending_spec priorities t n cnt checkA Inv LiveA GoneA raceA HraceA len 0 c ps [] (-1)%Z)
    as (cA & psA & la & first & EA & Hla & HfA); [done|done|done|done| |by constructor| |by left; split_and!; [..|lia]|].
  { intros j p Hj. left. split; [lia|]. by apply (Hps j p Hj). }
  { intros i. rewrite elem_of_nil. lia. }
  destruct (dichotomy_spec priorities t n cnt checkD new_round drop_losers Inv LiveD Failed GoneD Hcnt raceD HraceD (S len) 0 len c ps [] (-1)%Z)
    as (cD & psD & slices & first' & ED & HfD); [lia|lia|done|done|lia| |by left|].
  { intros j p Hj. left. split; [lia|]. left. by apply (Hps j p Hj). }
  unfold ascending_search, dichotomy_search. change (bound priorities 0) with MinInt64 in EA, ED. rewrite drop_0 in EA. cbn [Z.of_nat] in EA, ED. fold len.
  assert (∀ k j s, best t n cnt k s → (∀ i, i < n → j ≤ t i) → j ≤ k) as Hle.
  { intros k j [|x s] (H0 & _ & H2 & _) Hj; [done|]. destruct (H2 x) as [Hx <-]; [by left|]. by apply Hj. }
  destruct HfA as [(-> & -> & HnA)|(k & sa & ra & -> & Hk & HminA & -> & HbA & HrA)], HfD as [(-> & -> & HnD)|(k' & s0 & s & -> & Hk' & HminD & HbD & ->)].
  - exists cA, psA, cD, psD, [], [], (-1)%Z. rewrite EA ED. split_and!; [done..|]. by left.
  - pose proof (Hle _ _ _ HbD HnA). lia.
  - pose proof (Hle _ _ _ HbA HnD). lia.
  - assert (k' = k) as ->. { pose proof (Hle _ _ _ HbD HminA). pose proof (Hle _ _ _ HbA HminD). lia. }
    destruct (select_order_last cnt s0 s) as (rd & Ed & Hrd); [apply HbD|done|]. destruct (best_take t n cnt k s Hcnt HbD) as [HbD' Hlen].
    exists cA, psA, cD, psD, (sa ++ ra), (take cnt s ++ rd), (Z.of_nat k). rewrite EA ED. cbn [mbind option_bind]. rewrite Ed. split_and!; [done..|]. right.
    exists k, sa, ra, (take cnt s), rd. do 7 (split; [done|]). destruct HbA as (HA0 & HA1 & HA2 & HA3), HbD as (HD0 & HD1 & HD2 & HD3).
    destruct (decide (length sa < cnt)) as [Hlt|Hge].
    + right. split; [done|]. assert (s ⊆+ sa) as Hsub.
      { apply NoDup_submseteq; [done|]. intros i [Hi Ht]%HD2. by apply HA3. }
      pose proof (submseteq_length _ _ Hsub). rewrite take_ge; [|lia]. apply NoDup_Permutation; [done..|]. intros i.
      split; [intros [Hi Ht]%HA2; apply HD3; [lia|done|done]|intros [Hi Ht]%HD2; by apply HA3].
    + left. assert (cnt ≤ length s) as Hs.
      { destruct (decide (length s < cnt)); [|lia]. assert (sa ⊆+ s) as Hsub%submseteq_length; [|lia].
        apply NoDup_submseteq; [done|]. intros i [Hi Ht]%HA2. by apply HD3. }
      split_and!; [lia|symmetry; by apply Hlen|apply HrA; lia|by apply Hrd].
Qed.

(** ** The probes of the code on two nodes

    The node [other] has a victim of priority 4, the node [node] victims of priority
    3 and 5 and fits without the first; between them a node that cannot be helped. *)

Module BetterExamples.
Import FilterExamples VictimExamples PreemptExamples CandidateExamples.

Definition nodes : list (option NodeInfo) := [node_Clone n_other; None; node_Clone n_two].
Definition levels : list Z := [3; 4]%Z.
Definition needs (i : nat) : nat := match i with O => 1 | 2 => 0 | _ => 2 end.
Definition ascend : Z → Z → CycleState → NodeProbe → option (CycleState * NodeProbe * bool) :=
  ascending_check cf0 (λ _, ∅) filters (λ _, None) (λ _ _, []) searching wants.
Definition bisect : Z → Z → CycleState → NodeProbe → option (CycleState * NodeProbe * bool) :=
  dichotomy_check cf0 (λ _, ∅) filters (λ _, None) (λ _ _, []) searching wants.
Definition probe_of (r : option (CycleState * NodeProbe * bool)) : NodeProbe := match r with Some r => r.1.2 | None => new_probe None end.
Definition probe (i : nat) : NodeProbe := new_probe (mjoin (nodes !! i)).
Definition state_1 : CycleState := match ascend MinInt64 3 state (probe 2) with Some r => r.1.1 | None => state end.
(** The shared map of match results was filled before. *)
Definition known (cs : CycleState) : Prop := cs = state_1.

Definition after_3 : NodeProbe := probe_of (ascend MinInt64 3 state_1 (probe 0)).
Definition after_4 : NodeProbe := probe_of (ascend 3 4 state_1 after_3).
Definition node_gone : NodeProbe := probe_of (ascend MinInt64 3 state_1 (probe 2)).
Definition fitted (i : nat) : NodeProbe := probe_of (bisect MinInt64 4 state_1 (probe i)).
Definition failed_3 : NodeProbe := probe_of (bisect MinInt64 3 state_1 (probe 0)).
Definition fitted_4 : NodeProbe := probe_of (bisect 3 4 state_1 (reset_failed failed_3)).

Ltac compute_known := (intros ->; vm_compute; reflexivity).
Lemma ascend_0_3 cs : known cs → ascend MinInt64 3 cs (probe 0) = Some (cs, after_3, false).
Proof. compute_known. Qed.
Lemma ascend_0_4 cs : known cs → ascend 3 4 cs after_3 = Some (state_1, after_4, true).
Proof. compute_known. Qed.
Lemma ascend_2_3 cs : known cs → ascend MinInt64 3 cs (probe 2) = Some (state_1, node_gone, true).
Proof. compute_known. Qed.
Lemma bisect_0_3 cs p : known cs → p = probe 0 ∨ p = fitted 0 → bisect MinInt64 3 cs p = Some (cs, failed_3, false).
Proof. intros -> [-> | ->]; vm_compute; reflexivity. Qed.
Lemma bisect_0_4 cs p : known cs → p = probe 0 ∨ p = fitted 0 → bisect MinInt64 4 cs p = Some (state_1, fitted 0, true).
Proof. intros -> [-> | ->]; vm_compute; reflexivity. Qed.
Lemma bisect_after_4 cs p : known cs → p = reset_failed failed_3 ∨ p = fitted_4 → bisect 3 4 cs p = Some (state_1, fitted_4, true).
Proof. intros -> [-> | ->]; vm_compute; reflexivity. Qed.
Lemma bisect_2_3 cs p : known cs → p = probe 2 ∨ p = fitted 2 → bisect MinInt64 3 cs p = Some (state_1, fitted 2, true).
Proof. intros -> [-> | ->]; vm_compute; reflexivity. Qed.
Lemma bisect_2_4 cs p : known cs → p = probe 2 ∨ p = fitted 2 → bisect MinInt64 4 cs p = Some (state_1, fitted 2, true).
Proof. intros -> [-> | ->]; vm_compute; reflexivity. Qed.

Definition gone (p : NodeProbe) : Prop := np_Copy p = None.
Definition live_asc (i k : nat) (p : NodeProbe) : Prop :=
  match i, k with
  | 0, 0 => p = probe 0
  | 0, _ => k = 1 ∧ p = after_3
  | 2, _ => k = 0 ∧ p = probe 2
  | _, _ => gone p
  end.
Definition live_dich (i lo : nat) (p : NodeProbe) : Prop :=
  match i, lo with
  | 0, 0 => p = probe 0 ∨ p = fitted 0
  | 0, _ => lo = 1 ∧ (p = reset_failed failed_3 ∨ p = fitted_4)
  | 2, _ => lo = 0 ∧ (p = probe 2 ∨ p = fitted 2)
  | _, _ => gone p
  end.
Definition failed (i lo : nat) (p : NodeProbe) : Prop :=
  match i with 0 => lo = 1 ∧ p = failed_3 | 2 => False | _ => gone p end.

Lemma gone_check lo hi cs p : gone p → ascend lo hi cs p = Some (cs, p, false) ∧ bisect lo hi cs p = Some (cs, p, false).
Proof. unfold gone, ascend, bisect, ascending_check, dichotomy_check. by intros ->. Qed.
Lemma known_1 : known state_1.
Proof. done. Qed.

#[local] Instance ascend_prober : AscendingProber levels needs ascend known live_asc gone.
Proof.
  split.
  - intros i k cs p Hcs Hp Hk. cbn [levels length] in Hk.
    assert (i ≠ 0 → i ≠ 2 → gone p → ∃ c' p', ascend (bound levels k) (levels !!! k) cs p = Some (c', p', bool_decide (needs i ≤ k)) ∧ known c' ∧
      if bool_decide (needs i ≤ k) then gone p' else live_asc i (S k) p') as Hgone.
    { intros H0 H2 Hg. destruct (gone_check (bound levels k) (levels !!! k) cs p Hg) as [-> _]. exists cs, p.
      rewrite bool_decide_eq_false_2.
      - split; [reflexivity|]. split; [exact Hcs|]. destruct i as [|[|[|i]]]; [by destruct H0|exact Hg|by destruct H2|exact Hg].
      - destruct i as [|[|[|i]]]; cbn [needs]; lia. }
    destruct i as [|[|[|i]]]; cbn [live_asc] in Hp; [|apply Hgone; [discriminate|discriminate|exact Hp]| |apply Hgone; [discriminate|discriminate|exact Hp]].
    + destruct k as [|k].
      * subst p. exists cs, after_3. split; [exact (ascend_0_3 cs Hcs)|]. split; [exact Hcs|]. split; reflexivity.
      * destruct Hp as [Hk1 ->]. injection Hk1 as ->. exists state_1, after_4. split; [exact (ascend_0_4 cs Hcs)|]. split; [exact known_1|].
        vm_compute. reflexivity.
    + destruct Hp as [-> ->]. exists state_1, node_gone. split; [exact (ascend_2_3 cs Hcs)|]. split; [exact known_1|]. vm_compute. reflexivity.
  - intros lo hi cs p Hcs Hp. destruct (gone_check lo hi cs p Hp) as [-> _]. exists cs, p. split; [reflexivity|]. by split.
Qed.
#[local] Instance bisect_prober : DichotomyProber levels needs bisect reset_failed drop_failed known live_dich failed gone.
Proof.
  assert (∀ p, np_Failed p = false → drop_failed p = p ∧ reset_failed p = p) as Hid by (by intros []; cbn; intros ->).
  assert (∀ i lo p, i = 0 ∨ i = 2 → live_dich i lo p → np_Failed p = false) as Hnf.
  { intros i lo p [-> | ->]; cbn [live_dich]; [destruct lo; [|intros [_ H]; revert H]|intros [_ H]; revert H]; intros [-> | ->]; vm_compute; reflexivity. }
  split.
  - intros i lo k cs p Hcs Hp Hk. cbn [levels length] in Hk.
    assert (i ≠ 0 → i ≠ 2 → gone p → ∃ c' p', bisect (bound levels lo) (levels !!! k) cs p = Some (c', p', bool_decide (needs i ≤ k)) ∧ known c' ∧
      if bool_decide (needs i ≤ k) then live_dich i lo p' else failed i (S k) p') as Hgone.
    { intros H0 H2 Hg. destruct (gone_check (bound levels lo) (levels !!! k) cs p Hg) as [_ ->]. exists cs, p.
      rewrite bool_decide_eq_false_2.
      - split; [reflexivity|]. split; [exact Hcs|]. destruct i as [|[|[|i]]]; [by destruct H0|exact Hg|by destruct H2|exact Hg].
      - destruct i as [|[|[|i]]]; cbn [needs]; lia. }
    assert (k = 0 ∨ k = 1) as Hk2 by lia.
    destruct i as [|[|[|i]]]; cbn [live_dich] in Hp; [|apply Hgone; [discriminate|discriminate|exact Hp]| |apply Hgone; [discriminate|discriminate|exact Hp]].
    + destruct lo as [|lo].
      * destruct Hk2 as [-> | ->].
        -- exists cs, failed_3. split; [exact (bisect_0_3 cs p Hcs Hp)|]. split; [exact Hcs|]. split; reflexivity.
        -- exists state_1, (fitted 0). split; [exact (bisect_0_4 cs p Hcs Hp)|]. split; [exact known_1|]. right. reflexivity.
      * destruct Hp as [Hlo Hp]. injection Hlo as ->. destruct Hk2 as [-> | ->]; [lia|]. exists state_1, fitted_4.
        split; [exact (bisect_after_4 cs p Hcs Hp)|]. split; [exact known_1|]. split; [reflexivity|right; reflexivity].
    + destruct Hp as [-> Hp]. exists state_1, (fitted 2). destruct Hk2 as [-> | ->];
        (split; [first [exact (bisect_2_3 cs p Hcs Hp)|exact (bisect_2_4 cs p Hcs Hp)]|]); (split; [exact known_1|]; split; [reflexivity|right; reflexivity]).
  - intros lo hi cs p Hcs Hp. destruct (gone_check lo hi cs p Hp) as [_ ->]. exists cs, p. split; [reflexivity|]. by split.
  - intros i lo p Hp. destruct i as [|[|[|i]]]; [|exact Hp| |exact Hp]; (rewrite (proj2 (Hid p (Hnf _ lo p _ Hp))); [exact Hp|]); auto.
  - intros [|[|[|i]]] lo p; cbn [failed live_dich]; try done. intros [-> ->]. split; [reflexivity|left; reflexivity].
  - done.
  - intros i lo p Hp. assert (gone p → gone (drop_failed p)) as Hg by (unfold gone, drop_failed; by destruct (np_Failed p)).
    destruct i as [|[|[|i]]]; [|exact (Hg Hp)| |exact (Hg Hp)]; (rewrite (proj1 (Hid p (Hnf _ lo p _ Hp))); [exact Hp|]); auto.
  - intros [|[|[|i]]] lo p; cbn [failed]; unfold gone, drop_failed; [intros [_ ->]; vm_compute; reflexivity| |done|]; by destruct (np_Failed p).
  - intros p. unfold gone, drop_failed. by destruct (np_Failed p).
Qed.

Definition probes : list NodeProbe := new_probe <$> nodes.
Lemma probes_live j p : probes !! j = Some p → live_asc j 0 p ∧ live_dich j 0 p.
Proof.
  assert (live_asc 0 0 (probe 0) ∧ live_dich 0 0 (probe 0)) as H0 by (split; [reflexivity|left; reflexivity]).
  assert (live_asc 1 0 (probe 1) ∧ live_dich 1 0 (probe 1)) as H1 by (split; reflexivity).
  assert (live_asc 2 0 (probe 2) ∧ live_dich 2 0 (probe 2)) as H2 by (split; split; [reflexivity|reflexivity|reflexivity|left; reflexivity]).
  assert (Forall (λ e, live_asc e.1 0 e.2 ∧ live_dich e.1 0 e.2) (imap pair probes)) as Hall.
  { constructor; [exact H0|]. constructor; [exact H1|]. constructor; [exact H2|constructor]. }
  intros Hj. apply (Forall_lookup_1 _ _ j (j, p) Hall). by rewrite list_lookup_imap Hj.
Qed.
(** The probe of node 2 stops the round, and one probe ends after it. *)
Definition race (order : list nat) (r : nat) : Race := {| finish := order; late := 1 |}.
Lemma race_perm order r : order ≡ₚ seq 0 3 → finish (race order r) ≡ₚ seq 0 (length probes).
Proof. done. Qed.
Lemma orders_perm : [1; 2; 0] ≡ₚ seq 0 3 ∧ [2; 0; 1] ≡ₚ seq 0 3.
Proof. split; [symmetry; exact (Permutation_cons_append [1; 2] 0)|exact (Permutation_cons_append [0; 1] 2)]. Qed.
Lemma ascend_run : ∃ cA psA, ascending_search ascend 1 (race [1; 2; 0]) levels state_1 probes = Some (cA, psA, [2], 0%Z).
Proof. eexists _, _. vm_compute. reflexivity. Qed.

Lemma searches_agree_witness : ∃ cA psA cD psD,
  ascending_search ascend 1 (race [1; 2; 0]) levels state_1 probes = Some (cA, psA, [2], 0%Z) ∧
  dichotomy_search bisect 1 (race [2; 0; 1]) reset_failed drop_failed levels state_1 probes = Some (cD, psD, [2], 0%Z).
Proof.
  destruct ascend_run as (cA & psA & EA).
  destruct (searches_agree levels needs 1 ascend bisect reset_failed drop_failed known live_asc live_dich failed gone gone ascend_prober bisect_prober
    (race [1; 2; 0]) (race [2; 0; 1]) state_1 probes eq_refl (Nat.lt_0_succ 0)
    (λ r, race_perm _ r (proj1 orders_perm)) (λ r, race_perm _ r (proj2 orders_perm)) probes_live) as (cA' & psA' & cD & psD & la & ld & first & EA' & ED & Hla & H).
  exists cA, psA, cD, psD. rewrite EA in EA'. injection EA' as _ _ <- <-.
  destruct H as [(H & _)|(k & sa & ra & sd & rd & Hk & _ & _ & Ela & -> & HA & (_ & _ & HD & _) & Hr)]; [discriminate H|].
  destruct k; [|discriminate Hk]. destruct Hr as [(_ & Hlen & -> & ->)|[Hlen _]]; [|destruct HA as [HA _]; destruct sa; [by destruct HA|cbn in Hlen; lia]].
  split; [exact EA|]. rewrite app_nil_r in ED. destruct sd as [|x [|y sd]]; [discriminate Hlen| |discriminate Hlen].
  destruct (HD x) as [Hx Ht]; [by left|]. change (length probes) with 3 in Hx.
  destruct x as [|[|[|x]]]; [discriminate Ht|discriminate Ht|exact ED|lia].
Defined.
End BetterExamples.
