(* ===== verification/PodSchedule.v ===== *)
(** * Placing a pod on a node

    pkg/scheduler/core/pod_scheduler/pod_scheduler.go: the search for nodes that
    pass the filters, the scores, the choice of a host and the nodes cached for the
    owner of a pod; with the runners of the prefilter and score plugins
    (pkg/scheduler/framework/runtime/framework.go) and the node groups of
    pkg/framework/api/node_group.go.

    The nodes are checked in the order of the list, from a random start; the code
    checks them in parallel, so the order is one of those that can happen.  The
    number of nodes to find is taken to be at least zero, as the code allocates a
    slice of that length.  [None] is
    a panic; an error is a value of [ScheduleError]. *)
From S2P Require Import MinHeap Prelude GoStrings PodModel PodState HashSlice Resource MicroTopo PodInfos Numa NodeInfo Framework NodeClone NodeStore VictimSearch IsolatedCache.

Local Open Scope godel_scope.
Local Open Scope string_scope.

Inductive ScheduleError := PreFilterFailed | FilterError | ScoreError | EmptyPriorityList | FitError | CacheMiss | NoPreferredNode.

(** ** Prefilter plugins *)

Record PreFilterPlugin := { pf_Name : string; pf_PreFilter : CycleState → Pod → CycleState * Status }.
(** In debug mode the remaining plugins run after a failure. *)
Fixpoint prefilter_loop (debug : bool) (pls : list PreFilterPlugin) (cs : CycleState) (p : Pod) (finalStatus : Status) : CycleState * Status :=
  match pls with
  | [] => (cs, finalStatus)
  | pl :: pls' =>
      let '(cs, status) := pf_PreFilter pl cs p in
      if IsSuccess status then prefilter_loop debug pls' cs p finalStatus
      else
        let finalStatus := match finalStatus with
                           | None => if IsUnschedulable status then status else Some Error
                           | Some _ => finalStatus end in
        if debug then prefilter_loop debug pls' cs p finalStatus else (cs, finalStatus)
  end.
Definition RunPreFilterPlugins (pls : list PreFilterPlugin) (cs : CycleState) (p : Pod) : CycleState * Status :=
  prefilter_loop (GetPodDebugMode p ≟ "on") pls cs p None.

(** ** Scores *)

Definition MaxNodeScore : Z := 100.
Definition MinNodeScore : Z := 0.
(** What a prescore plugin writes to the cycle state for its score plugin depends on
    the pod and on the nodes found, so the score plugin takes these nodes. *)
Record PreScorePlugin := { pc_PreScore : CycleState → Pod → list NodeInfo → Status }.
Fixpoint RunPreScorePlugins (pls : list PreScorePlugin) (cs : CycleState) (p : Pod) (nodes : list NodeInfo) : Status :=
  match pls with
  | [] => None
  | pl :: pls' => if negb (IsSuccess (pc_PreScore pl cs p nodes)) then Some Error else RunPreScorePlugins pls' cs p nodes
  end.
Record ScorePlugin := {
  sp_Score : CycleState → Pod → list NodeInfo → string → option Z;
  sp_Normalize : option (list NodeScore → option (list NodeScore));
  sp_weight : Z
}.
(** A node without a name is skipped and keeps the zero value. *)
Definition score_node (pl : ScorePlugin) (cs : CycleState) (p : Pod) (nodes : list NodeInfo) (nodeName : string) : option NodeScore :=
  if nodeName ≟ "" then Some zeroNode else s ← sp_Score pl cs p nodes nodeName; Some (mkNodeScore nodeName s).
Definition weighted (weight : Z) (ns : NodeScore) : option NodeScore :=
  if ((MaxNodeScore <? Score ns) || (Score ns <? MinNodeScore))%Z then None
  else Some (mkNodeScore (MinHeap.Name ns) (wrap64 (Score ns * weight))).
Definition run_score_plugin (cs : CycleState) (p : Pod) (nodes : list NodeInfo) (nodeNames : list string) (pl : ScorePlugin) : option (list NodeScore) :=
  l ← mapM (score_node pl cs p nodes) nodeNames;
  l ← match sp_Normalize pl with None => Some l | Some f => f l end;
  mapM (weighted (sp_weight pl)) l.
Definition RunScorePlugins (pls : list ScorePlugin) (cs : CycleState) (p : Pod) (nodes : list NodeInfo) (nodeNames : list string)
    : option (list (list NodeScore)) :=
  mapM (run_score_plugin cs p nodes nodeNames) pls.

(** The scores of the plugins are added; a plugin that returned too few is a panic. *)
Definition sum_score (scores : list (list NodeScore)) (i : nat) (nodeName : string) : option NodeScore :=
  foldl (λ acc l, r ← acc; s ← l !! i; Some (mkNodeScore (MinHeap.Name r) (wrap64 (Score r + Score s))))
    (Some (mkNodeScore nodeName 0)) scores.
Definition prioritizeNodes (prescorers : list PreScorePlugin) (pls : list ScorePlugin) (cs : CycleState) (p : Pod) (nodes : list NodeInfo)
    : option (ScheduleError + list NodeScore) :=
  if negb (IsSuccess (RunPreScorePlugins prescorers cs p nodes)) then Some (inl ScoreError) else
  let nodeNames := getNodeName <$> nodes in
  match RunScorePlugins pls cs p nodes nodeNames with
  | None => Some (inl ScoreError)
  | Some scores => l ← mapM (λ e, sum_score scores e.1 e.2) (imap pair nodeNames); Some (inr l)
  end.

(** ** Nodes that pass the filters *)

(** What the scheduling request of a unit says ([UnitSchedulingRequest]). *)
Record UnitSchedulingRequest := { AllMember : Z; EverScheduled : bool }.

Definition getNumberOfFeasibleNodesToFind (percentage numAllNodes : Z) : Z :=
  if (100 <=? percentage)%Z then numAllNodes else
  let expectedNodeCount := Z.quot (wrap32 (numAllNodes * percentage)) 100 in
  if (expectedNodeCount =? 0)%Z then 1%Z else expectedNodeCount.
(** 0 is the default of both percentages. *)
Definition numFeasibleNodesToFind (percentageOfNodesToScore increasedPercentage : Z) (numAllNodes : Z) (longRunningTask : bool)
    (usr : UnitSchedulingRequest) (increase : bool) : Z :=
  if increase && negb (increasedPercentage =? 0)%Z then getNumberOfFeasibleNodesToFind increasedPercentage numAllNodes
  else if negb (percentageOfNodesToScore =? 0)%Z then getNumberOfFeasibleNodesToFind percentageOfNodesToScore numAllNodes
  else
    let expectedNodeCount :=
      if (1 <? AllMember usr)%Z && negb (EverScheduled usr) || longRunningTask then wrap32 (AllMember usr + 50) else wrap32 (AllMember usr + 10) in
    if (numAllNodes <? expectedNodeCount)%Z then numAllNodes else expectedNodeCount.

Definition NodeToStatusMap : Type := gmap string Status.
Definition IncreasePercentageOfNodesToScoreAnnotationKey : string := "godel.bytedance.com/increase-percentage-of-nodes-to-score".

(** [GetKey] of groups and circles. *)
Definition Contains (s sub : string) : bool := bool_decide (is_Some (String.index 0 sub s)).
Definition GenerateReadableKey (name : string) : string := if Contains name "[" || Contains name "]" then name else "[" ++ name ++ "]".
Record NodeCircle := { nc_key : string; InPartitionNodes : list NodeInfo; OutOfPartitionNodes : list NodeInfo }.
Definition circle_GetKey (c : NodeCircle) : string := GenerateReadableKey (nc_key c).
Definition circle_List (c : NodeCircle) : list NodeInfo := (InPartitionNodes c ++ OutOfPartitionNodes c)%list.

(** The hooks of a preferred node are given by plugins of units. *)
Record PreferNodeExtension := {
  pn_Pre : CycleState → Pod → NodeInfo → NodeInfo * CycleState * Status;
  pn_Post : CycleState → Pod → NodeInfo → Status → Status
}.
Record NodeGroup := {
  ng_Key : string; NodeCircles : list NodeCircle; PreferredNodes : list NodeInfo; PreferHooks : string → list PreferNodeExtension
}.
Definition group_GetKey (g : NodeGroup) : string := GenerateReadableKey (ng_Key g).

(** The stages of scheduling and preemption are bits; all are on by default. *)
Definition StageScheduleInPreferredNodes : Z := 1.
Definition StageScheduleInNodeCircles : Z := 2.
Definition StagePreemptInPreferredNodes : Z := 4.
Definition StagePreemptInNodeCircles : Z := 8.
Definition DefaultSchedulingStagesStates : Z := 15.
Definition SetSchedulingStageState (currentStates changedStage : Z) (expectedExecute : bool) : Z :=
  if expectedExecute then Z.lor currentStates changedStage else Z.land currentStates (Z.lnot changedStage).
Definition GetSchedulingStagesState (states stage : Z) : bool := negb (Z.land states stage =? 0)%Z.

Section schedule.
Context {MR : MapRange} (cf : Config) (jsonLabels : string → gmap string string).
Context (prefilters : list PreFilterPlugin) (pls : list FilterPlugin) (prescorers : list PreScorePlugin) (scorers : list ScorePlugin).
(** The random start of the search and of [rand.Intn] in the choice of a host. *)
Context (startNodeIndex : list NodeInfo → nat) (intn : nat → nat → nat).
Context (percentageOfNodesToScore increasedPercentageOfNodesToScore : Z).
Context (GetNodeInfo : string → option NodeInfo).
Implicit Types (cs : CycleState) (pod : Pod) (n : NodeInfo) (cache : isolatedCache) (usr : UnitSchedulingRequest).

(** Whether the node fits, with the status, or an error of a filter. *)
Definition run_filters cs pod n : option (bool * Status) :=
  let '(fit, statusMap) := PodPassesFiltersOnNode jsonLabels pls cs pod n [] in
  let status := Merge statusMap in
  if negb (IsSuccess status) && negb (IsUnschedulable status) then None else Some (fit, status).
Definition check_node cs pod (cachedStatuses : NodeToStatusMap) n : option (bool * Status) :=
  match cachedStatuses !! getNodeName n with
  | Some st => if IsSuccess st then Some (true, None) else run_filters cs pod n
  | None => run_filters cs pod n
  end.

Fixpoint feasible_loop cs pod (cachedStatuses : NodeToStatusMap) (numNodesToFind found : Z) (nodes : list NodeInfo) (statuses : NodeToStatusMap)
    : ScheduleError + (list NodeInfo * NodeToStatusMap) :=
  match nodes with
  | [] => inr ([], statuses)
  | n :: nodes' =>
      match check_node cs pod cachedStatuses n with
      | None => inl FilterError
      | Some (true, _) =>
          if (numNodesToFind <=? found)%Z then inr ([], statuses) else
          match feasible_loop cs pod cachedStatuses numNodesToFind (found + 1) nodes' statuses with
          | inl e => inl e
          | inr (l, statuses) => inr (n :: l, statuses)
          end
      | Some (false, status) =>
          feasible_loop cs pod cachedStatuses numNodesToFind found nodes'
            (if IsSuccess status then statuses else <[getNodeName n := status]> statuses)
      end
  end.
Definition rotate_nodes (start : nat) (nodes : list NodeInfo) : list NodeInfo := (drop start nodes ++ take start nodes)%list.

Definition findFeasibleNodes cs pod (statuses cachedStatuses : NodeToStatusMap) (nodes : list NodeInfo) (isLongRunningTask : bool) usr
    : ScheduleError + (list NodeInfo * NodeToStatusMap) :=
  if length nodes ≟ 0%nat then inr ([], statuses) else
  let increase := anno_lookup pod IncreasePercentageOfNodesToScoreAnnotationKey ≟ Some "true" in
  let numNodesToFind := numFeasibleNodesToFind percentageOfNodesToScore increasedPercentageOfNodesToScore
                          (Z.of_nat (length nodes)) isLongRunningTask usr increase in
  if (numNodesToFind =? 0)%Z then inr ([], statuses) else
  feasible_loop cs pod cachedStatuses numNodesToFind 0 (rotate_nodes (startNodeIndex nodes) nodes) statuses.

(** The nodes of the partition of the scheduler are preferred. *)
Definition findNodesThatPassFilters cs pod (statuses cachedStatuses : NodeToStatusMap) (circle : NodeCircle) usr
    : ScheduleError + (list NodeInfo * NodeToStatusMap) :=
  match findFeasibleNodes cs pod statuses cachedStatuses (InPartitionNodes circle) (IsLongRunningTask pod) usr with
  | inl e => inl e
  | inr (l, statuses) =>
      if negb (length l ≟ 0%nat) then inr (l, statuses)
      else findFeasibleNodes cs pod statuses cachedStatuses (OutOfPartitionNodes circle) (IsLongRunningTask pod) usr
  end.

Definition findNodesThatFitPod cs pod (circle : NodeCircle) usr (cachedStatuses : NodeToStatusMap)
    : CycleState * (ScheduleError + (list NodeInfo * NodeToStatusMap)) :=
  let '(cs, s) := RunPreFilterPlugins prefilters cs pod in
  if negb (IsSuccess s) then
    if negb (IsUnschedulable s) then (cs, inl PreFilterFailed)
    else (cs, inr ([], foldl (λ m n, <[getNodeName n := s]> m) ∅ (circle_List circle)))
  else (cs, findNodesThatPassFilters cs pod ∅ cachedStatuses circle usr).

(** ** Nodes cached for the owner of the pod *)

Fixpoint cached_nodes_loop cs pod (podOwner group : string) (names : list string) cache : isolatedCache * option string :=
  match names with
  | [] => (cache, None)
  | nodeName :: names' =>
      let '(exist_, g) := IsNodeInCachedMap podOwner nodeName cache in
      if exist_ && (g ≟ group) && match GetNodeInfo nodeName with
                                  | Some n => (PodPassesFiltersOnNode jsonLabels pls cs pod n []).1
                                  | None => false end
      then (cache, Some nodeName)
      else cached_nodes_loop cs pod podOwner group names' (DeleteNodeForPodOwner podOwner nodeName cache)
  end.
Definition GetCachedNodesAndSchedule (now : Z) cs pod (podOwner group : string) cache : isolatedCache * CycleState * (ScheduleError + string) :=
  let '(cs, s) := RunPreFilterPlugins prefilters cs pod in
  if negb (IsSuccess s) then (cache, cs, inl PreFilterFailed) else
  let cache := CleanupCachedNodesForPodOwner now cache in
  let '(cache, host) := cached_nodes_loop cs pod podOwner group (GetOrderedNodesForPodOwner podOwner cache) cache in
  (cache, cs, match host with Some h => inr h | None => inl CacheMiss end).

(** ** The result for one pod *)

Record PodScheduleResult := {
  NumberOfEvaluatedNodes : Z; NumberOfFeasibleNodes : Z; SuggestedHost : string; FilteredNodesStatuses : NodeToStatusMap
}.
Definition empty_result (statuses : NodeToStatusMap) : PodScheduleResult :=
  {| NumberOfEvaluatedNodes := 0; NumberOfFeasibleNodes := 0; SuggestedHost := ""; FilteredNodesStatuses := statuses |}.

Definition has_pod_affinity (pod : Pod) : bool := bool_decide (is_Some (Affinity pod ≫= aff_Pod)).

Definition scheduleInSpecificNodeCircle (now : Z) cs pod (podOwner : string) (circle : NodeCircle) usr (cachedStatusMap : NodeToStatusMap) cache
    : option (isolatedCache * CycleState * PodScheduleResult * option ScheduleError) :=
  let '(cs, r) := findNodesThatFitPod cs pod circle usr cachedStatusMap in
  match r with
  | inl e => Some (cache, cs, empty_result ∅, Some e)
  | inr (feasibleNodes, statuses) =>
      let evaluated := (Z.of_nat (length feasibleNodes) + Z.of_nat (size statuses))%Z in
      match feasibleNodes with
      | [] => Some (cache, cs, empty_result statuses, Some FitError)
      | [n] => Some (cache, cs, {| NumberOfEvaluatedNodes := evaluated; NumberOfFeasibleNodes := 1; SuggestedHost := getNodeName n;
                                   FilteredNodesStatuses := statuses |}, None)
      | _ =>
          scores ← prioritizeNodes prescorers scorers cs pod feasibleNodes;
          match scores with
          | inl e => Some (cache, cs, empty_result ∅, Some e)
          | inr nodeScoreList =>
              '(selected, toCache) ← selectHostAndCacheResults intn nodeScoreList (needCacheNodesForPod (has_pod_affinity pod) podOwner)
                                       (AllMember usr) (EverScheduled usr);
              let cache := match toCache with
                           | Some names => CacheAscendingOrderNodesForPodOwner now podOwner (circle_GetKey circle) names cache
                           | None => cache end in
              match selected with
              | inl _ => Some (cache, cs, empty_result ∅, Some EmptyPriorityList)
              | inr host => Some (cache, cs, {| NumberOfEvaluatedNodes := evaluated; NumberOfFeasibleNodes := Z.of_nat (length feasibleNodes);
                                                SuggestedHost := host; FilteredNodesStatuses := statuses |}, None)
              end
          end
      end
  end.

(** The statuses of the failed nodes are kept for the other pods of the template;
    without circles the result is the last one. *)
Fixpoint circles_schedule (now : Z) cs pod (podOwner : string) (circles : list NodeCircle) usr (cachedStatusMap : NodeToStatusMap) cache
    (last : PodScheduleResult * option ScheduleError) : option (isolatedCache * CycleState * NodeToStatusMap * PodScheduleResult * option ScheduleError) :=
  match circles with
  | [] => Some (cache, cs, cachedStatusMap, last.1, last.2)
  | circle :: circles' =>
      '(cache, cs, result, err) ← scheduleInSpecificNodeCircle now cs pod podOwner circle usr cachedStatusMap cache;
      let cachedStatusMap := FilteredNodesStatuses result ∪ cachedStatusMap in
      if negb (SuggestedHost result ≟ "") then Some (cache, cs, cachedStatusMap, result, err)
      else circles_schedule now cs pod podOwner circles' usr cachedStatusMap cache (result, err)
  end.

(** The deferred function removes the host from the map only if there is an error,
    and then there is no host. *)
Definition ScheduleInNodeCircles (now : Z) cs pod (groupKey : string) (circles : list NodeCircle) usr (cachedStatusMap : NodeToStatusMap) cache
    : option (isolatedCache * CycleState * NodeToStatusMap * PodScheduleResult * option ScheduleError) :=
  let podOwner := GetPodOwner pod in
  let from_cache := if podOwner ≟ "" then (cache, cs, inl CacheMiss) else GetCachedNodesAndSchedule now cs pod podOwner groupKey cache in
  let '(cache, cs, hit) := from_cache in
  match hit with
  | inr host => Some (cache, cs, cachedStatusMap, {| NumberOfEvaluatedNodes := 1; NumberOfFeasibleNodes := 1; SuggestedHost := host;
                                                     FilteredNodesStatuses := ∅ |}, None)
  | inl e =>
      let last := if podOwner ≟ "" then (empty_result ∅, None) else (empty_result ∅, Some e) in
      '(cache, cs, statusMap, result, err) ← circles_schedule now cs pod podOwner circles usr cachedStatusMap cache last;
      let statusMap := match err with
                       | Some _ => if SuggestedHost result ≟ "" then statusMap else delete (SuggestedHost result) statusMap
                       | None => statusMap end in
      Some (cache, cs, statusMap, result, err)
  end.

(** ** Preferred nodes *)

(** The hooks of a preferred node, in order, up to the first that fails; a failed
    hook may already have changed the node and the state to use. *)
Fixpoint PrePreferNode (hooks : list PreferNodeExtension) cs pod n : NodeInfo * CycleState * Status :=
  match hooks with
  | [] => (n, cs, None)
  | hook :: hooks' =>
      let '(n, cs, st) := pn_Pre hook cs pod n in
      if IsSuccess st then match hooks' with [] => (n, cs, st) | _ => PrePreferNode hooks' cs pod n end else (n, cs, st)
  end.
Fixpoint PostPreferNode (hooks : list PreferNodeExtension) cs pod n (status : Status) : Status :=
  match hooks with
  | [] => None
  | hook :: hooks' =>
      let st := pn_Post hook cs pod n status in
      if IsSuccess st then match hooks' with [] => st | _ => PostPreferNode hooks' cs pod n status end else st
  end.

(** [i] counts the nodes checked; a filter that fails with an error counts as one
    that rejects the node. *)
Fixpoint preferred_loop (hooksOf : string → list PreferNodeExtension) cs pod (i : Z) (nodes : list NodeInfo) (cachedStatusMap : NodeToStatusMap)
    : NodeToStatusMap * PodScheduleResult * option ScheduleError :=
  match nodes with
  | [] => (cachedStatusMap, empty_result ∅, Some NoPreferredNode)
  | n :: nodes' =>
      let next := preferred_loop hooksOf cs pod (i + 1) nodes' cachedStatusMap in
      let hooks := hooksOf (getNodeName n) in
      let '(nodeInfoToUse, stateToUse, preferStatus) := PrePreferNode hooks cs pod n in
      if negb (IsSuccess preferStatus) then next else
      let '(fit, statusMap) := PodPassesFiltersOnNode jsonLabels pls stateToUse pod nodeInfoToUse [] in
      if negb (IsSuccess (PostPreferNode hooks cs pod n (Merge statusMap))) then next else
      if fit then
        (delete (getNodeName n) cachedStatusMap,
         {| NumberOfEvaluatedNodes := i + 1; NumberOfFeasibleNodes := 1; SuggestedHost := getNodeName n; FilteredNodesStatuses := ∅ |}, None)
      else next
  end.
Definition ScheduleInPreferredNodes cs pod (group : NodeGroup) (cachedStatusMap : NodeToStatusMap)
    : CycleState * NodeToStatusMap * PodScheduleResult * option ScheduleError :=
  if length (PreferredNodes group) ≟ 0%nat then (cs, cachedStatusMap, empty_result ∅, Some NoPreferredNode) else
  let '(cs, s) := RunPreFilterPlugins prefilters cs pod in
  if negb (IsSuccess s) then (cs, cachedStatusMap, empty_result ∅, Some PreFilterFailed) else
  let '(statusMap, result, err) := preferred_loop (PreferHooks group) cs pod 0 (PreferredNodes group) cachedStatusMap in
  (cs, statusMap, result, err).

(** The stages that the cycle state switches on are tried in order; with none the
    result is empty and there is no error. *)
Definition ScheduleInSpecificNodeGroup (stages : Z) (now : Z) cs pod (group : NodeGroup) usr (cachedStatusMap : NodeToStatusMap) cache
    : option (isolatedCache * CycleState * NodeToStatusMap * PodScheduleResult * option ScheduleError) :=
  let '(cs, cachedStatusMap, result, err) :=
    if GetSchedulingStagesState stages StageScheduleInPreferredNodes then ScheduleInPreferredNodes cs pod group cachedStatusMap
    else (cs, cachedStatusMap, empty_result ∅, None) in
  if GetSchedulingStagesState stages StageScheduleInPreferredNodes && match err with None => true | Some _ => false end
  then Some (cache, cs, cachedStatusMap, result, err)
  else if GetSchedulingStagesState stages StageScheduleInNodeCircles
  then ScheduleInNodeCircles now cs pod (group_GetKey group) (NodeCircles group) usr cachedStatusMap cache
  else Some (cache, cs, cachedStatusMap, result, err).
End schedule.
