(* ===== verification/PodScheduleSpec.v ===== *)
(** * The host chosen for a pod

    The search of PodSchedule.v returns a host that passes every filter plugin, in
    the first circle that has one and of a maximal score among the nodes found; it
    finds one whenever some node passes; and a host from the cache of the owner is
    at most five minutes old. *)
From S2P Require Import MinHeap Prelude GoStrings PodModel PodState HashSlice Resource MicroTopo PodInfos PodInfosProps Numa NodeInfo Framework NodeClone NodeStore VictimSearch IsolatedCache FilterPlugins PodSchedule.

Local Open Scope godel_scope.
Local Open Scope string_scope.

Lemma mapM_cons_Some {A B} (f : A → option B) x l y k : f x = Some y → mapM f l = Some k → mapM f (x :: l) = Some (y :: k).
Proof. intros E1 E2. simpl. by rw E1 /= E2. Qed.

Definition no_success (m : NodeToStatusMap) : Prop := ∀ k s, m !! k = Some s → IsSuccess s = false.

Lemma no_success_empty : no_success ∅.
Proof. intros k s. by rw lookup_empty. Qed.
Lemma no_success_insert m k s : no_success m → IsSuccess s = false → no_success (<[k := s]> m).
Proof. intros Hm Hs k' s' [[_ <-]|[_ H]]%lookup_insert_Some; [done|by eapply Hm]. Qed.
Lemma no_success_delete m k : no_success m → no_success (delete k m).
Proof. intros Hm k' s [_ H]%lookup_delete_Some. by eapply Hm. Qed.
Lemma no_success_union m1 m2 : no_success m1 → no_success m2 → no_success (m1 ∪ m2).
Proof. intros H1 H2 k s [H|[_ H]]%lookup_union_Some_raw; by [eapply H1|eapply H2]. Qed.
Lemma no_success_foldl (nodes : list NodeInfo) s m : no_success m → IsSuccess s = false →
  no_success (foldl (λ m n, <[getNodeName n := s]> m) m nodes).
Proof.
  revert m. induction nodes as [|n nodes IH]; intros m Hm Hs; [done|]. apply IH; [|done]. by apply no_success_insert.
Qed.

(** ** The number of nodes to find is positive *)

Record count_ok (percentage increased : Z) (usr : UnitSchedulingRequest) (numAllNodes : Z) : Prop := {
  co_percentage : (0 <= percentage)%Z; co_increased : (0 <= increased)%Z;
  co_members : (0 <= AllMember usr < 2 ^ 31 - 50)%Z; co_nodes : (0 <= numAllNodes < 2 ^ 24)%Z
}.
Lemma feasible_number_positive percentage n : (0 < percentage)%Z → (0 < n < 2 ^ 24)%Z → (0 < getNumberOfFeasibleNodesToFind percentage n)%Z.
Proof.
  intros Hp Hn. unfold getNumberOfFeasibleNodesToFind. destruct (Z.leb_spec 100 percentage); [lia|].
  rw wrap32_id; [|nia]. destruct (Z.eqb_spec (Z.quot (n * percentage) 100) 0); [lia|].
  assert (0 <= Z.quot (n * percentage) 100)%Z; [apply Z.quot_pos; nia|lia].
Qed.
Lemma find_number_positive percentage increased n long usr inc : count_ok percentage increased usr n → (0 < n)%Z →
  (0 < numFeasibleNodesToFind percentage increased n long usr inc)%Z.
Proof.
  intros [Hp Hi Hm Hn] Hpos. unfold numFeasibleNodesToFind.
  assert (∀ b : bool, (0 < if negb (percentage =? 0) then getNumberOfFeasibleNodesToFind percentage n else
    let expected := if b then wrap32 (AllMember usr + 50) else wrap32 (AllMember usr + 10) in
    if n <? expected then n else expected)%Z) as Hd.
  { intros b. destruct (Z.eqb_spec percentage 0); cbn [negb]; [|apply feasible_number_positive; lia].
    destruct b; (rw wrap32_id; [|lia]); cbv zeta; destruct (_ <? _)%Z; lia. }
  destruct (Z.eqb_spec increased 0); destruct inc; cbn [andb negb]; [apply Hd..| |apply Hd]. apply feasible_number_positive; lia.
Qed.

Lemma rotate_perm start (nodes : list NodeInfo) : rotate_nodes start nodes ≡ₚ nodes.
Proof. unfold rotate_nodes. by rw Permutation_app_comm take_drop. Qed.

Section spec.
Context {MR : MapRange} (jsonLabels : string → gmap string string).
Context (prefilters : list PreFilterPlugin) (pls : list FilterPlugin) (prescorers : list PreScorePlugin) (scorers : list ScorePlugin).
Context (startNodeIndex : list NodeInfo → nat) (intn : nat → nat → nat).
Context (percentage increased : Z) (GetNodeInfo : string → option NodeInfo).
Implicit Types (cs : CycleState) (pod : Pod) (n : NodeInfo) (cache : isolatedCache) (usr : UnitSchedulingRequest).

Definition fits cs pod n : bool := (PodPassesFiltersOnNode jsonLabels pls cs pod n []).1.

Notation find_loop := (feasible_loop jsonLabels pls).
Notation find_nodes := (findFeasibleNodes jsonLabels pls startNodeIndex percentage increased).
Notation find_pass := (findNodesThatPassFilters jsonLabels pls startNodeIndex percentage increased).
Notation find_fit := (findNodesThatFitPod jsonLabels prefilters pls startNodeIndex percentage increased).
Notation schedule_circle := (scheduleInSpecificNodeCircle jsonLabels prefilters pls prescorers scorers startNodeIndex intn percentage increased).
Notation schedule_circles := (circles_schedule jsonLabels prefilters pls prescorers scorers startNodeIndex intn percentage increased).
Notation schedule := (ScheduleInNodeCircles jsonLabels prefilters pls prescorers scorers startNodeIndex intn percentage increased GetNodeInfo).

Lemma run_filters_fits cs pod n b s : run_filters jsonLabels pls cs pod n = Some (b, s) → b = fits cs pod n ∧ b = IsSuccess s.
Proof.
  unfold run_filters, fits, PodPassesFiltersOnNode. cbv zeta. destruct (_ && _); [done|]. by intros [= <- <-].
Qed.
Lemma check_node_fits cs pod m n b s : no_success m → check_node jsonLabels pls cs pod m n = Some (b, s) → b = fits cs pod n ∧ b = IsSuccess s.
Proof.
  unfold check_node. destruct (m !! getNodeName n) as [st|] eqn:E; intros Hm; [rw (Hm _ _ E)|]; apply run_filters_fits.
Qed.

(** What the search promises: nodes that fit, from the list, and some if there is one. *)
Definition search_ok cs pod (nodes l : list NodeInfo) (full : Prop) : Prop :=
  (∀ n, n ∈ l → n ∈ nodes ∧ fits cs pod n = true) ∧ (l = [] → full ∨ ∀ n, n ∈ nodes → fits cs pod n = false).

Lemma search_loop_ok cs pod m num : no_success m → ∀ nodes found sts l sts', no_success sts →
  find_loop cs pod m num found nodes sts = inr (l, sts') →
  search_ok cs pod nodes l (num <= found)%Z ∧ no_success sts'.
Proof.
  intros Hm nodes. induction nodes as [|n nodes IH]; intros found sts l sts' Hs; cbn [feasible_loop].
  { intros [= <- <-]. split; [|done]. split; [set_solver|]. right. set_solver. }
  destruct (check_node jsonLabels pls cs pod m n) as [[[] s]|] eqn:E; [| |done]; destruct (check_node_fits _ _ _ _ _ _ Hm E) as [Hf Hst].
  - destruct (Z.leb_spec num found). { intros [= <- <-]. split; [|done]. split; [set_solver|]. by left. }
    destruct (find_loop _ _ _ _ _ nodes sts) as [|[l0 s0]] eqn:E0; [done|]. intros [= <- <-].
    destruct (IH _ _ _ _ Hs E0) as [[Hin _] ?]. split; [|done]. split; [|done].
    intros x [->|Hx]%elem_of_cons; [split; [by left|done]|]. destruct (Hin x Hx). split; [by right|done].
  - rw -Hst. intros H. destruct (IH _ _ _ _ (no_success_insert _ _ _ Hs (eq_sym Hst)) H) as [[Hin Hnil] ?]. split; [|done]. split.
    + intros x Hx. destruct (Hin x Hx). split; [by right|done].
    + intros Hl. destruct (Hnil Hl) as [?|Hall]; [by left|right]. intros x [->|Hx]%elem_of_cons; [done|by apply Hall].
Qed.

Definition small usr (nodes : list NodeInfo) : Prop := count_ok percentage increased usr (Z.of_nat (length nodes)).

Lemma find_nodes_ok cs pod m nodes long usr sts l sts' : small usr nodes → no_success m → no_success sts →
  find_nodes cs pod sts m nodes long usr = inr (l, sts') → search_ok cs pod nodes l False ∧ no_success sts'.
Proof.
  intros Hsm Hm Hs. unfold findFeasibleNodes. destruct (bool_decide_reflect (length nodes = 0)) as [H0|H0].
  { intros [= <- <-]. apply nil_length_inv in H0 as ->. split; [|done]. split; [set_solver|right; set_solver]. }
  cbv zeta. set (num := numFeasibleNodesToFind _ _ _ _ _ _). assert (0 < num)%Z by (apply find_number_positive; [done|lia]).
  destruct (Z.eqb_spec num 0); [lia|]. intros H1. destruct (search_loop_ok _ _ _ _ Hm _ _ _ _ _ Hs H1) as [[Hin Hnil] ?].
  split; [|done]. split.
  - intros x Hx. destruct (Hin x Hx) as [Hx' ?]. split; [|done]. by rw rotate_perm in Hx'.
  - intros Hl. destruct (Hnil Hl) as [?|Hall]; [lia|right]. intros x Hx. apply Hall. by rw rotate_perm.
Qed.

(** In a circle the nodes of the partition come first. *)
Record circle_ok cs pod (c : NodeCircle) (l : list NodeInfo) : Prop := {
  ck_fits n : n ∈ l → n ∈ circle_List c ∧ fits cs pod n = true;
  ck_partition n : n ∈ l → n ∉ InPartitionNodes c → ∀ n', n' ∈ InPartitionNodes c → fits cs pod n' = false;
  ck_none : l = [] → ∀ n, n ∈ circle_List c → fits cs pod n = false
}.
Definition small_circle usr (c : NodeCircle) : Prop := small usr (InPartitionNodes c) ∧ small usr (OutOfPartitionNodes c).

Lemma find_pass_ok cs pod m c usr sts l sts' : small_circle usr c → no_success m → no_success sts →
  find_pass cs pod sts m c usr = inr (l, sts') → circle_ok cs pod c l ∧ no_success sts'.
Proof.
  intros [Hi Ho] Hm Hs. unfold findNodesThatPassFilters, circle_List.
  destruct (find_nodes _ _ _ _ (InPartitionNodes c) _ _) as [|[l1 s1]] eqn:E1; [done|].
  destruct (find_nodes_ok _ _ _ _ _ _ _ _ _ Hi Hm Hs E1) as [[Hin1 Hnil1] Hs1].
  destruct (bool_decide_reflect (length l1 = 0)) as [H0|H0]; cbn [negb].
  - apply nil_length_inv in H0 as ->. destruct (Hnil1 eq_refl) as [[]|Hall1].
    intros E2. destruct (find_nodes_ok _ _ _ _ _ _ _ _ _ Ho Hm Hs1 E2) as [[Hin2 Hnil2] Hs2]. split; [|done]. split.
    + intros n Hn. destruct (Hin2 n Hn). rw elem_of_app. by split; [right|].
    + intros _ _ _. apply Hall1.
    + intros Hl. destruct (Hnil2 Hl) as [[]|Hall2]. intros n [?|?]%elem_of_app; [by apply Hall1|by apply Hall2].
  - intros [= <- <-]. split; [|done]. split.
    + intros n Hn. destruct (Hin1 n Hn). rw elem_of_app. by split; [left|].
    + intros n Hn Hno. by destruct (Hin1 n Hn).
    + by intros ->.
Qed.

Lemma find_pass_error cs pod m c usr sts e : find_pass cs pod sts m c usr = inl e → e = FilterError.
Proof.
  assert (∀ num nodes found sts, find_loop cs pod m num found nodes sts = inl e → e = FilterError) as Hloop.
  { intros num. induction nodes as [|n nodes IH]; intros found s; cbn [feasible_loop]; [done|].
    destruct (check_node _ _ _ _ _ _) as [[[] ?]|]; [| |by intros [= <-]]; [|apply IH].
    destruct (_ <=? _)%Z; [done|]. destruct (find_loop _ _ _ _ _ nodes s) as [e'|[]] eqn:E; [|done]. intros [= <-]. by eapply IH. }
  assert (∀ nodes long sts, find_nodes cs pod sts m nodes long usr = inl e → e = FilterError) as Hnodes.
  { intros nodes long s. unfold findFeasibleNodes. destruct (_ ≟ _); [done|]. cbv zeta. destruct (_ =? _)%Z; [done|]. apply Hloop. }
  unfold findNodesThatPassFilters. destruct (find_nodes _ _ _ _ (InPartitionNodes c) _ _) as [e'|[]] eqn:E; [|destruct (negb _); [done|apply Hnodes]].
  intros [= <-]. by eapply Hnodes.
Qed.

Notation prefilter := (RunPreFilterPlugins prefilters).

Lemma find_fit_ok cs pod m c usr cs' l sts' : small_circle usr c → no_success m →
  find_fit cs pod c usr m = (cs', inr (l, sts')) → cs' = (prefilter cs pod).1 ∧ no_success sts' ∧
  (if IsSuccess (prefilter cs pod).2 then circle_ok cs' pod c l else l = []).
Proof.
  intros Hc Hm. unfold findNodesThatFitPod. destruct (prefilter cs pod) as [cs1 s]. cbn [fst snd].
  destruct (IsSuccess s) eqn:Es; cbn [negb].
  - intros [= <- H]. by destruct (find_pass_ok _ _ _ _ _ _ _ _ Hc Hm no_success_empty H).
  - destruct (negb (IsUnschedulable s)); intros [= <- <- <-]. split_and!; [done| |done]. by apply no_success_foldl; [apply no_success_empty|].
Qed.

(** ** The scores keep the names of the nodes *)

Lemma sum_score_name scores i nm ns : sum_score scores i nm = Some ns → MinHeap.Name ns = nm.
Proof.
  unfold sum_score. enough (∀ acc : option NodeScore, (∀ x, acc = Some x → MinHeap.Name x = nm) →
    foldl (λ acc l, r ← acc; s ← l !! i; Some (mkNodeScore (MinHeap.Name r) (wrap64 (Score r + Score s)))) acc scores = Some ns → MinHeap.Name ns = nm)
    as H by (apply H; by intros x [= <-]).
  induction scores as [|l scores IH]; intros acc Hacc; cbn [foldl]; [apply Hacc|]. apply IH. intros x.
  destruct acc as [r|]; cbn [mbind option_bind]; [|done]. destruct (l !! i); cbn [mbind option_bind]; [|done].
  intros [= <-]. by apply (Hacc r).
Qed.
Lemma prioritize_names cs pod nodes l : prioritizeNodes prescorers scorers cs pod nodes = Some (inr l) → MinHeap.Name <$> l = getNodeName <$> nodes.
Proof.
  unfold prioritizeNodes. destruct (negb _); [done|]. destruct (RunScorePlugins _ _ _ _ _) as [scores|]; [|done].
  destruct (mapM _ _) as [l'|] eqn:E; cbn [mbind option_bind]; [|done]. intros [= <-]. apply mapM_Some_1 in E.
  apply list_eq. intros i. rw !list_lookup_fmap. pose proof (proj1 (Forall2_lookup _ _ _) E i) as Hi.
  rw list_lookup_imap list_lookup_fmap in Hi. destruct (nodes !! i) as [n|]; cbn [fmap option_fmap option_map] in Hi |- *; inv Hi; [|done].
  cbn [fmap option_fmap option_map]. f_equal. by eapply sum_score_name.
Qed.

(** The chosen host is the only node found, or one with the highest sum of scores. *)
Definition best_of cs pod (l : list NodeInfo) (host : string) : Prop :=
  (∃ n, l = [n] ∧ host = getNodeName n) ∨
  ∃ scored s, prioritizeNodes prescorers scorers cs pod l = Some (inr scored) ∧ mkNodeScore host s ∈ scored ∧ ∀ x, x ∈ scored → (Score x <= s)%Z.
Lemma best_of_in cs pod l host : best_of cs pod l host → ∃ n, n ∈ l ∧ getNodeName n = host.
Proof.
  intros [(n & -> & ->)|(scored & s & Hp & Hin & _)]; [exists n; set_solver|].
  apply prioritize_names in Hp. assert (host ∈ MinHeap.Name <$> scored) as H by (apply list_elem_of_fmap; by exists (mkNodeScore host s)).
  rw Hp in H. apply list_elem_of_fmap in H as (n & -> & Hn). by exists n.
Qed.

(** ** One circle *)

Record schedule_ok cs cs' pod (c : NodeCircle) (r : PodScheduleResult) (err : option ScheduleError) : Prop := {
  so_state : cs' = (prefilter cs pod).1;
  so_statuses : no_success (FilteredNodesStatuses r);
  so_host : SuggestedHost r ≠ "" → err = None;
  so_found : err = None → IsSuccess (prefilter cs pod).2 = true ∧ ∃ l, circle_ok cs' pod c l ∧ best_of cs' pod l (SuggestedHost r);
  so_none : err = Some FitError → IsSuccess (prefilter cs pod).2 = true → ∀ n, n ∈ circle_List c → fits cs' pod n = false
}.

Lemma schedule_circle_ok now cs pod podOwner c usr m cache cache' cs' r err : small_circle usr c → no_success m →
  schedule_circle now cs pod podOwner c usr m cache = Some (cache', cs', r, err) → schedule_ok cs cs' pod c r err.
Proof.
  intros Hc Hm. unfold scheduleInSpecificNodeCircle. destruct (find_fit cs pod c usr m) as [cs1 [e|[l sts]]] eqn:E.
  { intros [= <- <- <- <-]. revert E. unfold findNodesThatFitPod. destruct (prefilter cs pod) as [cs2 s] eqn:Ep.
    intros E. split; cbn [FilteredNodesStatuses SuggestedHost empty_result]; [|apply no_success_empty|done|done|]; rw Ep.
    - revert E. cbn [fst]. destruct (IsSuccess s), (IsUnschedulable s); by intros [= <-].
    - cbn [snd]. intros [= ->] Hs. revert E. rw Hs. cbn [negb]. intros [= _ H]. by apply find_pass_error in H. }
  destruct (find_fit_ok _ _ _ _ _ _ _ _ Hc Hm E) as (-> & Hs & Hl). cbv zeta.
  destruct l as [|n1 [|n2 l]]; [|destruct (IsSuccess (prefilter cs pod).2) eqn:Ep; [|done]..].
  - intros [= <- <- <- <-]. split; cbn [FilteredNodesStatuses SuggestedHost empty_result]; try done. intros _ Hp. rw Hp in Hl. by apply (ck_none _ _ _ _ Hl).
  - intros [= <- <- <- <-]. split; cbn [FilteredNodesStatuses SuggestedHost]; try done. intros _. split; [done|].
    exists [n1]. split; [done|]. left. by exists n1.
  - destruct (prioritizeNodes _ _ _ _) as [[e|scored]|] eqn:Es; cbn [mbind option_bind]; [| |done].
    + intros [= <- <- <- <-]. split; cbn [FilteredNodesStatuses SuggestedHost empty_result]; [done|apply no_success_empty|done|done|].
      intros [= ->] _. revert Es. unfold prioritizeNodes. destruct (negb _); [done|]. destruct (RunScorePlugins _ _ _ _ _); [|done]. by destruct (mapM _ _).
    + assert (scored ≠ []) as Hne. { intros ->. by apply prioritize_names in Es. }
      destruct (select_host_spec intn scored (needCacheNodesForPod (has_pod_affinity pod) podOwner) (AllMember usr) (EverScheduled usr) Hne)
        as (sel & cached & -> & (ns & Hin & Hnm & Hmax) & _). cbn [mbind option_bind].
      intros [= <- <- <- <-]. split; cbn [FilteredNodesStatuses SuggestedHost]; try done. intros _. split; [done|].
      exists (n1 :: n2 :: l). split; [done|]. right. exists scored, (Score ns). split_and!; [done| |done]. destruct ns. cbn in *. by subst.
Qed.

Lemma schedule_circles_ok now pod podOwner usr circles : (∀ c, c ∈ circles → small_circle usr c) → ∀ cs m cache last cache' cs' m' r err, no_success m →
  schedule_circles now cs pod podOwner circles usr m cache last = Some (cache', cs', m', r, err) →
  no_success m' ∧ ((circles = [] ∧ cs' = cs ∧ (r, err) = last) ∨
    ∃ before c after cs0, circles = (before ++ c :: after)%list ∧ schedule_ok cs0 cs' pod c r err ∧ (SuggestedHost r = "" → after = [])).
Proof.
  induction circles as [|c circles IH]; intros Hc cs m cache last cache' cs' m' r err Hm; cbn [circles_schedule].
  { intros [= <- <- <- <- <-]. split; [done|]. left. by destruct last. }
  destruct (schedule_circle _ _ _ _ _ _ _ _) as [[[[cache1 cs1] r1] err1]|] eqn:E; cbn [mbind option_bind]; [|done].
  apply schedule_circle_ok in E as Hok; [|by apply Hc; left|done].
  assert (no_success (FilteredNodesStatuses r1 ∪ m)) as Hm1 by (apply no_success_union; [apply Hok|done]).
  destruct (bool_decide_reflect (SuggestedHost r1 = "")) as [Hh|Hh]; cbn [negb].
  - intros H. destruct (IH (λ c' Hc', Hc c' (list_elem_of_further _ _ _ Hc')) _ _ _ _ _ _ _ _ _ Hm1 H) as [? [(-> & -> & [= -> ->])|(before & c' & after & cs0 & -> & Hok' & Ha)]]; (split; [done|right]).
    + by exists [], c, [], cs.
    + by exists (c :: before), c', after, cs0.
  - intros [= <- <- <- <- <-]. split; [done|right]. by exists [], c, circles, cs.
Qed.

(** ** Cached nodes *)

Definition cached_in (cache : isolatedCache) (podOwner nodeName : string) (i : nodeTmpInfo) : Prop :=
  ∃ o, cachedNodesForPodOwner cache !! podOwner = Some o ∧ nodeMap o !! nodeName = Some i.
Lemma cached_in_delete cache k x podOwner nodeName i :
  cached_in (DeleteNodeForPodOwner k x cache) podOwner nodeName i → cached_in cache podOwner nodeName i.
Proof.
  unfold DeleteNodeForPodOwner, cached_in. destruct (cachedNodesForPodOwner cache !! k) as [o|] eqn:E; [|done].
  intros (o' & Ho & Hi). revert Ho. destruct (_ ≟ _); cbn [set_nodes cachedNodesForPodOwner].
  - intros [_ H]%lookup_delete_Some. by exists o'.
  - intros [[<- <-]|[_ H]]%lookup_insert_Some; [|by exists o']. cbn [nodeMap] in Hi. apply lookup_delete_Some in Hi as [_ Hi]. by exists o.
Qed.

Lemma cached_loop_ok cs pod podOwner group names : ∀ cache cache' host,
  cached_nodes_loop jsonLabels pls GetNodeInfo cs pod podOwner group names cache = (cache', Some host) →
  (∃ n, GetNodeInfo host = Some n ∧ fits cs pod n = true) ∧ ∃ i, cached_in cache podOwner host i ∧ nodeGroup i = group.
Proof.
  induction names as [|x names IH]; intros cache cache' host; cbn [cached_nodes_loop]; [done|].
  destruct (IsNodeInCachedMap podOwner x cache) as [b g] eqn:E. destruct (_ && _ && _) eqn:Eb.
  - intros [= _ ->]. apply andb_true_iff in Eb as [[-> Hg%bool_decide_eq_true]%andb_true_iff Hn].
    destruct (GetNodeInfo host) as [n|]; [|done]. split; [by exists n|]. revert E. unfold IsNodeInCachedMap, cached_in.
    destruct (cachedNodesForPodOwner cache !! podOwner) as [o|]; [|done]. destruct (nodeMap o !! host) as [i|] eqn:Ei; [|done].
    intros [= <-]. exists i. split; [|done]. by exists o.
  - intros H. apply IH in H as (Hn & i & Hi & Hg). split; [done|]. exists i. split; [|done]. by eapply cached_in_delete.
Qed.
Lemma cached_loop_fresh now cs pod podOwner group names : ∀ cache, cache_fresh now cache →
  cache_fresh now (cached_nodes_loop jsonLabels pls GetNodeInfo cs pod podOwner group names cache).1.
Proof.
  induction names as [|x names IH]; intros cache Hf; cbn [cached_nodes_loop]; [done|].
  destruct (IsNodeInCachedMap podOwner x cache) as [b g]. destruct (_ && _ && _); [done|]. apply IH. by apply fresh_delete.
Qed.

Lemma get_cached_ok now cs pod podOwner group cache cache' cs' host :
  GetCachedNodesAndSchedule jsonLabels prefilters pls GetNodeInfo now cs pod podOwner group cache = (cache', cs', inr host) →
  cs' = (prefilter cs pod).1 ∧ (∃ n, GetNodeInfo host = Some n ∧ fits cs' pod n = true) ∧
  ∃ i, cached_in (CleanupCachedNodesForPodOwner now cache) podOwner host i ∧ nodeGroup i = group.
Proof.
  unfold GetCachedNodesAndSchedule. destruct (prefilter cs pod) as [cs1 s]. destruct (negb _); [done|]. cbv zeta.
  destruct (cached_nodes_loop _ _ _ _ _ _ _ _ _) as [cache1 [h|]] eqn:E; [|done]. intros [= _ <- <-]. split; [done|]. by apply cached_loop_ok in E.
Qed.
Lemma get_cached_state now cs pod podOwner group cache :
  (GetCachedNodesAndSchedule jsonLabels prefilters pls GetNodeInfo now cs pod podOwner group cache).1.2 = (prefilter cs pod).1.
Proof.
  unfold GetCachedNodesAndSchedule. destruct (prefilter cs pod) as [cs1 s]. destruct (negb _); [done|]. cbv zeta.
  by destruct (cached_nodes_loop _ _ _ _ _ _ _ _ _).
Qed.

(** The node served from those cached for the owner of the pod, before any circle. *)
Definition cache_hit now cs pod groupKey cache : option string :=
  if GetPodOwner pod ≟ "" then None
  else match (GetCachedNodesAndSchedule jsonLabels prefilters pls GetNodeInfo now cs pod (GetPodOwner pod) groupKey cache).2 with
       | inr host => Some host | inl _ => None end.
(** It was cached for this owner and this group, and passes now. *)
Definition served now cs cs' pod groupKey cache (host : string) : Prop :=
  cache_hit now cs pod groupKey cache = Some host ∧ GetPodOwner pod ≠ "" ∧
  (∃ i, cached_in (CleanupCachedNodesForPodOwner now cache) (GetPodOwner pod) host i ∧ nodeGroup i = groupKey) ∧
  ∃ n, GetNodeInfo host = Some n ∧ fits cs' pod n = true.
Lemma get_cached_served now cs pod groupKey cache cache' cs' host : GetPodOwner pod ≠ "" →
  GetCachedNodesAndSchedule jsonLabels prefilters pls GetNodeInfo now cs pod (GetPodOwner pod) groupKey cache = (cache', cs', inr host) →
  served now cs cs' pod groupKey cache host.
Proof.
  intros Ho E. split; [unfold cache_hit; rw bool_decide_eq_false_2; [|done]; by rw E|]. apply get_cached_ok in E as (_ & Hn & Hi). by split_and!.
Qed.

(** C10: A schedule in the circles keeps the status map free of successes, and if it
    reports a host, or no error although there are circles, then there is no error
    and the host passes all filters with the final cycle state: either it is the node
    served from those cached for the owner and the group; or nothing was served, and
    it is the best by score of nodes that pass in one of the circles, where nodes
    outside the partition are found only if no node inside it passes.  The map must
    hold no success before, and the circles must be small enough for the count of the
    nodes to find not to overflow. *)
Theorem scheduled_host_fits now cs pod groupKey circles usr m cache cache' cs' m' r err
    (Hm : no_success m) (Hcircles : ∀ c, c ∈ circles → small_circle usr c)
    (Hrun : schedule now cs pod groupKey circles usr m cache = Some (cache', cs', m', r, err)) :
  no_success m' ∧ (err = None ∧ circles ≠ [] ∨ SuggestedHost r ≠ "" →
    err = None ∧
    (served now cs cs' pod groupKey cache (SuggestedHost r) ∨
     cache_hit now cs pod groupKey cache = None ∧ ∃ before c after l n, circles = (before ++ c :: after)%list ∧ circle_ok cs' pod c l ∧ best_of cs' pod l (SuggestedHost r) ∧
       n ∈ l ∧ getNodeName n = SuggestedHost r)).
Proof.
  revert Hrun. unfold ScheduleInNodeCircles. cbv zeta.
  set (from := if GetPodOwner pod ≟ "" then _ else _). destruct from as [[cache1 cs1] hit] eqn:E. subst from.
  destruct hit as [e|h].
  - assert (cache_hit now cs pod groupKey cache = None) as Hmiss by (unfold cache_hit; destruct (_ ≟ _); [done|by rw E]).
    set (last := if GetPodOwner pod ≟ "" then _ else _).
    destruct (schedule_circles _ _ _ _ _ _ _ _ _) as [[[[[cache2 cs2] m2] r2] err2]|] eqn:E2; cbn [mbind option_bind]; [|done].
    intros [= <- <- <- <- <-]. destruct (schedule_circles_ok _ _ _ _ _ Hcircles _ _ _ _ _ _ _ _ _ Hm E2) as [Hm2 Hcase].
    split. { destruct err2; [|done]. destruct (SuggestedHost r2 ≟ ""); [done|]. by apply no_success_delete. }
    intros Hh. assert (err2 = None ∧ circles ≠ []) as [-> Hne].
    { destruct Hcase as [(-> & _ & Hl)|(b & c & a & cs0 & -> & Hok & _)]; [|].
      - destruct Hh as [[_ ?]|Hh]; [done|]. exfalso. apply Hh. subst last. by destruct (_ ≟ _); injection Hl as -> ->.
      - destruct Hh as [[-> _]|Hh]; [by destruct b|]. split; [by eapply so_host|by destruct b]. }
    split; [done|right]. destruct Hcase as [(-> & _)|(b & c & a & cs0 & -> & Hok & _)]; [done|].
    destruct (so_found _ _ _ _ _ _ Hok eq_refl) as (_ & l & Hl & Hb). destruct (best_of_in _ _ _ _ Hb) as (n & Hn & Hnm). split; [done|]. by exists b, c, a, l, n.
  - intros [= <- <- <- <- <-]. split; [done|]. intros _. split; [done|left]. cbn [SuggestedHost].
    revert E. destruct (bool_decide_reflect (GetPodOwner pod = "")) as [|Ho]; [done|]. by apply get_cached_served.
Qed.

(** ** With plugins that do not fail a host is found *)

Definition good_status (s : Status) : bool := IsSuccess s || IsUnschedulable s.
Lemma Merge_good {ML : MapRangeLaws MR} (m : PluginToStatus) : (∀ k s, m !! k = Some s → good_status s = true) → good_status (Merge m) = true.
Proof.
  intros Hm. unfold Merge. case_bool_decide; [done|]. cbv zeta. set (l := (range_map m).*2).
  assert (∀ s, s ∈ l → good_status s = true) as Hl.
  { intros s (e & -> & He)%list_elem_of_fmap. rw map_range_perm in He. destruct e as [k s]. apply elem_of_map_to_list in He. by eapply Hm. }
  assert (existsb (λ s, code_of s ≟ Error) l = false) as ->.
  { apply not_true_iff_false. rw existsb_exists. intros (s & Hs%list_elem_of_In & He%bool_decide_eq_true). specialize (Hl s Hs).
    unfold good_status, IsSuccess, IsUnschedulable in Hl. by rw He in Hl. }
  destruct (existsb _ l); [done|]. destruct (existsb _ l); [done|].
  destruct (last_code_any l Success) as [->|(s & Hs & ->)]; [done|]. by apply Hl in Hs.
Qed.

Definition filters_ok cs pod (nodes : list NodeInfo) : Prop :=
  ∀ pl n, pl ∈ pls → n ∈ nodes → good_status (fp_Filter pl cs pod n) = true.
Lemma filter_loop_good cs pod n l : (∀ pl, pl ∈ l → good_status (fp_Filter pl cs pod n) = true) → ∀ S,
  (∀ k s, S !! k = Some s → good_status s = true) →
  ∀ k s, filter_loop jsonLabels cs pod n ∅ l ∅ S !! k = Some s → good_status s = true.
Proof.
  assert (∀ S, pick_status ∅ S = S) as Hpick by (intros S; unfold pick_status; by rw map_size_empty).
  induction l as [|pl l IH]; intros Hl S HS; simpl; [by rw Hpick|].
  destruct (bool_decide_reflect (fp_Name pl ∈ (∅ : gset string))) as [?|_]; [set_solver|].
  assert (good_status (fp_Filter pl cs pod n) = true) as Hg by (apply Hl; by left).
  assert (∀ k s, <[fp_Name pl := fp_Filter pl cs pod n]> S !! k = Some s → good_status s = true) as HS'
    by (intros k s [[_ <-]|[_ H]]%lookup_insert_Some; [done|by eapply HS]).
  assert (∀ pl, pl ∈ l → good_status (fp_Filter pl cs pod n) = true) as Hl' by (intros; apply Hl; by right).
  destruct (IsSuccess (fp_Filter pl cs pod n)) eqn:Es; [by apply IH|].
  unfold good_status in Hg. rw Es in Hg. cbn [orb] in Hg. rw Hg. cbn [negb andb].
  destruct (fitLabelFlag _ _ _); cbn [negb]; [by apply IH|by rw Hpick].
Qed.
Lemma check_node_total {ML : MapRangeLaws MR} cs pod m n nodes : filters_ok cs pod nodes → n ∈ nodes → no_success m →
  ∃ s, check_node jsonLabels pls cs pod m n = Some (fits cs pod n, s).
Proof.
  intros Hf Hn Hm. assert (∃ s, run_filters jsonLabels pls cs pod n = Some (fits cs pod n, s)) as Hr.
  { unfold run_filters, fits, PodPassesFiltersOnNode, RunFilterPlugins. cbv zeta.
    assert (good_status (Merge (filter_loop jsonLabels cs pod n (list_to_set []) pls ∅ ∅)) = true) as Hg.
    { apply Merge_good. apply filter_loop_good; [by intros; eapply Hf|]. intros k s. by rw lookup_empty. }
    unfold good_status in Hg. destruct (IsSuccess _), (IsUnschedulable _); try done; by eexists. }
  unfold check_node. destruct (m !! getNodeName n) as [st|] eqn:E; [|done]. by rw (Hm _ _ E).
Qed.

Lemma find_loop_total {ML : MapRangeLaws MR} cs pod m num nodes : no_success m → filters_ok cs pod nodes → ∀ found sts,
  ∃ r, find_loop cs pod m num found nodes sts = inr r.
Proof.
  intros Hm. induction nodes as [|n nodes IH]; intros Hf found sts; cbn [feasible_loop]; [by eexists|].
  destruct (check_node_total cs pod m n (n :: nodes) Hf (list_elem_of_here _ _) Hm) as [s ->].
  assert (filters_ok cs pod nodes) as Hf' by (intros pl x Hp Hx; apply Hf; [done|by right]).
  destruct (fits cs pod n); [|by apply IH]. destruct (_ <=? _)%Z; [by eexists|].
  destruct (IH Hf' (found + 1)%Z sts) as [[l sts'] ->]. by eexists.
Qed.
Lemma find_nodes_total {ML : MapRangeLaws MR} cs pod m nodes long usr sts : no_success m → filters_ok cs pod nodes →
  ∃ r, find_nodes cs pod sts m nodes long usr = inr r.
Proof.
  intros Hm Hf. unfold findFeasibleNodes. destruct (_ ≟ _); [by eexists|]. cbv zeta. destruct (_ =? _)%Z; [by eexists|].
  apply find_loop_total; [done|]. intros pl n Hp Hn. apply Hf; [done|]. by rw rotate_perm in Hn.
Qed.
Lemma find_pass_total {ML : MapRangeLaws MR} cs pod m c usr sts : no_success m → filters_ok cs pod (circle_List c) →
  ∃ r, find_pass cs pod sts m c usr = inr r.
Proof.
  intros Hm Hf. unfold findNodesThatPassFilters.
  destruct (find_nodes_total cs pod m (InPartitionNodes c) (IsLongRunningTask pod) usr sts Hm) as [[l s] ->].
  { intros pl n Hp Hn. apply Hf; [done|]. apply elem_of_app. by left. }
  destruct (negb _); [by eexists|]. apply find_nodes_total; [done|]. intros pl n Hp Hn. apply Hf; [done|]. apply elem_of_app. by right.
Qed.

(** A score plugin that works: it scores every node, from 0 to 100. *)
Definition in_range (ns : NodeScore) : Prop := (MinNodeScore <= Score ns <= MaxNodeScore)%Z.
Record score_plugin_ok (pl : ScorePlugin) : Prop := {
  sk_score cs pod nodes nm : ∃ s, sp_Score pl cs pod nodes nm = Some s ∧ (sp_Normalize pl = None → MinNodeScore <= s <= MaxNodeScore)%Z;
  sk_normalize f l : sp_Normalize pl = Some f → ∃ l', f l = Some l' ∧ length l' = length l ∧ Forall in_range l'
}.
Lemma run_score_total cs pod nodes names pl : score_plugin_ok pl → ∃ l, run_score_plugin cs pod nodes names pl = Some l ∧ length l = length names.
Proof.
  intros [Hs Hn]. unfold run_score_plugin.
  assert (∃ l, mapM (score_node pl cs pod nodes) names = Some l ∧ length l = length names ∧ (sp_Normalize pl = None → Forall in_range l)) as (l & -> & Hlen & Hr).
  { induction names as [|nm names (l & IH & Hlen & Hr)]; [by exists []|].
    assert (∃ ns, score_node pl cs pod nodes nm = Some ns ∧ (sp_Normalize pl = None → in_range ns)) as (ns & E & Hns).
    { unfold score_node. destruct (nm ≟ ""); [by eexists|]. destruct (Hs cs pod nodes nm) as (s & -> & Hrs). by eexists. }
    exists (ns :: l). rw (mapM_cons_Some _ _ _ _ _ E IH). split_and!; [done|simpl; lia|]. intros H. constructor; [by apply Hns|by apply Hr]. }
  cbn [mbind option_bind].
  assert (∃ l', match sp_Normalize pl with None => Some l | Some f => f l end = Some l' ∧ length l' = length l ∧ Forall in_range l') as (l' & -> & Hl' & Hf).
  { destruct (sp_Normalize pl) as [f|] eqn:E; [by apply Hn|]. exists l. split_and!; [done..|by apply Hr]. }
  cbn [mbind option_bind]. rw -Hlen -Hl'. clear -Hf. induction Hf as [|x l' Hx _ (l & IH & Hl)]; [by exists []|].
  assert (∃ y, weighted (sp_weight pl) x = Some y) as [y E].
  { unfold weighted. destruct Hx as [H1 H2]. unfold MinNodeScore, MaxNodeScore in *.
    destruct (Z.ltb_spec 100 (Score x)); [lia|]. destruct (Z.ltb_spec (Score x) 0); [lia|]. by eexists. }
  exists (y :: l). rw (mapM_cons_Some _ _ _ _ _ E IH). split; [done|simpl; lia].
Qed.
Definition scores_ok : Prop :=
  (∀ pl cs pod nodes, pl ∈ prescorers → IsSuccess (pc_PreScore pl cs pod nodes) = true) ∧ ∀ pl, pl ∈ scorers → score_plugin_ok pl.
Lemma prioritize_total cs pod nodes : scores_ok → ∃ l, prioritizeNodes prescorers scorers cs pod nodes = Some (inr l).
Proof.
  intros [Hpre Hok]. unfold prioritizeNodes, RunScorePlugins.
  assert (IsSuccess (RunPreScorePlugins prescorers cs pod nodes) = true) as ->; [|cbn [negb]].
  { clear -Hpre. induction prescorers as [|pl l IH]; [done|]. cbn [RunPreScorePlugins]. rw Hpre; [|by left]. cbn [negb].
    apply IH. intros. apply Hpre. by right. } set (names := getNodeName <$> nodes).
  assert (∃ scores, mapM (run_score_plugin cs pod nodes names) scorers = Some scores ∧ Forall (λ l, length l = length names) scores) as (scores & -> & Hlen).
  { clear -Hok. induction scorers as [|pl l IH]; [by exists []|].
    destruct (run_score_total cs pod nodes names pl) as (x & E & Hx); [by apply Hok; left|].
    destruct IH as (xs & Es & Hxs); [by intros; apply Hok; right|]. exists (x :: xs). rw (mapM_cons_Some _ _ _ _ _ E Es). split; [done|by constructor]. }
  destruct (mapM _ _) as [l|] eqn:E; [by exists l|]. exfalso. apply mapM_None_1 in E. apply Exists_exists in E as ([i nm] & Hin & HN).
  apply list_elem_of_lookup in Hin as [j Hj]. rw list_lookup_imap in Hj. destruct (names !! j) as [nm'|] eqn:Ej; cbn in Hj; [|discriminate]. injection Hj as -> ->.
  apply lookup_lt_Some in Ej. cbn [fst snd] in HN. revert HN. unfold sum_score.
  enough (∀ r : NodeScore, is_Some (foldl (λ acc l, r ← acc; s ← l !! i; Some (mkNodeScore (MinHeap.Name r) (wrap64 (Score r + Score s)))) (Some r) scores)) as H.
  { destruct (H (mkNodeScore nm 0)) as [? ->]. done. }
  induction Hlen as [|l scores Hl _ IH]; intros r; cbn [foldl]; [by eexists|]. cbn [mbind option_bind].
  destruct (lookup_lt_is_Some_2 l i) as [s ->]; [lia|]. cbn [mbind option_bind]. apply IH.
Qed.

(** The cycle state to schedule with: the prefilter plugins succeed, and leave it as
    it is when they run again. *)
Definition prefiltered cs cs1 pod : Prop := (prefilter cs pod).1 = cs1 ∧ IsSuccess (prefilter cs pod).2 = true.

Lemma schedule_circle_total {ML : MapRangeLaws MR} now cs cs1 pod podOwner c usr m cache : prefiltered cs cs1 pod →
  small_circle usr c → no_success m → filters_ok cs1 pod (circle_List c) → scores_ok →
  ∃ cache' r err, schedule_circle now cs pod podOwner c usr m cache = Some (cache', cs1, r, err) ∧
    schedule_ok cs cs1 pod c r err ∧ (err = None ∨ err = Some FitError ∧ SuggestedHost r = "").
Proof.
  intros [<- Hp] Hc Hm Hf Hsc.
  assert (∃ cache' r err, schedule_circle now cs pod podOwner c usr m cache = Some (cache', (prefilter cs pod).1, r, err) ∧
    (err = None ∨ err = Some FitError ∧ SuggestedHost r = "")) as (cache' & r & err & E & He);
    [|exists cache', r, err; split_and!; [done|by eapply schedule_circle_ok|done]].
  unfold scheduleInSpecificNodeCircle, findNodesThatFitPod. destruct (prefilter cs pod) as [cs1 s]. cbn [fst snd] in *. rw Hp. cbn [negb].
  destruct (find_pass_total cs1 pod m c usr ∅ Hm Hf) as [[l sts] ->]. cbv zeta. destruct l as [|n1 [|n2 l]].
  - eexists _, _, _. split; [done|]. by right.
  - eexists _, _, _. split; [done|]. by left.
  - destruct (prioritize_total cs1 pod (n1 :: n2 :: l) Hsc) as [scored Es]. rw Es. cbn [mbind option_bind].
    assert (scored ≠ []) as Hne by (intros ->; by apply prioritize_names in Es).
    destruct (select_host_spec intn scored (needCacheNodesForPod (has_pod_affinity pod) podOwner) (AllMember usr) (EverScheduled usr) Hne)
      as (sel & cached & -> & _). cbn [mbind option_bind]. eexists _, _, _. split; [done|]. by left.
Qed.

(** A host in the first circle that has one. *)
Definition first_circle cs1 pod circles (host : string) : Prop :=
  ∃ before c after n, circles = (before ++ c :: after)%list ∧ n ∈ circle_List c ∧ fits cs1 pod n = true ∧ getNodeName n = host ∧
    ∀ c' n', c' ∈ before → n' ∈ circle_List c' → fits cs1 pod n' = false.

Lemma schedule_circles_total {ML : MapRangeLaws MR} now cs1 pod podOwner usr circles :
  prefiltered cs1 cs1 pod → (∀ c, c ∈ circles → small_circle usr c ∧ filters_ok cs1 pod (circle_List c)) →
  scores_ok → (∀ c n, c ∈ circles → n ∈ circle_List c → getNodeName n ≠ "") →
  ∀ cs m cache last, prefiltered cs cs1 pod → no_success m → circles ≠ [] ∨ is_Some last.2 ∧ cs = cs1 →
  ∃ cache' m' r err, schedule_circles now cs pod podOwner circles usr m cache last = Some (cache', cs1, m', r, err) ∧
    match err with
    | None => first_circle cs1 pod circles (SuggestedHost r)
    | Some _ => ∀ c n, c ∈ circles → n ∈ circle_List c → fits cs1 pod n = false
    end.
Proof.
  intros Hp1 Hc Hsc Hnm. induction circles as [|c circles IH]; intros cs m cache last Hp Hm Hl; cbn [circles_schedule].
  { destruct Hl as [?|[[e He] ->]]; [done|]. eexists _, _, _, _. split; [done|]. rw He. set_solver. }
  destruct (Hc c (list_elem_of_here _ _)) as [Hsm Hf].
  destruct (schedule_circle_total now cs cs1 pod podOwner c usr m cache Hp Hsm Hm Hf Hsc) as (cache1 & r1 & err1 & -> & Hok & Herr).
  cbn [mbind option_bind]. assert (no_success (FilteredNodesStatuses r1 ∪ m)) as Hm1 by (apply no_success_union; [apply Hok|done]).
  destruct Herr as [->|[-> Hh]].
  - destruct (so_found _ _ _ _ _ _ Hok eq_refl) as (_ & l & Hl' & Hb). destruct (best_of_in _ _ _ _ Hb) as (n & Hn & Hnn).
    destruct (ck_fits _ _ _ _ Hl' n Hn) as [Hin Hfit].
    assert (SuggestedHost r1 ≠ "") as Hne by (rw -Hnn; by apply (Hnm c); [left|]).
    destruct (bool_decide_reflect (SuggestedHost r1 = "")); [done|]. cbn [negb]. eexists _, _, _, _. split; [done|].
    exists [], c, circles, n. split_and!; [done..|]. set_solver.
  - rw Hh. cbn [negb bool_decide]. pose proof (so_none _ _ _ _ _ _ Hok eq_refl (proj2 Hp)) as Hnone.
    destruct (IH (λ c' Hc', Hc c' (list_elem_of_further _ _ _ Hc')) (λ c' n' Hc', Hnm c' n' (list_elem_of_further _ _ _ Hc'))
      cs1 (FilteredNodesStatuses r1 ∪ m) cache1 (r1, Some FitError) Hp1 Hm1) as (cache' & m' & r & err & E & Hres); [by right|].
    exists cache', m', r, err. split; [done|]. destruct err as [e|].
    + intros c' n' [->|Hc']%elem_of_cons Hn'; [by apply Hnone|by eapply Hres].
    + destruct Hres as (before & c' & after & n & -> & Hn & Hfit & Hnn & Hb). exists (c :: before), c', after, n. split_and!; [done..|].
      intros c2 n2 [->|Hc2]%elem_of_cons Hn2; [by apply Hnone|by eapply Hb].
Qed.


(** *)
Theorem cached_host_young now cs pod podOwner groupKey cache cache' cs' r
    (Hfresh : cache_fresh now cache)
    (Hrun : GetCachedNodesAndSchedule jsonLabels prefilters pls GetNodeInfo now cs pod podOwner groupKey cache = (cache', cs', r)) :
  cache_fresh now cache' ∧ ∀ host, r = inr host → ∃ i, cached_in (CleanupCachedNodesForPodOwner now cache) podOwner host i ∧
    nodeGroup i = groupKey ∧ (settingTime i <= now < settingTime i + 5 * minute)%Z.
Proof.
  split.
  - revert Hrun. unfold GetCachedNodesAndSchedule. destruct (prefilter cs pod) as [cs1 s]. destruct (negb _); [by intros [= <- _ _]|]. cbv zeta.
    pose proof (cached_loop_fresh now cs1 pod podOwner groupKey (GetOrderedNodesForPodOwner podOwner (CleanupCachedNodesForPodOwner now cache)) _
      (fresh_cleanup _ _ Hfresh)) as Hf. destruct (cached_nodes_loop _ _ _ _ _ _ _ _ _) as [c h]. by intros [= <- _ _].
  - intros host ->. apply get_cached_ok in Hrun as (_ & _ & i & (o & Ho & Hi) & Hg). exists i. split_and!; [by exists o|done| |].
    + by apply (cf_nodes _ _ (fresh_cleanup now cache Hfresh) podOwner o host i Ho Hi).
    + pose proof (served_young now podOwner host o i cache Hfresh Ho Hi).
      unfold defaultNodeCacheExpirationDuration, defaultNodeCacheCleanupInterval in *. lia.
Qed.
End spec.

(** ** Examples *)

Module ScheduleExamples.
Import FilterPlugins.FilterExamples.

Definition named (name : string) (closed : bool) : NodeInfo :=
  node_SetNode cf0 {| node_Name := name; node_Labels := ∅; node_Annotations := ∅; node_Unschedulable := closed; node_Taints := [];
    node_Conditions := []; node_Images := []; node_Allocatable := ∅; node_Capacity := ∅ |} n_new.
Definition n_closed : NodeInfo := named "closed" true.
Definition n_a : NodeInfo := named "a" false.
Definition n_b : NodeInfo := named "b" false.
Definition circle_1 : NodeCircle := {| nc_key := "one"; InPartitionNodes := [n_closed]; OutOfPartitionNodes := [] |}.
Definition circle_2 : NodeCircle := {| nc_key := "two"; InPartitionNodes := [n_closed]; OutOfPartitionNodes := [n_a; n_b] |}.
Definition circles : list NodeCircle := [circle_1; circle_2].
Definition node_of (name : string) : option NodeInfo := if name ≟ "a" then Some n_a else if name ≟ "b" then Some n_b else None.
Definition ports : PreFilterPlugin := {| pf_Name := "ports"; pf_PreFilter := λ cs _, (cs_set_NodePorts [] cs, None) |}.
Definition by_name : ScorePlugin :=
  {| sp_Score := λ _ _ _ nm, Some (if nm ≟ "b" then 70%Z else 30%Z); sp_Normalize := None; sp_weight := 2 |}.
Definition members : UnitSchedulingRequest := {| AllMember := 3; EverScheduled := false |}.
Definition fresh_cache : isolatedCache := NewIsolatedCache 0.
Definition run_example (p : Pod) := ScheduleInNodeCircles (λ _, ∅) [ports] [NodeUnschedulablePlugin] [] [by_name] (λ _, 1%nat) (λ _ _, 0%nat) 0 0 node_of
  10 NewCycleState p "[group]" circles members ∅ fresh_cache.
Definition example_pod : Pod := set_Annotations (Some {[PodRequestTemplateAnnotationKey := "web"]}) (bound_pod "web" 5 100).
Definition cache_after : isolatedCache := match run_example example_pod with Some r => r.1.1.1.1 | None => fresh_cache end.
Definition cached_run (now : Z) (group : string) :=
  GetCachedNodesAndSchedule (λ _, ∅) [ports] [NodeUnschedulablePlugin] node_of now NewCycleState example_pod (GetPodOwner example_pod) group cache_after.

Definition hit_example : option string :=
  cache_hit (λ _, ∅) [ports] [NodeUnschedulablePlugin] node_of 10 NewCycleState example_pod "[group]" fresh_cache.

Lemma circles_small c : c ∈ circles → small_circle 0 0 members c ∧ filters_ok [NodeUnschedulablePlugin] (cs_set_NodePorts [] NewCycleState) example_pod (circle_List c).
Proof.
  assert (∀ n, n ∈ [n_closed; n_a; n_b] → good_status (NodeUnschedulable_Filter (cs_set_NodePorts [] NewCycleState) example_pod n) = true) as Hg.
  { intros n [->|[->|[->|[]%elem_of_nil]%elem_of_cons]%elem_of_cons]%elem_of_cons; vm_compute; reflexivity. }
  intros [->|[->|[]%elem_of_nil]%elem_of_cons]%elem_of_cons; (split; [by split; split; cbn; lia|]);
    intros pl n ->%list_elem_of_singleton Hn; apply Hg; revert Hn; unfold circle_List; cbn; set_solver.
Qed.
Lemma by_name_ok : scores_ok [] [by_name].
Proof.
  split; [by intros ? ? ? ? ?%elem_of_nil|]. intros pl ->%list_elem_of_singleton. split; [|done]. intros cs p nodes nm. eexists. split; [done|]. intros _. unfold MinNodeScore, MaxNodeScore.
  by destruct (nm ≟ "b").
Qed.
Lemma circles_named c n : c ∈ circles → n ∈ circle_List c → getNodeName n ≠ "".
Proof.
  assert (∀ n, n ∈ [n_closed; n_a; n_b] → getNodeName n ≠ "") as Hg.
  { intros x [->|[->|[->|[]%elem_of_nil]%elem_of_cons]%elem_of_cons]%elem_of_cons; by vm_compute. }
  intros [->|[->|[]%elem_of_nil]%elem_of_cons]%elem_of_cons H; apply Hg; revert H; unfold circle_List; cbn; set_solver.
Qed.

Lemma scheduled_host_fits_witness : ∃ cache' cs' m' r, run_example example_pod = Some (cache', cs', m', r, None) ∧ SuggestedHost r = "b" ∧
  no_success m' ∧ (served (λ _, ∅) [ports] [NodeUnschedulablePlugin] node_of 10 NewCycleState cs' example_pod "[group]" fresh_cache "b" ∨
    hit_example = None ∧ ∃ before c after l n, circles = (before ++ c :: after)%list ∧ circle_ok (λ _, ∅) [NodeUnschedulablePlugin] cs' example_pod c l ∧
      best_of [] [by_name] cs' example_pod l "b" ∧ n ∈ l ∧ getNodeName n = "b").
Proof.
  assert (∃ cache' cs' m' r, run_example example_pod = Some (cache', cs', m', r, None) ∧ SuggestedHost r = "b") as (cache' & cs' & m' & r & E & Hh)
    by (eexists _, _, _, _; split; vm_compute; reflexivity).
  exists cache', cs', m', r. split; [exact E|]. split; [exact Hh|]. unfold run_example in E.
  destruct (scheduled_host_fits (λ _, ∅) [ports] [NodeUnschedulablePlugin] [] [by_name] (λ _, 1%nat) (λ _ _, 0%nat) 0 0 node_of
    10 NewCycleState example_pod "[group]" circles members ∅ fresh_cache cache' cs' m' r None no_success_empty (λ c Hc, proj1 (circles_small c Hc)) E)
    as [Hm [_ Hf]]; [left; by split|]. split; [exact Hm|]. rewrite Hh in Hf. exact Hf.
Defined.


Lemma cached_host_young_witness : ∃ cache' cs', cached_run 60 "[two]" = (cache', cs', inr "a") ∧ cache_fresh 60 cache' ∧
  ∃ i, cached_in (CleanupCachedNodesForPodOwner 60 cache_after) (GetPodOwner example_pod) "a" i ∧ nodeGroup i = "[two]" ∧
    (settingTime i <= 60 < settingTime i + 5 * minute)%Z.
Proof.
  assert (∃ cache' cs', cached_run 60 "[two]" = (cache', cs', inr "a")) as (cache' & cs' & E) by (eexists _, _; vm_compute; reflexivity).
  assert (cache_fresh 60 cache_after) as Hf.
  { apply (fresh_later 10); [|lia]. assert (cache_after = CacheAscendingOrderNodesForPodOwner 10 "RequestTemplate/ns/web/" "[two]" ["a"] ScheduleExamples.fresh_cache) as ->
      by (vm_compute; reflexivity). apply IsolatedCache.fresh_cache. apply (fresh_later 0); [apply fresh_new|lia]. }
  unfold cached_run in *. destruct (cached_host_young (λ _, ∅) [ports] [NodeUnschedulablePlugin] node_of 60 NewCycleState example_pod (GetPodOwner example_pod) "[two]"
    cache_after cache' cs' (inr "a") Hf E) as [Hc Hi]. exists cache', cs'. split; [exact E|]. split; [exact Hc|]. apply Hi. reflexivity.
Defined.
End ScheduleExamples.
