(* ===== verification/SchedCache.v ===== *)
(** * The scheduler cache (pkg/scheduler/cache)

    [PodStore] (commonstores/pod_store) remembers the pods that count and which
    of them are only assumed; [schedulerCache] passes each event to its stores in
    the order of [orderedStoreNames], where the node store comes before the pod
    store, and collects their errors.  The cache here is made of these two
    stores; the others do not touch them.

    [None] is the end of the program: a panic or [klog.FlushAndExit]. *)
From S2P Require Import Prelude GoStrings PodModel PodState GenStore StoreI Splay HashSlice Resource MicroTopo PodInfos Numa NodeInfo NodeClone NodeStore.

Local Open Scope godel_scope.
Local Open Scope string_scope.

(** ** The pod store *)

Record CachePodState := mkPodState { ps_Pod : Pod; ps_Deadline : option Z; ps_BindingFinished : bool }.

Record PodStore := mkPodStore {
  ps_type : StoreType;
  AssumedPods : gmap string bool;
  PodStates : gmap string CachePodState
}.

Definition NewPodStore (t : StoreType) : PodStore := mkPodStore t ∅ ∅.

Section pod_store.
Context (cf : Config).
Implicit Types (s : PodStore) (p : Pod).

Definition podOp p (isAdd : bool) s : PodStore * option StoreError :=
  match nodeinfo_GetPodKey p with
  | None => (s, Some PodKeyErr)
  | Some key =>
      if isAdd then
        match PodStates s !! key with
        | Some _ => (s, Some AlreadyAdded)
        | None => (mkPodStore (ps_type s) (AssumedPods s) (<[key := mkPodState p None false]> (PodStates s)), None)
        end
      else
        match PodStates s !! key with
        | None => (s, Some NotInCache)
        | Some _ => (mkPodStore (ps_type s) (delete key (AssumedPods s)) (delete key (PodStates s)), None)
        end
  end.

Definition ps_AddPod p s : PodStore * option StoreError :=
  if negb (cachedPod cf p) then (s, None) else podOp p true s.
Definition ps_DeletePod p s : PodStore * option StoreError :=
  if negb (cachedPod cf p) then (s, None) else podOp p false s.

Definition GetPodState (key : string) s : option CachePodState * bool :=
  match PodStates s !! key with
  | None => (None, false)
  | Some st => (Some st, default false (AssumedPods s !! key))
  end.

Definition ps_UpdatePod (oldPod newPod : Pod) s : PodStore * option StoreError :=
  match nodeinfo_GetPodKey oldPod with
  | None => (s, Some PodKeyErr)
  | Some key =>
      let '(s, e) := match (GetPodState key s).1 with
                     | Some st => ps_DeletePod (ps_Pod st) s
                     | None => (s, None)
                     end in
      match e with
      | Some _ => (s, e)
      | None => ps_AddPod newPod s
      end
  end.

Definition ps_AssumePod (pi : CachePodInfo) s : PodStore * option StoreError :=
  match ps_type s with
  | Snapshot => (s, None)
  | Cache =>
      match nodeinfo_GetPodKey (cp_Pod pi) with
      | None => (s, Some PodKeyErr)
      | Some key =>
          match PodStates s !! key with
          | Some _ => (s, Some AlreadyInCache)
          | None => (mkPodStore (ps_type s) (<[key := true]> (AssumedPods s))
                       (<[key := mkPodState (cp_Pod pi) None false]> (PodStates s)), None)
          end
      end
  end.

(** The program exits when the pod is forgotten on another node. *)
Definition ps_ForgetPod (pi : CachePodInfo) s : option (PodStore * option StoreError) :=
  match ps_type s with
  | Snapshot => Some (s, None)
  | Cache =>
      match nodeinfo_GetPodKey (cp_Pod pi) with
      | None => Some (s, Some PodKeyErr)
      | Some key =>
          match PodStates s !! key with
          | None => Some (s, None)
          | Some currState =>
              if negb (GetNodeNameFromPod cf (ps_Pod currState) ≟ GetNodeNameFromPod cf (cp_Pod pi)) then None
              else if default false (AssumedPods s !! key) then
                Some (mkPodStore (ps_type s) (delete key (AssumedPods s)) (delete key (PodStates s)), None)
              else Some (s, Some NotAssumed)
          end
      end
  end.

Definition IsAssumedPod p s : option bool := key ← nodeinfo_GetPodKey p; Some (default false (AssumedPods s !! key)).
Definition IsCachedPod p s : option bool := key ← nodeinfo_GetPodKey p; Some (bool_decide (is_Some (PodStates s !! key))).
(** [inl] is an error. *)
Definition GetPod p s : StoreError + Pod :=
  match nodeinfo_GetPodKey p with
  | None => inl PodKeyErr
  | Some key => match PodStates s !! key with None => inl NotInCache | Some st => inr (ps_Pod st) end
  end.

Definition FinishReserving (podAssumedTTL : Z) p (now : Z) s : PodStore * option StoreError :=
  match nodeinfo_GetPodKey p with
  | None => (s, Some PodKeyErr)
  | Some key =>
      match PodStates s !! key with
      | Some currState =>
          if default false (AssumedPods s !! key) then
            (mkPodStore (ps_type s) (AssumedPods s)
               (<[key := mkPodState (ps_Pod currState) (Some (now + podAssumedTTL)%Z) true]> (PodStates s)), None)
          else (s, None)
      | None => (s, None)
      end
  end.
End pod_store.

(** ** The cache *)

(** [cacheMetrics]: how many hosts have a node, a node manager's node, or both. *)
Record cacheMetrics := mkMetrics {
  nodeInPartitionCount : Z; nodeTotalCount : Z;
  nmnodeInPartitionCount : Z; nmnodeTotalCount : Z;
  hybridHostInPartitionCount : Z; hybridHostTotalCount : Z
}.
Definition newCacheMetrics : cacheMetrics := mkMetrics 0 0 0 0 0 0.

Definition metrics_update (n : NodeInfo) (delta : Z) (m : cacheMetrics) : cacheMetrics :=
  match ni_Node n, ni_NMNode n with
  | None, None => m
  | Some _, None =>
      mkMetrics (if NodeInSchedulerPartition n then wrap64 (nodeInPartitionCount m + delta) else nodeInPartitionCount m)
        (wrap64 (nodeTotalCount m + delta)) (nmnodeInPartitionCount m) (nmnodeTotalCount m)
        (hybridHostInPartitionCount m) (hybridHostTotalCount m)
  | None, Some _ =>
      mkMetrics (nodeInPartitionCount m) (nodeTotalCount m)
        (if NMNodeInSchedulerPartition n then wrap64 (nmnodeInPartitionCount m + delta) else nmnodeInPartitionCount m)
        (wrap64 (nmnodeTotalCount m + delta)) (hybridHostInPartitionCount m) (hybridHostTotalCount m)
  | Some _, Some _ =>
      mkMetrics (nodeInPartitionCount m) (nodeTotalCount m) (nmnodeInPartitionCount m) (nmnodeTotalCount m)
        (if NodeInSchedulerPartition n || NMNodeInSchedulerPartition n
         then wrap64 (hybridHostInPartitionCount m + delta) else hybridHostInPartitionCount m)
        (wrap64 (hybridHostTotalCount m + delta))
  end.

Definition CacheNodes : Type := NodeStore (ListStoreImpl NodeInfo) cacheMetrics.
Definition afterAdd (_ : string) (n : NodeInfo) (m : cacheMetrics) : option cacheMetrics := Some (metrics_update n 1 m).
Definition afterDelete (_ : string) (n : NodeInfo) (m : cacheMetrics) : option cacheMetrics := Some (metrics_update n (-1) m).

Record schedulerCache := mkCache { c_nodes : CacheNodes; c_pods : PodStore }.

Definition newSchedulerCache : schedulerCache :=
  mkCache (mkNodeStore Cache NewListStore ∅ ∅ newCacheMetrics) (NewPodStore Cache).

Section cache.
Context {MR : MapRange} (cf : Config).
Implicit Types c : schedulerCache.

(** [Range]: every store handles the event, whatever the others return. *)
Definition range_stores (fn : CacheNodes → option (CacheNodes * option StoreError))
    (fp : PodStore → option (PodStore * option StoreError)) c : option (schedulerCache * list StoreError) :=
  '(ns, e1) ← fn (c_nodes c);
  '(ps, e2) ← fp (c_pods c);
  Some (mkCache ns ps, omap id [e1; e2]).

Definition no_op {A} (a : A) : option (A * option StoreError) := Some (a, None).

(** The events of pods, passed to both stores. *)
Definition stores_AddPod (p : Pod) : schedulerCache → option (schedulerCache * list StoreError) :=
  range_stores (AddPod cf p) (λ s, Some (ps_AddPod cf p s)).
(** The node store sees the pod state from before the event. *)
Definition stores_UpdatePod (oldPod newPod : Pod) c : option (schedulerCache * list StoreError) :=
  range_stores (UpdatePod cf (λ key, ps_Pod <$> (GetPodState key (c_pods c)).1) oldPod newPod)
    (λ s, Some (ps_UpdatePod cf oldPod newPod s)) c.
Definition stores_DeletePod (p : Pod) : schedulerCache → option (schedulerCache * list StoreError) :=
  range_stores (DeletePod cf p) (λ s, Some (ps_DeletePod cf p s)).
Definition stores_AssumePod (pi : CachePodInfo) : schedulerCache → option (schedulerCache * list StoreError) :=
  range_stores (AssumePod cf pi) (λ s, Some (ps_AssumePod pi s)).
Definition stores_ForgetPod (pi : CachePodInfo) : schedulerCache → option (schedulerCache * list StoreError) :=
  range_stores (ForgetPod cf pi) (ps_ForgetPod cf pi).

(** The methods of the cache: adding and deleting are those of the switch, the
    others are guarded by what the pod store knows (cache_eventhandler.go). *)
Definition cache_AddPod (p : Pod) c : option (schedulerCache * list StoreError) := stores_AddPod p c.
Definition cache_DeletePod (p : Pod) c : option (schedulerCache * list StoreError) := stores_DeletePod p c.

Definition cache_AssumePod (pi : CachePodInfo) c : option (schedulerCache * list StoreError) :=
  match nodeinfo_GetPodKey (cp_Pod pi) with
  | None => Some (c, [PodKeyErr])
  | Some key =>
      match (GetPodState key (c_pods c)).1 with
      | Some _ => Some (c, [AlreadyInCache])
      | None => stores_AssumePod pi c
      end
  end.

Definition cache_ForgetPod (pi : CachePodInfo) c : option (schedulerCache * list StoreError) :=
  match nodeinfo_GetPodKey (cp_Pod pi) with
  | None => Some (c, [PodKeyErr])
  | Some key => if negb (GetPodState key (c_pods c)).2 then Some (c, []) else stores_ForgetPod pi c
  end.

Definition cache_UpdatePod (oldPod newPod : Pod) c : option (schedulerCache * list StoreError) :=
  if negb (cachedPod cf oldPod) && negb (cachedPod cf newPod) then
    match nodeinfo_GetPodKey oldPod with
    | None => Some (c, [PodKeyErr])
    | Some key => if (GetPodState key (c_pods c)).2 then Some (c, []) else stores_UpdatePod oldPod newPod c
    end
  else stores_UpdatePod oldPod newPod c.

(** [RemovePod], which nothing calls: the pod the cache has is deleted. *)
Definition cache_RemovePod (p : Pod) c : option (schedulerCache * list StoreError) :=
  match nodeinfo_GetPodKey p with
  | None => Some (c, [PodKeyErr])
  | Some key =>
      match (GetPodState key (c_pods c)).1 with
      | Some ps => stores_DeletePod (ps_Pod ps) c
      | None => stores_DeletePod p c
      end
  end.

Definition cache_AddNode (nd : Node) : schedulerCache → option (schedulerCache * list StoreError) :=
  range_stores (AddNode cf afterAdd afterDelete nd) no_op.
Definition cache_UpdateNode (oldNode newNode : Node) : schedulerCache → option (schedulerCache * list StoreError) :=
  range_stores (UpdateNode cf afterAdd afterDelete oldNode newNode) no_op.
Definition cache_DeleteNode (nd : Node) : schedulerCache → option (schedulerCache * list StoreError) :=
  range_stores (DeleteNode cf afterAdd afterDelete nd) no_op.
Definition cache_AddNMNode (nm : NMNode) : schedulerCache → option (schedulerCache * list StoreError) :=
  range_stores (AddNMNode cf afterAdd afterDelete nm) no_op.
Definition cache_UpdateNMNode (oldNode newNode : NMNode) : schedulerCache → option (schedulerCache * list StoreError) :=
  range_stores (UpdateNMNode cf afterAdd afterDelete oldNode newNode) no_op.
Definition cache_DeleteNMNode (nm : NMNode) : schedulerCache → option (schedulerCache * list StoreError) :=
  range_stores (DeleteNMNode cf afterAdd afterDelete nm) no_op.
Definition cache_AddCNR (r : CNR) : schedulerCache → option (schedulerCache * list StoreError) :=
  range_stores (AddCNR cf r) no_op.
Definition cache_UpdateCNR (oldCNR newCNR : CNR) : schedulerCache → option (schedulerCache * list StoreError) :=
  range_stores (UpdateCNR cf oldCNR newCNR) no_op.
Definition cache_DeleteCNR (r : CNR) : schedulerCache → option (schedulerCache * list StoreError) :=
  range_stores (DeleteCNR r) no_op.

(** [SetNodeInPartition] and [SetNodeOutOfPartition]: the node store only. *)
Definition cache_SetPartition (b : bool) (name : string) : schedulerCache → option (schedulerCache * list StoreError) :=
  range_stores (if b then SetNodeInPartition afterAdd afterDelete name else SetNodeOutOfPartition afterAdd afterDelete name) no_op.

Definition cache_FinishReserving (podAssumedTTL : Z) (p : Pod) (now : Z) c : schedulerCache * option StoreError :=
  let '(ps, e) := FinishReserving podAssumedTTL p now (c_pods c) in (mkCache (c_nodes c) ps, e).

(** [podOpFunc] with no store skipped. *)
Definition PodOp (p : Pod) (isAdd : bool) c : option (schedulerCache * list StoreError) :=
  if isAdd then stores_AddPod p c else stores_DeletePod p c.

(** One assumed pod: it expires when its reservation is finished and the
    deadline has passed.  The errors are dropped. *)
Definition expire_step (now : Z) (acc : option schedulerCache) (key : string) : option schedulerCache :=
  c ← acc;
  ps ← PodStates (c_pods c) !! key;
  if negb (ps_BindingFinished ps) then Some c
  else
    deadline ← ps_Deadline ps;
    if (deadline <? now)%Z then '(c, _) ← PodOp (ps_Pod ps) false c; Some c else Some c.

(** The loop deletes at most the key it visits from the map it ranges over. *)
Definition CleanupExpiredAssumedPods (now : Z) c : option schedulerCache :=
  foldl (expire_step now) (Some c) (range_map (AssumedPods (c_pods c))).*1.
End cache.
