(* ===== verification/SchedCacheProps.v ===== *)
(** * The scheduler cache is consistent

    The pod store knows, for each pod, on which node it is; the node store keeps
    the pods of each node with their sums.  [CacheOK]: the two agree.  The states
    the cache reaches from the informers' events, assumed and forgotten pods and
    the expiry timer satisfy it, so what a node records as requested is the sum
    over the pods the cache places there. *)
From S2P Require Import Prelude GoStrings PodModel PodState GenStore StoreI Splay SplayRefine SplayProps SplaySpec HashSlice Resource MicroTopo PodInfos PodInfosProps Numa NumaProps NodeInfo NodeInfoProps NodeClone NodeStore NodeStoreProps SchedCache.

Local Open Scope godel_scope.
Local Open Scope string_scope.

#[local] Opaque list_store_laws.

Section cache.
Context {MR : MapRange} {ML : MapRangeLaws MR} (cf : Config) (Hnn : cf_nonNative cf = false).
Implicit Types (c : schedulerCache) (p : Pod) (PS : gmap string CachePodState) (ps : CachePodState).
Abbreviation name p := (GetNodeNameFromPod cf p).
Abbreviation info := (info cf).
Abbreviation NodesOK := (NodesOK cf (S := ListStoreImpl NodeInfo) (H := cacheMetrics)).
Abbreviation room m c := (st_room m (Store_ (c_nodes c))).
Abbreviation states c := (PodStates (c_pods c)).

(** The pods that the pod store places on node [k]; pods without a node are on
    none. *)
Definition assigned PS (k : string) : gmap string PodInfo :=
  (λ ps, info (ps_Pod ps)) <$> filter (λ kv, name (ps_Pod kv.2) = k ∧ k ≠ "") PS.

Lemma assigned_lookup PS k u : assigned PS k !! u =
  ps ← PS !! u; if decide (name (ps_Pod ps) = k ∧ k ≠ "") then Some (info (ps_Pod ps)) else None.
Proof.
  unfold assigned. rw lookup_fmap map_lookup_filter. destruct (PS !! u) as [ps|]; simpl; [|done].
  case_decide as Hd; [by rw option_guard_True|by rw option_guard_False].
Qed.

Lemma assigned_put PS u ps k : PS !! u = None → name (ps_Pod ps) ≠ "" →
  assigned (<[u := ps]> PS) k
  = upd (name (ps_Pod ps)) (<[u := info (ps_Pod ps)]> (assigned PS (name (ps_Pod ps)))) (assigned PS) k.
Proof.
  intros Hu Hne. apply map_eq. intros v. unfold upd. destruct (decide (k = name (ps_Pod ps))) as [->|Hk].
  - destruct (decide (v = u)) as [->|Hv]; [rw lookup_insert_eq|rw lookup_insert_ne //];
      rw !assigned_lookup ?lookup_insert_eq ?lookup_insert_ne //=. by rw decide_True.
  - rw !assigned_lookup. destruct (decide (v = u)) as [->|Hv]; [rw lookup_insert_eq|by rw lookup_insert_ne].
    rw Hu /=. rw decide_False //. intros [? ?]. by subst.
Qed.

Lemma assigned_drop PS u ps k : PS !! u = Some ps → name (ps_Pod ps) ≠ "" →
  assigned (delete u PS) k
  = upd (name (ps_Pod ps)) (delete u (assigned PS (name (ps_Pod ps)))) (assigned PS) k.
Proof.
  intros Hp Hne. apply map_eq. intros v. unfold upd. destruct (decide (k = name (ps_Pod ps))) as [->|Hk].
  - destruct (decide (v = u)) as [->|Hv]; [rw lookup_delete_eq|rw lookup_delete_ne //];
      rw !assigned_lookup ?lookup_delete_eq ?lookup_delete_ne //=.
  - rw !assigned_lookup. destruct (decide (v = u)) as [->|Hv]; [rw lookup_delete_eq|by rw lookup_delete_ne].
    rw Hp /=. rw decide_False //. intros [? ?]. by subst.
Qed.

(** A pod without a node changes nothing. *)
Lemma assigned_nowhere PS u ps k : PS !! u = None → name (ps_Pod ps) = "" → assigned (<[u := ps]> PS) k = assigned PS k.
Proof.
  intros Hu He. apply map_eq. intros v. rw !assigned_lookup. destruct (decide (v = u)) as [->|Hv]; [|by rw lookup_insert_ne].
  rw lookup_insert_eq Hu /=. rw decide_False //. rw He. by intros [<- ?].
Qed.
Lemma assigned_nowhere_drop PS u ps k : PS !! u = Some ps → name (ps_Pod ps) = "" → assigned (delete u PS) k = assigned PS k.
Proof.
  intros Hp He. apply map_eq. intros v. rw !assigned_lookup. destruct (decide (v = u)) as [->|Hv]; [|by rw lookup_delete_ne].
  rw Hp lookup_delete_eq /=. rw decide_False //. rw He. by intros [<- ?].
Qed.

(** ** The invariant *)

Record CacheOK c : Prop := {
  co_type : storeType (c_nodes c) = Cache ∧ ps_type (c_pods c) = Cache;
  co_nodes : NodesOK (c_nodes c) (assigned (states c));
  co_pods : ∀ u ps, states c !! u = Some ps → UID (ps_Pod ps) = u ∧ u ≠ "" ∧ cachedPod cf (ps_Pod ps) = true;
  co_assumed : ∀ u b, AssumedPods (c_pods c) !! u = Some b → b = true ∧ is_Some (states c !! u);
  co_deadline : ∀ u ps, states c !! u = Some ps → ps_BindingFinished ps = true → is_Some (ps_Deadline ps)
}.

(** Node operations leave the pods alone. *)
Lemma CacheOK_nodes c ns : CacheOK c → NodesOK ns (assigned (states c)) → storeType ns = storeType (c_nodes c) →
  CacheOK (mkCache ns (c_pods c)).
Proof. intros [[H1 H2] H3 H4 H5 H6] HN Ht. split; simpl; try done. by rw Ht. Qed.

(** What the pod store does to the states, given what the node store did. *)
Lemma CacheOK_put c ns u ps (assumed : bool) :
  CacheOK c → UID (ps_Pod ps) = u → u ≠ "" → cachedPod cf (ps_Pod ps) = true → (ps_BindingFinished ps = false) →
  storeType ns = Cache → NodesOK ns (assigned (<[u := ps]> (states c))) →
  CacheOK (mkCache ns (mkPodStore Cache (if assumed then <[u := true]> (AssumedPods (c_pods c)) else AssumedPods (c_pods c))
                         (<[u := ps]> (states c)))).
Proof.
  intros [[H1 H2] H3 H4 H5 H6] Hu Hne Hc Hf Ht HN. split; simpl; try done.
  - intros v ps'. rw lookup_insert. case_decide; subst; [by intros [= <-]|apply H4].
  - intros v b Hv. destruct assumed.
    + rw lookup_insert in Hv. rw lookup_insert. case_decide; [by injection Hv as <-; eauto|by apply H5].
    + destruct (H5 _ _ Hv) as [-> Hs]. split; [done|]. rw lookup_insert. case_decide; eauto.
  - intros v ps'. rw lookup_insert. case_decide; subst; [intros [= <-]; congruence|apply H6].
Qed.
Lemma CacheOK_drop c ns u :
  CacheOK c → storeType ns = Cache → NodesOK ns (assigned (delete u (states c))) →
  CacheOK (mkCache ns (mkPodStore Cache (delete u (AssumedPods (c_pods c))) (delete u (states c)))).
Proof.
  intros [[H1 H2] H3 H4 H5 H6] Ht HN. split; simpl; try done.
  - intros v ps'. rw lookup_delete_Some. intros [_ ?]. by apply (H4 v).
  - intros v b. rw !lookup_delete. case_decide; [done|apply H5].
  - intros v ps'. rw lookup_delete_Some. intros [_ ?]. by apply (H6 v).
Qed.

Lemma pods_eta c : ps_type (c_pods c) = Cache → mkPodStore Cache (AssumedPods (c_pods c)) (states c) = c_pods c.
Proof. destruct c as [? []]; simpl. by intros ->. Qed.

Lemma key_ne p : UID p ≠ "" → nodeinfo_GetPodKey p = Some (UID p).
Proof. intros. unfold nodeinfo_GetPodKey. by rw bool_decide_eq_false_2. Qed.

(** ** One pod comes or goes *)

Abbreviation placed p c c' := (states c' = <[UID p := mkPodState p None false]> (states c)).

Lemma nodes_put c m p :
  CacheOK c → room (S m) c → cachedPod cf p = true → UID p ≠ "" → states c !! UID p = None →
  ∃ ns, AddPod cf p (c_nodes c) = Some (ns, None) ∧ st_room m (Store_ ns) ∧ storeType ns = Cache
    ∧ NodesOK ns (assigned (<[UID p := mkPodState p None false]> (states c))).
Proof.
  intros HC Hroom Hc Hu Hn. destruct (co_type _ HC) as [Ht _]. destruct (decide (name p = "")) as [He|Hne].
  - exists (c_nodes c). unfold AddPod. rw Hc (bool_decide_eq_true_2 _ He) /=. split_and!; [done|by apply law_room|done|].
    eapply NodesOK_ext; [|apply (co_nodes _ HC)]. intros k.
    by rw assigned_nowhere.
  - destruct (ns_AddPod_ok cf Hnn (c_nodes c) (assigned (states c)) m p (co_nodes _ HC) Hroom Hc Hne) as (ns & E & HN & Hr & Ht').
    + by rw assigned_lookup Hn.
    + exists ns. split_and!; [done|done|by rw Ht'|]. eapply NodesOK_ext; [|exact HN]. intros k.
      by rw assigned_put.
Qed.

Lemma nodes_assume c m pi : let p := cp_Pod pi in
  CacheOK c → room (S m) c → UID p ≠ "" → states c !! UID p = None →
  ∃ ns, AssumePod cf pi (c_nodes c) = Some (ns, None) ∧ st_room m (Store_ ns) ∧ storeType ns = Cache
    ∧ NodesOK ns (assigned (<[UID p := mkPodState p None false]> (states c))).
Proof.
  intros p HC Hroom Hu Hn. destruct (co_type _ HC) as [Ht _]. destruct (decide (name p = "")) as [He|Hne].
  - exists (c_nodes c). unfold AssumePod. fold p. rw (bool_decide_eq_true_2 _ He). split_and!; [done|by apply law_room|done|].
    eapply NodesOK_ext; [|apply (co_nodes _ HC)]. intros k.
    by rw assigned_nowhere.
  - destruct (ns_AssumePod_ok cf Hnn (c_nodes c) (assigned (states c)) m pi (co_nodes _ HC) Ht Hroom Hne) as (ns & E & HN & Hr & Ht').
    + by rw assigned_lookup Hn.
    + exists ns. split_and!; [done|done|by rw Ht'|]. eapply NodesOK_ext; [|exact HN]. intros k.
      by rw assigned_put.
Qed.

(** The node store on a pod that the pod store has on the same node, or not at
    all. *)
Lemma nodes_drop c m p :
  CacheOK c → room (S m) c → cachedPod cf p = true → UID p ≠ "" →
  (∀ ps, states c !! UID p = Some ps → name (ps_Pod ps) = name p) →
  ∃ ns e, DeletePod cf p (c_nodes c) = Some (ns, e) ∧ st_room m (Store_ ns) ∧ storeType ns = Cache
    ∧ NodesOK ns (assigned (delete (UID p) (states c))) ∧ (is_Some (states c !! UID p) → e = None).
Proof.
  intros HC Hroom Hc Hu Hsame. destruct (co_type _ HC) as [Ht _]. destruct (decide (name p = "")) as [He|Hne].
  - exists (c_nodes c), None. unfold DeletePod. rw Hc (bool_decide_eq_true_2 _ He) /=. split_and!; [done|by apply law_room|done| |done].
    eapply NodesOK_ext; [|apply (co_nodes _ HC)]. intros k. destruct (states c !! UID p) as [ps|] eqn:Ep; [|by rw delete_id].
    symmetry. eapply assigned_nowhere_drop; [exact Ep|]. by rw Hsame.
  - destruct (ns_DeletePod_ok cf (c_nodes c) (assigned (states c)) m p (co_nodes _ HC) Hroom Hc Hne Hu) as (ns & e & E & Hr & Ht' & Hm).
    exists ns, e. rw assigned_lookup in Hm. destruct (states c !! UID p) as [ps|] eqn:Ep; simpl in Hm.
    + rw decide_True in Hm; [|by rw (Hsame _ eq_refl)]. destruct Hm as [-> HN]. split_and!; [done|done|by rw Ht'| |done].
      eapply NodesOK_ext; [|exact HN]. intros k. rw (assigned_drop _ _ ps) // (Hsame _ eq_refl) //.
    + subst ns. split_and!; [done|done|done| |by intros [? ?]]. rw delete_id //. apply HC.
Qed.

Lemma nodes_forget c m pi : let p := cp_Pod pi in
  CacheOK c → room (S m) c → UID p ≠ "" →
  (∀ ps, states c !! UID p = Some ps → name (ps_Pod ps) = name p) →
  ∃ ns e, ForgetPod cf pi (c_nodes c) = Some (ns, e) ∧ st_room m (Store_ ns) ∧ storeType ns = Cache
    ∧ NodesOK ns (assigned (delete (UID p) (states c))) ∧ (is_Some (states c !! UID p) → e = None).
Proof.
  intros p HC Hroom Hu Hsame. destruct (co_type _ HC) as [Ht _]. destruct (decide (name p = "")) as [He|Hne].
  - exists (c_nodes c), None. unfold ForgetPod. fold p. rw (bool_decide_eq_true_2 _ He). split_and!; [done|by apply law_room|done| |done].
    eapply NodesOK_ext; [|apply (co_nodes _ HC)]. intros k. destruct (states c !! UID p) as [ps|] eqn:Ep; [|by rw delete_id].
    symmetry. eapply assigned_nowhere_drop; [exact Ep|]. by rw Hsame.
  - destruct (ns_ForgetPod_ok cf (c_nodes c) (assigned (states c)) m pi (co_nodes _ HC) Ht Hroom Hne Hu) as (ns & e & E & Hr & Ht' & Hm).
    fold p in Hm. exists ns, e. rw assigned_lookup in Hm. destruct (states c !! UID p) as [ps|] eqn:Ep; simpl in Hm.
    + rw decide_True in Hm; [|by rw (Hsame _ eq_refl)]. destruct Hm as [-> HN]. split_and!; [done|done|by rw Ht'| |done].
      eapply NodesOK_ext; [|exact HN]. intros k. rw (assigned_drop _ _ ps) // (Hsame _ eq_refl) //.
    + subst ns. split_and!; [done|done|done| |by intros [? ?]]. rw delete_id //. apply HC.
Qed.

(** ** The operations of the cache *)

Lemma add_ok c m p :
  CacheOK c → room (S m) c → UID p ≠ "" → (cachedPod cf p = true → states c !! UID p = None) →
  ∃ ns qs, AddPod cf p (c_nodes c) = Some (ns, None) ∧ ps_AddPod cf p (c_pods c) = (qs, None)
    ∧ CacheOK (mkCache ns qs) ∧ st_room m (Store_ ns)
    ∧ PodStates qs = if cachedPod cf p then <[UID p := mkPodState p None false]> (states c) else states c.
Proof.
  intros HC Hroom Hu Hn. unfold ps_AddPod. destruct (cachedPod cf p) eqn:Hc; simpl.
  - specialize (Hn eq_refl). destruct (nodes_put c m p HC Hroom Hc Hu Hn) as (ns & E & Hr & Ht & HN).
    unfold podOp. rw (key_ne p Hu) Hn. destruct (co_type _ HC) as [_ Hty]. eexists ns, _. split_and!; [done|done| |done|done].
    rw Hty. by apply (CacheOK_put c ns (UID p) (mkPodState p None false) false).
  - exists (c_nodes c), (c_pods c). unfold AddPod. rw Hc. split_and!; [done|done| |by apply law_room|done]. by destruct c.
Qed.

Lemma delete_ok c m p :
  CacheOK c → room (S m) c → UID p ≠ "" → (∀ ps, states c !! UID p = Some ps → cachedPod cf p = true → name (ps_Pod ps) = name p) →
  ∃ ns qs e e', DeletePod cf p (c_nodes c) = Some (ns, e) ∧ ps_DeletePod cf p (c_pods c) = (qs, e')
    ∧ CacheOK (mkCache ns qs) ∧ st_room m (Store_ ns)
    ∧ PodStates qs = (if cachedPod cf p then delete (UID p) (states c) else states c)
    ∧ (is_Some (states c !! UID p) → e = None ∧ e' = None).
Proof.
  intros HC Hroom Hu Hsame. unfold ps_DeletePod. destruct (cachedPod cf p) eqn:Hc; simpl.
  - destruct (nodes_drop c m p HC Hroom Hc Hu) as (ns & e & E & Hr & Ht & HN & He); [intros; by apply Hsame|].
    destruct (co_type _ HC) as [_ Hty]. unfold podOp. rw (key_ne p Hu). destruct (states c !! UID p) as [ps|] eqn:Ep.
    + eexists ns, _, e, None. split_and!; [done|done| |done|done|auto]. rw Hty. by apply CacheOK_drop.
    + exists ns, (c_pods c), e, (Some NotInCache). rw delete_id // in HN |- *.
      split_and!; [done|done| |done|done|by intros [? ?]]. apply CacheOK_nodes; [done|done|by rw Ht (proj1 (co_type _ HC))].
  - exists (c_nodes c), (c_pods c), None, None. unfold DeletePod. rw Hc. split_and!; [done|done| |by apply law_room|done|done].
    by destruct c.
Qed.

Lemma update_ok c m oldPod newPod :
  CacheOK c → room (S (S m)) c → UID oldPod ≠ "" → UID newPod = UID oldPod →
  ∃ c', stores_UpdatePod cf oldPod newPod c = Some (c', []) ∧ CacheOK c' ∧ room m c'
    ∧ states c' = if cachedPod cf newPod then <[UID newPod := mkPodState newPod None false]> (states c) else delete (UID oldPod) (states c).
Proof.
  intros HC Hroom Hu Heq. unfold stores_UpdatePod, range_stores, UpdatePod, ps_UpdatePod, GetPodState. rw (key_ne oldPod Hu).
  destruct (states c !! UID oldPod) as [ps|] eqn:Ep; simpl.
  - destruct (co_pods _ HC _ _ Ep) as (Hk & _ & Hc).
    destruct (delete_ok c (S m) (ps_Pod ps) HC Hroom) as (ns & qs & e & e' & -> & -> & HC1 & Hr1 & Hst1 & He);
      [by rw Hk|rw Hk Ep; by intros ? [= <-]|]. destruct He as [-> ->]; [rw Hk Ep; eauto|]. cbn [mbind option_bind].
    rw Hk Hc in Hst1.
    destruct (add_ok (mkCache ns qs) m newPod HC1 Hr1) as (ns' & qs' & E1 & E2 & HC2 & Hr2 & Hst2);
      [by rw Heq|by rw Hst1 Heq lookup_delete_eq|]. simpl in E1, E2, Hst2. rw E1 E2. cbn [mbind option_bind].
    eexists. split_and!; [done|done|done|]. simpl. rw Hst2 Hst1 Heq. destruct (cachedPod cf newPod); [|done]. apply insert_delete_eq.
  - destruct (add_ok c m newPod HC (law_room _ _ Hroom)) as (ns' & qs' & E1 & E2 & HC2 & Hr2 & Hst2);
      [by rw Heq|by rw Heq|]. rw E1 E2. cbn [mbind option_bind]. eexists. split_and!; [done|done|done|]. simpl.
    rw Hst2 Heq. destruct (cachedPod cf newPod); [done|]. by rw delete_id.
Qed.

Lemma assume_ok c m pi : let p := cp_Pod pi in
  CacheOK c → room (S m) c → UID p ≠ "" → cachedPod cf p = true → states c !! UID p = None →
  ∃ c', stores_AssumePod cf pi c = Some (c', []) ∧ CacheOK c' ∧ room m c' ∧ placed p c c'
    ∧ AssumedPods (c_pods c') = <[UID p := true]> (AssumedPods (c_pods c)).
Proof.
  intros p HC Hroom Hu Hc Hn. destruct (nodes_assume c m pi HC Hroom Hu Hn) as (ns & E & Hr & Ht & HN).
  destruct (co_type _ HC) as [_ Hty]. unfold stores_AssumePod, range_stores, ps_AssumePod. rw E Hty. cbn [mbind option_bind].
  fold p. rw (key_ne p Hu) Hn. eexists. split_and!; [done| |done|done|done].
  by apply (CacheOK_put c ns (UID p) (mkPodState p None false) true).
Qed.

Lemma forget_ok c m pi : let p := cp_Pod pi in
  CacheOK c → room (S m) c → UID p ≠ "" →
  (∀ ps, states c !! UID p = Some ps → name (ps_Pod ps) = name p ∧ is_Some (AssumedPods (c_pods c) !! UID p)) →
  ∃ c' es, stores_ForgetPod cf pi c = Some (c', es) ∧ CacheOK c' ∧ room m c'
    ∧ states c' = delete (UID p) (states c) ∧ AssumedPods (c_pods c') = delete (UID p) (AssumedPods (c_pods c))
    ∧ (is_Some (states c !! UID p) → es = []).
Proof.
  intros p HC Hroom Hu Hsame.
  destruct (nodes_forget c m pi HC Hroom Hu) as (ns & e & E & Hr & Ht & HN & He); [intros ps Hps; by destruct (Hsame ps Hps)|].
  fold p in HN, He. destruct (co_type _ HC) as [Hty0 Hty]. unfold stores_ForgetPod, range_stores, ps_ForgetPod. rw E Hty. cbn [mbind option_bind].
  fold p. rw (key_ne p Hu). destruct (states c !! UID p) as [ps|] eqn:Ep.
  - destruct (Hsame ps eq_refl) as [Hnm [b Hb]]. destruct (co_assumed _ HC _ _ Hb) as [-> _].
    rw (bool_decide_eq_true_2 _ Hnm) Hb /=. rw He //. eexists _, _. split_and!; [done| |done|done|done|done]. by apply CacheOK_drop.
  - cbn [mbind option_bind]. assert (AssumedPods (c_pods c) !! UID p = None) as Ha.
    { destruct (AssumedPods (c_pods c) !! UID p) as [b|] eqn:Eb; [|done]. destruct (co_assumed _ HC _ _ Eb) as [_ [? ?]]. congruence. }
    eexists _, _. split_and!; [done| |done| |by rw delete_id|by intros [? ?]]; simpl; [|by rw delete_id].
    apply CacheOK_nodes; [done| |by rw Ht Hty0]. by rw delete_id in HN.
Qed.

(** *** Expiry *)

(** The reservation is finished and its deadline has passed. *)
Definition expired (now : Z) ps : bool :=
  ps_BindingFinished ps && match ps_Deadline ps with Some d => (d <? now)%Z | None => false end.

Lemma expire_ok now c m u : CacheOK c → room (S m) c → is_Some (states c !! u) →
  ∃ c', expire_step cf now (Some c) u = Some c' ∧ CacheOK c' ∧ room m c'
    ∧ ∀ v, states c' !! v = (if decide (v = u) then ps ← states c !! v; if expired now ps then None else Some ps else states c !! v)
         ∧ (v ≠ u → AssumedPods (c_pods c') !! v = AssumedPods (c_pods c) !! v).
Proof.
  intros HC Hroom [ps Eps]. unfold expire_step. cbn [mbind option_bind]. rw Eps. cbn [mbind option_bind]. unfold expired.
  assert (∀ c', CacheOK c' → states c' = states c → AssumedPods (c_pods c') = AssumedPods (c_pods c) → expired now ps = false →
    ∀ v, states c' !! v = (if decide (v = u) then ps ← states c !! v; if expired now ps then None else Some ps else states c !! v)
       ∧ (v ≠ u → AssumedPods (c_pods c') !! v = AssumedPods (c_pods c) !! v)) as Hsame.
  { intros c' _ -> -> Hex v. split; [|done]. case_decide; subst; [|done]. by rw Eps /= Hex. }
  unfold expired in Hsame. destruct (ps_BindingFinished ps) eqn:Ef; simpl in *.
  - destruct (co_deadline _ HC _ _ Eps Ef) as [d Hd]. rw Hd in Hsame |- *. cbn [mbind option_bind]. destruct (d <? now)%Z eqn:Hdn.
    + destruct (co_pods _ HC _ _ Eps) as (Hk & Hne & Hc). unfold PodOp, stores_DeletePod, range_stores.
      destruct (delete_ok c m (ps_Pod ps) HC Hroom) as (ns & qs & e & e' & -> & E2 & HC' & Hr & Hst & _); [by rw Hk|rw Hk Eps; by intros ? [= <-]|].
      rw E2. cbn [mbind option_bind]. eexists. split_and!; [done|done|done|]. rw Hk Hc in Hst. intros v. simpl. split.
      * rw Hst. case_decide; subst; [|by rw lookup_delete_ne]. by rw lookup_delete_eq Eps /= Ef Hd Hdn.
      * intros Hv. unfold ps_DeletePod in E2. rw Hc /= in E2. unfold podOp in E2. rw key_ne in E2; [|by rw Hk].
        rw Hk Eps in E2. injection E2 as <- _. simpl. by rw lookup_delete_ne.
    + exists c. split_and!; [done|done|by apply law_room|]. by apply Hsame.
  - exists c. split_and!; [done|done|by apply law_room|]. by apply Hsame.
Qed.

Lemma expire_loop now ks : ∀ c m, CacheOK c → room (length ks + m) c → NoDup ks → (∀ u, u ∈ ks → is_Some (states c !! u)) →
  ∃ c', foldl (expire_step cf now) (Some c) ks = Some c' ∧ CacheOK c' ∧ room m c'
    ∧ ∀ v, states c' !! v = if decide (v ∈ ks) then ps ← states c !! v; if expired now ps then None else Some ps else states c !! v.
Proof.
  induction ks as [|u ks IH]; intros c m HC Hroom HND Hin.
  - exists c. split_and!; [done..|]. intros v. case_decide as Hd; [by apply not_elem_of_nil in Hd|done].
  - apply NoDup_cons in HND as [Hu HND].
    destruct (expire_ok now c (length ks + m) u HC Hroom) as (c1 & E1 & HC1 & Hr1 & Hst1); [apply Hin; set_solver|].
    destruct (IH c1 m HC1 Hr1 HND) as (c' & E' & HC' & Hr' & Hst').
    { intros v Hv. rw (proj1 (Hst1 v)) decide_False; [apply Hin; set_solver|]. by intros ->. }
    exists c'. cbn [foldl]. rw E1. split_and!; [done..|]. intros v. rw Hst' (proj1 (Hst1 v)).
    destruct (decide (v = u)) as [->|Hv]; repeat case_decide; done || set_solver.
Qed.

Lemma cleanup_ok now c m : CacheOK c → room (size (AssumedPods (c_pods c)) + m) c →
  ∃ c', CleanupExpiredAssumedPods cf now c = Some c' ∧ CacheOK c' ∧ room m c'
    ∧ ∀ v, states c' !! v = ps ← states c !! v;
        if bool_decide (is_Some (AssumedPods (c_pods c) !! v)) && expired now ps then None else Some ps.
Proof.
  intros HC Hroom. unfold CleanupExpiredAssumedPods.
  assert (∀ u, u ∈ (range_map (AssumedPods (c_pods c))).*1 ↔ is_Some (AssumedPods (c_pods c) !! u)) as Hin.
  { intros u. rw list_elem_of_fmap. split.
    - intros ([u' b] & -> & Hb). apply range_elem in Hb. eauto.
    - intros [b Hb]. exists (u, b). split; [done|]. by apply range_elem. }
  destruct (expire_loop now (range_map (AssumedPods (c_pods c))).*1 c m HC) as (c' & -> & HC' & Hr & Hst).
  - by rw length_fmap map_range_perm length_map_to_list.
  - apply range_nodup.
  - intros u [b Hb]%Hin. by apply (co_assumed _ HC _ _ Hb).
  - exists c'. split_and!; [done..|]. intros v. rw Hst. destruct (decide (v ∈ _)) as [Hv|Hv]; rw Hin in Hv.
    + by rw (bool_decide_eq_true_2 _ Hv).
    + rw (bool_decide_eq_false_2 _ Hv). by destruct (states c !! v).
Qed.

(** ** The guarded methods of the cache *)

Lemma cache_update_ok c m oldPod newPod :
  CacheOK c → room (S (S m)) c → UID oldPod ≠ "" → UID newPod = UID oldPod →
  ∃ c', cache_UpdatePod cf oldPod newPod c = Some (c', []) ∧ CacheOK c' ∧ room m c'.
Proof.
  intros HC Hroom Hu Heq. destruct (update_ok c m oldPod newPod HC Hroom Hu Heq) as (c' & E & HC' & Hr' & _).
  unfold cache_UpdatePod. rw E (key_ne oldPod Hu). destruct (_ && _); [|by eauto].
  destruct (GetPodState _ _).2; [|by eauto]. exists c. split_and!; [done|done|]. by do 2 apply law_room in Hroom.
Qed.

Lemma cache_assume_ok c m pi : let p := cp_Pod pi in
  CacheOK c → room (S m) c → cachedPod cf p = true →
  ∃ c' es, cache_AssumePod cf pi c = Some (c', es) ∧ CacheOK c' ∧ room m c'
    ∧ (UID p ≠ "" → states c !! UID p = None →
       es = [] ∧ placed p c c' ∧ AssumedPods (c_pods c') = <[UID p := true]> (AssumedPods (c_pods c))).
Proof.
  intros p HC Hroom Hc. unfold cache_AssumePod, GetPodState. fold p.
  destruct (decide (UID p = "")) as [He|Hne].
  - unfold nodeinfo_GetPodKey. rw bool_decide_eq_true_2 //. eexists c, _. split_and!; [done|done|by apply law_room in Hroom|done].
  - rw (key_ne p Hne). destruct (states c !! UID p) as [ps|] eqn:Ep; simpl.
    + eexists c, _. split_and!; [done|done|by apply law_room in Hroom|done].
    + destruct (assume_ok c m pi HC Hroom Hne Hc Ep) as (c' & E & HC' & Hr' & Hp & Ha). eexists c', _. split_and!; [exact E|done..].
Qed.

Lemma cache_forget_ok c m pi : let p := cp_Pod pi in
  CacheOK c → room (S m) c →
  (∀ ps, states c !! UID p = Some ps → is_Some (AssumedPods (c_pods c) !! UID p) → name (ps_Pod ps) = name p) →
  ∃ c' es, cache_ForgetPod cf pi c = Some (c', es) ∧ CacheOK c' ∧ room m c'
    ∧ (UID p ≠ "" → is_Some (AssumedPods (c_pods c) !! UID p) →
       es = [] ∧ states c' = delete (UID p) (states c) ∧ AssumedPods (c_pods c') = delete (UID p) (AssumedPods (c_pods c))).
Proof.
  intros p HC Hroom Hsame. unfold cache_ForgetPod, GetPodState. fold p.
  destruct (decide (UID p = "")) as [He|Hne].
  - unfold nodeinfo_GetPodKey. rw bool_decide_eq_true_2 //. eexists c, _. split_and!; [done|done|by apply law_room in Hroom|done].
  - rw (key_ne p Hne). destruct (AssumedPods (c_pods c) !! UID p) as [b|] eqn:Ea.
    + destruct (co_assumed _ HC _ _ Ea) as [-> [ps Ep]]. rw Ep /=.
      destruct (forget_ok c m pi HC Hroom Hne) as (c' & es & E & HC' & Hr' & Hst & Ha & Hes).
      { fold p. rw Ep Ea. intros ps' [= <-]. split; [|by eauto]. apply Hsame; [done|by eauto]. }
      exists c', es. split_and!; [exact E|done|done|]. intros _ _. split_and!; [|done|done]. apply Hes. fold p. rw Ep. by eauto.
    + exists c, []. split_and!; [by destruct (states c !! UID p)|done|by apply law_room in Hroom|by intros _ [? ?]].
Qed.

Lemma finish_ok ttl p now c : CacheOK c → CacheOK (cache_FinishReserving ttl p now c).1.
Proof.
  intros HC. unfold cache_FinishReserving, FinishReserving. destruct (nodeinfo_GetPodKey p) as [u|]; simpl; [|by destruct c].
  destruct (states c !! u) as [ps|] eqn:Ep; simpl; [|by destruct c]. destruct (default false _); simpl; [|by destruct c].
  destruct HC as [[H1 H2] H3 H4 H5 H6]. split; simpl; try done.
  - eapply NodesOK_ext; [|exact H3]. intros k. apply map_eq. intros v. rw !assigned_lookup.
    destruct (decide (v = u)) as [->|Hv]; [by rw lookup_insert_eq Ep|by rw lookup_insert_ne].
  - intros v ps'. rw lookup_insert. case_decide; subst; [|apply H4]. intros [= <-]. apply (H4 v ps Ep).
  - intros v b Hb. destruct (H5 v b Hb) as [-> Hs]. split; [done|]. rw lookup_insert. case_decide; eauto.
  - intros v ps'. rw lookup_insert. case_decide; subst; [|apply H6]. intros [= <-]. by eauto.
Qed.
End cache.
