(* ===== verification/SchedCacheSpec.v ===== *)
(** * What the scheduler cache promises

    The events the cache handles as a type, the states they lead to, the
    agreement of the two stores, the round trip of assuming and forgetting a pod,
    the expiry of assumed pods, and two cases in which the cache keeps or loses
    what it should not. *)
From S2P Require Import Prelude GoStrings PodModel PodState GenStore StoreI Splay SplayRefine SplayProps SplaySpec HashSlice Resource MicroTopo PodInfos PodInfosProps Numa NumaProps NodeInfo NodeInfoProps NodeInfoSpec NodeClone NodeStore NodeStoreProps SchedCache SchedCacheProps.

Local Open Scope godel_scope.
Local Open Scope string_scope.

#[local] Opaque list_store_laws.

Inductive Event :=
  | EvAddPod (p : Pod) | EvUpdatePod (oldPod newPod : Pod) | EvDeletePod (p : Pod)
  | EvAssume (pi : CachePodInfo) | EvForget (pi : CachePodInfo)
  | EvFinish (p : Pod) (now : Z) | EvExpire (now : Z)
  | EvAddNode (nd : Node) | EvUpdateNode (oldNode newNode : Node) | EvDeleteNode (nd : Node)
  | EvAddNMNode (nm : NMNode) | EvUpdateNMNode (oldNode newNode : NMNode) | EvDeleteNMNode (nm : NMNode)
  | EvAddCNR (r : CNR) | EvUpdateCNR (oldCNR newCNR : CNR) | EvDeleteCNR (r : CNR)
  | EvPartition (b : bool) (nodeName : string).

Section spec.
Context {MR : MapRange} {ML : MapRangeLaws MR} (cf : Config) (ttl : Z) (Hnn : cf_nonNative cf = false).
Implicit Types (c : schedulerCache) (e : Event).
Abbreviation states c := (PodStates (c_pods c)).
Abbreviation name p := (GetNodeNameFromPod cf p).

Definition exec e c : option schedulerCache :=
  match e with
  | EvAddPod p => fst <$> cache_AddPod cf p c
  | EvUpdatePod o n => fst <$> cache_UpdatePod cf o n c
  | EvDeletePod p => fst <$> cache_DeletePod cf p c
  | EvAssume pi => fst <$> cache_AssumePod cf pi c
  | EvForget pi => fst <$> cache_ForgetPod cf pi c
  | EvFinish p now => Some (cache_FinishReserving ttl p now c).1
  | EvExpire now => CleanupExpiredAssumedPods cf now c
  | EvAddNode nd => fst <$> cache_AddNode cf nd c
  | EvUpdateNode o n => fst <$> cache_UpdateNode cf o n c
  | EvDeleteNode nd => fst <$> cache_DeleteNode cf nd c
  | EvAddNMNode nm => fst <$> cache_AddNMNode cf nm c
  | EvUpdateNMNode o n => fst <$> cache_UpdateNMNode cf o n c
  | EvDeleteNMNode nm => fst <$> cache_DeleteNMNode cf nm c
  | EvAddCNR r => fst <$> cache_AddCNR cf r c
  | EvUpdateCNR o n => fst <$> cache_UpdateCNR cf o n c
  | EvDeleteCNR r => fst <$> cache_DeleteCNR r c
  | EvPartition b k => fst <$> cache_SetPartition b k c
  end.

(** When an event is as the rest of the program means it: the pods of events
    have a UID and an added one is new, an assumed pod carries its annotations, and
    a deleted or forgotten pod is on the node the cache has it on. *)
Definition legal c e : Prop :=
  match e with
  | EvAddPod p => UID p ≠ "" ∧ (cachedPod cf p = true → states c !! UID p = None)
  | EvUpdatePod o n => UID o ≠ "" ∧ UID n = UID o
  | EvDeletePod p => UID p ≠ "" ∧ ∀ ps, states c !! UID p = Some ps → cachedPod cf p = true → name (ps_Pod ps) = name p
  | EvAssume pi => cachedPod cf (cp_Pod pi) = true
  | EvForget pi => ∀ ps, states c !! UID (cp_Pod pi) = Some ps → is_Some (AssumedPods (c_pods c) !! UID (cp_Pod pi)) →
      name (ps_Pod ps) = name (cp_Pod pi)
  | _ => True
  end.

(** How many generations the event may use. *)
Definition cost c e : nat :=
  match e with EvUpdatePod _ _ => 2 | EvExpire _ => size (AssumedPods (c_pods c)) | _ => 1 end.
(** The generation counter stays within int64. *)
Definition room c e : Prop := (generation (Store_ (c_nodes c)) + Z.of_nat (cost c e) ≤ i64_max)%Z.

Inductive cache_reach : schedulerCache → Prop :=
  | cr_new : cache_reach newSchedulerCache
  | cr_step c e c' : cache_reach c → legal c e → room c e → exec e c = Some c' → cache_reach c'.

Lemma cache_new_ok : CacheOK cf newSchedulerCache.
Proof.
  split; simpl; try done; try (intros ? ?; by rw lookup_empty). split.
  - with_strategy transparent [list_store_laws] (exists []; apply rep_new).
  - intros k n. with_strategy transparent [list_store_laws] simpl. by rw lookup_fmap /contents lookup_omap lookup_empty.
  - intros k _. unfold assigned. by rw map_filter_empty fmap_empty.
Qed.

Lemma room_st c e : room c e ↔ st_room (cost c e) (Store_ (c_nodes c)).
Proof. with_strategy transparent [list_store_laws] done. Qed.

(** An operation of the node store alone. *)
Lemma node_event_ok c (f : CacheNodes → option (CacheNodes * option StoreError)) :
  CacheOK cf c →
  (∃ s' (e : option StoreError), f (c_nodes c) = Some (s', e) ∧ NodesOK cf s' (assigned cf (states c)) ∧ storeType s' = storeType (c_nodes c)) →
  ∃ c', fst <$> range_stores f no_op c = Some c' ∧ CacheOK cf c'.
Proof.
  intros HC (s' & e & E & HN & Ht). unfold range_stores, no_op. rw E. cbn [mbind option_bind fmap option_fmap option_map fst].
  eexists. split; [done|]. by apply CacheOK_nodes.
Qed.

Lemma cache_exec_ok c e : CacheOK cf c → legal c e → room c e → ∃ c', exec e c = Some c' ∧ CacheOK cf c'.
Proof.
  intros HC Hl Hr%room_st. pose proof (co_nodes _ _ HC) as HN.
  assert (∀ k n (h : cacheMetrics), is_Some (afterAdd k n h)) as Ha by (intros; unfold afterAdd; eauto).
  assert (∀ k n (h : cacheMetrics), is_Some (afterDelete k n h)) as Hd by (intros; unfold afterDelete; eauto).
  destruct e; simpl in Hl, Hr |- *; try (apply node_event_ok; [done|]).
  - destruct Hl as [Hu Hn]. destruct (add_ok cf Hnn c 0 p HC Hr Hu Hn) as (ns & qs & E1 & E2 & HC' & _).
    unfold cache_AddPod, stores_AddPod, range_stores. rw E1 E2. simpl. eauto.
  - destruct Hl as [Hu Hn]. destruct (cache_update_ok cf Hnn c 0 oldPod newPod HC Hr Hu Hn) as (c' & -> & HC' & _). simpl. eauto.
  - destruct Hl as [Hu Hn]. destruct (delete_ok cf c 0 p HC Hr Hu Hn) as (ns & qs & e1 & e2 & E1 & E2 & HC' & _).
    unfold cache_DeletePod, stores_DeletePod, range_stores. rw E1 E2. simpl. eauto.
  - destruct (cache_assume_ok cf Hnn c 0 pi HC Hr Hl) as (c' & es & -> & HC' & _). simpl. eauto.
  - destruct (cache_forget_ok cf c 0 pi HC Hr Hl) as (c' & es & -> & HC' & _). simpl. eauto.
  - eexists. split; [done|]. by apply finish_ok.
  - destruct (cleanup_ok cf Hnn now c 0 HC) as (c' & -> & HC' & _); [by rw Nat.add_0_r|]. eauto.
  - destruct (AddNode_ok cf Hnn afterAdd afterDelete Ha Hd _ _ 0 nd HN Hr) as (s' & -> & ? & _ & ?). eauto.
  - destruct (AddNode_ok cf Hnn afterAdd afterDelete Ha Hd _ _ 0 newNode HN Hr) as (s' & E & ? & _ & ?). exists s', None. by split_and!.
  - destruct (DeleteNode_ok cf afterAdd afterDelete Ha Hd _ _ 0 nd HN Hr) as (s' & e & -> & ? & _ & ?). eauto.
  - destruct (AddNMNode_ok cf Hnn afterAdd afterDelete Ha Hd _ _ 0 nm HN Hr) as (s' & -> & ? & _ & ?). eauto.
  - destruct (AddNMNode_ok cf Hnn afterAdd afterDelete Ha Hd _ _ 0 newNode HN Hr) as (s' & E & ? & _ & ?). exists s', None. by split_and!.
  - destruct (DeleteNMNode_ok cf afterAdd afterDelete Ha Hd _ _ 0 nm HN Hr) as (s' & e & -> & ? & _ & ?). eauto.
  - destruct (AddCNR_ok cf Hnn _ _ 0 r HN Hr) as (s' & -> & ? & _ & ?). eauto.
  - destruct (AddCNR_ok cf Hnn _ _ 0 newCNR HN Hr) as (s' & E & ? & _ & ?). exists s', None. by split_and!.
  - destruct (DeleteCNR_ok cf _ _ 0 r HN Hr) as (s' & e & -> & ? & _ & ?). eauto.
  - destruct (set_partition_ok cf afterAdd afterDelete Ha Hd _ _ 0 b nodeName HN Hr) as (s' & e & E & ? & _ & ?).
    exists s', e. destruct b; by split_and!.
Qed.

Lemma cache_reach_ok c : cache_reach c → CacheOK cf c.
Proof.
  induction 1 as [|c e c' _ IH Hl Hr E]; [apply cache_new_ok|]. destruct (cache_exec_ok c e IH Hl Hr) as (c1 & E1 & ?). congruence.
Qed.

Lemma new_pod p (ps : PodStore) : IsCachedPod p ps = Some false → UID p ≠ "" ∧ PodStates ps !! UID p = None.
Proof.
  unfold IsCachedPod, nodeinfo_GetPodKey. destruct (decide (UID p = "")) as [He|Hne]; [by rw bool_decide_eq_true_2|].
  rw bool_decide_eq_false_2 //=. intros [= H%bool_decide_eq_false]. split; [done|]. by apply eq_None_not_Some.
Qed.

(** ** Theorems *)

(** C2: the two stores of the cache agree.  In every state reached by legal
    events (pods added, updated and deleted by the informers, pods assumed and
    forgotten by the scheduler, reservations finished and expired, nodes and
    custom node resources changed): a node the cache has holds exactly the pods
    that the pod store places on it, their number and the sums of their requests
    are what it records, in every dimension; a node the cache does not have has no
    pods; and the next legal event is handled without a panic or an exit. *)
Theorem cache_consistent c (Hreach : cache_reach c) :
  (∀ k n, ns_Get k (c_nodes c) = Some (Some n) →
     (∀ u, GetPodInfo u (Maintainer n) = Some (assigned cf (states c) k !! u))
     ∧ NumPods n = Z.of_nat (size (assigned cf (states c) k))
     ∧ ∀ d, d ≠ DPods →
         amount (GuaranteedRequested n) d = wrap64 (zsum (λ p, amount (Res p) d) (typed GuaranteedPod (assigned cf (states c) k)))
         ∧ amount (BestEffortRequested n) d = wrap64 (zsum (λ p, amount (Res p) d) (typed BestEffortPod (assigned cf (states c) k))))
  ∧ (∀ k, ns_Get k (c_nodes c) = Some None → assigned cf (states c) k = ∅)
  ∧ ∀ e, legal c e → room c e → is_Some (exec e c).
Proof.
  pose proof (cache_reach_ok c Hreach) as HC. pose proof (co_nodes _ _ HC) as HN. split_and!.
  - intros k n. rw (ns_Get_ok cf _ _ k HN). intros [= Hk]. pose proof (nok_node _ _ _ HN _ _ Hk) as HS.
    split_and!; [|by apply (NS_len cf)|]; destruct HS as [HI _].
    + intros u. apply (RM_GetPodInfo (cf_gates cf)), (ni_pods _ _ _ _ HI).
    + intros d Hd. pose proof (ni_gt _ _ _ _ HI d) as H1. pose proof (ni_be _ _ _ _ HI d) as H2. by destruct d.
  - intros k. rw (ns_Get_ok cf _ _ k HN). intros [= Hk]. by apply (nok_absent _ _ _ HN).
  - intros e Hl Hr. destruct (cache_exec_ok c e HC Hl Hr) as (c' & -> & _). eauto.
Qed.

(** C35: forgetting undoes assuming.  A new pod that is assumed in a reachable
    cache is known as assumed and on its node; when it is then forgotten the pod
    store is what it was before, and so are the pods of every node. *)
Theorem assume_forget_roundtrip c pi (Hreach : cache_reach c) (Hlegal : legal c (EvAssume pi))
    (Hnew : IsCachedPod (cp_Pod pi) (c_pods c) = Some false) (Hroom : (generation (Store_ (c_nodes c)) + 2 ≤ i64_max)%Z) :
  ∃ c1 c2, cache_AssumePod cf pi c = Some (c1, []) ∧ cache_ForgetPod cf pi c1 = Some (c2, [])
    ∧ IsAssumedPod (cp_Pod pi) (c_pods c1) = Some true
    ∧ (name (cp_Pod pi) ≠ "" → assigned cf (states c1) (name (cp_Pod pi)) !! UID (cp_Pod pi) = Some (info cf (cp_Pod pi)))
    ∧ c_pods c2 = c_pods c
    ∧ ∀ k n2, ns_Get k (c_nodes c2) = Some (Some n2) → NS cf n2 (assigned cf (states c) k).
Proof.
  pose proof (cache_reach_ok c Hreach) as HC. destruct (new_pod _ _ Hnew) as [Hu Hn].
  assert (st_room 2 (Store_ (c_nodes c))) as Hr by with_strategy transparent [list_store_laws] exact Hroom.
  destruct (cache_assume_ok cf Hnn c 1 pi HC Hr Hlegal) as (c1 & es1 & E1 & HC1 & Hr1 & Hres1). destruct (Hres1 Hu Hn) as (-> & Hst1 & Ha1).
  destruct (cache_forget_ok cf c1 0 pi HC1 Hr1) as (c2 & es & E2 & HC2 & _ & Hres2).
  { rw Hst1 lookup_insert_eq. by intros ps [= <-]. }
  destruct Hres2 as (-> & Hst2 & Ha2); [done|rw Ha1 lookup_insert_eq; eauto|]. exists c1, c2.
  assert (AssumedPods (c_pods c) !! UID (cp_Pod pi) = None) as Hna.
  { destruct (AssumedPods (c_pods c) !! UID (cp_Pod pi)) as [b|] eqn:Eb; [|done]. destruct (co_assumed _ _ HC _ _ Eb) as [_ [? ?]]. congruence. }
  assert (states c2 = states c) as Hst by (rw Hst2 Hst1; by apply delete_insert_id).
  assert (c_pods c2 = c_pods c) as Hps.
  { destruct (co_type _ _ HC2) as [_ <-%pods_eta], (co_type _ _ HC) as [_ <-%pods_eta].
    by rw Hst Ha2 Ha1 delete_insert_id. }
  split_and!; [done|done| | |done|].
  - unfold IsAssumedPod. rw (key_ne _ Hu) /=. by rw Ha1 lookup_insert_eq.
  - intros Hne. rw assigned_lookup Hst1 lookup_insert_eq /=. by rw decide_True.
  - intros k n2. pose proof (co_nodes _ _ HC2) as HN2. rw (ns_Get_ok cf _ _ k HN2). intros [= Hk]. rw -Hst. by apply (nok_node _ _ _ HN2).
Qed.

(** C36: expiry removes exactly the assumed pods whose reservation finished and
    whose deadline has passed; every other pod keeps its state, and every node
    then holds exactly the pods that are left. *)
Theorem expiry_exact c now (Hreach : cache_reach c) (Hroom : room c (EvExpire now)) :
  ∃ c', CleanupExpiredAssumedPods cf now c = Some c'
    ∧ (∀ u, states c' !! u = ps ← states c !! u;
         if bool_decide (is_Some (AssumedPods (c_pods c) !! u)) && expired now ps then None else Some ps)
    ∧ ∀ k n, ns_Get k (c_nodes c') = Some (Some n) → NS cf n (assigned cf (states c') k).
Proof.
  pose proof (cache_reach_ok c Hreach) as HC.
  destruct (cleanup_ok cf Hnn now c 0 HC) as (c' & E & HC' & _ & Hst); [rw Nat.add_0_r; by apply room_st in Hroom|].
  exists c'. split_and!; [done|done|]. intros k n. pose proof (co_nodes _ _ HC') as HN. rw (ns_Get_ok cf _ _ k HN).
  intros [= Hk]. by apply (nok_node _ _ _ HN).
Qed.
End spec.

(** ** Examples *)
Module CacheExamples.

Definition cf_example : Config :=
  {| cf_gates := all_gates; cf_nonNative := false; cf_json := λ _, ∅; cf_parse := Atoi;
     cf_nominated := Some; ComponentName := "scheduler"; SchedulerType := "" |}.

Definition node_example : Node :=
  {| node_Name := "node"; node_Labels := ∅; node_Annotations := ∅; node_Unschedulable := false; node_Taints := [];
     node_Conditions := []; node_Images := []; node_Allocatable := {[ResourceCPU := NewQuantity 8]}; node_Capacity := ∅ |}.
Definition pod_a : Pod := bound_pod "a" 5 100.
Definition info_a : CachePodInfo := {| cp_Pod := pod_a; cp_Victims := None |}.

Definition run (es : list Event) : option schedulerCache :=
  foldl (λ acc e, c ← acc; exec cf_example 30 e c) (Some newSchedulerCache) es.

(** The milli-CPUs recorded as requested on a node. *)
Definition cpu_on (k : string) (c : schedulerCache) : option Z :=
  match ns_Get k (c_nodes c) with
  | Some (Some n) => Some (MilliCPU (GuaranteedRequested n))
  | _ => None
  end.

(** A node and one assumed pod on it. *)
Definition assumed_cache : schedulerCache := default newSchedulerCache (run [EvAddNode node_example; EvAssume info_a]).

Lemma assumed_reach : cache_reach cf_example 30 assumed_cache.
Proof.
  apply (cr_step _ _ (default newSchedulerCache (run [EvAddNode node_example])) (EvAssume info_a)).
  - apply (cr_step _ _ newSchedulerCache (EvAddNode node_example)); [apply cr_new|exact I|vm_compute; discriminate|vm_compute; reflexivity].
  - vm_compute. reflexivity.
  - vm_compute. discriminate.
  - vm_compute. reflexivity.
Qed.

Definition node_at (k : string) (c : schedulerCache) : NodeInfo :=
  match ns_Get k (c_nodes c) with Some (Some n) => n | _ => NodeExamples.empty_node end.

Lemma cache_consistent_witness :
  ns_Get "node" (c_nodes assumed_cache) = Some (Some (node_at "node" assumed_cache))
  ∧ MilliCPU (GuaranteedRequested (node_at "node" assumed_cache)) = 100%Z.
Proof.
  assert (ns_Get "node" (c_nodes assumed_cache) = Some (Some (node_at "node" assumed_cache))) as E by (vm_compute; reflexivity).
  split; [exact E|]. destruct (cache_consistent cf_example 30 eq_refl assumed_cache assumed_reach) as (H & _).
  destruct (H _ _ E) as (_ & _ & Hd). destruct (Hd DCPU) as [HG _]; [discriminate|].
  etransitivity; [exact HG|]. vm_compute. reflexivity.
Defined.

Lemma assume_forget_roundtrip_witness :
  ∃ c1 c2, cache_AssumePod cf_example info_a newSchedulerCache = Some (c1, [])
    ∧ cache_ForgetPod cf_example info_a c1 = Some (c2, []) ∧ c_pods c2 = c_pods newSchedulerCache.
Proof.
  destruct (assume_forget_roundtrip cf_example 30 eq_refl newSchedulerCache info_a) as (c1 & c2 & E1 & E2 & _ & _ & Hp & _).
  - apply cr_new.
  - vm_compute. reflexivity.
  - vm_compute. reflexivity.
  - vm_compute. discriminate.
  - exists c1, c2. split; [exact E1|]. split; [exact E2|exact Hp].
Defined.

Lemma expiry_exact_witness :
  ∃ c', CleanupExpiredAssumedPods cf_example 1000 assumed_cache = Some c' ∧ is_Some (PodStates (c_pods c') !! "a").
Proof.
  destruct (expiry_exact cf_example 30 eq_refl assumed_cache 1000 assumed_reach) as (c' & E & H & _).
  - vm_compute. discriminate.
  - exists c'. split; [exact E|]. rewrite (H "a"). vm_compute. eexists. reflexivity.
Defined.

(** A delete event that carries the pod as it was before it was assumed (the
    informer merged the update with the deletion) leaves the assumed pod in the
    cache and on its node.  [RemovePod], written for this case, would have taken it
    away, but the event handler calls [DeletePod]. *)
Theorem merged_delete_keeps_assumed_pod :
  ∃ c c', cache_DeletePod cf_example (set_NodeName "" pod_a) assumed_cache = Some (c, [])
    ∧ is_Some (PodStates (c_pods c) !! "a") ∧ cpu_on "node" c = Some 100%Z
    ∧ cache_RemovePod cf_example (set_NodeName "" pod_a) assumed_cache = Some (c', [])
    ∧ PodStates (c_pods c') !! "a" = None ∧ cpu_on "node" c' = Some 0%Z.
Proof.
  eexists _, _. split; [vm_compute; reflexivity|]. split; [vm_compute; eexists; reflexivity|]. split; [vm_compute; reflexivity|].
  split; [vm_compute; reflexivity|]. split; vm_compute; reflexivity.
Qed.

(** Deleting the last pod of a node without objects drops the custom node
    resource that deleting the node had kept. *)
Theorem last_pod_drops_cnr :
  ∃ c c' n, run [EvAddNode node_example; EvAddCNR {| cnr_Name := "node"; cnr_Allocatable := None; cnr_TopologyZone := [] |};
       EvAddPod pod_a; EvDeleteNode node_example] = Some c
    ∧ ns_Get "node" (c_nodes c) = Some (Some n) ∧ is_Some (ni_CNR n)
    ∧ exec cf_example 30 (EvDeletePod pod_a) c = Some c' ∧ ns_Get "node" (c_nodes c') = Some None.
Proof.
  eexists _, _, _. split; [vm_compute; reflexivity|]. split; [vm_compute; reflexivity|]. split; [eexists; reflexivity|].
  split; vm_compute; reflexivity.
Qed.
End CacheExamples.
