(* ===== verification/Snapshot.v ===== *)
(** * Snapshots of the scheduler cache (pkg/scheduler/cache/snapshot.go)

    A snapshot is a node store of its own, with four slices of its nodes: in and
    out of the scheduler's partition, with pods that have affinity, and with pods
    that have required anti-affinity.  [UpdateSnapshot] of the node store brings
    it up to date with the cache at the start of a scheduling cycle: it walks the
    cache's list down to the snapshot's generation, clones what changed, and
    deletes nodes the cache no longer has.

    The slices hold pointers to the nodes of the snapshot.  A pointer is modelled
    by the key under which the node is stored, kept with the node's name, which
    is the key of the slice.  Sub-clusters and the balancing of attached volumes
    are disabled. *)
From S2P Require Import Prelude GoStrings PodModel PodState GenStore StoreI HashSlice Resource MicroTopo PodInfos PodInfosProps Numa NumaProps NodeInfo NodeInfoProps NodeClone NodeStore NodeStoreProps SchedCache.

Local Open Scope godel_scope.
Local Open Scope string_scope.

(** ** The node slices *)

Definition NodeRef : Type := string * string.
Record nodeSlices := mkSlices {
  inPartitionNodeSlice : @HashSlice NodeRef;
  outOfPartitionNodeSlice : @HashSlice NodeRef;
  havePodsWithAffinityNodeSlice : @HashSlice NodeRef;
  havePodsWithRequiredAntiAffinityNodeSlice : @HashSlice NodeRef
}.
Definition newNodeSlices : nodeSlices := mkSlices NewHashSlice NewHashSlice NewHashSlice NewHashSlice.

Definition slice_op (isAdd : bool) (r : NodeRef) (slice : @HashSlice NodeRef) : option (@HashSlice NodeRef) :=
  fst <$> (if isAdd then hs_Add snd r slice else hs_Del snd r slice).

Definition slices_update (isAdd : bool) (k : string) (n : NodeInfo) (sl : nodeSlices) : option nodeSlices :=
  let r := (k, getNodeName n) in
  sl ← (if NodeInSchedulerPartition n || NMNodeInSchedulerPartition n then
          s ← slice_op isAdd r (inPartitionNodeSlice sl);
          Some (mkSlices s (outOfPartitionNodeSlice sl) (havePodsWithAffinityNodeSlice sl) (havePodsWithRequiredAntiAffinityNodeSlice sl))
        else
          s ← slice_op isAdd r (outOfPartitionNodeSlice sl);
          Some (mkSlices (inPartitionNodeSlice sl) s (havePodsWithAffinityNodeSlice sl) (havePodsWithRequiredAntiAffinityNodeSlice sl)));
  sl ← (if negb (length (GetPodsWithAffinity (Maintainer n)) ≟ 0%nat) then
          s ← slice_op isAdd r (havePodsWithAffinityNodeSlice sl);
          Some (mkSlices (inPartitionNodeSlice sl) (outOfPartitionNodeSlice sl) s (havePodsWithRequiredAntiAffinityNodeSlice sl))
        else Some sl);
  if negb (length (GetPodsWithRequiredAntiAffinity (Maintainer n)) ≟ 0%nat) then
    s ← slice_op isAdd r (havePodsWithRequiredAntiAffinityNodeSlice sl);
    Some (mkSlices (inPartitionNodeSlice sl) (outOfPartitionNodeSlice sl) (havePodsWithAffinityNodeSlice sl) s)
  else Some sl.

Definition SnapNodes : Type := NodeStore (RawStoreImpl NodeInfo) nodeSlices.
Definition NewEmptySnapshot : SnapNodes := mkNodeStore Snapshot NewRawStore ∅ ∅ newNodeSlices.

Abbreviation snapAdd := (slices_update true).
Abbreviation snapDelete := (slices_update false).

(** The lists the scheduler works on, as keys of nodes. *)
Definition InPartitionList (t : SnapNodes) : list string := (hs_Items (inPartitionNodeSlice (hooks t))).*1.
Definition OutOfPartitionList (t : SnapNodes) : list string := (hs_Items (outOfPartitionNodeSlice (hooks t))).*1.
Definition HavePodsWithAffinityList (t : SnapNodes) : list string := (hs_Items (havePodsWithAffinityNodeSlice (hooks t))).*1.
Definition HavePodsWithRequiredAntiAffinityList (t : SnapNodes) : list string :=
  (hs_Items (havePodsWithRequiredAntiAffinityNodeSlice (hooks t))).*1.
Definition List_ (t : SnapNodes) : list string := (InPartitionList t ++ OutOfPartitionList t)%list.
Definition NumNodes (t : SnapNodes) : nat :=
  (hs_Len (inPartitionNodeSlice (hooks t)) + hs_Len (outOfPartitionNodeSlice (hooks t)))%nat.
(** [Get] of the snapshot; [None] is the error. *)
Definition snap_Get (k : string) (t : SnapNodes) : option NodeInfo :=
  match ns_Get k t with
  | Some (Some n) => if bool_decide (is_Some (ni_Node n)) || bool_decide (is_Some (ni_NMNode n)) then Some n else None
  | _ => None
  end.

Section snapshot.
Context {MR : MapRange} (cf : Config).
Implicit Types (s : ListStoreImpl NodeInfo) (t : SnapNodes).

(** ** Refreshing a snapshot *)

(** The function applied to each changed node. *)
Definition clone_node (k : string) (o : StoredObj NodeInfo) t : option SnapNodes :=
  if k ≟ "" then Some t else
  old ← ns_Get k t;
  t ← (match (old : option NodeInfo) with Some n => ns_Delete snapDelete k n t | None => Some t end);
  n ← node_Clone (read o);
  ns_Add snapAdd k n t.

(** The two loops of [UpdateRawStore], with the snapshot as their state. *)
Fixpoint snap_list_loop (storedGeneration : Z) (fuel : nat) (e : option loc) s t : option SnapNodes :=
  match e with
  | None => Some t
  | Some p =>
      it ← cells s !! p;
      if bool_decide (gen (storedObj it) ≤ storedGeneration)%Z then Some t else
      match fuel with
      | O => None
      | S f =>
          t ← clone_node (key it) (storedObj it) t;
          snap_list_loop storedGeneration f (next it) s (with_Store (raw_unmark (key it) (Store_ t)) t)
      end
  end.
Fixpoint snap_marked_loop (ks : list string) s t : option SnapNodes :=
  match ks with
  | [] => Some t
  | k :: ks' =>
      match store s !! k with
      | None => snap_marked_loop ks' s t
      | Some p => it ← cells s !! p; t ← clone_node k (storedObj it) t; snap_marked_loop ks' s t
      end
  end.

(** The clean-up ranges over the snapshot until enough nodes are deleted. *)
Fixpoint snap_clean_loop (l : list (string * StoredObj NodeInfo)) (toDelete : Z) s t : option SnapNodes :=
  match l with
  | [] => Some t
  | (k, existing) :: l' =>
      if (toDelete <=? 0)%Z then Some t else
      o ← list_Get k s;
      if (match (o : option NodeInfo) with None => true | Some n => ObjectIsNil n end) then
        t ← ns_Delete snapDelete k (read existing) t;
        snap_clean_loop l' (toDelete - 1) s t
      else snap_clean_loop l' toDelete s t
  end.

(** [order] is the order in which the marked keys are visited. *)
Definition UpdateSnapshot (order : gset string → list string) s t : option SnapNodes :=
  t ← snap_list_loop (raw_GetGeneration (Store_ t)) (fresh_loc s) (Front s) s t;
  t ← snap_marked_loop (order (updatedSet (Store_ t))) s t;
  let t := with_Store (raw_SetGeneration (generation s) (raw_ResetUpdatedSet (Store_ t))) t in
  let toDelete := (Z.of_nat (raw_Len (Store_ t)) - (Z.of_nat (GenStore.Len s) - Z.of_nat (size (Deleted t))))%Z in
  if (0 <? toDelete)%Z then snap_clean_loop (range_map (rstore (Store_ t))) toDelete s t else Some t.

(** Assuming and forgetting a pod in a snapshot; the pod store of a snapshot
    does nothing. *)
Definition snap_AssumePod (pi : CachePodInfo) t : option (SnapNodes * option StoreError) := AssumePod cf pi t.
Definition snap_ForgetPod (pi : CachePodInfo) t : option (SnapNodes * option StoreError) := ForgetPod cf pi t.
End snapshot.
