(* ===== verification/SnapshotProps.v ===== *)
(** * Refreshing a snapshot gives the cache's nodes

    [SnapOK]: the nodes of the snapshot are stored under their names and the
    partition slices hold exactly them.  The loops of [UpdateSnapshot] act on the
    raw store as those of the generation store (GenStore.v), so what is proved
    there carries over; in addition the slices stay right. *)
From S2P Require Import Prelude GoStrings PodModel PodState GenStore StoreI HashSlice Resource MicroTopo PodInfos PodInfosProps Numa NumaProps NodeInfo NodeInfoProps NodeInfoSpec NodeClone NodeStore NodeStoreProps SchedCache SchedCacheProps SchedCacheSpec Snapshot.

Local Open Scope godel_scope.
Local Open Scope string_scope.

Abbreviation Objs := (gmap string (StoredObj NodeInfo)).

Definition inpart (n : NodeInfo) : bool := NodeInSchedulerPartition n || NMNodeInSchedulerPartition n.

(** The references to the nodes in ([b]) or out of the partition. *)
Definition refs (M : Objs) (b : bool) : gmap string NodeRef :=
  map_imap (λ k o, if Bool.eqb (inpart (read o)) b then Some (k, k) else None) M.

Definition named (M : Objs) : Prop := ∀ k o, M !! k = Some o → getNodeName (read o) = k ∧ k ≠ "".

Record SlicesOK (M : Objs) (sl : nodeSlices) : Prop := {
  sl_in : HR snd (inPartitionNodeSlice sl) (refs M true);
  sl_out : HR snd (outOfPartitionNodeSlice sl) (refs M false);
  sl_aff : ∃ X, HR snd (havePodsWithAffinityNodeSlice sl) X;
  sl_anti : ∃ X, HR snd (havePodsWithRequiredAntiAffinityNodeSlice sl) X
}.

Lemma read_obj n : read (obj n) = n.
Proof. by destruct n. Qed.

Lemma refs_insert M b k o : M !! k = None →
  refs (<[k := o]> M) b = if Bool.eqb (inpart (read o)) b then <[k := (k, k)]> (refs M b) else refs M b.
Proof.
  intros HM. apply map_eq. intros k'. unfold refs. rw map_lookup_imap.
  destruct (decide (k' = k)) as [->|Hne]; [rw lookup_insert_eq|rw lookup_insert_ne //]; simpl; destruct (Bool.eqb _ b);
    rw ?lookup_insert_eq ?lookup_insert_ne // ?map_lookup_imap ?HM //.
Qed.
Lemma refs_delete M b k o : M !! k = Some o →
  refs (delete k M) b = if Bool.eqb (inpart (read o)) b then delete k (refs M b) else refs M b.
Proof.
  intros HM. apply map_eq. intros k'. unfold refs. rw map_lookup_imap.
  destruct (decide (k' = k)) as [->|Hne]; [rw lookup_delete_eq|rw lookup_delete_ne //]; simpl; destruct (Bool.eqb _ b) eqn:Eb;
    rw ?lookup_delete_eq ?lookup_delete_ne // ?map_lookup_imap ?HM //=. by rw Eb.
Qed.

Lemma slice_op_ok isAdd (r : NodeRef) hs X : HR snd hs X →
  ∃ hs', slice_op isAdd r hs = Some hs' ∧ HR snd hs' (if isAdd then <[r.2 := r]> X else delete r.2 X).
Proof.
  intros HX. unfold slice_op. destruct isAdd.
  - destruct (HR_Add snd hs X r HX) as (hs' & -> & HX'). by exists hs'.
  - destruct (HR_Del snd hs X r HX) as (hs' & -> & HX'). by exists hs'.
Qed.

Lemma slices_update_ok isAdd k n M M' sl :
  SlicesOK M sl → getNodeName n = k →
  (∀ b, refs M' b = if Bool.eqb (inpart n) b then (if isAdd : bool then <[k := (k, k)]> (refs M b) else delete k (refs M b)) else refs M b) →
  ∃ sl', slices_update isAdd k n sl = Some sl' ∧ SlicesOK M' sl'.
Proof.
  intros [H1 H2 [X H3] [Y H4]] Hname HM'. unfold slices_update. fold (inpart n). rw Hname. pose proof (HM' true) as Ht. pose proof (HM' false) as Hf.
  destruct (slice_op_ok isAdd (k, k) _ _ H1) as (a & Ea & Ha), (slice_op_ok isAdd (k, k) _ _ H2) as (b & Eb & Hb),
    (slice_op_ok isAdd (k, k) _ _ H3) as (d & Ed & Hd), (slice_op_ok isAdd (k, k) _ _ H4) as (e & Ee & He).
  destruct (inpart n); simpl in Ht, Hf; rw ?Ea ?Eb; cbn [mbind option_bind];
    destruct (negb (length (GetPodsWithAffinity (Maintainer n)) ≟ 0%nat)); simpl; rw ?Ed; cbn [mbind option_bind];
    destruct (negb (length (GetPodsWithRequiredAntiAffinity (Maintainer n)) ≟ 0%nat)); simpl; rw ?Ee; cbn [mbind option_bind];
    eexists; (split; [reflexivity|]); split; simpl; rw ?Ht ?Hf; eauto.
Qed.

Lemma slices_add M sl k n : SlicesOK M sl → M !! k = None → getNodeName n = k →
  ∃ sl', slices_update true k n sl = Some sl' ∧ SlicesOK (<[k := obj n]> M) sl'.
Proof. intros HS HM Hn. apply (slices_update_ok true k n M); [done..|]. intros b. by rw refs_insert // read_obj. Qed.
Lemma slices_del M sl k o : SlicesOK M sl → M !! k = Some o → getNodeName (read o) = k →
  ∃ sl', slices_update false k (read o) sl = Some sl' ∧ SlicesOK (delete k M) sl'.
Proof. intros HS HM Hn. apply (slices_update_ok false k (read o) M); [done..|]. intros b. by rw (refs_delete _ _ _ o). Qed.

Abbreviation objs t := (rstore (Store_ t)).

Record SnapOK (t : SnapNodes) : Prop := {
  so_named : named (objs t);
  so_slices : SlicesOK (objs t) (hooks t);
  so_type : storeType t = Snapshot
}.

Section props.
Context {MR : MapRange} {ML : MapRangeLaws MR} (cf : Config).
Implicit Types (s : ListStoreImpl NodeInfo) (t : SnapNodes) (o : StoredObj NodeInfo).

Lemma snap_Delete_ok t k o : SnapOK t → objs t !! k = Some o →
  ∃ t', ns_Delete snapDelete k (read o) t = Some t' ∧ SnapOK t' ∧ Store_ t' = raw_Delete k (Store_ t) ∧ Deleted t' = Deleted t.
Proof.
  intros [Hn HS Hty] Ho. unfold ns_Delete, store_Delete. cbn [mbind option_bind st_Delete raw_store].
  destruct (slices_del (objs t) (hooks t) k o HS Ho) as (sl & E & HS'); [by apply Hn|].
  cbn [hooks with_Store]. rw E. cbn [mbind option_bind]. eexists. split; [done|]. split; [|done]. split; simpl; [|done|done].
  intros k' o'. rw lookup_delete_Some. intros [_ ?]. by apply Hn.
Qed.
Lemma snap_Add_ok t k n : SnapOK t → objs t !! k = None → getNodeName n = k → k ≠ "" →
  ∃ t', ns_Add snapAdd k n t = Some t' ∧ SnapOK t' ∧ Store_ t' = raw_Set k (obj n) (Store_ t) ∧ Deleted t' = Deleted t.
Proof.
  intros [Hn HS Hty] Ho Hk Hne. unfold ns_Add, ns_Set. cbn [mbind option_bind st_Set raw_store].
  destruct (slices_add (objs t) (hooks t) k n HS Ho Hk) as (sl & E & HS').
  cbn [hooks with_Store]. rw E. cbn [mbind option_bind]. eexists. split; [done|]. split; [|done]. split; simpl; [|done|done].
  intros k' o'. rw lookup_insert_Some. intros [[<- <-]|[_ ?]]; [by rw read_obj|by apply Hn].
Qed.

(** What is copied for an object of the cache. *)
Definition copy o : StoredObj NodeInfo := match node_Clone (read o) with Some n => obj n | None => o end.
(** An object that can be copied and is stored under its name. *)
Definition good (k : string) o : Prop := is_Some (node_Clone (read o)) ∧ getNodeName (read o) = k ∧ k ≠ "".

Lemma clone_name n n' : node_Clone n = Some n' → getNodeName n' = getNodeName n.
Proof. intros ->%node_Clone_eq. done. Qed.

Lemma clone_node_ok t k o : SnapOK t → good k o →
  ∃ t', clone_node k o t = Some t' ∧ SnapOK t' ∧ Store_ t' = cloneInto copy k o (Store_ t) ∧ Deleted t' = Deleted t.
Proof.
  intros HS ([n' En] & Hk & Hne). unfold clone_node, cloneInto, copy. rw (bool_decide_eq_false_2 _ Hne) En.
  unfold ns_Get. cbn [mbind option_bind st_Get raw_store]. unfold raw_Get.
  assert (∃ t1, match read <$> objs t !! k with Some n => ns_Delete snapDelete k n t | None => Some t end = Some t1
    ∧ SnapOK t1 ∧ objs t1 = delete k (objs t) ∧ rgeneration (Store_ t1) = rgeneration (Store_ t)
    ∧ {[k]} ∪ updatedSet (Store_ t1) = {[k]} ∪ updatedSet (Store_ t) ∧ Deleted t1 = Deleted t)
    as (t1 & -> & HS1 & Hobj & Hgen & Hupd & Hdel).
  { destruct (objs t !! k) as [o'|] eqn:Eo; cbn [fmap option_fmap option_map].
    - destruct (snap_Delete_ok t k o' HS Eo) as (t1 & -> & HS1 & Hst & Hd). exists t1. rw Hst /=. split_and!; try done. set_solver.
    - exists t. split_and!; try done. by rw delete_id. }
  cbn [mbind option_bind].
  destruct (snap_Add_ok t1 k n' HS1) as (t' & -> & HS' & Hst & Hd); [by rw Hobj lookup_delete_eq|by rw (clone_name _ _ En)|done|].
  exists t'. split_and!; [done|done| |by rw Hd]. rw Hst. unfold raw_Set. by rw Hobj Hgen Hupd insert_delete_eq.
Qed.

Lemma list_loop_sim s g fuel L lst : ∀ pv e t r',
  seg (cells s) pv e L lst None → (∀ p k o, (p, (k, o)) ∈ L → good k o) → SnapOK t →
  update_list_loop (cloneInto copy) g fuel e s (Store_ t) = Some r' →
  ∃ t', snap_list_loop g fuel e s t = Some t' ∧ Store_ t' = r' ∧ SnapOK t' ∧ Deleted t' = Deleted t.
Proof.
  revert fuel. induction L as [|[p [k o]] L IH]; intros fuel pv e t r'; cbn [seg].
  { intros [-> _] _ HS. destruct fuel; simpl; intros [= <-]; by exists t. }
  intros (-> & q & Hp & Hs) Hgood HS. destruct fuel as [|fuel]; simpl; rw Hp; cbn [mbind option_bind storedObj next key];
    case_bool_decide; try (intros [= <-]; by exists t).
  destruct (clone_node_ok t k o HS) as (t1 & -> & HS1 & Hst1 & Hd1); [apply (Hgood p); set_solver|]. cbn [mbind option_bind].
  rw -Hst1. intros E. destruct (IH fuel (Some p) q (with_Store (raw_unmark k (Store_ t1)) t1) r') as (t' & E' & Ht' & HS' & Hd').
  - done.
  - intros p' k' o' Hin. apply (Hgood p'). set_solver.
  - destruct HS1. by split.
  - exact E.
  - exists t'. split_and!; [done..|by rw Hd'].
Qed.

Lemma marked_loop_sim s L ks : rep s L → (∀ p k o, (p, (k, o)) ∈ L → good k o) → ∀ t r', SnapOK t →
  update_marked_loop (cloneInto copy) ks s (Store_ t) = Some r' →
  ∃ t', snap_marked_loop ks s t = Some t' ∧ Store_ t' = r' ∧ SnapOK t' ∧ Deleted t' = Deleted t.
Proof.
  intros Hr Hgood. induction ks as [|k ks IH]; intros t r' HS; simpl; [intros [= <-]; by exists t|].
  destruct (store s !! k) as [p|] eqn:Ek; [|by apply IH]. pose proof Ek as [o Ho]%(rep_store _ _ Hr).
  destruct (rep_seg _ _ Hr) as [lst Hs]. destruct (seg_cell _ _ _ _ _ _ _ _ _ Hs Ho) as (q & pv & ->).
  cbn [mbind option_bind storedObj]. destruct (clone_node_ok t k o HS (Hgood _ _ _ Ho)) as (t1 & -> & HS1 & Hst1 & Hd1).
  cbn [mbind option_bind]. rw -Hst1. intros E. destruct (IH t1 r' HS1 E) as (t' & ? & ? & ? & Hd). exists t'. split_and!; [done..|by rw Hd].
Qed.

(** The nodes of [l] that the cache no longer has. *)
Definition stale s (l : list (string * StoredObj NodeInfo)) : list (string * StoredObj NodeInfo) :=
  filter (λ kv, contents s !! kv.1 = None) l.

Lemma clean_loop_ok s L l : rep s L → (∀ k o, contents s !! k = Some o → ObjectIsNil (read o) = false) →
  ∀ toDelete t, SnapOK t → NoDup l.*1 → (∀ k o, (k, o) ∈ l → objs t !! k = Some o) →
  (Z.of_nat (length (stale s l)) ≤ toDelete)%Z →
  ∃ t', snap_clean_loop l toDelete s t = Some t' ∧ SnapOK t' ∧ rgeneration (Store_ t') = rgeneration (Store_ t)
    ∧ ∀ k, objs t' !! k = if decide (k ∈ (stale s l).*1) then None else objs t !! k.
Proof.
  intros Hr Hobj. induction l as [|[k o] l IH]; intros toDelete t HS HND Hin Hlen.
  { exists t. split_and!; [done..|]. intros k. case_decide as Hd; [by apply not_elem_of_nil in Hd|done]. }
  cbn [snap_clean_loop]. apply NoDup_cons in HND as [Hk HND]. unfold stale in *. rw filter_cons in Hlen |- *. cbn [fst] in *.
  destruct (toDelete <=? 0)%Z eqn:Et.
  { exists t. split_and!; [done..|]. intros k'. apply Z.leb_le in Et.
    destruct (decide (contents s !! k = None)); simpl in Hlen; [lia|]. case_decide as Hc; [|done].
    assert (length (filter (λ kv, contents s !! kv.1 = None) l) = 0%nat) as H0%length_zero_iff_nil by lia.
    rw H0 in Hc. by apply not_elem_of_nil in Hc. }
  unfold list_Get. rw (rep_Get s L k Hr). cbn [mbind option_bind].
  assert (∀ t1, (∀ k' o', k' ≠ k → objs t1 !! k' = objs t !! k') → ∀ k' o', (k', o') ∈ l → objs t1 !! k' = Some o') as Hrest.
  { intros t1 H1 k' o' Hl. rw (H1 k' o'); [apply Hin; set_solver|]. intros ->. apply Hk. apply list_elem_of_fmap. by exists (k, o'). }
  destruct (contents s !! k) as [oc|] eqn:Ec; cbn [fmap option_fmap option_map].
  - rw (Hobj k oc Ec). destruct (decide (Some oc = None)) as [?|_]; [done|]. destruct (IH toDelete t HS HND) as (t' & -> & HS' & Hg & Hl); [|done|by exists t'].
    intros k' o' Hl. apply Hin. set_solver.
  - destruct (decide (@None (StoredObj NodeInfo) = None)) as [_|?]; [|done]. cbn [length] in Hlen. destruct (snap_Delete_ok t k o HS) as (t1 & -> & HS1 & Hst & _); [apply Hin; set_solver|].
    cbn [mbind option_bind]. destruct (IH (toDelete - 1)%Z t1 HS1 HND) as (t' & -> & HS' & Hg & Hl); [|lia|].
    + apply Hrest. intros k' _ Hne. rw Hst /=. by rw lookup_delete_ne.
    + exists t'. split_and!; [done|done|by rw Hg Hst|]. intros k'. rw Hl Hst fmap_cons /=.
      destruct (decide (k' = k)) as [->|Hne].
      * rw lookup_delete_eq. destruct (decide (k ∈ k :: _)) as [_|Hd]; [by case_decide|]. destruct Hd. set_solver.
      * rw lookup_delete_ne //. destruct (decide (k' ∈ k :: _)), (decide (k' ∈ (filter _ l).*1)); set_solver.
Qed.

Lemma stale_length s L r : rep s L → dom (contents s) ⊆ dom (rstore r) →
  (length (stale s (range_map (rstore r))) + size (contents s) = size (rstore r))%nat.
Proof.
  intros Hr Hsub. assert (length (stale s (range_map (rstore r))) = size (extras s r)) as ->.
  { assert (list_to_set (stale s (range_map (rstore r))).*1 = extras s r) as <-.
    { apply set_eq. intros k. rw elem_of_list_to_set elem_of_extras list_elem_of_fmap. unfold stale. split.
      - intros ([k' o] & -> & [Hc Hl]%list_elem_of_filter). apply range_elem in Hl. rw elem_of_dom not_elem_of_dom. eauto.
      - rw elem_of_dom not_elem_of_dom. intros [[o Ho] Hc]. exists (k, o). split; [done|]. apply list_elem_of_filter. split; [done|].
        by apply range_elem. }
    rw size_list_to_set; [by rw length_fmap|]. unfold stale. apply NoDup_fmap_filter, range_nodup. }
  unfold extras. rw size_difference // !size_dom. assert (size (contents s) ≤ size (rstore r))%nat by (rw -!size_dom; by apply subseteq_size). lia.
Qed.

(** Every node of the cache's store can be copied, is stored under its name, and
    has one of its objects.  The last point excludes a node that was deleted while
    it had pods, which the refresh handles wrongly (node_store.go:430, see
    [snapshot_keeps_deleted_node] of SnapshotSpec). *)
Definition ready s : Prop := ∀ k o, contents s !! k = Some o → good k o ∧ ObjectIsNil (read o) = false.

Lemma UpdateSnapshot_ok order s L t : (∀ X, order X ≡ₚ elements X) → rep s L → ready s → SnapOK t → synced copy s (Store_ t) →
  ∃ t', UpdateSnapshot order s t = Some t' ∧ SnapOK t' ∧ objs t' = copy <$> contents s
    ∧ rgeneration (Store_ t') = generation s ∧ synced copy s (Store_ t').
Proof.
  intros Hord Hr Hready HS Hsync. unfold UpdateSnapshot, Front, raw_GetGeneration.
  assert (∀ p k o, (p, (k, o)) ∈ L → good k o) as Hgood.
  { intros p k o Hin. apply Hready. apply (list_rep_contents _ _ _ _ Hr). eauto. }
  destruct (update_loops_spec copy order Hord s L (Store_ t) Hr Hsync) as (r1 & r2 & E1 & E2 & H2).
  destruct (rep_seg _ _ Hr) as [lst Hs].
  destruct (list_loop_sim s (rgeneration (Store_ t)) (fresh_loc s) L lst None (head s) t r1 Hs Hgood HS E1) as (t1 & -> & <- & HS1 & Hd1).
  cbn [mbind option_bind]. destruct (marked_loop_sim s L _ Hr Hgood t1 r2 HS1 E2) as (t2 & -> & <- & HS2 & Hd2). cbn [mbind option_bind].
  set (t3 := with_Store (raw_SetGeneration (generation s) (raw_ResetUpdatedSet (Store_ t2))) t2).
  assert (SnapOK t3) as HS3 by (destruct HS2; by split).
  assert (∀ k o, contents s !! k = Some o → objs t3 !! k = Some (copy o)) as H3 by exact H2.
  assert (dom (contents s) ⊆ dom (objs t3)) as Hsub by (intros k [o Ho]%elem_of_dom; apply elem_of_dom; eauto).
  pose proof (stale_length s L (Store_ t3) Hr Hsub) as Hlen. rw (rep_Len s L Hr). unfold raw_Len.
  set (toDelete := (Z.of_nat (size (objs t3)) - (Z.of_nat (size (contents s)) - Z.of_nat (size (Deleted t3))))%Z).
  assert (∃ t', (if (0 <? toDelete)%Z then snap_clean_loop (range_map (objs t3)) toDelete s t3 else Some t3) = Some t' ∧ SnapOK t'
    ∧ rgeneration (Store_ t') = generation s
    ∧ ∀ k, objs t' !! k = if decide (k ∈ (stale s (range_map (objs t3))).*1) then None else objs t3 !! k) as (t' & -> & HS' & Hg & Hl).
  { destruct (0 <? toDelete)%Z eqn:E0.
    - destruct (clean_loop_ok s L (range_map (objs t3)) Hr) with (toDelete := toDelete) (t := t3) as (t' & -> & ? & Hg & ?);
        [intros k o Ho; apply (Hready k o Ho)|done|apply range_nodup|intros k o; by rw range_elem|lia|]. exists t'. by split_and!.
    - exists t3. split_and!; [done..|]. intros k.
      assert (length (stale s (range_map (objs t3))) = 0%nat) as ->%length_zero_iff_nil by lia.
      case_decide as Hd; [by apply not_elem_of_nil in Hd|done]. }
  assert (objs t' = copy <$> contents s) as Hfin.
  { apply map_eq. intros k. rw Hl lookup_fmap. destruct (contents s !! k) as [o|] eqn:Ec; simpl.
    - case_decide as Hd; [|by apply H3]. exfalso. revert Hd. intros ([k' o'] & -> & [Hc _]%list_elem_of_filter)%list_elem_of_fmap. simpl in *. congruence.
    - case_decide as Hd; [done|]. apply eq_None_not_Some. intros [o Ho]. destruct Hd. apply list_elem_of_fmap. exists (k, o).
      split; [done|]. apply list_elem_of_filter. split; [done|]. by apply range_elem. }
  exists t'. split_and!; [done..|]. split; [by rw Hg|]. intros k o Ho _ _. by rw Hfin lookup_fmap Ho.
Qed.
End props.
