(* ===== verification/SnapshotSpec.v ===== *)
(** * What a snapshot promises

    A cache and a snapshot that is refreshed from it now and then, with pods
    assumed and forgotten in between; what a refresh gives; and a case in
    which a node the cache no longer has stays in the snapshot. *)
From S2P Require Import Prelude GoStrings PodModel PodState GenStore StoreI HashSlice Resource MicroTopo PodInfos PodInfosProps Numa NumaProps NodeInfo NodeInfoProps NodeInfoSpec NodeClone NodeStore NodeStoreProps SchedCache SchedCacheProps SchedCacheSpec Snapshot SnapshotProps.

Local Open Scope godel_scope.
Local Open Scope string_scope.

Section spec.
Context {MR : MapRange} {ML : MapRangeLaws MR} (cf : Config).
Context (order : gset string → list string).
Implicit Types (s : ListStoreImpl NodeInfo) (t : SnapNodes) (n : NodeInfo).

(** ** Pods assumed in a snapshot *)

Lemma update_same (p : PodInfo) sign pre n n' :
  update (λ m, range_map m) (cf_gates cf) (λ m, range_map m) (λ m, range_map m) (cf_parse cf) p sign pre n = Some n' → same_objects n n'.
Proof.
  unfold update. intros E. destruct (pi_ResourceType p) as [[]|]; simpl in E;
    (destruct (updateNonNativeResource _ _ _ _ _ _ _ _ _) as [o|]; [|done]); simpl in E; by injection E as <-.
Qed.
Lemma add_same p n n' : node_AddPod cf p n = Some n' → same_objects n n'.
Proof. unfold node_AddPod, NodeInfo.AddPod. destruct (AddPodInfo _ _ _) as [m|]; [|done]. simpl. intros E%update_same. exact E. Qed.
Lemma remove_same p pre n n' e : node_RemovePod cf p pre n = Some (n', e) → same_objects n n'.
Proof.
  unfold node_RemovePod, RemovePod. destruct (nodeinfo_GetPodKey p) as [k|]; [|by intros [= <- _]].
  destruct (GetPodInfo _ _) as [[q|]|]; simpl; [|by intros [= <- _]|done].
  destruct (RemovePodInfo _ _ _) as [m|]; [|done]. simpl. destruct (update _ _ _ _ _ _ _ _ _) as [n1|] eqn:E; [|done].
  simpl. intros [= <- _]. apply update_same in E. exact E.
Qed.
Lemma victims_same (f : option NodeInfo → Pod → option NodeInfo) l n n' :
  (∀ p, f None p = None) → (∀ n n' p, f (Some n) p = Some n' → same_objects n n') → foldl f (Some n) l = Some n' → same_objects n n'.
Proof.
  intros H0 H1. revert n. induction l as [|p l IH]; intros n; simpl; [by intros [= <-]|].
  destruct (f (Some n) p) as [n1|] eqn:E.
  - intros Hl. eapply same_objects_trans; [by eapply H1|by apply IH].
  - intros Hl. exfalso. clear -Hl H0. induction l; simpl in *; [done|]. rw H0 in Hl. auto.
Qed.

Lemma name_same n n' : same_objects n n' → getNodeName n' = getNodeName n ∧ inpart n' = inpart n.
Proof. intros (H1 & H2 & _ & H3 & H4). unfold getNodeName, inpart. by rw H1 H2 H3 H4. Qed.

(** A node is replaced by one with the same objects. *)
Lemma refs_same (M : Objs) k o n b : M !! k = Some o → inpart n = inpart (read o) → refs (<[k := obj n]> M) b = refs M b.
Proof.
  intros HM Hi. apply map_eq. intros k'. unfold refs. rw !map_lookup_imap. destruct (decide (k' = k)) as [->|Hne]; [|by rw lookup_insert_ne].
  rw lookup_insert_eq HM. cbn [mbind option_bind]. by rw read_obj Hi.
Qed.
Lemma snap_replace_ok t t' k o n : SnapOK t → objs t !! k = Some o → same_objects (read o) n →
  Store_ t' = raw_Set k (obj n) (Store_ t) → hooks t' = hooks t → storeType t' = storeType t → SnapOK t'.
Proof.
  intros [Hn [H1 H2 H3 H4] Ht] Ho Hs Hst Hh Hty. destruct (name_same _ _ Hs) as [Hname Hin]. split; rw ?Hst ?Hh ?Hty //.
  - intros k' o'. cbn [rstore raw_Set]. rw lookup_insert_Some. intros [[<- <-]|[_ Ho']]; [|by apply Hn]. rw read_obj Hname. by apply Hn.
  - split; cbn [rstore raw_Set]; rw ?(refs_same _ _ o) //.
Qed.

Lemma snap_assume_ok pi t t' e : let k := GetNodeNameFromPod cf (cp_Pod pi) in
  SnapOK t → is_Some (objs t !! k) → snap_AssumePod cf pi t = Some (t', e) →
  SnapOK t' ∧ (Store_ t' = Store_ t ∨ ∃ o, Store_ t' = raw_Set k o (Store_ t)).
Proof.
  intros k HS [o Ho]. unfold snap_AssumePod, AssumePod. fold k. destruct (k ≟ ""); [intros [= <- _]; auto|].
  unfold getOrCreateNode, ns_Get. cbn [mbind option_bind st_Get raw_store]. unfold raw_Get. rw Ho. cbn [fmap option_fmap option_map mbind option_bind].
  unfold ns_Set. cbn [st_Set raw_store mbind option_bind]. destruct (node_AddPod cf (cp_Pod pi) (read o)) as [n1|] eqn:E1; [|done].
  cbn [mbind option_bind storeType with_Store]. rw (so_type _ HS).
  destruct (foldl _ (Some n1) _) as [n2|] eqn:E2; [|done]. cbn [mbind option_bind].
  unfold ns_Write. cbn [st_Write raw_store Store_ with_Store]. unfold raw_Write. simpl. rw lookup_insert_eq. cbn [mbind option_bind].
  intros [= <- _]. simpl.
  assert (same_objects (read o) n2) as Hsame.
  { eapply same_objects_trans; [by eapply add_same|]. eapply (victims_same (remove_victim cf)); [done| |exact E2].
    intros n n' p. unfold remove_victim. simpl. destruct (node_RemovePod cf p true n) as [[n3 e3]|] eqn:E3; [|done].
    simpl. intros [= <-]. by eapply remove_same. }
  assert (∀ o', mkRawStore (<[k := obj n2]> (<[k := o']> (objs t))) (rgeneration (Store_ t)) ({[k]} ∪ updatedSet (Store_ t))
    = raw_Set k (obj n2) (Store_ t)) as Hw by (intros; unfold raw_Set; by rw insert_insert_eq).
  rw Hw.
  split; [|right; by eexists]. by eapply (snap_replace_ok t _ k o n2).
Qed.

Lemma snap_forget_ok pi t t' e : let k := GetNodeNameFromPod cf (cp_Pod pi) in
  SnapOK t → (∀ o, objs t !! k = Some o → ObjectIsNil (read o) = false) → snap_ForgetPod cf pi t = Some (t', e) →
  SnapOK t' ∧ (Store_ t' = Store_ t ∨ ∃ o, Store_ t' = raw_Set k o (Store_ t)).
Proof.
  intros k HS Hobj. unfold snap_ForgetPod, ForgetPod. fold k. destruct (k ≟ ""); [intros [= <- _]; auto|].
  unfold ns_Get. cbn [mbind option_bind st_Get raw_store]. unfold raw_Get. destruct (objs t !! k) as [o|] eqn:Ho;
    cbn [fmap option_fmap option_map]; [|intros [= <- _]; auto].
  destruct (node_RemovePod cf (cp_Pod pi) false (read o)) as [[n1 e1]|] eqn:E1; [|done]. cbn [mbind option_bind].
  destruct e1; [intros [= <- _]; auto|]. rw (so_type _ HS). destruct (foldl _ (Some n1) _) as [n2|] eqn:E2; [|done]. cbn [mbind option_bind].
  assert (same_objects (read o) n2) as Hsame.
  { eapply same_objects_trans; [by eapply remove_same|]. eapply (victims_same (add_victim cf)); [done| |exact E2].
    intros n n' p. apply add_same. }
  unfold keep_or_drop. assert (ObjectIsNil n2 = false) as Hnil.
  { specialize (Hobj o eq_refl). unfold ObjectIsNil in *. destruct Hsame as (-> & -> & _). exact Hobj. }
  rw Hnil andb_false_r. unfold ns_Set. cbn [st_Set raw_store mbind option_bind]. intros [= <- _].
  split; [|right; by eexists]. by eapply (snap_replace_ok t _ k o n2).
Qed.

(** ** A cache and a snapshot *)

Inductive snap_reach : ListStoreImpl NodeInfo → SnapNodes → Prop :=
  | sr_new : snap_reach NewListStore NewEmptySnapshot
  | sr_Set k n s s' t : snap_reach s t → (generation s < i64_max)%Z → Set_ k n s = Some s' → snap_reach s' t
  | sr_Delete k s s' t : snap_reach s t → GenStore.Delete k s = Some s' → snap_reach s' t
  | sr_assume pi s t t' e :
      snap_reach s t → is_Some (objs t !! GetNodeNameFromPod cf (cp_Pod pi)) → snap_AssumePod cf pi t = Some (t', e) → snap_reach s t'
  | sr_forget pi s t t' e :
      snap_reach s t → (∀ o, objs t !! GetNodeNameFromPod cf (cp_Pod pi) = Some o → ObjectIsNil (read o) = false) →
      snap_ForgetPod cf pi t = Some (t', e) → snap_reach s t'
  | sr_update s t t' : snap_reach s t → ready s → UpdateSnapshot order s t = Some t' → snap_reach s t'.

Context (Horder : ∀ X, order X ≡ₚ elements X).

Lemma synced_set s (r : RawStoreImpl NodeInfo) k o : synced copy s r → synced copy s (raw_Set k o r).
Proof.
  intros [Hg Hs]. split; [done|]. intros k' o' Hk' Hle Hu. simpl in *. rw lookup_insert_ne; [|set_solver]. apply Hs; [done|done|set_solver].
Qed.

Lemma HR_empty b : HR snd (NewHashSlice : @HashSlice NodeRef) (refs ∅ b).
Proof. assert (refs ∅ b = ∅) as -> by (apply map_eq; intros; unfold refs; by rw map_lookup_imap lookup_empty). apply HR_New. Qed.

Lemma snap_reach_ok s t : snap_reach s t → (∃ L, rep s L) ∧ synced copy s (Store_ t) ∧ SnapOK t.
Proof.
  induction 1 as [|k n s s' t _ ((L & Hr) & [Hg Hs] & HS) Hmax E|k s s' t _ ((L & Hr) & [Hg Hs] & HS) E
    |pi s t t' e _ (HL & Hsy & HS) Hp E|pi s t t' e _ (HL & Hsy & HS) Hp E|s t t' _ ((L & Hr) & Hsy & HS) Hrd E].
  - split_and!; [exists []; apply rep_new| |].
    + split; [done|]. intros k o. by rw /contents lookup_omap lookup_empty.
    + split; [intros ? ?; by rw lookup_empty| |done]. split; [apply HR_empty|apply HR_empty|eexists; apply HR_New|eexists; apply HR_New].
  - destruct (Set_spec s L k n Hr Hmax) as (s1 & p & Heq & Hgen & Hr1). simplify_eq.
    split; [eauto|]. split; [|done]. split; [lia|]. rw (contents_Set _ _ _ _ _ _ _ Hr Hr1). intros k' o.
    intros [[<- <-]|[Hne Hk']]%lookup_insert_Some; [simpl; lia|by apply Hs].
  - destruct (list_Delete_spec s L k Hr) as (s1 & Heq & Hgen & Hr1). simplify_eq.
    split; [eauto|]. split; [|done]. split; [lia|]. rw (contents_Delete _ _ _ _ Hr Hr1). intros k' o.
    intros [_ Hk']%lookup_delete_Some. by apply Hs.
  - destruct (snap_assume_ok pi t t' e HS Hp E) as [HS' [->|[o ->]]]; split_and!; try done. by apply synced_set.
  - destruct (snap_forget_ok pi t t' e HS Hp E) as [HS' [->|[o ->]]]; split_and!; try done. by apply synced_set.
  - destruct (UpdateSnapshot_ok order s L t Horder Hr Hrd HS Hsy) as (t1 & E1 & HS1 & _ & _ & Hsy1). simplify_eq. eauto.
Qed.

Lemma refs_items M (hs : @HashSlice NodeRef) b : HR snd hs (refs M b) →
  NoDup (hs_Items hs).*1 ∧ ∀ k, k ∈ (hs_Items hs).*1 ↔ ∃ o, M !! k = Some o ∧ inpart (read o) = b.
Proof.
  intros HX. pose proof (HR_Items snd hs _ HX) as Hp.
  assert (∀ k r, (refs M b) !! k = Some r ↔ r = (k, k) ∧ ∃ o, M !! k = Some o ∧ inpart (read o) = b) as Hrefs.
  { intros k r. unfold refs. rw map_lookup_imap. destruct (M !! k) as [o|]; cbn [mbind option_bind]; [|split; [done|by intros (_ & ? & ? & _)]].
    destruct (Bool.eqb (inpart (read o)) b) eqn:Eb.
    - apply eqb_prop in Eb. split; [intros [= <-]; eauto|by intros [-> _]].
    - split; [done|]. intros (_ & o' & [= <-] & <-). by rw eqb_reflx in Eb. }
  assert ((map_to_list (refs M b)).*2.*1 = (map_to_list (refs M b)).*1) as Heq.
  { apply list_eq. intros i. rw !list_lookup_fmap. destruct (map_to_list (refs M b) !! i) as [[k r]|] eqn:Ei; simpl; [|done].
    apply list_elem_of_lookup_2, elem_of_map_to_list, Hrefs in Ei as [-> _]. done. }
  split.
  - rw Hp Heq. apply NoDup_fst_map_to_list.
  - intros k. rw Hp Heq list_elem_of_fmap. split.
    + intros ([k' r] & -> & Hl). apply elem_of_map_to_list, Hrefs in Hl as [_ ?]. done.
    + intros Ho. exists (k, (k, k)). split; [done|]. apply elem_of_map_to_list, Hrefs. done.
Qed.

(** ** Theorems *)

(** C18: A refresh gives the nodes of the cache, if every node of the cache still has
    its node object ([ready]).  For a cache and a snapshot reached by any writes to the
    cache, pods assumed (with their victims) and forgotten in the snapshot, and earlier
    refreshes: the refresh succeeds, the snapshot then has a clone of every node of the
    cache and no other node, and its in- and out-of-partition lists contain each of
    them once, by the partition it is in.  A deleted node that still has pods in the
    cache is excluded: the clean-up of the snapshot counts it as missing and can keep
    another node that is gone ([snapshot_keeps_deleted_node], node_store.go:430). *)
Theorem snapshot_refresh s t (Hreach : snap_reach s t) (Hready : ready s) :
  ∃ t', UpdateSnapshot order s t = Some t'
    ∧ (∀ k, ns_Get k t' = Some (match contents s !! k with Some o => node_Clone (read o) | None => None end))
    ∧ NoDup (InPartitionList t') ∧ NoDup (OutOfPartitionList t')
    ∧ (∀ k, k ∈ InPartitionList t' ↔ ∃ o, contents s !! k = Some o ∧ inpart (read o) = true)
    ∧ (∀ k, k ∈ OutOfPartitionList t' ↔ ∃ o, contents s !! k = Some o ∧ inpart (read o) = false).
Proof.
  destruct (snap_reach_ok s t Hreach) as ((L & Hr) & Hsy & HS).
  destruct (UpdateSnapshot_ok order s L t Horder Hr Hready HS Hsy) as (t' & E & HS' & Hobj & _).
  exists t'. split; [done|]. destruct (so_slices _ HS') as [Hin Hout _ _].
  destruct (refs_items _ _ _ Hin) as [N1 I1], (refs_items _ _ _ Hout) as [N2 I2].
  assert (∀ k b, (∃ o, objs t' !! k = Some o ∧ inpart (read o) = b) ↔ ∃ o, contents s !! k = Some o ∧ inpart (read o) = b) as Hex.
  { intros k b. rw Hobj. setoid_rewrite lookup_fmap. split.
    - intros (o & Ho & Hb). destruct (contents s !! k) as [o'|] eqn:Ec; [|done]. cbn [fmap option_fmap option_map] in Ho. injection Ho as <-. exists o'. split; [done|].
      destruct (Hready k o' Ec) as [[[n' En] _] _]. unfold copy in Hb. rw En read_obj in Hb. rw -Hb. by rw (node_Clone_eq _ _ En).
    - intros (o & -> & Hb). cbn [fmap option_fmap option_map]. eexists. split; [done|]. unfold copy. destruct (node_Clone (read o)) as [n'|] eqn:En; [|done].
      rw read_obj. rw -Hb. by rw (node_Clone_eq _ _ En). }
  split_and!; [|done|done|intros k; rw -Hex; apply I1|intros k; rw -Hex; apply I2].
  intros k. unfold ns_Get. cbn [st_Get raw_store]. unfold raw_Get. rw Hobj lookup_fmap.
  destruct (contents s !! k) as [o|] eqn:Ec; cbn [fmap option_fmap option_map]; [|done]. f_equal. destruct (Hready k o Ec) as [[[n' En] _] _].
  unfold copy. rw En. f_equal. apply read_obj.
Qed.
End spec.

Module SnapshotExamples.
Import CacheExamples.

Definition named_node (nm : string) : Node :=
  {| node_Name := nm; node_Labels := ∅; node_Annotations := ∅; node_Unschedulable := false; node_Taints := [];
     node_Conditions := []; node_Images := []; node_Allocatable := {[ResourceCPU := NewQuantity 8]}; node_Capacity := ∅ |}.
Definition refresh (c : schedulerCache) (t : SnapNodes) : option SnapNodes := UpdateSnapshot elements (Store_ (c_nodes c)) t.

(** A cache with one node. *)
Definition one_node : NodeInfo := node_at "node" assumed_cache.
Definition one_store : ListStoreImpl NodeInfo := default NewListStore (Set_ "node" one_node NewListStore).

Lemma one_store_ready : ready one_store.
Proof.
  assert (contents one_store = {["node" := mkObj one_node 1]}) as E by (vm_compute; reflexivity).
  intros k o. rw E lookup_singleton_Some. intros [<- <-].
  split; [split; [|split]|]; [vm_compute; eexists; reflexivity|vm_compute; reflexivity|discriminate|vm_compute; reflexivity].
Qed.

Lemma snapshot_refresh_witness :
  ∃ t', UpdateSnapshot elements one_store NewEmptySnapshot = Some t' ∧ "node" ∈ OutOfPartitionList t'.
Proof.
  destruct (snapshot_refresh cf_example elements (λ X, Permutation_refl _) one_store NewEmptySnapshot) as (t' & E & _ & _ & _ & _ & H).
  - apply (sr_Set cf_example elements "node" one_node NewListStore one_store); [apply sr_new|vm_compute; reflexivity|vm_compute; reflexivity].
  - exact one_store_ready.
  - exists t'. split; [exact E|]. apply H. eexists. split; vm_compute; reflexivity.
Defined.

(** Two nodes, one of them with a pod; the node with the pod is deleted, and
    the node without pods after it, each time followed by a refresh. *)
Definition gone_first : Event := EvDeleteNode (named_node "node").
Definition gone_second (k : string) : Event := EvDeleteNode (named_node k).
Definition stale_run (k : string) : option (schedulerCache * SnapNodes) :=
  c ← run [EvAddNode (named_node "node"); EvAddNode (named_node k); EvAddPod pod_a; gone_first];
  t ← refresh c NewEmptySnapshot;
  c ← exec cf_example 30 (gone_second k) c;
  t ← refresh c t;
  Some (c, t).

(** A deleted node stays in the snapshot.  A node is deleted from the cache
    while it still has a pod; another one, without pods, is deleted after it.  The
    refresh counts the deleted nodes that still have pods in the snapshot's
    [Deleted] set, which is always empty, and so stops before it has removed every
    node that is gone: the node the cache no longer has is still in the snapshot,
    and the scheduler still lists it. *)
Theorem snapshot_keeps_deleted_node :
  ∃ k c t n, stale_run k = Some (c, t) ∧ ns_Get k (c_nodes c) = Some None
    ∧ snap_Get k t = Some n ∧ List_ t = [k].
Proof.
  exists "b". eexists _, _, _. split; [vm_compute; reflexivity|]. split; [vm_compute; reflexivity|].
  split; vm_compute; reflexivity.
Qed.
End SnapshotExamples.
