(* ===== verification/Units.v ===== *)
(** * Schedule units and the order of the ready queue

    The scheduler schedules units: a pod group with the pods that arrived so
    far, or a single pod (pkg/framework/api/unit.go).  This file models both
    implementations of [ScheduleUnit], how a unit is made from a pod
    (pkg/framework/utils/unit.go), the queue's wrapper [QueuedUnitInfo]
    (pkg/framework/api/types.go) and the two unit sort plugins
    (pkg/plugins/unitqueuesort) with their annotation override.  A
    [QueuedPodInfo] is only ever built around a pod, so the tests
    [pod.Pod == nil] of the source are not modelled. *)
From S2P Require Import Prelude GoStrings PodModel.

Local Open Scope godel_scope.
Local Open Scope string_scope.

(** ** Data *)

Record QueuedPodInfo := mkQueuedPodInfo {
  qp_Pod : Pod; qp_Timestamp : Z; qp_InitialAttemptTimestamp : Z; qp_OwnerReferenceKey : string
}.

(** What the scheduler reads of a [v1alpha1.PodGroup]. *)
Record PodGroup := mkPodGroup {
  pg_Namespace : string; pg_Name : string; pg_Annotations : option (gmap string string);
  pg_CreationTimestamp : Z; pg_MinMember : Z; pg_PriorityClassName : string;
  pg_ScheduleTimeoutSeconds : option Z
}.

Inductive ScheduleUnitType := PodGroupUnitType | SinglePodUnitType.
#[export] Instance ScheduleUnitType_eq_dec : EqDecision ScheduleUnitType.
Proof. solve_decision. Defined.

Definition type_string (t : ScheduleUnitType) : string :=
  match t with PodGroupUnitType => "PodGroupUnit" | SinglePodUnitType => "SinglePodUnit" end.

Record PodGroupUnit := mkPodGroupUnit {
  pgu_key : string; pgu_podGroup : option PodGroup; pgu_priority : Z;
  queuedPodInfoMap : gmap string QueuedPodInfo; pgu_timestamp : Z
}.

Record SinglePodUnit := mkSinglePodUnit { spu_key : string; spu_Pod : option QueuedPodInfo }.

(** The interface value: one of the two implementations. *)
Inductive ScheduleUnit := PGU (u : PodGroupUnit) | SPU (s : SinglePodUnit).

(** ** Keys and constructors *)

Definition keyForPodGroupUnit (pg : option PodGroup) : string :=
  match pg with
  | None => ""
  | Some g => type_string PodGroupUnitType ++ "/" ++ pg_Namespace g ++ "/" ++ pg_Name g
  end.

Definition keyForSinglePodUnit (p : Pod) : string :=
  type_string SinglePodUnitType ++ "/" ++ Namespace p ++ "/" ++ Name p.

Definition NewPodGroupUnit (now : Z) (pg : option PodGroup) (priority : Z) : PodGroupUnit :=
  mkPodGroupUnit (keyForPodGroupUnit pg) pg priority ∅ now.

Definition GetUnitIdentifier (p : Pod) : string :=
  let pgName := GetPodGroupName p in
  if negb (pgName ≟ "") then type_string PodGroupUnitType ++ "/" ++ Namespace p ++ "/" ++ pgName
  else type_string SinglePodUnitType ++ "/" ++ Namespace p ++ "/" ++ Name p.

(** [None] is the error: pod group or priority class not found. *)
Definition CreateScheduleUnit (now : Z) (pcLister : string → option Z)
    (pgLister : string → string → option PodGroup) (info : QueuedPodInfo) : option ScheduleUnit :=
  let p := qp_Pod info in
  if negb (GetPodGroupName p ≟ "") then
    podGroup ← pgLister (Namespace p) (GetPodGroupName p);
    priority ← (if pg_PriorityClassName podGroup ≟ "" then Some (GetDefaultPriorityForGodelPod p)
                else pcLister (pg_PriorityClassName podGroup));
    Some (PGU (NewPodGroupUnit now (Some podGroup) priority))
  else Some (SPU (mkSinglePodUnit "" None)).

(** ** The methods of [ScheduleUnit] *)

Definition with_pods (m : gmap string QueuedPodInfo) (u : PodGroupUnit) : PodGroupUnit :=
  mkPodGroupUnit (pgu_key u) (pgu_podGroup u) (pgu_priority u) m (pgu_timestamp u).

Definition Type_ (u : ScheduleUnit) : ScheduleUnitType :=
  match u with PGU _ => PodGroupUnitType | SPU _ => SinglePodUnitType end.

Definition GetKey (u : ScheduleUnit) : string :=
  match u with
  | PGU u => pgu_key u
  | SPU s => match spu_Pod s with None => "" | Some _ => spu_key s end
  end.

Definition ReadyToBePopulated (u : ScheduleUnit) : bool :=
  match u with
  | PGU u => match pgu_podGroup u with
             | None => false
             | Some g => (pg_MinMember g <=? Z.of_nat (size (queuedPodInfoMap u)))%Z
             end
  | SPU s => match spu_Pod s with None => false | Some _ => true end
  end.

(** The single-pod unit without a pod panics. *)
Definition UnitPodBelongToUnit (u : ScheduleUnit) (p : Pod) : option bool :=
  match u with
  | PGU u =>
      let name := anno p PodGroupNameAnnotationKey in
      match pgu_podGroup u with
      | None => Some false
      | Some g => if name ≟ "" then Some false
                  else Some ((pg_Name g ≟ name) && (pg_Namespace g ≟ Namespace p))
      end
  | SPU s => i ← spu_Pod s;
             Some ((Namespace p ≟ Namespace (qp_Pod i)) && (Name p ≟ Name (qp_Pod i)))
  end.

(** [metav1.Time] pointer; reading the timestamp of a missing pod group
    panics, which does not occur in the queue. *)
Definition GetCreationTimestamp (u : ScheduleUnit) : option Z :=
  match u with
  | PGU u => pg_CreationTimestamp <$> pgu_podGroup u
  | SPU s => (λ i, CreationTimestamp (qp_Pod i)) <$> spu_Pod s
  end.

Definition SetEnqueuedTimeStamp (ts : Z) (u : ScheduleUnit) : ScheduleUnit :=
  let stamp i := mkQueuedPodInfo (qp_Pod i) ts (qp_InitialAttemptTimestamp i) (qp_OwnerReferenceKey i) in
  match u with
  | PGU u => PGU (mkPodGroupUnit (pgu_key u) (pgu_podGroup u) (pgu_priority u)
                    (stamp <$> queuedPodInfoMap u) ts)
  | SPU s => SPU (mkSinglePodUnit (spu_key s) (stamp <$> spu_Pod s))
  end.

Definition unit_GetPriority (u : ScheduleUnit) : Z :=
  match u with
  | PGU u => pgu_priority u
  | SPU s => match spu_Pod s with
             | None => 100
             | Some i => match Priority (qp_Pod i) with None => 100 | Some v => v end
             end
  end%Z.

Definition ValidatePodCount (u : ScheduleUnit) (podCount : Z) : option bool :=
  match u with
  | PGU u => g ← pgu_podGroup u; Some (pg_MinMember g <=? podCount)%Z
  | SPU _ => Some (0 <? podCount)%Z
  end.

Section pods.
(** The order in which [range] visits the pods of a group. *)
Context (podOrder : gmap string QueuedPodInfo → list QueuedPodInfo).

Definition GetPods (u : ScheduleUnit) : list QueuedPodInfo :=
  match u with
  | PGU u => podOrder (queuedPodInfoMap u)
  | SPU s => match spu_Pod s with None => [] | Some i => [i] end
  end.
End pods.

Definition NumPods (u : ScheduleUnit) : nat :=
  match u with
  | PGU u => size (queuedPodInfoMap u)
  | SPU s => match spu_Pod s with None => 0 | Some _ => 1 end
  end.

Definition GetPod (i : QueuedPodInfo) (u : ScheduleUnit) : option QueuedPodInfo :=
  match u with
  | PGU u => queuedPodInfoMap u !! UID (qp_Pod i)
  | SPU s => match spu_Pod s with
             | None => None
             | Some j => if UID (qp_Pod j) ≟ UID (qp_Pod i) then Some j else None
             end
  end.

Definition AddPod (i : QueuedPodInfo) (u : ScheduleUnit) : ScheduleUnit :=
  match u with
  | PGU u => PGU (with_pods (<[UID (qp_Pod i) := i]> (queuedPodInfoMap u)) u)
  | SPU _ => SPU (mkSinglePodUnit (keyForSinglePodUnit (qp_Pod i)) (Some i))
  end.

Definition UpdatePod : QueuedPodInfo → ScheduleUnit → ScheduleUnit := AddPod.

(** The flag is the error "cannot add multiple pods". *)
Definition AddPods (l : list QueuedPodInfo) (u : ScheduleUnit) : ScheduleUnit * bool :=
  match u with
  | PGU u => (PGU (with_pods (foldl (λ m i, <[UID (qp_Pod i) := i]> m) (queuedPodInfoMap u) l) u), false)
  | SPU s => (SPU s, negb (bool_decide (length l = 1)))
  end.

(** The flag is an error: several pods, or a pod already there. *)
Definition AddPodsIfNotPresent (l : list QueuedPodInfo) (u : ScheduleUnit) : ScheduleUnit * bool :=
  match u with
  | PGU u =>
      (PGU (with_pods (foldl (λ m i, match m !! UID (qp_Pod i) with
                                     | Some _ => m
                                     | None => <[UID (qp_Pod i) := i]> m
                                     end) (queuedPodInfoMap u) l) u), false)
  | SPU s => (SPU s, if bool_decide (length l = 1) then bool_decide (is_Some (spu_Pod s)) else true)
  end.

(** A single-pod unit drops its pod whatever the UID. *)
Definition DeletePod (i : QueuedPodInfo) (u : ScheduleUnit) : ScheduleUnit :=
  match u with
  | PGU u => PGU (with_pods (delete (UID (qp_Pod i)) (queuedPodInfoMap u)) u)
  | SPU s => SPU (mkSinglePodUnit (spu_key s) None)
  end.

Definition ResetPods (u : ScheduleUnit) : ScheduleUnit :=
  match u with
  | PGU u => PGU (with_pods ∅ u)
  | SPU s => SPU (mkSinglePodUnit (spu_key s) None)
  end.

Definition GetTimeoutPeriod (u : ScheduleUnit) : option Z :=
  match u with
  | PGU u => g ← pgu_podGroup u; Some (default 300%Z (pg_ScheduleTimeoutSeconds g))
  | SPU _ => Some 0%Z
  end.

Definition GetAnnotations (u : ScheduleUnit) : gmap string string :=
  match u with
  | PGU u => match pgu_podGroup u with None => ∅ | Some g => default ∅ (pg_Annotations g) end
  | SPU s => match spu_Pod s with None => ∅ | Some i => default ∅ (Annotations (qp_Pod i)) end
  end.

(** [None] is the error. *)
Definition GetMinMember (u : ScheduleUnit) : option Z :=
  match u with
  | PGU u => pg_MinMember <$> pgu_podGroup u
  | SPU s => match spu_Pod s with None => None | Some _ => Some 1%Z end
  end.

(** ** The queue's wrapper *)

(** [QueuePriorityScore] is a [float64] that holds integers here: priorities
    are [int32] and the step that is subtracted from them is integral. *)
Record QueuedUnitInfo := mkQueuedUnitInfo {
  UnitKey : string; unit_ : ScheduleUnit; Timestamp : Z; Attempts : Z;
  InitialAttemptTimestamp : Z; QueuePriorityScore : Z
}.

Definition NewQueuedUnitInfo (unitKey : string) (u : ScheduleUnit) (now : Z) : QueuedUnitInfo :=
  mkQueuedUnitInfo unitKey u now 0 now (unit_GetPriority u).

(** Calls the method of the embedded unit, in place. *)
Definition on_unit (f : ScheduleUnit → ScheduleUnit) (q : QueuedUnitInfo) : QueuedUnitInfo :=
  mkQueuedUnitInfo (UnitKey q) (f (unit_ q)) (Timestamp q) (Attempts q)
    (InitialAttemptTimestamp q) (QueuePriorityScore q).

Definition GetPriority (q : QueuedUnitInfo) : Z := unit_GetPriority (unit_ q).

(** ** The unit sort plugins *)

Definition PriorityForDebugAnnotation : string := "godel.bytedance.com/customized-priority-for-debug".

Definition GetPriorityForDebug (annotations : gmap string string) : Z :=
  let v := default "" (annotations !! PriorityForDebugAnnotation) in
  if v ≟ "" then 0%Z else match Atoi v with None => 0%Z | Some n => n end.

Definition LESS : Z := 0.
Definition EQUAL : Z := 1.
Definition GREATER : Z := 2.

Definition ComparePriorityForDebug (a1 a2 : gmap string string) : Z :=
  let p1 := GetPriorityForDebug a1 in
  let p2 := GetPriorityForDebug a2 in
  if (p1 =? p2)%Z then EQUAL else if (p1 <? p2)%Z then LESS else GREATER.

Section sort.
Context (order : ResourceList → list (string * Quantity)).

(** [Quantity.MilliValue] and [Quantity.Value] round up. *)
Definition MilliValue (q : Quantity) : Z := ((q + 999999) / 1000000)%Z.
Definition Value (q : Quantity) : Z := ((q + 999999999) / 1000000000)%Z.

Definition cpuRequest (i : QueuedPodInfo) : Z := MilliValue (GetPodRequest order (qp_Pod i) "cpu").
Definition memRequest (i : QueuedPodInfo) : Z := Value (GetPodRequest order (qp_Pod i) "memory").

(** The comparison of two single pods by request; [None] when it does not
    decide.  A single-pod unit without its pod would panic on [GetPods()[0]];
    the queue holds none ([sched_queue_refines]). *)
Definition singlePodsLess (u1 u2 : ScheduleUnit) : option bool :=
  match u1, u2 with
  | SPU s1, SPU s2 =>
      i1 ← spu_Pod s1; i2 ← spu_Pod s2;
      if negb (cpuRequest i1 =? cpuRequest i2)%Z then Some (cpuRequest i2 <? cpuRequest i1)%Z
      else if negb (memRequest i1 =? memRequest i2)%Z then Some (memRequest i2 <? memRequest i1)%Z
      else None
  | _, _ => None
  end.

(** [DefaultUnitQueueSort.Less] *)
Definition DefaultUnitQueueSort_Less (u1 u2 : QueuedUnitInfo) : bool :=
  let compareResult := ComparePriorityForDebug (GetAnnotations (unit_ u1)) (GetAnnotations (unit_ u2)) in
  if negb (compareResult =? EQUAL)%Z then (compareResult =? GREATER)%Z
  else if negb (QueuePriorityScore u1 =? QueuePriorityScore u2)%Z
  then (QueuePriorityScore u2 <? QueuePriorityScore u1)%Z
  else match singlePodsLess (unit_ u1) (unit_ u2) with
       | Some b => b
       | None => (Timestamp u1 <? Timestamp u2)%Z
       end.

(** [metav1.Time.Before]: false when either pointer is nil. *)
Definition time_before (t1 t2 : option Z) : bool :=
  match t1, t2 with Some a, Some b => (a <? b)%Z | _, _ => false end.

(** [FCFS.Less] *)
Definition FCFS_Less (u1 u2 : QueuedUnitInfo) : bool :=
  let compareResult := ComparePriorityForDebug (GetAnnotations (unit_ u1)) (GetAnnotations (unit_ u2)) in
  if negb (compareResult =? EQUAL)%Z then (compareResult =? GREATER)%Z
  else if negb (GetPriority u1 =? GetPriority u2)%Z then (GetPriority u2 <? GetPriority u1)%Z
  else if negb (GetCreationTimestamp (unit_ u1) ≟ GetCreationTimestamp (unit_ u2))
  then time_before (GetCreationTimestamp (unit_ u1)) (GetCreationTimestamp (unit_ u2))
  else match singlePodsLess (unit_ u1) (unit_ u2) with
       | Some b => b
       | None => (Timestamp u1 <? Timestamp u2)%Z
       end.
End sort.

(** *** The order as a comparison of keys *)

(** Lexicographic order on lists of integers; lists of different lengths
    compare as if cut to the shorter one. *)
Fixpoint lex_lt (l1 l2 : list Z) : bool :=
  match l1, l2 with
  | x :: l1, y :: l2 => if (x <? y)%Z then true else if (y <? x)%Z then false else lex_lt l1 l2
  | _, _ => false
  end.

Lemma lex_lt_asym l1 l2 : lex_lt l1 l2 = true → lex_lt l2 l1 = false.
Proof.
  revert l2. induction l1 as [|x l1 IH]; intros [|y l2]; simpl; try done.
  destruct (Z.ltb_spec x y), (Z.ltb_spec y x); try done; try lia. apply IH.
Qed.

Lemma lex_lt_ntrans l1 l2 l3 :
  length l1 = length l2 → length l2 = length l3 →
  lex_lt l2 l1 = false → lex_lt l3 l2 = false → lex_lt l3 l1 = false.
Proof.
  revert l2 l3. induction l1 as [|x l1 IH]; intros [|y l2] [|z l3]; simpl; try done.
  intros [= H1] [= H2].
  destruct (Z.ltb_spec y x), (Z.ltb_spec x y), (Z.ltb_spec z y), (Z.ltb_spec y z),
    (Z.ltb_spec z x), (Z.ltb_spec x z); try done; try lia. by apply IH.
Qed.

(** A relation that is a strict weak order among the elements satisfying [P]. *)
Definition strict_weak_on {A} (P : A → Prop) (lt : A → A → bool) : Prop :=
  (∀ x y, P x → P y → lt x y = true → lt y x = false) ∧
  (∀ x y z, P x → P y → P z → lt y x = false → lt z y = false → lt z x = false).

Lemma strict_weak_on_lex {A} (P : A → Prop) (lt : A → A → bool) (k : A → list Z) n :
  (∀ x, P x → length (k x) = n) → (∀ x y, P x → P y → lt x y = lex_lt (k x) (k y)) →
  strict_weak_on P lt.
Proof.
  intros Hn Hlt. split.
  - intros x y Hx Hy. rw !Hlt //. apply lex_lt_asym.
  - intros x y z Hx Hy Hz. rw !Hlt //. apply lex_lt_ntrans; by rw !Hn.
Qed.

(** A unit as the queue holds it: it has its pod group, or its pod. *)
Definition unit_whole (u : ScheduleUnit) : Prop :=
  match u with PGU u => is_Some (pgu_podGroup u) | SPU s => is_Some (spu_Pod s) end.

Section sort_keys.
Context (order : ResourceList → list (string * Quantity)).

Definition pods_key (u : ScheduleUnit) : list Z :=
  match u with
  | PGU _ => []
  | SPU s => match spu_Pod s with
             | None => [0; 0]
             | Some i => [- cpuRequest order i; - memRequest order i]
             end
  end%Z.

Definition default_key (q : QueuedUnitInfo) : list Z :=
  ([- GetPriorityForDebug (GetAnnotations (unit_ q)); - QueuePriorityScore q]
   ++ pods_key (unit_ q) ++ [Timestamp q])%Z%list.

Definition fcfs_key (q : QueuedUnitInfo) : list Z :=
  ([- GetPriorityForDebug (GetAnnotations (unit_ q)); - GetPriority q;
    default 0 (GetCreationTimestamp (unit_ q))] ++ pods_key (unit_ q) ++ [Timestamp q])%Z%list.

Lemma lex_debug a1 a2 l1 l2 :
  lex_lt (- GetPriorityForDebug a1 :: l1)%Z (- GetPriorityForDebug a2 :: l2)%Z =
  if negb (ComparePriorityForDebug a1 a2 =? EQUAL)%Z
  then (ComparePriorityForDebug a1 a2 =? GREATER)%Z else lex_lt l1 l2.
Proof.
  unfold ComparePriorityForDebug. simpl. generalize (GetPriorityForDebug a1) (GetPriorityForDebug a2).
  intros x y. destruct (Z.eqb_spec x y), (Z.ltb_spec x y), (Z.ltb_spec (- x) (- y)),
    (Z.ltb_spec (- y) (- x)); simpl; try done; lia.
Qed.

Lemma lex_desc x y l1 l2 :
  lex_lt (- x :: l1)%Z (- y :: l2)%Z = if negb (x =? y)%Z then (y <? x)%Z else lex_lt l1 l2.
Proof.
  simpl. destruct (Z.eqb_spec x y), (Z.ltb_spec y x), (Z.ltb_spec (- x) (- y)),
    (Z.ltb_spec (- y) (- x)); simpl; try done; lia.
Qed.

Lemma lex_one x y : lex_lt [x] [y] = (x <? y)%Z.
Proof. simpl. by destruct (Z.ltb_spec x y), (Z.ltb_spec y x). Qed.

Lemma lex_pods u1 u2 t1 t2 :
  unit_whole u1 → unit_whole u2 → Type_ u1 = Type_ u2 →
  lex_lt (pods_key u1 ++ [t1])%list (pods_key u2 ++ [t2])%list =
  match singlePodsLess order u1 u2 with Some b => b | None => (t1 <? t2)%Z end.
Proof.
  destruct u1 as [u1|s1], u2 as [u2|s2]; try done; intros H1 H2 _.
  - apply lex_one.
  - destruct s1 as [k1 [i1|]], s2 as [k2 [i2|]]; try by destruct H1. 2: by destruct H2.
    unfold pods_key, singlePodsLess. cbn [spu_Pod mbind option_bind app].
    rw !lex_desc lex_one. by repeat destruct (negb _).
Qed.

Definition whole_of_type (t : ScheduleUnitType) (q : QueuedUnitInfo) : Prop :=
  Type_ (unit_ q) = t ∧ unit_whole (unit_ q).

Lemma default_less_key t q1 q2 :
  whole_of_type t q1 → whole_of_type t q2 →
  DefaultUnitQueueSort_Less order q1 q2 = lex_lt (default_key q1) (default_key q2).
Proof.
  intros [H1 W1] [H2 W2]. unfold default_key. cbn [app]. rw lex_debug lex_desc lex_pods //.
  congruence.
Qed.

Lemma creation_whole u : unit_whole u → ∃ t, GetCreationTimestamp u = Some t.
Proof. destruct u; intros [x Hx]; simpl; rw Hx /=; eauto. Qed.

Lemma fcfs_less_key t q1 q2 :
  whole_of_type t q1 → whole_of_type t q2 →
  FCFS_Less order q1 q2 = lex_lt (fcfs_key q1) (fcfs_key q2).
Proof.
  intros [H1 W1] [H2 W2]. unfold fcfs_key, FCFS_Less. cbn [app]. rw lex_debug lex_desc.
  destruct (creation_whole _ W1) as [t1 ->], (creation_whole _ W2) as [t2 ->].
  cbn [default]. rw -lex_pods //; [|congruence]. cbn [lex_lt time_before id].
  destruct (negb (ComparePriorityForDebug _ _ =? EQUAL)%Z); [done|].
  destruct (negb (GetPriority q1 =? GetPriority q2)%Z); [done|].
  destruct (Z.ltb_spec t1 t2), (Z.ltb_spec t2 t1); try lia.
  - rw bool_decide_eq_false_2; [done|]. intros [= ->]. lia.
  - rw bool_decide_eq_false_2; [done|]. intros [= ->]. lia.
  - rw bool_decide_eq_true_2; [done|]. f_equal. lia.
Qed.

Lemma key_length t q :
  whole_of_type t q →
  length (default_key q) = match t with PodGroupUnitType => 3 | SinglePodUnitType => 5 end ∧
  length (fcfs_key q) = match t with PodGroupUnitType => 4 | SinglePodUnitType => 6 end.
Proof.
  intros [<- W]. unfold default_key, fcfs_key. destruct (unit_ q) as [u|s]; [done|].
  destruct W as [i Hi]. simpl in *. by rw Hi.
Qed.
End sort_keys.

(** *** Properties of the order *)

(** Among units of one type (all pod groups, or all single pods) both unit
    sort plugins are strict weak orders, so a ready queue that holds units of
    one type pops them in sorted order. *)
Theorem unit_sort_order order t :
  strict_weak_on (whole_of_type t) (DefaultUnitQueueSort_Less order)
  ∧ strict_weak_on (whole_of_type t) (FCFS_Less order).
Proof.
  split.
  - eapply (strict_weak_on_lex _ _ (default_key order)); [|by apply default_less_key].
    intros q Hq. by apply (key_length order t q Hq).
  - eapply (strict_weak_on_lex _ _ (fcfs_key order)); [|by apply fcfs_less_key].
    intros q Hq. by apply (key_length order t q Hq).
Qed.

(** Concrete units: a single pod asking for [cpu] and a pod group, both of
    priority 100. *)
Definition test_pod (name : string) (cpu : Z) : Pod :=
  {| Name := name; Namespace := "ns"; UID := name; CreationTimestamp := 0; Annotations := Some ∅;
     OwnerReferences := []; NodeName := ""; SchedulerName := "godel-scheduler";
     PriorityClassName := ""; Priority := Some 100%Z; PreemptionPolicy := None;
     Containers := [{| c_Name := "c"; c_Requests := {["cpu" := (cpu * 1000000000)%Z]}; c_Ports := [] |}];
     InitContainers := []; Conditions := [];
     Labels := ∅; Tolerations := []; Affinity := None; Overhead := None; StartTime := None;
     DeletionTimestamp := None |}.

Definition test_single (name : string) (cpu ts : Z) : QueuedUnitInfo :=
  NewQueuedUnitInfo ("SinglePodUnit/ns/" ++ name)
    (AddPod (mkQueuedPodInfo (test_pod name cpu) ts ts "") (SPU (mkSinglePodUnit "" None))) ts.

Definition test_group (name : string) (ts : Z) : QueuedUnitInfo :=
  NewQueuedUnitInfo ("PodGroupUnit/ns/" ++ name)
    (PGU (NewPodGroupUnit ts (Some (mkPodGroup "ns" name None 0 0 "" None)) 100)) ts.

(** Across types the order is cyclic: an early small pod goes before a pod
    group that goes before a late large pod, which goes before the small pod;
    neither plugin is a strict weak order. *)
Theorem unit_sort_cycle :
  let small := test_single "small" 1 1 in
  let group := test_group "group" 2 in
  let large := test_single "large" 2 3 in
  let order := map_to_list in
  DefaultUnitQueueSort_Less order small group = true
  ∧ DefaultUnitQueueSort_Less order group large = true
  ∧ DefaultUnitQueueSort_Less order large small = true
  ∧ FCFS_Less order small group = true ∧ FCFS_Less order group large = true
  ∧ FCFS_Less order large small = true
  ∧ ¬ StrictWeak (DefaultUnitQueueSort_Less order) ∧ ¬ StrictWeak (FCFS_Less order).
Proof.
  intros small group large order.
  assert (H : DefaultUnitQueueSort_Less order small group = true
    ∧ DefaultUnitQueueSort_Less order group large = true
    ∧ DefaultUnitQueueSort_Less order large small = true
    ∧ FCFS_Less order small group = true ∧ FCFS_Less order group large = true
    ∧ FCFS_Less order large small = true)
    by (subst small group large order; split_and!; vm_compute; reflexivity).
  destruct H as (H1 & H2 & H3 & H4 & H5 & H6). clearbody small group large order.
  split_and!; [exact H1|exact H2|exact H3|exact H4|exact H5|exact H6| |].
  - intros Hsw. pose proof (sw_lt_trans _ _ _ _ H1 H2) as H. apply sw_asym in H3. congruence.
  - intros Hsw. pose proof (sw_lt_trans _ _ _ _ H4 H5) as H. apply sw_asym in H6. congruence.
Qed.
