(* ===== verification/SchedQueue.v ===== *)
(** * The scheduling queue of the scheduler

    [PriorityQueue] of pkg/scheduler/queue/priority_queue.go with its backoff
    handler (internal_backoff.go), the list of pods whose unit cannot be made
    yet (internal_waitingpods.go) and the priority score (queue_scorer.go).
    Every sub-queue is the keyed heap of pkg/util/heap.

    The abstract value of the queue is one map from unit keys to the sub-queue
    and the unit; the refinement theorem shows that the four heaps, searched one
    after the other, implement that map.  Listers, the unit status of the cache,
    the clock and the orders in which Go ranges over maps are an argument of
    each operation ([Env]).  The lock serialises the operations; the condition
    variable is a result of [Pop]; metrics are not modelled. *)
From S2P Require Import Prelude ContainerHeap KeyedHeap GoStrings PodModel Units.

Local Open Scope godel_scope.
Local Open Scope string_scope.

Inductive SchedulingStatus := UnknownStatus | PendingStatus | ScheduledStatus | TimeoutStatus.
#[export] Instance SchedulingStatus_eq_dec : EqDecision SchedulingStatus.
Proof. solve_decision. Defined.

(** What an operation reads from outside the queue.  [podOrder] and
    [unitOrder] are the orders of a [range] over a pod map and of the parallel
    [Process]. *)
Record Env := mkEnv {
  now : Z;
  pcLister : string → option Z;
  pgLister : string → string → option PodGroup;
  GetUnitSchedulingStatus : string → SchedulingStatus;
  podOrder : gmap string QueuedPodInfo → list QueuedPodInfo;
  unitOrder : list QueuedUnitInfo → list QueuedUnitInfo
}.

(** ** Backoff *)

Section backoff.
Context (initialDuration maxDuration : Z).

(** [n] iterations are left. *)
Fixpoint backoff_loop (n : nat) (duration : Z) : Z :=
  match n with
  | O => duration
  | S n => if (wrap64 (maxDuration - duration) <? duration)%Z then maxDuration
           else backoff_loop n (wrap64 (duration + duration))
  end.

Definition calculateBackoffDuration (u : QueuedUnitInfo) : Z :=
  if (Attempts u =? 0)%Z then 0%Z else backoff_loop (Z.to_nat (Attempts u - 1)) initialDuration.

Definition getBackoffTime (u : QueuedUnitInfo) : Z := (Timestamp u + calculateBackoffDuration u)%Z.

Definition isUnitBackoff (e : Env) (u : QueuedUnitInfo) : bool := (now e <? getBackoffTime u)%Z.

Definition unitsCompareBackoffCompleted (u1 u2 : QueuedUnitInfo) : bool :=
  (getBackoffTime u1 <? getBackoffTime u2)%Z.
End backoff.

(** ** Priority score *)

(** [step] is integral and positive, so the [float64] computation is exact. *)
Definition getScore (priority minPriority attempts step : Z) : Z :=
  if (attempts =? 0)%Z then priority
  else
    let gap := (priority - minPriority)%Z in
    let count := Z.max 2 (gap / step + 2) in
    (priority - Z.rem attempts count * step)%Z.

(** ** Pod infos *)

Definition newQueuedPodInfo (e : Env) (p : Pod) : QueuedPodInfo :=
  mkQueuedPodInfo p (now e) (now e) (GetPodTemplateKey p).

Definition newQueuedPodInfoForLookup (p : Pod) : QueuedPodInfo := mkQueuedPodInfo p 0 0 "".

Definition updatePodInfo (old : QueuedPodInfo) (newPod : Pod) : QueuedPodInfo :=
  mkQueuedPodInfo newPod (qp_Timestamp old) (qp_InitialAttemptTimestamp old) (qp_OwnerReferenceKey old).

(** The status of the modelled pod is its conditions; resource version and
    generation are not modelled. *)
Definition isPodUpdated (oldPod newPod : Pod) : bool :=
  negb (set_Conditions [] oldPod ≟ set_Conditions [] newPod).

Definition unitInfoKeyFunc (u : QueuedUnitInfo) : option string := Some (UnitKey u).
Definition alwaysFalse {A} (_ _ : A) : bool := false.

(** ** Pods that wait for their pod group *)

Record waitingPods := mkWaitingPods { wp_unitKey : string; wp_pods : gmap string QueuedPodInfo }.

Definition waitingPodsKeyFunc (w : waitingPods) : option string := Some (wp_unitKey w).

Definition wp_GetPods (e : Env) (w : waitingPods) : list QueuedPodInfo := podOrder e (wp_pods w).

Definition transferToPodGroupUnit (e : Env) (w : waitingPods) : option QueuedUnitInfo :=
  randomPodInfo ← head (podOrder e (wp_pods w));
  u ← CreateScheduleUnit (now e) (pcLister e) (pgLister e) randomPodInfo;
  let u := foldl (λ u i, AddPod i u) u (podOrder e (wp_pods w)) in
  Some (NewQueuedUnitInfo (GetKey u) u (now e)).

Abbreviation WaitingList := (Heap waitingPods).

Definition wl_add (w : waitingPods) (h : WaitingList) : option WaitingList :=
  r ← KeyedHeap.Add waitingPodsKeyFunc alwaysFalse w h; Some r.1.

Definition wl_DeleteByKey (k : string) (h : WaitingList) : option WaitingList :=
  r ← KeyedHeap.DeleteByKey alwaysFalse k h; Some r.1.

Definition removeExistedOrCreateWaitingPods (p : Pod) (h : WaitingList) : option (waitingPods * WaitingList) :=
  let unitKey := GetUnitIdentifier p in
  match (GetByKey unitKey h).1 with
  | Some w => h' ← wl_DeleteByKey unitKey h; Some (w, h')
  | None => Some (mkWaitingPods unitKey ∅, h)
  end.

Definition wl_Add (e : Env) (p : Pod) (h : WaitingList) : option WaitingList :=
  r ← removeExistedOrCreateWaitingPods p h;
  wl_add (mkWaitingPods (wp_unitKey r.1) (<[UID p := newQueuedPodInfo e p]> (wp_pods r.1))) r.2.

Definition wl_Update (e : Env) (oldPod newPod : Pod) (h : WaitingList) : option WaitingList :=
  r ← removeExistedOrCreateWaitingPods newPod h;
  let m := wp_pods r.1 in
  let m := match m !! UID oldPod with
           | Some old => <[UID newPod := updatePodInfo old newPod]> (delete (UID (qp_Pod old)) m)
           | None => <[UID newPod := newQueuedPodInfo e newPod]> m
           end in
  wl_add (mkWaitingPods (wp_unitKey r.1) m) r.2.

Definition wl_Delete (p : Pod) (h : WaitingList) : option WaitingList :=
  r ← removeExistedOrCreateWaitingPods p h;
  let m := delete (UID p) (wp_pods r.1) in
  if (0 <? size m)%nat then wl_add (mkWaitingPods (wp_unitKey r.1) m) r.2 else Some r.2.

(** ** The queue *)

(** Which sub-queue: Go compares the interface values. *)
Inductive SubQueue := waitingQ | readyQ | backoffQ | unschedulableQ.
#[export] Instance SubQueue_eq_dec : EqDecision SubQueue.
Proof. solve_decision. Defined.

Abbreviation UnitHeap := (Heap QueuedUnitInfo).

Record PriorityQueue := mkPriorityQueue {
  latestOperationTimestamp : Z; closed : bool;
  waitingPodsList : WaitingList;
  q_waiting : UnitHeap; q_ready : UnitHeap; q_backoff : UnitHeap; q_unschedulable : UnitHeap;
  schedulingCycle : Z; moveRequestCycle : Z;
  priorityHeap : UnitHeap
}.

Definition sub (q : SubQueue) (p : PriorityQueue) : UnitHeap :=
  match q with
  | waitingQ => q_waiting p | readyQ => q_ready p
  | backoffQ => q_backoff p | unschedulableQ => q_unschedulable p
  end.

Definition set_sub (q : SubQueue) (h : UnitHeap) (p : PriorityQueue) : PriorityQueue :=
  mkPriorityQueue (latestOperationTimestamp p) (closed p) (waitingPodsList p)
    (if decide (q = waitingQ) then h else q_waiting p)
    (if decide (q = readyQ) then h else q_ready p)
    (if decide (q = backoffQ) then h else q_backoff p)
    (if decide (q = unschedulableQ) then h else q_unschedulable p)
    (schedulingCycle p) (moveRequestCycle p) (priorityHeap p).

Definition set_waitingPodsList (h : WaitingList) (p : PriorityQueue) : PriorityQueue :=
  mkPriorityQueue (latestOperationTimestamp p) (closed p) h (q_waiting p) (q_ready p) (q_backoff p)
    (q_unschedulable p) (schedulingCycle p) (moveRequestCycle p) (priorityHeap p).

Definition set_priorityHeap (h : UnitHeap) (p : PriorityQueue) : PriorityQueue :=
  mkPriorityQueue (latestOperationTimestamp p) (closed p) (waitingPodsList p) (q_waiting p) (q_ready p)
    (q_backoff p) (q_unschedulable p) (schedulingCycle p) (moveRequestCycle p) h.

Definition touch (e : Env) (p : PriorityQueue) : PriorityQueue :=
  mkPriorityQueue (now e) (closed p) (waitingPodsList p) (q_waiting p) (q_ready p) (q_backoff p)
    (q_unschedulable p) (schedulingCycle p) (moveRequestCycle p) (priorityHeap p).

Definition set_cycles (c m : Z) (p : PriorityQueue) : PriorityQueue :=
  mkPriorityQueue (latestOperationTimestamp p) (closed p) (waitingPodsList p) (q_waiting p) (q_ready p)
    (q_backoff p) (q_unschedulable p) c m (priorityHeap p).

Definition priorityLess (u1 u2 : QueuedUnitInfo) : bool := (GetPriority u1 <? GetPriority u2)%Z.

Definition newHeap {A} : Heap A := NewWithRecorder (Some []).

Definition NewPriorityQueue (e : Env) : PriorityQueue :=
  mkPriorityQueue (now e) false newHeap newHeap newHeap newHeap newHeap 0 (-1) New.

Section queue.
(** The sort plugin, the backoff durations, the feature gate
    DynamicSchedulingPriority and [attemptImpactFactorOnPriority]. *)
Context (lessFn : QueuedUnitInfo → QueuedUnitInfo → bool) (initialDuration maxDuration : Z)
  (dynamicPriority : bool) (step : Z).

Definition comp (q : SubQueue) : QueuedUnitInfo → QueuedUnitInfo → bool :=
  match q with
  | readyQ => lessFn
  | backoffQ => unitsCompareBackoffCompleted initialDuration maxDuration
  | waitingQ | unschedulableQ => alwaysFalse
  end.

(** The key functions never fail, so the errors of the heap are nil or
    "object not found"; the callers only log them. *)
Definition sub_Add (q : SubQueue) (u : QueuedUnitInfo) (p : PriorityQueue) : option PriorityQueue :=
  r ← KeyedHeap.Add unitInfoKeyFunc (comp q) u (sub q p); Some (set_sub q r.1 p).

Definition sub_DeleteByKey (q : SubQueue) (k : string) (p : PriorityQueue) : option PriorityQueue :=
  r ← KeyedHeap.DeleteByKey (comp q) k (sub q p); Some (set_sub q r.1 p).

Definition sub_Delete (q : SubQueue) (u : QueuedUnitInfo) (p : PriorityQueue) : option PriorityQueue :=
  r ← KeyedHeap.Delete unitInfoKeyFunc (comp q) u (sub q p); Some (set_sub q r.1 p).

Definition ph_Add (u : QueuedUnitInfo) (p : PriorityQueue) : option PriorityQueue :=
  r ← KeyedHeap.Add unitInfoKeyFunc priorityLess u (priorityHeap p); Some (set_priorityHeap r.1 p).

Definition ph_Delete (u : QueuedUnitInfo) (p : PriorityQueue) : option PriorityQueue :=
  r ← KeyedHeap.Delete unitInfoKeyFunc priorityLess u (priorityHeap p); Some (set_priorityHeap r.1 p).

(** The search of [findAndRemoveUnitFromQueue] through the sub-queues [qs]. *)
Fixpoint find_and_remove (qs : list SubQueue) (k : string) (p : PriorityQueue)
    : option (PriorityQueue * option (SubQueue * QueuedUnitInfo)) :=
  match qs with
  | [] => Some (p, None)
  | q :: qs =>
      match (GetByKey k (sub q p)).1 with
      | Some u => p' ← sub_DeleteByKey q k p; Some (p', Some (q, u))
      | None => find_and_remove qs k p
      end
  end.

Definition findAndRemoveUnitFromQueue (k : string) (p : PriorityQueue)
    : option (PriorityQueue * option (SubQueue * QueuedUnitInfo)) :=
  find_and_remove [waitingQ; readyQ; backoffQ; unschedulableQ] k p.

Definition readyToBeScheduled (e : Env) (u : QueuedUnitInfo) : bool :=
  ReadyToBePopulated (unit_ u) || (GetUnitSchedulingStatus e (UnitKey u) ≟ ScheduledStatus).

Definition schedulingStatusTimeout (e : Env) (u : QueuedUnitInfo) : bool :=
  if Type_ (unit_ u) ≟ SinglePodUnitType then false
  else GetUnitSchedulingStatus e (UnitKey u) ≟ TimeoutStatus.

(** The inner [None] is the error. *)
Definition createUnitInfo (e : Env) (pod : Pod) (p : PriorityQueue)
    : option (PriorityQueue * option QueuedUnitInfo) :=
  let pInfo := newQueuedPodInfo e pod in
  let unitKey := GetUnitIdentifier pod in
  match CreateScheduleUnit (now e) (pcLister e) (pgLister e) pInfo with
  | None => Some (p, None)
  | Some su =>
      let su := AddPod pInfo su in
      match (GetByKey unitKey (waitingPodsList p)).1 with
      | None => Some (p, Some (NewQueuedUnitInfo unitKey su (now e)))
      | Some w =>
          let '(su, err) := AddPods (wp_GetPods e w) su in
          if err : bool then Some (p, None)
          else
            h ← wl_DeleteByKey unitKey (waitingPodsList p);
            Some (set_waitingPodsList h p, Some (NewQueuedUnitInfo unitKey su (now e)))
      end
  end.

(** The results: the sub-queue the unit was taken from, the unit; the inner
    [None] is an error. *)
Definition addPodToUnitInfo (e : Env) (pod : Pod) (p : PriorityQueue)
    : option (PriorityQueue * option (option SubQueue * QueuedUnitInfo)) :=
  r ← findAndRemoveUnitFromQueue (GetUnitIdentifier pod) p;
  match r.2 : option (SubQueue * QueuedUnitInfo) with
  | Some (q, u) => Some (r.1, Some (Some q, on_unit (AddPod (newQueuedPodInfo e pod)) u))
  | None => c ← createUnitInfo e pod r.1; Some (c.1, option_map (λ u, (None, u)) c.2)
  end.

Definition updateInUnit (e : Env) (oldPod newPod : Pod) (su : ScheduleUnit) : ScheduleUnit :=
  match GetPod (newQueuedPodInfoForLookup oldPod) su with
  | Some old => AddPod (updatePodInfo old newPod) (DeletePod old su)
  | None => AddPod (newQueuedPodInfo e newPod) su
  end.

Definition updatePodInUnitInfo (e : Env) (oldPod newPod : Pod) (p : PriorityQueue)
    : option (PriorityQueue * option (option SubQueue * QueuedUnitInfo)) :=
  r ← findAndRemoveUnitFromQueue (GetUnitIdentifier newPod) p;
  match r.2 : option (SubQueue * QueuedUnitInfo) with
  | Some (q, u) => Some (r.1, Some (Some q, on_unit (updateInUnit e oldPod newPod) u))
  | None => c ← createUnitInfo e newPod r.1; Some (c.1, option_map (λ u, (None, u)) c.2)
  end.

Definition deletePodFromUnitInfo (pod : Pod) (p : PriorityQueue)
    : option (PriorityQueue * option (SubQueue * QueuedUnitInfo)) :=
  r ← findAndRemoveUnitFromQueue (GetUnitIdentifier pod) p;
  Some (r.1, option_map (λ qu, (qu.1, on_unit (DeletePod (newQueuedPodInfoForLookup pod)) qu.2)) r.2).

Definition readyOrWaiting (e : Env) (u : QueuedUnitInfo) : SubQueue :=
  if readyToBeScheduled e u then readyQ else waitingQ.

Definition Add (e : Env) (pod : Pod) (p : PriorityQueue) : option PriorityQueue :=
  r ← addPodToUnitInfo e pod (touch e p);
  match r.2 with
  | None => h ← wl_Add e pod (waitingPodsList r.1); Some (set_waitingPodsList h r.1)
  | Some (queue, u) =>
      let queue := if queue ≟ Some backoffQ then backoffQ else readyOrWaiting e u in
      p' ← ph_Add u r.1; sub_Add queue u p'
  end.

Definition setTimestamp (ts : Z) (u : QueuedUnitInfo) : QueuedUnitInfo :=
  mkQueuedUnitInfo (UnitKey u) (unit_ u) ts (Attempts u) (InitialAttemptTimestamp u) (QueuePriorityScore u).

Definition AddUnschedulableIfNotPresent (e : Env) (u : QueuedUnitInfo) (unitSchedulingCycle : Z)
    (p : PriorityQueue) : option PriorityQueue :=
  let p := touch e p in
  if bool_decide (NumPods (unit_ u) = 0) then Some p
  else
    r ← findAndRemoveUnitFromQueue (UnitKey u) p;
    let u := match r.2 with
             | Some (_, v) => on_unit (λ su, (AddPodsIfNotPresent (GetPods (podOrder e) (unit_ v)) su).1) u
             | None => u
             end in
    let u := setTimestamp (now e) u in
    let queue := if (unitSchedulingCycle <=? moveRequestCycle r.1)%Z && negb (schedulingStatusTimeout e u)
                 then backoffQ else unschedulableQ in
    p' ← ph_Add u r.1; sub_Add queue u p'.

Definition Update (e : Env) (oldPod newPod : Pod) (p : PriorityQueue) : option PriorityQueue :=
  r ← updatePodInUnitInfo e oldPod newPod (touch e p);
  match r.2 with
  | None => h ← wl_Update e oldPod newPod (waitingPodsList r.1); Some (set_waitingPodsList h r.1)
  | Some (Some queue, u) =>
      let queue := if (queue ≟ unschedulableQ) && isPodUpdated oldPod newPod
                   then (if isUnitBackoff initialDuration maxDuration e u then backoffQ
                         else readyOrWaiting e u)
                   else queue in
      p' ← sub_Add queue u r.1; ph_Add u p'
  | Some (None, u) => p' ← sub_Add (readyOrWaiting e u) u r.1; ph_Add u p'
  end.

Definition Delete (e : Env) (pod : Pod) (p : PriorityQueue) : option PriorityQueue :=
  r ← deletePodFromUnitInfo pod (touch e p);
  h ← wl_Delete pod (waitingPodsList r.1);
  let p := set_waitingPodsList h r.1 in
  match r.2 with
  | None => Some p
  | Some (queue, u) =>
      if bool_decide (NumPods (unit_ u) = 0) then ph_Delete u p
      else if negb (queue ≟ waitingQ) && negb (readyToBeScheduled e u) then sub_Add waitingQ u p
      else sub_Add queue u p
  end.

(** ** Flushing *)

(** The loop of [flushBackoffQCompleted]; each round takes one unit out of the
    backoff queue. *)
Fixpoint flush_backoff_loop (fuel : nat) (e : Env) (p : PriorityQueue) : option PriorityQueue :=
  rawUnit ← KeyedHeap.Peek (q_backoff p);
  match rawUnit with
  | None => Some p
  | Some u =>
      if isUnitBackoff initialDuration maxDuration e u then Some p
      else
        match fuel with
        | O => None
        | S fuel =>
            r ← KeyedHeap.Pop (comp backoffQ) (q_backoff p);
            match r.2 with
            | inr _ => Some (set_sub backoffQ r.1 p)
            | inl _ => p' ← sub_Add readyQ u (set_sub backoffQ r.1 p); flush_backoff_loop fuel e p'
            end
        end
  end.

Definition flushBackoffQCompleted (e : Env) (p : PriorityQueue) : option PriorityQueue :=
  flush_backoff_loop (KeyedHeap.Len (q_backoff p)) e p.

(** The units of a sub-queue that satisfy [f], in the order in which the
    parallel [Process] happens to append them. *)
Definition collect (e : Env) (f : QueuedUnitInfo → bool) (q : SubQueue) (p : PriorityQueue)
    : option (list QueuedUnitInfo) :=
  cs ← KeyedHeap.Process_calls (sub q p);
  Some (unitOrder e (filter (λ u, f u = true) cs.*2)).

Definition flush_waiting_step (po : option PriorityQueue) (u : QueuedUnitInfo) : option PriorityQueue :=
  p ← po; p1 ← sub_Delete waitingQ u p; sub_Add readyQ u p1.

Definition flushScheduledUnitsInWaitingQ (e : Env) (p : PriorityQueue) : option PriorityQueue :=
  unitsToMove ← collect e (readyToBeScheduled e) waitingQ p;
  foldl flush_waiting_step (Some p) unitsToMove.

Definition move_step (e : Env) (po : option PriorityQueue) (u : QueuedUnitInfo) : option PriorityQueue :=
  p ← po;
  p1 ← sub_Add (if isUnitBackoff initialDuration maxDuration e u then backoffQ else readyQ) u p;
  sub_Delete unschedulableQ u p1.

Definition moveUnitsToReadyOrBackoffQueue (e : Env) (l : list QueuedUnitInfo) (p : PriorityQueue)
    : option PriorityQueue :=
  p' ← foldl (move_step e) (Some p) l;
  Some (set_cycles (schedulingCycle p') (schedulingCycle p') p').

(** 60 seconds, in nanoseconds. *)
Definition unschedulableQTimeInterval : Z := 60000000000.

Definition flushUnschedulableQLeftover (e : Env) (p : PriorityQueue) : option PriorityQueue :=
  unitsToMove ← collect e (λ u, (unschedulableQTimeInterval <? now e - Timestamp u)%Z
                               && negb (schedulingStatusTimeout e u)) unschedulableQ p;
  moveUnitsToReadyOrBackoffQueue e unitsToMove p.

Definition MoveAllToActiveOrBackoffQueue (e : Env) (p : PriorityQueue) : option PriorityQueue :=
  units ← collect e (λ u, negb (schedulingStatusTimeout e u)) unschedulableQ p;
  moveUnitsToReadyOrBackoffQueue e units p.

(** [matches pod up]: some affinity term of the unschedulable pod [up] matches
    the assigned pod (label selectors of the Kubernetes library). *)
Definition getUnschedulablePodsWithMatchingAffinityTerm (e : Env) (matches : Pod → Pod → bool)
    (pod : Pod) (p : PriorityQueue) : option (list QueuedUnitInfo) :=
  collect e (λ u, existsb (λ i, matches pod (qp_Pod i)) (GetPods (podOrder e) (unit_ u))
                  && negb (schedulingStatusTimeout e u)) unschedulableQ p.

Definition AssignedPodAdded (e : Env) (matches : Pod → Pod → bool) (pod : Pod) (p : PriorityQueue)
    : option PriorityQueue :=
  units ← getUnschedulablePodsWithMatchingAffinityTerm e matches pod p;
  moveUnitsToReadyOrBackoffQueue e units p.

Definition AssignedPodUpdated := AssignedPodAdded.

(** [flushWaitingPodsList]: the units that can be made now, then their moves. *)
Definition flush_pods_step (e : Env) (po : option PriorityQueue) (u : QueuedUnitInfo) : option PriorityQueue :=
  p ← po;
  h ← wl_DeleteByKey (UnitKey u) (waitingPodsList p);
  sub_Add (readyOrWaiting e u) u (set_waitingPodsList h p).

Definition flushWaitingPodsList (e : Env) (p : PriorityQueue) : option PriorityQueue :=
  cs ← KeyedHeap.Process_calls (waitingPodsList p);
  foldl (flush_pods_step e) (Some p) (unitOrder e (omap (transferToPodGroupUnit e) cs.*2)).

Definition ActivePodGroupUnit (e : Env) (unitKey : string) (p : PriorityQueue) : option PriorityQueue :=
  match (GetByKey unitKey (waitingPodsList p)).1 with
  | None => Some p
  | Some w =>
      match transferToPodGroupUnit e w with
      | None => Some p
      | Some u =>
          p' ← sub_Add (readyOrWaiting e u) u p;
          h ← wl_DeleteByKey unitKey (waitingPodsList p');
          Some (set_waitingPodsList h p')
      end
  end.

(** ** Taking units out *)

Definition getMinPriorityInQueueIfExists (p : PriorityQueue) : option (option Z) :=
  r ← KeyedHeap.Peek (priorityHeap p); Some (option_map GetPriority r).

Definition setQueuedPriorityScore (u : QueuedUnitInfo) (p : PriorityQueue) : option QueuedUnitInfo :=
  let priority := GetPriority u in
  score ← (if dynamicPriority then
             m ← getMinPriorityInQueueIfExists p;
             Some (getScore priority (default priority m) (Attempts u) step)
           else Some priority);
  Some (mkQueuedUnitInfo (UnitKey u) (unit_ u) (Timestamp u) (Attempts u)
          (InitialAttemptTimestamp u) score).

(** [PopWait]: the caller waits on the condition variable. *)
Inductive PopResult := Popped (u : QueuedUnitInfo) | QueueClosed | PopWait | PopError.

Definition bumpAttempts (u : QueuedUnitInfo) : QueuedUnitInfo :=
  mkQueuedUnitInfo (UnitKey u) (unit_ u) (Timestamp u) (Attempts u + 1)
    (InitialAttemptTimestamp u) (QueuePriorityScore u).

Definition Pop (p : PriorityQueue) : option (PriorityQueue * PopResult) :=
  if bool_decide (KeyedHeap.Len (q_ready p) = 0) then
    Some (p, if closed p then QueueClosed else PopWait)
  else
    r ← KeyedHeap.Pop (comp readyQ) (q_ready p);
    match r.2 with
    | inr _ => Some (set_sub readyQ r.1 p, PopError)
    | inl u =>
        let p := set_sub readyQ r.1 p in
        u ← setQueuedPriorityScore (bumpAttempts u) p;
        let p := set_cycles (schedulingCycle p + 1) (moveRequestCycle p) p in
        p' ← ph_Delete u p;
        Some (p', Popped u)
    end.

Definition Peek (p : PriorityQueue) : option (option QueuedUnitInfo) :=
  if bool_decide (KeyedHeap.Len (q_ready p) = 0) then Some None else KeyedHeap.Peek (q_ready p).

Definition Close (p : PriorityQueue) : PriorityQueue :=
  mkPriorityQueue (latestOperationTimestamp p) true (waitingPodsList p) (q_waiting p) (q_ready p)
    (q_backoff p) (q_unschedulable p) (schedulingCycle p) (moveRequestCycle p) (priorityHeap p).

Definition NumUnschedulableUnits (p : PriorityQueue) : nat := KeyedHeap.Len (q_unschedulable p).
Definition SchedulingCycle (p : PriorityQueue) : Z := schedulingCycle p.

(** 30 days, in nanoseconds. *)
Definition RecycleExpiration : Z := 2592000000000000.

Definition CanBeRecycle (e : Env) (p : PriorityQueue) : bool :=
  if negb (latestOperationTimestamp p + RecycleExpiration <? now e)%Z then false
  else bool_decide (KeyedHeap.Len (waitingPodsList p) = 0)
    && forallb (λ q, bool_decide (KeyedHeap.Len (sub q p) = 0)) [waitingQ; readyQ; backoffQ; unschedulableQ].

Definition PendingPods (e : Env) (p : PriorityQueue) : list Pod :=
  ((w ← KeyedHeap.List (waitingPodsList p); qp_Pod <$> wp_GetPods e w) ++
  (q ← [waitingQ; readyQ; backoffQ; unschedulableQ];
   u ← KeyedHeap.List (sub q p); qp_Pod <$> GetPods (podOrder e) (unit_ u)))%list.
End queue.

(** ** The abstract queue

    One map from unit keys to the sub-queue that holds the unit. *)
Record AbsQueue := mkAbs {
  a_units : gmap string (SubQueue * QueuedUnitInfo);
  a_waiting : gmap string waitingPods;
  a_prio : gmap string QueuedUnitInfo;
  a_cycle : Z; a_move : Z; a_closed : bool; a_time : Z
}.

Definition tag (q : SubQueue) (p : PriorityQueue) : gmap string (SubQueue * QueuedUnitInfo) :=
  pair q <$> contents (sub q p).

Definition abs (p : PriorityQueue) : AbsQueue :=
  mkAbs (tag waitingQ p ∪ tag readyQ p ∪ tag backoffQ p ∪ tag unschedulableQ p)
    (contents (waitingPodsList p)) (contents (priorityHeap p))
    (schedulingCycle p) (moveRequestCycle p) (closed p) (latestOperationTimestamp p).

Definition a_set_units m (a : AbsQueue) :=
  mkAbs m (a_waiting a) (a_prio a) (a_cycle a) (a_move a) (a_closed a) (a_time a).
Definition a_set_waiting w (a : AbsQueue) :=
  mkAbs (a_units a) w (a_prio a) (a_cycle a) (a_move a) (a_closed a) (a_time a).
Definition a_set_prio m (a : AbsQueue) :=
  mkAbs (a_units a) (a_waiting a) m (a_cycle a) (a_move a) (a_closed a) (a_time a).
Definition a_set_cycles c m (a : AbsQueue) :=
  mkAbs (a_units a) (a_waiting a) (a_prio a) c m (a_closed a) (a_time a).
Definition a_touch t (a : AbsQueue) :=
  mkAbs (a_units a) (a_waiting a) (a_prio a) (a_cycle a) (a_move a) (a_closed a) t.

(** Puts a unit into a sub-queue and into the priority heap. *)
Definition a_put (q : SubQueue) (u : QueuedUnitInfo) (a : AbsQueue) : AbsQueue :=
  mkAbs (<[UnitKey u := (q, u)]> (a_units a)) (a_waiting a) (<[UnitKey u := u]> (a_prio a))
    (a_cycle a) (a_move a) (a_closed a) (a_time a).

(** The waiting pods of a unit key. *)
Definition pods_at (w : gmap string waitingPods) (k : string) : gmap string QueuedPodInfo :=
  default ∅ (wp_pods <$> w !! k).

(** Writes the waiting pods of a unit key; no entry for an empty set. *)
Definition set_pods_at (k : string) (m : gmap string QueuedPodInfo) (w : gmap string waitingPods)
    : gmap string waitingPods :=
  if decide (m = ∅) then delete k w else <[k := mkWaitingPods k m]> w.

Section abstract_queue.
Context (initialDuration maxDuration : Z).

(** The unit made from a pod and the pods that waited for it. *)
Definition a_create (e : Env) (pod : Pod) (a : AbsQueue) : option QueuedUnitInfo :=
  let k := GetUnitIdentifier pod in
  su ← CreateScheduleUnit (now e) (pcLister e) (pgLister e) (newQueuedPodInfo e pod);
  Some (NewQueuedUnitInfo k
          (AddPods (podOrder e (pods_at (a_waiting a) k)) (AddPod (newQueuedPodInfo e pod) su)).1 (now e)).

Definition a_wait_pod (e : Env) (pod : Pod) (a : AbsQueue) : AbsQueue :=
  let k := GetUnitIdentifier pod in
  a_set_waiting (set_pods_at k (<[UID pod := newQueuedPodInfo e pod]> (pods_at (a_waiting a) k))
                   (a_waiting a)) a.

Definition a_Add (e : Env) (pod : Pod) (a : AbsQueue) : AbsQueue :=
  let a := a_touch (now e) a in
  let k := GetUnitIdentifier pod in
  match a_units a !! k with
  | Some (q, u) =>
      let u := on_unit (AddPod (newQueuedPodInfo e pod)) u in
      a_put (if decide (q = backoffQ) then backoffQ else readyOrWaiting e u) u a
  | None =>
      match a_create e pod a with
      | Some u => a_put (readyOrWaiting e u) u (a_set_waiting (delete k (a_waiting a)) a)
      | None => a_wait_pod e pod a
      end
  end.

Definition a_AddUnschedulable (e : Env) (u : QueuedUnitInfo) (cycle : Z) (a : AbsQueue) : AbsQueue :=
  let a := a_touch (now e) a in
  if decide (NumPods (unit_ u) = 0) then a
  else
    let u := match a_units a !! UnitKey u with
             | Some (_, v) => on_unit (λ su, (AddPodsIfNotPresent (GetPods (podOrder e) (unit_ v)) su).1) u
             | None => u
             end in
    let u := setTimestamp (now e) u in
    a_put (if (cycle <=? a_move a)%Z && negb (schedulingStatusTimeout e u)
           then backoffQ else unschedulableQ) u a.

Definition a_update_waiting (e : Env) (oldPod newPod : Pod) (a : AbsQueue) : AbsQueue :=
  let k := GetUnitIdentifier newPod in
  let m := pods_at (a_waiting a) k in
  a_set_waiting (set_pods_at k
    (match m !! UID oldPod with
     | Some old => <[UID newPod := updatePodInfo old newPod]> (delete (UID (qp_Pod old)) m)
     | None => <[UID newPod := newQueuedPodInfo e newPod]> m
     end) (a_waiting a)) a.

Definition a_Update (e : Env) (oldPod newPod : Pod) (a : AbsQueue) : AbsQueue :=
  let a := a_touch (now e) a in
  let k := GetUnitIdentifier newPod in
  match a_units a !! k with
  | Some (q, u) =>
      let u := on_unit (updateInUnit e oldPod newPod) u in
      a_put (if (q ≟ unschedulableQ) && isPodUpdated oldPod newPod
             then (if isUnitBackoff initialDuration maxDuration e u then backoffQ else readyOrWaiting e u)
             else q) u a
  | None =>
      match a_create e newPod a with
      | Some u => a_put (readyOrWaiting e u) u (a_set_waiting (delete k (a_waiting a)) a)
      | None => a_update_waiting e oldPod newPod a
      end
  end.

Definition a_Delete (e : Env) (pod : Pod) (a : AbsQueue) : AbsQueue :=
  let k := GetUnitIdentifier pod in
  let a := a_set_waiting (set_pods_at k (delete (UID pod) (pods_at (a_waiting a) k)) (a_waiting a))
             (a_touch (now e) a) in
  match a_units a !! k with
  | None => a
  | Some (q, u) =>
      let u := on_unit (DeletePod (newQueuedPodInfoForLookup pod)) u in
      if decide (NumPods (unit_ u) = 0)
      then a_set_prio (delete k (a_prio a)) (a_set_units (delete k (a_units a)) a)
      else a_set_units (<[k := (if negb (q ≟ waitingQ) && negb (readyToBeScheduled e u)
                                then waitingQ else q, u)]> (a_units a)) a
  end.

(** Moves the units of a sub-queue that satisfy [f] to the sub-queue [dst]. *)
Definition a_move_units (q : SubQueue) (f : QueuedUnitInfo → bool) (dst : QueuedUnitInfo → SubQueue)
    (a : AbsQueue) : AbsQueue :=
  a_set_units ((λ qu, if (qu.1 ≟ q) && f qu.2 then (dst qu.2, qu.2) else qu) <$> a_units a) a.

Definition readyOrBackoff (e : Env) (u : QueuedUnitInfo) : SubQueue :=
  if isUnitBackoff initialDuration maxDuration e u then backoffQ else readyQ.

(** Moves units out of the unschedulable queue and records the move. *)
Definition a_move_request (e : Env) (f : QueuedUnitInfo → bool) (a : AbsQueue) : AbsQueue :=
  a_set_cycles (a_cycle a) (a_cycle a) (a_move_units unschedulableQ f (readyOrBackoff e) a).

(** The units that can be made of waiting pods leave the waiting list. *)
Definition a_activate (e : Env) (k : string) (a : AbsQueue) : AbsQueue :=
  match a_waiting a !! k ≫= transferToPodGroupUnit e with
  | None => a
  | Some u => a_set_waiting (delete k (a_waiting a))
                (a_set_units (<[k := (readyOrWaiting e u, u)]> (a_units a)) a)
  end.
End abstract_queue.

Definition a_flush_pods (e : Env) (a : AbsQueue) : AbsQueue :=
  let made := omap (transferToPodGroupUnit e) (a_waiting a) in
  a_set_waiting (filter (λ kv, transferToPodGroupUnit e kv.2 = None) (a_waiting a))
    (a_set_units (((λ u, (readyOrWaiting e u, u)) <$> made) ∪ a_units a) a).

