(* ===== verification/SchedQueueRefine.v ===== *)
(** * The scheduling queue: invariant and refinement

    The four heaps of the scheduling queue, searched one after the other,
    implement one map from unit keys to located units: each operation returns
    without a panic, keeps the invariant and acts on the abstract queue of
    SchedQueue.v as its counterpart there. *)
From S2P Require Import Prelude ContainerHeap KeyedHeap GoStrings PodModel Units SchedQueue.

Local Open Scope godel_scope.
Local Open Scope string_scope.

(** ** The concrete queue against the abstract one *)

#[export] Instance backoff_strict_weak initial max_ :
  StrictWeak (unitsCompareBackoffCompleted initial max_).
Proof. apply (strict_weak_key (getBackoffTime initial max_) Z.ltb _). Qed.

#[export] Instance priorityLess_strict_weak : StrictWeak priorityLess.
Proof. apply (strict_weak_key GetPriority Z.ltb _). Qed.

Lemma heap_inv_key {O} (keyFunc : O → option string) lessFunc (h : Heap O) k o :
  heap_inv keyFunc lessFunc h → contents h !! k = Some o → keyFunc o = Some k.
Proof.
  intros (l & Hl) Hk. rw (rep_contents _ _ _ _ Hl) in Hk. apply elem_of_list_to_map_2 in Hk.
  destruct Hl as (_ & _ & Hf & _). rw Forall_forall in Hf. apply (Hf _ Hk).
Qed.

Lemma GetByKey_contents {O} (h : Heap O) k : (GetByKey k h).1 = contents h !! k.
Proof. unfold GetByKey. rw contents_lookup. by destruct (items (hdata h) !! k). Qed.

(** What is assumed of the environment: [range] and [Process] visit every
    element once, and a pod group is found under its own name. *)
Record env_ok (e : Env) : Prop := {
  env_pods : ∀ m, podOrder e m ≡ₚ (map_to_list m).*2;
  env_units : ∀ l, unitOrder e l ≡ₚ l;
  env_groups : ∀ ns n g, pgLister e ns n = Some g → pg_Namespace g = ns ∧ pg_Name g = n
}.

(** Pods wait under the key of their pod group, by UID. *)
Definition wait_ok (k : string) (w : waitingPods) : Prop :=
  wp_unitKey w = k ∧ wp_pods w ≠ ∅ ∧
  ∀ uid i, wp_pods w !! uid = Some i →
    UID (qp_Pod i) = uid ∧ GetUnitIdentifier (qp_Pod i) = k ∧ GetPodGroupName (qp_Pod i) ≠ "".

(** A unit of the queue has a pod, and a pod group keeps its pods by UID. *)
Definition unit_keyed (su : ScheduleUnit) : Prop :=
  match su with
  | PGU u => ∀ uid i, queuedPodInfoMap u !! uid = Some i → UID (qp_Pod i) = uid
  | SPU _ => True
  end.

Definition unit_ok (su : ScheduleUnit) : Prop := (0 < NumPods su)%nat ∧ unit_keyed su.

(** The invariant: a unit is stored under its own key and is well formed; the
    priority heap only knows units that are in the queue, with their priority. *)
Record a_ok (a : AbsQueue) : Prop := {
  ok_units : ∀ k q u, a_units a !! k = Some (q, u) → UnitKey u = k ∧ unit_ok (unit_ u);
  ok_waiting : ∀ k w, a_waiting a !! k = Some w → wait_ok k w;
  ok_prio_units : ∀ k v, a_prio a !! k = Some v →
    ∃ q u, a_units a !! k = Some (q, u) ∧ GetPriority v = GetPriority u
}.

Lemma group_single_key p1 p2 :
  GetPodGroupName p1 ≠ "" → GetPodGroupName p2 = "" → GetUnitIdentifier p1 ≠ GetUnitIdentifier p2.
Proof.
  intros H1 H2. unfold GetUnitIdentifier. rw H2. rw bool_decide_eq_false_2 //. 
Qed.

Lemma create_error_group e p :
  CreateScheduleUnit (now e) (pcLister e) (pgLister e) (newQueuedPodInfo e p) = None →
  GetPodGroupName p ≠ "".
Proof.
  unfold CreateScheduleUnit. simpl. intros H E. by rw E in H.
Qed.

Lemma create_single e p su :
  CreateScheduleUnit (now e) (pcLister e) (pgLister e) (newQueuedPodInfo e p) = Some su →
  (GetPodGroupName p = "" ∧ su = SPU (mkSinglePodUnit "" None)) ∨
  (GetPodGroupName p ≠ "" ∧ ∃ g pr, pgLister e (Namespace p) (GetPodGroupName p) = Some g ∧
     su = PGU (NewPodGroupUnit (now e) (Some g) pr)).
Proof.
  unfold CreateScheduleUnit. simpl. destruct (decide (GetPodGroupName p = "")) as [E|E].
  - rw E /=. intros [= <-]. by left.
  - rw bool_decide_eq_false_2 //=. intros H. right. split; [done|].
    destruct (pgLister e (Namespace p) (GetPodGroupName p)) as [g|]; [|done]. simpl in H.
    apply bind_Some in H as (pr & _ & [= <-]). eauto.
Qed.

(** The least priority of a set of units, if there is one. *)
Definition min_priority (m : gmap string QueuedUnitInfo) (o : option Z) : Prop :=
  match o with
  | None => m = ∅
  | Some z => (∃ k v, m !! k = Some v ∧ GetPriority v = z) ∧
              ∀ k v, m !! k = Some v → (z ≤ GetPriority v)%Z
  end.

(** What [Pop] may do: take a unit of the ready queue (a first one, when the
    sort plugin is a strict weak order), count the attempt and set the score. *)
Definition a_Pop (lessFn : QueuedUnitInfo → QueuedUnitInfo → bool) (dynamicPriority : bool) (step : Z)
    (a : AbsQueue) (out : PopResult) (a' : AbsQueue) : Prop :=
  match out with
  | Popped u' => ∃ u mp,
      a_units a !! UnitKey u = Some (readyQ, u) ∧
      (StrictWeak lessFn → ∀ k v, a_units a !! k = Some (readyQ, v) → lessFn v u = false) ∧
      min_priority (a_prio a) mp ∧
      u' = mkQueuedUnitInfo (UnitKey u) (unit_ u) (Timestamp u) (Attempts u + 1)
             (InitialAttemptTimestamp u)
             (if dynamicPriority
              then getScore (GetPriority u) (default (GetPriority u) mp) (Attempts u + 1) step
              else GetPriority u) ∧
      a' = a_set_cycles (a_cycle a + 1) (a_move a)
             (a_set_prio (delete (UnitKey u) (a_prio a)) (a_set_units (delete (UnitKey u) (a_units a)) a))
  | QueueClosed => a_closed a = true ∧ (∀ k v, a_units a !! k ≠ Some (readyQ, v)) ∧ a' = a
  | PopWait => a_closed a = false ∧ (∀ k v, a_units a !! k ≠ Some (readyQ, v)) ∧ a' = a
  | PopError => False
  end.

Section refinement.
#[local] Set Default Proof Using "Type".
Context (lessFn : QueuedUnitInfo → QueuedUnitInfo → bool) (initialDuration maxDuration : Z).
Abbreviation comp := (comp lessFn initialDuration maxDuration).
Abbreviation sub_Add := (sub_Add lessFn initialDuration maxDuration).
Abbreviation sub_DeleteByKey := (sub_DeleteByKey lessFn initialDuration maxDuration).
Abbreviation sub_Delete := (sub_Delete lessFn initialDuration maxDuration).
Implicit Types (p : PriorityQueue) (a : AbsQueue) (u : QueuedUnitInfo) (q : SubQueue).

Record heaps_ok p : Prop := {
  ok_sub : ∀ q, heap_inv unitInfoKeyFunc (comp q) (sub q p);
  ok_prio : heap_inv unitInfoKeyFunc priorityLess (priorityHeap p);
  ok_wait : heap_inv waitingPodsKeyFunc alwaysFalse (waitingPodsList p)
}.

(** No unit key is in two sub-queues. *)
Definition disjoint p : Prop :=
  ∀ q1 q2 k u1 u2, contents (sub q1 p) !! k = Some u1 → contents (sub q2 p) !! k = Some u2 → q1 = q2.

(** [p] represents [a]. *)
Definition R p a : Prop := heaps_ok p ∧ disjoint p ∧ a = abs p.

Lemma sub_set_sub q q' h p : sub q' (set_sub q h p) = if decide (q = q') then h else sub q' p.
Proof. by destruct q, q'. Qed.

Lemma tag_lookup q p k : tag q p !! k = pair q <$> contents (sub q p) !! k.
Proof. apply lookup_fmap. Qed.

Lemma abs_lookup p k q u :
  disjoint p → a_units (abs p) !! k = Some (q, u) ↔ contents (sub q p) !! k = Some u.
Proof.
  intros Hd. cbn [abs a_units]. rw !lookup_union !tag_lookup.
  destruct (contents (sub waitingQ p) !! k) as [u1|] eqn:E1,
    (contents (sub readyQ p) !! k) as [u2|] eqn:E2,
    (contents (sub backoffQ p) !! k) as [u3|] eqn:E3,
    (contents (sub unschedulableQ p) !! k) as [u4|] eqn:E4;
    try discriminate (Hd _ _ _ _ _ E1 E2); try discriminate (Hd _ _ _ _ _ E1 E3);
    try discriminate (Hd _ _ _ _ _ E1 E4); try discriminate (Hd _ _ _ _ _ E2 E3);
    try discriminate (Hd _ _ _ _ _ E2 E4); try discriminate (Hd _ _ _ _ _ E3 E4);
    clear Hd; rw /union /option_union /union_with /=; destruct q; cbn [sub] in *; split; intros Hq; congruence.
Qed.

(** A map that agrees with the sub-queues is the abstract value. *)
Lemma abs_units_eq p (m : gmap string (SubQueue * QueuedUnitInfo)) :
  (∀ k q u, contents (sub q p) !! k = Some u ↔ m !! k = Some (q, u)) →
  disjoint p ∧ a_units (abs p) = m.
Proof.
  intros Hm. assert (Hd : disjoint p).
  { intros q1 q2 k u1 u2 H1%Hm H2%Hm. congruence. }
  split; [done|]. apply map_eq. intros k. apply option_eq. intros [q u].
  by rw abs_lookup // Hm.
Qed.

Lemma sub_Add_ok q u p :
  heaps_ok p → ∃ h, sub_Add q u p = Some (set_sub q h p) ∧ heaps_ok (set_sub q h p) ∧
    contents h = <[UnitKey u := u]> (contents (sub q p)).
Proof.
  intros [Hs Hp Hw]. destruct (Add_spec unitInfoKeyFunc (comp q) (sub q p) u (Hs q))
    as (h & Hadd & Hi & Hc).
  exists h. unfold SchedQueue.sub_Add. rw Hadd. split_and!; [done| |done].
  split; [|done|done]. intros q'. rw sub_set_sub. by case_decide; subst.
Qed.

Lemma sub_DeleteByKey_ok q k p :
  heaps_ok p → ∃ h, sub_DeleteByKey q k p = Some (set_sub q h p) ∧ heaps_ok (set_sub q h p) ∧
    contents h = delete k (contents (sub q p)).
Proof.
  intros [Hs Hp Hw]. destruct (DeleteByKey_spec unitInfoKeyFunc (comp q) (sub q p) k (Hs q))
    as (h & Hdel & Hi & Hc).
  exists h. unfold SchedQueue.sub_DeleteByKey. rw Hdel. split_and!; [done| |done].
  split; [|done|done]. intros q'. rw sub_set_sub. by case_decide; subst.
Qed.

Lemma abs_set_sub q h p :
  abs (set_sub q h p) = a_set_units (a_units (abs (set_sub q h p))) (abs p).
Proof. done. Qed.

(** Adding a unit whose key is in no other sub-queue. *)
Lemma sub_Add_R q u p a :
  R p a → (∀ q' u', a_units a !! UnitKey u = Some (q', u') → q' = q) →
  ∃ p', sub_Add q u p = Some p' ∧ R p' (a_set_units (<[UnitKey u := (q, u)]> (a_units a)) a).
Proof.
  intros (Hok & Hd & ->) Hq. destruct (sub_Add_ok q u p Hok) as (h & Hadd & Hok' & Hc).
  exists (set_sub q h p). split; [done|].
  destruct (abs_units_eq (set_sub q h p) (<[UnitKey u := (q, u)]> (a_units (abs p)))) as [Hd' Hm].
  { intros k q' u'. rw sub_set_sub. destruct (decide (k = UnitKey u)) as [->|Hk].
    - rw lookup_insert_eq. destruct (decide (q = q')) as [->|Hne].
      + rw Hc lookup_insert_eq. split; intros [= ->]; done.
      + split; [|congruence]. intros Hl. apply (abs_lookup _ _ _ _ Hd) in Hl.
        apply Hq in Hl. congruence.
    - rw lookup_insert_ne //. destruct (decide (q = q')) as [->|Hne].
      + rw Hc lookup_insert_ne //. by rw abs_lookup.
      + by rw abs_lookup. }
  split_and!; [done|done|]. by rw abs_set_sub Hm.
Qed.

Lemma sub_DeleteByKey_R q k p a :
  R p a → (∀ q' u', a_units a !! k = Some (q', u') → q' = q) →
  ∃ p', sub_DeleteByKey q k p = Some p' ∧ R p' (a_set_units (delete k (a_units a)) a).
Proof.
  intros (Hok & Hd & ->) Hq. destruct (sub_DeleteByKey_ok q k p Hok) as (h & Hdel & Hok' & Hc).
  exists (set_sub q h p). split; [done|].
  destruct (abs_units_eq (set_sub q h p) (delete k (a_units (abs p)))) as [Hd' Hm].
  { intros k' q' u'. rw sub_set_sub. destruct (decide (k = k')) as [->|Hk].
    - rw lookup_delete_eq. destruct (decide (q = q')) as [->|Hne].
      + by rw Hc lookup_delete_eq.
      + split; [|done]. intros Hl. apply (abs_lookup _ _ _ _ Hd) in Hl. apply Hq in Hl. congruence.
    - rw lookup_delete_ne //. destruct (decide (q = q')) as [->|Hne].
      + rw Hc lookup_delete_ne //. by rw abs_lookup.
      + by rw abs_lookup. }
  split_and!; [done|done|]. by rw abs_set_sub Hm.
Qed.

Lemma find_R_aux qs k p a :
  R p a → (∀ q u, a_units a !! k = Some (q, u) → q ∈ qs) →
  ∃ p', find_and_remove lessFn initialDuration maxDuration qs k p = Some (p', a_units a !! k) ∧
    R p' (a_set_units (delete k (a_units a)) a).
Proof.
  intros HR. induction qs as [|q qs IH]; intros Hin; simpl.
  - destruct (a_units a !! k) as [[q u]|] eqn:E; [by destruct (not_elem_of_nil q); apply (Hin q u)|].
    exists p. split; [done|]. rw delete_id //. by destruct a.
  - rw GetByKey_contents. pose proof HR as (_ & Hd & ->).
    destruct (contents (sub q p) !! k) as [u|] eqn:E.
    + apply (abs_lookup _ _ _ _ Hd) in E.
      destruct (sub_DeleteByKey_R q k p _ HR) as (p' & -> & HR'); [intros; congruence|].
      exists p'. by rw E.
    + apply IH. intros q' u' Hq. specialize (Hin q' u' Hq). apply elem_of_cons in Hin as [->|]; [|done].
      apply (abs_lookup _ _ _ _ Hd) in Hq. congruence.
Qed.

Lemma find_R k p a :
  R p a → ∃ p', findAndRemoveUnitFromQueue lessFn initialDuration maxDuration k p =
    Some (p', a_units a !! k) ∧ R p' (a_set_units (delete k (a_units a)) a).
Proof. intros HR. apply (find_R_aux _ _ _ _ HR). intros q u _. destruct q; set_solver. Qed.

Lemma sub_frame p p' : (∀ q, sub q p' = sub q p) → disjoint p → disjoint p'.
Proof. intros Hs Hd q1 q2 k u1 u2. rw !Hs. apply Hd. Qed.

Lemma R_set_waiting h p a w :
  R p a → heap_inv waitingPodsKeyFunc alwaysFalse h → contents h = w →
  R (set_waitingPodsList h p) (a_set_waiting w a).
Proof.
  intros ([Hs Hp Hw] & Hd & ->) Hi <-. split_and!; [|by eapply sub_frame; [intros []|]|done].
  split; [intros q; specialize (Hs q); by destruct q|done|done].
Qed.

Lemma R_set_prio h p a m :
  R p a → heap_inv unitInfoKeyFunc priorityLess h → contents h = m →
  R (set_priorityHeap h p) (a_set_prio m a).
Proof.
  intros ([Hs Hp Hw] & Hd & ->) Hi <-. split_and!; [|by eapply sub_frame; [intros []|]|done].
  split; [intros q; specialize (Hs q); by destruct q|done|done].
Qed.

Lemma R_touch e p a : R p a → R (touch e p) (a_touch (now e) a).
Proof.
  intros ([Hs Hp Hw] & Hd & ->). split_and!; [|by eapply sub_frame; [intros []|]|done].
  split; [intros q; specialize (Hs q); by destruct q|done|done].
Qed.

Lemma R_set_cycles c m p a : R p a → R (set_cycles c m p) (a_set_cycles c m a).
Proof.
  intros ([Hs Hp Hw] & Hd & ->). split_and!; [|by eapply sub_frame; [intros []|]|done].
  split; [intros q; specialize (Hs q); by destruct q|done|done].
Qed.

Lemma ph_Add_R u p a :
  R p a → ∃ p', ph_Add u p = Some p' ∧ R p' (a_set_prio (<[UnitKey u := u]> (a_prio a)) a).
Proof.
  intros HR. pose proof HR as (Hok & _ & ->).
  destruct (Add_spec unitInfoKeyFunc priorityLess (priorityHeap p) u (ok_prio _ Hok)) as (h & Hh & Hi & Hc).
  unfold ph_Add. rw Hh. eexists. split; [done|]. by apply R_set_prio.
Qed.

Lemma ph_Delete_R u p a :
  R p a → ∃ p', ph_Delete u p = Some p' ∧ R p' (a_set_prio (delete (UnitKey u) (a_prio a)) a).
Proof.
  intros HR. pose proof HR as (Hok & _ & ->).
  destruct (Delete_spec unitInfoKeyFunc priorityLess (priorityHeap p) u (ok_prio _ Hok)) as (h & Hh & Hi & Hc).
  unfold ph_Delete. rw Hh. eexists. split; [done|]. by apply R_set_prio.
Qed.

(** *** The waiting list *)

Lemma wl_DeleteByKey_ok k h :
  heap_inv waitingPodsKeyFunc alwaysFalse h →
  ∃ h', wl_DeleteByKey k h = Some h' ∧ heap_inv waitingPodsKeyFunc alwaysFalse h' ∧
    contents h' = delete k (contents h).
Proof.
  intros Hi. destruct (DeleteByKey_spec waitingPodsKeyFunc alwaysFalse h k Hi) as (h' & Hh & ? & ?).
  exists h'. unfold wl_DeleteByKey. by rw Hh.
Qed.

Lemma wl_add_ok w h :
  heap_inv waitingPodsKeyFunc alwaysFalse h →
  ∃ h', wl_add w h = Some h' ∧ heap_inv waitingPodsKeyFunc alwaysFalse h' ∧
    contents h' = <[wp_unitKey w := w]> (contents h).
Proof.
  intros Hi. destruct (Add_spec waitingPodsKeyFunc alwaysFalse h w Hi) as (h' & Hh & ? & ?).
  exists h'. unfold wl_add. by rw Hh.
Qed.

Lemma removeExisted_ok (p : Pod) h :
  heap_inv waitingPodsKeyFunc alwaysFalse h →
  ∃ h', removeExistedOrCreateWaitingPods p h =
      Some (mkWaitingPods (GetUnitIdentifier p) (pods_at (contents h) (GetUnitIdentifier p)), h') ∧
    heap_inv waitingPodsKeyFunc alwaysFalse h' ∧
    contents h' = delete (GetUnitIdentifier p) (contents h).
Proof.
  intros Hi. unfold removeExistedOrCreateWaitingPods, pods_at. rw GetByKey_contents.
  destruct (contents h !! GetUnitIdentifier p) as [w|] eqn:E.
  - destruct (wl_DeleteByKey_ok (GetUnitIdentifier p) h Hi) as (h' & -> & Hi' & Hc).
    exists h'. split; [|done]. apply (heap_inv_key _ _ _ _ _ Hi) in E. destruct w as [k m].
    unfold waitingPodsKeyFunc in E. simpl in *. congruence.
  - exists h. split_and!; [done|done|]. by rw delete_id.
Qed.

Lemma wl_Add_ok e pod h :
  heap_inv waitingPodsKeyFunc alwaysFalse h →
  ∃ h', wl_Add e pod h = Some h' ∧ heap_inv waitingPodsKeyFunc alwaysFalse h' ∧
    let k := GetUnitIdentifier pod in
    contents h' = set_pods_at k (<[UID pod := newQueuedPodInfo e pod]> (pods_at (contents h) k)) (contents h).
Proof.
  intros Hi. unfold wl_Add. destruct (removeExisted_ok pod h Hi) as (h1 & -> & Hi1 & Hc1).
  destruct (wl_add_ok (mkWaitingPods (GetUnitIdentifier pod) (<[UID pod := newQueuedPodInfo e pod]>
     (pods_at (contents h) (GetUnitIdentifier pod)))) h1 Hi1) as (h2 & Hh2 & Hi2 & Hc2).
  exists h2. split_and!; [done|done|]. unfold set_pods_at.
  rw decide_False; [|by apply insert_non_empty]. by rw Hc2 Hc1 /= insert_delete_eq.
Qed.

Lemma wl_Update_ok e oldPod newPod h :
  heap_inv waitingPodsKeyFunc alwaysFalse h →
  ∃ h', wl_Update e oldPod newPod h = Some h' ∧ heap_inv waitingPodsKeyFunc alwaysFalse h' ∧
    let k := GetUnitIdentifier newPod in
    let m := pods_at (contents h) k in
    contents h' = set_pods_at k
      (match m !! UID oldPod with
       | Some old => <[UID newPod := updatePodInfo old newPod]> (delete (UID (qp_Pod old)) m)
       | None => <[UID newPod := newQueuedPodInfo e newPod]> m
       end) (contents h).
Proof.
  intros Hi. unfold wl_Update. destruct (removeExisted_ok newPod h Hi) as (h1 & -> & Hi1 & Hc1).
  cbn [mbind option_bind fst snd wp_pods wp_unitKey]. set (m := match _ !! _ with Some _ => _ | None => _ end).
  destruct (wl_add_ok (mkWaitingPods (GetUnitIdentifier newPod) m) h1 Hi1) as (h2 & -> & Hi2 & Hc2).
  exists h2. split_and!; [done|done|]. unfold set_pods_at.
  rw decide_False; [by rw Hc2 Hc1 /= insert_delete_eq|].
  unfold m. destruct (_ !! UID oldPod); by apply insert_non_empty.
Qed.

Lemma wl_Delete_ok pod h :
  heap_inv waitingPodsKeyFunc alwaysFalse h →
  ∃ h', wl_Delete pod h = Some h' ∧ heap_inv waitingPodsKeyFunc alwaysFalse h' ∧
    let k := GetUnitIdentifier pod in
    contents h' = set_pods_at k (delete (UID pod) (pods_at (contents h) k)) (contents h).
Proof.
  intros Hi. unfold wl_Delete. destruct (removeExisted_ok pod h Hi) as (h1 & -> & Hi1 & Hc1).
  cbn [mbind option_bind fst snd wp_pods wp_unitKey].
  set (m := delete (UID pod) (pods_at (contents h) (GetUnitIdentifier pod))). unfold set_pods_at.
  destruct (decide (m = ∅)) as [Hm|Hm].
  - rw Hm map_size_empty /=. by exists h1.
  - destruct (Nat.ltb_spec 0 (size m)) as [_|Hs]; [|by apply Nat.le_0_r, map_size_empty_inv in Hs].
    destruct (wl_add_ok (mkWaitingPods (GetUnitIdentifier pod) m) h1 Hi1) as (h2 & -> & Hi2 & Hc2).
    exists h2. split_and!; [done|done|]. by rw Hc2 Hc1 /= insert_delete_eq.
Qed.

Lemma podOrder_empty e : env_ok e → podOrder e ∅ = [].
Proof.
  intros He. apply Permutation_nil_r. rw (env_pods _ He). by rw map_to_list_empty.
Qed.

(** A single pod's key has no waiting pods. *)
Lemma single_no_waiting a (p : Pod) :
  a_ok a → GetPodGroupName p = "" → a_waiting a !! GetUnitIdentifier p = None.
Proof.
  intros Hok Hp. destruct (a_waiting a !! _) as [w|] eqn:E; [|done].
  destruct (ok_waiting _ Hok _ _ E) as (_ & Hne & Hw).
  destruct (map_choose _ Hne) as (uid & i & Hi). destruct (Hw _ _ Hi) as (_ & Hk & Hg).
  by destruct (group_single_key _ _ Hg Hp).
Qed.

Lemma createUnit_R e pod p a :
  env_ok e → R p a → a_ok a →
  ∃ p', createUnitInfo e pod p = Some (p', a_create e pod a) ∧
    R p' (match a_create e pod a with
          | Some _ => a_set_waiting (delete (GetUnitIdentifier pod) (a_waiting a)) a
          | None => a
          end).
Proof.
  intros He HR Hok. pose proof HR as ([_ _ Hw] & _ & Ha). unfold createUnitInfo, a_create.
  destruct (CreateScheduleUnit _ _ _ _) as [su|] eqn:Hc; cbn [mbind option_bind]; [|by exists p].
  rw GetByKey_contents. replace (contents (waitingPodsList p)) with (a_waiting a) by by rw Ha.
  unfold pods_at. destruct (a_waiting a !! GetUnitIdentifier pod) as [w|] eqn:E.
  - apply create_single in Hc as [[Hg ->]|(Hg & g & pr & _ & ->)].
    { by rw (single_no_waiting a pod Hok Hg) in E. }
    cbn [AddPod AddPods fst default fmap option_fmap option_map].
    destruct (wl_DeleteByKey_ok (GetUnitIdentifier pod) _ Hw) as (h & -> & Hi & Hcd).
    eexists. split; [done|]. apply R_set_waiting; [done|done|]. by rw Hcd Ha.
  - exists p. simpl. rw podOrder_empty //. split.
    + f_equal. f_equal. f_equal. f_equal. by destruct su as [[]|].
    + rw delete_id //. by destruct a.
Qed.

(** Adding a unit to a sub-queue and to the priority heap, in either order,
    when its key is in no sub-queue. *)
Lemma put_R q u p a :
  R p a → a_units a !! UnitKey u = None →
  ∃ p1 p', ph_Add u p = Some p1 ∧ sub_Add q u p1 = Some p' ∧ R p' (a_put q u a).
Proof.
  intros HR Hn. destruct (ph_Add_R u p a HR) as (p1 & H1 & HR1).
  destruct (sub_Add_R q u p1 _ HR1) as (p' & H2 & HR'); [simpl; congruence|]. by exists p1, p'.
Qed.

Lemma put_R' q u p a :
  R p a → a_units a !! UnitKey u = None →
  ∃ p1 p', sub_Add q u p = Some p1 ∧ ph_Add u p1 = Some p' ∧ R p' (a_put q u a).
Proof.
  intros HR Hn. destruct (sub_Add_R q u p a HR) as (p1 & H1 & HR1); [simpl; congruence|].
  destruct (ph_Add_R u p1 _ HR1) as (p' & H2 & HR'). by exists p1, p'.
Qed.

(** Putting back a unit that was taken out under its own key. *)
Lemma a_put_deleted q u a k :
  UnitKey u = k → a_put q u (a_set_units (delete k (a_units a)) a) = a_put q u a.
Proof. intros <-. unfold a_put. simpl. by rw insert_delete_eq. Qed.

Lemma a_ok_touch t a : a_ok a → a_ok (a_touch t a).
Proof. by intros []. Qed.

Lemma Add_R e pod p a :
  env_ok e → R p a → a_ok a →
  ∃ p', Add lessFn initialDuration maxDuration e pod p = Some p' ∧ R p' (a_Add e pod a).
Proof.
  intros He HR0 Hok0. unfold Add, addPodToUnitInfo, a_Add.
  pose proof (R_touch e _ _ HR0) as HR. pose proof (a_ok_touch (now e) _ Hok0) as Hok.
  set (b := a_touch (now e) a) in *. set (k := GetUnitIdentifier pod).
  destruct (find_R k _ _ HR) as (p1 & -> & HR1). cbn [mbind option_bind fst snd].
  destruct (a_units b !! k) as [[q u]|] eqn:E.
  - cbn [mbind option_bind fst snd]. set (u' := on_unit _ u).
    assert (Hk : UnitKey u' = k) by apply (ok_units _ Hok _ _ _ E).
    destruct (put_R (if Some q ≟ Some backoffQ then backoffQ else readyOrWaiting e u') u' p1 _ HR1)
      as (p2 & p' & H1 & H2 & HR'); [simpl; by rw Hk lookup_delete_eq|].
    exists p'. rw H1. split; [exact H2|]. rw a_put_deleted // in HR'.
    destruct (decide (q = backoffQ)) as [->|Hq]; [done|].
    rw bool_decide_eq_false_2 // in HR'. congruence.
  - rw delete_id // in HR1. replace (a_set_units (a_units b) b) with b in HR1 by by destruct b.
    destruct (createUnit_R e pod p1 b He HR1 Hok) as (p2 & -> & HR2).
    cbn [mbind option_bind fst snd]. destruct (a_create e pod b) as [u|] eqn:Ec; cbn [option_map].
    + assert (UnitKey u = k) as Hk by (apply bind_Some in Ec as (? & _ & [= <-]); done).
      destruct (put_R (readyOrWaiting e u) u p2 _ HR2) as (p3 & p' & H1 & H2 & HR'); [by rw Hk|].
      exists p'. rw H1. split; [exact H2|]. done.
    + pose proof HR2 as ([_ _ Hw] & _ & Hb).
      destruct (wl_Add_ok e pod (waitingPodsList p2) Hw) as (h & -> & Hi & Hc).
      eexists. split; [done|]. unfold a_wait_pod. apply R_set_waiting; [done|done|]. by rw Hc Hb.
Qed.

Lemma AddUnschedulable_R e u cycle p a :
  R p a →
  ∃ p', AddUnschedulableIfNotPresent lessFn initialDuration maxDuration e u cycle p = Some p' ∧
    R p' (a_AddUnschedulable e u cycle a).
Proof.
  intros HR0. unfold AddUnschedulableIfNotPresent, a_AddUnschedulable.
  pose proof (R_touch e _ _ HR0) as HR. set (b := a_touch (now e) a) in *.
  destruct (decide (NumPods (unit_ u) = 0)) as [Hz|Hz];
    [rw bool_decide_eq_true_2 //; by eexists|rw bool_decide_eq_false_2 //].
  destruct (find_R (UnitKey u) _ _ HR) as (p1 & -> & HR1). cbn [mbind option_bind fst snd].
  set (u1 := match a_units b !! UnitKey u with Some _ => _ | None => _ end).
  set (u2 := setTimestamp (now e) u1).
  assert (Hk : UnitKey u2 = UnitKey u)
    by (unfold u2, u1; destruct (a_units b !! UnitKey u) as [[]|]; done).
  assert (Hm : moveRequestCycle p1 = a_move b) by (destruct HR1 as (_ & _ & Ha); by injection Ha).
  rw Hm. set (q := if _ && _ then backoffQ else unschedulableQ).
  destruct (put_R q u2 p1 _ HR1) as (p2 & p' & H1 & H2 & HR'); [simpl; by rw Hk lookup_delete_eq|].
  exists p'. rw H1. split; [exact H2|]. by rw a_put_deleted in HR'.
Qed.

Lemma Update_R e oldPod newPod p a :
  env_ok e → R p a → a_ok a →
  ∃ p', Update lessFn initialDuration maxDuration e oldPod newPod p = Some p' ∧
    R p' (a_Update initialDuration maxDuration e oldPod newPod a).
Proof.
  intros He HR0 Hok0. unfold Update, updatePodInUnitInfo, a_Update.
  pose proof (R_touch e _ _ HR0) as HR. pose proof (a_ok_touch (now e) _ Hok0) as Hok.
  set (b := a_touch (now e) a) in *. set (k := GetUnitIdentifier newPod).
  destruct (find_R k _ _ HR) as (p1 & -> & HR1). cbn [mbind option_bind fst snd].
  destruct (a_units b !! k) as [[q u]|] eqn:E.
  - cbn [mbind option_bind fst snd]. set (u' := on_unit _ u).
    assert (Hk : UnitKey u' = k) by apply (ok_units _ Hok _ _ _ E).
    set (q' := if _ && _ then _ else q).
    destruct (put_R' q' u' p1 _ HR1) as (p2 & p' & H1 & H2 & HR'); [simpl; by rw Hk lookup_delete_eq|].
    exists p'. rw H1. split; [exact H2|]. by rw a_put_deleted in HR'.
  - rw delete_id // in HR1. replace (a_set_units (a_units b) b) with b in HR1 by by destruct b.
    destruct (createUnit_R e newPod p1 b He HR1 Hok) as (p2 & -> & HR2).
    cbn [mbind option_bind fst snd]. destruct (a_create e newPod b) as [u|] eqn:Ec; cbn [option_map].
    + assert (UnitKey u = k) as Hk by (apply bind_Some in Ec as (? & _ & [= <-]); done).
      destruct (put_R' (readyOrWaiting e u) u p2 _ HR2) as (p3 & p' & H1 & H2 & HR'); [by rw Hk|].
      exists p'. rw H1. split; [exact H2|]. done.
    + pose proof HR2 as ([_ _ Hw] & _ & Hb).
      destruct (wl_Update_ok e oldPod newPod (waitingPodsList p2) Hw) as (h & -> & Hi & Hc).
      eexists. split; [done|]. unfold a_update_waiting. apply R_set_waiting; [done|done|].
      by rw Hc Hb.
Qed.

Lemma Delete_R e pod p a :
  R p a → a_ok a →
  ∃ p', Delete lessFn initialDuration maxDuration e pod p = Some p' ∧ R p' (a_Delete e pod a).
Proof.
  intros HR0 Hok. unfold Delete, deletePodFromUnitInfo, a_Delete.
  pose proof (R_touch e _ _ HR0) as HR. set (k := GetUnitIdentifier pod).
  destruct (find_R k _ _ HR) as (p1 & -> & HR1). cbn [mbind option_bind fst snd].
  pose proof HR1 as ([_ _ Hw] & _ & Hb).
  destruct (wl_Delete_ok pod (waitingPodsList p1) Hw) as (h & -> & Hi & Hc).
  assert (Hwa : contents (waitingPodsList p1) = a_waiting a) by (by injection Hb).
  cbn [mbind option_bind]. rw Hwa in Hc.
  pose proof (R_set_waiting h p1 _ _ HR1 Hi Hc) as HR2. fold k in HR2.
  set (w := set_pods_at k _ _) in *. cbn [a_touch a_units a_set_waiting] in *.
  destruct (a_units a !! k) as [[q u]|] eqn:E; cbn [option_map fst snd].
  2:{ eexists. split; [done|]. rw delete_id // in HR2. }
  set (u' := on_unit _ u) in *.
  assert (Hk : UnitKey u' = k) by apply (ok_units _ Hok _ _ _ E).
  destruct (decide (NumPods (unit_ u') = 0)) as [Hz|Hz];
    [rw bool_decide_eq_true_2 //|rw bool_decide_eq_false_2 //].
  - destruct (ph_Delete_R u' _ _ HR2) as (p' & -> & HR'). eexists. split; [done|]. by rw Hk in HR'.
  - set (q' := if negb (q ≟ waitingQ) && _ then waitingQ else q).
    destruct (sub_Add_R q' u' _ _ HR2) as (p' & Hadd & HR'); [simpl; by rw Hk lookup_delete_eq|].
    exists p'. split; [unfold q' in Hadd; by destruct (negb (q ≟ waitingQ) && _)|].
    rw Hk in HR'. simpl in HR'. by rw insert_delete_eq in HR'.
Qed.

(** *** Moving units between sub-queues *)

Lemma collect_R e f q p a :
  env_ok e → R p a → a_ok a →
  ∃ l, collect e f q p = Some l ∧ NoDup (UnitKey <$> l) ∧
    ∀ u, u ∈ l ↔ a_units a !! UnitKey u = Some (q, u) ∧ f u = true.
Proof.
  intros He (Hh & Hd & ->) Hok. unfold collect.
  destruct (Process_calls_spec _ _ _ (ok_sub _ Hh q)) as (cs & -> & Hcs).
  eexists. split; [done|].
  assert (Hel : ∀ u, u ∈ cs.*2 ↔ a_units (abs p) !! UnitKey u = Some (q, u)).
  { intros u. rw Hcs (abs_lookup _ _ _ _ Hd) list_elem_of_fmap. split.
    - intros ([k v] & -> & Hin%elem_of_map_to_list). simpl.
      apply (heap_inv_key _ _ _ _ _ (ok_sub _ Hh q)) in Hin as Hk.
      unfold unitInfoKeyFunc in Hk. congruence.
    - intros Hu. exists (UnitKey u, u). split; [done|]. by apply elem_of_map_to_list. }
  split.
  - rw (env_units _ He). apply NoDup_fmap_filter. rw Hcs.
    replace (UnitKey <$> (map_to_list (contents (sub q p))).*2) with (map_to_list (contents (sub q p))).*1;
      [apply NoDup_fst_map_to_list|].
    rw -list_fmap_compose. apply list_fmap_ext. intros i [k u] Hi.
    apply list_elem_of_lookup_2, elem_of_map_to_list in Hi.
    apply (heap_inv_key _ _ _ _ _ (ok_sub _ Hh q)) in Hi. unfold unitInfoKeyFunc in Hi. simpl. congruence.
  - intros u. rw (env_units _ He) list_elem_of_filter Hel. tauto.
Qed.

(** One unit moved to another sub-queue, in the map. *)
Definition a_relocate (dst : QueuedUnitInfo → SubQueue) (m : gmap string (SubQueue * QueuedUnitInfo)) u :=
  <[UnitKey u := (dst u, u)]> m.

Lemma foldl_relocate_lookup dst l m k :
  NoDup (UnitKey <$> l) →
  (∀ u, u ∈ l → UnitKey u = k → foldl (a_relocate dst) m l !! k = Some (dst u, u)) ∧
  ((∀ u, u ∈ l → UnitKey u ≠ k) → foldl (a_relocate dst) m l !! k = m !! k).
Proof.
  revert m. induction l as [|v l IH]; intros m Hnd; simpl.
  - split; [by intros u ?%not_elem_of_nil|done].
  - rw fmap_cons NoDup_cons in Hnd. destruct Hnd as [Hv Hnd]. destruct (IH (a_relocate dst m v) Hnd) as [IH1 IH2].
    split.
    + intros u [->|Hu]%elem_of_cons Hk; [|by apply IH1].
      rw IH2; [by rw /a_relocate Hk lookup_insert_eq|].
      intros u' Hu' Hk'. apply Hv. rw Hk -Hk'. by apply list_elem_of_fmap_2.
    + intros Hne. rw IH2; [|intros u Hu; apply Hne; by right].
      rw /a_relocate lookup_insert_ne //. apply Hne. by left.
Qed.

(** Moving the units of [q] that satisfy [f] one by one is [a_move_units]. *)
Lemma relocate_all q f dst a l :
  NoDup (UnitKey <$> l) → a_ok a →
  (∀ u, u ∈ l ↔ a_units a !! UnitKey u = Some (q, u) ∧ f u = true) →
  a_set_units (foldl (a_relocate dst) (a_units a) l) a = a_move_units q f dst a.
Proof.
  intros Hnd Hok Hl. unfold a_move_units. f_equal. apply map_eq. intros k.
  destruct (foldl_relocate_lookup dst l (a_units a) k Hnd) as [H1 H2]. rw lookup_fmap.
  destruct (a_units a !! k) as [[q' u]|] eqn:E; cbn [fmap option_fmap option_map fst snd].
  - destruct (ok_units _ Hok _ _ _ E) as [Hk _]. destruct ((q' ≟ q) && f u) eqn:Eb.
    + apply andb_true_iff in Eb as [->%bool_decide_eq_true_1 Hf]. apply H1; [|done].
      apply Hl. by rw Hk.
    + rw H2 //. intros v [Hv Hf]%Hl Hvk. rw Hvk E in Hv. simplify_eq.
      by rw bool_decide_eq_true_2 // Hf in Eb.
  - rw H2 //. intros v [Hv _]%Hl Hvk. congruence.
Qed.

(** A fold of single moves, each of which takes a unit from [q]. *)
Lemma fold_moves q dst (stp : option PriorityQueue → QueuedUnitInfo → option PriorityQueue) l p a :
  (∀ p a u, R p a → a_units a !! UnitKey u = Some (q, u) →
    ∃ p', stp (Some p) u = Some p' ∧ R p' (a_set_units (a_relocate dst (a_units a) u) a)) →
  R p a → NoDup (UnitKey <$> l) → (∀ u, u ∈ l → a_units a !! UnitKey u = Some (q, u)) →
  ∃ p', foldl stp (Some p) l = Some p' ∧
    R p' (a_set_units (foldl (a_relocate dst) (a_units a) l) a).
Proof.
  intros Hstep. revert p a. induction l as [|u l IH]; intros p a HR Hnd Hin; simpl.
  - exists p. split; [done|]. by destruct a.
  - rw fmap_cons NoDup_cons in Hnd. destruct Hnd as [Hu Hnd].
    destruct (Hstep p a u HR) as (p1 & -> & HR1); [apply Hin; by left|].
    destruct (IH p1 _ HR1 Hnd) as (p' & Hp' & HR'); [|by exists p'].
    intros v Hv. simpl. rw /a_relocate lookup_insert_ne; [apply Hin; by right|].
    intros Hk. apply Hu. rw Hk. by apply list_elem_of_fmap_2.
Qed.

Lemma flush_waiting_step_R p a u :
  R p a → a_units a !! UnitKey u = Some (waitingQ, u) →
  ∃ p', flush_waiting_step lessFn initialDuration maxDuration (Some p) u = Some p' ∧
    R p' (a_set_units (a_relocate (λ _, readyQ) (a_units a) u) a).
Proof.
  intros HR Hu. unfold flush_waiting_step. cbn [mbind option_bind].
  change (SchedQueue.sub_Delete lessFn initialDuration maxDuration waitingQ u p)
    with (sub_DeleteByKey waitingQ (UnitKey u) p).
  destruct (sub_DeleteByKey_R waitingQ (UnitKey u) p a HR) as (p1 & -> & HR1); [congruence|].
  cbn [mbind option_bind].
  destruct (sub_Add_R readyQ u p1 _ HR1) as (p' & -> & HR'); [simpl; by rw lookup_delete_eq|].
  exists p'. split; [done|]. simpl in HR'. by rw insert_delete_eq in HR'.
Qed.

Lemma flushScheduled_R e p a :
  env_ok e → R p a → a_ok a →
  ∃ p', flushScheduledUnitsInWaitingQ lessFn initialDuration maxDuration e p = Some p' ∧
    R p' (a_move_units waitingQ (readyToBeScheduled e) (λ _, readyQ) a).
Proof.
  intros He HR Hok. unfold flushScheduledUnitsInWaitingQ.
  destruct (collect_R e (readyToBeScheduled e) waitingQ p a He HR Hok) as (l & -> & Hnd & Hl).
  cbn [mbind option_bind].
  destruct (fold_moves waitingQ (λ _, readyQ) _ l p a flush_waiting_step_R HR Hnd) as (p' & Hp' & HR').
  { intros u Hu. by apply Hl. }
  exists p'. split; [done|]. by rw (relocate_all waitingQ (readyToBeScheduled e)) in HR'.
Qed.

Lemma move_step_R e p a u :
  R p a → a_units a !! UnitKey u = Some (unschedulableQ, u) →
  ∃ p', move_step lessFn initialDuration maxDuration e (Some p) u = Some p' ∧
    R p' (a_set_units (a_relocate (readyOrBackoff initialDuration maxDuration e) (a_units a) u) a).
Proof.
  intros (Hok & Hd & ->) Hu. unfold move_step. cbn [mbind option_bind].
  fold (readyOrBackoff initialDuration maxDuration e u).
  assert (Hne : readyOrBackoff initialDuration maxDuration e u ≠ unschedulableQ)
    by (unfold readyOrBackoff; by destruct (isUnitBackoff _ _ e u)).
  unfold a_relocate. set (d := readyOrBackoff _ _ e u) in *. clearbody d.
  destruct (sub_Add_ok d u p Hok) as (h1 & -> & Hok1 & Hc1). cbn [mbind option_bind].
  change (SchedQueue.sub_Delete lessFn initialDuration maxDuration unschedulableQ u (set_sub d h1 p))
    with (sub_DeleteByKey unschedulableQ (UnitKey u) (set_sub d h1 p)).
  destruct (sub_DeleteByKey_ok unschedulableQ (UnitKey u) _ Hok1) as (h2 & -> & Hok2 & Hc2).
  rw sub_set_sub decide_False // in Hc2.
  set (p' := set_sub unschedulableQ h2 _). exists p'. split; [done|].
  destruct (abs_units_eq p' (<[UnitKey u := (d, u)]> (a_units (abs p)))) as [Hd' Hm].
  { intros k q v. unfold p'. rw !sub_set_sub. destruct (decide (k = UnitKey u)) as [->|Hk].
    - rw lookup_insert_eq. destruct (decide (unschedulableQ = q)) as [<-|Hq].
      + rw Hc2 lookup_delete_eq. split; [done|congruence].
      + destruct (decide (d = q)) as [->|Hdq].
        * rw Hc1 lookup_insert_eq. split; congruence.
        * rw -(abs_lookup _ _ _ _ Hd) Hu. split; congruence.
    - rw lookup_insert_ne // (abs_lookup _ _ _ _ Hd).
      destruct (decide (unschedulableQ = q)) as [<-|Hq]; [by rw Hc2 lookup_delete_ne|].
      destruct (decide (d = q)) as [->|Hdq]; [by rw Hc1 lookup_insert_ne|done]. }
  split_and!; [done|done|].
  assert (Ha : abs p' = a_set_units (a_units (abs p')) (abs p)) by done. by rw Ha Hm.
Qed.

Lemma moveUnits_R e f p a l :
  R p a → a_ok a → NoDup (UnitKey <$> l) →
  (∀ u, u ∈ l ↔ a_units a !! UnitKey u = Some (unschedulableQ, u) ∧ f u = true) →
  ∃ p', moveUnitsToReadyOrBackoffQueue lessFn initialDuration maxDuration e l p = Some p' ∧
    R p' (a_move_request initialDuration maxDuration e f a).
Proof.
  intros HR Hok Hnd Hl. unfold moveUnitsToReadyOrBackoffQueue.
  destruct (fold_moves unschedulableQ _ _ l p a (move_step_R e) HR Hnd) as (p' & -> & HR').
  { intros u Hu. by apply Hl. }
  cbn [mbind option_bind]. eexists. split; [done|].
  rw (relocate_all unschedulableQ f) // in HR'. unfold a_move_request.
  assert (Hc : schedulingCycle p' = a_cycle a) by (destruct HR' as (_ & _ & Ha); by injection Ha).
  rw -Hc. by apply R_set_cycles.
Qed.

(** Every operation that scans the unschedulable queue and moves what it
    collected. *)
Lemma request_R e f p a :
  env_ok e → R p a → a_ok a →
  ∃ p', (l ← collect e f unschedulableQ p;
         moveUnitsToReadyOrBackoffQueue lessFn initialDuration maxDuration e l p) = Some p' ∧
    R p' (a_move_request initialDuration maxDuration e f a).
Proof.
  intros He HR Hok. destruct (collect_R e f unschedulableQ p a He HR Hok) as (l & -> & Hnd & Hl).
  by apply moveUnits_R.
Qed.

(** *** Popping *)

(** A sub-queue that lost one unit. *)
Lemma removed_R q h u p a :
  R p a → a_units a !! UnitKey u = Some (q, u) →
  heap_inv unitInfoKeyFunc (comp q) h → contents h = delete (UnitKey u) (contents (sub q p)) →
  R (set_sub q h p) (a_set_units (delete (UnitKey u) (a_units a)) a).
Proof.
  intros (Hok & Hd & ->) Hu Hi Hc.
  destruct (abs_units_eq (set_sub q h p) (delete (UnitKey u) (a_units (abs p)))) as [Hd' Hm].
  { intros k q' v. rw sub_set_sub. destruct (decide (UnitKey u = k)) as [<-|Hkk].
    - rw lookup_delete_eq. destruct (decide (q = q')) as [<-|Hq].
      + by rw Hc lookup_delete_eq.
      + rw -(abs_lookup _ _ _ _ Hd) Hu. split; congruence.
    - rw lookup_delete_ne // (abs_lookup _ _ _ _ Hd).
      destruct (decide (q = q')) as [<-|Hq]; [by rw Hc lookup_delete_ne|done]. }
  split_and!; [|done|by rw abs_set_sub Hm].
  destruct Hok as [Hs Hp Hw]. split; [|done|done]. intros q'. rw sub_set_sub. by case_decide; subst.
Qed.

Lemma pop_R q p a :
  R p a →
  (KeyedHeap.Len (sub q p) = 0 ∧ KeyedHeap.Peek (sub q p) = Some None ∧
     ∀ k v, a_units a !! k ≠ Some (q, v)) ∨
  (∃ u h, KeyedHeap.Peek (sub q p) = Some (Some u) ∧
     KeyedHeap.Pop (comp q) (sub q p) = Some (h, inl u) ∧
     S (KeyedHeap.Len h) = KeyedHeap.Len (sub q p) ∧ a_units a !! UnitKey u = Some (q, u) ∧
     (StrictWeak (comp q) → ∀ k v, a_units a !! k = Some (q, v) → comp q v u = false) ∧
     R (set_sub q h p) (a_set_units (delete (UnitKey u) (a_units a)) a)).
Proof.
  intros HR. pose proof HR as (Hok & Hd & Ha). pose proof (ok_sub _ Hok q) as Hi.
  destruct (decide (contents (sub q p) = ∅)) as [He|Hne].
  - left. pose proof (Len_contents _ _ _ Hi) as Hlen. rw He map_size_empty in Hlen.
    split_and!; [done| |].
    + by destruct (Peek_spec _ _ _ Hi) as [[_ ?]|(k & o & _ & Hk & _)]; [|rw He in Hk].
    + intros k v. rw Ha. intros Hk%(abs_lookup _ _ _ _ Hd). by rw He in Hk.
  - right. destruct (Pop_spec unitInfoKeyFunc (comp q) _ Hi Hne)
      as (h & k & u & Hpop & Hi' & Hk & Hc & Hpk & Hmin).
    apply (heap_inv_key _ _ _ _ _ Hi) in Hk as Hku. unfold unitInfoKeyFunc in Hku.
    injection Hku as <-. exists u, h.
    assert (Hu : a_units a !! UnitKey u = Some (q, u)) by (rw Ha; by apply abs_lookup).
    split_and!; [done|done| |done| |by apply removed_R].
    + rw (Len_contents _ _ _ Hi) (Len_contents _ _ _ Hi') Hc map_size_delete Hk.
      assert (size (contents (sub q p)) ≠ 0) by by intros ?%map_size_empty_inv. lia.
    + intros SW k v Hv. rw Ha in Hv. apply (abs_lookup _ _ _ _ Hd) in Hv. by eapply Hmin.
Qed.

Lemma a_move_units_step q f dst a u :
  a_units a !! UnitKey u = Some (q, u) → f u = true → dst u ≠ q →
  a_move_units q f dst (a_set_units (a_relocate dst (a_units a) u) a) = a_move_units q f dst a.
Proof.
  intros Hu Hf Hd. unfold a_move_units, a_relocate, a_set_units. simpl. f_equal. rw fmap_insert /=.
  destruct (decide (dst u = q)) as [|Hn]; [done|]. rw (bool_decide_eq_false_2 _ Hn) /=.
  apply insert_id. rw lookup_fmap Hu /= Hf. by rw bool_decide_eq_true_2.
Qed.

Lemma a_move_units_id q f dst a :
  (∀ k u, a_units a !! k = Some (q, u) → f u = false) → a_move_units q f dst a = a.
Proof.
  intros Hf. unfold a_move_units. replace (_ <$> a_units a) with (a_units a); [by destruct a|].
  symmetry. rw -{2}(map_fmap_id (a_units a)). apply map_fmap_ext. intros k [q' u] Hk. simpl.
  destruct (decide (q' = q)) as [->|]; [|by rw bool_decide_eq_false_2].
  by rw (Hf _ _ Hk) andb_false_r.
Qed.

Lemma flush_backoff_loop_R e fuel p a :
  R p a → (KeyedHeap.Len (q_backoff p) ≤ fuel)%nat →
  ∃ p', flush_backoff_loop lessFn initialDuration maxDuration fuel e p = Some p' ∧
    R p' (a_move_units backoffQ (λ u, negb (isUnitBackoff initialDuration maxDuration e u)) (λ _, readyQ) a).
Proof.
  revert p a. induction fuel as [|fuel IH]; intros p a HR Hl; cbn [flush_backoff_loop];
    destruct (pop_R backoffQ p a HR) as [(Hn & Hpk & Hnone)|(u & h & Hpk & Hpop & Hlen & Hu & Hmin & HR1)];
    cbn [sub] in *; rw Hpk; cbn [mbind option_bind].
  1, 3: exists p; split; [done|]; rw a_move_units_id // => k u Hk; by destruct (Hnone k u).
  all: destruct (isUnitBackoff _ _ e u) eqn:Hb.
  1, 3: exists p; split; [done|]; rw a_move_units_id // => k v Hv;
    specialize (Hmin _ k v Hv); cbn [SchedQueue.comp] in Hmin;
    unfold unitsCompareBackoffCompleted in Hmin; unfold isUnitBackoff in *; apply Z.ltb_ge in Hmin;
    apply Z.ltb_lt in Hb; apply negb_false_iff, Z.ltb_lt; lia.
  { lia. }
  rw Hpop. cbn [mbind option_bind fst snd].
  destruct (sub_Add_R readyQ u _ _ HR1) as (p2 & Hadd & HR2); [simpl; by rw lookup_delete_eq|].
  rw Hadd. cbn [mbind option_bind]. simpl in HR2. rw insert_delete_eq in HR2.
  destruct (IH p2 _ HR2) as (p' & -> & HR').
  { unfold SchedQueue.sub_Add in Hadd. apply bind_Some in Hadd as (r & _ & [= <-]). simpl. lia. }
  exists p'. split; [done|].
  by rw (a_move_units_step backoffQ _ (λ _, readyQ) a u) ?Hb in HR'.
Qed.

Lemma flushBackoff_R e p a :
  R p a →
  ∃ p', flushBackoffQCompleted lessFn initialDuration maxDuration e p = Some p' ∧
    R p' (a_move_units backoffQ (λ u, negb (isUnitBackoff initialDuration maxDuration e u)) (λ _, readyQ) a).
Proof. intros HR. by apply flush_backoff_loop_R. Qed.

Lemma getMinPriority_R p a :
  R p a → ∃ o, getMinPriorityInQueueIfExists p = Some o ∧ min_priority (a_prio a) o.
Proof.
  intros ([_ Hp _] & _ & ->). unfold getMinPriorityInQueueIfExists.
  destruct (Peek_spec _ _ _ Hp) as [[He ->]|(k & v & -> & Hk & Hmin)].
  - by exists None.
  - exists (Some (GetPriority v)). split; [done|]. split; [by exists k, v|].
    intros k' v' Hv'. specialize (Hmin _ _ _ Hv'). unfold priorityLess in Hmin. by apply Z.ltb_ge in Hmin.
Qed.

Lemma Pop_R dynamicPriority step p a :
  R p a →
  ∃ p' out, Pop lessFn initialDuration maxDuration dynamicPriority step p = Some (p', out) ∧
    ∃ a', R p' a' ∧ a_Pop lessFn dynamicPriority step a out a'.
Proof.
  intros HR. unfold Pop.
  assert (Hcl : closed p = a_closed a) by (destruct HR as (_ & _ & ->); done).
  assert (Hcy : schedulingCycle p = a_cycle a ∧ moveRequestCycle p = a_move a)
    by (destruct HR as (_ & _ & ->); done).
  destruct (pop_R readyQ p a HR) as [(Hn & _ & Hnone)|(u & h & _ & Hpop & Hlen & Hu & Hmin & HR1)];
    cbn [sub] in *.
  - rw bool_decide_eq_true_2 //. eexists p, _. split; [done|]. exists a. split; [done|].
    rw Hcl. by destruct (a_closed a) eqn:E.
  - rw bool_decide_eq_false_2; [|lia]. rw Hpop. cbn [mbind option_bind fst snd].
    destruct (getMinPriority_R _ _ HR1) as (mp & Hmp & Hminp). simpl in Hminp.
    unfold setQueuedPriorityScore. rw Hmp.
    set (sc := if dynamicPriority
       then getScore (GetPriority u) (default (GetPriority u) mp) (Attempts u + 1) step else GetPriority u).
    replace (if dynamicPriority then _ else _) with (Some sc)
      by (unfold sc; by destruct dynamicPriority).
    cbn [mbind option_bind]. destruct Hcy as [Hc1 Hc2]. cbn [set_sub schedulingCycle moveRequestCycle].
    rw Hc1 Hc2.
    destruct (ph_Delete_R (mkQueuedUnitInfo (UnitKey u) (unit_ u) (Timestamp u) (Attempts u + 1)
      (InitialAttemptTimestamp u) sc) _ _ (R_set_cycles (a_cycle a + 1) (a_move a) _ _ HR1))
      as (p' & Hp' & HR').
    unfold bumpAttempts. cbn [UnitKey unit_ Timestamp Attempts InitialAttemptTimestamp] in *.
    rw Hp'. cbn [mbind option_bind]. eexists p', _. split; [done|]. eexists. split; [exact HR'|].
    exists u, mp. split_and!; [done|done|done|done|done].
Qed.

(** *** Waiting pods that become units *)

Lemma AddPods_key l su : GetKey (foldl (λ s i, AddPod i s) (PGU su) l) = pgu_key su.
Proof. revert su. induction l as [|i l IH]; intros su; [done|]. simpl. by rw IH. Qed.

Lemma transfer_key e k w u :
  env_ok e → wait_ok k w → transferToPodGroupUnit e w = Some u → UnitKey u = k.
Proof.
  intros He (Hk & _ & Hw). unfold transferToPodGroupUnit.
  destruct (head (podOrder e (wp_pods w))) as [i|] eqn:Hi; [|done]. cbn [mbind option_bind].
  assert (Hin : i ∈ podOrder e (wp_pods w)).
  { destruct (podOrder e (wp_pods w)); [done|]. injection Hi as ->. by left. }
  rw (env_pods _ He) in Hin. apply list_elem_of_fmap in Hin as ([uid j] & -> & Hj%elem_of_map_to_list).
  destruct (Hw _ _ Hj) as (_ & Hki & Hg). cbn [snd].
  intros (su & Hc & [= <-])%bind_Some. simpl.
  unfold CreateScheduleUnit in Hc. rw bool_decide_eq_false_2 // in Hc. simpl in Hc.
  apply bind_Some in Hc as (g & Hpg & (pr & _ & [= <-])%bind_Some).
  rw AddPods_key /=. destruct (env_groups _ He _ _ _ Hpg) as [-> ->].
  rw -Hki /GetUnitIdentifier. by rw bool_decide_eq_false_2.
Qed.

Lemma Activate_R e k p a :
  env_ok e → R p a → a_ok a → (∀ q u, a_units a !! k = Some (q, u) → a_waiting a !! k = None) →
  ∃ p', ActivePodGroupUnit lessFn initialDuration maxDuration e k p = Some p' ∧ R p' (a_activate e k a).
Proof.
  intros He HR Hok Hsep. unfold ActivePodGroupUnit, a_activate. rw GetByKey_contents.
  replace (contents (waitingPodsList p)) with (a_waiting a) by (destruct HR as (_ & _ & ->); done).
  destruct (a_waiting a !! k) as [w|] eqn:Hw; cbn [mbind option_bind]; [|by exists p].
  destruct (transferToPodGroupUnit e w) as [u|] eqn:Ht; [|by exists p].
  pose proof (transfer_key e k w u He (ok_waiting _ Hok _ _ Hw) Ht) as Hk.
  destruct (sub_Add_R (readyOrWaiting e u) u p a HR) as (p1 & -> & HR1).
  { rw Hk. intros q' u' Hq. by apply Hsep in Hq. }
  cbn [mbind option_bind]. pose proof HR1 as ([_ _ Hwl] & _ & Ha).
  destruct (wl_DeleteByKey_ok k _ Hwl) as (h & -> & Hi & Hc). eexists. split; [done|].
  rw Hk in HR1. apply R_set_waiting; [done|done|]. rw Hc. by injection Ha as _ <-.
Qed.

Lemma fold_flush_pods e l p a :
  R p a → NoDup (UnitKey <$> l) → (∀ u, u ∈ l → a_units a !! UnitKey u = None) →
  ∃ p', foldl (flush_pods_step lessFn initialDuration maxDuration e) (Some p) l = Some p' ∧
    R p' (a_set_waiting (foldl (λ w u, delete (UnitKey u) w) (a_waiting a) l)
            (a_set_units (foldl (a_relocate (readyOrWaiting e)) (a_units a) l) a)).
Proof.
  revert p a. induction l as [|u l IH]; intros p a HR Hnd Hin; cbn [foldl].
  - exists p. split; [done|]. by destruct a.
  - rw fmap_cons NoDup_cons in Hnd. destruct Hnd as [Hu Hnd].
    unfold flush_pods_step at 2. cbn [mbind option_bind].
    pose proof HR as ([_ _ Hwl] & _ & Ha).
    destruct (wl_DeleteByKey_ok (UnitKey u) _ Hwl) as (h & -> & Hi & Hc). cbn [mbind option_bind].
    assert (HR1 : R (set_waitingPodsList h p) (a_set_waiting (delete (UnitKey u) (a_waiting a)) a))
      by (apply R_set_waiting; [done|done|]; by rw Hc Ha).
    destruct (sub_Add_R (readyOrWaiting e u) u _ _ HR1) as (p1 & -> & HR2).
    { simpl. rw Hin //. by left. }
    destruct (IH p1 _ HR2 Hnd) as (p' & -> & HR'); [|by exists p'].
    intros v Hv. simpl. rw lookup_insert_ne; [apply Hin; by right|].
    intros Hk. apply Hu. rw Hk. by apply list_elem_of_fmap_2.
Qed.

Lemma omap_keys_NoDup e (ws : list waitingPods) :
  (∀ w u, w ∈ ws → transferToPodGroupUnit e w = Some u → UnitKey u = wp_unitKey w) →
  NoDup (wp_unitKey <$> ws) → NoDup (UnitKey <$> omap (transferToPodGroupUnit e) ws).
Proof.
  induction ws as [|w ws IH]; intros Hk Hnd; [constructor|].
  rw fmap_cons NoDup_cons in Hnd. destruct Hnd as [Hw Hnd].
  assert (NoDup (UnitKey <$> omap (transferToPodGroupUnit e) ws))
    by (apply IH; [intros v u Hv; apply Hk; by right|done]).
  simpl. destruct (transferToPodGroupUnit e w) as [u|] eqn:E; [|done].
  rw fmap_cons NoDup_cons. split; [|done].
  intros (v & Hv & (x & Hx & Ht)%list_elem_of_omap)%list_elem_of_fmap. apply Hw.
  rw -(Hk w u) //; [|by left]. rw Hv (Hk x v) //; [|by right]. by apply list_elem_of_fmap_2.
Qed.

Lemma foldl_delete_lookup {V} (l : list QueuedUnitInfo) (m : gmap string V) k :
  foldl (λ w u, delete (UnitKey u) w) m l !! k =
  if decide (k ∈ (UnitKey <$> l)) then None else m !! k.
Proof.
  revert m. induction l as [|u l IH]; intros m; [done|]. cbn [foldl].
  rw IH fmap_cons. destruct (decide (k ∈ UnitKey <$> l)) as [H|H].
  - rw decide_True //. by right.
  - destruct (decide (k = UnitKey u)) as [->|Hk].
    + rw lookup_delete_eq decide_True //. by left.
    + rw lookup_delete_ne // decide_False //. by intros [?|?]%elem_of_cons.
Qed.

(** The fold over the units made is [a_flush_pods]. *)
Lemma flush_pods_abs e a l :
  env_ok e → a_ok a → NoDup (UnitKey <$> l) →
  (∀ u, u ∈ l ↔ ∃ w, a_waiting a !! UnitKey u = Some w ∧ transferToPodGroupUnit e w = Some u) →
  a_set_waiting (foldl (λ w u, delete (UnitKey u) w) (a_waiting a) l)
    (a_set_units (foldl (a_relocate (readyOrWaiting e)) (a_units a) l) a) = a_flush_pods e a.
Proof.
  intros He Hok Hnd Hl. unfold a_flush_pods, a_set_waiting, a_set_units. simpl. f_equal.
  - apply map_eq. intros k. destruct (foldl_relocate_lookup (readyOrWaiting e) l (a_units a) k Hnd) as [H1 H2].
    rw lookup_union lookup_fmap lookup_omap.
    destruct (a_waiting a !! k ≫= transferToPodGroupUnit e) as [u|] eqn:E.
    + apply bind_Some in E as (w & Hw & Ht).
      pose proof (transfer_key e k w u He (ok_waiting _ Hok _ _ Hw) Ht) as Hk.
      rw (H1 u) //; [by destruct (a_units a !! k)|]. apply Hl. exists w. by rw Hk.
    + rw H2; [by rw /= left_id_L|]. intros u (w & Hw & Ht)%Hl Hk. by rw Hk in Hw; rw Hw /= Ht in E.
  - apply map_eq. intros k. rw foldl_delete_lookup map_lookup_filter.
    destruct (decide (k ∈ UnitKey <$> l)) as [(u & -> & (w & Hw & Ht)%Hl)%list_elem_of_fmap|Hn].
    + rw Hw /=. by rw option_guard_False; [|rw Ht].
    + destruct (a_waiting a !! k) as [w|] eqn:Hw; [|done]. simpl.
      destruct (transferToPodGroupUnit e w) as [u|] eqn:Ht; [|by rw option_guard_True].
      destruct Hn. pose proof (transfer_key e k w u He (ok_waiting _ Hok _ _ Hw) Ht) as Hk.
      rw -Hk. apply list_elem_of_fmap_2, Hl. exists w. by rw Hk.
Qed.

Lemma flushPods_R e p a :
  env_ok e → R p a → a_ok a → (∀ k, is_Some (a_waiting a !! k) → a_units a !! k = None) →
  ∃ p', flushWaitingPodsList lessFn initialDuration maxDuration e p = Some p' ∧ R p' (a_flush_pods e a).
Proof.
  intros He HR Hok Hsep. pose proof HR as ([_ _ Hwl] & _ & Ha). unfold flushWaitingPodsList.
  destruct (Process_calls_spec _ _ _ Hwl) as (cs & -> & Hcs). cbn [mbind option_bind].
  assert (Hw : contents (waitingPodsList p) = a_waiting a) by by rw Ha. rw Hw in Hcs.
  assert (Hin : ∀ w, w ∈ cs.*2 ↔ a_waiting a !! wp_unitKey w = Some w).
  { intros w. rw Hcs list_elem_of_fmap. split.
    - intros ([k v] & -> & Hv%elem_of_map_to_list). simpl. by destruct (ok_waiting _ Hok _ _ Hv) as [-> _].
    - intros ?. exists (wp_unitKey w, w). split; [done|]. by apply elem_of_map_to_list. }
  set (l := unitOrder e _).
  assert (Hl : ∀ u, u ∈ l ↔ ∃ w, a_waiting a !! UnitKey u = Some w ∧ transferToPodGroupUnit e w = Some u).
  { intros u. unfold l. rw (env_units _ He) list_elem_of_omap. split.
    - intros (w & Hwi%Hin & Ht). exists w. split; [|done].
      by rw (transfer_key e _ w u He (ok_waiting _ Hok _ _ Hwi) Ht).
    - intros (w & Hwi & Ht). exists w. split; [|done]. apply Hin.
      by destruct (ok_waiting _ Hok _ _ Hwi) as [-> _]. }
  assert (Hnd : NoDup (UnitKey <$> l)).
  { unfold l. rw (env_units _ He). apply omap_keys_NoDup.
    - intros w u Hwi%Hin Ht. by apply (transfer_key e _ w u He (ok_waiting _ Hok _ _ Hwi)).
    - rw Hcs -list_fmap_compose.
      replace (_ <$> map_to_list (a_waiting a)) with (map_to_list (a_waiting a)).*1;
        [apply NoDup_fst_map_to_list|].
      apply list_fmap_ext. intros i [k w] Hi. apply list_elem_of_lookup_2, elem_of_map_to_list in Hi.
      simpl. by destruct (ok_waiting _ Hok _ _ Hi) as [-> _]. }
  destruct (fold_flush_pods e l p a HR Hnd) as (p' & Hp' & HR').
  { intros u (w & Hwi & _)%Hl. apply Hsep. by exists w. }
  exists p'. split; [done|]. by rw flush_pods_abs in HR'.
Qed.
End refinement.

(** ** The invariant is preserved *)

(** No key both waits for its pod group and is in a sub-queue. *)
Definition separate (a : AbsQueue) : Prop :=
  ∀ k, is_Some (a_waiting a !! k) → a_units a !! k = None.

Lemma size_pos (m : gmap string QueuedPodInfo) : m ≠ ∅ → (0 < size m)%nat.
Proof. intros Hm. assert (size m ≠ 0) by by intros ?%map_size_empty_inv. lia. Qed.

Lemma size_pos_inv (m : gmap string QueuedPodInfo) : (0 < size m)%nat → m ≠ ∅.
Proof. intros Hm ->. rw map_size_empty in Hm. lia. Qed.

Lemma keyed_insert i (m : gmap string QueuedPodInfo) :
  (∀ uid j, m !! uid = Some j → UID (qp_Pod j) = uid) →
  ∀ uid j, <[UID (qp_Pod i) := i]> m !! uid = Some j → UID (qp_Pod j) = uid.
Proof.
  intros Hm uid j. destruct (decide (UID (qp_Pod i) = uid)) as [<-|].
  - rw lookup_insert_eq. by intros [= <-].
  - rw lookup_insert_ne //. apply Hm.
Qed.

Lemma AddPod_ok i su : unit_keyed su → unit_ok (AddPod i su).
Proof.
  destruct su as [u|s]; intros Hk; (split; [simpl; try lia|]).
  - apply size_pos, insert_non_empty.
  - simpl. by apply keyed_insert.
  - done.
Qed.

Lemma DeletePod_keyed i su : unit_keyed su → unit_keyed (DeletePod i su).
Proof. destruct su as [u|s]; [|done]. simpl. intros Hk uid j [_ Hj]%lookup_delete_Some. by apply Hk. Qed.

Lemma foldl_keep {A B} (P : B → Prop) (f : B → A → B) l m :
  (∀ m x, P m → P (f m x)) → P m → P (foldl f m l).
Proof. intros Hf. revert m. induction l as [|x l IH]; intros m Hm; [done|]. apply IH, Hf, Hm. Qed.

Lemma AddPods_ok l su : unit_ok su → unit_ok (AddPods l su).1.
Proof.
  destruct su as [u|s]; [|done]. intros [Hm%size_pos_inv Hk]. split; simpl.
  - apply size_pos. apply (foldl_keep (λ m, m ≠ ∅)); [|done]. intros. apply insert_non_empty.
  - apply (foldl_keep (λ m, ∀ uid i, m !! uid = Some i → UID (qp_Pod i) = uid)); [|done].
    intros m i. apply keyed_insert.
Qed.

Lemma AddPodsIfNotPresent_ok l su : unit_ok su → unit_ok (AddPodsIfNotPresent l su).1.
Proof.
  destruct su as [u|s]; [|done]. intros [Hm%size_pos_inv Hk]. split; simpl.
  - apply size_pos. apply (foldl_keep (λ m, m ≠ ∅)); [|done].
    intros m i Hne. destruct (m !! _); [done|]. apply insert_non_empty.
  - apply (foldl_keep (λ m, ∀ uid i, m !! uid = Some i → UID (qp_Pod i) = uid)); [|done].
    intros m i Hi. destruct (m !! _); [done|]. by apply keyed_insert.
Qed.

Lemma updateInUnit_ok e old new su : unit_keyed su → unit_ok (updateInUnit e old new su).
Proof.
  intros Hk. unfold updateInUnit. destruct (GetPod _ su); apply AddPod_ok; [by apply DeletePod_keyed|done].
Qed.

Lemma foldl_AddPod_ok l su : l ≠ [] → unit_keyed su → unit_ok (foldl (λ s i, AddPod i s) su l).
Proof.
  destruct l as [|x l _] using rev_ind; [done|]. intros _ Hk. rw foldl_app /=. apply AddPod_ok.
  apply (foldl_keep unit_keyed); [|done]. intros su' i Hs. by apply AddPod_ok.
Qed.

Lemma create_keyed e i su :
  CreateScheduleUnit (now e) (pcLister e) (pgLister e) i = Some su → unit_keyed su.
Proof.
  unfold CreateScheduleUnit. destruct (negb _); [|by intros [= <-]].
  by intros (g & _ & (pr & _ & [= <-])%bind_Some)%bind_Some.
Qed.

Lemma transfer_ok e w u : transferToPodGroupUnit e w = Some u → unit_ok (unit_ u).
Proof.
  unfold transferToPodGroupUnit. intros (i & Hi & (su & Hc & [= <-])%bind_Some)%bind_Some.
  apply foldl_AddPod_ok; [by destruct (podOrder e (wp_pods w))|]. by eapply create_keyed.
Qed.

Lemma a_create_ok e pod a u :
  a_create e pod a = Some u → UnitKey u = GetUnitIdentifier pod ∧ unit_ok (unit_ u).
Proof.
  unfold a_create. intros (su & Hc & [= <-])%bind_Some. split; [done|].
  apply AddPods_ok, AddPod_ok. by eapply create_keyed.
Qed.

Lemma a_ok_put q u a : a_ok a → unit_ok (unit_ u) → a_ok (a_put q u a).
Proof.
  intros [Hu Hw Hp] Hn. split; simpl; [|done|].
  - intros k q' v. destruct (decide (UnitKey u = k)) as [<-|Hk].
    + rw lookup_insert_eq. intros [= <- <-]. done.
    + rw lookup_insert_ne //. apply Hu.
  - intros k v. destruct (decide (UnitKey u = k)) as [<-|Hk].
    + rw !lookup_insert_eq. intros [= <-]. by exists q, u.
    + rw !lookup_insert_ne //. apply Hp.
Qed.

Lemma a_ok_waiting w a :
  a_ok a → (∀ k x, w !! k = Some x → wait_ok k x) → a_ok (a_set_waiting w a).
Proof. by intros [Hu _ Hp] Hw. Qed.

Lemma wait_ok_delete k w : a_ok w → a_ok (a_set_waiting (delete k (a_waiting w)) w).
Proof.
  intros Hok. apply a_ok_waiting; [done|]. intros j x [_ Hx]%lookup_delete_Some.
  by apply (ok_waiting _ Hok).
Qed.

Lemma pods_at_ok a k uid i :
  a_ok a → pods_at (a_waiting a) k !! uid = Some i →
  UID (qp_Pod i) = uid ∧ GetUnitIdentifier (qp_Pod i) = k ∧ GetPodGroupName (qp_Pod i) ≠ "".
Proof.
  intros Hok. unfold pods_at. destruct (a_waiting a !! k) as [w|] eqn:E; simpl; [|by rw lookup_empty].
  apply (ok_waiting _ Hok _ _ E).
Qed.

Lemma a_ok_set_pods k m a :
  a_ok a →
  (∀ uid i, m !! uid = Some i →
     UID (qp_Pod i) = uid ∧ GetUnitIdentifier (qp_Pod i) = k ∧ GetPodGroupName (qp_Pod i) ≠ "") →
  a_ok (a_set_waiting (set_pods_at k m (a_waiting a)) a).
Proof.
  intros Hok Hm. apply a_ok_waiting; [done|]. intros j x. unfold set_pods_at.
  destruct (decide (m = ∅)) as [He|He].
  - intros [_ Hx]%lookup_delete_Some. by apply (ok_waiting _ Hok).
  - destruct (decide (k = j)) as [<-|Hk].
    + rw lookup_insert_eq. by intros [= <-].
    + rw lookup_insert_ne //. apply (ok_waiting _ Hok).
Qed.

Lemma a_create_error e pod a : a_create e pod a = None → GetPodGroupName pod ≠ "".
Proof.
  unfold a_create. destruct (CreateScheduleUnit _ _ _ _) eqn:E; [done|]. intros _.
  by eapply create_error_group.
Qed.

Lemma a_ok_Add e pod a : a_ok a → a_ok (a_Add e pod a).
Proof.
  intros Hok%(a_ok_touch (now e)). unfold a_Add. set (b := a_touch (now e) a) in *.
  destruct (a_units b !! GetUnitIdentifier pod) as [[q u]|] eqn:E.
  - apply a_ok_put; [done|]. apply AddPod_ok. apply (ok_units _ Hok _ _ _ E).
  - destruct (a_create e pod b) as [u|] eqn:Ec.
    + apply a_ok_put; [by apply wait_ok_delete|]. by eapply a_create_ok.
    + unfold a_wait_pod. apply a_ok_set_pods; [done|]. intros uid i.
      destruct (decide (UID pod = uid)) as [<-|Hne].
      * rw lookup_insert_eq. intros [= <-]. split_and!; [done|done|by eapply a_create_error].
      * rw lookup_insert_ne //. by apply pods_at_ok.
Qed.

Lemma a_ok_Unschedulable e u c a : a_ok a → unit_keyed (unit_ u) → a_ok (a_AddUnschedulable e u c a).
Proof.
  intros Hok%(a_ok_touch (now e)) Hku. unfold a_AddUnschedulable. set (b := a_touch (now e) a) in *.
  destruct (decide _) as [|Hn]; [done|]. apply a_ok_put; [done|]. simpl.
  destruct (a_units a !! UnitKey u) as [[q v]|]; [|split; [lia|done]].
  simpl. apply AddPodsIfNotPresent_ok. split; [lia|done].
Qed.

Lemma a_ok_Update i m e old new a : a_ok a → a_ok (a_Update i m e old new a).
Proof.
  intros Hok%(a_ok_touch (now e)). unfold a_Update. set (b := a_touch (now e) a) in *.
  destruct (a_units b !! GetUnitIdentifier new) as [[q u]|] eqn:E.
  - apply a_ok_put; [done|]. apply updateInUnit_ok. apply (ok_units _ Hok _ _ _ E).
  - destruct (a_create e new b) as [u|] eqn:Ec.
    + apply a_ok_put; [by apply wait_ok_delete|]. by eapply a_create_ok.
    + unfold a_update_waiting. apply a_ok_set_pods; [done|]. apply a_create_error in Ec.
      destruct (pods_at _ _ !! UID old) as [o|]; intros uid x;
        (destruct (decide (UID new = uid)) as [<-|Hne];
         [rw lookup_insert_eq; by intros [= <-]|rw lookup_insert_ne //]).
      * intros [_ Hx]%lookup_delete_Some. by eapply pods_at_ok.
      * by apply pods_at_ok.
Qed.

Lemma a_ok_Delete e pod a : a_ok a → a_ok (a_Delete e pod a).
Proof.
  intros Hok0. unfold a_Delete. set (k := GetUnitIdentifier pod). set (b := a_set_waiting _ _).
  assert (Hok : a_ok b).
  { unfold b. apply (a_ok_set_pods k _ (a_touch (now e) a)); [by apply a_ok_touch|].
    intros uid i [_ Hi]%lookup_delete_Some. by eapply pods_at_ok. }
  clearbody b. destruct (a_units b !! k) as [[q u]|] eqn:E; [|done].
  set (u' := on_unit _ u). destruct (ok_units _ Hok _ _ _ E) as [Hk [_ Hkeyed]].
  destruct Hok as [Hu Hw Hp]. destruct (decide (NumPods (unit_ u') = 0)) as [Hz|Hz].
  - split; simpl; [|done|].
    + intros j q' v [_ Hv]%lookup_delete_Some. by eapply Hu.
    + intros j v [Hj Hv]%lookup_delete_Some. rw lookup_delete_ne //. by apply Hp.
  - split; simpl; [|done|].
    + intros j q' v. destruct (decide (k = j)) as [<-|Hj].
      * rw lookup_insert_eq. intros [= <- <-]. split; [done|]. split; [fold u'; lia|by apply DeletePod_keyed].
      * rw lookup_insert_ne //. apply Hu.
    + intros j v Hv. destruct (Hp _ _ Hv) as (q' & v' & Hv' & Hpr).
      destruct (decide (k = j)) as [<-|Hj]; [|rw lookup_insert_ne //; eauto].
      rw lookup_insert_eq. eexists _, u'. split; [done|]. rw Hpr. rw E in Hv'. simplify_eq.
      unfold u', GetPriority. simpl. unfold u' in Hz. simpl in Hz.
      destruct (unit_ v') as [g|s]; [done|]. simpl in Hz. done.
Qed.

(** Changes that keep every unit in the queue, possibly elsewhere. *)
Lemma a_ok_relocate (g : SubQueue * QueuedUnitInfo → SubQueue * QueuedUnitInfo) a :
  (∀ x, (g x).2 = x.2) → a_ok a → a_ok (a_set_units (g <$> a_units a) a).
Proof.
  intros Hg [Hu Hw Hp]. split; simpl; [|done|].
  - intros k q u. rw lookup_fmap_Some. intros ([q' v] & Hx & Hv).
    pose proof (Hg (q', v)) as Hgv. rw Hx in Hgv. simpl in Hgv. subst v. by eapply Hu.
  - intros k v Hv. destruct (Hp _ _ Hv) as (q & u & Hk & Hpr). rw lookup_fmap Hk /=.
    destruct (g (q, u)) as [q' u'] eqn:E. exists q', u'. split; [done|].
    pose proof (Hg (q, u)) as Hgu. rw E in Hgu. simpl in Hgu. by subst.
Qed.

Lemma a_ok_move q f dst a : a_ok a → a_ok (a_move_units q f dst a).
Proof. apply a_ok_relocate. intros [q' u]. by destruct ((_ ≟ q) && _). Qed.

Lemma a_ok_cycles c m a : a_ok a → a_ok (a_set_cycles c m a).
Proof. by intros []. Qed.

(** Units made of waiting pods join the queue. *)
Lemma a_ok_join (made : gmap string (SubQueue * QueuedUnitInfo)) w a :
  a_ok a → (∀ k x, w !! k = Some x → a_waiting a !! k = Some x) →
  (∀ k q u, made !! k = Some (q, u) → UnitKey u = k ∧ unit_ok (unit_ u) ∧ a_units a !! k = None) →
  a_ok (a_set_waiting w (a_set_units (made ∪ a_units a) a)).
Proof.
  intros [Hu Hw Hp] Hsub Hm. split; simpl.
  - intros k q u [Hk|[_ Hk]]%lookup_union_Some_raw; [|by eapply Hu].
    destruct (Hm _ _ _ Hk) as (? & ? & _). done.
  - intros k x Hx. by apply Hw, Hsub.
  - intros k v Hv. destruct (Hp _ _ Hv) as (q & u & Hk & Hpr). exists q, u. split; [|done].
    rw lookup_union_r //. destruct (made !! k) as [[q' u']|] eqn:E; [|done].
    destruct (Hm _ _ _ E) as (_ & _ & ?). congruence.
Qed.

(** *** Waiting keys stay apart from queued keys *)

Lemma separate_put q u a :
  separate a → a_waiting a !! UnitKey u = None → separate (a_put q u a).
Proof.
  intros Hs Hn k Hk. simpl in *. rw lookup_insert_ne; [by apply Hs|].
  intros <-. by rw Hn in Hk; destruct Hk.
Qed.

(** A unit that was in the queue already. *)
Lemma separate_known a k q u : separate a → a_units a !! k = Some (q, u) → a_waiting a !! k = None.
Proof.
  intros Hs Hk. destruct (a_waiting a !! k) as [w|] eqn:E; [|done].
  rw Hs in Hk; [done|]. by exists w.
Qed.

Lemma separate_delete_waiting k a : separate a → separate (a_set_waiting (delete k (a_waiting a)) a).
Proof. intros Hs j [w Hw]. simpl in Hw. apply lookup_delete_Some in Hw as [_ Hw]. apply Hs. by exists w. Qed.

Lemma separate_set_pods k m a :
  separate a → a_units a !! k = None → separate (a_set_waiting (set_pods_at k m (a_waiting a)) a).
Proof.
  intros Hs Hk j Hj. simpl in *. destruct (decide (k = j)) as [<-|Hne]; [done|].
  apply Hs. unfold set_pods_at in Hj.
  by destruct (decide (m = ∅)); [rw lookup_delete_ne // in Hj|rw lookup_insert_ne // in Hj].
Qed.

Lemma separate_Add e pod a : a_ok a → separate a → separate (a_Add e pod a).
Proof.
  intros Hok%(a_ok_touch (now e)) Hs0. assert (Hs : separate (a_touch (now e) a)) by done.
  unfold a_Add. set (b := a_touch (now e) a) in *.
  destruct (a_units b !! GetUnitIdentifier pod) as [[q u]|] eqn:E.
  - apply separate_put; [done|]. simpl. destruct (ok_units _ Hok _ _ _ E) as [-> _].
    by eapply (separate_known b).
  - destruct (a_create e pod b) as [u|] eqn:Ec.
    + apply separate_put; [by apply separate_delete_waiting|].
      destruct (a_create_ok _ _ _ _ Ec) as [-> _]. by rw /= lookup_delete_eq.
    + by apply separate_set_pods.
Qed.

Lemma separate_Update i m e old new a : a_ok a → separate a → separate (a_Update i m e old new a).
Proof.
  intros Hok%(a_ok_touch (now e)) Hs0. assert (Hs : separate (a_touch (now e) a)) by done.
  unfold a_Update. set (b := a_touch (now e) a) in *.
  destruct (a_units b !! GetUnitIdentifier new) as [[q u]|] eqn:E.
  - apply separate_put; [done|]. simpl. destruct (ok_units _ Hok _ _ _ E) as [-> _].
    by eapply (separate_known b).
  - destruct (a_create e new b) as [u|] eqn:Ec.
    + apply separate_put; [by apply separate_delete_waiting|].
      destruct (a_create_ok _ _ _ _ Ec) as [-> _]. by rw /= lookup_delete_eq.
    + by apply separate_set_pods.
Qed.

Lemma pods_at_none w k : w !! k = None → pods_at w k = ∅.
Proof. intros H. unfold pods_at. by rw H. Qed.

Lemma set_pods_at_empty k w : set_pods_at k ∅ w = delete k w.
Proof. unfold set_pods_at. by destruct (decide (∅ = ∅)). Qed.

Lemma separate_Delete e pod a : separate a → separate (a_Delete e pod a).
Proof.
  intros Hs0. unfold a_Delete. set (k := GetUnitIdentifier pod). set (b := a_set_waiting _ _).
  assert (Hs : separate b).
  { unfold b. destruct (a_units a !! k) as [[q u]|] eqn:E.
    - rw (pods_at_none _ _ (separate_known _ _ _ _ Hs0 E)) delete_empty set_pods_at_empty.
      by apply (separate_delete_waiting k (a_touch (now e) a)).
    - by apply (separate_set_pods k _ (a_touch (now e) a)). }
  clearbody b. destruct (a_units b !! k) as [[q u]|] eqn:E; [|done].
  destruct (decide _) as [Hz|Hz]; intros j Hj; simpl in *.
  - destruct (decide (k = j)) as [<-|]; [by rw lookup_delete_eq|]. rw lookup_delete_ne //. by apply Hs.
  - rw lookup_insert_ne; [by apply Hs|]. intros <-. by rw (Hs _ Hj) in E.
Qed.

Lemma separate_move q f dst a : separate a → separate (a_move_units q f dst a).
Proof. intros Hs k Hk. simpl in *. by rw lookup_fmap (Hs k Hk). Qed.

Lemma activate_union e k a u :
  a_units a !! k = None →
  <[k := (readyOrWaiting e u, u)]> (a_units a) = {[k := (readyOrWaiting e u, u)]} ∪ a_units a.
Proof. intros _. by rw insert_union_singleton_l. Qed.

Lemma Activate_ok e k a :
  env_ok e → a_ok a → separate a → a_ok (a_activate e k a) ∧ separate (a_activate e k a).
Proof.
  intros He Hok Hs. unfold a_activate. destruct (a_waiting a !! k) as [w|] eqn:Hw; [|done].
  cbn [mbind option_bind]. destruct (transferToPodGroupUnit e w) as [u|] eqn:Ht; [|done].
  assert (Hn : a_units a !! k = None) by (apply Hs; by exists w).
  split.
  - rw (activate_union e k a u Hn). apply a_ok_join; [done| |].
    + by intros j x [_ ?]%lookup_delete_Some.
    + intros j q v [<- [= <- <-]]%lookup_singleton_Some. split_and!; [|by eapply transfer_ok|done].
      by eapply transfer_key; [|apply (ok_waiting _ Hok _ _ Hw)|].
  - intros j [x Hx]. simpl in *. apply lookup_delete_Some in Hx as [Hj Hx].
    rw lookup_insert_ne //. apply Hs. by exists x.
Qed.

Lemma flush_pods_ok e a :
  env_ok e → a_ok a → separate a → a_ok (a_flush_pods e a) ∧ separate (a_flush_pods e a).
Proof.
  intros He Hok Hs. unfold a_flush_pods. split.
  - apply a_ok_join; [done| |].
    + by intros j x [? _]%map_lookup_filter_Some.
    + intros k q u. rw lookup_fmap_Some. intros (v & [= <- <-] & Hv).
      apply lookup_omap_Some in Hv as (w & Ht & Hw).
      split_and!; [|by eapply transfer_ok|apply Hs; by exists w].
      by eapply transfer_key; [|apply (ok_waiting _ Hok _ _ Hw)|].
  - intros k [w Hw]. simpl in *. apply map_lookup_filter_Some in Hw as [Hw Ht].
    apply lookup_union_None. split; [|apply Hs; by exists w].
    rw lookup_fmap lookup_omap Hw /=. by rw Ht.
Qed.

(** ** The operations together *)

Inductive QueueOp :=
  | OpAdd (e : Env) (pod : Pod)
  | OpUpdate (e : Env) (oldPod newPod : Pod)
  | OpDelete (e : Env) (pod : Pod)
  | OpAddUnschedulable (e : Env) (u : QueuedUnitInfo) (cycle : Z)
  | OpPop | OpClose
  | OpFlushBackoff (e : Env) | OpFlushWaiting (e : Env) | OpFlushUnschedulable (e : Env)
  | OpMoveAll (e : Env) | OpAssignedPod (e : Env) (matches : Pod → Pod → bool) (pod : Pod)
  | OpFlushWaitingPods (e : Env) | OpActivate (e : Env) (unitKey : string).

Section operations.
Context (lessFn : QueuedUnitInfo → QueuedUnitInfo → bool) (initialDuration maxDuration : Z)
  (dynamicPriority : bool) (step : Z).

Definition no_out (r : option PriorityQueue) : option (PriorityQueue * option PopResult) :=
  p ← r; Some (p, None).

Definition exec (op : QueueOp) (p : PriorityQueue) : option (PriorityQueue * option PopResult) :=
  let L := lessFn in let i := initialDuration in let m := maxDuration in
  match op with
  | OpAdd e pod => no_out (Add L i m e pod p)
  | OpUpdate e old new => no_out (Update L i m e old new p)
  | OpDelete e pod => no_out (Delete L i m e pod p)
  | OpAddUnschedulable e u c => no_out (AddUnschedulableIfNotPresent L i m e u c p)
  | OpPop => r ← Pop L i m dynamicPriority step p; Some (r.1, Some r.2)
  | OpClose => Some (Close p, None)
  | OpFlushBackoff e => no_out (flushBackoffQCompleted L i m e p)
  | OpFlushWaiting e => no_out (flushScheduledUnitsInWaitingQ L i m e p)
  | OpFlushUnschedulable e => no_out (flushUnschedulableQLeftover L i m e p)
  | OpMoveAll e => no_out (MoveAllToActiveOrBackoffQueue L i m e p)
  | OpAssignedPod e matches pod => no_out (AssignedPodAdded L i m e matches pod p)
  | OpFlushWaitingPods e => no_out (flushWaitingPodsList L i m e p)
  | OpActivate e k => no_out (ActivePodGroupUnit L i m e k p)
  end.

Definition a_close (a : AbsQueue) : AbsQueue :=
  mkAbs (a_units a) (a_waiting a) (a_prio a) (a_cycle a) (a_move a) true (a_time a).

(** The same operations on the abstract queue. *)
Definition a_exec (op : QueueOp) (a : AbsQueue) : AbsQueue :=
  let i := initialDuration in let m := maxDuration in
  match op with
  | OpAdd e pod => a_Add e pod a
  | OpUpdate e old new => a_Update i m e old new a
  | OpDelete e pod => a_Delete e pod a
  | OpAddUnschedulable e u c => a_AddUnschedulable e u c a
  | OpPop => a
  | OpClose => a_close a
  | OpFlushBackoff e => a_move_units backoffQ (λ u, negb (isUnitBackoff i m e u)) (λ _, readyQ) a
  | OpFlushWaiting e => a_move_units waitingQ (readyToBeScheduled e) (λ _, readyQ) a
  | OpFlushUnschedulable e =>
      a_move_request i m e (λ u, (unschedulableQTimeInterval <? now e - Timestamp u)%Z
                                 && negb (schedulingStatusTimeout e u)) a
  | OpMoveAll e => a_move_request i m e (λ u, negb (schedulingStatusTimeout e u)) a
  | OpAssignedPod e matches pod =>
      a_move_request i m e (λ u, existsb (λ i, matches pod (qp_Pod i)) (GetPods (podOrder e) (unit_ u))
                                 && negb (schedulingStatusTimeout e u)) a
  | OpFlushWaitingPods e => a_flush_pods e a
  | OpActivate e k => a_activate e k a
  end.

Definition spec_step (op : QueueOp) (a : AbsQueue) (out : option PopResult) (a' : AbsQueue) : Prop :=
  match op, out with
  | OpPop, Some r => a_Pop lessFn dynamicPriority step a r a'
  | OpPop, None => False
  | _, Some _ => False
  | _, None => a' = a_exec op a
  end.

Definition op_env (op : QueueOp) : option Env :=
  match op with
  | OpAdd e _ | OpUpdate e _ _ | OpDelete e _ | OpAddUnschedulable e _ _
  | OpFlushBackoff e | OpFlushWaiting e | OpFlushUnschedulable e
  | OpMoveAll e | OpAssignedPod e _ _ | OpFlushWaitingPods e | OpActivate e _ => Some e
  | OpPop | OpClose => None
  end.

(** What the theorems require of an operation: a sane environment; a unit that is
    given back keeps its pods by UID, and no pods of it wait for its pod group.
    The scheduler does not always respect the last point: while a popped unit is
    tried, its pod group can be deleted and new pods of it arrive, which then wait
    (priority_queue.go:607, see [activated_unit_overwritten] of SchedQueueProps). *)
Definition op_ok (op : QueueOp) (a : AbsQueue) : Prop :=
  from_option env_ok True (op_env op) ∧
  match op with
  | OpAddUnschedulable _ u _ => a_waiting a !! UnitKey u = None ∧ unit_keyed (unit_ u)
  | _ => True
  end.

Definition queue_inv (p : PriorityQueue) : Prop :=
  heaps_ok lessFn initialDuration maxDuration p ∧ disjoint p ∧ a_ok (abs p) ∧ separate (abs p).

Lemma no_out_R (r : option PriorityQueue) a :
  (∃ p', r = Some p' ∧ R lessFn initialDuration maxDuration p' a) → a_ok a → separate a →
  ∃ p' out, no_out r = Some (p', out) ∧ queue_inv p' ∧ out = None ∧ abs p' = a.
Proof. intros (p' & -> & Hh & Hd & ->) Hok Hs. by exists p', None. Qed.

Lemma a_Pop_ok a out a' :
  a_ok a → separate a → a_Pop lessFn dynamicPriority step a out a' → a_ok a' ∧ separate a'.
Proof.
  intros [Hu Hw Hp] Hs. destruct out; simpl; [|by intros (_ & _ & ->)..|done].
  intros (v & mp & _ & _ & _ & _ & ->). split.
  - split; simpl; [|done|].
    + intros j q x [_ Hx]%lookup_delete_Some. by eapply Hu.
    + intros j x [Hj Hx]%lookup_delete_Some. rw lookup_delete_ne //. by apply Hp.
  - intros j Hj. simpl in *. destruct (decide (UnitKey v = j)) as [<-|]; [by rw lookup_delete_eq|].
    rw lookup_delete_ne //. by apply Hs.
Qed.

Lemma exec_step op p :
  queue_inv p → op_ok op (abs p) →
  ∃ p' out, exec op p = Some (p', out) ∧ queue_inv p' ∧ spec_step op (abs p) out (abs p').
Proof.
  intros (Hh & Hd & Hok & Hs) [He Ho].
  assert (HR : R lessFn initialDuration maxDuration p (abs p)) by done.
  assert (Hmap : ∀ r a, (∃ p', r = Some p' ∧ R lessFn initialDuration maxDuration p' a) →
    a_ok a → separate a →
    ∃ p' out, no_out r = Some (p', out) ∧ queue_inv p' ∧
      match out with None => abs p' = a | Some _ => False end).
  { intros r a H1 H2 H3. destruct (no_out_R r a H1 H2 H3) as (p' & out & ? & ? & -> & ?). by exists p', None. }
  assert (Hreq : ∀ e f, a_ok (a_move_request initialDuration maxDuration e f (abs p)) ∧
     separate (a_move_request initialDuration maxDuration e f (abs p))).
  { intros e f. split; [by apply a_ok_cycles, a_ok_move|by apply (separate_move unschedulableQ)]. }
  destruct op as [e pod|e old new|e pod|e u c| | |e|e|e|e|e matches pod|e|e k];
    cbn [exec spec_step a_exec op_env from_option] in *.
  - apply Hmap; [by apply Add_R|by apply a_ok_Add|by apply separate_Add].
  - apply Hmap; [by apply Update_R|by apply a_ok_Update|by apply separate_Update].
  - apply Hmap; [by apply Delete_R|by apply a_ok_Delete|by apply separate_Delete].
  - destruct Ho as [Ho Hku].
    apply Hmap; [by apply AddUnschedulable_R|by apply a_ok_Unschedulable|].
    unfold a_AddUnschedulable. destruct (decide _); [done|]. apply separate_put; [done|].
    by destruct (a_units _ !! UnitKey u) as [[]|].
  - destruct (Pop_R lessFn initialDuration maxDuration dynamicPriority step p _ HR)
      as (p' & out & -> & a' & (Hh' & Hd' & ->) & Hpop).
    exists p', (Some out). split; [done|]. split; [|done].
    destruct (a_Pop_ok _ _ _ Hok Hs Hpop). done.
  - exists (Close p), None. split; [done|]. split; [|done]. destruct Hh as [Hsub Hp Hw].
    split_and!; [split; [intros q; specialize (Hsub q); by destruct q|done|done]| |by destruct Hok|done].
    by eapply sub_frame; [intros []|].
  - apply Hmap; [by apply flushBackoff_R|by apply a_ok_move|by apply separate_move].
  - apply Hmap; [by apply flushScheduled_R|by apply a_ok_move|by apply separate_move].
  - apply Hmap; [by apply request_R|apply Hreq|apply Hreq].
  - apply Hmap; [by apply request_R|apply Hreq|apply Hreq].
  - apply Hmap; [by apply request_R|apply Hreq|apply Hreq].
  - destruct (flush_pods_ok e _ He Hok Hs). apply Hmap; [by apply flushPods_R|done|done].
  - destruct (Activate_ok e k _ He Hok Hs). apply Hmap; [|done|done].
    apply Activate_R; [done|done|done|]. intros q u. by apply separate_known.
Qed.

Lemma new_inv e : queue_inv (NewPriorityQueue e).
Proof.
  assert (Hd : ∀ q k, contents (sub q (NewPriorityQueue e)) !! k = None) by by intros [] k.
  assert (Hn : ∀ {O} (kf : O → option string) lf, heap_inv kf lf newHeap).
  { intros. exists []. by apply heap_rep_new. }
  split_and!.
  - split; [by intros []; apply Hn|exists []; by apply heap_rep_new|apply Hn].
  - intros q1 q2 k u1 u2 H1. by rw Hd in H1.
  - split; [|done|done]. intros k q u Hk. rw abs_lookup in Hk; [by rw Hd in Hk|].
    intros q1 q2 k' u1 u2 H1. by rw Hd in H1.
  - intros k [w Hw]. done.
Qed.

Inductive queue_reachable : PriorityQueue → Prop :=
  | qr_new e : queue_reachable (NewPriorityQueue e)
  | qr_step op p p' out :
      queue_reachable p → op_ok op (abs p) → exec op p = Some (p', out) → queue_reachable p'.

Lemma queue_reachable_inv p : queue_reachable p → queue_inv p.
Proof.
  induction 1 as [e|op p p' out _ Hi Ho He]; [apply new_inv|].
  destruct (exec_step op p Hi Ho) as (p1 & out1 & He1 & Hi1 & _). congruence.
Qed.
End operations.

