(* ===== verification/SchedQueueProps.v ===== *)
(** * The scheduling queue: properties

    What the refinement gives the scheduler: which pods an operation can lose, that
    the ticks of the timers make every failed unit ready again that has not timed
    out, the backoff durations and scores, and the cases in which the queue does
    not behave as its comments say. *)
From S2P Require Import Prelude ContainerHeap KeyedHeap GoStrings PodModel Units SchedQueue SchedQueueRefine.

Local Open Scope godel_scope.
Local Open Scope string_scope.

(** ** Backoff and score *)

Lemma backoff_loop_spec maxDuration n d :
  (0 < d ≤ maxDuration)%Z → (maxDuration ≤ i64_max)%Z →
  backoff_loop maxDuration n d = Z.min maxDuration (d * 2 ^ Z.of_nat n).
Proof.
  intros Hd Hm. revert d Hd. induction n as [|n IH]; intros d Hd; cbn [backoff_loop].
  - rw Z.mul_1_r Z.min_r; lia.
  - unfold i64_max in Hm. rw (wrap64_id (maxDuration - d)); [|unfold in_i64, i64_min, i64_max; lia].
    assert (Hp : (0 < 2 ^ Z.of_nat n)%Z) by lia.
    rw Nat2Z.inj_succ Z.pow_succ_r; [|lia].
    destruct (Z.ltb_spec (maxDuration - d) d).
    + rw Z.min_l; [done|]. nia.
    + rw wrap64_id; [|unfold in_i64, i64_min, i64_max; lia]. rw IH; [|lia]. f_equal. lia.
Qed.

(** The pods of a unit by UID. *)
Definition unit_has (su : ScheduleUnit) (uid : string) : Prop :=
  match su with
  | PGU u => is_Some (queuedPodInfoMap u !! uid)
  | SPU s => ∃ i, spu_Pod s = Some i ∧ UID (qp_Pod i) = uid
  end.

(** The queue holds the pod [uid] of the unit [k], in a sub-queue or among the
    pods that wait for their pod group. *)
Definition holds (a : AbsQueue) (k uid : string) : Prop :=
  (∃ q u, a_units a !! k = Some (q, u) ∧ unit_has (unit_ u) uid) ∨
  is_Some (pods_at (a_waiting a) k !! uid).

Lemma foldl_insert_has (l : list QueuedPodInfo) (m : gmap string QueuedPodInfo) uid :
  is_Some (m !! uid) ∨ (∃ i, i ∈ l ∧ UID (qp_Pod i) = uid) →
  is_Some (foldl (λ m i, <[UID (qp_Pod i) := i]> m) m l !! uid).
Proof.
  revert m. induction l as [|i l IH]; intros m H; simpl.
  - destruct H as [H|(i & H%not_elem_of_nil & _)]; done.
  - apply IH. destruct H as [H|(j & Hj & Hu)].
    + left. destruct (decide (UID (qp_Pod i) = uid)) as [<-|]; [rw lookup_insert_eq; eauto|].
      by rw lookup_insert_ne.
    + apply elem_of_cons in Hj as [->|Hj]; [|right; eauto]. left. rw -Hu lookup_insert_eq. eauto.
Qed.

Lemma foldl_AddPod_group l u :
  foldl (λ s i, AddPod i s) (PGU u) l =
  PGU (with_pods (foldl (λ m i, <[UID (qp_Pod i) := i]> m) (queuedPodInfoMap u) l) u).
Proof. revert u. induction l as [|i l IH]; intros [] ; [done|]. simpl. by rw IH. Qed.

Lemma AddPod_has_new i su : unit_has (AddPod i su) (UID (qp_Pod i)).
Proof. destruct su as [u|s]; simpl; [rw lookup_insert_eq|]; eauto. Qed.

Lemma AddPod_has i su uid :
  Type_ su = PodGroupUnitType → unit_has su uid → unit_has (AddPod i su) uid.
Proof.
  destruct su as [u|s]; [|done]. simpl. intros _ H.
  destruct (decide (UID (qp_Pod i) = uid)) as [<-|]; [rw lookup_insert_eq; eauto|].
  by rw lookup_insert_ne.
Qed.

(** The unit made of waiting pods has every one of them. *)
Lemma transfer_has e k w u uid :
  env_ok e → wait_ok k w → transferToPodGroupUnit e w = Some u →
  is_Some (wp_pods w !! uid) → unit_has (unit_ u) uid.
Proof.
  intros He (_ & _ & Hw). unfold transferToPodGroupUnit.
  intros (i & Hi & (su & Hc & [= <-])%bind_Some)%bind_Some [j Hj]. simpl.
  assert (Hin : i ∈ podOrder e (wp_pods w)).
  { destruct (podOrder e (wp_pods w)); [done|]. injection Hi as ->. by left. }
  rw (env_pods _ He) in Hin. apply list_elem_of_fmap in Hin as ([uid' i'] & -> & Hi'%elem_of_map_to_list).
  destruct (Hw _ _ Hi') as (_ & _ & Hg). unfold CreateScheduleUnit in Hc.
  rw bool_decide_eq_false_2 // in Hc. simpl in Hc.
  apply bind_Some in Hc as (g & _ & (pr & _ & [= <-])%bind_Some).
  rw foldl_AddPod_group /=. apply foldl_insert_has. right. exists j.
  split; [|apply (Hw _ _ Hj)]. rw (env_pods _ He). apply list_elem_of_fmap. exists (uid, j).
  split; [done|]. by apply elem_of_map_to_list.
Qed.

Lemma holds_move q f dst a k uid : holds (a_move_units q f dst a) k uid ↔ holds a k uid.
Proof.
  unfold holds. simpl. rw lookup_fmap. split; intros [(q' & u & Hk & Hu)|?]; [|by right| |by right]; left.
  - destruct (a_units a !! k) as [[q1 u1]|] eqn:E; [|done]. simpl in Hk.
    exists q1, u. split; [|done]. destruct ((_ ≟ q) && _); congruence.
  - rw Hk /=. destruct ((_ ≟ q) && _); eauto.
Qed.

Lemma holds_activate e k' a k uid :
  env_ok e → a_ok a → holds a k uid → separate a → holds (a_activate e k' a) k uid.
Proof.
  intros He Hok Hh Hs. unfold a_activate. destruct (a_waiting a !! k') as [w|] eqn:Hw; [|done].
  cbn [mbind option_bind]. destruct (transferToPodGroupUnit e w) as [u|] eqn:Ht; [|done].
  unfold holds. simpl. destruct (decide (k' = k)) as [->|Hk].
  - left. rw lookup_insert_eq. eexists _, u. split; [done|]. destruct Hh as [(q & v & Hv & _)|Hh].
    { rw Hs in Hv; [done|]. by exists w. }
    unfold pods_at in Hh. rw Hw in Hh. eapply transfer_has; [done| |done|done].
    by apply (ok_waiting _ Hok).
  - rw lookup_insert_ne //. destruct Hh as [?|Hh]; [by left|right]. unfold pods_at in *.
    by rw lookup_delete_ne.
Qed.

Lemma holds_flush_pods e a k uid :
  env_ok e → a_ok a → holds a k uid → separate a → holds (a_flush_pods e a) k uid.
Proof.
  intros He Hok Hh Hs. unfold holds, a_flush_pods. simpl.
  rw lookup_union lookup_fmap lookup_omap. unfold pods_at. rw map_lookup_filter.
  destruct Hh as [(q & u & Hk & Hu)|Hh].
  - left. rw (separate_known _ _ _ _ Hs Hk) Hk /=. by exists q, u.
  - unfold pods_at in Hh. destruct (a_waiting a !! k) as [w|] eqn:Hw; [|by destruct Hh].
    simpl in *. destruct (transferToPodGroupUnit e w) as [u|] eqn:Ht.
    + left. eexists _, u. split; [by destruct (a_units a !! k)|].
      eapply transfer_has; [done|by apply (ok_waiting _ Hok)|done|done].
    + right. by rw option_guard_True.
Qed.

Lemma holds_put q u a k uid :
  (k ≠ UnitKey u ∧ holds a k uid) ∨ (k = UnitKey u ∧ unit_has (unit_ u) uid) →
  holds (a_put q u a) k uid.
Proof.
  unfold holds. simpl. intros [[Hk H]|[-> H]].
  - by rw lookup_insert_ne.
  - left. rw lookup_insert_eq. eauto.
Qed.

Lemma holds_delete_waiting a k j uid :
  k ≠ j → holds a k uid → holds (a_set_waiting (delete j (a_waiting a)) a) k uid.
Proof.
  intros Hk [H|H]; [by left|right]. unfold pods_at in *. simpl. by rw lookup_delete_ne.
Qed.

Lemma pods_at_set k j m w :
  pods_at (set_pods_at j m w) k = if decide (j = k) then m else pods_at w k.
Proof.
  unfold pods_at, set_pods_at. destruct (decide (m = ∅)) as [->|Hm].
  - destruct (decide (j = k)) as [->|]; [by rw lookup_delete_eq|by rw lookup_delete_ne].
  - destruct (decide (j = k)) as [->|]; [by rw lookup_insert_eq|by rw lookup_insert_ne].
Qed.

(** The unit made of a pod has that pod and the pods that waited for it. *)
Lemma a_create_has e pod a u uid :
  env_ok e → a_ok a → a_create e pod a = Some u →
  unit_has (unit_ u) (UID pod) ∧
  (is_Some (pods_at (a_waiting a) (GetUnitIdentifier pod) !! uid) → unit_has (unit_ u) uid).
Proof.
  intros He Hok. unfold a_create. intros (su & Hc & [= <-])%bind_Some. simpl.
  apply create_single in Hc as [[Hg ->]|(Hg & g & pr & _ & ->)]; simpl.
  - split; [eauto|]. unfold pods_at. rw (single_no_waiting a pod Hok Hg). by intros [? ?].
  - split; [|intros [i Hi]]; apply foldl_insert_has.
    + left. simpl. rw lookup_insert_eq. eauto.
    + right. exists i. split; [|by eapply pods_at_ok].
      rw (env_pods _ He). apply list_elem_of_fmap. exists (uid, i). split; [done|].
      by apply elem_of_map_to_list.
Qed.

(** A single-pod unit is queued under the key. *)
Definition single_at (a : AbsQueue) (k : string) : Prop :=
  ∃ q u, a_units a !! k = Some (q, u) ∧ Type_ (unit_ u) = SinglePodUnitType.

Lemma not_single a k q u :
  ¬ single_at a k → a_units a !! k = Some (q, u) → Type_ (unit_ u) = PodGroupUnitType.
Proof.
  intros Hs Hk. destruct (Type_ (unit_ u)) eqn:E; [done|]. destruct Hs. by exists q, u.
Qed.

Lemma holds_Add e pod a :
  env_ok e → a_ok a → separate a →
  holds (a_Add e pod a) (GetUnitIdentifier pod) (UID pod) ∧
  ∀ k uid, holds a k uid → ¬ (k = GetUnitIdentifier pod ∧ single_at a k) → holds (a_Add e pod a) k uid.
Proof.
  intros He Hok0 Hs0. unfold a_Add. pose proof (a_ok_touch (now e) _ Hok0) as Hok.
  set (j := GetUnitIdentifier pod). change (a_units (a_touch (now e) a)) with (a_units a).
  destruct (a_units a !! j) as [[q u]|] eqn:E.
  - destruct (ok_units _ Hok _ _ _ E) as [Hk _].
    set (u' := on_unit (AddPod (newQueuedPodInfo e pod)) u).
    assert (Hk' : UnitKey u' = j) by done. split.
    + apply holds_put. right. split; [done|]. apply (AddPod_has_new (newQueuedPodInfo e pod) (unit_ u)).
    + intros k uid Hh Hns. apply holds_put. destruct (decide (k = j)) as [->|]; [right|left].
      * split; [done|]. destruct Hh as [(q' & v & Hv & Hh)|[i Hi]].
        -- assert (v = u) as -> by congruence. apply AddPod_has; [|done].
           eapply not_single; [|done]. intros ?. by apply Hns.
        -- by rw (pods_at_none _ _ (separate_known _ _ _ _ Hs0 E)) in Hi.
      * by rw Hk'.
  - destruct (a_create e pod (a_touch (now e) a)) as [u|] eqn:Ec.
    + destruct (a_create_ok _ _ _ _ Ec) as [Hk _]. split.
      * apply holds_put. right. split; [done|]. by eapply (a_create_has e pod _ u "").
      * intros k uid Hh _. apply holds_put. rw Hk. destruct (decide (k = j)) as [->|]; [right|left].
        -- split; [done|]. eapply a_create_has; [done|done|done|].
           destruct Hh as [(q' & v & Hv & _)|Hi]; [congruence|done].
        -- split; [done|]. by apply (holds_delete_waiting (a_touch (now e) a)).
    + unfold holds, a_wait_pod. simpl. split.
      * right. rw pods_at_set decide_True // lookup_insert_eq. eauto.
      * intros k uid [Hh|[i Hi]] _; [by left|right]. rw pods_at_set. fold j.
        destruct (decide (j = k)) as [->|]; [|eauto].
        destruct (decide (UID pod = uid)) as [<-|]; [rw lookup_insert_eq; eauto|].
        by rw lookup_insert_ne.
Qed.

Lemma updateInUnit_has_new e old new su : unit_has (updateInUnit e old new su) (UID new).
Proof.
  unfold updateInUnit. destruct (GetPod _ su) as [o|].
  - apply (AddPod_has_new (updatePodInfo o new)).
  - apply (AddPod_has_new (newQueuedPodInfo e new)).
Qed.

Lemma updateInUnit_has e old new su uid :
  Type_ su = PodGroupUnitType → unit_keyed su → uid ≠ UID old →
  unit_has su uid → unit_has (updateInUnit e old new su) uid.
Proof.
  intros Ht Hk Hne Hh. unfold updateInUnit. destruct (GetPod _ su) as [o|] eqn:Ho; [|by apply AddPod_has].
  apply AddPod_has; [by destruct su|]. destruct su as [u|s]; [|done]. simpl in *.
  apply Hk in Ho as Hu. rw lookup_delete_ne //. by rw Hu.
Qed.

Lemma holds_Update i m e old new a :
  env_ok e → a_ok a → separate a →
  holds (a_Update i m e old new a) (GetUnitIdentifier new) (UID new) ∧
  ∀ k uid, holds a k uid → ¬ (k = GetUnitIdentifier new ∧ (uid = UID old ∨ single_at a k)) →
    holds (a_Update i m e old new a) k uid.
Proof.
  intros He Hok0 Hs0. unfold a_Update. pose proof (a_ok_touch (now e) _ Hok0) as Hok.
  set (j := GetUnitIdentifier new). change (a_units (a_touch (now e) a)) with (a_units a).
  destruct (a_units a !! j) as [[q u]|] eqn:E.
  - destruct (ok_units _ Hok _ _ _ E) as (Hk & _ & Hkeyed). set (u' := on_unit _ u).
    assert (Hk' : UnitKey u' = j) by done. split.
    + apply holds_put. right. split; [done|]. apply (updateInUnit_has_new e old new (unit_ u)).
    + intros k uid Hh Hns. apply holds_put. destruct (decide (k = j)) as [->|]; [right|left].
      * split; [done|]. destruct Hh as [(q' & v & Hv & Hh)|[x Hx]].
        -- assert (v = u) as -> by congruence. apply updateInUnit_has; [|done|naive_solver|done].
           eapply not_single; [|done]. naive_solver.
        -- by rw (pods_at_none _ _ (separate_known _ _ _ _ Hs0 E)) in Hx.
      * by rw Hk'.
  - destruct (a_create e new (a_touch (now e) a)) as [u|] eqn:Ec.
    + destruct (a_create_ok _ _ _ _ Ec) as [Hk _]. split.
      * apply holds_put. right. split; [done|]. by eapply (a_create_has e new _ u "").
      * intros k uid Hh _. apply holds_put. rw Hk. destruct (decide (k = j)) as [->|]; [right|left].
        -- split; [done|]. eapply a_create_has; [done|done|done|].
           destruct Hh as [(q' & v & Hv & _)|Hi]; [congruence|done].
        -- split; [done|]. by apply (holds_delete_waiting (a_touch (now e) a)).
    + unfold holds, a_update_waiting. simpl. split.
      * right. rw pods_at_set decide_True //. destruct (_ !! UID old); rw lookup_insert_eq; eauto.
      * intros k uid [Hh|[x Hx]] Hns; [by left|right]. rw pods_at_set. fold j.
        destruct (decide (j = k)) as [<-|]; [|eauto].
        destruct (decide (UID new = uid)) as [<-|Hne];
          [destruct (_ !! UID old); rw lookup_insert_eq; eauto|].
        destruct (pods_at (a_waiting a) j !! UID old) as [o|] eqn:Ho; [|by rw lookup_insert_ne].
        rw lookup_insert_ne //. destruct (pods_at_ok _ _ _ _ Hok0 Ho) as [-> _]. rw lookup_delete_ne; [eauto|naive_solver].
Qed.

Lemma DeletePod_has i su uid :
  Type_ su = PodGroupUnitType → uid ≠ UID (qp_Pod i) → unit_has su uid → unit_has (DeletePod i su) uid.
Proof. destruct su as [u|s]; [|done]. simpl. intros _ Hne H. by rw lookup_delete_ne. Qed.

Lemma unit_has_pods su uid : unit_has su uid → NumPods su ≠ 0.
Proof.
  destruct su as [u|s]; simpl.
  - intros [i Hi] Hz. apply map_size_empty_inv in Hz. by rw Hz lookup_empty in Hi.
  - by intros (i & -> & _).
Qed.

Lemma holds_Delete e pod a :
  a_ok a → separate a →
  ∀ k uid, holds a k uid → ¬ (k = GetUnitIdentifier pod ∧ (uid = UID pod ∨ single_at a k)) →
    holds (a_Delete e pod a) k uid.
Proof.
  intros Hok Hs k uid Hh Hns. unfold a_Delete. set (j := GetUnitIdentifier pod) in *.
  cbn [a_set_waiting a_touch a_units].
  assert (Hwt : is_Some (pods_at (a_waiting a) k !! uid) →
    is_Some (pods_at (set_pods_at j (delete (UID pod) (pods_at (a_waiting a) j)) (a_waiting a)) k !! uid)).
  { intros Hx. rw pods_at_set. destruct (decide (j = k)) as [<-|]; [|done].
    rw lookup_delete_ne //. naive_solver. }
  destruct (a_units a !! j) as [[q u]|] eqn:E.
  2:{ destruct Hh as [Hh|Hh]; [by left|right; by apply Hwt]. }
  destruct Hh as [(q' & v & Hv & Hh)|Hh]; [|by destruct (decide _); right; apply Hwt].
  destruct (decide (k = j)) as [->|Hkj].
  - assert (v = u) as -> by congruence.
    assert (Hhas : unit_has (DeletePod (newQueuedPodInfoForLookup pod) (unit_ u)) uid).
    { apply DeletePod_has; [|naive_solver|done]. eapply not_single; [|done]. naive_solver. }
    rw decide_False; [|by eapply unit_has_pods]. left. simpl. rw lookup_insert_eq. eauto.
  - destruct (decide _); left; simpl.
    + rw lookup_delete_ne //. eauto.
    + rw lookup_insert_ne //. eauto.
Qed.

Lemma foldl_insert_new_has (l : list QueuedPodInfo) (m : gmap string QueuedPodInfo) uid :
  is_Some (m !! uid) ∨ (∃ i, i ∈ l ∧ UID (qp_Pod i) = uid) →
  is_Some (foldl (λ m i, match m !! UID (qp_Pod i) with
                         | Some _ => m
                         | None => <[UID (qp_Pod i) := i]> m
                         end) m l !! uid).
Proof.
  revert m. induction l as [|i l IH]; intros m H; simpl.
  - destruct H as [H|(i & H%not_elem_of_nil & _)]; done.
  - apply IH. destruct H as [H|(j & Hj & Hu)].
    + left. destruct (m !! UID (qp_Pod i)) eqn:E; [done|].
      rw lookup_insert_ne //. intros Heq. rw Heq in E. by rw E in H; destruct H.
    + apply elem_of_cons in Hj as [->|Hj]; [|right; eauto]. left. rw -Hu.
      destruct (m !! UID (qp_Pod i)) eqn:E; [by rw E|]. by rw lookup_insert_eq.
Qed.

(** Every pod of a unit is listed by [GetPods]. *)
Lemma GetPods_has e su uid :
  env_ok e → unit_keyed su → unit_has su uid → ∃ i, i ∈ GetPods (podOrder e) su ∧ UID (qp_Pod i) = uid.
Proof.
  intros He Hk. destruct su as [u|s]; simpl.
  - intros [i Hi]. exists i. split; [|by apply Hk]. rw (env_pods _ He). apply list_elem_of_fmap.
    exists (uid, i). split; [done|]. by apply elem_of_map_to_list.
  - intros (i & -> & Hi). exists i. split; [|done]. by left.
Qed.

Lemma holds_Unschedulable e u c a :
  env_ok e → a_ok a → a_waiting a !! UnitKey u = None →
  (∀ uid, unit_has (unit_ u) uid → holds (a_AddUnschedulable e u c a) (UnitKey u) uid) ∧
  ∀ k uid, holds a k uid → ¬ (k = UnitKey u ∧ Type_ (unit_ u) = SinglePodUnitType) →
    holds (a_AddUnschedulable e u c a) k uid.
Proof.
  intros He Hok Hw. unfold a_AddUnschedulable. change (a_units (a_touch (now e) a)) with (a_units a).
  destruct (decide (NumPods (unit_ u) = 0)) as [Hz|Hz].
  { split; [by intros uid ?%unit_has_pods|done]. }
  set (u1 := match a_units a !! UnitKey u with Some _ => _ | None => u end).
  assert (Hk : UnitKey (setTimestamp (now e) u1) = UnitKey u)
    by (unfold u1; by destruct (a_units a !! UnitKey u) as [[]|]).
  split.
  - intros uid Hh. apply holds_put. right. split; [done|]. simpl. unfold u1.
    destruct (a_units a !! UnitKey u) as [[q v]|]; [|done]. simpl.
    destruct (unit_ u) as [g|s]; [|done]. simpl. apply foldl_insert_new_has. by left.
  - intros k uid Hh Hns. apply holds_put. destruct (decide (k = UnitKey u)) as [->|]; [right|left].
    2:{ by rw Hk. }
    split; [done|]. destruct Hh as [(q & v & Hv & Hh)|[x Hx]].
    2:{ by rw (pods_at_none _ _ Hw) in Hx. }
    simpl. unfold u1. rw Hv. simpl. destruct (unit_ u) as [g|s]; [|naive_solver]. simpl.
    apply foldl_insert_new_has. right. apply GetPods_has; [done| |done].
    by destruct (ok_units _ Hok _ _ _ Hv) as (_ & _ & ?).
Qed.

(** ** Properties *)

Section properties.
Context (lessFn : QueuedUnitInfo → QueuedUnitInfo → bool) (initialDuration maxDuration : Z)
  (dynamicPriority : bool) (step : Z).
Abbreviation reachable := (queue_reachable lessFn initialDuration maxDuration dynamicPriority step).
Abbreviation exec := (exec lessFn initialDuration maxDuration dynamicPriority step).

(** C19: The scheduling queue implements one map from unit keys to located units, as
    long as no unit is given back while pods wait under its key ([op_ok]).  In every
    state reached like this every operation returns without a panic, for any sort
    plugin, and changes the abstract queue as specified: an added pod joins its unit or
    makes one with the pods that waited for it, and a popped unit is a first one of the
    ready queue when the sort plugin is a strict weak order.  No unit key is in two
    sub-queues, and every queued unit has a pod.  When a unit is given back while pods
    wait under its key, ActivePodGroupUnit can put the key into two sub-queues
    ([activated_unit_overwritten], priority_queue.go:607). *)
Theorem sched_queue_refines op p :
  reachable p → op_ok op (abs p) →
  ∃ p' out, exec op p = Some (p', out) ∧ reachable p'
    ∧ spec_step lessFn initialDuration maxDuration dynamicPriority step op (abs p) out (abs p')
    ∧ (∀ q1 q2 k u1 u2, contents (sub q1 p') !! k = Some u1 → contents (sub q2 p') !! k = Some u2 → q1 = q2)
    ∧ (∀ q k u, contents (sub q p') !! k = Some u →
         UnitKey u = k ∧ NumPods (unit_ u) ≠ 0 ∧ a_waiting (abs p') !! k = None).
Proof.
  intros Hr Ho. pose proof (queue_reachable_inv _ _ _ _ _ p Hr) as Hi.
  destruct (exec_step lessFn initialDuration maxDuration dynamicPriority step op p Hi Ho)
    as (p' & out & He & (_ & Hd & Hok & Hs) & Hsp).
  exists p', out. split_and!; [done|by eapply qr_step|done|exact Hd|].
  intros q k u Hk%(abs_lookup _ _ _ _ Hd). destruct (ok_units _ Hok _ _ _ Hk) as (? & ? & _).
  split_and!; [done|lia|by eapply separate_known].
Qed.

(** Which pods an operation may take out of the queue: the pod that is deleted
    or replaced, the pods of a popped unit, and the pod of a single-pod unit
    that the operation overwrites. *)
Definition may_lose (op : QueueOp) (out : option PopResult) (a : AbsQueue) (k uid : string) : Prop :=
  match op with
  | OpAdd _ pod => k = GetUnitIdentifier pod ∧ single_at a k
  | OpUpdate _ old new => k = GetUnitIdentifier new ∧ (uid = UID old ∨ single_at a k)
  | OpDelete _ pod => k = GetUnitIdentifier pod ∧ (uid = UID pod ∨ single_at a k)
  | OpAddUnschedulable _ u _ => k = UnitKey u ∧ Type_ (unit_ u) = SinglePodUnitType
  | OpPop => match out with Some (Popped u) => k = UnitKey u ∧ unit_has (unit_ u) uid | _ => False end
  | _ => False
  end.

(** The pods an operation puts into the queue. *)
Definition gains (op : QueueOp) (k uid : string) : Prop :=
  match op with
  | OpAdd _ pod => k = GetUnitIdentifier pod ∧ uid = UID pod
  | OpUpdate _ _ new => k = GetUnitIdentifier new ∧ uid = UID new
  | OpAddUnschedulable _ u _ => k = UnitKey u ∧ unit_has (unit_ u) uid
  | _ => False
  end.

Lemma a_Pop_holds a out a' k uid :
  separate a → a_Pop lessFn dynamicPriority step a out a' → holds a k uid →
  ¬ match out with Popped u => k = UnitKey u ∧ unit_has (unit_ u) uid | _ => False end → holds a' k uid.
Proof.
  intros Hs Hp Hh Hn. destruct out as [u'| | |]; simpl in Hp; [|by destruct Hp as (_ & _ & ->)..|done].
  destruct Hp as (u & mp & Hu & _ & _ & -> & ->). simpl in Hn. unfold holds. simpl.
  destruct (decide (k = UnitKey u)) as [->|Hk]; [|by rw lookup_delete_ne].
  destruct Hh as [(q & v & Hv & Hh)|[x Hx]].
  - destruct Hn. split; [done|]. by assert (v = u) as -> by congruence.
  - by rw (pods_at_none _ _ (separate_known _ _ _ _ Hs Hu)) in Hx.
Qed.

(** C24: Which pods an operation of the queue can lose, as long as no unit is given back
    while pods wait under its key ([op_ok]; otherwise a whole unit can be overwritten,
    [activated_unit_overwritten]).  A pod that is added, updated or given back is in
    the queue afterwards, and every other pod of the queue is still there, unless the
    operation deletes or replaces it, pops its unit, or writes a single-pod unit of the
    same name ([may_lose]). *)
Theorem no_pod_lost op p p' out k uid :
  reachable p → op_ok op (abs p) → exec op p = Some (p', out) →
  gains op k uid ∨ (holds (abs p) k uid ∧ ¬ may_lose op out (abs p) k uid) →
  holds (abs p') k uid.
Proof.
  intros Hr Ho He Hh. pose proof (queue_reachable_inv _ _ _ _ _ p Hr) as Hi.
  destruct (exec_step lessFn initialDuration maxDuration dynamicPriority step op p Hi Ho)
    as (p1 & out1 & He1 & _ & Hsp). assert (p1 = p' ∧ out1 = out) as [-> ->] by (split; congruence).
  clear He1. destruct Hi as (_ & _ & Hok & Hs). destruct Ho as [Henv Ho].
  destruct op as [e pod|e old new|e pod|e u c| | |e|e|e|e|e matches pod|e|e j];
    destruct out as [out|]; try done; simpl in Hsp, Henv, Hh; try rw Hsp.
  - destruct (holds_Add e pod _ Henv Hok Hs) as [H1 H2].
    destruct Hh as [[-> ->]|[Hh Hn]]; [done|by apply H2].
  - destruct (holds_Update initialDuration maxDuration e old new _ Henv Hok Hs) as [H1 H2].
    destruct Hh as [[-> ->]|[Hh Hn]]; [done|by apply H2].
  - destruct Hh as [?|[Hh Hn]]; [done|]. by apply holds_Delete.
  - destruct (holds_Unschedulable e u c _ Henv Hok (proj1 Ho)) as [H1 H2].
    destruct Hh as [[-> ?]|[Hh Hn]]; [by apply H1|by apply H2].
  - destruct Hh as [?|[Hh Hn]]; [done|]. by eapply a_Pop_holds.
  - by destruct Hh as [?|[? _]].
  - destruct Hh as [?|[? _]]; [done|]. by apply holds_move.
  - destruct Hh as [?|[? _]]; [done|]. by apply holds_move.
  - destruct Hh as [?|[? _]]; [done|]. by apply (holds_move unschedulableQ).
  - destruct Hh as [?|[? _]]; [done|]. by apply (holds_move unschedulableQ).
  - destruct Hh as [?|[? _]]; [done|]. by apply (holds_move unschedulableQ).
  - destruct Hh as [?|[? _]]; [done|]. by apply holds_flush_pods.
  - destruct Hh as [?|[? _]]; [done|]. by apply holds_activate.
Qed.

(** *** A failed unit becomes ready

    The operations that name the unit key [k]: they may change or remove the
    unit. *)
Definition touches (k : string) (op : QueueOp) (out : option PopResult) : Prop :=
  match op with
  | OpAdd _ pod | OpUpdate _ _ pod | OpDelete _ pod => k = GetUnitIdentifier pod
  | OpAddUnschedulable _ u _ => k = UnitKey u
  | OpPop => match out with Some (Popped u) => k = UnitKey u | _ => False end
  | _ => False
  end.

(** A run of operations none of which names [k]. *)
Inductive runs (k : string) : list QueueOp → PriorityQueue → PriorityQueue → Prop :=
  | runs_nil p : runs k [] p p
  | runs_cons op ops p p1 p' out :
      op_ok op (abs p) → exec op p = Some (p1, out) → ¬ touches k op out →
      runs k ops p1 p' → runs k (op :: ops) p p'.

(** The timers of the queue ([Run]). *)
Definition is_timer (op : QueueOp) : Prop :=
  match op with
  | OpFlushBackoff e | OpFlushWaiting e | OpFlushUnschedulable e | OpFlushWaitingPods e => env_ok e
  | _ => False
  end.

(** From the unschedulable over the backoff to the ready queue. *)
Definition stage (q : SubQueue) : nat :=
  match q with unschedulableQ => 1 | backoffQ => 2 | readyQ => 3 | waitingQ => 0 end.

Lemma runs_inv k op ops p p' :
  runs k (op :: ops) p p' → ∃ p1 out, exec op p = Some (p1, out) ∧ runs k ops p1 p'.
Proof. inversion 1; subst. eauto. Qed.

Lemma runs_app k ops1 ops2 p p' : runs k (ops1 ++ ops2)%list p p' ↔ ∃ p1, runs k ops1 p p1 ∧ runs k ops2 p1 p'.
Proof.
  split.
  - revert p. induction ops1 as [|op ops1 IH]; intros p H; [by exists p; split; [constructor|]|].
    inversion H as [|????? out Ho He Hn Hr]; subst. destruct (IH _ Hr) as (p2 & H1 & H2).
    exists p2. split; [by econstructor|done].
  - intros (p1 & H1 & H2). induction H1; [done|]. econstructor; eauto.
Qed.

Lemma runs_reachable k ops p p' : runs k ops p p' → reachable p → reachable p'.
Proof. induction 1 as [|op ops p p1 p' out Ho He _ _ IH]; [done|]. intros Hr. apply IH. by eapply qr_step. Qed.

Lemma move_units_stage q0 f dst a k q u :
  a_units a !! k = Some (q, u) → (stage q0 ≤ stage (dst u))%nat →
  ∃ q', a_units (a_move_units q0 f dst a) !! k = Some (q', u) ∧ (stage q ≤ stage q')%nat.
Proof.
  intros Hk Hd. cbn [a_move_units a_set_units a_units]. rw lookup_fmap Hk. cbn [fmap option_fmap option_map fst snd].
  case_bool_decide as Hq; simpl; [|by exists q]. destruct (f u); [|by exists q]. exists (dst u). by subst.
Qed.

Lemma move_request_stage e f a k q u :
  a_units a !! k = Some (q, u) →
  ∃ q', a_units (a_move_request initialDuration maxDuration e f a) !! k = Some (q', u) ∧ (stage q ≤ stage q')%nat.
Proof.
  intros Hk. apply (move_units_stage unschedulableQ f _ a k q u Hk).
  unfold readyOrBackoff. destruct (isUnitBackoff _ _ e u); simpl; lia.
Qed.

(** An operation that does not name the unit leaves it as it is, in its
    sub-queue or a later one. *)
Lemma step_stage op p p' out k q u :
  reachable p → op_ok op (abs p) → exec op p = Some (p', out) → ¬ touches k op out →
  a_units (abs p) !! k = Some (q, u) →
  ∃ q', a_units (abs p') !! k = Some (q', u) ∧ (stage q ≤ stage q')%nat.
Proof.
  intros Hr Ho He Hn Hk. pose proof (queue_reachable_inv _ _ _ _ _ p Hr) as Hi.
  destruct (exec_step lessFn initialDuration maxDuration dynamicPriority step op p Hi Ho)
    as (p1 & out1 & He1 & _ & Hsp). assert (p1 = p' ∧ out1 = out) as [-> ->] by (split; congruence).
  clear He1 He. generalize dependent (abs p'). intros a' Hsp.
  destruct Hi as (_ & _ & Hok & Hs). destruct (ok_units _ Hok _ _ _ Hk) as (Huk & _ & _).
  assert (a_waiting (abs p) !! k = None) as Hw by by eapply separate_known.
  destruct op as [e pod|e old new|e pod|e v c| | |e|e|e|e|e matches pod|e|e j];
    destruct out as [out|]; try done; simpl in Hsp, Hn; try rw Hsp.
  - exists q. split; [|done]. unfold a_Add. cbn [a_touch a_units].
    destruct (a_units (abs p) !! GetUnitIdentifier pod) as [[q1 v]|] eqn:E.
    + destruct (ok_units _ Hok _ _ _ E) as (Hv & _). simpl. rw lookup_insert_ne //. by rw Hv.
    + destruct (a_create e pod _) as [v|] eqn:Ec; [|done]. simpl. rw lookup_insert_ne //.
      unfold a_create in Ec. destruct (CreateScheduleUnit _ _ _ _); [|done]. by injection Ec as <-.
  - exists q. split; [|done]. unfold a_Update. cbn [a_touch a_units].
    destruct (a_units (abs p) !! GetUnitIdentifier new) as [[q1 v]|] eqn:E.
    + destruct (ok_units _ Hok _ _ _ E) as (Hv & _). simpl. rw lookup_insert_ne //. by rw Hv.
    + destruct (a_create e new _) as [v|] eqn:Ec; [|done]. simpl. rw lookup_insert_ne //.
      unfold a_create in Ec. destruct (CreateScheduleUnit _ _ _ _); [|done]. by injection Ec as <-.
  - exists q. split; [|done]. unfold a_Delete. cbn [a_touch a_set_waiting a_units].
    destruct (a_units (abs p) !! GetUnitIdentifier pod) as [[q1 v]|]; [|done].
    case_decide; simpl; [by rw lookup_delete_ne|by rw lookup_insert_ne].
  - exists q. split; [|done]. unfold a_AddUnschedulable. case_decide; [done|].
    cbn [a_put a_units a_touch]. rw lookup_insert_ne; [done|]. intros E. apply Hn. rw -E.
    by destruct (a_units (abs p) !! UnitKey v) as [[]|].
  - exists q. split; [|done]. destruct out as [v| | |]; cbn [a_Pop] in Hsp;
      [|by destruct Hsp as (_ & _ & ->)..|done].
    destruct Hsp as (w & mp & _ & _ & _ & -> & ->). simpl in Hn |- *. by rw lookup_delete_ne.
  - by exists q.
  - apply move_units_stage; [done|simpl; lia].
  - apply move_units_stage; [done|simpl; lia].
  - by apply move_request_stage.
  - by apply move_request_stage.
  - by apply move_request_stage.
  - exists q. split; [|done]. cbn [a_flush_pods a_set_waiting a_set_units a_units].
    rw lookup_union_r // lookup_fmap lookup_omap. by rw Hw.
  - exists q. split; [|done]. unfold a_activate. destruct (a_waiting (abs p) !! j ≫= _) as [v|] eqn:Ej; [|done].
    simpl. rw lookup_insert_ne //. intros ->. by rw Hw in Ej.
Qed.

Lemma runs_stage k ops p p' q u :
  runs k ops p p' → reachable p → a_units (abs p) !! k = Some (q, u) →
  ∃ q', a_units (abs p') !! k = Some (q', u) ∧ (stage q ≤ stage q')%nat.
Proof.
  intros H. revert q. induction H as [|op ops p p1 p' out Ho He Hn _ IH]; intros q Hr Hk; [by exists q|].
  destruct (step_stage op p p1 out k q u Hr Ho He Hn Hk) as (q1 & Hk1 & Hle1).
  destruct (IH q1) as (q2 & Hk2 & Hle2); [by eapply qr_step|done|]. exists q2. split; [done|lia].
Qed.

Lemma timers_run k ops p : reachable p → Forall is_timer ops → ∃ p', runs k ops p p'.
Proof.
  intros Hr Hf. revert p Hr. induction Hf as [|op ops Ht _ IH]; intros p Hr; [exists p; constructor|].
  assert (op_ok op (abs p) ∧ ∀ out, ¬ touches k op out) as [Ho Hn].
  { destruct op; try done; by (split; [split|intros out Ht'; destruct Ht']). }
  pose proof (queue_reachable_inv _ _ _ _ _ p Hr) as Hi.
  destruct (exec_step lessFn initialDuration maxDuration dynamicPriority step op p Hi Ho) as (p1 & out & He & _).
  destruct (IH p1) as (p' & Hp'); [by eapply qr_step|]. exists p'. by econstructor.
Qed.

Lemma flush_unschedulable_stage e p p1 out k u q :
  reachable p → env_ok e → exec (OpFlushUnschedulable e) p = Some (p1, out) →
  a_units (abs p) !! k = Some (q, u) → (1 ≤ stage q)%nat → schedulingStatusTimeout e u = false →
  (Timestamp u + unschedulableQTimeInterval < now e)%Z →
  ∃ q', a_units (abs p1) !! k = Some (q', u) ∧ (2 ≤ stage q')%nat.
Proof.
  intros Hr He Hx Hk Hq Hto Ht. pose proof (queue_reachable_inv _ _ _ _ _ p Hr) as Hi.
  destruct (exec_step lessFn initialDuration maxDuration dynamicPriority step
    (OpFlushUnschedulable e) p Hi) as (p2 & out2 & Hx2 & _ & Hs); [done|].
  rw Hx in Hx2. injection Hx2 as <- <-. destruct out; [done|]. simpl in Hs. rw Hs.
  unfold a_move_request. cbn [a_move_units a_set_cycles a_set_units a_units]. rw lookup_fmap Hk.
  cbn [fmap option_fmap option_map fst snd]. rw Hto. rw (proj2 (Z.ltb_lt _ _)); [|lia]. simpl. rw andb_true_r.
  case_bool_decide as E; simpl.
  - eexists. split; [done|]. unfold readyOrBackoff. destruct (isUnitBackoff _ _ e u); simpl; lia.
  - exists q. split; [done|]. destruct q; simpl in *; [lia|lia|lia|done].
Qed.

Lemma flush_backoff_stage e p p1 out k u q :
  reachable p → env_ok e → exec (OpFlushBackoff e) p = Some (p1, out) →
  a_units (abs p) !! k = Some (q, u) → (2 ≤ stage q)%nat →
  isUnitBackoff initialDuration maxDuration e u = false →
  a_units (abs p1) !! k = Some (readyQ, u).
Proof.
  intros Hr He Hx Hk Hq Hb. pose proof (queue_reachable_inv _ _ _ _ _ p Hr) as Hi.
  destruct (exec_step lessFn initialDuration maxDuration dynamicPriority step
    (OpFlushBackoff e) p Hi) as (p2 & out2 & Hx2 & _ & Hs); [done|].
  rw Hx in Hx2. injection Hx2 as <- <-. destruct out; [done|]. simpl in Hs. rw Hs.
  cbn [a_move_units a_set_units a_units]. rw lookup_fmap Hk. cbn [fmap option_fmap option_map fst snd]. rw Hb.
  destruct q; simpl in *; [lia|done|done|lia].
Qed.


(** A unit made of pods that waited for their pod group is in the queue but
    not in the priority heap, so [getMinPriorityInQueueIfExists] does not count
    it until one of its pods changes. *)
Theorem activated_unit_not_ranked p e k w u :
  reachable p → env_ok e → a_waiting (abs p) !! k = Some w → transferToPodGroupUnit e w = Some u →
  ∃ p', exec (OpActivate e k) p = Some (p', None)
    ∧ a_units (abs p') !! k = Some (readyOrWaiting e u, u) ∧ contents (priorityHeap p') !! k = None.
Proof.
  intros Hr He Hw Ht. pose proof (queue_reachable_inv _ _ _ _ _ p Hr) as Hi.
  destruct (exec_step lessFn initialDuration maxDuration dynamicPriority step
    (OpActivate e k) p Hi) as (p1 & [out|] & Hx & _ & Hs); [done|done|].
  exists p1. split; [done|]. simpl in Hs. unfold a_activate in Hs. rw Hw /= Ht in Hs.
  change (contents (priorityHeap p1)) with (a_prio (abs p1)). rw Hs. simpl.
  split; [by rw lookup_insert_eq|]. destruct Hi as (_ & _ & Hok & Hsep).
  change (contents (priorityHeap p)) with (a_prio (abs p)).
  destruct (a_prio (abs p) !! k) as [v|] eqn:E; [|done].
  destruct (ok_prio_units _ Hok _ _ E) as (q & x & Hx' & _).
  rw (separate_known _ _ _ _ Hsep Hx') in Hw. done.
Qed.
End properties.

(** C39: For a positive initial backoff that does not exceed the maximum, the
    backoff of a unit doubles with each attempt up to the maximum, and the loop
    never overflows 64 bits. *)
Theorem backoff_duration_spec initialDuration maxDuration u :
  (0 < initialDuration ≤ maxDuration)%Z → (maxDuration ≤ i64_max)%Z → (0 ≤ Attempts u)%Z →
  calculateBackoffDuration initialDuration maxDuration u =
  if (Attempts u =? 0)%Z then 0%Z else Z.min maxDuration (initialDuration * 2 ^ (Attempts u - 1)).
Proof.
  intros Hd Hm Ha. unfold calculateBackoffDuration. destruct (Z.eqb_spec (Attempts u) 0); [done|].
  rw backoff_loop_spec //. do 3 f_equal. lia.
Qed.

Lemma backoff_duration_spec_witness :
  calculateBackoffDuration 10 300 (mkQueuedUnitInfo "k" (SPU (mkSinglePodUnit "" None)) 0 4 0 0) = 80%Z.
Proof.
  rewrite (backoff_duration_spec 10 300 (mkQueuedUnitInfo "k" (SPU (mkSinglePodUnit "" None)) 0 4 0 0));
    [reflexivity|lia|unfold i64_max; lia|simpl; lia].
Defined.

(** The priority score of a unit stays between the least priority of the
    queue minus one step and its own priority, and repeats with period
    [gap / step + 2] in the attempts; it can be below the least priority, which
    the comment of [getScore] excludes. *)
Theorem score_range priority minPriority attempts step :
  (0 < step)%Z → (minPriority ≤ priority)%Z → (0 < attempts)%Z →
  let count := ((priority - minPriority) / step + 2)%Z in
  (minPriority - step ≤ getScore priority minPriority attempts step ≤ priority)%Z
  ∧ getScore priority minPriority (attempts + count) step = getScore priority minPriority attempts step
  ∧ (getScore 10 0 3 5 < 0)%Z.
Proof.
  intros Hs Hm Ha count.
  assert (Hq : (0 ≤ (priority - minPriority) / step)%Z) by (apply Z.div_pos; lia).
  assert (Hg : (step * ((priority - minPriority) / step) ≤ priority - minPriority)%Z)
    by (apply Z.mul_div_le; lia).
  assert (Hc : (2 ≤ count)%Z) by (unfold count; lia).
  unfold getScore. rw (proj2 (Z.eqb_neq attempts 0)); [|lia].
  rw (proj2 (Z.eqb_neq (attempts + count) 0)); [|lia]. fold count. rw Z.max_r //.
  rw !Z.rem_mod_nonneg; [|lia..].
  pose proof (Z.mod_pos_bound attempts count ltac:(lia)) as Hb.
  split_and!; [unfold count in *; nia|nia| |done].
  do 2 f_equal. rw Z.add_mod; [|lia]. rw Z.mod_same; [|lia]. rw Z.add_0_r Z.mod_mod; [done|lia].
Qed.

Lemma score_range_witness : (0 - 5 ≤ getScore 10 0 3 5 ≤ 10)%Z.
Proof.
  destruct (score_range 10 0 3 5) as (H & _); [lia|lia|lia|]. exact H.
Defined.

(** ** Concrete runs *)

Definition group_pod (name : string) : Pod :=
  set_Annotations (Some {[PodGroupNameAnnotationKey := "g"]}) (test_pod name 1).

(** An environment at a given time, with or without the pod group. *)
Definition env_at (t : Z) (known : bool) : Env :=
  mkEnv t (λ _, None)
    (λ ns n, if known then Some (mkPodGroup ns n None 0 1 "" None) else None)
    (λ _, PendingStatus) (λ m, (map_to_list m).*2) id.

Lemma env_at_ok t b : env_ok (env_at t b).
Proof.
  split; [done|done|]. intros ns n g. destruct b; simpl; [|done]. by intros [= <-].
Qed.

(** The priority queue with the default plugin and backoffs of 10 and 300 s. *)
Definition step_op (op : QueueOp) (p : PriorityQueue) : option PriorityQueue :=
  r ← exec (DefaultUnitQueueSort_Less map_to_list) 10000000000 300000000000 false 10 op p; Some r.1.

Fixpoint run (ops : list QueueOp) (p : PriorityQueue) : option PriorityQueue :=
  match ops with [] => Some p | op :: ops => p' ← step_op op p; run ops p' end.

Definition pending (p : PriorityQueue) : list string := UID <$> PendingPods (env_at 0 true) p.

Definition group_key : string := "PodGroupUnit/ns/g".

(** The unit of [pod] as the scheduler holds it after popping it. *)
Definition popped_unit (t : Z) (pod : Pod) : QueuedUnitInfo :=
  mkQueuedUnitInfo group_key
    (AddPod (newQueuedPodInfo (env_at t true) pod)
       (PGU (NewPodGroupUnit t (Some (mkPodGroup "ns" "g" None 0 1 "" None)) 100))) t 1 t 100.

Definition lost_pod_run : list QueueOp :=
  [OpAdd (env_at 0 true) (group_pod "p1"); OpPop;
   OpAdd (env_at 1 false) (group_pod "p2");
   OpAddUnschedulable (env_at 2 true) (popped_unit 0 (group_pod "p1")) 1;
   OpActivate (env_at 3 true) group_key].

(** [ActivePodGroupUnit] can put a unit into the queue whose key is already
    in another sub-queue.  A pod of a group arrives while another pod of the
    group is being scheduled and the pod group is not found; the failed unit goes
    back to the unschedulable queue, and the pod group event makes a second unit
    with the same key in the ready queue.  The next move request overwrites that
    unit and the pod that had arrived is in no queue any more. *)
Theorem activated_unit_overwritten :
  let new := NewPriorityQueue (env_at 0 true) in
  (run (take 2 lost_pod_run) new ≫= λ p, Some (pending p)) = Some []
  ∧ (p ← run (take 1 lost_pod_run) new;
     r ← Pop (DefaultUnitQueueSort_Less map_to_list) 10000000000 300000000000 false 10 p; Some r.2)
    = Some (Popped (popped_unit 0 (group_pod "p1")))
  ∧ (p ← run lost_pod_run new; Some (pending p)) = Some ["p2"; "p1"]
  ∧ (p ← run lost_pod_run new;
     Some ((GetByKey group_key (q_ready p)).2, (GetByKey group_key (q_unschedulable p)).2))
    = Some (true, true)
  ∧ (p ← run (lost_pod_run ++ [OpMoveAll (env_at 100000000000 true)])%list new; Some (pending p))
    = Some ["p1"].
Proof. intros new. split_and!; vm_compute; reflexivity. Qed.

(** *** Witnesses *)

Abbreviation test_less := (DefaultUnitQueueSort_Less map_to_list).
Abbreviation test_reachable := (queue_reachable test_less 10000000000 300000000000 false 10).

Definition step_or (op : QueueOp) (p : PriorityQueue) : PriorityQueue := default p (step_op op p).

Lemma step_reach op p : test_reachable p → op_ok op (abs p) → test_reachable (step_or op p).
Proof.
  intros Hr Ho. pose proof (queue_reachable_inv _ _ _ _ _ p Hr) as Hi.
  destruct (exec_step _ _ _ false 10 op p Hi Ho) as (p' & out & He & _).
  unfold step_or, step_op. rw He. simpl. by eapply qr_step.
Qed.

Definition test_new : PriorityQueue := NewPriorityQueue (env_at 0 true).

Lemma sched_queue_refines_witness :
  ∃ p' out, exec test_less 10000000000 300000000000 false 10
      (OpAdd (env_at 0 true) (group_pod "p1")) test_new = Some (p', out)
    ∧ abs p' = a_Add (env_at 0 true) (group_pod "p1") (abs test_new).
Proof.
  destruct (sched_queue_refines test_less 10000000000 300000000000 false 10
    (OpAdd (env_at 0 true) (group_pod "p1")) test_new) as (p' & out & He & _ & Hs & _).
  - apply qr_new.
  - split; [apply env_at_ok|exact I].
  - exists p', out. split; [exact He|]. simpl in Hs. destruct out; [destruct Hs|exact Hs].
Defined.

Lemma no_pod_lost_witness :
  holds (abs (step_or (OpAdd (env_at 0 true) (group_pod "p1")) test_new)) group_key "p1".
Proof.
  apply (no_pod_lost test_less 10000000000 300000000000 false 10
    (OpAdd (env_at 0 true) (group_pod "p1")) test_new _ None).
  - apply qr_new.
  - split; [apply env_at_ok|exact I].
  - vm_compute. reflexivity.
  - left. split; reflexivity.
Defined.

Definition failed_queue : PriorityQueue :=
  step_or (OpAddUnschedulable (env_at 2 true) (popped_unit 0 (group_pod "p1")) 1) test_new.

Lemma failed_queue_reachable : test_reachable failed_queue.
Proof.
  apply step_reach; [apply qr_new|]. split; [apply env_at_ok|]. split; [done|].
  by apply AddPod_ok.
Qed.


Definition waiting_queue : PriorityQueue :=
  step_or (OpAdd (env_at 1 false) (group_pod "p2")) test_new.

Lemma activated_unit_not_ranked_witness :
  ∃ p', exec test_less 10000000000 300000000000 false 10
      (OpActivate (env_at 3 true) group_key) waiting_queue = Some (p', None)
    ∧ contents (priorityHeap p') !! group_key = None.
Proof.
  destruct (transferToPodGroupUnit (env_at 3 true)
    (mkWaitingPods group_key {["p2" := newQueuedPodInfo (env_at 1 false) (group_pod "p2")]})) as [u|] eqn:E.
  - destruct (activated_unit_not_ranked test_less 10000000000 300000000000 false 10 waiting_queue
      (env_at 3 true) group_key
      (mkWaitingPods group_key {["p2" := newQueuedPodInfo (env_at 1 false) (group_pod "p2")]}) u)
      as (p' & H1 & _ & H3).
    + apply step_reach; [apply qr_new|]. split; [apply env_at_ok|exact I].
    + apply env_at_ok.
    + vm_compute. reflexivity.
    + exact E.
    + exists p'. split; [exact H1|exact H3].
  - vm_compute in E. discriminate E.
Defined.
