(* ===== verification/PodGroup.v ===== *)
(** * The pod group controller

    pkg/binder/controller/podgroup.go, with pkg/util/unit/unit.go and the lock the
    binder takes (pkg/binder/utils/podgroup.go).  The controller moves the phase of a
    pod group along a state machine; before a group times out, or its pods are bound,
    an annotation is taken as a lock for the final operation.

    Controllers and binders read the group from informer caches and write it through
    the API server; a function that calls the API server is a tree of calls ([Api]),
    so the calls of several callers can interleave.  Metrics, events and logs are left
    out.  Times are in nanoseconds; one reading of the clock serves a whole
    synchronisation. *)
From S2P Require Import Prelude GoStrings PodModel PodState.

Local Open Scope godel_scope.
Local Open Scope string_scope.

(** ** The pod group *)

Definition PodGroupPending : string := "Pending".
Definition PodGroupPreScheduling : string := "PreScheduling".
Definition PodGroupScheduled : string := "Scheduled".
Definition PodGroupRunning : string := "Running".
Definition PodGroupTimeout : string := "Timeout".
Definition PodGroupFinished : string := "Finished".
Definition PodGroupFailed : string := "Failed".

(** Status and reason of a condition follow from its phase. *)
Record Condition := { c_Phase : string; c_LastTransitionTime : Z; c_Message : string }.
(** The resource version is opaque to the code; it is a number that the API server
    raises with each write. *)
Record Group := {
  g_Namespace : string; g_Name : string; g_ResourceVersion : Z; g_Annotations : option (gmap string string); g_CreationTimestamp : Z;
  g_MinMember : Z; g_ScheduleTimeoutSeconds : option Z;
  g_Phase : string; g_Conditions : list Condition; g_ScheduleStartTime : option Z; g_OccupiedBy : string
}.
#[export] Instance Condition_eq_dec : EqDecision Condition.
Proof. solve_decision. Defined.
#[export] Instance Group_eq_dec : EqDecision Group.
Proof. solve_decision. Defined.

Definition set_g_Annotations (a : option (gmap string string)) (g : Group) : Group :=
  {| g_Namespace := g_Namespace g; g_Name := g_Name g; g_ResourceVersion := g_ResourceVersion g; g_Annotations := a;
     g_CreationTimestamp := g_CreationTimestamp g; g_MinMember := g_MinMember g; g_ScheduleTimeoutSeconds := g_ScheduleTimeoutSeconds g;
     g_Phase := g_Phase g; g_Conditions := g_Conditions g; g_ScheduleStartTime := g_ScheduleStartTime g; g_OccupiedBy := g_OccupiedBy g |}.
Definition set_g_Status (phase : string) (conditions : list Condition) (start : option Z) (occupied : string) (g : Group) : Group :=
  {| g_Namespace := g_Namespace g; g_Name := g_Name g; g_ResourceVersion := g_ResourceVersion g; g_Annotations := g_Annotations g;
     g_CreationTimestamp := g_CreationTimestamp g; g_MinMember := g_MinMember g; g_ScheduleTimeoutSeconds := g_ScheduleTimeoutSeconds g;
     g_Phase := phase; g_Conditions := conditions; g_ScheduleStartTime := start; g_OccupiedBy := occupied |}.
Definition set_g_Phase (phase : string) (g : Group) : Group :=
  set_g_Status phase (g_Conditions g) (g_ScheduleStartTime g) (g_OccupiedBy g) g.
Definition copy_status (from g : Group) : Group :=
  set_g_Status (g_Phase from) (g_Conditions from) (g_ScheduleStartTime from) (g_OccupiedBy from) g.

(** ** pkg/util/unit/unit.go *)

Definition PodGroupFinalOpLock : string := "godel.bytedance.com/podgroup-final-op-lock".
Definition PodGroupFinalState (p : string) : bool := (p ≟ PodGroupScheduled) || (p ≟ PodGroupTimeout).
Definition GetPodGroupKey (g : Group) : string := g_Namespace g ++ "/" ++ g_Name g.

(** Whether the lock was taken, or was held already by [op]. *)
Definition PopulatePodGroupFinalOp (g : Group) (op : string) : Group * bool :=
  let m := default ∅ (g_Annotations g) in
  match m !! PodGroupFinalOpLock with
  | Some operator => (set_g_Annotations (Some m) g, operator ≟ op)
  | None => (set_g_Annotations (Some (<[PodGroupFinalOpLock := op]> m)) g, true)
  end.
Definition PodGroupFinalOp (g : Group) : string := default "" (g_Annotations g ≫= (.!! PodGroupFinalOpLock)).

(** ** Calls to the API server *)

Inductive ApiError := ErrConflict | ErrNotFound | ErrOther.
Inductive Api (A : Type) : Type :=
| Ret (a : A)
| Update (g : Group) (k : ApiError + Group → Api A)
| UpdateStatus (g : Group) (k : option ApiError → Api A).
Arguments Ret {A} a.
Arguments Update {A} g k.
Arguments UpdateStatus {A} g k.
Fixpoint api_bind {A B} (f : A → Api B) (p : Api A) : Api B :=
  match p with
  | Ret a => f a
  | Update g k => Update g (λ r, api_bind f (k r))
  | UpdateStatus g k => UpdateStatus g (λ r, api_bind f (k r))
  end.
#[export] Instance Api_ret : MRet Api := @Ret.
#[export] Instance Api_bind : MBind Api := @api_bind.

(** ** The controller *)

Inductive Msg := CreatedUnsatisfied | ScheduledUnsatisfied | ScheduledSatisfied | TimeoutSatisfied.
#[export] Instance Msg_eq_dec : EqDecision Msg.
Proof. solve_decision. Defined.

Definition updatePodGroupCondition (now : Z) (phase msg : string) (g : Group) : Group :=
  let condition := {| c_Phase := phase; c_LastTransitionTime := now; c_Message := msg |} in
  let conditions :=
    match list_find (λ c, c_Phase c = phase) (g_Conditions g) with
    | Some (i, _) => <[i := condition]> (g_Conditions g)
    | None => (g_Conditions g ++ [condition])%list
    end in
  set_g_Status (g_Phase g) conditions (g_ScheduleStartTime g) (g_OccupiedBy g) g.

(** A pod, with its phase. *)
Record GroupPod := { gp_Pod : Pod; gp_Phase : string }.

Definition fillOccupiedObj (pod : Pod) (g : Group) : Group :=
  let refs := (λ o, ref_Kind o ++ "/" ++ Namespace pod ++ "/" ++ ref_Name o) <$> OwnerReferences pod in
  if negb (length refs ≟ 0%nat)
  then set_g_Status (g_Phase g) (g_Conditions g) (g_ScheduleStartTime g) (Join comma (merge_sort String.le refs)) g
  else g.

(** The message for the state machine, from what the pods of the group look like. *)
Definition pods_message (minMember : Z) (pods : list GroupPod) : Msg :=
  let created := wrap32 (Z.of_nat (length pods)) in
  let scheduled := wrap32 (Z.of_nat (length (filter (λ p, BoundPod (gp_Pod p) = true) pods))) in
  let overWriteScheduled := existsb (λ p, (gp_Phase p ≟ "Running") || (gp_Phase p ≟ "Succeeded") || (gp_Phase p ≟ "Failed")) pods in
  if overWriteScheduled then ScheduledSatisfied
  else if (created <? minMember)%Z then CreatedUnsatisfied
  else if (scheduled <? minMember)%Z then ScheduledUnsatisfied
  else ScheduledSatisfied.

(** Returns the group with its conditions, and the next phase. *)
Definition Step (now : Z) (g : Group) (m : Msg) : Group * string :=
  let curPhase := g_Phase g in
  let min := Itoa (g_MinMember g) in
  let '(g, curPhase) :=
    if curPhase ≟ "" then (updatePodGroupCondition now PodGroupPending "" g, PodGroupPending) else (g, curPhase) in
  let '(g, curPhase) :=
    if (curPhase ≟ PodGroupRunning) || (curPhase ≟ PodGroupFinished) || (curPhase ≟ PodGroupFailed)
    then (updatePodGroupCondition now PodGroupScheduled ("Change " ++ curPhase ++ " to scheduled for compatibility") g, PodGroupScheduled)
    else (g, curPhase) in
  let scheduled := (updatePodGroupCondition now PodGroupScheduled ("More than " ++ min ++ " pods has been scheduled") g, PodGroupScheduled) in
  if curPhase ≟ PodGroupPending then
    match m with
    | ScheduledUnsatisfied =>
        let g := set_g_Status (g_Phase g) (g_Conditions g) (Some now) (g_OccupiedBy g) g in
        (updatePodGroupCondition now PodGroupPreScheduling ("More than " ++ min ++ " pods has been created but not fully scheduled") g, PodGroupPreScheduling)
    | ScheduledSatisfied => scheduled
    | _ => (g, curPhase)
    end
  else if curPhase ≟ PodGroupPreScheduling then
    match m with
    | CreatedUnsatisfied => (updatePodGroupCondition now PodGroupPending ("Less than " ++ min ++ " pods has been created") g, PodGroupPending)
    | ScheduledSatisfied => scheduled
    | _ => (g, curPhase)
    end
  else (g, curPhase).

Definition DefaultGangTimeout : Z := 5 * 60 * 1000000000.
Definition podGroupTimeout (now : Z) (g : Group) : bool :=
  let timeoutDuration := match g_ScheduleTimeoutSeconds g with Some s => (s * 1000000000)%Z | None => DefaultGangTimeout end in
  (timeoutDuration <? now - g_CreationTimestamp g)%Z.

Definition updatePodGroup (old new : Group) : Api (bool * option ApiError) :=
  if bool_decide (old = new) then Ret (false, None) else
  let status (new : Group) :=
    if g_Phase old ≟ g_Phase new then Ret (false, None)
    else UpdateStatus new (λ r, match r with Some e => Ret (false, Some e) | None => Ret (true, None) end) in
  if bool_decide (g_Annotations old = g_Annotations new) then status new
  else Update new (λ r, match r with inl e => Ret (false, Some e) | inr latest => status (copy_status new latest) end).

(** The group with its next phase, as it is to be written. *)
Definition next_group (now : Z) (key : string) (pods : list GroupPod) (pg : Group) : Group :=
  let pgCopy := match pods with p :: _ => fillOccupiedObj (gp_Pod p) pg | [] => pg end in
  let '(pgCopy, nextPhase) := Step now pgCopy (pods_message (g_MinMember pgCopy) pods) in
  if negb (PodGroupFinalState nextPhase) && podGroupTimeout now pgCopy then
    let '(pgCopy, locked) := PopulatePodGroupFinalOp pgCopy "pg-controller" in
    if locked then set_g_Phase PodGroupTimeout (updatePodGroupCondition now PodGroupTimeout ("Can't schedule pods for " ++ key ++ " before timeout") pgCopy)
    else set_g_Phase nextPhase pgCopy
  else set_g_Phase nextPhase pgCopy.

(** [cache.SplitMetaNamespaceKey] *)
Definition SplitMetaNamespaceKey (key : string) : option (string * string) :=
  match Split slash key with [name] => Some ("", name) | [namespace; name] => Some (namespace, name) | _ => None end.

Inductive GroupLookup := GroupFound (g : Group) | GroupNotFound | GroupError.

Section controller.
(** The listers; [None] is an error. *)
Context (pgLister : string → string → GroupLookup) (GetAllPods : string → string → option (list GroupPod)) (schedulerName : string).

Definition podBelongsToPartition (pod : Pod) : bool :=
  (schedulerName ≟ "") || (anno pod SchedulerAnnotationKey ≟ schedulerName).

(** Whether the key is to be queued again. *)
Definition syncHandler (now : Z) (key : string) : Api bool :=
  match SplitMetaNamespaceKey key with
  | None => Ret false
  | Some (namespace, name) =>
      match pgLister namespace name with
      | GroupNotFound => Ret false
      | GroupError => Ret true
      | GroupFound pg =>
          if PodGroupFinalState (g_Phase pg) then Ret false else
          match GetAllPods namespace name with
          | None => Ret true
          | Some allPods =>
              let pods := filter (λ p, podBelongsToPartition (gp_Pod p) = true) allPods in
              let pgCopy := next_group now key pods pg in
              '(_, err) ← updatePodGroup pg pgCopy;
              Ret (negb ((match err with None => true | Some _ => false end) && PodGroupFinalState (g_Phase pgCopy)))
          end
      end
  end.

(** The key that an event of a pod group, or of a pod, adds to the queue. *)
Definition pgAdded (pg : Group) : option string :=
  if PodGroupFinalState (g_Phase pg) then None
  else let key := GetPodGroupKey pg in if (0 <? String.length key)%nat then Some key else None.
Definition podTrigger (pod : Pod) : option string :=
  if negb (podBelongsToPartition pod) then None else
  let pgName := GetPodGroupName pod in
  if pgName ≟ "" then None else
  match pgLister (Namespace pod) pgName with GroupFound pg => pgAdded pg | _ => None end.

(** ** The lock of the binder *)

Fixpoint retry_update (more : nat) (g : Group) : Api bool :=
  Update g (λ r, match r with
                 | inr _ => Ret true
                 | inl ErrOther => match more with S more => retry_update more g | O => Ret false end
                 | inl _ => Ret false
                 end).
Definition MaxRetryAttempts : nat := 3.
(** Whether the unit of that namespace and name may be bound by [operator]. *)
Definition LockPodGroupStatus (namespace name operator : string) : Api bool :=
  match pgLister namespace name with
  | GroupFound pg =>
      if PodGroupFinalOp pg ≟ "" then
        let '(pgCopy, ok) := PopulatePodGroupFinalOp pg operator in
        if ok then retry_update (MaxRetryAttempts - 1) pgCopy else Ret false
      else Ret (PodGroupFinalOp pg ≟ operator)
  | _ => Ret false
  end.
End controller.
