(* ===== verification/PodGroupSpec.v ===== *)
(** * Pod groups shared by controllers and binders

    The phase of a pod group follows the table of
    pkg/binder/controller/pod_group_state_machine.md, and never leaves a final state,
    whatever controllers and binders read from their caches and however their calls to
    the API server interleave.  The API server is an interface with the laws of
    optimistic concurrency. *)
From S2P Require Import Prelude GoStrings PodModel PodState PodGroup.

Local Open Scope godel_scope.
Local Open Scope string_scope.

(** ** The documented state machine *)

Inductive DfaState := Pending | PreScheduling | Scheduled | Timeout.
Definition dfa (q : DfaState) (m : Msg) : DfaState :=
  match q, m with
  | Pending, ScheduledUnsatisfied => PreScheduling
  | PreScheduling, CreatedUnsatisfied => Pending
  | (Pending | PreScheduling), ScheduledSatisfied => Scheduled
  | (Pending | PreScheduling), TimeoutSatisfied => Timeout
  | _, _ => q
  end.
(** The state that a phase stands for; a new group has no phase, and phases that are
    no longer used count as scheduled. *)
Definition phase_state (phase : string) : option DfaState :=
  if (phase ≟ "") || (phase ≟ PodGroupPending) then Some Pending
  else if phase ≟ PodGroupPreScheduling then Some PreScheduling
  else if (phase ≟ PodGroupScheduled) || (phase ≟ PodGroupRunning) || (phase ≟ PodGroupFinished) || (phase ≟ PodGroupFailed) then Some Scheduled
  else if phase ≟ PodGroupTimeout then Some Timeout
  else None.
(** What a synchronisation read: the group, its pods, and the clock. *)
Record Observed := { ob_group : Group; ob_pods : list GroupPod; ob_now : Z }.
Definition ob_created (o : Observed) : Z := wrap32 (Z.of_nat (length (ob_pods o))).
Definition ob_scheduled (o : Observed) : Z := wrap32 (Z.of_nat (length (filter (λ p, BoundPod (gp_Pod p) = true) (ob_pods o)))).
Definition has_run (o : Observed) : Prop := ∃ p, p ∈ ob_pods o ∧ (gp_Phase p = "Running" ∨ gp_Phase p = "Succeeded" ∨ gp_Phase p = "Failed").
(** The column of the table for it.  A pod that has run counts as enough, which the
    table does not say; enough pods come before the time-out. *)
Definition enough (o : Observed) : Prop :=
  has_run o ∨ (g_MinMember (ob_group o) <= ob_created o)%Z ∧ (g_MinMember (ob_group o) <= ob_scheduled o)%Z.
Definition shows (o : Observed) (m : Msg) : Prop :=
  match m with
  | CreatedUnsatisfied => ¬ has_run o ∧ (ob_created o < g_MinMember (ob_group o))%Z
  | ScheduledUnsatisfied => ¬ has_run o ∧ (g_MinMember (ob_group o) <= ob_created o)%Z ∧ (ob_scheduled o < g_MinMember (ob_group o))%Z
  | ScheduledSatisfied => enough o
  | TimeoutSatisfied => ¬ enough o ∧ podGroupTimeout (ob_now o) (ob_group o) = true
  end.
(** The move of the table for what one of the synchronisations read in that phase. *)
Definition dfa_move (obs : list Observed) (older newer : string) : Prop := ∃ o q m,
  o ∈ obs ∧ g_Phase (ob_group o) = older ∧ shows o m ∧ phase_state older = Some q ∧ phase_state newer = Some (dfa q m).
Lemma dfa_move_mono obs obs' older newer : obs ⊆ obs' → dfa_move obs older newer → dfa_move obs' older newer.
Proof. intros Hs (o & q & m & Ho & H). exists o, q, m. split; [by apply Hs|done]. Qed.

Definition final_lock (g : Group) : option string := g_Annotations g ≫= (.!! PodGroupFinalOpLock).

(** ** The API server *)

(** A write is refused unless its resource version is that of the stored object; a
    write that succeeds raises the version; status and the rest are written apart.  A
    write that reports an error may have been applied. *)
Class ApiServer := {
  srv_Update : Group → Group → Group → ApiError + Group → Prop;
  srv_UpdateStatus : Group → Group → Group → option ApiError → Prop
}.
Definition applied_update (g w w' : Group) : Prop :=
  g_ResourceVersion g = g_ResourceVersion w ∧ (g_ResourceVersion w < g_ResourceVersion w')%Z ∧ g_Annotations w' = g_Annotations g ∧ g_Phase w' = g_Phase w.
Definition applied_status (g w w' : Group) : Prop :=
  g_ResourceVersion g = g_ResourceVersion w ∧ (g_ResourceVersion w < g_ResourceVersion w')%Z ∧ g_Annotations w' = g_Annotations w ∧ g_Phase w' = g_Phase g.
Class ApiServerLaws (S : ApiServer) : Prop := {
  update_ok g w w' g' : srv_Update g w w' (inr g') → g' = w' ∧ applied_update g w w';
  update_error g w w' e : srv_Update g w w' (inl e) → w' = w ∨ applied_update g w w';
  status_ok g w w' : srv_UpdateStatus g w w' None → applied_status g w w';
  status_error g w w' e : srv_UpdateStatus g w w' (Some e) → w' = w ∨ applied_status g w w'
}.

(** ** Controllers and binders at work *)

Inductive Outcome := Synced (reEnqueue : bool) | LockDone (ok : bool).
(** [seen] is what the synchronisations started so far have read. *)
Record System := { stored : Group; past : list Group; procs : list (Api Outcome); binding : bool; seen : list Observed }.
Definition versions (s : System) : list Group := stored s :: past s.
Definition start_system (g : Group) : System := {| stored := g; past := []; procs := []; binding := false; seen := [] |}.
Definition spawn (p : Api Outcome) (obs : list Observed) (s : System) : System :=
  {| stored := stored s; past := past s; procs := p :: procs s; binding := binding s; seen := obs ++ seen s |}.
Definition proceed (i : nat) (w' : Group) (p : Api Outcome) (s : System) : System :=
  {| stored := w'; past := if bool_decide (w' = stored s) then past s else stored s :: past s; procs := <[i := p]> (procs s); binding := binding s; seen := seen s |}.
(** A lister answers with any version there was. *)
Definition stale (s : System) (pgLister : string → string → GroupLookup) : Prop :=
  ∀ namespace name g, pgLister namespace name = GroupFound g → g ∈ versions s.

Definition observed (pgLister : string → string → GroupLookup) (GetAllPods : string → string → option (list GroupPod)) (schedulerName : string)
    (now : Z) (key : string) : list Observed :=
  match SplitMetaNamespaceKey key with
  | None => []
  | Some (namespace, name) =>
      match pgLister namespace name, GetAllPods namespace name with
      | GroupFound g, Some pods =>
          [{| ob_group := g; ob_pods := filter (λ p, podBelongsToPartition schedulerName (gp_Pod p) = true) pods; ob_now := now |}]
      | _, _ => []
      end
  end.

Inductive sys_step {S : ApiServer} (s : System) : System → Prop :=
| start_sync pgLister pods schedulerName now key :
    stale s pgLister →
    sys_step s (spawn (reEnqueue ← syncHandler pgLister pods schedulerName now key; Ret (Synced reEnqueue))
                (observed pgLister pods schedulerName now key) s)
| start_lock pgLister namespace name :
    stale s pgLister →
    sys_step s (spawn (ok ← LockPodGroupStatus pgLister namespace name "binder"; Ret (LockDone ok)) [] s)
| call_update i g k w' r :
    procs s !! i = Some (Update g k) → srv_Update g (stored s) w' r → sys_step s (proceed i w' (k r) s)
| call_status i g k w' r :
    procs s !! i = Some (UpdateStatus g k) → srv_UpdateStatus g (stored s) w' r → sys_step s (proceed i w' (k r) s)
| lock_done i :
    procs s !! i = Some (Ret (LockDone true)) →
    sys_step s {| stored := stored s; past := past s; procs := procs s; binding := true; seen := seen s |}
| others_write w' :
    (g_ResourceVersion (stored s) < g_ResourceVersion w')%Z → final_lock w' = final_lock (stored s) → g_Phase w' = g_Phase (stored s) →
    sys_step s {| stored := w'; past := stored s :: past s; procs := procs s; binding := binding s; seen := seen s |}.

(** ** What a caller may do *)

(** Each call is prepared from a version that was stored: an update keeps a lock that
    was there; a new status follows an edge of the table from a state that is not
    final, and times out only under the lock of the controller. *)
Fixpoint proc_ok (obs : list Observed) (vs : list Group) (p : Api Outcome) : Prop :=
  match p with
  | Ret (LockDone true) => ∃ v, v ∈ vs ∧ final_lock v = Some "binder"
  | Ret _ => True
  | Update g k =>
      ∃ v, v ∈ vs ∧ g_ResourceVersion v = g_ResourceVersion g ∧ (final_lock v = None ∨ final_lock v = final_lock g) ∧
        (∀ e, proc_ok obs vs (k (inl e))) ∧
        (∀ g', g_Annotations g' = g_Annotations g → g_Phase g' = g_Phase v → proc_ok obs (g' :: vs) (k (inr g')))
  | UpdateStatus g k =>
      ∃ v, v ∈ vs ∧ g_ResourceVersion v = g_ResourceVersion g ∧ PodGroupFinalState (g_Phase v) = false ∧
        (g_Phase g = PodGroupTimeout → final_lock v = Some "pg-controller") ∧
        (is_Some (phase_state (g_Phase v)) → dfa_move obs (g_Phase v) (g_Phase g)) ∧ (∀ r, proc_ok obs vs (k r))
  end.

Lemma proc_ok_mono obs obs' vs vs' p : obs ⊆ obs' → vs ⊆ vs' → proc_ok obs vs p → proc_ok obs' vs' p.
Proof.
  intros Ho. induction p as [[|[]]|g k IH|g k IH] in vs, vs' |- *; intros Hs; simpl; [done| | done | |].
  - intros (v & Hv & Hl). exists v. split; [by apply Hs|done].
  - intros (v & Hv & Hrv & Hl & He & Hok). exists v. split_and!; [by apply Hs|done|done| |].
    + intros e. by eapply IH.
    + intros g' H1 H2. eapply IH; [|by apply Hok]. set_solver.
  - intros (v & Hv & Hrv & Hf & Ht & Hd & Hk). exists v. split_and!; [by apply Hs|done|done|done| |].
    + intros Hk'. by eapply dfa_move_mono; [|apply Hd].
    + intros r. by eapply IH.
Qed.

(** ** What a synchronisation writes *)

Lemma condition_keeps now ph msg g :
  g_Annotations (updatePodGroupCondition now ph msg g) = g_Annotations g ∧ g_ResourceVersion (updatePodGroupCondition now ph msg g) = g_ResourceVersion g ∧
  g_Phase (updatePodGroupCondition now ph msg g) = g_Phase g ∧ g_MinMember (updatePodGroupCondition now ph msg g) = g_MinMember g.
Proof. done. Qed.

(** The documented state machine without its time-out, on the phases in use. *)
Lemma Step_spec now g m :
  let '(g', ph) := Step now g m in
  g_Annotations g' = g_Annotations g ∧ g_ResourceVersion g' = g_ResourceVersion g ∧
  (m ≠ TimeoutSatisfied → ∀ q, phase_state (g_Phase g) = Some q → phase_state ph = Some (dfa q m)) ∧
  (ph = PodGroupTimeout → g_Phase g = PodGroupTimeout) ∧
  (PodGroupFinalState ph = false → ∀ q, phase_state (g_Phase g) = Some q → q = Pending ∨ q = PreScheduling).
Proof.
  unfold Step, phase_state, PodGroupFinalState.
  destruct (decide (g_Phase g = "")) as [->|H0]; [by destruct m; split_and!; try done; intros ? ? [= <-]; auto|rw (bool_decide_eq_false_2 _ H0)].
  destruct (decide (g_Phase g = PodGroupRunning)) as [->|H1]; [by destruct m; split_and!; try done; intros ? ? [= <-]|rw (bool_decide_eq_false_2 _ H1)].
  destruct (decide (g_Phase g = PodGroupFinished)) as [->|H2]; [by destruct m; split_and!; try done; intros ? ? [= <-]|rw (bool_decide_eq_false_2 _ H2)].
  destruct (decide (g_Phase g = PodGroupFailed)) as [->|H3]; [by destruct m; split_and!; try done; intros ? ? [= <-]|rw (bool_decide_eq_false_2 _ H3)].
  destruct (decide (g_Phase g = PodGroupPending)) as [->|H4]; [by destruct m; split_and!; try done; intros ? ? [= <-]; auto|rw (bool_decide_eq_false_2 _ H4)].
  destruct (decide (g_Phase g = PodGroupPreScheduling)) as [->|H5]; [by destruct m; split_and!; try done; intros ? ? [= <-]; auto|rw (bool_decide_eq_false_2 _ H5)].
  simpl. rw !(bool_decide_eq_false_2 _ H4) !(bool_decide_eq_false_2 _ H5). simpl.
  split_and!; try done; repeat case_bool_decide; simpl; try done; intros; simplify_eq; try done; by destruct m.
Qed.

Lemma Step_scheduled now g q : phase_state (g_Phase g) = Some q → PodGroupFinalState (Step now g ScheduledSatisfied).2 = true.
Proof.
  intros Hq. assert (g_Phase g ∈ [""; PodGroupPending; PodGroupPreScheduling; PodGroupScheduled; PodGroupRunning; PodGroupFinished; PodGroupFailed; PodGroupTimeout]) as Hin.
  { unfold phase_state in Hq. repeat case_bool_decide; simpl in Hq; simplify_eq; set_solver. }
  unfold Step. repeat (apply elem_of_cons in Hin as [->|Hin]; [vm_compute; reflexivity|]). by apply elem_of_nil in Hin.
Qed.
Lemma Step_timeout now g m : podGroupTimeout now (Step now g m).1 = podGroupTimeout now g.
Proof.
  unfold Step. cbv zeta. destruct (g_Phase g ≟ ""); destruct (_ || _); destruct (_ ≟ PodGroupPending); [by destruct m| |by destruct m| |by destruct m| |by destruct m|];
    (destruct (_ ≟ PodGroupPreScheduling); [by destruct m|done]).
Qed.
Lemma pods_message_spec minMember pods : pods_message minMember pods ≠ TimeoutSatisfied.
Proof. unfold pods_message. by repeat case_match. Qed.
(** The message of the code is the column of the table. *)
Lemma message_shows o : shows o (pods_message (g_MinMember (ob_group o)) (ob_pods o)) ∧
  (enough o → pods_message (g_MinMember (ob_group o)) (ob_pods o) = ScheduledSatisfied).
Proof.
  unfold pods_message. set (over := existsb _ (ob_pods o)). fold (ob_created o) (ob_scheduled o).
  assert (over = true ↔ has_run o) as Hover.
  { subst over. rw existsb_exists. unfold has_run. split; intros (p & Hp & H); exists p; (split; [by apply list_elem_of_In|]).
    - rw !orb_true_iff !bool_decide_eq_true in H. tauto.
    - rw !orb_true_iff !bool_decide_eq_true. tauto. }
  unfold shows, enough. destruct over.
  - split; [|done]. left. by apply Hover.
  - assert (¬ has_run o) as Hno by (intros H; by apply Hover in H).
    destruct (Z.ltb_spec (ob_created o) (g_MinMember (ob_group o))); [split; [done|intros [?|?]; [done|lia]]|].
    destruct (Z.ltb_spec (ob_scheduled o) (g_MinMember (ob_group o))); [split; [done|intros [?|?]; [done|lia]]|]. split; [by right|done].
Qed.

Lemma fill_keeps pod g : 
  g_Annotations (fillOccupiedObj pod g) = g_Annotations g ∧ g_ResourceVersion (fillOccupiedObj pod g) = g_ResourceVersion g ∧
  g_Phase (fillOccupiedObj pod g) = g_Phase g ∧ g_MinMember (fillOccupiedObj pod g) = g_MinMember g.
Proof. unfold fillOccupiedObj. by case_match. Qed.

Lemma populate_spec g op g' b : PopulatePodGroupFinalOp g op = (g', b) →
  g_ResourceVersion g' = g_ResourceVersion g ∧ g_Phase g' = g_Phase g ∧ (b = true → final_lock g' = Some op) ∧
  (final_lock g = None ∨ final_lock g' = final_lock g).
Proof.
  unfold PopulatePodGroupFinalOp, final_lock. destruct (g_Annotations g) as [a|] eqn:Ea; simpl.
  - destruct (a !! _) as [o|] eqn:El; intros [= <- <-]; simpl; split_and!; try done.
    + rw El. by intros ->%bool_decide_eq_true.
    + right. by rw El.
    + intros _. by rw lookup_insert_eq.
    + by left.
  - intros [= <- <-]. simpl. split_and!; [done|done| |by left]. intros _. exact (lookup_insert_eq ∅ _ _).
Qed.

Lemma next_group_spec now key pods pg :
  let n := next_group now key pods pg in
  PodGroupFinalState (g_Phase pg) = false →
  g_ResourceVersion n = g_ResourceVersion pg ∧ (final_lock pg = None ∨ final_lock n = final_lock pg) ∧
  (g_Phase n = PodGroupTimeout → final_lock n = Some "pg-controller") ∧
  (is_Some (phase_state (g_Phase pg)) → dfa_move [{| ob_group := pg; ob_pods := pods; ob_now := now |}] (g_Phase pg) (g_Phase n)).
Proof.
  intros n Hf. set (o := {| ob_group := pg |}). subst n. unfold next_group.
  set (pc := match pods with p :: _ => fillOccupiedObj (gp_Pod p) pg | [] => pg end).
  assert (g_Annotations pc = g_Annotations pg ∧ g_ResourceVersion pc = g_ResourceVersion pg ∧ g_Phase pc = g_Phase pg ∧ g_MinMember pc = g_MinMember pg ∧
    podGroupTimeout now pc = podGroupTimeout now pg) as (Ha & Hr & Hp & Hmin & Hto).
  { subst pc. destruct pods as [|x pods]; [done|]. destruct (fill_keeps (gp_Pod x) pg) as (? & ? & ? & ?). split_and!; try done. unfold fillOccupiedObj. by case_match. }
  rw Hmin. pose proof (message_shows o) as [Hsh Hen]. cbn [ob_group ob_pods o] in Hsh, Hen.
  pose proof (Step_spec now pc (pods_message (g_MinMember pg) pods)) as HS. pose proof (Step_timeout now pc (pods_message (g_MinMember pg) pods)) as Hst.
  assert (∀ q, phase_state (g_Phase pg) = Some q → enough o → PodGroupFinalState (Step now pc (pods_message (g_MinMember pg) pods)).2 = true) as Hfin.
  { intros q Eq ->%Hen. apply (Step_scheduled now pc q). by rw Hp. }
  destruct (Step _ _ _) as [g' ph]. destruct HS as (Ha' & Hr' & Hd & Ht & Hq). cbn [fst snd] in Hst, Hfin.
  assert (is_Some (phase_state (g_Phase pg)) → dfa_move [o] (g_Phase pg) ph) as Hmove.
  { intros [q Eq]. exists o, q, (pods_message (g_MinMember pg) pods). split_and!; [by left|done|done|done|]. apply Hd; [apply pods_message_spec|by rw Hp]. }
  assert (final_lock g' = final_lock pg) as Hl by (unfold final_lock; by rw Ha' Ha).
  destruct (negb (PodGroupFinalState ph) && podGroupTimeout now g') eqn:Eto.
  - apply andb_prop in Eto as [Enf Eover]. apply negb_true_iff in Enf.
    destruct (PopulatePodGroupFinalOp g' "pg-controller") as [g2 b] eqn:Epop. apply populate_spec in Epop as (HA & HB & HC & HD). rw Hl in HD.
    destruct b; simpl.
    + split_and!; [congruence|done|by intros _; apply HC|]. intros [q Eq]. exists o, q, TimeoutSatisfied. split_and!; [by left|done| |done|].
      * split; [|by rw -Hto -Hst]. intros Hen'. by rw (Hfin q Eq Hen') in Enf.
      * destruct (Hq Enf q) as [-> | ->]; [by rw Hp|done|done].
    + split_and!; [congruence|done| |done]. intros ->. exfalso. by vm_compute in Enf.
  - simpl. split_and!; [congruence|right; exact Hl| |done]. intros ->. rw Hp in Ht. rw (Ht eq_refl) in Hf. done.
Qed.

Lemma sync_ok vs pgLister pods schedulerName now key :
  (∀ ns n g, pgLister ns n = GroupFound g → g ∈ vs) →
  proc_ok (observed pgLister pods schedulerName now key) vs (reEnqueue ← syncHandler pgLister pods schedulerName now key; Ret (Synced reEnqueue)).
Proof.
  intros Hst. unfold syncHandler, observed. destruct (SplitMetaNamespaceKey key) as [[ns nm]|]; [|done].
  destruct (pgLister ns nm) as [pg| |] eqn:Epg; [|done|done]. apply Hst in Epg.
  destruct (PodGroupFinalState (g_Phase pg)) eqn:Ef; [done|]. destruct (pods ns nm) as [all|]; [|done].
  pose proof (next_group_spec now key (filter (λ p, podBelongsToPartition schedulerName (gp_Pod p) = true) all) pg Ef) as (Hr & Hl & Ht & Hd).
  set (n := next_group _ _ _ pg) in *. unfold updatePodGroup.
  destruct (bool_decide (pg = n)); [done|]. case_bool_decide as Ea.
  - case_bool_decide as Ep; [done|]. simpl. exists pg. split_and!; [done|done|done| |done|by intros []].
    intros E. rw -(Ht E). unfold final_lock. by rw Ea.
  - simpl. exists pg. split_and!; [done|done|destruct Hl; [by left|by right]|done|].
    intros g' Ha Hp. case_bool_decide as Ep; [done|]. simpl. exists g'. split_and!; [set_solver|done|by rw Hp| | |by intros []].
    + intros E. rw -(Ht E). unfold final_lock. by rw Ha.
    + by rw Hp.
Qed.

Lemma retry_ok obs more vs g v : v ∈ vs → g_ResourceVersion v = g_ResourceVersion g → (final_lock v = None ∨ final_lock v = final_lock g) →
  final_lock g = Some "binder" → proc_ok obs vs (ok ← retry_update more g; Ret (LockDone ok)).
Proof.
  intros Hv Hr Hl Hg. induction more as [|more IH]; simpl; exists v; split_and!; try done.
  - by intros [].
  - intros g' Ha _. exists g'. split; [set_solver|]. unfold final_lock in *. by rw Ha.
  - by intros [].
  - intros g' Ha _. exists g'. split; [set_solver|]. unfold final_lock in *. by rw Ha.
Qed.
Lemma lock_ok obs vs pgLister namespace name :
  (∀ ns n g, pgLister ns n = GroupFound g → g ∈ vs) →
  proc_ok obs vs (ok ← LockPodGroupStatus pgLister namespace name "binder"; Ret (LockDone ok)).
Proof.
  intros Hst. unfold LockPodGroupStatus. destruct (pgLister namespace name) as [pg| |] eqn:Epg; [|done|done]. apply Hst in Epg.
  case_bool_decide as E0.
  - destruct (PopulatePodGroupFinalOp pg "binder") as [pc ok] eqn:Epop. apply populate_spec in Epop as (HA & HB & HC & HD).
    destruct ok; [|done]. apply (retry_ok _ _ vs pc pg); [done|done| |by apply HC]. destruct HD; [by left|by right].
  - destruct (decide (PodGroupFinalOp pg = "binder")) as [E|E]; [rw (bool_decide_eq_true_2 _ E)|by rw (bool_decide_eq_false_2 _ E)].
    simpl. exists pg. split; [done|]. unfold PodGroupFinalOp in E. unfold final_lock. by destruct (_ ≫= _); [simpl in E; f_equal|].
Qed.

(** ** The invariant *)

Definition newer_than (newer older : Group) : Prop := (g_ResourceVersion older < g_ResourceVersion newer)%Z.
Definition phase_step (obs : list Observed) (newer older : Group) : Prop := g_Phase newer = g_Phase older ∨ dfa_move obs (g_Phase older) (g_Phase newer).
Record sys_inv (s : System) : Prop := {
  si_order : StronglySorted newer_than (versions s);
  si_lock : ∀ v, v ∈ versions s → final_lock v = None ∨ final_lock v = final_lock (stored s);
  si_final : ∀ v, v ∈ past s → PodGroupFinalState (g_Phase v) = true → g_Phase (stored s) = g_Phase v;
  si_known : is_Some (phase_state (g_Phase (stored s)));
  si_path : Sorted (phase_step (seen s)) (versions s);
  si_timeout : g_Phase (stored s) = PodGroupTimeout → final_lock (stored s) = Some "pg-controller";
  si_binding : binding s = true → final_lock (stored s) = Some "binder";
  si_procs : Forall (proc_ok (seen s) (versions s)) (procs s)
}.

Lemma current_version s v : sys_inv s → v ∈ versions s → g_ResourceVersion v = g_ResourceVersion (stored s) → v = stored s.
Proof.
  intros I [-> | Hv]%elem_of_cons E; [done|]. pose proof (si_order _ I) as H. inversion H as [|? ? _ HF]; subst.
  rw Forall_forall in HF. specialize (HF _ Hv). unfold newer_than in HF. lia.
Qed.

(** A write that keeps the lock, and changes the phase along the table. *)
Lemma inv_write s w' ps b :
  sys_inv s → newer_than w' (stored s) →
  (final_lock (stored s) = None ∨ final_lock w' = final_lock (stored s)) →
  (g_Phase w' = g_Phase (stored s) ∨ PodGroupFinalState (g_Phase (stored s)) = false ∧ dfa_move (seen s) (g_Phase (stored s)) (g_Phase w')) →
  (g_Phase w' = PodGroupTimeout → final_lock w' = Some "pg-controller") →
  (b = true → final_lock w' = Some "binder") →
  Forall (proc_ok (seen s) (w' :: versions s)) ps →
  sys_inv {| stored := w'; past := versions s; procs := ps; binding := b; seen := seen s |}.
Proof.
  intros I Hn Hl Hp Ht Hb Hps. split; unfold versions; simpl; try done.
  - constructor; [exact (si_order _ I)|]. constructor; [done|]. pose proof (si_order _ I) as H. inversion H as [|? ? _ HF]; subst.
    eapply Forall_impl; [exact HF|]. unfold newer_than in *. simpl. lia.
  - intros v [-> | Hv]%elem_of_cons; [by right|]. destruct (si_lock _ I v Hv) as [E|E]; [by left|]. rw E. destruct Hl as [-> | ->]; auto.
  - intros v [-> | Hv]%elem_of_cons Hf.
    + destruct Hp as [Hp|[Hp _]]; [done|congruence].
    + rw -(si_final _ I v Hv Hf). destruct Hp as [Hp|[Hp _]]; [done|]. rw (si_final _ I v Hv Hf) in Hp. congruence.
  - destruct Hp as [-> |[_ (o & q & m & _ & _ & _ & _ & ->)]]; [apply (si_known _ I)|done].
  - constructor; [exact (si_path _ I)|]. constructor. destruct Hp as [Hp|[_ Hp]]; [by left|by right].
Qed.

Lemma procs_mono obs obs' vs vs' ps : obs ⊆ obs' → vs ⊆ vs' → Forall (proc_ok obs vs) ps → Forall (proc_ok obs' vs') ps.
Proof. intros Ho Hs HF. eapply Forall_impl; [exact HF|]. intros p. by apply proc_ok_mono. Qed.
Lemma path_mono obs obs' vs : obs ⊆ obs' → Sorted (phase_step obs) vs → Sorted (phase_step obs') vs.
Proof.
  intros Ho. assert (∀ x y, phase_step obs x y → phase_step obs' x y) as Hstep by (intros x y [?|?]; [by left|right; by eapply dfa_move_mono]).
  induction 1 as [|x l HS IH Hd]; [constructor|]. constructor; [done|]. destruct Hd; constructor. by apply Hstep.
Qed.

Lemma inv_spawn s p obs : sys_inv s → proc_ok obs (versions s) p → sys_inv (spawn p obs s).
Proof.
  intros [? ? ? ? Hpath ? ? Hps] Hp. split; try done; cbn [seen spawn].
  - by eapply path_mono; [|exact Hpath]; set_solver.
  - constructor; [eapply proc_ok_mono; [| |exact Hp]; set_solver|]. eapply procs_mono; [| |exact Hps]; set_solver.
Qed.

Lemma inv_same s i p b : sys_inv s → proc_ok (seen s) (versions s) p → (b = true → final_lock (stored s) = Some "binder") →
  sys_inv {| stored := stored s; past := past s; procs := <[i := p]> (procs s); binding := b; seen := seen s |}.
Proof. intros [] Hp Hb. split; try done. by apply Forall_insert. Qed.

Lemma inv_update `{S : ApiServer, !ApiServerLaws S} s i g k w' r :
  sys_inv s → procs s !! i = Some (Update g k) → srv_Update g (stored s) w' r → sys_inv (proceed i w' (k r) s).
Proof.
  intros I Hi Hw. pose proof (si_procs _ I) as HF. rw Forall_lookup in HF. destruct (HF _ _ Hi) as (v & Hv & Hr & Hl & He & Hok).
  assert (w' = stored s ∧ r = inl (match r with inl e => e | inr _ => ErrOther end) ∨
          applied_update g (stored s) w' ∧ (r = inr w' ∨ ∃ e, r = inl e)) as [(-> & ->)|(Ha & Hres)].
  { destruct r as [e|g']; [destruct (update_error _ _ _ _ Hw); eauto|]. destruct (update_ok _ _ _ _ Hw) as [-> ?]. eauto. }
  - unfold proceed. rw bool_decide_eq_true_2 //. apply inv_same; [done|apply He|apply (si_binding _ I)].
  - destruct Ha as (A1 & A2 & A3 & A4). assert (v = stored s) as -> by (apply current_version; [done|done|congruence]).
    assert (w' ≠ stored s) as Hne by (intros ->; lia). unfold proceed. rw (bool_decide_eq_false_2 _ Hne).
    assert (final_lock w' = final_lock g) as Elw by (unfold final_lock; by rw A3).
    apply (inv_write s); [done|done|destruct Hl; [by left|right; congruence]|by left| | |].
    + rw A4. intros E. destruct Hl as [E'|E']; [by rw (si_timeout _ I E) in E'|]. rw Elw -E'. by apply (si_timeout _ I).
    + intros E. destruct Hl as [E'|E']; [by rw (si_binding _ I E) in E'|]. rw Elw -E'. by apply (si_binding _ I).
    + apply Forall_insert; [by eapply procs_mono; [| |exact (si_procs _ I)]; set_solver|].
      destruct Hres as [-> |(e & ->)]; [by apply Hok|]. eapply proc_ok_mono; [| |apply He]; set_solver.
Qed.

Lemma inv_status `{S : ApiServer, !ApiServerLaws S} s i g k w' r :
  sys_inv s → procs s !! i = Some (UpdateStatus g k) → srv_UpdateStatus g (stored s) w' r → sys_inv (proceed i w' (k r) s).
Proof.
  intros I Hi Hw. pose proof (si_procs _ I) as HF. rw Forall_lookup in HF. destruct (HF _ _ Hi) as (v & Hv & Hr & Hf & Ht & Hd & Hk).
  assert (w' = stored s ∨ applied_status g (stored s) w') as [-> |(A1 & A2 & A3 & A4)].
  { destruct r as [e|]; [by apply (status_error _ _ _ _ Hw)|]. right. by apply status_ok. }
  - unfold proceed. rw bool_decide_eq_true_2 //. apply inv_same; [done|apply Hk|apply (si_binding _ I)].
  - assert (v = stored s) as -> by (apply current_version; [done|done|congruence]).
    assert (w' ≠ stored s) as Hne by (intros ->; lia). unfold proceed. rw (bool_decide_eq_false_2 _ Hne).
    assert (final_lock w' = final_lock (stored s)) as Elw by (unfold final_lock; by rw A3).
    apply (inv_write s); [done|done|by right| | | |].
    + right. split; [done|]. rw A4. apply Hd, (si_known _ I).
    + rw A4 Elw. exact Ht.
    + rw Elw. apply (si_binding _ I).
    + apply Forall_insert; [by eapply procs_mono; [| |exact (si_procs _ I)]; set_solver|].
      eapply proc_ok_mono; [| |apply Hk]; set_solver.
Qed.

Lemma inv_step `{S : ApiServer, !ApiServerLaws S} s s' : sys_inv s → sys_step s s' → sys_inv s'.
Proof.
  intros I [pgLister pods sn now key Hst|pgLister ns n Hst|i g k w' r Hi Hw|i g k w' r Hi Hw|i Hi|w' Hn Hl Hp].
  - apply inv_spawn; [done|]. by apply sync_ok.
  - apply inv_spawn; [done|]. by apply lock_ok.
  - by eapply inv_update.
  - by eapply inv_status.
  - pose proof (si_procs _ I) as HF. rw Forall_lookup in HF. destruct (HF _ _ Hi) as (v & Hv & El).
    rw -(list_insert_id _ _ _ Hi). apply inv_same; [done|simpl; eauto|]. intros _.
    destruct (si_lock _ I v Hv) as [E|E]; congruence.
  - apply (inv_write s); [done|done|by right|by left| | |].
    + rw Hp Hl. apply (si_timeout _ I).
    + rw Hl. apply (si_binding _ I).
    + eapply procs_mono; [| |exact (si_procs _ I)]; set_solver.
Qed.

(** A group when it is created, or at any time before a final state. *)
Definition fresh_group (g : Group) : Prop := is_Some (phase_state (g_Phase g)) ∧ g_Phase g ≠ PodGroupTimeout ∧ final_lock g = None.
Lemma inv_reach `{S : ApiServer, !ApiServerLaws S} g s : fresh_group g → rtc sys_step (start_system g) s → sys_inv s.
Proof.
  intros (Hk & Ht & Hl). revert s. apply (rtc_ind_r sys_inv).
  - split; unfold versions; simpl; try done; [by repeat constructor| |by intros ? ?%elem_of_nil|by repeat constructor].
    intros v ->%list_elem_of_singleton. by left.
  - intros y z _ Hs I. by eapply inv_step.
Qed.

(** ** A synchronisation on its own *)

(** A run of calls that nothing interrupts. *)
Inductive runs {S : ApiServer} {A} : Api A → Group → Group → A → Prop :=
| runs_ret a w : runs (Ret a) w w a
| runs_update g k w w' w'' r a : srv_Update g w w' r → runs (k r) w' w'' a → runs (Update g k) w w'' a
| runs_status g k w w' w'' r a : srv_UpdateStatus g w w' r → runs (k r) w' w'' a → runs (UpdateStatus g k) w w'' a.
(** A write of the current version can succeed. *)
Class ReliableServer (S : ApiServer) : Prop := {
  update_possible g w : g_ResourceVersion g = g_ResourceVersion w → ∃ w', srv_Update g w w' (inr w');
  status_possible g w : g_ResourceVersion g = g_ResourceVersion w → ∃ w', srv_UpdateStatus g w w' None
}.

Lemma Step_open now g m q : m ≠ TimeoutSatisfied → phase_state (g_Phase g) = Some q → PodGroupFinalState (g_Phase g) = false →
  q = Pending ∨ q = PreScheduling → phase_state (Step now g m).2 = Some (dfa q m) ∧
  podGroupTimeout now (Step now g m).1 = podGroupTimeout now g ∧ g_Annotations (Step now g m).1 = g_Annotations g ∧
  (PodGroupFinalState (Step now g m).2 = true ↔ m = ScheduledSatisfied) ∧ (m = ScheduledSatisfied → (Step now g m).2 = PodGroupScheduled).
Proof.
  intros Hm Hq Hf Ho. pose proof (Step_spec now g m) as HS.
  assert (g_Phase g = "" ∨ g_Phase g = PodGroupPending ∨ g_Phase g = PodGroupPreScheduling) as Hp.
  { unfold phase_state in Hq. repeat case_bool_decide; simpl in Hq; try (by auto); destruct Ho; simplify_eq. }
  destruct (Step now g m) as [g' ph] eqn:E. destruct HS as (H1 & H2 & H3 & H4 & H5). simpl.
  split; [by apply H3|]. unfold Step in E. destruct Hp as [E0|[E0|E0]]; rw E0 in E; destruct m; try done; vm_compute (bool_decide _) in E; simplify_eq/=; done.
Qed.

Lemma next_group_phase now key pods pg q :
  phase_state (g_Phase pg) = Some q → PodGroupFinalState (g_Phase pg) = false → q = Pending ∨ q = PreScheduling →
  podGroupTimeout now pg = true → final_lock pg = None ∨ final_lock pg = Some "pg-controller" →
  g_Phase (next_group now key pods pg) = if decide (pods_message (g_MinMember pg) pods = ScheduledSatisfied) then PodGroupScheduled else PodGroupTimeout.
Proof.
  intros Hq Hf Ho Hto Hl. unfold next_group. set (pc := match pods with p :: _ => fillOccupiedObj (gp_Pod p) pg | [] => pg end).
  assert (g_Annotations pc = g_Annotations pg ∧ g_Phase pc = g_Phase pg ∧ g_MinMember pc = g_MinMember pg ∧ podGroupTimeout now pc = podGroupTimeout now pg)
    as (Ha & Hp & Hmin & Hto').
  { subst pc. destruct pods; [done|]. unfold fillOccupiedObj. by case_match. }
  rw Hmin. rw -Hp in Hq. rw -Hp in Hf.
  destruct (Step_open now pc (pods_message (g_MinMember pg) pods) q (pods_message_spec _ _) Hq Hf Ho) as (_ & S2 & S3 & S4 & S5).
  destruct (Step now pc _) as [g' ph]. simpl in *. rw S2 Hto' Hto andb_true_r. case_decide as Em.
  - rw (S5 Em). done.
  - destruct (PodGroupFinalState ph) eqn:Efp; [by pose proof (proj1 S4 eq_refl)|]. simpl.
    unfold PopulatePodGroupFinalOp. unfold final_lock in Hl. rw S3 Ha.
    assert (default ∅ (g_Annotations pg) !! PodGroupFinalOpLock = g_Annotations pg ≫= (.!! PodGroupFinalOpLock)) as Ed by (by destruct (g_Annotations pg)).
    rw Ed. destruct Hl as [-> | ->]; done.
Qed.

(** ** Properties *)

(** C12: The phase of a pod group follows the documented state machine, from a group
    with a known phase other than Timeout and without a lock ([fresh_group]): whatever
    versions of the group controllers and binders read from their caches, and however
    their calls to the API server interleave, fail, or are applied and reported as
    failed, each version that was stored has the phase of the one before it, or the
    phase to which the table leads from it under the message that a synchronisation
    observed, which read the group in that very phase: from the pods it counted
    against the minimum of the group, and from the clock, where enough pods come before
    the time-out.  The message departs from the table in one point: a pod that runs or
    has run counts as enough even if fewer pods than the minimum were created.  Once
    the phase is Scheduled or Timeout it never changes. *)
Theorem group_phase_refines_dfa {S : ApiServer} `{!ApiServerLaws S} (g : Group) (s : System) (Hg : fresh_group g)
    (Hr : rtc sys_step (start_system g) s) :
  Sorted (λ newer older, g_Phase newer = g_Phase older ∨ dfa_move (seen s) (g_Phase older) (g_Phase newer)) (versions s) ∧
  (∀ v, v ∈ past s → PodGroupFinalState (g_Phase v) = true → g_Phase (stored s) = g_Phase v).
Proof. pose proof (inv_reach g s Hg Hr) as I. split; [exact (si_path _ I)|exact (si_final _ I)]. Qed.

(** C13: When a binder was told that it may bind the pods of the group, no version of
    the group ever is in the phase Timeout, now or later; and when the group timed out,
    no binder that asks from then on may bind it. *)
Theorem binder_excludes_timeout {S : ApiServer} `{!ApiServerLaws S} (g : Group) (s s' : System) (Hg : fresh_group g)
    (Hr : rtc sys_step (start_system g) s) (Hr' : rtc sys_step s s') :
  (binding s = true → ∀ v, v ∈ versions s' → g_Phase v ≠ PodGroupTimeout) ∧
  (g_Phase (stored s) = PodGroupTimeout → binding s' = false).
Proof.
  pose proof (inv_reach g s Hg Hr) as I.
  assert (sys_inv s') as I' by (eapply inv_reach; [done|]; by etrans).
  assert (binding s = true → binding s' = true) as Hb.
  { clear I I' Hr. induction Hr' as [|x y z [] _ IH]; auto. }
  assert (∀ v, v ∈ versions s → v ∈ versions s') as Hv.
  { clear I I' Hr Hb. induction Hr' as [|x y z Hs _ IH]; [done|]. intros v H. apply IH. clear IH. destruct Hs; unfold versions in *; simpl; try done.
    all: try (case_bool_decide; subst; set_solver). set_solver. }
  assert (binding s' = true → ∀ v, v ∈ versions s' → g_Phase v ≠ PodGroupTimeout) as Hmain.
  { intros E v Hv' Ep. assert (g_Phase (stored s') = PodGroupTimeout) as Es.
    { apply elem_of_cons in Hv' as [-> | Hv']; [done|]. rw -Ep. apply (si_final _ I' v Hv'). by rw Ep. }
    pose proof (si_timeout _ I' Es). pose proof (si_binding _ I' E). congruence. }
  split; [auto|]. intros Ep. destruct (binding s') eqn:E; [|done]. exfalso.
  apply (Hmain eq_refl (stored s)); [|done]. apply Hv. by left.
Qed.

(** C31: A pod group does not stay open for ever: once its time is over, a
    synchronisation that reads the current version of the group, meets no error of the
    API server, and finds the lock free or its own, ends with a final phase (Scheduled
    if enough pods are bound, or one runs or has run, and Timeout otherwise), and does not
    queue the group again.  While a binder holds the lock the group stays open; a lock
    that the binder never releases keeps it open for ever (godel_binder.go:904). *)
Theorem group_settles {S : ApiServer} `{!ApiServerLaws S} `{!ReliableServer S} (g : Group) (q : DfaState) (pgLister : string → string → GroupLookup)
    (GetAllPods : string → string → option (list GroupPod)) (schedulerName : string) (now : Z) (key namespace name : string) (allPods : list GroupPod)
    (Hkey : SplitMetaNamespaceKey key = Some (namespace, name)) (Hg : pgLister namespace name = GroupFound g)
    (Hpods : GetAllPods namespace name = Some allPods)
    (Hopen : phase_state (g_Phase g) = Some q ∧ (q = Pending ∨ q = PreScheduling)) (Hover : podGroupTimeout now g = true)
    (Hlock : final_lock g = None ∨ final_lock g = Some "pg-controller") :
  let pods := filter (λ p, podBelongsToPartition schedulerName (gp_Pod p) = true) allPods in
  ∃ w', runs (syncHandler pgLister GetAllPods schedulerName now key) g w' false ∧
        g_Phase w' = if decide (pods_message (g_MinMember g) pods = ScheduledSatisfied) then PodGroupScheduled else PodGroupTimeout.
Proof.
  destruct Hopen as [Hq Ho]. intros pods.
  assert (PodGroupFinalState (g_Phase g) = false) as Hf.
  { destruct (PodGroupFinalState _) eqn:E; [|done]. unfold PodGroupFinalState in E. apply orb_prop in E as [E%bool_decide_eq_true|E%bool_decide_eq_true];
      rw E in Hq; vm_compute in Hq; simplify_eq; by destruct Ho. }
  pose proof (next_group_phase now key pods g q Hq Hf Ho Hover Hlock) as Hn.
  pose proof (next_group_spec now key pods g Hf) as (Hr & _). unfold syncHandler. rw Hkey Hg Hf Hpods. fold pods.
  set (n := next_group now key pods g) in *.
  assert (PodGroupFinalState (g_Phase n) = true) as Hfn by (rw Hn; by case_decide).
  assert (g_Phase g ≠ g_Phase n) as Hpne by congruence. assert (g ≠ n) as Hne by congruence.
  unfold updatePodGroup. rw (bool_decide_eq_false_2 _ Hne) (bool_decide_eq_false_2 _ Hpne). case_bool_decide as Ea.
  - destruct (status_possible n g Hr) as [w' Hw]. exists w'. split; [|by rw -Hn; apply (status_ok _ _ _ Hw)].
    simpl. eapply runs_status; [done|]. rw Hfn. apply runs_ret.
  - destruct (update_possible n g Hr) as [w1 Hw1]. destruct (status_possible (copy_status n w1) w1 eq_refl) as [w' Hw].
    exists w'. split; [|rw -Hn; by destruct (status_ok _ _ _ Hw) as (_ & _ & _ & ->)].
    simpl. eapply runs_update; [done|]. simpl. eapply runs_status; [done|]. rw Hfn. apply runs_ret.
Qed.

(** ** Examples *)

Module PodGroupExamples.

Definition with_version (v : Z) (g : Group) : Group :=
  {| g_Namespace := g_Namespace g; g_Name := g_Name g; g_ResourceVersion := v; g_Annotations := g_Annotations g;
     g_CreationTimestamp := g_CreationTimestamp g; g_MinMember := g_MinMember g; g_ScheduleTimeoutSeconds := g_ScheduleTimeoutSeconds g;
     g_Phase := g_Phase g; g_Conditions := g_Conditions g; g_ScheduleStartTime := g_ScheduleStartTime g; g_OccupiedBy := g_OccupiedBy g |}.
(** A server that fails on conflicts only. *)
Definition next_version (g w : Group) : Group := with_version (g_ResourceVersion w + 1) g.
#[local] Instance server : ApiServer := {
  srv_Update g w w' r :=
    if decide (g_ResourceVersion g = g_ResourceVersion w)
    then w' = next_version (copy_status w g) w ∧ r = inr w' else w' = w ∧ r = inl ErrConflict;
  srv_UpdateStatus g w w' r :=
    if decide (g_ResourceVersion g = g_ResourceVersion w)
    then w' = next_version (copy_status g w) w ∧ r = None else w' = w ∧ r = Some ErrConflict
}.
#[local] Instance server_laws : ApiServerLaws server.
Proof.
  split; simpl; intros *; case_decide; intros [-> Hr]; try done; try (by left).
  - injection Hr as ->. split; [done|]. split_and!; simpl; [done|lia|done|done].
  - split_and!; simpl; [done|lia|done|done].
Qed.
#[local] Instance server_reliable : ReliableServer server.
Proof. split; intros g w E; simpl; (destruct (decide _); [|done]); eexists; by split. Qed.

(** Three pods of the group must be bound; five minutes are over at time 301 s. *)
Definition group : Group :=
  {| g_Namespace := "ns"; g_Name := "g"; g_ResourceVersion := 1; g_Annotations := None; g_CreationTimestamp := 0; g_MinMember := 3;
     g_ScheduleTimeoutSeconds := None; g_Phase := PodGroupPreScheduling; g_Conditions := []; g_ScheduleStartTime := None; g_OccupiedBy := "" |}.
Definition late : Z := 301 * 1000000000.
Definition lister : string → string → GroupLookup := λ _ _, GroupFound group.
Definition no_pods : string → string → option (list GroupPod) := λ _ _, Some [].
Lemma group_fresh : fresh_group group.
Proof. split_and!; [by exists PreScheduling|done|done]. Qed.

Definition binder_process : Api Outcome := ok ← LockPodGroupStatus lister "ns" "g" "binder"; Ret (LockDone ok).
Definition controller_process : Api Outcome := reEnqueue ← syncHandler lister no_pods "" late "ns/g"; Ret (Synced reEnqueue).
(** The controller read the group before the binder took the lock, and is too late
    when it writes. *)
Definition call_of (p : Api Outcome) : option Group := match p with Update g _ => Some g | _ => None end.
Definition answer (p : Api Outcome) (r : ApiError + Group) : Api Outcome := match p with Update _ k => k r | _ => p end.
Definition locked_group : Group := default group ((λ g, next_version (copy_status group g) group) <$> call_of binder_process).
Definition read : list Observed := [{| ob_group := group; ob_pods := []; ob_now := late |}].
Definition both_started : System := {| stored := group; past := []; procs := [binder_process; controller_process]; binding := false; seen := read |}.
Definition lock_written : System :=
  {| stored := locked_group; past := [group]; procs := [answer binder_process (inr locked_group); controller_process]; binding := false; seen := read |}.
Definition binder_won : System :=
  {| stored := locked_group; past := [group]; procs := procs lock_written; binding := true; seen := read |}.
Definition controller_refused : System :=
  {| stored := locked_group; past := [group]; procs := [answer binder_process (inr locked_group); answer controller_process (inl ErrConflict)]; binding := true; seen := read |}.

Lemma run_start : rtc sys_step (start_system group) both_started.
Proof.
  assert (∀ s, versions s = [group] → stale s lister) as Hst by (intros s E ? ? ? [= <-]; rw E; by left).
  eapply rtc_l; [apply (start_sync _ lister no_pods "" late "ns/g"), Hst; reflexivity|].
  eapply rtc_l; [apply (start_lock _ lister "ns" "g"), Hst; reflexivity|]. apply rtc_refl.
Qed.
Lemma run_lock : rtc sys_step both_started binder_won.
Proof.
  eapply rtc_l; [eapply (call_update _ 0 _ _ locked_group (inr locked_group)); [reflexivity|by split]|].
  eapply rtc_l; [by apply (lock_done _ 0)|]. apply rtc_refl.
Qed.
Lemma run_refused : rtc sys_step binder_won controller_refused.
Proof. eapply rtc_l; [eapply (call_update _ 1 _ _ locked_group (inl ErrConflict)); [reflexivity|by split]|]. apply rtc_refl. Qed.
Lemma run_all : rtc sys_step (start_system group) controller_refused.
Proof. exact (transitivity (transitivity run_start run_lock) run_refused). Qed.

(** The controller alone: it takes the lock, and then the group times out. *)
Definition taken_group : Group := default group ((λ g, next_version (copy_status group g) group) <$> call_of controller_process).
Definition status_of (p : Api Outcome) : option Group := match p with UpdateStatus g _ => Some g | _ => None end.
Definition after_update : Api Outcome := answer controller_process (inr taken_group).
Definition timed_out_group : Group := default group ((λ g, next_version (copy_status g taken_group) taken_group) <$> status_of after_update).
Definition timed_out : System :=
  {| stored := timed_out_group; past := [taken_group; group]; procs := [Ret (Synced false)]; binding := false; seen := read |}.
Definition started : System := {| stored := group; past := []; procs := [controller_process]; binding := false; seen := read |}.
Definition taken : System := {| stored := taken_group; past := [group]; procs := [after_update]; binding := false; seen := read |}.
Lemma run_timeout : rtc sys_step (start_system group) timed_out.
Proof.
  apply (rtc_l _ _ started).
  { assert (spawn controller_process (observed lister no_pods "" late "ns/g") (start_system group) = started) as <- by (vm_compute; reflexivity).
    apply (start_sync _ lister no_pods "" late "ns/g"). intros ? ? ? [= <-]. by left. }
  apply (rtc_l _ _ taken).
  { assert (proceed 0 taken_group after_update started = taken) as <- by (vm_compute; reflexivity).
    unfold after_update. destruct controller_process as [|g k|] eqn:E; [vm_compute in E; discriminate E| |vm_compute in E; discriminate E].
    apply (call_update started 0 g k); [cbn [started procs]; by rw E|]. simpl. unfold taken_group. rw E. by vm_compute in E; injection E as <- _. }
  apply rtc_once. assert (proceed 0 timed_out_group (Ret (Synced false)) taken = timed_out) as <- by (vm_compute; reflexivity).
  assert (match after_update with UpdateStatus g k => k None = Ret (Synced false) ∧ srv_UpdateStatus g taken_group timed_out_group None | _ => False end) as H
    by (vm_compute; split; [reflexivity|split; reflexivity]).
  destruct after_update as [|g k|g k] eqn:E; [destruct H|destruct H|]. destruct H as [<- H].
  apply (call_status taken 0 g k); [cbn [taken procs]; by rw E|exact H].
Qed.

Lemma group_phase_refines_dfa_witness :
  fresh_group group ∧ rtc sys_step (start_system group) timed_out ∧ g_Phase (stored timed_out) = PodGroupTimeout ∧
  Sorted (λ newer older, g_Phase newer = g_Phase older ∨ dfa_move read (g_Phase older) (g_Phase newer)) (versions timed_out) ∧
  (∀ v, v ∈ past timed_out → PodGroupFinalState (g_Phase v) = true → g_Phase (stored timed_out) = g_Phase v).
Proof.
  exact (conj group_fresh (conj run_timeout (conj eq_refl (group_phase_refines_dfa group timed_out group_fresh run_timeout)))).
Defined.

Lemma binder_excludes_timeout_witness :
  binding binder_won = true ∧ ∀ v, v ∈ versions controller_refused → g_Phase v ≠ PodGroupTimeout.
Proof.
  split; [reflexivity|].
  exact (proj1 (binder_excludes_timeout group binder_won controller_refused group_fresh (transitivity run_start run_lock) run_refused) eq_refl).
Defined.

Lemma group_settles_witness : ∃ w', runs (syncHandler lister no_pods "" late "ns/g") group w' false ∧ g_Phase w' = PodGroupTimeout.
Proof.
  exact (group_settles group PreScheduling lister no_pods "" late "ns/g" "ns" "g" [] eq_refl eq_refl eq_refl (conj eq_refl (or_intror eq_refl)) eq_refl (or_introl eq_refl)).
Defined.

(** A running pod is enough, whatever the number of pods created: the documented table
    has no edge to Scheduled from Pending when pods are missing. *)
Example running_pod_schedules (p : Pod) :
  pods_message 3 [{| gp_Pod := p; gp_Phase := "Running" |}] = ScheduledSatisfied.
Proof. done. Qed.
End PodGroupExamples.
