(* ===== verification/BinderUnit.v ===== *)
(** * The unit being bound

    pkg/binder/binder_unit.go: [bindingUnitInfo], the tasks of a unit that the binder
    checks, and their moves between the lists of tasks that are assumed, new, ready,
    waiting, failed and ignored.

    A queued pod is shared by pointer between the unit and its lists: it is referred to
    by the UID of its pod, and [queued] holds the pods.  The error kept for a failed
    task only goes into events, and is left out.  [None] is a panic, or an exit of the
    process. *)
From S2P Require Import Prelude GoStrings PodModel PodState.

Local Open Scope godel_scope.
Local Open Scope string_scope.

Record VictimPod := { vp_Name : string; vp_Namespace : string; vp_UID : string }.
(** The fields of [framework.QueuedPodInfo] that the binder reads or sets.  No nominated
    node is [None]; an initial preemption attempt of [None] is the zero time. *)
Record QueuedTask := {
  qt_Pod : Pod; NewlyAssumedButStillInHandling : bool; ReservedPod : option Pod; AllVolumeBound : bool;
  NominatedVictims : option (list VictimPod); InitialPreemptAttemptTimestamp : option Z
}.
(** [clonedPod] is a copy of the pod taken when the task is initialised. *)
Record runningUnitInfo := { ru_uid : string; suggestedNode : string; ru_victims : list Pod; clonedPod : option Pod }.
Record checkResult := { cr_assumed : bool; cr_runningUnit : runningUnitInfo }.
Record TaskSetGroupByNode := {
  Nodes : gset string; Tasks : gmap string (gmap string runningUnitInfo); VictimsGroupByNode : gmap string (gmap string Pod)
}.
Record bindingUnitInfo := mkUnit {
  unitKey : string; isPodGroup : bool; minMember : Z; allMember : Z; everScheduled : bool;
  queued : gmap string QueuedTask;
  assumedTasks : gset string; newTasks : TaskSetGroupByNode; ignoredTasks : list string; allVictims : gset string;
  readyTasks : gmap string checkResult; waitingTasks : gmap string checkResult; failedTasks : gmap string checkResult
}.

Definition NewBindingUnitInfo (key : string) (group : bool) (min : Z) (tasks : gmap string QueuedTask) : bindingUnitInfo :=
  mkUnit key group min (Z.of_nat (size tasks)) false tasks ∅ {| Nodes := ∅; Tasks := ∅; VictimsGroupByNode := ∅ |} [] ∅ ∅ ∅ ∅.

Section setters.
Implicit Types u : bindingUnitInfo.
Definition set_ever b u := mkUnit (unitKey u) (isPodGroup u) (minMember u) (allMember u) b (queued u) (assumedTasks u) (newTasks u)
  (ignoredTasks u) (allVictims u) (readyTasks u) (waitingTasks u) (failedTasks u).
Definition set_queued q u := mkUnit (unitKey u) (isPodGroup u) (minMember u) (allMember u) (everScheduled u) q (assumedTasks u) (newTasks u)
  (ignoredTasks u) (allVictims u) (readyTasks u) (waitingTasks u) (failedTasks u).
Definition set_assumed a u := mkUnit (unitKey u) (isPodGroup u) (minMember u) (allMember u) (everScheduled u) (queued u) a (newTasks u)
  (ignoredTasks u) (allVictims u) (readyTasks u) (waitingTasks u) (failedTasks u).
Definition set_new n v u := mkUnit (unitKey u) (isPodGroup u) (minMember u) (allMember u) (everScheduled u) (queued u) (assumedTasks u) n
  (ignoredTasks u) v (readyTasks u) (waitingTasks u) (failedTasks u).
Definition set_ignored i u := mkUnit (unitKey u) (isPodGroup u) (minMember u) (allMember u) (everScheduled u) (queued u) (assumedTasks u) (newTasks u)
  i (allVictims u) (readyTasks u) (waitingTasks u) (failedTasks u).
Definition set_ready r u := mkUnit (unitKey u) (isPodGroup u) (minMember u) (allMember u) (everScheduled u) (queued u) (assumedTasks u) (newTasks u)
  (ignoredTasks u) (allVictims u) r (waitingTasks u) (failedTasks u).
Definition set_waiting w u := mkUnit (unitKey u) (isPodGroup u) (minMember u) (allMember u) (everScheduled u) (queued u) (assumedTasks u) (newTasks u)
  (ignoredTasks u) (allVictims u) (readyTasks u) w (failedTasks u).
Definition set_failed f u := mkUnit (unitKey u) (isPodGroup u) (minMember u) (allMember u) (everScheduled u) (queued u) (assumedTasks u) (newTasks u)
  (ignoredTasks u) (allVictims u) (readyTasks u) (waitingTasks u) f.
End setters.

Section unit.
Context {MR : MapRange}.
Implicit Types (u : bindingUnitInfo) (rui : runningUnitInfo).

(** ** Queries *)

Definition IsUnitFailed u : bool :=
  if isPodGroup u
  then negb (everScheduled u) && (allMember u - Z.of_nat (size (failedTasks u)) - Z.of_nat (length (ignoredTasks u)) <? minMember u)%Z
  else (0 <? size (failedTasks u))%nat.
Definition IsAbleToBindReadyTasks u : bool :=
  if isPodGroup u then everScheduled u || (minMember u <=? Z.of_nat (size (readyTasks u)))%Z else true.
Definition HasVictim (uid : string) u : bool := bool_decide (uid ∈ allVictims u).
Definition NoVictim u : bool := bool_decide (allVictims u = ∅).

Definition tasks_on (nodeName : string) u : gmap string runningUnitInfo := default ∅ (Tasks (newTasks u) !! nodeName).
Definition GetNewTasksOnNode (nodeName : string) u : list runningUnitInfo := (range_map (tasks_on nodeName u)).*2.
Definition GetNewTasks u : list runningUnitInfo := mjoin ((λ e, (range_map e.2).*2) <$> range_map (Tasks (newTasks u))).
Definition GetVictimsOfNewTasksOnNode (nodeName : string) u : list Pod := (range_map (default ∅ (VictimsGroupByNode (newTasks u) !! nodeName))).*2.
Definition GetNodeListOfNewTasks u : list string := elements (Nodes (newTasks u)).
Definition GetReadyTasks u : list checkResult := (range_map (readyTasks u)).*2.
Definition GetWaitingTasks u : list checkResult := (range_map (waitingTasks u)).*2.
Definition GetFailedTasks u : list checkResult := (range_map (failedTasks u)).*2.
Definition GetReadyAndWaitingTasks u : list checkResult := (GetReadyTasks u ++ GetWaitingTasks u)%list.
Definition GetAssumedTasks u : list string := elements (assumedTasks u).
Definition NewTasksOnNodeNeedPreemption (nodeName : string) u : bool :=
  existsb (λ t, (0 <? length (ru_victims t))%nat) (GetNewTasksOnNode nodeName u).

(** ** Adding tasks *)

Definition AddAssumedTask (uid : string) u : bindingUnitInfo := set_assumed ({[uid]} ∪ assumedTasks u) u.
Definition AddIgnoredTasks (uid : string) u : bindingUnitInfo := set_ignored (ignoredTasks u ++ [uid])%list u.
(** An empty node ends the process. *)
Definition AddNewTask rui u : option bindingUnitInfo :=
  if suggestedNode rui ≟ "" then None else
  let nt := newTasks u in
  let node := suggestedNode rui in
  let tasks := <[node := <[ru_uid rui := rui]> (tasks_on node u)]> (Tasks nt) in
  if length (ru_victims rui) ≟ 0%nat
  then Some (set_new {| Nodes := {[node]} ∪ Nodes nt; Tasks := tasks; VictimsGroupByNode := VictimsGroupByNode nt |} (allVictims u) u)
  else
    let victims := foldl (λ m v, <[UID v := v]> m) (default ∅ (VictimsGroupByNode nt !! node)) (ru_victims rui) in
    Some (set_new {| Nodes := {[node]} ∪ Nodes nt; Tasks := tasks; VictimsGroupByNode := <[node := victims]> (VictimsGroupByNode nt) |}
            (foldl (λ s v, {[UID v]} ∪ s) (allVictims u) (ru_victims rui)) u).

(** ** Moving tasks *)

Definition deleteTaskFromNewOrAssumedTasks rui (assumed : bool) u : bindingUnitInfo :=
  if assumed then set_assumed (assumedTasks u ∖ {[ru_uid rui]}) u
  else if suggestedNode rui ≟ "" then u
  else
    let nt := newTasks u in
    let node := suggestedNode rui in
    let tasks := alter (delete (ru_uid rui)) node (Tasks nt) in
    let victims := foldl (λ m v, alter (delete (UID v)) node m) (VictimsGroupByNode nt) (ru_victims rui) in
    let nodes := if bool_decide (default ∅ (tasks !! node) = (∅ : gmap string runningUnitInfo)) && (size victims ≟ 0%nat)
                 then Nodes nt ∖ {[node]} else Nodes nt in
    set_new {| Nodes := nodes; Tasks := tasks; VictimsGroupByNode := victims |} (foldl (λ s v, s ∖ {[UID v]}) (allVictims u) (ru_victims rui)) u.

Definition fail_task (uid : string) (cr : checkResult) u : bindingUnitInfo := set_failed (<[uid := cr]> (failedTasks u)) u.
Definition AddFailedTask rui (assumed : bool) u : bindingUnitInfo :=
  deleteTaskFromNewOrAssumedTasks rui assumed (fail_task (ru_uid rui) {| cr_assumed := assumed; cr_runningUnit := rui |} u).

(** One entry of the tasks of a node. *)
Definition fail_new_task u (e : string * runningUnitInfo) : bindingUnitInfo :=
  deleteTaskFromNewOrAssumedTasks e.2 false (fail_task e.1 {| cr_assumed := false; cr_runningUnit := e.2 |} u).
Definition MoveAllNewTasksOnNodeToFailedList (nodeName : string) u : bindingUnitInfo :=
  foldl fail_new_task u (range_map (tasks_on nodeName u)).
Definition MoveAllNewTasksOnNodeToWaitingList (nodeName : string) u : bindingUnitInfo :=
  foldl (λ u e, deleteTaskFromNewOrAssumedTasks e.2 false (set_waiting (<[e.1 := {| cr_assumed := false; cr_runningUnit := e.2 |}]> (waitingTasks u)) u)) u
    (range_map (tasks_on nodeName u)).
Definition MoveAllNewTasksOnNodeToReadyList (nodeName : string) u : bindingUnitInfo :=
  foldl (λ u e, deleteTaskFromNewOrAssumedTasks e.2 false (set_ready (<[e.1 := {| cr_assumed := false; cr_runningUnit := e.2 |}]> (readyTasks u)) u)) u
    (range_map (tasks_on nodeName u)).

(** From a list of checked tasks, those that satisfy [p]. *)
Definition fail_waiting (p : checkResult → bool) u : bindingUnitInfo :=
  foldl (λ u e, if p e.2 then set_waiting (delete e.1 (waitingTasks u)) (fail_task e.1 e.2 u) else u) u (range_map (waitingTasks u)).
Definition fail_ready (p : checkResult → bool) u : bindingUnitInfo :=
  foldl (λ u e, if p e.2 then set_ready (delete e.1 (readyTasks u)) (fail_task e.1 e.2 u) else u) u (range_map (readyTasks u)).

Definition MoveAllNewTasksOnNodeFromWaitingToFailedList (nodeName : string) u : bindingUnitInfo :=
  fail_waiting (λ cr, negb (cr_assumed cr) && (suggestedNode (cr_runningUnit cr) ≟ nodeName)) u.
Definition MoveAllNewTasksInReadyAndWaitingListToFailedList u : bindingUnitInfo :=
  fail_waiting (λ cr, negb (cr_assumed cr)) (fail_ready (λ cr, negb (cr_assumed cr)) u).
(** A task that is not ready is a nil pointer. *)
Fixpoint MoveTasksFromReadyToFailedList (failed : list string) u : option bindingUnitInfo :=
  match failed with
  | [] => Some u
  | uid :: failed' =>
      cr ← readyTasks u !! uid;
      MoveTasksFromReadyToFailedList failed' (set_ready (delete uid (readyTasks u)) (fail_task uid cr u))
  end.
Definition MoveAllTasksFromReadyToWaitingList u : bindingUnitInfo :=
  foldl (λ u e, set_ready (delete e.1 (readyTasks u)) (set_waiting (<[e.1 := e.2]> (waitingTasks u)) u)) u (range_map (readyTasks u)).

Definition bare_task (uid node : string) : runningUnitInfo := {| ru_uid := uid; suggestedNode := node; ru_victims := []; clonedPod := None |}.
Definition fail_assumed u : bindingUnitInfo :=
  foldl (λ u uid, deleteTaskFromNewOrAssumedTasks (bare_task uid "") true
                    (fail_task uid {| cr_assumed := true; cr_runningUnit := bare_task uid "" |} u)) u (GetAssumedTasks u).
Definition fail_new u : bindingUnitInfo :=
  foldl (λ u e, foldl fail_new_task u (range_map e.2)) u (range_map (Tasks (newTasks u))).
Definition MoveAllTasksToFailedList u : bindingUnitInfo := fail_waiting (λ _, true) (fail_ready (λ _, true) (fail_new (fail_assumed u))).

(** The node of an assumed task is that of its reserved pod, which must be there. *)
Definition reserved_node (uid : string) u : option string := qt ← queued u !! uid; p ← ReservedPod qt; Some (NodeName p).
Fixpoint assumed_to_ready (l : list string) u : option bindingUnitInfo :=
  match l with
  | [] => Some u
  | uid :: l' =>
      node ← reserved_node uid u;
      assumed_to_ready l' (deleteTaskFromNewOrAssumedTasks (bare_task uid "") true
        (set_ready (<[uid := {| cr_assumed := true; cr_runningUnit := bare_task uid node |}]> (readyTasks u)) u))
  end.
Fixpoint assumed_to_waiting (l : list string) u : option bindingUnitInfo :=
  match l with
  | [] => Some u
  | uid :: l' =>
      node ← reserved_node uid u;
      assumed_to_waiting l' (deleteTaskFromNewOrAssumedTasks (bare_task uid "") true
        (set_waiting (<[uid := {| cr_assumed := true; cr_runningUnit := bare_task uid node |}]> (waitingTasks u)) u))
  end.
Definition MoveAllAssumedTasksToReadyList u : option bindingUnitInfo := assumed_to_ready (GetAssumedTasks u) u.
Definition MoveAllAssumedTasksToWaitingList u : option bindingUnitInfo := assumed_to_waiting (GetAssumedTasks u) u.
End unit.
