(* ===== verification/Binder.v ===== *)
(** * The binder

    pkg/binder/godel_binder.go and godel_binder_algorithm.go: the binder checks the
    tasks of a unit against what it has assumed for other schedulers, deletes victims,
    binds the tasks, and rejects those that fail or queues again those that wait.

    The cache of the binder is an interface.  Plugins, listers and what the API server
    answers are parameters.  Nodes, and tasks that the code handles in parallel, are
    handled one after the other.  The checks end before the goroutine that deletes
    victims and binds does anything.  The gates ResourceReservation and
    SupportRescheduling are off.  [None] is a panic, or an exit of the process. *)
From S2P Require Import Prelude GoStrings PodModel PodState HashSlice Resource MicroTopo PodInfos Numa NodeInfo NodeClone NodeStore BinderUnit.

Local Open Scope godel_scope.
Local Open Scope string_scope.

Definition MaxPreemptionBackoffPeriodInSeconds : Z := 600.
Definition MaxRetryAttempts : nat := 3.

(** [BinderCache]; a result of [false] is an error, as is [None]. *)
Class BinderCache (C : Type) := {
  GetNodeInfo : string → C → option NodeInfo;
  IsAssumedPod : Pod → C → option bool;
  IsPodMarkedToDelete : Pod → C → option bool;
  MarkPodToDelete : Pod → Pod → C → C * bool;
  RemoveDeletePodMarker : Pod → Pod → C → C;
  AssumePod : Pod → C → C * bool;
  ForgetPod : Pod → C → C * bool;
  FinishBinding : Pod → C → C;
  UnitScheduled : string → C → bool;
  SetUnitScheduled : string → C → C
}.

Inductive PodLookup := PodFound (p : Pod) | PodNotFound | PodError.

(** What the plugins of the framework of the binder answer, true for success. *)
Record BinderPlugins (S : Type) := {
  bp_Framework : Pod → bool;
  bp_ClusterPrePreempting : Pod → S → S * bool;
  bp_VictimChecking : Pod → Pod → S → S * bool;
  bp_PostVictimChecking : Pod → Pod → S → S * bool;
  bp_CheckTopology : Pod → NodeInfo → bool;
  bp_CheckConflicts : Pod → NodeInfo → bool;
  bp_AssignMicroTopology : Pod → NodeInfo → string
}.
Arguments bp_Framework {S}.
Arguments bp_ClusterPrePreempting {S}.
Arguments bp_VictimChecking {S}.
Arguments bp_PostVictimChecking {S}.
Arguments bp_CheckTopology {S}.
Arguments bp_CheckConflicts {S}.
Arguments bp_AssignMicroTopology {S}.

(** What the API server and the volume binder answer: the outcome of the n-th attempt
    to bind a task and to delete a victim, whether the pod group could be locked, and
    whether the volumes of a pod could be assumed and are all bound. *)
Record Answers := {
  an_reserve : string → nat → bool; an_volumes : string → nat → bool; an_prebind : string → nat → bool; an_bind : string → nat → bool;
  an_delete : string → nat → bool; an_lock : bool; an_assumeVolumes : string → option bool
}.

Definition set_task_reserved (r : option Pod) (newly allBound : bool) (t : QueuedTask) : QueuedTask :=
  {| qt_Pod := qt_Pod t; NewlyAssumedButStillInHandling := newly; ReservedPod := r; AllVolumeBound := allBound;
     NominatedVictims := NominatedVictims t; InitialPreemptAttemptTimestamp := InitialPreemptAttemptTimestamp t |}.
Definition set_task_pod (p : Pod) (t : QueuedTask) : QueuedTask :=
  {| qt_Pod := p; NewlyAssumedButStillInHandling := NewlyAssumedButStillInHandling t; ReservedPod := ReservedPod t; AllVolumeBound := AllVolumeBound t;
     NominatedVictims := NominatedVictims t; InitialPreemptAttemptTimestamp := InitialPreemptAttemptTimestamp t |}.
Definition set_task_attempt (now : Z) (t : QueuedTask) : QueuedTask :=
  {| qt_Pod := qt_Pod t; NewlyAssumedButStillInHandling := NewlyAssumedButStillInHandling t; ReservedPod := ReservedPod t; AllVolumeBound := AllVolumeBound t;
     NominatedVictims := NominatedVictims t;
     InitialPreemptAttemptTimestamp := match InitialPreemptAttemptTimestamp t with None => Some now | Some ts => Some ts end |}.
Definition set_task (uid : string) (t : QueuedTask) (u : bindingUnitInfo) : bindingUnitInfo := set_queued (<[uid := t]> (queued u)) u.

(** The cache, the unit, and what was done: the tasks for which binding was tried and
    those bound, the tasks rejected and those queued again. *)
Record World (C : Type) := mkWorld {
  w_cache : C; w_unit : bindingUnitInfo; w_attempted : list string; w_bound : list string; w_rejected : list string; w_requeued : list string
}.
Arguments mkWorld {C}.
Arguments w_cache {C}.
Arguments w_unit {C}.
Arguments w_attempted {C}.
Arguments w_bound {C}.
Arguments w_rejected {C}.
Arguments w_requeued {C}.

Section binder.
Context {MR : MapRange} (cf : Config) {C : Type} `{!BinderCache C} {S : Type}.
Context (pl : BinderPlugins S) (commonState : S) (podLister : string → string → PodLookup) (an : Answers) (now : Z).
Implicit Types (u : bindingUnitInfo) (rui : runningUnitInfo) (w : World C) (c : C).

Definition with_unit u w : World C := mkWorld (w_cache w) u (w_attempted w) (w_bound w) (w_rejected w) (w_requeued w).
Definition with_cache c w : World C := mkWorld c (w_unit w) (w_attempted w) (w_bound w) (w_rejected w) (w_requeued w).
Definition task_of (uid : string) u : option QueuedTask := queued u !! uid.

(** ** Initialisation *)

Definition skipCheckingPod (pod : Pod) c : bool :=
  bool_decide (is_Some (DeletionTimestamp pod)) || match IsAssumedPod pod c with None => false | Some isAssumed => isAssumed || BoundPod pod end.

Fixpoint getVictimsToPreempt (victimPods : list VictimPod) c : option (list Pod) :=
  match victimPods with
  | [] => Some []
  | v :: victimPods' =>
      match podLister (vp_Namespace v) (vp_Name v) with
      | PodNotFound => getVictimsToPreempt victimPods' c
      | PodError => None
      | PodFound vp => match IsPodMarkedToDelete vp c with Some false => l ← getVictimsToPreempt victimPods' c; Some (vp :: l) | _ => None end
      end
  end.

(** The task with its node and victims, and whether there was no error. *)
Definition initializeTask (uid : string) (qt : QueuedTask) u c : runningUnitInfo * bool :=
  if negb (bp_Framework pl (qt_Pod qt)) then (bare_task uid "", false) else
  let node := GetNodeNameFromPod cf (qt_Pod qt) in
  if node ≟ "" then (bare_task uid "", false) else
  match NominatedVictims qt with
  | None => ({| ru_uid := uid; suggestedNode := node; ru_victims := []; clonedPod := Some (qt_Pod qt) |}, true)
  | Some victimPods =>
      match getVictimsToPreempt victimPods c with
      | None => (bare_task uid node, false)
      | Some victims =>
          if existsb (λ v, HasVictim (UID v) u) victims then (bare_task uid node, false)
          else ({| ru_uid := uid; suggestedNode := node; ru_victims := victims; clonedPod := Some (qt_Pod qt) |}, true)
      end
  end.

Fixpoint initialize_tasks (pods : list string) u c : option bindingUnitInfo :=
  match pods with
  | [] => Some u
  | uid :: pods' =>
      qt ← task_of uid u;
      if NewlyAssumedButStillInHandling qt then initialize_tasks pods' (AddAssumedTask uid u) c
      else if skipCheckingPod (qt_Pod qt) c then initialize_tasks pods' (AddIgnoredTasks uid u) c
      else
        let '(rui, ok) := initializeTask uid qt u c in
        if negb ok then initialize_tasks pods' (AddFailedTask rui false u) c
        else
          let u := if (0 <? length (ru_victims rui))%nat then set_task uid (set_task_attempt now qt) u else u in
          u ← AddNewTask rui u; initialize_tasks pods' u c
  end.
(** [pods] lists the pods of the unit. *)
Definition InitializeUnit (key : string) (group : bool) (min : Z) (tasks : gmap string QueuedTask) (pods : list string) c : option bindingUnitInfo :=
  initialize_tasks pods (set_ever (UnitScheduled key c) (NewBindingUnitInfo key group min tasks)) c.

(** ** Checks over several nodes *)

Fixpoint IsPreemptionComplete (victimPods : list VictimPod) : bool :=
  match victimPods with
  | [] => true
  | v :: victimPods' =>
      match podLister (vp_Namespace v) (vp_Name v) with
      | PodFound gotPod => if UID gotPod ≟ vp_UID v then false else IsPreemptionComplete victimPods'
      | PodNotFound => IsPreemptionComplete victimPods'
      | PodError => false
      end
  end.

(** The task with the time of its first attempt, whether the preemption is in progress,
    and whether it timed out. *)
Definition checkCrossNodePreemptionForAssumedTask (qt : QueuedTask) (victimPods : list VictimPod) : QueuedTask * bool * bool :=
  if IsPreemptionComplete victimPods then (qt, false, false) else
  let qt := set_task_attempt now qt in
  let ddl := (default now (InitialPreemptAttemptTimestamp qt) + MaxPreemptionBackoffPeriodInSeconds * 1000000000)%Z in
  if (ddl <? now)%Z then (qt, false, true) else (qt, true, false).

(** Ends early when the unit fails, all its tasks then being failed. *)
Fixpoint assumed_preemption (l : list string) (AnyOneStillInProgress : bool) u : option (bindingUnitInfo * bool * bool) :=
  match l with
  | [] => Some (u, AnyOneStillInProgress, true)
  | uid :: l' =>
      qt ← task_of uid u;
      match NominatedVictims qt with
      | None => assumed_preemption l' AnyOneStillInProgress u
      | Some victimPods =>
          let '(qt, inProgress, err) := checkCrossNodePreemptionForAssumedTask qt victimPods in
          let u := set_task uid qt u in
          let u := if err : bool then AddFailedTask (bare_task uid "") true u else u in
          if IsUnitFailed u then Some (MoveAllTasksToFailedList u, AnyOneStillInProgress, false)
          else assumed_preemption l' (AnyOneStillInProgress || inProgress) u
      end
  end.

Fixpoint check_victims (pod : Pod) (victims : list Pod) (s : S) : S * bool :=
  match victims with
  | [] => (s, true)
  | victim :: victims' =>
      let '(s, ok) := bp_VictimChecking pl pod victim s in
      if negb ok then (s, false) else
      let '(s, ok) := bp_PostVictimChecking pl pod victim s in
      if negb ok then (s, false) else check_victims pod victims' s
  end.
Definition CheckPreemptionPhase (pod : Pod) rui (s : S) : S * bool :=
  if length (ru_victims rui) ≟ 0%nat then (s, true) else
  let '(s, ok) := bp_ClusterPrePreempting pl pod s in
  if negb ok then (s, false) else check_victims pod (ru_victims rui) s.

Fixpoint new_preemption (l : list runningUnitInfo) (s : S) u : option (bindingUnitInfo * bool) :=
  match l with
  | [] => Some (u, true)
  | rui :: l' =>
      qt ← task_of (ru_uid rui) u;
      let '(s, ok) := CheckPreemptionPhase (qt_Pod qt) rui s in
      let u := if ok : bool then u else AddFailedTask rui false u in
      if IsUnitFailed u then Some (MoveAllTasksToFailedList u, false) else new_preemption l' s u
  end.

(** The result is false on an error, which leaves no task but failed ones. *)
Definition CheckCrossNodePreemptionForUnit u : option (bindingUnitInfo * bool) :=
  '(u, AnyOneStillInProgress, ok) ← assumed_preemption (GetAssumedTasks u) false u;
  if negb ok then Some (u, false) else
  u ← (if AnyOneStillInProgress : bool then MoveAllAssumedTasksToWaitingList u else MoveAllAssumedTasksToReadyList u);
  if NoVictim u then Some (u, true) else new_preemption (GetNewTasks u) commonState u.

Fixpoint check_topology (l : list runningUnitInfo) c u : option (bindingUnitInfo * bool) :=
  match l with
  | [] => Some (u, true)
  | rui :: l' =>
      qt ← task_of (ru_uid rui) u;
      let ok := match GetNodeInfo (suggestedNode rui) c with None => false | Some n => bp_CheckTopology pl (qt_Pod qt) n end in
      let u := if ok then u else AddFailedTask rui false u in
      if IsUnitFailed u then Some (MoveAllTasksToFailedList u, false) else check_topology l' c u
  end.
Definition CheckCrossNodeTopologyForUnit c u : option (bindingUnitInfo * bool) := check_topology (GetNewTasks u) c u.

(** ** Conflicts on a node *)

Definition assignMicroTopology (pod : Pod) (n : NodeInfo) : option Pod :=
  let topo := bp_AssignMicroTopology pl pod n in
  if topo ≟ "" then Some pod else anno_set MicroTopologyKey topo (anno_init pod).
Definition cleanMicroTopology (pod : Pod) : Pod := anno_delete MicroTopologyKey pod.

(** The victims are removed from a copy of the node; [Some None] is an error. *)
Fixpoint remove_victims (victims : list Pod) (n : NodeInfo) : option (option NodeInfo) :=
  match victims with
  | [] => Some (Some n)
  | v :: victims' => '(n, err) ← node_RemovePod cf v true n; match err with Some _ => Some None | None => remove_victims victims' n end
  end.

(** The tasks of the node, each checked with those before it on the node.  The result
    tells whether the remaining tasks are to be moved on. *)
Fixpoint check_tasks (nodeName : string) (l : list runningUnitInfo) (n : NodeInfo) u : option (bindingUnitInfo * bool) :=
  match l with
  | [] => Some (u, true)
  | rui :: l' =>
      qt ← task_of (ru_uid rui) u;
      if bp_CheckConflicts pl (qt_Pod qt) n then
        pod ← assignMicroTopology (qt_Pod qt) n;
        n ← node_AddPod cf pod n;
        check_tasks nodeName l' n (set_task (ru_uid rui) (set_task_pod (cleanMicroTopology pod) qt) u)
      else if (0 <? length (ru_victims rui))%nat then Some (MoveAllNewTasksOnNodeToFailedList nodeName u, false)
      else
        let u := AddFailedTask rui false u in
        if IsUnitFailed u then Some (u, false) else check_tasks nodeName l' n u
  end.
Definition checkTasks (nodeName : string) c u : option bindingUnitInfo :=
  match GetNodeInfo nodeName c with
  | None => Some (MoveAllNewTasksOnNodeToFailedList nodeName u)
  | Some nodeInfo =>
      clonedNodeInfo ← node_Clone nodeInfo;
      removed ← remove_victims (GetVictimsOfNewTasksOnNode nodeName u) clonedNodeInfo;
      match removed with
      | None => Some (MoveAllNewTasksOnNodeToFailedList nodeName u)
      | Some clonedNodeInfo =>
          '(u, go_on) ← check_tasks nodeName (GetNewTasksOnNode nodeName u) clonedNodeInfo u;
          Some (if negb go_on then u
                else if NewTasksOnNodeNeedPreemption nodeName u then MoveAllNewTasksOnNodeToWaitingList nodeName u
                else MoveAllNewTasksOnNodeToReadyList nodeName u)
      end
  end.
(** A unit that failed cancels the nodes that are left. *)
Fixpoint check_nodes (nodes : list string) c u : option bindingUnitInfo :=
  match nodes with
  | [] => Some u
  | nodeName :: nodes' => u ← checkTasks nodeName c u; if IsUnitFailed u then Some u else check_nodes nodes' c u
  end.
Definition CheckSameNodeConflictsForUnit c u : option bindingUnitInfo := check_nodes (GetNodeListOfNewTasks u) c u.

(** ** Marking victims and assuming tasks *)

(** Marks the victims of a task up to the first error. *)
Fixpoint mark_victims (victims : list Pod) (preemptor : Pod) c : C * bool :=
  match victims with
  | [] => (c, true)
  | victim :: victims' => let '(c, ok) := MarkPodToDelete victim preemptor c in if ok then mark_victims victims' preemptor c else (c, false)
  end.
Definition unmark_victims (victims : list Pod) (preemptor : Pod) c : C := foldl (λ c victim, RemoveDeletePodMarker victim preemptor c) c victims.

Fixpoint mark_loop (l : list checkResult) (failedNodes : gset string) u c : option (C * gset string) :=
  match l with
  | [] => Some (c, failedNodes)
  | cr :: l' =>
      let rui := cr_runningUnit cr in
      if negb (cr_assumed cr) && (0 <? length (ru_victims rui))%nat && negb (bool_decide (suggestedNode rui ∈ failedNodes)) then
        qt ← task_of (ru_uid rui) u;
        let '(c, ok) := mark_victims (ru_victims rui) (qt_Pod qt) c in
        mark_loop l' (if ok : bool then failedNodes else {[suggestedNode rui]} ∪ failedNodes) u c
      else mark_loop l' failedNodes u c
  end.
Fixpoint unmark_loop (l : list checkResult) (failedNodes : gset string) u c : option C :=
  match l with
  | [] => Some c
  | cr :: l' =>
      let rui := cr_runningUnit cr in
      if negb (cr_assumed cr) && bool_decide (suggestedNode rui ∈ failedNodes) then
        qt ← task_of (ru_uid rui) u; unmark_loop l' failedNodes u (unmark_victims (ru_victims rui) (qt_Pod qt) c)
      else unmark_loop l' failedNodes u c
  end.
Definition fail_nodes (nodes : gset string) u : bindingUnitInfo :=
  foldl (λ u nodeName, MoveAllNewTasksOnNodeFromWaitingToFailedList nodeName u) u (elements nodes).
Definition markVictimsOfNewTasks c u : option (C * bindingUnitInfo) :=
  '(c, failedNodes) ← mark_loop (GetWaitingTasks u) ∅ u c;
  c ← unmark_loop (GetWaitingTasks u) failedNodes u c;
  Some (c, fail_nodes failedNodes u).

(** Whether there was no error. *)
Fixpoint assume_loop (l : list checkResult) c u : option (C * bindingUnitInfo * bool) :=
  match l with
  | [] => Some (c, u, true)
  | cr :: l' =>
      if cr_assumed cr then assume_loop l' c u else
      let uid := ru_uid (cr_runningUnit cr) in
      qt ← task_of uid u;
      match an_assumeVolumes an uid with
      | None => Some (c, u, false)
      | Some allBound =>
          let cloned := set_NodeName (suggestedNode (cr_runningUnit cr)) (default (qt_Pod qt) (clonedPod (cr_runningUnit cr))) in
          let '(c, ok) := AssumePod cloned c in
          if negb ok then Some (c, set_task uid (set_task_reserved (Some cloned) (NewlyAssumedButStillInHandling qt) (AllVolumeBound qt) qt) u, false)
          else assume_loop l' c (set_task uid (set_task_reserved (Some cloned) true allBound qt) u)
      end
  end.
Definition assumeNewTasks c u : option (C * bindingUnitInfo * bool) := assume_loop (GetReadyAndWaitingTasks u) c u.

Fixpoint forget_loop (l : list checkResult) c u : option (C * bindingUnitInfo) :=
  match l with
  | [] => Some (c, u)
  | cr :: l' =>
      let uid := ru_uid (cr_runningUnit cr) in
      qt ← task_of uid u;
      if cr_assumed cr || negb (NewlyAssumedButStillInHandling qt) then forget_loop l' c u else
      match ReservedPod qt with
      | None => forget_loop l' c u
      | Some p =>
          let '(c, ok) := ForgetPod p c in
          forget_loop l' c (if ok : bool then set_task uid (set_task_reserved None false false qt) u else u)
      end
  end.
Definition forgetNewAssumedTasks c u : option (C * bindingUnitInfo) := forget_loop (GetReadyAndWaitingTasks u) c u.

(** That the unit failed is seen by the caller from the unit. *)
Definition MarkVictimsAndAssumeTasks c u : option (C * bindingUnitInfo) :=
  '(c, u) ← markVictimsOfNewTasks c u;
  if IsUnitFailed u then Some (c, u) else
  '(c, u, ok) ← assumeNewTasks c u;
  if ok : bool then Some (c, u)
  else '(c, u) ← forgetNewAssumedTasks c u; Some (c, MoveAllNewTasksInReadyAndWaitingListToFailedList u).

(** ** Rejecting tasks and queueing them again *)

(** Without event and API call; the annotations the binder resets are those of
    [PodState.CleanupPodAnnotations]. *)
Definition reject_task u c (cr : checkResult) : option C :=
  let rui := cr_runningUnit cr in
  qt ← task_of (ru_uid rui) u;
  let c := unmark_victims (ru_victims rui) (qt_Pod qt) c in
  if cr_assumed cr || NewlyAssumedButStillInHandling qt
  then match ReservedPod qt with Some p => Some (ForgetPod p c).1 | None => Some c end
  else Some c.
Fixpoint reject_loop (l : list checkResult) w : option (World C) :=
  match l with
  | [] => Some w
  | cr :: l' =>
      c ← reject_task (w_unit w) (w_cache w) cr;
      reject_loop l' (mkWorld c (w_unit w) (w_attempted w) (w_bound w) (w_rejected w ++ [ru_uid (cr_runningUnit cr)])%list (w_requeued w))
  end.
Definition RejectFailedTasks w : option (World C) := reject_loop (GetFailedTasks (w_unit w)) w.
Definition FailAndRejectAllTasks w : option (World C) := RejectFailedTasks (with_unit (MoveAllTasksToFailedList (w_unit w)) w).

(** A task that waits without being assumed ends the process. *)
Fixpoint requeue_loop (l : list checkResult) w : option (World C) :=
  match l with
  | [] => Some w
  | cr :: l' =>
      let uid := ru_uid (cr_runningUnit cr) in
      qt ← task_of uid (w_unit w);
      if negb (cr_assumed cr) && (negb (NewlyAssumedButStillInHandling qt) || bool_decide (ReservedPod qt = None)) then None
      else requeue_loop l' (mkWorld (w_cache w) (w_unit w) (w_attempted w) (w_bound w) (w_rejected w) (w_requeued w ++ [uid])%list)
  end.
Definition ReEnqueueWaitingTasks w : option (World C) := requeue_loop (GetWaitingTasks (w_unit w)) w.

(** ** Deleting victims and binding *)

(** [util.Retry]: whether one of the attempts succeeds. *)
Fixpoint Retry (attempts : nat) (n : nat) (f : nat → bool) : bool :=
  if f n then true else match attempts with O => false | Datatypes.S attempts => Retry attempts (Datatypes.S n) f end.

Fixpoint deleteVictimsForTask (victims : list Pod) : bool :=
  match victims with
  | [] => true
  | v :: victims' => if Retry (MaxRetryAttempts - 1) 0 (an_delete an (UID v)) then deleteVictimsForTask victims' else false
  end.
Definition deleteVictimsOfNewTasks u : gset string :=
  foldl (λ failedNodes cr,
           let rui := cr_runningUnit cr in
           if negb (cr_assumed cr) && (0 <? length (ru_victims rui))%nat && negb (deleteVictimsForTask (ru_victims rui))
           then {[suggestedNode rui]} ∪ failedNodes else failedNodes) ∅ (GetWaitingTasks u).

Definition runBindPhase (uid : string) (allVolumeBound : bool) (n : nat) : bool :=
  an_reserve an uid n && (allVolumeBound || an_volumes an uid n) && an_prebind an uid n && an_bind an uid n.
(** The attempts to bind a task; binding is finished in the cache after each. *)
Fixpoint bind_attempts (attempts : nat) (n : nat) (uid : string) (qt : QueuedTask) (reserved : Pod) c : C * bool :=
  let ok := runBindPhase uid (AllVolumeBound qt) n in
  let c := FinishBinding reserved c in
  if ok then (c, true)
  else match attempts with O => (c, false) | Datatypes.S attempts => bind_attempts attempts (Datatypes.S n) uid qt reserved c end.

(** The tasks that failed; a task without reserved pod is skipped. *)
Fixpoint bind_loop (l : list checkResult) w : option (World C * list string) :=
  match l with
  | [] => Some (w, [])
  | cr :: l' =>
      let uid := ru_uid (cr_runningUnit cr) in
      qt ← task_of uid (w_unit w);
      match ReservedPod qt with
      | None => bind_loop l' w
      | Some reserved =>
          let '(c, ok) := bind_attempts (MaxRetryAttempts - 1) 0 uid qt reserved (w_cache w) in
          '(w, failed) ← bind_loop l' (mkWorld c (w_unit w) (w_attempted w ++ [uid])%list
                                        (if ok : bool then (w_bound w ++ [uid])%list else w_bound w) (w_rejected w) (w_requeued w));
          Some (w, if ok then failed else uid :: failed)
      end
  end.
Definition bindTasks w : option (World C * list string) := bind_loop (GetReadyTasks (w_unit w)) w.

(** What follows binding, given the tasks that could not be bound. *)
Definition after_bind (w : World C) (failedTasks : list string) : option (World C) :=
  u ← MoveTasksFromReadyToFailedList failedTasks (w_unit w);
  let w := with_unit u w in
  if IsUnitFailed u then FailAndRejectAllTasks w else
  let w := if isPodGroup u then with_cache (SetUnitScheduled (unitKey u) (w_cache w)) w else w in
  w ← ReEnqueueWaitingTasks w; RejectFailedTasks w.

Definition DeleteVictimsAndBindTasks w : option (World C) :=
  let w := with_unit (fail_nodes (deleteVictimsOfNewTasks (w_unit w)) (w_unit w)) w in
  if IsUnitFailed (w_unit w) then FailAndRejectAllTasks w else
  if IsAbleToBindReadyTasks (w_unit w) then
    if isPodGroup (w_unit w) && negb (an_lock an) then FailAndRejectAllTasks w else
    '(w, failedTasks) ← bindTasks w; after_bind w failedTasks
  else
    w ← ReEnqueueWaitingTasks (with_unit (MoveAllTasksFromReadyToWaitingList (w_unit w)) w); RejectFailedTasks w.

(** ** The workflow *)

(** A stage is followed by the check that the unit can still be bound. *)
Definition stage (w : World C) (go_on : World C → option (World C)) : option (World C) :=
  if IsUnitFailed (w_unit w) then FailAndRejectAllTasks w else go_on w.

(** The stages for a unit. *)
Definition bind_unit (key : string) (group : bool) (min : Z) (tasks : gmap string QueuedTask) (pods : list string) c : option (World C) :=
  u ← InitializeUnit key group min tasks pods c;
  stage (mkWorld c u [] [] [] []) (λ w,
  '(u, _) ← CheckCrossNodePreemptionForUnit (w_unit w);
  stage (with_unit u w) (λ w,
  '(u, _) ← CheckCrossNodeTopologyForUnit (w_cache w) (w_unit w);
  stage (with_unit u w) (λ w,
  u ← CheckSameNodeConflictsForUnit (w_cache w) (w_unit w);
  stage (with_unit u w) (λ w,
  '(c, u) ← MarkVictimsAndAssumeTasks (w_cache w) (w_unit w);
  stage (with_cache c (with_unit u w)) DeleteVictimsAndBindTasks)))).

Definition ValidateUnit (pods : list string) : bool := negb (length pods ≟ 0%nat).
(** Times are in nanoseconds, the timeout in seconds. *)
Definition UnitTimeout (key : string) (timeout creation : Z) c : bool :=
  negb (timeout =? 0)%Z && ((creation + timeout * 1000000000 <? now)%Z && negb (UnitScheduled key c)).
(** The cache is left as it is. *)
Definition RejectTimeOutUnit (pods : list string) w : World C :=
  mkWorld (w_cache w) (w_unit w) (w_attempted w) (w_bound w) (w_rejected w ++ pods)%list (w_requeued w).

Definition CheckAndBindUnit (key : string) (group : bool) (min timeout creation : Z) (tasks : gmap string QueuedTask) (pods : list string) c : option (World C) :=
  let w := mkWorld c (NewBindingUnitInfo key group min tasks) [] [] [] [] in
  if negb (ValidateUnit pods) then Some w else
  if UnitTimeout key timeout creation c then Some (RejectTimeOutUnit pods w) else
  bind_unit key group min tasks pods c.
End binder.
