(* ===== verification/BinderProps.v ===== *)
(** * Where the tasks of a unit are

    Every task of a unit is in one place: assumed, new on a node, ready, waiting,
    failed or ignored.  [located] relates a unit to the map from tasks to places, and
    each operation of BinderUnit changes the map in the way its name says. *)
From S2P Require Import Prelude GoStrings PodModel PodState BinderUnit.

Local Open Scope godel_scope.
Local Open Scope string_scope.

Inductive Place := PAssumed | PNew (nodeName : string) | PReady | PWaiting | PFailed | PIgnored.
#[export] Instance Place_eq_dec : EqDecision Place.
Proof. solve_decision. Defined.
Definition Places := gmap string Place.
Implicit Types (u : bindingUnitInfo) (loc : Places).

Definition holds u (p : Place) (uid : string) : Prop :=
  match p with
  | PAssumed => uid ∈ assumedTasks u
  | PNew node => is_Some (tasks_on node u !! uid)
  | PReady => is_Some (readyTasks u !! uid)
  | PWaiting => is_Some (waitingTasks u !! uid)
  | PFailed => is_Some (failedTasks u !! uid)
  | PIgnored => uid ∈ ignoredTasks u
  end.
(** What no move changes. *)
Definition frame u := (unitKey u, isPodGroup u, minMember u, allMember u, everScheduled u, queued u).

(** The tasks that an earlier attempt left assumed. *)
Section places.
Context {A : gset string}.

(** A task is kept under its UID, a new one also under its node. *)
Definition rui_ok (uid : string) (rui : runningUnitInfo) : Prop := ru_uid rui = uid ∧ ∀ p, clonedPod rui = Some p → UID p = uid.
Definition entry_ok (uid : string) (cr : checkResult) : Prop := rui_ok uid (cr_runningUnit cr) ∧ cr_assumed cr = bool_decide (uid ∈ A).
Definition keyed (m : gmap string checkResult) : Prop := ∀ uid cr, m !! uid = Some cr → entry_ok uid cr.
Record wf_unit u : Prop := {
  wf_assumed uid : uid ∈ assumedTasks u → uid ∈ A;
  wf_new node uid rui : tasks_on node u !! uid = Some rui → rui_ok uid rui ∧ suggestedNode rui = node ∧ node ≠ "" ∧ uid ∉ A;
  wf_nodes node uid : is_Some (tasks_on node u !! uid) → node ∈ Nodes (newTasks u);
  wf_ignored : NoDup (ignoredTasks u);
  wf_ready : keyed (readyTasks u);
  wf_waiting : keyed (waitingTasks u);
  wf_failed : keyed (failedTasks u)
}.
Record located u loc : Prop := { lo_at p uid : holds u p uid ↔ loc !! uid = Some p; lo_wf : wf_unit u }.

Lemma is_Some_insert {T} (m : gmap string T) k x j : is_Some (<[k := x]> m !! j) ↔ is_Some (m !! j) ∨ j = k.
Proof.
  destruct (decide (k = j)) as [->|Hne].
  - rw lookup_insert_eq. split; [by right|by eauto].
  - rw lookup_insert_ne //. split; [by left|intros [H|H]; [done|congruence]].
Qed.
Lemma is_Some_delete {T} (m : gmap string T) k j : is_Some (delete k m !! j) ↔ is_Some (m !! j) ∧ j ≠ k.
Proof.
  destruct (decide (k = j)) as [->|Hne].
  - rw lookup_delete_eq. split; [by intros []|by intros []].
  - rw lookup_delete_ne //. split; [|by intros []]. intros ?. split; [done|congruence].
Qed.
Lemma entries_insert m uid cr : keyed m → entry_ok uid cr → keyed (<[uid := cr]> m).
Proof. intros Hm Hu k c [[<- <-]|[_ H]]%lookup_insert_Some; [done|by apply Hm]. Qed.
Lemma bare_ok uid node : rui_ok uid (bare_task uid node).
Proof. by split. Qed.
Lemma entries_delete m uid : keyed m → keyed (delete uid m).
Proof. intros Hm k c [_ H]%lookup_delete_Some. by apply Hm. Qed.

(** ** One task *)

(** The lists of checked tasks. *)
Definition checked (d : Place) : Prop := d = PReady ∨ d = PWaiting ∨ d = PFailed.
Definition put (d : Place) (uid : string) (cr : checkResult) u : bindingUnitInfo :=
  match d with
  | PReady => set_ready (<[uid := cr]> (readyTasks u)) u
  | PWaiting => set_waiting (<[uid := cr]> (waitingTasks u)) u
  | PFailed => fail_task uid cr u
  | _ => u
  end.
Definition take_out (s : Place) (uid : string) u : bindingUnitInfo :=
  match s with
  | PReady => set_ready (delete uid (readyTasks u)) u
  | PWaiting => set_waiting (delete uid (waitingTasks u)) u
  | _ => u
  end.

Lemma put_holds d uid cr u p k : checked d → holds (put d uid cr u) p k ↔ holds u p k ∨ (p = d ∧ k = uid).
Proof.
  intros [-> | [-> | ->]]; destruct p; simpl; rw ?is_Some_insert.
  all: naive_solver.
Qed.
Lemma take_holds s uid u p k : s = PReady ∨ s = PWaiting → holds (take_out s uid u) p k ↔ holds u p k ∧ ¬ (p = s ∧ k = uid).
Proof.
  intros [-> | ->]; destruct p; simpl; rw ?is_Some_delete.
  all: naive_solver.
Qed.
Lemma delete_holds rui u p k : suggestedNode rui ≠ "" →
  holds (deleteTaskFromNewOrAssumedTasks rui false u) p k ↔ holds u p k ∧ ¬ (p = PNew (suggestedNode rui) ∧ k = ru_uid rui).
Proof.
  intros Hn. unfold deleteTaskFromNewOrAssumedTasks. rw (bool_decide_eq_false_2 _ Hn).
  destruct p as [|node| | | |]; simpl; try (by split; [intros H; split; [done|by intros []]|intros []]).
  unfold tasks_on. simpl. destruct (decide (node = suggestedNode rui)) as [->|Hne].
  - rw lookup_alter_eq. destruct (Tasks (newTasks u) !! suggestedNode rui) as [m|]; simpl.
    + rw is_Some_delete. split; intros [H1 H2]; (split; [done|]); [by intros [_ ->]|by intros ->; apply H2].
    + rw lookup_empty. split; [by intros []|by intros [[] _]].
  - rw lookup_alter_ne //. split; [|by intros []]. intros H. split; [done|]. intros [E _]. by injection E as ->.
Qed.
Lemma delete_assumed_holds rui u p k :
  holds (deleteTaskFromNewOrAssumedTasks rui true u) p k ↔ holds u p k ∧ ¬ (p = PAssumed ∧ k = ru_uid rui).
Proof.
  destruct p; simpl; try (by split; [intros H; split; [done|by intros []]|intros []]). rw elem_of_difference elem_of_singleton.
  split; intros [H1 H2]; (split; [done|]); [by intros [_ ->]|by intros ->; apply H2].
Qed.
Lemma delete_frame rui b u : frame (deleteTaskFromNewOrAssumedTasks rui b u) = frame u.
Proof. unfold deleteTaskFromNewOrAssumedTasks. destruct b; [done|]. by case_bool_decide. Qed.
Lemma put_frame d uid cr u : frame (put d uid cr u) = frame u.
Proof. by destruct d. Qed.

Lemma delete_same rui u : let u' := deleteTaskFromNewOrAssumedTasks rui false u in
  ignoredTasks u' = ignoredTasks u ∧ readyTasks u' = readyTasks u ∧ waitingTasks u' = waitingTasks u ∧ failedTasks u' = failedTasks u ∧ assumedTasks u' = assumedTasks u.
Proof. unfold deleteTaskFromNewOrAssumedTasks. by case_bool_decide. Qed.
Lemma delete_wf rui b u : wf_unit u → wf_unit (deleteTaskFromNewOrAssumedTasks rui b u).
Proof.
  intros W. pose proof W as [Ha Hn Hno Hi Hr Hw Hf]. destruct b.
  { split; try done. intros uid H. apply Ha. simpl in H. by apply elem_of_difference in H as [? _]. }
  destruct (decide (suggestedNode rui = "")) as [E|E]; [unfold deleteTaskFromNewOrAssumedTasks; by rw (bool_decide_eq_true_2 _ E)|].
  assert (∀ node uid r, tasks_on node (deleteTaskFromNewOrAssumedTasks rui false u) !! uid = Some r → tasks_on node u !! uid = Some r) as Ht.
  { intros node uid r. unfold tasks_on, deleteTaskFromNewOrAssumedTasks. rw (bool_decide_eq_false_2 _ E). simpl.
    destruct (decide (node = suggestedNode rui)) as [->|Hne]; [|by rw lookup_alter_ne].
    rw lookup_alter_eq. destruct (Tasks (newTasks u) !! suggestedNode rui) as [m|]; simpl; [|by rw lookup_empty]. by intros [_ H1]%lookup_delete_Some. }
  destruct (delete_same rui u) as (E1 & E2 & E3 & E4 & E5). split; rw ?E1 ?E2 ?E3 ?E4 ?E5; try done.
  - intros node uid r H. by apply Hn, Ht.
  - intros node uid [r H]. pose proof (Hno node uid ltac:(rw (Ht _ _ _ H); eauto)) as Hin.
    unfold deleteTaskFromNewOrAssumedTasks in *. rw (bool_decide_eq_false_2 _ E) in H |- *. simpl in *. case_bool_decide as Eb; [|done]. simpl. case_bool_decide; [|done].
    apply elem_of_difference. split; [done|]. intros ->%elem_of_singleton. unfold tasks_on in H. simpl in H. by rw Eb lookup_empty in H.
Qed.
Lemma put_wf d uid cr u : wf_unit u → entry_ok uid cr → wf_unit (put d uid cr u).
Proof. intros [Ha Hn Hno Hi Hr Hw Hf] Hu. destruct d; split; try done; by apply entries_insert. Qed.
Lemma take_wf s uid u : wf_unit u → wf_unit (take_out s uid u).
Proof. intros [Ha Hn Hno Hi Hr Hw Hf]. destruct s; split; try done; by apply entries_delete. Qed.

(** A task that leaves one place for another. *)
Lemma relocate u u' loc uid s d : located u loc → loc !! uid = Some s → s ≠ d → wf_unit u' →
  (∀ p k, holds u' p k ↔ (holds u p k ∧ ¬ (p = s ∧ k = uid)) ∨ (p = d ∧ k = uid)) → located u' (<[uid := d]> loc).
Proof.
  intros [La Lw] Hs Hd Hw Hh. split; [|done]. intros p k. rw Hh La lookup_insert_Some. split.
  - intros [[H1 H2]|[-> ->]]; [|by left]. destruct (decide (uid = k)) as [->|Hne]; [|by right].
    exfalso. apply H2. split; [congruence|done].
  - intros [[<- <-]|[H1 H2]]; [by right|]. left. split; [done|]. by intros [_ ->].
Qed.

Lemma new_place u loc node uid rui : located u loc → tasks_on node u !! uid = Some rui →
  loc !! uid = Some (PNew node) ∧ rui_ok uid rui ∧ suggestedNode rui = node ∧ suggestedNode rui ≠ "" ∧ uid ∉ A.
Proof.
  intros L Hr. destruct (wf_new _ (lo_wf _ _ L) _ _ _ Hr) as (H1 & H2 & H3 & H4). split_and!; [|done|done|congruence|done].
  apply (lo_at _ _ L). simpl. by rw Hr.
Qed.
(** A new task is moved to a list of checked tasks. *)
Lemma move_new d u loc node uid rui : checked d → located u loc → tasks_on node u !! uid = Some rui →
  located (deleteTaskFromNewOrAssumedTasks rui false (put d uid {| cr_assumed := false; cr_runningUnit := rui |} u)) (<[uid := d]> loc).
Proof.
  intros Hd L Hr. destruct (new_place _ _ _ _ _ L Hr) as (Hl & Hok & Hs & Hne & HA). pose proof (proj1 Hok) as Hu.
  assert (PNew node ≠ d) as Hnd by by destruct Hd as [-> | [-> | ->]].
  eapply relocate; [done|done|done|apply delete_wf, put_wf; [apply (lo_wf _ _ L)|split; [done|by rw bool_decide_eq_false_2]]|].
  intros p k. rw delete_holds // put_holds // Hs Hu. split.
  - intros [[H|H] H']; [by left|by right].
  - intros [[H H']|[-> ->]]; (split; [by [left|right]|]); [done|]. intros [E _]. congruence.
Qed.
(** An assumed task is moved. *)
Lemma move_assumed d u loc uid cr node : checked d → located u loc → uid ∈ assumedTasks u → entry_ok uid cr →
  located (deleteTaskFromNewOrAssumedTasks (bare_task uid node) true (put d uid cr u)) (<[uid := d]> loc).
Proof.
  intros Hd L Ha Hu. assert (loc !! uid = Some PAssumed) as Hl by by apply (lo_at _ _ L).
  assert (PAssumed ≠ d) as Hnd by by destruct Hd as [-> | [-> | ->]].
  eapply relocate; [done|done|done|apply delete_wf, put_wf; [apply (lo_wf _ _ L)|done]|].
  intros p k. rw delete_assumed_holds put_holds //. split.
  - intros [[H|H] H']; [by left|by right].
  - intros [[H H']|[-> ->]]; (split; [by [left|right]|]); [done|]. intros [E _]. congruence.
Qed.
(** A checked task is moved. *)
Lemma move_checked s d u loc uid cr : s = PReady ∨ s = PWaiting → checked d → s ≠ d → located u loc → loc !! uid = Some s → entry_ok uid cr →
  located (take_out s uid (put d uid cr u)) (<[uid := d]> loc).
Proof.
  intros Hs Hd Hne L Hl Hu. eapply relocate; [done|done|done|apply take_wf, put_wf; [apply (lo_wf _ _ L)|done]|].
  intros p k. rw take_holds // put_holds //. split.
  - intros [[H|H] H']; [by left|by right].
  - intros [[H H']|[-> ->]]; (split; [by [left|right]|]); [done|]. intros [E _]. congruence.
Qed.

(** ** Loops *)

(** The places after the tasks of [ks] were sent to [d]. *)
Definition send (ks : list string) (d : Place) loc : Places := foldl (λ loc k, <[k := d]> loc) loc ks.
Lemma send_lookup ks d : ∀ loc k, send ks d loc !! k = if decide (k ∈ ks) then Some d else loc !! k.
Proof.
  induction ks as [|x ks IH]; intros loc k; [by destruct (decide (k ∈ [])) as [H%elem_of_nil|]|].
  unfold send in *. simpl. rw IH. destruct (decide (k ∈ ks)) as [H|H].
  - rw decide_True //. by right.
  - destruct (decide (k = x)) as [->|Hne].
    + rw lookup_insert_eq decide_True //. by left.
    + rw lookup_insert_ne // decide_False //. by intros [->|]%elem_of_cons.
Qed.

Lemma foldl_moves {E} (step : bindingUnitInfo → E → bindingUnitInfo) (key : E → string) d (pre : bindingUnitInfo → E → Prop)
    (Hstep : ∀ u loc e, located u loc → pre u e →
       located (step u e) (<[key e := d]> loc) ∧ frame (step u e) = frame u ∧ ∀ e', key e' ≠ key e → pre u e' → pre (step u e) e') l :
  ∀ u loc, NoDup (key <$> l) → Forall (pre u) l → located u loc →
  located (foldl step u l) (send (key <$> l) d loc) ∧ frame (foldl step u l) = frame u.
Proof.
  induction l as [|e l IH]; intros u loc; simpl; [done|]. intros [Hn HN]%NoDup_cons [Hp HP]%Forall_cons L.
  destruct (Hstep u loc e L Hp) as (L1 & F1 & Hpre). destruct (IH (step u e) (<[key e := d]> loc) HN) as [L2 F2].
  - rw !Forall_forall in HP |- *. intros e' He'. apply Hpre; [|by apply HP]. intros E'. apply Hn. rw -E'. by apply list_elem_of_fmap_2.
  - done.
  - split; [done|congruence].
Qed.

Section loops.
Context {MR : MapRange} {ML : MapRangeLaws MR}.

Lemma range_keys {T} (m : gmap string T) : NoDup (range_map m).*1.
Proof. apply range_nodup. Qed.
Lemma range_key_elem {T} (m : gmap string T) k : k ∈ (range_map m).*1 ↔ is_Some (m !! k).
Proof.
  rw list_elem_of_fmap. split.
  - intros ([k' x] & -> & H%range_elem). by exists x.
  - intros [x H]. exists (k, x). split; [done|]. by apply range_elem.
Qed.

(** The new tasks of a node. *)
Lemma tasks_after rui u node k : suggestedNode rui ≠ "" → k ≠ ru_uid rui →
  tasks_on node (deleteTaskFromNewOrAssumedTasks rui false u) !! k = tasks_on node u !! k.
Proof.
  intros Hn Hk. unfold tasks_on, deleteTaskFromNewOrAssumedTasks. rw (bool_decide_eq_false_2 _ Hn). simpl.
  destruct (decide (node = suggestedNode rui)) as [->|Hne]; [|by rw lookup_alter_ne].
  rw lookup_alter_eq. destruct (Tasks (newTasks u) !! suggestedNode rui) as [m|]; simpl; [|done]. by rw lookup_delete_ne.
Qed.
Lemma tasks_put d uid cr u node : tasks_on node (put d uid cr u) = tasks_on node u.
Proof. by destruct d. Qed.

Lemma new_moves d node l u loc : checked d → NoDup l.*1 → Forall (λ e, tasks_on node u !! e.1 = Some e.2) l → located u loc →
  let step u e := deleteTaskFromNewOrAssumedTasks e.2 false (put d e.1 {| cr_assumed := false; cr_runningUnit := e.2 |} u) in
  located (foldl step u l) (send l.*1 d loc) ∧ frame (foldl step u l) = frame u.
Proof.
  intros Hd HN HF L. apply foldl_moves with (pre := λ u e, tasks_on node u !! e.1 = Some e.2); [|done|done|done].
  intros u' loc' [uid rui] L' Hr. cbn [fst snd] in *. split_and!; [by eapply move_new|etrans; [apply delete_frame|apply put_frame]|].
  intros [uid' rui'] Hne Hr'. destruct (new_place _ _ _ _ _ L' Hr) as (_ & [Hu _] & _ & Hn & _). cbn [fst snd] in *. rw tasks_after; [by rw tasks_put|done|congruence].
Qed.
Lemma new_range node u : Forall (λ e, tasks_on node u !! e.1 = Some e.2) (range_map (tasks_on node u)).
Proof. apply Forall_forall. intros [k r] H%range_elem. done. Qed.

Definition new_keys node u : list string := (range_map (tasks_on node u)).*1.
Lemma new_to_failed node u loc : located u loc → 
  located (MoveAllNewTasksOnNodeToFailedList node u) (send (new_keys node u) PFailed loc) ∧ frame (MoveAllNewTasksOnNodeToFailedList node u) = frame u.
Proof. intros L. apply (new_moves PFailed node); [by right; right|apply range_keys|apply new_range|done]. Qed.
Lemma new_to_waiting node u loc : located u loc → 
  located (MoveAllNewTasksOnNodeToWaitingList node u) (send (new_keys node u) PWaiting loc) ∧ frame (MoveAllNewTasksOnNodeToWaitingList node u) = frame u.
Proof. intros L. apply (new_moves PWaiting node); [by right; left|apply range_keys|apply new_range|done]. Qed.
Lemma new_to_ready node u loc : located u loc → 
  located (MoveAllNewTasksOnNodeToReadyList node u) (send (new_keys node u) PReady loc) ∧ frame (MoveAllNewTasksOnNodeToReadyList node u) = frame u.
Proof. intros L. apply (new_moves PReady node); [by left|apply range_keys|apply new_range|done]. Qed.

(** Checked tasks of a list; [step] may skip some. *)
Lemma checked_moves s d (p : checkResult → bool) (l : list (string * checkResult)) : s = PReady ∨ s = PWaiting → checked d → s ≠ d →
  ∀ u loc, NoDup l.*1 → Forall (λ e, loc !! e.1 = Some s ∧ entry_ok e.1 e.2) l → located u loc →
  let step u e := if p e.2 then take_out s e.1 (put d e.1 e.2 u) else u in
  located (foldl step u l) (send (filter (λ e, p e.2 = true) l).*1 d loc) ∧ frame (foldl step u l) = frame u.
Proof.
  intros Hs Hd Hne. induction l as [|[uid cr] l IH]; intros u loc; simpl; [done|].
  intros [Hn HN]%NoDup_cons [[Hl Hu] HF]%Forall_cons L. rw filter_cons. simpl in *. destruct (p cr); simpl; [|by apply IH].
  destruct (IH (take_out s uid (put d uid cr u)) (<[uid := d]> loc) HN) as [L2 F2].
  - rw !Forall_forall in HF |- *. intros e He. destruct (HF e He) as [H1 H2]. split; [|done]. rw lookup_insert_ne //. intros ->. apply Hn. by apply list_elem_of_fmap_2.
  - by apply move_checked.
  - split; [exact L2|]. rw F2. destruct Hs as [-> | ->]; by destruct d.
Qed.
Lemma checked_range s m u loc : located u loc → (∀ k, is_Some (m !! k) ↔ holds u s k) → keyed m →
  Forall (λ e : string * checkResult, loc !! e.1 = Some s ∧ entry_ok e.1 e.2) (range_map m).
Proof. intros L Hm Hk. apply Forall_forall. intros [k cr] H%range_elem. simpl. split; [apply (lo_at _ _ L), Hm; eauto|by apply Hk]. Qed.

Lemma waiting_to_failed p u loc : located u loc →
  located (fail_waiting p u) (send (filter (λ e, p e.2 = true) (range_map (waitingTasks u))).*1 PFailed loc) ∧ frame (fail_waiting p u) = frame u.
Proof.
  intros L. apply (checked_moves PWaiting PFailed p); [by right|by right; right|done|apply range_keys| |done].
  eapply (checked_range PWaiting); [done|done|apply (lo_wf _ _ L)].
Qed.
Lemma ready_to_failed p u loc : located u loc →
  located (fail_ready p u) (send (filter (λ e, p e.2 = true) (range_map (readyTasks u))).*1 PFailed loc) ∧ frame (fail_ready p u) = frame u.
Proof.
  intros L. apply (checked_moves PReady PFailed p); [by left|by right; right|done|apply range_keys| |done].
  eapply (checked_range PReady); [done|done|apply (lo_wf _ _ L)].
Qed.
Lemma ready_to_waiting u loc : located u loc →
  located (MoveAllTasksFromReadyToWaitingList u) (send (filter (λ e, true = true) (range_map (readyTasks u))).*1 PWaiting loc) ∧
  frame (MoveAllTasksFromReadyToWaitingList u) = frame u.
Proof.
  intros L. apply (checked_moves PReady PWaiting (λ _, true)); [by left|by right; left|done|apply range_keys| |done].
  eapply (checked_range PReady); [done|done|apply (lo_wf _ _ L)].
Qed.

(** All new tasks. *)
Definition all_new u : list (string * runningUnitInfo) := mjoin ((λ e, range_map e.2) <$> range_map (Tasks (newTasks u))).
Lemma all_new_elem u uid rui : (uid, rui) ∈ all_new u ↔ ∃ node, tasks_on node u !! uid = Some rui.
Proof.
  unfold all_new, tasks_on. rw list_elem_of_join. split.
  - intros (l & Hl & ((node & m) & -> & Hm%range_elem)%list_elem_of_fmap). apply range_elem in Hl. exists node. simpl in *. by rw Hm.
  - intros [node H]. destruct (Tasks (newTasks u) !! node) as [m|] eqn:E; [|by rw lookup_empty in H].
    exists (range_map m). split; [by apply range_elem|]. apply list_elem_of_fmap. exists (node, m). split; [done|]. by apply range_elem.
Qed.
Lemma all_new_nodup u loc : located u loc → NoDup (all_new u).*1.
Proof.
  intros L. unfold all_new.
  assert (∀ node m, (node, m) ∈ range_map (Tasks (newTasks u)) → Tasks (newTasks u) !! node = Some m) as Hin by (intros *; apply range_elem).
  pose proof (range_keys (Tasks (newTasks u))) as HN. revert Hin HN. generalize (range_map (Tasks (newTasks u))) as l.
  induction l as [|[node m] l IH]; intros Hin HN; simpl; [constructor|]. apply NoDup_cons in HN as [Hn HN].
  rw fmap_app. apply NoDup_app. split_and!; [apply range_keys| |apply IH; [intros ? ? ?; apply Hin; by right|done]].
  intros k [r1 H1]%range_key_elem H2.
  apply list_elem_of_fmap in H2 as ([k' r2] & -> & (l2 & Hl2 & ((node' & m') & -> & Hm')%list_elem_of_fmap)%list_elem_of_join).
  apply range_elem in Hl2. simpl in *.
  assert (node ≠ node') as Hne by (intros ->; apply Hn; apply list_elem_of_fmap; by exists (node', m')).
  assert (loc !! k' = Some (PNew node)) as E1 by (apply (lo_at _ _ L); simpl; unfold tasks_on; rw (Hin node m) /=; [by eexists|by left]).
  assert (loc !! k' = Some (PNew node')) as E2 by (apply (lo_at _ _ L); simpl; unfold tasks_on; rw (Hin node' m') /=; [by eexists|by right]).
  congruence.
Qed.
Lemma foldl_join {T B E} (f : T → E → T) (g : B → list E) l : ∀ a, foldl (λ a b, foldl f a (g b)) a l = foldl f a (mjoin (g <$> l)).
Proof. induction l as [|b l IH]; intros a; simpl; [done|]. by rw IH foldl_app. Qed.

Lemma any_new_moves d l u loc : checked d → NoDup l.*1 → Forall (λ e : string * runningUnitInfo, ∃ node, tasks_on node u !! e.1 = Some e.2) l → located u loc →
  let step u e := deleteTaskFromNewOrAssumedTasks e.2 false (put d e.1 {| cr_assumed := false; cr_runningUnit := e.2 |} u) in
  located (foldl step u l) (send l.*1 d loc) ∧ frame (foldl step u l) = frame u.
Proof.
  intros Hd HN HF L. apply foldl_moves with (pre := λ u e, ∃ node, tasks_on node u !! e.1 = Some e.2); [|done|done|done].
  intros u' loc' [uid rui] L' [node Hr]. cbn [fst snd] in *. split_and!; [by eapply move_new|etrans; [apply delete_frame|apply put_frame]|].
  intros [uid' rui'] Hne [node' Hr']. exists node'. destruct (new_place _ _ _ _ _ L' Hr) as (_ & [Hu _] & _ & Hn & _). cbn [fst snd] in *.
  rw tasks_after; [by rw tasks_put|done|congruence].
Qed.
Lemma fail_new_spec u loc : located u loc → located (fail_new u) (send (all_new u).*1 PFailed loc) ∧ frame (fail_new u) = frame u.
Proof.
  intros L. unfold fail_new. rw foldl_join. apply (any_new_moves PFailed); [by right; right|by eapply all_new_nodup| |done].
  apply Forall_forall. intros [k r] H. by apply all_new_elem.
Qed.
Lemma fail_assumed_spec u loc : located u loc → located (fail_assumed u) (send (GetAssumedTasks u) PFailed loc) ∧ frame (fail_assumed u) = frame u.
Proof.
  intros L. unfold fail_assumed. rw -{2}(list_fmap_id (GetAssumedTasks u)). apply foldl_moves with (pre := λ u uid, uid ∈ assumedTasks u); [| | |done].
  - intros u' loc' uid L' Ha. split_and!; [apply (move_assumed PFailed); [by right; right|done|done|split; [apply bare_ok|by rw bool_decide_eq_true_2 //; apply (wf_assumed _ (lo_wf _ _ L'))]]|done|].
    intros uid' Hne Ha'. simpl. apply elem_of_difference. split; [done|]. by intros ->%elem_of_singleton.
  - rw list_fmap_id. exact (NoDup_elements (assumedTasks u)).
  - apply Forall_forall. intros k H. by apply (elem_of_elements (assumedTasks u)).
Qed.

(** Everything but what is ignored fails. *)
Definition all_failed loc : Places := (λ p, if decide (p = PIgnored) then PIgnored else PFailed) <$> loc.
Lemma filter_true {T} (l : list T) : filter (λ _, true = true) l = l.
Proof. induction l as [|x l IH]; [done|]. rw filter_cons. by case_decide; [rw IH|]. Qed.
Lemma all_to_failed u loc : located u loc → located (MoveAllTasksToFailedList u) (all_failed loc) ∧ frame (MoveAllTasksToFailedList u) = frame u.
Proof.
  intros L. destruct (fail_assumed_spec u loc L) as [L1 F1]. destruct (fail_new_spec _ _ L1) as [L2 F2].
  destruct (ready_to_failed (λ _, true) _ _ L2) as [L3 F3]. destruct (waiting_to_failed (λ _, true) _ _ L3) as [L4 F4].
  rw !filter_true in L3. rw !filter_true in L4. split; [|unfold MoveAllTasksToFailedList; congruence].
  unfold MoveAllTasksToFailedList. match type of L4 with located _ ?l => assert (l = all_failed loc) as E; [|by rw E in L4] end.
  apply map_eq. intros k. unfold all_failed. rw lookup_fmap !send_lookup.
  pose proof (λ p, lo_at _ _ L p k) as H0. pose proof (λ p, lo_at _ _ L1 p k) as H1. pose proof (λ p, lo_at _ _ L2 p k) as H2. pose proof (λ p, lo_at _ _ L3 p k) as H3.
  rw !send_lookup in H1. rw !send_lookup in H2. rw !send_lookup in H3.
  assert (k ∈ GetAssumedTasks u ↔ loc !! k = Some PAssumed) as EA by (rw elem_of_elements; apply (H0 PAssumed)).
  assert (k ∈ (all_new (fail_assumed u)).*1 ↔ ∃ node, loc !! k = Some (PNew node)) as EN.
  { rw list_elem_of_fmap. split.
    - intros ([k' r] & -> & (node & Hr)%all_new_elem). exists node. specialize (H1 (PNew node)). simpl in H1. rw Hr in H1. simpl in *.
      pose proof (proj1 H1 (mk_is_Some _ _ eq_refl)) as H5. by case_decide.
    - intros [node Hl]. specialize (H1 (PNew node)). assert (k ∉ GetAssumedTasks u) as HnA by by rw EA Hl. rw (decide_False _ _ HnA) in H1. destruct (proj2 H1 Hl) as [r Hr].
      exists (k, r). split; [done|]. apply all_new_elem. by exists node. }
  assert (k ∈ (range_map (readyTasks (fail_new (fail_assumed u)))).*1 ↔ loc !! k = Some PReady) as ER.
  { rw range_key_elem. specialize (H2 PReady). simpl in H2. rw H2. repeat case_decide; try done; split; try done; intros Hl; exfalso.
    all: repeat match goal with H : _ ∈ _ |- _ => first [apply EA in H | apply EN in H as [? H]] end; congruence. }
  assert (k ∈ (range_map (waitingTasks (fail_ready (λ _, true) (fail_new (fail_assumed u))))).*1 ↔ loc !! k = Some PWaiting) as EW.
  { rw range_key_elem. specialize (H3 PWaiting). simpl in H3. rw H3. repeat case_decide; try done; split; try done; intros Hl; exfalso.
    all: repeat match goal with H : _ ∈ _ |- _ => first [apply EA in H | apply EN in H as [? H] | apply ER in H] end; congruence. }
  clear H0 H1 H2 H3. destruct (loc !! k) as [p|] eqn:E; [destruct p|]; change (loc !! k) with (@lookup string Place (gmap string Place) _ k loc); rw ?E; cbn [fmap option_fmap option_map]; repeat case_decide; try done; exfalso.
  all: repeat match goal with H : _ ∈ _ |- _ => first [apply EA in H | apply EN in H as [? H] | apply ER in H | apply EW in H] end; try congruence.
  all: match goal with H : _ ∉ _ |- _ => apply H; first [by apply EA | apply EN; by eexists | by apply ER | by apply EW] end.
Qed.
End loops.

(** ** Tasks that join the unit, or fail one by one *)

Lemma join u u' loc uid d : located u loc → loc !! uid = None → wf_unit u' →
  (∀ p k, holds u' p k ↔ holds u p k ∨ (p = d ∧ k = uid)) → located u' (<[uid := d]> loc).
Proof.
  intros [La Lw] Hn Hw Hh. split; [|done]. intros p k. rw Hh La lookup_insert_Some. split.
  - intros [H|[-> ->]]; [|by left]. right. split; [|done]. intros ->. congruence.
  - intros [[<- <-]|[_ H]]; [by right|by left].
Qed.
Lemma add_assumed u loc uid : located u loc → loc !! uid = None → uid ∈ A → located (AddAssumedTask uid u) (<[uid := PAssumed]> loc) ∧ frame (AddAssumedTask uid u) = frame u.
Proof.
  intros L Hn HA. split; [|done]. eapply join; [done|done| |].
  { destruct (lo_wf _ _ L). split; try done. simpl. intros k [->%elem_of_singleton|H]%elem_of_union; auto. }
  intros [] k; simpl; rw ?elem_of_union ?elem_of_singleton; naive_solver.
Qed.
Lemma add_ignored u loc uid : located u loc → loc !! uid = None → located (AddIgnoredTasks uid u) (<[uid := PIgnored]> loc) ∧ frame (AddIgnoredTasks uid u) = frame u.
Proof.
  intros L Hn. split; [|done]. eapply join; [done|done| |].
  - destruct (lo_wf _ _ L). split; try done. simpl. apply NoDup_app. split_and!; [done| |by apply NoDup_singleton].
    intros x Hx ->%list_elem_of_singleton. apply (lo_at _ _ L PIgnored) in Hx. congruence.
  - intros [] k; simpl; rw ?elem_of_app ?list_elem_of_singleton; naive_solver.
Qed.
Lemma tasks_on_insert node n (m : gmap string runningUnitInfo) nt v u :
  tasks_on n (set_new {| Nodes := nt; Tasks := <[node := m]> (Tasks (newTasks u)); VictimsGroupByNode := v |} (allVictims u) u) =
  if decide (n = node) then m else tasks_on n u.
Proof.
  unfold tasks_on. simpl. case_decide as E; [rw E lookup_insert_eq //|]. by rw lookup_insert_ne.
Qed.
Lemma add_new u u' loc rui : located u loc → rui_ok (ru_uid rui) rui → loc !! ru_uid rui = None → ru_uid rui ∉ A → AddNewTask rui u = Some u' →
  located u' (<[ru_uid rui := PNew (suggestedNode rui)]> loc) ∧ frame u' = frame u.
Proof.
  intros L Hok Hn HA. unfold AddNewTask. case_bool_decide as Hne; [done|].
  assert (∀ nd vs av (nt := {| Nodes := {[suggestedNode rui]} ∪ Nodes (newTasks u); Tasks := nd; VictimsGroupByNode := vs |}),
    nd = <[suggestedNode rui := <[ru_uid rui := rui]> (tasks_on (suggestedNode rui) u)]> (Tasks (newTasks u)) →
    located (set_new nt av u) (<[ru_uid rui := PNew (suggestedNode rui)]> loc) ∧ frame (set_new nt av u) = frame u) as H.
  { intros nd vs av nt ->. split; [|done].
    assert (∀ n, tasks_on n (set_new nt av u) = if decide (n = suggestedNode rui) then <[ru_uid rui := rui]> (tasks_on (suggestedNode rui) u) else tasks_on n u) as Ht.
    { intros n. exact (tasks_on_insert (suggestedNode rui) n _ _ vs u). }
    eapply join; [done|done| |].
    - destruct (lo_wf _ _ L) as [W0 W1 W2 W3 W4 W5 W6]. split; try done.
      + intros n k r. rw Ht. case_decide as E; [|apply W1]. intros [[<- <-]|[_ H]]%lookup_insert_Some; [by rw E|]. rw E. by apply W1.
      + intros n k. rw Ht. simpl. case_decide as E; [rw E; set_solver|]. intros H. apply W2 in H. set_solver.
    - intros [|n| | | |] k; try (simpl; naive_solver). simpl. rw Ht. case_decide as E; [|naive_solver].
      rw is_Some_insert E. naive_solver. }
  case_bool_decide; intros [= <-]; by apply H.
Qed.

Lemma delete_absent rui u loc : located u loc → loc !! ru_uid rui = None → located (deleteTaskFromNewOrAssumedTasks rui false u) loc.
Proof.
  intros L Hn. destruct (decide (suggestedNode rui = "")) as [E|E]; [unfold deleteTaskFromNewOrAssumedTasks; by rw (bool_decide_eq_true_2 _ E)|].
  split; [|by apply delete_wf, (lo_wf _ _ L)]. intros p k. rw delete_holds // (lo_at _ _ L). split; [by intros []|].
  intros H. split; [done|]. intros [_ ->]. congruence.
Qed.
(** A task that fails at its initialisation. *)
Lemma add_failed_fresh u loc rui : located u loc → rui_ok (ru_uid rui) rui → loc !! ru_uid rui = None → ru_uid rui ∉ A →
  located (AddFailedTask rui false u) (<[ru_uid rui := PFailed]> loc) ∧ frame (AddFailedTask rui false u) = frame u.
Proof.
  intros L Hok Hn HA. split; [|by etrans; [apply delete_frame|]].
  set (cr := {| cr_assumed := false; cr_runningUnit := rui |}).
  assert (located (fail_task (ru_uid rui) cr u) (<[ru_uid rui := PFailed]> loc)) as L1.
  { eapply join; [done|done|apply (put_wf PFailed (ru_uid rui) cr u (lo_wf _ _ L)); split; [done|by rw bool_decide_eq_false_2]|].
    intros p k. exact (put_holds PFailed (ru_uid rui) cr u p k (or_intror (or_intror eq_refl))). }
  destruct (decide (suggestedNode rui = "")) as [E|E]; [unfold AddFailedTask, deleteTaskFromNewOrAssumedTasks; by rw (bool_decide_eq_true_2 _ E)|].
  split; [|by apply delete_wf, (lo_wf _ _ L1)]. intros p k. unfold AddFailedTask. rw delete_holds //. fold cr. rw (lo_at _ _ L1). split; [by intros []|].
  intros H. split; [done|]. intros [-> ->]. by rw lookup_insert_eq in H.
Qed.
Lemma add_failed_new u loc node uid rui : located u loc → tasks_on node u !! uid = Some rui →
  located (AddFailedTask rui false u) (<[uid := PFailed]> loc) ∧ frame (AddFailedTask rui false u) = frame u.
Proof.
  intros L Hr. split; [|by etrans; [apply delete_frame|]]. destruct (new_place _ _ _ _ _ L Hr) as (_ & [Hu _] & _). unfold AddFailedTask. rw Hu.
  apply (move_new PFailed _ _ node); [by right; right|done|done].
Qed.
Lemma add_failed_assumed u loc uid : located u loc → uid ∈ assumedTasks u →
  located (AddFailedTask (bare_task uid "") true u) (<[uid := PFailed]> loc) ∧ frame (AddFailedTask (bare_task uid "") true u) = frame u.
Proof.
  intros L Ha. split; [|done]. apply (move_assumed PFailed); [by right; right|done|done|]. split; [apply bare_ok|]. rw bool_decide_eq_true_2 //. by apply (wf_assumed _ (lo_wf _ _ L)).
Qed.

Lemma ready_failed_spec l : ∀ u loc, located u loc → NoDup l → Forall (λ uid, loc !! uid = Some PReady) l →
  ∃ u', MoveTasksFromReadyToFailedList l u = Some u' ∧ located u' (send l PFailed loc) ∧ frame u' = frame u.
Proof.
  induction l as [|uid l IH]; intros u loc L; simpl; [by eauto|]. intros [Hn HN]%NoDup_cons [Hl HF]%Forall_cons.
  destruct (proj2 (lo_at _ _ L PReady uid) Hl) as [cr Hcr]. simpl in *. rw Hcr. simpl.
  destruct (IH (take_out PReady uid (put PFailed uid cr u)) (<[uid := PFailed]> loc)) as (u' & E & L' & F').
  - apply move_checked; try done; [by left|by right; right|]. by apply (wf_ready _ (lo_wf _ _ L)).
  - done.
  - rw !Forall_forall in HF |- *. intros k Hk. rw lookup_insert_ne; [by apply HF|]. by intros ->.
  - exists u'. split_and!; [exact E|exact L'|exact F'].
Qed.

Lemma assumed_moves d (go : list string → bindingUnitInfo → option bindingUnitInfo) : checked d →
  (∀ u, go [] u = Some u) →
  (∀ uid l u, go (uid :: l) u = node ← reserved_node uid u;
     go l (deleteTaskFromNewOrAssumedTasks (bare_task uid "") true (put d uid {| cr_assumed := true; cr_runningUnit := bare_task uid node |} u))) →
  ∀ l u loc, located u loc → NoDup l → Forall (λ uid, uid ∈ assumedTasks u ∧ is_Some (reserved_node uid u)) l →
  ∃ u', go l u = Some u' ∧ located u' (send l d loc) ∧ frame u' = frame u.
Proof.
  intros Hd H0 Hgo. induction l as [|uid l IH]; intros u loc L; [by eauto|]. intros [Hn HN]%NoDup_cons [[Ha [node Hr]] HF]%Forall_cons.
  rw Hgo Hr. cbn [mbind option_bind]. set (u1 := deleteTaskFromNewOrAssumedTasks _ true _).
  assert (frame u1 = frame u) as F1 by (subst u1; etrans; [apply delete_frame|apply put_frame]).
  destruct (IH u1 (<[uid := d]> loc)) as (u' & E & L' & F').
  - apply move_assumed; try done. split; [apply bare_ok|]. rw bool_decide_eq_true_2 //. by apply (wf_assumed _ (lo_wf _ _ L)).
  - done.
  - rw !Forall_forall in HF |- *. intros k Hk. destruct (HF k Hk) as [H1 H2]. split.
    + subst u1. simpl. apply elem_of_difference. split; [by destruct Hd as [-> | [-> | ->]]|]. by intros ->%elem_of_singleton.
    + assert (queued u1 = queued u) as Eq by exact (f_equal snd F1). clearbody u1. unfold reserved_node in *. by rw Eq.
  - exists u'. split_and!; [done|done|congruence].
Qed.
Lemma assumed_to_ready_spec u loc : located u loc → (∀ uid, uid ∈ assumedTasks u → is_Some (reserved_node uid u)) →
  ∃ u', MoveAllAssumedTasksToReadyList u = Some u' ∧ located u' (send (GetAssumedTasks u) PReady loc) ∧ frame u' = frame u.
Proof.
  intros L Hr. apply (assumed_moves PReady assumed_to_ready); try done; [by left|exact (NoDup_elements (assumedTasks u))|].
  apply Forall_forall. intros k Hk%(elem_of_elements (assumedTasks u)). auto.
Qed.
Lemma assumed_to_waiting_spec u loc : located u loc → (∀ uid, uid ∈ assumedTasks u → is_Some (reserved_node uid u)) →
  ∃ u', MoveAllAssumedTasksToWaitingList u = Some u' ∧ located u' (send (GetAssumedTasks u) PWaiting loc) ∧ frame u' = frame u.
Proof.
  intros L Hr. apply (assumed_moves PWaiting assumed_to_waiting); try done; [by right; left|exact (NoDup_elements (assumedTasks u))|].
  apply Forall_forall. intros k Hk%(elem_of_elements (assumedTasks u)). auto.
Qed.
End places.
Arguments entry_ok : clear implicits.
Arguments keyed : clear implicits.
Arguments wf_unit : clear implicits.
Arguments located : clear implicits.
