(* ===== verification/BinderFlow.v ===== *)
(** * The stages of the binder

    Each stage of Binder returns, and keeps the record of where the tasks are: a task
    stays where it is or goes to the ready, waiting or failed tasks.  A task is marked
    as assumed exactly when its pod is assumed in the cache. *)
From S2P Require Import Prelude GoStrings PodModel PodState HashSlice Resource MicroTopo PodInfos Numa NodeInfo NodeInfoProps NodeClone NodeStore NodeStoreProps BinderUnit Binder BinderProps.

Local Open Scope godel_scope.
Local Open Scope string_scope.

(** What the binder relies on: [assumedIn] are the UIDs of the pods assumed in a cache,
    which only assuming and forgetting change. *)
Class BinderCacheLaws (C : Type) `{!BinderCache C} (assumedIn : C → gset string) : Prop := {
  mark_assumed p q c : assumedIn (MarkPodToDelete p q c).1 = assumedIn c;
  unmark_assumed p q c : assumedIn (RemoveDeletePodMarker p q c) = assumedIn c;
  finish_assumed p c : assumedIn (FinishBinding p c) = assumedIn c;
  set_scheduled_assumed k c : assumedIn (SetUnitScheduled k c) = assumedIn c;
  assume_assumed p c : assumedIn (AssumePod p c).1 = if (AssumePod p c).2 then {[UID p]} ∪ assumedIn c else assumedIn c;
  forget_assumed p c : assumedIn (ForgetPod p c).1 = assumedIn c ∖ {[UID p]};
  forget_possible p c : UID p ∈ assumedIn c → (ForgetPod p c).2 = true
}.

Section flow.
Context {MR : MapRange} {ML : MapRangeLaws MR} (cf : Config).
Context {C : Type} `{!BinderCache C} (assumedIn : C → gset string) `{!BinderCacheLaws C assumedIn}.
Context {S : Type} (pl : BinderPlugins S) (commonState : S) (podLister : string → string → PodLookup) (an : Answers) (now : Z).
(** The tasks left assumed by an earlier attempt, the pods of the unit, and what is
    fixed for the unit. *)
Context (A : gset string) (pods : list string) (HND : NoDup pods) (sh : string * bool * Z * Z * bool).
Implicit Types (u : bindingUnitInfo) (loc : Places) (c : C).

Definition shape u := (unitKey u, isPodGroup u, minMember u, allMember u, everScheduled u).
Record task_ok c (uid : string) (qt : QueuedTask) : Prop := {
  tk_uid : UID (qt_Pod qt) = uid;
  tk_old : uid ∈ A → NewlyAssumedButStillInHandling qt = true;
  tk_cache : NewlyAssumedButStillInHandling qt = true ↔ uid ∈ assumedIn c;
  tk_reserved : NewlyAssumedButStillInHandling qt = true → is_Some (ReservedPod qt);
  tk_reserved_uid p : ReservedPod qt = Some p → UID p = uid
}.
Definition tasks_ok c u : Prop := ∀ uid, uid ∈ pods → ∃ qt, queued u !! uid = Some qt ∧ task_ok c uid qt.
Record good c loc u : Prop := {
  g_loc : located A u loc;
  g_dom uid : is_Some (loc !! uid) ↔ uid ∈ pods;
  g_tasks : tasks_ok c u;
  g_shape : shape u = sh
}.

(** Tasks only move on to the lists of checked tasks. *)
Definition later loc loc' : Prop := ∀ uid p, loc' !! uid = Some p → loc !! uid = Some p ∨ checked p.
Lemma later_refl loc : later loc loc.
Proof. intros uid p H. by left. Qed.
Lemma later_trans l1 l2 l3 : later l1 l2 → later l2 l3 → later l1 l3.
Proof. intros H1 H2 uid p H. destruct (H2 uid p H) as [H'|]; [by apply H1|by right]. Qed.
Lemma send_later ks d loc : checked d → later loc (send ks d loc).
Proof. intros Hd uid p. rw send_lookup. case_decide; [intros [= <-]; by right|by left]. Qed.
Lemma insert_later loc uid d : checked d → later loc (<[uid := d]> loc).
Proof. intros Hd k p [[_ <-]|[_ H]]%lookup_insert_Some; [by right|by left]. Qed.
Lemma all_failed_later loc : later loc (all_failed loc).
Proof.
  intros uid p. unfold all_failed. rw lookup_fmap fmap_Some. intros (q & E & ->).
  destruct (decide (q = PIgnored)) as [-> |]; [by left|by right; right; right].
Qed.
Lemma later_place loc loc' p uid : later loc loc' → ¬ checked p → loc' !! uid = Some p → loc !! uid = Some p.
Proof. intros H Hp Hl. destruct (H uid p Hl) as [E|Hc]; [exact E|by destruct (Hp Hc)]. Qed.

Lemma checked_failed : checked PFailed. Proof. by right; right. Qed.
Lemma checked_ready : checked PReady. Proof. by left. Qed.
Lemma checked_waiting : checked PWaiting. Proof. by right; left. Qed.

Lemma frame_shape u u' : frame u' = frame u → shape u' = shape u ∧ queued u' = queued u.
Proof. unfold frame, shape. intros [= -> -> -> -> -> ->]. done. Qed.
Lemma move_good c loc loc' u u' : good c loc u → located A u' loc' → frame u' = frame u →
  (∀ k, is_Some (loc' !! k) ↔ is_Some (loc !! k)) → good c loc' u'.
Proof.
  intros [Hl Hd Ht Hs] L F D. destruct (frame_shape _ _ F) as [E1 E2]. split; [done|intros k; by rw D| |congruence].
  intros uid Hu. rw E2. by apply Ht.
Qed.
Lemma send_dom ks d loc : (∀ k, k ∈ ks → is_Some (loc !! k)) → ∀ k, is_Some (send ks d loc !! k) ↔ is_Some (loc !! k).
Proof. intros H k. rw send_lookup. case_decide; [|done]. split; [by intros _; apply H|by eauto]. Qed.
Lemma insert_dom loc uid (d : Place) : is_Some (loc !! uid) → ∀ k, is_Some (<[uid := d]> loc !! k) ↔ is_Some (loc !! k).
Proof. intros H k. rw is_Some_insert. split; [by intros [?| ->]|by left]. Qed.
Lemma all_failed_good c loc u : good c loc u → good c (all_failed loc) (MoveAllTasksToFailedList u).
Proof.
  intros G. destruct (all_to_failed u loc (g_loc _ _ _ G)) as [L F]. eapply move_good; [done|done|done|].
  intros k. unfold all_failed. rw lookup_fmap. by rw fmap_is_Some.
Qed.

(** Replacing the record of a task. *)
Lemma set_task_located u loc uid qt : located A u loc → located A (set_task uid qt u) loc.
Proof. intros [H [? ? ? ? ? ? ?]]. split; [intros p k; rw -(H p k); by destruct p|by split]. Qed.
Lemma set_task_good c loc u uid qt : good c loc u → task_ok c uid qt → good c loc (set_task uid qt u).
Proof.
  intros [Hl Hd Ht Hs] Hq. split; [by apply set_task_located|done| |done]. intros k Hk. simpl.
  destruct (decide (uid = k)) as [<-|Hne]; [rw lookup_insert_eq; eauto|]. rw lookup_insert_ne //. by apply Ht.
Qed.
Lemma good_task c loc u uid p : good c loc u → loc !! uid = Some p → ∃ qt, task_of uid u = Some qt ∧ task_ok c uid qt.
Proof. intros G H. apply (g_tasks _ _ _ G), (g_dom _ _ _ G). eauto. Qed.

(** A new task of the unit, in the form the loops hold it. *)
Definition in_new u (rui : runningUnitInfo) : Prop := ∃ node, tasks_on node u !! ru_uid rui = Some rui.
Lemma in_new_place c loc u rui : good c loc u → in_new u rui → ∃ node, loc !! ru_uid rui = Some (PNew node).
Proof. intros G [node H]. exists node. apply (lo_at _ _ (g_loc _ _ _ G)). simpl. by rw H. Qed.
Lemma fail_new_good c loc u rui : good c loc u → in_new u rui → good c (<[ru_uid rui := PFailed]> loc) (AddFailedTask rui false u).
Proof.
  intros G Hn. destruct (in_new_place _ _ _ _ G Hn) as [n' Hl]. destruct Hn as [node Hr].
  destruct (add_failed_new u loc node _ _ (g_loc _ _ _ G) Hr) as [L F]. eapply move_good; [done|done|done|]. apply insert_dom. eauto.
Qed.
Lemma in_new_other c loc u rui rui' : good c loc u → in_new u rui → in_new u rui' → ru_uid rui' ≠ ru_uid rui → in_new (AddFailedTask rui false u) rui'.
Proof.
  intros G [node Hr] [node' Hr'] Hne. exists node'. destruct (new_place _ _ _ _ _ (g_loc _ _ _ G) Hr) as (_ & _ & _ & Hn & _).
  unfold AddFailedTask. rw tasks_after //. 
Qed.

Lemma fail_unless c loc u rui (ok : bool) l (u2 := if ok then u else AddFailedTask rui false u) :
  good c loc u → in_new u rui → ru_uid rui ∉ ru_uid <$> l → Forall (in_new u) l → ∃ loc2, good c loc2 u2 ∧ later loc loc2 ∧ Forall (in_new u2) l.
Proof.
  intros G Hr Hn HF. subst u2. destruct ok; [exists loc; split_and!; [done|apply later_refl|done]|]. exists (<[ru_uid rui := PFailed]> loc).
  split_and!; [by apply fail_new_good|apply insert_later, checked_failed|].
  rw !Forall_forall in HF |- *. intros r Hin. eapply in_new_other; [done|done|by apply HF|]. intros E. apply Hn. rw -E. by apply list_elem_of_fmap_2.
Qed.

Lemma GetNewTasks_all u : GetNewTasks u = (all_new u).*2.
Proof.
  unfold GetNewTasks, all_new. induction (range_map (Tasks (newTasks u))) as [|e l IH]; simpl; [done|]. by rw fmap_app IH.
Qed.
Lemma new_tasks_ok c loc u : good c loc u → Forall (in_new u) (GetNewTasks u) ∧ NoDup (ru_uid <$> GetNewTasks u).
Proof.
  intros G. rw GetNewTasks_all.
  assert (∀ k r, (k, r) ∈ all_new u → ru_uid r = k ∧ in_new u r) as H.
  { intros k r [node Hr]%all_new_elem. destruct (new_place _ _ _ _ _ (g_loc _ _ _ G) Hr) as (_ & [Hu _] & _). split; [done|]. exists node. by rw Hu. }
  split.
  - apply Forall_fmap, Forall_forall. intros [k r] Hk. by apply H in Hk as [_ ?].
  - assert (ru_uid <$> (all_new u).*2 = (all_new u).*1) as ->; [|by eapply all_new_nodup, g_loc].
    rw -list_fmap_compose. apply list_fmap_ext. intros i [k r] Hi%list_elem_of_lookup_2. by apply H in Hi as [? _].
Qed.

(** ** Initialisation *)

Lemma initializeTask_spec uid qt u c : UID (qt_Pod qt) = uid →
  ru_uid (initializeTask cf pl podLister uid qt u c).1 = uid ∧ rui_ok uid (initializeTask cf pl podLister uid qt u c).1 ∧
  ((initializeTask cf pl podLister uid qt u c).2 = true → suggestedNode (initializeTask cf pl podLister uid qt u c).1 ≠ "").
Proof.
  intros Hu. unfold initializeTask. destruct (negb _); [by split_and!|]. case_bool_decide as Hn; [by split_and!|].
  destruct (NominatedVictims qt) as [vs|]; [destruct (getVictimsToPreempt _ _ _); [destruct (existsb _ _)|]|].
  all: split_and!; try done; (split; [done|]; simpl; intros p [= <-]; done).
Qed.

Lemma add_new_some rui u : suggestedNode rui ≠ "" → is_Some (AddNewTask rui u).
Proof. intros H. unfold AddNewTask. rw (bool_decide_eq_false_2 _ H). case_bool_decide; by eexists. Qed.

Lemma task_attempt_ok c uid qt : task_ok c uid qt → task_ok c uid (set_task_attempt now qt).
Proof. by intros [? ? ? ? ?]. Qed.

Lemma initialize_ok c (HA : ∀ uid, uid ∈ pods → uid ∈ assumedIn c → uid ∈ A) : ∀ rest u loc, located A u loc → tasks_ok c u → shape u = sh →
  NoDup rest → Forall (λ uid, uid ∈ pods ∧ loc !! uid = None) rest →
  ∃ u' loc', initialize_tasks cf pl podLister now rest u c = Some u' ∧ located A u' loc' ∧ tasks_ok c u' ∧ shape u' = sh ∧
    (∀ uid, is_Some (loc' !! uid) ↔ is_Some (loc !! uid) ∨ uid ∈ rest) ∧
    (∀ uid p, loc' !! uid = Some p → p = PReady ∨ p = PWaiting → loc !! uid = Some p).
Proof.
  induction rest as [|uid rest IH]; intros u loc L T Hs.
  { intros _ _. exists u, loc. split_and!; try done. intros k. split; [by left|]. by intros [?|?%elem_of_nil]. }
  intros [Hn HN]%NoDup_cons [[Hp Hl] HF]%Forall_cons.
  assert (∀ d, Forall (λ uid, uid ∈ pods ∧ <[uid := d]> loc !! uid = None) [] ∧ Forall (λ k, k ∈ pods ∧ <[uid := d]> loc !! k = None) rest) as HF'.
  { intros d. split; [done|]. rw !Forall_forall in HF |- *. intros k Hk. destruct (HF k Hk). split; [done|]. rw lookup_insert_ne //. by intros ->. }
  assert (∀ d u1, d = PAssumed ∨ d = PIgnored ∨ d = PFailed ∨ (∃ n, d = PNew n) → located A u1 (<[uid := d]> loc) → tasks_ok c u1 → shape u1 = sh →
    ∃ u' loc', initialize_tasks cf pl podLister now rest u1 c = Some u' ∧ located A u' loc' ∧ tasks_ok c u' ∧ shape u' = sh ∧
      (∀ k, is_Some (loc' !! k) ↔ is_Some (loc !! k) ∨ k ∈ uid :: rest) ∧
      (∀ k p, loc' !! k = Some p → p = PReady ∨ p = PWaiting → loc !! k = Some p)) as Hgo.
  { intros d u1 Hd L1 T1 Hs1. destruct (IH u1 _ L1 T1 Hs1 HN (proj2 (HF' d))) as (u' & loc' & E & L' & T' & Hs' & Hdom & Hrw).
    exists u', loc'. split_and!; try done.
    - intros k. rw Hdom is_Some_insert elem_of_cons. tauto.
    - intros k p Hk Hpp. apply Hrw in Hk; [|done]. apply lookup_insert_Some in Hk as [[_ <-]|[_ Hk]]; [|done].
      exfalso. destruct Hd as [-> | [-> | [-> | [n ->]]]]; by destruct Hpp. }
  destruct (T uid Hp) as (qt & Eq & Hqt). simpl. unfold task_of. rw Eq. cbn [mbind option_bind].
  destruct (NewlyAssumedButStillInHandling qt) eqn:Enew.
  { assert (uid ∈ A) as HuA by (apply HA; [done|by apply (tk_cache _ _ _ Hqt)]).
    destruct (add_assumed u loc uid L Hl HuA) as [L1 F1]. destruct (frame_shape _ _ F1) as [E1 E2].
    apply (Hgo PAssumed); [by left|done|intros k Hk; rw E2; by apply T|by rw E1]. }
  assert (uid ∉ A) as HuA by (intros H; apply (tk_old _ _ _ Hqt) in H; congruence).
  destruct (skipCheckingPod (qt_Pod qt) c).
  { destruct (add_ignored u loc uid L Hl) as [L1 F1]. destruct (frame_shape _ _ F1) as [E1 E2].
    apply (Hgo PIgnored); [by right; left|done|intros k Hk; rw E2; by apply T|by rw E1]. }
  destruct (initializeTask_spec uid qt u c (tk_uid _ _ _ Hqt)) as (Hu & Hok & Hne).
  destruct (initializeTask _ _ _ _ _ _ _) as [rui ok]. simpl in Hu, Hok, Hne. subst uid. destruct ok; simpl.
  - set (u1 := if (0 <? length (ru_victims rui))%nat then _ else u).
    assert (located A u1 loc ∧ tasks_ok c u1 ∧ shape u1 = sh) as (L1 & T1 & Hs1).
    { subst u1. destruct (_ <? _)%nat; [|done]. split_and!; [by apply set_task_located| |done]. intros k Hk. simpl.
      destruct (decide (ru_uid rui = k)) as [<-|Hne']; [rw lookup_insert_eq; eexists; split; [done|by apply task_attempt_ok]|].
      rw lookup_insert_ne //. by apply T. }
    destruct (add_new_some rui u1 (Hne eq_refl)) as [u2 E2]. rw E2. cbn [mbind option_bind].
    destruct (add_new u1 u2 loc rui L1 Hok Hl HuA E2) as [L2 F2]. destruct (frame_shape _ _ F2) as [E3 E4].
    apply (Hgo (PNew (suggestedNode rui))); [by right; right; right; eexists|done|intros k Hk; rw E4; by apply T1|by rw E3].
  - destruct (add_failed_fresh u loc rui L Hok Hl HuA) as [L1 F1]. destruct (frame_shape _ _ F1) as [E1 E2].
    apply (Hgo PFailed); [by right; right; left|done|intros k Hk; rw E2; by apply T|by rw E1].
Qed.

(** ** Checks over several nodes *)

(** Nothing waits or is ready but what was there. *)
Lemma assumed_preemption_ok c : ∀ l b u loc, good c loc u → NoDup l → Forall (λ uid, uid ∈ assumedTasks u) l →
  ∃ u' b' ok loc', assumed_preemption podLister now l b u = Some (u', b', ok) ∧ good c loc' u' ∧ later loc loc' ∧
    (ok = false → loc' = all_failed loc' ∧ ∀ uid, loc' !! uid ≠ Some PAssumed).
Proof.
  induction l as [|uid l IH]; intros b u loc G; [intros _ _; eexists _, _, _, loc; split_and!; try done; apply later_refl|].
  intros [Hn HN]%NoDup_cons [Ha HF]%Forall_cons. simpl.
  assert (loc !! uid = Some PAssumed) as Hl by by apply (lo_at _ _ (g_loc _ _ _ G) PAssumed).
  destruct (good_task _ _ _ _ _ G Hl) as (qt & Eq & Hqt). rw Eq. cbn [mbind option_bind].
  destruct (NominatedVictims qt) as [vs|]; [|by apply IH].
  assert (∃ qt' b' e, checkCrossNodePreemptionForAssumedTask podLister now qt vs = (qt', b', e) ∧ task_ok c uid qt') as (qt' & b1 & e & -> & Hqt').
  { unfold checkCrossNodePreemptionForAssumedTask. destruct (IsPreemptionComplete _ _); [by eexists _, _, _|].
    destruct (_ <? _)%Z; eexists _, _, _; (split; [done|by apply task_attempt_ok]). }
  assert (good c loc (set_task uid qt' u)) as G1 by by apply set_task_good.
  set (u2 := if e : bool then _ else _).
  assert (∃ loc2, good c loc2 u2 ∧ later loc loc2 ∧ Forall (λ uid, uid ∈ assumedTasks u2) l) as (loc2 & G2 & HL & HF2).
  { subst u2. destruct e; [|exists loc; split_and!; [done|apply later_refl|done]].
    destruct (add_failed_assumed (set_task uid qt' u) loc uid (g_loc _ _ _ G1) Ha) as [L2 F2]. exists (<[uid := PFailed]> loc). split_and!.
    - eapply move_good; [done|done|done|]. apply insert_dom. eauto.
    - apply insert_later, checked_failed.
    - rw !Forall_forall in HF |- *. intros k Hk. simpl. apply elem_of_difference. split; [by apply HF|]. by intros ->%elem_of_singleton. }
  destruct (IsUnitFailed u2).
  - eexists _, _, _, (all_failed loc2). split_and!; [done|by apply all_failed_good|by eapply later_trans, all_failed_later|].
    intros _. split.
    + apply map_eq. intros k. unfold all_failed. rw !lookup_fmap. destruct (_ !! k) as [q|]; simpl; [|done]. destruct (decide (q = PIgnored)); f_equal; by case_decide.
    + intros k. unfold all_failed. rw lookup_fmap. destruct (_ !! k) as [q|]; simpl; [|done]. by case_decide.
  - destruct (IH (b || b1) u2 loc2 G2 HN HF2) as (u' & b' & ok & loc' & E & G' & HL' & Hok). exists u', b', ok, loc'. split_and!; try done.
    by eapply later_trans.
Qed.

Lemma new_preemption_ok c : ∀ l s u loc, good c loc u → NoDup (ru_uid <$> l) → Forall (in_new u) l →
  ∃ u' ok loc', new_preemption pl l s u = Some (u', ok) ∧ good c loc' u' ∧ later loc loc'.
Proof.
  induction l as [|rui l IH]; intros s u loc G; [intros _ _; eexists _, _, loc; split_and!; [done|done|apply later_refl]|].
  intros [Hn HN]%NoDup_cons [Hr HF]%Forall_cons. simpl. destruct (in_new_place _ _ _ _ G Hr) as [node Hl].
  destruct (good_task _ _ _ _ _ G Hl) as (qt & Eq & Hqt). rw Eq. cbn [mbind option_bind].
  destruct (CheckPreemptionPhase pl (qt_Pod qt) rui s) as [s' ok]. set (u2 := if ok : bool then _ else _).
  destruct (fail_unless c loc u rui ok l G Hr Hn HF) as (loc2 & G2 & HL & HF2). fold u2 in G2, HF2.
  destruct (IsUnitFailed u2).
  - eexists _, _, (all_failed loc2). split_and!; [done|by apply all_failed_good|by eapply later_trans, all_failed_later].
  - destruct (IH s' u2 loc2 G2 HN HF2) as (u' & ok' & loc' & E & G' & HL'). exists u', ok', loc'. split_and!; [done|done|by eapply later_trans].
Qed.

Lemma check_topology_ok c : ∀ l u loc, good c loc u → NoDup (ru_uid <$> l) → Forall (in_new u) l →
  ∃ u' ok loc', check_topology pl l c u = Some (u', ok) ∧ good c loc' u' ∧ later loc loc'.
Proof.
  induction l as [|rui l IH]; intros u loc G; [intros _ _; eexists _, _, loc; split_and!; [done|done|apply later_refl]|].
  intros [Hn HN]%NoDup_cons [Hr HF]%Forall_cons. simpl. destruct (in_new_place _ _ _ _ G Hr) as [node Hl].
  destruct (good_task _ _ _ _ _ G Hl) as (qt & Eq & Hqt). rw Eq. cbn [mbind option_bind].
  set (ok := match GetNodeInfo _ _ with None => _ | Some n => _ end). set (u2 := if ok then _ else _).
  destruct (fail_unless c loc u rui ok l G Hr Hn HF) as (loc2 & G2 & HL & HF2). fold u2 in G2, HF2.
  destruct (IsUnitFailed u2).
  - eexists _, _, (all_failed loc2). split_and!; [done|by apply all_failed_good|by eapply later_trans, all_failed_later].
  - destruct (IH u2 loc2 G2 HN HF2) as (u' & ok' & loc' & E & G' & HL'). exists u', ok', loc'. split_and!; [done|done|by eapply later_trans].
Qed.

Lemma reserved_ok c loc u uid : good c loc u → uid ∈ assumedTasks u → is_Some (reserved_node uid u).
Proof.
  intros G Ha. pose proof (wf_assumed _ (lo_wf _ _ (g_loc _ _ _ G)) _ Ha) as HA.
  apply (lo_at _ _ (g_loc _ _ _ G) PAssumed) in Ha. destruct (good_task _ _ _ _ _ G Ha) as (qt & Eq & Hqt). unfold task_of in Eq.
  unfold reserved_node. rw Eq. cbn [mbind option_bind]. destruct (tk_reserved _ _ _ Hqt (tk_old _ _ _ Hqt HA)) as [p ->]. by eexists.
Qed.

Lemma preemption_ok c u loc : good c loc u →
  ∃ u' ok loc', CheckCrossNodePreemptionForUnit pl commonState podLister now u = Some (u', ok) ∧ good c loc' u' ∧ later loc loc' ∧
    ∀ uid, loc' !! uid ≠ Some PAssumed.
Proof.
  intros G. unfold CheckCrossNodePreemptionForUnit.
  destruct (assumed_preemption_ok c (GetAssumedTasks u) false u loc G) as (u1 & b & ok & loc1 & E1 & G1 & HL1 & Hno); [exact (NoDup_elements (assumedTasks u))| |].
  { apply Forall_forall. intros k Hk. by apply (elem_of_elements (assumedTasks u)). }
  rw E1. cbn [mbind option_bind]. destruct ok; simpl; [|by exists u1, false, loc1; split_and!; try done; apply Hno].
  assert (∃ u2 d, (if b : bool then MoveAllAssumedTasksToWaitingList u1 else MoveAllAssumedTasksToReadyList u1) = Some u2 ∧ checked d ∧
            located A u2 (send (GetAssumedTasks u1) d loc1) ∧ frame u2 = frame u1) as (u2 & d & E2 & Hd & L2 & F2).
  { destruct b.
    - destruct (assumed_to_waiting_spec u1 loc1 (g_loc _ _ _ G1)) as (u2 & E2 & L2 & F2); [intros; by eapply reserved_ok|].
      exists u2, PWaiting. split_and!; [done|apply checked_waiting|done|done].
    - destruct (assumed_to_ready_spec u1 loc1 (g_loc _ _ _ G1)) as (u2 & E2 & L2 & F2); [intros; by eapply reserved_ok|].
      exists u2, PReady. split_and!; [done|apply checked_ready|done|done]. }
  rw E2. cbn [mbind option_bind]. set (loc2 := send _ d loc1) in *.
  assert (∀ k, k ∈ GetAssumedTasks u1 ↔ loc1 !! k = Some PAssumed) as Hka.
  { intros k. rw (elem_of_elements (assumedTasks u1)). apply (lo_at _ _ (g_loc _ _ _ G1) PAssumed). }
  assert (good c loc2 u2) as G2.
  { eapply move_good; [exact G1|done|done|]. apply send_dom. intros k Hk%Hka. by eexists. }
  assert (later loc loc2) as HL2 by (eapply later_trans; [exact HL1|by apply send_later]).
  assert (∀ k, loc2 !! k ≠ Some PAssumed) as HnA.
  { intros k. subst loc2. rw send_lookup. case_decide as E; [by destruct Hd as [-> | [-> | ->]]|]. by rw -Hka. }
  destruct (NoVictim u2); [by exists u2, true, loc2|].
  destruct (new_tasks_ok _ _ _ G2) as [HF HN]. destruct (new_preemption_ok c _ commonState u2 loc2 G2 HN HF) as (u3 & ok & loc3 & E3 & G3 & HL3).
  exists u3, ok, loc3. split_and!; [done|done|by eapply later_trans|]. intros k Hk. apply (HnA k). eapply later_place; [exact HL3| |exact Hk]. by intros [? | [? | ?]].
Qed.

Lemma topology_ok c u loc : good c loc u →
  ∃ u' ok loc', CheckCrossNodeTopologyForUnit pl c u = Some (u', ok) ∧ good c loc' u' ∧ later loc loc'.
Proof. intros G. destruct (new_tasks_ok _ _ _ G) as [HF HN]. by apply check_topology_ok. Qed.

(** ** Conflicts on a node *)

(** The nodes of the cache are well formed, and hold no pod that is new in the unit. *)
Definition nodes_ok c : Prop := ∀ name n, GetNodeInfo name c = Some n → ∃ P, NS cf n P ∧ ∀ uid, uid ∈ pods → uid ∉ A → P !! uid = None.

Lemma clone_ok n P : NS cf n P → ∃ n', node_Clone n = Some n' ∧ NS cf n' P.
Proof. intros [HI Hnu]. destruct (NI_Clone _ _ n P HI) as (n' & E & HI' & Hn'). exists n'. split_and!; [done|split; [done|by rw Hn']]. Qed.
Lemma remove_victims_ok l : ∀ n P, NS cf n P → 
  remove_victims cf l n = Some None ∨ ∃ n' P', remove_victims cf l n = Some (Some n') ∧ NS cf n' P' ∧ P' ⊆ P.
Proof.
  induction l as [|v l IH]; intros n P HN; simpl; [right; by exists n, P|].
  destruct (decide (UID v = "")) as [E|E].
  - left. unfold node_RemovePod, RemovePod, nodeinfo_GetPodKey. by rw (bool_decide_eq_true_2 _ E).
  - pose proof (node_remove_ok cf n P v true HN E) as H. destruct (P !! UID v) as [q|].
    + destruct H as (n' & -> & HN' & _). cbn [mbind option_bind]. destruct (IH n' _ HN') as [H|(n2 & P2 & E2 & HN2 & HP)]; [by left|].
      right. exists n2, P2. split_and!; [done|done|]. etrans; [exact HP|apply delete_subseteq].
    + rw H. by left.
Qed.
Lemma micro_assign_ok pod n : ∃ pod', assignMicroTopology pl pod n = Some pod' ∧ UID pod' = UID pod.
Proof.
  unfold assignMicroTopology. case_bool_decide; [by eexists|]. unfold anno_set, anno_init. destruct (Annotations pod) eqn:E; simpl; rw ?E; by eexists.
Qed.

(** The tasks of a list pass the check one after the other, each on the node with those
    before it. *)
Fixpoint passes_in_order (taskOf : string → option QueuedTask) (l : list runningUnitInfo) (n : NodeInfo) : Prop :=
  match l with
  | [] => True
  | rui :: l' =>
      ∃ qt pod n', taskOf (ru_uid rui) = Some qt ∧ bp_CheckConflicts pl (qt_Pod qt) n = true ∧
        assignMicroTopology pl (qt_Pod qt) n = Some pod ∧ node_AddPod cf pod n = Some n' ∧ passes_in_order taskOf l' n'
  end.
Lemma passes_ext f g l : (∀ rui, rui ∈ l → f (ru_uid rui) = g (ru_uid rui)) → ∀ n, passes_in_order f l n → passes_in_order g l n.
Proof.
  induction l as [|rui l IH]; intros H n; simpl; [done|]. intros (qt & pod & n' & E & H1 & H2 & H3 & H4).
  exists qt, pod, n'. split_and!; try done; [rw -H //; by left|]. apply IH; [|done]. intros r Hr. apply H. by right.
Qed.

Definition on_node (nodeName : string) u (rui : runningUnitInfo) : Prop := tasks_on nodeName u !! ru_uid rui = Some rui.
Lemma set_task_check_ok c uid qt pod : task_ok c uid qt → UID pod = UID (qt_Pod qt) → task_ok c uid (set_task_pod (cleanMicroTopology pod) qt).
Proof. intros [? ? ? ? ?] Hp. split; try done. simpl. congruence. Qed.

Lemma node_all_failed c loc u nodeName : good c loc u → ∃ loc', good c loc' (MoveAllNewTasksOnNodeToFailedList nodeName u) ∧ later loc loc' ∧
  (∀ uid, loc' !! uid ≠ Some (PNew nodeName)) ∧ (∀ uid, loc' !! uid = Some PReady ∨ loc' !! uid = Some PWaiting → loc' !! uid = loc !! uid).
Proof.
  intros G. destruct (new_to_failed nodeName u loc (g_loc _ _ _ G)) as [L F].
  assert (∀ k, k ∈ new_keys nodeName u ↔ loc !! k = Some (PNew nodeName)) as Hk.
  { intros k. unfold new_keys. rw range_key_elem. apply (lo_at _ _ (g_loc _ _ _ G) (PNew nodeName)). }
  exists (send (new_keys nodeName u) PFailed loc). split_and!.
  - eapply move_good; [exact G|done|done|]. apply send_dom. intros k E%Hk. by eexists.
  - apply send_later, checked_failed.
  - intros k. rw send_lookup. case_decide as E; [done|]. by rw -Hk.
  - intros k. rw send_lookup. case_decide; [by intros []|done].
Qed.

Lemma sublist_elem {T} (l k : list T) x : l `sublist_of` k → x ∈ l → x ∈ k.
Proof. intros H%sublist_submseteq Hx. by eapply elem_of_submseteq. Qed.
Lemma check_tasks_ok c nodeName : ∀ l n P u loc, good c loc u → NS cf n P → Forall (λ rui, P !! ru_uid rui = None) l →
  NoDup (ru_uid <$> l) → Forall (on_node nodeName u) l →
  ∃ u' b loc', check_tasks cf pl nodeName l n u = Some (u', b) ∧ good c loc' u' ∧ later loc loc' ∧
    (∀ uid, loc' !! uid = Some PReady ∨ loc' !! uid = Some PWaiting → loc' !! uid = loc !! uid) ∧
    (if b : bool then (∀ uid, uid ∉ ru_uid <$> l → loc' !! uid = loc !! uid) ∧
       ∃ acc, acc `sublist_of` l ∧ passes_in_order (λ uid, task_of uid u) acc n ∧ ∀ rui, rui ∈ l → rui ∈ acc ↔ loc' !! ru_uid rui = Some (PNew nodeName)
     else IsUnitFailed u' = true ∨ ∀ uid, loc' !! uid ≠ Some (PNew nodeName)).
Proof.
  induction l as [|rui l IH]; intros n P u loc G HNS.
  { intros _ _ _. exists u, true, loc. split_and!; try done; [apply later_refl|]. exists []. split_and!; [constructor|done|]. by intros r ?%elem_of_nil. }
  intros [HP HF]%Forall_cons [Hn HN]%NoDup_cons [Hr HO]%Forall_cons. cbn [check_tasks].
  assert (in_new u rui) as Hin by by exists nodeName.
  assert (loc !! ru_uid rui = Some (PNew nodeName)) as Hl by (apply (lo_at _ _ (g_loc _ _ _ G)); simpl; rw Hr; by eexists).
  destruct (good_task _ _ _ _ _ G Hl) as (qt & Eq & Hqt). rw Eq. cbn [mbind option_bind].
  destruct (bp_CheckConflicts pl (qt_Pod qt) n) eqn:Ec; [|destruct (0 <? length (ru_victims rui))%nat].
  - destruct (micro_assign_ok (qt_Pod qt) n) as (pod & Ea & Hpod). rw Ea. cbn [mbind option_bind].
    destruct (node_add_ok cf n P pod HNS) as (n' & En & HNS' & _); [by rw Hpod (tk_uid _ _ _ Hqt)|]. rw En. cbn [mbind option_bind].
    set (u1 := set_task _ _ u).
    assert (good c loc u1) as G1 by (apply set_task_good; [done|by apply set_task_check_ok]).
    destruct (IH n' _ u1 loc G1 HNS') as (u' & b & loc' & E & G' & HL & Hrw & Hb); [|done|done|].
    { rw !Forall_forall in HF |- *. intros r Hin'. rw lookup_insert_ne; [by apply HF|]. rw Hpod (tk_uid _ _ _ Hqt).
      intros E. apply Hn. rw E. by apply list_elem_of_fmap_2. }
    exists u', b, loc'. split_and!; try done. destruct b; [|done]. destruct Hb as (Hout & acc & Hacc & Hpass & Hiff). split.
    + intros k [_ Hk]%not_elem_of_cons. by apply Hout.
    + exists (rui :: acc). split_and!; [by apply sublist_skip| |].
      * simpl. exists qt, pod, n'. split_and!; [done|done|done|done|]. eapply passes_ext; [|exact Hpass].
        intros r Hr'. unfold task_of, u1, set_task. simpl. rw lookup_insert_ne //. intros E'. apply Hn. rw E'. apply list_elem_of_fmap_2. by eapply sublist_elem.
      * intros r [-> |Hr']%elem_of_cons; [split; [intros _; rw Hout //|intros _; by left]|]. rw -Hiff // elem_of_cons. split; [|by right].
        intros [-> |?]; [|done]. exfalso. apply Hn. by apply list_elem_of_fmap_2.
  - destruct (node_all_failed c loc u nodeName G) as (loc' & G' & HL & Hno & Hrw). eexists _, false, loc'. split_and!; try done. by right.
  - pose proof (fail_new_good _ _ _ _ G Hin) as G1. set (u1 := AddFailedTask rui false u) in *.
    assert (later loc (<[ru_uid rui := PFailed]> loc)) as HL1 by apply insert_later, checked_failed.
    assert (∀ uid, <[ru_uid rui := PFailed]> loc !! uid = Some PReady ∨ <[ru_uid rui := PFailed]> loc !! uid = Some PWaiting →
              <[ru_uid rui := PFailed]> loc !! uid = loc !! uid) as Hrw1.
    { intros k. destruct (decide (ru_uid rui = k)) as [<- |Hne]; [rw lookup_insert_eq; by intros []|rw lookup_insert_ne //]. }
    destruct (IsUnitFailed u1) eqn:Ef; [exists u1, false, (<[ru_uid rui := PFailed]> loc); split; [reflexivity|split; [exact G1|split; [exact HL1|split; [exact Hrw1|left; exact Ef]]]]|].
    destruct (IH n P u1 _ G1 HNS HF HN) as (u' & b & loc' & E & G' & HL & Hrw & Hb).
    { rw !Forall_forall in HO |- *. intros r Hr'. pose proof (HO r Hr') as Ho. unfold on_node in *.
      destruct (new_place _ _ _ _ _ (g_loc _ _ _ G) Hr) as (_ & _ & _ & Hs & _). unfold u1, AddFailedTask. rw tasks_after; [done|done|].
      intros E. apply Hn. rw -E. by apply list_elem_of_fmap_2. }
    exists u', b, loc'. split_and!; try done; [by eapply later_trans| |].
    { intros k Hk. rw (Hrw k Hk). apply Hrw1. by rw -(Hrw k Hk). }
    destruct b; [|done]. destruct Hb as (Hout & acc & Hacc & Hpass & Hiff). split.
    + intros k [Hk1 Hk2]%not_elem_of_cons. rw Hout // lookup_insert_ne //.
    + exists acc. split_and!; [by apply sublist_cons| |].
      * eapply passes_ext; [|exact Hpass]. intros r _. unfold task_of. by rw (proj2 (frame_shape u u1 (delete_frame rui false (fail_task _ _ u)))).
      * intros r [-> |Hr']%elem_of_cons; [|by apply Hiff]. rw Hout // lookup_insert_eq. split; [|done].
        intros Ha. exfalso. apply Hn, list_elem_of_fmap_2. by eapply sublist_elem.
Qed.
Lemma node_tasks_ok c loc u nodeName : good c loc u → Forall (on_node nodeName u) (GetNewTasksOnNode nodeName u) ∧
  NoDup (ru_uid <$> GetNewTasksOnNode nodeName u) ∧ ∀ uid, loc !! uid = Some (PNew nodeName) ↔ uid ∈ ru_uid <$> GetNewTasksOnNode nodeName u.
Proof.
  intros G. unfold GetNewTasksOnNode, on_node.
  assert (∀ k r, (k, r) ∈ range_map (tasks_on nodeName u) → ru_uid r = k ∧ tasks_on nodeName u !! k = Some r) as H.
  { intros k r Hr%range_elem. destruct (new_place _ _ _ _ _ (g_loc _ _ _ G) Hr) as (_ & [Hu _] & _). done. }
  assert (ru_uid <$> (range_map (tasks_on nodeName u)).*2 = (range_map (tasks_on nodeName u)).*1) as E.
  { rw -list_fmap_compose. apply list_fmap_ext. intros i [k r] Hi%list_elem_of_lookup_2. by apply H in Hi as [? _]. }
  rw E. split_and!.
  - apply Forall_fmap, Forall_forall. intros [k r] [Hu Hr]%H. simpl. by rw Hu.
  - apply range_keys.
  - intros uid. rw range_key_elem. symmetry. apply (lo_at _ _ (g_loc _ _ _ G) (PNew nodeName)).
Qed.
Lemma node_moved c loc u nodeName d u' : good c loc u → checked d → located A u' (send (new_keys nodeName u) d loc) → frame u' = frame u →
  ∃ loc', good c loc' u' ∧ later loc loc' ∧ (∀ uid, loc' !! uid ≠ Some (PNew nodeName)) ∧
    ∀ uid, loc' !! uid = loc !! uid ∨ (loc !! uid = Some (PNew nodeName) ∧ loc' !! uid = Some d).
Proof.
  intros G Hd L F.
  assert (∀ k, k ∈ new_keys nodeName u ↔ loc !! k = Some (PNew nodeName)) as Hk.
  { intros k. unfold new_keys. rw range_key_elem. apply (lo_at _ _ (g_loc _ _ _ G) (PNew nodeName)). }
  exists (send (new_keys nodeName u) d loc). split_and!.
  - eapply move_good; [exact G|done|done|]. apply send_dom. intros k E%Hk. by eexists.
  - by apply send_later.
  - intros k. rw send_lookup. case_decide as E; [by destruct Hd as [-> | [-> | ->]]|]. by rw -Hk.
  - intros k. rw send_lookup. case_decide as E; [right; split; [by apply Hk|done]|by left].
Qed.

(** The tasks of a node that go on passed the check, each on the node without the
    victims and with those before it. *)
Definition node_checked c u nodeName (went_on : string → Prop) : Prop :=
  ∃ n n0 n' acc, GetNodeInfo nodeName c = Some n ∧ node_Clone n = Some n0 ∧
    remove_victims cf (GetVictimsOfNewTasksOnNode nodeName u) n0 = Some (Some n') ∧
    acc `sublist_of` GetNewTasksOnNode nodeName u ∧ passes_in_order (λ uid, task_of uid u) acc n' ∧
    ∀ uid, went_on uid → uid ∈ ru_uid <$> acc.
Definition now_able loc loc' (uid : string) : Prop := (loc' !! uid = Some PReady ∨ loc' !! uid = Some PWaiting) ∧ loc' !! uid ≠ loc !! uid.

Lemma checkTasks_ok c u loc nodeName : good c loc u → nodes_ok c →
  ∃ u' loc', checkTasks cf pl nodeName c u = Some u' ∧ good c loc' u' ∧ later loc loc' ∧
    (IsUnitFailed u' = true ∨ ∀ uid, loc' !! uid ≠ Some (PNew nodeName)) ∧
    ((∀ uid, ¬ now_able loc loc' uid) ∨ node_checked c u nodeName (now_able loc loc')).
Proof.
  intros G Hnodes. destruct (node_all_failed c loc u nodeName G) as (locF & GF & HLF & HnoF & HrwF).
  assert (∃ loc', good c loc' (MoveAllNewTasksOnNodeToFailedList nodeName u) ∧ later loc loc' ∧
    (IsUnitFailed (MoveAllNewTasksOnNodeToFailedList nodeName u) = true ∨ ∀ uid, loc' !! uid ≠ Some (PNew nodeName)) ∧
    ((∀ uid, ¬ now_able loc loc' uid) ∨ node_checked c u nodeName (now_able loc loc'))) as HF.
  { exists locF. split_and!; [done|done|by right|]. left. intros uid [H1 H2]. by apply H2, HrwF. }
  unfold checkTasks. destruct (GetNodeInfo nodeName c) as [n|] eqn:En; [|destruct HF as [locF' HF]; by exists (MoveAllNewTasksOnNodeToFailedList nodeName u), locF'].
  destruct (Hnodes _ _ En) as (P & HNS & HP). destruct (clone_ok n P HNS) as (n0 & Ec & HNS0). rw Ec. cbn [mbind option_bind].
  destruct (remove_victims_ok (GetVictimsOfNewTasksOnNode nodeName u) n0 P HNS0) as [-> |(n' & P' & Er & HNS' & HPs)]; [destruct HF as [locF' HF]; by exists (MoveAllNewTasksOnNodeToFailedList nodeName u), locF'|].
  rw Er. cbn [mbind option_bind]. destruct (node_tasks_ok c loc u nodeName G) as (HO & HN & Hiff).
  destruct (check_tasks_ok c nodeName (GetNewTasksOnNode nodeName u) n' P' u loc G HNS') as (u1 & b & loc1 & E1 & G1 & HL1 & Hrw1 & Hb); [|done|done|].
  { rw !Forall_forall in HO |- *. intros rui Hr. apply eq_None_not_Some. intros [q Hq]. eapply lookup_weaken in Hq; [|exact HPs].
    destruct (new_place _ _ _ _ _ (g_loc _ _ _ G) (HO _ Hr)) as (Hl & _ & _ & _ & HnA).
    rw HP // in Hq. apply (g_dom _ _ _ G). by eexists. }
  rw E1. cbn [mbind option_bind]. destruct b; simpl.
  2: { exists u1, loc1. split_and!; try done. left. intros uid [H1 H2]. by apply H2, Hrw1. }
  destruct Hb as (Hout & acc & Hacc & Hpass & Hin).
  assert (∃ d u2, checked d ∧ (if NewTasksOnNodeNeedPreemption nodeName u1 then MoveAllNewTasksOnNodeToWaitingList nodeName u1 else MoveAllNewTasksOnNodeToReadyList nodeName u1) = u2 ∧
    located A u2 (send (new_keys nodeName u1) d loc1) ∧ frame u2 = frame u1) as (d & u2 & Hd & -> & L2 & F2).
  { destruct (NewTasksOnNodeNeedPreemption nodeName u1).
    - destruct (new_to_waiting nodeName u1 loc1 (g_loc _ _ _ G1)) as [L2 F2]. eexists PWaiting, _. split_and!; [apply checked_waiting|done|done|done].
    - destruct (new_to_ready nodeName u1 loc1 (g_loc _ _ _ G1)) as [L2 F2]. eexists PReady, _. split_and!; [apply checked_ready|done|done|done]. }
  destruct (node_moved c loc1 u1 nodeName d u2 G1 Hd L2 F2) as (loc2 & G2 & HL2 & Hno & Hch). exists u2, loc2.
  split_and!; [done|done|by eapply later_trans|by right|]. right. exists n, n0, n', acc. split_and!; try done.
  intros uid [Hab Hne]. destruct (Hch uid) as [E|[E _]].
  - exfalso. apply Hne. rw E. apply Hrw1. by rw -E.
  - destruct (HL1 _ _ E) as [E'|Hc]; [|by destruct Hc as [? | [? | ?]]]. apply Hiff in E' as (rui & -> & Hr)%list_elem_of_fmap.
    apply list_elem_of_fmap_2. by apply Hin.
Qed.

(** Every node that has new tasks is checked, unless the unit fails. *)
Lemma check_nodes_ok c (Hnodes : nodes_ok c) : ∀ nodes u loc, good c loc u → (∀ uid node, loc !! uid = Some (PNew node) → node ∈ nodes) →
  ∃ u' loc', check_nodes cf pl nodes c u = Some u' ∧ good c loc' u' ∧ later loc loc' ∧
    (IsUnitFailed u' = true ∨ ∀ uid node, loc' !! uid ≠ Some (PNew node)).
Proof.
  induction nodes as [|nodeName nodes IH]; intros u loc G Hin.
  { exists u, loc. split_and!; [done|done|apply later_refl|]. right. intros uid node H%Hin. by apply elem_of_nil in H. }
  destruct (checkTasks_ok c u loc nodeName G Hnodes) as (u1 & loc1 & E1 & G1 & HL1 & Hno & _). cbn [check_nodes]. rw E1. cbn [mbind option_bind].
  destruct (IsUnitFailed u1) eqn:Ef; [exists u1, loc1; split_and!; try done; by left|]. destruct Hno as [|Hno]; [done|].
  destruct (IH u1 loc1 G1) as (u2 & loc2 & E2 & G2 & HL2 & H2).
  - intros uid node Hl. destruct (HL1 _ _ Hl) as [Hl'|Hc]; [|by destruct Hc as [? | [? | ?]]]. apply Hin in Hl' as [-> |]%elem_of_cons; [|done]. by destruct (Hno uid).
  - exists u2, loc2. split_and!; [done|done|by eapply later_trans|done].
Qed.
Lemma conflicts_ok c u loc : good c loc u → nodes_ok c →
  ∃ u' loc', CheckSameNodeConflictsForUnit cf pl c u = Some u' ∧ good c loc' u' ∧ later loc loc' ∧
    (IsUnitFailed u' = true ∨ ∀ uid node, loc' !! uid ≠ Some (PNew node)).
Proof.
  intros G Hnodes. apply check_nodes_ok; [done|done|]. intros uid node Hl. apply (elem_of_elements (Nodes (newTasks u))).
  by apply (wf_nodes _ (lo_wf _ _ (g_loc _ _ _ G)) _ uid), (lo_at _ _ (g_loc _ _ _ G) (PNew node)).
Qed.
End flow.
