(* ===== verification/BinderBind.v ===== *)
(** * Assuming, binding and rejecting

    The stages of Binder that change the cache: victims are marked and tasks assumed,
    ready tasks are bound, and what is left is rejected or queued again.  Each loop
    returns, and what it did to the cache is said in terms of the tasks assumed. *)
From S2P Require Import Prelude GoStrings PodModel PodState HashSlice Resource MicroTopo PodInfos Numa NodeInfo NodeStore BinderUnit Binder BinderProps BinderFlow.

Local Open Scope godel_scope.
Local Open Scope string_scope.

Definition cr_uid (cr : checkResult) : string := ru_uid (cr_runningUnit cr).
(** Tasks stay where they are or fail. *)
Definition fails (loc loc' : Places) : Prop := ∀ uid, loc' !! uid = loc !! uid ∨ (is_Some (loc !! uid) ∧ loc' !! uid = Some PFailed).
Lemma fails_refl loc : fails loc loc.
Proof. intros uid. by left. Qed.
Lemma fails_trans l1 l2 l3 : fails l1 l2 → fails l2 l3 → fails l1 l3.
Proof.
  intros H1 H2 uid. destruct (H2 uid) as [E|[Hs E]]; [rw E; apply H1|]. right. split; [|done].
  destruct (H1 uid) as [E'|[? _]]; [by rw -E'|done].
Qed.
Lemma fails_later loc loc' : fails loc loc' → later loc loc'.
Proof. intros H uid p E. destruct (H uid) as [E'|[_ E']]; [left; by rw -E'|right; right; right; congruence]. Qed.
Lemma fails_back loc loc' uid p : fails loc loc' → p ≠ PFailed → loc' !! uid = Some p → loc !! uid = Some p.
Proof. intros H Hp E. destruct (H uid) as [E'|[_ E']]; congruence. Qed.
Lemma send_fails ks loc : (∀ k, k ∈ ks → is_Some (loc !! k)) → fails loc (send ks PFailed loc).
Proof. intros H k. rw send_lookup. case_decide; [right; split; [by apply H|done]|by left]. Qed.
(** No task is assumed or new. *)
Definition settled (loc : Places) : Prop := ∀ uid p, loc !! uid = Some p → checked p ∨ p = PIgnored.
Lemma settled_later loc loc' : settled loc → later loc loc' → settled loc'.
Proof. intros H HL uid p E. destruct (HL uid p E) as [E'|]; [by apply (H uid)|by left]. Qed.
Definition able (loc : Places) (uid : string) : Prop := loc !! uid = Some PReady ∨ loc !! uid = Some PWaiting.
Lemma fails_able loc loc' uid : fails loc loc' → able loc' uid → able loc uid.
Proof. intros H [E|E]; [left|right]; by eapply fails_back. Qed.

Lemma filter_same {T} (P Q : T → Prop) `{!∀ x, Decision (P x), !∀ x, Decision (Q x)} (l : list T) : (∀ x, x ∈ l → P x ↔ Q x) → filter P l = filter Q l.
Proof.
  induction l as [|x l IH]; intros HPQ; [done|]. rw !filter_cons. pose proof (HPQ x (list_elem_of_here _ _)) as Hx. rw IH; [|intros y Hy; by apply HPQ, list_elem_of_further].
  by do 2 case_decide; first [done | tauto].
Qed.

Section binding.
Context {MR : MapRange} {ML : MapRangeLaws MR} (cf : Config).
Context {C : Type} `{!BinderCache C} (assumedIn : C → gset string) `{!BinderCacheLaws C assumedIn}.
Context (an : Answers) (A : gset string) (pods : list string) (sh : string * bool * Z * Z * bool).
Implicit Types (u : bindingUnitInfo) (loc : Places) (c : C) (w : World C).
Notation good := (good assumedIn A pods sh).
Notation task_ok := (task_ok assumedIn A).

(** ** The cache and the tasks *)

Lemma task_ok_cache c c' uid qt : (uid ∈ assumedIn c' ↔ uid ∈ assumedIn c) → task_ok c uid qt → task_ok c' uid qt.
Proof. intros E [? ? H ? ?]. split; try done. by rw E. Qed.
Lemma good_cache c c' loc u : assumedIn c' = assumedIn c → good c loc u → good c' loc u.
Proof.
  intros E [Hl Hd Ht Hs]. split; try done. intros uid Hu. destruct (Ht uid Hu) as (qt & Eq & H). exists qt. split; [done|].
  eapply task_ok_cache; [|done]. by rw E.
Qed.
Lemma good_change c c' loc u uid qt : good c loc u → (∀ k, k ≠ uid → k ∈ assumedIn c' ↔ k ∈ assumedIn c) → task_ok c' uid qt →
  good c' loc (set_task uid qt u).
Proof.
  intros [Hl Hd Ht Hs] E Hq. split; [by apply set_task_located|done| |done]. intros k Hk. simpl.
  destruct (decide (uid = k)) as [<- |Hne]; [rw lookup_insert_eq; eauto|]. rw lookup_insert_ne //.
  destruct (Ht k Hk) as (qt' & Eq & H). exists qt'. split; [done|]. eapply task_ok_cache; [apply E; congruence|done].
Qed.

(** The entries of a list of checked tasks. *)
Definition entries_of loc u (P : Place) (l : list checkResult) : Prop :=
  NoDup (cr_uid <$> l) ∧ (∀ uid, uid ∈ cr_uid <$> l ↔ loc !! uid = Some P) ∧ Forall (λ cr, entry_ok A (cr_uid cr) cr) l.
Lemma entries c loc u (P : Place) (m : gmap string checkResult) : good c loc u → keyed A m → (∀ uid, is_Some (m !! uid) ↔ holds u P uid) →
  entries_of loc u P (range_map m).*2.
Proof.
  intros G HK Hm. unfold entries_of, cr_uid. assert (∀ k cr, (k, cr) ∈ range_map m → ru_uid (cr_runningUnit cr) = k ∧ entry_ok A k cr) as H.
  { intros k cr Hr%range_elem. pose proof (HK _ _ Hr) as He. pose proof He as [[Hu _] _]. done. }
  assert ((λ cr, ru_uid (cr_runningUnit cr)) <$> (range_map m).*2 = (range_map m).*1) as E.
  { rw -list_fmap_compose. apply list_fmap_ext. intros i [k r] Hi%list_elem_of_lookup_2. by apply H in Hi as [? _]. }
  rw E. split_and!; [apply range_keys| |].
  - intros uid. rw range_key_elem Hm. apply (lo_at _ _ (g_loc _ _ _ _ _ _ _ G)).
  - apply Forall_fmap, Forall_forall. intros [k r] [Hu Hr]%H. simpl. by rw Hu.
Qed.
Lemma ready_entries c loc u : good c loc u → entries_of loc u PReady (GetReadyTasks u).
Proof. intros G. eapply entries; [done|apply (lo_wf _ _ (g_loc _ _ _ _ _ _ _ G))|done]. Qed.
Lemma waiting_entries c loc u : good c loc u → entries_of loc u PWaiting (GetWaitingTasks u).
Proof. intros G. eapply entries; [done|apply (lo_wf _ _ (g_loc _ _ _ _ _ _ _ G))|done]. Qed.
Lemma failed_entries c loc u : good c loc u → entries_of loc u PFailed (GetFailedTasks u).
Proof. intros G. eapply entries; [done|apply (lo_wf _ _ (g_loc _ _ _ _ _ _ _ G))|done]. Qed.
Lemma able_entries c loc u : good c loc u → NoDup (cr_uid <$> GetReadyAndWaitingTasks u) ∧
  (∀ uid, uid ∈ cr_uid <$> GetReadyAndWaitingTasks u ↔ able loc uid) ∧ Forall (λ cr, entry_ok A (cr_uid cr) cr) (GetReadyAndWaitingTasks u).
Proof.
  intros G. destruct (ready_entries _ _ _ G) as (N1 & I1 & F1). destruct (waiting_entries _ _ _ G) as (N2 & I2 & F2).
  unfold GetReadyAndWaitingTasks. rw fmap_app. split_and!; [|intros uid; by rw elem_of_app I1 I2|by apply Forall_app].
  apply NoDup_app. split_and!; [done| |done]. intros uid H1%I1 H2%I2. congruence.
Qed.

(** ** Marking victims *)

Lemma mark_victims_assumed l p : ∀ c, assumedIn (mark_victims l p c).1 = assumedIn c.
Proof.
  induction l as [|v l IH]; intros c; simpl; [done|]. pose proof (mark_assumed v p c) as H. destruct (MarkPodToDelete v p c) as [c' []]; simpl in *; [by rw IH|done].
Qed.
Lemma unmark_victims_assumed l p : ∀ c, assumedIn (unmark_victims l p c) = assumedIn c.
Proof. unfold unmark_victims. induction l as [|v l IH]; intros c; simpl; [done|]. by rw IH unmark_assumed. Qed.

Definition has_task u (cr : checkResult) : Prop := is_Some (task_of (cr_uid cr) u).
Lemma entries_have c loc u P l : good c loc u → (∀ uid, uid ∈ cr_uid <$> l → P uid) → (∀ uid, P uid → is_Some (loc !! uid)) → Forall (has_task u) l.
Proof.
  intros G H HP. apply Forall_forall. intros cr Hcr. destruct (HP (cr_uid cr)) as [p Hp]; [by apply H, list_elem_of_fmap_2|].
  destruct (good_task _ _ _ _ _ _ _ _ _ G Hp) as (qt & E & _). by eexists.
Qed.
Lemma mark_loop_ok u : ∀ l fs c, Forall (has_task u) l → ∃ c' fs', mark_loop l fs u c = Some (c', fs') ∧ assumedIn c' = assumedIn c.
Proof.
  induction l as [|cr l IH]; intros fs c; [intros _; by exists c, fs|]. intros [[qt Eq] HF]%Forall_cons. cbn [mark_loop]. destruct (_ && _); [|by apply IH].
  rw Eq. cbn [mbind option_bind]. pose proof (mark_victims_assumed (ru_victims (cr_runningUnit cr)) (qt_Pod qt) c) as H.
  destruct (mark_victims _ _ c) as [c1 ok]. simpl in H. destruct (IH (if ok : bool then fs else {[suggestedNode (cr_runningUnit cr)]} ∪ fs) c1 HF) as (c2 & fs2 & E & E2).
  exists c2, fs2. split; [done|congruence].
Qed.
Lemma unmark_loop_ok u fs : ∀ l c, Forall (has_task u) l → ∃ c', unmark_loop l fs u c = Some c' ∧ assumedIn c' = assumedIn c.
Proof.
  induction l as [|cr l IH]; intros c; [intros _; by exists c|]. intros [[qt Eq] HF]%Forall_cons. cbn [unmark_loop]. destruct (_ && _); [|by apply IH].
  rw Eq. cbn [mbind option_bind]. destruct (IH (unmark_victims (ru_victims (cr_runningUnit cr)) (qt_Pod qt) c) HF) as (c2 & E & E2).
  exists c2. split; [done|]. by rw E2 unmark_victims_assumed.
Qed.

Lemma sent_good c loc u u' ks P : good c loc u → (∀ k, k ∈ ks → loc !! k = Some P) → located A u' (send ks PFailed loc) → frame u' = frame u →
  good c (send ks PFailed loc) u' ∧ fails loc (send ks PFailed loc).
Proof.
  intros G Hk L F. assert (∀ k, k ∈ ks → is_Some (loc !! k)) as Hs by (intros k H%Hk; by eexists). split; [|by apply send_fails].
  eapply move_good; [exact G|exact L|done|by apply send_dom].
Qed.
Lemma fail_waiting_good c loc u p : good c loc u →
  let loc' := send (filter (λ e, p e.2 = true) (range_map (waitingTasks u))).*1 PFailed loc in good c loc' (fail_waiting p u) ∧ fails loc loc'.
Proof.
  intros G. destruct (waiting_to_failed p u loc (g_loc _ _ _ _ _ _ _ G)) as [L F]. eapply (sent_good c loc u _ _ PWaiting); [done| |done|done].
  intros k ([k' cr] & -> & [_ H%range_elem]%list_elem_of_filter)%list_elem_of_fmap. apply (lo_at _ _ (g_loc _ _ _ _ _ _ _ G) PWaiting). simpl. by rw H.
Qed.
Lemma fail_ready_good c loc u p : good c loc u →
  let loc' := send (filter (λ e, p e.2 = true) (range_map (readyTasks u))).*1 PFailed loc in good c loc' (fail_ready p u) ∧ fails loc loc'.
Proof.
  intros G. destruct (ready_to_failed p u loc (g_loc _ _ _ _ _ _ _ G)) as [L F]. eapply (sent_good c loc u _ _ PReady); [done| |done|done].
  intros k ([k' cr] & -> & [_ H%range_elem]%list_elem_of_filter)%list_elem_of_fmap. apply (lo_at _ _ (g_loc _ _ _ _ _ _ _ G) PReady). simpl. by rw H.
Qed.
Lemma fail_nodes_good c ns : ∀ u loc, good c loc u → ∃ loc', good c loc' (fail_nodes ns u) ∧ fails loc loc' ∧ queued (fail_nodes ns u) = queued u.
Proof.
  unfold fail_nodes. induction (elements ns) as [|n l IH]; intros u loc G; simpl; [exists loc; split_and!; [done|apply fails_refl|done]|].
  set (p := λ cr, negb (cr_assumed cr) && (suggestedNode (cr_runningUnit cr) ≟ n)). destruct (fail_waiting_good c loc u p G) as [G1 H1].
  destruct (IH _ _ G1) as (loc2 & G2 & H2 & Eq). exists loc2. split_and!; [exact G2|by eapply fails_trans|]. etrans; [exact Eq|].
  by destruct (frame_shape _ _ (proj2 (waiting_to_failed p u loc (g_loc _ _ _ _ _ _ _ G)))).
Qed.
Lemma mark_ok c loc u : good c loc u → ∃ c' u' loc', markVictimsOfNewTasks c u = Some (c', u') ∧ good c' loc' u' ∧ fails loc loc'.
Proof.
  intros G. destruct (waiting_entries _ _ _ G) as (_ & HI & _). unfold markVictimsOfNewTasks.
  assert (Forall (has_task u) (GetWaitingTasks u)) as HF by (eapply entries_have; [done|intros uid; apply HI|by eexists]).
  destruct (mark_loop_ok u (GetWaitingTasks u) ∅ c HF) as (c1 & fs & E1 & H1). rw E1. cbn [mbind option_bind].
  destruct (unmark_loop_ok u fs (GetWaitingTasks u) c1 HF) as (c2 & E2 & H2). rw E2. cbn [mbind option_bind].
  destruct (fail_nodes_good c2 fs u loc) as (loc' & G' & HL & _); [eapply good_cache; [|done]; congruence|]. by exists c2, (fail_nodes fs u), loc'.
Qed.

(** ** Assuming tasks *)

Definition newly u (uid : string) : Prop := ∃ qt, task_of uid u = Some qt ∧ NewlyAssumedButStillInHandling qt = true.
Lemma newly_set u uid uid' qt : (uid' = uid → NewlyAssumedButStillInHandling qt = true) → (uid' ≠ uid → newly u uid') → newly (set_task uid qt u) uid'.
Proof.
  intros H1 H2. unfold newly, task_of, set_task. simpl. destruct (decide (uid = uid')) as [<- |Hne]; [rw lookup_insert_eq; eauto|].
  rw lookup_insert_ne //. by apply H2.
Qed.
Lemma old_newly c loc u uid : good c loc u → is_Some (loc !! uid) → uid ∈ A → newly u uid.
Proof. intros G [p Hp] HA. destruct (good_task _ _ _ _ _ _ _ _ _ G Hp) as (qt & E & Hqt). exists qt. split; [done|by apply (tk_old _ _ _ _ _ Hqt)]. Qed.

Lemma cloned_uid uid cr qt c : entry_ok A uid cr → task_ok c uid qt → UID (default (qt_Pod qt) (clonedPod (cr_runningUnit cr))) = uid.
Proof. intros [[_ H] _] Hq. destruct (clonedPod _) as [p|]; [by apply H|by apply (tk_uid _ _ _ _ _ Hq)]. Qed.

Lemma assume_loop_ok loc : ∀ l c u, good c loc u → Forall (λ cr, entry_ok A (cr_uid cr) cr ∧ is_Some (loc !! cr_uid cr)) l →
  ∃ c' u' ok, assume_loop an l c u = Some (c', u', ok) ∧ good c' loc u' ∧
    (ok = true → (∀ uid, uid ∈ cr_uid <$> l → newly u' uid) ∧ ∀ uid, newly u uid → newly u' uid).
Proof.
  induction l as [|cr l IH]; intros c u G; [intros _; exists c, u, true; split_and!; [done|done|intros _; split; [by intros uid ?%elem_of_nil|done]]|].
  intros [[He Hs] HF]%Forall_cons. cbn [assume_loop].
  assert (∀ c1 u1, good c1 loc u1 → newly u1 (cr_uid cr) → (∀ uid, newly u uid → newly u1 uid) → ∃ c' u' ok, assume_loop an l c1 u1 = Some (c', u', ok) ∧ good c' loc u' ∧
    (ok = true → (∀ uid, uid ∈ cr_uid <$> cr :: l → newly u' uid) ∧ ∀ uid, newly u uid → newly u' uid)) as Hgo.
  { intros c1 u1 G1 Hn Hk. destruct (IH c1 u1 G1 HF) as (c' & u' & ok & E & G' & Hok). exists c', u', ok. split_and!; [done|done|].
    intros [H1 H2]%Hok. split; [|auto]. intros uid [-> |H]%elem_of_cons; auto. }
  destruct (cr_assumed cr) eqn:Ea.
  { apply (Hgo c u G); [|done]. eapply old_newly; [done|done|]. destruct He as [_ He]. rw Ea in He. symmetry in He. by apply bool_decide_eq_true_1 in He. }
  assert (cr_uid cr ∉ A) as HnA by (destruct He as [_ He]; rw Ea in He; symmetry in He; by apply bool_decide_eq_false_1 in He).
  destruct Hs as [p Hp]. destruct (good_task _ _ _ _ _ _ _ _ _ G Hp) as (qt & Eq & Hqt). fold (cr_uid cr). rw Eq. cbn [mbind option_bind].
  destruct (an_assumeVolumes an (cr_uid cr)) as [allBound|]; [|by exists c, u, false].
  set (cloned := set_NodeName _ _). assert (UID cloned = cr_uid cr) as Hu by exact (cloned_uid _ _ _ _ He Hqt). clearbody cloned.
  pose proof (assume_assumed cloned c) as Hc. rw Hu in Hc. destruct (AssumePod cloned c) as [c1 ok]. simpl in Hc. destruct Hqt as [T1 T2 T3 T4 T5]. destruct ok; simpl.
  - apply Hgo; [|by apply newly_set|intros uid Hn; by apply newly_set].
    eapply good_change; [done|intros k Hk; rw Hc; set_solver|]. split; simpl; [done|done| |by eexists|by intros q [= <-]]. rw Hc. set_solver.
  - eexists _, _, false. split_and!; [reflexivity| |done]. eapply good_change; [done|intros k Hk; by rw Hc|].
    split; simpl; [done|done|by rw Hc|by eexists|by intros q [= <-]].
Qed.

Lemma forget_loop_ok loc : ∀ l c u, good c loc u → Forall (λ cr, entry_ok A (cr_uid cr) cr ∧ is_Some (loc !! cr_uid cr)) l →
  ∃ c' u', forget_loop l c u = Some (c', u') ∧ good c' loc u'.
Proof.
  induction l as [|cr l IH]; intros c u G; [intros _; by exists c, u|]. intros [[He [p Hp]] HF]%Forall_cons. cbn [forget_loop]. fold (cr_uid cr).
  destruct (good_task _ _ _ _ _ _ _ _ _ G Hp) as (qt & Eq & Hqt). rw Eq. cbn [mbind option_bind].
  destruct (cr_assumed cr) eqn:Ea; [by apply IH|]. destruct (NewlyAssumedButStillInHandling qt) eqn:En; [|by apply IH]. simpl.
  destruct (tk_reserved _ _ _ _ _ Hqt En) as [q Hq]. pose proof (tk_reserved_uid _ _ _ _ _ Hqt q Hq) as Hu. rw Hq.
  pose proof (forget_possible q c) as H1. pose proof (forget_assumed q c) as H2. rw Hu in H1 H2. destruct (ForgetPod q c) as [c1 ok]. simpl in H1, H2.
  rw H1; [|by apply (tk_cache _ _ _ _ _ Hqt)]. apply IH; [|done]. eapply good_change; [done|intros k Hk; rw H2; set_solver|].
  destruct He as [_ He]. rw Ea in He. symmetry in He. apply bool_decide_eq_false_1 in He.
  split; simpl; [apply (tk_uid _ _ _ _ _ Hqt)|done| |done|done]. rw H2. set_solver.
Qed.

Lemma able_loop c loc u : good c loc u → Forall (λ cr, entry_ok A (cr_uid cr) cr ∧ is_Some (loc !! cr_uid cr)) (GetReadyAndWaitingTasks u).
Proof.
  intros G. destruct (able_entries _ _ _ G) as (_ & HI & HF). rw !Forall_forall in HF |- *. intros cr Hcr. split; [by apply HF|].
  destruct (proj1 (HI (cr_uid cr)) (list_elem_of_fmap_2 _ _ _ Hcr)) as [E|E]; by eexists.
Qed.
Lemma drop_new_good c loc u : good c loc u → ∃ loc', good c loc' (MoveAllNewTasksInReadyAndWaitingListToFailedList u) ∧ fails loc loc' ∧
  ∀ uid, able loc' uid → uid ∈ A.
Proof.
  intros G. set (p := λ cr, negb (cr_assumed cr)). destruct (fail_ready_good c loc u p G) as [G1 H1]. destruct (fail_waiting_good c _ _ p G1) as [G2 H2].
  eexists. split_and!; [exact G2|by eapply fails_trans|]. intros uid Hab. apply dec_stable. intros HnA.
  assert (∀ cr, entry_ok A uid cr → p cr = true) as Hp by (intros cr [_ He]; subst p; simpl; by rw He (bool_decide_eq_false_2 _ HnA)).
  assert (∀ (P : Place) (m : gmap string checkResult), keyed A m → is_Some (m !! uid) → uid ∈ (filter (λ e, p e.2 = true) (range_map m)).*1) as Hin.
  { intros P m HK [cr Hcr]. apply list_elem_of_fmap. exists (uid, cr). split; [done|]. apply list_elem_of_filter. split; [by apply Hp, HK|by apply range_elem]. }
  destruct Hab as [E|E].
  - assert (PReady ≠ PFailed) as Hne by done. pose proof (fails_back _ _ _ _ H2 Hne E) as E1. rw send_lookup in E1. case_decide as Hni; [done|]. apply Hni.
    apply (Hin PReady); [apply (lo_wf _ _ (g_loc _ _ _ _ _ _ _ G))|]. by apply (lo_at _ _ (g_loc _ _ _ _ _ _ _ G) PReady).
  - pose proof E as E1. rw send_lookup in E1. case_decide as Hni; [done|]. apply Hni.
    apply (Hin PWaiting); [apply (lo_wf _ _ (g_loc _ _ _ _ _ _ _ G1))|]. by apply (lo_at _ _ (g_loc _ _ _ _ _ _ _ G1) PWaiting).
Qed.

(** Afterwards every task that can go on is assumed, unless the unit failed. *)
Lemma mark_assume_ok c loc u : good c loc u → ∃ c' u' loc', MarkVictimsAndAssumeTasks an c u = Some (c', u') ∧ good c' loc' u' ∧ fails loc loc' ∧
  (IsUnitFailed u' = true ∨ ∀ uid, able loc' uid → newly u' uid).
Proof.
  intros G. unfold MarkVictimsAndAssumeTasks. destruct (mark_ok c loc u G) as (c1 & u1 & loc1 & E1 & G1 & H1). rw E1. cbn [mbind option_bind].
  destruct (IsUnitFailed u1) eqn:Ef; [exists c1, u1, loc1; split_and!; try done; by left|].
  destruct (assume_loop_ok loc1 _ c1 u1 G1 (able_loop _ _ _ G1)) as (c2 & u2 & ok & E2 & G2 & Hok). unfold assumeNewTasks. rw E2. cbn [mbind option_bind].
  destruct ok.
  - exists c2, u2, loc1. split_and!; try done. right. intros uid Hab. destruct (Hok eq_refl) as [H2 _]. by apply H2, (able_entries _ _ _ G1).
  - destruct (forget_loop_ok loc1 _ c2 u2 G2 (able_loop _ _ _ G2)) as (c3 & u3 & E3 & G3). unfold forgetNewAssumedTasks. rw E3. cbn [mbind option_bind].
    destruct (drop_new_good _ _ _ G3) as (loc4 & G4 & H4 & HA). eexists c3, _, loc4. split_and!; [done|done|by eapply fails_trans|]. right.
    intros uid Hab. eapply old_newly; [exact G4| |by apply HA]. by destruct Hab; eexists.
Qed.

(** ** Rejecting, queueing again, binding *)

(** The entries of a list that are left assumed are released. *)
Lemma reject_task_ok c0 c u cr done_ : is_Some (task_of (cr_uid cr) u) → (∀ qt, task_of (cr_uid cr) u = Some qt → task_ok c0 (cr_uid cr) qt) →
  entry_ok A (cr_uid cr) cr → assumedIn c = assumedIn c0 ∖ done_ → ∃ c', reject_task u c cr = Some c' ∧ assumedIn c' = assumedIn c0 ∖ ({[cr_uid cr]} ∪ done_).
Proof.
  intros [qt Eq] Ht [_ He] Hc. specialize (Ht qt Eq). unfold reject_task. fold (cr_uid cr). rw Eq. cbn [mbind option_bind].
  pose proof (unmark_victims_assumed (ru_victims (cr_runningUnit cr)) (qt_Pod qt) c) as Hu. set (c1 := unmark_victims _ _ c) in *. clearbody c1.
  assert (cr_assumed cr || NewlyAssumedButStillInHandling qt = NewlyAssumedButStillInHandling qt) as ->.
  { rw He. case_bool_decide as HA; [|done]. by rw (tk_old _ _ _ _ _ Ht HA). }
  destruct (NewlyAssumedButStillInHandling qt) eqn:En.
  - destruct (tk_reserved _ _ _ _ _ Ht En) as [q Hq]. pose proof (tk_reserved_uid _ _ _ _ _ Ht q Hq) as Hqu. rw Hq. eexists. split; [reflexivity|].
    rw forget_assumed Hqu. set_solver.
  - exists c1. split; [done|]. assert (cr_uid cr ∉ assumedIn c0) as Hn by (intros H%(tk_cache _ _ _ _ _ Ht); congruence). set_solver.
Qed.
Lemma reject_loop_ok c0 u : ∀ l w done_, w_unit w = u → Forall (λ cr, is_Some (task_of (cr_uid cr) u) ∧ (∀ qt, task_of (cr_uid cr) u = Some qt → task_ok c0 (cr_uid cr) qt) ∧ entry_ok A (cr_uid cr) cr) l →
  assumedIn (w_cache w) = assumedIn c0 ∖ done_ →
  ∃ c', reject_loop l w = Some (mkWorld c' u (w_attempted w) (w_bound w) (w_rejected w ++ (cr_uid <$> l))%list (w_requeued w)) ∧
    assumedIn c' = assumedIn c0 ∖ (list_to_set (cr_uid <$> l) ∪ done_).
Proof.
  induction l as [|cr l IH]; intros w done_ Hw; cbn [reject_loop].
  { intros _ Hc. exists (w_cache w). split; [rw app_nil_r; destruct w; simpl in *; congruence|]. simpl. by rw left_id_L. }
  intros [(H1 & H2 & H3) HF]%Forall_cons Hc. destruct (reject_task_ok c0 (w_cache w) u cr done_ H1 H2 H3 Hc) as (c1 & E1 & Hc1). rw Hw E1. cbn [mbind option_bind].
  destruct (IH (mkWorld c1 u (w_attempted w) (w_bound w) (w_rejected w ++ [cr_uid cr])%list (w_requeued w)) _ eq_refl HF Hc1) as (c' & E & Hc'). exists c'. split; [etrans; [exact E|]; simpl; by rw -assoc_L|].
  simpl. rw Hc'. f_equal. set_solver.
Qed.

Lemma requeue_loop_ok u : ∀ l w, w_unit w = u → Forall (λ cr, ∃ qt, task_of (cr_uid cr) u = Some qt ∧ NewlyAssumedButStillInHandling qt = true ∧ is_Some (ReservedPod qt)) l →
  requeue_loop l w = Some (mkWorld (w_cache w) u (w_attempted w) (w_bound w) (w_rejected w) (w_requeued w ++ (cr_uid <$> l))%list).
Proof.
  induction l as [|cr l IH]; intros w Hw; cbn [requeue_loop].
  { intros _. rw app_nil_r. destruct w; simpl in *; congruence. }
  intros [(qt & Eq & En & [q Hq]) HF]%Forall_cons. fold (cr_uid cr). rw Hw Eq. cbn [mbind option_bind].
  rw En Hq bool_decide_eq_false_2 //. rw andb_false_r. etrans; [apply IH; [done|exact HF]|]. simpl. by rw -assoc_L.
Qed.

Lemma bind_attempts_assumed uid qt p : ∀ attempts n c, assumedIn (bind_attempts an attempts n uid qt p c).1 = assumedIn c.
Proof.
  induction attempts as [|k IH]; intros n c; cbn [bind_attempts]; destruct (runBindPhase _ _ _ _); simpl; rw ?IH; apply finish_assumed.
Qed.
(** Binding is tried for every task; those that fail are reported. *)
Lemma bind_loop_ok u : ∀ l w, w_unit w = u → NoDup (cr_uid <$> l) → Forall (λ cr, ∃ qt, task_of (cr_uid cr) u = Some qt ∧ is_Some (ReservedPod qt)) l →
  ∃ c' failed, bind_loop an l w = Some (mkWorld c' u (w_attempted w ++ (cr_uid <$> l))%list (w_bound w ++ filter (.∉ failed) (cr_uid <$> l))%list (w_rejected w) (w_requeued w), failed) ∧
    assumedIn c' = assumedIn (w_cache w) ∧ failed `sublist_of` (cr_uid <$> l).
Proof.
  induction l as [|cr l IH]; intros w Hw; cbn [bind_loop].
  { intros _ _. exists (w_cache w), []. split_and!; [|done|constructor]. simpl. rw !app_nil_r. destruct w; simpl in *; congruence. }
  intros [Hn HN]%NoDup_cons [(qt & Eq & [q Hq]) HF]%Forall_cons. fold (cr_uid cr). rw Hw Eq. cbn [mbind option_bind]. rw Hq.
  pose proof (bind_attempts_assumed (cr_uid cr) qt q (MaxRetryAttempts - 1) 0 (w_cache w)) as Hc. destruct (bind_attempts _ _ _ _ _ _ _) as [c1 ok]. simpl in Hc.
  destruct (IH (mkWorld c1 u (w_attempted w ++ [cr_uid cr])%list (if ok : bool then (w_bound w ++ [cr_uid cr])%list else w_bound w) (w_rejected w) (w_requeued w)) eq_refl HN HF) as (c2 & failed & E & Hc2 & Hs).
  rw E. cbn [mbind option_bind]. simpl in Hc2. assert (cr_uid cr ∉ failed) as Hnf by (intros H; by apply Hn, (sublist_elem _ _ _ Hs)).
  assert (∀ x, x ∈ cr_uid <$> l → x ≠ cr_uid cr) as Hne by (intros x Hx ->; done).
  exists c2, (if ok then failed else cr_uid cr :: failed). split_and!; [|congruence|destruct ok; [by apply sublist_cons|by apply sublist_skip]].
  do 2 f_equal. simpl. rw -!assoc_L. f_equal. destruct ok.
  - rw filter_cons_True // -assoc_L. done.
  - rw filter_cons_False; [|by intros H; apply H; left]. f_equal. f_equal. apply filter_same. intros x Hx%Hne. rw not_elem_of_cons. tauto.
Qed.
End binding.
