(* ===== verification/BinderSpec.v ===== *)
(** * What the binder does with a unit

    The whole workflow of Binder, from the lemmas of BinderFlow and BinderBind: no task
    is lost, what the cache assumes is what goes on, a pod group goes on with at
    least its minimum or is given up as a whole, and the tasks that are let on a node do not conflict there. *)
From S2P Require Import Prelude GoStrings PodModel PodState HashSlice Resource MicroTopo PodInfos Numa NodeInfo NodeInfoProps NodeClone NodeStore NodeStoreProps PodInfosProps Framework FilterPlugins BinderUnit Binder BinderProps BinderFlow BinderBind.

Local Open Scope godel_scope.
Local Open Scope string_scope.

Lemma fresh_unit_located A key group min tasks b : located A (set_ever b (NewBindingUnitInfo key group min tasks)) ∅.
Proof.
  split.
  - intros p k. rw lookup_empty. split; [|done]. destruct p as [|node| | | |]; simpl; [set_solver|unfold tasks_on; simpl; rw !lookup_empty; by intros []| | | |by intros ?%elem_of_nil]; rw lookup_empty; by intros [].
  - split; simpl.
    + set_solver.
    + intros node uid rui. unfold tasks_on. simpl. by rw !lookup_empty.
    + intros node uid. unfold tasks_on. simpl. rw !lookup_empty. by intros [].
    + constructor.
    + intros uid cr. by rw lookup_empty.
    + intros uid cr. by rw lookup_empty.
    + intros uid cr. by rw lookup_empty.
Qed.

Section spec.
Context {MR : MapRange} {ML : MapRangeLaws MR} (cf : Config).
Context {C : Type} `{!BinderCache C} (assumedIn : C → gset string) `{!BinderCacheLaws C assumedIn}.
Context {S : Type} (pl : BinderPlugins S) (commonState : S) (podLister : string → string → PodLookup) (an : Answers) (now : Z).
Implicit Types (u : bindingUnitInfo) (loc : Places) (c : C) (w : World C).

Section stages.
Context (A : gset string) (pods : list string) (sh : string * bool * Z * Z * bool).
Notation good := (good assumedIn A pods sh).

(** Enough tasks to bind the unit. *)
Definition enough u (n : nat) : Prop := isPodGroup u = true → everScheduled u = true ∨ (minMember u ≤ Z.of_nat n)%Z.
Lemma enough_shape u u' n : shape u' = shape u → enough u n → enough u' n.
Proof. unfold shape, enough. by intros [= _ -> -> _ ->]. Qed.

(** Binding was tried for some tasks.  Either those that were bound stay, and each of
    the others failed; or all failed, and not because all were bound. *)
Definition kept loc w : Prop :=
  (∀ uid, uid ∈ w_bound w → loc !! uid = Some PReady) ∧ ∀ uid, uid ∈ w_attempted w → loc !! uid = Some PReady ∨ loc !! uid = Some PFailed.
Definition undone loc w : Prop :=
  (∀ uid, ¬ able loc uid) ∧ (∀ uid, uid ∈ w_attempted w → loc !! uid = Some PFailed) ∧ (w_attempted w ≠ [] → w_bound w ≠ w_attempted w).

(** What is true of a unit that the binder is done with. *)
Record finished loc w : Prop := {
  fi_loc : located A (w_unit w) loc;
  fi_dom uid : is_Some (loc !! uid) ↔ uid ∈ pods;
  fi_shape : shape (w_unit w) = sh;
  fi_settled : settled loc;
  fi_rejected : NoDup (w_rejected w) ∧ ∀ uid, uid ∈ w_rejected w ↔ loc !! uid = Some PFailed;
  fi_requeued : NoDup (w_requeued w) ∧ ∀ uid, uid ∈ w_requeued w ↔ loc !! uid = Some PWaiting;
  fi_bound uid : loc !! uid = Some PReady → uid ∈ w_bound w;
  fi_able uid : able loc uid → uid ∈ assumedIn (w_cache w);
  fi_forgot uid : loc !! uid = Some PFailed → uid ∉ assumedIn (w_cache w);
  fi_failed : IsUnitFailed (w_unit w) = true → ∀ uid, ¬ able loc uid;
  fi_gang : w_attempted w = [] ∨ enough (w_unit w) (length (w_attempted w));
  fi_sub : w_bound w `sublist_of` w_attempted w;
  fi_done : kept loc w ∨ undone loc w
}.

Lemma reject_ok w loc : good (w_cache w) loc (w_unit w) → settled loc → w_rejected w = [] →
  (NoDup (w_requeued w) ∧ ∀ uid, uid ∈ w_requeued w ↔ loc !! uid = Some PWaiting) → (∀ uid, loc !! uid = Some PReady → uid ∈ w_bound w) →
  (∀ uid, able loc uid → newly (w_unit w) uid) → (IsUnitFailed (w_unit w) = true → ∀ uid, ¬ able loc uid) →
  (w_attempted w = [] ∨ enough (w_unit w) (length (w_attempted w))) → w_bound w `sublist_of` w_attempted w → kept loc w ∨ undone loc w →
  ∃ w', RejectFailedTasks w = Some w' ∧ finished loc w'.
Proof.
  intros G Hset Hr Hq Hb Hn Hf Hg Hs Hd. destruct (failed_entries _ _ _ _ _ _ _ G) as (N & I & F).
  destruct (reject_loop_ok assumedIn A (w_cache w) (w_unit w) (GetFailedTasks (w_unit w)) w ∅ eq_refl) as (c' & E & Hc).
  - rw !Forall_forall in F |- *. intros cr Hcr. pose proof (proj1 (I (cr_uid cr)) (list_elem_of_fmap_2 _ _ _ Hcr)) as Hl.
    destruct (good_task _ _ _ _ _ _ _ _ _ G Hl) as (qt & Eq & Hqt). split_and!; [by eexists| |by apply F]. intros qt' Eq'. rw Eq in Eq'. by injection Eq' as <-.
  - set_solver.
  - eexists. split; [exact E|]. rw right_id_L in Hc. rw Hr. destruct G as [Gl Gd Gt Gs]. split; simpl; try done.
    + intros uid Hab. rw Hc. apply elem_of_difference. split.
      * assert (is_Some (loc !! uid)) as [p Hp] by by destruct Hab; eexists. destruct (Gt uid) as (qt & Eq & Hqt); [apply Gd; by eexists|].
        apply (tk_cache _ _ _ _ _ Hqt). destruct (Hn _ Hab) as (qt' & Eq' & Hnew). unfold task_of in Eq'. congruence.
      * rw elem_of_list_to_set I. intros Hl. destruct Hab; congruence.
    + intros uid Hl. rw Hc. intros [_ H]%elem_of_difference. apply H, elem_of_list_to_set, I, Hl.
Qed.

Lemma all_failed_place loc uid p : all_failed loc !! uid = Some p → p = PIgnored ∨ p = PFailed.
Proof. unfold all_failed. rw lookup_fmap fmap_Some. intros (q & E & ->). destruct (decide (q = PIgnored)); auto. Qed.
Lemma all_failed_not_able loc uid : ¬ able (all_failed loc) uid.
Proof. by intros [[?|?]%all_failed_place|[?|?]%all_failed_place]. Qed.
Lemma fail_all_ok w loc : good (w_cache w) loc (w_unit w) → w_rejected w = [] → w_requeued w = [] →
  (w_attempted w = [] ∨ enough (w_unit w) (length (w_attempted w))) → w_bound w `sublist_of` w_attempted w →
  (∀ uid, uid ∈ w_attempted w → ∃ p, loc !! uid = Some p ∧ p ≠ PIgnored) → (w_attempted w ≠ [] → w_bound w ≠ w_attempted w) →
  ∃ w' loc', FailAndRejectAllTasks w = Some w' ∧ finished loc' w'.
Proof.
  intros G Hr Hq Hg Hs Ha Hne. pose proof (all_failed_good _ _ _ _ _ _ _ G) as G'.
  destruct (reject_ok (with_unit (MoveAllTasksToFailedList (w_unit w)) w) (all_failed loc)) as (w' & E & F); simpl; try done.
  - intros uid p H%all_failed_place. destruct H as [-> | ->]; [by right|left; apply checked_failed].
  - rw Hq. split; [constructor|]. intros uid. split; [by intros ?%elem_of_nil|]. intros H. destruct (all_failed_not_able loc uid). by right.
  - intros uid H. destruct (all_failed_not_able loc uid). by left.
  - intros uid H. by destruct (all_failed_not_able loc uid).
  - intros _ uid. apply all_failed_not_able.
  - destruct Hg as [|Hg]; [by left|right]. eapply enough_shape; [|exact Hg]. by rw (g_shape _ _ _ _ _ _ _ G') (g_shape _ _ _ _ _ _ _ G).
  - right. split; [intros uid; apply all_failed_not_able|]. split; [|done]. intros uid (p & Hp & Hi)%Ha. unfold all_failed. rw lookup_fmap Hp /=. by case_decide.
  - by exists w', (all_failed loc).
Qed.
(** Before any binding. *)
Lemma fail_early_ok w loc : good (w_cache w) loc (w_unit w) → w_attempted w = [] → w_bound w = [] → w_rejected w = [] → w_requeued w = [] →
  ∃ w' loc', FailAndRejectAllTasks w = Some w' ∧ finished loc' w'.
Proof.
  intros G Ha Hb Hr Hq. apply (fail_all_ok w loc); try done; rw Ha; [by left|by rw Hb|by intros uid ?%elem_of_nil].
Qed.

Lemma requeue_ok w loc : good (w_cache w) loc (w_unit w) → (∀ uid, able loc uid → newly (w_unit w) uid) → w_requeued w = [] →
  ∃ l, ReEnqueueWaitingTasks w = Some (mkWorld (w_cache w) (w_unit w) (w_attempted w) (w_bound w) (w_rejected w) l) ∧ NoDup l ∧ ∀ uid, uid ∈ l ↔ loc !! uid = Some PWaiting.
Proof.
  intros G Hn Hq. destruct (waiting_entries _ _ _ _ _ _ _ G) as (N & I & F). exists (cr_uid <$> GetWaitingTasks (w_unit w)). split_and!; [|done|done].
  unfold ReEnqueueWaitingTasks. rw (requeue_loop_ok (w_unit w)); [by rw Hq|done|].
  apply Forall_forall. intros cr Hcr. pose proof (proj1 (I (cr_uid cr)) (list_elem_of_fmap_2 _ _ _ Hcr)) as Hl. destruct (Hn (cr_uid cr)) as (qt & Eq & Hnew); [by right|].
  destruct (good_task _ _ _ _ _ _ _ _ _ G Hl) as (qt' & Eq' & Hqt). exists qt. split_and!; [done|done|]. rw Eq in Eq'. injection Eq' as <-. by apply (tk_reserved _ _ _ _ _ Hqt).
Qed.

Lemma size_range {T} (m : gmap string T) : length (range_map m).*2 = size m.
Proof. rw length_fmap map_range_perm length_map_to_list //. Qed.

Lemma waiting_not_failed u : IsUnitFailed (MoveAllTasksFromReadyToWaitingList u) = IsUnitFailed u.
Proof. unfold MoveAllTasksFromReadyToWaitingList. generalize (range_map (readyTasks u)) as l. intros l. revert u. induction l as [|e l IH]; intros u; simpl; [done|]. by rw IH. Qed.
Lemma newly_queued u u' uid : queued u' = queued u → newly u uid → newly u' uid.
Proof. intros E (qt & Eq & H). exists qt. split; [unfold task_of; by rw E|done]. Qed.

Lemma after_bind_ok c u loc failed (keys := cr_uid <$> GetReadyTasks u) : good c loc u → settled loc → (∀ uid, able loc uid → newly u uid) →
  IsAbleToBindReadyTasks u = true → IsUnitFailed u = false → failed `sublist_of` keys →
  ∃ w' loc', after_bind (mkWorld c u keys (filter (.∉ failed) keys) [] []) failed = Some w' ∧ finished loc' w'.
Proof.
  intros G Hset Hnew Eb Ef Hs. destruct (ready_entries _ _ _ _ _ _ _ G) as (N & I & F). fold keys in N, I.
  unfold after_bind. cbn [w_unit].
  destruct (ready_failed_spec failed u loc (g_loc _ _ _ _ _ _ _ G)) as (u3 & E3 & L3 & F3); [by eapply sublist_NoDup| |].
  { apply Forall_forall. intros uid Hu. by apply I, (sublist_elem _ _ _ Hs). }
  rw E3. cbn [mbind option_bind].
  assert (∀ uid, uid ∈ failed → is_Some (loc !! uid)) as Hsome.
  { intros uid Hu%(sublist_elem _ _ _ Hs)%I. by eexists. }
  pose proof (send_fails failed loc Hsome) as H3. set (loc3 := send failed PFailed loc) in *. destruct (frame_shape _ _ F3) as [S3 Q3].
  assert (good c loc3 u3) as G3 by (eapply move_good; [exact G|exact L3|exact F3|by apply send_dom]).
  assert (∀ uid, able loc3 uid → newly u3 uid) as Hnew3 by (intros uid Hab%(fails_able _ _ _ H3); eapply newly_queued; [exact Q3|by apply Hnew]).
  assert (enough u3 (length keys)) as Hen.
  { eapply enough_shape; [exact S3|]. rw length_fmap /GetReadyTasks size_range. intros Hg. unfold IsAbleToBindReadyTasks in Eb. rw Hg in Eb.
    apply orb_true_iff in Eb as [Eb|Eb]; [by left|right; lia]. }
  assert (∀ uid, uid ∈ keys → loc3 !! uid = Some (if decide (uid ∈ failed) then PFailed else PReady)) as Hkeys.
  { intros uid Hu. unfold loc3. rw send_lookup. case_decide; [done|by apply I]. }
  assert (filter (.∉ failed) keys `sublist_of` keys) as Hsub by apply sublist_filter.
  destruct (IsUnitFailed u3) eqn:Ef3.
  { eapply fail_all_ok; [exact G3|done|done|by right|exact Hsub| |]; cbn [w_attempted w_bound].
    - intros uid Hu%Hkeys. eexists. split; [exact Hu|]. by case_decide.
    - intros _ Efk. change (filter (.∉ failed) keys = keys) in Efk. assert (failed = []) as Hnil.
      { destruct failed as [|uid l]; [done|]. assert (uid ∈ keys) as Hin by (apply (sublist_elem _ _ _ Hs); by left).
        rw -Efk in Hin. apply list_elem_of_filter in Hin as [Hno _]. destruct Hno. by left. }
      rw Hnil in E3. injection E3 as <-. by rw Ef in Ef3. }
  set (w4 := if isPodGroup u3 then with_cache (C := C) _ _ else _). set (c4 := w_cache w4).
  assert (w4 = mkWorld c4 u3 keys (filter (.∉ failed) keys) [] []) as Hw4 by (unfold c4, w4; by destruct (isPodGroup u3)).
  assert (good c4 loc3 u3) as G4.
  { eapply good_cache; [|exact G3]. unfold c4, w4. destruct (isPodGroup u3); simpl; [apply set_scheduled_assumed|done]. }
  clearbody c4. rw Hw4. clear w4 Hw4. destruct (requeue_ok (mkWorld c4 u3 keys (filter (.∉ failed) keys) [] []) loc3 G4 Hnew3 eq_refl) as (l & E5 & Hl).
  rw E5. cbn [mbind option_bind].
  destruct (reject_ok (mkWorld c4 u3 keys (filter (.∉ failed) keys) [] l) loc3) as (w' & E6 & F6); [done| |done|done| |done|by simpl; rw Ef3|by right|exact Hsub| |by exists w', loc3].
  - eapply settled_later, fails_later; done.
  - intros uid Hu. simpl. apply list_elem_of_filter. split; [|apply I; by eapply fails_back].
    intros Hf. unfold loc3 in Hu. by rw send_lookup decide_True in Hu.
  - left. split; cbn [w_bound w_attempted].
    + intros uid [Hno Hu]%list_elem_of_filter. rw (Hkeys uid Hu). by rw decide_False.
    + intros uid Hu. rw (Hkeys uid Hu). case_decide; [by right|by left].
Qed.

(** The ready tasks wait for the rest of the group. *)
Lemma all_wait_ok c u loc : good c loc u → settled loc → (∀ uid, able loc uid → newly u uid) → IsUnitFailed u = false →
  ∃ w' loc', (w ← ReEnqueueWaitingTasks (mkWorld c (MoveAllTasksFromReadyToWaitingList u) [] [] [] []); RejectFailedTasks w) = Some w' ∧ finished loc' w'.
Proof.
  intros G Hset Hnew Ef. destruct (ready_to_waiting u loc (g_loc _ _ _ _ _ _ _ G)) as [L3 F3]. set (ks := (filter _ _).*1) in *. set (u3 := MoveAllTasksFromReadyToWaitingList u) in *.
  assert (∀ k, k ∈ ks ↔ loc !! k = Some PReady) as Hks.
  { intros k. unfold ks. rw filter_true range_key_elem. apply (lo_at _ _ (g_loc _ _ _ _ _ _ _ G) PReady). }
  set (loc3 := send ks PWaiting loc) in *. destruct (frame_shape _ _ F3) as [S3 Q3].
  assert (good c loc3 u3) as G3.
  { eapply move_good; [exact G|exact L3|exact F3|]. apply send_dom. intros k Hk%Hks. by eexists. }
  assert (∀ uid, able loc3 uid → newly u3 uid) as Hnew3.
  { intros uid Hab. eapply newly_queued; [exact Q3|]. apply Hnew. unfold able, loc3 in Hab. rw send_lookup in Hab. case_decide as Hk; [left; by apply Hks|done]. }
  destruct (requeue_ok (mkWorld c u3 [] [] [] []) loc3 G3 Hnew3 eq_refl) as (l & E5 & Hl). rw E5. cbn [mbind option_bind].
  assert (∀ uid, loc3 !! uid ≠ Some PReady) as Hno.
  { intros uid. unfold loc3. rw send_lookup. case_decide as Hk; [done|]. by rw -Hks. }
  destruct (reject_ok (mkWorld c u3 [] [] [] l) loc3) as (w' & E6 & F6); [done| |done|done| |done| |by left|done|left; split; by intros uid ?%elem_of_nil|by exists w', loc3].
  - eapply settled_later; [exact Hset|]. apply send_later, checked_waiting.
  - intros uid Hu. by destruct (Hno uid).
  - simpl. subst u3. by rw waiting_not_failed Ef.
Qed.

Lemma delete_bind_ok w loc : good (w_cache w) loc (w_unit w) → settled loc → (∀ uid, able loc uid → newly (w_unit w) uid) →
  w_attempted w = [] → w_bound w = [] → w_rejected w = [] → w_requeued w = [] →
  ∃ w' loc', DeleteVictimsAndBindTasks an w = Some w' ∧ finished loc' w'.
Proof.
  intros G Hset Hnew Ha Hb Hr Hq. destruct w as [c u att bd rej req]. simpl in *. subst att bd rej req. unfold DeleteVictimsAndBindTasks, with_unit. cbn [w_unit w_cache].
  destruct (fail_nodes_good assumedIn A pods sh c (deleteVictimsOfNewTasks an u) u loc G) as (loc1 & G1 & H1 & Eq1). set (u1 := fail_nodes _ u) in *. clearbody u1.
  assert (settled loc1) as Hset1 by (eapply settled_later, fails_later; done).
  assert (∀ uid, able loc1 uid → newly u1 uid) as Hnew1 by (intros uid Hab%(fails_able _ _ _ H1); eapply newly_queued; [exact Eq1|by apply Hnew]).
  cbn [w_unit]. destruct (IsUnitFailed u1) eqn:Ef; [by apply (fail_early_ok _ loc1)|].
  destruct (IsAbleToBindReadyTasks u1) eqn:Eb; [|by apply (all_wait_ok c u1 loc1)].
  destruct (isPodGroup u1 && negb (an_lock an)); [by apply (fail_early_ok _ loc1)|].
  destruct (ready_entries _ _ _ _ _ _ _ G1) as (N & I & F).
  destruct (bind_loop_ok assumedIn an sh u1 (GetReadyTasks u1) (mkWorld c u1 [] [] [] []) eq_refl N) as (c2 & failed & E2 & Hc2 & Hs2).
  { apply Forall_forall. intros cr Hcr. pose proof (proj1 (I (cr_uid cr)) (list_elem_of_fmap_2 _ _ _ Hcr)) as Hl. destruct (Hnew1 (cr_uid cr)) as (qt & E & H); [by left|].
    destruct (good_task _ _ _ _ _ _ _ _ _ G1 Hl) as (qt' & E' & Hqt). exists qt. split; [done|]. rw E in E'. injection E' as <-. by apply (tk_reserved _ _ _ _ _ Hqt). }
  cbn [w_cache w_attempted w_bound w_rejected w_requeued app] in E2, Hc2. unfold bindTasks. cbn [w_unit]. rw E2. cbn [mbind option_bind].
  apply (after_bind_ok c2 u1 loc1); [by eapply good_cache|done..].
Qed.

Lemma stage_ok w loc go : good (w_cache w) loc (w_unit w) → w_attempted w = [] → w_bound w = [] → w_rejected w = [] → w_requeued w = [] →
  (IsUnitFailed (w_unit w) = false → ∃ w' loc', go w = Some w' ∧ finished loc' w') → ∃ w' loc', stage w go = Some w' ∧ finished loc' w'.
Proof. intros G Ha Hb Hr Hq Hgo. unfold stage. destruct (IsUnitFailed (w_unit w)); [by apply (fail_early_ok _ loc)|by apply Hgo]. Qed.

End stages.

(** ** The workflow *)

(** A unit that the binder may be given: a task is kept under the UID of its pod and of
    the pod reserved for it, it is marked exactly when the cache assumes its pod, and
    the nodes of the cache are consistent and hold no pod that is still to be placed. *)
Record unit_ok c (tasks : gmap string QueuedTask) (pods : list string) : Prop := {
  uo_nodup : NoDup pods;
  uo_pods uid : uid ∈ pods ↔ is_Some (tasks !! uid);
  uo_uid uid qt : tasks !! uid = Some qt → UID (qt_Pod qt) = uid;
  uo_newly uid qt : tasks !! uid = Some qt → NewlyAssumedButStillInHandling qt = true ↔ uid ∈ assumedIn c;
  uo_reserved uid qt : tasks !! uid = Some qt → NewlyAssumedButStillInHandling qt = true → is_Some (ReservedPod qt);
  uo_reserved_uid uid qt p : tasks !! uid = Some qt → ReservedPod qt = Some p → UID p = uid;
  uo_nodes name n : GetNodeInfo name c = Some n → ∃ P, NS cf n P ∧ ∀ uid, uid ∈ pods → uid ∉ assumedIn c → P !! uid = None
}.

Section workflow.
Context (key : string) (group : bool) (min : Z) (tasks : gmap string QueuedTask) (pods : list string) (c0 : C) (OK : unit_ok c0 tasks pods).
Let A : gset string := list_to_set pods ∩ assumedIn c0.
Let sh := (key, group, min, Z.of_nat (size tasks), UnitScheduled key c0).
Notation run := (bind_unit cf pl commonState podLister an now key group min tasks pods c0).

Lemma tasks_start : tasks_ok assumedIn A pods c0 (set_ever (UnitScheduled key c0) (NewBindingUnitInfo key group min tasks)).
Proof.
  intros uid Hu. destruct (proj1 (uo_pods _ _ _ OK uid) Hu) as [qt E]. exists qt. split; [done|]. split.
  - by eapply uo_uid.
  - intros H. apply (uo_newly _ _ _ OK uid qt E). unfold A in H. set_solver.
  - by eapply uo_newly.
  - by eapply uo_reserved.
  - intros p. by eapply uo_reserved_uid.
Qed.
Lemma nodes_start : nodes_ok cf A pods c0.
Proof.
  intros name n Hn. destruct (uo_nodes _ _ _ OK name n Hn) as (P & HP & H). exists P. split; [done|]. intros uid Hu HA. apply H; [done|].
  unfold A in HA. intros Hin. apply HA. apply elem_of_intersection. split; [by apply elem_of_list_to_set|done].
Qed.

Lemma workflow_ok : ∃ w loc, run = Some w ∧ finished A pods sh loc w.
Proof.
  unfold bind_unit, InitializeUnit. set (u0 := set_ever _ _).
  destruct (initialize_ok cf assumedIn pl podLister now A pods sh c0 ltac:(intros uid Hu Hc; unfold A; set_solver) pods u0 ∅) as (u1 & loc1 & E1 & L1 & T1 & S1 & D1 & R1).
  { apply fresh_unit_located. } { apply tasks_start. } { done. } { apply (uo_nodup _ _ _ OK). } { apply Forall_forall. intros uid Hu. split; [done|apply lookup_empty]. }
  rw E1. cbn [mbind option_bind].
  assert (good assumedIn A pods sh c0 loc1 u1) as G1.
  { split; try done. intros uid. rw D1 lookup_empty. split; [by intros [[]|]|by right]. }
  assert (∀ uid, ¬ able loc1 uid) as Hno1.
  { intros uid [H|H]; eapply R1 in H; try (by left); try (by right); by rw lookup_empty in H. }
  clear R1 D1. apply (stage_ok A pods sh _ loc1); try done. intros _. cbn [w_unit w_cache].
  destruct (preemption_ok assumedIn pl commonState podLister now A pods sh c0 u1 loc1 G1) as (u2 & ok2 & loc2 & E2 & G2 & H2 & Hna). rw E2. cbn [mbind option_bind].
  apply (stage_ok A pods sh _ loc2); try done. intros _. cbn [with_unit w_unit w_cache].
  destruct (topology_ok assumedIn pl A pods sh c0 u2 loc2 G2) as (u3 & ok3 & loc3 & E3 & G3 & H3). rw E3. cbn [mbind option_bind].
  apply (stage_ok A pods sh _ loc3); try done. intros _. cbn [with_unit w_unit w_cache].
  destruct (conflicts_ok cf assumedIn pl A pods sh c0 u3 loc3 G3 nodes_start) as (u4 & loc4 & E4 & G4 & H4 & Hnew4). rw E4. cbn [mbind option_bind].
  apply (stage_ok A pods sh _ loc4); try done. intros Hf4. cbn [with_unit w_unit w_cache] in *. destruct Hnew4 as [|Hnew4]; [congruence|].
  assert (settled loc4) as Hset.
  { intros uid p Hp. destruct p; try (left; first [apply checked_ready | apply checked_waiting | apply checked_failed]); [|by destruct (Hnew4 uid nodeName)|by right].
    destruct (Hna uid). eapply later_place; [exact H3|by intros [?|[?|?]]|]. eapply later_place; [exact H4|by intros [?|[?|?]]|done]. }
  destruct (mark_assume_ok assumedIn an A pods sh c0 loc4 u4 G4) as (c5 & u5 & loc5 & E5 & G5 & H5 & Hnewly). rw E5. cbn [mbind option_bind].
  apply (stage_ok A pods sh _ loc5); try done. intros Hf5. cbn [with_unit with_cache w_unit w_cache] in *. destruct Hnewly as [|Hnewly]; [congruence|].
  apply (delete_bind_ok A pods sh _ loc5); try done. eapply settled_later; [exact Hset|by apply fails_later].
Qed.

(** The lists of tasks of a unit that the binder is done with, as counted by the unit. *)
Lemma finished_lists loc w : finished A pods sh loc w →
  (w_rejected w ++ w_requeued w ++ (range_map (readyTasks (w_unit w))).*1 ++ ignoredTasks (w_unit w))%list ≡ₚ pods ∧
  length (w_rejected w) = size (failedTasks (w_unit w)) ∧ length (range_map (readyTasks (w_unit w))).*1 = size (readyTasks (w_unit w)).
Proof.
  intros F. destruct (fi_rejected _ _ _ _ _ F) as [N1 I1]. destruct (fi_requeued _ _ _ _ _ F) as [N2 I2]. pose proof (fi_loc _ _ _ _ _ F) as L.
  pose proof (wf_ignored _ (lo_wf _ _ L)) as N4. pose proof (range_keys (readyTasks (w_unit w))) as N3.
  assert (∀ uid, uid ∈ (range_map (readyTasks (w_unit w))).*1 ↔ loc !! uid = Some PReady) as I3 by (intros uid; rw range_key_elem; apply (lo_at _ _ L PReady)).
  assert (∀ uid, uid ∈ ignoredTasks (w_unit w) ↔ loc !! uid = Some PIgnored) as I4 by exact (lo_at _ _ L PIgnored).
  split_and!.
  - apply NoDup_Permutation; [|apply (uo_nodup _ _ _ OK)|].
    + rw !NoDup_app. split_and!; try done; intros uid; rw ?elem_of_app ?I1 ?I2 ?I3 ?I4; naive_solver.
    + intros uid. rw !elem_of_app I1 I2 I3 I4 -(fi_dom _ _ _ _ _ F). split; [by intros [?|[?|[?|?]]]; eexists|].
      intros [p Hp]. destruct (fi_settled _ _ _ _ _ F uid p Hp) as [[-> | [-> | ->]]| ->]; tauto.
  - transitivity (length (range_map (failedTasks (w_unit w))).*1).
    + apply Permutation_length, NoDup_Permutation; [done|apply range_keys|]. intros uid. rw I1 range_key_elem. symmetry. apply (lo_at _ _ L PFailed).
    + by rw length_fmap map_range_perm length_map_to_list.
  - by rw length_fmap map_range_perm length_map_to_list.
Qed.
End workflow.

(** C14: the binder returns, and every pod of the unit ends in exactly one of four ways: it was rejected, it was queued again, it is ready and was bound, or it was ignored as already assumed, bound or being deleted. *)
Theorem tasks_accounted_for key group min timeout creation tasks pods c : unit_ok c tasks pods →
  ∃ w, CheckAndBindUnit cf pl commonState podLister an now key group min timeout creation tasks pods c = Some w ∧
    (w_rejected w ++ w_requeued w ++ (range_map (readyTasks (w_unit w))).*1 ++ ignoredTasks (w_unit w))%list ≡ₚ pods ∧
    ∀ uid, is_Some (readyTasks (w_unit w) !! uid) → uid ∈ w_bound w.
Proof.
  intros OK. unfold CheckAndBindUnit. destruct (ValidateUnit pods) eqn:Ev; simpl; [destruct (UnitTimeout now key timeout creation c)|].
  - eexists. split_and!; [reflexivity| |intros uid; simpl; rw lookup_empty; by intros []]. simpl. by rw map_range_perm map_to_list_empty /= app_nil_r.
  - destruct (workflow_ok key group min tasks pods c OK) as (w & loc & E & F). exists w. split_and!; [done|by eapply finished_lists|].
    intros uid H. eapply (fi_bound _ _ _ _ _ F), (lo_at _ _ (fi_loc _ _ _ _ _ F) PReady), H.
  - eexists. split_and!; [reflexivity| |intros uid; simpl; rw lookup_empty; by intros []]. simpl. rw map_range_perm map_to_list_empty /=.
    by destruct pods.
Qed.

(** C16: When the binder is done with a unit that did not time out, its cache assumes
    the pods that are ready or queued again, and none of those that were rejected.  A
    unit that timed out is rejected as a whole and its cache is left as it was: pods
    that were assumed stay assumed until they expire (godel_binder.go:1010). *)
Theorem binder_cache_agrees key group min timeout creation tasks pods c : unit_ok c tasks pods →
  ∃ w, CheckAndBindUnit cf pl commonState podLister an now key group min timeout creation tasks pods c = Some w ∧
    if ValidateUnit pods && UnitTimeout now key timeout creation c
    then w_cache w = c ∧ w_rejected w = pods ∧ readyTasks (w_unit w) = ∅ ∧ w_requeued w = []
    else (∀ uid, is_Some (readyTasks (w_unit w) !! uid) ∨ uid ∈ w_requeued w → uid ∈ assumedIn (w_cache w)) ∧
         ∀ uid, uid ∈ w_rejected w → uid ∉ assumedIn (w_cache w).
Proof.
  intros OK. unfold CheckAndBindUnit. destruct (ValidateUnit pods); cbn [negb andb].
  2: { eexists. split_and!; [reflexivity| |by intros uid ?%elem_of_nil]. simpl. intros uid [[? H]|?%elem_of_nil]; [by rw lookup_empty in H|done]. }
  destruct (UnitTimeout now key timeout creation c); [by eexists|].
  destruct (workflow_ok key group min tasks pods c OK) as (w & loc & E & F). exists w. split_and!; [done| |].
  - intros uid [H|H]; apply (fi_able _ _ _ _ _ F); [left; by apply (lo_at _ _ (fi_loc _ _ _ _ _ F) PReady)|right; by apply (fi_requeued _ _ _ _ _ F)].
  - intros uid H. apply (fi_forgot _ _ _ _ _ F). by apply (fi_rejected _ _ _ _ _ F).
Qed.

(** C15: For a pod group of which nothing was scheduled before, in every run of the
    binder: binding is tried for no member or for at least the minimum; and in the end
    either the binder goes on, the members that were bound are exactly those that are
    ready, and the members ready or waiting are at least the minimum; or it gives up,
    no member is ready or waits, and every member for which binding was tried is
    rejected, those that were bound included.  It does not give up after a try unless
    some binding failed.  A member that was bound stays bound for the API server when
    the binder gives up ([BinderExamples.bound_pod_rejected]). *)
Theorem gang_binding key min timeout creation tasks pods c : unit_ok c tasks pods → UnitScheduled key c = false →
  ∃ w, CheckAndBindUnit cf pl commonState podLister an now key true min timeout creation tasks pods c = Some w ∧
    w_bound w `sublist_of` w_attempted w ∧
    (w_attempted w = [] ∨ (min ≤ Z.of_nat (length (w_attempted w)))%Z) ∧
    ((∀ uid, uid ∈ w_bound w ↔ is_Some (readyTasks (w_unit w) !! uid)) ∧ (min ≤ Z.of_nat (size (readyTasks (w_unit w)) + length (w_requeued w)))%Z ∨
     readyTasks (w_unit w) = ∅ ∧ w_requeued w = [] ∧ (∀ uid, uid ∈ w_attempted w → uid ∈ w_rejected w) ∧ (w_attempted w ≠ [] → w_bound w ≠ w_attempted w)).
Proof.
  assert (∀ uid, uid ∈ @nil string → uid ∈ @nil string) as Hnil by done.
  intros OK Hsch. unfold CheckAndBindUnit. destruct (negb (ValidateUnit pods)); [eexists; split; [reflexivity|]; split; [done|]; split; [by left|by right; split_and!]|].
  destruct (UnitTimeout now key timeout creation c); [eexists; split; [reflexivity|]; split; [done|]; split; [by left|right; split_and!; try done; by intros uid ?%elem_of_nil]|].
  destruct (workflow_ok key true min tasks pods c OK) as (w & loc & E & F). exists w. split; [done|]. split; [exact (fi_sub _ _ _ _ _ F)|].
  pose proof (fi_shape _ _ _ _ _ F) as Hs. rw Hsch in Hs. injection Hs as _ Hg Hmin Hall Hev. split.
  { destruct (fi_gang _ _ _ _ _ F) as [|Hen]; [by left|]. destruct (Hen Hg) as [?|Hle]; [congruence|]. right. by rw -Hmin. }
  pose proof (fi_loc _ _ _ _ _ F) as L.
  assert ((∀ uid, ¬ able loc uid) → readyTasks (w_unit w) = ∅ ∧ w_requeued w = []) as Hnone.
  { intros Hno. split.
    - apply map_empty. intros uid. apply eq_None_not_Some. intros H. apply (Hno uid). left. by apply (lo_at _ _ L PReady).
    - destruct (w_requeued w) as [|uid l] eqn:Eq; [done|]. exfalso. apply (Hno uid). right. apply (fi_requeued _ _ _ _ _ F). rw Eq. by left. }
  assert (∀ uid, loc !! uid = Some PFailed → uid ∈ w_rejected w) as Hrej by (intros uid; apply (fi_rejected _ _ _ _ _ F)).
  destruct (fi_done _ _ _ _ _ F) as [[Hb Ha]|(Hno & Ha & Hne)].
  2: { right. destruct (Hnone Hno). split_and!; [done|done| |done]. intros uid Hu. by apply Hrej, Ha. }
  destruct (IsUnitFailed (w_unit w)) eqn:Ef.
  - right. pose proof (fi_failed _ _ _ _ _ F Ef) as Hno. destruct (Hnone Hno). split_and!; [done|done| |].
    + intros uid [Hu|Hu]%Ha; [|by apply Hrej]. destruct (Hno uid). by left.
    + intros Hne Heq. destruct (w_attempted w) as [|uid l]; [done|]. apply (Hno uid). left. apply Hb. rw Heq. by left.
  - left. split; [intros uid; split; [intros Hu%Hb; by apply (lo_at _ _ L PReady)|intros Hu%(lo_at _ _ L PReady); by apply (fi_bound _ _ _ _ _ F)]|].
    destruct (finished_lists key true min tasks pods c OK loc w F) as (HP & Hl & Hr). apply Permutation_length in HP. rw !length_app Hl Hr in HP.
    assert (size tasks = length pods) as Hsz.
    { transitivity (length (map_to_list tasks).*1); [by rw length_fmap length_map_to_list|]. apply Permutation_length, NoDup_Permutation; [apply NoDup_fst_map_to_list|apply (uo_nodup _ _ _ OK)|].
      intros uid. rw (uo_pods _ _ _ OK) list_elem_of_fmap. split; [intros ([k q] & -> & Hk%elem_of_map_to_list); by eexists|].
      intros [q Hq]. exists (uid, q). split; [done|by apply elem_of_map_to_list]. }
    unfold IsUnitFailed in Ef. rw Hg Hev Hmin Hall in Ef. simpl in Ef. lia.
Qed.

(** C17: the new tasks of a node that become ready or wait passed the check of the node one after the other, each on the node without the victims of the node and with the tasks accepted before it. *)
Theorem accepted_tasks_fit A pods sh c u loc nodeName : good assumedIn A pods sh c loc u → nodes_ok cf A pods c →
  ∃ u', checkTasks cf pl nodeName c u = Some u' ∧
    let went_on uid := is_Some (tasks_on nodeName u !! uid) ∧ (is_Some (readyTasks u' !! uid) ∨ is_Some (waitingTasks u' !! uid)) in
    ((∀ uid, ¬ went_on uid) ∨ node_checked cf pl c u nodeName went_on).
Proof.
  intros G Hn. destruct (checkTasks_ok cf assumedIn pl A pods sh c u loc nodeName G Hn) as (u' & loc' & E & G' & HL & _ & H). exists u'. split; [done|]. intros went_on.
  assert (∀ uid, went_on uid → now_able loc loc' uid) as Hw.
  { intros uid [H1 H2]. apply (lo_at _ _ (g_loc _ _ _ _ _ _ _ G) (PNew nodeName)) in H1.
    assert (loc' !! uid = Some PReady ∨ loc' !! uid = Some PWaiting) as H3.
    { destruct H2 as [H2|H2]; [left; by apply (lo_at _ _ (g_loc _ _ _ _ _ _ _ G') PReady)|right; by apply (lo_at _ _ (g_loc _ _ _ _ _ _ _ G') PWaiting)]. }
    split; [done|]. intros E'. rw E' H1 in H3. by destruct H3. }
  destruct H as [H|(n & n0 & n' & acc & H1 & H2 & H3 & H4 & H5 & H6)]; [left; intros uid Huid; by apply (H uid), Hw|].
  right. exists n, n0, n', acc. split_and!; try done. intros uid Huid. by apply H6, Hw.
Qed.
End spec.

(** ** Examples *)

Module BinderExamples.
Import FilterExamples.

(** A cache of one node that keeps only the UIDs of the pods assumed and the groups
    scheduled. *)
Record SmallCache := { sc_assumed : gset string; sc_groups : gset string }.
#[export] Instance small_cache : BinderCache SmallCache := {
  GetNodeInfo name c := if name ≟ "node" then Some n0 else None;
  IsAssumedPod p c := Some (bool_decide (UID p ∈ sc_assumed c));
  IsPodMarkedToDelete p c := Some false;
  MarkPodToDelete p q c := (c, true);
  RemoveDeletePodMarker p q c := c;
  AssumePod p c := if bool_decide (UID p ∈ sc_assumed c) then (c, false)
                   else ({| sc_assumed := {[UID p]} ∪ sc_assumed c; sc_groups := sc_groups c |}, true);
  ForgetPod p c := if bool_decide (UID p ∈ sc_assumed c)
                   then ({| sc_assumed := sc_assumed c ∖ {[UID p]}; sc_groups := sc_groups c |}, true) else (c, false);
  FinishBinding p c := c;
  UnitScheduled k c := bool_decide (k ∈ sc_groups c);
  SetUnitScheduled k c := {| sc_assumed := sc_assumed c; sc_groups := {[k]} ∪ sc_groups c |}
}.
#[export] Instance small_cache_laws : BinderCacheLaws SmallCache sc_assumed.
Proof.
  split; try done; intros p c; simpl; case_bool_decide; simpl; try done; set_solver.
Qed.

Definition task_pod (uid : string) (m : Z) : Pod :=
  let p := anno_init (set_NodeName "" (bound_pod uid 5 m)) in default p (anno_set AssumedNodeAnnotationKey "node" p).
Definition task (uid : string) (m : Z) : QueuedTask :=
  {| qt_Pod := task_pod uid m; NewlyAssumedButStillInHandling := false; ReservedPod := None; AllVolumeBound := false; NominatedVictims := None;
     InitialPreemptAttemptTimestamp := None |}.
(** The plugin on resources decides; nothing fails but the binding of the pods of [bad]. *)
Definition fit_plugins : BinderPlugins () :=
  {| bp_Framework := λ _, true; bp_ClusterPrePreempting := λ _ s, (s, true); bp_VictimChecking := λ _ _ s, (s, true);
     bp_PostVictimChecking := λ _ _ s, (s, true); bp_CheckTopology := λ _ _, true;
     bp_CheckConflicts := λ p n, IsSuccess (Fit_Filter ∅ ∅ (Fit_PreFilter cf0 NewCycleState p) p n); bp_AssignMicroTopology := λ _ _, "" |}.
Definition answers (bad : list string) : Answers :=
  {| an_reserve := λ _ _, true; an_volumes := λ _ _, true; an_prebind := λ _ _, true; an_bind := λ uid _, negb (bool_decide (uid ∈ bad));
     an_delete := λ _ _, true; an_lock := true; an_assumeVolumes := λ _, Some true |}.
Definition lister (ns name : string) : PodLookup := PodNotFound.
Definition cache0 : SmallCache := {| sc_assumed := ∅; sc_groups := ∅ |}.
Definition three : gmap string QueuedTask := <["a" := task "a" 700]> (<["b" := task "b" 200]> (<["c" := task "c" 700]> ∅)).
Definition bind_three (bad : list string) : option (World SmallCache) :=
  CheckAndBindUnit cf0 fit_plugins () lister (answers bad) 0 "group" true 2 300 0 three ["a"; "b"; "c"] cache0.

Lemma three_ok : unit_ok cf0 sc_assumed cache0 three ["a"; "b"; "c"].
Proof.
  assert (∀ uid qt, three !! uid = Some qt → qt = task uid 700 ∨ qt = task uid 200) as H.
  { intros uid qt Hq. unfold three in Hq. repeat (apply lookup_insert_Some in Hq as [[<- <-]|[_ Hq]]; [auto|]). by rw lookup_empty in Hq. }
  assert (∀ uid qt, three !! uid = Some qt → UID (qt_Pod qt) = uid ∧ NewlyAssumedButStillInHandling qt = false ∧ ReservedPod qt = None) as Hall.
  { intros uid qt Hq. destruct (H _ _ Hq) as [-> | ->]; done. }
  split.
  - apply (bool_decide_eq_true_1 (NoDup ["a"; "b"; "c"])). reflexivity.
  - intros uid. unfold three. rw !is_Some_insert lookup_empty !elem_of_cons elem_of_nil. split; [naive_solver|].
    intros [[[[? ?]|?]|?]|?]; [done|tauto..].
  - intros uid qt Hq. by apply Hall.
  - intros uid qt (_ & E & _)%Hall. rw E. split; [done|]. simpl. set_solver.
  - intros uid qt (_ & E & _)%Hall. by rw E.
  - intros uid qt p (_ & _ & E)%Hall. by rw E.
  - intros name n. simpl. case_bool_decide; [|done]. intros [= <-]. exists ∅. split; [apply world0|]. intros uid _ _. apply lookup_empty.
Qed.

(** Two of the three pods fit on the node, and are bound. *)
Lemma tasks_accounted_for_witness : ∃ w, bind_three [] = Some w ∧
  (w_rejected w ++ w_requeued w ++ (range_map (readyTasks (w_unit w))).*1 ++ ignoredTasks (w_unit w))%list ≡ₚ ["a"; "b"; "c"] ∧ length (w_bound w) = 2%nat.
Proof.
  destruct (tasks_accounted_for cf0 sc_assumed fit_plugins () lister (answers []) 0 "group" true 2 300 0 three _ cache0 three_ok) as (w & E & HP & _).
  exists w. split; [exact E|]. split; [exact HP|].
  assert (∃ w0, bind_three [] = Some w0 ∧ length (w_bound w0) = 2%nat) as (w0 & E0 & Hl) by (eexists; vm_compute; split; reflexivity).
  unfold bind_three in E0. rewrite E in E0. injection E0 as ->. exact Hl.
Defined.

Lemma binder_cache_agrees_witness : ∃ w, bind_three [] = Some w ∧ (∃ uid, uid ∈ w_rejected w ∧ uid ∉ sc_assumed (w_cache w)).
Proof.
  destruct (binder_cache_agrees cf0 sc_assumed fit_plugins () lister (answers []) 0 "group" true 2 300 0 three _ cache0 three_ok) as (w & E & _ & H).
  exists w. split; [exact E|].
  assert (∃ w0, bind_three [] = Some w0 ∧ is_Some (head (w_rejected w0))) as (w0 & E0 & uid & Hu) by (eexists; split; [vm_compute; reflexivity|by eexists]).
  unfold bind_three in E0. rewrite E in E0. injection E0 as ->. exists uid.
  assert (uid ∈ w_rejected w0) as Hin by by apply head_Some_elem_of. split; [exact Hin|by apply H].
Defined.

Lemma gang_binding_witness : ∃ w, bind_three [] = Some w ∧ size (readyTasks (w_unit w)) = 2%nat ∧ (2 ≤ Z.of_nat (length (w_attempted w)))%Z.
Proof.
  destruct (gang_binding cf0 sc_assumed fit_plugins () lister (answers []) 0 "group" 2 300 0 three _ cache0 three_ok) as (w & E & _ & H & _); [reflexivity|].
  exists w. split; [exact E|].
  assert (∃ w0, bind_three [] = Some w0 ∧ size (readyTasks (w_unit w0)) = 2%nat ∧ w_attempted w0 ≠ []) as (w0 & E0 & Hs & Ha)
    by (eexists; split; [vm_compute; reflexivity|split; [vm_compute; reflexivity|discriminate]]).
  unfold bind_three in E0. rewrite E in E0. injection E0 as ->. split; [exact Hs|]. destruct H as [H|H]; [by destruct Ha|exact H].
Defined.

(** The pod that was bound is rejected as well when the other one cannot be bound: it
    is forgotten by the cache although the API server has it on the node. *)
Theorem bound_pod_rejected : ∃ w uid, bind_three ["b"] = Some w ∧ uid ∈ w_bound w ∧ uid ∈ w_rejected w ∧ uid ∉ sc_assumed (w_cache w).
Proof.
  assert (∃ w uid, bind_three ["b"] = Some w ∧ bool_decide (uid ∈ w_bound w ∧ uid ∈ w_rejected w ∧ uid ∉ sc_assumed (w_cache w)) = true) as (w & uid & E & H)
    by (exists (default (mkWorld cache0 (NewBindingUnitInfo "" true 0 ∅) [] [] [] []) (bind_three ["b"])), (default "" (w ← bind_three ["b"]; head (w_bound w))); vm_compute; split; reflexivity).
  exists w, uid. split; [exact E|]. by apply bool_decide_eq_true_1 in H.
Qed.

(** Two new tasks on the node. *)
Definition new_task (uid : string) (m : Z) : runningUnitInfo := {| ru_uid := uid; suggestedNode := "node"; ru_victims := []; clonedPod := Some (task_pod uid m) |}.
Definition unit0 : bindingUnitInfo := set_ever false (NewBindingUnitInfo "group" true 2 three).
Definition unit1 : bindingUnitInfo := default unit0 (AddNewTask (new_task "a" 700) unit0).
Definition unit2 : bindingUnitInfo := default unit0 (AddNewTask (new_task "c" 700) unit1).
Definition where2 : Places := <["c" := PNew "node"]> (<["a" := PNew "node"]> ∅).
Definition shape2 := ("group", true, 2%Z, 3%Z, false).
Lemma unit2_good : good sc_assumed ∅ ["a"; "c"] shape2 cache0 where2 unit2.
Proof.
  assert (rui_ok "a" (new_task "a" 700) ∧ rui_ok "c" (new_task "c" 700)) as [Ha Hc] by (split; (split; [done|by intros p [= <-]])).
  destruct (add_new (A := ∅) unit0 unit1 ∅ (new_task "a" 700)) as [L1 _]; [apply fresh_unit_located|done|done|set_solver|vm_compute; reflexivity|].
  destruct (add_new (A := ∅) unit1 unit2 _ (new_task "c" 700) L1) as [L2 _]; [done|done|set_solver|vm_compute; reflexivity|].
  split; [exact L2| | |vm_compute; reflexivity].
  - intros uid. unfold where2. rw !is_Some_insert !elem_of_cons elem_of_nil. split; [intros [[[? ?]|?]|?]; [done|tauto..]|naive_solver].
  - intros uid Hu. exists (task uid 700). split.
    + apply elem_of_cons in Hu as [-> |Hu]; [vm_compute; reflexivity|]. apply elem_of_cons in Hu as [-> |Hu%elem_of_nil]; [vm_compute; reflexivity|done].
    + split; simpl; try done; set_solver.
Qed.
Lemma accepted_tasks_fit_witness : ∃ u', checkTasks cf0 fit_plugins "node" cache0 unit2 = Some u' ∧ size (readyTasks u') = 1%nat ∧
  node_checked cf0 fit_plugins cache0 unit2 "node"
    (λ uid, is_Some (tasks_on "node" unit2 !! uid) ∧ (is_Some (readyTasks u' !! uid) ∨ is_Some (waitingTasks u' !! uid))).
Proof.
  destruct (accepted_tasks_fit cf0 sc_assumed fit_plugins ∅ ["a"; "c"] shape2 cache0 unit2 where2 "node" unit2_good) as (u' & E & H).
  - intros name n. simpl. case_bool_decide; [|done]. intros [= <-]. exists ∅. split; [apply world0|]. intros uid _ _. apply lookup_empty.
  - assert (∃ u1, checkTasks cf0 fit_plugins "node" cache0 unit2 = Some u1 ∧ size (readyTasks u1) = 1%nat ∧
      ∃ uid, is_Some (tasks_on "node" unit2 !! uid) ∧ is_Some (readyTasks u1 !! uid)) as (u1 & E1 & Hs & uid & H1 & H2).
    { eexists. split; [vm_compute; reflexivity|]. split; [vm_compute; reflexivity|].
      first [exists "a"; split; vm_compute; eexists; reflexivity | exists "c"; split; vm_compute; eexists; reflexivity]. }
    rewrite E in E1. injection E1 as ->. exists u1. split; [exact E|]. split; [exact Hs|].
    destruct H as [H|H]; [|exact H]. destruct (H uid). split; [exact H1|by left].
Defined.
End BinderExamples.
